(* ===== verification/_CoqProject ===== *)
-Q . S2P
Prelude.v
Doubles.v
Text.v
Paths.v
Graphs.v
CByteArray.v
Edge.v
EdgeStream.v
Gapbs.v
Threads.v
Validate.v
Readers.v
MetisReader.v
Zlib.v
GraphalyticsReader.v
Graphlog.v
GraphlogVertices.v
Sssp.v
SsspSafe.v
Bfs.v
Csr.v
CsrBfs.v
Wcc.v
CsrWcc.v
CsrRank.v
CsrLcc.v
CsrSssp.v
AdjList.v
AdjKernels.v
AdjSssp.v
Interface.v
ReaderLoad.v
Message.v
Network.v
Client.v
Statistics.v
UpdateLog.v
Aging2Worker.v
Aging2Run.v
Aging2Load.v
Aging2Master.v
Aging2Vertices.v
Aging2Latency.v
Aging2Protocol.v
Aging2Config.v
Aging2Execute.v
Snapshot.v
SnapshotScan.v
SnapshotSssp.v
Database.v
MemDatabase.v
Gtx.v
GtxKernels.v
LiveGraph.v
LiveGraphKernels.v
Teseo.v
TeseoKernels.v
TeseoReal.v
