(* ===== verification/Prelude.v ===== *)
(** * The GFE graph driver

    A development on the program under [src/]: a driver for graph libraries that
    inserts and removes vertices and edges through one interface and runs the
    six kernels of the Graphalytics benchmark (BFS, PageRank, WCC, CDLP, LCC,
    SSSP) on each of them. The graphs come from files in several formats, the
    library may be in another process, and an experiment replays a log of updates
    with many threads.

    ** The parts of the program and the files

    - [Prelude]: machine integers with their wrap-around, doubles (the
      specification of IEEE 754 of the standard library, round to nearest
      even), the outcomes [res] of a call (a value, a C++ exception, undefined
      behaviour, missing fuel), arrays, the traversal order of the unordered
      containers, lemmas and tactics that all files share.
    - [Graphs]: walks, distances and components of an abstract graph; [Doubles],
      [Paths]: the rounding of sums of doubles, shortest walks whose weights are
      added in double arithmetic.
    - [CByteArray], [Edge], [EdgeStream]: [graph/cbytearray], [graph/edge],
      [graph/edge_stream], [graph/vertex_list]: packed arrays of bytes, edges,
      streams of edges that are sorted by permutations computed in parallel.
    - [Text]: the functions of the C and C++ standard library on the text of
      files ([strtoull], [strtod], [getline], the state of a stream).
      [Validate]: [utility/graphalytics_validate], the comparison of a file of
      results with a file of references.
    - [Gapbs]: the schedule of the OpenMP loops ([Omp]), sums of a reduction
      ([OmpReduce] in [CsrRank]), the timer, and the queue and bitmap of
      [third-party/gapbs/gapbs.hpp].
    - [Bfs], [Wcc]: the main loops of the direction-optimising BFS and of WCC,
      that several implementations share, over interfaces ([BfsSteps],
      [BfsLaws], [WccLaws]) whose laws the implementations prove. The loops of
      WCC race on the labels: their iterations are programs of single accesses
      ([Access]) that interleave as the schedule says ([race] of [Threads],
      [omp_turn]).
    - [Sssp], [SsspSafe]: the delta-stepping shortest paths that [CSR] and the
      drivers share, over a function that delivers the edges of a vertex.
    - [Csr], [CsrBfs], [CsrWcc], [CsrRank], [CsrLcc], [CsrSssp]:
      [library/baseline/csr], the static graph [CSR] and its variant [CSR_LCC]:
      loading from a stream, accessors, BFS, WCC, PageRank and CDLP, LCC and its
      sort-merge form with masters and workers, SSSP.
    - [AdjList], [AdjKernels], [AdjSssp]: [library/baseline/adjacency_list], the sequential
      reference implementation: a hash map of adjacency lists, its updates and
      kernels, with the abstract graph [Spec] that it represents. When the table
      rehashes, and whether its iterators survive, is the class [UnorderedMap].
    - [Interface]: [library/interface] and [library/baseline/dummy]: the class
      [UpdateInterface] of the update operations, the contract that the comments
      of the header give to them ([contract], on [Spec]), the class
      [UpdateContract] of the implementations that meet it, the class
      [LoadContract] of those that admit the updates of a load, and [load] and
      [batch], which are written in terms of the operations.
    - [Database]: the transactional library below the two drivers, as the class
      [Database] of its calls with the laws [DbLaws] (what a transaction sees),
      [DbProgress] (finitely many conflicts); the class [CommitTrue], for the
      operations that ignore what [commit] answers; the concurrent
      dictionary of vertices; the steps that both drivers share ([retry],
      [enroll], [connect], [upsert], [erase]) and the relation [db_repr] between
      a driver and the graph it represents. [MemDatabase] is an instance on
      which the examples are evaluated.
    - [Snapshot], [SnapshotScan], [SnapshotSssp]: the kernels over a transaction,
      given by a [Reader]: BFS, PageRank, LCC, scans, two-hop queries, SSSP. The text of the
      two drivers is the same up to the identifier of the first vertex.
    - [Gtx], [GtxKernels]: [library/gtx/gtx_driver]. [LiveGraph],
      [LiveGraphKernels]: [library/livegraph/livegraph_driver].
    - [Teseo], [TeseoKernels], [TeseoReal]: [library/teseo/teseo_driver] and
      [library/teseo/teseo_real_vtx], over the transactions of the library
      ([Teseo] with its laws [TeseoLaws], in which a conflict is an answer) and
      over what a transaction shows of its graph ([TeseoReads],
      [TeseoReadsLaws]). [mem_teseo] is an instance in memory.
    - [Readers], [MetisReader], [Zlib], [GraphalyticsReader], [Graphlog],
      [GraphlogVertices]: the readers of [reader/]: plain, DIMACS-9, METIS and
      binary files, Graphalytics files as text and compressed, the blocks of
      updates and the vertices of a graphlog file. [ReaderLoad] puts a reader in
      front of [Interface.load].
    - [Message], [Network], [Client]: [network/]: the messages as bytes in a
      buffer; the server, whose handler receives a request, calls the library, of
      which the class [Library] gives one function [invoke] for all calls, and
      sends the reply; the client, whose connections are paired with their
      handlers in the record [World].
    - [Statistics]: [experiment/details/latency] and [experiment/statistics].
    - [Threads]: programs of several threads as trees of atomic calls on a shared
      state, run in any order. [UpdateLog]: the graph that a log of updates gives
      in its order, and in any order that keeps the order per edge.
    - [Aging2Worker], [Aging2Run], [Aging2Load], [Aging2Master],
      [Aging2Vertices], [Aging2Latency], [Aging2Protocol], [Aging2Config],
      [Aging2Execute]: the aging experiment, [experiment/aging2_experiment],
      [experiment/details/aging2_worker] and [experiment/details/aging2_master]:
      the updates of a worker; their interleaving; the partition of the log
      among the workers; the master, that loads and performs it block by block;
      the removal of the temporary vertices; the cells for the latencies; the
      handshake of the master with the thread of a worker; the configuration; the
      whole run.

    ** How definitions correspond to the code

    A class is a record with the names of its fields, a method a definition with
    its name, which takes the object and returns it with the result; the fields
    that only cache or time something are left out. Loops are folds, or
    fixpoints with fuel where the code has [while]. A loop under
    [#pragma omp for] is a fold over [omp_order], any permutation of its
    iterations; every iteration is atomic, since what the threads share they
    access with one atomic operation or write with the same value, and the
    theorems hold for every permutation. The loops of WCC, which read and write
    shared labels without synchronisation, are the exception: any thread may make
    the next access at any time. The unordered containers are finite
    maps traversed in an unknown order ([HashOrder]). An out-of-range access of
    an array, a failed assertion, a lock that a thread takes twice and an
    iterator that is not valid are [Undef]; exceptions are [Exn]. What a kernel
    writes to a file is the list of its lines, what a reader reads the text or
    the bytes of the file. Threads interleave at their calls of the library and
    their accesses to shared variables, each of which is atomic; for the
    handshake, which uses a mutex and a condition variable, every step of either
    thread is a transition of its own.

    ** What the theorems show

    - Representation: [load_directed], [load_undirected], the edge stream and the
      reference implementation hold exactly the graph given to them; every
      sequence of admitted updates of the reference implementation, of GTX and
      of LiveGraph answers as the abstract graph does and represents it
      afterwards ([updates_refine], [gtx_updates_refine], [lg_updates_refine]),
      and one of Teseo does up to the updates that conflict ([teseo_updates_refine]),
      so that [load_correct] and [batch_correct], proved against the contract,
      hold for each of them.
    - Kernels: each kernel ends, for every schedule, hash order and timer, and
      computes what the benchmark defines: hop distances, least vertices of
      components, rounds of label propagation, steps of the PageRank iteration
      on doubles, clustering coefficients, least sums of weights along walks.
      Delta-stepping can run out of its memory ([csr_sssp_overflow]): the theorems
      say that it does when a frontier that it goes through is too long
      ([sssp_reaches], [frontier_outgrows]) and otherwise only for a walk too long
      for its bins; [csr_sssp_defined] is a condition under which it does not. The
      kernels of Teseo are those of the CSR on the graph of a transaction
      ([teseo_kernels_csr], [teseo_bfs_correct]), and over real vertices on dense
      graphs only ([real_bfs_dense], [real_kernels_csr]).
    - Validation: a result file is accepted exactly when it says what the
      reference says, up to the order of the lines, the names of the components
      or the tolerance ([exact_match_correct], [equivalence_match_correct],
      [epsilon_match_correct]); validation ends on every pair of files
      ([validation_terminates]).
    - Files: each reader delivers, in order, exactly what a file of its format
      holds ([plain_reader_roundtrip], [dimacs_reader_lines],
      [metis_reader_correct], [graphalytics_reader_correct],
      [zlib_reader_correct], [graphlog_reader_correct], [vertex_reader_correct]),
      and with [load_correct] a file becomes the graph written in it
      ([load_file_correct]).
    - Network: a message is read back as it was written ([message_roundtrip]);
      the client of a server sees the library that the server holds, as the
      protocol shows it ([seen]) and however the bytes are cut into pieces
      ([client_transparent]); a server that has been
      asked to ends with its last client ([last_client_stops_server]).
    - Experiments: under any interleaving the updates of the workers give the
      graph of the log, a stop leaves the graph of a valid part of it
      ([aging_updates_correct], [aging_stop_prefix]), the rounds of the master and
      the whole run do ([aging_experiment_correct], [execute_correct]); the
      handshake is safe and always comes to its end ([handshake_safe],
      [handshake_live]); every latency has a cell of its own
      ([prepare_latencies_slots]), every configuration is well formed
      ([configuration_well_formed]), and the statistics are what they are called
      ([latency_statistics_correct]).
    - Errors: what the code does outside of its intended use, or where it departs
      from its documentation, is stated as a theorem too
      ([sort_corrupts_power_of_256], [remove_vertex_dangling], [gtx_add_edge],
      [gtx_update_one_sided], [lg_add_edge_v2_again], [gtx_lcc_undefined],
      [csr_sssp_overflow], [candidates_spec], [sssp_infinity_accepted],
      [teseo_add_edge_v2], [ex_rehash]).

    ** Bounds and fuel

    The loops of BFS run at most as often as there are vertices plus one, those
    of WCC as the labels can decrease; the theorems on kernels say that the
    result is never [NoFuel]. Delta-stepping takes its bound from the caller: it
    ends since every update decreases a distance, which is one of finitely many
    doubles, and the theorems give a bound that is enough. The repetition of a
    transaction takes its bound from the caller; the theorems hold for every bound above the number of
    conflicts that the database still has in store, and [settles] says that the
    outcome is the same for every larger bound. The generation of candidates for
    the two-hop queries has no sufficient bound: it ends when enough different
    numbers have been drawn, which [candidates_spec] makes precise. Sizes are
    below [2^62], degrees of LCC below [2^32 - 1], where the machine integers of
    the code do not wrap; the blocks of a graphlog file are below [2^32] bytes,
    which is what zlib counts ([to_avail_out]). A pass of WCC takes at most 5
    accesses for an edge and 6 for a round of the compression of a vertex. A message
    is received in as many reads as it has bytes,
    if each delivers at least one. An update of a worker takes at most eleven
    atomic steps besides its retries, whose number the caller bounds; a run of
    the experiment is given with bounds for its retries and its turns, and the
    theorems hold for all that are large enough.

    ** Parameters

    The databases below the drivers ([Database], [Teseo]), the growth of a hash
    table ([UnorderedMap]), zlib (inflating a block or a
    stream in chunks), the random generators, [std::hash], the clock and what new
    memory contains are arguments of the definitions; the laws that are assumed
    of them are hypotheses or classes with an instance ([MemDatabase], and the
    functions of the examples). The layout of the circular array in which a
    worker keeps its updates is that of a queue.

    ** Not modelled

    The other drivers (Sortledton, LLAMA, GraphOne, Stinger, the
    micro-benchmarks), the other experiments, the kernels of the drivers that no
    code calls ([do_wcc], [do_cdlp]) and the variants of the aging experiment
    that no code calls (even partitions, a percentage of the edges, pure updates).
    Configuration of the program, its main functions, the list of implementations,
    sockets and signals, printing, saving of results, the measurement of time and
    memory and the tools are input and output; the hooks of the drivers that do
    nothing are left out of the experiment, as are the thread that reports its
    progress and the bounded wait after a stop. Interleavings inside an iteration
    of a parallel loop, except those of WCC, and inside a call of a library are not
    modelled; the conflicts that they cause in a transaction are. *)

From Stdlib Require Export ZArith Lia.
From Stdlib Require Export Floats.SpecFloat.
From stdpp Require Export base gmap sets list sorting.
#[export] Set Default Goal Selector "!".
Open Scope Z_scope.

(** ** Machine integers

    A [uint64_t] is a [Z] in [0, 2^64) and an [int64_t] a [Z] in
    [-2^63, 2^63); an operation that can leave the range wraps. *)

Definition u64_modulus : Z := 2 ^ 64.

Definition u64 (z : Z) : Z := z mod 2 ^ 64.

Definition i64 (z : Z) : Z := (z + 2 ^ 63) mod 2 ^ 64 - 2 ^ 63.

Definition u32 (z : Z) : Z := z mod 2 ^ 32.

Definition i32 (z : Z) : Z := (z + 2 ^ 31) mod 2 ^ 32 - 2 ^ 31.

Lemma i32_id z : - 2 ^ 31 <= z < 2 ^ 31 -> i32 z = z.
Proof. intros Hz. unfold i32. rewrite Z.mod_small; lia. Qed.

Definition is_u64 (z : Z) : Prop := 0 <= z < 2 ^ 64.

Definition int64_max : Z := 2 ^ 63 - 1.

Definition uint64_max : Z := 2 ^ 64 - 1.

Lemma u64_id z : is_u64 z -> u64 z = z.
Proof. intros H. apply Z.mod_small, H. Qed.

Lemma u64_range z : is_u64 (u64 z).
Proof. apply Z.mod_pos_bound. lia. Qed.

Lemma i64_id z : - 2 ^ 63 <= z < 2 ^ 63 -> i64 z = z.
Proof. intros H. unfold i64. rewrite Z.mod_small; lia. Qed.

Lemma i64_range z : - 2 ^ 63 <= i64 z < 2 ^ 63.
Proof.
  unfold i64. pose proof (Z.mod_pos_bound (z + 2 ^ 63) (2 ^ 64)). lia.
Qed.

(** ** Doubles

    An IEEE 754 binary64 number is a [spec_float] whose operations round to
    nearest, ties to even, with 53 bits of precision: the arithmetic of the
    standard library's specification of floats, which is executable. *)

Notation double := spec_float.

Definition dadd : double -> double -> double := SFadd 53 1024.
Definition dsub : double -> double -> double := SFsub 53 1024.
Definition dmul : double -> double -> double := SFmul 53 1024.
Definition ddiv : double -> double -> double := SFdiv 53 1024.
Definition dlt : double -> double -> bool := SFltb.
Definition dle : double -> double -> bool := SFleb.
Definition deq : double -> double -> bool := SFeqb.

Definition disnan (x : double) : bool :=
  match x with S754_nan => true | _ => false end.

(** The conversion [static_cast<double>] of an integer. *)
Definition double_of_Z (z : Z) : double := binary_normalize 53 1024 z 0 false.

(** The integer part of a finite double. *)
Definition dtrunc (x : double) : option Z :=
  match x with
  | S754_zero _ => Some 0
  | S754_finite s m e => Some (if s then - Z.shiftl (Z.pos m) e else Z.shiftl (Z.pos m) e)
  | _ => None
  end.

(** [ceil]. *)
Definition dceil (x : double) : double :=
  match x with
  | S754_finite s m e =>
    if e <? 0 then
      if s then (let q := Z.shiftr (Z.pos m) (- e) in if q =? 0 then S754_zero true else double_of_Z (- q))
      else double_of_Z (- Z.shiftr (- Z.pos m) (- e))
    else x
  | _ => x
  end.

Definition d_zero : double := S754_zero false.
Definition d_one : double := double_of_Z 1.
Definition d_inf : double := S754_infinity false.
Definition d_max : double := S754_finite false (2 ^ 53 - 1) 971.
Definition d_nan : double := S754_nan.

#[export] Instance double_eq_dec : EqDecision double.
Proof. unfold EqDecision, Decision. decide equality; try apply Z.eq_dec; decide equality. Defined.

(** ** Outcomes

    What a call produces: a value, a C++ exception, [Undef] where the code
    runs into an assertion or undefined behaviour, and [NoFuel] where the
    bound the model puts on a loop was too small (the theorems show that the
    bounds chosen are not). *)

Inductive exn : Set :=
  | TimeoutError
  | InvalidArgument
  | OutOfRange
  | RuntimeError
  | ReaderError
  | GraphalyticsValidateError
  | RpcError
  | NetworkError
  | LogicalError.

#[export] Instance exn_eq_dec : EqDecision exn.
Proof. solve_decision. Defined.

Inductive res (A : Type) : Type :=
  | Val (a : A)
  | Exn (e : exn)
  | Undef
  | NoFuel.

Arguments Val {A} a.
Arguments Exn {A} e.
Arguments Undef {A}.
Arguments NoFuel {A}.

(** [static_cast] of a double to an integer type, with the given bounds: the
    fraction is dropped; out of the bounds the behaviour is undefined. *)
Definition static_cast (lo hi : Z) (x : double) : res Z :=
  match dtrunc x with
  | Some z => if (lo <=? z) && (z <? hi) then Val z else Undef
  | None => Undef
  end.

#[export] Instance res_ret : MRet res := fun A a => Val a.
#[export] Instance res_bind : MBind res :=
  fun A B f m =>
    match m with
    | Val a => f a
    | Exn e => Exn e
    | Undef => Undef
    | NoFuel => NoFuel
    end.

#[export] Instance res_fmap : FMap res :=
  fun A B f m => m ≫= fun a => Val (f a).

(** [it != end(...)]: an iterator that an assertion requires to be valid. *)
Definition require {A} (o : option A) : res A :=
  match o with Some a => Val a | None => Undef end.

(** [container.at(key)]: raises [std::out_of_range]. *)
Definition at_ {A} (o : option A) : res A :=
  match o with Some a => Val a | None => Exn OutOfRange end.

Fixpoint res_fold {A B} (f : A -> B -> res A) (a : A) (l : list B) : res A :=
  match l with
  | [] => Val a
  | b :: l => a' ← f a b; res_fold f a' l
  end.

Lemma res_bind_val {A B} (m : res A) (f : A -> res B) b :
  m ≫= f = Val b -> exists a, m = Val a /\ f a = Val b.
Proof. destruct m; simpl; intros H; try discriminate; eauto. Qed.

Lemma res_bind_Val_l {A B} (a : A) (f : A -> res B) : Val a ≫= f = f a.
Proof. reflexivity. Qed.

Lemma res_bind_ext {A B} (m : res A) (f g : A -> res B) : (forall a, f a = g a) -> (m ≫= f) = (m ≫= g).
Proof. intros Hfg. destruct m; [apply Hfg|done..]. Qed.

Lemma res_fold_ext {A B} (f g : A -> B -> res A) l : (forall a b, f a b = g a b) -> forall a, res_fold f a l = res_fold g a l.
Proof.
  intros Hfg. induction l as [|b l IH]; intros a; [done|]. cbn [res_fold]. rewrite Hfg. by apply res_bind_ext.
Qed.

Lemma res_fold_ext_in {A B} (f g : A -> B -> res A) l : (forall a b, b ∈ l -> f a b = g a b) -> forall a, res_fold f a l = res_fold g a l.
Proof.
  induction l as [|b l IH]; intros Hfg a; [done|]. cbn [res_fold]. rewrite Hfg by apply list_elem_of_here. apply res_bind_ext.
  apply IH. intros a' b' Hb. apply Hfg. by apply list_elem_of_further.
Qed.

(** A step that is undefined makes the loop undefined, when no step before it raises. *)
Lemma res_fold_undef {A B} (P : A -> Prop) (f : A -> B -> res A) l b a :
  b ∈ l -> P a -> (forall a, P a -> f a b = Undef) ->
  (forall a c, c ∈ l -> P a -> f a c = Undef \/ exists a', f a c = Val a' /\ P a') ->
  res_fold f a l = Undef.
Proof.
  intros Hb Ha Hundef Hstep. revert a Ha. induction l as [|c l IH]; intros a Ha.
  { by apply elem_of_nil in Hb. }
  simpl. apply elem_of_cons in Hb as [<-|Hb]; [by rewrite Hundef|].
  destruct (Hstep a c ltac:(left) Ha) as [->|(a' & -> & Ha')]; [done|]. rewrite res_bind_Val_l.
  apply IH; [done| |done]. intros a'' d Hd. apply Hstep. by right.
Qed.

Lemma res_fold_collect {A B} (f : B -> A) l : forall acc, res_fold (fun acc b => Val (acc ++ [f b])) acc l = Val (acc ++ (f <$> l)).
Proof.
  induction l as [|b l IH]; intros acc; [by rewrite app_nil_r|]. cbn [res_fold]. by rewrite res_bind_Val_l, IH, <- app_assoc.
Qed.

Lemma res_fold_fmap {A B C} (f : A -> C -> res A) (h : B -> C) l : forall a,
  res_fold f a (h <$> l) = res_fold (fun a b => f a (h b)) a l.
Proof. induction l as [|b l IH]; intros a; [done|]. rewrite fmap_cons. cbn [res_fold]. by apply res_bind_ext. Qed.

Lemma res_fold_app {A B} (f : A -> B -> res A) a l1 l2 :
  res_fold f a (l1 ++ l2) = res_fold f a l1 ≫= fun a' => res_fold f a' l2.
Proof.
  revert a. induction l1 as [|b l1 IH]; intros a; simpl; [done|].
  destruct (f a b); simpl; auto.
Qed.

(** A loop whose body cannot fail from a state in the invariant returns a
    state in the invariant. *)
Lemma res_fold_inv {A B} (I : list B -> A -> Prop) (f : A -> B -> res A) l a :
  I [] a ->
  (forall done b todo a, l = done ++ b :: todo -> I done a ->
     exists a', f a b = Val a' /\ I (done ++ [b]) a') ->
  exists a', res_fold f a l = Val a' /\ I l a'.
Proof.
  intros H0 Hstep.
  assert (forall done todo a, l = done ++ todo -> I done a ->
            exists a', res_fold f a todo = Val a' /\ I l a') as Hgen.
  { intros done todo. revert done.
    induction todo as [|b todo IH]; intros done a1 -> Ha; simpl.
    - rewrite app_nil_r in *. eauto.
    - destruct (Hstep done b todo a1 eq_refl Ha) as (a2 & -> & Ha2). simpl.
      apply (IH (done ++ [b])); [by rewrite <- app_assoc|done]. }
  by apply (Hgen []).
Qed.

(** The same for a loop whose body may raise one exception. *)
Lemma res_fold_inv_or {A B} (T : Prop) (e : exn) (I : list B -> A -> Prop) (f : A -> B -> res A) l a :
  I [] a ->
  (forall done b todo a, l = done ++ b :: todo -> I done a ->
     (f a b = Exn e /\ T) \/ exists a', f a b = Val a' /\ I (done ++ [b]) a') ->
  (res_fold f a l = Exn e /\ T) \/ exists a', res_fold f a l = Val a' /\ I l a'.
Proof.
  intros H0 Hstep.
  assert (forall done todo a, l = done ++ todo -> I done a ->
            (res_fold f a todo = Exn e /\ T) \/
            exists a', res_fold f a todo = Val a' /\ I l a') as Hgen.
  { intros done todo. revert done.
    induction todo as [|b todo IH]; intros done a1 -> Ha; simpl.
    - rewrite app_nil_r in *. eauto.
    - destruct (Hstep done b todo a1 eq_refl Ha) as [[-> ?]|(a2 & -> & Ha2)]; [by left|]. simpl.
      apply (IH (done ++ [b])); [by rewrite <- app_assoc|done]. }
  by apply (Hgen []).
Qed.

(** The same for a loop that cannot fail at all. *)
Lemma foldl_inv {A B} (I : list B -> A -> Prop) (f : A -> B -> A) l a :
  I [] a ->
  (forall done b todo a, l = done ++ b :: todo -> I done a -> I (done ++ [b]) (f a b)) ->
  I l (foldl f a l).
Proof.
  intros H0 Hstep.
  assert (forall done todo a, l = done ++ todo -> I done a -> I l (foldl f a todo)) as Hgen.
  { intros done todo. revert done.
    induction todo as [|b todo IH]; intros done a1 -> Ha; simpl.
    - by rewrite app_nil_r in *.
    - apply (IH (done ++ [b])); [by rewrite <- app_assoc|]. by apply (Hstep done b todo). }
  by apply (Hgen []).
Qed.

(** More fuel than enough does not change the outcome of [f]. *)
Definition fuel_stable {A} (f : nat -> res A) : Prop :=
  forall fuel fuel' a, f fuel = Val a -> (fuel <= fuel')%nat -> f fuel' = Val a.

Lemma fuel_stable_bind {A B} (f : nat -> res A) (g : A -> res B) :
  fuel_stable f -> fuel_stable (fun fuel => f fuel ≫= g).
Proof.
  intros Hf fuel fuel' b Hb Hle. apply res_bind_val in Hb as (a & Ha & Hb).
  by rewrite (Hf _ _ _ Ha Hle).
Qed.

Lemma fuel_stable_const {A} (r : res A) : fuel_stable (fun _ => r).
Proof. by intros fuel fuel' a. Qed.

(** Enough fuel gives the outcome [r]. *)
Definition settles {A} (f : nat -> res A) (r : res A) : Prop :=
  exists N, forall fuel, (N <= fuel)%nat -> f fuel = r.

Lemma settles_bind {A B} (f : nat -> res A) (g : A -> nat -> res B) a r :
  settles f (Val a) -> settles (g a) r -> settles (fun fuel => f fuel ≫= fun x => g x fuel) r.
Proof.
  intros [N1 H1] [N2 H2]. exists (N1 `max` N2)%nat. intros fuel Hf.
  rewrite H1 by lia. rewrite res_bind_Val_l. apply H2. lia.
Qed.

Lemma settles_exn {A B} (f : nat -> res A) (g : A -> nat -> res B) x :
  settles f (Exn x) -> settles (fun fuel => f fuel ≫= fun x => g x fuel) (Exn x).
Proof. intros [N HN]. exists N. intros fuel Hf. by rewrite HN. Qed.

Lemma settles_ext {A} (f g : nat -> res A) r :
  (forall fuel, f fuel = g fuel) -> settles g r -> settles f r.
Proof. intros Hfg [N HN]. exists N. intros fuel Hf. rewrite Hfg. by apply HN. Qed.

Lemma settles_val {A} (a : A) : settles (fun _ => Val a) (Val a).
Proof. by exists 0%nat. Qed.

(** ** Iteration order of the unordered containers

    The standard leaves the order in which an [unordered_map] or
    [unordered_set] is traversed open. A [HashOrder] fixes some order; the
    theorems hold for every one. *)

Class HashOrder := {
  hash_iter : forall {V : Type}, gmap Z V -> list (Z * V);
  hash_iter_perm : forall {V : Type} (m : gmap Z V), hash_iter m ≡ₚ map_to_list m;
  hash_elems : gset Z -> list Z;
  hash_elems_perm : forall s : gset Z, hash_elems s ≡ₚ elements s;
}.

(** One such order, on which the examples are evaluated. *)
Definition map_order : HashOrder := {|
  hash_iter := fun V m => map_to_list m;
  hash_iter_perm := fun V m => Permutation_refl _;
  hash_elems := fun s => elements s;
  hash_elems_perm := fun s => Permutation_refl _;
|}.

Section hash_order.
Context `{HashOrder}.

Lemma elem_of_hash_iter {V} (m : gmap Z V) k v : (k, v) ∈ hash_iter m <-> m !! k = Some v.
Proof. rewrite hash_iter_perm. apply elem_of_map_to_list. Qed.

Lemma NoDup_hash_iter {V} (m : gmap Z V) : NoDup (hash_iter m).*1.
Proof. rewrite hash_iter_perm. apply NoDup_fst_map_to_list. Qed.

Lemma elem_of_hash_elems s k : k ∈ hash_elems s <-> k ∈ s.
Proof. rewrite hash_elems_perm. apply elem_of_elements. Qed.

Lemma NoDup_hash_elems s : NoDup (hash_elems s).
Proof. rewrite hash_elems_perm. apply NoDup_elements. Qed.

Lemma elem_of_hash_keys {V} (m : gmap Z V) k : k ∈ (hash_iter m).*1 <-> is_Some (m !! k).
Proof.
  rewrite list_elem_of_fmap. split.
  - intros ([k' v] & -> & Hin). exists v. by apply elem_of_hash_iter.
  - intros [v Hv]. exists (k, v). split; [done|]. by apply elem_of_hash_iter.
Qed.
End hash_order.

(** ** Arrays

    An array is a list; reading outside of it is undefined, as is writing. *)

Definition arr_get {A} (a : list A) (i : nat) : res A := require (a !! i).

Definition arr_set {A} (a : list A) (i : nat) (x : A) : res (list A) :=
  if decide (i < length a)%nat then Val (<[i := x]> a) else Undef.

Lemma arr_get_val {A} (a : list A) i x : a !! i = Some x -> arr_get a i = Val x.
Proof. intros H. unfold arr_get. by rewrite H. Qed.

Lemma arr_set_val {A} (a : list A) i x :
  (i < length a)%nat -> arr_set a i x = Val (<[i := x]> a).
Proof. intros H. unfold arr_set. by rewrite decide_True. Qed.

(** ** Sums of naturals *)

Lemma sum_list_with_app {A} (f : A -> nat) l1 l2 :
  sum_list_with f (l1 ++ l2) = (sum_list_with f l1 + sum_list_with f l2)%nat.
Proof. induction l1; simpl; lia. Qed.

Lemma sum_list_with_ext {A} (f g : A -> nat) l :
  (forall x, x ∈ l -> f x = g x) -> sum_list_with f l = sum_list_with g l.
Proof.
  induction l as [|x l IH]; intros Hfg; [done|]. cbn [sum_list_with]. rewrite Hfg by left. f_equal.
  apply IH. intros y Hy. apply Hfg. by right.
Qed.

Lemma sum_list_with_perm {A} (f : A -> nat) l1 l2 :
  l1 ≡ₚ l2 -> sum_list_with f l1 = sum_list_with f l2.
Proof. induction 1; simpl; lia. Qed.

(** ** Lists *)

Lemma filter_fmap {A B} (P : B -> Prop) `{!forall x, Decision (P x)} (f : A -> B) (l : list A) :
  filter P (f <$> l) = f <$> filter (fun x => P (f x)) l.
Proof.
  induction l as [|x l IH]; [done|]. cbn [fmap list_fmap]. rewrite !filter_cons.
  by destruct (decide (P (f x))); simpl; rewrite IH.
Qed.

(** Both count the intersection of the two lists. *)
Lemma filter_elem_swap (l k : list nat) :
  NoDup l -> NoDup k ->
  length (filter (fun x => x ∈ k) l) = length (filter (fun x => x ∈ l) k).
Proof.
  intros Hl Hk. apply Permutation_length, NoDup_Permutation; [by apply NoDup_filter..|].
  intros x. rewrite !list_elem_of_filter. tauto.
Qed.

(** ** Tactics and hints *)

Create HintDb gfe.

#[export] Hint Resolve u64_range i64_range u64_id : gfe.

(** Peel one bind of a computation that is known to return. *)
Ltac res_inv H :=
  let a := fresh "a" in let Ha := fresh "Ha" in
  apply res_bind_val in H as (a & Ha & H).

(** Continue after a step that returned, without unfolding anything else. *)
Ltac bind_val := change (Val ?x ≫= ?f) with (f x); cbv beta zeta.

(** The same, opening the pairs that the step returned. *)
Ltac bind_step := bind_val; cbv beta iota zeta.

(** Case on the innermost [decide], [if] or [match] of the goal. *)
Ltac step_case := first [case_decide | case_bool_decide | case_match]; simplify_eq/=.

