(* ===== verification/Doubles.v ===== *)
(** The order of the doubles and the rounding of their sums: what the kernels
    that add up weights need to know of IEEE 754. A double that is not negative
    has a [value], an integer when it is scaled by [2^1074]; a sum rounds the
    sum of the values to 53 bits, ties to even. *)

From S2P Require Import Prelude.

(** ** Values *)

Definition infinity_value : Z := 2 ^ 2098.

Definition value (x : double) : Z :=
  match x with
  | S754_finite false m e => Z.pos m * 2 ^ (e + 1074)
  | S754_infinity false => infinity_value
  | _ => 0
  end.

(** A bit pattern of a double that is not a NaN and not below zero. *)
Definition nonneg (x : double) : bool := valid_binary 53 1024 x && dle d_zero x.

(** ** Rounding an integer to 53 bits *)

Definition ulp_exp (v : Z) : Z := Z.max 0 (Z.log2 v - 52).

(** The nearest multiple of [2^k], in units of [2^k]. *)
Definition nearest (v k : Z) : Z :=
  let q := v / 2 ^ k in
  match 2 * (v mod 2 ^ k) ?= 2 ^ k with
  | Lt => q
  | Eq => if Z.even q then q else q + 1
  | Gt => q + 1
  end.

Definition round53 (v : Z) : Z := nearest v (ulp_exp v) * 2 ^ ulp_exp v.

Lemma nearest_bounds v k : 0 <= k -> v / 2 ^ k <= nearest v k <= v / 2 ^ k + 1.
Proof. intros Hk. unfold nearest. repeat case_match; lia. Qed.

Lemma nearest_mono v1 v2 k : 0 <= k -> v1 <= v2 -> nearest v1 k <= nearest v2 k.
Proof.
  intros Hk Hv. assert (0 < 2 ^ k) as Hp by lia.
  pose proof (Z.div_le_mono _ _ _ Hp Hv) as Hq.
  pose proof (nearest_bounds v1 k Hk). pose proof (nearest_bounds v2 k Hk).
  destruct (Z.eq_dec (v1 / 2 ^ k) (v2 / 2 ^ k)) as [Heq|]; [|lia].
  assert (v1 mod 2 ^ k <= v2 mod 2 ^ k) as Hm by (rewrite !Z.mod_eq, Heq; lia).
  unfold nearest. rewrite <- Heq.
  destruct (Z.compare_spec (2 * (v1 mod 2 ^ k)) (2 ^ k)), (Z.compare_spec (2 * (v2 mod 2 ^ k)) (2 ^ k));
    try destruct (Z.even _); lia.
Qed.

Lemma nearest_exact q k : 0 <= k -> nearest (q * 2 ^ k) k = q.
Proof.
  intros Hk. unfold nearest. rewrite Z.mod_mul, Z.div_mul by lia.
  destruct (Z.compare_spec (2 * 0) (2 ^ k)); lia.
Qed.

Lemma log2_bounds v : 0 < v -> 2 ^ Z.log2 v <= v < 2 ^ (Z.log2 v + 1).
Proof. intros Hv. pose proof (Z.log2_spec v Hv). rewrite Z.add_1_r. lia. Qed.

Lemma ulp_exp_bounds v : 0 < v ->
  0 <= ulp_exp v /\ v / 2 ^ ulp_exp v < 2 ^ 53 /\ (0 < ulp_exp v -> 2 ^ 52 <= v / 2 ^ ulp_exp v).
Proof.
  intros Hv. pose proof (log2_bounds v Hv) as [Hlo Hhi]. pose proof (Z.log2_nonneg v).
  unfold ulp_exp. split; [lia|]. destruct (Z.max_spec 0 (Z.log2 v - 52)) as [[? ->]|[? ->]].
  - split; [apply Z.div_lt_upper_bound; [lia|]|intros _; apply Z.div_le_lower_bound; [lia|]];
      rewrite <- Z.pow_add_r by lia.
    + by replace (Z.log2 v - 52 + 53) with (Z.log2 v + 1) by lia.
    + by replace (Z.log2 v - 52 + 52) with (Z.log2 v) by lia.
  - rewrite Z.pow_0_r, Z.div_1_r. split; [|lia]. eapply Z.lt_le_trans; [exact Hhi|].
    apply Z.pow_le_mono_r; lia.
Qed.

(** A number between two powers of two is rounded to one between them. *)
Lemma round53_bounds v : 0 < v -> 2 ^ Z.log2 v <= round53 v <= 2 ^ (Z.log2 v + 1).
Proof.
  intros Hv. pose proof (log2_bounds v Hv) as [Hlo Hhi]. pose proof (Z.log2_nonneg v).
  destruct (ulp_exp_bounds v Hv) as (Hk & Hq & Hq'). unfold round53.
  pose proof (nearest_bounds v (ulp_exp v) Hk) as Hn.
  destruct (Z.eq_dec (ulp_exp v) 0) as [Hz|Hnz].
  - rewrite Hz. pose proof (nearest_exact v 0 ltac:(lia)) as Hn0. rewrite Z.pow_0_r, Z.mul_1_r in Hn0 |- *.
    lia.
  - assert (2 ^ Z.log2 v = 2 ^ 52 * 2 ^ ulp_exp v /\ 2 ^ (Z.log2 v + 1) = 2 ^ 53 * 2 ^ ulp_exp v) as [-> ->].
    { rewrite <- !Z.pow_add_r by lia. split; f_equal; unfold ulp_exp in *; lia. }
    split; apply Z.mul_le_mono_nonneg_r; lia.
Qed.

Lemma round53_mono v1 v2 : 0 <= v1 -> v1 <= v2 -> round53 v1 <= round53 v2.
Proof.
  intros H1 Hv. destruct (Z.eq_dec v1 0) as [->|Hn1].
  { change (round53 0) with 0. destruct (Z.eq_dec v2 0) as [->|]; [done|].
    pose proof (round53_bounds v2 ltac:(lia)). lia. }
  pose proof (Z.log2_le_mono _ _ Hv) as Hl.
  destruct (Z.eq_dec (Z.log2 v1) (Z.log2 v2)) as [Heq|Hne].
  - unfold round53. assert (ulp_exp v1 = ulp_exp v2) as -> by (unfold ulp_exp; by rewrite Heq).
    apply Z.mul_le_mono_nonneg_r; [lia|]. apply nearest_mono; [unfold ulp_exp; lia|done].
  - etrans; [apply round53_bounds; lia|]. etrans; [|apply round53_bounds; lia].
    apply Z.pow_le_mono_r; lia.
Qed.

(** Numbers of at most 53 bits are not rounded. *)
Lemma round53_exact m k : 0 <= k -> 0 < m < 2 ^ 53 -> (0 < k -> 2 ^ 52 <= m) ->
  round53 (m * 2 ^ k) = m * 2 ^ k /\ ulp_exp (m * 2 ^ k) = k.
Proof.
  intros Hk Hm Hnorm. assert (ulp_exp (m * 2 ^ k) = k) as Hu.
  { unfold ulp_exp. rewrite Z.log2_mul_pow2 by lia.
    assert (Z.log2 m < 53) by (apply Z.log2_lt_pow2; lia).
    destruct (Z.eq_dec k 0); [lia|].
    assert (52 <= Z.log2 m) by (apply Z.log2_le_pow2; lia). lia. }
  split; [|done]. unfold round53. by rewrite Hu, nearest_exact.
Qed.

(** ** The comparisons are those of the values *)

Lemma digits2_log2 p : Z.pos (digits2_pos p) = Z.log2 (Z.pos p) + 1.
Proof.
  induction p as [p IH|p IH|]; cbn [digits2_pos]; rewrite ?Pos2Z.inj_succ, ?IH; [| |done].
  - rewrite (Pos2Z.inj_xI p), Z.log2_succ_double by lia. lia.
  - rewrite (Pos2Z.inj_xO p), Z.log2_double by lia. lia.
Qed.

Lemma fexp_eq e : fexp 53 1024 e = Z.max (e - 53) (-1074).
Proof. done. Qed.

Lemma bounded_spec m e : bounded 53 1024 m e = true <->
  -1074 <= e <= 971 /\ Z.pos m < 2 ^ 53 /\ (-1074 < e -> 2 ^ 52 <= Z.pos m).
Proof.
  unfold bounded, canonical_mantissa. rewrite andb_true_iff, Z.eqb_eq, Z.leb_le, fexp_eq, digits2_log2.
  pose proof (Z.log2_lt_pow2 (Z.pos m) 53 ltac:(lia)).
  pose proof (Z.log2_le_pow2 (Z.pos m) 52 ltac:(lia)). lia.
Qed.

Lemma nonneg_finite s m e : nonneg (S754_finite s m e) = true <-> s = false /\ bounded 53 1024 m e = true.
Proof. unfold nonneg. simpl. destruct s; rewrite andb_true_iff; simpl; naive_solver. Qed.

Lemma nonneg_cases x : nonneg x = true ->
  (exists s, x = S754_zero s) \/ x = d_inf \/
  exists m e, x = S754_finite false m e /\ bounded 53 1024 m e = true.
Proof.
  destruct x as [s|[]| |s m e]; intros Hx; [by eauto|done|by eauto|done|].
  apply nonneg_finite in Hx as [-> ?]. eauto 6.
Qed.

Lemma value_finite m e : bounded 53 1024 m e = true ->
  0 < value (S754_finite false m e) < infinity_value /\
  round53 (value (S754_finite false m e)) = value (S754_finite false m e) /\
  ulp_exp (value (S754_finite false m e)) = e + 1074.
Proof.
  intros (He & Hm & Hn)%bounded_spec. cbn [value]. split; [split; [lia|]|].
  - eapply Z.lt_le_trans; [apply Z.mul_lt_mono_pos_r; [lia|exact Hm]|].
    rewrite <- Z.pow_add_r by lia. apply Z.pow_le_mono_r; lia.
  - apply round53_exact; lia.
Qed.

Lemma value_range x : nonneg x = true -> 0 <= value x <= infinity_value.
Proof.
  intros [[s ->]|[->|(m & e & -> & Hb)]]%nonneg_cases; [cbn; unfold infinity_value; lia..|].
  pose proof (value_finite m e Hb). lia.
Qed.

Lemma compare_finite m1 e1 m2 e2 :
  bounded 53 1024 m1 e1 = true -> bounded 53 1024 m2 e2 = true ->
  SFcompare (S754_finite false m1 e1) (S754_finite false m2 e2) =
    Some (value (S754_finite false m1 e1) ?= value (S754_finite false m2 e2)).
Proof.
  assert (forall m1 e1 m2 e2, bounded 53 1024 m1 e1 = true -> bounded 53 1024 m2 e2 = true -> e1 < e2 ->
    value (S754_finite false m1 e1) < value (S754_finite false m2 e2)) as Hlt.
  { clear. intros m1 e1 m2 e2 (He1 & Hm1 & _)%bounded_spec (He2 & _ & Hm2)%bounded_spec He. cbn [value].
    apply Z.lt_le_trans with (2 ^ 53 * 2 ^ (e1 + 1074)); [apply Z.mul_lt_mono_pos_r; lia|].
    apply Z.le_trans with (2 ^ 52 * 2 ^ (e2 + 1074)); [|apply Z.mul_le_mono_nonneg_r; lia].
    rewrite <- !Z.pow_add_r by lia. apply Z.pow_le_mono_r; lia. }
  intros H1 H2. cbn [SFcompare]. f_equal. destruct (Z.compare_spec e1 e2) as [->|He|He].
  - cbn [value]. rewrite <- Zmult_compare_compat_r; [done|].
    apply bounded_spec in H2. apply Z.lt_gt, Z.pow_pos_nonneg; lia.
  - symmetry. by apply Z.compare_lt_iff, Hlt.
  - symmetry. by apply Z.compare_gt_iff, Hlt.
Qed.

Lemma compare_value x y : nonneg x = true -> nonneg y = true ->
  SFcompare x y = Some (value x ?= value y).
Proof.
  intros Hx Hy. assert (0 < infinity_value) as Hinf by (unfold infinity_value; lia).
  destruct (nonneg_cases x Hx) as [[s1 ->]|[->|(m1 & e1 & -> & H1)]];
  destruct (nonneg_cases y Hy) as [[s2 ->]|[->|(m2 & e2 & -> & H2)]]; try done;
    try (by apply compare_finite); try pose proof (value_finite _ _ H1); try pose proof (value_finite _ _ H2);
    cbn [SFcompare d_inf value] in *; f_equal; symmetry;
    (apply Z.compare_lt_iff; lia) || (apply Z.compare_gt_iff; lia).
Qed.

Lemma dle_value x y : nonneg x = true -> nonneg y = true -> dle x y = (value x <=? value y).
Proof. intros Hx Hy. unfold dle, SFleb. rewrite compare_value by done. unfold Z.leb. by destruct (_ ?= _). Qed.

Lemma dlt_value x y : nonneg x = true -> nonneg y = true -> dlt x y = (value x <? value y).
Proof. intros Hx Hy. unfold dlt, SFltb. rewrite compare_value by done. unfold Z.ltb. by destruct (_ ?= _). Qed.

(** ** Shifting to the right *)

(** The record of a right shift by [i] of [v]. *)
Definition shifted (v i : Z) (r : shr_record) : Prop :=
  shr_m r = v / 2 ^ i /\
  loc_of_shr_record r =
    if v mod 2 ^ i =? 0 then loc_Exact else loc_Inexact (2 * (v mod 2 ^ i) ?= 2 ^ i).

Lemma shifted_step v i r : 0 <= v -> 0 <= i -> shifted v i r -> shifted v (i + 1) (shr_1 r).
Proof.
  intros Hv Hi [Hm Hl]. destruct r as [m br bs]. simpl in Hm. subst m.
  pose proof (Z.mod_pos_bound v (2 ^ i) ltac:(lia)) as Hmod. unfold shifted.
  assert (2 ^ (i + 1) = 2 * 2 ^ i) as -> by (rewrite Z.add_1_r, Z.pow_succ_r; lia).
  assert (v / (2 * 2 ^ i) = v / 2 ^ i / 2) as -> by (rewrite Z.mul_comm, Z.div_div; lia).
  assert (v mod (2 * 2 ^ i) = 2 ^ i * ((v / 2 ^ i) mod 2) + v mod 2 ^ i) as ->
    by (rewrite (Z.mul_comm 2), Z.rem_mul_r; lia).
  set (q := v / 2 ^ i) in *. set (r := v mod 2 ^ i) in *. assert (0 <= q) as Hq by (apply Z.div_pos; lia).
  clearbody q r. generalize dependent (2 ^ i). intros p Hl Hr.
  assert (br || bs = negb (r =? 0)) as Hs.
  { destruct br, bs; simpl in Hl; destruct (Z.eqb_spec r 0); done. }
  assert (forall b, loc_of_shr_record {| shr_m := q / 2; shr_r := b; shr_s := br || bs |} =
    if (p * Z.b2z b + r =? 0) then loc_Exact else loc_Inexact (2 * (p * Z.b2z b + r) ?= 2 * p)) as Hloc.
  { intros b. rewrite Hs. destruct b, (Z.eqb_spec r 0) as [->|Hnz]; simpl.
    - rewrite (proj2 (Z.eqb_neq _ _)) by lia. f_equal. symmetry. apply Z.compare_eq_iff. lia.
    - rewrite (proj2 (Z.eqb_neq _ _)) by lia. f_equal. symmetry. apply Z.compare_gt_iff. lia.
    - by rewrite (proj2 (Z.eqb_eq _ _)) by lia.
    - rewrite (proj2 (Z.eqb_neq _ _)) by lia. f_equal. symmetry. apply Z.compare_lt_iff. lia. }
  destruct q as [|[q|q|]|q]; [| | | |lia].
  - specialize (Hloc false). by rewrite Z.mod_0_l, Z.div_0_l in *.
  - specialize (Hloc true). rewrite Pos2Z.inj_xI in *.
    assert ((2 * Z.pos q + 1) / 2 = Z.pos q /\ (2 * Z.pos q + 1) mod 2 = 1) as [Hd ->]
      by (split; Z.to_euclidean_division_equations; lia).
    rewrite Hd in *. done.
  - specialize (Hloc false). rewrite Pos2Z.inj_xO in *.
    assert ((2 * Z.pos q) / 2 = Z.pos q /\ (2 * Z.pos q) mod 2 = 0) as [Hd ->]
      by (split; Z.to_euclidean_division_equations; lia).
    rewrite Hd in *. done.
  - by specialize (Hloc true).
Qed.

Lemma shifted_iter v n : forall i r, 0 <= v -> 0 <= i -> shifted v i r ->
  shifted v (i + Z.pos n) (SpecFloat.iter_pos shr_1 n r).
Proof.
  induction n as [n IH|n IH|]; intros i r Hv Hi Hr; cbn [SpecFloat.iter_pos].
  - replace (i + Z.pos n~1) with (i + 1 + Z.pos n + Z.pos n) by lia.
    apply IH; [done|lia|]. apply IH; [done|lia|]. by apply shifted_step.
  - replace (i + Z.pos n~0) with (i + Z.pos n + Z.pos n) by lia.
    apply IH; [done|lia|]. by apply IH.
  - by apply shifted_step.
Qed.

(** ** Rounding *)

Lemma round_nearest_shifted v n r : 0 <= n -> shifted v n r ->
  round_nearest_even (shr_m r) (loc_of_shr_record r) = nearest v n.
Proof.
  intros Hn [-> ->]. unfold nearest. assert (0 < 2 ^ n) by lia.
  destruct (Z.eqb_spec (v mod 2 ^ n) 0) as [->|Hnz]; cbn [round_nearest_even].
  - by destruct (Z.compare_spec (2 * 0) (2 ^ n)); [lia| |lia].
  - by destruct (_ ?= _).
Qed.

Lemma shr_fexp_spec m e : 0 <= m ->
  let n := Z.max 0 (fexp 53 1024 (Zdigits2 m + e) - e) in
  exists r, shr_fexp 53 1024 m e loc_Exact = (r, e + n) /\ shifted m n r.
Proof.
  intros Hm n. unfold shr_fexp, shr. unfold n. clear n. cbn [shr_record_of_loc].
  set (r0 := {| shr_m := m; shr_r := false; shr_s := false |}).
  assert (shifted m 0 r0) as H0 by (split; cbn; by rewrite ?Z.div_1_r, ?Z.mod_1_r).
  destruct (fexp 53 1024 (Zdigits2 m + e) - e) as [|n|n].
  - exists r0. by rewrite Z.add_0_r.
  - eexists. split; [done|]. by apply (shifted_iter m n 0).
  - exists r0. by rewrite Z.add_0_r.
Qed.

Lemma nearest_scale m n a : 0 <= n -> 0 <= a -> nearest (m * 2 ^ a) (n + a) = nearest m n.
Proof.
  intros Hn Ha. unfold nearest. rewrite Z.pow_add_r by lia.
  assert (0 < 2 ^ a) by lia. assert (0 < 2 ^ n) by lia.
  rewrite Z.div_mul_cancel_r, Z.mul_mod_distr_r by lia.
  replace (2 * (m mod 2 ^ n * 2 ^ a)) with (2 * (m mod 2 ^ n) * 2 ^ a) by lia.
  by rewrite <- Zmult_compare_compat_r by lia.
Qed.

(** The second shift brings a mantissa of 54 bits back to 53. *)
Lemma round_aux_finish q e : 0 < q <= 2 ^ 53 -> -1074 <= e -> (-1074 < e -> 2 ^ 52 <= q) ->
  let x := let '(r, e'') := shr_fexp 53 1024 q e loc_Exact in
           match shr_m r with
           | Z0 => S754_zero false
           | Z.pos m => if e'' <=? 1024 - 53 then S754_finite false m e'' else S754_infinity false
           | Z.neg _ => S754_nan
           end in
  nonneg x = true /\ value x = Z.min (q * 2 ^ (e + 1074)) infinity_value.
Proof.
  intros Hq He Hnorm. destruct (shr_fexp_spec q e ltac:(lia)) as (r & -> & [-> _]).
  assert (Zdigits2 q = Z.log2 q + 1) as -> by (destruct q as [|q|q]; [lia|apply digits2_log2|lia]).
  set (n := Z.max 0 (fexp 53 1024 (Z.log2 q + 1 + e) - e)).
  assert (0 <= n /\ 0 < q / 2 ^ n < 2 ^ 53 /\ q / 2 ^ n * 2 ^ n = q /\ (-1074 < e + n -> 2 ^ 52 <= q / 2 ^ n))
    as (Hn & Hm & Hmul & Hm').
  { unfold n. rewrite fexp_eq. destruct (Z.eq_dec q (2 ^ 53)) as [->|Hne].
    - change (Z.log2 (2 ^ 53)) with 53. replace (Z.max 0 _) with 1 by lia. change (2 ^ 53 / 2 ^ 1) with (2 ^ 52). lia.
    - assert (Z.log2 q < 53) by (apply Z.log2_lt_pow2; lia).
      replace (Z.max 0 _) with 0 by lia. rewrite Z.pow_0_r, Z.div_1_r, Z.add_0_r. lia. }
  destruct (q / 2 ^ n) as [|m|m] eqn:Hd; [lia| |lia]. cbv zeta.
  assert (q * 2 ^ (e + 1074) = Z.pos m * 2 ^ (e + n + 1074)) as ->.
  { rewrite <- Hmul at 1. rewrite <- Z.mul_assoc, <- Z.pow_add_r by lia. do 2 f_equal. lia. }
  destruct (Z.leb_spec (e + n) (1024 - 53)) as [Hle|Hgt].
  - assert (bounded 53 1024 m (e + n) = true) as Hb by (apply bounded_spec; lia).
    split; [by apply nonneg_finite|]. pose proof (value_finite _ _ Hb) as [[_ Hlt] _].
    cbn [value] in *. lia.
  - split; [done|]. cbn [value]. rewrite Z.min_r; [done|]. unfold infinity_value.
    apply Z.le_trans with (2 ^ 52 * 2 ^ (e + n + 1074)); [|apply Z.mul_le_mono_nonneg_r; lia].
    rewrite <- Z.pow_add_r by lia. apply Z.pow_le_mono_r; lia.
Qed.

Lemma round_aux_spec m e : -1074 <= e <= fexp 53 1024 (Z.pos (digits2_pos m) + e) ->
  let x := binary_round_aux 53 1024 false (Z.pos m) e loc_Exact in
  nonneg x = true /\ value x = Z.min (round53 (Z.pos m * 2 ^ (e + 1074))) infinity_value.
Proof.
  intros He. unfold binary_round_aux. destruct (shr_fexp_spec (Z.pos m) e ltac:(lia)) as (r & -> & Hr).
  rewrite (round_nearest_shifted _ _ _ (Z.le_max_l _ _) Hr). cbn [Zdigits2].
  set (k := fexp 53 1024 (Z.pos (digits2_pos m) + e)) in *. rewrite Z.max_r by lia.
  replace (e + (k - e)) with k by lia. set (v := Z.pos m * 2 ^ (e + 1074)).
  assert (0 < v) as Hv by (unfold v; lia).
  assert (ulp_exp v = k + 1074) as Hu.
  { unfold v, ulp_exp, k. rewrite fexp_eq, digits2_log2, Z.log2_mul_pow2 by lia. lia. }
  assert (nearest (Z.pos m) (k - e) = nearest v (ulp_exp v)) as ->.
  { rewrite Hu. unfold v. replace (k + 1074) with (k - e + (e + 1074)) by lia.
    by rewrite nearest_scale by lia. }
  destruct (ulp_exp_bounds v Hv) as (Hk & Hq & Hq'). pose proof (nearest_bounds v (ulp_exp v) Hk) as Hn.
  pose proof (round53_bounds v Hv) as Hr53. unfold round53 in Hr53 |- *.
  rewrite Hu in *. apply round_aux_finish; [|lia..]. split; [|lia].
  destruct (Z.le_gt_cases (nearest v (k + 1074)) 0); [|done].
  assert (nearest v (k + 1074) * 2 ^ (k + 1074) <= 0) by (apply Z.mul_nonpos_nonneg; lia).
  assert (0 < 2 ^ Z.log2 v) by (apply Z.pow_pos_nonneg; [lia|apply Z.log2_nonneg]). lia.
Qed.

Lemma shl_align_left m e e' : e' <= e ->
  (shl_align m e e').2 = e' /\ Z.pos (shl_align m e e').1 = Z.pos m * 2 ^ (e - e').
Proof.
  intros He. assert (forall d, Z.pos (Pos.iter xO m d) = Z.pos m * 2 ^ Z.pos d) as Hiter.
  { intros d. induction d as [|d IH] using Pos.peano_ind; [cbn; lia|].
    rewrite Pos.iter_succ, Pos2Z.inj_xO, IH, Pos2Z.inj_succ, Z.pow_succ_r by lia. lia. }
  unfold shl_align. destruct (e' - e) as [|d|d] eqn:Hd; cbn [fst snd]; [|lia|].
  - replace (e - e') with 0 by lia. lia.
  - rewrite Hiter. by replace (e - e') with (Z.pos d) by lia.
Qed.

Lemma shl_align_right m e e' : e <= e' -> shl_align m e e' = (m, e).
Proof. intros He. unfold shl_align. destruct (e' - e) eqn:Hd; [done|done|lia]. Qed.

Lemma round_spec m e : -1074 <= e ->
  let x := binary_round 53 1024 false m e in
  nonneg x = true /\ value x = Z.min (round53 (Z.pos m * 2 ^ (e + 1074))) infinity_value.
Proof.
  intros He. unfold binary_round. set (k := fexp 53 1024 (Z.pos (digits2_pos m) + e)).
  assert (-1074 <= k) as Hk by (unfold k; rewrite fexp_eq; lia).
  destruct (Z.le_ge_cases k e) as [Hle|Hge]; [|rewrite shl_align_right by done; by apply round_aux_spec].
  destruct (shl_align_left m e k Hle) as [H2 H1]. destruct (shl_align m e k) as [mz ez]. simpl in *. subst ez.
  assert (Z.pos (digits2_pos mz) + k = Z.pos (digits2_pos m) + e) as Hd.
  { rewrite !digits2_log2, H1, Z.log2_mul_pow2 by lia. lia. }
  replace (Z.pos m * 2 ^ (e + 1074)) with (Z.pos mz * 2 ^ (k + 1074)).
  - apply round_aux_spec. rewrite Hd. fold k. lia.
  - rewrite H1, <- Z.mul_assoc, <- Z.pow_add_r by lia. do 2 f_equal. lia.
Qed.

(** ** Sums *)

(** A sum rounds the sum of the values; what is too large becomes infinity. *)
Lemma dadd_value x y : nonneg x = true -> nonneg y = true ->
  nonneg (dadd x y) = true /\
  value (dadd x y) = Z.min (round53 (value x + value y)) infinity_value.
Proof.
  assert (forall v, 0 <= v -> Z.min (round53 (infinity_value + v)) infinity_value = infinity_value) as Hinf.
  { intros v Hv. rewrite Z.min_r; [done|].
    replace infinity_value with (round53 infinity_value) at 1 by (by vm_compute).
    apply round53_mono; [unfold infinity_value|]; lia. }
  intros Hx Hy. pose proof (value_range y Hy). pose proof (value_range x Hx).
  destruct (nonneg_cases x Hx) as [[s1 ->]|[->|(m1 & e1 & -> & H1)]];
  destruct (nonneg_cases y Hy) as [[s2 ->]|[->|(m2 & e2 & -> & H2)]].
  - by destruct s1, s2.
  - by vm_compute.
  - destruct (value_finite _ _ H2) as (? & Hr & _). change (value (S754_zero s1)) with 0.
    rewrite Z.add_0_l, Hr. split; [done|]. rewrite Z.min_l by lia. done.
  - by vm_compute.
  - by vm_compute.
  - split; [done|]. by rewrite Hinf by lia.
  - destruct (value_finite _ _ H1) as (? & Hr & _). change (value (S754_zero s2)) with 0.
    rewrite Z.add_0_r, Hr. split; [done|]. rewrite Z.min_l by lia. done.
  - split; [done|]. rewrite Z.add_comm. by rewrite Hinf by lia.
  - unfold dadd. cbn [SFadd cond_Zopp].
    pose proof (proj1 (bounded_spec _ _) H1) as [? _]. pose proof (proj1 (bounded_spec _ _) H2) as [? _].
    destruct (shl_align_left m1 e1 (Z.min e1 e2) ltac:(lia)) as [_ ->].
    destruct (shl_align_left m2 e2 (Z.min e1 e2) ltac:(lia)) as [_ ->].
    set (e := Z.min e1 e2). set (v := _ + _ : Z).
    assert (value (S754_finite false m1 e1) + value (S754_finite false m2 e2) = v * 2 ^ (e + 1074)) as ->.
    { unfold v. cbn [value]. rewrite Z.mul_add_distr_r, <- !Z.mul_assoc, <- !Z.pow_add_r by lia.
      do 3 f_equal; lia. }
    assert (0 < v) as Hv by (unfold v; lia). destruct v as [|v|v]; [lia| |lia].
    cbn [binary_normalize]. apply round_spec. lia.
Qed.

Lemma dadd_nonneg x y : nonneg x = true -> nonneg y = true -> nonneg (dadd x y) = true.
Proof. intros. by apply dadd_value. Qed.

(** A sum is at least its first term, and monotone in it. *)
Lemma dadd_ge x w : nonneg x = true -> nonneg w = true -> value x <= value (dadd x w).
Proof.
  intros Hx Hw. destruct (dadd_value x w Hx Hw) as [_ ->].
  pose proof (value_range x Hx). pose proof (value_range w Hw).
  apply Z.min_glb; [|lia]. etrans; [|apply (round53_mono (value x)); lia].
  destruct (nonneg_cases x Hx) as [[s1 ->]|[->|(m1 & e1 & -> & H1)]]; [by vm_compute..|].
  destruct (value_finite _ _ H1) as (_ & -> & _). lia.
Qed.

Lemma dadd_mono x y w : nonneg x = true -> nonneg y = true -> nonneg w = true ->
  value x <= value y -> value (dadd x w) <= value (dadd y w).
Proof.
  intros Hx Hy Hw Hle. destruct (dadd_value x w Hx Hw) as [_ ->], (dadd_value y w Hy Hw) as [_ ->].
  pose proof (value_range x Hx). pose proof (value_range w Hw).
  apply Z.min_le_compat_r, round53_mono; lia.
Qed.

(** ** The order of all doubles *)

(** Lexicographic: the sign, the exponent, the mantissa. *)
Definition rank (x : double) : option (Z * Z * Z) :=
  match x with
  | S754_nan => None
  | S754_infinity s => Some (if s then -2 else 2, 0, 0)
  | S754_zero _ => Some (0, 0, 0)
  | S754_finite s m e => Some (if s then (-1, - e, Z.neg m) else (1, e, Z.pos m))
  end.

Definition rank_lt (a b : Z * Z * Z) : Prop :=
  a.1.1 < b.1.1 \/ (a.1.1 = b.1.1 /\ (a.1.2 < b.1.2 \/ (a.1.2 = b.1.2 /\ a.2 < b.2))).

Lemma dlt_rank x y : dlt x y = true <-> exists a b, rank x = Some a /\ rank y = Some b /\ rank_lt a b.
Proof.
  unfold dlt, SFltb. destruct x as [[]|[]| |[] m1 e1], y as [[]|[]| |[] m2 e2]; cbn [SFcompare rank];
    try (change (PosDef.Pos.compare_cont Eq m1 m2) with (Pos.compare m1 m2);
         destruct (Z.compare_spec e1 e2), (Pos.compare_spec m1 m2)); cbn [CompOpp];
    (split; [intros Hlt; try done; (do 2 eexists; split; [done|split; [done|]])
            |intros (a & b & [= <-] & [= <-] & Hlt); try done]);
    unfold rank_lt in *; simpl in *; lia.
Qed.

Lemma dlt_irrefl x : dlt x x = false.
Proof.
  apply not_true_iff_false. intros (a & b & Ha & Hb & Hlt)%dlt_rank. simplify_eq. unfold rank_lt in Hlt. lia.
Qed.

Lemma dlt_trans x y z : dlt x y = true -> dlt y z = true -> dlt x z = true.
Proof.
  intros (a & b & Ha & Hb & Hlt)%dlt_rank (b' & c & Hb' & Hc & Hlt')%dlt_rank. simplify_eq.
  apply dlt_rank. exists a, c. split_and!; [done|done|]. unfold rank_lt in *. lia.
Qed.
