(* ===== verification/Text.v ===== *)
(** Characters, C strings and text streams: the functions of the standard library
    that the parsers of the program use. *)

From Stdlib Require Export Ascii.
From stdpp Require Export strings.
From S2P Require Import Prelude Doubles.
Open Scope list_scope.
Open Scope Z_scope.

(** ** Characters

    A C string is the list of the characters before its terminator; beyond the
    last one there is the terminator. *)

Notation text := (list ascii).

Definition text_of (s : string) : text := String.list_ascii_of_string s.

Definition code (c : ascii) : Z := Z.of_N (N_of_ascii c).

Definition nul : ascii := "000"%char.
Definition newline : ascii := "010"%char.
Definition space : ascii := " "%char.

Definition cur (l : text) : ascii := match l with [] => nul | c :: _ => c end.

Definition isspace (c : ascii) : bool := ((9 <=? code c) && (code c <=? 13)) || (code c =? 32).

Definition isdigit (c : ascii) : bool := (48 <=? code c) && (code c <=? 57).

Definition digit_value (c : ascii) : Z := code c - 48.

Definition tolower (c : ascii) : ascii :=
  if (65 <=? code c) && (code c <=? 90) then ascii_of_N (Z.to_N (code c + 32)) else c.

Definition strcasecmp_eq (a b : text) : bool := bool_decide (tolower <$> a = tolower <$> b).

Fixpoint skip_spaces (l : text) : text :=
  match l with c :: l' => if isspace c then skip_spaces l' else l | [] => [] end.

(** ** Integers *)

Fixpoint scan_digits (acc : Z) (l : text) : Z * text :=
  match l with
  | c :: l' => if isdigit c then scan_digits (acc * 10 + digit_value c) l' else (acc, l)
  | [] => (acc, [])
  end.

Definition scan_sign (l : text) : bool * text :=
  match l with
  | c :: l' => if Ascii.eqb c "-"%char then (true, l') else if Ascii.eqb c "+"%char then (false, l') else (false, l)
  | [] => (false, [])
  end.

(** [strtoull(l, &next, 10)]: the value and [next]. *)
Definition strtoull (l : text) : Z * text :=
  let '(neg, l2) := scan_sign (skip_spaces l) in
  if isdigit (cur l2) then
    let '(v, next) := scan_digits 0 l2 in
    (if v <? 2 ^ 64 then if neg then u64 (- v) else v else uint64_max, next)
  else (0, l).

Definition strtoll (l : text) : Z * text :=
  let '(neg, l2) := scan_sign (skip_spaces l) in
  if isdigit (cur l2) then
    let '(v, next) := scan_digits 0 l2 in
    (if neg then Z.max (- 2 ^ 63) (- v) else Z.min int64_max v, next)
  else (0, l).

(** ** Doubles *)

(** The double nearest to [m * 10 ^ e]. *)
Definition decimal (m e : Z) : double :=
  match m with
  | Z.pos _ =>
    if 0 <=? e then binary_normalize 53 1024 (m * 10 ^ e) 0 false
    else let '(q, e', l) := SFdiv_core_binary 53 1024 m 0 (10 ^ (- e)) 0 in binary_round_aux 53 1024 false q e' l
  | _ => d_zero
  end.

Definition hex_value (c : ascii) : option Z :=
  let k := code (tolower c) in
  if isdigit c then Some (digit_value c) else if (97 <=? k) && (k <=? 102) then Some (k - 87) else None.

(** The digits of a mantissa, with their number and the rest. *)
Fixpoint scan_mantissa (value : ascii -> option Z) (base acc : Z) (n : nat) (l : text) : Z * nat * text :=
  match l with
  | c :: l' =>
    match value c with
    | Some d => scan_mantissa value base (acc * base + d) (S n) l'
    | None => (acc, n, l)
    end
  | [] => (acc, n, [])
  end.

Definition dec_value (c : ascii) : option Z := if isdigit c then Some (digit_value c) else None.

(** The exponent after the character [mark]; without digits it is absent. *)
Definition scan_exponent (mark : ascii) (l : text) : Z :=
  match l with
  | c :: l' =>
    if Ascii.eqb (tolower c) mark then
      let '(neg, l2) := scan_sign l' in
      if isdigit (cur l2) then let v := (scan_digits 0 l2).1 in if neg then - v else v else 0
    else 0
  | [] => 0
  end.

Definition scan_number (value : ascii -> option Z) (base : Z) (mark : ascii) (l : text) : option (Z * Z * Z) :=
  let '(m, n, l1) := scan_mantissa value base 0 0 l in
  let '(m, n, k, l2) :=
    match l1 with
    | c :: l' =>
      if Ascii.eqb c "."%char then
        let '(m', n', l2) := scan_mantissa value base m 0 l' in (m', (n + n')%nat, Z.of_nat n', l2)
      else (m, n, 0, l1)
    | [] => (m, n, 0, l1)
    end in
  if (n =? 0)%nat then None else Some (m, k, scan_exponent mark l2).

Definition has_prefix (p l : text) : bool := strcasecmp_eq p (take (length p) l).

(** [strtod(l, nullptr)] *)
Definition strtod (l : text) : double :=
  let '(neg, l2) := scan_sign (skip_spaces l) in
  let x :=
    if has_prefix (text_of "inf") l2 then d_inf
    else if has_prefix (text_of "nan") l2 then d_nan
    else
      match (if has_prefix (text_of "0x") l2 then scan_number hex_value 16 "p"%char (drop 2 l2) else None) with
      | Some (m, k, e) => binary_normalize 53 1024 m (e - 4 * k) false
      | None =>
        match scan_number dec_value 10 "e"%char l2 with
        | Some (m, k, e) => decimal m (e - k)
        | None => d_zero
        end
      end in
  if neg then SFopp x else x.

Example ex_strtod :
  strtod (text_of "0.5") = ddiv d_one (double_of_Z 2) /\ strtod (text_of " 12e1x") = double_of_Z 120 /\
  strtod (text_of "infinity") = d_inf /\ strtod (text_of "-3.e") = SFopp (double_of_Z 3) /\
  strtod (text_of "0x1.8p1") = double_of_Z 3 /\ strtod (text_of "0.1") = S754_finite false 7205759403792794 (-56).
Proof. by vm_compute. Qed.

(** ** Streams

    An input stream that reads characters: what is left of it, and the flags
    [eofbit] and [failbit]. *)

Record istream := mkIstream { s_rest : text; s_eof : bool; s_fail : bool }.

Definition good (h : istream) : bool := negb (s_eof h) && negb (s_fail h).

Definition istream_open (content : text) : istream := mkIstream content false false.

(** The characters before the first newline, and what follows it. *)
Fixpoint split_line (l : text) : text * option text :=
  match l with
  | [] => ([], None)
  | c :: l' =>
    if Ascii.eqb c newline then ([], Some l') else let '(line, rest) := split_line l' in (c :: line, rest)
  end.

(** [getline(h, line)] *)
Definition getline (h : istream) (line : text) : text * istream :=
  if good h then
    match split_line (s_rest h) with
    | (line, Some rest) => (line, mkIstream rest false false)
    | (line, None) => (line, mkIstream [] true (bool_decide (line = [])))
    end
  else (line, mkIstream (s_rest h) (s_eof h) true).

(** [h.getline(buffer, n)] *)
Definition getline_buffer (n : nat) (h : istream) : text * istream :=
  if good h then
    let '(line, rest) := split_line (s_rest h) in
    if (length line <? n)%nat then
      match rest with
      | Some rest => (line, mkIstream rest false false)
      | None => (line, mkIstream [] true (bool_decide (line = [])))
      end
    else (take (n - 1) line, mkIstream (drop (n - 1) (s_rest h)) false true)
  else ([], mkIstream (s_rest h) (s_eof h) true).

(** ** Printing *)

Definition digit_char (d : Z) : ascii := ascii_of_N (Z.to_N (d + 48)).

Fixpoint print_digits (fuel : nat) (z : Z) (acc : text) : text :=
  match fuel with
  | O => acc
  | S fuel => let acc := digit_char (z mod 10) :: acc in if z <? 10 then acc else print_digits fuel (z / 10) acc
  end.

(** [out << z] of an unsigned integer. *)
Definition print_nat (z : Z) : text := print_digits (S (Z.to_nat (Z.log2 z))) z [].

Example ex_print : print_nat 0 = text_of "0" /\ print_nat 1024 = text_of "1024" /\ print_nat uint64_max = text_of "18446744073709551615".
Proof. by vm_compute. Qed.

(** ** Lemmas *)

Lemma digit_char_code d : 0 <= d < 10 -> code (digit_char d) = d + 48.
Proof. intros Hd. unfold code, digit_char. rewrite N_ascii_embedding by lia. lia. Qed.

Lemma digit_char_digit d : 0 <= d < 10 -> isdigit (digit_char d) = true /\ digit_value (digit_char d) = d.
Proof. intros Hd. unfold isdigit, digit_value. rewrite digit_char_code by done. split; lia. Qed.

Lemma digit_not_space c : isdigit c = true -> isspace c = false.
Proof. unfold isdigit, isspace. lia. Qed.

Lemma digit_sign c l : isdigit c = true -> scan_sign (c :: l) = (false, c :: l).
Proof.
  intros Hc. unfold scan_sign. destruct (Ascii.eqb_spec c "-"%char) as [->|]; [done|].
  by destruct (Ascii.eqb_spec c "+"%char) as [->|].
Qed.

(** Scanning what was printed. *)
Lemma scan_print_digits fuel : forall z acc a, 0 <= z < 2 ^ Z.of_nat fuel ->
  exists k, 0 <= k /\ forall tail,
    scan_digits a (print_digits fuel z acc ++ tail) = scan_digits (a * 10 ^ k + z) (acc ++ tail).
Proof.
  induction fuel as [|fuel IH]; intros z acc a Hz; cbn [print_digits].
  { change (2 ^ Z.of_nat 0) with 1 in Hz. exists 0. split; [done|]. intros tail. f_equal. lia. }
  destruct (Z.ltb_spec z 10) as [Hlt|Hge].
  - exists 1. split; [done|]. intros tail. rewrite Z.mod_small by lia. cbn [app scan_digits].
    destruct (digit_char_digit z) as [-> ->]; [lia|]. f_equal.
  - pose proof (Z.mod_pos_bound z 10 ltac:(lia)) as Hm. rewrite Nat2Z.inj_succ, Z.pow_succ_r in Hz by lia.
    destruct (IH (z / 10) (digit_char (z mod 10) :: acc) a) as (k & Hk & Hscan).
    { split; [apply Z.div_pos; lia|]. apply Z.div_lt_upper_bound; lia. }
    exists (k + 1). split; [lia|]. intros tail. rewrite Hscan. cbn [app scan_digits].
    destruct (digit_char_digit (z mod 10) Hm) as [-> ->]. f_equal. rewrite Z.pow_add_r by lia.
    pose proof (Z.div_mod z 10 ltac:(lia)). lia.
Qed.

Lemma print_digits_all fuel : forall z acc, 0 <= z -> Forall (fun c => isdigit c = true) acc ->
  Forall (fun c => isdigit c = true) (print_digits fuel z acc).
Proof.
  induction fuel as [|fuel IH]; intros z acc Hz Hacc; [done|]. cbn [print_digits].
  pose proof (Z.mod_pos_bound z 10 ltac:(lia)) as Hm. pose proof (digit_char_digit (z mod 10) Hm) as [Hd _].
  destruct (z <? 10); [by constructor|]. apply IH; [apply Z.div_pos; lia|by constructor].
Qed.

Lemma print_nat_all z : 0 <= z -> Forall (fun c => isdigit c = true) (print_nat z).
Proof. intros Hz. by apply print_digits_all. Qed.

Lemma print_digits_length fuel : forall z acc, (length acc <= length (print_digits fuel z acc))%nat.
Proof.
  induction fuel as [|fuel IH]; intros z acc; [done|]. cbn [print_digits]. destruct (z <? 10); [simpl; lia|].
  etrans; [|apply IH]. simpl. lia.
Qed.

Lemma print_nat_cons z : 0 <= z -> exists c l, print_nat z = c :: l /\ isdigit c = true.
Proof.
  intros Hz. pose proof (print_nat_all z Hz) as Hall.
  assert (0 < length (print_nat z))%nat as Hl.
  { unfold print_nat. cbn [print_digits]. destruct (z <? 10); [simpl; lia|]. eapply Nat.lt_le_trans; [|apply print_digits_length].
    simpl. lia. }
  destruct (print_nat z) as [|c l]; [simpl in Hl; lia|]. exists c, l. split; [done|]. by inversion Hall.
Qed.

Lemma scan_stop a rest : isdigit (cur rest) = false -> scan_digits a rest = (a, rest).
Proof. destruct rest as [|c rest]; [done|]. cbn [cur scan_digits]. by intros ->. Qed.

Lemma scan_print z rest : 0 <= z -> isdigit (cur rest) = false -> scan_digits 0 (print_nat z ++ rest) = (z, rest).
Proof.
  intros Hz Hrest. unfold print_nat.
  destruct (scan_print_digits (S (Z.to_nat (Z.log2 z))) z [] 0) as (k & _ & Hscan).
  { split; [done|]. rewrite Nat2Z.inj_succ, Z2Nat.id by apply Z.log2_nonneg.
    destruct (Z.eq_dec z 0) as [->|]; [done|]. apply Z.log2_spec. lia. }
  rewrite Hscan. by apply scan_stop.
Qed.

Lemma skip_digit c l : isdigit c = true -> skip_spaces (c :: l) = c :: l.
Proof. intros Hc. cbn [skip_spaces]. by rewrite digit_not_space. Qed.

(** Printing and parsing again. *)
Lemma strtoull_print z rest : is_u64 z -> isdigit (cur rest) = false -> strtoull (print_nat z ++ rest) = (z, rest).
Proof.
  intros [Hz Hlt] Hrest. destruct (print_nat_cons z Hz) as (c & l & Hp & Hc). unfold strtoull.
  pose proof (scan_print z rest Hz Hrest) as Hscan. rewrite Hp in Hscan |- *. cbn [app] in Hscan |- *.
  rewrite skip_digit, digit_sign by done. cbn [cur]. rewrite Hc, Hscan. by rewrite (proj2 (Z.ltb_lt _ _)).
Qed.

Lemma strtoll_print z rest : 0 <= z <= int64_max -> isdigit (cur rest) = false ->
  strtoll (print_nat z ++ rest) = (z, rest).
Proof.
  intros [Hz Hle] Hrest. destruct (print_nat_cons z Hz) as (c & l & Hp & Hc). unfold strtoll.
  pose proof (scan_print z rest Hz Hrest) as Hscan. rewrite Hp in Hscan |- *. cbn [app] in Hscan |- *.
  rewrite skip_digit, digit_sign by done. cbn [cur]. rewrite Hc, Hscan. by rewrite Z.min_r.
Qed.

(** Lines that end with a newline. *)
Lemma split_line_newline line rest : newline ∉ line -> split_line (line ++ newline :: rest) = (line, Some rest).
Proof.
  induction line as [|c line IH]; intros Hn; [done|]. cbn [app split_line].
  apply not_elem_of_cons in Hn as [Hc Hn]. destruct (Ascii.eqb_spec c newline) as [->|]; [done|]. by rewrite IH.
Qed.

Lemma getline_newline line rest s : newline ∉ line ->
  getline (istream_open (line ++ newline :: rest)) s = (line, istream_open rest).
Proof. intros Hn. unfold getline. cbn. by rewrite split_line_newline. Qed.

Lemma getline_buffer_newline n line rest : newline ∉ line -> (length line < n)%nat ->
  getline_buffer n (istream_open (line ++ newline :: rest)) = (line, istream_open rest).
Proof.
  intros Hn Hl. unfold getline_buffer. cbn [good istream_open s_rest s_eof s_fail negb andb]. rewrite split_line_newline by done.
  by rewrite (proj2 (Nat.ltb_lt _ _)).
Qed.

(** The text of a file with these lines. *)
Definition file_of (lines : list text) : text := lines ≫= fun line => line ++ [newline].

Lemma file_of_length lines : (length lines <= length (file_of lines))%nat.
Proof.
  induction lines as [|line lines IH]; [done|]. cbn [file_of mbind list_bind]. rewrite !length_app. simpl.
  unfold file_of in IH. lia.
Qed.

Lemma print_nat_newline z : 0 <= z -> newline ∉ print_nat z.
Proof. intros Hz Hin. by apply (proj1 (Forall_forall _ _) (print_nat_all z Hz)) in Hin. Qed.
