(* ===== verification/Paths.v ===== *)
(** Walks with weights that are added up in double arithmetic, and the lengths
    of the shortest ones. Nothing here models code. *)

From S2P Require Import Prelude Doubles.

Section paths.
Context {A : Type} (E : A -> A -> double -> Prop) (src : A).

(** The walks from the source, with the sum of their weights from the left. *)
Inductive wwalk : A -> double -> Prop :=
  | ww_refl : wwalk src d_zero
  | ww_snoc u v d w : wwalk u d -> E u v w -> wwalk v (dadd d w).

(** [x] is the least sum of a walk to [v], infinity when there is none. *)
Definition shortest (v : A) (x : double) : Prop :=
  (x = d_inf \/ wwalk v x) /\ forall d, wwalk v d -> dle x d = true.

(** No edge leads to a smaller sum. *)
Definition relaxed (dist : A -> double) : Prop :=
  forall u v w, E u v w -> value (dist v) <= value (dadd (dist u) w).

Context (Hweights : forall u v w, E u v w -> nonneg w = true).

Lemma wwalk_nonneg v d : wwalk v d -> nonneg d = true.
Proof. induction 1 as [|u v d w _ IH He]; [done|]. apply dadd_nonneg; eauto. Qed.

Lemma relaxed_shortest (dist : A -> double) :
  (forall v, dist v = d_inf \/ wwalk v (dist v)) -> value (dist src) = 0 -> relaxed dist ->
  forall v, shortest v (dist v).
Proof.
  intros Hwalk Hsrc Hrel.
  assert (forall v, nonneg (dist v) = true) as Hnn
    by (intros v; destruct (Hwalk v) as [->|Hv]; [done|by eapply wwalk_nonneg]).
  intros v. split; [apply Hwalk|]. intros d Hd.
  rewrite dle_value by (done || by eapply wwalk_nonneg). apply Z.leb_le.
  induction Hd as [|u v d w Hd IH He]; [by rewrite Hsrc|].
  etrans; [by eapply Hrel|]. apply dadd_mono; [done|by eapply wwalk_nonneg|by eauto|done].
Qed.
End paths.

Lemma wwalk_iff {A} (E E' : A -> A -> double -> Prop) src v d :
  (forall u v w, E u v w <-> E' u v w) -> wwalk E src v d <-> wwalk E' src v d.
Proof. intros HE. split; (induction 1; [constructor|econstructor; [done|by apply HE]]). Qed.

Lemma shortest_iff {A} (E E' : A -> A -> double -> Prop) src v x :
  (forall u v w, E u v w <-> E' u v w) -> shortest E src v x -> shortest E' src v x.
Proof.
  intros HE [Hx Hle]. pose proof (fun v d => wwalk_iff E E' src v d HE) as HW.
  split; [by rewrite <- HW|]. intros d Hd. by apply Hle, HW.
Qed.
