(* ===== verification/Graphs.v ===== *)
(** The reference notions of graph theory against which the graph kernels are
    judged: walks, hop distances and weak connectivity, over an edge relation
    on any type of nodes. Nothing here models code. *)

From S2P Require Import Prelude.

Section graphs.
Context {A : Type} (E : A -> A -> Prop).

(** A walk of [n] edges. *)
Inductive walk : nat -> A -> A -> Prop :=
  | walk_refl u : walk 0 u u
  | walk_snoc n u v w : walk n u v -> E v w -> walk (S n) u w.

Definition reachable (u v : A) : Prop := exists n, walk n u v.

(** [n] is the number of hops of a shortest walk from [u] to [v]. *)
Definition hop_dist (u v : A) (n : nat) : Prop :=
  walk n u v /\ forall m, walk m u v -> (n <= m)%nat.

Lemma hop_dist_unique u v n m : hop_dist u v n -> hop_dist u v m -> n = m.
Proof. intros [H1 H2] [H3 H4]. specialize (H2 _ H3). specialize (H4 _ H1). lia. Qed.

Lemma hop_dist_refl u : hop_dist u u 0.
Proof. split; [constructor|lia]. Qed.

Lemma hop_dist_reachable u v n : hop_dist u v n -> reachable u v.
Proof. intros [H _]. by exists n. Qed.

Lemma hop_dist_zero u v : hop_dist u v 0 -> u = v.
Proof. intros [H _]. by inversion H. Qed.

(** A node that is reachable from [u] and has no closer neighbour is
    reached through a node one hop closer. *)
Lemma hop_dist_pred u v n :
  hop_dist u v (S n) -> exists p, hop_dist u p n /\ E p v.
Proof.
  intros [Hw Hmin]. inversion Hw as [|n' u' p v' Hp He]; simplify_eq.
  exists p. split; [|done]. split; [done|].
  intros m Hm. assert (S n <= S m)%nat; [|lia].
  apply Hmin. by econstructor.
Qed.

Lemma hop_dist_le u v w n m :
  hop_dist u v n -> E v w -> hop_dist u w m -> (m <= S n)%nat.
Proof. intros [Hv _] He [_ Hm]. apply Hm. by econstructor. Qed.

(** In a graph of [n] nodes no node is [n] hops away. *)
Lemma hop_dist_path u v d :
  hop_dist u v d ->
  exists l, NoDup l /\ length l = S d /\ (forall x, x ∈ l -> exists k, (k <= d)%nat /\ hop_dist u x k).
Proof.
  revert v. induction d as [|d IH]; intros v Hv.
  - exists [v]. split_and!; [apply NoDup_singleton|done|].
    intros x ->%list_elem_of_singleton. eauto.
  - destruct (hop_dist_pred _ _ _ Hv) as (p & Hp & _). destruct (IH p Hp) as (l & Hnd & Hl & Hall).
    exists (v :: l). split_and!; [|simpl; lia|].
    + constructor; [|done]. intros Hin. destruct (Hall v Hin) as (k & Hk & Hd).
      pose proof (hop_dist_unique _ _ _ _ Hv Hd). lia.
    + intros x [->|Hx]%elem_of_cons; [eauto|]. destruct (Hall x Hx) as (k & Hk & Hd).
      exists k. split; [lia|done].
Qed.

(** Weak connectivity: the equivalence closure of the edges. *)
Inductive connected : A -> A -> Prop :=
  | conn_refl u : connected u u
  | conn_fwd u v w : E u v -> connected v w -> connected u w
  | conn_bwd u v w : E v u -> connected v w -> connected u w.

Lemma connected_trans u v w : connected u v -> connected v w -> connected u w.
Proof. induction 1; eauto using connected. Qed.

Lemma connected_edge u v : E u v -> connected u v.
Proof. eauto using connected. Qed.

Lemma connected_sym u v : connected u v -> connected v u.
Proof.
  induction 1 as [|u v w He _ IH|u v w He _ IH]; eauto using connected, connected_trans.
Qed.

#[export] Instance connected_equivalence : Equivalence connected.
Proof.
  split; [exact conn_refl|exact connected_sym|exact connected_trans].
Qed.

(** A labelling that agrees on the two ends of every edge is constant on the
    connected components. *)
Lemma connected_label {B} (f : A -> B) u v :
  (forall x y, E x y -> f x = f y) -> connected u v -> f u = f v.
Proof.
  intros Hf. induction 1 as [|u v w He _ IH|u v w He _ IH]; [done| |].
  - rewrite <- IH. by apply Hf.
  - rewrite <- IH. symmetry. by apply Hf.
Qed.
End graphs.

#[export] Hint Constructors walk connected : gfe.
#[export] Hint Resolve hop_dist_refl connected_edge : gfe.

Lemma walk_mono {A} (E1 E2 : A -> A -> Prop) n u v :
  (forall x y, E1 x y -> E2 x y) -> walk E1 n u v -> walk E2 n u v.
Proof. intros HE. induction 1; eauto with gfe. Qed.

(** Walks in the image of a graph under an injection. *)
Lemma walk_image {A B} (E1 : A -> A -> Prop) (E2 : B -> B -> Prop) (P : A -> Prop) (f : A -> B) :
  (forall x y, P x -> P y -> f x = f y -> x = y) ->
  (forall x y, P x -> P y -> E2 (f x) (f y) <-> E1 x y) ->
  (forall u v, E2 u v -> exists x y, P x /\ P y /\ f x = u /\ f y = v) ->
  (forall x y, E1 x y -> P x /\ P y) ->
  forall n x y, P x -> P y -> walk E2 n (f x) (f y) <-> walk E1 n x y.
Proof.
  intros Hinj HE Himage Hclosed n x y Hx Hy. split.
  - revert y Hy. induction n as [|n IH]; intros y Hy Hw;
      inversion Hw as [u Hu Hfu|n' u p v' Hp He Hn Hu Hv].
    + rewrite (Hinj x y) by done. constructor.
    + subst. destruct (Himage _ _ He) as (x' & _ & Hx' & _ & <- & _).
      econstructor; [by apply IH|]. by apply HE.
  - revert y Hy. induction n as [|n IH]; intros y Hy Hw;
      inversion Hw as [u Hu Hfu|n' u p v' Hp He Hn Hu Hv]; subst; [constructor|].
    destruct (Hclosed _ _ He) as [? _]. econstructor; [by apply IH|]. by apply HE.
Qed.
