(* ===== verification/CByteArray.v ===== *)
(** [graph/cbytearray]: an array of integers of a fixed number of bytes.

    The storage is the array of bytes of the source, where a byte that was
    never written is [None]; the elements are read and written byte by byte,
    least significant first. The file ends with the view of the array as a
    list of values, which is what its clients rely on. *)

From S2P Require Import Prelude.

(** ** State *)

Record CByteArray := mkCByteArray {
  m_bytes_per_element : nat;
  m_capacity : nat;
  m_array : list (option Z); (* the chars, as unsigned bytes *)
}.

(** ** Operations *)

(** The number of bytes of [ceil (ceil (log2 value) / 8)]. The logarithm of 0
    is -inf, whose conversion to [size_t] is undefined. The code computes the
    logarithm in a double: its ceiling is exact up to [2^48]. *)
Definition compute_bytes_per_elements (value : Z) : res nat :=
  if value <=? 0 then Undef
  else
    let bits := Z.log2_up value in
    let bytes := (bits + 7) / 8 in
    Val (Z.to_nat bytes).

Definition get_bytes_per_element (a : CByteArray) : nat := m_bytes_per_element a.

(** [CByteArray(bytes_per_element, capacity)] *)
Definition CByteArray_new (bytes_per_element capacity : nat) : res CByteArray :=
  if ((bytes_per_element <=? 0) || (8 <? bytes_per_element))%nat then Exn InvalidArgument
  else Val (mkCByteArray bytes_per_element capacity
              (replicate (bytes_per_element * capacity) None)).

(** [CByteArray(capacity)] *)
Definition CByteArray_new1 (capacity : nat) : res CByteArray :=
  bytes ← compute_bytes_per_elements (Z.of_nat capacity);
  CByteArray_new bytes capacity.

(** The union of a [uint64_t] with its 8 bytes, on a little endian machine. *)
Fixpoint key_of_bytes (bytes : list Z) : Z :=
  match bytes with
  | [] => 0
  | b :: bytes => b + 256 * key_of_bytes bytes
  end.

Fixpoint bytes_of_key (n : nat) (key : Z) : list Z :=
  match n with
  | O => []
  | S n => key mod 256 :: bytes_of_key n (key / 256)
  end.

Definition get_value_at (a : CByteArray) (index : nat) : res Z :=
  let base := (index * m_bytes_per_element a)%nat in
  bytes ← res_fold
    (fun bytes i => b ← arr_get (m_array a) (base + i)%nat; c ← require b; arr_set bytes i c)
    (replicate 8 0) (seq 0 (m_bytes_per_element a));
  Val (key_of_bytes bytes).

Definition set_value_at (a : CByteArray) (index : nat) (value : Z) : res CByteArray :=
  let bytes := bytes_of_key 8 value in
  let base := (index * m_bytes_per_element a)%nat in
  array ← res_fold
    (fun array i => b ← arr_get bytes i; arr_set array (base + i)%nat (Some b))
    (m_array a) (seq 0 (m_bytes_per_element a));
  Val (mkCByteArray (m_bytes_per_element a) (m_capacity a) array).

Definition capacity (a : CByteArray) : nat := m_capacity a.

(** The swap of two references goes through a signed temporary. *)
Definition swap_refs (a : CByteArray) (x y : nat) : res CByteArray :=
  tmp ← i64 <$> get_value_at a x;
  vy ← get_value_at a y;
  a ← set_value_at a x vy;
  set_value_at a y (u64 tmp).

(** [std::sort] on the iterators of the interval [start, min(end, capacity)):
    the values of the interval are stored back in increasing order. *)
Definition sort_interval (a : CByteArray) (start end_ : nat) : res CByteArray :=
  let idx := seq start (min end_ (m_capacity a) - start) in
  values ← res_fold (fun vs i => v ← get_value_at a i; Val (vs ++ [v])) [] idx;
  res_fold (fun a iv => set_value_at a iv.1 iv.2) a
    (zip idx (merge_sort Z.le values)).

Definition sort_all (a : CByteArray) : res CByteArray :=
  sort_interval a 0 (m_capacity a).

Definition sort (a : CByteArray) (start end_ : nat) : res CByteArray :=
  if decide (start < m_capacity a)%nat then sort_interval a start end_ else Undef.

(** [merge]: the first loop, then the copies. An array that is [nullptr] is
    [None]. *)
Definition merge_sizes (arrays : list (option CByteArray)) : res (nat * nat) :=
  res_fold
    (fun '(capacity, bytes_per_element) ba =>
       match ba with
       | None => Val (capacity, bytes_per_element)
       | Some ba =>
         if decide (bytes_per_element = 0%nat \/ bytes_per_element = m_bytes_per_element ba)
         then Val ((capacity + m_capacity ba)%nat, m_bytes_per_element ba)
         else Exn RuntimeError
       end)
    (0%nat, 0%nat) arrays.

(** [memcpy] of [amount] bytes of [src] to [dst + destination] *)
Definition memcpy (dst : list (option Z)) (destination : nat) (src : list (option Z))
    (amount : nat) : res (list (option Z)) :=
  if decide (amount <= length src /\ destination + amount <= length dst)%nat then
    Val (take destination dst ++ take amount src ++ drop (destination + amount) dst)
  else Undef.

Definition merge (arrays : list (option CByteArray)) : res CByteArray :=
  '(capacity, bytes_per_element) ← merge_sizes arrays;
  let bytes_per_element := if decide (bytes_per_element = 0%nat) then 1%nat else bytes_per_element in
  result ← CByteArray_new bytes_per_element capacity;
  '(array, _) ← res_fold
    (fun '(array, destination) ba =>
       match ba with
       | None => Val (array, destination)
       | Some ba =>
         let amount := (bytes_per_element * m_capacity ba)%nat in
         array ← memcpy array destination (m_array ba) amount;
         Val (array, (destination + amount)%nat)
       end)
    (m_array result, 0%nat) arrays;
  Val (mkCByteArray bytes_per_element capacity array).

(** ** Invariant *)

Definition is_byte (b : Z) : Prop := 0 <= b < 256.

Record wf (a : CByteArray) : Prop := mk_wf {
  wf_bytes : (0 < m_bytes_per_element a <= 8)%nat;
  wf_length : length (m_array a) = (m_bytes_per_element a * m_capacity a)%nat;
  wf_range : forall i b, m_array a !! i = Some (Some b) -> is_byte b;
}.

(** The largest value an element can hold, plus one. *)
Definition bound (a : CByteArray) : Z := 256 ^ Z.of_nat (m_bytes_per_element a).

(** ** Bytes of an integer *)

Lemma key_of_bytes_of_key n key :
  key_of_bytes (bytes_of_key n key) = key mod 256 ^ Z.of_nat n.
Proof.
  revert key. induction n as [|n IH]; intros key; [by rewrite Z.mod_1_r|].
  cbn [bytes_of_key key_of_bytes]. rewrite IH, Nat2Z.inj_succ, Z.pow_succ_r by lia.
  rewrite Z.rem_mul_r; lia.
Qed.

Lemma length_bytes_of_key n key : length (bytes_of_key n key) = n.
Proof. revert key. induction n; simpl; auto. Qed.

Lemma bytes_of_key_byte n key b : b ∈ bytes_of_key n key -> is_byte b.
Proof.
  revert key. induction n as [|n IH]; intros key; simpl; [set_solver|].
  rewrite elem_of_cons. intros [->|H]; [|by eapply IH].
  apply Z.mod_pos_bound. lia.
Qed.

Lemma take_bytes_of_key m n key :
  (m <= n)%nat -> take m (bytes_of_key n key) = bytes_of_key m key.
Proof.
  revert n key. induction m as [|m IH]; intros [|n] key Hle; simpl; try done; [lia|].
  rewrite IH; [done|lia].
Qed.

Lemma key_of_bytes_zeros l n : key_of_bytes (l ++ replicate n 0) = key_of_bytes l.
Proof.
  induction l as [|b l IH]; simpl; [|by rewrite IH].
  induction n; simpl; [done|]. rewrite IHn. lia.
Qed.

Lemma key_of_bytes_range l :
  (forall b, b ∈ l -> is_byte b) -> 0 <= key_of_bytes l < 256 ^ Z.of_nat (length l).
Proof.
  induction l as [|b l IH]; intros Hb; [simpl; lia|].
  cbn [key_of_bytes length]. rewrite Nat2Z.inj_succ, Z.pow_succ_r by lia.
  assert (is_byte b) as Hb0 by (apply Hb; left).
  specialize (IH (fun b Hin => Hb b (list_elem_of_further _ _ _ Hin))).
  unfold is_byte in *. nia.
Qed.

(** ** The loops over the bytes *)

(** Writing [bytes] to the array from [base]. *)
Lemma set_loop_spec (bytes : list Z) (array : list (option Z)) base n :
  (n <= length bytes)%nat -> (base + n <= length array)%nat ->
  res_fold (fun array i => b ← arr_get bytes i; arr_set array (base + i)%nat (Some b))
    array (seq 0 n)
  = Val (take base array ++ (Some <$> take n bytes) ++ drop (base + n) array).
Proof.
  induction n as [|n IH]; intros Hb Ha.
  - simpl. by rewrite Nat.add_0_r, take_drop.
  - rewrite seq_S, res_fold_app, IH by lia. simpl.
    destruct (lookup_lt_is_Some_2 bytes n) as [b Hbn]; [lia|].
    rewrite (arr_get_val _ _ _ Hbn). simpl.
    rewrite arr_set_val by (rewrite !length_app, length_fmap, !length_take, length_drop; lia).
    f_equal.
    assert (length (take base array) = base) as Hl by (rewrite length_take; lia).
    rewrite insert_app_r_alt, Hl by lia.
    replace (base + n - base)%nat with n by lia.
    rewrite insert_app_r_alt by (rewrite length_fmap, length_take; lia).
    rewrite length_fmap, length_take, Nat.min_l, Nat.sub_diag by lia.
    rewrite (take_S_r _ _ _ Hbn), fmap_app, <- !app_assoc. do 2 f_equal.
    destruct (drop (base + n) array) as [|x l] eqn:E.
    { apply (f_equal length) in E. rewrite length_drop in E. simpl in E. lia. }
    simpl. f_equal. replace (base + S n)%nat with (base + n + 1)%nat by lia.
    by rewrite <- drop_drop, E.
Qed.

(** Reading [n] initialised bytes from [base]. *)
Lemma get_loop_spec (array : list (option Z)) base n bytes :
  (n <= 8)%nat -> take n (drop base array) = Some <$> bytes -> length bytes = n ->
  res_fold
    (fun bytes i => b ← arr_get array (base + i)%nat; c ← require b; arr_set bytes i c)
    (replicate 8 0) (seq 0 n)
  = Val (bytes ++ replicate (8 - n) 0).
Proof.
  intros Hn. revert bytes.
  induction n as [|n IH]; intros bytes Hd Hl.
  - by destruct bytes.
  - destruct (nil_or_length_pos bytes) as [->|]; [done|].
    destruct bytes as [|b bytes _] using rev_ind; [done|].
    rewrite length_app in Hl. simpl in Hl.
    assert (array !! (base + n)%nat = Some (Some b)) as Hb.
    { rewrite <- lookup_drop, <- (lookup_take_lt _ (S n)) by lia. rewrite Hd, fmap_app.
      rewrite lookup_app_r; rewrite length_fmap; [|lia].
      by replace (n - length bytes)%nat with 0%nat by lia. }
    rewrite seq_S, res_fold_app, (IH ltac:(lia) bytes) by
      first [lia | apply (f_equal (take n)) in Hd;
        rewrite take_take, Nat.min_l, fmap_app, take_app_length' in Hd
          by (rewrite ?length_fmap; lia); done].
    simpl. rewrite (arr_get_val _ _ _ Hb). simpl.
    rewrite arr_set_val by (rewrite length_app, length_replicate; lia).
    f_equal. rewrite insert_app_r_alt by lia.
    replace (n - length bytes)%nat with 0%nat by lia.
    replace (8 - n)%nat with (S (8 - S n)) by lia. simpl. by rewrite <- app_assoc.
Qed.

Lemma take_drop_chunk (l : list (option Z)) (b k : nat) (i : nat) :
  length l = (b * k)%nat -> (i < k)%nat -> length (take b (drop (i * b) l)) = b.
Proof. intros Hl Hi. rewrite length_take, length_drop, Hl. nia. Qed.

Lemma set_value_at_val a i v :
  wf a -> (i < m_capacity a)%nat ->
  let b := m_bytes_per_element a in
  set_value_at a i v = Val (mkCByteArray b (m_capacity a)
    (take (i * b) (m_array a) ++ (Some <$> bytes_of_key b v) ++ drop (i * b + b) (m_array a))).
Proof.
  intros [Hb Hl _] Hi b. unfold set_value_at.
  rewrite set_loop_spec; rewrite ?length_bytes_of_key, ?Hl; [|lia|nia].
  by rewrite res_bind_Val_l, take_bytes_of_key by lia.
Qed.

(** Writes inside of the capacity succeed and keep the array well formed. *)
Lemma set_value_at_wf a i v :
  wf a -> (i < m_capacity a)%nat ->
  exists a', set_value_at a i v = Val a' /\ wf a' /\
    m_capacity a' = m_capacity a /\ m_bytes_per_element a' = m_bytes_per_element a.
Proof.
  intros Hwf Hi. rewrite set_value_at_val by done. eexists. split; [done|].
  split; [|done]. destruct Hwf as [Hb Hl Hr]. split; simpl; [done| |].
  - rewrite !length_app, length_fmap, length_bytes_of_key, length_take, length_drop, Hl. nia.
  - intros j c. rewrite !lookup_app_Some, list_lookup_fmap.
    intros [Hj|[_ [Hj|[_ Hj]]]].
    + apply lookup_take_Some in Hj as [Hj _]. by eapply Hr.
    + destruct (bytes_of_key _ v !! _) eqn:E; simplify_eq/=.
      eapply bytes_of_key_byte, list_elem_of_lookup_2, E.
    + rewrite lookup_drop in Hj. by eapply Hr.
Qed.

Lemma get_value_at_bytes a i bytes :
  wf a ->
  take (m_bytes_per_element a) (drop (i * m_bytes_per_element a) (m_array a)) = Some <$> bytes ->
  length bytes = m_bytes_per_element a ->
  get_value_at a i = Val (key_of_bytes bytes).
Proof.
  intros [Hb Hl Hr] Ht Hlen. unfold get_value_at.
  rewrite (get_loop_spec _ _ _ bytes) by (lia || done).
  by rewrite res_bind_Val_l, key_of_bytes_zeros.
Qed.

(** Reads are local: they depend on the bytes of the element only. *)
Lemma get_value_at_chunk a a' i :
  m_bytes_per_element a = m_bytes_per_element a' ->
  let b := m_bytes_per_element a in
  take b (drop (i * b) (m_array a)) = take b (drop (i * b) (m_array a')) ->
  get_value_at a i = get_value_at a' i.
Proof.
  intros Hb b Ht. unfold get_value_at. rewrite <- Hb. fold b. f_equal.
  assert (forall n bytes, (n <= b)%nat ->
    res_fold (fun bytes i0 => b0 ← arr_get (m_array a) (i * b + i0)%nat;
      c ← require b0; arr_set bytes i0 c) bytes (seq 0 n) =
    res_fold (fun bytes i0 => b0 ← arr_get (m_array a') (i * b + i0)%nat;
      c ← require b0; arr_set bytes i0 c) bytes (seq 0 n)) as Hn.
  { induction n as [|n IH]; intros bytes Hn; [done|].
    rewrite seq_S, !res_fold_app, IH by lia.
    destruct (res_fold _ _ _) as [l| | |]; simpl; try done.
    unfold arr_get. rewrite <- !lookup_drop.
    rewrite <- (lookup_take_lt (drop _ (m_array a)) b) by lia.
    rewrite <- (lookup_take_lt (drop _ (m_array a')) b) by lia.
    by rewrite Ht. }
  by apply Hn.
Qed.

(** ** The interface: get and set *)

(** Reading back what was written gives the value, cut to the width of the
    element. *)
Lemma get_set_eq a a' i v :
  wf a -> (i < m_capacity a)%nat -> set_value_at a i v = Val a' ->
  get_value_at a' i = Val (v mod bound a).
Proof.
  intros Hwf Hi Hs.
  destruct (set_value_at_wf a i v Hwf Hi) as (a1 & Hs1 & Hwf1 & _ & _).
  rewrite Hs in Hs1. injection Hs1 as <-.
  rewrite set_value_at_val in Hs by done. injection Hs as <-.
  destruct Hwf as [Hb Hl Hr].
  rewrite (get_value_at_bytes _ i (bytes_of_key (m_bytes_per_element a) v)); try done.
  - by rewrite key_of_bytes_of_key.
  - cbn [CByteArray.m_bytes_per_element CByteArray.m_array].
    rewrite drop_app_length' by (rewrite length_take; nia).
    by rewrite take_app_length' by (by rewrite length_fmap, length_bytes_of_key).
  - by rewrite length_bytes_of_key.
Qed.

(** The other elements are untouched. *)
Lemma get_set_ne a a' i j v :
  wf a -> (i < m_capacity a)%nat -> i <> j -> set_value_at a i v = Val a' ->
  get_value_at a' j = get_value_at a j.
Proof.
  intros Hwf Hi Hne Hs. rewrite set_value_at_val in Hs by done. injection Hs as <-.
  destruct Hwf as [Hb Hl _].
  apply get_value_at_chunk; [done|].
  cbn [CByteArray.m_bytes_per_element CByteArray.m_array].
  set (b := m_bytes_per_element a) in *.
  destruct (decide (j < i)%nat).
  - rewrite drop_app_le by (rewrite length_take; nia).
    rewrite take_app_le by (rewrite length_drop, length_take; nia).
    apply list_eq. intros k. destruct (decide (k < b)%nat).
    + rewrite !lookup_take_lt, !lookup_drop, lookup_take_lt by nia. done.
    + rewrite !lookup_take_ge by lia. done.
  - apply list_eq. intros k. destruct (decide (k < b)%nat).
    + rewrite !lookup_take_lt, !lookup_drop by lia.
      rewrite lookup_app_r by (rewrite length_take; nia).
      rewrite lookup_app_r
        by (rewrite length_fmap, length_bytes_of_key, length_take; nia).
      rewrite lookup_drop, length_fmap, length_bytes_of_key, length_take.
      f_equal. nia.
    + rewrite !lookup_take_ge by lia. done.
Qed.

Lemma bound_pos a : 0 < bound a.
Proof. unfold bound. lia. Qed.

(** The accumulator of the read loop: bytes, with zeros past the width. *)
Definition read_acc (b : nat) (bytes : list Z) : Prop :=
  length bytes = 8%nat /\ (forall c, c ∈ bytes -> is_byte c) /\
  forall k, (b <= k < 8)%nat -> bytes !! k = Some 0.

Lemma read_acc_insert b bytes k c :
  (k < b)%nat -> is_byte c -> read_acc b bytes -> read_acc b (<[k:=c]> bytes).
Proof.
  intros Hk Hc (Hl & Hb & Hz). split; [|split].
  - by rewrite length_insert.
  - intros x Hin. apply list_elem_of_lookup in Hin as [j Hj].
    apply list_lookup_insert_Some in Hj as [(_ & -> & _)|[_ Hj]]; [done|].
    by eapply Hb, list_elem_of_lookup_2.
  - intros j Hj. rewrite list_lookup_insert_ne by lia. by apply Hz.
Qed.

Lemma read_acc_bound b bytes :
  (b <= 8)%nat -> read_acc b bytes -> 0 <= key_of_bytes bytes < 256 ^ Z.of_nat b.
Proof.
  intros Hb8 (Hl & Hb & Hz).
  assert (bytes = take b bytes ++ replicate (8 - b) 0) as Heq.
  { apply list_eq. intros k. destruct (decide (k < b)%nat).
    - by rewrite lookup_app_l, lookup_take_lt by (rewrite ?length_take; lia).
    - rewrite lookup_app_r, length_take, Hl by (rewrite length_take; lia).
      destruct (decide (k < 8)%nat).
      + rewrite Hz by lia. symmetry. apply lookup_replicate. split; [done|lia].
      + rewrite !lookup_ge_None_2; rewrite ?length_replicate; (done || lia). }
  rewrite Heq, key_of_bytes_zeros.
  replace b with (length (take b bytes)) at 3 by (rewrite length_take; lia).
  apply key_of_bytes_range. intros c Hin. apply Hb. rewrite Heq. set_solver.
Qed.

(** A value that is read fits in the width of the element. *)
Lemma get_bound a i v : wf a -> get_value_at a i = Val v -> 0 <= v < bound a.
Proof.
  intros [Hb Hl Hr] H. unfold get_value_at in H. res_inv H. simplify_eq.
  rename a0 into bytes. apply read_acc_bound; [lia|].
  set (b := m_bytes_per_element a) in *.
  assert (forall l bs0 bs, read_acc b bs0 -> (forall k, k ∈ l -> (k < b)%nat) ->
    res_fold (fun bytes i0 => b0 ← arr_get (m_array a) (i * b + i0)%nat;
      c ← require b0; arr_set bytes i0 c) bs0 l = Val bs -> read_acc b bs) as Hgen.
  { induction l as [|k l IH]; intros bs0 bs Hacc Hin Hf; simpl in Hf; [by simplify_eq|].
    res_inv Hf. res_inv Ha0. res_inv Ha0. unfold arr_get, require, arr_set in *.
    repeat case_match; simplify_eq. eapply IH; [..|exact Hf].
    - apply read_acc_insert; [apply Hin; left|by eapply Hr|done].
    - intros k' Hk'. apply Hin. by right. }
  eapply Hgen; [..|exact Ha].
  - split; [done|]. split.
    + intros c. rewrite elem_of_replicate. intros [-> _]. unfold is_byte. lia.
    + intros k Hk. apply lookup_replicate. split; [done|lia].
  - intros k Hk. apply elem_of_seq in Hk. lia.
Qed.

Lemma bound_le_u64 a : wf a -> bound a <= 2 ^ 64.
Proof.
  intros [Hb _ _]. unfold bound. change (2 ^ 64) with (256 ^ 8).
  apply Z.pow_le_mono_r; lia.
Qed.

(** ** The array as a list

    [holds a l]: the elements of the array from the first on are those of [l];
    the elements that follow, up to the capacity, are unspecified. *)
Definition holds (a : CByteArray) (l : list Z) : Prop :=
  wf a /\ (length l <= m_capacity a)%nat /\
  forall i v, l !! i = Some v -> get_value_at a i = Val v.

Lemma CByteArray_new_val b n :
  (0 < b <= 8)%nat -> CByteArray_new b n = Val (mkCByteArray b n (replicate (b * n) None)).
Proof.
  intros Hb. unfold CByteArray_new.
  rewrite (proj2 (Nat.leb_gt _ _)), (proj2 (Nat.ltb_ge _ _)) by lia. done.
Qed.

Lemma holds_new b n :
  (0 < b <= 8)%nat -> holds (mkCByteArray b n (replicate (b * n) None)) [].
Proof.
  intros Hb. split; [|split; [simpl; lia|done]].
  split; simpl; [done|apply length_replicate|].
  intros i c Hi. apply lookup_replicate in Hi as [? _]. done.
Qed.

Lemma holds_get a l i v : holds a l -> l !! i = Some v -> get_value_at a i = Val v.
Proof. intros (_ & _ & H). apply H. Qed.

Lemma holds_bound a l v : holds a l -> v ∈ l -> 0 <= v < bound a.
Proof.
  intros (Hwf & _ & H) [i Hi]%list_elem_of_lookup. eapply get_bound; eauto.
Qed.

(** Overwriting an element. *)
Lemma holds_set a l i v :
  holds a l -> (i < length l)%nat ->
  exists a', set_value_at a i v = Val a' /\ holds a' (<[i := v mod bound a]> l) /\
    m_capacity a' = m_capacity a /\ m_bytes_per_element a' = m_bytes_per_element a.
Proof.
  intros (Hwf & Hl & Hg) Hi.
  destruct (set_value_at_wf a i v Hwf) as (a' & Hs & Hwf' & Hc & Hb); [lia|].
  exists a'. split; [done|]. split; [|done]. split; [done|]. split.
  - rewrite length_insert. lia.
  - intros j w [(<- & <- & _)|[Hne Hj]]%list_lookup_insert_Some.
    + eapply get_set_eq; [..|exact Hs]; [done|lia].
    + rewrite (get_set_ne a a' i j v) by (done || lia). by apply Hg.
Qed.

(** Writing the element that follows. *)
Lemma holds_push a l v :
  holds a l -> (length l < m_capacity a)%nat ->
  exists a', set_value_at a (length l) v = Val a' /\ holds a' (l ++ [v mod bound a]) /\
    m_capacity a' = m_capacity a /\ m_bytes_per_element a' = m_bytes_per_element a.
Proof.
  intros (Hwf & Hl & Hg) Hi.
  destruct (set_value_at_wf a (length l) v Hwf Hi) as (a' & Hs & Hwf' & Hc & Hb).
  exists a'. split; [done|]. split; [|done]. split; [done|]. split.
  - rewrite length_app. simpl. lia.
  - intros j w [Hj|[Hj Hw]]%lookup_app_Some.
    + rewrite (get_set_ne a a' (length l) j v); [by apply Hg|done|done| |done].
      intros <-. apply lookup_lt_Some in Hj. lia.
    + apply list_lookup_singleton_Some in Hw as [Hj' <-].
      replace j with (length l) by lia. by eapply get_set_eq.
Qed.

(** Filling a fresh array, the loop of every client. *)
Lemma fill_spec a l (vs : list Z) :
  holds a l -> (length l + length vs <= m_capacity a)%nat ->
  exists a', res_fold (fun a iv => set_value_at a iv.1 iv.2) a
      (zip (seq (length l) (length vs)) vs) = Val a' /\
    holds a' (l ++ ((fun v => v mod bound a) <$> vs)) /\
    m_capacity a' = m_capacity a /\ m_bytes_per_element a' = m_bytes_per_element a.
Proof.
  revert a l. induction vs as [|v vs IH]; intros a l Hh Hc; simpl in *.
  - exists a. by rewrite app_nil_r.
  - destruct (holds_push a l v Hh) as (a1 & -> & Hh1 & Hc1 & Hb1); [lia|]. simpl.
    destruct (IH a1 _ Hh1) as (a2 & H2 & Hh2 & Hc2 & Hb2).
    { rewrite length_app. simpl. lia. }
    rewrite length_app, Nat.add_1_r in H2. exists a2. split; [done|].
    unfold bound in *. rewrite Hb1, <- app_assoc in Hh2. split; [done|].
    split; congruence.
Qed.

Lemma mod_bound_id a (l : list Z) :
  (forall v, v ∈ l -> 0 <= v < bound a) -> (fun v => v mod bound a) <$> l = l.
Proof.
  intros H. rewrite <- (list_fmap_id l) at 2. apply list_fmap_ext.
  intros i v Hv. apply Z.mod_small, H. by eapply list_elem_of_lookup_2.
Qed.

(** ** Properties *)

(** An element that is written inside of the capacity reads back as the value
    modulo 256^bytes_per_element, every other element reads as before, and the
    array stays well formed. *)
Theorem set_get_roundtrip (a : CByteArray) (i : nat) (v : Z) :
  wf a -> (i < m_capacity a)%nat ->
  exists a', set_value_at a i v = Val a' /\ wf a' /\
    m_capacity a' = m_capacity a /\
    get_value_at a' i = Val (v mod 256 ^ Z.of_nat (m_bytes_per_element a)) /\
    forall j, j <> i -> get_value_at a' j = get_value_at a j.
Proof.
  intros Hwf Hi. destruct (set_value_at_wf a i v Hwf Hi) as (a' & Hs & Hwf' & Hc & _).
  exists a'. split_and!; try done.
  - by apply (get_set_eq a a').
  - intros j Hj. by apply (get_set_ne a a' i j v).
Qed.

Lemma compute_bytes_val value :
  1 <= value -> compute_bytes_per_elements value = Val (Z.to_nat ((Z.log2_up value + 7) / 8)).
Proof. intros H. unfold compute_bytes_per_elements. by rewrite (proj2 (Z.leb_gt _ _)) by lia. Qed.

Lemma pow256 k : 0 <= k -> 256 ^ k = 2 ^ (8 * k).
Proof. intros H. change 256 with (2 ^ 8). by rewrite <- Z.pow_mul_r by lia. Qed.

Lemma compute_bytes_le value b :
  compute_bytes_per_elements value = Val b -> 1 <= value /\ value <= 256 ^ Z.of_nat b.
Proof.
  unfold compute_bytes_per_elements. case_match eqn:E; intros H; simplify_eq.
  apply Z.leb_gt in E. split; [lia|].
  pose proof (Z.log2_up_nonneg value).
  rewrite Z2Nat.id, pow256 by (apply Z.div_pos; lia).
  apply Z.log2_up_le_pow2; [lia|].
  pose proof (Z.div_mod (Z.log2_up value + 7) 8). pose proof (Z.mod_pos_bound (Z.log2_up value + 7) 8). lia.
Qed.

(** The width computed for a maximum value can hold the value unless the value
    is a power of 256. *)
Lemma compute_bytes_fits value b :
  compute_bytes_per_elements value = Val b ->
  (value < 256 ^ Z.of_nat b <-> ~ exists k, value = 256 ^ Z.of_nat k).
Proof.
  intros H. pose proof (compute_bytes_le _ _ H) as [H1 H2]. split.
  - intros Hlt [k ->].
    rewrite compute_bytes_val in H by lia. injection H as <-.
    rewrite pow256, Z.log2_up_pow2 in Hlt by lia.
    replace (8 * Z.of_nat k + 7) with (7 + Z.of_nat k * 8) in Hlt by lia.
    rewrite Z.div_add, Z.div_small, Z.add_0_l, Nat2Z.id, pow256 in Hlt by lia. lia.
  - intros Hn. destruct (decide (value = 256 ^ Z.of_nat b)) as [->|]; [|lia].
    exfalso. eauto.
Qed.

Definition power_of_256 (value : Z) : Prop := exists k, value = 256 ^ Z.of_nat k.

(** The widths that the clients ask for are valid. *)
Lemma compute_bytes_width value b :
  compute_bytes_per_elements value = Val b -> 2 <= value < 2 ^ 48 -> (0 < b <= 8)%nat.
Proof.
  intros H Hv. rewrite compute_bytes_val in H by lia. injection H as <-.
  assert (0 < Z.log2_up value <= 48).
  { split; [apply Z.log2_up_pos; lia|]. apply Z.log2_up_le_pow2; lia. }
  assert (1 <= (Z.log2_up value + 7) / 8 <= 6); [|lia].
  split; [apply Z.div_le_lower_bound; lia|].
  transitivity ((48 + 7) / 8); [apply Z.div_le_mono; lia|done].
Qed.

Lemma bytes_per_elements_fit (value : Z) :
  2 <= value < 2 ^ 48 ->
  exists b, compute_bytes_per_elements value = Val b /\ (0 < b <= 8)%nat /\
    (value < 256 ^ Z.of_nat b <-> ~ power_of_256 value).
Proof.
  intros Hv. eexists. split; [apply compute_bytes_val; lia|].
  split; [eapply compute_bytes_width; [apply compute_bytes_val; lia|done]|].
  apply compute_bytes_fits, compute_bytes_val. lia.
Qed.

(** The number of bytes computed for the largest value to store is in 1..8,
    and the value fits in that many bytes exactly when it is not a power of
    256: for 256, 65536, ... the width is one byte short. *)
Theorem compute_bytes_per_elements_spec (value : Z) :
  2 <= value < 2 ^ 48 ->
  exists b, compute_bytes_per_elements value = Val b /\ (0 < b <= 8)%nat /\
    (value < 256 ^ Z.of_nat b <-> ~ power_of_256 value).
Proof. apply bytes_per_elements_fit. Qed.

Lemma compute_bytes_per_elements_spec_witness :
  2 <= 256 < 2 ^ 48 /\
  exists b, compute_bytes_per_elements 256 = Val b /\ (0 < b <= 8)%nat /\
    (256 < 256 ^ Z.of_nat b <-> ~ power_of_256 256).
Proof. split; [lia|]. apply (compute_bytes_per_elements_spec 256). lia. Defined.

(** *** Sorting *)

Lemma read_all a l idx :
  holds a l -> (forall i, i ∈ idx -> (i < length l)%nat) ->
  forall vs, res_fold (fun vs i => v ← get_value_at a i; Val (vs ++ [v])) vs idx
    = Val (vs ++ omap (fun i => l !! i) idx).
Proof.
  intros Hh. induction idx as [|i idx IH]; intros Hin vs; simpl; [by rewrite app_nil_r|].
  destruct (lookup_lt_is_Some_2 l i) as [v Hv]; [apply Hin; left|].
  rewrite (holds_get a l i v), Hv by done. simpl.
  rewrite IH by (intros; apply Hin; by right). by rewrite <- app_assoc.
Qed.

Lemma omap_lookup_seq {A} (l : list A) : omap (fun i => l !! i) (seq 0 (length l)) = l.
Proof.
  induction l as [|x l IH]; [done|]. simpl. f_equal.
  rewrite <- seq_shift.
  etransitivity; [|exact IH]. generalize (seq 0 (length l)).
  induction l0 as [|i l0 IH0]; [done|]. simpl. case_match; by rewrite IH0.
Qed.

(** Overwriting a prefix. *)
Lemma overwrite_spec a l (vs : list Z) k :
  holds a l -> (k + length vs <= length l)%nat -> (forall v, v ∈ vs -> 0 <= v < bound a) ->
  exists a', res_fold (fun a iv => set_value_at a iv.1 iv.2) a
      (zip (seq k (length vs)) vs) = Val a' /\
    holds a' (take k l ++ vs ++ drop (k + length vs) l) /\
    m_capacity a' = m_capacity a /\ m_bytes_per_element a' = m_bytes_per_element a.
Proof.
  revert a l k. induction vs as [|v vs IH]; intros a l k Hh Hk Hb; simpl in *.
  - exists a. by rewrite Nat.add_0_r, take_drop.
  - destruct (holds_set a l k v Hh) as (a1 & -> & Hh1 & Hc1 & Hb1); [lia|]. simpl.
    rewrite Z.mod_small in Hh1 by (apply Hb; left).
    destruct (IH a1 _ (S k) Hh1) as (a2 & H2 & Hh2 & Hc2 & Hb2).
    { rewrite length_insert. lia. }
    { intros w Hw. unfold bound. rewrite Hb1. apply Hb. by right. }
    exists a2. split; [done|]. split; [|split; congruence].
    destruct (lookup_lt_is_Some_2 l k) as [x Hx]; [lia|].
    rewrite (take_S_r _ _ v), take_insert_ge, drop_insert_lt in Hh2
      by (lia || by apply list_lookup_insert_eq; lia).
    rewrite <- app_assoc in Hh2. simpl in Hh2.
    by replace (k + S (length vs))%nat with (S (k + length vs)) by lia.
Qed.

Lemma sort_all_holds (a : CByteArray) (l : list Z) :
  holds a l -> length l = m_capacity a ->
  exists a' l', sort_all a = Val a' /\ holds a' l' /\ m_capacity a' = m_capacity a /\
    l' ≡ₚ l /\ Sorted Z.le l'.
Proof.
  intros Hh Hl. unfold sort_all, sort_interval.
  rewrite Nat.min_id, Nat.sub_0_r, <- Hl.
  rewrite (read_all a l) by (done || intros i Hi; apply elem_of_seq in Hi; lia).
  rewrite res_bind_Val_l, app_nil_l, omap_lookup_seq.
  pose proof (merge_sort_Permutation Z.le l) as Hp.
  destruct (overwrite_spec a l (merge_sort Z.le l) 0 Hh) as (a' & Hs & Hh' & Hc & _).
  - rewrite (Permutation_length Hp). lia.
  - intros v Hv. rewrite Hp in Hv. by eapply holds_bound.
  - rewrite (Permutation_length Hp) in *. rewrite drop_ge, app_nil_r in Hh' by lia.
    exists a', (merge_sort Z.le l). split_and!; try done; [congruence|].
    apply Sorted_merge_sort. intros x y. lia.
Qed.

(** Sorting a full array leaves exactly its values, in increasing order. *)
Theorem sort_all_sorted (a : CByteArray) (l : list Z) :
  holds a l -> length l = m_capacity a ->
  exists a' l', sort_all a = Val a' /\ holds a' l' /\ m_capacity a' = m_capacity a /\
    l' ≡ₚ l /\ Sorted Z.le l'.
Proof. apply sort_all_holds. Qed.

(** *** Merging *)

(** Juxtaposing the bytes of two arrays juxtaposes their elements. *)
Lemma holds_app b ca cb A B (la lb : list Z) :
  holds (mkCByteArray b ca A) la -> length la = ca ->
  holds (mkCByteArray b cb B) lb ->
  holds (mkCByteArray b (ca + cb) (A ++ B)) (la ++ lb).
Proof.
  intros (HwA & Hla & HgA) Hfull (HwB & Hlb & HgB).
  destruct HwA as [Hb HlA HrA]. destruct HwB as [_ HlB HrB]. simpl in *.
  split; [|split].
  - split; simpl; [done|rewrite length_app; lia|].
    intros i c [H|[_ H]]%lookup_app_Some; [by eapply HrA|by eapply HrB].
  - rewrite length_app. simpl. lia.
  - intros i v [Hi|[Hge Hi]]%lookup_app_Some.
    + rewrite <- (HgA _ _ Hi). apply lookup_lt_Some in Hi.
      assert ((i + 1) * b <= ca * b)%nat by (apply Nat.mul_le_mono_r; lia).
      apply get_value_at_chunk; [done|]. simpl.
      rewrite drop_app_le, take_app_le by (rewrite ?length_drop; lia). done.
    + rewrite <- (HgB _ _ Hi). unfold get_value_at. simpl. f_equal.
      apply lookup_lt_Some in Hi.
      assert (forall n bs, res_fold (fun bytes i0 =>
          b0 ← arr_get (A ++ B) (i * b + i0)%nat; c ← require b0; arr_set bytes i0 c) bs (seq 0 n) =
        res_fold (fun bytes i0 =>
          b0 ← arr_get B ((i - length la) * b + i0)%nat; c ← require b0; arr_set bytes i0 c)
          bs (seq 0 n)) as Hn; [|apply Hn].
      induction n as [|n IH]; intros bs; [done|].
      rewrite seq_S, !res_fold_app, IH. destruct (res_fold _ _ _); simpl; try done.
      assert (i * b = ca * b + (i - length la) * b)%nat as ->
        by (rewrite <- Nat.mul_add_distr_r; f_equal; lia).
      unfold arr_get. rewrite lookup_app_r.
      2: { rewrite HlA, (Nat.mul_comm b ca).
        rewrite <- Nat.add_assoc. apply Nat.le_add_r. }
      rewrite HlA, (Nat.mul_comm b ca).
      by rewrite <- Nat.add_assoc, (Nat.add_comm (ca * b)), Nat.add_sub.
Qed.

(** The arrays to merge have width [b] and are full with the given contents. *)
Definition mergeable (b : nat) (oa : option CByteArray) (ol : option (list Z)) : Prop :=
  match oa, ol with
  | None, None => True
  | Some a, Some l => holds a l /\ length l = m_capacity a /\ m_bytes_per_element a = b
  | _, _ => False
  end.

Lemma merge_sizes_spec b arrays contents :
  Forall2 (mergeable b) arrays contents -> (0 < b)%nat ->
  exists b', merge_sizes arrays = Val (length (concat (omap id contents)), b') /\
    (b' = b \/ (b' = 0%nat /\ omap id contents = [])).
Proof.
  intros HF Hb. unfold merge_sizes.
  assert (forall c b0, (b0 = b \/ b0 = 0%nat) ->
    exists b', res_fold (fun '(capacity, bytes_per_element) ba =>
       match ba with
       | None => Val (capacity, bytes_per_element)
       | Some ba =>
         if decide (bytes_per_element = 0%nat \/ bytes_per_element = m_bytes_per_element ba)
         then Val ((capacity + m_capacity ba)%nat, m_bytes_per_element ba)
         else Exn RuntimeError
       end) (c, b0) arrays = Val ((c + length (concat (omap id contents)))%nat, b') /\
      (b' = b \/ (b' = b0 /\ omap id contents = []))) as Hgen.
  { induction HF as [|oa ol arrays contents Hm HF IH]; intros c b0 H0; simpl.
    - exists b0. rewrite Nat.add_0_r. auto.
    - destruct oa as [a|], ol as [l|]; simpl in Hm; try done.
      + destruct Hm as (Hh & Hl & Hba). rewrite decide_True by (subst; tauto). simpl.
        destruct (IH (c + m_capacity a)%nat (m_bytes_per_element a)) as (b' & -> & Hb'); [auto|].
        exists b'. rewrite length_app, Hl, Nat.add_assoc. split; [done|].
        left. destruct Hb' as [?|[? _]]; congruence.
      + simpl. apply IH. done. }
  destruct (Hgen 0%nat 0%nat) as (b' & -> & H'); [auto|]. exists b'. auto.
Qed.

Lemma memcpy_append (X src : list (option Z)) n :
  (length src <= n)%nat ->
  memcpy (X ++ replicate n None) (length X) src (length src)
  = Val ((X ++ src) ++ replicate (n - length src) None).
Proof.
  intros Hn. unfold memcpy. rewrite decide_True by (rewrite length_app, length_replicate; lia).
  rewrite take_app_length, firstn_all, drop_app_ge, drop_replicate by lia.
  rewrite <- app_assoc. do 4 f_equal. lia.
Qed.

(** Merging full arrays of one width (null pointers skipped) gives a new
    array that holds the concatenation of their values. *)
Theorem merge_concat (b : nat) (arrays : list (option CByteArray)) (contents : list (option (list Z))) :
  Forall2 (mergeable b) arrays contents -> (0 < b <= 8)%nat ->
  exists r, merge arrays = Val r /\ holds r (concat (omap id contents)) /\
    m_capacity r = length (concat (omap id contents)).
Proof.
  intros HF Hb. unfold merge.
  destruct (merge_sizes_spec b arrays contents HF) as (b' & -> & Hb'); [lia|].
  rewrite res_bind_Val_l. set (w := if decide (b' = 0%nat) then 1%nat else b').
  assert ((0 < w <= 8)%nat /\ (omap id contents <> [] -> w = b)) as [Hw Hwb].
  { unfold w. case_decide; destruct Hb' as [?|[? ?]]; split; (lia || congruence). }
  clearbody w. rewrite CByteArray_new_val, res_bind_Val_l by done. simpl.
  assert (forall X ls n, holds (mkCByteArray w (length ls) X) ls ->
    (n = length (concat (omap id contents))) ->
    exists X', res_fold (fun '(array, destination) ba =>
       match ba with
       | None => Val (array, destination)
       | Some ba =>
         let amount := (w * m_capacity ba)%nat in
         array ← memcpy array destination (m_array ba) amount;
         Val (array, (destination + amount)%nat)
       end) (X ++ replicate (w * n) None, length X) arrays = Val (X', length X') /\
      holds (mkCByteArray w (length ls + n) X') (ls ++ concat (omap id contents))) as Hgen.
  { clear Hb'. induction HF as [|oa ol arrays contents Hm HF IH]; intros X ls n Hh Hn; simpl in *.
    - subst n. exists X. by rewrite Nat.mul_0_r, Nat.add_0_r, !app_nil_r.
    - destruct oa as [a|], ol as [l|]; simpl in Hm; try done; [|by apply IH].
      destruct Hm as (Ha & Hl & Hba). simpl in *.
      assert (w = m_bytes_per_element a) as Hwa by (rewrite Hba; by apply Hwb).
      assert (length (m_array a) = w * m_capacity a)%nat as Hlen.
      { rewrite Hwa. apply Ha. }
      rewrite <- Hlen, memcpy_append by (rewrite Hlen, Hn, length_app; nia). simpl.
      rewrite Hlen.
      replace (w * n - w * m_capacity a)%nat with (w * (n - length l))%nat by nia.
      destruct (IH (fun H => Hwb ltac:(done)) (X ++ m_array a) (ls ++ l) (n - length l)%nat)
        as (X' & HX & HhX).
      + rewrite length_app. apply holds_app; [done|done|].
        rewrite Hl, Hwa. by destruct a.
      + by rewrite Hn, length_app, (Nat.add_comm (length l)), Nat.add_sub.
      + rewrite length_app, Hlen in HX. exists X'. split; [done|].
        rewrite length_app, <- app_assoc in HhX.
        replace (length ls + n)%nat with (length ls + length l + (n - length l))%nat; [done|].
        rewrite Hn, length_app. lia. }
  pose proof (holds_new w 0 Hw) as Hnil. rewrite Nat.mul_0_r in Hnil.
  destruct (Hgen [] [] _ Hnil eq_refl) as (X' & HX & HhX).
  simpl in HX, HhX. rewrite HX. simpl. eauto.
Qed.

(** *** Witnesses *)

(** The array [values], of width [b], full. *)
Definition array_of (b : nat) (values : list Z) : CByteArray :=
  mkCByteArray b (length values) (concat ((fun v => Some <$> bytes_of_key b v) <$> values)).

Lemma array_of_holds b values :
  (0 < b <= 8)%nat ->
  forallb (fun v => (0 <=? v) && (v <? 256 ^ Z.of_nat b)) values = true ->
  holds (array_of b values) values.
Proof.
  intros Hb. induction values as [|v values IH]; intros Hv.
  - apply (holds_new b 0) in Hb. by rewrite Nat.mul_0_r in Hb.
  - unfold array_of. simpl. apply (holds_app b 1 (length values) _ _ [v] values); [|done|].
    + destruct (holds_push _ [] v (holds_new b 1 Hb)) as (a & Hs & Ha & Hc & _); [simpl; lia|].
      rewrite set_value_at_val in Hs by (apply holds_new || simpl; lia || done).
      injection Hs as <-. simpl in *. rewrite drop_ge, app_nil_r in Ha.
      2: { rewrite length_replicate. lia. }
      apply andb_prop in Hv as [Hv _].
      rewrite Z.mod_small in Ha; [done|]. unfold bound. simpl. lia.
    + apply IH. by apply andb_prop in Hv as [_ Hv].
Qed.

Lemma set_get_roundtrip_witness :
  wf (array_of 2 [7; 300]) /\
  exists a', set_value_at (array_of 2 [7; 300]) 1 65537 = Val a' /\ wf a' /\
    m_capacity a' = 2%nat /\ get_value_at a' 1 = Val 1 /\
    forall j, j <> 1%nat -> get_value_at a' j = get_value_at (array_of 2 [7; 300]) j.
Proof.
  assert (wf (array_of 2 [7; 300])) as Hwf by (apply array_of_holds; [lia|done]).
  split; [done|].
  apply (set_get_roundtrip (array_of 2 [7; 300]) 1 65537); [done|simpl; lia].
Defined.

Lemma sort_all_sorted_witness :
  holds (array_of 1 [3; 1; 2]) [3; 1; 2] /\
  exists a' l', sort_all (array_of 1 [3; 1; 2]) = Val a' /\ holds a' l' /\
    m_capacity a' = 3%nat /\ l' ≡ₚ [3; 1; 2] /\ Sorted Z.le l'.
Proof.
  assert (holds (array_of 1 [3; 1; 2]) [3; 1; 2]) as Hh
    by (apply array_of_holds; [lia|done]).
  split; [done|]. apply (sort_all_sorted (array_of 1 [3; 1; 2])); done.
Defined.

Lemma merge_concat_witness :
  exists r, merge [Some (array_of 2 [1; 2]); None; Some (array_of 2 [300])] = Val r /\
    holds r [1; 2; 300] /\ m_capacity r = 3%nat.
Proof.
  apply (merge_concat 2 [Some (array_of 2 [1; 2]); None; Some (array_of 2 [300])]
           [Some [1; 2]; None; Some [300]]); [|lia].
  do 3 (apply Forall2_cons; split;
    [first [done | split_and!; [apply array_of_holds; [lia|done]|done|done]]|]).
  constructor.
Defined.

Example sort_example :
  (a ← sort_all (array_of 1 [3; 1; 2]); get_value_at a 2) = Val 3.
Proof. vm_compute. reflexivity. Qed.
