(* ===== verification/Edge.v ===== *)
(** [graph/edge]: edges and weighted edges, their equality and their hash. *)

From S2P Require Import Prelude.

Record Edge := mkEdge { m_source : Z; m_destination : Z }.

(** A [WeightedEdge] derives from [Edge]. *)
Record WeightedEdge := mkWeightedEdge { edge_of : Edge; m_weight : double }.

#[export] Instance Edge_eq_dec : EqDecision Edge.
Proof. solve_decision. Defined.

#[export] Instance WeightedEdge_eq_dec : EqDecision WeightedEdge.
Proof. solve_decision. Defined.

Definition source (e : Edge) : Z := m_source e.
Definition destination (e : Edge) : Z := m_destination e.
Definition wsource (e : WeightedEdge) : Z := m_source (edge_of e).
Definition wdestination (e : WeightedEdge) : Z := m_destination (edge_of e).
Definition weight (e : WeightedEdge) : double := m_weight e.

Definition swap_src_dst (e : Edge) : Edge := mkEdge (m_destination e) (m_source e).

Definition Edge_eqb (x y : Edge) : bool :=
  (source x =? source y) && (destination x =? destination y).

(** The weights are compared as doubles: a NaN differs from itself. *)
Definition WeightedEdge_eqb (x y : WeightedEdge) : bool :=
  (wsource x =? wsource y) && (wdestination x =? wdestination y) && deq (weight x) (weight y).

(** The constructor, whose assertion only lets a deletion be negative. *)
Definition WeightedEdge_new (source destination : Z) (weight : double) : res WeightedEdge :=
  if dle d_zero weight || deq weight (double_of_Z (-1))
  then Val (mkWeightedEdge (mkEdge source destination) weight)
  else Undef.

(** [*str] is a signed char, promoted to [unsigned int]. *)
Definition promote_char (b : Z) : Z := u32 (if b <? 128 then b else b - 256).

Definition aphash_step (hash i c : Z) : Z :=
  Z.lxor hash
    (if Z.land i 1 =? 0
     then Z.lxor (u32 (Z.shiftl hash 7)) (u32 (c * Z.shiftr hash 3))
     else u32 (Z.lnot (u32 (u32 (Z.shiftl hash 11) + Z.lxor c (Z.shiftr hash 5))))).

(** The bytes of [value] from the lowest address, on a little endian machine. *)
Definition APHash (value : Z) : Z :=
  foldl (fun hash i => aphash_step hash i (promote_char (Z.shiftr value (8 * i) mod 256)))
    2863311530 (* 0xAAAAAAAA *) [0; 1; 2; 3; 4; 5; 6; 7].

Definition edge_hash (e : Edge) : Z :=
  APHash (u64 (u64 (Z.shiftl (source e) 32) + Z.land (destination e) 4294967295)).

Lemma Edge_eqb_eq x y : Edge_eqb x y = true <-> x = y.
Proof.
  unfold Edge_eqb, source, destination. rewrite andb_true_iff, !Z.eqb_eq.
  destruct x, y; simpl. split; [intros [-> ->]; done|by intros [= -> ->]].
Qed.

(** Without NaN the comparison of doubles is reflexive. *)
Lemma deq_refl x : disnan x = false -> deq x x = true.
Proof.
  unfold deq, SFeqb, SFcompare. destruct x as [s|[]| |[] m e]; try done; intros _;
    by rewrite ?Z.compare_refl, ?Pos.compare_cont_refl.
Qed.
