(* ===== verification/EdgeStream.v ===== *)
(** [graph/edge_stream] and [graph/vertex_list]: a sequence of edges kept in
    three parallel arrays, its sorting and permuting, and the list of the
    vertices that occur in it.

    The sorting and the shuffling of [common/] are not part of the repository:
    the class [CommonLib] states what the code relies on. *)

From S2P Require Import Prelude CByteArray Edge.

(** ** The interface of the common library *)

(** What [std::sort]-like functions require of a comparator. *)
Record strict_weak_order (lt : nat -> nat -> bool) : Prop := {
  swo_asym : forall i j, lt i j = true -> lt j i = false;
  swo_neg_trans : forall i j k, lt i j = false -> lt j k = false -> lt i k = false;
}.

Class CommonLib := {
  (** [common::sort(array, n, cmp)] *)
  common_sort : list nat -> (nat -> nat -> bool) -> list nat;
  common_sort_perm : forall l lt, common_sort l lt ≡ₚ l;
  common_sort_sorted : forall l lt, strict_weak_order lt ->
    Sorted (fun i j => lt j i = false) (common_sort l lt);
  (** [common::permute(array, n, seed)] *)
  common_permute : list nat -> Z -> list nat;
  common_permute_perm : forall l seed, common_permute l seed ≡ₚ l;
}.

(** An instance: merge sort, and the rotation by one. *)
Program Definition simple_common : CommonLib := {|
  common_sort := fun l lt =>
    @merge_sort nat (fun i j => lt j i = false) (fun i j => bool_eq_dec _ _) l;
  common_permute := fun l seed => match l with [] => [] | x :: l => l ++ [x] end;
|}.
Next Obligation. intros l lt. apply merge_sort_Permutation. Qed.
Next Obligation.
  intros l lt [Ha _]. apply Sorted_merge_sort. intros i j.
  destruct (lt j i) eqn:E; [right; by apply Ha|by left].
Qed.
Next Obligation. intros [|x l] seed; simpl; [done|]. by rewrite Permutation_app_comm. Qed.

(** ** State *)

Record WeightedEdgeStream := mkStream {
  m_sources : CByteArray;
  m_destinations : CByteArray;
  m_weights : list double;
  m_num_edges : nat;
  m_max_vertex_id : Z;
  m_max_weight : double;
}.

Definition num_edges (s : WeightedEdgeStream) : nat := m_num_edges s.
Definition max_vertex_id (s : WeightedEdgeStream) : Z := m_max_vertex_id s.
Definition max_weight (s : WeightedEdgeStream) : double := m_max_weight s.

(** [std::max] on doubles *)
Definition dmax (a b : double) : double := if dlt a b then b else a.

(** ** Construction *)

(** Double the capacity when the arrays are full. *)
Definition grow (s : WeightedEdgeStream) : res WeightedEdgeStream :=
  if (capacity (m_sources s) <=? m_num_edges s)%nat then
    let old_sources := m_sources s in
    let old_destinations := m_destinations s in
    new_sources ← CByteArray_new 8 (capacity old_sources * 2);
    new_destinations ← CByteArray_new 8 (capacity old_sources * 2);
    '(new_sources, new_destinations) ← res_fold
      (fun '(new_sources, new_destinations) i =>
         v ← get_value_at old_sources i;
         new_sources ← set_value_at new_sources i v;
         w ← get_value_at old_destinations i;
         new_destinations ← set_value_at new_destinations i w;
         Val (new_sources, new_destinations))
      (new_sources, new_destinations) (seq 0 (capacity old_sources));
    Val (mkStream new_sources new_destinations (m_weights s) (m_num_edges s)
           (m_max_vertex_id s) (m_max_weight s))
  else Val s.

(** The body of the loop of [WeightedEdgeStream(path)] for one edge read. *)
Definition append_edge (s : WeightedEdgeStream) (edge : WeightedEdge) : res WeightedEdgeStream :=
  s ← grow s;
  sources ← set_value_at (m_sources s) (m_num_edges s) (wsource edge);
  destinations ← set_value_at (m_destinations s) (m_num_edges s) (wdestination edge);
  Val (mkStream sources destinations (m_weights s ++ [m_weight edge]) (m_num_edges s + 1)
         (Z.max (m_max_vertex_id s) (Z.max (wsource edge) (wdestination edge)))
         (dmax (m_max_weight s) (m_weight edge))).

(** [WeightedEdgeStream(path)], where [edges] are the edges that the reader
    delivers until [read] returns false. *)
Definition stream_of_reader (edges : list WeightedEdge) : res WeightedEdgeStream :=
  sources ← CByteArray_new 8 8;
  destinations ← CByteArray_new 8 8;
  res_fold append_edge (mkStream sources destinations [] 0 0 d_zero) edges.

(** [WeightedEdgeStream(vector)] *)
Definition stream_of_vector (vector : list WeightedEdge) : res WeightedEdgeStream :=
  let n := length vector in
  sources ← CByteArray_new 8 n;
  destinations ← CByteArray_new 8 n;
  res_fold
    (fun s i =>
       edge ← arr_get vector i;
       sources ← set_value_at (m_sources s) i (wsource edge);
       destinations ← set_value_at (m_destinations s) i (wdestination edge);
       Val (mkStream sources destinations (m_weights s ++ [m_weight edge]) (m_num_edges s)
              (Z.max (m_max_vertex_id s) (Z.max (wsource edge) (wdestination edge)))
              (dmax (m_max_weight s) (m_weight edge))))
    (mkStream sources destinations [] n 0 d_zero) (seq 0 n).

(** [get]: the bound check, then the three reads. *)
Definition get (s : WeightedEdgeStream) (index : nat) : res WeightedEdge :=
  if (num_edges s <=? index)%nat then Exn InvalidArgument
  else
    src ← get_value_at (m_sources s) index;
    dst ← get_value_at (m_destinations s) index;
    w ← arr_get (m_weights s) index;
    Val (mkWeightedEdge (mkEdge src dst) w).

(** ** Parallel tasks

    The loops over the edges are cut in [num_tasks] intervals of almost the
    same length. The tasks run concurrently on disjoint indices; the model
    runs them in the order in which they are launched. *)

Definition task_length (n num_tasks i : nat) : nat :=
  let items_per_task := (n / num_tasks)%nat in
  let odd_tasks := (n mod num_tasks)%nat in
  (items_per_task + (if (i <? odd_tasks)%nat then 1 else 0))%nat.

Definition split_tasks (n num_tasks : nat) : list (nat * nat) :=
  (foldl (fun '(tasks, start) i =>
      let length := task_length n num_tasks i in
      (tasks ++ [(start, length)], (start + length)%nat))
    ([], 0%nat) (seq 0 num_tasks)).1.

(** ** Permutation and sorting *)

(** [thread::hardware_concurrency()] of the machine. *)
Class Machine := { hardware_concurrency : nat }.

(** The closure [permute(start, length)]. *)
Definition permute_task (s : WeightedEdgeStream) (permutation : list nat)
    (acc : CByteArray * CByteArray * list double) (task : nat * nat) :
    res (CByteArray * CByteArray * list double) :=
  res_fold
    (fun '(new_sources, new_destinations, new_weights) i =>
       p ← arr_get permutation i;
       v ← get_value_at (m_sources s) p;
       new_sources ← set_value_at new_sources i v;
       w ← get_value_at (m_destinations s) p;
       new_destinations ← set_value_at new_destinations i w;
       x ← arr_get (m_weights s) p;
       new_weights ← arr_set new_weights i x;
       Val (new_sources, new_destinations, new_weights))
    acc (seq task.1 task.2).

Definition do_permute_edges `{Machine} (s : WeightedEdgeStream) (permutation : list nat) :
    res WeightedEdgeStream :=
  bytes_per_vertex_id ← compute_bytes_per_elements (m_max_vertex_id s);
  new_sources ← CByteArray_new bytes_per_vertex_id (m_num_edges s);
  new_destinations ← CByteArray_new bytes_per_vertex_id (m_num_edges s);
  let new_weights := replicate (m_num_edges s) d_zero in
  let num_tasks := min (m_num_edges s) (max 4 (hardware_concurrency * 8)) in
  '(new_sources, new_destinations, new_weights) ←
    res_fold (permute_task s permutation) (new_sources, new_destinations, new_weights)
      (split_tasks (m_num_edges s) num_tasks);
  Val (mkStream new_sources new_destinations new_weights (m_num_edges s)
         (m_max_vertex_id s) (m_max_weight s)).

Definition permute `{CommonLib, Machine} (s : WeightedEdgeStream) (seed : Z) :
    res WeightedEdgeStream :=
  if (m_num_edges s <=? 0)%nat then Val s
  else do_permute_edges s (common_permute (seq 0 (m_num_edges s)) seed).

(** The values that the comparators read; the indices are within the arrays. *)
Definition value_or_zero (a : CByteArray) (i : nat) : Z :=
  match get_value_at a i with Val v => v | _ => 0 end.

Definition cmp_src_dst (s : WeightedEdgeStream) (i j : nat) : bool :=
  let source_i := value_or_zero (m_sources s) i in
  let source_j := value_or_zero (m_sources s) j in
  if source_i <? source_j then true
  else if source_i =? source_j then
    let dest_i := value_or_zero (m_destinations s) i in
    let dest_j := value_or_zero (m_destinations s) j in
    dest_i <? dest_j
  else false.

Definition cmp_dst_src (s : WeightedEdgeStream) (i j : nat) : bool :=
  (value_or_zero (m_destinations s) i <? value_or_zero (m_destinations s) j) ||
  ((value_or_zero (m_destinations s) i =? value_or_zero (m_destinations s) j) &&
   (value_or_zero (m_sources s) i <? value_or_zero (m_sources s) j)).

Definition sort_by_src_dst `{CommonLib, Machine} (s : WeightedEdgeStream) :
    res WeightedEdgeStream :=
  if (m_num_edges s <=? 0)%nat then Val s
  else do_permute_edges s (common_sort (seq 0 (m_num_edges s)) (cmp_src_dst s)).

Definition sort_by_dst_src `{CommonLib, Machine} (s : WeightedEdgeStream) :
    res WeightedEdgeStream :=
  if (m_num_edges s <=? 0)%nat then Val s
  else do_permute_edges s (common_sort (seq 0 (m_num_edges s)) (cmp_dst_src s)).

(** ** Vertices *)

(** A [VertexList] owns the array of the vertices. *)
Record VertexList := mkVertexList { m_vertices : CByteArray }.

Definition vl_num_vertices (l : VertexList) : nat := capacity (m_vertices l).

Definition vl_get (l : VertexList) (index : nat) : res Z :=
  if (vl_num_vertices l <=? index)%nat then Exn InvalidArgument
  else get_value_at (m_vertices l) index.

Definition vl_sort (l : VertexList) : res VertexList :=
  a ← sort_all (m_vertices l); Val (mkVertexList a).

Definition vl_permute `{CommonLib} (l : VertexList) (seed : Z) : res VertexList :=
  let n := vl_num_vertices l in
  let permutation := common_permute (seq 0 n) seed in
  new_vertices ← CByteArray_new (get_bytes_per_element (m_vertices l)) n;
  new_vertices ← res_fold
    (fun new_vertices i =>
       p ← arr_get permutation i;
       v ← get_value_at (m_vertices l) p;
       set_value_at new_vertices i v)
    new_vertices (seq 0 n);
  Val (mkVertexList new_vertices).

Definition unique_vertices (s : WeightedEdgeStream) : res (gmap Z bool) :=
  res_fold
    (fun m i =>
       v ← get_value_at (m_sources s) i;
       w ← get_value_at (m_destinations s) i;
       Val (<[w := true]> (<[v := true]> m)))
    ∅ (seq 0 (num_edges s)).

Definition vertex_list `{HashOrder} (s : WeightedEdgeStream) : res VertexList :=
  unique_vertices ← unique_vertices s;
  bytes ← compute_bytes_per_elements (m_max_vertex_id s);
  vertices ← CByteArray_new bytes (size unique_vertices);
  '(vertices, _) ← res_fold
    (fun '(vertices, i) p => vertices ← set_value_at vertices i p; Val (vertices, S i))
    (vertices, 0%nat) (hash_iter unique_vertices).*1;
  Val (mkVertexList vertices).

(** [upsert(key, [](uint64_t& value){ value += 1; }, 1)] *)
Definition upsert_incr (table : gmap Z Z) (key : Z) : gmap Z Z :=
  match table !! key with
  | Some value => <[key := u64 (value + 1)]> table
  | None => <[key := 1]> table
  end.

Definition populate_vertex_table (s : WeightedEdgeStream) (table : gmap Z Z)
    (task : nat * nat) : res (gmap Z Z) :=
  res_fold
    (fun table i =>
       v ← get_value_at (m_sources s) i;
       w ← get_value_at (m_destinations s) i;
       Val (upsert_incr (upsert_incr table v) w))
    table (seq task.1 task.2).

(** Without a hardware thread the division is by zero. *)
Definition vertex_table `{Machine} (s : WeightedEdgeStream) : res (gmap Z Z) :=
  let num_tasks := hardware_concurrency in
  if (num_tasks =? 0)%nat then Undef
  else res_fold (populate_vertex_table s) ∅ (split_tasks (num_edges s) num_tasks).

(** ** The stream as a list of edges *)

Record repr (s : WeightedEdgeStream) (es : list WeightedEdge) : Prop := {
  repr_sources : holds (m_sources s) (wsource <$> es);
  repr_destinations : holds (m_destinations s) (wdestination <$> es);
  repr_weights : m_weights s = m_weight <$> es;
  repr_num_edges : m_num_edges s = length es;
  repr_max : Forall (fun e => wsource e <= m_max_vertex_id s /\
                              wdestination e <= m_max_vertex_id s) es;
}.

(** Edges whose end points are 64-bit integers. *)
Definition edge_u64 (e : WeightedEdge) : Prop := is_u64 (wsource e) /\ is_u64 (wdestination e).

Lemma WeightedEdge_eta e :
  mkWeightedEdge (mkEdge (wsource e) (wdestination e)) (m_weight e) = e.
Proof. by destruct e as [[? ?] ?]. Qed.

(** [get] within the bounds. *)
Lemma get_repr s es i e : repr s es -> es !! i = Some e -> get s i = Val e.
Proof.
  intros [Hs Hd Hw Hn _] He. unfold get, num_edges. rewrite Hn.
  rewrite (proj2 (Nat.leb_gt _ _)) by (by eapply lookup_lt_Some).
  rewrite (holds_get _ _ i (wsource e) Hs), (holds_get _ _ i (wdestination e) Hd)
    by (by rewrite list_lookup_fmap, He).
  simpl. rewrite Hw, (arr_get_val _ i (m_weight e)) by (by rewrite list_lookup_fmap, He).
  simpl. by rewrite WeightedEdge_eta.
Qed.

Lemma get_out_of_bounds s es i : repr s es -> (length es <= i)%nat -> get s i = Exn InvalidArgument.
Proof.
  intros [_ _ _ Hn _] Hi. unfold get, num_edges. rewrite Hn. by rewrite (proj2 (Nat.leb_le _ _)).
Qed.

(** ** Tasks *)

Lemma split_tasks_prefix n num_tasks k :
  let '(tasks, start) := foldl (fun '(tasks, start) i =>
      let length := task_length n num_tasks i in
      (tasks ++ [(start, length)], (start + length)%nat)) ([], 0%nat) (seq 0 k) in
  start = (k * (n / num_tasks) + min k (n mod num_tasks))%nat /\
  concat ((fun t : nat * nat => seq t.1 t.2) <$> tasks) = seq 0 start.
Proof.
  induction k as [|k IH]; [done|]. rewrite seq_S, foldl_app. cbn [foldl].
  destruct (foldl _ _ _) as [tasks start]. destruct IH as [-> IH]. unfold task_length.
  revert IH. generalize (n / num_tasks)%nat (n mod num_tasks)%nat. intros q r IH. split.
  - rewrite Nat.mul_succ_l, Nat.add_0_l. destruct (Nat.ltb_spec k r); lia.
  - rewrite fmap_app, concat_app, IH, (seq_app (k * q + k `min` r)).
    cbn [fmap list_fmap concat fst snd]. by rewrite app_nil_r.
Qed.

Lemma tasks_cover (n num_tasks : nat) :
  (0 < num_tasks)%nat ->
  concat ((fun t => seq t.1 t.2) <$> split_tasks n num_tasks) = seq 0 n.
Proof.
  intros Hk. unfold split_tasks. pose proof (split_tasks_prefix n num_tasks num_tasks) as Hp.
  destruct (foldl _ _ _) as [tasks start]. simpl. destruct Hp as [-> ->].
  f_equal. pose proof (Nat.div_mod_eq n num_tasks) as Hn.
  pose proof (Nat.mod_upper_bound n num_tasks). rewrite Nat.min_r; lia.
Qed.

(** The tasks that the parallel loops are cut in visit every index once, in
    order, whatever the number of tasks. *)
Theorem split_tasks_cover (n num_tasks : nat) :
  (0 < num_tasks)%nat ->
  concat ((fun t => seq t.1 t.2) <$> split_tasks n num_tasks) = seq 0 n.
Proof. apply tasks_cover. Qed.

Lemma split_tasks_cover_witness :
  (0 < 4)%nat /\ concat ((fun t => seq t.1 t.2) <$> split_tasks 10 4) = seq 0 10.
Proof. split; [lia|]. apply (split_tasks_cover 10 4). lia. Defined.

Lemma tasks_fold {A} (f : A -> nat -> res A) (a : A) n k :
  (0 < k)%nat ->
  res_fold (fun a task => res_fold f a (seq task.1 task.2)) a (split_tasks n k)
  = res_fold f a (seq 0 n).
Proof.
  intros Hk. rewrite <- (tasks_cover n k Hk).
  generalize (split_tasks n k) as ts. intros ts. revert a.
  induction ts as [|t ts IH]; intros a; simpl; [done|].
  rewrite res_fold_app. destruct (res_fold f a (seq t.1 t.2)); simpl; auto.
Qed.

(** ** Construction *)

Lemma u64_mod_bound8 a v : m_bytes_per_element a = 8%nat -> is_u64 v -> v mod bound a = v.
Proof.
  intros Hb Hv. unfold bound. rewrite Hb. apply Z.mod_small.
  change (256 ^ Z.of_nat 8) with (2 ^ 64). done.
Qed.

(** One more edge, when there is room. *)
Lemma repr_push s es e max max_weight :
  repr s es -> (length es < m_capacity (m_sources s))%nat ->
  (length es < m_capacity (m_destinations s))%nat ->
  m_bytes_per_element (m_sources s) = 8%nat ->
  m_bytes_per_element (m_destinations s) = 8%nat ->
  edge_u64 e -> m_max_vertex_id s <= max -> wsource e <= max -> wdestination e <= max ->
  exists sources destinations,
    set_value_at (m_sources s) (length es) (wsource e) = Val sources /\
    set_value_at (m_destinations s) (length es) (wdestination e) = Val destinations /\
    m_capacity sources = m_capacity (m_sources s) /\
    m_capacity destinations = m_capacity (m_destinations s) /\
    m_bytes_per_element sources = 8%nat /\ m_bytes_per_element destinations = 8%nat /\
    repr (mkStream sources destinations (m_weights s ++ [m_weight e]) (length es + 1)
            max max_weight) (es ++ [e]).
Proof.
  intros [Hs Hd Hw Hn Hm] Hcs Hcd Hbs Hbd [Hsrc Hdst] Hmax Hms Hmd.
  destruct (holds_push _ _ (wsource e) Hs) as (a & Ha & Hha & Hca & Hba);
    [by rewrite length_fmap|].
  destruct (holds_push _ _ (wdestination e) Hd) as (b & Hb & Hhb & Hcb & Hbb);
    [by rewrite length_fmap|].
  rewrite length_fmap in Ha, Hb. rewrite u64_mod_bound8 in Hha, Hhb by done.
  exists a, b. split_and!; try done; [congruence..|].
  split; simpl; rewrite ?fmap_app; simpl; try done.
  - by rewrite Hw.
  - rewrite length_app. simpl. lia.
  - apply Forall_app. split; [|by repeat constructor].
    eapply Forall_impl; [exact Hm|]. simpl. lia.
Qed.

Lemma vector_repr (es : list WeightedEdge) :
  Forall edge_u64 es ->
  exists s, stream_of_vector es = Val s /\ repr s es.
Proof.
  intros Hes. unfold stream_of_vector. rewrite !CByteArray_new_val by lia. simpl.
  match goal with |- context [res_fold ?f ?a ?l] => set (F := f); set (a0 := a) end.
  destruct (res_fold_inv (fun done s =>
      m_num_edges s = length es /\
      m_bytes_per_element (m_sources s) = 8%nat /\ m_bytes_per_element (m_destinations s) = 8%nat /\
      m_capacity (m_sources s) = length es /\ m_capacity (m_destinations s) = length es /\
      repr (mkStream (m_sources s) (m_destinations s) (m_weights s) (length done)
              (m_max_vertex_id s) (m_max_weight s)) (take (length done) es))
    F (seq 0 (length es)) a0) as (s & Hs & Hn & _ & _ & _ & _ & Hr).
  - split_and!; try done. split; simpl; try done; apply (holds_new 8); lia.
  - intros done i todo s Hseq (Hn & Hbs & Hbd & Hcs & Hcd & Hr).
    assert (i = length done /\ (i < length es)%nat) as [-> Hi].
    { pose proof (f_equal length Hseq) as Hl. rewrite length_seq, length_app in Hl. simpl in Hl.
      pose proof (f_equal (fun l => l !! length done) Hseq) as Hk. simpl in Hk.
      rewrite list_lookup_middle in Hk by done. apply lookup_seq in Hk. lia. }
    destruct (lookup_lt_is_Some_2 es (length done) Hi) as [e He].
    unfold F. rewrite (arr_get_val _ _ _ He). simpl.
    assert (length (take (length done) es) = length done) as Ht by (rewrite length_take; lia).
    pose proof (Forall_lookup_1 _ _ _ _ Hes He) as Hu.
    destruct (repr_push _ _ e (Z.max (m_max_vertex_id s) (Z.max (wsource e) (wdestination e)))
      (dmax (m_max_weight s) (m_weight e)) Hr) as (a & b & Ha & Hb & Hca & Hcb & Hba & Hbb & Hr');
      simpl; rewrite ?Ht; try (done || lia).
    simpl in *. rewrite Ht in *. rewrite Ha, Hb. simpl. eexists. split; [done|]. simpl.
    split_and!; try congruence.
    by rewrite length_app, Nat.add_1_r, (take_S_r _ _ _ He), <- Nat.add_1_r.
  - exists s. split; [done|]. rewrite length_seq, firstn_all in Hr. destruct Hr. by split.
Qed.

(** A stream built from a vector of edges with 64-bit end points returns
    exactly those edges, and its maximum bounds all the vertices. *)
Theorem stream_of_vector_repr (es : list WeightedEdge) :
  Forall edge_u64 es ->
  exists s, stream_of_vector es = Val s /\ repr s es.
Proof. apply vector_repr. Qed.

Definition room (s : WeightedEdgeStream) : Prop :=
  m_bytes_per_element (m_sources s) = 8%nat /\ m_bytes_per_element (m_destinations s) = 8%nat /\
  m_capacity (m_destinations s) = m_capacity (m_sources s) /\ (0 < m_capacity (m_sources s))%nat.

(** Where a loop over [0, n) stands. *)
Lemma prefix_index n (done todo : list nat) i :
  seq 0 n = done ++ i :: todo -> i = length done /\ (i < n)%nat /\ done = seq 0 i.
Proof.
  intros Hseq.
  pose proof (f_equal (fun l => l !! length done) Hseq) as Hk. simpl in Hk.
  rewrite list_lookup_middle in Hk by done. apply lookup_seq in Hk as [-> Hlt].
  split_and!; [done|done|].
  pose proof (f_equal (take (length done)) Hseq) as Ht.
  rewrite take_app_length, take_seq, Nat.min_l in Ht by lia. symmetry. exact Ht.
Qed.

(** Copying two arrays, the loop of [grow]. *)
Lemma copy_spec a b na nb (la lb : list Z) :
  holds a la -> holds b lb -> length la = length lb ->
  holds na [] -> holds nb [] -> (length la <= m_capacity na)%nat -> (length la <= m_capacity nb)%nat ->
  bound a = bound na -> bound b = bound nb ->
  exists na' nb', res_fold
      (fun '(new_sources, new_destinations) i =>
         v ← get_value_at a i;
         new_sources ← set_value_at new_sources i v;
         w ← get_value_at b i;
         new_destinations ← set_value_at new_destinations i w;
         Val (new_sources, new_destinations)) (na, nb) (seq 0 (length la)) = Val (na', nb') /\
    holds na' la /\ holds nb' lb /\ m_capacity na' = m_capacity na /\ m_capacity nb' = m_capacity nb /\
    m_bytes_per_element na' = m_bytes_per_element na /\ m_bytes_per_element nb' = m_bytes_per_element nb.
Proof.
  intros Ha Hb Hl Hna Hnb Hca Hcb Hba Hbb.
  match goal with |- context [res_fold ?f _ _] => set (F := f) end.
  destruct (res_fold_inv (fun done '(xa, xb) =>
    holds xa (take (length done) la) /\ holds xb (take (length done) lb) /\
    m_capacity xa = m_capacity na /\ m_capacity xb = m_capacity nb /\
    m_bytes_per_element xa = m_bytes_per_element na /\
    m_bytes_per_element xb = m_bytes_per_element nb) F (seq 0 (length la)) (na, nb))
    as ([na' nb'] & Hf & H).
  - done.
  - intros done i todo [xa xb] Hseq (Hxa & Hxb & Hcxa & Hcxb & Hbxa & Hbxb).
    apply prefix_index in Hseq as (-> & Hi & _).
    destruct (lookup_lt_is_Some_2 la (length done)) as [v Hv]; [lia|].
    destruct (lookup_lt_is_Some_2 lb (length done)) as [w Hw]; [lia|].
    destruct (holds_push _ _ v Hxa) as (xa' & Hsa & Hha & Hca' & Hba'); [rewrite length_take; lia|].
    destruct (holds_push _ _ w Hxb) as (xb' & Hsb & Hhb & Hcb' & Hbb'); [rewrite length_take; lia|].
    rewrite length_take, Nat.min_l in Hsa, Hsb by lia.
    unfold F. rewrite (holds_get _ _ _ _ Ha Hv), (holds_get _ _ _ _ Hb Hw). simpl.
    rewrite Hsa. simpl. rewrite Hsb. simpl. eexists. split; [done|].
    rewrite length_app, Nat.add_1_r, (take_S_r _ _ _ Hv), (take_S_r _ _ _ Hw).
    assert (v mod bound xa = v) as Hvm.
    { apply Z.mod_small. unfold bound in *. rewrite Hbxa, <- Hba.
      eapply (holds_bound a); [done|]. by eapply list_elem_of_lookup_2. }
    assert (w mod bound xb = w) as Hwm.
    { apply Z.mod_small. unfold bound in *. rewrite Hbxb, <- Hbb.
      eapply (holds_bound b); [done|]. by eapply list_elem_of_lookup_2. }
    rewrite Hvm in Hha. rewrite Hwm in Hhb. split_and!; (done || congruence).
  - exists na', nb'. split; [done|]. rewrite length_seq, Hl, firstn_all in H.
    by rewrite <- Hl, firstn_all in H.
Qed.

Lemma grow_repr s es :
  repr s es -> room s ->
  exists s', grow s = Val s' /\ repr s' es /\ room s' /\
    (length es < m_capacity (m_sources s'))%nat /\ m_max_vertex_id s' = m_max_vertex_id s.
Proof.
  intros Hr (Hbs & Hbd & Hcd & Hpos). unfold grow, capacity.
  destruct (Nat.leb_spec (m_capacity (m_sources s)) (m_num_edges s)) as [Hle|Hlt].
  - destruct Hr as [Hs Hd Hw Hn Hm].
    assert (m_capacity (m_sources s) = length (wsource <$> es)) as Hcap.
    { destruct Hs as (_ & Hl & _). rewrite length_fmap in *. lia. }
    rewrite !CByteArray_new_val by lia.
    do 2 bind_val.
    set (new := mkCByteArray 8 _ _). rewrite Hcap.
    destruct (copy_spec (m_sources s) (m_destinations s) new new _ _ Hs Hd)
      as (na & nb & Hcopy & Hna & Hnb & Hcna & Hcnb & Hbna & Hbnb).
    + by rewrite !length_fmap.
    + apply (holds_new 8). lia.
    + apply (holds_new 8). lia.
    + simpl. lia.
    + simpl. lia.
    + unfold bound. by rewrite Hbs.
    + unfold bound. by rewrite Hbd.
    + rewrite Hcopy. simpl. eexists. split; [done|]. rewrite length_fmap in Hcap. split_and!.
      * by split.
      * unfold room. simpl. rewrite Hcna, Hcnb, Hbna, Hbnb. simpl. lia.
      * simpl. rewrite Hcna. simpl. lia.
      * done.
  - exists s. split_and!; try done. by rewrite <- (repr_num_edges _ _ Hr).
Qed.

(** Reading the edges one by one, with the doubling of the arrays, delivers
    the same edges as building the stream from the vector of them. *)
Theorem stream_of_reader_repr (es : list WeightedEdge) :
  Forall edge_u64 es ->
  exists s, stream_of_reader es = Val s /\ repr s es.
Proof.
  intros Hes. unfold stream_of_reader. rewrite !CByteArray_new_val by lia.
  do 2 bind_val.
  match goal with |- context [res_fold _ ?a _] => set (a0 := a) end.
  destruct (res_fold_inv (fun done s => repr s done /\ room s) append_edge es a0)
    as (s & Hs & Hr & _).
  - split; [|by unfold room; simpl; lia].
    split; simpl; try done; apply (holds_new 8); lia.
  - intros done e todo s -> [Hr Hroom]. unfold append_edge.
    destruct (grow_repr s done Hr Hroom) as (s' & -> & Hr' & (Hbs & Hbd & Hcd & Hpos) & Hlt & _).
    simpl. rewrite (repr_num_edges _ _ Hr').
    apply Forall_app in Hes as [_ [Hu _]%Forall_cons].
    destruct (repr_push s' done e (Z.max (m_max_vertex_id s') (Z.max (wsource e) (wdestination e)))
      (dmax (m_max_weight s') (m_weight e)) Hr') as (a & b & Ha & Hb & Hca & Hcb & Hba & Hbb & Hr'');
      try (done || lia).
    rewrite Ha. simpl. rewrite Hb. simpl. eexists. split; [done|]. split; [done|].
    unfold room. simpl. lia.
  - eauto.
Qed.

(** ** Permutation *)

Definition permuted {A} (es : list A) (permutation : list nat) : list A :=
  omap (fun i => es !! i) permutation.

(** An edge whose end points are cut to [b] bytes. *)
Definition trunc_edge (b : nat) (e : WeightedEdge) : WeightedEdge :=
  mkWeightedEdge (mkEdge (wsource e mod 256 ^ Z.of_nat b) (wdestination e mod 256 ^ Z.of_nat b))
    (m_weight e).

Lemma omap_perm {A B} (f : A -> option B) l1 l2 : l1 ≡ₚ l2 -> omap f l1 ≡ₚ omap f l2.
Proof. induction 1; simpl; repeat case_match; try done; [by constructor|constructor|by etrans]. Qed.

Lemma permuted_perm {A} (es : list A) p : p ≡ₚ seq 0 (length es) -> permuted es p ≡ₚ es.
Proof.
  intros Hp. unfold permuted. rewrite (omap_perm _ _ _ Hp). by rewrite omap_lookup_seq.
Qed.

Lemma permuted_fmap {A B} (f : A -> B) es p : permuted (f <$> es) p = f <$> permuted es p.
Proof.
  unfold permuted. induction p as [|i p IH]; simpl; [done|].
  rewrite list_lookup_fmap. destruct (es !! i); simpl; [f_equal|]; exact IH.
Qed.

Lemma permuted_lookup {A} (es : list A) p k i :
  (forall i, i ∈ p -> (i < length es)%nat) -> p !! k = Some i -> permuted es p !! k = es !! i.
Proof.
  intros Hin. revert k. unfold permuted. induction p as [|j p IH]; intros k Hk; [done|].
  simpl. destruct (lookup_lt_is_Some_2 es j) as [e He]; [apply Hin; left|]. rewrite He.
  destruct k as [|k]; simpl in *; [by simplify_eq|].
  apply IH; [|done]. intros i' Hi'. apply Hin. by right.
Qed.

Section permute.
Context `{Machine}.

Lemma do_permute_edges_repr s es p :
  repr s es -> es <> [] -> p ≡ₚ seq 0 (length es) -> 2 <= m_max_vertex_id s < 2 ^ 48 ->
  exists b s', compute_bytes_per_elements (m_max_vertex_id s) = Val b /\
    do_permute_edges s p = Val s' /\ repr s' (trunc_edge b <$> permuted es p) /\
    m_max_vertex_id s' = m_max_vertex_id s.
Proof.
  intros Hr Hne Hp Hmax.
  destruct (bytes_per_elements_fit _ Hmax) as (b & Hb & Hb8 & _).
  exists b. unfold do_permute_edges. rewrite Hb. bind_val.
  rewrite !CByteArray_new_val by lia. do 2 bind_val.
  destruct Hr as [Hs Hd Hw Hn Hm]. rewrite Hn.
  assert (0 < length es)%nat as Hpos by (destruct es; simpl; [done|lia]).
  unfold permute_task. rewrite tasks_fold by lia.
  match goal with |- context [res_fold _ (?a, _, _)] => set (new := a) end.
  match goal with |- context [res_fold ?f _ _] => set (F := f) end.
  set (qs := trunc_edge b <$> permuted es p).
  assert (length (permuted es p) = length es) as Hlp by (by rewrite (permuted_perm es p Hp)).
  destruct (res_fold_inv (fun done '(xa, xb, ws) =>
    holds xa (wsource <$> take (length done) qs) /\
    holds xb (wdestination <$> take (length done) qs) /\
    m_capacity xa = length es /\ m_capacity xb = length es /\
    m_bytes_per_element xa = b /\ m_bytes_per_element xb = b /\
    ws = (m_weight <$> take (length done) qs) ++ replicate (length es - length done) d_zero)
    F (seq 0 (length es)) (new, new, replicate (length es) d_zero)) as ([[xa xb] ws] & Hf & Hinv).
  - split_and!; try done; try (apply (holds_new b); lia). by rewrite Nat.sub_0_r.
  - intros done i todo [[xa xb] ws] Hseq (Hxa & Hxb & Hcxa & Hcxb & Hbxa & Hbxb & ->).
    apply prefix_index in Hseq as (-> & Hi & _).
    assert (forall i, i ∈ p -> (i < length es)%nat) as Hin
      by (intros i; rewrite Hp; intros ?%elem_of_seq; lia).
    destruct (lookup_lt_is_Some_2 p (length done)) as [j Hj].
    { rewrite (Permutation_length Hp), length_seq. lia. }
    destruct (lookup_lt_is_Some_2 es j) as [e He].
    { apply Hin. by eapply list_elem_of_lookup_2. }
    assert (qs !! length done = Some (trunc_edge b e)) as Hq.
    { unfold qs. by rewrite list_lookup_fmap, (permuted_lookup _ _ _ _ Hin Hj), He. }
    assert (length (take (length done) qs) = length done) as Htl.
    { unfold qs. rewrite length_take, length_fmap. lia. }
    destruct (holds_push _ _ (wsource e) Hxa) as (xa' & Hsa & Hha & Hca' & Hba').
    { rewrite length_fmap, Htl. lia. }
    destruct (holds_push _ _ (wdestination e) Hxb) as (xb' & Hsb & Hhb & Hcb' & Hbb').
    { rewrite length_fmap, Htl. lia. }
    rewrite length_fmap, Htl in Hsa, Hsb.
    unfold F. rewrite (arr_get_val _ _ _ Hj). simpl.
    rewrite (holds_get _ _ j (wsource e) Hs), (holds_get _ _ j (wdestination e) Hd)
      by (by rewrite list_lookup_fmap, He). simpl.
    rewrite Hsa. simpl. rewrite Hsb. simpl.
    rewrite Hw, (arr_get_val _ j (m_weight e)) by (by rewrite list_lookup_fmap, He). simpl.
    rewrite arr_set_val
      by (rewrite length_app, length_fmap, Htl, length_replicate; lia). simpl.
    eexists. split; [done|]. simpl.
    rewrite length_app, Nat.add_1_r, (take_S_r _ _ _ Hq), !fmap_app.
    unfold bound in *. rewrite Hbxa in Hha. rewrite Hbxb in Hhb.
    split_and!; try (done || congruence).
    rewrite insert_app_r_alt, length_fmap, Htl, Nat.sub_diag by (rewrite length_fmap; lia).
    replace (length es - length done)%nat with (S (length es - S (length done))) by lia.
    simpl. by rewrite <- app_assoc.
  - eexists. rewrite Hf. split; [done|]. split; [done|].
    rewrite length_seq, Nat.sub_diag, app_nil_r in Hinv.
    assert (take (length es) qs = qs) as Hqs
      by (apply take_ge; unfold qs; rewrite length_fmap; lia).
    rewrite Hqs in Hinv. destruct Hinv as (Hxa & Hxb & _ & _ & _ & _ & ->).
    split; [|done]. split; simpl; try done.
    + unfold qs. by rewrite length_fmap.
    + unfold qs. apply Forall_fmap. rewrite (permuted_perm es p Hp).
      apply Forall_forall. intros e Hin. simpl.
      pose proof (holds_bound _ _ (wsource e) Hs (list_elem_of_fmap_2 _ _ _ Hin)).
      pose proof (holds_bound _ _ (wdestination e) Hd (list_elem_of_fmap_2 _ _ _ Hin)).
      eapply Forall_forall in Hm; [|exact Hin].
      pose proof (Z.mod_le (wsource e) (256 ^ Z.of_nat b) ltac:(lia) ltac:(lia)).
      pose proof (Z.mod_le (wdestination e) (256 ^ Z.of_nat b) ltac:(lia) ltac:(lia)).
      cbn in *. lia.
Qed.
End permute.

(** ** Sorting *)

(** The largest vertex id whose computed width holds it (and every smaller
    one): at least 2, not a power of 256. *)
Definition fits (m : Z) : Prop := 2 <= m < 2 ^ 48 /\ ~ power_of_256 m.

Definition le_src_dst (x y : WeightedEdge) : Prop :=
  wsource x < wsource y \/ (wsource x = wsource y /\ wdestination x <= wdestination y).

Definition le_dst_src (x y : WeightedEdge) : Prop :=
  wdestination x < wdestination y \/ (wdestination x = wdestination y /\ wsource x <= wsource y).

Lemma trunc_edge_id s es b :
  repr s es -> fits (m_max_vertex_id s) -> compute_bytes_per_elements (m_max_vertex_id s) = Val b ->
  forall e, e ∈ es -> trunc_edge b e = e.
Proof.
  intros [Hs Hd _ _ Hm] [_ Hn] Hb e Hin.
  apply compute_bytes_fits in Hb as [_ Hlt]. specialize (Hlt Hn).
  pose proof (holds_bound _ _ (wsource e) Hs (list_elem_of_fmap_2 _ _ _ Hin)).
  pose proof (holds_bound _ _ (wdestination e) Hd (list_elem_of_fmap_2 _ _ _ Hin)).
  eapply Forall_forall in Hm; [|exact Hin]. unfold trunc_edge.
  rewrite !Z.mod_small by lia. apply WeightedEdge_eta.
Qed.

Lemma permuted_sorted {A} (es : list A) (R : nat -> nat -> Prop) (R' : A -> A -> Prop) p :
  (forall i j x y, es !! i = Some x -> es !! j = Some y -> R i j -> R' x y) ->
  (forall i, i ∈ p -> (i < length es)%nat) -> Sorted R p -> Sorted R' (permuted es p).
Proof.
  intros HR Hin Hs. unfold permuted. induction Hs as [|i p Hs IH Hhd]; simpl; [constructor|].
  destruct (lookup_lt_is_Some_2 es i) as [x Hx]; [apply Hin; left|]. rewrite Hx.
  constructor; [apply IH; intros; apply Hin; by right|].
  destruct Hhd as [|j p Hij]; simpl; [constructor|].
  destruct (lookup_lt_is_Some_2 es j) as [y Hy]; [apply Hin; right; left|]. rewrite Hy.
  constructor. by eapply HR.
Qed.

Lemma repr_value s es i e :
  repr s es -> es !! i = Some e ->
  value_or_zero (m_sources s) i = wsource e /\ value_or_zero (m_destinations s) i = wdestination e.
Proof.
  intros Hr He. unfold value_or_zero.
  rewrite (holds_get _ _ i (wsource e) (repr_sources _ _ Hr)),
    (holds_get _ _ i (wdestination e) (repr_destinations _ _ Hr))
    by (by rewrite list_lookup_fmap, He). done.
Qed.

Lemma cmp_src_dst_swo s : strict_weak_order (cmp_src_dst s).
Proof. split; unfold cmp_src_dst; intros; repeat case_match; try done; lia. Qed.

Lemma cmp_dst_src_swo s : strict_weak_order (cmp_dst_src s).
Proof. split; unfold cmp_dst_src; intros; lia. Qed.

Section sorting.
Context `{CommonLib, Machine}.

(** Permuting by a sorted array of indices sorts the edges. *)
Lemma sort_by_spec s es lt (R : WeightedEdge -> WeightedEdge -> Prop) :
  repr s es -> fits (m_max_vertex_id s) -> strict_weak_order lt ->
  (forall i j x y, es !! i = Some x -> es !! j = Some y -> lt j i = false -> R x y) ->
  exists s' es',
    (if (m_num_edges s <=? 0)%nat then Val s
     else do_permute_edges s (common_sort (seq 0 (m_num_edges s)) lt)) = Val s' /\
    repr s' es' /\ es' ≡ₚ es /\ Sorted R es' /\ m_max_vertex_id s' = m_max_vertex_id s.
Proof.
  intros Hr Hf Hlt HR. rewrite (repr_num_edges _ _ Hr).
  destruct (Nat.leb_spec (length es) 0) as [Hle|Hpos].
  { exists s, es. destruct es; [|simpl in Hle; lia]. split_and!; done || constructor. }
  set (p := common_sort (seq 0 (length es)) lt).
  assert (p ≡ₚ seq 0 (length es)) as Hp by apply common_sort_perm.
  destruct (do_permute_edges_repr s es p Hr) as (b & s' & Hb & Hs' & Hr' & Hm'); try done.
  { intros Hnil. rewrite Hnil in Hpos. simpl in Hpos. lia. }
  { apply Hf. }
  exists s', (permuted es p).
  assert (trunc_edge b <$> permuted es p = permuted es p) as Heq.
  { rewrite <- (list_fmap_id (permuted es p)) at 2. apply list_fmap_ext.
    intros i e He. apply (trunc_edge_id s es b Hr Hf Hb).
    rewrite <- (permuted_perm es p Hp). by eapply list_elem_of_lookup_2. }
  rewrite Heq in Hr'. split_and!; try done; [by apply permuted_perm|].
  eapply permuted_sorted; [|  |by apply common_sort_sorted]; [exact HR|].
  intros i. rewrite Hp. intros ?%elem_of_seq. lia.
Qed.

Lemma src_dst_sorted (s : WeightedEdgeStream) (es : list WeightedEdge) :
  repr s es -> fits (m_max_vertex_id s) ->
  exists s' es', sort_by_src_dst s = Val s' /\ repr s' es' /\ es' ≡ₚ es /\
    Sorted le_src_dst es' /\ m_max_vertex_id s' = m_max_vertex_id s.
Proof.
  intros Hr Hf. apply (sort_by_spec s es (cmp_src_dst s)); try done.
  - apply cmp_src_dst_swo.
  - intros i j x y Hx Hy. unfold cmp_src_dst, le_src_dst.
    destruct (repr_value _ _ _ _ Hr Hx) as [-> ->], (repr_value _ _ _ _ Hr Hy) as [-> ->].
    repeat case_match; intros; lia || done.
Qed.

(** C38: sorting by source and destination keeps the edges and orders them,
    when the largest vertex fits in the width computed for it. *)
Theorem sort_by_src_dst_sorted (s : WeightedEdgeStream) (es : list WeightedEdge) :
  repr s es -> fits (m_max_vertex_id s) ->
  exists s' es', sort_by_src_dst s = Val s' /\ repr s' es' /\ es' ≡ₚ es /\
    Sorted le_src_dst es' /\ m_max_vertex_id s' = m_max_vertex_id s.
Proof. apply src_dst_sorted. Qed.

Lemma sort_by_dst_src_sorted s es :
  repr s es -> fits (m_max_vertex_id s) ->
  exists s' es', sort_by_dst_src s = Val s' /\ repr s' es' /\ es' ≡ₚ es /\
    Sorted le_dst_src es' /\ m_max_vertex_id s' = m_max_vertex_id s.
Proof.
  intros Hr Hf. apply (sort_by_spec s es (cmp_dst_src s)); try done.
  - apply cmp_dst_src_swo.
  - intros i j x y Hx Hy. unfold cmp_dst_src, le_dst_src.
    destruct (repr_value _ _ _ _ Hr Hx) as [-> ->], (repr_value _ _ _ _ Hr Hy) as [-> ->].
    lia.
Qed.
End sorting.

(** A four-core machine, for the examples. *)
Definition quad_core : Machine := {| hardware_concurrency := 4 |}.

Definition edge (u v : Z) (w : Z) : WeightedEdge :=
  mkWeightedEdge (mkEdge u v) (double_of_Z w).

Definition sources_of (r : res WeightedEdgeStream) : res (list Z) :=
  s ← r; res_fold (fun l i => v ← get_value_at (m_sources s) i; Val (l ++ [v])) [] (seq 0 (num_edges s)).

Example sort_example1 :
  sources_of (s ← stream_of_vector [edge 7 1 2; edge 3 9 1; edge 3 2 5];
    @sort_by_src_dst simple_common quad_core s) = Val [3; 3; 7].
Proof. vm_compute. reflexivity. Qed.

(** When the largest vertex of the stream is 256 the width computed is one
    byte: sorting the stream replaces the vertex 256 by the vertex 0; when it
    is 1 the width is zero and the sort raises an exception. *)
Theorem sort_corrupts_power_of_256 :
  sources_of (s ← stream_of_vector [edge 256 1 2; edge 3 2 5];
    @sort_by_src_dst simple_common quad_core s) = Val [3; 0] /\
  (s ← stream_of_vector [edge 1 0 2; edge 0 1 5];
    @sort_by_src_dst simple_common quad_core s) = Exn InvalidArgument.
Proof. vm_compute. split; reflexivity. Qed.

(** ** Vertices *)

Definition endpoints (es : list WeightedEdge) : list Z :=
  concat ((fun e => [wsource e; wdestination e]) <$> es).

Lemma elem_of_endpoints es v :
  v ∈ endpoints es <-> exists e, e ∈ es /\ (v = wsource e \/ v = wdestination e).
Proof.
  unfold endpoints. induction es as [|e es IH]; simpl; [set_solver|].
  rewrite !elem_of_cons, IH. set_solver.
Qed.

(** A loop that reads both ends of every edge. *)
Lemma endpoints_fold {A} (f : A -> Z -> A) s es (a : A) :
  repr s es ->
  res_fold (fun m i =>
     v ← get_value_at (m_sources s) i;
     w ← get_value_at (m_destinations s) i;
     Val (f (f m v) w)) a (seq 0 (length es)) = Val (foldl f a (endpoints es)).
Proof.
  intros Hr.
  assert (forall k, (k <= length es)%nat ->
    res_fold (fun m i =>
     v ← get_value_at (m_sources s) i;
     w ← get_value_at (m_destinations s) i;
     Val (f (f m v) w)) a (seq 0 k) = Val (foldl f a (endpoints (take k es)))) as Hk.
  { induction k as [|k IH]; intros Hk; [done|].
    destruct (lookup_lt_is_Some_2 es k) as [e He]; [lia|].
    rewrite seq_S, res_fold_app, IH, (take_S_r _ _ _ He) by lia. simpl.
    rewrite (holds_get _ _ k (wsource e) (repr_sources _ _ Hr)),
      (holds_get _ _ k (wdestination e) (repr_destinations _ _ Hr))
      by (by rewrite list_lookup_fmap, He). simpl.
    unfold endpoints. by rewrite fmap_app, concat_app, foldl_app. }
  rewrite Hk, firstn_all by lia. done.
Qed.

Lemma unique_vertices_spec s es :
  repr s es -> exists m, unique_vertices s = Val m /\ forall v, is_Some (m !! v) <-> v ∈ endpoints es.
Proof.
  intros Hr. unfold unique_vertices, num_edges. rewrite (repr_num_edges _ _ Hr).
  rewrite (endpoints_fold (fun m v => <[v := true]> m) s es ∅ Hr). eexists. split; [done|].
  intros v. generalize (endpoints es) as l. intros l.
  assert (forall m : gmap Z bool, is_Some (foldl (fun m v => <[v := true]> m) m l !! v) <->
    is_Some (m !! v) \/ v ∈ l) as Hgen.
  { induction l as [|w l IH]; intros m; simpl; [set_solver|].
    rewrite IH, elem_of_cons, lookup_insert_is_Some. destruct (decide (w = v)); naive_solver. }
  rewrite Hgen, lookup_empty. split; [intros [[? ?]|?]; done|by right].
Qed.

Section vertices.
Context `{HashOrder}.

Lemma vertex_list_ends (s : WeightedEdgeStream) (es : list WeightedEdge) :
  repr s es -> fits (m_max_vertex_id s) ->
  exists l vs, vertex_list s = Val l /\ holds (m_vertices l) vs /\
    vl_num_vertices l = length vs /\ NoDup vs /\
    forall v, v ∈ vs <-> exists e, e ∈ es /\ (v = wsource e \/ v = wdestination e).
Proof.
  intros Hr Hf. pose proof Hf as [H48 Hn]. unfold vertex_list.
  destruct (unique_vertices_spec s es Hr) as (m & -> & Hm). bind_val.
  destruct (bytes_per_elements_fit _ H48) as (b & Hb & Hb8 & Hlt).
  rewrite Hb. bind_val. rewrite CByteArray_new_val by done. bind_val.
  set (ks := (hash_iter m).*1).
  assert (length ks = size m) as Hlen.
  { unfold ks. by rewrite length_fmap, (Permutation_length (hash_iter_perm m)), length_map_to_list. }
  assert (forall v, v ∈ ks <-> v ∈ endpoints es) as Hks.
  { intros v. unfold ks. by rewrite elem_of_hash_keys. }
  assert (forall v, v ∈ ks -> 0 <= v < 256 ^ Z.of_nat b) as Hbound.
  { intros v [e [Hin He]]%Hks%elem_of_endpoints. destruct Hr as [Hs Hd _ _ Hmax].
    eapply Forall_forall in Hmax; [|exact Hin].
    pose proof (holds_bound _ _ (wsource e) Hs (list_elem_of_fmap_2 _ _ _ Hin)).
    pose proof (holds_bound _ _ (wdestination e) Hd (list_elem_of_fmap_2 _ _ _ Hin)).
    apply Hlt in Hn. destruct He as [-> | ->]; lia. }
  match goal with |- context [res_fold ?f ?a _] => set (F := f) end.
  destruct (res_fold_inv (fun done '(a, i) => i = length done /\ holds a done /\
    m_capacity a = size m /\ m_bytes_per_element a = b) F ks
    (mkCByteArray b (size m) (replicate (b * size m) None), 0%nat))
    as ([a i] & Hfold & -> & Ha & Hc & _).
  - split_and!; try done. by apply holds_new.
  - intros done v todo [a i] Heq (-> & Ha & Hc & Hba).
    destruct (holds_push a done v Ha) as (a' & Hs & Ha' & Hc' & Hb').
    { rewrite Hc, <- Hlen, Heq, length_app. simpl. lia. }
    unfold F. rewrite Hs. simpl. eexists. split; [done|].
    unfold bound in Ha'. rewrite Hba, Z.mod_small in Ha'.
    2: { apply Hbound. rewrite Heq. set_solver. }
    split_and!; try congruence. rewrite length_app. simpl. lia.
  - rewrite Hfold. simpl. exists (mkVertexList a), ks.
    split_and!; try done; [unfold vl_num_vertices, capacity; simpl; congruence| |].
    + apply NoDup_hash_iter.
    + intros v. by rewrite Hks, elem_of_endpoints.
Qed.

(** The vertex list holds every end point of an edge exactly once, when
    the largest vertex fits in the width computed for it. *)
Theorem vertex_list_spec (s : WeightedEdgeStream) (es : list WeightedEdge) :
  repr s es -> fits (m_max_vertex_id s) ->
  exists l vs, vertex_list s = Val l /\ holds (m_vertices l) vs /\
    vl_num_vertices l = length vs /\ NoDup vs /\
    forall v, v ∈ vs <-> exists e, e ∈ es /\ (v = wsource e \/ v = wdestination e).
Proof. apply vertex_list_ends. Qed.
End vertices.

(** The number of times that [v] is an end point of an edge. *)
Definition occurrences (v : Z) (es : list WeightedEdge) : nat :=
  length (filter (fun w => w = v) (endpoints es)).

(** The vertex table maps every end point to the number of edges that start
    or end at it (not only those that start there), and nothing else. *)
Theorem vertex_table_spec `{Machine} (s : WeightedEdgeStream) (es : list WeightedEdge) :
  repr s es -> (0 < hardware_concurrency)%nat -> 2 * Z.of_nat (length es) < 2 ^ 64 ->
  exists table, vertex_table s = Val table /\
    forall v, table !! v = if decide (v ∈ endpoints es) then Some (Z.of_nat (occurrences v es)) else None.
Proof.
  intros Hr Hpos Hsmall. unfold vertex_table, num_edges.
  rewrite (proj2 (Nat.eqb_neq _ _)) by lia.
  unfold populate_vertex_table. rewrite tasks_fold by lia.
  rewrite (repr_num_edges _ _ Hr), (endpoints_fold upsert_incr s es ∅ Hr).
  eexists. split; [done|]. intros v. unfold occurrences.
  assert (Z.of_nat (length (endpoints es)) < 2 ^ 64) as Hl.
  { assert (length (endpoints es) = 2 * length es)%nat; [|lia].
    unfold endpoints. induction es; simpl; [done|]. clear. induction es; simpl; lia. }
  revert Hl. generalize (endpoints es) as l. intros l. induction l as [|w l IH] using rev_ind.
  { intros _. rewrite decide_False by (intros Hin; inversion Hin). done. }
  rewrite length_app, foldl_app. simpl. intros Hl. specialize (IH ltac:(lia)).
  rewrite filter_app, length_app, filter_cons, filter_nil.
  set (t := foldl upsert_incr ∅ l) in *. unfold upsert_incr.
  destruct (decide (w = v)) as [->|Hne]; simpl.
  - destruct (decide (v ∈ l ++ [v])) as [_|Hno];
      [|exfalso; apply Hno, elem_of_app; right; left].
    rewrite IH. case_decide as Hin; rewrite lookup_insert_eq; f_equal.
    + pose proof (length_filter (fun w => w = v) l).
      rewrite u64_id by (unfold is_u64; lia). lia.
    + assert (filter (fun w => w = v) l = []) as ->; [|done].
      destruct (filter _ l) as [|x k] eqn:E; [done|].
      exfalso. apply Hin. assert (x ∈ filter (fun w => w = v) l) as Hx by (rewrite E; left).
      apply list_elem_of_filter in Hx as [-> Hx]. done.
  - assert (forall x, <[w := x]> t !! v = t !! v) as Hne' by (intros; by apply lookup_insert_ne).
    assert (v ∈ l ++ [w] <-> v ∈ l) as Hiff
      by (rewrite elem_of_app, list_elem_of_singleton; naive_solver).
    destruct (t !! w); rewrite Hne', IH, Nat.add_0_r; repeat case_decide; done || tauto.
Qed.

(** ** Witnesses *)

Lemma fits_small m : 2 <= m < 256 -> fits m.
Proof.
  intros Hm. split; [lia|]. intros [[|k] Hk]; [simpl in Hk; lia|].
  rewrite Nat2Z.inj_succ, Z.pow_succ_r in Hk by lia.
  pose proof (Z.pow_pos_nonneg 256 (Z.of_nat k)). lia.
Qed.

Definition ex_edges : list WeightedEdge := [edge 7 1 2; edge 3 9 1; edge 3 2 5].

Definition ex_stream : WeightedEdgeStream :=
  match stream_of_vector ex_edges with
  | Val s => s
  | _ => mkStream (array_of 1 []) (array_of 1 []) [] 0 0 d_zero
  end.

Definition edges_u64 (es : list WeightedEdge) : bool :=
  forallb (fun e => (0 <=? wsource e) && (wsource e <? 2 ^ 64) &&
                    (0 <=? wdestination e) && (wdestination e <? 2 ^ 64)) es.

Lemma edges_u64_Forall es : edges_u64 es = true -> Forall edge_u64 es.
Proof.
  unfold edges_u64. rewrite forallb_forall, Forall_forall. intros H e Hin.
  specialize (H e (proj1 (list_elem_of_In _ _) Hin)). unfold edge_u64, is_u64. lia.
Qed.

Lemma ex_edges_u64 : Forall edge_u64 ex_edges.
Proof. by apply edges_u64_Forall. Qed.

Lemma ex_stream_repr : repr ex_stream ex_edges.
Proof.
  unfold ex_stream. by destruct (vector_repr ex_edges ex_edges_u64) as (s & -> & Hr).
Qed.

Lemma ex_stream_fits : fits (m_max_vertex_id ex_stream).
Proof. apply fits_small. vm_compute. split; congruence. Qed.

Lemma stream_of_vector_repr_witness :
  exists s, stream_of_vector [edge 7 1 2; edge 3 9 1] = Val s /\ repr s [edge 7 1 2; edge 3 9 1].
Proof.
  apply stream_of_vector_repr. by apply edges_u64_Forall.
Defined.

Lemma stream_of_reader_repr_witness :
  exists s, stream_of_reader (replicate 9 (edge 7 1 2)) = Val s /\ repr s (replicate 9 (edge 7 1 2)).
Proof.
  apply stream_of_reader_repr. by apply edges_u64_Forall.
Defined.

Lemma sort_by_src_dst_sorted_witness :
  exists s' es', @sort_by_src_dst simple_common quad_core ex_stream = Val s' /\ repr s' es' /\
    es' ≡ₚ ex_edges /\ Sorted le_src_dst es' /\ m_max_vertex_id s' = m_max_vertex_id ex_stream.
Proof.
  apply (@sort_by_src_dst_sorted simple_common quad_core ex_stream ex_edges);
    [apply ex_stream_repr|apply ex_stream_fits].
Defined.

Lemma vertex_list_spec_witness :
  exists l vs, @vertex_list map_order ex_stream = Val l /\ holds (m_vertices l) vs /\
    vl_num_vertices l = length vs /\ NoDup vs /\
    forall v, v ∈ vs <-> exists e, e ∈ ex_edges /\ (v = wsource e \/ v = wdestination e).
Proof.
  apply (@vertex_list_spec map_order ex_stream ex_edges);
    [apply ex_stream_repr|apply ex_stream_fits].
Defined.

Lemma vertex_table_spec_witness :
  exists table, @vertex_table quad_core ex_stream = Val table /\
    forall v, table !! v =
      if decide (v ∈ endpoints ex_edges) then Some (Z.of_nat (occurrences v ex_edges)) else None.
Proof.
  apply (@vertex_table_spec quad_core ex_stream ex_edges);
    [apply ex_stream_repr|simpl; lia|simpl; lia].
Defined.
