(* ===== verification/Gapbs.v ===== *)
(** The environment of the graph kernels: the schedule of the OpenMP loops, the
    timer that the kernels poll and the containers of
    [third-party/gapbs/gapbs.hpp], [SlidingQueue], [QueueBuffer] and [Bitmap]. *)

From S2P Require Import Prelude.

(** ** Parallel loops

    The iterations of an OpenMP loop are executed in an order of which the
    program only knows that it is a permutation; a loop is identified by its
    tag, so that different loops may be scheduled differently. These are the loops
    whose iterations share nothing, or access what they share by a single atomic
    operation or write with the same value, so that each iteration can be taken as
    one step. In the loops whose iterations race, [omp_turn tag n] chooses the
    iteration that makes the [n]-th access to the memory. *)

Class Omp := {
  omp_order : Z -> forall {A : Type}, list A -> list A;
  omp_perm : forall tag (A : Type) (l : list A), omp_order tag l ≡ₚ l;
  omp_turn : Z -> nat -> nat;
}.

(** One thread; several, that take the iterations from the last to the first or alternate. *)
Definition omp_sequential : Omp := {|
  omp_order := fun _ A l => l;
  omp_perm := fun _ A l => Permutation_refl _;
  omp_turn := fun _ _ => 0%nat;
|}.

Program Definition omp_backwards : Omp := {|
  omp_order := fun tag A l => if Z.even tag then rev l else l;
  omp_turn := fun tag n => (Z.to_nat tag + n * n)%nat;
|}.
Next Obligation.
  intros tag A l. simpl. destruct (Z.even tag); [symmetry; apply Permutation_rev|done].
Qed.

(** ** Timers

    [is_timeout k] is the answer to the [k]-th poll of a [TimeoutService]: once
    expired it stays expired. *)

Class Timer := {
  is_timeout : nat -> bool;
  is_timeout_mono : forall j k, (j <= k)%nat -> is_timeout j = true -> is_timeout k = true;
}.

Definition no_timeout : Timer := {|
  is_timeout := fun _ => false;
  is_timeout_mono := fun j k _ H => H;
|}.

(** A timer that expires at the [n]-th poll. *)
Program Definition expires_at (n : nat) : Timer := {|
  is_timeout := fun k => (n <=? k)%nat;
|}.
Next Obligation. intros n j k Hjk Hj. apply Nat.leb_le in Hj. apply Nat.leb_le. lia. Qed.

(** ** Sliding queues

    [shared] holds the elements pushed so far, so that [shared_in] is its
    length; [shared_size] is the size of the allocation. *)

Record SlidingQueue := mkQueue {
  shared : list nat;
  shared_size : nat;
  shared_out_start : nat;
  shared_out_end : nat;
}.

Definition SlidingQueue_new (shared_size : nat) : SlidingQueue := mkQueue [] shared_size 0 0.

Definition q_push_back (q : SlidingQueue) (x : nat) : res SlidingQueue :=
  if (length (shared q) <? shared_size q)%nat
  then Val (mkQueue (shared q ++ [x]) (shared_size q) (shared_out_start q) (shared_out_end q))
  else Undef.

Definition q_empty (q : SlidingQueue) : bool := (shared_out_start q =? shared_out_end q)%nat.

Definition slide_window (q : SlidingQueue) : SlidingQueue :=
  mkQueue (shared q) (shared_size q) (shared_out_end q) (length (shared q)).

(** The elements from [begin()] to [end()]. *)
Definition window (q : SlidingQueue) : list nat :=
  take (shared_out_end q - shared_out_start q) (drop (shared_out_start q) (shared q)).

Definition q_size (q : SlidingQueue) : nat := (shared_out_end q - shared_out_start q)%nat.

(** [QueueBuffer::flush]: append the elements of the buffer. *)
Definition q_flush (q : SlidingQueue) (local_queue : list nat) : res SlidingQueue :=
  if (length (shared q) + length local_queue <=? shared_size q)%nat
  then Val (mkQueue (shared q ++ local_queue) (shared_size q) (shared_out_start q) (shared_out_end q))
  else Undef.

(** ** Bitmaps

    The words of a [Bitmap], bit by bit. *)

Definition Bitmap_new (size : nat) : list bool := replicate size false.

Definition bm_reset (b : list bool) : list bool := replicate (length b) false.

Definition set_bit (b : list bool) (pos : nat) : res (list bool) := arr_set b pos true.

Definition get_bit (b : list bool) (pos : nat) : res bool := arr_get b pos.

(** ** Lemmas *)

(** A loop over a permutation of a list, with an invariant on the set of the
    iterations done. *)
Lemma omp_fold_inv `{Omp} {A B} tag (I : list B -> A -> Prop) (f : A -> B -> res A) l a :
  I [] a ->
  (forall done b a, b ∈ l -> done ++ [b] ⊆+ l -> I done a ->
     exists a', f a b = Val a' /\ I (done ++ [b]) a') ->
  (forall l' a, l' ≡ₚ l -> I l' a -> I l a) ->
  exists a', res_fold f a (omp_order tag l) = Val a' /\ I l a'.
Proof.
  intros H0 Hstep Hperm.
  destruct (res_fold_inv I f (omp_order tag l) a H0) as (a' & Ha & HI).
  - intros done b todo a1 Hl Ha1. pose proof (omp_perm tag _ l) as Hp. rewrite Hl in Hp.
    apply (Hstep done b a1); [|..|done].
    + rewrite <- Hp. set_solver.
    + rewrite <- Hp. apply submseteq_skips_l, submseteq_skip, submseteq_nil_l.
  - exists a'. split; [done|]. eapply Hperm; [|exact HI]. apply omp_perm.
Qed.

Lemma window_slide q :
  shared_out_end q = length (shared q) -> window (slide_window q) = [].
Proof. intros H. unfold window. simpl. by rewrite H, Nat.sub_diag. Qed.

Lemma window_flush_slide q l q' :
  shared_out_end q = length (shared q) -> q_flush q l = Val q' ->
  window (slide_window q') = l /\ shared q' = shared q ++ l.
Proof.
  intros He. unfold q_flush. case_match; [|done]. intros [= <-]. unfold window. simpl.
  rewrite He, length_app, drop_app_length. split; [|done]. rewrite take_ge; [done|lia].
Qed.

Definition bit (b : list bool) (i : nat) : bool := default false (b !! i).

Lemma bit_get b i : (i < length b)%nat -> get_bit b i = Val (bit b i).
Proof.
  intros Hi. unfold bit. destruct (lookup_lt_is_Some_2 b i Hi) as [x Hx].
  unfold get_bit. rewrite (arr_get_val _ _ _ Hx). by rewrite Hx.
Qed.

Lemma bit_insert b i j : (i < length b)%nat ->
  bit (<[i := true]> b) j = if decide (i = j) then true else bit b j.
Proof.
  intros Hi. unfold bit. case_decide as Hij.
  - subst. by rewrite list_lookup_insert_eq.
  - by rewrite list_lookup_insert_ne.
Qed.

Lemma bit_replicate n i : bit (replicate n false) i = false.
Proof.
  unfold bit. destruct (replicate n false !! i) as [x|] eqn:E; [|done].
  apply lookup_replicate in E as [-> _]. done.
Qed.

(** A parallel loop that writes one element of an array per iteration. *)
Lemma omp_fill `{Omp} {A} tag (f : nat -> res A) (g : nat -> A) (a : list A) N :
  length a = N -> (forall n, (n < N)%nat -> f n = Val (g n)) ->
  res_fold (fun a n => x ← f n; arr_set a n x) a (omp_order tag (seq 0 N)) = Val (g <$> seq 0 N).
Proof.
  intros Ha Hf.
  destruct (omp_fold_inv tag (fun done a' => length a' = N /\ forall n, n ∈ done -> a' !! n = Some (g n))
    (fun a n => x ← f n; arr_set a n x) (seq 0 N) a) as (a' & -> & Hl & Hin).
  - split; [done|]. intros n Hn. by apply elem_of_nil in Hn.
  - intros done n a1 Hn _ [Hl Hd]. apply elem_of_seq in Hn. rewrite Hf by lia. bind_val.
    rewrite arr_set_val by lia. eexists. split; [done|]. rewrite length_insert. split; [done|].
    intros m Hm. destruct (decide (n = m)) as [->|Hne].
    + by rewrite list_lookup_insert_eq by lia.
    + rewrite list_lookup_insert_ne by done. apply Hd. set_solver.
  - intros l' a1 Hp [? Hd]. split; [done|]. intros n. rewrite <- Hp. apply Hd.
  - f_equal. apply list_eq_same_length with N; [by rewrite length_fmap, length_seq|done|].
    intros i x y Hi Hx Hy. rewrite Hin in Hx by (apply elem_of_seq; lia).
    rewrite list_lookup_fmap, lookup_seq_lt in Hy by done. simpl in Hy. congruence.
Qed.
