(* ===== verification/Threads.v ===== *)
(** Threads that share a state: their code as a tree of atomic operations on the
    state, their interleavings as the runs of a pool under a schedule. *)

From S2P Require Import Prelude.

(** ** Programs

    A program performs an operation, atomically, and goes on with the answer.
    [Ub] is undefined behaviour, [OutOfFuel] the end of the bound of a loop. *)

Section programs.
Context {Op : Type} {answer : Op -> Type}.

Inductive prog (A : Type) : Type :=
  | Ret (a : A)
  | Do (op : Op) (k : answer op -> prog A)
  | Ub
  | OutOfFuel.
Arguments Ret {A}. Arguments Do {A}. Arguments Ub {A}. Arguments OutOfFuel {A}.

Fixpoint prog_bind_def {A B} (f : A -> prog B) (p : prog A) : prog B :=
  match p with
  | Ret a => f a
  | Do op k => Do op (fun x => prog_bind_def f (k x))
  | Ub => Ub
  | OutOfFuel => OutOfFuel
  end.

Definition perform (op : Op) : prog (answer op) := Do op Ret.

Fixpoint prog_fold {A B} (f : A -> B -> prog A) (a : A) (l : list B) : prog A :=
  match l with
  | [] => Ret a
  | b :: l => prog_bind_def (fun a => prog_fold f a l) (f a b)
  end.
End programs.
Arguments prog {Op} answer A.
Arguments Ret {Op answer A}. Arguments Do {Op answer A}. Arguments Ub {Op answer A}. Arguments OutOfFuel {Op answer A}.

#[export] Instance prog_bind {Op} {answer : Op -> Type} : MBind (prog answer) := fun A B => prog_bind_def.

(** ** Pools

    A turn lets one thread perform its next operation, or the environment change
    the state. A thread that has finished ignores its turns. An operation may have
    loops of its own, bounded by [fuel]. *)

Section pools.
Context {S Op : Type} {answer : Op -> Type} (exec : nat -> forall op, S -> res (answer op * S)).
Context {E : Type} (interfere : E -> S -> S) {A : Type}.

Inductive turn := Run (thread : nat) | Env (event : E).

Definition prog_step (fuel : nat) (p : prog answer A) (s : S) : res (prog answer A * S) :=
  match p with
  | Ret a => Val (p, s)
  | Do op k => '(x, s) ← exec fuel op s; Val (k x, s)
  | Ub => Undef
  | OutOfFuel => NoFuel
  end.

Definition pool_step (fuel : nat) (pool : S * list (prog answer A)) (t : turn) : res (S * list (prog answer A)) :=
  let '(s, threads) := pool in
  match t with
  | Env event => Val (interfere event s, threads)
  | Run i =>
    match threads !! i with
    | Some p => '(p, s) ← prog_step fuel p s; Val (s, <[i := p]> threads)
    | None => Val pool
    end
  end.

Definition run_pool (pool : S * list (prog answer A)) (schedule : list turn) (fuel : nat) :
    res (S * list (prog answer A)) := res_fold (pool_step fuel) pool schedule.

(** Threads that have all started: the oracle says which of the threads that have not
    finished moves at each turn, until none is left. *)
Definition is_running (p : prog answer A) : bool := match p with Ret _ => false | _ => true end.

Definition running (threads : list (prog answer A)) : list nat :=
  filter (fun i => is_running <$> threads !! i = Some true) (seq 0 (length threads)).

Fixpoint race (oracle : nat -> nat) (turn : nat) (pool : S * list (prog answer A)) (fuel : nat) : res S :=
  match running pool.2 with
  | [] => Val pool.1
  | left_ =>
    match fuel with
    | O => NoFuel
    | Datatypes.S fuel =>
      i ← require (left_ !! (oracle turn mod length left_)%nat);
      pool ← pool_step fuel pool (Run i);
      race oracle (Datatypes.S turn) pool fuel
    end
  end.

(** The results of the threads, when all have finished. *)
Fixpoint finished (threads : list (prog answer A)) : option (list A) :=
  match threads with
  | [] => Some []
  | Ret a :: threads => l ← finished threads; Some (a :: l)
  | _ => None
  end.

(** The number of turns of the thread [i]. *)
Fixpoint turns (i : nat) (schedule : list turn) : nat :=
  match schedule with
  | [] => 0
  | Run j :: schedule => (if decide (j = i) then 1 else 0) + turns i schedule
  | Env _ :: schedule => turns i schedule
  end.

(** ** Reasoning about pools

    An invariant [I s ms] of the state and of what the threads still have to do
    ([ms], one per thread) and a relation between a thread and what it has to
    do: [W m p n] when at most [n] more operations remain. *)

Context {M : Type} (I : S -> list M -> Prop) (W : S -> nat -> M -> nat -> prog answer A -> Prop).

(** A turn of the thread [i]: the state and what is left change; what the other
    threads have to do stays. *)
Hypothesis W_step : forall s ms i m n p, I s ms -> ms !! i = Some m -> W s i m n p ->
  match p with
  | Ret _ => True
  | Do op k => exists x s' m' n', n = Datatypes.S n' /\ settles (fun fuel => exec fuel op s) (Val (x, s')) /\ I s' (<[i := m']> ms) /\ W s' i m' n' (k x) /\
      forall j mj nj q, j <> i -> ms !! j = Some mj -> W s j mj nj q -> W s' j mj nj q
  | Ub | OutOfFuel => False
  end.
Hypothesis W_env : forall s ms e, I s ms -> I (interfere e s) ms.
Hypothesis W_env_stable : forall s ms e i m n p, I s ms -> ms !! i = Some m -> W s i m n p -> W (interfere e s) i m n p.

Definition pool_inv (s : S) (threads : list (prog answer A)) (ms : list M) (ns : list nat) : Prop :=
  I s ms /\ length ms = length threads /\ length ns = length threads /\
  forall i m n p, ms !! i = Some m -> ns !! i = Some n -> threads !! i = Some p -> W s i m n p.

(** What has finished stays. *)
Definition stays (threads threads' : list (prog answer A)) : Prop :=
  forall i a, threads !! i = Some (Ret a) -> threads' !! i = Some (Ret a).

Lemma pool_step_inv s threads ms ns t : pool_inv s threads ms ns ->
  exists s' threads' ms' ns', settles (fun fuel => pool_step fuel (s, threads) t) (Val (s', threads')) /\
    stays threads threads' /\ pool_inv s' threads' ms' ns' /\ length threads' = length threads /\
    forall i p' n', threads' !! i = Some p' -> ns' !! i = Some n' ->
      exists n, ns !! i = Some n /\ (n' <= n)%nat /\ (t = Run i -> (exists a, p' = Ret a) \/ (n' < n)%nat).
Proof.
  intros (HI & Hm & Hn & HW). destruct t as [i|e]; cbn [pool_step].
  2: { exists (interfere e s), threads, ms, ns. split_and!; [apply settles_val|by intros i a| |done|].
       - split_and!; [by apply W_env|done|done|]. intros i m n p Hi Hni Hp. eapply W_env_stable; eauto.
       - intros i p' n' _ Hn'. exists n'. split_and!; [done|lia|done]. }
  destruct (threads !! i) as [p|] eqn:Hp.
  2: { exists s, threads, ms, ns. split_and!; [apply settles_val|by intros j a|done..|].
       intros j p' n' Hp' Hn'. exists n'. split_and!; [done|lia|]. intros [= ->]. congruence. }
  pose proof (lookup_lt_Some _ _ _ Hp) as Hlt.
  destruct (lookup_lt_is_Some_2 ms i) as [m Hmi]; [lia|]. destruct (lookup_lt_is_Some_2 ns i) as [n Hni]; [lia|].
  pose proof (HW i m n p Hmi Hni Hp) as HWi. pose proof (W_step s ms i m n p HI Hmi HWi) as Hstep.
  destruct p as [a|op k| |]; [| |done..].
  - exists s, threads, ms, ns.
    split_and!; [exists 0%nat; intros fuel _; cbn [prog_step]; bind_val; cbv beta iota; by rewrite list_insert_id|by intros j b|done|done|].
    intros j p' n' Hp' Hn'. exists n'. split_and!; [done|lia|]. intros [= ->]. rewrite Hp in Hp'. left. exists a. congruence.
  - destruct Hstep as (x & s' & m' & n' & -> & Hexec & HI' & HW' & Hothers).
    exists s', (<[i := k x]> threads), (<[i := m']> ms), (<[i := n']> ns). split_and!; [| | |by rewrite length_insert|].
    + destruct Hexec as [N HN]. exists N. intros fuel Hf. cbn [prog_step]. by rewrite (HN fuel Hf).
    + intros j a Hj. rewrite list_lookup_insert_ne; [done|]. intros ->. congruence.
    + split_and!; [done|by rewrite !length_insert..|]. intros j mj nj q. destruct (decide (i = j)) as [<-|Hij].
      * rewrite !list_lookup_insert_eq by lia. by intros [= <-] [= <-] [= <-].
      * rewrite !list_lookup_insert_ne by done. intros Hmj Hnj Hq. by apply (Hothers j mj nj q); [done..|apply (HW j)].
    + intros j p' nj. destruct (decide (i = j)) as [<-|Hij].
      * rewrite !list_lookup_insert_eq by lia. intros _ [= <-]. exists (Datatypes.S n'). split_and!; [done|lia|]. right. lia.
      * rewrite !list_lookup_insert_ne by done. intros _ Hnj. exists nj. split_and!; [done|lia|congruence].
Qed.

(** Under any schedule the pool keeps its invariant; under one that gives every
    thread as many turns as it needs, all threads finish. *)
Lemma run_pool_inv schedule : forall s threads ms ns, pool_inv s threads ms ns ->
  exists s' threads' ms' ns', settles (run_pool (s, threads) schedule) (Val (s', threads')) /\
    stays threads threads' /\ pool_inv s' threads' ms' ns' /\ length threads' = length threads /\
    forall i p n, threads' !! i = Some p -> ns !! i = Some n -> (n < turns i schedule)%nat -> exists a, p = Ret a.
Proof.
  induction schedule as [|t schedule IH]; intros s threads ms ns Hinv.
  { exists s, threads, ms, ns. split_and!; [apply settles_val|by intros i a|done..|]. intros i p n _ _ Hn. simpl in Hn. lia. }
  destruct (pool_step_inv s threads ms ns t Hinv) as (s1 & th1 & ms1 & ns1 & Hstep & Hdone1 & Hinv1 & Hlen1 & Hdec).
  destruct (IH s1 th1 ms1 ns1 Hinv1) as (s' & th' & ms' & ns' & Hrun & Hdone & Hinv' & Hlen' & Hfin).
  exists s', th', ms', ns'. split_and!; [|intros i a Hi; by apply Hdone, Hdone1|done|lia|].
  { unfold run_pool. cbn [res_fold]. eapply settles_bind; [exact Hstep|exact Hrun]. }
  intros i p n Hp Hn Hturns. destruct Hinv1 as (_ & _ & Hn1 & _).
  assert (i < length th1)%nat as Hi1 by (apply lookup_lt_Some in Hp; lia).
  destruct (lookup_lt_is_Some_2 th1 i) as [p1 Hp1]; [lia|]. destruct (lookup_lt_is_Some_2 ns1 i) as [n1 Hni1]; [lia|].
  destruct (Hdec i p1 n1 Hp1 Hni1) as (n0 & Hn0 & Hle & Hrun_i). rewrite Hn in Hn0. injection Hn0 as <-.
  destruct t as [j|e]; simpl in Hturns; [|by apply (Hfin i p n1); [..|lia]].
  destruct (decide (j = i)) as [->|Hne]; [|by apply (Hfin i p n1); [..|lia]].
  destruct (Hrun_i eq_refl) as [[a ->]|Hlt]; [|by apply (Hfin i p n1); [..|lia]].
  exists a. apply Hdone in Hp1. congruence.
Qed.

(** A race ends after the operations that its threads have left, and one more turn
    for each thread. *)
Hypothesis exec_fuel : forall fuel fuel' op s, exec fuel op s = exec fuel' op s.

Fixpoint cost (threads : list (prog answer A)) (ns : list nat) : nat :=
  match threads, ns with
  | p :: threads, n :: ns => (if is_running p then Datatypes.S n else 0) + cost threads ns
  | _, _ => 0
  end.

Lemma cost_replicate threads n : (cost threads (replicate (length threads) n) <= length threads * Datatypes.S n)%nat.
Proof. induction threads as [|p threads IH]; [done|]. cbn [length replicate cost]. destruct (is_running p); lia. Qed.

Lemma pool_step_fuel fuel fuel' pool t : pool_step fuel pool t = pool_step fuel' pool t.
Proof.
  destruct pool as [s threads], t as [i|e]; [|done]. cbn [pool_step]. destruct (threads !! i) as [[]|]; try done.
  cbn [prog_step]. by rewrite (exec_fuel fuel fuel').
Qed.

Lemma cost_lt j threads threads' ns ns' : length threads' = length threads -> length ns = length threads -> length ns' = length threads ->
  (forall i p p' n n', threads !! i = Some p -> threads' !! i = Some p' -> ns !! i = Some n -> ns' !! i = Some n' ->
     let before := if is_running p then Datatypes.S n else 0%nat in
     let after := if is_running p' then Datatypes.S n' else 0%nat in
     (after <= before)%nat /\ (i = j -> (after < before)%nat)) ->
  (cost threads' ns' + (if decide (j < length threads)%nat then 1 else 0) <= cost threads ns)%nat.
Proof.
  revert j threads' ns ns'. induction threads as [|p threads IH]; intros j [|p' threads'] [|n ns] [|n' ns'] H1 H2 H3 Hle; try done.
  destruct (Hle 0%nat p p' n n' eq_refl eq_refl eq_refl eq_refl) as [Hle0 Hlt0].
  assert (cost threads' ns' + (if decide (pred j < length threads /\ j <> 0)%nat then 1 else 0) <= cost threads ns)%nat as Hrest.
  { case_decide as Hj.
    - specialize (IH (pred j) threads' ns ns'). rewrite decide_True in IH by lia. apply IH; [cbn in *; lia..|].
      intros i q q' m m' G1 G2 G3 G4. destruct (Hle (Datatypes.S i) q q' m m' G1 G2 G3 G4) as [G5 G6]. split; [done|]. intros ->. apply G6. lia.
    - specialize (IH (length threads) threads' ns ns'). rewrite decide_False in IH by lia. apply IH; [cbn in *; lia..|].
      intros i q q' m m' G1 G2 G3 G4. destruct (Hle (Datatypes.S i) q q' m m' G1 G2 G3 G4) as [G5 G6]. split; [done|].
      intros ->. apply lookup_lt_Some in G1. lia. }
  cbn [cost length]. destruct j as [|j].
  - specialize (Hlt0 eq_refl). rewrite decide_True by lia. rewrite decide_False in Hrest by lia. lia.
  - cbn [pred] in Hrest. destruct (decide (j < length threads)%nat); [rewrite decide_True in Hrest by lia; rewrite decide_True by lia|
      rewrite decide_False by lia; rewrite decide_False in Hrest by lia]; lia.
Qed.

Lemma running_spec threads i : i ∈ running threads <-> exists p, threads !! i = Some p /\ is_running p = true.
Proof.
  unfold running. rewrite list_elem_of_filter, elem_of_seq. split.
  - intros [(p & Hp & Hr)%fmap_Some _]. by exists p.
  - intros (p & Hp & Hr). split; [by rewrite Hp; cbn; rewrite Hr|]. apply lookup_lt_Some in Hp. lia.
Qed.

Lemma cost_pos j p threads : forall ns, threads !! j = Some p -> is_running p = true -> length ns = length threads -> (0 < cost threads ns)%nat.
Proof.
  revert j. induction threads as [|q threads IH]; intros j [|n ns] Hj Hr Hl; try done. cbn [cost].
  destruct j as [|j]; [cbn in Hj; simplify_eq; rewrite Hr; lia|]. pose proof (IH j ns Hj Hr ltac:(cbn in *; lia)). lia.
Qed.

Lemma running_nil threads : running threads = [] -> forall i p, threads !! i = Some p -> exists a, p = Ret a.
Proof.
  intros Hrun i p Hp. destruct (is_running p) eqn:Hr; [|destruct p; try done; by eexists].
  assert (i ∈ running threads) as Hi by (apply running_spec; by exists p). rewrite Hrun in Hi. by apply elem_of_nil in Hi.
Qed.

Lemma race_finishes oracle fuel : forall turn s threads ms ns, pool_inv s threads ms ns -> (cost threads ns <= fuel)%nat ->
  exists s' threads' ms' ns', race oracle turn (s, threads) fuel = Val s' /\ pool_inv s' threads' ms' ns' /\
    length threads' = length threads /\ forall i p, threads' !! i = Some p -> exists a, p = Ret a.
Proof.
  induction fuel as [|fuel IH]; intros turn s threads ms ns Hinv Hcost; pose proof Hinv as (_ & _ & Hlen & _); cbn [race snd fst].
  all: destruct (running threads) as [|j l] eqn:Hrun; [exists s, threads, ms, ns; by repeat (split; [done|]); apply running_nil|].
  - assert (j ∈ running threads) as (p & Hp & Hr)%running_spec by (rewrite Hrun; apply list_elem_of_here).
    pose proof (cost_pos j p threads ns Hp Hr Hlen). lia.
  - destruct (lookup_lt_is_Some_2 (j :: l) (oracle turn mod length (j :: l))) as [i Hi]; [apply Nat.mod_upper_bound; cbn; lia|].
    rewrite Hi. cbn [require]. rewrite res_bind_Val_l. apply list_elem_of_lookup_2 in Hi. rewrite <- Hrun in Hi.
    apply running_spec in Hi as (p & Hp & Hr).
    destruct (pool_step_inv s threads ms ns (Run i) Hinv) as (s1 & th1 & ms1 & ns1 & [F Hstep] & Hstays & Hinv1 & Hlen1 & Hdec).
    rewrite (pool_step_fuel fuel F), (Hstep F) by done. rewrite res_bind_Val_l. pose proof Hinv1 as (_ & _ & Hlen1' & _).
    destruct (IH (Datatypes.S turn) s1 th1 ms1 ns1 Hinv1) as (s' & th' & ms' & ns' & Hrace & Hinv' & Hlen' & Hfin).
    + assert (cost th1 ns1 + (if decide (i < length threads)%nat then 1 else 0) <= cost threads ns)%nat as Hlt.
      { apply cost_lt; [congruence..|]. intros k q q' n n' Hq Hq' Hn Hn'. destruct (Hdec k q' n' Hq' Hn') as (n0 & Hn0 & Hle & Hturn).
        rewrite Hn in Hn0. injection Hn0 as <-. split.
        - destruct q; cbn [is_running]; [|destruct (is_running q'); lia..].
          apply Hstays in Hq. rewrite Hq' in Hq. injection Hq as ->. done.
        - intros ->. rewrite Hp in Hq. injection Hq as <-. rewrite Hr. destruct (Hturn eq_refl) as [[a ->]|]; cbn [is_running]; [lia|].
          destruct (is_running q'); lia. }
      rewrite decide_True in Hlt by (by eapply lookup_lt_Some). lia.
    + exists s', th', ms', ns'. split; [done|]. split; [done|]. split; [congruence|done].
Qed.
End pools.
Arguments turn E : clear implicits.

Lemma finished_all {Op} {answer : Op -> Type} {A} (threads : list (prog answer A)) :
  (forall i p, threads !! i = Some p -> exists a, p = Ret a) -> exists l, finished threads = Some l /\ threads = Ret <$> l.
Proof.
  induction threads as [|p threads IH]; intros H; [by exists []|].
  destruct (H 0%nat p eq_refl) as [a ->]. destruct IH as (l & Hl & ->); [intros i p Hp; by apply (H (S i))|].
  exists (a :: l). simpl. by rewrite Hl.
Qed.
