(* ===== verification/Validate.v ===== *)
(** The comparison of the output of a kernel with a reference,
    [utility/graphalytics_validate]. A file is its text, or [None] when it cannot
    be opened. *)

From S2P Require Import Prelude Doubles Text.

Definition BUFFER_SZ : nat := 4096.

Definition fatal {A} : res A := Exn GraphalyticsValidateError.

(** [ERROR_COUNT]; [ERROR_EXIT] is in the functions below. *)
Definition ERROR_COUNT (max_num_errors error_count : Z) : res Z :=
  if max_num_errors =? 1 then fatal
  else
    let error_count := error_count + 1 in
    if (1 <? max_num_errors) && (error_count =? max_num_errors) then fatal else Val error_count.

(** ** Lines *)

Class Value (T : Type) := {
  validate_value_typed : text -> bool;
  parse_value_typed : text -> T;
}.

#[export] Instance value_int64 : Value Z := {|
  validate_value_typed := fun buffer => isdigit (cur buffer);
  parse_value_typed := fun buffer => (strtoll buffer).1;
|}.

#[export] Instance value_double : Value double := {|
  validate_value_typed := fun buffer =>
    isdigit (cur buffer) || Ascii.eqb (cur buffer) "."%char || Ascii.eqb (cur buffer) "i"%char;
  parse_value_typed := strtod;
|}.

(** [while(pos < BUFFER_SZ && isspace(current[0])) { pos++; current++; }] *)
Fixpoint skip_counted (pos : nat) (current : text) : nat * text :=
  match current with
  | c :: l => if (pos <? BUFFER_SZ)%nat && isspace c then skip_counted (S pos) l else (pos, current)
  | [] => (pos, [])
  end.

Definition at_end (pos : nat) (current : text) : bool := (pos =? BUFFER_SZ)%nat || Ascii.eqb (cur current) nul.

Definition parse_value {T} `{Value T} (buffer : text) : res (Z * T) :=
  let '(pos, current) := skip_counted 0 buffer in
  if at_end pos current then fatal
  else if negb (isdigit (cur current)) then fatal
  else
    let '(vertex_id, next) := strtoll current in
    let '(pos, current) := skip_counted pos next in
    if at_end pos current then fatal
    else if negb (validate_value_typed current) then fatal
    else Val (vertex_id, parse_value_typed current).

Definition relabel (tuple : Z * Z) (vtx_map : option (gmap Z Z)) (relabel_value : bool) : res (Z * Z) :=
  match vtx_map with
  | None => Val tuple
  | Some m =>
    match m !! u64 tuple.1 with
    | None => fatal
    | Some x =>
      if relabel_value then
        match m !! u64 tuple.2 with None => fatal | Some y => Val (i64 x, i64 y) end
      else Val (i64 x, tuple.2)
    end
  end.

(** The loop over the lines of a file. *)
Fixpoint read_lines {A} (f : A -> nat -> text -> res A) (handle : istream) (st : A) (lineno fuel : nat) :
    res (A * nat) :=
  match fuel with
  | O => NoFuel
  | S fuel =>
    let '(buffer, handle) := getline_buffer BUFFER_SZ handle in
    if s_eof handle then Val (st, lineno)
    else st ← f st lineno buffer; read_lines f handle st (S lineno) fuel
  end.

Definition lines_of {A} (f : A -> nat -> text -> res A) (content : text) (st : A) : res (A * nat) :=
  read_lines f (istream_open content) st 0 (S (S (length content))).

Record Tuple (T : Type) := mkTuple { tp_vertex_id : Z; tp_value : T; tp_lineno : nat }.
Arguments mkTuple {T}.
Arguments tp_vertex_id {T}.
Arguments tp_value {T}.
Arguments tp_lineno {T}.

Definition read_results {T} `{Value T} (path_to_file : option text) : res (gmap Z (Tuple T)) :=
  match path_to_file with
  | None => fatal
  | Some content =>
    r ← lines_of (fun result lineno buffer =>
      v ← parse_value buffer;
      match result !! v.1 with
      | Some _ => fatal
      | None => Val (<[v.1 := mkTuple v.1 v.2 lineno]> result)
      end) content ∅;
    Val r.1
  end.

(** ** Exact match *)

Definition exact_line (hash_results : gmap Z (Tuple Z)) (max_num_errors : Z) (vtx_map : option (gmap Z Z))
    (vtx_relabel_values : bool) (error_count : Z) (lineno : nat) (buffer : text) : res Z :=
  v ← parse_value buffer;
  t_expected ← relabel v vtx_map vtx_relabel_values;
  if (size hash_results <=? lineno)%nat then ERROR_COUNT max_num_errors error_count
  else
    match hash_results !! t_expected.1 with
    | None => ERROR_COUNT max_num_errors error_count
    | Some t_result =>
      if negb (tp_vertex_id t_result =? t_expected.1) then ERROR_COUNT max_num_errors error_count
      else if negb (t_expected.2 =? tp_value t_result) then ERROR_COUNT max_num_errors error_count
      else Val error_count
    end.

(** The number of lines and [ERROR_EXIT]. *)
Definition finish (max_num_errors error_count : Z) (lineno size : nat) : res unit :=
  error_count ← (if (lineno <? size)%nat then ERROR_COUNT max_num_errors error_count else Val error_count);
  if 0 <? error_count then fatal else Val tt.

Definition exact_match (path_result path_expected : option text) (max_num_errors : Z)
    (vtx_map : option (gmap Z Z)) (vtx_relabel_values : bool) : res unit :=
  match path_expected with
  | None => fatal
  | Some expected =>
    hash_results ← read_results path_result;
    '(error_count, lineno) ← lines_of (exact_line hash_results max_num_errors vtx_map vtx_relabel_values) expected 0;
    finish max_num_errors error_count lineno (size hash_results)
  end.

Definition bfs (result expected : option text) (max_num_errors : Z) (vertex_map : option (gmap Z Z)) : res unit :=
  exact_match result expected max_num_errors vertex_map false.

Definition cdlp (result expected : option text) (max_num_errors : Z) (vertex_map : option (gmap Z Z)) : res unit :=
  exact_match result expected max_num_errors vertex_map true.

(** ** Epsilon match *)

(** [vertex_map->find(v)->second] *)
Definition remap (vertex_map : option (gmap Z Z)) (v : Z) : res Z :=
  match vertex_map with None => Val v | Some m => x ← require (m !! u64 v); Val (i64 x) end.

Definition epsilon_error (value_result value_expected : double) : double :=
  ddiv (SFabs (dsub value_result value_expected)) value_expected.

Definition epsilon_line (hash_results : gmap Z (Tuple double)) (epsilon : double) (max_num_errors : Z)
    (vertex_map : option (gmap Z Z)) (error_count : Z) (lineno : nat) (buffer : text) : res Z :=
  v ← parse_value buffer;
  vertex ← remap vertex_map v.1;
  if (size hash_results <=? lineno)%nat then ERROR_COUNT max_num_errors error_count
  else
    match hash_results !! vertex with
    | None => ERROR_COUNT max_num_errors error_count
    | Some t_result =>
      if negb (tp_vertex_id t_result =? vertex) then ERROR_COUNT max_num_errors error_count
      else if dlt epsilon (epsilon_error (tp_value t_result) v.2) then ERROR_COUNT max_num_errors error_count
      else Val error_count
    end.

Definition epsilon_match (path_result path_expected : option text) (epsilon : double) (max_num_errors : Z)
    (vertex_map : option (gmap Z Z)) : res unit :=
  match path_expected with
  | None => fatal
  | Some expected =>
    hash_results ← read_results path_result;
    '(error_count, lineno) ← lines_of (epsilon_line hash_results epsilon max_num_errors vertex_map) expected 0;
    finish max_num_errors error_count lineno (size hash_results)
  end.

Definition pagerank (result expected : option text) (max_num_errors : Z) (vertex_map : option (gmap Z Z)) : res unit :=
  epsilon_match result expected (decimal 1 (-4)) max_num_errors vertex_map.

Definition lcc (result expected : option text) (max_num_errors : Z) (vertex_map : option (gmap Z Z)) : res unit :=
  epsilon_match result expected (decimal 1 (-4)) max_num_errors vertex_map.

Definition sssp (result expected : option text) (max_num_errors : Z) (vertex_map : option (gmap Z Z)) : res unit :=
  epsilon_match result expected (decimal 1 (-4)) max_num_errors vertex_map.

(** ** Equivalence match *)

Record Mapping := mkMapping { mp_errors : Z; mp_ref_mapping : gmap Z Z; mp_unique_components : gset Z }.

(** The check of one line of the reference, after the relabelling. *)
Definition equivalence_check (components_result : gmap Z Z) (max_num_errors : Z) (st : Mapping) (t_ref : Z * Z) :
    res Mapping :=
  match components_result !! t_ref.1 with
  | None => n ← ERROR_COUNT max_num_errors (mp_errors st); Val (mkMapping n (mp_ref_mapping st) (mp_unique_components st))
  | Some res =>
    match mp_ref_mapping st !! t_ref.2 with
    | None =>
      let ref_mapping := <[t_ref.2 := res]> (mp_ref_mapping st) in
      if decide (res ∈ mp_unique_components st) then
        n ← ERROR_COUNT max_num_errors (mp_errors st); Val (mkMapping n ref_mapping (mp_unique_components st))
      else Val (mkMapping (mp_errors st) ref_mapping ({[res]} ∪ mp_unique_components st))
    | Some mapping =>
      if negb (mapping =? res) then
        n ← ERROR_COUNT max_num_errors (mp_errors st); Val (mkMapping n (mp_ref_mapping st) (mp_unique_components st))
      else Val st
    end
  end.

Definition equivalence_line (components_result : gmap Z Z) (max_num_errors : Z) (vertex_map : option (gmap Z Z))
    (st : Mapping) (buffer : text) : res Mapping :=
  v ← parse_value buffer;
  vertex ← remap vertex_map v.1;
  equivalence_check components_result max_num_errors st (vertex, v.2).

Definition equivalence_match (result expected : option text) (max_num_errors : Z)
    (vertex_map : option (gmap Z Z)) : res unit :=
  match result, expected with
  | Some result, Some expected =>
    '(components_result, _) ← lines_of (fun components _ buffer =>
      t ← parse_value buffer; Val (<[t.1 := t.2]> components)) result ∅;
    '(st, lineno) ← lines_of (fun st _ buffer =>
      equivalence_line components_result max_num_errors vertex_map st buffer) expected (mkMapping 0 ∅ ∅);
    finish max_num_errors (mp_errors st) lineno (size components_result)
  | _, _ => fatal
  end.

Definition wcc (result expected : option text) (max_num_errors : Z) (vertex_map : option (gmap Z Z)) : res unit :=
  equivalence_match result expected max_num_errors vertex_map.

(** ** The text of a file of results *)

Definition value_line (p : Z * text) : text := print_nat p.1 ++ space :: p.2.

(** What [save_results] writes for unsigned values. *)
Definition written (lines : list (Z * Z)) : text :=
  file_of ((fun p => value_line (p.1, print_nat p.2)) <$> lines).

Definition wf_line (line : text) : Prop := newline ∉ line /\ (length line < BUFFER_SZ)%nat.

Definition numbered {A B} (f : A -> nat -> B -> res A) (s : A * nat) (b : B) : res (A * nat) :=
  st ← f s.1 s.2 b; Val (st, S s.2).

Lemma read_lines_file {A} (f : A -> nat -> text -> res A) lines : forall st n fuel,
  Forall wf_line lines -> (length lines < fuel)%nat ->
  read_lines f (istream_open (file_of lines)) st n fuel = res_fold (numbered f) (st, n) lines.
Proof.
  induction lines as [|line lines IH]; intros st n fuel Hwf Hfuel; (destruct fuel as [|fuel]; [simpl in Hfuel; lia|]).
  - done.
  - apply Forall_cons in Hwf as [[Hn Hl] Hwf]. cbn [read_lines file_of mbind list_bind].
    rewrite <- app_assoc. cbn [app]. rewrite getline_buffer_newline by done.
    change (s_eof _) with false. cbv iota. cbn [res_fold].
    change (numbered f (st, n) line) with (f st n line ≫= fun st' => Val (st', S n)).
    destruct (f st n line) as [st'| | |]; try done. do 3 bind_val. apply IH; [done|simpl in Hfuel; lia].
Qed.

Lemma lines_of_file {A} (f : A -> nat -> text -> res A) lines st : Forall wf_line lines ->
  lines_of f (file_of lines) st = res_fold (numbered f) (st, 0%nat) lines.
Proof. intros Hwf. apply read_lines_file; [done|]. pose proof (file_of_length lines). lia. Qed.

(** ** Lines with a vertex and a value *)

Definition token_ok {T} `{Value T} (tok : text) : Prop :=
  validate_value_typed tok = true /\ isspace (cur tok) = false /\ cur tok <> nul /\
  newline ∉ tok /\ (length tok <= 4000)%nat.

Definition entry_ok {T} `{Value T} (p : Z * text) : Prop := 0 <= p.1 <= int64_max /\ token_ok p.2.

Definition parsed {T} `{Value T} (p : Z * text) : Z * T := (p.1, parse_value_typed p.2).

Lemma print_digits_bound fuel : forall z acc, (length (print_digits fuel z acc) <= fuel + length acc)%nat.
Proof.
  induction fuel as [|fuel IH]; intros z acc; cbn [print_digits]; [simpl; lia|]. destruct (z <? 10); [simpl; lia|].
  etrans; [apply IH|]. simpl. lia.
Qed.

Lemma print_nat_bound z : 0 <= z <= int64_max -> (length (print_nat z) <= 64)%nat.
Proof.
  intros Hz. unfold print_nat. etrans; [apply print_digits_bound|].
  assert (Z.log2 z <= Z.log2 int64_max) as Hl by (apply Z.log2_le_mono; lia).
  change (Z.log2 int64_max) with 62 in Hl. simpl. lia.
Qed.

Lemma print_token z : 0 <= z <= int64_max -> token_ok (T := Z) (print_nat z).
Proof.
  intros Hz. destruct (print_nat_cons z ltac:(lia)) as (c & l & Hp & Hc). unfold token_ok. cbn [validate_value_typed value_int64]. rewrite Hp. cbn [cur].
  split_and!; [done|by apply digit_not_space|by intros ->|rewrite <- Hp; apply print_nat_newline; lia|].
  rewrite <- Hp. pose proof (print_nat_bound z Hz). lia.
Qed.

Lemma value_line_ok {T} `{Value T} p : entry_ok p -> wf_line (value_line p).
Proof.
  intros (Hid & _ & _ & _ & Hn & Hl). unfold value_line. split.
  - rewrite elem_of_app, elem_of_cons. pose proof (print_nat_newline p.1 ltac:(lia)). naive_solver.
  - rewrite length_app. simpl. pose proof (print_nat_bound p.1 Hid). unfold BUFFER_SZ. lia.
Qed.

Lemma skip_counted_stop pos l : isspace (cur l) = false -> skip_counted pos l = (pos, l).
Proof.
  destruct l as [|c l]; [done|]. cbn [cur skip_counted]. intros ->. by destruct (pos <? BUFFER_SZ)%nat.
Qed.

Lemma parse_value_line {T} `{Value T} p : entry_ok p -> parse_value (value_line p) = Val (parsed p).
Proof.
  intros (Hid & Hval & Hsp & Hnul & Hn & Hl). unfold parse_value, value_line.
  destruct (print_nat_cons p.1 ltac:(lia)) as (c & l & Hp & Hc).
  rewrite skip_counted_stop by (rewrite Hp; by apply digit_not_space).
  assert (cur (print_nat p.1 ++ space :: p.2) = c) as Hcur by (by rewrite Hp).
  assert (at_end 0 (print_nat p.1 ++ space :: p.2) = false) as ->.
  { unfold at_end. rewrite Hcur. by destruct (Ascii.eqb_spec c nul) as [->|]. }
  rewrite Hcur, Hc. cbn [negb]. rewrite strtoll_print by done.
  change (skip_counted 0 (space :: p.2)) with (skip_counted 1 p.2). rewrite skip_counted_stop by done.
  assert (at_end 1 p.2 = false) as ->.
  { unfold at_end. by destruct (Ascii.eqb_spec (cur p.2) nul). }
  by rewrite Hval.
Qed.

(** ** The file of the results *)

Definition entries (l : list (Z * text)) : text := file_of (value_line <$> l).

(** [m] is what the results [l] are, by vertex. *)
Record results_repr {T} (m : gmap Z (Tuple T)) (l : list (Z * T)) : Prop := {
  rr_lookup : forall k x, (exists n, m !! k = Some (mkTuple k x n)) <-> (k, x) ∈ l;
  rr_id : forall k t, m !! k = Some t -> tp_vertex_id t = k;
  rr_size : size m = length l;
  rr_nodup : NoDup l.*1;
}.

Lemma results_repr_lookup {T} (m : gmap Z (Tuple T)) l k x : results_repr m l ->
  tp_value <$> m !! k = Some x <-> (k, x) ∈ l.
Proof.
  intros R. rewrite <- (rr_lookup _ _ R). split.
  - intros ([k' x' n] & Ht & ->)%fmap_Some. pose proof (rr_id _ _ R _ _ Ht). simpl in *. subst. by exists n.
  - intros [n ->]. done.
Qed.

Lemma entries_wf {T} `{Value T} l : Forall entry_ok l -> Forall wf_line (value_line <$> l).
Proof. intros Hl. apply Forall_fmap. eapply Forall_impl; [exact Hl|]. intros p. apply value_line_ok. Qed.

Lemma read_results_spec {T} `{Value T} (l : list (Z * text)) : Forall entry_ok l ->
  (read_results (Some (entries l)) = fatal /\ ~ NoDup l.*1) \/
  exists m : gmap Z (Tuple T), read_results (Some (entries l)) = Val m /\ results_repr m (parsed <$> l).
Proof.
  intros Hok. unfold read_results, entries. rewrite lines_of_file by (by apply entries_wf). rewrite res_fold_fmap.
  edestruct (res_fold_inv_or (~ NoDup l.*1) GraphalyticsValidateError
    (fun done (st : gmap Z (Tuple T) * nat) => results_repr st.1 (parsed <$> done))) as [[-> Hnd]|([m n] & -> & R)].
  4:{ right. exists m. split; [done|exact R]. }
  3:{ left. by split. }
  - cbn [fst]. split; simpl; [|done|done|constructor].
    intros k x. split; [intros [n Hn]; by rewrite lookup_empty in Hn|by intros ?%elem_of_nil].
  - intros done p todo [m n] -> R. apply Forall_app in Hok as [Hdone [Hp _]%Forall_cons].
    unfold numbered. cbn [fst snd] in *. rewrite parse_value_line by (exact Hp). bind_val. cbn [parsed fst].
    destruct (m !! p.1) as [t|] eqn:Hm.
    + left. split; [reflexivity|]. rewrite fmap_app. intros Hnd. apply NoDup_app in Hnd as (_ & Hnd & _).
      apply (Hnd p.1); [|by left]. pose proof (rr_id _ _ R _ _ Hm) as Hid. destruct t as [k x i]. simpl in Hid. subst k.
      assert ((p.1, x) ∈ parsed <$> done) as Hin by (apply (rr_lookup _ _ R); by exists i).
      apply list_elem_of_fmap in Hin as (q & Hq & Hq'). unfold parsed in Hq. injection Hq as -> _.
      by apply list_elem_of_fmap_2.
    + right. eexists. split; [reflexivity|]. cbn [fst]. rewrite fmap_app.
      change (parsed <$> [p]) with [(p.1, (parsed p).2)].
      assert (p.1 ∉ (parsed <$> done).*1) as Hnin.
      { intros ([k x] & Hk & Hin)%list_elem_of_fmap. simpl in Hk. subst k. apply (rr_lookup _ _ R) in Hin as [i Hi]. congruence. }
      split.
      * intros k x. rewrite elem_of_app, list_elem_of_singleton. destruct (decide (k = p.1)) as [->|Hk].
        -- rewrite lookup_insert_eq. split.
           ++ intros [i Hi]. injection Hi as <- _. by right.
           ++ intros [Hin|Heq]; [exfalso; apply Hnin; by apply (list_elem_of_fmap_2 fst) in Hin|].
              injection Heq as ->. by eexists.
        -- rewrite lookup_insert_ne by done. rewrite (rr_lookup _ _ R). naive_solver.
      * intros k t. destruct (decide (k = p.1)) as [->|Hk]; [rewrite lookup_insert_eq; by intros [= <-]|].
        rewrite lookup_insert_ne by done. apply (rr_id _ _ R).
      * rewrite map_size_insert_None, (rr_size _ _ R), length_app by done. simpl. lia.
      * rewrite fmap_app. apply NoDup_app. split_and!; [apply (rr_nodup _ _ R)| |apply NoDup_singleton].
        intros x Hx. change (x ∉ [p.1]). rewrite list_elem_of_singleton. by intros ->.
Qed.

(** ** The count of the mismatches *)

(** A line is fine or adds a mismatch. *)
Definition counts {B} (max : Z) (good : nat -> B -> Prop) (step : Z -> nat -> B -> res Z) (l : list B) : Prop :=
  forall c n b, b ∈ l -> (good n b /\ step c n b = Val c) \/ (~ good n b /\ step c n b = ERROR_COUNT max c) \/
    (~ good n b /\ step c n b = fatal).

Lemma error_count_cases max c : 0 <= c ->
  ERROR_COUNT max c = fatal \/ exists c', ERROR_COUNT max c = Val c' /\ 0 < c'.
Proof.
  intros Hc. unfold ERROR_COUNT. destruct (max =? 1); [by left|]. destruct (_ && _); [by left|right].
  eexists. split; [done|lia].
Qed.

Lemma tally_fold {B} max (good : nat -> B -> Prop) step l (Hstep : counts max good step l) :
  let all := forall i b, l !! i = Some b -> good i b in
  (res_fold (numbered step) (0, 0%nat) l = fatal /\ ~ all) \/
  exists c, res_fold (numbered step) (0, 0%nat) l = Val (c, length l) /\ ((c = 0 /\ all) \/ (0 < c /\ ~ all)).
Proof.
  intros all.
  edestruct (res_fold_inv_or (~ all) GraphalyticsValidateError (fun done (st : Z * nat) => st.2 = length done /\
    ((st.1 = 0 /\ forall i b, done !! i = Some b -> good i b) \/ (0 < st.1 /\ ~ all))))
    as [[Hf Hall]|([c n] & Hf & Hn & Hc)].
  3:{ left. split; [exact Hf|done]. }
  3:{ right. exists c. cbn [fst snd] in *. subst n. done. }
  - split; [done|]. left. split; [done|]. intros i b. by rewrite lookup_nil.
  - intros done b todo [c n] Hl [Hn Hc]. cbn [fst snd] in *. subst n. unfold numbered. cbn [fst snd].
    assert (0 <= c) as Hc0 by lia.
    assert (~ good (length done) b -> ~ all) as Hbad.
    { intros Hb Hall. apply Hb, Hall. rewrite Hl, lookup_app_r, Nat.sub_diag by lia. done. }
    destruct (Hstep c (length done) b ltac:(rewrite Hl, elem_of_app, elem_of_cons; tauto)) as [[Hb ->]|[[Hb ->]|[Hb ->]]].
    + right. eexists. split; [reflexivity|]. cbn [fst snd]. rewrite length_app. simpl. split; [lia|].
      destruct Hc as [[-> Hgood]|?]; [left|by right]. split; [done|]. intros i b' [Hi|[Hi Hi']]%lookup_app_Some; [by apply Hgood|].
      destruct (i - length done)%nat as [|k] eqn:Hk; [|done]. injection Hi' as <-. by replace i with (length done) by lia.
    + destruct (error_count_cases max c Hc0) as [->|(c' & -> & Hc')]; [left; split; [done|by apply Hbad]|right].
      eexists. split; [reflexivity|]. cbn [fst snd]. rewrite length_app. simpl. split; [lia|]. right. split; [done|by apply Hbad].
    + left. split; [done|by apply Hbad].
Qed.

Lemma finish_spec max c n size : 0 <= c ->
  finish max c n size = if bool_decide (c = 0 /\ (size <= n)%nat) then Val tt else fatal.
Proof.
  intros Hc. unfold finish. destruct (Nat.ltb_spec n size) as [Hlt|Hle].
  - rewrite bool_decide_eq_false_2 by lia.
    destruct (error_count_cases max c Hc) as [->|(c' & -> & Hc')]; [done|]. bind_val. by rewrite (proj2 (Z.ltb_lt _ _)).
  - bind_val. destruct (Z.ltb_spec 0 c); [rewrite bool_decide_eq_false_2 by lia|rewrite bool_decide_eq_true_2 by lia]; done.
Qed.

(** ** What a validation accepts *)

(** Every vertex once in both files, with values that [cmp] accepts. *)
Definition matches {T} (cmp : T -> T -> bool) (result expected : list (Z * T)) : Prop :=
  NoDup result.*1 /\ length result = length expected /\
  forall v e, (v, e) ∈ expected -> exists r, (v, r) ∈ result /\ cmp r e = true.

(** The [n]th line of the reference, [q] after the relabelling, is as expected. *)
Definition good_line {T B} (cmp : T -> T -> bool) (m : gmap Z (Tuple T)) (conv : B -> res (Z * T)) (n : nat) (b : B) : Prop :=
  (n < size m)%nat /\ exists q r, conv b = Val q /\ tp_value <$> m !! q.1 = Some r /\ cmp r q.2 = true.

Lemma good_lines_match {T B} (cmp : T -> T -> bool) (m : gmap Z (Tuple T)) rs conv (l : list B) q :
  results_repr m rs -> Forall2 (fun b q => conv b = Val q) l q ->
  ((forall i b, l !! i = Some b -> good_line cmp m conv i b) /\ (size m <= length l)%nat) <->
  matches cmp rs q.
Proof.
  intros R Hl. pose proof (Forall2_length _ _ _ Hl) as Hlen. pose proof (rr_size _ _ R) as Hsize.
  assert (forall i p, q !! i = Some p -> exists b, l !! i = Some b /\ conv b = Val p) as Hback
    by (intros i p Hp; destruct (Forall2_lookup_r _ _ _ _ _ Hl Hp) as (b & ? & ?); by exists b).
  split.
  - intros [Hgood Hle]. split; [apply (rr_nodup _ _ R)|].
    assert (length l <= size m)%nat as Hle'.
    { destruct l as [|b l'] using rev_ind; [simpl; lia|]. destruct (Hgood (length l') b) as [Hlt _].
      - by rewrite lookup_app_r, Nat.sub_diag by lia.
      - rewrite length_app. simpl. lia. }
    split; [lia|]. intros v e [i Hi]%list_elem_of_lookup. destruct (Hback i _ Hi) as (b & Hb & Hconv).
    destruct (Hgood i b Hb) as (_ & q' & r & Hq & Hr & Hcmp). rewrite Hconv in Hq. injection Hq as <-.
    exists r. split; [by apply (results_repr_lookup _ _ _ _ R)|done].
  - intros (_ & Hlens & Hcmp). split; [|lia]. intros i b Hb.
    destruct (Forall2_lookup_l _ _ _ _ _ Hl Hb) as ([v e] & Hq & Hconv). apply lookup_lt_Some in Hb as Hi.
    split; [lia|]. destruct (Hcmp v e) as (r & Hr & Hc); [by eapply list_elem_of_lookup_2|].
    exists (v, e), r. split; [done|]. split; [by apply (results_repr_lookup _ _ _ _ R)|done].
Qed.

(** The two validations that compare values. *)
Lemma match_spec {T} `{Value T} (cmp : T -> T -> bool) max conv line (res exp : list (Z * text)) exp' :
  Forall entry_ok res -> Forall entry_ok exp ->
  Forall2 (fun p q => conv (parsed p) = Val q) exp exp' ->
  (forall m : gmap Z (Tuple T), results_repr m (parsed <$> res) ->
     counts max (good_line cmp m (fun p => conv (parsed p)))
       (fun c n p => line m c n (value_line p)) exp) ->
  let outcome := hash_results ← read_results (Some (entries res));
    '(error_count, lineno) ← lines_of (line hash_results) (entries exp) 0;
    finish max error_count lineno (size hash_results) in
  (matches cmp (parsed <$> res) exp' -> outcome = Val tt) /\
  (~ matches cmp (parsed <$> res) exp' -> outcome = fatal).
Proof.
  intros Hres Hexp Hconv Hline. cbv zeta.
  destruct (read_results_spec res Hres) as [[-> Hnd]|(m & -> & R)].
  { split; [|done]. intros [Hnd' _]. exfalso. apply Hnd. by rewrite <- list_fmap_compose in Hnd'. }
  bind_val. unfold entries. rewrite lines_of_file by (by apply entries_wf). rewrite res_fold_fmap.
  change (fun a c => numbered (line m) a (value_line c)) with (numbered (fun c n p => line m c n (value_line p))).
  pose proof (good_lines_match cmp m _ _ _ _ R Hconv) as Hiff.
  destruct (tally_fold _ _ _ _ (Hline m R)) as [[-> Hall]|(c & -> & Hc)].
  { split; [|done]. intros Hm. by destruct Hall; apply Hiff in Hm as [? _]. }
  bind_step. rewrite finish_spec by lia. split; intros Hm.
  - apply Hiff in Hm as [Hall Hle]. rewrite bool_decide_eq_true_2; [done|]. destruct Hc as [[-> _]|[_ Hn]]; done.
  - rewrite bool_decide_eq_false_2; [done|]. intros [-> Hle]. destruct Hc as [[_ Hall]|[Hc _]]; [|lia].
    by apply Hm, Hiff.
Qed.

Lemma matches_perm (res exp : list (Z * Z)) : NoDup exp.*1 ->
  matches Z.eqb res exp <-> res ≡ₚ exp.
Proof.
  intros Hnd. split.
  - intros (Hres & Hl & Hin). symmetry. apply NoDup_fmap_1 in Hnd as Hnd'.
    assert (exp ⊆+ res) as Hsub.
    { apply NoDup_submseteq; [done|]. intros [v e] He. destruct (Hin v e He) as (r & Hr & ->%Z.eqb_eq). done. }
    by apply submseteq_length_Permutation; [|lia].
  - intros Hp. split; [by rewrite Hp|]. split; [by rewrite Hp|]. intros v e He. exists e. rewrite Hp, Z.eqb_refl. done.
Qed.

Definition unsigned_lines (l : list (Z * Z)) : Prop :=
  Forall (fun p => 0 <= p.1 <= int64_max /\ 0 <= p.2 <= int64_max) l.

Definition tokens (l : list (Z * Z)) : list (Z * text) := (fun p => (p.1, print_nat p.2)) <$> l.

Lemma tokens_ok l : unsigned_lines l -> Forall (entry_ok (T := Z)) (tokens l).
Proof.
  intros Hl. apply Forall_fmap. eapply Forall_impl; [exact Hl|]. intros p [Hid Hv]. split; [done|by apply print_token].
Qed.

Lemma tokens_parsed l : unsigned_lines l -> parsed (T := Z) <$> tokens l = l.
Proof.
  intros Hl. unfold tokens. rewrite <- list_fmap_compose. rewrite <- (list_fmap_id l) at 2. apply list_fmap_ext.
  intros i [v x] Hi. apply (Forall_lookup_1 _ _ _ _ Hl) in Hi as [_ Hx]. 
  change ((v, (strtoll (print_nat x)).1) = (v, x)). cbn [snd] in Hx.
  pose proof (strtoll_print x [] Hx eq_refl) as Hp. rewrite app_nil_r in Hp. by rewrite Hp.
Qed.

Lemma parse_token p : 0 <= p.1 <= int64_max -> 0 <= p.2 <= int64_max ->
  parse_value (T := Z) (value_line (p.1, print_nat p.2)) = Val p.
Proof.
  intros Hid Hx. rewrite parse_value_line by (split; [done|by apply print_token]). unfold parsed. cbn [fst snd].
  pose proof (strtoll_print p.2 [] Hx eq_refl) as Hp. rewrite app_nil_r in Hp.
  change (parse_value_typed (print_nat p.2)) with (strtoll (print_nat p.2)).1. rewrite Hp. by destruct p.
Qed.

Lemma tokens_entries l : entries (tokens l) = written l.
Proof. unfold entries, written, tokens. by rewrite <- list_fmap_compose. Qed.

Lemma relabel_outcome t vtx_map relabel_values :
  (exists q, relabel t vtx_map relabel_values = Val q) \/ relabel t vtx_map relabel_values = fatal.
Proof.
  unfold relabel. destruct vtx_map as [m|]; [|by left; eexists]. destruct (m !! _); [|by right].
  destruct relabel_values; [|by left; eexists]. destruct (m !! u64 t.2); [by left; eexists|by right].
Qed.

(** C35: the exact match, with which BFS and CDLP are validated, accepts the result
    exactly when it holds the lines of the reference, relabelled, in any order;
    it terminates, and the number of errors that is tolerated before it gives
    up does not matter. A vertex that occurs twice in the result is refused. *)
Theorem exact_match_correct res exp exp' max_num_errors vtx_map relabel_values
  (Hres : unsigned_lines res) (Hexp : unsigned_lines exp)
  (Hmap : Forall2 (fun p q => relabel p vtx_map relabel_values = Val q) exp exp') (Hnd : NoDup exp'.*1) :
  exact_match (Some (written res)) (Some (written exp)) max_num_errors vtx_map relabel_values =
    if bool_decide (res ≡ₚ exp') then Val tt else fatal.
Proof.
  unfold exact_match. rewrite <- !tokens_entries.
  destruct (match_spec Z.eqb max_num_errors (fun p => relabel p vtx_map relabel_values)
    (fun m => exact_line m max_num_errors vtx_map relabel_values) (tokens res) (tokens exp) exp') as [Hyes Hno].
  - by apply tokens_ok.
  - by apply tokens_ok.
  - pose proof Hmap as Hm. rewrite <- (tokens_parsed exp Hexp) in Hm. by apply Forall2_fmap_l in Hm.
  - intros m R c n p Hp. unfold exact_line. rewrite parse_value_line
      by (by apply (proj1 (Forall_forall _ _) (tokens_ok exp Hexp))). bind_val.
    unfold good_line. destruct (relabel_outcome (parsed p) vtx_map relabel_values) as [[[v e] Hq]|Hq]; rewrite Hq.
    2:{ right; right. split; [|done]. by intros (_ & ? & ? & ? & _). }
    bind_val. cbn [fst snd]. destruct (Nat.leb_spec (size m) n) as [Hle|Hlt].
    { right; left. split; [|done]. intros [? _]. lia. }
    destruct (m !! v) as [t|] eqn:Ht.
    2:{ right; left. split; [|done]. intros (_ & q & r & [= <-] & Hr & _). cbn in Hr. by rewrite Ht in Hr. }
    rewrite (rr_id _ _ R _ _ Ht), Z.eqb_refl. cbn [negb]. destruct (Z.eqb_spec e (tp_value t)) as [->|Hne].
    + left. split; [|done]. split; [done|]. eexists _, _. split; [done|]. cbn [fst snd]. rewrite Ht. split; [done|apply Z.eqb_refl].
    + right; left. split; [|done]. intros (_ & q & r & [= <-] & Hr & Hc). cbn [fst snd] in *.
      rewrite Ht in Hr. injection Hr as <-. by apply Z.eqb_eq in Hc.
  - rewrite tokens_parsed in Hyes, Hno by done. rewrite matches_perm in Hyes, Hno by done.
    case_bool_decide; [by apply Hyes|by apply Hno].
Qed.

(** The epsilon match, with which PageRank, LCC and SSSP are validated, accepts
    the result exactly when every vertex is in both files once and no error,
    relative to the reference in double arithmetic, exceeds [epsilon]. An error
    that is not a number never does, so that an infinite or a zero reference
    accepts infinitely large and zero results ([sssp_infinity_accepted]). *)
Theorem epsilon_match_correct (res exp : list (Z * text)) exp' epsilon max_num_errors vertex_map
  (Hres : Forall (entry_ok (T := double)) res) (Hexp : Forall (entry_ok (T := double)) exp)
  (Hmap : Forall2 (fun p q => remap vertex_map p.1 = Val q.1 /\ strtod p.2 = q.2) exp exp') :
  let close := matches (fun r e => negb (dlt epsilon (epsilon_error r e))) (parsed <$> res) exp' in
  let outcome := epsilon_match (Some (entries res)) (Some (entries exp)) epsilon max_num_errors vertex_map in
  (close -> outcome = Val tt) /\ (~ close -> outcome = fatal).
Proof.
  apply (match_spec _ max_num_errors (fun v : Z * double => x ← remap vertex_map v.1; Val (x, v.2))
    (fun m => epsilon_line m epsilon max_num_errors vertex_map)); try done.
  - eapply Forall2_impl; [exact Hmap|]. intros p [x y] [Hx Hy]. unfold parsed. cbn [fst snd] in *. rewrite Hx. bind_val.
    by rewrite <- Hy.
  - intros m R c n p Hp. unfold epsilon_line. rewrite parse_value_line by (by apply (proj1 (Forall_forall _ _) Hexp)).
    bind_val. unfold good_line. apply list_elem_of_lookup in Hp as [i Hi].
    destruct (Forall2_lookup_l _ _ _ _ _ Hmap Hi) as ([v e] & _ & Hv & He). cbn [fst snd] in Hv, He.
    cbn [parsed fst snd]. rewrite Hv. do 2 bind_val. destruct (Nat.leb_spec (size m) n) as [Hle|Hlt].
    { right; left. split; [|done]. intros [? _]. lia. }
    destruct (m !! v) as [t|] eqn:Ht.
    2:{ right; left. split; [|done]. intros (_ & q & r & [= <-] & Hr & _). cbn in Hr. by rewrite Ht in Hr. }
    rewrite (rr_id _ _ R _ _ Ht), Z.eqb_refl. cbn [negb].
    change (parse_value_typed p.2) with (strtod p.2).
    destruct (dlt epsilon (epsilon_error (tp_value t) (strtod p.2))) eqn:Hd.
    + right; left. split; [|done]. intros (_ & q & r & [= <-] & Hr & Hc). cbn [fst snd] in *.
      rewrite Ht in Hr. injection Hr as <-. change (parse_value_typed p.2) with (strtod p.2) in Hc. by rewrite Hd in Hc.
    + left. split; [|done]. split; [done|]. eexists _, _. split; [done|]. cbn [fst snd]. rewrite Ht. split; [done|by rewrite Hd].
Qed.

(** A finite distance of a vertex that cannot be reached is accepted, and so is
    a result whose last line does not end with a newline, whatever it says. *)
Theorem sssp_infinity_accepted :
  sssp (Some (text_of "1 5
")) (Some (text_of "1 infinity
")) 1 None = Val tt /\
  bfs (Some (text_of "1 0
2 7")) (Some (text_of "1 0
2 1")) 1 None = Val tt.
Proof. by vm_compute. Qed.

(** ** Equivalence match *)

Lemma res_fold_forall2 {A B C} (f : A -> B -> res A) (g : A -> C -> res A) l k : Forall2 (fun b c => forall a, f a b = g a c) l k ->
  forall a, res_fold f a l = res_fold g a k.
Proof.
  induction 1 as [|b c l k Hbc _ IH]; intros a; [done|]. cbn [res_fold]. rewrite Hbc. destruct (g a c); [apply IH|done..].
Qed.

(** The components of the reference and of the result [m] of some line. *)
Definition pair_of (m : gmap Z Z) (done : list (Z * Z)) (a b : Z) : Prop := exists v, (v, a) ∈ done /\ m !! v = Some b.

(** The lines [done] of the reference agree with the components [m]. *)
Definition agree (m : gmap Z Z) (done : list (Z * Z)) : Prop :=
  (forall e, e ∈ done -> is_Some (m !! e.1)) /\
  forall a b a' b', pair_of m done a b -> pair_of m done a' b' -> a = a' <-> b = b'.

Record mapping_repr (m : gmap Z Z) (done : list (Z * Z)) (st : Mapping) : Prop := {
  mr_errors : mp_errors st = 0;
  mr_agree : agree m done;
  mr_mapping : forall a b, mp_ref_mapping st !! a = Some b <-> pair_of m done a b;
  mr_unique : forall b, b ∈ mp_unique_components st <-> exists a, pair_of m done a b;
}.

Lemma pair_of_snoc m done v a x y :
  pair_of m (done ++ [(v, a)]) x y <-> pair_of m done x y \/ (x = a /\ m !! v = Some y).
Proof. unfold pair_of. setoid_rewrite elem_of_app. setoid_rewrite list_elem_of_singleton. naive_solver. Qed.

Lemma agree_snoc m done v a b : m !! v = Some b ->
  agree m (done ++ [(v, a)]) <-> agree m done /\ forall a' b', pair_of m done a' b' -> a = a' <-> b = b'.
Proof.
  intros Hv. unfold agree. setoid_rewrite pair_of_snoc. rewrite Hv. setoid_rewrite elem_of_app.
  setoid_rewrite list_elem_of_singleton. split.
  - intros [H1 H2]. split_and!; [naive_solver|naive_solver|].
    intros a' b' Hp. apply (H2 a b a' b'); [by right|by left].
  - intros ([H1 H2] & H3). split.
    + intros e [He| ->]; [by apply H1|by eexists].
    + intros x y x' y' [Hx|[-> [= <-]]] [Hx'|[-> [= <-]]]; [by apply H2| | |done].
      * specialize (H3 _ _ Hx). naive_solver.
      * by apply H3.
Qed.

(** A line that is fine extends the mapping; another one is a mismatch. *)
Lemma equivalence_step m max done st q : mapping_repr m done st ->
  (exists st', equivalence_check m max st q = Val st' /\ mapping_repr m (done ++ [q]) st') \/
  (~ agree m (done ++ [q]) /\ exists f, equivalence_check m max st q = (n ← ERROR_COUNT max 0; Val (f n)) /\
     forall n, mp_errors (f n) = n).
Proof.
  intros R. destruct q as [v a]. unfold equivalence_check. cbn [fst snd]. rewrite (mr_errors _ _ _ R).
  destruct (m !! v) as [b|] eqn:Hv.
  2:{ right. split; [intros [H1 _]; destruct (H1 (v, a)) as [x Hx]; [set_solver|cbn in Hx; congruence]|].
    by exists (fun n => mkMapping n (mp_ref_mapping st) (mp_unique_components st)). }
  pose proof (agree_snoc m done v a b Hv) as Hag. pose proof (mr_agree _ _ _ R) as [H1 H2].
  destruct (mp_ref_mapping st !! a) as [b'|] eqn:Ha.
  - apply (mr_mapping _ _ _ R) in Ha as Hp. destruct (Z.eqb_spec b' b) as [->|Hne]; cbn [negb].
    + left. exists st. split; [done|]. split; [apply R| | |].
      * apply Hag. split; [done|]. intros a' b' Hp'. by apply H2.
      * intros x y. rewrite (mr_mapping _ _ _ R), pair_of_snoc, Hv. naive_solver.
      * intros y. rewrite (mr_unique _ _ _ R). setoid_rewrite pair_of_snoc. rewrite Hv. naive_solver.
    + right. split; [rewrite Hag; intros [_ H3]; specialize (H3 _ _ Hp); naive_solver|].
      by exists (fun n => mkMapping n (mp_ref_mapping st) (mp_unique_components st)).
  - assert (forall y, ~ pair_of m done a y) as Hnew by (intros y Hy; apply (mr_mapping _ _ _ R) in Hy; congruence).
    cbv zeta. case_decide as Hb.
    + right. split; [|by exists (fun n => mkMapping n (<[a := b]> (mp_ref_mapping st)) (mp_unique_components st))].
      rewrite Hag. intros [_ H3]. apply (mr_unique _ _ _ R) in Hb as [a' Hp]. specialize (H3 _ _ Hp).
      assert (a = a') as <- by tauto. by apply (Hnew b).
    + left. eexists. split; [done|]. split; cbn [mp_errors mp_ref_mapping mp_unique_components]; [done| | |].
      * apply Hag. split; [done|]. intros a' b' Hp. split; [intros <-; by destruct (Hnew b')|].
        intros <-. destruct Hb. apply (mr_unique _ _ _ R). by exists a'.
      * intros x y. rewrite pair_of_snoc, Hv, lookup_insert_Some, (mr_mapping _ _ _ R). split; [naive_solver|].
        intros [Hp|[-> [= <-]]]; [|by left]. right. split; [intros <-; by destruct (Hnew y)|done].
      * intros y. rewrite elem_of_union, elem_of_singleton, (mr_unique _ _ _ R). setoid_rewrite pair_of_snoc.
        rewrite Hv. naive_solver.
Qed.

Lemma equivalence_check_shape m max st q :
  (exists st', equivalence_check m max st q = Val st' /\ mp_errors st' = mp_errors st) \/
  exists f, equivalence_check m max st q = (n ← ERROR_COUNT max (mp_errors st); Val (f n)) /\
    forall n, mp_errors (f n) = n.
Proof.
  unfold equivalence_check.
  destruct (m !! q.1) as [b|]; [|by right; exists (fun n => mkMapping n (mp_ref_mapping st) (mp_unique_components st))].
  destruct (mp_ref_mapping st !! q.2) as [b'|]; cbv zeta.
  - destruct (negb _); [|left; by eexists]. right.
    by exists (fun n => mkMapping n (mp_ref_mapping st) (mp_unique_components st)).
  - case_decide; [|left; by eexists]. right.
    by exists (fun n => mkMapping n (<[q.2 := b]> (mp_ref_mapping st)) (mp_unique_components st)).
Qed.

Lemma agree_prefix m l k : agree m (l ++ k) -> agree m l.
Proof.
  intros [H1 H2]. split; [set_solver|]. unfold pair_of in *. intros a b a' b' (v & ? & ?) (v' & ? & ?).
  apply H2; [exists v|exists v']; set_solver.
Qed.

Lemma equivalence_fold m max l :
  let r := res_fold (numbered (fun st _ q => equivalence_check m max st q)) (mkMapping 0 ∅ ∅, 0%nat) l in
  (r = fatal /\ ~ agree m l) \/
  exists st, r = Val (st, length l) /\ 0 <= mp_errors st /\ (mp_errors st = 0 <-> agree m l).
Proof.
  intros r.
  edestruct (res_fold_inv_or (~ agree m l) GraphalyticsValidateError
    (fun done (st : Mapping * nat) => st.2 = length done /\
       (mapping_repr m done st.1 \/ (0 < mp_errors st.1 /\ ~ agree m l)))) as [[Hf Hall]|([st n] & Hf & Hn & Hc)].
  3:{ left. split; [exact Hf|done]. }
  3:{ right. exists st. cbn [fst snd] in *. subst n. split; [exact Hf|].
    destruct Hc as [R|[Hpos Hno]]; [|split; [lia|split; [lia|done]]].
    rewrite (mr_errors _ _ _ R). split; [done|]. split; [intros _; apply R|done]. }
  - split; [done|]. left. split; cbn [fst mp_errors mp_ref_mapping mp_unique_components]; [done| | |].
    + split; [by intros e ?%elem_of_nil|]. by intros a b a' b' (v & ?%elem_of_nil & _).
    + intros a b. rewrite lookup_empty. split; [done|]. by intros (v & ?%elem_of_nil & _).
    + intros b. split; [set_solver|]. by intros (a & v & ?%elem_of_nil & _).
  - intros done q todo [st n] Hl [Hn Hc]. cbn [fst snd] in *. subst n. unfold numbered. cbn [fst snd].
    assert (~ agree m (done ++ [q]) -> ~ agree m l) as Hbad.
    { intros Hb Hag. apply Hb. rewrite Hl, cons_middle, app_assoc in Hag. by eapply agree_prefix. }
    assert (forall c f, 0 <= c -> (forall n, mp_errors (f n) = n) -> ~ agree m l ->
      ((n ← ERROR_COUNT max c; Val (f n)) ≫= (fun st' => Val (st', S (length done))) = Exn GraphalyticsValidateError /\ ~ agree m l) \/
      exists a', (n ← ERROR_COUNT max c; Val (f n)) ≫= (fun st' => Val (st', S (length done))) = Val a' /\
        a'.2 = length (done ++ [q]) /\ (mapping_repr m (done ++ [q]) a'.1 \/ (0 < mp_errors a'.1 /\ ~ agree m l))) as Herr.
    { intros c f Hc0 Hf Hno. destruct (error_count_cases max c Hc0) as [->|(c' & -> & Hc')]; [by left|right].
      eexists. split; [reflexivity|]. cbn [fst snd]. rewrite length_app. simpl. split; [lia|]. right. by rewrite Hf. }
    destruct Hc as [R|[Hpos Hno]].
    + destruct (equivalence_step m max done st q R) as [(st' & -> & R')|(Hno & f & -> & Hf)].
      * right. eexists. split; [reflexivity|]. cbn [fst snd]. rewrite length_app. simpl. split; [lia|by left].
      * apply Herr; [lia|done|by apply Hbad].
    + destruct (equivalence_check_shape m max st q) as [(st' & -> & Hst)|(f & -> & Hf)].
      * right. eexists. split; [reflexivity|]. cbn [fst snd]. rewrite length_app. simpl. split; [lia|right]. by rewrite Hst.
      * apply Herr; [lia|done|done].
Qed.

(** The same vertices, in the same components up to the names of these. *)
Definition same_partition (res exp : list (Z * Z)) : Prop :=
  (forall v, v ∈ res.*1 <-> v ∈ exp.*1) /\
  forall u v a b a' b', (u, a) ∈ res -> (v, b) ∈ res -> (u, a') ∈ exp -> (v, b') ∈ exp -> a = b <-> a' = b'.

Definition components_repr (m : gmap Z Z) (res : list (Z * Z)) : Prop :=
  (forall k x, m !! k = Some x <-> (k, x) ∈ res) /\ size m = length res.

Lemma components_fold res : NoDup res.*1 ->
  exists m, res_fold (numbered (fun components _ q => Val (<[q.1 := q.2]> components))) (∅, 0%nat) res =
    Val (m, length res) /\ components_repr m res.
Proof.
  intros Hnd. destruct (res_fold_inv (fun done (st : gmap Z Z * nat) => st.2 = length done /\ components_repr st.1 done)
    (numbered (fun components _ q => Val (<[q.1 := q.2]> components))) res (∅, 0%nat)) as ([m n] & -> & Hn & R).
  - split; [done|]. split; [|done]. intros k x. cbn [fst]. rewrite lookup_empty. split; [done|by intros ?%elem_of_nil].
  - intros done [v x] todo [m n] -> [Hn [Hm Hs]]. cbn [fst snd] in *. subst n. eexists. split; [reflexivity|]. cbn [fst snd].
    rewrite fmap_app in Hnd. cbn in Hnd. apply NoDup_app in Hnd as (_ & Hnin & _).
    assert (m !! v = None) as Hv.
    { apply eq_None_not_Some. intros [y Hy%Hm]. apply (Hnin v); [by apply (list_elem_of_fmap_2 fst) in Hy|by left]. }
    rewrite length_app. simpl. split; [lia|]. split.
    + intros k y. rewrite elem_of_app, list_elem_of_singleton, lookup_insert_Some, Hm. split; [naive_solver|].
      intros [Hin|[= -> ->]]; [|by left]. right. split; [intros <-|done]. apply Hm in Hin. congruence.
    + rewrite map_size_insert_None, Hs, length_app by done. simpl. lia.
  - exists m. cbn [fst snd] in *. by subst n.
Qed.

Lemma agree_partition m res exp : components_repr m res -> NoDup res.*1 -> NoDup exp.*1 ->
  agree m exp /\ (size m <= length exp)%nat <-> same_partition res exp.
Proof.
  intros [Hm Hs] Hnd Hnd'. rewrite Hs. split.
  - intros [[Hin Hpair] Hle].
    assert (exp.*1 ⊆+ res.*1) as Hsub.
    { apply NoDup_submseteq; [done|]. intros v ([v' a] & -> & Ha)%list_elem_of_fmap. destruct (Hin _ Ha) as [b Hb].
      apply Hm in Hb. by apply (list_elem_of_fmap_2 fst) in Hb. }
    assert (exp.*1 ≡ₚ res.*1) as Hperm by (apply submseteq_length_Permutation; [done|rewrite !length_fmap; lia]).
    split; [intros v; by rewrite Hperm|]. intros u v a b a' b' Ha Hb Ha' Hb'. symmetry.
    apply (Hpair a' a b' b); [exists u|exists v]; (split; [done|by apply Hm]).
  - intros [Hin Hpart]. split.
    + split.
      * intros [v a] Ha. apply (list_elem_of_fmap_2 fst), Hin, list_elem_of_fmap in Ha as ([v' b] & -> & Hb).
        exists b. by apply Hm.
      * intros a b a' b' (v & Ha & Hb%Hm) (v' & Ha' & Hb'%Hm). symmetry. by eapply Hpart.
    + rewrite <- (length_fmap fst res), <- (length_fmap fst exp). apply submseteq_length, NoDup_submseteq; [done|].
      intros v. apply Hin.
Qed.

(** C36: the equivalence match, with which WCC is validated, accepts the result
    exactly when it has the vertices of the reference, in the same components up
    to a bijection of their names. *)
Theorem equivalence_match_correct res exp exp' max_num_errors vertex_map
  (Hres : unsigned_lines res) (Hexp : unsigned_lines exp)
  (Hmap : Forall2 (fun p q => remap vertex_map p.1 = Val q.1 /\ p.2 = q.2) exp exp')
  (Hnd : NoDup res.*1) (Hnd' : NoDup exp'.*1) :
  let outcome := equivalence_match (Some (written res)) (Some (written exp)) max_num_errors vertex_map in
  (same_partition res exp' -> outcome = Val tt) /\ (~ same_partition res exp' -> outcome = fatal).
Proof.
  cbv zeta. unfold equivalence_match. rewrite <- !tokens_entries. unfold entries.
  rewrite lines_of_file by (by apply (entries_wf (T := Z)), tokens_ok). rewrite res_fold_fmap.
  destruct (components_fold res Hnd) as (m & Hfold & R).
  erewrite (res_fold_forall2 _ (numbered (fun components _ q => Val (<[q.1 := q.2]> components))) _ res).
  2:{ unfold tokens. apply Forall2_fmap_l, Forall_Forall2_diag, Forall_forall. intros [v x] Hin [c n].
    apply (proj1 (Forall_forall _ _) Hres) in Hin as [Hid Hx]. unfold numbered. cbn [fst snd].
    pose proof (parse_token (v, x) Hid Hx) as Hp. cbn [fst snd] in Hp. by rewrite Hp. }
  rewrite Hfold. bind_step. rewrite lines_of_file by (by apply (entries_wf (T := Z)), tokens_ok). rewrite res_fold_fmap.
  erewrite (res_fold_forall2 _ (numbered (fun st _ q => equivalence_check m max_num_errors st q)) _ exp').
  2:{ unfold tokens. apply Forall2_fmap_l.
    apply Forall2_same_length_lookup. split; [by eapply Forall2_length|]. intros i [v x] q Hi Hq [st n].
    destruct (Forall2_lookup_lr _ _ _ _ _ _ Hmap Hi Hq) as [Hv Hx]. apply (Forall_lookup_1 _ _ _ _ Hexp) in Hi as [Hid Hr].
    unfold numbered, equivalence_line. cbn [fst snd] in *. pose proof (parse_token (v, x) Hid Hr) as Hp. cbn [fst snd] in Hp. rewrite Hp. bind_val. cbn [fst snd].
    rewrite Hv. bind_val. rewrite Hx. by destruct q. }
  pose proof (agree_partition m res exp' R Hnd Hnd') as Hiff.
  destruct (equivalence_fold m max_num_errors exp') as [[-> Hno]|(st & -> & Hpos & Hst)].
  { split; [|done]. intros Hp. apply Hiff in Hp as [? _]. done. }
  bind_step. rewrite finish_spec by done. split; intros Hp.
  - apply Hiff in Hp as [Hag Hle]. rewrite bool_decide_eq_true_2; [done|]. split; [by apply Hst|done].
  - rewrite bool_decide_eq_false_2; [done|]. intros [Hz Hle]. apply Hp, Hiff. split; [by apply Hst|done].
Qed.

(** ** Termination *)

Lemma split_line_rest l line rest : split_line l = (line, Some rest) -> (length line + length rest < length l)%nat.
Proof.
  revert line. induction l as [|c l IH]; intros line; [done|]. cbn [split_line].
  destruct (Ascii.eqb c newline); [intros [= <- <-]; simpl; lia|].
  destruct (split_line l) as [line' rest']. intros [= <- ->]. specialize (IH _ eq_refl). simpl. lia.
Qed.

(** A result or an exception; undefined behaviour only if [P]. *)
Definition ends {A} (P : Prop) (r : res A) : Prop :=
  match r with Val _ | Exn _ => True | Undef => P | NoFuel => False end.

Definition infix_of (b l : text) : Prop := exists l1 l2, l = l1 ++ b ++ l2.

Lemma split_line_infix l line rest content : split_line l = (line, rest) -> (exists l0, content = l0 ++ l) ->
  (forall n, infix_of (take n line) content) /\ infix_of line content /\
  (forall r, rest = Some r -> exists l0, content = l0 ++ r).
Proof.
  intros Hs [l0 ->].
  assert (l = line ++ match rest with Some r => newline :: r | None => [] end) as Hl.
  { revert line rest Hs. induction l as [|c l IH]; intros line rest; cbn [split_line]; [by intros [= <- <-]|].
    destruct (Ascii.eqb_spec c newline) as [->|]; [by intros [= <- <-]|].
    destruct (split_line l) as [line' rest']. intros [= <- <-]. cbn [app]. by rewrite <- (IH _ _ eq_refl). }
  split; [|split].
  - intros n. eexists l0, (drop n line ++ _). by rewrite (app_assoc (take n line)), take_drop, <- Hl.
  - eexists l0, _. by rewrite <- Hl.
  - intros r ->. exists (l0 ++ line ++ [newline]). by rewrite Hl, <- !app_assoc.
Qed.

Lemma bind_ends {A B} P (m : res A) (f : A -> res B) : ends P m -> (forall a, ends P (f a)) -> ends P (m ≫= f).
Proof. intros Hm Hf. destruct m; try done. apply Hf. Qed.

(** A loop whose body refuses an empty line ends on every text. *)
Lemma lines_of_ends {A} P (f : A -> nat -> text -> res A) content st :
  (forall st n, f st n [] = fatal) -> (forall st n b, infix_of b content -> ends P (f st n b)) -> ends P (lines_of f content st).
Proof.
  intros Hempty Hf. unfold lines_of. generalize 0%nat as n.
  assert (forall fuel l st n, (length l < fuel)%nat -> (exists l0, content = l0 ++ l) ->
    ends P (read_lines f (istream_open l) st n (S fuel))) as Hgen.
  { induction fuel as [|fuel IH]; intros l st' n Hl Hsuf; [lia|]. cbn [read_lines]. unfold getline_buffer.
    cbn [good istream_open s_rest s_eof s_fail negb andb].
    destruct (split_line l) as [line rest] eqn:Hs. destruct (split_line_infix _ _ _ _ Hs Hsuf) as (Htake & Hline & Hrest).
    destruct rest as [rest|].
    - apply split_line_rest in Hs. destruct (length line <? BUFFER_SZ)%nat.
      + cbn [s_eof]. apply bind_ends; [by apply Hf|]. intros st2.
        change (mkIstream rest false false) with (istream_open rest). apply IH; [lia|by apply Hrest].
      + cbn [s_eof]. apply bind_ends; [by apply Hf|]. intros st2. cbn [read_lines getline_buffer good s_eof s_fail negb andb].
        by rewrite Hempty.
    - destruct (length line <? BUFFER_SZ)%nat; [done|].
      cbn [s_eof]. apply bind_ends; [by apply Hf|]. intros st2. cbn [read_lines getline_buffer good s_eof s_fail negb andb].
      by rewrite Hempty. }
  intros n. apply Hgen; [lia|by exists []].
Qed.

Lemma error_count_ends P max c : ends P (ERROR_COUNT max c).
Proof. unfold ERROR_COUNT. destruct (max =? 1); [done|]. cbv zeta. by destruct (_ && _). Qed.

Lemma parse_value_ends {T} `{Value T} P buffer : ends P (parse_value (T := T) buffer).
Proof.
  unfold parse_value. destruct (skip_counted 0 buffer) as [pos l]. destruct (at_end pos l); [done|].
  destruct (negb _); [done|]. destruct (strtoll l) as [v next]. destruct (skip_counted pos next) as [pos' l'].
  destruct (at_end pos' l'); [done|]. by destruct (negb _).
Qed.

Lemma relabel_ends P t m r : ends P (relabel t m r).
Proof. destruct (relabel_outcome t m r) as [[q ->]| ->]; done. Qed.

Lemma finish_ends P max c n s : ends P (finish max c n s).
Proof.
  unfold finish. apply bind_ends; [|by intros c'; destruct (0 <? c')].
  destruct (n <? s)%nat; [apply error_count_ends|done].
Qed.

Lemma check_ends P m max st q : ends P (equivalence_check m max st q).
Proof.
  destruct (equivalence_check_shape m max st q) as [(st' & -> & _)|(f & -> & _)]; [done|].
  apply bind_ends; [apply error_count_ends|done].
Qed.

Lemma read_results_ends {T} `{Value T} P path : ends P (read_results (T := T) path).
Proof.
  unfold read_results. destruct path as [content|]; [|done]. apply bind_ends; [|done].
  apply lines_of_ends; [done|]. intros st n b _. apply bind_ends; [apply parse_value_ends|].
  intros v. by destruct (st !! v.1).
Qed.

Create HintDb ends.
#[export] Hint Resolve bind_ends error_count_ends parse_value_ends relabel_ends finish_ends
  check_ends read_results_ends : ends.

(** A line of the reference holds a vertex that the map does not have. *)
Definition unmapped_line {T} `{Value T} (expected : option text) (vertex_map : option (gmap Z Z)) : Prop :=
  exists content m line v, expected = Some content /\ vertex_map = Some m /\ infix_of line content /\
    parse_value (T := T) line = Val v /\ m !! u64 v.1 = None.

Lemma remap_ends {T} `{Value T} content m line v : infix_of line content -> parse_value (T := T) line = Val v ->
  ends (unmapped_line (T := T) (Some content) m) (remap m v.1).
Proof.
  intros Hline Hv. unfold remap. destruct m as [m|]; [|done].
  destruct (m !! u64 v.1) eqn:Hm; [done|]. exists content, m, line, v. done.
Qed.

Lemma remapped_ends {T B} `{Value T} content m line (f : Z * T -> Z -> res B) : infix_of line content ->
  (forall v x, ends (unmapped_line (T := T) (Some content) m) (f v x)) ->
  ends (unmapped_line (T := T) (Some content) m) (v ← parse_value line; vertex ← remap m v.1; f v vertex).
Proof.
  intros Hline Hf. pose proof (parse_value_ends (T := T) (unmapped_line (T := T) (Some content) m) line) as Hp.
  destruct (parse_value line) as [v|x| |] eqn:Hv; [|done..]. bind_val.
  apply bind_ends; [by apply (remap_ends content m line)|]. intros x. apply Hf.
Qed.


(** ** Examples *)

Definition entry_okb {T} `{Value T} (p : Z * text) : bool :=
  (0 <=? p.1) && (p.1 <=? int64_max) && validate_value_typed p.2 && negb (isspace (cur p.2)) &&
  negb (Ascii.eqb (cur p.2) nul) && forallb (fun c => negb (Ascii.eqb c newline)) p.2 && (length p.2 <=? 4000)%nat.

Lemma entries_okb {T} `{Value T} l : forallb entry_okb l = true -> Forall entry_ok l.
Proof.
  intros Hl. apply Forall_forall. intros p Hp. rewrite forallb_forall in Hl. specialize (Hl p ltac:(by apply list_elem_of_In)).
  unfold entry_okb in Hl. repeat (apply andb_true_iff in Hl as [Hl ?]). split; [lia|]. split_and!; try done.
  - by apply negb_true_iff.
  - by apply Ascii.eqb_neq, negb_true_iff.
  - match goal with H : forallb _ p.2 = true |- _ => rewrite forallb_forall in H; intros Hin%list_elem_of_In%H; done end.
  - by apply Nat.leb_le.
Qed.

Lemma unsigned_linesb l :
  forallb (fun p => (0 <=? p.1) && (p.1 <=? int64_max) && (0 <=? p.2) && (p.2 <=? int64_max)) l = true -> unsigned_lines l.
Proof.
  intros Hl. apply Forall_forall. intros p Hp. rewrite forallb_forall in Hl. specialize (Hl p ltac:(by apply list_elem_of_In)). lia.
Qed.

Lemma exact_match_correct_witness :
  bfs (Some (written [(2, 1); (1, 0)])) (Some (written [(10, 0); (20, 1)])) 5 (Some {[10 := 1; 20 := 2]}) = Val tt.
Proof.
  unfold bfs. rewrite (exact_match_correct _ _ [(1, 0); (2, 1)]).
  - rewrite bool_decide_eq_true_2; [done|]. apply Permutation_swap.
  - by repeat constructor.
  - by repeat constructor.
  - repeat constructor.
  - apply (bool_decide_unpack _). by vm_compute.
Defined.

Lemma epsilon_match_correct_witness :
  lcc (Some (entries [(1, text_of "0.5"); (2, text_of "1")])) (Some (entries [(2, text_of "1.00001"); (1, text_of ".5")])) 0 None = Val tt.
Proof.
  apply (epsilon_match_correct _ _ [(2, strtod (text_of "1.00001")); (1, strtod (text_of ".5"))]).
  - by apply entries_okb.
  - by apply entries_okb.
  - repeat constructor.
  - split; [apply (bool_decide_unpack _); by vm_compute|]. split; [done|].
    intros v e [Hp|[Hp|Hp%elem_of_nil]%elem_of_cons]%elem_of_cons; [..|done].
    + apply (f_equal fst) in Hp as Hv. apply (f_equal snd) in Hp as He. simpl in Hv, He. rewrite Hv, He.
      eexists. split; [right; left; reflexivity|by vm_compute].
    + apply (f_equal fst) in Hp as Hv. apply (f_equal snd) in Hp as He. simpl in Hv, He. rewrite Hv, He.
      eexists. split; [left; reflexivity|by vm_compute].
Defined.

Lemma equivalence_match_correct_witness :
  wcc (Some (written [(1, 7); (2, 7); (3, 9)])) (Some (written [(3, 4); (2, 5); (1, 5)])) 1 None = Val tt /\
  wcc (Some (written [(1, 7); (2, 7); (3, 7)])) (Some (written [(3, 4); (2, 5); (1, 5)])) 1 None = fatal.
Proof.
  split.
  - eapply (equivalence_match_correct _ _ [(3, 4); (2, 5); (1, 5)]).
    1-2: by apply unsigned_linesb.
    1: by repeat constructor.
    1-2: apply (bool_decide_unpack _); by vm_compute.
    split.
    + intros v. cbn. rewrite !elem_of_cons, elem_of_nil. tauto.
    + intros u v a b a' b' Hu Hv Hu' Hv'. rewrite !elem_of_cons, elem_of_nil in Hu, Hv, Hu', Hv'.
      destruct_or! Hu; destruct_or! Hv; simplify_eq; destruct_or! Hu'; destruct_or! Hv'; by simplify_eq.
  - eapply (equivalence_match_correct _ _ [(3, 4); (2, 5); (1, 5)]).
    1-2: by apply unsigned_linesb.
    1: by repeat constructor.
    1-2: apply (bool_decide_unpack _); by vm_compute.
    intros [_ Hp]. assert (7 = 7 <-> 4 = 5) as [Hf _]; [|by specialize (Hf eq_refl)].
    apply (Hp 3 2); rewrite !elem_of_cons; tauto.
Defined.
