(* ===== verification/Readers.v ===== *)
(** [reader/]: the parsers of the files of edges. [PlainReader], [Dimacs9Reader],
    the formats by extension and the loop with which the edges are read; the
    readers for METIS and Graphalytics are in files of their own. *)

From S2P Require Import Prelude Doubles Text Edge.

(** ** Readers

    [read] gives the next edge, or [None] where the code returns false. *)

Class Reader (R : Type) := {
  read : R -> res (option WeightedEdge * R);
  reader_is_directed : R -> bool;
}.

(** [while(reader->read(edge)) ...]: all the edges. *)
Fixpoint read_all `{Reader R} (reader : R) (fuel : nat) : res (list WeightedEdge) :=
  match fuel with
  | O => NoFuel
  | S fuel =>
    '(edge, reader) ← read reader;
    match edge with
    | None => Val []
    | Some edge => edges ← read_all reader fuel; Val (edge :: edges)
    end
  end.

(** The random weights: [random_int k max] is the [k]-th number that a generator
    delivers through a distribution over [1, max], [random_real k max] one over
    [0, max). *)
Class Random := {
  random_int : nat -> Z -> Z;
  random_int_range : forall k max, 1 <= max -> 1 <= random_int k max <= max;
  random_real : nat -> double -> double;
  random_real_range : forall k max, dlt d_zero max = true ->
    dle d_zero (random_real k max) = true /\ dlt (random_real k max) max = true;
}.

(** ** The format of a file *)

Inductive Format := DIMACS9 | GRAPHLOG | LDBC_GRAPHALYTICS | METIS | PLAIN | PLAIN_WEIGHTED | BINARY_EDGE_LOG | UNKNOWN.

(** [strrchr(l, c)]: from the last [c] on. *)
Fixpoint strrchr (l : text) (c : ascii) : option text :=
  match l with
  | [] => None
  | d :: l' => match strrchr l' c with Some t => Some t | None => if Ascii.eqb d c then Some l else None end
  end.

Definition get_graph_format (path : text) : Format :=
  match strrchr path "."%char with
  | Some extension =>
    let matches x := strcasecmp_eq (drop 1 extension) (text_of x) in
    if matches "properties"%string then LDBC_GRAPHALYTICS
    else if matches "log"%string || matches "glog"%string || matches "graphlog"%string then GRAPHLOG
    else if matches "el"%string then PLAIN
    else if matches "wel"%string then PLAIN_WEIGHTED
    else if matches "metis"%string || matches "graph"%string then METIS
    else if matches "gr"%string || matches "dimacs"%string || matches "dimacs9"%string then DIMACS9
    else if matches "edgeList"%string then BINARY_EDGE_LOG
    else UNKNOWN
  | None => UNKNOWN
  end.

(** [init_fstream(path)], of the content of the file if there is one. *)
Definition init_fstream (file : option text) : res istream :=
  match file with Some content => Val (istream_open content) | None => Exn ReaderError end.

(** ** Lines *)

Definition ignore_line (line : text) : bool :=
  let line := skip_spaces line in Ascii.eqb (cur line) "#"%char || Ascii.eqb (cur line) nul.

Definition is_number (marker : text) : bool := (48 <=? code (cur marker)) && (code (cur marker) <=? 57).

(** The loop that reads lines until one that [skip_line] does not skip: whether
    the last line read is one to skip, that line, and the stream. *)
Fixpoint next_line (skip_line : text -> bool) (current_line : text) (handle : istream) (fuel : nat) :
    res (bool * text * istream) :=
  match fuel with
  | O => NoFuel
  | S fuel =>
    let '(current_line, handle) := getline handle current_line in
    let skip := skip_line current_line in
    if skip && good handle then next_line skip_line current_line handle fuel
    else Val (skip, current_line, handle)
  end.

Definition next_edge_line (handle : istream) : res (bool * text * istream) :=
  next_line ignore_line [] handle (S (length (s_rest handle))).

(** The two vertices at the start of a line and what follows them. *)
Definition parse_endpoints (current_line : text) : res (Z * Z * text) :=
  let current := skip_spaces current_line in
  if negb (is_number current) then Exn ReaderError else
  let '(source, next) := strtoull current in
  let current := skip_spaces next in
  if negb (is_number current) then Exn ReaderError else
  let '(destination, next) := strtoull current in
  Val (source, destination, next).

(** ** [PlainReader] *)

Record PlainReader := mkPlainReader {
  p_handle : istream;
  p_is_weighted : bool;
  p_max_weight : Z;
  p_random_generator : nat;
}.

Definition PlainReader_new (file : option text) (is_weighted : bool) (max_weight : Z) : res PlainReader :=
  handle ← init_fstream file; Val (mkPlainReader handle is_weighted max_weight 0).

Section plain.
Context `{Random}.

(** The edge of a line that is not ignored, with the generator after it. *)
Definition plain_edge (is_weighted : bool) (max_weight : Z) (generator : nat) (current_line : text) :
    res (WeightedEdge * nat) :=
  '(source, destination, next) ← parse_endpoints current_line;
  if is_weighted then
    let current := skip_spaces next in
    if negb (is_number current) then Exn ReaderError else
    Val (mkWeightedEdge (mkEdge source destination) (double_of_Z (strtoull current).1), generator)
  else if max_weight =? 1 then Val (mkWeightedEdge (mkEdge source destination) d_one, generator)
  else Val (mkWeightedEdge (mkEdge source destination) (double_of_Z (random_int generator max_weight)), S generator).

Definition plain_read (self : PlainReader) : res (option WeightedEdge * PlainReader) :=
  if negb (good (p_handle self)) then Val (None, self) else
  '(skip, current_line, handle) ← next_edge_line (p_handle self);
  if (skip : bool) then Val (None, mkPlainReader handle (p_is_weighted self) (p_max_weight self) (p_random_generator self))
  else
    '(edge, generator) ← plain_edge (p_is_weighted self) (p_max_weight self) (p_random_generator self) current_line;
    Val (Some edge, mkPlainReader handle (p_is_weighted self) (p_max_weight self) generator).

#[export] Instance plain_reader : Reader PlainReader := {
  read := plain_read;
  reader_is_directed := fun _ => true;
}.
End plain.

(** ** [Dimacs9Reader] *)

Record Dimacs9Reader := mkDimacs9Reader { d_handle : istream }.

(** [sizeof(m_buffer) - 1] *)
Definition DIMACS_BUFFER : nat := 1024.

Definition Dimacs9Reader_new (file : option text) : res Dimacs9Reader :=
  handle ← init_fstream file; Val (mkDimacs9Reader handle).

(** What follows the [a] of a line that represents an edge. *)
Definition parse_line (line : text) : option text :=
  match line with
  | c :: line' => if Ascii.eqb c "a"%char then Some (skip_spaces line') else None
  | [] => None
  end.

Fixpoint next_arc_line (handle : istream) (fuel : nat) : res (option text * istream) :=
  match fuel with
  | O => NoFuel
  | S fuel =>
    let '(m_buffer, handle) := getline_buffer DIMACS_BUFFER handle in
    match parse_line m_buffer with
    | Some current => Val (Some current, handle)
    | None => if good handle then next_arc_line handle fuel else Val (None, handle)
    end
  end.

Definition dimacs_edge (current : text) : res WeightedEdge :=
  if negb (is_number current) then Exn ReaderError else
  let '(source, next) := strtoull current in
  let current := skip_spaces next in
  if negb (is_number current) then Exn ReaderError else
  let '(destination, next) := strtoull current in
  let current := skip_spaces next in
  if negb (is_number current) then Exn ReaderError else
  Val (mkWeightedEdge (mkEdge source destination) (double_of_Z (strtoull current).1)).

Definition dimacs_read (self : Dimacs9Reader) : res (option WeightedEdge * Dimacs9Reader) :=
  if negb (good (d_handle self)) then Val (None, self) else
  '(line, handle) ← next_arc_line (d_handle self) (S (length (s_rest (d_handle self))));
  match line with
  | None => Val (None, mkDimacs9Reader handle)
  | Some current => edge ← dimacs_edge current; Val (Some edge, mkDimacs9Reader handle)
  end.

#[export] Instance dimacs_reader : Reader Dimacs9Reader := {
  read := dimacs_read;
  reader_is_directed := fun _ => true;
}.

(** ** Specification: the lines of a file

    The pieces of a file between newlines, the last one included. *)

Fixpoint all_lines (content : text) : list text :=
  match content with
  | [] => [[]]
  | c :: content =>
    if Ascii.eqb c newline then [] :: all_lines content
    else match all_lines content with line :: lines => (c :: line) :: lines | [] => [[c]] end
  end.

(** The edges of a list of lines, those that are skipped left out, with a parser
    that threads a state. The first line that cannot be parsed raises. *)
Fixpoint collect {G E} (skip_line : text -> bool) (parse : G -> text -> res (E * G)) (g : G)
    (lines : list text) : res (list E) :=
  match lines with
  | [] => Val []
  | line :: lines =>
    if skip_line line then collect skip_line parse g lines
    else '(edge, g) ← parse g line; edges ← collect skip_line parse g lines; Val (edge :: edges)
  end.

(** What a stream still has to deliver. *)
Definition pending (handle : istream) (lines : list text) : Prop :=
  if good handle then all_lines (s_rest handle) = lines else lines = [].

Lemma all_lines_nonempty content : all_lines content <> [].
Proof. destruct content as [|c content]; [done|]. simpl. by destruct (Ascii.eqb c newline), (all_lines content). Qed.

Lemma all_lines_length content : (length (all_lines content) <= S (length content))%nat.
Proof.
  induction content as [|c content IH]; [simpl; lia|]. cbn [all_lines]. destruct (Ascii.eqb c newline); [simpl; lia|].
  destruct (all_lines content); simpl in *; lia.
Qed.

Lemma all_lines_split content :
  all_lines content = match split_line content with
                      | (line, Some rest) => line :: all_lines rest
                      | (line, None) => [line]
                      end.
Proof.
  induction content as [|c content IH]; [done|]. cbn [all_lines split_line].
  destruct (Ascii.eqb c newline); [done|]. rewrite IH. by destruct (split_line content) as [line [rest|]].
Qed.

Lemma pending_good handle line lines : pending handle (line :: lines) -> good handle = true.
Proof. unfold pending. by destruct (good handle). Qed.

Lemma pending_open content : pending (istream_open content) (all_lines content).
Proof. done. Qed.

Lemma getline_pending handle line lines s : pending handle (line :: lines) ->
  exists handle', getline handle s = (line, handle') /\ pending handle' lines /\
    (good handle' = true -> lines <> []).
Proof.
  intros Hp. pose proof (pending_good _ _ _ Hp) as Hg. unfold pending in Hp. rewrite Hg in Hp.
  unfold getline. rewrite Hg. rewrite all_lines_split in Hp. destruct (split_line (s_rest handle)) as [l [rest|]].
  - injection Hp as <- <-. eexists. split_and!; [done|done|]. intros _. apply all_lines_nonempty.
  - injection Hp as <- <-. eexists. by split_and!.
Qed.

Lemma pending_nil handle : pending handle [] -> good handle = false.
Proof. unfold pending. destruct (good handle); [|done]. intros E. by apply all_lines_nonempty in E. Qed.

(** The next line is the first one that is not skipped. *)
Lemma next_line_spec skip_line lines : forall handle s fuel, pending handle lines -> lines <> [] ->
  (length lines <= fuel)%nat ->
  exists handle', match list_find (fun line => skip_line line = false) lines with
    | Some (i, line) =>
      next_line skip_line s handle fuel = Val (false, line, handle') /\ pending handle' (drop (S i) lines)
    | None => exists line, next_line skip_line s handle fuel = Val (true, line, handle') /\ pending handle' []
    end.
Proof.
  induction lines as [|line lines IH]; intros handle s fuel Hp Hne Hfuel; [done|].
  destruct fuel as [|fuel]; [simpl in Hfuel; lia|]. cbn [next_line list_find].
  destruct (getline_pending _ _ _ s Hp) as (h & -> & Hp' & Hg).
  destruct (skip_line line) eqn:Hskip.
  - rewrite decide_False by done. destruct (good h) eqn:Hgood.
    + destruct (IH h line fuel Hp' (Hg eq_refl)) as (h' & Hh'); [simpl in Hfuel; lia|]. exists h'.
      by destruct (list_find _ lines) as [[i l]|].
    + unfold pending in Hp'. rewrite Hgood in Hp'. subst lines. exists h. simpl. exists line. split; [done|].
      unfold pending. by rewrite Hgood.
  - rewrite decide_True by done. by exists h.
Qed.

Lemma collect_skip {G E} skip_line (parse : G -> text -> res (E * G)) lines : forall g,
  collect skip_line parse g lines =
    match list_find (fun line => skip_line line = false) lines with
    | Some (i, line) =>
      '(edge, g) ← parse g line; edges ← collect skip_line parse g (drop (S i) lines); Val (edge :: edges)
    | None => Val []
    end.
Proof.
  induction lines as [|line lines IH]; intros g; [done|]. cbn [collect list_find].
  destruct (skip_line line) eqn:Hskip.
  - rewrite decide_False by done. rewrite IH. by destruct (list_find _ lines) as [[i l]|].
  - by rewrite decide_True.
Qed.

Lemma next_edge_line_spec handle lines : pending handle lines -> lines <> [] ->
  exists handle', match list_find (fun line => ignore_line line = false) lines with
    | Some (i, line) => next_edge_line handle = Val (false, line, handle') /\ pending handle' (drop (S i) lines)
    | None => exists line, next_edge_line handle = Val (true, line, handle') /\ pending handle' []
    end.
Proof.
  intros Hp Hne. apply next_line_spec; [done..|]. unfold pending in Hp.
  destruct (good handle); [|done]. rewrite <- Hp. apply all_lines_length.
Qed.

(** ** The files that [PlainReader] accepts *)

Lemma plain_read_pending `{Random} handle w max g line lines : pending handle (line :: lines) ->
  exists handle', match list_find (fun line => ignore_line line = false) (line :: lines) with
    | Some (i, l) => plain_read (mkPlainReader handle w max g) =
        ('(edge, g) ← plain_edge w max g l; Val (Some edge, mkPlainReader handle' w max g)) /\
        pending handle' (drop (S i) (line :: lines))
    | None => plain_read (mkPlainReader handle w max g) = Val (None, mkPlainReader handle' w max g)
    end.
Proof.
  intros Hp. destruct (next_edge_line_spec handle (line :: lines) Hp) as (h & Hh); [done|]. exists h.
  unfold plain_read. cbn [p_handle p_is_weighted p_max_weight p_random_generator].
  rewrite (pending_good _ _ _ Hp). cbn [negb].
  destruct (list_find _ (line :: lines)) as [[i l]|]; [by destruct Hh as [-> Hp']|by destruct Hh as (l & -> & Hp')].
Qed.

Lemma plain_read_all_pending `{Random} w max lines : forall handle g fuel, pending handle lines ->
  (length lines < fuel)%nat ->
  read_all (mkPlainReader handle w max g) fuel = collect ignore_line (plain_edge w max) g lines.
Proof.
  induction lines as [lines IH] using (well_founded_induction (well_founded_ltof _ (@length text))).
  intros handle g fuel Hp Hfuel. destruct fuel as [|fuel]; [lia|]. cbn [read_all read plain_reader].
  destruct lines as [|line lines].
  - unfold plain_read. cbn [p_handle]. by rewrite (pending_nil _ Hp).
  - destruct (plain_read_pending handle w max g line lines Hp) as (h & Hh). rewrite collect_skip.
    destruct (list_find _ (line :: lines)) as [[i l]|]; [|by rewrite Hh].
    destruct Hh as [-> Hp']. destruct (plain_edge w max g l) as [[edge g']| | |]; try done. do 3 bind_step.
    rewrite (IH (drop (S i) (line :: lines))); [done| |done|].
    + unfold ltof. rewrite length_drop. simpl. lia.
    + rewrite length_drop. simpl in *. lia.
Qed.

(** [PlainReader] reads any file to its end: it delivers the edges of the lines
    that are neither empty nor comments, in their order, or raises at the first
    one that it cannot parse. *)
Theorem plain_reader_lines `{Random} content is_weighted max_weight generator fuel
  (Hfuel : (length (all_lines content) < fuel)%nat) :
  read_all (mkPlainReader (istream_open content) is_weighted max_weight generator) fuel =
    collect ignore_line (plain_edge is_weighted max_weight) generator (all_lines content).
Proof. by apply plain_read_all_pending. Qed.

(** The lines of a file of edges: an edge with whatever spaces around its fields
    and text after them, or a line that is skipped. *)
Inductive Line :=
  | SkippedLine (spaces : text) (comment : option text)
  | EdgeLine (lead : text) (src : Z) (sep1 : text) (dst : Z) (sep2 : text) (w : Z) (rest : text).

Definition render (l : Line) : text :=
  match l with
  | SkippedLine spaces comment => spaces ++ match comment with Some t => "#"%char :: t | None => [] end
  | EdgeLine lead src sep1 dst sep2 w rest =>
    lead ++ print_nat src ++ sep1 ++ print_nat dst ++ sep2 ++ print_nat w ++ rest
  end.

Definition blank (spaces : text) : Prop := Forall (fun c => isspace c = true) spaces /\ newline ∉ spaces.

Definition line_ok (l : Line) : Prop :=
  match l with
  | SkippedLine spaces comment => blank spaces /\ newline ∉ default [] comment
  | EdgeLine lead src sep1 dst sep2 w rest =>
    blank lead /\ blank sep1 /\ blank sep2 /\ sep1 <> [] /\ sep2 <> [] /\ newline ∉ rest /\
    isdigit (cur rest) = false /\ is_u64 src /\ is_u64 dst /\ is_u64 w
  end.

Definition line_edge (l : Line) : option (Z * Z * Z) :=
  match l with SkippedLine _ _ => None | EdgeLine _ src _ dst _ w _ => Some (src, dst, w) end.

Definition weighted (p : Z * Z * Z) : WeightedEdge := mkWeightedEdge (mkEdge p.1.1 p.1.2) (double_of_Z p.2).

Lemma skip_blank spaces rest : Forall (fun c => isspace c = true) spaces ->
  skip_spaces (spaces ++ rest) = skip_spaces rest.
Proof. induction 1 as [|c l Hc Hl IH]; [done|]. cbn [app skip_spaces]. by rewrite Hc. Qed.

Lemma space_not_digit c : isspace c = true -> isdigit c = false.
Proof. unfold isspace, isdigit. lia. Qed.

Lemma blank_cur spaces rest : blank spaces -> spaces <> [] -> isdigit (cur (spaces ++ rest)) = false.
Proof. intros [Hb _] Hne. destruct Hb as [|c l Hc]; [done|]. by apply space_not_digit. Qed.

Lemma skip_print z rest : 0 <= z -> skip_spaces (print_nat z ++ rest) = print_nat z ++ rest.
Proof. intros Hz. destruct (print_nat_cons z Hz) as (c & l & -> & Hc). by apply skip_digit. Qed.

Lemma is_number_print z rest : 0 <= z -> is_number (print_nat z ++ rest) = true.
Proof. intros Hz. destruct (print_nat_cons z Hz) as (c & l & -> & Hc). done. Qed.

(** A field of a line. *)
Lemma field_spec spaces z rest : blank spaces -> is_u64 z -> isdigit (cur rest) = false ->
  let current := skip_spaces (spaces ++ print_nat z ++ rest) in
  is_number current = true /\ strtoull current = (z, rest).
Proof.
  intros [Hb _] Hz Hr. cbn zeta. destruct Hz as [Hz Hlt]. rewrite skip_blank, skip_print by done.
  split; [by apply is_number_print|by apply strtoull_print].
Qed.

Lemma blank_cat l1 l2 : newline ∉ l1 -> newline ∉ l2 -> newline ∉ l1 ++ l2.
Proof. intros H1 H2 [?|?]%elem_of_app; auto. Qed.

Lemma print_u64_newline z : is_u64 z -> newline ∉ print_nat z.
Proof. intros [Hz _]. by apply print_nat_newline. Qed.

Lemma line_newline l : line_ok l -> newline ∉ render l.
Proof.
  destruct l as [spaces comment|lead src sep1 dst sep2 w rest]; cbn [line_ok render].
  - intros [[_ Hs] Hc]. apply blank_cat; [done|]. destruct comment as [t|]; [|by intros ?%elem_of_nil].
    apply not_elem_of_cons. split; [done|exact Hc].
  - intros ([_ ?] & [_ ?] & [_ ?] & _ & _ & ? & _ & ? & ? & ?).
    repeat apply blank_cat; auto using print_u64_newline.
Qed.

Lemma render_ignored l : line_ok l -> ignore_line (render l) = bool_decide (line_edge l = None).
Proof.
  unfold ignore_line. destruct l as [spaces comment|lead src sep1 dst sep2 w rest]; cbn [line_ok render line_edge].
  - intros [[Hb _] _]. rewrite skip_blank by done. by destruct comment.
  - intros ([Hb _] & _ & _ & _ & _ & _ & _ & [Hs _] & _). rewrite skip_blank, skip_print by done.
    destruct (print_nat_cons src Hs) as (c & l & -> & Hc). cbn [app cur].
    destruct (Ascii.eqb_spec c "#"%char) as [->|]; [done|]. by destruct (Ascii.eqb_spec c nul) as [->|].
Qed.

Lemma parse_render lead src sep1 dst sep2 w rest : line_ok (EdgeLine lead src sep1 dst sep2 w rest) ->
  parse_endpoints (render (EdgeLine lead src sep1 dst sep2 w rest)) = Val (src, dst, sep2 ++ print_nat w ++ rest) /\
  is_number (skip_spaces (sep2 ++ print_nat w ++ rest)) = true /\
  (strtoull (skip_spaces (sep2 ++ print_nat w ++ rest))).1 = w.
Proof.
  intros (Hl & H1 & H2 & N1 & N2 & _ & Hr & Hs & Hd & Hw). cbn [render]. unfold parse_endpoints.
  destruct (field_spec lead src (sep1 ++ print_nat dst ++ sep2 ++ print_nat w ++ rest)) as [-> ->];
    [done|done|by apply blank_cur|].
  destruct (field_spec sep1 dst (sep2 ++ print_nat w ++ rest)) as [-> ->]; [done|done|by apply blank_cur|].
  destruct (field_spec sep2 w rest) as [-> ->]; done.
Qed.

(** The edges that a reader delivers for the lines [ls]. *)
Definition delivers (is_weighted : bool) (max_weight : Z) (p : Z * Z * Z) (e : WeightedEdge) : Prop :=
  edge_of e = mkEdge p.1.1 p.1.2 /\
  if is_weighted then m_weight e = double_of_Z p.2 else exists z, 1 <= z <= max_weight /\ m_weight e = double_of_Z z.

Lemma plain_edge_render `{Random} is_weighted max g l p : line_ok l -> line_edge l = Some p -> 1 <= max ->
  exists e g', plain_edge is_weighted max g (render l) = Val (e, g') /\ delivers is_weighted max p e.
Proof.
  intros Hl Hp Hmax. destruct l as [|lead src sep1 dst sep2 w rest]; [done|]. injection Hp as <-.
  destruct (parse_render lead src sep1 dst sep2 w rest Hl) as (Hends & Hnum & Hw). unfold plain_edge. rewrite Hends.
  bind_step. destruct is_weighted.
  - rewrite Hnum, Hw. cbn [negb]. eexists _, _. done.
  - destruct (Z.eqb_spec max 1) as [->|Hne].
    + eexists _, _. split; [done|]. split; [done|]. by exists 1.
    + eexists _, _. split; [done|]. split; [done|]. eexists. split; [by apply random_int_range|done].
Qed.

Lemma collect_render `{Random} is_weighted max ls : forall g, Forall line_ok ls -> 1 <= max ->
  exists edges, collect ignore_line (plain_edge is_weighted max) g ((render <$> ls) ++ [[]]) = Val edges /\
    Forall2 (delivers is_weighted max) (omap line_edge ls) edges.
Proof.
  induction ls as [|l ls IH]; intros g Hls Hmax; [by exists []|]. apply Forall_cons in Hls as [Hl Hls].
  cbn [fmap list_fmap app collect omap list_omap]. rewrite render_ignored by done.
  destruct (line_edge l) as [p|] eqn:Hp; cbn [bool_decide].
  - rewrite bool_decide_eq_false_2 by done. destruct (plain_edge_render is_weighted max g l p) as (e & g' & -> & He); [done..|].
    bind_step. destruct (IH g' Hls Hmax) as (edges & -> & Hedges). bind_step. exists (e :: edges). split; [done|]. by constructor.
  - rewrite bool_decide_eq_true_2 by done. by apply IH.
Qed.

Lemma all_lines_cat line rest : newline ∉ line -> all_lines (line ++ newline :: rest) = line :: all_lines rest.
Proof. intros Hn. by rewrite all_lines_split, split_line_newline. Qed.

Lemma all_lines_file lines : Forall (fun line => newline ∉ line) lines -> all_lines (file_of lines) = lines ++ [[]].
Proof.
  induction 1 as [|line lines Hn _ IH]; [done|]. cbn [file_of mbind list_bind]. rewrite <- app_assoc. cbn [app].
  rewrite all_lines_cat by done. f_equal. exact IH.
Qed.

Lemma plain_roundtrip `{Random} is_weighted max_weight generator (ls : list Line) fuel :
  Forall line_ok ls -> 1 <= max_weight -> (S (length ls) < fuel)%nat ->
  exists edges,
    read_all (mkPlainReader (istream_open (file_of (render <$> ls))) is_weighted max_weight generator) fuel = Val edges /\
    Forall2 (delivers is_weighted max_weight) (omap line_edge ls) edges.
Proof.
  intros Hls Hmax Hfuel.
  assert (all_lines (file_of (render <$> ls)) = (render <$> ls) ++ [[]]) as Hlines.
  { apply all_lines_file, Forall_fmap. apply (Forall_impl _ _ _ Hls line_newline). }
  rewrite (plain_read_all_pending is_weighted max_weight ((render <$> ls) ++ [[]])).
  - by apply collect_render.
  - unfold pending. cbn [istream_open good s_eof s_fail negb andb s_rest]. exact Hlines.
  - rewrite length_app, length_fmap. simpl. lia.
Qed.

(** C26: printing edges and reading them back: from a file of lines that hold an edge,
    with any white space around the numbers and any text after them, between
    comments and empty lines, [PlainReader] delivers the edges in their order,
    with the weights of the file or, without weights, random ones up to the
    largest weight. *)
Theorem plain_reader_roundtrip `{Random} is_weighted max_weight generator (ls : list Line) fuel
  (Hls : Forall line_ok ls) (Hmax : 1 <= max_weight) (Hfuel : (S (length ls) < fuel)%nat) :
  exists edges,
    read_all (mkPlainReader (istream_open (file_of (render <$> ls))) is_weighted max_weight generator) fuel = Val edges /\
    Forall2 (delivers is_weighted max_weight) (omap line_edge ls) edges.
Proof. by apply plain_roundtrip. Qed.

(** ** The files that [Dimacs9Reader] accepts *)

(** The edges of the lines of a file: a line that does not fit the buffer is cut,
    and is the last one. *)
Fixpoint dimacs_lines (lines : list text) : res (list WeightedEdge) :=
  match lines with
  | [] => Val []
  | line :: lines =>
    let fits := (length line <? DIMACS_BUFFER)%nat in
    let rest := if fits then dimacs_lines lines else Val [] in
    match parse_line (if fits then line else take (DIMACS_BUFFER - 1) line) with
    | None => rest
    | Some current => edge ← dimacs_edge current; edges ← rest; Val (edge :: edges)
    end
  end.

Lemma getline_buffer_pending n handle line lines : pending handle (line :: lines) ->
  let fits := (length line <? n)%nat in
  exists handle', getline_buffer n handle = (if fits then line else take (n - 1) line, handle') /\
    pending handle' (if fits then lines else []) /\ (good handle' = true -> fits = true /\ lines <> []).
Proof.
  intros Hp. pose proof (pending_good _ _ _ Hp) as Hg. unfold pending in Hp. rewrite Hg in Hp.
  unfold getline_buffer. rewrite Hg. rewrite all_lines_split in Hp. cbn zeta. destruct (split_line (s_rest handle)) as [l [rest|]].
  - injection Hp as <- <-. destruct (length l <? n)%nat; eexists; split_and!; try done. intros _. split; [done|]. apply all_lines_nonempty.
  - injection Hp as <- <-. destruct (length l <? n)%nat; eexists; by split_and!.
Qed.

(** The lines up to the next arc. *)
Lemma next_arc_line_spec lines : forall handle fuel, pending handle lines -> lines <> [] -> (length lines <= fuel)%nat ->
  (exists current handle' lines', next_arc_line handle fuel = Val (Some current, handle') /\ pending handle' lines' /\
     (length lines' < length lines)%nat /\
     dimacs_lines lines = edge ← dimacs_edge current; edges ← dimacs_lines lines'; Val (edge :: edges)) \/
  (exists handle', next_arc_line handle fuel = Val (None, handle') /\ dimacs_lines lines = Val []).
Proof.
  induction lines as [|line lines IH]; intros handle fuel Hp Hne Hfuel; [done|].
  destruct fuel as [|fuel]; [simpl in Hfuel; lia|]. cbn [next_arc_line dimacs_lines].
  destruct (getline_buffer_pending DIMACS_BUFFER _ _ _ Hp) as (h & -> & Hp' & Hg).
  set (fits := (length line <? DIMACS_BUFFER)%nat) in *.
  destruct (parse_line _) as [current|] eqn:Hparse.
  - left. exists current, h, (if fits then lines else []). split_and!; [done|done|destruct fits; simpl; lia|].
    by destruct fits.
  - destruct (good h) eqn:Hgood.
    + destruct (Hg eq_refl) as [-> Hne']. destruct (IH h fuel Hp' Hne') as [(c & h' & ls & H1 & H2 & H3 & H4)|(h' & H1 & H2)];
        [simpl in Hfuel; lia| |]; [left|right]; [exists c, h', ls|by exists h'].
      split_and!; [done|done|simpl; lia|done].
    + right. exists h. split; [done|]. destruct fits; [|done]. unfold pending in Hp'. rewrite Hgood in Hp'. by subst lines.
Qed.

(** [Dimacs9Reader] reads any file to its end and delivers the arcs of its lines
    or raises at the first line that it cannot parse; but a line that fills the
    buffer, be it a comment, ends the file without an error. *)
Lemma dimacs_reader_lines content fuel (Hfuel : (length (all_lines content) < fuel)%nat) :
  read_all (mkDimacs9Reader (istream_open content)) fuel = dimacs_lines (all_lines content).
Proof.
  assert (forall lines handle fuel, pending handle lines -> (length lines < fuel)%nat ->
    read_all (mkDimacs9Reader handle) fuel = dimacs_lines lines) as Hgen; [|by apply Hgen].
  clear. induction lines as [lines IH] using (well_founded_induction (well_founded_ltof _ (@length text))).
  intros handle fuel Hp Hfuel. destruct fuel as [|fuel]; [lia|]. cbn [read_all read dimacs_reader].
  unfold dimacs_read. cbn [d_handle]. destruct lines as [|line lines]; [by rewrite (pending_nil _ Hp)|].
  rewrite (pending_good _ _ _ Hp). cbn [negb].
  destruct (next_arc_line_spec (line :: lines) handle (S (length (s_rest handle))) Hp)
    as [(c & h & ls & -> & Hp' & Hl & ->)|(h & -> & ->)]; [done| | |done].
  - unfold pending in Hp. destruct (good handle); [rewrite <- Hp; apply all_lines_length|done].
  - bind_step. destruct (dimacs_edge c) as [edge| | |]; try done. do 3 bind_step.
    rewrite (IH ls Hl h fuel Hp'); [done|]. simpl in *. lia.
Qed.

(** ** Examples *)

Definition const_random : Random.
Proof.
  refine {| random_int := fun _ _ => 1; random_int_range := _;
            random_real := fun _ _ => d_zero; random_real_range := _ |}.
  - intros k max Hmax. lia.
  - intros k max Hmax. done.
Defined.

Definition ex_wel : list Line :=
  [SkippedLine [] (Some (text_of " a graph")); EdgeLine [] 1 [space] 2 [space] 10 [];
   SkippedLine [space] None; EdgeLine [space] 2 [space; space] 18446744073709551615 [space] 7 (text_of " %")].

#[export] Instance line_ok_dec l : Decision (line_ok l).
Proof. destruct l; unfold line_ok, blank, is_u64; apply _. Defined.

Lemma ex_wel_ok : Forall line_ok ex_wel.
Proof. apply (bool_decide_unpack (Forall line_ok ex_wel)). by vm_compute. Qed.

Lemma plain_reader_lines_witness :
  let content := text_of "# a graph
1 2 x" in
  (length (all_lines content) < 3)%nat /\
  @read_all _ (@plain_reader const_random) (mkPlainReader (istream_open content) true 9 0) 3 = Exn ReaderError.
Proof. split; [vm_compute; lia|]. rewrite (@plain_reader_lines const_random); [by vm_compute|vm_compute; lia]. Defined.

Lemma plain_reader_roundtrip_witness :
  exists edges,
    @read_all _ (@plain_reader const_random) (mkPlainReader (istream_open (file_of (render <$> ex_wel))) true 1 0) 9 = Val edges /\
    Forall2 (delivers true 1) [(1, 2, 10); (2, 18446744073709551615, 7)] edges.
Proof. apply (@plain_reader_roundtrip const_random true 1 0 ex_wel 9 ex_wel_ok); [done|vm_compute; lia]. Defined.

Definition ex_dimacs : text := text_of "c a graph
a 1 2 803
" ++ replicate 1024 "c"%char ++ text_of "
a 2 3 5
".

(** The second arc is lost. *)
Lemma dimacs_reader_lines_witness :
  (length (all_lines ex_dimacs) < 6)%nat /\
  read_all (mkDimacs9Reader (istream_open ex_dimacs)) 6 = Val [weighted (1, 2, 803)].
Proof. split; [vm_compute; lia|]. rewrite dimacs_reader_lines; [by vm_compute|vm_compute; lia]. Defined.

Example ex_formats : get_graph_format (text_of "/data/a.b/graph.WEL") = PLAIN_WEIGHTED /\ get_graph_format (text_of "kron") = UNKNOWN.
Proof. by vm_compute. Qed.
