(* ===== verification/MetisReader.v ===== *)
(** [reader/metis_reader]: the adjacency lists of a METIS file, one vertex per
    line. *)

From S2P Require Import Prelude Doubles Text Edge Readers.

Record MetisReader := mkMetisReader {
  m_handle : istream;
  m_current_line : text;
  m_ptr : option text; (* m_current_line_read_value_ptr *)
  m_num_vertices : Z;
  m_num_vertex_weights : nat;
  m_has_edge_weight : bool;
  m_is_edge_weight_constant : bool;
  m_edge_vertex1 : Z;
  m_edge_weight : Z;
  m_random_generator : nat;
}.

Definition with_line (self : MetisReader) (handle : istream) (line : text) (ptr : option text) : MetisReader :=
  mkMetisReader handle line ptr (m_num_vertices self) (m_num_vertex_weights self) (m_has_edge_weight self)
    (m_is_edge_weight_constant self) (m_edge_vertex1 self) (m_edge_weight self) (m_random_generator self).

Definition with_ptr (self : MetisReader) (ptr : option text) : MetisReader :=
  with_line self (m_handle self) (m_current_line self) ptr.

Definition with_vertex1 (self : MetisReader) (v : Z) : MetisReader :=
  mkMetisReader (m_handle self) (m_current_line self) (m_ptr self) (m_num_vertices self) (m_num_vertex_weights self)
    (m_has_edge_weight self) (m_is_edge_weight_constant self) v (m_edge_weight self) (m_random_generator self).

Definition with_weight (self : MetisReader) (weight : Z) (generator : nat) : MetisReader :=
  mkMetisReader (m_handle self) (m_current_line self) (m_ptr self) (m_num_vertices self) (m_num_vertex_weights self)
    (m_has_edge_weight self) (m_is_edge_weight_constant self) (m_edge_vertex1 self) weight generator.

(** [regex_search] for white space and a percent sign at the start of the line. *)
Definition is_comment (line : text) : bool := Ascii.eqb (cur (skip_spaces line)) "%"%char.

(** Whether there is a next line that is not a comment. The cursor stays where it
    is when there is none. *)
Definition fetch_next_line (self : MetisReader) : res (bool * MetisReader) :=
  if negb (good (m_handle self)) then Val (false, self) else
  '(comment, line, handle) ← next_line is_comment (m_current_line self) (m_handle self) (S (length (s_rest (m_handle self))));
  if (comment : bool) then Val (false, with_line self handle line (m_ptr self))
  else Val (true, with_line self handle line (Some (skip_spaces line))).

Definition read_value (self : MetisReader) : option Z * MetisReader :=
  match m_ptr self with
  | Some ptr =>
    if is_number ptr then
      let '(value, next) := strtoull ptr in (Some value, with_ptr self (Some (skip_spaces next)))
    else (None, self)
  | None => (None, self)
  end.

(** ** The header *)

(** The longest prefix of digits, with what follows it. *)
Fixpoint span_digits (l : text) : text * text :=
  match l with
  | c :: l' => if isdigit c then let '(d, r) := span_digits l' in (c :: d, r) else ([], l)
  | [] => ([], [])
  end.

Definition binary (c : ascii) : bool := Ascii.eqb c "0"%char || Ascii.eqb c "1"%char.

(** A group of digits after white space. *)
Definition match_number (l : text) : option (text * text) :=
  let '(d, r) := span_digits (skip_spaces l) in if bool_decide (d = []) then None else Some (d, r).

Definition starts_space (l : text) : bool := isspace (cur l).

(** The groups of the regular expression of the header: the number of vertices,
    the number of edges, the format, the number of weights of a vertex. The
    groups are of different characters than what separates them, so that there
    is one way to match. *)
Record Header := mkHeader { h_vertices : text; h_format : option text; h_ncon : option text }.

Definition match_header (line : text) : option Header :=
  match match_number line with
  | Some (vertices, r) =>
    if starts_space r then
      match match_number r with
      | Some (_, r) =>
        if bool_decide (skip_spaces r = []) then Some (mkHeader vertices None None)
        else if starts_space r then
          let '(format, r) := span_digits (skip_spaces r) in
          if (length format =? 3)%nat && forallb binary format then
            if bool_decide (skip_spaces r = []) then Some (mkHeader vertices (Some format) None)
            else if starts_space r then
              match match_number r with
              | Some (ncon, r) =>
                if bool_decide (skip_spaces r = []) then Some (mkHeader vertices (Some format) (Some ncon)) else None
              | None => None
              end
            else None
          else None
        else None
      | None => None
      end
    else None
  | None => None
  end.

(** [stoull] and [stoi] of a group of digits. *)
Definition stoull (group : text) : res Z :=
  let v := (scan_digits 0 group).1 in if v <? 2 ^ 64 then Val v else Exn OutOfRange.

Definition stoi (group : text) : res Z :=
  let v := (scan_digits 0 group).1 in if v <? 2 ^ 31 then Val v else Exn OutOfRange.

Definition flag (format : text) (i : nat) : bool :=
  match format !! i with Some c => Ascii.eqb c "1"%char | None => false end.

(** The number of weights to skip for each vertex. *)
Definition vertex_weights (format : text) (ncon : option text) : res nat :=
  match ncon with
  | Some group =>
    n ← stoi group;
    if Bool.eqb (n =? 0) (flag format 1) then Undef (* the two assertions *)
    else Val (Z.to_nat (Z.b2z (flag format 0) + n))
  | None => Val (Nat.b2n (flag format 0) + Nat.b2n (flag format 1))%nat
  end.

Definition MetisReader_new (file : option text) : res MetisReader :=
  handle ← init_fstream file;
  '(_, self) ← fetch_next_line (mkMetisReader handle [] None 0 0 false false 0 0 0);
  match match_header (m_current_line self) with
  | None => Exn ReaderError
  | Some header =>
    num_vertices ← stoull (h_vertices header);
    match h_format header with
    | None => Val (mkMetisReader (m_handle self) (m_current_line self) None num_vertices 0 false true 0 1 0)
    | Some format =>
      n ← vertex_weights format (h_ncon header);
      Val (mkMetisReader (m_handle self) (m_current_line self) None num_vertices n (flag format 2) false 0 0 0)
    end
  end.

(** ** The edges *)

Fixpoint skip_weights (self : MetisReader) (n : nat) : res MetisReader :=
  match n with
  | O => Val self
  | S n => let '(value, self) := read_value self in match value with Some _ => skip_weights self n | None => Exn ReaderError end
  end.

(** The next destination, on this line or the next; [None] ends the reading. *)
Definition next_destination (self : MetisReader) : res (option Z * MetisReader) :=
  let '(dest_vertex, self) := read_value self in
  match dest_vertex with
  | Some _ => Val (dest_vertex, self)
  | None =>
    '(fetched, self) ← fetch_next_line self;
    if negb fetched then Val (None, self) else
    let self := with_vertex1 self (u64 (m_edge_vertex1 self + 1)) in
    if m_num_vertices self <? m_edge_vertex1 self then Exn ReaderError else
    self ← skip_weights self (m_num_vertex_weights self);
    Val (read_value self)
  end.

Section metis.
Context `{Random} (max_weight : Z).

Definition read_weight (self : MetisReader) : res MetisReader :=
  if m_is_edge_weight_constant self then
    if m_has_edge_weight self then Undef else Val self
  else if m_has_edge_weight self then
    let '(info_weight, self) := read_value self in
    match info_weight with
    | None => Exn ReaderError
    | Some weight => if 2147483647 <? weight then Exn ReaderError else Val (with_weight self weight (m_random_generator self))
    end
  else Val (with_weight self (random_int (m_random_generator self) max_weight) (S (m_random_generator self))).

Definition metis_read (self : MetisReader) : res (option WeightedEdge * MetisReader) :=
  '(dest_vertex, self) ← next_destination self;
  match dest_vertex with
  | None => Val (None, self)
  | Some m_edge_vertex2 =>
    self ← read_weight self;
    Val (Some (mkWeightedEdge (mkEdge (m_edge_vertex1 self) m_edge_vertex2) (double_of_Z (m_edge_weight self))), self)
  end.

#[export] Instance metis_reader : Reader MetisReader := {
  read := metis_read;
  reader_is_directed := fun _ => true;
}.
End metis.

(** ** METIS files

    The lines after the header: a comment, or the weights of a vertex and its
    edges, with the weight of each edge. *)

Inductive Item := Comment (spaces comment : text) | Vertex (weights : list Z) (edges : list (Z * Z)).

(** What the header says: vertices, edges, and the flags of the format (sizes,
    vertex weights, edge weights). *)
Record Meta := mkMeta { mt_vertices : Z; mt_edges : Z; mt_format : option (bool * bool * bool) }.

Definition bit_char (b : bool) : ascii := if b then "1"%char else "0"%char.

Definition header_line (m : Meta) : text :=
  print_nat (mt_vertices m) ++ space :: print_nat (mt_edges m) ++
  match mt_format m with Some (s, v, e) => [space; bit_char s; bit_char v; bit_char e] | None => [] end.

Definition mt_weights (m : Meta) : nat := match mt_format m with Some (s, v, _) => Nat.b2n s + Nat.b2n v | None => 0 end.

Definition mt_has_edge_weight (m : Meta) : bool := match mt_format m with Some (_, _, e) => e | None => false end.

Definition mt_constant (m : Meta) : bool := bool_decide (mt_format m = None).

Definition numbers_line (zs : list Z) : text := zs ≫= fun z => space :: print_nat z.

Definition flat_edges (has_weight : bool) (edges : list (Z * Z)) : list Z :=
  edges ≫= fun e => if has_weight then [e.1; e.2] else [e.1].

Definition item_line (m : Meta) (i : Item) : text :=
  match i with
  | Comment spaces comment => spaces ++ "%"%char :: comment
  | Vertex weights edges => numbers_line (weights ++ flat_edges (mt_has_edge_weight m) edges)
  end.

(** A file, with or without a newline at its end. *)
Definition metis_file (m : Meta) (items : list Item) (newline_at_end : bool) : text :=
  header_line m ++ ((item_line m <$> items) ≫= fun line => newline :: line) ++ (if newline_at_end then [newline] else []).

Definition item_ok (m : Meta) (i : Item) : Prop :=
  match i with
  | Comment spaces comment => blank spaces /\ newline ∉ comment
  | Vertex weights edges =>
    length weights = mt_weights m /\ Forall is_u64 weights /\
    Forall (fun e => is_u64 e.1 /\ 0 <= e.2 <= 2147483647) edges
  end.

Section metis_spec.
Context `{Random} (max_weight : Z).

(** The weight of an edge, [g] being the number of edges before it. *)
Definition weight_of (m : Meta) (g : nat) (w : Z) : Z :=
  if mt_constant m then 1 else if mt_has_edge_weight m then w else random_int g max_weight.

Fixpoint vertex_edges (m : Meta) (v : Z) (g : nat) (edges : list (Z * Z)) : list WeightedEdge :=
  match edges with
  | [] => []
  | (d, w) :: edges => mkWeightedEdge (mkEdge v d) (double_of_Z (weight_of m g w)) :: vertex_edges m v (S g) edges
  end.

(** What the reader makes of a file, after [v] vertices and [g] edges. *)
Fixpoint outcome (m : Meta) (newline_at_end : bool) (v : Z) (g : nat) (items : list Item) : res (list WeightedEdge) :=
  match items with
  | [] =>
    if newline_at_end then
      if (mt_vertices m <? v + 1) || negb (mt_weights m =? 0)%nat then Exn ReaderError else Val []
    else Val []
  | Comment _ _ :: items => outcome m newline_at_end v g items
  | Vertex _ edges :: items =>
    if mt_vertices m <? v + 1 then Exn ReaderError
    else if bool_decide (edges = []) then Val []
    else rest ← outcome m newline_at_end (v + 1) (g + length edges) items; Val (vertex_edges m (v + 1) g edges ++ rest)
  end.

(** The edges of all the vertices of a file. *)
Fixpoint all_edges (m : Meta) (v : Z) (g : nat) (items : list Item) : list WeightedEdge :=
  match items with
  | [] => []
  | Comment _ _ :: items => all_edges m v g items
  | Vertex _ edges :: items => vertex_edges m (v + 1) g edges ++ all_edges m (v + 1) (g + length edges) items
  end.

Definition is_vertex (i : Item) : bool := match i with Vertex _ _ => true | Comment _ _ => false end.

(** ** Lines of numbers *)

Definition cursor (zs : list Z) : text := skip_spaces (numbers_line zs).

Lemma cursor_cons z zs : 0 <= z -> cursor (z :: zs) = print_nat z ++ numbers_line zs.
Proof. intros Hz. unfold cursor, numbers_line. cbn [mbind list_bind app]. change (skip_spaces (space :: ?x)) with (skip_spaces x). by apply skip_print. Qed.

Lemma cursor_cur zs : isdigit (cur (numbers_line zs)) = false.
Proof. by destruct zs. Qed.

Lemma read_value_cons self z zs : m_ptr self = Some (cursor (z :: zs)) -> is_u64 z ->
  read_value self = (Some z, with_ptr self (Some (cursor zs))).
Proof.
  intros Hp Hz. unfold read_value. rewrite Hp, cursor_cons by apply Hz. rewrite is_number_print by apply Hz.
  by rewrite strtoull_print by (done || apply cursor_cur).
Qed.

Lemma read_value_nil self : m_ptr self = Some (cursor []) -> read_value self = (None, self).
Proof. intros Hp. unfold read_value. by rewrite Hp. Qed.

Lemma with_ptr_twice self p q : with_ptr (with_ptr self p) q = with_ptr self q.
Proof. done. Qed.

Lemma skip_weights_spec ws : forall self zs, m_ptr self = Some (cursor (ws ++ zs)) -> Forall is_u64 ws ->
  skip_weights self (length ws) = Val (with_ptr self (Some (cursor zs))).
Proof.
  induction ws as [|w ws IH]; intros self zs Hp Hws.
  - cbn [app] in Hp. destruct self. cbn in Hp. by subst.
  - apply Forall_cons in Hws as [Hw Hws]. cbn [length skip_weights]. rewrite (read_value_cons self w (ws ++ zs)) by done.
    by rewrite (IH _ zs) by done.
Qed.

Lemma numbers_newline zs : Forall (fun z => 0 <= z) zs -> newline ∉ numbers_line zs.
Proof.
  induction 1 as [|z zs Hz _ IH]; [by intros ?%elem_of_nil|]. unfold numbers_line in *. cbn [mbind list_bind app].
  apply not_elem_of_cons. split; [done|]. apply blank_cat; [by apply print_nat_newline|exact IH].
Qed.

Lemma flat_edges_u64 b edges : Forall (fun e : Z * Z => is_u64 e.1 /\ 0 <= e.2 <= 2147483647) edges -> Forall is_u64 (flat_edges b edges).
Proof.
  induction 1 as [|e edges [H1 H2] _ IH]; [constructor|]. unfold flat_edges in *. cbn [mbind list_bind].
  apply Forall_app. split; [|exact IH]. unfold is_u64 in *. destruct b; repeat constructor; lia.
Qed.

Lemma item_newline m i : item_ok m i -> newline ∉ item_line m i.
Proof.
  destruct i as [spaces comment|weights edges]; cbn [item_ok item_line].
  - intros [[_ Hs] Hc]. apply blank_cat; [done|]. by apply not_elem_of_cons.
  - intros (_ & Hw & He). apply numbers_newline, Forall_app. split.
    + apply (Forall_impl _ _ _ Hw). intros z [? _]. done.
    + apply (Forall_impl _ _ _ (flat_edges_u64 _ _ He)). intros z [? _]. done.
Qed.

Lemma item_comment m i : item_ok m i -> is_comment (item_line m i) = negb (is_vertex i).
Proof.
  destruct i as [spaces comment|weights edges]; cbn [item_ok item_line is_vertex]; unfold is_comment.
  - intros [[Hb _] _]. by rewrite skip_blank.
  - intros (_ & Hw & He). assert (Forall is_u64 (weights ++ flat_edges (mt_has_edge_weight m) edges)) as Hall.
    { apply Forall_app. split; [done|by apply flat_edges_u64]. }
    destruct Hall as [|z zs [Hz _]]; [done|]. fold (cursor (z :: zs)). rewrite cursor_cons by done.
    destruct (print_nat_cons z Hz) as (c & l & -> & Hc). cbn [app cur]. by destruct (Ascii.eqb_spec c "%"%char) as [->|].
Qed.

(** ** Reading a vertex *)

(** The reader after [v] vertices and [g] edges. *)
Record at_vertex (m : Meta) (v : Z) (g : nat) (self : MetisReader) : Prop := {
  av_vertices : m_num_vertices self = mt_vertices m;
  av_weights : m_num_vertex_weights self = mt_weights m;
  av_has : m_has_edge_weight self = mt_has_edge_weight m;
  av_constant : m_is_edge_weight_constant self = mt_constant m;
  av_vertex1 : m_edge_vertex1 self = v;
  av_weight : mt_constant m = true -> m_edge_weight self = 1;
  av_generator : mt_constant m = false -> mt_has_edge_weight m = false -> m_random_generator self = g;
}.

Lemma at_vertex_ptr m v g self p : at_vertex m v g self -> at_vertex m v g (with_ptr self p).
Proof. by intros []. Qed.

Lemma constant_plain m : mt_constant m = true -> mt_has_edge_weight m = false.
Proof. unfold mt_constant, mt_has_edge_weight. intros E%bool_decide_eq_true. by rewrite E. Qed.

(** One edge. *)
Lemma metis_read_edge m v g self d w edges : at_vertex m v g self ->
  m_ptr self = Some (cursor (flat_edges (mt_has_edge_weight m) ((d, w) :: edges))) ->
  is_u64 d -> 0 <= w <= 2147483647 ->
  exists self', metis_read max_weight self =
      Val (Some (mkWeightedEdge (mkEdge v d) (double_of_Z (weight_of m g w))), self') /\
    at_vertex m v (S g) self' /\ m_ptr self' = Some (cursor (flat_edges (mt_has_edge_weight m) edges)) /\
    m_handle self' = m_handle self.
Proof.
  intros A Hp Hd Hw. unfold metis_read, next_destination. pose proof (constant_plain m) as Hconst.
  rewrite (read_value_cons self d ((if mt_has_edge_weight m then [w] else []) ++ flat_edges (mt_has_edge_weight m) edges));
    [|rewrite Hp; by destruct (mt_has_edge_weight m)|done].
  bind_step. unfold read_weight, weight_of. cbn [with_ptr with_line m_is_edge_weight_constant m_has_edge_weight].
  rewrite (av_constant _ _ _ _ A), (av_has _ _ _ _ A). destruct (mt_constant m) eqn:Ec.
  - rewrite (Hconst eq_refl). eexists. split_and!.
    + bind_step. cbn [with_ptr with_line m_edge_vertex1 m_edge_weight].
      by rewrite (av_vertex1 _ _ _ _ A), (av_weight _ _ _ _ A Ec).
    + apply at_vertex_ptr. destruct A. split; auto; congruence.
    + done.
    + done.
  - destruct (mt_has_edge_weight m) eqn:Eh.
    + rewrite (read_value_cons _ w (flat_edges true edges)); [|done|unfold is_u64; lia].
      rewrite (proj2 (Z.ltb_ge _ _)) by lia. eexists. split_and!.
      * bind_step. cbn [with_ptr with_line with_weight m_edge_vertex1 m_edge_weight]. by rewrite (av_vertex1 _ _ _ _ A).
      * destruct A. split; cbn; congruence.
      * done.
      * done.
    + eexists. split_and!.
      * bind_step. cbn [with_ptr with_line with_weight m_edge_vertex1 m_edge_weight m_random_generator].
        by rewrite (av_vertex1 _ _ _ _ A), (av_generator _ _ _ _ A).
      * pose proof (av_generator _ _ _ _ A Ec Eh). destruct A. split; cbn; congruence.
      * done.
      * done.
Qed.

(** The edges of a vertex. *)
Lemma read_all_vertex m v edges : forall g self fuel, at_vertex m v g self ->
  m_ptr self = Some (cursor (flat_edges (mt_has_edge_weight m) edges)) ->
  Forall (fun e => is_u64 e.1 /\ 0 <= e.2 <= 2147483647) edges ->
  exists self', at_vertex m v (g + length edges) self' /\ m_ptr self' = Some (cursor []) /\ m_handle self' = m_handle self /\
    @read_all _ (metis_reader max_weight) self (length edges + fuel) =
      rest ← @read_all _ (metis_reader max_weight) self' fuel; Val (vertex_edges m v g edges ++ rest).
Proof.
  induction edges as [|[d w] edges IH]; intros g self fuel A Hp Hok.
  - exists self. rewrite Nat.add_0_r. split_and!; [done|done|done|]. cbn [length Nat.add vertex_edges app].
    by destruct (read_all self fuel).
  - apply Forall_cons in Hok as [[Hd Hw] Hok].
    destruct (metis_read_edge m v g self d w edges A Hp Hd Hw) as (s1 & Hr & A1 & Hp1 & Hh1).
    destruct (IH (S g) s1 fuel A1 Hp1 Hok) as (s2 & A2 & Hp2 & Hh2 & E). exists s2.
    split_and!; [by replace (g + length ((d, w) :: edges))%nat with (S g + length edges)%nat by (simpl; lia)|done|congruence|].
    cbn [length Nat.add read_all read metis_reader]. rewrite Hr. bind_step. rewrite E.
    by destruct (read_all s2 fuel).
Qed.

(** ** Reading a file *)

Lemma fetch_spec self lines : pending (m_handle self) lines ->
  match list_find (fun line => is_comment line = false) lines with
  | Some (i, line) => exists h, fetch_next_line self = Val (true, with_line self h line (Some (skip_spaces line))) /\
      pending h (drop (S i) lines)
  | None => exists self', fetch_next_line self = Val (false, self')
  end.
Proof.
  intros Hp. unfold fetch_next_line. destruct lines as [|line lines].
  - rewrite (pending_nil _ Hp). by exists self.
  - destruct (next_line_spec is_comment (line :: lines) (m_handle self) (m_current_line self)
      (S (length (s_rest (m_handle self)))) Hp) as (h & Hh); [done| |].
    { pose proof (pending_good _ _ _ Hp) as Hg. unfold pending in Hp. rewrite Hg in Hp. rewrite <- Hp. apply all_lines_length. }
    rewrite (pending_good _ _ _ Hp). cbn [negb].
    destruct (list_find _ (line :: lines)) as [[i l]|].
    + destruct Hh as [-> Hp']. by exists h.
    + destruct Hh as (l & -> & _). by eexists.
Qed.

Definition comment_only (items : list Item) : Prop := Forall (fun i => is_vertex i = false) items.

Lemma items_cases items : comment_only items \/
  exists cs ws es rest, items = cs ++ Vertex ws es :: rest /\ comment_only cs.
Proof.
  induction items as [|[s c|ws es] items IH]; [left; apply Forall_nil_2| |right; exists [], ws, es, items; split; [done|apply Forall_nil_2]].
  destruct IH as [IH|(cs & ws & es & rest & -> & Hcs)]; [left; by apply Forall_cons|right].
  exists (Comment s c :: cs), ws, es, rest. split; [done|by apply Forall_cons].
Qed.

Lemma outcome_comments m b v g cs rest : comment_only cs -> outcome m b v g (cs ++ rest) = outcome m b v g rest.
Proof. induction 1 as [|[s c|ws es] cs Hc _ IH]; done. Qed.

Lemma find_comments m cs line lines : Forall (item_ok m) cs -> comment_only cs -> is_comment line = false ->
  list_find (fun line => is_comment line = false) ((item_line m <$> cs) ++ line :: lines) = Some (length cs, line).
Proof.
  intros Hok Hcs Hline. induction Hcs as [|i cs Hi _ IH]; cbn [fmap list_fmap app list_find].
  - by rewrite decide_True.
  - apply Forall_cons in Hok as [Hi' Hok]. rewrite decide_False by (by rewrite (item_comment m), Hi). by rewrite IH.
Qed.

Lemma find_comments_only m cs : Forall (item_ok m) cs -> comment_only cs ->
  list_find (fun line => is_comment line = false) (item_line m <$> cs) = None.
Proof.
  intros Hok Hcs. induction Hcs as [|i cs Hi _ IH]; [done|]. apply Forall_cons in Hok as [Hi' Hok].
  cbn [fmap list_fmap list_find]. rewrite decide_False by (by rewrite (item_comment m), Hi). by rewrite IH.
Qed.

(** What a line does to the reader that has read the line before. *)
Lemma next_destination_line m v g self h line zs : at_vertex m v g self -> read_value self = (None, self) ->
  fetch_next_line self = Val (true, with_line self h line (Some (cursor zs))) -> 0 <= v < 2 ^ 64 - 1 ->
  next_destination self =
    if mt_vertices m <? v + 1 then Exn ReaderError
    else self ← skip_weights (with_vertex1 (with_line self h line (Some (cursor zs))) (v + 1)) (mt_weights m);
         Val (read_value self).
Proof.
  intros A Hr Hf Hv. unfold next_destination. rewrite Hr, Hf. bind_step. cbn [negb].
  change (m_num_vertices (with_vertex1 ?s ?x)) with (m_num_vertices s).
  change (m_num_vertex_weights (with_vertex1 ?s ?x)) with (m_num_vertex_weights s).
  change (m_edge_vertex1 (with_vertex1 ?s ?x)) with x.
  change (m_edge_vertex1 (with_line ?s _ _ _)) with (m_edge_vertex1 s).
  change (m_num_vertices (with_line ?s _ _ _)) with (m_num_vertices s).
  change (m_num_vertex_weights (with_line ?s _ _ _)) with (m_num_vertex_weights s).
  rewrite (av_vertices _ _ _ _ A), (av_weights _ _ _ _ A), (av_vertex1 _ _ _ _ A).
  by rewrite u64_id by (unfold is_u64; lia).
Qed.

(** After the weights of a vertex the reader stands before its edges. *)
Lemma next_destination_vertex m v g self h ws es : at_vertex m v g self -> read_value self = (None, self) ->
  item_ok m (Vertex ws es) ->
  fetch_next_line self = Val (true, with_line self h (item_line m (Vertex ws es)) (Some (skip_spaces (item_line m (Vertex ws es))))) ->
  0 <= v < 2 ^ 64 - 1 ->
  exists self', at_vertex m (v + 1) g self' /\ m_ptr self' = Some (cursor (flat_edges (mt_has_edge_weight m) es)) /\
    m_handle self' = h /\
    next_destination self = if mt_vertices m <? v + 1 then Exn ReaderError else Val (read_value self').
Proof.
  intros A Hr (Hlen & Hws & _) Hf Hv.
  rewrite (next_destination_line m v g self h _ (ws ++ flat_edges (mt_has_edge_weight m) es) A Hr Hf Hv).
  eexists. split_and!; [..|destruct (mt_vertices m <? v + 1); [done|]; rewrite <- Hlen, (skip_weights_spec ws _ (flat_edges (mt_has_edge_weight m) es)) by done; done].
  - apply at_vertex_ptr. by destruct A.
  - done.
  - done.
Qed.

Lemma read_all_S self fuel :
  @read_all _ (metis_reader max_weight) self (S fuel) =
    '(edge, self) ← metis_read max_weight self;
    match edge with
    | None => Val []
    | Some edge => edges ← @read_all _ (metis_reader max_weight) self fuel; Val (edge :: edges)
    end.
Proof. done. Qed.

Lemma metis_read_none self : next_destination self = Val (None, self) -> metis_read max_weight self = Val (None, self).
Proof. intros E. unfold metis_read. by rewrite E. Qed.

(** The number of edges of the items bounds the number of calls. *)
Definition edges_of (i : Item) : nat := match i with Vertex _ es => length es | Comment _ _ => 0 end.

Lemma read_items m b n : forall items v g self fuel, (length items <= n)%nat -> Forall (item_ok m) items ->
  at_vertex m v g self -> read_value self = (None, self) ->
  pending (m_handle self) ((item_line m <$> items) ++ if b : bool then [[]] else []) ->
  0 <= v <= mt_vertices m -> mt_vertices m < 2 ^ 64 - 1 -> (sum_list_with edges_of items < fuel)%nat ->
  @read_all _ (metis_reader max_weight) self fuel = outcome m b v g items.
Proof.
  induction n as [n IH] using lt_wf_ind. intros items v g self fuel Hn Hok A Hr Hp Hv Hm Hfuel.
  destruct fuel as [|fuel]; [lia|]. destruct (items_cases items) as [Hcs|(cs & ws & es & rest & -> & Hcs)].
  - rewrite <- (app_nil_r items), outcome_comments by done. cbn [outcome]. apply fetch_spec in Hp. destruct b.
    + rewrite (find_comments m items [] []) in Hp by done. destruct Hp as (h & Hf & _).
      rewrite read_all_S. unfold metis_read. rewrite (next_destination_line m v g self h [] [] A Hr Hf) by lia.
      destruct (mt_vertices m <? v + 1); [done|]. by destruct (mt_weights m).
    + rewrite app_nil_r, (find_comments_only m items) in Hp by done. destruct Hp as (self' & Hf).
      rewrite read_all_S. unfold metis_read, next_destination. by rewrite Hr, Hf.
  - apply Forall_app in Hok as [Hok1 [Hok2 Hok3]%Forall_cons]. rewrite outcome_comments by done.
    rewrite fmap_app, <- app_assoc in Hp. cbn [fmap list_fmap app] in Hp. apply fetch_spec in Hp.
    rewrite (find_comments m cs) in Hp by (done || by rewrite (item_comment m)). destruct Hp as (h & Hf & Hp').
    destruct (next_destination_vertex m v g self h ws es A Hr Hok2 Hf) as (s1 & A1 & Hp1 & Hh1 & E); [lia|].
    cbn [outcome]. destruct (Z.ltb_spec (mt_vertices m) (v + 1)) as [Hlt|Hge].
    { rewrite read_all_S. unfold metis_read. by rewrite E. }
    destruct es as [|e es].
    { rewrite read_all_S. unfold metis_read. rewrite E, read_value_nil by done. done. }
    rewrite bool_decide_eq_false_2 by done.
    assert (@read_all _ (metis_reader max_weight) self (S fuel) = @read_all _ (metis_reader max_weight) s1 (S fuel)) as ->.
    { rewrite !read_all_S. unfold metis_read. rewrite E. unfold next_destination.
      destruct e as [d w]. destruct Hok2 as (_ & _ & [[Hd _] _]%Forall_cons).
      rewrite (read_value_cons s1 d ((if mt_has_edge_weight m then [w] else []) ++ flat_edges (mt_has_edge_weight m) es));
        [done|rewrite Hp1; by destruct (mt_has_edge_weight m)|done]. }
    rewrite sum_list_with_app in Hfuel. cbn [sum_list_with edges_of] in Hfuel.
    destruct (read_all_vertex m (v + 1) (e :: es) g s1 (S fuel - length (e :: es)) A1 Hp1) as (s2 & A2 & Hp2 & Hh2 & E2);
      [by destruct Hok2 as (_ & _ & ?)|].
    replace (length (e :: es) + (S fuel - length (e :: es)))%nat with (S fuel) in E2 by lia. rewrite E2.
    rewrite length_app in Hn. cbn [length] in Hn.
    rewrite (IH (length rest)) with (v := v + 1) (g := (g + length (e :: es))%nat) (items := rest);
      [done|lia|done|done|done|by apply read_value_nil| |lia|done|lia].
    rewrite Hh2, Hh1. rewrite cons_middle, app_assoc, drop_app_length' in Hp'; [done|].
    rewrite length_app, length_fmap. simpl. lia.
Qed.

(** ** The header *)

Lemma span_digits_app l rest : Forall (fun c => isdigit c = true) l -> isdigit (cur rest) = false ->
  span_digits (l ++ rest) = (l, rest).
Proof.
  intros Hl Hr. induction Hl as [|c l Hc _ IH]; cbn [app span_digits].
  - destruct rest as [|c rest]; [done|]. cbn [cur] in Hr. cbn [span_digits]. by rewrite Hr.
  - by rewrite Hc, IH.
Qed.

Lemma match_number_print spaces z rest : blank spaces -> 0 <= z -> isdigit (cur rest) = false ->
  match_number (spaces ++ print_nat z ++ rest) = Some (print_nat z, rest).
Proof.
  intros [Hb _] Hz Hr. unfold match_number. rewrite skip_blank, skip_print by done.
  rewrite span_digits_app by (done || by apply print_nat_all). rewrite bool_decide_eq_false_2; [done|].
  destruct (print_nat_cons z Hz) as (c & l & -> & _). done.
Qed.

Lemma stoull_print z : 0 <= z < 2 ^ 64 -> stoull (print_nat z) = Val z.
Proof.
  intros Hz. unfold stoull. rewrite <- (app_nil_r (print_nat z)), scan_print by (done || lia). cbn [fst].
  by rewrite (proj2 (Z.ltb_lt _ _)) by lia.
Qed.

Definition format_text (f : bool * bool * bool) : text := let '(s, v, e) := f in [bit_char s; bit_char v; bit_char e].

Lemma match_header_line m : 0 <= mt_vertices m -> 0 <= mt_edges m ->
  match_header (header_line m) = Some (mkHeader (print_nat (mt_vertices m)) (format_text <$> mt_format m) None).
Proof.
  intros Hn He. unfold match_header, header_line.
  change (print_nat (mt_vertices m) ++ ?r) with ([] ++ print_nat (mt_vertices m) ++ r).
  assert (blank [] /\ blank [space]) as [B0 B1].
  { unfold blank. split; split; repeat constructor; by intros [?|?%elem_of_nil]%elem_of_cons || by intros ?%elem_of_nil. }
  rewrite match_number_print by done. cbn [starts_space cur]. change (isspace space) with true. cbv iota.
  change (space :: print_nat (mt_edges m) ++ ?r) with ([space] ++ print_nat (mt_edges m) ++ r).
  destruct (mt_format m) as [[[s v] e]|]; (rewrite match_number_print by done); [|done].
  by destruct s, v, e.
Qed.

Lemma header_newline m : 0 <= mt_vertices m -> 0 <= mt_edges m -> newline ∉ header_line m.
Proof.
  intros Hn He. unfold header_line. apply blank_cat; [by apply print_nat_newline|].
  apply not_elem_of_cons. split; [done|]. apply blank_cat; [by apply print_nat_newline|].
  destruct (mt_format m) as [[[s v] e]|]; [|by intros ?%elem_of_nil].
  rewrite !not_elem_of_cons. destruct s, v, e; split_and!; try done; by intros ?%elem_of_nil.
Qed.

Lemma all_lines_joined lines : forall line, newline ∉ line -> Forall (fun line => newline ∉ line) lines ->
  forall b : bool, all_lines (line ++ (lines ≫= fun l => newline :: l) ++ (if b then [newline] else [])) =
    line :: lines ++ (if b then [[]] else []).
Proof.
  induction lines as [|l lines IH]; intros line Hline Hlines b; cbn [mbind list_bind app].
  - destruct b; [by rewrite all_lines_cat|]. rewrite app_nil_r. rewrite all_lines_split.
    assert (split_line line = (line, None)) as ->; [|done].
    clear -Hline. induction line as [|c line IH]; [done|]. apply not_elem_of_cons in Hline as [Hc Hline]. cbn [split_line].
    destruct (Ascii.eqb_spec c newline) as [->|]; [done|]. by rewrite IH.
  - apply Forall_cons in Hlines as [Hl Hlines]. rewrite <- app_assoc, all_lines_cat by done. f_equal. by apply IH.
Qed.

Lemma header_not_comment m : 0 <= mt_vertices m -> is_comment (header_line m) = false.
Proof.
  intros Hn. unfold is_comment, header_line. rewrite skip_print by done.
  destruct (print_nat_cons (mt_vertices m) Hn) as (c & l & -> & Hc). cbn [app cur].
  by destruct (Ascii.eqb_spec c "%"%char) as [->|].
Qed.

Lemma MetisReader_new_spec m items b : 0 <= mt_vertices m < 2 ^ 64 - 1 -> 0 <= mt_edges m -> Forall (item_ok m) items ->
  exists self, MetisReader_new (Some (metis_file m items b)) = Val self /\ at_vertex m 0 0 self /\
    read_value self = (None, self) /\ pending (m_handle self) ((item_line m <$> items) ++ if b then [[]] else []).
Proof.
  intros Hn He Hok. unfold MetisReader_new, init_fstream. bind_val.
  set (s0 := mkMetisReader _ _ _ _ _ _ _ _ _ _).
  assert (pending (m_handle s0) (header_line m :: (item_line m <$> items) ++ if b then [[]] else [])) as Hp.
  { unfold pending, s0. cbn [m_handle istream_open good s_eof s_fail negb andb s_rest]. apply all_lines_joined; [apply header_newline; lia|].
    apply Forall_fmap, (Forall_impl _ _ _ Hok). intros i Hi. by apply item_newline. }
  apply fetch_spec in Hp. cbn [list_find] in Hp. rewrite decide_True in Hp by (apply header_not_comment; lia).
  destruct Hp as (h & -> & Hp). bind_step.
  change (m_current_line (with_line s0 h ?l ?p)) with l. rewrite match_header_line by lia. cbn [h_vertices h_format h_ncon].
  rewrite stoull_print by lia. bind_val.
  destruct (mt_format m) as [[[fs fv] fe]|] eqn:Hf; cbn [fmap option_fmap option_map].
  - eexists. split; [by destruct fs, fv, fe|]. split; [|done].
    split; cbn; unfold mt_weights, mt_has_edge_weight, mt_constant; rewrite ?Hf; done || by destruct fs, fv, fe.
  - eexists. split; [done|]. split; [|done].
    split; cbn; unfold mt_weights, mt_has_edge_weight, mt_constant; by rewrite ?Hf.
Qed.

(** ** The theorem *)

Definition vertices_of (items : list Item) : list Item := filter (fun i => is_vertex i = true) items.

Definition has_edges (i : Item) : Prop := match i with Vertex _ es => es <> [] | Comment _ _ => True end.

Lemma outcome_prefix m b rest before : forall v g, Forall has_edges before ->
  v + Z.of_nat (length (vertices_of before)) <= mt_vertices m ->
  outcome m b v g (before ++ rest) =
    edges ← outcome m b (v + Z.of_nat (length (vertices_of before))) (g + sum_list_with edges_of before) rest;
    Val (all_edges m v g before ++ edges).
Proof.
  unfold vertices_of. induction before as [|i before IH]; intros v g Hb Hv.
  - cbn. rewrite Z.add_0_r, Nat.add_0_r. by destruct (outcome m b v g rest).
  - apply Forall_cons in Hb as [Hi Hb]. destruct i as [s c|ws es]; cbn [app outcome all_edges sum_list_with edges_of].
    + rewrite filter_cons_False in Hv |- * by done. by apply IH.
    + rewrite filter_cons_True in Hv |- * by done. cbn [length] in Hv |- *. rewrite (proj2 (Z.ltb_ge _ _)) by lia.
      rewrite bool_decide_eq_false_2 by exact Hi. rewrite IH by (done || lia).
      replace (v + 1 + Z.of_nat (length (filter (fun i => is_vertex i = true) before))) with
        (v + Z.of_nat (S (length (filter (fun i => is_vertex i = true) before)))) by lia.
      replace (g + length es + sum_list_with edges_of before)%nat with (g + (length es + sum_list_with edges_of before))%nat by lia.
      destruct (outcome m b _ _ rest) as [edges| | |]; try done. do 2 bind_val. by rewrite <- app_assoc.
Qed.

(** C29: [MetisReader] delivers the edges of every vertex, in the order of the file,
    with the weights of the file, the weight 1 or random weights as the header
    says, skipping comments and the weights of the vertices, when every vertex has
    an edge and the last line does not end with a newline. With a newline at the
    end the reading ends in an error, and a vertex without edges ends it silently. *)
Theorem metis_reader_correct m items newline_at_end fuel
  (Hm : 0 <= mt_vertices m < 2 ^ 64 - 1) (He : 0 <= mt_edges m) (Hitems : Forall (item_ok m) items)
  (Hfuel : (sum_list_with edges_of items < fuel)%nat) :
  exists reader, MetisReader_new (Some (metis_file m items newline_at_end)) = Val reader /\
    let edges := @read_all _ (metis_reader max_weight) reader fuel in
    (Forall has_edges items -> Z.of_nat (length (vertices_of items)) = mt_vertices m ->
       edges = if newline_at_end then Exn ReaderError else Val (all_edges m 0 0 items)) /\
    (forall before ws after, items = before ++ Vertex ws [] :: after -> Forall has_edges before ->
       Z.of_nat (length (vertices_of before)) < mt_vertices m -> edges = Val (all_edges m 0 0 before)).
Proof.
  destruct (MetisReader_new_spec m items newline_at_end Hm He Hitems) as (reader & Hnew & A & Hr & Hp).
  exists reader. split; [done|]. cbn zeta. rewrite (read_items m newline_at_end (length items) items 0 0 reader fuel); try done; [|lia..].
  split.
  - intros Hall Hlen. pose proof (outcome_prefix m newline_at_end [] items 0 0 Hall) as E. rewrite app_nil_r in E.
    rewrite E by lia. cbn [outcome].
    destruct newline_at_end.
    + by rewrite (proj2 (Z.ltb_lt _ _)) by lia.
    + bind_val. by rewrite app_nil_r.
  - intros before ws after -> Hb Hlt. rewrite outcome_prefix by (done || lia). cbn [outcome].
    rewrite (proj2 (Z.ltb_ge _ _)) by lia. rewrite bool_decide_eq_true_2 by done. bind_val. by rewrite app_nil_r.
Qed.
End metis_spec.

(** ** Example *)

Definition ex_meta : Meta := mkMeta 2 2 (Some (false, true, true)).

Definition ex_items : list Item := [Comment [space] (text_of " c"); Vertex [9] [(2, 10); (2, 5)]; Vertex [8] [(1, 10)]].

#[export] Instance item_ok_dec m i : Decision (item_ok m i).
Proof. destruct i; unfold item_ok, blank, is_u64; apply _. Defined.

Example ex_metis_file : metis_file ex_meta ex_items false = text_of "2 2 011
 % c
 9 2 10 2 5
 8 1 10".
Proof. by vm_compute. Qed.

Lemma metis_reader_correct_witness :
  exists reader, MetisReader_new (Some (text_of "2 2 011
 % c
 9 2 10 2 5
 8 1 10")) = Val reader /\
    @read_all _ (@metis_reader const_random 1) reader 4 = Val (weighted <$> [(1, 2, 10); (1, 2, 5); (2, 1, 10)]).
Proof.
  rewrite <- ex_metis_file.
  destruct (@metis_reader_correct const_random 1 ex_meta ex_items false 4) as (reader & Hnew & Hall & _);
    [by vm_compute|by vm_compute|apply (bool_decide_unpack (Forall (item_ok ex_meta) ex_items)); by vm_compute|vm_compute; lia|].
  exists reader. split; [exact Hnew|]. rewrite Hall; [by vm_compute| |done]. by repeat constructor.
Defined.
