(* ===== verification/Zlib.v ===== *)
(** The interface of the library zlib, and the readers of
    [reader/graphalytics_reader] over compressed files. *)

From S2P Require Import Prelude CByteArray.

(** ** zlib

    A call of [inflate] gets the bytes available and the room for the output; it
    leaves the bytes that it did not consume and what it produced. *)

Definition Z_OK : Z := 0.
Definition Z_STREAM_END : Z := 1.

Class Zlib := {
  z_stream : Type;
  inflateInit : Z -> z_stream;
  inflate : z_stream -> list Z -> nat -> z_stream * list Z * list Z * Z;
}.

(** What the manual says of a stream that is well formed: [z_repr z c out] when the
    compressed bytes [c] are still to come, and give the output [out]. [inflate]
    stops when the input is empty, the output is full or the stream has ended; no
    output is pending when the stream has been consumed. *)
Class ZlibLaws `{Zlib} := {
  z_repr : z_stream -> list Z -> list Z -> Prop;
  consumed_law : forall z out, z_repr z [] out -> out = [];
  inflate_law : forall z c out trailing inp more n, z_repr z c out -> inp ++ more = c ++ trailing ->
    inp <> [] \/ c = [] -> (0 < n)%nat ->
    exists z' consumed rest produced rc c' out',
      inflate z inp n = (z', rest, produced, rc) /\
      inp = consumed ++ rest /\ c = consumed ++ c' /\ out = produced ++ out' /\ (length produced <= n)%nat /\ z_repr z' c' out' /\
      ((rc = Z_STREAM_END /\ c' = [] /\ out' = []) \/
       (rc = Z_OK /\ c' <> [] /\ (rest = [] \/ (length produced = n /\ out' <> []))));
}.

(** [reinterpret_cast<double>] of 64 bits. *)
Definition double_of_bits (bits : Z) : double :=
  let sign := Z.testbit bits 63 in
  let exponent := Z.land (Z.shiftr bits 52) 2047 in
  let mantissa := Z.land bits (2 ^ 52 - 1) in
  if exponent =? 2047 then if mantissa =? 0 then S754_infinity sign else S754_nan
  else
    let '(m, e) := if exponent =? 0 then (mantissa, -1074) else (mantissa + 2 ^ 52, exponent - 1075) in
    match m with Z.pos p => S754_finite sign p e | _ => S754_zero sign end.

Example ex_double_of_bits : double_of_bits 4607182418800017408 = d_one /\ double_of_bits (2 ^ 63) = S754_zero true.
Proof. by vm_compute. Qed.

(** ** [GraphalyticsZlibDecompressInput<T>]

    An item is [words] integers of 64 bits. The file is the bytes not yet read;
    [z_pos], [z_sz] and [z_leftover_sz] are bytes. *)

Record DecompressInput `{Zlib} := mkDecompressInput {
  z_handle : list Z;
  z_eof : bool;
  z_m_stream : z_stream;
  z_avail_in : list Z;
  z_output_buffer : list Z;
  z_pos : nat;
  z_sz : nat;
  z_leftover_sz : nat;
}.

Arguments mkDecompressInput {_} _ _ _ _ _ _ _ _.

Definition DecompressInput_new `{Zlib} (file : option (list Z)) : res DecompressInput :=
  match file with
  | Some content => Val (mkDecompressInput content false (inflateInit 15) [] [] 0 0 0)
  | None => Exn ReaderError
  end.

Definition item_bytes (words : nat) : nat := 8 * words.

Definition m_buffer_capacity (words : nat) : nat := 2 ^ 15 * item_bytes words.

(** The words of the bytes of an item. *)
Fixpoint words_of_bytes (words : nat) (bytes : list Z) : list Z :=
  match words with
  | O => []
  | S words => key_of_bytes (take 8 bytes) :: words_of_bytes words (drop 8 bytes)
  end.

Section decompress.
Context `{Zlib} (words : nat).

(** More input when there is none; [None] when the file is depleted. *)
Definition fill_input (self : DecompressInput) : option DecompressInput :=
  match z_avail_in self with
  | _ :: _ => Some self
  | [] =>
    if z_eof self then None
    else
      let capacity := m_buffer_capacity words in
      Some (mkDecompressInput (drop capacity (z_handle self)) (length (z_handle self) <? capacity)%nat (z_m_stream self)
              (take capacity (z_handle self)) (z_output_buffer self) (z_pos self) (z_sz self) (z_leftover_sz self))
  end.

(** The bytes that are left over come first in the buffer. *)
Definition decompress (self : DecompressInput) : res DecompressInput :=
  let leftover := take (z_leftover_sz self) (drop (z_sz self) (z_output_buffer self)) in
  let output_buffer_sz := (m_buffer_capacity words - z_leftover_sz self)%nat in
  let '(stream, avail_in, produced, rc) := inflate (z_m_stream self) (z_avail_in self) output_buffer_sz in
  if negb (rc =? Z_OK) && negb (rc =? Z_STREAM_END) then Exn ReaderError else
  let data_processed := (z_leftover_sz self + length produced)%nat in
  Val (mkDecompressInput (z_handle self) (z_eof self) stream avail_in (leftover ++ produced) 0
         (data_processed / item_bytes words * item_bytes words) (data_processed mod item_bytes words)).

Definition take_item (self : DecompressInput) : res (option (list Z) * DecompressInput) :=
  if (z_sz self =? 0)%nat || negb (z_pos self <? z_sz self)%nat then Undef else
  Val (Some (words_of_bytes words (drop (z_pos self) (z_output_buffer self))),
       mkDecompressInput (z_handle self) (z_eof self) (z_m_stream self) (z_avail_in self) (z_output_buffer self)
         (z_pos self + item_bytes words) (z_sz self) (z_leftover_sz self)).

Definition read_item (self : DecompressInput) : res (option (list Z) * DecompressInput) :=
  if (z_sz self <=? z_pos self)%nat then
    match fill_input self with
    | None => Val (None, self)
    | Some self => self ← decompress self; take_item self
    end
  else take_item self.

(** The items up to the end of the file. *)
Fixpoint read_items (self : DecompressInput) (fuel : nat) : res (list (list Z)) :=
  match fuel with
  | O => NoFuel
  | S fuel =>
    '(item, self) ← read_item self;
    match item with
    | None => Val []
    | Some item => items ← read_items self fuel; Val (item :: items)
    end
  end.
End decompress.

(** ** What is read *)

Definition bytes_of_item (item : list Z) : list Z := item ≫= bytes_of_key 8.

Definition item_ok (words : nat) (item : list Z) : Prop := length item = words /\ Forall is_u64 item.

Lemma length_bytes_of_item item : length (bytes_of_item item) = item_bytes (length item).
Proof.
  unfold bytes_of_item, item_bytes. induction item as [|w item IH]; [done|]. cbn [mbind list_bind].
  rewrite length_app, length_bytes_of_key, IH. simpl. lia.
Qed.

Lemma words_of_bytes_item item rest : Forall is_u64 item ->
  words_of_bytes (length item) (bytes_of_item item ++ rest) = item.
Proof.
  unfold bytes_of_item. induction 1 as [|w item Hw _ IH]; [done|]. cbn [length words_of_bytes mbind list_bind].
  rewrite <- app_assoc, take_app_length' by (by rewrite length_bytes_of_key).
  rewrite drop_app_length' by (by rewrite length_bytes_of_key). f_equal; [|exact IH].
  rewrite key_of_bytes_of_key. change (256 ^ Z.of_nat 8) with (2 ^ 64). by apply Z.mod_small.
Qed.

Section laws.
Context `{ZlibLaws} (words : nat) (Hwords : (0 < words)%nat).

Local Notation bytes items := (items ≫= bytes_of_item).

(** The reader has [now] in its buffer, and will decompress [later] from [c]. *)
Record input_repr (self : DecompressInput) (c : list Z) (now later : list (list Z)) : Prop := {
  ir_repr : exists out leftover, z_repr (z_m_stream self) c out /\ z_output_buffer self = take (z_sz self) (z_output_buffer self) ++ leftover /\
    length leftover = z_leftover_sz self /\ leftover ++ out = bytes later;
  ir_buffer : drop (z_pos self) (take (z_sz self) (z_output_buffer self)) = bytes now;
  ir_sz : (z_sz self <= length (z_output_buffer self))%nat;
  ir_pos : (z_pos self + length now * item_bytes words = z_sz self)%nat;
  ir_leftover : (z_leftover_sz self < item_bytes words)%nat;
  ir_input : z_avail_in self ++ z_handle self = c;
  ir_eof : z_eof self = true -> z_handle self = [];
  ir_items : Forall (item_ok words) (now ++ later);
}.

Lemma item_bytes_pos : (0 < item_bytes words)%nat.
Proof. unfold item_bytes. lia. Qed.

Lemma capacity_ge : (item_bytes words <= m_buffer_capacity words)%nat.
Proof.
  unfold m_buffer_capacity. assert (2 ^ 15 <> 0)%nat as Hk by by apply Nat.pow_nonzero.
  destruct (2 ^ 15)%nat; [done|]. simpl. lia.
Qed.

Lemma bytes_length items : Forall (item_ok words) items -> length (bytes items) = (length items * item_bytes words)%nat.
Proof.
  induction 1 as [|item items [Hl _] _ IH]; [done|]. cbn [mbind list_bind length]. rewrite length_app, length_bytes_of_item, Hl.
  rewrite IH. lia.
Qed.

Lemma bytes_app l k : bytes (l ++ k) = bytes l ++ bytes k.
Proof. apply bind_app. Qed.

(** The rest of the file is in the input buffer, or will be after one read. *)
Definition input_small (self : DecompressInput) : Prop :=
  z_eof self = true \/ z_avail_in self = [] /\ (0 < length (z_handle self) < m_buffer_capacity words)%nat.

(** The next item of the buffer. *)
Lemma take_item_spec self c item now later : input_repr self c (item :: now) later ->
  exists self', take_item words self = Val (Some item, self') /\ input_repr self' c now later /\
    (input_small self -> input_small self').
Proof.
  intros I. pose proof item_bytes_pos as Hib. pose proof (ir_pos _ _ _ _ I) as Hpos. cbn [length] in Hpos. rewrite Nat.mul_succ_l in Hpos.
  pose proof (ir_buffer _ _ _ _ I) as Hbuf. cbn [mbind list_bind] in Hbuf.
  destruct (Forall_inv (ir_items _ _ _ _ I)) as [Hlen Hu64].
  unfold take_item. rewrite (proj2 (Nat.eqb_neq _ _)), (proj2 (Nat.ltb_lt _ _)) by lia. cbn [orb negb].
  assert (drop (z_pos self) (z_output_buffer self) =
    bytes_of_item item ++ bytes now ++ drop (z_sz self) (z_output_buffer self)) as Hdrop.
  { rewrite <- (take_drop (z_sz self) (z_output_buffer self)) at 1.
    rewrite drop_app_le by (rewrite length_take; pose proof (ir_sz _ _ _ _ I); lia).
    rewrite Hbuf. by rewrite <- app_assoc. }
  eexists. split_and!; [rewrite Hdrop; do 3 f_equal; rewrite <- Hlen; by apply words_of_bytes_item| |done].
  destruct I as [I1 I2 I3 I4 I5 I6 I7 I8]. split;
    cbn [z_handle z_eof z_m_stream z_avail_in z_output_buffer z_pos z_sz z_leftover_sz]; try done; [|lia|by apply Forall_cons in I8 as [_ ?]].
  rewrite <- drop_drop, Hbuf. apply drop_app_length'. by rewrite length_bytes_of_item, Hlen.
Qed.

(** What [n] bytes of [items] give: whole items and a rest. *)
Lemma split_items l r items : Forall (item_ok words) items -> l ++ r = bytes items ->
  exists now later, items = now ++ later /\ length now = (length l / item_bytes words)%nat /\
    exists leftover, l = bytes now ++ leftover /\ (length leftover < item_bytes words)%nat /\ leftover ++ r = bytes later.
Proof.
  intros Hok. revert l. pose proof item_bytes_pos as Hib. induction Hok as [|item items [Hlen Hw] Hok IH]; intros l E.
  - apply app_eq_nil in E as [-> ->]. exists [], []. split; [done|]. split; [by rewrite Nat.Div0.div_0_l|].
    exists []. split_and!; [done|simpl; lia|done].
  - cbn [mbind list_bind] in E. destruct (decide (length l < item_bytes words)%nat) as [Hlt|Hge].
    + exists [], (item :: items). split; [done|]. split; [by rewrite Nat.div_small|]. by exists l.
    + assert (exists l', l = bytes_of_item item ++ l') as [l' ->].
      { exists (drop (item_bytes words) l). rewrite <- (take_drop (item_bytes words) l) at 1. f_equal.
        apply (f_equal (take (item_bytes words))) in E. rewrite take_app_le in E by lia. rewrite E.
        apply take_app_length'. by rewrite length_bytes_of_item, Hlen. }
      rewrite <- app_assoc in E. apply app_inv_head in E.
      destruct (IH l' E) as (now & later & -> & Hn & leftover & -> & Hl & Hr).
      exists (item :: now), later. split; [done|]. split.
      * rewrite length_app, length_bytes_of_item, Hlen. cbn [length]. rewrite Hn.
        rewrite <- (Nat.mul_1_l (item_bytes words)) at 2. rewrite Nat.div_add_l by lia. lia.
      * exists leftover. cbn [mbind list_bind]. by rewrite <- app_assoc.
Qed.

Lemma fill_input_spec self c later : input_repr self c [] later ->
  match fill_input words self with
  | None => later = []
  | Some self' => input_repr self' c [] later /\ (z_avail_in self' <> [] \/ c = []) /\
      (input_small self -> z_eof self' = true /\ c <> [])
  end.
Proof.
  intros I. pose proof (ir_input _ _ _ _ I) as Hc. unfold fill_input, input_small.
  destruct (z_avail_in self) as [|b avail] eqn:Ha; cbn [app] in Hc; [destruct (z_eof self) eqn:He|].
  - pose proof (ir_eof _ _ _ _ I He) as Hh. rewrite Hh in Hc. subst c.
    destruct (ir_repr _ _ _ _ I) as (out & leftover & Hz & _ & Hl & E). apply consumed_law in Hz as ->. rewrite app_nil_r in E.
    pose proof (bytes_length _ (ir_items _ _ _ _ I)) as Hlen. cbn [app] in Hlen. rewrite <- E, Hl in Hlen.
    pose proof (ir_leftover _ _ _ _ I) as Hlt. destruct later as [|item later]; [done|]. cbn [length] in Hlen. lia.
  - pose proof capacity_ge as Hcap. pose proof item_bytes_pos as Hib. split_and!.
    + destruct I. split; cbn [z_handle z_eof z_m_stream z_avail_in z_output_buffer z_pos z_sz z_leftover_sz]; try done.
      * by rewrite take_drop.
      * intros Hlt%Nat.ltb_lt. by rewrite drop_ge by lia.
    + cbn [z_avail_in]. rewrite Hc. destruct c as [|b c]; [by right|left]. destruct (m_buffer_capacity words) eqn:E; [lia|done].
    + intros [|[_ Hlt]]; [done|]. cbn [z_eof]. rewrite <- Hc. split; [apply Nat.ltb_lt; lia|]. intros E. rewrite E in Hlt. simpl in Hlt. lia.
  - rewrite Ha. split_and!; [done|by left|]. intros [He|[? _]]; [|done]. by subst c.
Qed.

(** Decompressing gives the next items, or none, which is an assertion. With the
    whole file in the input buffer there is one. *)
Lemma decompress_spec self c later : input_repr self c [] later -> (z_avail_in self <> [] \/ c = []) ->
  exists self' c' now later', decompress words self = Val self' /\ later = now ++ later' /\ input_repr self' c' now later' /\
    z_eof self' = z_eof self /\ (z_eof self = true -> c <> [] -> later <> [] -> now <> [] /\ (c' <> [] -> later' <> [])).
Proof.
  intros I Hin. destruct (ir_repr _ _ _ _ I) as (out & leftover & Hz & Hbuf & Hll & Eb).
  pose proof capacity_ge as Hcap. pose proof item_bytes_pos as Hib. pose proof (ir_leftover _ _ _ _ I) as Hlo.
  destruct (inflate_law _ c out [] (z_avail_in self) (z_handle self) (m_buffer_capacity words - z_leftover_sz self) Hz)
    as (z' & consumed & rest & produced & rc & c' & out' & Hinf & Hi & Hcc & Ho & Hp & Hz' & Hrc);
    [rewrite app_nil_r; apply (ir_input _ _ _ _ I)|done|lia|].
  unfold decompress. rewrite Hinf.
  assert (take (z_leftover_sz self) (drop (z_sz self) (z_output_buffer self)) = leftover) as ->.
  { rewrite Hbuf, drop_app_length' by (rewrite length_take; pose proof (ir_sz _ _ _ _ I); lia). rewrite <- Hll. apply take_ge. lia. }
  assert (negb (rc =? Z_OK) && negb (rc =? Z_STREAM_END) = false) as ->.
  { by destruct Hrc as [[-> _]|[-> _]]. }
  rewrite Ho, app_assoc in Eb. rewrite <- Hll, <- length_app.
  destruct (split_items (leftover ++ produced) out' later) as (now & later' & -> & Hn & lo' & El & Hlo' & Eb');
    [apply (ir_items _ _ _ _ I)|done|].
  pose proof (ir_items _ _ _ _ I) as Hok. cbn [app] in Hok. pose proof (bytes_length now (proj1 (proj1 (Forall_app _ _ _) Hok))) as Hlen.
  assert (length (leftover ++ produced) = length now * item_bytes words + length lo')%nat as Htot by (rewrite El, length_app; lia).
  assert (length (leftover ++ produced) mod item_bytes words = length lo')%nat as Hmod.
  { rewrite Htot, Nat.add_comm, Nat.Div0.mod_add. by apply Nat.mod_small. }
  eexists _, c', now, later'. split; [done|]. split; [done|]. rewrite <- Hn, Hmod. split_and!.
  - split; cbn [z_handle z_eof z_m_stream z_avail_in z_output_buffer z_pos z_sz z_leftover_sz].
    + exists out', lo'. split_and!; [done| |done|done]. rewrite El, take_app_length' by lia. done.
    + rewrite El, take_app_length' by lia. done.
    + lia.
    + lia.
    + done.
    + pose proof (ir_input _ _ _ _ I) as Hc. rewrite Hi, Hcc, <- app_assoc in Hc. by apply app_inv_head in Hc.
    + apply (ir_eof _ _ _ _ I).
    + done.
  - done.
  - intros He Hc Hne. pose proof (ir_eof _ _ _ _ I He) as Hh. pose proof (ir_input _ _ _ _ I) as Hc'. rewrite Hh, app_nil_r in Hc'.
    rewrite Hi, Hcc in Hc'. apply app_inv_head in Hc'. subst rest.
    destruct Hrc as [(_ & -> & ->)|(_ & Hc' & [->|[Hfull Hout]])]; [|done|].
    + rewrite app_nil_r in Eb'. assert (later' = []) as ->.
      { pose proof (bytes_length later' (proj2 (proj1 (Forall_app _ _ _) Hok))) as Hl'. rewrite <- Eb' in Hl'.
        destruct later'; [done|]. cbn [length] in Hl'. lia. }
      by rewrite app_nil_r in Hne.
    + split; [|intros _ ->; by apply app_nil in Eb' as [_ ->]].
      intros ->. rewrite length_app, Hll, Hfull in Htot. cbn [length] in Htot. lia.
Qed.

(** ** Reading a file *)

Lemma read_items_spec n : forall self c now later fuel, input_repr self c now later ->
  (length (now ++ later) <= n)%nat -> (n < fuel)%nat ->
  (read_items words self fuel = Val (now ++ later) \/ read_items words self fuel = Undef) /\
  (input_small self -> (c <> [] -> later <> []) -> read_items words self fuel = Val (now ++ later)).
Proof.
  induction n as [n IH] using lt_wf_ind. intros self c now later fuel I Hn Hfuel.
  destruct fuel as [|fuel]; [lia|]. cbn [read_items].
  assert (forall self c item now later, input_repr self c (item :: now) later -> (S (length (now ++ later)) <= n)%nat ->
    let result := '(i, self) ← take_item words self;
                  match i with None => Val [] | Some i => items ← read_items words self fuel; Val (i :: items) end in
    (result = Val (item :: now ++ later) \/ result = Undef) /\
    (input_small self -> (c <> [] -> later <> []) -> result = Val (item :: now ++ later))) as Htake.
  { clear self c now later I Hn. intros self c item now later I Hn. destruct (take_item_spec self c item now later I) as (self' & -> & I' & Hs').
    cbn zeta. bind_step. destruct (IH (length (now ++ later)) ltac:(lia) self' c now later fuel I' ltac:(lia) ltac:(lia)) as [[->| ->] Hs].
    - split; [by left|done].
    - split; [by right|]. intros Hsm Hl. by rewrite Hs by auto. }
  pose proof (ir_pos _ _ _ _ I) as Hpos. pose proof item_bytes_pos as Hib. unfold read_item.
  destruct now as [|item now].
  - cbn [length] in Hpos. rewrite (proj2 (Nat.leb_le _ _)) by lia. pose proof (fill_input_spec self c later I) as Hfill.
    destruct (fill_input words self) as [self1|]; [|subst later; split; [by left|done]].
    destruct Hfill as (I1 & Hin & Hsmall).
    destruct (decompress_spec self1 c later I1 Hin) as (self2 & c' & now & later' & -> & -> & I2 & He & Hprog). bind_val.
    destruct now as [|item now].
    + assert (take_item words self2 = Undef) as ->.
      { unfold take_item. pose proof (ir_pos _ _ _ _ I2) as Hp2. cbn [length] in Hp2.
        rewrite (proj2 (Nat.ltb_ge _ _)) by lia. by rewrite orb_true_r. }
      split; [by right|]. intros Hs Hl. destruct (Hsmall Hs) as [He1 Hc]. by destruct (Hprog He1 Hc (Hl Hc)) as [? _].
    + destruct (Htake self2 c' item now later' I2) as [H1 H2]; [by cbn [app length] in Hn|]. split; [exact H1|].
      intros Hs Hl. destruct (Hsmall Hs) as [He1 Hc]. apply H2; [left; congruence|by apply (Hprog He1 Hc (Hl Hc))].
  - cbn [length] in Hpos. rewrite (proj2 (Nat.leb_gt _ _)) by lia.
    destruct (Htake self c item now later I) as [H1 H2]; [by cbn [app length] in Hn|]. by split.
Qed.

(** C30: reading a compressed file of items: whatever the sizes of the file and of its
    content, the reader delivers all of its items and nothing else, unless it
    runs into its assertion that decompressing yields an item. It does not for a
    file with an item that is smaller than the input buffer. *)
Theorem zlib_reader_correct content items fuel
  (Hcontent : z_repr (inflateInit 15) content (items ≫= bytes_of_item)) (Hitems : Forall (item_ok words) items)
  (Hfuel : (length items < fuel)%nat) :
  let result := self ← DecompressInput_new (Some content); read_items words self fuel in
  (result = Val items \/ result = Undef) /\
  ((0 < length content < m_buffer_capacity words)%nat -> items <> [] -> result = Val items).
Proof.
  cbn zeta. unfold DecompressInput_new. bind_val.
  destruct (read_items_spec (length items) (mkDecompressInput content false (inflateInit 15) [] [] 0 0 0) content [] items fuel) as [H1 H2].
  - split; cbn [z_handle z_eof z_m_stream z_avail_in z_output_buffer z_pos z_sz z_leftover_sz]; try done.
    + by exists (items ≫= bytes_of_item), [].
    + apply item_bytes_pos.
  - done.
  - done.
  - split; [exact H1|]. intros Hlen Hne. apply H2; [|done]. right. done.
Qed.
End laws.

(** ** An instance of the interface

    A byte is sent after a byte 1, and a byte 0 ends the stream. *)

Inductive stored_state := StoredFlag | StoredByte | StoredEnd.

Fixpoint stored_inflate (z : stored_state) (inp : list Z) (n : nat) : stored_state * list Z * list Z * Z :=
  match z, inp with
  | StoredEnd, _ => (StoredEnd, inp, [], Z_STREAM_END)
  | _, [] => (z, [], [], Z_OK)
  | StoredFlag, b :: inp' =>
    if b =? 0 then (StoredEnd, inp', [], Z_STREAM_END)
    else if b =? 1 then stored_inflate StoredByte inp' n else (z, inp, [], -3)
  | StoredByte, b :: inp' =>
    match n with
    | O => (z, inp, [], Z_OK)
    | S n => let '(z, rest, out, rc) := stored_inflate StoredFlag inp' n in (z, rest, b :: out, rc)
    end
  end.

Definition stored_zlib : Zlib := {| z_stream := stored_state; inflateInit := fun _ => StoredFlag; inflate := stored_inflate |}.

Definition stored (out : list Z) : list Z := (out ≫= fun b => [1; b]) ++ [0].

Definition stored_repr (z : stored_state) (c out : list Z) : Prop :=
  match z with
  | StoredFlag => c = stored out
  | StoredByte => exists b out', out = b :: out' /\ c = b :: stored out'
  | StoredEnd => c = [] /\ out = []
  end.

Lemma stored_inflate_law inp : forall z c out trailing more n, stored_repr z c out -> inp ++ more = c ++ trailing ->
  exists z' consumed rest produced rc c' out',
    stored_inflate z inp n = (z', rest, produced, rc) /\
    inp = consumed ++ rest /\ c = consumed ++ c' /\ out = produced ++ out' /\ (length produced <= n)%nat /\ stored_repr z' c' out' /\
    ((rc = Z_STREAM_END /\ c' = [] /\ out' = []) \/
     (rc = Z_OK /\ c' <> [] /\ (rest = [] \/ (length produced = n /\ out' <> [])))).
Proof.
  induction inp as [|b inp IH]; intros z c out trailing more n Hz E.
  - destruct z; cbn [stored_inflate].
    + exists StoredFlag, [], [], [], Z_OK, c, out. cbn in Hz. subst c. split_and!; try done; [simpl; lia|].
      right. split_and!; [done| |by left]. unfold stored. by destruct (out ≫= _).
    + exists StoredByte, [], [], [], Z_OK, c, out. destruct Hz as (b & out' & -> & ->).
      split_and!; try done; [simpl; lia|by exists b, out'|]. right. split_and!; [done|done|by left].
    + exists StoredEnd, [], [], [], Z_STREAM_END, c, out. destruct Hz as [-> ->].
      split_and!; try done; [simpl; lia|]. by left.
  - destruct z; cbn [stored_inflate].
    + cbn in Hz. subst c. destruct out as [|o out]; cbn in E; injection E as -> E.
      * cbn. exists StoredEnd, [0], inp, [], Z_STREAM_END, [], []. split_and!; try done; (simpl; lia) || by left.
      * change (1 =? 0) with false. change (1 =? 1) with true. cbv iota.
        destruct (IH StoredByte (o :: stored out) (o :: out) trailing more n) as (z' & cs & rest & pr & rc & c' & out' & H1 & H2 & H3 & H4 & H5 & H6 & H7);
          [by exists o, out|exact E|].
        exists z', (1 :: cs), rest, pr, rc, c', out'. split_and!; try done; [by rewrite H2|]. cbn [app]. by rewrite <- H3.
    + destruct Hz as (o & out' & -> & ->). cbn [app] in E. injection E as -> E. destruct n as [|n].
      * exists StoredByte, [], (o :: inp), [], Z_OK, (o :: stored out'), (o :: out').
        split_and!; try done; [by exists o, out'|]. right. split_and!; [done|done|by right].
      * destruct (IH StoredFlag (stored out') out' trailing more n) as (z' & cs & rest & pr & rc & c' & out2 & H1 & H2 & H3 & H4 & H5 & H6 & H7);
          [done|exact E|].
        rewrite H1. exists z', (o :: cs), rest, (o :: pr), rc, c', out2.
        split_and!; try done; [by rewrite H2|by rewrite H3|by rewrite H4|simpl; lia|].
        destruct H7 as [?|(? & ? & [?|[? ?]])]; [by left|right; split_and!; auto|right; split_and!; auto].
        right. simpl. auto with lia.
    + destruct Hz as [-> ->]. exists StoredEnd, [], (b :: inp), [], Z_STREAM_END, [], []. split_and!; try done; [simpl; lia|]. by left.
Qed.

#[export] Instance stored_laws : @ZlibLaws stored_zlib.
Proof.
  refine {| z_repr := stored_repr : @z_stream stored_zlib -> _ |}.
  - intros [] out; cbn; [|by intros (b & out' & -> & ?)|by intros []]. unfold stored. by destruct (out ≫= _).
  - intros z c out trailing inp more n Hz E _ _. by apply (stored_inflate_law inp z c out trailing more n).
Defined.

Definition ex_items : list (list Z) := [[7; 258]; [18446744073709551615; 0]].

Lemma zlib_reader_correct_witness :
  (self ← @DecompressInput_new stored_zlib (Some (stored (ex_items ≫= bytes_of_item))); @read_items stored_zlib 2 self 3) = Val ex_items.
Proof.
  apply (@zlib_reader_correct stored_zlib stored_laws 2 ltac:(lia) (stored (ex_items ≫= bytes_of_item)) ex_items 3);
    [done| |simpl; lia| |done].
  - repeat constructor; by vm_compute.
  - split; [simpl; lia|]. apply Nat.ltb_lt. by vm_compute.
Defined.
