(* ===== verification/GraphalyticsReader.v ===== *)
(** [reader/graphalytics_reader]: the property file of a Graphalytics graph and
    its vertex and edge files, in the text format and compressed. *)

From S2P Require Import Prelude Doubles Text Edge Readers Zlib.

(** ** [GraphalyticsPlainReader] *)

Record GraphalyticsPlainReader := mkGraphalyticsPlainReader {
  m_handle_vertex_file : istream;
  m_handle_edge_file : istream;
  gp_is_weighted : bool;
}.

(** [handle.open(path)]: a file that does not exist leaves a stream that failed. *)
Definition stream_open (file : option text) : istream :=
  match file with Some content => istream_open content | None => mkIstream [] false true end.

Definition GraphalyticsPlainReader_new (vertex_file edge_file : option text) (is_weighted : bool) : GraphalyticsPlainReader :=
  mkGraphalyticsPlainReader (stream_open vertex_file) (stream_open edge_file) is_weighted.

(** The fields of a line of the edge file. *)
Definition parse_edge (is_weighted : bool) (current_line : text) : res (Z * Z * double) :=
  '(source, destination, next) ← parse_endpoints current_line;
  if is_weighted then
    let current := skip_spaces next in
    if negb (is_number current) then Exn ReaderError else Val (source, destination, strtod current)
  else Val (source, destination, d_zero).

Definition plain_read_edge (self : GraphalyticsPlainReader) : res (option (Z * Z * double) * GraphalyticsPlainReader) :=
  if negb (good (m_handle_edge_file self)) then Val (None, self) else
  '(skip, current_line, handle) ← next_edge_line (m_handle_edge_file self);
  let self := mkGraphalyticsPlainReader (m_handle_vertex_file self) handle (gp_is_weighted self) in
  if (skip : bool) then Val (None, self)
  else edge ← parse_edge (gp_is_weighted self) current_line; Val (Some edge, self).

Definition plain_read_vertex (self : GraphalyticsPlainReader) : res (option Z * GraphalyticsPlainReader) :=
  if negb (good (m_handle_vertex_file self)) then Val (None, self) else
  '(skip, current_line, handle) ← next_edge_line (m_handle_vertex_file self);
  let self := mkGraphalyticsPlainReader handle (m_handle_edge_file self) (gp_is_weighted self) in
  if (skip : bool) then Val (None, self)
  else
    let current := skip_spaces current_line in
    if negb (is_number current) then Exn ReaderError else Val (Some (strtoull current).1, self).

(** ** The implementations of a reader

    The text format, and the compressed formats without and with weights, whose
    third integer is the representation of a double. *)

Inductive ReaderImpl `{Zlib} :=
  | PlainImpl (reader : GraphalyticsPlainReader)
  | ZlibImpl2 (vertices edges : DecompressInput)
  | ZlibImpl3 (vertices edges : DecompressInput).

Definition zlib_edge (item : list Z) : option (Z * Z * double) :=
  match item with
  | [source; destination] => Some (source, destination, d_zero)
  | [source; destination; weight] => Some (source, destination, double_of_bits weight)
  | _ => None
  end.

Definition impl_read_edge `{Zlib} (impl : ReaderImpl) : res (option (Z * Z * double) * ReaderImpl) :=
  match impl with
  | PlainImpl reader => '(edge, reader) ← plain_read_edge reader; Val (edge, PlainImpl reader)
  | ZlibImpl2 vertices edges => '(item, edges) ← read_item 2 edges; Val (item ≫= zlib_edge, ZlibImpl2 vertices edges)
  | ZlibImpl3 vertices edges => '(item, edges) ← read_item 3 edges; Val (item ≫= zlib_edge, ZlibImpl3 vertices edges)
  end.

Definition impl_read_vertex `{Zlib} (impl : ReaderImpl) : res (option Z * ReaderImpl) :=
  match impl with
  | PlainImpl reader => '(vertex, reader) ← plain_read_vertex reader; Val (vertex, PlainImpl reader)
  | ZlibImpl2 vertices edges => '(item, vertices) ← read_item 1 vertices; Val (item ≫= head, ZlibImpl2 vertices edges)
  | ZlibImpl3 vertices edges => '(item, vertices) ← read_item 1 vertices; Val (item ≫= head, ZlibImpl3 vertices edges)
  end.

(** ** The property file *)

(** [insert] keeps the value of a key that is there. *)
Definition property_insert (m : gmap text text) (key value : text) : gmap text text :=
  match m !! key with Some _ => m | None => <[key := value]> m end.

Definition key_char (c : ascii) : bool :=
  isdigit c || ((65 <=? code c) && (code c <=? 90)) || ((97 <=? code c) && (code c <=? 122)) ||
  Ascii.eqb c "_"%char || Ascii.eqb c "."%char || Ascii.eqb c "-"%char.

Fixpoint span_key (l : text) : text * text :=
  match l with
  | c :: l' => if key_char c then let '(k, r) := span_key l' in (c :: k, r) else ([], l)
  | [] => ([], [])
  end.

Fixpoint strip_prefix (p l : text) : option text :=
  match p, l with
  | [], _ => Some l
  | c :: p, d :: l => if Ascii.eqb c d then strip_prefix p l else None
  | _ :: _, [] => None
  end.

(** [key.substr(0, key.find('.'))] *)
Fixpoint before_dot (l : text) : text :=
  match l with c :: l' => if Ascii.eqb c "."%char then [] else c :: before_dot l' | [] => [] end.

Definition trim_right (l : text) : text := rev (skip_spaces (rev l)).

(** The two groups of the regular expression of a property, key and value, with
    white space around them. A value is at least one character, which is a space
    when there is nothing else. *)
Definition match_key_value (l : text) : option (text * text) :=
  let '(key, r) := span_key l in
  match skip_spaces r with
  | c :: r =>
    if negb (bool_decide (key = [])) && Ascii.eqb c "="%char && negb (bool_decide ("#"%char ∈ r)) && negb (bool_decide (newline ∈ r)) then
      match skip_spaces r, last r with
      | [], None => None
      | [], Some d => Some (key, [d])
      | value, _ => Some (key, trim_right value)
      end
    else None
  | [] => None
  end.

Definition match_property (line : text) : option (text * text) :=
  match strip_prefix (text_of "graph.") (skip_spaces line) with
  | None => None
  | Some r => match_key_value r
  end.

(** [regex_search] for one of the words, between white space, in any case. *)
Definition matches_word (words : list string) (value : text) : bool :=
  existsb (fun w => strcasecmp_eq (text_of w) (trim_right (skip_spaces value))) words.

Record Properties := mkProperties {
  ps_name : text;
  ps_properties : gmap text text;
  ps_directed : bool;
  ps_is_compressed : bool;
  ps_is_weighted : bool;
}.

Section files.
Context `{Zlib} (absolute_path directory : text -> text).

(** The effect of a property that belongs to the graph, with the value that is
    stored. *)
Definition set_property (basedir : text) (st : Properties) (key value : text) : res Properties :=
  let store directed compressed weighted value :=
    Val (mkProperties (ps_name st) (property_insert (ps_properties st) key value) directed compressed weighted) in
  if bool_decide (key = text_of "vertex-file") || bool_decide (key = text_of "edge-file") then
    if bool_decide (value = []) then Exn ReaderError
    else
      let value := if Ascii.eqb (cur value) "/"%char then value else absolute_path (basedir ++ "/"%char :: value) in
      store (ps_directed st) (ps_is_compressed st) (ps_is_weighted st) value
  else if bool_decide (key = text_of "directed") then
    if matches_word ["yes"; "true"; "1"]%string value then store true (ps_is_compressed st) (ps_is_weighted st) value
    else if matches_word ["no"; "false"; "0"]%string value then store false (ps_is_compressed st) (ps_is_weighted st) value
    else Exn ReaderError
  else if bool_decide (key = text_of "compression") then
    if bool_decide (value = text_of "zlib") then store (ps_directed st) true (ps_is_weighted st) value
    else Exn ReaderError
  else if bool_decide (key = text_of "edge-properties.names") then
    store (ps_directed st) (ps_is_compressed st) true value
  else store (ps_directed st) (ps_is_compressed st) (ps_is_weighted st) value.

(** One line of the property file. *)
Definition property_line (basedir : text) (st : Properties) (line : text) : res Properties :=
  match match_property line with
  | None => Val st
  | Some (key, value) =>
    st ← (if bool_decide (ps_name st = []) then
            if bool_decide ("."%char ∈ key) then
              let name := before_dot key in
              Val (mkProperties name (property_insert (ps_properties st) (text_of "name") name) (ps_directed st)
                     (ps_is_compressed st) (ps_is_weighted st))
            else Exn ReaderError
          else Val st);
    if negb (bool_decide (take (length (ps_name st)) key = ps_name st)) then Val st
    else if (length key <? S (length (ps_name st)))%nat then Exn OutOfRange
    else set_property basedir st (drop (S (length (ps_name st))) key) value
  end.

Fixpoint properties_loop (basedir : text) (st : Properties) (handle : istream) (fuel : nat) : res Properties :=
  match fuel with
  | O => NoFuel
  | S fuel =>
    if good handle then
      let '(line, handle) := getline handle [] in
      st ← property_line basedir st line; properties_loop basedir st handle fuel
    else Val st
  end.

(** ** [GraphalyticsReader] *)

Record GraphalyticsReader := mkGraphalyticsReader {
  m_properties : gmap text text;
  m_directed : bool;
  m_is_weighted : bool;
  m_is_compressed : bool;
  m_impl : ReaderImpl;
  m_last_source : Z;
  m_last_destination : Z;
  m_last_weight : double;
  m_last_reported : bool;
  m_emit_directed_edges : bool;
  m_random_generator : nat;
}.

Context (file_system : text -> option text).

(** The property, or an exception where it is not set. *)
Definition get_path (m : gmap text text) (key : text) : res text :=
  match m !! key with Some path => Val path | None => Exn ReaderError end.

Definition file_bytes (file : option text) : option (list Z) :=
  match file with Some content => Some (code <$> content) | None => None end.

(** [reset]: the implementation for the format of the graph. *)
Definition open_impl (m : gmap text text) (is_weighted is_compressed : bool) : res ReaderImpl :=
  vertex_list ← get_path m (text_of "vertex-file");
  edge_list ← get_path m (text_of "edge-file");
  if negb is_compressed then
    Val (PlainImpl (GraphalyticsPlainReader_new (file_system vertex_list) (file_system edge_list) is_weighted))
  else
    vertices ← DecompressInput_new (file_bytes (file_system vertex_list));
    edges ← DecompressInput_new (file_bytes (file_system edge_list));
    Val (if negb is_weighted then ZlibImpl2 vertices edges else ZlibImpl3 vertices edges).

Definition GraphalyticsReader_new (path_properties : text) : res GraphalyticsReader :=
  match file_system path_properties with
  | None => Exn ReaderError
  | Some content =>
    let abs_path_properties := absolute_path path_properties in
    let st := mkProperties [] {[text_of "property-file" := abs_path_properties]} true false false in
    st ← properties_loop (directory abs_path_properties) st (istream_open content) (S (S (length content)));
    impl ← open_impl (ps_properties st) (ps_is_weighted st) (ps_is_compressed st);
    Val (mkGraphalyticsReader (ps_properties st) (ps_directed st) (ps_is_weighted st) (ps_is_compressed st) impl 0 0 d_zero true false 0)
  end.

Definition with_impl (self : GraphalyticsReader) (impl : ReaderImpl) : GraphalyticsReader :=
  mkGraphalyticsReader (m_properties self) (m_directed self) (m_is_weighted self) (m_is_compressed self) impl (m_last_source self)
    (m_last_destination self) (m_last_weight self) (m_last_reported self) (m_emit_directed_edges self) (m_random_generator self).

Definition reset (self : GraphalyticsReader) : res GraphalyticsReader :=
  impl ← open_impl (m_properties self) (m_is_weighted self) (m_is_compressed self); Val (with_impl self impl).

Definition get_property (self : GraphalyticsReader) (key : text) : text := default [] (m_properties self !! key).

Definition set_emit_directed_edges (self : GraphalyticsReader) (value : bool) : GraphalyticsReader :=
  mkGraphalyticsReader (m_properties self) (m_directed self) (m_is_weighted self) (m_is_compressed self) (m_impl self) (m_last_source self)
    (m_last_destination self) (m_last_weight self) (m_last_reported self) value (m_random_generator self).

Context `{Random} (max_weight : double).

Definition with_last (self : GraphalyticsReader) (impl : ReaderImpl) (source destination : Z) (weight : double)
    (reported : bool) (generator : nat) : GraphalyticsReader :=
  mkGraphalyticsReader (m_properties self) (m_directed self) (m_is_weighted self) (m_is_compressed self) impl source destination weight reported
    (m_emit_directed_edges self) generator.

Definition last_edge (self : GraphalyticsReader) : WeightedEdge :=
  mkWeightedEdge (mkEdge (m_last_source self) (m_last_destination self)) (m_last_weight self).

(** A random weight in (0, max_weight]. *)
Definition random_weight (generator : nat) : double :=
  let weight := random_real generator max_weight in if deq weight d_zero then max_weight else weight.

Definition read_edge (self : GraphalyticsReader) : res (option WeightedEdge * GraphalyticsReader) :=
  if negb (m_directed self) && m_emit_directed_edges self && negb (m_last_reported self) then
    let self := with_last self (m_impl self) (m_last_destination self) (m_last_source self) (m_last_weight self) true
                  (m_random_generator self) in
    Val (Some (last_edge self), self)
  else
    '(edge, impl) ← impl_read_edge (m_impl self);
    match edge with
    | None => Val (None, with_impl self impl)
    | Some (source, destination, weight) =>
      let self :=
        if m_is_weighted self then with_last self impl source destination weight false (m_random_generator self)
        else with_last self impl source destination (random_weight (m_random_generator self)) false (S (m_random_generator self)) in
      Val (Some (last_edge self), self)
    end.

Definition read_vertex (self : GraphalyticsReader) : res (option Z * GraphalyticsReader) :=
  '(vertex, impl) ← impl_read_vertex (m_impl self); Val (vertex, with_impl self impl).

#[export] Instance graphalytics_reader : Reader GraphalyticsReader := {
  read := read_edge;
  reader_is_directed := m_directed;
}.

(** ** The edges that the reader delivers *)

(** The edge of a line, with the weight that the reader gives to it. *)
Definition graphalytics_edge (is_weighted : bool) (generator : nat) (line : text) : res (WeightedEdge * nat) :=
  '(source, destination, weight) ← parse_edge is_weighted line;
  Val (mkWeightedEdge (mkEdge source destination) (if is_weighted then weight else random_weight generator),
       if is_weighted then generator else S generator).

Definition both_directions (e : WeightedEdge) : list WeightedEdge :=
  [e; mkWeightedEdge (mkEdge (wdestination e) (wsource e)) (weight e)].

Definition emitted (directed emit_directed_edges : bool) (edges : list WeightedEdge) : list WeightedEdge :=
  if negb directed && emit_directed_edges then edges ≫= both_directions else edges.

Lemma plain_read_edge_pending vertex_file handle w line lines : pending handle (line :: lines) ->
  exists handle', match list_find (fun line => ignore_line line = false) (line :: lines) with
    | Some (i, l) => plain_read_edge (mkGraphalyticsPlainReader vertex_file handle w) =
        (edge ← parse_edge w l; Val (Some edge, mkGraphalyticsPlainReader vertex_file handle' w)) /\
        pending handle' (drop (S i) (line :: lines))
    | None => plain_read_edge (mkGraphalyticsPlainReader vertex_file handle w) =
        Val (None, mkGraphalyticsPlainReader vertex_file handle' w)
    end.
Proof.
  intros Hp. destruct (next_edge_line_spec handle (line :: lines) Hp) as (h & Hh); [done|]. exists h.
  unfold plain_read_edge. cbn [m_handle_edge_file m_handle_vertex_file gp_is_weighted].
  rewrite (pending_good _ _ _ Hp). cbn [negb].
  destruct (list_find _ (line :: lines)) as [[i l]|]; [by destruct Hh as [-> Hp']|by destruct Hh as (l & -> & Hp')].
Qed.

(** What an implementation delivers: its edges, with an exception at the end if
    there is one. *)
Fixpoint impl_edges (impl : ReaderImpl) (fuel : nat) : res (list (Z * Z * double)) :=
  match fuel with
  | O => NoFuel
  | S fuel =>
    '(edge, impl) ← impl_read_edge impl;
    match edge with
    | None => Val []
    | Some edge => edges ← impl_edges impl fuel; Val (edge :: edges)
    end
  end.

(** The edges as the reader gives them, from the [g]-th random weight on. *)
Fixpoint with_weights (is_weighted : bool) (g : nat) (edges : list (Z * Z * double)) : list WeightedEdge :=
  match edges with
  | [] => []
  | (source, destination, weight) :: edges =>
    mkWeightedEdge (mkEdge source destination) (if is_weighted then weight else random_weight g) :: with_weights is_weighted (S g) edges
  end.

Lemma with_weights_weighted edges : forall a b, with_weights true a edges = with_weights true b edges.
Proof. induction edges as [|[[u v] w] es IH]; intros a b; [done|]. cbn [with_weights]. f_equal. apply IH. Qed.

(** When the last edge has been reported as often as it has to be, the reader gives
    the edges of the implementation, in both directions if it has to. *)
Lemma read_all_impl fuel : forall self edges fuel', impl_edges (m_impl self) fuel = Val edges ->
  negb (m_directed self) && m_emit_directed_edges self && negb (m_last_reported self) = false -> (2 * fuel <= fuel')%nat ->
  read_all self fuel' = Val (emitted (m_directed self) (m_emit_directed_edges self)
                               (with_weights (m_is_weighted self) (m_random_generator self) edges)).
Proof.
  induction fuel as [|fuel IH]; intros self edges fuel' E Hr Hf; [done|].
  destruct fuel' as [|fuel']; [lia|]. cbn [impl_edges] in E. cbn [read_all read graphalytics_reader].
  unfold read_edge at 1. rewrite Hr.
  destruct (impl_read_edge (m_impl self)) as [[[[[u v] w]|] impl]| | |]; try done.
  2: { injection E as <-. bind_step. unfold emitted. by destruct (negb _ && _). }
  change (Val ?x ≫= ?f) with (f x) in E. cbv beta iota zeta in E.
  apply res_bind_val in E as (edges' & E & [= <-]). do 2 bind_step.
  set (self1 := if m_is_weighted self then _ else _).
  assert (self1 = with_last self impl u v (if m_is_weighted self then w else random_weight (m_random_generator self)) false
            (if m_is_weighted self then m_random_generator self else S (m_random_generator self))) as ->
    by (unfold self1; by destruct (m_is_weighted self)).
  set (x := if m_is_weighted self then w else _). set (g' := if m_is_weighted self then m_random_generator self else _).
  assert (with_weights (m_is_weighted self) g' edges' = with_weights (m_is_weighted self) (S (m_random_generator self)) edges') as Hw.
  { unfold g'. destruct (m_is_weighted self); [|done]. apply with_weights_weighted. }
  unfold emitted in IH |- *. cbn [with_weights]. fold x. rewrite <- Hw.
  destruct (negb (m_directed self) && m_emit_directed_edges self) eqn:Hemit.
  - destruct fuel' as [|fuel']; [lia|]. cbn [read_all read graphalytics_reader]. unfold read_edge at 1.
    cbn [with_last m_directed m_emit_directed_edges m_last_reported negb]. rewrite Hemit. cbn [andb]. do 2 bind_step.
    match goal with |- context [read_all ?r fuel'] => change r with (with_last (with_last self impl u v x false g') impl v u x true g') end.
    rewrite (IH (with_last (with_last self impl u v x false g') impl v u x true g') edges' fuel' E) by (apply andb_false_r || lia).
    cbn [with_last m_directed m_emit_directed_edges m_is_weighted m_random_generator]. rewrite Hemit. by do 2 bind_step.
  - rewrite (IH (with_last self impl u v x false g') edges' fuel' E); [| |lia];
      cbn [with_last m_directed m_emit_directed_edges m_is_weighted m_random_generator m_last_reported]; by rewrite Hemit.
Qed.

(** ** The edges of a text file *)

(** The edge of a line, whose weight is a double. *)
Definition line_value (is_weighted : bool) (l : Line) : option (Z * Z * double) :=
  match l with
  | SkippedLine _ _ => None
  | EdgeLine _ src _ dst _ w rest => Some (src, dst, if is_weighted then strtod (print_nat w ++ rest) else d_zero)
  end.

Lemma parse_edge_render is_weighted l p : line_ok l -> line_value is_weighted l = Some p ->
  parse_edge is_weighted (render l) = Val p.
Proof.
  intros Hl Hp. destruct l as [|lead src sep1 dst sep2 w rest]; [done|]. injection Hp as <-.
  destruct (parse_render lead src sep1 dst sep2 w rest Hl) as (Hends & Hnum & Hw). unfold parse_edge. rewrite Hends.
  bind_step. destruct is_weighted; [|done]. rewrite Hnum. cbn [negb].
  destruct Hl as (_ & _ & [H2 _] & _ & _ & _ & _ & _ & _ & Hwz). by rewrite skip_blank, skip_print by (done || apply Hwz).
Qed.

Lemma line_values is_weighted l : line_value is_weighted l = None <-> line_edge l = None.
Proof. by destruct l. Qed.

Lemma impl_edges_lines vertex_file w lines : forall handle fuel, pending handle lines -> (length lines < fuel)%nat ->
  impl_edges (PlainImpl (mkGraphalyticsPlainReader vertex_file handle w)) fuel =
    collect ignore_line (fun _ line => edge ← parse_edge w line; Val (edge, tt)) tt lines.
Proof.
  induction lines as [lines IH] using (well_founded_induction (well_founded_ltof _ (@length text))).
  intros handle fuel Hp Hfuel. destruct fuel as [|fuel]; [lia|]. cbn [impl_edges impl_read_edge].
  destruct lines as [|line lines].
  - unfold plain_read_edge. cbn [m_handle_edge_file]. by rewrite (pending_nil _ Hp).
  - destruct (plain_read_edge_pending vertex_file handle w line lines Hp) as (h & Hh). rewrite collect_skip.
    destruct (list_find _ (line :: lines)) as [[i l]|]; [|by rewrite Hh].
    destruct Hh as [-> Hp']. destruct (parse_edge w l) as [edge| | |]; try done. do 4 bind_step.
    rewrite (IH (drop (S i) (line :: lines))); [done| |done|].
    + unfold ltof. rewrite length_drop. simpl. lia.
    + rewrite length_drop. simpl in *. lia.
Qed.

Lemma collect_values is_weighted ls : Forall line_ok ls ->
  collect ignore_line (fun _ line => edge ← parse_edge is_weighted line; Val (edge, tt)) tt ((render <$> ls) ++ [[]]) =
    Val (omap (line_value is_weighted) ls).
Proof.
  induction 1 as [|l ls Hl _ IH]; [done|]. cbn [fmap list_fmap app collect omap list_omap]. rewrite render_ignored by done.
  destruct (line_value is_weighted l) as [p|] eqn:Hp.
  - rewrite bool_decide_eq_false_2 by (intros E%(line_values is_weighted); congruence).
    rewrite (parse_edge_render is_weighted l p) by done. do 2 bind_step. fold (fmap (M := list) render ls). by rewrite IH.
  - rewrite bool_decide_eq_true_2 by by apply (line_values is_weighted). exact IH.
Qed.

(** C31: [GraphalyticsReader] delivers the edges of its text file, printed with any
    white space, comments and empty lines: in the order of the file, with the
    weights of the file or random ones, and for an undirected graph, if it is
    asked to, each edge in both directions with the same weight. *)
Theorem graphalytics_reader_correct self vertex_file (ls : list Line) fuel (Hls : Forall line_ok ls)
  (Himpl : m_impl self = PlainImpl (mkGraphalyticsPlainReader vertex_file (istream_open (file_of (render <$> ls))) (m_is_weighted self)))
  (Hreported : m_last_reported self = true) (Hfuel : (2 * (length ls + 2) <= fuel)%nat) :
  read_all self fuel = Val (emitted (m_directed self) (m_emit_directed_edges self)
    (with_weights (m_is_weighted self) (m_random_generator self) (omap (line_value (m_is_weighted self)) ls))).
Proof.
  apply (read_all_impl (length ls + 2)); [|by rewrite Hreported, andb_false_r|done]. rewrite Himpl.
  rewrite (impl_edges_lines _ _ ((render <$> ls) ++ [[]])); [by apply collect_values| |rewrite length_app, length_fmap; simpl; lia].
  unfold pending. cbn [istream_open good s_eof s_fail negb andb s_rest].
  apply all_lines_file, Forall_fmap. apply (Forall_impl _ _ _ Hls line_newline).
Qed.

(** The compressed formats. *)
Lemma impl_edges_zlib2 fuel : forall vertices edges items, read_items 2 edges fuel = Val items ->
  Forall (fun item => length item = 2%nat) items ->
  impl_edges (ZlibImpl2 vertices edges) fuel = Val (omap zlib_edge items).
Proof.
  induction fuel as [|fuel IH]; intros vertices edges items E Hl; [done|]. cbn [read_items] in E. cbn [impl_edges impl_read_edge].
  destruct (read_item 2 edges) as [[[item|] edges']| | |]; try done; change (Val ?x ≫= ?f) with (f x) in E; cbv beta iota zeta in E.
  - apply res_bind_val in E as (items' & E & [= <-]). apply Forall_cons in Hl as [Hi Hl].
    destruct item as [|a [|b [|c item]]]; try done. do 2 bind_step. cbn [mbind option_bind zlib_edge omap list_omap].
    by rewrite (IH _ _ _ E Hl).
  - by injection E as <-.
Qed.
End files.

(** ** Example *)

Definition ex_files (path : text) : option text :=
  if bool_decide (path = text_of "g.properties") then
    Some (text_of "# a graph
graph.g.vertex-file = g.v
graph.g.edge-file = g.e
graph.g.directed = No
graph.g.edge-properties.names = weight
")
  else if bool_decide (path = text_of "/data/g.e") then Some (text_of "1 2 0.5
3 1 1
")
  else None.

Definition ex_edges : list WeightedEdge :=
  [mkWeightedEdge (mkEdge 1 2) (strtod (text_of "0.5")); mkWeightedEdge (mkEdge 2 1) (strtod (text_of "0.5"));
   mkWeightedEdge (mkEdge 3 1) d_one; mkWeightedEdge (mkEdge 1 3) d_one].

Example ex_graphalytics :
  (reader ← @GraphalyticsReader_new stored_zlib (fun path => text_of "/" ++ path) (fun _ => text_of "data") ex_files (text_of "g.properties");
   @read_all _ (@graphalytics_reader stored_zlib const_random d_one) (set_emit_directed_edges reader true) 9) = Val ex_edges.
Proof. by vm_compute. Qed.

Definition ex_reader : @GraphalyticsReader stored_zlib :=
  @mkGraphalyticsReader stored_zlib ∅ false true false
    (@PlainImpl stored_zlib (mkGraphalyticsPlainReader (istream_open []) (istream_open (file_of (render <$> ex_wel))) true))
    0 0 d_zero true true 0.

Lemma graphalytics_reader_correct_witness :
  @read_all _ (@graphalytics_reader stored_zlib const_random d_one) ex_reader 12 =
    Val (weighted <$> [(1, 2, 10); (2, 1, 10); (2, 18446744073709551615, 7); (18446744073709551615, 2, 7)]).
Proof.
  rewrite (@graphalytics_reader_correct stored_zlib const_random d_one ex_reader (istream_open []) ex_wel 12 ex_wel_ok);
    [by vm_compute|done|done|vm_compute; lia].
Defined.
