(* ===== verification/Graphlog.v ===== *)
(** [reader/graphlog_reader]: a log of edge updates in compressed blocks, after a
    header of properties. *)

From S2P Require Import Prelude Doubles CByteArray Text Edge Readers Zlib GraphalyticsReader.

(** ** Binary files

    The content, the position and the flags of a stream; the characters are
    bytes. *)

Record bstream := mkBstream { b_content : list Z; b_pos : nat; b_eof : bool; b_fail : bool }.

Definition b_good (h : bstream) : bool := negb (b_eof h) && negb (b_fail h).

Definition b_open (content : list Z) : bstream := mkBstream content 0 false false.

(** [h.read(buffer, n)]: the bytes that were read. *)
Definition b_read (n : nat) (h : bstream) : list Z * bstream :=
  if b_good h then
    let chunk := take n (drop (b_pos h) (b_content h)) in
    let short := (length chunk <? n)%nat in
    (chunk, mkBstream (b_content h) (b_pos h + length chunk) short short)
  else ([], mkBstream (b_content h) (b_pos h) (b_eof h) true).

(** [tellg], -1 when the stream has failed. *)
Definition tellg (h : bstream) : Z := if b_fail h then -1 else Z.of_nat (b_pos h).

Definition b_clear (h : bstream) : bstream := mkBstream (b_content h) (b_pos h) false false.

(** [seekg] clears the end of the file and does nothing when the stream has
    failed. *)
Definition seekg (pos : Z) (h : bstream) : bstream :=
  if b_fail h then mkBstream (b_content h) (b_pos h) false true
  else mkBstream (b_content h) (Z.to_nat pos) false false.

Definition seekg_end (h : bstream) : bstream := seekg (Z.of_nat (length (b_content h))) h.

(** ** Properties *)

Definition Properties := gmap text text.

Fixpoint properties_loop (properties : Properties) (handle : istream) (fuel : nat) : res Properties :=
  match fuel with
  | O => NoFuel
  | S fuel =>
    if s_eof handle then Val properties else
    let '(line, handle) := getline handle [] in
    if bool_decide (line = text_of "__BINARY_SECTION_FOLLOWS") then Val properties
    else
      match match_key_value (skip_spaces line) with
      | Some (key, value) => properties_loop (<[key := value]> properties) handle fuel
      | None => properties_loop properties handle fuel
      end
  end.

Definition parse_properties (file : option text) : res Properties :=
  match file with
  | None => Exn ReaderError
  | Some content =>
    let '(line, handle) := getline (istream_open content) [] in
    if bool_decide (line = text_of "# GRAPHLOG") then properties_loop ∅ handle (S (S (length content)))
    else Exn ReaderError
  end.

Definition stoull (value : text) : res Z :=
  let '(neg, l) := scan_sign (skip_spaces value) in
  if isdigit (cur l) then
    let v := (scan_digits 0 l).1 in
    if v <? 2 ^ 64 then Val (if neg then u64 (- v) else v) else Exn OutOfRange
  else Exn InvalidArgument.

Inductive Section_ := VTX_FINAL | VTX_TEMP | EDGES.

Definition section_key (s : Section_) : text :=
  text_of match s with
          | VTX_FINAL => "internal.vertices.final.begin"
          | VTX_TEMP => "internal.vertices.temporary.begin"
          | EDGES => "internal.edges.begin"
          end%string.

Definition set_marker (properties : Properties) (handle : bstream) (section : Section_) : res bstream :=
  match properties !! section_key section with
  | None => Exn ReaderError
  | Some value => pos ← stoull value; Val (seekg pos (b_clear handle))
  end.

(** ** [EdgeLoader] *)

Section loader.
Context `{Zlib}.

(** [m_input_stream_sz] *)
Definition INPUT_STREAM_SZ : nat := 2 ^ 20.

(** The field [avail_out] of zlib has 32 bits. *)
Definition to_avail_out (output_buffer_sz : Z) : nat := Z.to_nat (u32 output_buffer_sz).

(** The loop of [EdgeLoader::load], with what has been decompressed and the room
    that is left: the number of edges loaded, the bytes written and the handle. The
    number is computed from the size of the buffer: when [avail_out] has been cut
    to 32 bits, it counts bytes that were never written. *)
Fixpoint load_loop (output_buffer_sz handle_pos_start : Z) (handle : bstream) (z : z_stream) (out : list Z) (avail_out fuel : nat) :
    res (nat * list Z * bstream) :=
  match fuel with
  | O => NoFuel
  | S fuel =>
    let handle_pos_last := tellg handle in
    let '(chunk, handle) := b_read INPUT_STREAM_SZ handle in
    let '(input_stream_sz, handle) :=
      if b_eof handle then
        let handle := seekg_end (b_clear handle) in (tellg handle - handle_pos_last, handle)
      else (Z.of_nat INPUT_STREAM_SZ, handle) in
    if input_stream_sz =? 0 then Val (0%nat, out, handle) else
    let '(z, avail_in, produced, rc) := inflate z chunk avail_out in
    if negb (rc =? Z_OK) && negb (rc =? Z_STREAM_END) then Exn ReaderError else
    let out := out ++ produced in
    let avail_out := (avail_out - length produced)%nat in
    if (avail_out =? 0)%nat && negb (rc =? Z_STREAM_END) then Val (0%nat, out, seekg handle_pos_start handle)
    else if rc =? Z_STREAM_END then
      let loaded := u64 (output_buffer_sz - Z.of_nat avail_out) in
      if negb (loaded mod 24 =? 0) then Undef
      else Val (Z.to_nat (loaded / 24), out, seekg (handle_pos_last + (input_stream_sz - Z.of_nat (length avail_in))) handle)
    else if negb (bool_decide (avail_in = [])) then Undef (* the assertion of the next round *)
    else load_loop output_buffer_sz handle_pos_start handle z out avail_out fuel
  end.

(** [load(array, num_edges)] *)
Definition EdgeLoader_load (handle : bstream) (num_edges : nat) : res (nat * list Z * bstream) :=
  if negb (b_good handle) then Val (0%nat, [], handle) else
  let output_buffer_sz := u64 (Z.of_nat num_edges * 24) in
  load_loop output_buffer_sz (tellg handle) handle (inflateInit (-15)) [] (to_avail_out output_buffer_sz)
    (S (S (length (b_content handle)))).

(** The callers read all the edges that the loader has counted; beyond the bytes
    that it has written there is what the memory held before, which is not
    followed any further. *)
Definition load_written (handle : bstream) (num_edges : nat) : res (nat * list Z * bstream) :=
  '(num_edges_loaded, out, handle) ← EdgeLoader_load handle num_edges;
  if (length out <? 24 * num_edges_loaded)%nat then Undef else Val (num_edges_loaded, out, handle).

(** ** [EdgeBlockReader], [EdgeBlockLoader], [EdgeReader]

    The buffer of a block is shared by the loader and the reader. It holds the
    sources, the destinations and the weights of the edges. *)

Record EdgeBlockReader := mkEdgeBlockReader { m_ptr_block : list Z; m_position : nat; m_num_edges : nat }.

(** The [i]-th word of a buffer. *)
Definition word (bytes : list Z) (i : nat) : Z := key_of_bytes (take 8 (drop (8 * i) bytes)).

Definition block_edge (bytes : list Z) (num_edges i : nat) : WeightedEdge :=
  mkWeightedEdge (mkEdge (word bytes i) (word bytes (num_edges + i))) (double_of_bits (word bytes (2 * num_edges + i))).

Definition block_read_edge (self : EdgeBlockReader) : option WeightedEdge * EdgeBlockReader :=
  if (m_num_edges self <=? m_position self)%nat then (None, self)
  else (Some (block_edge (m_ptr_block self) (m_num_edges self) (m_position self)),
        mkEdgeBlockReader (m_ptr_block self) (S (m_position self)) (m_num_edges self)).

Definition has_next (self : EdgeBlockReader) : bool := (m_position self <? m_num_edges self)%nat.

Record EdgeReader := mkEdgeReader { m_handle : bstream; m_max_num_edges : nat; m_reader : EdgeBlockReader }.

(** [EdgeBlockLoader::load] on the handle of the reader. *)
Definition load_block (self : EdgeReader) : res EdgeReader :=
  '(num_edges, block, handle) ← load_written (m_handle self) (m_max_num_edges self);
  Val (mkEdgeReader handle (m_max_num_edges self) (mkEdgeBlockReader block 0 num_edges)).

Definition EdgeReader_new (file : option text) : res EdgeReader :=
  properties ← parse_properties file;
  block_size_bytes ← stoull (default [] (properties !! text_of "internal.edges.block_size"));
  if negb (block_size_bytes mod 24 =? 0) then Exn InvalidArgument else
  handle ← set_marker properties (b_open (default [] (file_bytes file))) EDGES;
  load_block (mkEdgeReader handle (Z.to_nat (block_size_bytes / 24)) (mkEdgeBlockReader [] 0 0)).

Definition graphlog_read (self : EdgeReader) : res (option WeightedEdge * EdgeReader) :=
  self ← (if has_next (m_reader self) then Val self else load_block self);
  let '(edge, reader) := block_read_edge (m_reader self) in
  Val (edge, mkEdgeReader (m_handle self) (m_max_num_edges self) reader).

#[export] Instance graphlog_reader : Reader EdgeReader := {
  read := graphlog_read;
  reader_is_directed := fun _ => false;
}.
End loader.

(** ** What is read *)

Section laws.
Context `{ZlibLaws}.

(** A block of updates: source, destination and the bits of the weight. *)
Definition block_words (es : list (Z * Z * Z)) : list Z := es.*1.*1 ++ es.*1.*2 ++ es.*2.

Definition block_bytes (es : list (Z * Z * Z)) : list Z := block_words es ≫= bytes_of_key 8.

Definition update_edge (e : Z * Z * Z) : WeightedEdge := mkWeightedEdge (mkEdge e.1.1 e.1.2) (double_of_bits e.2).

Definition update_ok (e : Z * Z * Z) : Prop := is_u64 e.1.1 /\ is_u64 e.1.2 /\ is_u64 e.2.

Lemma word_at ws : forall i w, ws !! i = Some w -> is_u64 w -> word (ws ≫= bytes_of_key 8) i = w.
Proof.
  induction ws as [|x ws IH]; intros i w Hi Hw; [done|]. unfold word in *. cbn [mbind list_bind].
  destruct i as [|i].
  - injection Hi as ->. change (8 * 0)%nat with 0%nat. rewrite drop_0, take_app_length' by (by rewrite length_bytes_of_key).
    rewrite key_of_bytes_of_key. by apply Z.mod_small.
  - replace (8 * S i)%nat with (length (bytes_of_key 8 x) + 8 * i)%nat by (rewrite length_bytes_of_key; lia).
    rewrite <- drop_drop, drop_app_length. by apply IH.
Qed.

Lemma length_words es : length (block_words es) = (3 * length es)%nat.
Proof. unfold block_words. rewrite !length_app, !length_fmap. lia. Qed.

Lemma length_bytes ws : length (ws ≫= bytes_of_key 8) = (8 * length ws)%nat.
Proof. induction ws as [|w ws IH]; [done|]. cbn [mbind list_bind length]. rewrite length_app, length_bytes_of_key, IH. lia. Qed.

Lemma block_edge_at es i e : es !! i = Some e -> update_ok e ->
  block_edge (block_bytes es) (length es) i = update_edge e.
Proof.
  intros Hi (H1 & H2 & H3). unfold block_edge, block_bytes, update_edge, block_words.
  assert (es.*1.*1 !! i = Some e.1.1 /\ es.*1.*2 !! i = Some e.1.2 /\ es.*2 !! i = Some e.2) as (E1 & E2 & E3).
  { by rewrite !list_lookup_fmap, Hi. }
  rewrite (word_at _ i e.1.1), (word_at _ (length es + i) e.1.2), (word_at _ (2 * length es + i) e.2); try done.
  - rewrite !lookup_app_r; rewrite !length_fmap; [|lia..]. by replace (2 * length es + i - length es - length es)%nat with i by lia.
  - rewrite lookup_app_r, lookup_app_l; rewrite !length_fmap; [|apply lookup_lt_Some in Hi; lia|lia].
    by replace (length es + i - length es)%nat with i by lia.
  - rewrite lookup_app_l; [done|]. rewrite !length_fmap. by apply lookup_lt_Some in Hi.
Qed.

(** ** Loading a block *)

Definition at_pos (content : list Z) (pos : nat) : bstream := mkBstream content pos false false.

(** What one round reads, and where the handle is. *)
Lemma read_round content pos : (pos <= length content)%nat ->
  exists handle, b_read INPUT_STREAM_SZ (at_pos content pos) = (take INPUT_STREAM_SZ (drop pos content), handle) /\
    (if b_eof handle then
       let handle := seekg_end (b_clear handle) in (tellg handle - tellg (at_pos content pos), handle)
     else (Z.of_nat INPUT_STREAM_SZ, handle)) =
    (Z.of_nat (length (take INPUT_STREAM_SZ (drop pos content))),
     at_pos content (pos + length (take INPUT_STREAM_SZ (drop pos content)))).
Proof.
  intros Hpos. unfold b_read, at_pos. cbn [b_good b_eof b_fail negb andb b_pos b_content]. generalize INPUT_STREAM_SZ as n. intros n.
  eexists. split; [done|]. cbn [b_eof].
  destruct (Nat.ltb_spec (length (take n (drop pos content))) n) as [Hlt|Hge]; rewrite length_take, length_drop in *.
  - unfold seekg_end, seekg, b_clear, tellg. cbn [b_eof b_fail b_content b_pos]. apply (f_equal2 pair); [lia|].
    unfold at_pos. f_equal. lia.
  - apply (f_equal2 pair); [lia|done].
Qed.

Lemma load_loop_spec content size start n : size < 2 ^ 64 -> forall c z done_ rest_ pos trailing fuel,
  z_repr z c rest_ -> drop pos content = c ++ trailing -> (pos <= length content)%nat -> c <> [] ->
  (length (done_ ++ rest_) = 24 * n)%nat -> (length c < fuel)%nat ->
  forall avail_out, size = Z.of_nat (length done_ + avail_out) -> (length rest_ <= avail_out)%nat -> (0 < avail_out)%nat ->
  (length rest_ < avail_out)%nat \/ (length c <= INPUT_STREAM_SZ)%nat ->
  load_loop size start (at_pos content pos) z done_ avail_out fuel = Val (n, done_ ++ rest_, at_pos content (pos + length c)).
Proof.
  intros Hsize64 c. induction c as [c IH] using (well_founded_induction (well_founded_ltof _ (@length Z))).
  intros z done_ rest_ pos trailing fuel Hz Hdrop Hpos Hne Hlen Hfuel avail_out Hsize Hroom Hpos_out Hfits.
  destruct fuel as [|fuel]; [lia|]. cbn [load_loop].
  destruct (read_round content pos Hpos) as (h & E1 & E2). rewrite E1. cbv beta iota zeta in E2 |- *. rewrite E2. cbv beta iota.
  clear h E1 E2.
  set (chunk := take INPUT_STREAM_SZ (drop pos content)).
  assert (0 < INPUT_STREAM_SZ)%nat as Hsz by (apply Nat.neq_0_lt_0; by apply Nat.pow_nonzero).
  assert (chunk <> []) as Hchunk.
  { unfold chunk. rewrite Hdrop. destruct INPUT_STREAM_SZ; [lia|]. by destruct c. }
  rewrite (proj2 (Z.eqb_neq _ _)) by (destruct chunk; [done|simpl; lia]).
  destruct (inflate_law z c rest_ trailing chunk (drop INPUT_STREAM_SZ (drop pos content)) avail_out Hz)
    as (z' & consumed & lo & produced & rc & c' & out' & -> & Hi & Hc & Ho & Hp & Hz' & Hrc);
    [unfold chunk; by rewrite take_drop, Hdrop|by left|done|].
  assert (length chunk + pos <= length content)%nat as Hin by (unfold chunk; rewrite length_take, length_drop; lia).
  destruct Hrc as [(-> & -> & ->)|(-> & Hc' & Hstop)].
  - rewrite app_nil_r in Hc, Ho. subst consumed rest_. change (negb (Z_STREAM_END =? Z_OK) && negb (Z_STREAM_END =? Z_STREAM_END)) with false.
    cbv iota. rewrite andb_false_r. change (Z_STREAM_END =? Z_STREAM_END) with true. cbv iota.
    rewrite length_app in Hlen.
    assert (u64 (size - Z.of_nat (avail_out - length produced)) = Z.of_nat n * 24) as ->.
    { rewrite u64_id; unfold is_u64; lia. }
    rewrite Z.mod_mul, Z.div_mul, Nat2Z.id by done. cbn [Z.eqb negb].
    apply (f_equal length) in Hi. rewrite length_app in Hi. unfold seekg, tellg, at_pos. cbn [b_fail b_content b_pos].
    do 3 f_equal. lia.
  - assert (length rest_ < avail_out \/ lo = [] /\ c' <> [] /\ (length c <= INPUT_STREAM_SZ) \/ out' <> [])%nat as Hcase.
    { destruct Hfits; [by left|right]. destruct Hstop as [->|[_ ?]]; [by left|by right]. }
    assert (lo = [] /\ (length produced < avail_out)%nat) as [-> Hless].
    { subst rest_. rewrite length_app in *. destruct Hstop as [->|[Hfull Hout]].
      - split; [done|]. destruct Hcase as [?|[(_ & _ & Hle)|Hout]]; [lia| |destruct out'; [done|simpl in *; lia]].
        exfalso. apply Hc'. rewrite app_nil_r in Hi. subst consumed.
        apply (f_equal (take INPUT_STREAM_SZ)) in Hdrop. fold chunk in Hdrop. rewrite take_app_ge in Hdrop by lia.
        rewrite Hdrop in Hc. apply (f_equal length) in Hc. rewrite !length_app in Hc. destruct c'; [done|simpl in Hc; lia].
      - destruct out'; [done|simpl in *; lia]. }
    rewrite app_nil_r in Hi. subst consumed.
    change (negb (Z_OK =? Z_OK) && negb (Z_OK =? Z_STREAM_END)) with false. cbv iota.
    rewrite (proj2 (Nat.eqb_neq _ _)) by lia. change (Z_OK =? Z_STREAM_END) with false. cbn [andb negb]. cbv iota.
    rewrite bool_decide_eq_true_2 by done. cbn [negb]. cbv iota.
    assert (length c = length chunk + length c')%nat as Hlc by (rewrite Hc, length_app; lia).
    assert (length rest_ = length produced + length out')%nat as Hlr by (rewrite Ho, length_app; lia).
    assert (0 < length chunk)%nat by (destruct chunk; [done|simpl; lia]).
    rewrite (IH c') with (rest_ := out') (trailing := trailing) (z := z'); try done.
    + rewrite <- app_assoc, <- Ho. do 3 f_equal. lia.
    + unfold ltof. lia.
    + rewrite <- drop_drop, Hdrop, Hc, <- app_assoc. apply drop_app_length.
    + lia.
    + rewrite <- app_assoc, <- Ho. done.
    + lia.
    + rewrite length_app. lia.
    + lia.
    + lia.
    + lia.
Qed.

(** ** Reading the blocks *)

(** A block that fits into the buffer, whose size zlib can be told in 32 bits. *)
Definition compressed_block (max_num_edges : nat) (b : list Z * list (Z * Z * Z)) : Prop :=
  24 * Z.of_nat max_num_edges < 2 ^ 32 /\
  z_repr (inflateInit (-15)) b.1 (block_bytes b.2) /\ b.2 <> [] /\ Forall update_ok b.2 /\
  (length b.2 <= max_num_edges)%nat /\ ((length b.2 < max_num_edges)%nat \/ (length b.1 <= INPUT_STREAM_SZ)%nat).

Lemma edge_loader_spec content pos max b trailing : compressed_block max b -> drop pos content = b.1 ++ trailing ->
  (pos <= length content)%nat ->
  EdgeLoader_load (at_pos content pos) max = Val (length b.2, block_bytes b.2, at_pos content (pos + length b.1)).
Proof.
  destruct b as [c es]. intros (Hmax & Hz & Hne & Hok & Hle & Hfit) Hdrop Hpos. cbn [fst snd] in *.
  unfold EdgeLoader_load, to_avail_out. cbn [at_pos b_good b_eof b_fail negb andb b_content].
  assert (u64 (Z.of_nat max * 24) = Z.of_nat max * 24) as -> by (apply u64_id; unfold is_u64; lia).
  assert (u32 (Z.of_nat max * 24) = Z.of_nat max * 24) as -> by (unfold u32; rewrite Z.mod_small; lia).
  assert (length (block_bytes es) = 24 * length es)%nat as Hlen.
  { unfold block_bytes. rewrite length_bytes, length_words. lia. }
  assert (0 < length es)%nat by (destruct es; [done|simpl; lia]).
  cbv zeta. rewrite (load_loop_spec content (Z.of_nat max * 24) _ (length es) ltac:(lia) c) with (rest_ := block_bytes es) (trailing := trailing); try done; try lia.
  - intros ->. apply consumed_law in Hz. rewrite Hz in Hlen. simpl in Hlen. lia.
  - apply (f_equal length) in Hdrop. rewrite length_drop, length_app in Hdrop. lia.
  - cbn [length]. lia.
Qed.

Lemma load_written_spec content pos max b trailing : compressed_block max b -> drop pos content = b.1 ++ trailing ->
  (pos <= length content)%nat ->
  load_written (at_pos content pos) max = Val (length b.2, block_bytes b.2, at_pos content (pos + length b.1)).
Proof.
  intros Hb Hdrop Hpos. unfold load_written. rewrite (edge_loader_spec _ _ _ _ _ Hb Hdrop Hpos), res_bind_Val_l. cbv beta iota.
  rewrite (proj2 (Nat.ltb_ge _ _)); [done|]. unfold block_bytes. rewrite length_bytes, length_words. lia.
Qed.

Lemma load_block_spec content pos max b trailing reader : compressed_block max b -> drop pos content = b.1 ++ trailing ->
  (pos <= length content)%nat ->
  load_block (mkEdgeReader (at_pos content pos) max reader) =
    Val (mkEdgeReader (at_pos content (pos + length b.1)) max (mkEdgeBlockReader (block_bytes b.2) 0 (length b.2))).
Proof.
  intros Hb Hdrop Hpos. unfold load_block. cbn [m_handle m_max_num_edges]. by rewrite (load_written_spec _ _ _ _ _ Hb Hdrop Hpos).
Qed.

Lemma load_loop_end content size start z avail_out fuel :
  load_loop size start (at_pos content (length content)) z [] avail_out (S fuel) = Val (0%nat, [], at_pos content (length content)).
Proof.
  cbn [load_loop]. destruct (read_round content (length content) (le_n _)) as (h & E1 & E2). rewrite E1.
  cbv beta iota zeta in E2 |- *. rewrite E2. rewrite drop_ge, take_nil by done. cbn [length].
  change (Z.of_nat 0 =? 0) with true. cbv iota. by rewrite Nat.add_0_r.
Qed.

Lemma edge_loader_end content max : EdgeLoader_load (at_pos content (length content)) max = Val (0%nat, [], at_pos content (length content)).
Proof. unfold EdgeLoader_load. by rewrite load_loop_end. Qed.

Lemma load_written_end content max : load_written (at_pos content (length content)) max = Val (0%nat, [], at_pos content (length content)).
Proof. unfold load_written. by rewrite edge_loader_end. Qed.

Lemma load_block_end content max reader :
  load_block (mkEdgeReader (at_pos content (length content)) max reader) =
    Val (mkEdgeReader (at_pos content (length content)) max (mkEdgeBlockReader [] 0 0)).
Proof. unfold load_block. cbn [m_handle m_max_num_edges]. by rewrite load_written_end. Qed.

(** The updates of a block from the [i]-th on. *)
Lemma read_all_block handle max es k : forall i fuel, Forall update_ok es -> (i + k = length es)%nat ->
  read_all (mkEdgeReader handle max (mkEdgeBlockReader (block_bytes es) i (length es))) (k + fuel) =
    rest ← read_all (mkEdgeReader handle max (mkEdgeBlockReader (block_bytes es) (length es) (length es))) fuel;
    Val ((update_edge <$> drop i es) ++ rest).
Proof.
  induction k as [|k IH]; intros i fuel Hok Hi.
  - replace i with (length es) by lia. rewrite drop_ge by done. cbn [Nat.add fmap list_fmap app]. by destruct (read_all _ fuel).
  - destruct (lookup_lt_is_Some_2 es i) as [e He]; [lia|]. cbn [Nat.add read_all read graphlog_reader].
    unfold graphlog_read at 1. unfold has_next. cbn [m_reader m_position m_num_edges]. rewrite (proj2 (Nat.ltb_lt _ _)) by lia.
    bind_step. unfold block_read_edge. cbn [m_reader m_position m_num_edges m_ptr_block m_handle m_max_num_edges].
    rewrite (proj2 (Nat.leb_gt _ _)) by lia. rewrite (block_edge_at es i e He) by (by apply (Forall_lookup_1 _ _ _ _ Hok He)).
    do 2 bind_step. rewrite (IH (S i)) by (done || lia). rewrite (drop_S es e i He). by destruct (read_all _ fuel).
Qed.

Lemma read_all_blocks content max blocks : forall pos reader fuel, Forall (compressed_block max) blocks ->
  drop pos content = blocks ≫= fst -> (pos <= length content)%nat -> has_next reader = false ->
  (sum_list_with (fun b => length b.2) blocks < fuel)%nat ->
  read_all (mkEdgeReader (at_pos content pos) max reader) fuel = Val (update_edge <$> (blocks ≫= snd)).
Proof.
  induction blocks as [|b blocks IH]; intros pos reader fuel Hok Hdrop Hpos Hnext Hfuel; (destruct fuel as [|fuel]; [lia|]).
  - cbn [read_all read graphlog_reader]. unfold graphlog_read. cbn [m_reader]. rewrite Hnext.
    assert (pos = length content) as ->.
    { apply (f_equal length) in Hdrop. rewrite length_drop in Hdrop. simpl in Hdrop. lia. }
    by rewrite load_block_end.
  - apply Forall_cons in Hok as [Hb Hok]. cbn [mbind list_bind sum_list_with] in Hdrop, Hfuel.
    pose proof (load_block_spec content pos max b _ reader Hb Hdrop Hpos) as Hload.
    set (self1 := mkEdgeReader (at_pos content (pos + length b.1)) max (mkEdgeBlockReader (block_bytes b.2) 0 (length b.2))) in Hload.
    destruct Hb as (_ & _ & Hne & Hupd & _). assert (0 < length b.2)%nat by (destruct b.2; [done|simpl; lia]).
    assert (read_all (mkEdgeReader (at_pos content pos) max reader) (S fuel) = read_all self1 (S fuel)) as ->.
    { cbn [read_all read graphlog_reader]. unfold graphlog_read. cbn [m_reader]. rewrite Hnext, Hload.
      assert (has_next (m_reader self1) = true) as -> by (apply Nat.ltb_lt; simpl; lia). done. }
    replace (S fuel) with (length b.2 + (S fuel - length b.2))%nat by lia. unfold self1.
    rewrite read_all_block by (done || lia). rewrite (IH (pos + length b.1)%nat) ; [|done| | | |lia].
    + bind_val. cbn [mbind list_bind drop]. by rewrite fmap_app.
    + rewrite <- drop_drop, Hdrop. apply drop_app_length.
    + apply (f_equal length) in Hdrop. rewrite length_drop, length_app in Hdrop. lia.
    + unfold has_next. cbn. apply Nat.ltb_irrefl.
Qed.

Lemma stoull_number z : is_u64 z -> stoull (print_nat z) = Val z.
Proof.
  intros [Hz Hlt]. unfold stoull. rewrite <- (app_nil_r (print_nat z)). rewrite skip_print by done.
  destruct (print_nat_cons z Hz) as (c & l & Hp & Hc). pose proof (scan_print z [] Hz eq_refl) as Hscan.
  rewrite Hp in Hscan |- *. cbn [app] in Hscan |- *. rewrite digit_sign by done. cbn [cur]. rewrite Hc, Hscan. cbn [fst].
  by rewrite (proj2 (Z.ltb_lt _ _)).
Qed.

End laws.

(** ** Example *)

Definition ex_header : text := text_of "# GRAPHLOG
# blocks of two updates
internal.edges.block_size = 48
internal.edges.begin=116
__BINARY_SECTION_FOLLOWS
".

(** The weight -1 stands for a deletion. *)
Definition ex_updates : list (list (Z * Z * Z)) :=
  [[(1, 2, 4607182418800017408); (3, 4, 4607182418800017408)]; [(1, 2, 13830554455654793216)]].

Definition ex_blocks : list (list Z * list (Z * Z * Z)) := (fun es => (stored (block_bytes es), es)) <$> ex_updates.

Definition ex_file : text := ex_header ++ ((fun b => ascii_of_N (Z.to_N b)) <$> (ex_blocks ≫= fst)).

Definition ex_properties : Properties :=
  match parse_properties (Some ex_file) with Val properties => properties | _ => ∅ end.

Lemma ex_properties_parsed : parse_properties (Some ex_file) = Val ex_properties.
Proof.
  assert (match parse_properties (Some ex_file) with Val _ => true | _ => false end = true) as E by by vm_compute.
  unfold ex_properties. by destruct (parse_properties (Some ex_file)).
Qed.

Lemma ex_property key value : bool_decide (ex_properties !! key = Some value) = true -> ex_properties !! key = Some value.
Proof. apply bool_decide_eq_true. Qed.

Definition ex_log : list WeightedEdge :=
  [mkWeightedEdge (mkEdge 1 2) d_one; mkWeightedEdge (mkEdge 3 4) d_one; mkWeightedEdge (mkEdge 1 2) (double_of_Z (-1))].

#[export] Instance update_ok_dec e : Decision (update_ok e).
Proof. unfold update_ok, is_u64. apply _. Defined.

Lemma ex_block_ok es : es <> [] -> bool_decide (Forall update_ok es) = true -> (length es <=? 2)%nat = true ->
  (length (stored (block_bytes es)) <=? INPUT_STREAM_SZ)%nat = true ->
  @compressed_block stored_zlib stored_laws 2 (stored (block_bytes es), es).
Proof. intros Hne Hok%bool_decide_eq_true Hle%Nat.leb_le Hc%Nat.leb_le. split_and!; try done. by right. Qed.

