(* ===== verification/GraphlogVertices.v ===== *)
(** The vertices of a graphlog file ([reader/graphlog_reader]): the loader and the
    reader of a compressed section of vertices. *)

From S2P Require Import Prelude Doubles CByteArray Text Edge Readers Zlib GraphalyticsReader Graphlog.

(** [seekp], which unlike [seekg] does not clear the end of the file. *)
Definition seekp (pos : Z) (h : bstream) : bstream :=
  if b_fail h then h else mkBstream (b_content h) (Z.to_nat pos) (b_eof h) (b_fail h).

(** The first [n] bytes of a part of the memory, of which no more is known than
    the list holds. *)
Definition bytes_at (n : Z) (memory : list Z) : list Z :=
  if Z.of_nat (length memory) <=? n then memory else take (Z.to_nat n) memory.

Section loader.
Context `{Zlib}.

(** [vl_input_stream] is the memory from the start of the buffer on, [vl_next_in]
    the bytes that zlib has been told to be available, [vl_leftover] the first
    [m_output_leftover_sz] bytes of [m_output_leftover]. *)
Record VertexLoader := mkVertexLoader {
  vl_handle : bstream;
  vl_input_stream : list Z;
  vl_input_stream_pos : Z;
  vl_zstream : option z_stream;
  vl_next_in : list Z;
  vl_leftover : list Z;
}.

(** [memory]: what the memory holds before anything is read. *)
Definition VertexLoader_new (handle : bstream) (memory : list Z) : VertexLoader :=
  mkVertexLoader handle memory (tellg handle) (Some (inflateInit (-15))) [] [].

(** The next chunk of the input, when the last one has been consumed. After a short
    read [tellg] is -1, and the number of bytes read is computed from it; the field
    of zlib that it is stored in has 32 bits. *)
Definition read_chunk (l : VertexLoader) : VertexLoader :=
  if negb (bool_decide (vl_next_in l = [])) then l else
  let handle := seekp (vl_input_stream_pos l) (vl_handle l) in
  let '(chunk, handle) := b_read INPUT_STREAM_SZ handle in
  let stream := chunk ++ drop (length chunk) (vl_input_stream l) in
  let data_read :=
    if b_eof handle then u64 (u64 (tellg handle) - Z.of_nat INPUT_STREAM_SZ) else Z.of_nat INPUT_STREAM_SZ in
  mkVertexLoader handle stream (i64 (vl_input_stream_pos l + data_read)) (vl_zstream l) (bytes_at (u32 data_read) stream) (vl_leftover l).

(** The loop of [load]: how many vertices, and the bytes written to the array. When
    [avail_out] has been cut to 32 bits, more bytes are counted than have been
    written, and the word that is left over may lie beyond them. *)
Fixpoint load_vertices (l : VertexLoader) (zstream : z_stream) (array_sz fuel : nat) : res (nat * list Z * VertexLoader) :=
  match fuel with
  | O => NoFuel
  | S fuel =>
    let l := read_chunk l in
    let output_buffer_sz := u64 (Z.of_nat array_sz * 8 - Z.of_nat (length (vl_leftover l))) in
    let avail_out := to_avail_out output_buffer_sz in
    let '(zstream, next_in, produced, rc) := inflate zstream (vl_next_in l) avail_out in
    if negb (rc =? Z_OK) && negb (rc =? Z_STREAM_END) then Exn ReaderError else
    let depleted := rc =? Z_STREAM_END in
    let data := vl_leftover l ++ produced in
    let data_processed :=
      u64 (Z.of_nat (length (vl_leftover l)) + (output_buffer_sz - Z.of_nat (avail_out - length produced))) in
    let num_elements_loaded := Z.to_nat (data_processed / 8) in
    let leftover := drop (8 * num_elements_loaded) data in
    if negb (Z.of_nat (length leftover) =? data_processed mod 8) then Undef else
    if depleted && negb (bool_decide (leftover = [])) then Undef else
    let l := mkVertexLoader (vl_handle l) (vl_input_stream l) (vl_input_stream_pos l) (if depleted then None else Some zstream) next_in leftover in
    if (num_elements_loaded =? 0)%nat && negb depleted then load_vertices l zstream array_sz fuel
    else Val (num_elements_loaded, take (8 * num_elements_loaded) data, l)
  end.

Definition VertexLoader_load (l : VertexLoader) (array_sz : nat) : res (nat * list Z * VertexLoader) :=
  match vl_zstream l with
  | None => Val (0%nat, [], l)
  | Some zstream =>
    if (array_sz =? 0)%nat then Val (0%nat, [], l)
    else load_vertices l zstream array_sz (S (S (length (b_content (vl_handle l)))))
  end.

(** ** [VertexReader] *)

Record VertexReader := mkVertexReader {
  m_loader : VertexLoader;
  vr_buffer_size : nat;
  vr_buffer : list Z;
  vr_position : nat;
}.

Definition vr_buffer_capacity : nat := 2 ^ 20.

Definition VertexReader_new (handle : bstream) (memory : list Z) : VertexReader :=
  mkVertexReader (VertexLoader_new handle memory) 0 [] 0.

Definition read_vertex (r : VertexReader) : res (option Z * VertexReader) :=
  r ← (if (vr_buffer_size r <=? vr_position r)%nat then
         '(size, buffer, loader) ← VertexLoader_load (m_loader r) vr_buffer_capacity;
         Val (mkVertexReader loader size buffer 0)
       else Val r);
  if (vr_buffer_size r <=? vr_position r)%nat then Val (None, r)
  else Val (Some (word (vr_buffer r) (vr_position r)), mkVertexReader (m_loader r) (vr_buffer_size r) (vr_buffer r) (S (vr_position r))).

(** All vertices of a section. *)
Fixpoint read_vertices (r : VertexReader) (fuel : nat) : res (list Z) :=
  match fuel with
  | O => NoFuel
  | S fuel =>
    '(v, r) ← read_vertex r;
    match v with
    | None => Val []
    | Some v => vs ← read_vertices r fuel; Val (v :: vs)
    end
  end.
End loader.

(** ** What is read *)

Section laws.
Context `{ZlibLaws}.

Local Notation bytes ws := (ws ≫= bytes_of_key 8).

Lemma input_stream_sz : (0 < INPUT_STREAM_SZ)%nat /\ Z.of_nat INPUT_STREAM_SZ = 2 ^ 20.
Proof. unfold INPUT_STREAM_SZ. split; [apply Nat.neq_0_lt_0; by apply Nat.pow_nonzero|]. by rewrite Nat2Z.inj_pow. Qed.

(** What zlib is told to be available and what has not been read from the file; after
    a short read the former is the rest of the file and what follows the buffer. *)
Definition input_ready (l : VertexLoader) (c : list Z) : Prop :=
  (exists content pos trailing, vl_handle l = at_pos content pos /\ vl_input_stream_pos l = Z.of_nat pos /\
     (pos <= length content)%nat /\ Z.of_nat (length content) < 2 ^ 62 /\ vl_next_in l ++ drop pos content = c ++ trailing) \/
  (exists t, vl_next_in l = c ++ t).

(** The words [ws] are still to be loaded. *)
Definition loader_repr (l : VertexLoader) (ws : list Z) : Prop :=
  match vl_zstream l with
  | None => ws = [] /\ vl_leftover l = []
  | Some z => exists c out, z_repr z c out /\ c <> [] /\ (length c <= length (b_content (vl_handle l)))%nat /\
      vl_leftover l ++ out = bytes ws /\ (length (vl_leftover l) < 8)%nat /\ input_ready l c
  end.

Lemma bytes_at_prefix n chunk t : Z.of_nat (length chunk) <= n -> exists t', bytes_at n (chunk ++ t) = chunk ++ t'.
Proof.
  intros Hn. unfold bytes_at. destruct (Z.of_nat (length (chunk ++ t)) <=? n); [by exists t|].
  exists (take (Z.to_nat n - length chunk) t). apply take_app_ge. lia.
Qed.

Lemma bytes_at_exact chunk t : bytes_at (Z.of_nat (length chunk)) (chunk ++ t) = chunk.
Proof.
  unfold bytes_at. destruct (Z.leb_spec (Z.of_nat (length (chunk ++ t))) (Z.of_nat (length chunk))) as [Hle|].
  - rewrite length_app in Hle. destruct t; [apply app_nil_r|simpl in Hle; lia].
  - rewrite Nat2Z.id. apply take_app_length.
Qed.

(** A chunk is read when there is no input, and there is some then: all of it, if it
    fits. *)
Lemma read_chunk_ready l c : input_ready l c -> c <> [] ->
  input_ready (read_chunk l) c /\ vl_next_in (read_chunk l) <> [] /\
  (vl_next_in l = [] -> (length c <= INPUT_STREAM_SZ)%nat -> exists t, vl_next_in (read_chunk l) = c ++ t).
Proof.
  intros Hin Hc. unfold read_chunk. case_bool_decide as Hnext; cbn [negb]; [|done].
  destruct Hin as [(content & pos & trailing & Hh & Hp & Hle & Hsmall & Hdata)|[t Ht]];
    [|rewrite Hnext in Ht; symmetry in Ht; by apply app_nil in Ht as [-> _]].
  rewrite Hnext in Hdata. cbn [app] in Hdata. rewrite Hh, Hp. unfold seekp, at_pos, b_read. cbn [b_fail b_content b_good b_eof negb andb b_pos].
  rewrite Nat2Z.id. destruct input_stream_sz as [Hpos Hsz]. revert Hpos Hsz. generalize INPUT_STREAM_SZ as sz. intros sz Hpos Hsz.
  set (chunk := take sz (drop pos content)).
  assert (chunk <> []) as Hne by (unfold chunk; rewrite Hdata; destruct sz; [lia|]; by destruct c).
  assert (chunk ++ drop sz (drop pos content) = drop pos content) as Hsplit by apply take_drop.
  assert (length chunk <= sz)%nat as Hmax by (unfold chunk; rewrite length_take; lia).
  assert (pos + length chunk <= length content)%nat as Hend by (unfold chunk; rewrite length_take, length_drop; lia).
  assert (length chunk < sz -> drop sz (drop pos content) = [])%nat as Hrest.
  { unfold chunk. rewrite length_take. intros Hlt. apply drop_ge. lia. }
  clearbody chunk. destruct (Nat.ltb_spec (length chunk) sz) as [Hshort|Hfull]; unfold input_ready, tellg;
    cbn [b_eof b_fail vl_handle vl_next_in vl_input_stream_pos vl_zstream vl_leftover].
  - rewrite Hsz. change (u32 _) with (2 ^ 32 - 2 ^ 20 - 1).
    destruct (bytes_at_prefix (2 ^ 32 - 2 ^ 20 - 1) chunk (drop (length chunk) (vl_input_stream l))) as [t' ->]; [lia|].
    assert (chunk ++ t' = c ++ trailing ++ t') as Hall by (by rewrite app_assoc, <- Hdata, <- Hsplit, Hrest, app_nil_r).
    split; [right; by exists (trailing ++ t')|]. split; [intros [? _]%app_nil; exact (Hne H1)|]. intros _ _. by exists (trailing ++ t').
  - assert (length chunk = sz) as Hlen by lia. rewrite Hsz. change (u32 (2 ^ 20)) with (2 ^ 20). rewrite <- Hsz, <- Hlen, bytes_at_exact.
    split; [left|split; [exact Hne|]].
    + exists content, (pos + length chunk)%nat, trailing.
      split; [done|]. split; [rewrite i64_id; lia|]. split; [done|]. split; [done|].
      by rewrite <- Hdata, <- drop_drop, <- Hsplit, Hlen, drop_app_length'.
    + intros _ Hfits. exists (take (length chunk - length c) trailing). rewrite <- take_app_ge by done.
      by rewrite <- Hdata, <- Hsplit, take_app_length.
Qed.

Lemma read_chunk_frame l : b_content (vl_handle (read_chunk l)) = b_content (vl_handle l) /\
  vl_zstream (read_chunk l) = vl_zstream l /\ vl_leftover (read_chunk l) = vl_leftover l.
Proof.
  unfold read_chunk. destruct (negb _); [done|]. unfold seekp, b_read. destruct (b_fail (vl_handle l)) eqn:Hf;
    repeat case_match; by simplify_eq/=.
Qed.

(** Whole words and a rest are what some bytes of [ws] hold. *)
Lemma split_words data out ws : data ++ out = bytes ws ->
  let n := (length data / 8)%nat in
  (n <= length ws)%nat /\ take (8 * n) data = bytes (take n ws) /\ drop (8 * n) data ++ out = bytes (drop n ws) /\
  (length (drop (8 * n) data) < 8)%nat /\ length (take n ws) = n.
Proof.
  intros E n. pose proof (Nat.div_mod_eq (length data) 8) as Hdiv. fold n in Hdiv. pose proof (Nat.mod_upper_bound (length data) 8 ltac:(done)) as Hmod.
  assert (n <= length ws)%nat as Hn.
  { pose proof (f_equal length E) as Hl. rewrite length_app, length_bytes in Hl. lia. }
  assert (bytes ws = bytes (take n ws) ++ bytes (drop n ws)) as Hsplit by (rewrite <- bind_app, take_drop; done).
  assert (length (bytes (take n ws)) = 8 * n)%nat as Hlen by (rewrite length_bytes, length_take; lia).
  rewrite Hsplit in E. split; [done|]. split; [|split; [|split]].
  - apply (f_equal (take (8 * n))) in E. rewrite take_app_le in E by lia. rewrite E. by apply take_app_length'.
  - apply (f_equal (drop (8 * n))) in E. rewrite drop_app_le in E by lia. rewrite E. by apply drop_app_length'.
  - rewrite length_drop. lia.
  - rewrite length_take. lia.
Qed.

(** An array whose size zlib can be told in 32 bits. *)
Definition array_fits (array_sz : nat) : Prop := (0 < array_sz)%nat /\ 8 * Z.of_nat array_sz < 2 ^ 32.

(** What is counted has been written then. *)
Lemma output_room array_sz leftover produced : array_fits array_sz -> (leftover < 8)%nat ->
  let size := u64 (Z.of_nat array_sz * 8 - Z.of_nat leftover) in
  to_avail_out size = (array_sz * 8 - leftover)%nat /\
  ((produced <= array_sz * 8 - leftover)%nat ->
   u64 (Z.of_nat leftover + (size - Z.of_nat (array_sz * 8 - leftover - produced))) = Z.of_nat (leftover + produced)).
Proof.
  intros [Hpos Hsz] Hl size.
  assert (size = Z.of_nat array_sz * 8 - Z.of_nat leftover) as E by (apply u64_id; unfold is_u64; lia).
  clearbody size. subst size. split.
  - unfold to_avail_out, u32. rewrite Z.mod_small by lia. lia.
  - intros Hp. rewrite u64_id; unfold is_u64; lia.
Qed.

Lemma counted (data : list Z) :
  Z.to_nat (Z.of_nat (length data) / 8) = (length data / 8)%nat /\
  (Z.of_nat (length (drop (8 * (length data / 8)) data)) =? Z.of_nat (length data) mod 8) = true.
Proof.
  split; [change 8 with (Z.of_nat 8); by rewrite <- Nat2Z.inj_div, Nat2Z.id|].
  apply Z.eqb_eq. rewrite length_drop. change 8 with (Z.of_nat 8). rewrite <- Nat2Z.inj_mod. f_equal.
  pose proof (Nat.div_mod_eq (length data) 8). lia.
Qed.

(** The words that are loaded come next, and there are some unless none is left. *)
Lemma load_vertices_spec n : forall l z ws array_sz fuel c out,
  z_repr z c out -> c <> [] -> (length c <= n)%nat -> (length c <= length (b_content (vl_handle l)))%nat ->
  vl_leftover l ++ out = bytes ws -> (length (vl_leftover l) < 8)%nat -> input_ready l c -> array_fits array_sz -> (n < fuel)%nat ->
  exists now later l', load_vertices l z array_sz fuel = Val (length now, bytes now, l') /\ ws = now ++ later /\
    (length now <= array_sz)%nat /\ (now = [] -> later = []) /\ loader_repr l' later.
Proof.
  induction n as [n IH] using lt_wf_ind. intros l z ws array_sz fuel c out Hz Hc Hn Hcontent Hws Hlo Hin Hsz Hfuel.
  destruct fuel as [|fuel]; [lia|]. cbn [load_vertices].
  destruct (read_chunk_ready l c Hin Hc) as (Hready & Hnext & _). destruct (read_chunk_frame l) as (Hf1 & _ & Hf3).
  rewrite <- Hf1 in Hcontent. rewrite <- Hf3 in Hws, Hlo. remember (read_chunk l) as l1 eqn:Hl1. clear l Hl1 Hin Hf1 Hf3.
  assert (exists more trailing, vl_next_in l1 ++ more = c ++ trailing) as (more & trailing & Hdata).
  { destruct Hready as [(content & pos & trailing & _ & _ & _ & _ & Hd)|[t Ht]]; [by exists (drop pos content), trailing|].
    exists [], t. by rewrite app_nil_r. }
  destruct (output_room array_sz (length (vl_leftover l1)) 0 Hsz Hlo) as [Havail _]. cbv zeta in Havail |- *. rewrite Havail.
  set (room := (array_sz * 8 - length (vl_leftover l1))%nat) in *.
  destruct (inflate_law z c out trailing (vl_next_in l1) more room Hz)
    as (z' & consumed & rest & produced & rc & c' & out' & -> & Hi & Hcc & Ho & Hp & Hz' & Hrc);
    [done|by left|unfold room; destruct Hsz; lia|].
  assert (negb (rc =? Z_OK) && negb (rc =? Z_STREAM_END) = false) as -> by (by destruct Hrc as [[-> _]|[-> _]]).
  destruct (output_room array_sz (length (vl_leftover l1)) (length produced) Hsz Hlo) as [_ Hproc].
  cbv zeta in Hproc. unfold room in Hp |- *. rewrite (Hproc Hp), <- length_app. clear Hproc.
  destruct (counted (vl_leftover l1 ++ produced)) as [-> ->]. cbn [negb].
  rewrite Ho, app_assoc in Hws. destruct (split_words _ _ _ Hws) as (Hle & Htake & Hdrop & Hless & Hlen).
  set (data := vl_leftover l1 ++ produced) in *. set (k := (length data / 8)%nat) in *.
  assert (k <= array_sz)%nat as Hk.
  { pose proof (Nat.div_mod_eq (length data) 8) as Hd. fold k in Hd. unfold data in Hd at 1. rewrite length_app in Hd. lia. }
  assert (input_ready (mkVertexLoader (vl_handle l1) (vl_input_stream l1) (vl_input_stream_pos l1) (Some z') rest (drop (8 * k) data)) c') as Hready'.
  { subst c. destruct Hready as [(content & pos & tr & H1 & H2 & H3 & H4 & H5)|[t Ht]]; [left|right].
    - exists content, pos, tr. split; [exact H1|]. split; [exact H2|]. split; [exact H3|]. split; [exact H4|]. cbn [vl_next_in]. rewrite Hi, <- !app_assoc in H5.
      by apply app_inv_head in H5.
    - exists t. cbn [vl_next_in]. rewrite Hi, <- app_assoc in Ht. by apply app_inv_head in Ht. }
  destruct Hrc as [(-> & -> & ->)|(-> & Hc' & Hstop)].
  - change (Z_STREAM_END =? Z_STREAM_END) with true. cbn [andb negb]. rewrite app_nil_r in Hdrop.
    assert (drop k ws = []) as Hend.
    { pose proof (f_equal length Hdrop) as Hl. rewrite length_bytes in Hl. destruct (drop k ws); [done|]. cbn [length] in Hl. lia. }
    rewrite Hend in Hdrop. rewrite bool_decide_eq_true_2 by exact Hdrop. cbn [negb]. rewrite andb_false_r. cbv iota.
    exists (take k ws), []. eexists. split; [by rewrite Hlen, Htake|]. split; [by rewrite <- Hend, take_drop|]. split; [lia|]. split; [done|].
    split; [done|exact Hdrop].
  - change (Z_OK =? Z_STREAM_END) with false. cbn [andb negb]. rewrite andb_true_r. cbv iota.
    destruct (Nat.eqb_spec k 0) as [Hk0|Hk0].
    + assert (consumed <> []) as Hprog.
      { intros ->. destruct Hstop as [->|[Hfull _]]; [done|]. unfold k, data in Hk0. rewrite length_app, Hfull in Hk0.
        destruct Hsz. apply Nat.div_small_iff in Hk0; lia. }
      assert (length c = length consumed + length c')%nat as Hlc by (by rewrite Hcc, length_app).
      assert (0 < length consumed)%nat by (destruct consumed; [done|simpl; lia]).
      rewrite Hk0 in Hdrop, Hready', Hless |- *. cbn [Nat.mul] in Hdrop.
      eapply (IH (length c')); [lia|exact Hz'|exact Hc'|lia| |exact Hdrop|exact Hless|exact Hready'|exact Hsz|lia].
      cbn [vl_handle]. lia.
    + exists (take k ws), (drop k ws). eexists. split; [by rewrite Hlen, Htake|]. split; [by rewrite take_drop|]. split; [lia|].
      split; [intros E; rewrite E in Hlen; simpl in Hlen; lia|].
      exists c', out'. split; [exact Hz'|]. split; [exact Hc'|]. split; [rewrite Hcc, length_app in Hcontent; cbn [vl_handle]; lia|].
      split; [exact Hdrop|]. split; [exact Hless|exact Hready'].
Qed.

Lemma loader_spec l ws array_sz : loader_repr l ws -> array_fits array_sz ->
  exists now later l', VertexLoader_load l array_sz = Val (length now, bytes now, l') /\ ws = now ++ later /\
    (length now <= array_sz)%nat /\ (now = [] -> later = []) /\ loader_repr l' later.
Proof.
  intros Hl Hsz. pose proof Hl as Hr. unfold loader_repr in Hr. unfold VertexLoader_load.
  destruct (vl_zstream l) as [z|]; [|destruct Hr as [-> _]; exists [], [], l; do 4 (split; [done || simpl; lia|]); exact Hl].
  rewrite (proj2 (Nat.eqb_neq _ _)) by (destruct Hsz; lia). destruct Hr as (c & out & Hz & Hc & Hlen & Hws & Hlo & Hin).
  by apply (load_vertices_spec (length c) l z ws array_sz _ c out); try done; lia.
Qed.

(** The reader has [now] in its buffer. *)
Definition reader_repr (r : VertexReader) (now later : list Z) : Prop :=
  vr_buffer_size r = (vr_position r + length now)%nat /\
  (forall i v, now !! i = Some v -> word (vr_buffer r) (vr_position r + i) = v) /\
  loader_repr (m_loader r) later.

Lemma take_word r v now later : reader_repr r (v :: now) later ->
  (vr_buffer_size r <=? vr_position r)%nat = false /\ word (vr_buffer r) (vr_position r) = v /\
  reader_repr (mkVertexReader (m_loader r) (vr_buffer_size r) (vr_buffer r) (S (vr_position r))) now later.
Proof.
  intros (Hsize & Hword & Hl). cbn [length] in Hsize. split; [apply Nat.leb_gt; lia|]. split.
  - rewrite <- (Nat.add_0_r (vr_position r)). by apply Hword.
  - split; cbn [vr_buffer_size vr_position vr_buffer m_loader]; [lia|]. split; [|exact Hl].
    intros i w Hi. rewrite Nat.add_succ_l, <- Nat.add_succ_r. by apply Hword.
Qed.

Lemma read_vertex_spec r now later : reader_repr r now later -> Forall is_u64 later ->
  match now ++ later with
  | [] => exists r', read_vertex r = Val (None, r')
  | v :: rest => exists r' now' later', read_vertex r = Val (Some v, r') /\ reader_repr r' now' later' /\ Forall is_u64 later' /\ rest = now' ++ later'
  end.
Proof.
  intros Hr Hok. unfold read_vertex. destruct now as [|v now].
  - destruct Hr as (Hsize & _ & Hl). cbn [length] in Hsize. rewrite (proj2 (Nat.leb_le _ _)) by lia.
    assert (array_fits vr_buffer_capacity) as Hcap.
    { unfold array_fits, vr_buffer_capacity. rewrite Nat2Z.inj_pow. split; [apply Nat.neq_0_lt_0; by apply Nat.pow_nonzero|done]. }
    destruct (loader_spec (m_loader r) later vr_buffer_capacity Hl Hcap) as (now & later' & l' & -> & -> & _ & Hnil & Hl').
    apply Forall_app in Hok as [Hnow Hlater]. rewrite !res_bind_Val_l.
    assert (reader_repr (mkVertexReader l' (length now) (bytes now) 0) now later') as Hr.
    { split; [done|]. split; [|exact Hl']. intros i v Hi. apply word_at; [exact Hi|]. by apply (Forall_lookup_1 _ _ _ _ Hnow Hi). }
    destruct now as [|v now]; [rewrite Hnil by done; by eexists|].
    destruct (take_word _ _ _ _ Hr) as (-> & -> & Hr'). cbn [app]. eexists _, now, later'. split; [done|]. split; [exact Hr'|]. by split.
  - destruct (take_word _ _ _ _ Hr) as (Hlt & Hw & Hr'). rewrite Hlt, res_bind_Val_l, Hlt, Hw.
    cbn [app]. eexists _, now, later. split; [done|]. split; [exact Hr'|]. by split.
Qed.

Lemma read_vertices_step r fuel : read_vertices r (S fuel) =
  ('(v, r) ← read_vertex r; match v with None => Val [] | Some v => vs ← read_vertices r fuel; Val (v :: vs) end).
Proof. done. Qed.

Lemma read_vertices_spec n : forall r now later, reader_repr r now later -> Forall is_u64 later ->
  length (now ++ later) = n -> read_vertices r (S n) = Val (now ++ later).
Proof.
  induction n as [|n IH]; intros r now later Hr Hok Hn; rewrite read_vertices_step; pose proof (read_vertex_spec r now later Hr Hok) as Hread;
    (destruct (now ++ later) as [|v rest]; try done).
  - by destruct Hread as [r' ->].
  - destruct Hread as (r' & now' & later' & -> & Hr' & Hok' & ->). rewrite res_bind_Val_l. cbv beta iota.
    rewrite (IH r' now' later') by (done || by injection Hn). by rewrite res_bind_Val_l.
Qed.

(** A loader at the start of a section. *)
Lemma loader_start content pos c trailing ws memory : z_repr (inflateInit (-15)) c (bytes ws) -> c <> [] ->
  drop pos content = c ++ trailing -> Z.of_nat (length content) < 2 ^ 62 ->
  loader_repr (VertexLoader_new (at_pos content pos) memory) ws.
Proof.
  intros Hz Hc Hdata Hlen. pose proof (f_equal length Hdata) as Hl. rewrite length_drop, length_app in Hl.
  assert (0 < length c)%nat by (destruct c; [done|simpl; lia]). exists c, (bytes ws). split; [exact Hz|]. split; [exact Hc|].
  split; [unfold at_pos; cbn; lia|]. split; [done|]. split; [cbn; lia|]. left. exists content, pos, trailing.
  split; [done|]. split; [done|]. split; [lia|]. by split.
Qed.

(** One call loads a whole section whose compressed bytes fit into a chunk. *)
Lemma loader_whole l z c ws : vl_zstream l = Some z -> z_repr z c (bytes ws) -> c <> [] -> (length c <= INPUT_STREAM_SZ)%nat ->
  vl_next_in l = [] -> vl_leftover l = [] -> input_ready l c -> ws <> [] -> 8 * Z.of_nat (length ws) < 2 ^ 32 ->
  exists l', VertexLoader_load l (length ws) = Val (length ws, bytes ws, l').
Proof.
  intros Hzs Hz Hc Hfits Hnext Hlo Hin Hws Hsize. assert (0 < length ws)%nat by (destruct ws; [done|simpl; lia]).
  unfold VertexLoader_load. rewrite Hzs, (proj2 (Nat.eqb_neq _ _)) by lia. cbn [load_vertices].
  destruct (read_chunk_ready l c Hin Hc) as (_ & Hne & Hwhole). destruct (Hwhole Hnext Hfits) as [t Ht].
  destruct (read_chunk_frame l) as (_ & _ & ->). rewrite Hlo. cbn [length app].
  destruct (output_room (length ws) 0 0) as [Havail _]; [by split|lia|]. cbv zeta in Havail |- *. rewrite Havail, Nat.sub_0_r.
  destruct (inflate_law z c (bytes ws) t (vl_next_in (read_chunk l)) [] (length ws * 8) Hz)
    as (z' & consumed & rest & produced & rc & c' & out' & -> & Hi & Hcc & Ho & Hp & Hz' & Hrc); [by rewrite app_nil_r|by left|lia|].
  pose proof (length_bytes ws) as Hlen.
  destruct (output_room (length ws) 0 (length produced)) as [_ Hproc]; [by split|lia|]. cbv zeta in Hproc. rewrite Nat.sub_0_r in Hproc.
  rewrite (Hproc Hp), Nat.add_0_l. destruct (counted produced) as [-> ->]. cbn [negb].
  destruct Hrc as [(-> & -> & ->)|(-> & Hc' & Hstop)].
  - rewrite app_nil_r in Ho. subst produced. change (Z_STREAM_END =? Z_STREAM_END) with true.
    assert (length (bytes ws) / 8 = length ws)%nat as -> by (rewrite Hlen, Nat.mul_comm; by apply Nat.div_mul).
    rewrite drop_ge, take_ge by lia. cbn [andb negb]. rewrite bool_decide_eq_true_2 by done. cbn [negb]. rewrite !andb_false_r. by eexists.
  - exfalso. rewrite Ho, length_app in Hlen. destruct Hstop as [->|[Hfull Hout]].
    + rewrite Ht, Hcc, <- app_assoc in Hi. apply app_inv_head in Hi. by apply app_nil in Hi as [? _].
    + destruct out'; [done|simpl in Hlen; lia].
Qed.

(** The section of a graphlog file that starts with the compressed bytes [c]. *)
Definition vertex_section (file : text) (properties : Properties) (section : Section_) (c : list Z) (ws : list Z) : Prop :=
  exists pos trailing, properties !! section_key section = Some (print_nat (Z.of_nat pos)) /\
    drop pos (code <$> file) = c ++ trailing /\ c <> [] /\ z_repr (inflateInit (-15)) c (bytes ws) /\ Forall is_u64 ws /\
    Z.of_nat (length file) < 2 ^ 62.

(** The handle at the start of a section. *)
Lemma section_marker file properties section c ws : vertex_section file properties section c ws ->
  exists pos trailing, set_marker properties (b_open (code <$> file)) section = Val (at_pos (code <$> file) pos) /\
    drop pos (code <$> file) = c ++ trailing /\ c <> [] /\ z_repr (inflateInit (-15)) c (bytes ws) /\ Forall is_u64 ws /\
    Z.of_nat (length (code <$> file)) < 2 ^ 62.
Proof.
  intros (pos & trailing & Hprop & Hdata & Hc & Hz & Hok & Hlen). exists pos, trailing. split; [|by rewrite length_fmap].
  assert (pos < length file)%nat as Hpos.
  { pose proof (f_equal length Hdata) as Hl. rewrite length_drop, length_fmap, length_app in Hl. destruct c; [done|cbn [length] in Hl; lia]. }
  unfold set_marker. rewrite Hprop, stoull_number by (unfold is_u64; lia). rewrite !res_bind_Val_l.
  unfold seekg, b_clear, b_open. cbn [b_fail b_content]. by rewrite Nat2Z.id.
Qed.

Lemma load_section file properties section c ws memory : vertex_section file properties section c ws ->
  (length c <= INPUT_STREAM_SZ)%nat -> 8 * Z.of_nat (length ws) < 2 ^ 32 ->
  exists handle, set_marker properties (b_open (code <$> file)) section = Val handle /\ Forall is_u64 ws /\
    exists l', VertexLoader_load (VertexLoader_new handle memory) (length ws) = Val (length ws, bytes ws, l').
Proof.
  intros Hs Hfits Hsize. destruct (section_marker _ _ _ _ _ Hs) as (pos & trailing & Hm & Hdata & Hc & Hz & Hok & Hlen).
  eexists. split; [exact Hm|]. split; [done|]. destruct ws as [|w ws]; [by eexists|].
  apply (loader_whole _ (inflateInit (-15)) c); try done. left.
  exists (code <$> file), pos, trailing. split; [done|]. split; [done|]. split; [|done].
  pose proof (f_equal length Hdata) as Hl. rewrite length_drop, length_app in Hl. destruct c; [done|cbn [length] in Hl; lia].
Qed.

(** C28: the reader of the vertices of a graphlog file delivers the vertices of the section
    that its handle has been set to, in their order, whatever the sizes of the
    section and of its compressed bytes, although the number of bytes of the last
    chunk is wrong, and then ends. *)
Theorem vertex_reader_correct file properties section c ws memory
  (Hsection : vertex_section file properties section c ws) :
  (handle ← set_marker properties (b_open (code <$> file)) section;
   read_vertices (VertexReader_new handle memory) (S (length ws))) = Val ws.
Proof.
  destruct (section_marker _ _ _ _ _ Hsection) as (pos & trailing & -> & Hdata & Hc & Hz & Hok & Hlen). rewrite res_bind_Val_l.
  apply (read_vertices_spec (length ws) _ [] ws); [|exact Hok|done]. split; [done|]. split; [done|].
  by apply (loader_start _ _ c trailing).
Qed.
End laws.

(** ** Example *)

Definition ex_vertices : list Z := [10; 20; 2 ^ 64 - 1].

Definition ex_vertices_header : text := text_of "# GRAPHLOG
internal.vertices.temporary.begin=73
__BINARY_SECTION_FOLLOWS
".

Definition ex_vertices_file : text :=
  ex_vertices_header ++ ((fun b => ascii_of_N (Z.to_N b)) <$> (stored (ex_vertices ≫= bytes_of_key 8) ++ [1; 2; 3])).

Definition ex_vertices_properties : Properties :=
  match parse_properties (Some ex_vertices_file) with Val properties => properties | _ => ∅ end.

Lemma vertex_reader_correct_witness :
  (handle ← set_marker ex_vertices_properties (b_open (code <$> ex_vertices_file)) VTX_TEMP;
   @read_vertices stored_zlib (@VertexReader_new stored_zlib handle []) 4) = Val [10; 20; 2 ^ 64 - 1].
Proof.
  apply (@vertex_reader_correct stored_zlib stored_laws ex_vertices_file ex_vertices_properties VTX_TEMP
    (stored (ex_vertices ≫= bytes_of_key 8)) ex_vertices []).
  exists 73%nat, [1; 2; 3]. split; [|split; [|split; [|split; [|split]]]].
  - apply (bool_decide_eq_true (ex_vertices_properties !! section_key VTX_TEMP = Some (print_nat 73))). by vm_compute.
  - by vm_compute.
  - by vm_compute.
  - done.
  - unfold ex_vertices. repeat (apply Forall_cons; split; [by vm_compute|]). apply Forall_nil_2.
  - apply Z.ltb_lt. by vm_compute.
Defined.
