(* ===== verification/Sssp.v ===== *)
(** The delta-stepping shortest paths that [library/baseline/csr] and the drivers
    of the transactional databases share: the vertices that were reached wait
    in bins by their distance, and the least bin is the next frontier. *)

From S2P Require Import Prelude Doubles Paths Gapbs.

(** ** The algorithm

    [static_cast<size_t>] of a double, undefined out of range. *)
Definition size_of_double (x : double) : res Z :=
  match x with
  | S754_zero _ => Val 0
  | S754_finite s m e =>
    let z := if 0 <=? e then Z.pos m * 2 ^ e else Z.pos m / 2 ^ (- e) in
    if (if s then z =? 0 else z <? 2 ^ 64) then Val z else Undef
  | _ => Undef
  end.

Definition kMaxBin : Z := (2 ^ 64 - 1) / 2.

(** [vector<vector<NodeID>>::max_size()]: to resize beyond it throws out of the
    parallel region, which terminates the program. *)
Definition max_bins : Z := (2 ^ 63 - 1) / 24.

Record SsspState := mkSsspState {
  ss_dist : list double;
  ss_bins : gmap Z (list nat);
}.

Section sssp.
Context (idx : nat -> res nat) (edges : nat -> res (list (nat * double))).

(** One edge of [u]. The loop around [compare_and_swap] ends with the update or
    with a distance that is not larger. *)
Definition relax_edge (delta : double) (u : nat) (st : SsspState) (e : nat * double) : res SsspState :=
  v ← idx e.1;
  old_dist ← arr_get (ss_dist st) v;
  i ← idx u;
  du ← arr_get (ss_dist st) i;
  let new_dist := dadd du e.2 in
  if dlt new_dist old_dist then
    dist ← arr_set (ss_dist st) v new_dist;
    dest_bin ← size_of_double (ddiv new_dist delta);
    if dest_bin + 1 <=? max_bins then
      Val (mkSsspState dist (<[dest_bin := default [] (ss_bins st !! dest_bin) ++ [e.1]]> (ss_bins st)))
    else Undef
  else Val st.

(** One vertex of the frontier. *)
Definition sssp_visit (delta : double) (curr_bin_index : Z) (st : SsspState) (u : nat) : res SsspState :=
  i ← idx u;
  du ← arr_get (ss_dist st) i;
  if dle (dmul delta (double_of_Z curr_bin_index)) du then
    es ← edges u;
    res_fold (relax_edge delta u) st es
  else Val st.

(** The least bin from [curr_bin_index] on that is not empty. *)
Definition next_bin (curr_bin_index : Z) (bins : gmap Z (list nat)) : Z :=
  foldr Z.min kMaxBin (filter (fun i => curr_bin_index <= i /\ default [] (bins !! i) <> []) (map_to_list bins).*1).

(** The bins of the threads together; the order in which the threads copy their
    parts is that of the next loop. [capacity] is the size of the array
    [frontier]. *)
Fixpoint sssp_loop `{Omp} (capacity : nat) (delta : double) (curr_bin_index : Z) (frontier : list nat)
    (st : SsspState) (iter fuel : nat) : res (list double) :=
  if curr_bin_index =? kMaxBin then Val (ss_dist st)
  else
    match fuel with
    | O => NoFuel
    | S fuel =>
      st ← res_fold (sssp_visit delta curr_bin_index) st (omp_order (Z.of_nat iter) frontier);
      let next_bin_index := next_bin curr_bin_index (ss_bins st) in
      let bin := default [] (ss_bins st !! next_bin_index) in
      if (length bin <=? capacity)%nat then
        sssp_loop capacity delta next_bin_index bin
          (mkSsspState (ss_dist st) (<[next_bin_index := []]> (ss_bins st))) (S iter) fuel
      else Undef
    end.

Definition sssp_of `{Omp} (num_edges max_vertex_id source : nat) (delta : double) (fuel : nat) :
    res (list double) :=
  i ← idx source;
  dist ← arr_set (replicate max_vertex_id d_inf) i d_zero;
  if (num_edges =? 0)%nat then Undef
  else sssp_loop num_edges delta 0 [source] (mkSsspState dist ∅) 0 fuel.
End sssp.

(** The value of [delta] in all the programs. *)
Definition sssp_delta : double := double_of_Z 2.

(** ** The bin of a distance *)

(** The distances are cut into bins of the width 2; the values are scaled. *)
Definition bin_of (x : double) : Z := value x / 2 ^ 1075.

Lemma value_of_Z z : 0 <= z ->
  nonneg (double_of_Z z) = true /\ value (double_of_Z z) = Z.min (round53 (z * 2 ^ 1074)) infinity_value.
Proof.
  intros Hz. unfold double_of_Z, binary_normalize. destruct z as [|z|z]; [by vm_compute| |lia].
  destruct (round_spec z 0 ltac:(lia)) as [H1 H2]. split; [exact H1|]. rewrite H2. do 2 f_equal.
Qed.

(** The multiples of the width that the comparisons compute are exact. *)
Definition exact_bin (b : Z) : Prop := 0 <= b /\ b <= max_bins /\ round53 (b * 2 ^ 1074) = b * 2 ^ 1074.

Lemma round53_short b k : 0 <= k -> 0 <= b < 2 ^ 53 -> round53 (b * 2 ^ k) = b * 2 ^ k.
Proof.
  intros Hk Hb. destruct (Z.eq_dec b 0) as [->|Hnz]; [done|].
  assert (Z.log2 b < 53) by (apply Z.log2_lt_pow2; lia).
  set (u := ulp_exp (b * 2 ^ k)).
  assert (0 <= u <= k) as Hu by (unfold u, ulp_exp; rewrite Z.log2_mul_pow2 by lia; lia).
  assert (b * 2 ^ k = b * 2 ^ (k - u) * 2 ^ u) as Heq.
  { rewrite <- Z.mul_assoc, <- Z.pow_add_r by lia. do 2 f_equal. lia. }
  unfold round53. fold u. rewrite Heq, nearest_exact by lia. done.
Qed.

Lemma size_of_value x : nonneg x = true -> value x < infinity_value ->
  size_of_double x = if value x / 2 ^ 1074 <? 2 ^ 64 then Val (value x / 2 ^ 1074) else Undef.
Proof.
  intros [[s ->]|[->|(m & e & -> & Hb)]]%nonneg_cases Hx; [done|cbn in Hx; lia|].
  cbn [size_of_double]. apply bounded_spec in Hb as [He _].
  assert (value (S754_finite false m e) / 2 ^ 1074 =
    if 0 <=? e then Z.pos m * 2 ^ e else Z.pos m / 2 ^ (- e)) as ->; [|done].
  cbn [value]. destruct (Z.leb_spec 0 e).
  - rewrite Z.pow_add_r, Z.mul_assoc by lia. by apply Z.div_mul.
  - replace (2 ^ 1074) with (2 ^ (- e) * 2 ^ (e + 1074)) by (rewrite <- Z.pow_add_r by lia; f_equal; lia).
    rewrite Z.div_mul_cancel_r by lia. done.
Qed.

(** Half of a normal number is exact; half of a subnormal one is below 1. *)
Lemma half_normal m e : bounded 53 1024 m e = true -> -1074 < e ->
  let x := ddiv (S754_finite false m e) sssp_delta in
  nonneg x = true /\ 2 * value x = value (S754_finite false m e).
Proof.
  intros Hb He. pose proof (proj1 (bounded_spec _ _) Hb) as (Hr & Hm & Hn).
  change sssp_delta with (S754_finite false 4503599627370496 (-51)). unfold ddiv. cbn [SFdiv].
  unfold SFdiv_core_binary. cbn [Zdigits2 xorb].
  change (Z.pos (digits2_pos 4503599627370496)) with 53.
  assert (Z.pos (digits2_pos m) = 53) as ->.
  { rewrite digits2_log2. assert (Z.log2 (Z.pos m) < 53) by (apply Z.log2_lt_pow2; lia).
    assert (52 <= Z.log2 (Z.pos m)) by (apply Z.log2_le_pow2; lia). lia. }
  rewrite fexp_eq. set (e' := Z.min _ _). assert (e' = Z.max (e - 2) (-1074)) as He' by (unfold e'; lia).
  clearbody e'. subst e'. set (s := e - -51 - Z.max (e - 2) (-1074)).
  assert (52 <= s <= 53 /\ s = e + 51 - Z.max (e - 2) (-1074)) as [Hs Hs'] by (unfold s; lia). clearbody s.
  assert (match s with 0 => Z.pos m | Z.pos _ => Z.shiftl (Z.pos m) s | Z.neg _ => 0 end =
    Z.pos m * 2 ^ (s - 52) * 4503599627370496) as ->.
  { destruct s as [|s|s]; [lia| |lia]. rewrite Z.shiftl_mul_pow2 by lia.
    change 4503599627370496 with (2 ^ 52). rewrite <- Z.mul_assoc, <- Z.pow_add_r by lia. do 2 f_equal. lia. }
  pose proof (Z.div_mul (Z.pos m * 2 ^ (s - 52)) 4503599627370496 ltac:(lia)) as Hdiv.
  pose proof (Z.mod_mul (Z.pos m * 2 ^ (s - 52)) 4503599627370496 ltac:(lia)) as Hmod.
  unfold Z.div in Hdiv. unfold Z.modulo in Hmod. destruct (Z.div_eucl _ _) as [q r]. subst q r.
  change (new_location 4503599627370496 0) with loc_Exact.
  destruct (Z.pos m * 2 ^ (s - 52)) as [|q|q] eqn:Hq; [lia| |lia].
  destruct (round_aux_spec q (Z.max (e - 2) (-1074))) as [H1 H2].
  { rewrite fexp_eq, digits2_log2, <- Hq, Z.log2_mul_pow2 by lia.
    assert (52 <= Z.log2 (Z.pos m)) by (apply Z.log2_le_pow2; lia). lia. }
  split; [exact H1|]. rewrite H2, <- Hq.
  assert (Z.pos m * 2 ^ (s - 52) * 2 ^ (Z.max (e - 2) (-1074) + 1074) = Z.pos m * 2 ^ (e - 1 + 1074)) as ->.
  { rewrite <- Z.mul_assoc, <- Z.pow_add_r by lia. do 2 f_equal. lia. }
  rewrite round53_short by lia. destruct (value_finite _ _ Hb) as [[_ Hlt] _]. cbn [value] in Hlt |- *.
  replace (e + 1074) with (Z.succ (e - 1 + 1074)) in Hlt |- * by lia. rewrite Z.pow_succ_r in Hlt |- * by lia. lia.
Qed.

Lemma shr_fexp_none q l : Zdigits2 q <= 53 ->
  shr_fexp 53 1024 q (-1074) l = (shr_record_of_loc q l, -1074).
Proof.
  intros Hq. unfold shr_fexp. rewrite fexp_eq. replace (Z.max _ _ - _) with 0 by lia. done.
Qed.

Lemma half_subnormal m : Z.pos m < 2 ^ 53 ->
  let x := ddiv (S754_finite false m (-1074)) sssp_delta in nonneg x = true /\ value x < 2 ^ 1074.
Proof.
  intros Hm. change sssp_delta with (S754_finite false 4503599627370496 (-51)). unfold ddiv. cbn [SFdiv].
  unfold SFdiv_core_binary. cbn [Zdigits2 xorb].
  change (Z.pos (digits2_pos 4503599627370496)) with 53. rewrite fexp_eq, digits2_log2.
  assert (Z.log2 (Z.pos m) < 53) as Hl by (apply Z.log2_lt_pow2; lia).
  set (e' := Z.min _ _). assert (e' = -1074) as He' by (unfold e'; lia). clearbody e'. subst e'.
  change (-1074 - -51 - -1074) with 51. cbv iota. rewrite Z.shiftl_mul_pow2 by lia.
  pose proof (Z_div_mod (Z.pos m * 2 ^ 51) 4503599627370496 ltac:(lia)) as Hdm.
  destruct (Z.div_eucl _ _) as [q r]. destruct Hdm as [Hq Hr].
  assert (0 <= q <= 2 ^ 52 - 1) as Hqr by lia. generalize (new_location 4503599627370496 r). intros l.
  unfold binary_round_aux.
  assert (forall z, 0 <= z <= 2 ^ 52 -> Zdigits2 z <= 53) as Hdig.
  { intros [|z|z] Hz; [done| |lia]. cbn [Zdigits2]. rewrite digits2_log2.
    assert (Z.log2 (Z.pos z) < 53) by (apply Z.log2_lt_pow2; lia). lia. }
  rewrite shr_fexp_none by (apply Hdig; lia).
  assert (exists z, 0 <= z <= 2 ^ 52 /\
    round_nearest_even (shr_m (shr_record_of_loc q l)) (loc_of_shr_record (shr_record_of_loc q l)) = z)
    as (z & Hz & ->).
  { eexists. split; [|done]. destruct l as [|[]]; cbn; try destruct (Z.even q); lia. }
  rewrite shr_fexp_none by (apply Hdig; lia). cbn [shr_m shr_record_of_loc].
  destruct z as [|z|z]; [by split|..]; [|lia]. change (-1074 <=? 1024 - 53) with true. cbv iota. split.
  - apply nonneg_finite. split; [done|]. apply bounded_spec. lia.
  - change (value _) with (Z.pos z * 1). rewrite Z.mul_1_r. eapply Z.le_lt_trans; [apply Hz|].
    apply Z.pow_lt_mono_r; lia.
Qed.

(** The bin that the code computes. *)
Lemma dest_bin_spec x : nonneg x = true -> value x < infinity_value ->
  size_of_double (ddiv x sssp_delta) = if bin_of x <? 2 ^ 64 then Val (bin_of x) else Undef.
Proof.
  assert (forall y, 2 * y / 2 ^ 1075 = y / 2 ^ 1074) as Hscale.
  { intros y. replace (2 ^ 1075) with (2 * 2 ^ 1074) by lia. by rewrite Z.div_mul_cancel_l. }
  unfold bin_of. intros Hnn Hfin. destruct (nonneg_cases x Hnn) as [[s ->]|[->|(m & e & -> & Hb)]].
  - by destruct s.
  - cbn in Hfin. lia.
  - pose proof (proj1 (bounded_spec _ _) Hb) as (He & Hm & _). pose proof (value_finite _ _ Hb) as [Hv _].
    destruct (Z.eq_dec e (-1074)) as [->|Hne].
    + destruct (half_subnormal m Hm) as [H1 H2]. rewrite size_of_value; [|done|].
      * pose proof (value_range _ H1). rewrite Z.div_small by lia.
        rewrite Z.div_small; [done|]. split; [lia|]. cbn [value]. rewrite Z.mul_1_r.
        eapply Z.lt_trans; [exact Hm|]. apply Z.pow_lt_mono_r; lia.
      * eapply Z.lt_trans; [exact H2|]. unfold infinity_value. apply Z.pow_lt_mono_r; lia.
    + destruct (half_normal m e Hb ltac:(lia)) as [H1 H2]. pose proof (value_range _ H1).
      rewrite size_of_value by (done || lia). by rewrite <- H2, Hscale.
Qed.

Lemma exact_bin_of x : nonneg x = true -> value x < infinity_value -> bin_of x <= max_bins ->
  exact_bin (bin_of x).
Proof.
  intros Hnn Hfin Hmax. pose proof (value_range _ Hnn).
  assert (0 <= bin_of x) as Hpos by (apply Z.div_pos; lia). split; [done|]. split; [done|].
  destruct (nonneg_cases x Hnn) as [[s ->]|[->|(m & e & -> & Hb)]]; [done|cbn in Hfin; lia|].
  apply bounded_spec in Hb as (He & Hm & _). destruct (Z.le_gt_cases 1 e) as [Hle|Hgt].
  - assert (bin_of (S754_finite false m e) = Z.pos m * 2 ^ (e - 1)) as ->.
    { unfold bin_of. cbn [value]. replace (e + 1074) with (e - 1 + 1075) by lia.
      rewrite Z.pow_add_r, Z.mul_assoc by lia. by apply Z.div_mul. }
    rewrite <- Z.mul_assoc, <- Z.pow_add_r by lia. apply round53_short; lia.
  - apply round53_short; [lia|]. split; [done|]. unfold bin_of. apply Z.div_lt_upper_bound; [lia|].
    cbn [value]. apply Z.lt_le_trans with (2 ^ 53 * 2 ^ (e + 1074)); [apply Z.mul_lt_mono_pos_r; lia|].
    rewrite Z.mul_comm. apply Z.mul_le_mono_nonneg_r; [lia|]. apply Z.pow_le_mono_r; lia.
Qed.

Lemma round53_twice v : 2 ^ 52 <= v -> round53 (2 * v) = 2 * round53 v.
Proof.
  intros Hv. assert (52 <= Z.log2 v) by (apply Z.log2_le_pow2; lia).
  assert (ulp_exp (2 * v) = ulp_exp v + 1) as Hu by (unfold ulp_exp; rewrite Z.log2_double by lia; lia).
  unfold round53. rewrite Hu. replace (2 * v) with (v * 2 ^ 1) by lia.
  rewrite nearest_scale, Z.pow_add_r by (unfold ulp_exp; lia). lia.
Qed.

(** The multiple of the width. *)
Lemma width_value b : exact_bin b ->
  let x := dmul sssp_delta (double_of_Z b) in nonneg x = true /\ value x = b * 2 ^ 1075.
Proof.
  intros (Hb & Hmax & Hexact). destruct (value_of_Z b Hb) as [Hnn Hval]. rewrite Hexact in Hval.
  assert (max_bins < 2 ^ 64) as H64 by done.
  assert (b * 2 ^ 1075 < 2 ^ 2000) as Hlt.
  { apply Z.lt_le_trans with (2 ^ 64 * 2 ^ 1075); [apply Z.mul_lt_mono_pos_r; [done|lia]|].
    rewrite <- Z.pow_add_r by lia. apply Z.pow_le_mono_r; lia. }
  assert (2 ^ 2000 < infinity_value) as Hinf by (apply Z.pow_lt_mono_r; lia).
  assert (b * 2 ^ 1075 = 2 * (b * 2 ^ 1074)) as H2 by (change (2 ^ 1075) with (2 * 2 ^ 1074); lia).
  rewrite Z.min_l in Hval by lia. change sssp_delta with (S754_finite false 4503599627370496 (-51)).
  destruct (nonneg_cases _ Hnn) as [[s Hx]|[Hx|(m & e & Hx & Hbd)]]; rewrite Hx in Hval |- *; cbn [value d_inf] in Hval.
  - assert (b = 0) as -> by lia. by destruct s.
  - lia.
  - apply bounded_spec in Hbd as (He & Hm & _). unfold dmul. cbn [SFmul xorb].
    assert (0 < b) as Hpos by (destruct (Z.eq_dec b 0); [subst b|]; lia).
    assert (-53 < e) as He'.
    { destruct (Z.le_gt_cases e (-53)) as [Hle|]; [exfalso|done].
      assert (Z.pos m * 2 ^ (e + 1074) < 2 ^ 53 * 2 ^ 1021) as Hlt'.
      { apply Z.le_lt_trans with (Z.pos m * 2 ^ 1021).
        - apply Z.mul_le_mono_nonneg_l; [lia|]. apply Z.pow_le_mono_r; lia.
        - apply Z.mul_lt_mono_pos_r; [lia|done]. }
      rewrite <- Z.pow_add_r in Hlt' by lia. change (53 + 1021) with 1074 in Hlt'. lia. }
    destruct (round_aux_spec (4503599627370496 * m) (-51 + e)) as [H1 H3].
    { rewrite fexp_eq, digits2_log2, Pos2Z.inj_mul. change 4503599627370496 with (2 ^ 52).
      rewrite Z.mul_comm, Z.log2_mul_pow2 by lia. pose proof (Z.log2_nonneg (Z.pos m)). lia. }
    split; [exact H1|]. rewrite H3, Pos2Z.inj_mul. change 4503599627370496 with (2 ^ 52).
    assert (2 ^ 52 * Z.pos m * 2 ^ (-51 + e + 1074) = b * 2 ^ 1075) as ->.
    { rewrite H2, <- Hval. rewrite (Z.mul_comm (2 ^ 52)), <- Z.mul_assoc, <- Z.pow_add_r by lia.
      replace (52 + (-51 + e + 1074)) with (1 + (e + 1074)) by lia. rewrite Z.pow_add_r by lia. lia. }
    rewrite H2, round53_twice, Hexact; [lia|].
    apply Z.le_trans with (2 ^ 1074); [apply Z.pow_le_mono_r; lia|]. nia.
Qed.

(** The test of the frontier compares the bins. *)
Lemma width_test b x : exact_bin b -> nonneg x = true ->
  dle (dmul sssp_delta (double_of_Z b)) x = (b <=? bin_of x).
Proof.
  intros Hb Hx. destruct (width_value b Hb) as [Hnn Hval]. rewrite dle_value, Hval by done. unfold bin_of.
  pose proof (value_range _ Hx). destruct (Z.leb_spec (b * 2 ^ 1075) (value x)), (Z.leb_spec b (value x / 2 ^ 1075)); try done.
  - assert (b <= value x / 2 ^ 1075); [|lia]. apply Z.div_le_lower_bound; lia.
  - pose proof (Z.mul_div_le (value x) (2 ^ 1075) ltac:(lia)). nia.
Qed.

(** ** Sums over the distances and the bins *)

Definition total_value (dist : list double) : Z := foldr Z.add 0 (value <$> dist).

Definition total_length (bins : gmap Z (list nat)) : nat := sum_list_with (fun p => length p.2) (map_to_list bins).

Definition bin_at (bins : gmap Z (list nat)) (b : Z) : list nat := default [] (bins !! b).

Definition dist_at (dist : list double) (v : nat) : double := default d_inf (dist !! v).

Lemma total_value_insert dist v old x : dist !! v = Some old ->
  total_value (<[v := x]> dist) = total_value dist - value old + value x.
Proof.
  revert v. induction dist as [|y dist IH]; intros v Hv; [done|].
  change (total_value (y :: dist)) with (value y + total_value dist). destruct v as [|v].
  - injection Hv as ->. change (total_value _) with (value x + total_value dist) at 1. lia.
  - change (total_value _) with (value y + total_value (<[v := x]> dist)) at 1. rewrite (IH v Hv). lia.
Qed.

Lemma total_length_insert bins b l :
  (total_length (<[b := l]> bins) + length (bin_at bins b) = total_length bins + length l)%nat.
Proof.
  unfold total_length, bin_at. rewrite <- insert_delete_eq.
  rewrite (sum_list_with_perm _ _ _ (map_to_list_insert (delete b bins) b l ltac:(apply lookup_delete_eq))).
  destruct (bins !! b) as [k|] eqn:Hb; cbn [sum_list_with snd default from_option id length].
  - rewrite <- (sum_list_with_perm _ _ _ (map_to_list_delete bins b k Hb)). cbn [sum_list_with snd]. lia.
  - rewrite delete_id by done. lia.
Qed.

Lemma bin_at_insert bins b l b' : bin_at (<[b := l]> bins) b' = if decide (b = b') then l else bin_at bins b'.
Proof. unfold bin_at. case_decide; [subst; by rewrite lookup_insert_eq|by rewrite lookup_insert_ne]. Qed.

Lemma dist_at_insert dist u x v : (u < length dist)%nat ->
  dist_at (<[u := x]> dist) v = if decide (u = v) then x else dist_at dist v.
Proof.
  intros Hu. unfold dist_at. case_decide; [subst; by rewrite list_lookup_insert_eq|by rewrite list_lookup_insert_ne].
Qed.

Lemma next_bin_spec c bins :
  (forall b, c <= b -> bin_at bins b <> [] -> next_bin c bins <= b) /\
  (next_bin c bins = kMaxBin \/ (c <= next_bin c bins /\ bin_at bins (next_bin c bins) <> [])).
Proof.
  unfold next_bin. set (l := filter _ _).
  assert (forall b, b ∈ l <-> c <= b /\ bin_at bins b <> []) as Hl.
  { intros b. unfold l. rewrite list_elem_of_filter. split; [tauto|]. intros [Hc Hb]. split; [done|].
    unfold bin_at in Hb. destruct (bins !! b) as [k|] eqn:Hk; [|done].
    apply list_elem_of_fmap. exists (b, k). split; [done|]. by apply elem_of_map_to_list. }
  split.
  - intros b Hc Hb. assert (b ∈ l) as Hin by (by apply Hl). clearbody l. clear Hl Hc Hb.
    induction Hin; simpl; lia.
  - assert (foldr Z.min kMaxBin l = kMaxBin \/ foldr Z.min kMaxBin l ∈ l) as [?|Hin].
    { clearbody l. clear Hl. induction l as [|b l IH]; [by left|]. simpl.
      destruct (Z.min_spec b (foldr Z.min kMaxBin l)) as [[_ ->]|[_ ->]]; [right; by left|].
      destruct IH; [by left|right; by right]. }
    + by left.
    + right. by apply Hl.
Qed.

(** ** The frontiers

    The frontiers that the algorithm goes through, whatever the memory. *)

Definition first_state (N src : nat) : SsspState := mkSsspState (<[src := d_zero]> (replicate N d_inf)) ∅.

(** A walk whose length has a bin beyond the largest vector. *)
Definition far_walk {A} (E : A -> A -> double -> Prop) (src : A) : Prop :=
  exists v d, wwalk E src v d /\ value d < infinity_value /\ max_bins <= bin_of d.

Section frontiers.
Context `{Omp} (idx : nat -> res nat) (edges : nat -> res (list (nat * double))) (N src : nat) (delta : double).

Inductive sssp_reaches : Z -> list nat -> SsspState -> nat -> Prop :=
  | reaches_first : sssp_reaches 0 [src] (first_state N src) 0
  | reaches_next c frontier st iter st' :
      sssp_reaches c frontier st iter -> c <> kMaxBin ->
      res_fold (sssp_visit idx edges delta c) st (omp_order (Z.of_nat iter) frontier) = Val st' ->
      let c' := next_bin c (ss_bins st') in
      sssp_reaches c' (bin_at (ss_bins st') c')
        (mkSsspState (ss_dist st') (<[c' := []]> (ss_bins st'))) (S iter).

(** One of them does not fit into the array. *)
Definition frontier_outgrows (capacity : nat) : Prop :=
  exists c frontier st iter, sssp_reaches c frontier st iter /\ (capacity < length frontier)%nat.

Lemma sssp_loop_more capacity fuel : forall c frontier st iter fuel', (fuel <= fuel')%nat ->
  sssp_loop idx edges capacity delta c frontier st iter fuel <> NoFuel ->
  sssp_loop idx edges capacity delta c frontier st iter fuel' =
  sssp_loop idx edges capacity delta c frontier st iter fuel.
Proof.
  induction fuel as [|fuel IH]; intros c frontier st iter [|fuel'] Hle; try lia; cbn [sssp_loop];
    destruct (c =? kMaxBin); try done.
  destruct (res_fold _ st _) as [st'|x| |]; [|done..]. bind_val. cbv zeta.
  destruct (_ <=? capacity)%nat; [|done]. apply IH. lia.
Qed.

Lemma reaches_loop capacity c frontier st iter : sssp_reaches c frontier st iter -> forall fuel,
  let r := sssp_loop idx edges capacity delta 0 [src] (first_state N src) 0 (iter + fuel) in
  r = Undef \/ (r = sssp_loop idx edges capacity delta c frontier st iter fuel /\
    (iter <> 0%nat -> (length frontier <= capacity)%nat)).
Proof.
  induction 1 as [|c frontier st iter st' _ IH Hc Hpass c']; intros fuel; [by right|].
  specialize (IH (S fuel)). rewrite Nat.add_succ_r in IH. cbv zeta in IH |- *. rewrite Nat.add_succ_l.
  destruct IH as [->|[-> _]]; [by left|]. cbn [sssp_loop].
  rewrite (proj2 (Z.eqb_neq _ _) Hc), Hpass, res_bind_Val_l. cbv beta iota zeta.
  fold c'. change (default [] (ss_bins st' !! c')) with (bin_at (ss_bins st') c').
  destruct (Nat.leb_spec (length (bin_at (ss_bins st') c')) capacity); [right|by left]. by split.
Qed.

(** Then the computation leaves it. *)
Lemma outgrows_undef capacity fuel : (src < N)%nat -> idx src = Val src -> frontier_outgrows capacity ->
  sssp_of idx edges capacity N src delta fuel = Undef \/ sssp_of idx edges capacity N src delta fuel = NoFuel.
Proof.
  intros Hsrc Hidx (c & frontier & st & iter & Hr & Hlong). unfold sssp_of. rewrite Hidx. bind_val.
  rewrite arr_set_val by (by rewrite length_replicate). bind_val. change (mkSsspState _ ∅) with (first_state N src).
  destruct (Nat.eqb_spec capacity 0) as [|Hcap]; [by left|].
  destruct (reaches_loop capacity c frontier st iter Hr fuel) as [Hu|[_ Hfits]].
  - destruct (sssp_loop _ _ _ _ _ _ _ _ fuel) as [d|x| |] eqn:Hl; [| |by left|by right];
      rewrite (sssp_loop_more capacity fuel _ _ _ _ (iter + fuel)), Hl in Hu by (lia || by rewrite Hl); done.
  - exfalso. destruct Hr; [simpl in Hlong; lia|]. specialize (Hfits ltac:(done)). lia.
Qed.
End frontiers.

(** ** Correctness *)

Section correct.
Context (idx : nat -> res nat) (edges : nat -> res (list (nat * double))) (N : nat) (adj : nat -> list (nat * double)).
Context (Hidx : forall v, (v < N)%nat -> idx v = Val v).
Context (Hedges : forall v, (v < N)%nat -> edges v = Val (adj v)).
Context (Hadj : forall v e, (v < N)%nat -> e ∈ adj v -> (e.1 < N)%nat /\ nonneg e.2 = true).
Context (src : nat) (Hsrc : (src < N)%nat).

Definition adj_edge (u v : nat) (w : double) : Prop := (u < N)%nat /\ (v, w) ∈ adj u.

Notation W := (wwalk adj_edge src).

Notation far_walk := (far_walk adj_edge src).

Definition relaxed_at (dist : list double) (v : nat) : Prop :=
  forall e, e ∈ adj v -> value (dist_at dist e.1) <= value (dadd (dist_at dist v) e.2).

(** [todo] is what is left of the frontier: every vertex that was reached has
    its edges relaxed, or waits in the frontier or in the bin of its distance. *)
Record ss_inv (c : Z) (todo : list nat) (st : SsspState) : Prop := {
  ss_len : length (ss_dist st) = N;
  ss_src : value (dist_at (ss_dist st) src) = 0;
  ss_walk : forall v, dist_at (ss_dist st) v = d_inf \/ W v (dist_at (ss_dist st) v);
  ss_todo : forall v, v ∈ todo -> (v < N)%nat;
  ss_bin : forall b v, v ∈ bin_at (ss_bins st) b -> (v < N)%nat /\ exact_bin b;
  ss_pending : forall v, (v < N)%nat -> value (dist_at (ss_dist st) v) < infinity_value ->
    let b := bin_of (dist_at (ss_dist st) v) in
    relaxed_at (ss_dist st) v \/ (v ∈ todo /\ b = c) \/ (c <= b /\ v ∈ bin_at (ss_bins st) b);
}.

(** Every update of a distance decreases it by more than one entry of a bin. *)
Definition ss_measure (st : SsspState) : Z :=
  2 * total_value (ss_dist st) + Z.of_nat (total_length (ss_bins st)).

Lemma adj_edge_weights u v w : adj_edge u v w -> nonneg w = true.
Proof. intros [Hu He]. by apply (Hadj u (v, w)). Qed.

Lemma ss_nonneg c todo st v : ss_inv c todo st -> nonneg (dist_at (ss_dist st) v) = true.
Proof.
  intros I. destruct (ss_walk _ _ _ I v) as [->|Hv]; [done|]. by apply (wwalk_nonneg adj_edge src adj_edge_weights v).
Qed.

Lemma bin_of_mono x y : value x <= value y -> bin_of x <= bin_of y.
Proof. intros H. by apply Z.div_le_mono. Qed.

Lemma relax_edge_spec c todo st u e :
  ss_inv c todo st -> (u < N)%nat -> e ∈ adj u -> c <= bin_of (dist_at (ss_dist st) u) ->
  (relax_edge idx sssp_delta u st e = Undef /\ far_walk) \/
  exists st', relax_edge idx sssp_delta u st e = Val st' /\ ss_inv c todo st' /\
    ss_measure st' <= ss_measure st /\ dist_at (ss_dist st') u = dist_at (ss_dist st) u /\
    (forall v, value (dist_at (ss_dist st') v) <= value (dist_at (ss_dist st) v)) /\
    value (dist_at (ss_dist st') e.1) <= value (dadd (dist_at (ss_dist st) u) e.2).
Proof.
  intros I Hu He Hc. destruct (Hadj u e Hu He) as [Hv Hw]. destruct e as [v w]. simpl in Hv, Hw.
  unfold relax_edge. cbn [fst snd]. rewrite !Hidx by done. bind_val.
  pose proof (ss_len _ _ _ I) as Hl.
  destruct (lookup_lt_is_Some_2 (ss_dist st) v) as [old Hold]; [lia|].
  destruct (lookup_lt_is_Some_2 (ss_dist st) u) as [du Hdu]; [lia|].
  rewrite (arr_get_val _ _ _ Hold). do 2 bind_val. rewrite (arr_get_val _ _ _ Hdu). bind_val.
  assert (dist_at (ss_dist st) v = old) as Hv' by (unfold dist_at; by rewrite Hold).
  assert (dist_at (ss_dist st) u = du) as Hu' by (unfold dist_at; by rewrite Hdu).
  pose proof (ss_nonneg _ _ _ v I) as Hno. pose proof (ss_nonneg _ _ _ u I) as Hnu. rewrite Hv' in Hno. rewrite Hu' in Hnu, Hc |- *.
  assert (nonneg (dadd du w) = true) as Hnd by (by apply dadd_nonneg).
  pose proof (dadd_ge du w Hnu Hw) as Hge. rewrite dlt_value by done.
  destruct (Z.ltb_spec (value (dadd du w)) (value old)) as [Hlt|Hle].
  2:{ right. exists st. rewrite Hv'. split_and!; try done. }
  pose proof (value_range _ Hno) as Hro. rewrite arr_set_val by lia. bind_val.
  assert (max_bins <= bin_of (dadd du w) -> far_walk) as Hfar.
  { intros Hb. exists v, (dadd du w). split; [|split; [lia|done]]. destruct (ss_walk _ _ _ I u) as [Hinf|Hwu].
    - exfalso. assert (value du = infinity_value) by (by rewrite <- Hu', Hinf). lia.
    - econstructor; [rewrite <- Hu'; exact Hwu|by split]. }
  assert (max_bins < 2 ^ 64) as Hbins by done.
  rewrite dest_bin_spec by (done || lia).
  destruct (Z.ltb_spec (bin_of (dadd du w)) (2 ^ 64)); [|left; split; [done|apply Hfar; lia]]. bind_val.
  destruct (Z.leb_spec (bin_of (dadd du w) + 1) max_bins) as [Hmax|]; [|left; split; [done|apply Hfar; lia]]. right.
  set (d := dadd du w) in *. set (b := bin_of d) in *. fold (bin_at (ss_bins st) b).
  assert (u <> v) as Huv by (intros ->; rewrite Hdu in Hold; simplify_eq; lia).
  assert (forall z, dist_at (<[v := d]> (ss_dist st)) z = if decide (v = z) then d else dist_at (ss_dist st) z) as Hnew
    by (intros z; apply dist_at_insert; lia).
  assert (forall z, value (dist_at (<[v := d]> (ss_dist st)) z) <= value (dist_at (ss_dist st) z)) as Hmono.
  { intros z. rewrite Hnew. case_decide; [subst z; rewrite Hv'; lia|done]. }
  eexists. split; [done|]. cbn [ss_dist ss_bins]. split.
  - split; cbn [ss_dist ss_bins].
    + by rewrite length_insert.
    + pose proof (ss_src _ _ _ I) as Hz. rewrite Hnew. case_decide as Hvs; [|done].
      rewrite <- Hvs, Hv' in Hz. pose proof (value_range _ Hnd). lia.
    + intros z. rewrite Hnew. case_decide as Hvz; [|apply (ss_walk _ _ _ I)]. subst z. right.
      destruct (ss_walk _ _ _ I u) as [Hinf|Hwu]; rewrite Hu' in *.
      * rewrite Hinf in Hge. change (value d_inf) with infinity_value in Hge. lia.
      * econstructor; [exact Hwu|]. by split.
    + apply (ss_todo _ _ _ I).
    + intros b' z. rewrite bin_at_insert. case_decide as Hb; [|apply (ss_bin _ _ _ I)].
      intros [Hz| ->%list_elem_of_singleton]%elem_of_app; [subst b'; by apply (ss_bin _ _ _ I)|].
      split; [done|]. subst b'. apply exact_bin_of; [done|lia|lia].
    + intros z Hz. rewrite Hnew. intros Hfin. case_decide as Hvz.
      { right; right. split; [etrans; [exact Hc|by apply bin_of_mono]|]. rewrite bin_at_insert, decide_True by done.
        subst z. apply elem_of_app. right. by left. }
      destruct (ss_pending _ _ _ I z Hz Hfin) as [Hrel|[?|[? Hin]]]; [left|by right; left|right; right].
      * intros e' He'. etrans; [apply Hmono|]. rewrite Hnew, decide_False by done. by apply Hrel.
      * split; [done|]. rewrite bin_at_insert. case_decide as Hb; [|done]. apply elem_of_app. left. by rewrite Hb.
  - unfold ss_measure. cbn [ss_dist ss_bins]. rewrite (total_value_insert _ _ _ _ Hold).
    pose proof (total_length_insert (ss_bins st) b (bin_at (ss_bins st) b ++ [v])) as Hlen.
    rewrite length_app in Hlen. simpl in Hlen. split_and!; [lia| |done|].
    + by rewrite Hnew, decide_False.
    + by rewrite Hnew, decide_True.
Qed.
(** The edges of a vertex of the frontier. *)
Lemma relax_edges_spec c todo u l : forall st,
  ss_inv c todo st -> (u < N)%nat -> l ⊆ adj u -> c <= bin_of (dist_at (ss_dist st) u) ->
  (res_fold (relax_edge idx sssp_delta u) st l = Undef /\ far_walk) \/
  exists st', res_fold (relax_edge idx sssp_delta u) st l = Val st' /\ ss_inv c todo st' /\
    ss_measure st' <= ss_measure st /\ dist_at (ss_dist st') u = dist_at (ss_dist st) u /\
    (forall v, value (dist_at (ss_dist st') v) <= value (dist_at (ss_dist st) v)) /\
    (forall e, e ∈ l -> value (dist_at (ss_dist st') e.1) <= value (dadd (dist_at (ss_dist st) u) e.2)).
Proof.
  induction l as [|e l IH]; intros st I Hu Hl Hc.
  { right. exists st. split_and!; try done. by intros e He%elem_of_nil. }
  cbn [res_fold].
  destruct (relax_edge_spec c todo st u e I Hu (Hl e ltac:(by left)) Hc)
    as [[-> ?]|(st1 & -> & I1 & Hm1 & Hu1 & Hmono1 & He)]; [by left|]. bind_val.
  destruct (IH st1 I1 Hu (fun e' He' => Hl e' ltac:(by right)) ltac:(by rewrite Hu1))
    as [[-> ?]|(st2 & -> & I2 & Hm2 & Hu2 & Hmono2 & Hrel)]; [by left|right].
  exists st2. split; [done|]. split; [done|]. split; [lia|]. split; [by rewrite Hu2|]. split.
  - intros v. etrans; [apply Hmono2|apply Hmono1].
  - intros e' [->|He']%elem_of_cons; [etrans; [apply Hmono2|done]|]. rewrite <- Hu1. by apply Hrel.
Qed.

(** A vertex leaves the frontier. *)
Lemma ss_leave c u todo st : ss_inv c (u :: todo) st ->
  (bin_of (dist_at (ss_dist st) u) = c -> relaxed_at (ss_dist st) u) -> ss_inv c todo st.
Proof.
  intros I Hu. split; try apply I.
  - intros v Hv. apply (ss_todo _ _ _ I). by right.
  - intros v Hv Hfin. destruct (ss_pending _ _ _ I v Hv Hfin) as [?|[[Hin Hb]|?]]; [by left| |by right; right].
    apply elem_of_cons in Hin as [->|Hin]; [left; by apply Hu|right; by left].
Qed.

Lemma sssp_visit_spec c u todo st : exact_bin c -> ss_inv c (u :: todo) st ->
  (sssp_visit idx edges sssp_delta c st u = Undef /\ far_walk) \/
  exists st', sssp_visit idx edges sssp_delta c st u = Val st' /\ ss_inv c todo st' /\
    ss_measure st' <= ss_measure st /\
    forall v, value (dist_at (ss_dist st') v) <= value (dist_at (ss_dist st) v).
Proof.
  intros Hc I. assert (u < N)%nat as Hu by (apply (ss_todo _ _ _ I); by left).
  unfold sssp_visit. rewrite Hidx by done. bind_val. pose proof (ss_len _ _ _ I) as Hl.
  destruct (lookup_lt_is_Some_2 (ss_dist st) u) as [du Hdu]; [lia|]. rewrite (arr_get_val _ _ _ Hdu). bind_val.
  assert (dist_at (ss_dist st) u = du) as Hu' by (unfold dist_at; by rewrite Hdu).
  pose proof (ss_nonneg _ _ _ u I) as Hnn. rewrite Hu' in Hnn. rewrite width_test by done.
  destruct (Z.leb_spec c (bin_of du)) as [Hle|Hgt].
  - rewrite Hedges by done. bind_val. rewrite <- Hu' in Hle.
    destruct (relax_edges_spec c (u :: todo) u (adj u) st I Hu (reflexivity _) Hle)
      as [[-> ?]|(st' & -> & I' & Hm & Hsame & Hmono & Hrel)]; [by left|right].
    exists st'. split; [done|]. split; [|done]. apply (ss_leave c u); [done|]. intros _ e He.
    rewrite Hsame. by apply Hrel.
  - right. exists st. split; [done|]. split; [|done]. apply (ss_leave c u); [done|]. rewrite Hu'. lia.
Qed.

Lemma sssp_pass_spec c l : forall st, exact_bin c -> ss_inv c l st ->
  (res_fold (sssp_visit idx edges sssp_delta c) st l = Undef /\ far_walk) \/
  exists st', res_fold (sssp_visit idx edges sssp_delta c) st l = Val st' /\ ss_inv c [] st' /\
    ss_measure st' <= ss_measure st.
Proof.
  induction l as [|u l IH]; intros st Hc I; [right; by exists st|]. cbn [res_fold].
  destruct (sssp_visit_spec c u l st Hc I) as [[-> ?]|(st1 & -> & I1 & Hm1 & _)]; [by left|]. bind_val.
  destruct (IH st1 Hc I1) as [[-> ?]|(st2 & -> & I2 & Hm2)]; [by left|right].
  exists st2. split; [done|]. split; [done|lia].
Qed.

Lemma ss_perm c l k st : l ≡ₚ k -> ss_inv c l st -> ss_inv c k st.
Proof.
  intros Hp I. split; try apply I; [intros v; rewrite <- Hp; apply (ss_todo _ _ _ I)|].
  intros v Hv Hfin. cbv zeta. rewrite <- Hp. by apply (ss_pending _ _ _ I).
Qed.

(** The next bin becomes the frontier. *)
Lemma ss_next c st : ss_inv c [] st ->
  let c' := next_bin c (ss_bins st) in
  let bin := bin_at (ss_bins st) c' in
  let st' := mkSsspState (ss_dist st) (<[c' := []]> (ss_bins st)) in
  ss_inv c' bin st' /\ ss_measure st' + Z.of_nat (length bin) = ss_measure st /\
  ((c' = kMaxBin /\ bin = []) \/ (exact_bin c' /\ bin <> [])).
Proof.
  intros I c' bin st'. destruct (next_bin_spec c (ss_bins st)) as [Hmin Hcase]. fold c' in Hmin, Hcase.
  split; [|split].
  - unfold st'. split; cbn [ss_dist ss_bins]; try apply I.
    + intros b v. rewrite bin_at_insert. case_decide; [by intros ?%elem_of_nil|apply (ss_bin _ _ _ I)].
    + intros v Hv Hfin. destruct (ss_pending _ _ _ I v Hv Hfin) as [?|[[Hin _]|[Hc Hin]]]; [by left|by apply elem_of_nil in Hin|].
      right. set (b := bin_of _) in *. rewrite bin_at_insert. case_decide as Hb; [left; split; [unfold bin; by rewrite Hb|done]|right].
      split; [|done]. apply Hmin; [done|]. intros Hnil. rewrite Hnil in Hin. by apply elem_of_nil in Hin.
  - unfold ss_measure. cbn [ss_dist ss_bins st']. pose proof (total_length_insert (ss_bins st) c' []) as Hlen.
    fold bin in Hlen. simpl in Hlen. lia.
  - assert (forall v, v ∈ bin -> exact_bin c') as Hex by (intros v Hv; by apply (ss_bin _ _ _ I c' v)).
    fold bin in Hcase. destruct bin as [|v bin']; [left; by destruct Hcase as [?|[]]|right].
    split; [apply (Hex v); by left|done].
Qed.

Lemma total_value_nonneg dist : (forall v, nonneg (dist_at dist v) = true) -> 0 <= total_value dist.
Proof.
  unfold total_value. induction dist as [|x dist IH]; intros H; [done|]. cbn [fmap list_fmap foldr].
  pose proof (value_range x (H 0%nat)). specialize (IH (fun v => H (S v))). lia.
Qed.

Lemma ss_measure_nonneg c l st : ss_inv c l st -> 0 <= ss_measure st.
Proof.
  intros I. unfold ss_measure. pose proof (total_value_nonneg _ (fun v => ss_nonneg _ _ _ v I)). lia.
Qed.

(** Without a frontier every vertex has its edges relaxed. *)
Lemma ss_final st : ss_inv kMaxBin [] st -> forall v, (v < N)%nat -> shortest adj_edge src v (dist_at (ss_dist st) v).
Proof.
  intros I v _. apply (relaxed_shortest _ _ adj_edge_weights); [apply (ss_walk _ _ _ I)|apply (ss_src _ _ _ I)|].
  intros a b w [Ha Hb]. pose proof (value_range _ (ss_nonneg _ _ _ a I)). pose proof (value_range _ (ss_nonneg _ _ _ b I)).
  destruct (Z.lt_ge_cases (value (dist_at (ss_dist st) a)) infinity_value) as [Hlt|Hge].
  - destruct (ss_pending _ _ _ I a Ha Hlt) as [Hrel|[[Hin _]|[Hle Hin]]]; [by apply (Hrel (b, w))|by apply elem_of_nil in Hin|].
    apply (ss_bin _ _ _ I) in Hin as [_ (_ & Hmax & _)]. exfalso. assert (max_bins < kMaxBin) by done. lia.
  - destruct (Hadj a (b, w) Ha Hb) as [_ Hw].
    pose proof (dadd_ge _ w (ss_nonneg _ _ _ a I) Hw). lia.
Qed.

Lemma sssp_loop_spec `{Omp} capacity n : forall c frontier st iter,
  ss_inv c frontier st -> (c = kMaxBin /\ frontier = []) \/ (exact_bin c /\ frontier <> []) ->
  sssp_reaches idx edges N src sssp_delta c frontier st iter ->
  ss_measure st + Z.of_nat (length frontier) < Z.of_nat n ->
  forall fuel, (n <= fuel)%nat ->
  let r := sssp_loop idx edges capacity sssp_delta c frontier st iter fuel in
  (r = Undef /\ (frontier_outgrows idx edges N src sssp_delta capacity \/ far_walk)) \/ exists dist, r = Val dist /\ length dist = N /\
    forall v, (v < N)%nat -> shortest adj_edge src v (dist_at dist v).
Proof.
  induction n as [|n IH]; intros c frontier st iter I Hc Hr Hn fuel Hfuel.
  { pose proof (ss_measure_nonneg _ _ _ I). lia. }
  destruct fuel as [|fuel]; [lia|]. cbn [sssp_loop]. destruct Hc as [[-> ->]|[Hc Hne]].
  { right. exists (ss_dist st). split; [done|]. split; [apply (ss_len _ _ _ I)|by apply ss_final]. }
  rewrite (proj2 (Z.eqb_neq _ _)) by (destruct Hc as (_ & ? & _); assert (max_bins < kMaxBin) by done; lia).
  pose proof (omp_perm (Z.of_nat iter) _ frontier) as Hp.
  assert (c <> kMaxBin) as Hck by (destruct Hc as (_ & ? & _); assert (max_bins < kMaxBin) by done; lia).
  destruct (sssp_pass_spec c (omp_order (Z.of_nat iter) frontier) st Hc) as [[-> ?]|(st' & Hpass & I' & Hm)];
    [by eapply ss_perm|left; split; [done|by right]|].
  pose proof (reaches_next _ _ _ _ _ _ _ _ _ _ Hr Hck Hpass) as Hr'. rewrite Hpass. bind_val.
  destruct (ss_next c st' I') as (I2 & Hm2 & Hc2). cbv zeta.
  change (default [] (ss_bins st' !! next_bin c (ss_bins st'))) with (bin_at (ss_bins st') (next_bin c (ss_bins st'))).
  destruct (Nat.leb_spec (length (bin_at (ss_bins st') (next_bin c (ss_bins st')))) capacity) as [Hle|Hlong].
  2: { left. split; [done|]. left. by eexists _, _, _, _. }
  apply IH; [done|done|exact Hr'| |lia].
  assert (0 < length frontier)%nat by (by destruct frontier; [|simpl; lia]). lia.
Qed.

Notation first_state := (first_state N src).

Lemma first_dist v : dist_at (ss_dist first_state) v = if decide (src = v) then d_zero else d_inf.
Proof.
  cbn [ss_dist first_state]. rewrite dist_at_insert by (by rewrite length_replicate). case_decide; [done|].
  unfold dist_at. destruct (replicate N d_inf !! v) as [x|] eqn:Hx; [|done].
  by apply lookup_replicate in Hx as [-> _].
Qed.

Lemma first_inv : ss_inv 0 [src] first_state.
Proof.
  split; cbn [ss_bins first_state].
  - unfold first_state. cbn [ss_dist]. by rewrite length_insert, length_replicate.
  - by rewrite first_dist, decide_True.
  - intros v. rewrite first_dist. case_decide; [subst; right; constructor|by left].
  - by intros v ->%list_elem_of_singleton.
  - intros b v Hv. unfold bin_at in Hv. rewrite lookup_empty in Hv. by apply elem_of_nil in Hv.
  - intros v Hv. rewrite first_dist. case_decide; [|done]. intros _. right; left. subst v. split; [by left|done].
Qed.

(** With enough fuel the computation ends: a frontier or a bin outgrows the
    memory, or the distances are the least sums of the walks. *)
Lemma sssp_of_spec `{Omp} num_edges : exists n, forall fuel, (n <= fuel)%nat ->
  let r := sssp_of idx edges num_edges N src sssp_delta fuel in
  (r = Undef /\ (frontier_outgrows idx edges N src sssp_delta num_edges \/ far_walk)) \/ exists dist, r = Val dist /\ length dist = N /\
    forall v, (v < N)%nat -> shortest adj_edge src v (dist_at dist v).
Proof.
  pose proof first_inv as I. set (n := S (Z.to_nat (ss_measure first_state + 1))). exists n. intros fuel Hfuel. unfold sssp_of. rewrite Hidx by done. bind_val.
  rewrite arr_set_val by (by rewrite length_replicate). bind_val.
  change (mkSsspState _ ∅) with first_state.
  destruct (Nat.eqb_spec num_edges 0) as [->|].
  { left. split; [done|]. left. eexists _, _, _, _. split; [apply reaches_first|simpl; lia]. }
  apply (sssp_loop_spec num_edges n); [done| |apply reaches_first| |done].
  - right. by split.
  - pose proof (ss_measure_nonneg _ _ _ I). unfold n. simpl. lia.
Qed.
End correct.
