(* ===== verification/SsspSafe.v ===== *)
(** When delta-stepping stays within its memory: with weights of at least the
    width of a bin every edge enters a bin at most once. Nothing here models
    code. *)

From S2P Require Import Prelude Doubles Paths Gapbs Sssp.

(** The number of the vertices that were reached. *)
Definition reached (dist : list double) : nat :=
  length (filter (fun x => value x < infinity_value) dist).

Lemma reached_le dist : (reached dist <= length dist)%nat.
Proof. apply length_filter. Qed.

Lemma reached_insert dist v old x : dist !! v = Some old -> value x < infinity_value ->
  (reached (<[v := x]> dist) + (if decide (value old < infinity_value)%Z then 1 else 0) = reached dist + 1)%nat.
Proof.
  unfold reached. intros Hv Hx. revert v Hv. induction dist as [|y dist IH]; intros v Hv; [done|].
  destruct v as [|v]; simpl in Hv |- *.
  - injection Hv as ->. rewrite !filter_cons, (decide_True _ _ Hx). case_decide; simpl; lia.
  - rewrite !filter_cons. specialize (IH v Hv). destruct (decide (value y < infinity_value)); simpl; lia.
Qed.

Lemma reached_pos dist v x : dist !! v = Some x -> value x < infinity_value -> (0 < reached dist)%nat.
Proof.
  unfold reached. intros Hv Hx.
  assert (x ∈ filter (fun x => value x < infinity_value) dist) as Hin
    by (apply list_elem_of_filter; split; [done|by eapply list_elem_of_lookup_2]).
  destruct (filter _ _); [by apply elem_of_nil in Hin|simpl; lia].
Qed.

Lemma bin_of_finite x b : b <= max_bins -> bin_of x <= b -> value x < infinity_value.
Proof.
  unfold bin_of. intros Hb Hx. assert ((max_bins + 1) * 2 ^ 1075 <= infinity_value) by (by apply Z.leb_le; vm_compute).
  pose proof (Z.mul_succ_div_gt (value x) (2 ^ 1075) ltac:(lia)). nia.
Qed.

(** A sum of values that are bounded by integers. *)
Lemma dadd_upper x y a b : nonneg x = true -> nonneg y = true -> 0 <= a + b < 2 ^ 53 ->
  value x <= a * 2 ^ 1074 -> value y <= b * 2 ^ 1074 -> value (dadd x y) <= (a + b) * 2 ^ 1074.
Proof.
  intros Hx Hy Hab Ha Hb. destruct (dadd_value x y Hx Hy) as [_ ->].
  rewrite <- (round53_short (a + b) 1074) by lia. etrans; [apply Z.le_min_l|].
  pose proof (value_range x Hx). pose proof (value_range y Hy). apply round53_mono; lia.
Qed.

Lemma dadd_lower x y a b : nonneg x = true -> nonneg y = true -> 0 <= a -> 0 <= b -> a + b < 2 ^ 53 ->
  a * 2 ^ 1074 <= value x -> b * 2 ^ 1074 <= value y -> (a + b) * 2 ^ 1074 <= value (dadd x y).
Proof.
  intros Hx Hy ? ? Hab Ha Hb. destruct (dadd_value x y Hx Hy) as [_ ->]. apply Z.min_glb.
  - rewrite <- (round53_short (a + b) 1074) by lia. apply round53_mono; lia.
  - unfold infinity_value. replace 2098 with (1024 + 1074) by done. rewrite Z.pow_add_r by lia.
    apply Z.mul_le_mono_nonneg_r; lia.
Qed.

Section safe.
Context (idx : nat -> res nat) (edges : nat -> res (list (nat * double))) (N : nat) (adj : nat -> list (nat * double)).
Context (Hidx : forall v, (v < N)%nat -> idx v = Val v).
Context (Hedges : forall v, (v < N)%nat -> edges v = Val (adj v)).
Context (Hadj : forall v e, (v < N)%nat -> e ∈ adj v -> (e.1 < N)%nat /\ nonneg e.2 = true).
Context (src : nat) (Hsrc : (src < N)%nat).
Context (W : Z) (HW0 : 0 <= W) (HW : Z.of_nat N * W <= 2 ^ 52).
Context (Hwide : forall v e, (v < N)%nat -> e ∈ adj v -> 2 * 2 ^ 1074 <= value e.2 <= W * 2 ^ 1074).

Notation inv := (ss_inv N adj src).
Notation total D := (sum_list_with (fun v => length (adj v)) D).

(** [D] are the vertices with their edges relaxed for good; [k] more entries
    come from the vertex that is being visited. *)
Record safe (c : Z) (D : list nat) (k : nat) (st : SsspState) : Prop := {
  sf_nodup : NoDup D;
  sf_range : forall v, v ∈ D -> (v < N)%nat;
  sf_done : forall v, v ∈ D -> bin_of (dist_at (ss_dist st) v) <= c /\ relaxed_at adj (ss_dist st) v;
  sf_low : forall b v, v ∈ bin_at (ss_bins st) b -> bin_of (dist_at (ss_dist st) v) <= b;
  sf_count : (total_length (ss_bins st) <= total D + k)%nat;
  sf_bound : forall v, value (dist_at (ss_dist st) v) < infinity_value ->
    value (dist_at (ss_dist st) v) <= Z.of_nat (reached (ss_dist st) - 1) * W * 2 ^ 1074;
}.

(** A shorter distance over an edge of the current bin belongs to a later bin. *)
Lemma relaxed_distance c D k st u w : safe c D k st -> length (ss_dist st) = N -> exact_bin c ->
  let du := dist_at (ss_dist st) u in
  nonneg du = true -> nonneg w = true -> (u < N)%nat -> bin_of du = c ->
  2 * 2 ^ 1074 <= value w <= W * 2 ^ 1074 ->
  let r := reached (ss_dist st) in
  (0 < r <= N)%nat /\ c + 1 <= bin_of (dadd du w) <= 2 ^ 51 /\
  value (dadd du w) <= Z.of_nat r * W * 2 ^ 1074 /\ value (dadd du w) < infinity_value.
Proof.
  intros F Hl (Hc0 & Hmax & _) du Hnn Hw Hu Hc [Hlo Hhi] r.
  assert (value du < infinity_value) as Hfin by (apply (bin_of_finite _ c); lia).
  destruct (lookup_lt_is_Some_2 (ss_dist st) u) as [du' Hdu]; [lia|].
  assert (dist_at (ss_dist st) u = du') as Hu' by (unfold dist_at; by rewrite Hdu). fold du in Hu'. subst du'.
  pose proof (reached_pos _ _ _ Hdu Hfin) as Hr. pose proof (reached_le (ss_dist st)) as Hr'. fold r in Hr, Hr'.
  pose proof (sf_bound _ _ _ _ F u Hfin) as Hb. fold r du in Hb.
  assert (2 <= W) as HW2 by lia. rewrite Nat2Z.inj_sub in Hb by lia. change (Z.of_nat 1) with 1 in Hb.
  assert (0 <= Z.of_nat r * W <= 2 ^ 52) as Hrw by nia.
  assert (value (dadd du w) <= ((Z.of_nat r - 1) * W + W) * 2 ^ 1074) as Hup.
  { apply dadd_upper; try done. lia. }
  assert (c * 2 ^ 1075 <= value du) as Hcd.
  { rewrite <- Hc. unfold bin_of. rewrite Z.mul_comm. apply Z.mul_div_le. lia. }
  replace (2 ^ 1075) with (2 * 2 ^ 1074) in Hcd by lia.
  assert (c < 2 ^ 51) as Hc51 by lia.
  assert ((2 * c + 2) * 2 ^ 1074 <= value (dadd du w)) as Hdown.
  { apply dadd_lower; try done; lia. }
  assert (value (dadd du w) <= Z.of_nat r * W * 2 ^ 1074) as Hup' by lia.
  split_and!; [lia|lia| | |done|].
  - apply Z.div_le_lower_bound; lia.
  - apply Z.div_le_upper_bound; [lia|]. replace (2 ^ 1075 * 2 ^ 51) with (2 ^ 52 * 2 ^ 1074) by lia. lia.
  - assert (2 ^ 52 * 2 ^ 1074 < infinity_value) by (by apply Z.ltb_lt; vm_compute). lia.
Qed.

Lemma relax_edge_safe c D k todo st u e :
  inv c todo st -> safe c D k st -> exact_bin c -> (u < N)%nat -> e ∈ adj u ->
  bin_of (dist_at (ss_dist st) u) = c ->
  exists st', relax_edge idx sssp_delta u st e = Val st' /\ safe c D (k + 1) st'.
Proof.
  intros I F Hex Hu He Hc. destruct (Hadj u e Hu He) as [Hv Hw]. destruct (Hwide u e Hu He) as [Hlo Hhi].
  destruct e as [v w]. simpl in Hv, Hw, Hlo, Hhi.
  unfold relax_edge. cbn [fst snd]. rewrite !Hidx by done. bind_val.
  pose proof (ss_len _ _ _ _ _ _ I) as Hl.
  destruct (lookup_lt_is_Some_2 (ss_dist st) v) as [old Hold]; [lia|].
  destruct (lookup_lt_is_Some_2 (ss_dist st) u) as [du Hdu]; [lia|].
  rewrite (arr_get_val _ _ _ Hold). do 2 bind_val. rewrite (arr_get_val _ _ _ Hdu). bind_val.
  assert (dist_at (ss_dist st) v = old) as Hv' by (unfold dist_at; by rewrite Hold).
  assert (dist_at (ss_dist st) u = du) as Hu' by (unfold dist_at; by rewrite Hdu).
  pose proof (ss_nonneg N adj Hadj src _ _ _ v I) as Hno. pose proof (ss_nonneg N adj Hadj src _ _ _ u I) as Hnu.
  rewrite Hv' in Hno. rewrite Hu' in Hnu.
  destruct (relaxed_distance c D k st u w F Hl Hex) as (Hr & Hbin & Hup & Hfin); rewrite ?Hu' in *; try done.
  set (d := dadd du w) in *. set (r := reached (ss_dist st)) in *. set (b := bin_of d) in *.
  assert (nonneg d = true) as Hnd by (by apply dadd_nonneg). rewrite dlt_value by done.
  destruct (Z.ltb_spec (value d) (value old)) as [Hlt|Hle].
  2:{ exists st. split; [done|]. destruct F. split; try done. lia. }
  rewrite arr_set_val by lia. bind_val. rewrite dest_bin_spec by done. fold b.
  rewrite (proj2 (Z.ltb_lt _ _)) by lia. bind_val.
  rewrite (proj2 (Z.leb_le _ _)) by (assert (2 ^ 51 < max_bins) by done; lia).
  fold (bin_at (ss_bins st) b). eexists. split; [done|].
  assert (forall z, dist_at (<[v := d]> (ss_dist st)) z = if decide (v = z) then d else dist_at (ss_dist st) z) as Hnew
    by (intros z; apply dist_at_insert; lia).
  assert (forall z, value (dist_at (<[v := d]> (ss_dist st)) z) <= value (dist_at (ss_dist st) z)) as Hmono.
  { intros z. rewrite Hnew. case_decide; [subst z; rewrite Hv'; lia|done]. }
  split; cbn [ss_dist ss_bins]; try apply F.
  - intros z Hz. destruct (sf_done _ _ _ _ F z Hz) as [Hzc Hrel].
    assert (v <> z) as Hvz.
    { intros <-. rewrite Hv' in Hzc. pose proof (bin_of_mono d old ltac:(lia)). lia. }
    rewrite Hnew, decide_False by done. split; [done|]. intros e' He'. etrans; [apply Hmono|].
    rewrite Hnew, decide_False by done. by apply Hrel.
  - intros b' z Hz. rewrite bin_at_insert in Hz. case_decide as Hb.
    + apply elem_of_app in Hz as [Hz| ->%list_elem_of_singleton].
      * subst b'. etrans; [by apply bin_of_mono, Hmono|by apply F].
      * subst b'. by rewrite Hnew, decide_True.
    + etrans; [by apply bin_of_mono, Hmono|by apply F].
  - pose proof (total_length_insert (ss_bins st) b (bin_at (ss_bins st) b ++ [v])) as Hlen.
    rewrite length_app in Hlen. simpl in Hlen. pose proof (sf_count _ _ _ _ F). lia.
  - pose proof (reached_insert (ss_dist st) v old d Hold Hfin) as Hri. fold r in Hri.
    intros z. rewrite Hnew. destruct (decide (v = z)) as [->|Hvz]; intros Hz.
    + destruct (decide (value old < infinity_value)) as [Ho|Ho].
      * pose proof (sf_bound _ _ _ _ F z) as Hb. rewrite Hv' in Hb. specialize (Hb Ho). fold r in Hb.
        replace (reached _) with r by lia. lia.
      * replace (reached _ - 1)%nat with r by lia. done.
    + pose proof (sf_bound _ _ _ _ F z Hz) as Hb. fold r in Hb. etrans; [exact Hb|].
      apply Z.mul_le_mono_nonneg_r; [lia|]. apply Z.mul_le_mono_nonneg_r; [lia|]. case_decide; lia.
Qed.

(** A vertex with its edges relaxed changes nothing. *)
Lemma relax_edge_idle st u e : length (ss_dist st) = N -> (u < N)%nat -> (e.1 < N)%nat -> nonneg e.2 = true ->
  nonneg (dist_at (ss_dist st) u) = true -> nonneg (dist_at (ss_dist st) e.1) = true ->
  value (dist_at (ss_dist st) e.1) <= value (dadd (dist_at (ss_dist st) u) e.2) ->
  relax_edge idx sssp_delta u st e = Val st.
Proof.
  intros Hl Hu Hv Hw Hnu Hnv Hle. unfold relax_edge. rewrite !Hidx by done. bind_val. unfold dist_at in *.
  destruct (lookup_lt_is_Some_2 (ss_dist st) e.1) as [old Hold]; [lia|].
  destruct (lookup_lt_is_Some_2 (ss_dist st) u) as [du Hdu]; [lia|].
  rewrite (arr_get_val _ _ _ Hold). do 2 bind_val. rewrite (arr_get_val _ _ _ Hdu). bind_val.
  rewrite Hold, Hdu in *. cbn in *. rewrite dlt_value by (done || by apply dadd_nonneg).
  by rewrite (proj2 (Z.ltb_ge _ _)).
Qed.

Lemma relax_edges_safe c D todo u l : forall k st,
  inv c todo st -> safe c D k st -> exact_bin c -> (u < N)%nat -> l ⊆ adj u ->
  bin_of (dist_at (ss_dist st) u) = c ->
  exists st', res_fold (relax_edge idx sssp_delta u) st l = Val st' /\ safe c D (k + length l) st'.
Proof.
  induction l as [|e l IH]; intros k st I F Hex Hu Hl Hc.
  { exists st. split; [done|]. by rewrite Nat.add_0_r. }
  assert (e ∈ adj u) as He by (apply Hl; by left). cbn [res_fold].
  destruct (relax_edge_safe c D k todo st u e) as (st1 & Heq & F1); try done.
  destruct (relax_edge_spec idx N adj Hidx Hadj src Hsrc c todo st u e I Hu He ltac:(lia))
    as [[? _]|(st1' & Heq' & I1 & _ & Hsame & _)]; [congruence|].
  rewrite Heq in Heq'. injection Heq' as <-. rewrite Heq. bind_val.
  destruct (IH (k + 1)%nat st1) as (st2 & -> & F2); try done; [set_solver|by rewrite Hsame|].
  exists st2. split; [done|]. cbn [length]. by replace (k + S (length l))%nat with (k + 1 + length l)%nat by lia.
Qed.

Lemma visit_safe c D todo st u :
  inv c (u :: todo) st -> safe c D 0 st -> exact_bin c -> bin_of (dist_at (ss_dist st) u) <= c ->
  exists st' D', sssp_visit idx edges sssp_delta c st u = Val st' /\ safe c D' 0 st'.
Proof.
  intros I F Hex Hlow. assert (u < N)%nat as Hu by (apply (ss_todo _ _ _ _ _ _ I); by left).
  pose proof (ss_len _ _ _ _ _ _ I) as Hl. pose proof (fun v => ss_nonneg N adj Hadj src _ _ _ v I) as Hnn.
  unfold sssp_visit. rewrite Hidx by done. bind_val.
  destruct (lookup_lt_is_Some_2 (ss_dist st) u) as [du Hdu]; [lia|]. rewrite (arr_get_val _ _ _ Hdu). bind_val.
  assert (dist_at (ss_dist st) u = du) as Hu' by (unfold dist_at; by rewrite Hdu).
  rewrite width_test by (done || rewrite <- Hu'; done). rewrite <- Hu'.
  destruct (Z.leb_spec c (bin_of (dist_at (ss_dist st) u))) as [Hle|Hgt]; [|by exists st, D].
  rewrite Hedges by done. bind_val. destruct (decide (u ∈ D)) as [Hin|Hnin].
  - exists st, D. split; [|done]. destruct (sf_done _ _ _ _ F u Hin) as [_ Hrel].
    assert (forall l, l ⊆ adj u -> res_fold (relax_edge idx sssp_delta u) st l = Val st) as Hidle; [|by apply Hidle].
    induction l as [|e l IH]; intros Hl'; [done|]. assert (e ∈ adj u) as He by (apply Hl'; by left).
    destruct (Hadj u e Hu He). cbn [res_fold]. rewrite relax_edge_idle by (done || by apply Hrel). bind_val.
    apply IH. set_solver.
  - destruct (relax_edges_safe c D (u :: todo) u (adj u) 0 st) as (st' & Heq & F'); try done; [lia|].
    destruct (relax_edges_spec idx N adj Hidx Hadj src Hsrc c (u :: todo) u (adj u) st I Hu) as
      [[? _]|(st1' & Heq' & I1 & _ & Hsame & _ & Hrel)]; [done|done|congruence|].
    rewrite Heq in Heq'. injection Heq' as <-. exists st', (u :: D). split; [done|]. split; try apply F'.
    + constructor; [done|apply F].
    + intros v [->|Hv]%elem_of_cons; [done|by apply F].
    + intros v [->|Hv]%elem_of_cons; [|by apply F']. rewrite Hsame. split; [lia|]. intros e He. rewrite Hsame. by apply Hrel.
    + pose proof (sf_count _ _ _ _ F'). cbn [sum_list_with]. lia.
Qed.

Lemma pass_safe c l : forall D st, inv c l st -> safe c D 0 st -> exact_bin c ->
  (forall v, v ∈ l -> bin_of (dist_at (ss_dist st) v) <= c) ->
  exists st' D', res_fold (sssp_visit idx edges sssp_delta c) st l = Val st' /\ safe c D' 0 st'.
Proof.
  induction l as [|u l IH]; intros D st I F Hex Hlow; [by exists st, D|]. cbn [res_fold].
  destruct (visit_safe c D l st u I F Hex) as (st1 & D1 & Heq & F1); [apply Hlow; by left|].
  destruct (sssp_visit_spec idx edges N adj Hidx Hedges Hadj src Hsrc c u l st Hex I) as [[? _]|(st1' & Heq' & I1 & _ & Hmono)];
    [congruence|]. rewrite Heq in Heq'. injection Heq' as <-. rewrite Heq. bind_val.
  apply (IH D1); [done..|]. intros v Hv. etrans; [apply bin_of_mono, Hmono|]. apply Hlow. by right.
Qed.

Lemma loop_safe `{Omp} capacity : (total (seq 0 N) <= capacity)%nat ->
  forall fuel c frontier st iter D, inv c frontier st -> safe c D 0 st ->
  (c = kMaxBin /\ frontier = []) \/ (exact_bin c /\ frontier <> []) ->
  (forall v, v ∈ frontier -> bin_of (dist_at (ss_dist st) v) <= c) ->
  sssp_loop idx edges capacity sssp_delta c frontier st iter fuel <> Undef.
Proof.
  intros Hcap fuel. induction fuel as [|fuel IH]; intros c frontier st iter D I F Hc Hlow; cbn [sssp_loop].
  { by destruct (c =? kMaxBin). }
  destruct Hc as [[-> ->]|[Hex Hne]]; [done|].
  rewrite (proj2 (Z.eqb_neq _ _)) by (destruct Hex as (_ & ? & _); assert (max_bins < kMaxBin) by done; lia).
  pose proof (omp_perm (Z.of_nat iter) _ frontier) as Hp.
  assert (inv c (omp_order (Z.of_nat iter) frontier) st) as Ip by (by eapply ss_perm).
  destruct (pass_safe c (omp_order (Z.of_nat iter) frontier) D st) as (st' & D' & Heq & F'); try done.
  { intros v Hv. apply Hlow. by rewrite <- Hp. }
  destruct (sssp_pass_spec idx edges N adj Hidx Hedges Hadj src Hsrc c (omp_order (Z.of_nat iter) frontier) st Hex Ip)
    as [[? _]|(st1 & Heq' & I' & _)]; [congruence|]. rewrite Heq in Heq'. injection Heq' as <-. rewrite Heq. bind_val.
  destruct (ss_next N adj src Hsrc c st' I') as (I2 & _ & Hc2). cbv zeta.
  change (default [] (ss_bins st' !! next_bin c (ss_bins st'))) with (bin_at (ss_bins st') (next_bin c (ss_bins st'))).
  set (c' := next_bin c (ss_bins st')) in *. set (bin := bin_at (ss_bins st') c') in *.
  pose proof (total_length_insert (ss_bins st') c' []) as Hlen. fold bin in Hlen. simpl in Hlen.
  pose proof (sf_count _ _ _ _ F') as Hcount.
  assert (total D' <= total (seq 0 N))%nat as HD.
  { assert (D' ⊆+ seq 0 N) as [k Hk]%submseteq_Permutation.
    - apply NoDup_submseteq; [apply F'|]. intros v Hv. apply elem_of_seq.
      pose proof (sf_range _ _ _ _ F' v Hv). lia.
    - rewrite (sum_list_with_perm _ _ _ Hk), sum_list_with_app. lia. }
  rewrite (proj2 (Nat.leb_le _ _)) by lia. apply (IH _ _ _ _ D').
  - done.
  - split; cbn [ss_dist ss_bins]; try apply F'.
    + intros v Hv. destruct (sf_done _ _ _ _ F' v Hv) as [Hb Hrel]. split; [|done].
      destruct (next_bin_spec c (ss_bins st')) as [_ [Hk|[Hk _]]]; fold c' in Hk; [|lia].
      destruct Hex as (_ & ? & _). assert (max_bins < kMaxBin) by done. lia.
    + intros b v. rewrite bin_at_insert. case_decide; [by intros ?%elem_of_nil|apply F'].
    + lia.
  - done.
  - intros v Hv. by apply F'.
Qed.

Lemma sssp_of_safe `{Omp} num_edges fuel : (0 < num_edges)%nat -> (total (seq 0 N) <= num_edges)%nat ->
  sssp_of idx edges num_edges N src sssp_delta fuel <> Undef.
Proof.
  intros Hpos Hcap. unfold sssp_of. rewrite Hidx by done. bind_val.
  rewrite arr_set_val by (by rewrite length_replicate). bind_val.
  rewrite (proj2 (Nat.eqb_neq _ _)) by lia.
  change (mkSsspState _ ∅) with (first_state N src). pose proof (first_inv N adj src Hsrc) as I.
  apply (loop_safe _ Hcap _ _ _ _ _ []); [done| |right; by split|].
  - split; try done.
    + constructor.
    + intros v Hv. by apply elem_of_nil in Hv.
    + intros v Hv. by apply elem_of_nil in Hv.
    + intros b v Hv. unfold bin_at, first_state in Hv. cbn [ss_bins] in Hv. rewrite lookup_empty in Hv. by apply elem_of_nil in Hv.
    + intros v Hv. rewrite first_dist in Hv |- * by done. case_decide; [|done]. change (value d_zero) with 0.
      apply Z.mul_nonneg_nonneg; [|lia]. apply Z.mul_nonneg_nonneg; lia.
  - intros v ->%list_elem_of_singleton. by rewrite first_dist, decide_True.
Qed.
End safe.
