(* ===== verification/Bfs.v ===== *)
(** The direction-optimising breadth first search of the GAP benchmark suite, as
    the drivers instantiate it: the loop over the levels is the same text in
    every driver, the four steps it is made of depend on how the driver iterates
    over its edges. [BfsSteps] is the interface between the two: the theorem on
    the loop is proved from the laws of the steps, and each driver discharges
    the laws for its own steps. *)

From S2P Require Import Prelude Graphs Gapbs.

(** ** The loop *)

Record BfsSteps := {
  BUStep : list Z -> Z -> list bool -> list bool -> res (list Z * list bool * Z);
  TDStep : list Z -> Z -> SlidingQueue -> res (list Z * SlidingQueue * Z);
  QueueToBitmap : SlidingQueue -> list bool -> res (list bool);
  BitmapToQueue : list bool -> SlidingQueue -> res SlidingQueue;
}.

(** The bottom-up do-while loop; [n] is the number of vertices. *)
Fixpoint bu_loop (steps : BfsSteps) (n beta : Z) (distances : list Z) (distance : Z)
    (front curr : list bool) (old_awake_count : Z) (fuel : nat) :
    res (list Z * Z * list bool * list bool) :=
  match fuel with
  | O => NoFuel
  | S fuel =>
    '(distances, curr, awake_count) ← BUStep steps distances distance front curr;
    let '(front, curr) := (curr, front) in
    let distance := i64 (distance + 1) in
    if (awake_count >=? old_awake_count) || (awake_count >? Z.quot n beta)
    then bu_loop steps n beta distances distance front curr awake_count fuel
    else Val (distances, distance, front, curr)
  end.

Record BfsState := mkBfsState {
  distances : list Z;
  queue : SlidingQueue;
  curr : list bool;
  front : list bool;
  edges_to_check : Z;
  scout_count : Z;
  distance : Z;
}.

(** The loop over the levels; [k] counts the polls of the timer and [levels]
    bounds the number of levels of one bottom-up phase. *)
Fixpoint bfs_loop `{Timer} (steps : BfsSteps) (n alpha beta : Z) (levels : nat) (st : BfsState)
    (k fuel : nat) :
    res (list Z * nat) :=
  match fuel with
  | O => NoFuel
  | S fuel =>
    if is_timeout k then Val (distances st, S k)
    else if q_empty (queue st) then Val (distances st, S k)
    else if scout_count st >? Z.quot (edges_to_check st) alpha then
      front' ← QueueToBitmap steps (queue st) (front st);
      let awake_count := Z.of_nat (q_size (queue st)) in
      let queue' := slide_window (queue st) in
      '(distances', distance', front', curr') ←
        bu_loop steps n beta (distances st) (distance st) front' (curr st) awake_count levels;
      queue' ← BitmapToQueue steps front' queue';
      bfs_loop steps n alpha beta levels
        (mkBfsState distances' queue' curr' front' (edges_to_check st) 1 distance') (S k) fuel
    else
      let edges_to_check' := i64 (edges_to_check st - scout_count st) in
      '(distances', queue', scout_count') ← TDStep steps (distances st) (distance st) (queue st);
      bfs_loop steps n alpha beta levels
        (mkBfsState distances' (slide_window queue') (curr st) (front st) edges_to_check'
           scout_count' (i64 (distance st + 1))) (S k) fuel
  end.

(** ** The laws of the steps *)

(** [distances'] is [distances] with the unvisited vertices in [P] at [d]. *)
Definition visit (distances distances' : list Z) (d : Z) (P : nat -> Prop) : Prop :=
  length distances' = length distances /\
  forall v x, distances !! v = Some x ->
    exists y, distances' !! v = Some y /\
      ((x < 0 /\ P v /\ y = d) \/ (~ (x < 0 /\ P v) /\ y = x)).

(** The unvisited vertices of [P]. *)
Definition fresh (distances : list Z) (P : nat -> Prop) (v : nat) : Prop :=
  (exists x, distances !! v = Some x /\ x < 0) /\ P v.

Lemma visit_iff dist dist' d P Q :
  (forall v, P v <-> Q v) -> visit dist dist' d P -> visit dist dist' d Q.
Proof.
  intros HPQ [Hl Hv]. split; [done|]. intros v x Hx. destruct (Hv v x Hx) as (y & Hy & Hcase).
  exists y. by rewrite <- !HPQ.
Qed.

Lemma fresh_iff dist P Q v : (forall v, P v <-> Q v) -> fresh dist P v <-> fresh dist Q v.
Proof. intros HPQ. unfold fresh. by rewrite HPQ. Qed.

(** The steps on a graph of [N] vertices with edges [E], whose vertex [i] is
    [enc i] in the queue. *)
Record BfsLaws (N : nat) (E : nat -> nat -> Prop) (enc : nat -> nat) (steps : BfsSteps) : Prop := {
  bu_law : forall dist d front next,
    length dist = N -> length front = N -> length next = N ->
    exists dist' next' awake, BUStep steps dist d front next = Val (dist', next', awake) /\
      let P v := exists p, bit front p = true /\ E p v in
      visit dist dist' d P /\ length next' = N /\ 0 <= awake /\
      (forall v, bit next' v = true <-> fresh dist P v) /\
      (0 < awake -> exists v, bit next' v = true);
  td_law : forall dist d q W,
    length dist = N -> window q = enc <$> W -> 0 <= d -> (forall v, v ∈ W -> (v < N)%nat) ->
    exists dist' l scout,
      let P v := exists p, p ∈ W /\ E p v in
      visit dist dist' d P /\ NoDup l /\ (forall v, v ∈ l <-> fresh dist P v) /\
      TDStep steps dist d q = q' ← q_flush q (enc <$> l); Val (dist', q', scout);
  q2b_law : forall q b W,
    length b = N -> window q = enc <$> W -> (forall v, v ∈ W -> (v < N)%nat) ->
    exists b', QueueToBitmap steps q b = Val b' /\ length b' = N /\
      forall v, bit b' v = true <-> bit b v = true \/ v ∈ W;
  b2q_law : forall q b, length b = N ->
    exists l, NoDup l /\ (forall v, v ∈ l <-> bit b v = true) /\
      BitmapToQueue steps b q = q' ← q_flush q (enc <$> l); Val (slide_window q');
}.

(** ** Correctness of the loop *)

Section bfs.
Context `{Timer} (N : nat) (E : nat -> nat -> Prop) (enc : nat -> nat) (steps : BfsSteps).
Context (root : nat) (dist0 : list Z) (alpha beta : Z).
Context (HE : forall p v, E p v -> (v < N)%nat).
Context (Hlaws : BfsLaws N E enc steps).
Context (HN : Z.of_nat N < 2 ^ 62) (Hbeta : 0 < beta) (num_vertices : Z) (Hnv : 0 <= num_vertices).
Context (Hlen : length dist0 = N) (Hroot : (root < N)%nat).

(** The vertices marked as missing, with a non-negative initial distance; no
    edge leads to them. *)
Definition ghost (v : nat) : Prop := exists x, dist0 !! v = Some x /\ 0 <= x.

Context (Hghost : forall p v, E p v -> ~ ghost v) (Hroot_ghost : ~ ghost root).

Notation hop := (hop_dist E root).

(** Where the search stands after the level [d]. *)
Record bfs_inv (dist : list Z) (d : nat) : Prop := {
  i_length : length dist = N;
  i_vis : forall v x, dist !! v = Some x -> 0 <= x -> ~ ghost v ->
    exists n, x = Z.of_nat n /\ (n <= d)%nat /\ hop v n;
  i_walk : forall m v, walk E m root v -> (m <= d)%nat ->
    exists x, dist !! v = Some x /\ 0 <= x;
  i_ghost : forall v, ghost v -> dist !! v = dist0 !! v;
}.

Lemma walk_not_ghost m v : walk E m root v -> ~ ghost v.
Proof. intros Hw. inversion Hw; subst; [done|]. by eapply Hghost. Qed.

Lemma walk_range m v : walk E m root v -> (v < N)%nat.
Proof. intros Hw. inversion Hw; subst; [done|]. by eapply HE. Qed.

(** A walk that is short enough has a minimal one. *)
Lemma walk_hop dist d m v :
  bfs_inv dist d -> walk E m root v -> (m <= d)%nat ->
  exists n, (n <= d)%nat /\ hop v n /\ dist !! v = Some (Z.of_nat n).
Proof.
  intros HI Hw Hm. destruct (i_walk _ _ HI m v Hw Hm) as (x & Hx & Hx0).
  destruct (i_vis _ _ HI v x Hx Hx0 (walk_not_ghost _ _ Hw)) as (n & -> & Hn & Hh). eauto.
Qed.

Lemma bfs_inv_init : bfs_inv (<[root := 0]> dist0) 0.
Proof.
  split.
  - by rewrite length_insert.
  - intros v x Hx Hx0 Hg. destruct (decide (root = v)) as [<-|Hne].
    + rewrite list_lookup_insert_eq in Hx by lia. simplify_eq. exists 0%nat. eauto with gfe.
    + rewrite list_lookup_insert_ne in Hx by done. destruct Hg. by exists x.
  - intros m v Hw Hm. assert (m = 0%nat) as -> by lia. inversion Hw; subst.
    rewrite list_lookup_insert_eq by lia. by exists 0.
  - intros v Hg. rewrite list_lookup_insert_ne; [done|]. intros ->. done.
Qed.

(** Visiting from a set [B] between the last level and all the levels. *)
Lemma bfs_inv_step dist dist' d (B : nat -> Prop) :
  bfs_inv dist d ->
  (forall v, hop v d -> B v) -> (forall v, B v -> exists n, (n <= d)%nat /\ hop v n) ->
  visit dist dist' (Z.of_nat (S d)) (fun v => exists p, B p /\ E p v) ->
  bfs_inv dist' (S d) /\
  forall v, fresh dist (fun v => exists p, B p /\ E p v) v <-> hop v (S d).
Proof.
  intros HI HB1 HB2 [Hl Hv].
  assert (forall v, fresh dist (fun v => exists p, B p /\ E p v) v -> hop v (S d)) as Hfresh.
  { intros v ((x & Hx & Hneg) & p & Hp & He). destruct (HB2 p Hp) as (n & Hn & Hw & Hmin).
    assert (forall m, walk E m root v -> (S d <= m)%nat) as Hfar.
    { intros m Hm. destruct (decide (m <= d)%nat) as [Hle|]; [|lia].
      destruct (i_walk _ _ HI m v Hm Hle) as (y & Hy & Hy0). simplify_eq. lia. }
    assert (n = d) as -> by (specialize (Hfar (S n) ltac:(by econstructor)); lia).
    split; [by econstructor|done]. }
  assert (forall v, hop v (S d) -> fresh dist (fun v => exists p, B p /\ E p v) v) as Hfresh'.
  { intros v Hh. destruct (hop_dist_pred _ _ _ _ Hh) as (p & Hp & He).
    split; [|exists p; eauto].
    destruct (lookup_lt_is_Some_2 dist v) as [x Hx].
    { rewrite (i_length _ _ HI). by eapply HE. }
    exists x. split; [done|]. destruct (Z.le_gt_cases 0 x) as [Hx0|]; [|done].
    destruct (i_vis _ _ HI v x Hx Hx0) as (n & -> & Hn & Hh'); [by eapply Hghost|].
    pose proof (hop_dist_unique _ _ _ _ _ Hh Hh'). lia. }
  split; [|by split; auto]. split.
  - rewrite Hl. apply HI.
  - intros v y Hy Hy0 Hg.
    destruct (lookup_lt_is_Some_2 dist v) as [x Hx]; [apply lookup_lt_Some in Hy; lia|].
    destruct (Hv v x Hx) as (y' & Hy' & [(Hneg & HP & ->)|(Hno & ->)]); rewrite Hy in Hy'; injection Hy' as ->.
    + exists (S d). split_and!; [done|lia|]. apply Hfresh. split; eauto.
    + destruct (i_vis _ _ HI v x Hx Hy0 Hg) as (n & -> & Hn & Hh). exists n. split_and!; [done|lia|done].
  - intros m v Hw Hm.
    assert (exists n, (n <= S d)%nat /\ hop v n) as (n & Hn & Hh).
    { destruct (decide (m <= d)%nat) as [Hle|Hgt].
      - destruct (walk_hop _ _ _ _ HI Hw Hle) as (n & Hn & Hh & _). exists n. split; [lia|done].
      - assert (m = S d) as -> by lia.
        inversion Hw as [|n' u p v' Hp He]; subst.
        destruct (walk_hop _ _ _ _ HI Hp ltac:(lia)) as (n & Hn & Hh & Hd).
        destruct (lookup_lt_is_Some_2 dist v) as [x Hx];
          [rewrite (i_length _ _ HI); by eapply HE|].
        destruct (Z.le_gt_cases 0 x) as [Hx0|Hx0].
        + destruct (i_vis _ _ HI v x Hx Hx0) as (n' & -> & Hn' & Hh'); [by eapply Hghost|].
          exists n'. split; [lia|done].
        + exists (S d). split; [lia|]. apply Hfresh. split; [eauto|]. exists p. split; [|done].
          destruct (decide (n = d)) as [->|Hne]; [by apply HB1|]. exfalso.
          destruct (walk_hop _ _ (S n) v HI ltac:(econstructor; [apply Hh|done]) ltac:(lia))
            as (n' & _ & _ & Hn'). simplify_eq. lia. }
    destruct (decide (n = S d)) as [->|Hne].
    + destruct (Hfresh' v Hh) as ((x & Hx & Hneg) & HP).
      destruct (Hv v x Hx) as (y & Hy & [(_ & _ & ->)|(Hno & _)]); [exists (Z.of_nat (S d)); split; [done|lia]|].
      destruct Hno; done.
    + destruct (walk_hop _ _ n v HI (proj1 Hh) ltac:(lia)) as (n' & _ & _ & Hx).
      destruct (Hv v _ Hx) as (y & Hy & [(? & _)|(_ & ->)]); [lia|]. exists (Z.of_nat n'). split; [done|lia].
  - intros v Hg. rewrite <- (i_ghost _ _ HI v Hg).
    destruct Hg as (x & Hx0 & Hpos). pose proof (i_ghost _ _ HI v (ex_intro _ x (conj Hx0 Hpos))) as Hd.
    rewrite Hx0 in Hd. destruct (Hv v x Hd) as (y & Hy & [(? & _)|(_ & ->)]); [lia|congruence].
Qed.

Lemma hop_lt v d : hop v d -> (d < N)%nat.
Proof.
  intros Hv. destruct (hop_dist_path E root v d Hv) as (l & Hnd & Hl & Hall).
  assert (l ⊆+ seq 0 N) as Hs.
  { apply NoDup_submseteq; [done|]. intros x Hx. destruct (Hall x Hx) as (k & _ & Hk).
    apply elem_of_seq. apply hop_dist_reachable in Hk as [m Hm]. apply walk_range in Hm. lia. }
  apply submseteq_length in Hs. rewrite length_seq in Hs. lia.
Qed.

(** What the search promises when it is not interrupted. *)
Definition bfs_result (dist : list Z) : Prop :=
  length dist = N /\
  forall v, (v < N)%nat ->
    (ghost v /\ dist !! v = dist0 !! v) \/
    (~ ghost v /\ exists x, dist !! v = Some x /\
       ((exists n, hop v n /\ x = Z.of_nat n) \/ (~ reachable E root v /\ x < 0))).

Lemma bfs_inv_final dist d :
  bfs_inv dist d -> (forall v, ~ hop v d) -> bfs_result dist.
Proof.
  intros HI Hd. split; [apply HI|]. intros v Hv.
  destruct (lookup_lt_is_Some_2 dist0 v) as [x0 Hx0]; [lia|].
  destruct (Z.le_gt_cases 0 x0) as [Hpos|Hneg].
  { left. assert (ghost v) as Hg by (by exists x0). split; [done|]. by apply (i_ghost _ _ HI). }
  right. split; [intros (? & ? & ?); simplify_eq; lia|].
  destruct (lookup_lt_is_Some_2 dist v) as [x Hx]; [by rewrite (i_length _ _ HI)|].
  exists x. split; [done|].
  destruct (Z.le_gt_cases 0 x) as [Hpos'|Hneg'].
  - left. destruct (i_vis _ _ HI v x Hx Hpos') as (n & -> & _ & Hh); [|eauto].
    intros (? & ? & ?). simplify_eq. lia.
  - right. split; [|done]. intros [m Hm].
    assert (forall m v, walk E m root v -> exists n, (n <= d)%nat /\ hop v n /\ dist !! v = Some (Z.of_nat n))
      as Hall.
    { clear v m Hv Hm x Hx Hneg' x0 Hx0 Hneg. intros m. induction m as [|m IH]; intros v Hw.
      - apply (walk_hop _ _ 0 v HI Hw). lia.
      - inversion Hw as [|n' u p v' Hp He]; subst. destruct (IH p Hp) as (n & Hn & Hh & _).
        assert (n <> d) by (intros ->; by apply (Hd p)).
        apply (walk_hop _ _ (S n) v HI); [|lia]. econstructor; [apply Hh|done]. }
    destruct (Hall m v Hm) as (n & _ & _ & Hn). simplify_eq. lia.
Qed.

(** The bottom-up phase. *)
Lemma bu_loop_spec fuel dist d front curr old :
  bfs_inv dist d -> length front = N -> length curr = N ->
  (forall v, hop v d -> bit front v = true) ->
  (forall v, bit front v = true -> exists n, (n <= d)%nat /\ hop v n) ->
  (exists v, hop v d) -> 0 < old -> (N < fuel + d)%nat ->
  exists dist' d' front' curr',
    bu_loop steps num_vertices beta dist (Z.of_nat (S d)) front curr old fuel =
      Val (dist', Z.of_nat (S d'), front', curr') /\
    bfs_inv dist' d' /\ (d < d' <= N)%nat /\ length front' = N /\ length curr' = N /\
    forall v, bit front' v = true <-> hop v d'.
Proof.
  revert dist d front curr old.
  induction fuel as [|fuel IH]; intros dist d front curr old HI Hlf Hlc Hf1 Hf2 [w Hw] Hold Hfuel.
  { apply hop_lt in Hw. lia. }
  pose proof (hop_lt _ _ Hw) as Hd. simpl.
  destruct (bu_law _ _ _ _ Hlaws dist (Z.of_nat (S d)) front curr) as
    (dist' & next' & awake & Heq & Hvis & Hln & Hpos & Hbits & Hawake); [apply HI|done..|].
  change (Z.pos (Pos.of_succ_nat d)) with (Z.of_nat (S d)). rewrite Heq. bind_val.
  destruct (bfs_inv_step dist dist' d (fun p => bit front p = true) HI Hf1 Hf2 Hvis) as [HI' Hfresh].
  rewrite i64_id by lia. replace (Z.of_nat (S d) + 1) with (Z.of_nat (S (S d))) by lia.
  assert (forall v, bit next' v = true <-> hop v (S d)) as Hnext
    by (intros v; by rewrite Hbits, Hfresh).
  assert (0 <= Z.quot num_vertices beta) as Hq by (apply Z.quot_pos; lia).
  destruct ((awake >=? old) || (awake >? Z.quot num_vertices beta)) eqn:Hcont.
  - assert (0 < awake) as Ha.
    { apply orb_true_iff in Hcont as [Hc|Hc]; [apply Z.geb_le in Hc|apply Z.gtb_lt in Hc]; lia. }
    destruct (Hawake Ha) as [u Hu]. apply Hnext in Hu.
    destruct (IH dist' (S d) next' front awake) as (dist2 & d2 & f2 & c2 & -> & HI2 & Hd2 & Hrest); try done.
    + intros v. apply Hnext.
    + intros v Hv%Hnext. eauto.
    + by exists u.
    + lia.
    + exists dist2, d2, f2, c2. split_and!; (done || apply Hrest || lia).
  - exists dist', (S d), next', front. split_and!; (done || lia).
Qed.

(** The queue after the level [d]: all that was pushed is distinct and at most
    [d] hops away, and the window is the level [d]. *)
Definition queue_inv (q : SlidingQueue) (d : nat) (S W : list nat) : Prop :=
  shared_size q = N /\ shared q = enc <$> S /\ NoDup S /\
  (forall v, v ∈ S -> exists n, (n <= d)%nat /\ hop v n) /\
  shared_out_end q = length (shared q) /\ (shared_out_start q <= shared_out_end q)%nat /\
  window q = enc <$> W /\ (forall v, v ∈ W <-> hop v d).

Lemma queue_flush q S l d d' :
  shared_size q = N -> shared q = enc <$> S -> NoDup S ->
  (forall v, v ∈ S -> exists n, (n <= d)%nat /\ hop v n) ->
  shared_out_end q = length (shared q) ->
  (d < d')%nat -> NoDup l -> (forall v, v ∈ l <-> hop v d') ->
  exists q', q_flush q (enc <$> l) = Val q' /\ queue_inv (slide_window q') d' (S ++ l) l.
Proof.
  intros Hsz Hs HS Hle He Hd Hl Hlv.
  assert (NoDup (S ++ l)) as Hnd.
  { apply NoDup_app. split_and!; [done| |done]. intros v Hv Hv'.
    destruct (Hle v Hv) as (n & Hn & Hh). apply Hlv in Hv'.
    pose proof (hop_dist_unique _ _ _ _ _ Hh Hv'). lia. }
  assert (length (S ++ l) <= N)%nat as Hroom.
  { assert (S ++ l ⊆+ seq 0 N) as Hsub.
    { apply NoDup_submseteq; [done|]. intros v Hv. apply elem_of_seq.
      enough (exists n, hop v n) as (n & Hh)
        by (apply hop_dist_reachable in Hh as [m Hm]; apply walk_range in Hm; lia).
      apply elem_of_app in Hv as [Hv|Hv]; [destruct (Hle v Hv) as (n & _ & ?); eauto|].
      exists d'. by apply Hlv. }
    apply submseteq_length in Hsub. by rewrite length_seq in Hsub. }
  rewrite length_app in Hroom.
  assert (exists q', q_flush q (enc <$> l) = Val q') as [q' Hq'].
  { unfold q_flush. rewrite Hsz, Hs, !length_fmap.
    rewrite (proj2 (Nat.leb_le _ _)) by lia. eauto. }
  exists q'. split; [done|].
  destruct (window_flush_slide _ _ _ He Hq') as [Hw Hsh].
  unfold q_flush in Hq'. case_match; [|done]. injection Hq' as <-. simpl in *.
  unfold queue_inv. simpl. split_and!; try done.
  - by rewrite Hs, fmap_app.
  - intros v [Hv|Hv]%elem_of_app.
    + destruct (Hle v Hv) as (n & Hn & Hh). exists n. split; [lia|done].
    + exists d'. split; [lia|]. by apply Hlv.
  - rewrite length_app. lia.
Qed.

Lemma bfs_loop_spec fuel st k d S W :
  bfs_inv (distances st) d -> distance st = Z.of_nat (Datatypes.S d) ->
  queue_inv (queue st) d S W -> length (front st) = N -> length (curr st) = N ->
  (forall v, bit (front st) v = true -> exists n, (n <= d)%nat /\ hop v n) ->
  (d <= N)%nat -> (N < fuel + d)%nat ->
  exists dist k', bfs_loop steps num_vertices alpha beta (N + 1) st k fuel = Val (dist, k') /\
    (0 < k')%nat /\ (is_timeout (k' - 1) = true \/ bfs_result dist).
Proof.
  revert st k d S W.
  induction fuel as [|fuel IH]; intros st k d S W HI Hdist Hq Hlf Hlc Hfront Hd Hfuel; [lia|].
  cbn [bfs_loop]. destruct (is_timeout k) eqn:Ht.
  { eexists _, _. split; [done|]. split; [lia|]. left. by rewrite Nat.sub_1_r. }
  destruct Hq as (Hsz & Hs & HS & HSle & Hend & Hse & Hwin & HW).
  destruct (q_empty (queue st)) eqn:Hempty.
  { eexists _, _. split; [done|]. split; [lia|]. right. apply (bfs_inv_final _ d HI).
    intros v Hv%HW. apply Nat.eqb_eq in Hempty. unfold window in Hwin.
    rewrite Hempty, Nat.sub_diag in Hwin. destruct W; [by apply elem_of_nil in Hv|done]. }
  apply Nat.eqb_neq in Hempty.
  assert (length W = q_size (queue st)) as HlW.
  { rewrite <- (length_fmap enc), <- Hwin. unfold window, q_size.
    rewrite length_take, length_drop. lia. }
  assert (exists v, v ∈ W) as [w Hw].
  { unfold q_size in HlW. destruct W as [|w W]; [simpl in HlW; lia|]. exists w. left. }
  apply HW in Hw as Hhw. pose proof (hop_lt _ _ Hhw) as HdN.
  assert (forall v, v ∈ W -> (v < N)%nat) as HWN.
  { intros v Hv%HW. apply hop_dist_reachable in Hv as [m Hm]. by eapply walk_range. }
  destruct (scout_count st >? Z.quot (edges_to_check st) alpha).
  - destruct (q2b_law _ _ _ _ Hlaws (queue st) (front st) W) as (f1 & -> & Hlf1 & Hf1); try done.
    bind_val. rewrite Hdist.
    destruct (bu_loop_spec (N + 1) (distances st) d f1 (curr st)
      (Z.of_nat (q_size (queue st)))) as (dist' & d' & f2 & c2 & -> & HI' & Hd' & Hlf2 & Hlc2 & Hf2);
      try done.
    + intros v Hv. apply Hf1. right. by apply HW.
    + intros v [Hv|Hv]%Hf1; [auto|]. exists d. split; [done|]. by apply HW.
    + by exists w.
    + unfold q_size. lia.
    + lia.
    + bind_val.
      destruct (b2q_law _ _ _ _ Hlaws (slide_window (queue st)) f2 Hlf2) as (l & Hl & Hlv & ->).
      destruct (queue_flush (slide_window (queue st)) S l d d') as (q' & -> & Hq'); try done.
      { lia. } { intros v. by rewrite Hlv, Hf2. }
      do 2 bind_val. apply (IH _ _ d' (S ++ l) l); cbn [distances distance queue front curr]; try done; try lia.
      intros v Hv%Hf2. exists d'. split; [done|done].
  - destruct (td_law _ _ _ _ Hlaws (distances st) (distance st) (queue st) W)
      as (dist' & l & scout & Hvis & Hl & Hlv & ->); try done; [apply HI|lia|].
    rewrite Hdist in *.
    destruct (bfs_inv_step (distances st) dist' d (fun p => p ∈ W) HI) as [HI' Hfresh]; [| |done|].
    { intros v. apply HW. } { intros v Hv%HW. eauto. }
    destruct (queue_flush (queue st) S l d (Datatypes.S d)) as (q' & -> & Hq'); try done.
    { lia. } { intros v. by rewrite Hlv, Hfresh. }
    do 2 bind_val.
    apply (IH _ _ (Datatypes.S d) (S ++ l) l); cbn [distances distance queue front curr]; try done; try lia.
    + rewrite i64_id by lia. lia.
    + intros v Hv. destruct (Hfront v Hv) as (n & Hn & Hh). exists n. split; [lia|done].
Qed.
End bfs.

(** ** Discharging the laws

    The steps of every driver loop over vertices; what they share is proved
    once for a body [f] that does the right thing on each vertex. *)

Lemma NoDup_submseteq_le {A} (l k : list A) : NoDup l -> k ⊆+ l -> NoDup k.
Proof.
  intros Hl [r Hr]%submseteq_Permutation. rewrite Hr in Hl. by apply NoDup_app in Hl as [? _].
Qed.

Section steps.
Context `{Omp} (N : nat) (enc : nat -> nat) `{!Inj (=) (=) enc}.
Context (HN : Z.of_nat N < 2 ^ 62).

Lemma bu_fold_law tag (found : nat -> bool) dist d f :
  length dist = N ->
  (forall dist next c u x, length dist = N -> length next = N -> dist !! u = Some x ->
     f (dist, next, c) (enc u) =
     Val (if (x <? 0) && found u then (<[u := d]> dist, <[u := true]> next, i64 (c + 1))
          else (dist, next, c))) ->
  exists dist' next' awake,
    res_fold f (dist, replicate N false, 0) (omp_order tag (enc <$> seq 0 N)) =
      Val (dist', next', awake) /\
    visit dist dist' d (fun v => found v = true) /\ length next' = N /\ 0 <= awake /\
    (forall v, bit next' v = true <-> fresh dist (fun v => found v = true) v) /\
    (0 < awake -> exists v, bit next' v = true).
Proof.
  intros Hl Hf.
  destruct (omp_fold_inv tag (fun done '(dist', next', c) =>
      length dist' = N /\ length next' = N /\ 0 <= c <= Z.of_nat (length done) /\
      (0 < c -> exists v, bit next' v = true) /\
      forall v x, dist !! v = Some x ->
        (enc v ∈ done -> dist' !! v = Some (if (x <? 0) && found v then d else x) /\
           bit next' v = (x <? 0) && found v) /\
        (enc v ∉ done -> dist' !! v = Some x /\ bit next' v = false))
    f (enc <$> seq 0 N) (dist, replicate N false, 0)) as ([[dist' next'] c] & -> & H1 & H2 & H3 & H4 & H5).
  - split_and!; [done|by rewrite length_replicate|lia|simpl; lia|lia|].
    intros v x Hx. split; [intros Hin; by apply elem_of_nil in Hin|].
    intros _. split; [done|apply bit_replicate].
  - intros done w [[dist1 next1] c] Hw Hsub (H1 & H2 & H3 & H4 & H5).
    apply list_elem_of_fmap in Hw as (u & -> & Hu). apply elem_of_seq in Hu.
    destruct (lookup_lt_is_Some_2 dist u) as [x Hx]; [lia|].
    assert (enc u ∉ done /\ (length (done ++ [enc u]) <= N)%nat) as [Hnew Hlen].
    { pose proof (submseteq_length _ _ Hsub) as Hlen. rewrite length_fmap, length_seq in Hlen.
      split; [|done].
      assert (NoDup (done ++ [enc u])) as Hnd.
      { apply (NoDup_submseteq_le (enc <$> seq 0 N)); [apply (NoDup_fmap_2 enc), NoDup_seq|done]. }
      apply NoDup_app in Hnd as (_ & Hd & _). intros Hin. apply (Hd _ Hin). left. }
    destruct (H5 u x Hx) as [_ H5u]. destruct (H5u Hnew) as [Hx1 Hb1].
    rewrite (Hf dist1 next1 c u x) by done. eexists. split; [done|].
    rewrite length_app in Hlen. simpl in Hlen.
    destruct ((x <? 0) && found u) eqn:Hc.
    + rewrite !length_insert, length_app. simpl. rewrite i64_id by lia. split_and!; try done; [lia|lia| |].
      * intros _. exists u. rewrite bit_insert by lia. by rewrite decide_True.
      * intros v y Hy. rewrite not_elem_of_app, elem_of_app, !list_elem_of_singleton.
        rewrite bit_insert by lia. destruct (decide (u = v)) as [<-|Hne].
        { simplify_eq. rewrite list_lookup_insert_eq by lia. rewrite Hc. split; [done|tauto]. }
        rewrite list_lookup_insert_ne by done. destruct (H5 v y Hy) as [Ha Hb].
        split; [intros [?|Heq]; [auto|]; apply (inj enc) in Heq; congruence|tauto].
    + rewrite length_app. split_and!; try done; try lia. intros v y Hy.
      rewrite not_elem_of_app, elem_of_app, !list_elem_of_singleton.
      destruct (H5 v y Hy) as [Ha Hb]. split; [|tauto].
      intros [?|Heq]; [auto|]. apply (inj enc) in Heq. simplify_eq. by rewrite Hc.
  - intros l' [[dist1 next1] c] Hp (H1 & H2 & H3 & H4 & H5).
    rewrite (Permutation_length Hp) in H3. split_and!; try done; try lia.
    intros v x Hx. destruct (H5 v x Hx). rewrite <- Hp. by split.
  - exists dist', next', c. split; [done|].
    assert (forall v x, dist !! v = Some x -> enc v ∈ enc <$> seq 0 N) as Hin.
    { intros v x Hx. apply list_elem_of_fmap_2, elem_of_seq. apply lookup_lt_Some in Hx. lia. }
    split_and!; try done; try lia.
    + split; [lia|]. intros v x Hx. destruct (H5 v x Hx) as [Ha _].
      destruct (Ha (Hin v x Hx)) as [Hd _]. eexists. split; [exact Hd|].
      destruct (Z.ltb_spec x 0); destruct (found v) eqn:Hfv; simpl; naive_solver lia.
    + intros v. split.
      * intros Hb. destruct (lookup_lt_is_Some_2 dist v) as [x Hx].
        { assert (v < length next')%nat; [|lia]. unfold bit in Hb.
          destruct (next' !! v) eqn:E; [by eapply lookup_lt_Some|done]. }
        destruct (H5 v x Hx) as [Ha _]. destruct (Ha (Hin v x Hx)) as [_ Hb'].
        rewrite Hb in Hb'. symmetry in Hb'. apply andb_true_iff in Hb' as [Hneg Hfv].
        apply Z.ltb_lt in Hneg. split; [eauto|done].
      * intros [(x & Hx & Hneg) Hfv]. destruct (H5 v x Hx) as [Ha _].
        destruct (Ha (Hin v x Hx)) as [_ ->]. rewrite Hfv. by apply Z.ltb_lt in Hneg as ->.
Qed.

(** Claiming the unvisited ones among a list of neighbours; the queue gets
    their encodings. *)
Definition td_claim (d : Z) (st : list Z * list nat * Z) (v : nat) : list Z * list nat * Z :=
  let '(dist, l, scout) := st in
  match dist !! v with
  | Some x =>
    if x <? 0 then (<[v := d]> dist, l ++ [enc v], i64 (scout + i64 (- x))) else st
  | None => st
  end.

Lemma td_fold_law tag (out : nat -> list nat) dist d f W :
  length dist = N -> 0 <= d -> (forall u v, u ∈ W -> v ∈ out u -> (v < N)%nat) ->
  (forall st u, length st.1.1 = N -> u ∈ W ->
     f st (enc u) = Val (foldl (td_claim d) st (out u))) ->
  exists dist' l scout,
    res_fold f (dist, [], 0) (omp_order tag (enc <$> W)) = Val (dist', enc <$> l, scout) /\
    visit dist dist' d (fun v => exists p, p ∈ W /\ v ∈ out p) /\ NoDup l /\
    (forall v, v ∈ l <-> fresh dist (fun v => exists p, p ∈ W /\ v ∈ out p) v).
Proof.
  intros Hl Hd Hrange Hf.
  (* the invariant, for a set of targets that have been seen *)
  set (inv := fun (seen : nat -> Prop) '((dist', el, scout) : list Z * list nat * Z) =>
    length dist' = N /\ exists l, el = enc <$> l /\ NoDup l /\ (forall v, v ∈ l <-> fresh dist seen v) /\
    forall v x, dist !! v = Some x -> exists y, dist' !! v = Some y /\
      ((x < 0 /\ seen v /\ y = d) \/ (~ (x < 0 /\ seen v) /\ y = x))).
  assert (forall (seen seen' : nat -> Prop) st, (forall v, seen v <-> seen' v) -> inv seen st -> inv seen' st)
    as Hext.
  { intros seen seen' [[dist1 el] sc] Hs (H1 & l & H2 & H3 & H4 & H5). split; [done|].
    exists l. split_and!; try done.
    - intros v. rewrite H4. unfold fresh. by rewrite Hs.
    - intros v x Hx. destruct (H5 v x Hx) as (y & Hy & Hcase). exists y. split; [done|].
      rewrite <- Hs. done. }
  assert (forall seen st v, inv seen st -> (v < N)%nat ->
    inv (fun w => seen w \/ w = v) (td_claim d st v)) as Hclaim.
  { intros seen [[dist1 el] sc] v (H1 & l & -> & H3 & H4 & H5) Hv. unfold td_claim.
    destruct (lookup_lt_is_Some_2 dist v) as [x Hx]; [lia|].
    destruct (H5 v x Hx) as (y & Hy & Hcase). rewrite Hy.
    destruct (Z.ltb_spec y 0) as [Hneg|Hpos].
    - destruct Hcase as [(_ & _ & ->)|(Hno & ->)]; [lia|].
      assert (~ seen v) as Hns by tauto.
      split; [by rewrite length_insert|]. exists (l ++ [v]). split_and!.
      + by rewrite fmap_app.
      + apply NoDup_app. split_and!; [done| |apply NoDup_singleton].
        intros w Hw ->%list_elem_of_singleton. apply H4 in Hw as [_ ?]. done.
      + intros w. rewrite elem_of_app, H4, list_elem_of_singleton. unfold fresh. split.
        * intros [[? ?]| ->]; [auto|]. split; [eauto|auto].
        * intros [? [?| ->]]; [auto|by right].
      + intros w z Hz. destruct (decide (v = w)) as [<-|Hne].
        * simplify_eq. exists d. rewrite list_lookup_insert_eq by lia. split; [done|]. left. auto.
        * rewrite list_lookup_insert_ne by done. destruct (H5 w z Hz) as (y & Hy' & Hc).
          exists y. split; [done|]. destruct Hc as [(?&?&?)|(?&?)]; [left; auto|right].
          split; [|done]. intros [? [?|?]]; [tauto|congruence].
    - split; [done|]. exists l. split_and!; try done.
      + intros w. rewrite H4. unfold fresh. split; [intros [? ?]; auto|].
        intros [Hfr [?| ->]]; [done|]. destruct Hfr as (x' & Hx' & Hneg'). simplify_eq.
        destruct Hcase as [(_ & ? & _)|(_ & ->)]; [|lia]. split; [eauto|done].
      + intros w z Hz. destruct (H5 w z Hz) as (y' & Hy' & Hc). exists y'. split; [done|].
        destruct Hc as [(?&?&?)|(Hno&?)]; [left; auto|]. right. split; [|done].
        intros [? [?| ->]]; [tauto|]. simplify_eq.
        destruct Hcase as [(? & ? & _)|(_ & ?)]; [tauto|lia]. }
  assert (forall vs seen st, inv seen st -> (forall v, v ∈ vs -> (v < N)%nat) ->
    inv (fun w => seen w \/ w ∈ vs) (foldl (td_claim d) st vs)) as Hclaims.
  { intros vs. induction vs as [|v vs IH]; intros seen st Hi Hvs; simpl.
    - eapply Hext; [|exact Hi]. intros w. rewrite elem_of_nil. tauto.
    - eapply Hext; [|apply (IH (fun w => seen w \/ w = v)); [apply Hclaim; [done|apply Hvs; left]|]].
      + intros w. rewrite elem_of_cons. tauto.
      + intros w Hw. apply Hvs. by right. }
  destruct (omp_fold_inv tag
    (fun done st => inv (fun v => exists p, enc p ∈ done /\ v ∈ out p) st)
    f (enc <$> W) (dist, [], 0)) as ([[dist' el] scout] & -> & Hi).
  - split; [done|]. exists []. split_and!; [done|constructor| |].
    + intros v. split; [intros Hin; by apply elem_of_nil in Hin|].
      intros [_ (p & Hp & _)]. by apply elem_of_nil in Hp.
    + intros v x Hx. exists x. split; [done|]. right. split; [|done].
      intros [_ (p & Hp & _)]. by apply elem_of_nil in Hp.
  - intros done w st Hw _ Hi. apply list_elem_of_fmap in Hw as (u & -> & Hu).
    rewrite Hf; [|by destruct st as [[? ?] ?], Hi|done]. eexists. split; [done|].
    eapply Hext; [|apply Hclaims; [exact Hi|intros v; by apply Hrange]].
    intros v. split.
    + intros [(p & Hp & Hv)|Hv]; [exists p|exists u]; (split; [|done]); set_solver.
    + intros (p & [Hp|Hp%list_elem_of_singleton]%elem_of_app & Hv); [left; eauto|].
      apply (inj enc) in Hp as ->. by right.
  - intros l' st Hp Hi. eapply Hext; [|exact Hi]. intros v. by setoid_rewrite Hp.
  - assert (forall v, (exists p, enc p ∈ enc <$> W /\ v ∈ out p) <-> exists p, p ∈ W /\ v ∈ out p) as HWW
      by (intros v; by setoid_rewrite (list_elem_of_fmap_inj enc)).
    apply (Hext _ _ _ HWW) in Hi. destruct Hi as (Hl' & l & -> & Hnd & Hin & Hv).
    exists dist', l, scout. split_and!; try done. split; [lia|done].
Qed.

Lemma q2b_fold_law tag f b W :
  length b = N -> (forall v, v ∈ W -> (v < N)%nat) ->
  (forall b v, length b = N -> (v < N)%nat -> f b (enc v) = Val (<[v := true]> b)) ->
  exists b', res_fold f b (omp_order tag (enc <$> W)) = Val b' /\ length b' = N /\
    forall v, bit b' v = true <-> bit b v = true \/ v ∈ W.
Proof.
  intros Hb HW Hf.
  destruct (omp_fold_inv tag (fun done b' => length b' = N /\
      forall v, bit b' v = true <-> bit b v = true \/ enc v ∈ done) f (enc <$> W) b)
    as (b' & Hb' & Hl & Hv).
  - split; [done|]. intros v. rewrite elem_of_nil. tauto.
  - intros done w b1 Hw _ [Hl Hv]. apply list_elem_of_fmap in Hw as (u & -> & Hu).
    rewrite Hf by auto. eexists. split; [done|]. rewrite length_insert. split; [done|].
    intros v. rewrite bit_insert by (rewrite Hl; auto). rewrite elem_of_app, list_elem_of_singleton.
    case_decide as Heq; [subst; tauto|]. rewrite Hv. split; [tauto|].
    intros [?|[?|He]]; [tauto..|]. apply (inj enc) in He. congruence.
  - intros l' b1 Hp [? Hv]. split; [done|]. intros v. by rewrite Hv, Hp.
  - exists b'. split_and!; try done. intros v. rewrite Hv.
    by rewrite (list_elem_of_fmap_inj _).
Qed.

Lemma b2q_fold_law tag f b :
  length b = N ->
  (forall acc v, (v < N)%nat -> f acc (enc v) = Val (if bit b v then acc ++ [enc v] else acc)) ->
  exists l, res_fold f [] (omp_order tag (enc <$> seq 0 N)) = Val (enc <$> l) /\
    NoDup l /\ forall v, v ∈ l <-> bit b v = true.
Proof.
  intros Hb Hf.
  assert (exists l, omp_order tag (enc <$> seq 0 N) = enc <$> l /\ l ≡ₚ seq 0 N) as (s & Hs & Hp).
  { pose proof (omp_perm tag _ (enc <$> seq 0 N)) as Hp.
    apply Permutation_map_inv in Hp as (l & -> & Hp). exists l. by symmetry in Hp. }
  rewrite Hs. exists (filter (fun v => bit b v = true) s). split_and!.
  - assert (forall t acc, (forall v, v ∈ t -> (v < N)%nat) ->
      res_fold f acc (enc <$> t) = Val (acc ++ (enc <$> filter (fun v => bit b v = true) t))) as Hg.
    { intros t. induction t as [|v t IH]; intros acc Ht; simpl; [by rewrite app_nil_r|].
      rewrite Hf by (apply Ht; left). bind_val. rewrite IH by (intros w Hw; apply Ht; by right).
      rewrite filter_cons. destruct (bit b v); simpl.
      - by rewrite <- app_assoc.
      - done. }
    rewrite Hg; [done|]. intros v. rewrite Hp, elem_of_seq. lia.
  - apply NoDup_filter. rewrite Hp. apply NoDup_seq.
  - intros v. rewrite list_elem_of_filter, Hp, elem_of_seq. split; [tauto|].
    intros Hbv. split; [done|]. unfold bit in Hbv. destruct (b !! v) eqn:E; [|done].
    apply lookup_lt_Some in E. lia.
Qed.
End steps.
