(* ===== verification/Csr.v ===== *)
(** [library/baseline/csr]: the compressed sparse row representation, its
    loading from an edge stream and its accessors. The kernels are in the
    files [CsrBfs], [CsrWcc], [CsrKernels] and [CsrLcc].

    Logical vertices, positions and degrees are [nat]: they index arrays that
    are in memory, so they are far from the width of [uint64_t]. External
    vertices are [Z]. *)

From S2P Require Import Prelude Graphs CByteArray Edge.
From S2P Require EdgeStream.

(** ** State *)

Record CSR := mkCSR {
  m_is_directed : bool;
  m_num_vertices : nat;
  m_num_edges : nat;
  m_ext2log : gmap Z nat;
  m_log2ext : list Z;
  m_loaded : bool; (* m_out_v != nullptr *)
  m_out_v : list nat;
  m_out_e : list nat;
  m_out_w : list double;
  m_in_v : list nat;
  m_in_e : list nat;
  m_in_w : list double;
  m_timeout : Z;
}.

(** The constructor; [numa_available] and the NUMA allocation are part of the
    environment and always succeed here. *)
Definition CSR_new (is_directed : bool) : CSR :=
  mkCSR is_directed 0 0 ∅ [] false [] [] [] [] [] [] 0.

Definition num_edges (g : CSR) : nat := m_num_edges g.
Definition num_vertices (g : CSR) : nat := m_num_vertices g.
Definition is_directed (g : CSR) : bool := m_is_directed g.

Definition has_vertex (g : CSR) (vertex_id : Z) : bool :=
  match m_ext2log g !! vertex_id with Some _ => true | None => false end.

Definition set_timeout (g : CSR) (seconds : Z) : CSR :=
  mkCSR (m_is_directed g) (m_num_vertices g) (m_num_edges g) (m_ext2log g) (m_log2ext g)
    (m_loaded g) (m_out_v g) (m_out_e g) (m_out_w g) (m_in_v g) (m_in_e g) (m_in_w g) seconds.

(** ** Accessors *)

(** The interval of a vertex in the edge array. *)
Definition get_interval_impl (g : CSR) (vertex_array : list nat) (v : nat) : res (nat * nat) :=
  if (v <? m_num_vertices g)%nat then
    if (v =? 0)%nat then
      e ← arr_get vertex_array 0; Val (0%nat, e)
    else
      s ← arr_get vertex_array (v - 1)%nat;
      e ← arr_get vertex_array v;
      Val (s, e)
  else Undef.

Definition get_out_interval (g : CSR) (v : nat) : res (nat * nat) :=
  get_interval_impl g (m_out_v g) v.

Definition get_in_interval (g : CSR) (v : nat) : res (nat * nat) :=
  get_interval_impl g (m_in_v g) v.

Definition get_out_degree (g : CSR) (v : nat) : res nat :=
  '(s, e) ← get_out_interval g v; Val (e - s)%nat.

Definition get_in_degree (g : CSR) (v : nat) : res nat :=
  '(s, e) ← get_in_interval g v; Val (e - s)%nat.

(** The loop of [get_weight] over [n] positions from [i]. *)
Fixpoint scan_weight (g : CSR) (dst i n : nat) : res double :=
  match n with
  | O => Val d_nan
  | S n =>
    e ← arr_get (m_out_e g) i;
    if (e <=? dst)%nat then
      if (e =? dst)%nat then arr_get (m_out_w g) i
      else scan_weight g dst (S i) n
    else Val d_nan
  end.

Definition get_weight (g : CSR) (source destination : Z) : res double :=
  match m_ext2log g !! source, m_ext2log g !! destination with
  | Some logical_source_id, Some logical_destination_id =>
    '(s, e) ← get_out_interval g logical_source_id;
    scan_weight g logical_destination_id s (e - s)
  | _, _ => Val d_nan
  end.

(** ** Loading *)

(** [for(i = 1; i < n; i++) v[i] += v[i-1]] *)
Definition prefix_sum (v : list nat) (n : nat) : res (list nat) :=
  res_fold
    (fun v i =>
       x ← arr_get v i;
       y ← arr_get v (i - 1)%nat;
       arr_set v i (x + y)%nat)
    v (seq 1 (n - 1)).

(** The mapping of the vertices: the loop over the sorted vertex list. *)
Definition map_vertices (vertices : EdgeStream.VertexList) (n : nat) :
    res (gmap Z nat * list Z) :=
  res_fold
    (fun '(ext2log, log2ext) i =>
       vertex_id ← EdgeStream.vl_get vertices i;
       log2ext ← arr_set log2ext i vertex_id;
       Val (<[vertex_id := i]> ext2log, log2ext))
    (∅, replicate n 0) (seq 0 n).

(** One of the two loops over the edges of [load_directed]: [key] is the end
    point that owns the edge (the source for the outgoing edges, the
    destination for the incoming ones), [other] the opposite one. *)
Record LoadState := mkLoadState {
  external_id : Z;
  logical_id : nat;
  vtx : list nat;
  edg : list nat;
  wgt : list double;
}.

Definition load_edge (ext2log : gmap Z nat) (key other : WeightedEdge -> Z)
    (stream : EdgeStream.WeightedEdgeStream) (st : LoadState) (i : nat) : res LoadState :=
  edge ← EdgeStream.get stream i;
  st ← (if key edge =? external_id st then Val st
        else
          l ← require (ext2log !! key edge);
          Val (mkLoadState (key edge) l (vtx st) (edg st) (wgt st)));
  count ← arr_get (vtx st) (logical_id st);
  v ← arr_set (vtx st) (logical_id st) (count + 1)%nat;
  o ← require (ext2log !! other edge);
  e ← arr_set (edg st) i o;
  w ← arr_set (wgt st) i (m_weight edge);
  Val (mkLoadState (external_id st) (logical_id st) v e w).

Definition load_edges (ext2log : gmap Z nat) (key other : WeightedEdge -> Z)
    (stream : EdgeStream.WeightedEdgeStream) (num_vertices num_edges : nat) :
    res (list nat * list nat * list double) :=
  st ← res_fold (load_edge ext2log key other stream)
    (mkLoadState uint64_max 0 (replicate num_vertices 0%nat) (replicate num_edges 0%nat)
       (replicate num_edges d_zero))
    (seq 0 num_edges);
  v ← prefix_sum (vtx st) num_vertices;
  Val (v, edg st, wgt st).

Section load.
Context `{EdgeStream.CommonLib, EdgeStream.Machine, HashOrder}.

Definition load_directed (g : CSR) (stream : EdgeStream.WeightedEdgeStream) : res CSR :=
  let m := EdgeStream.num_edges stream in
  vertices ← EdgeStream.vertex_list stream;
  vertices ← EdgeStream.vl_sort vertices;
  let n := EdgeStream.vl_num_vertices vertices in
  '(ext2log, log2ext) ← map_vertices vertices n;
  (* the outgoing edges *)
  stream ← EdgeStream.sort_by_src_dst stream;
  '(out_v, out_e, out_w) ← load_edges ext2log wsource wdestination stream n m;
  (* the incoming edges *)
  stream ← EdgeStream.sort_by_dst_src stream;
  '(in_v, in_e, in_w) ← load_edges ext2log wdestination wsource stream n m;
  Val (mkCSR (m_is_directed g) n m ext2log log2ext true out_v out_e out_w in_v in_e in_w
         (m_timeout g)).

(** The three loops that merge the outgoing and incoming edges of a vertex,
    with the position [k] in the arrays to fill. *)
Fixpoint merge_edges (g : CSR) (out out_end inn in_end k : nat)
    (e_und : list nat) (w_und : list double) (fuel : nat) :
    res (nat * list nat * list double) :=
  match fuel with
  | O => NoFuel
  | S fuel =>
    let take_out :=
      e ← arr_get (m_out_e g) out; w ← arr_get (m_out_w g) out;
      e_und ← arr_set e_und k e; w_und ← arr_set w_und k w;
      merge_edges g (out + 1) out_end inn in_end (k + 1) e_und w_und fuel in
    let take_in :=
      e ← arr_get (m_in_e g) inn; w ← arr_get (m_in_w g) inn;
      e_und ← arr_set e_und k e; w_und ← arr_set w_und k w;
      merge_edges g out out_end (inn + 1) in_end (k + 1) e_und w_und fuel in
    if ((out <? out_end) && (inn <? in_end))%nat then
      eo ← arr_get (m_out_e g) out;
      ei ← arr_get (m_in_e g) inn;
      if (eo =? ei)%nat then Undef (* "We don't expect the same edge in both directions" *)
      else if (eo <? ei)%nat then take_out else take_in
    else if (out <? out_end)%nat then take_out
    else if (inn <? in_end)%nat then take_in
    else Val (k, e_und, w_und)
  end.

(** The body of the loop over the vertices. *)
Definition merge_vertex (g : CSR) (st : nat * list nat * list nat * list double) (v : nat) :
    res (nat * list nat * list nat * list double) :=
  let '(k, v_und, e_und, w_und) := st in
  '(out, out_end) ← get_out_interval g v;
  '(inn, in_end) ← get_in_interval g v;
  let degree_out := (out_end - out)%nat in
  let degree_in := (in_end - inn)%nat in
  v_und ← arr_set v_und v (degree_out + degree_in)%nat;
  '(k, e_und, w_und) ← merge_edges g out out_end inn in_end k e_und w_und
    (degree_out + degree_in + 1);
  Val (k, v_und, e_und, w_und).

Definition load_undirected (g : CSR) (stream : EdgeStream.WeightedEdgeStream) : res CSR :=
  g ← load_directed g stream;
  '(_, v_und, e_und, w_und) ← res_fold
    (merge_vertex g)
    (0%nat, replicate (m_num_vertices g) 0%nat, replicate (m_num_edges g * 2) 0%nat,
     replicate (m_num_edges g * 2) d_zero)
    (seq 0 (m_num_vertices g));
  v_und ← prefix_sum v_und (m_num_vertices g);
  Val (mkCSR (m_is_directed g) (m_num_vertices g) (m_num_edges g) (m_ext2log g) (m_log2ext g)
         true v_und e_und w_und v_und e_und w_und (m_timeout g)).

Definition load (g : CSR) (stream : EdgeStream.WeightedEdgeStream) : res CSR :=
  if m_loaded g then Exn RuntimeError
  else if m_is_directed g then load_directed g stream
  else load_undirected g stream.
End load.

(** ** Results *)

(** [translate]: pair the value of every logical vertex with its external id. *)
Definition translate {T} (g : CSR) (values : list T) (N : nat) : res (list (Z * T)) :=
  res_fold
    (fun result v =>
       ext ← arr_get (m_log2ext g) v;
       x ← arr_get values v;
       Val (result ++ [(ext, x)]))
    [] (seq 0 N).

(** The lines that [save_results] writes; [max] is the value that stands for a
    negative score when these are not allowed. *)
Definition save_results {T} (negative : T -> bool) (max : T) (negative_scores : bool)
    (result : list (Z * T)) : list (Z * T) :=
  (fun p => if negb negative_scores && negative p.2 then (p.1, max) else p) <$> result.

(** ** Flat adjacency lists

    [flat va ea wa adj]: the vertex array [va] holds the running sums of the
    degrees of [adj], and [ea], [wa] its edges and weights, one vertex after
    the other. *)

Definition off {A} (adj : list (list A)) (k : nat) : nat := sum_list_with length (take k adj).

Record flat (va ea : list nat) (wa : list double) (adj : list (list (nat * double))) : Prop := {
  flat_length : length va = length adj;
  flat_va : forall v, (v < length adj)%nat -> va !! v = Some (off adj (S v));
  flat_ea : ea = (concat adj).*1;
  flat_wa : wa = (concat adj).*2;
}.

Lemma off_S {A} (adj : list (list A)) v l :
  adj !! v = Some l -> off adj (S v) = (off adj v + length l)%nat.
Proof. intros H. unfold off. rewrite (take_S_r _ _ _ H), sum_list_with_app. simpl. lia. Qed.

Lemma off_concat {A} (adj : list (list A)) k : length (concat (take k adj)) = off adj k.
Proof. unfold off. generalize (take k adj). induction l; simpl; [done|]. rewrite length_app. lia. Qed.

Lemma off_all {A} (adj : list (list A)) : off adj (length adj) = length (concat adj).
Proof. by rewrite <- off_concat, firstn_all. Qed.

Lemma concat_split {A} (adj : list (list A)) v l :
  adj !! v = Some l -> concat adj = concat (take v adj) ++ l ++ concat (drop (S v) adj).
Proof.
  intros H. rewrite <- (take_drop_middle adj v l H) at 1. by rewrite concat_app.
Qed.

Lemma off_le {A} (adj : list (list A)) j k : (j <= k)%nat -> (off adj j <= off adj k)%nat.
Proof.
  intros H. rewrite <- !off_concat. replace k with (j + (k - j))%nat by lia.
  rewrite <- (take_drop j adj) at 2.
  destruct (decide (j <= length adj)%nat).
  - rewrite take_app_add', concat_app, length_app by (rewrite length_take; lia). lia.
  - rewrite (take_ge adj j), (take_ge (adj ++ drop j adj)) by
      (rewrite ?length_app, ?length_drop; lia).
    rewrite concat_app, length_app. lia.
Qed.

(** The interval of a vertex. *)
Lemma get_interval_flat g va ea wa adj v l :
  flat va ea wa adj -> length adj = m_num_vertices g -> adj !! v = Some l ->
  get_interval_impl g va v = Val (off adj v, (off adj v + length l)%nat).
Proof.
  intros [Hl Hv _ _] Hn Hlv. pose proof (lookup_lt_Some _ _ _ Hlv) as Hlt.
  unfold get_interval_impl. rewrite (proj2 (Nat.ltb_lt _ _)) by lia.
  destruct (Nat.eqb_spec v 0) as [->|Hne].
  - rewrite (arr_get_val _ _ _ (Hv 0%nat Hlt)). simpl. by rewrite (off_S _ _ _ Hlv).
  - rewrite (arr_get_val _ (v - 1) (off adj v)).
    2: { rewrite Hv by lia. do 2 f_equal. lia. }
    simpl. rewrite (arr_get_val _ _ _ (Hv v Hlt)). simpl. by rewrite (off_S _ _ _ Hlv).
Qed.

(** Reading the edges of an interval is iterating over the list of the vertex. *)
Lemma edges_lookup va ea wa adj v l i p :
  flat va ea wa adj -> adj !! v = Some l -> l !! i = Some p ->
  ea !! (off adj v + i)%nat = Some p.1 /\ wa !! (off adj v + i)%nat = Some p.2.
Proof.
  intros [_ _ -> ->] Hv Hi.
  assert (concat adj !! (off adj v + i)%nat = Some p) as Hc.
  { rewrite (concat_split _ _ _ Hv), lookup_app_r by (rewrite off_concat; lia).
    rewrite off_concat, lookup_app_l by (apply lookup_lt_Some in Hi; lia).
    by replace (off adj v + i - off adj v)%nat with i by lia. }
  by rewrite !list_lookup_fmap, Hc.
Qed.

(** The list [l] is laid out in the arrays [ea], [wa] from position [s]. *)
Definition at_offset (ea : list nat) (wa : list double) (s : nat) (l : list (nat * double)) : Prop :=
  forall i p, l !! i = Some p -> ea !! (s + i)%nat = Some p.1 /\ wa !! (s + i)%nat = Some p.2.

Lemma at_offset_flat va ea wa adj v l :
  flat va ea wa adj -> adj !! v = Some l -> at_offset ea wa (off adj v) l.
Proof. intros Hf Hv i p. by eapply edges_lookup. Qed.

Lemma at_offset_cons ea wa s p l : at_offset ea wa s (p :: l) -> at_offset ea wa (S s) l.
Proof. intros H i q Hi. replace (S s + i)%nat with (s + S i)%nat by lia. by apply H. Qed.

Lemma edge_loop {B} (f : B -> nat -> res B) ea wa s l b :
  at_offset ea wa s l ->
  res_fold (fun b i => u ← arr_get ea i; f b u) b (seq s (length l)) = res_fold f b l.*1.
Proof.
  revert s b. induction l as [|p l IH]; intros s b H; simpl; [done|].
  destruct (H 0%nat p eq_refl) as [He _]. rewrite Nat.add_0_r in He.
  rewrite (arr_get_val _ _ _ He). simpl.
  destruct (f b p.1); simpl; try done. apply IH. by eapply at_offset_cons.
Qed.

(** ** The running sums *)

Lemma prefix_sum_spec (v : list nat) :
  prefix_sum v (length v) =
  Val ((fun i => sum_list (take (S i) v)) <$> seq 0 (length v)).
Proof.
  unfold prefix_sum.
  match goal with |- res_fold ?f _ _ = _ => set (F := f) end.
  set (sums := fun k => (fun i => sum_list (take (S i) v)) <$> seq 0 k).
  assert (forall k, (1 <= k <= length v)%nat ->
    res_fold F v (seq 1 (k - 1)) = Val (sums k ++ drop k v)) as Hk.
  { induction k as [|k IH]; [lia|]. intros Hk. destruct k as [|k].
    - simpl. destruct v as [|x v]; simpl in *; [lia|]. unfold sums. simpl.
      by rewrite Nat.add_0_r, drop_0.
    - replace (S (S k) - 1)%nat with (S (S k - 1)) by lia.
      rewrite seq_S, res_fold_app, IH by lia. replace (1 + (S k - 1))%nat with (S k) by lia.
      bind_val. cbn [res_fold]. unfold F at 1.
      destruct (lookup_lt_is_Some_2 v (S k)) as [x Hx]; [lia|].
      assert (length (sums (S k)) = S k) as Hls by (unfold sums; by rewrite length_fmap, length_seq).
      rewrite (arr_get_val _ (S k) x).
      2: { rewrite lookup_app_r, Hls, lookup_drop by lia. rewrite <- Hx. f_equal. lia. }
      bind_val. replace (S k - 1)%nat with k by lia.
      rewrite (arr_get_val _ k (sum_list (take (S k) v))).
      2: { rewrite lookup_app_l by lia. unfold sums.
           rewrite list_lookup_fmap, lookup_seq_lt by lia. done. }
      bind_val. rewrite arr_set_val by (rewrite length_app, Hls, length_drop; lia).
      bind_val. f_equal. rewrite insert_app_r_alt, Hls, Nat.sub_diag by lia.
      rewrite (drop_S _ _ _ Hx). cbn [insert list_insert].
      unfold sums. rewrite (seq_S (S k)), fmap_app, <- app_assoc. cbn [fmap list_fmap app].
      do 2 f_equal. rewrite Nat.add_0_l, (take_S_r _ _ _ Hx), sum_list_with_app.
      cbn. lia. }
  destruct v as [|x v]; [done|].
  rewrite Hk by (simpl; lia). by rewrite drop_ge, app_nil_r by lia.
Qed.

Lemma sum_list_fmap {A} (f : A -> nat) l : sum_list (f <$> l) = sum_list_with f l.
Proof. induction l as [|x l IH]; [done|]. cbn. by rewrite <- IH. Qed.

(** The running sums of the degrees make the arrays flat. *)
Lemma prefix_sum_flat (adj : list (list (nat * double))) :
  exists va, prefix_sum (length <$> adj) (length adj) = Val va /\
    flat va (concat adj).*1 (concat adj).*2 adj.
Proof.
  pose proof (prefix_sum_spec (length <$> adj)) as H. rewrite length_fmap in H.
  eexists. split; [exact H|]. split; try done.
  - by rewrite length_fmap, length_seq.
  - intros v Hv. rewrite list_lookup_fmap, lookup_seq_lt by done. simpl.
    by rewrite <- fmap_take, sum_list_fmap.
Qed.

(** ** The mapping of the vertices *)

(** [vs] lists the external vertices in increasing order, and [m] maps each to
    its position. *)
Definition mapping (m : gmap Z nat) (vs : list Z) : Prop :=
  NoDup vs /\ forall v i, m !! v = Some i <-> vs !! i = Some v.

Lemma map_vertices_spec l vs :
  holds (EdgeStream.m_vertices l) vs -> EdgeStream.vl_num_vertices l = length vs -> NoDup vs ->
  exists m, map_vertices l (length vs) = Val (m, vs) /\ mapping m vs.
Proof.
  intros Hh Hn Hnd. unfold map_vertices.
  match goal with |- context [res_fold ?f _ _] => set (F := f) end.
  destruct (res_fold_inv (fun done '(m, log2ext) =>
      log2ext = take (length done) vs ++ replicate (length vs - length done) 0 /\
      forall v i, m !! v = Some i <-> vs !! i = Some v /\ (i < length done)%nat)
    F (seq 0 (length vs)) (∅, replicate (length vs) 0)) as ([m l2e] & HF & Hl & Hm).
  - split; [by rewrite Nat.sub_0_r|]. intros v i. rewrite lookup_empty. simpl.
    split; [done|lia].
  - intros done i todo [m l2e] Hseq [-> Hm].
    apply EdgeStream.prefix_index in Hseq as (-> & Hi & _).
    destruct (lookup_lt_is_Some_2 vs (length done) Hi) as [v Hv].
    unfold F, EdgeStream.vl_get. rewrite Hn, (proj2 (Nat.leb_gt _ _)) by done.
    rewrite (holds_get _ _ _ _ Hh Hv). bind_val.
    assert (length (take (length done) vs) = length done) as Ht by (rewrite length_take; lia).
    rewrite arr_set_val by (rewrite length_app, Ht, length_replicate; lia). bind_val.
    eexists. split; [done|]. rewrite length_app, Nat.add_1_r. split.
    + rewrite insert_app_r_alt, Ht, Nat.sub_diag by lia.
      replace (length vs - length done)%nat with (S (length vs - S (length done))) by lia.
      rewrite (take_S_r _ _ _ Hv). simpl. by rewrite <- app_assoc.
    + intros w j. destruct (decide (v = w)) as [->|Hne].
      * rewrite lookup_insert_eq. split; [intros [= <-]; split; [done|lia]|].
        intros [Hj _]. f_equal. by eapply NoDup_lookup.
      * rewrite lookup_insert_ne, Hm by done. split; [intros [? ?]; split; [done|lia]|].
        intros [Hj Hlt]. split; [done|]. assert (j <> length done); [|lia].
        intros ->. congruence.
  - exists m. rewrite HF. rewrite length_seq, Nat.sub_diag, firstn_all, app_nil_r in Hl.
    rewrite Hl. split; [done|]. split; [done|]. intros v i. rewrite Hm, length_seq.
    split; [tauto|]. intros Hi. split; [done|]. by eapply lookup_lt_Some.
Qed.

(** ** The adjacency lists of a list of edges *)

Definition target (m : gmap Z nat) (v : Z) : nat := default 0%nat (m !! v).

Definition adj_of (m : gmap Z nat) (key other : WeightedEdge -> Z) (es : list WeightedEdge)
    (v : Z) : list (nat * double) :=
  (fun e => (target m (other e), m_weight e)) <$> filter (fun e => key e = v) es.

(** Edges sorted by their key are the groups of the vertices in order. *)
Lemma sorted_groups (key : WeightedEdge -> Z) (vs : list Z) (es : list WeightedEdge) :
  StronglySorted Z.lt vs -> StronglySorted (fun x y => key x <= key y) es ->
  (forall e, e ∈ es -> key e ∈ vs) ->
  concat ((fun v => filter (fun e => key e = v) es) <$> vs) = es.
Proof.
  intros Hvs. revert es. induction Hvs as [|v vs Hvs IH Hlt]; intros es Hes Hin.
  { destruct es as [|e es]; [done|]. specialize (Hin e ltac:(left)). set_solver. }
  assert (forall e, e ∈ es -> v <= key e) as Hge.
  { intros e He. apply Hin, elem_of_cons in He as [->|He]; [lia|].
    eapply Forall_forall in Hlt; [|exact He]. lia. }
  assert (es = filter (fun e => key e = v) es ++ filter (fun e => key e <> v) es) as Hsplit.
  { clear IH Hlt Hin. induction Hes as [|e es Hes IH Hall]; [done|].
    rewrite !filter_cons. destruct (decide (key e = v)) as [He|He].
    - rewrite decide_False by tauto. simpl. f_equal. apply IH. intros; apply Hge. by right.
    - rewrite decide_True by done.
      assert (filter (fun e => key e = v) es = []) as ->.
      { destruct (filter _ es) as [|x k] eqn:E; [done|]. exfalso.
        assert (x ∈ filter (fun e => key e = v) es) as Hx by (rewrite E; left).
        apply list_elem_of_filter in Hx as [Hx1 Hx2].
        eapply Forall_forall in Hall; [|exact Hx2]. specialize (Hge e ltac:(left)). lia. }
      simpl. f_equal. symmetry.
      clear -Hall Hge He. induction es as [|x es IH]; [done|]. rewrite filter_cons.
      apply Forall_cons in Hall as [Hx Hall]. specialize (Hge e ltac:(left)) as Hgee.
      rewrite decide_True by lia. f_equal. apply IH; [done|].
      intros y Hy. apply Hge. set_solver. }
  set (rest := filter (fun e => key e <> v) es) in *.
  assert ((fun w => filter (fun e => key e = w) es) <$> vs =
          (fun w => filter (fun e => key e = w) rest) <$> vs) as Hrest.
  { apply list_fmap_ext. intros i w Hw. apply list_elem_of_lookup_2 in Hw.
    eapply Forall_forall in Hlt; [|exact Hw].
    unfold rest. clear -Hlt. induction es as [|e es IH]; [done|].
    rewrite !filter_cons. destruct (decide (key e = w)) as [He|].
    - rewrite decide_True, filter_cons, decide_True by lia. f_equal. exact IH.
    - case_decide; [rewrite filter_cons, decide_False by done|]; exact IH. }
  rewrite fmap_cons, Hrest. cbn [concat]. rewrite IH; [by rewrite <- Hsplit| |].
  - unfold rest. clear -Hes. induction Hes as [|e es Hes IH Hall]; [constructor|].
    rewrite filter_cons. case_decide; [|done]. constructor; [done|].
    apply Forall_forall. intros x [_ Hx]%list_elem_of_filter.
    eapply Forall_forall in Hall; [|exact Hx]. done.
  - intros e [Hne He]%list_elem_of_filter. apply Hin, elem_of_cons in He. tauto.
Qed.

(** The degrees counted so far. *)
Lemma count_insert (key : WeightedEdge -> Z) vs es e i :
  NoDup vs -> vs !! i = Some (key e) ->
  (fun v => length (filter (fun e => key e = v) (es ++ [e]))) <$> vs =
  <[i := (length (filter (fun e' => key e' = key e) es) + 1)%nat]>
    ((fun v => length (filter (fun e => key e = v) es)) <$> vs).
Proof.
  intros Hnd Hi. apply list_eq. intros j. destruct (decide (i = j)) as [<-|Hne].
  - rewrite list_lookup_insert_eq by (rewrite length_fmap; by eapply lookup_lt_Some).
    rewrite list_lookup_fmap, Hi. simpl.
    by rewrite filter_app, length_app, filter_cons, decide_True by done.
  - rewrite list_lookup_insert_ne, !list_lookup_fmap by done.
    destruct (vs !! j) as [v|] eqn:Hj; [|done]. simpl.
    rewrite filter_app, length_app, filter_cons, decide_False, filter_nil; [simpl; f_equal; lia|].
    intros Heq. apply Hne. eapply NoDup_lookup; [done|exact Hi|by rewrite Hj, Heq].
Qed.

Lemma load_edges_spec m vs key other stream es :
  mapping m vs -> StronglySorted Z.lt vs -> EdgeStream.repr stream es ->
  (forall e, e ∈ es -> key e ∈ vs /\ other e ∈ vs /\ key e <> uint64_max) ->
  StronglySorted (fun x y => key x <= key y) es ->
  exists v e w, load_edges m key other stream (length vs) (length es) = Val (v, e, w) /\
    flat v e w (adj_of m key other es <$> vs) /\
    length (concat (adj_of m key other es <$> vs)) = length es.
Proof.
  intros [Hnd Hm] Hvs Hr Hin Hsort. unfold load_edges.
  match goal with |- context [res_fold _ ?a _] => set (st0 := a) end.
  set (tgt := fun e => target m (other e)).
  destruct (res_fold_inv (fun done st =>
      let es' := take (length done) es in
      ((external_id st = uint64_max) \/ m !! external_id st = Some (logical_id st)) /\
      vtx st = (fun v => length (filter (fun e => key e = v) es')) <$> vs /\
      edg st = (tgt <$> es') ++ replicate (length es - length done) 0%nat /\
      wgt st = (m_weight <$> es') ++ replicate (length es - length done) d_zero)
    (load_edge m key other stream) (seq 0 (length es)) st0) as (st & -> & _ & Hv & He & Hw).
  - split_and!; [by left| |by rewrite Nat.sub_0_r..]. simpl.
    clear. induction vs as [|v vs IH]; simpl; [done|]. by f_equal.
  - intros done i todo st Hseq (Hext & Hv & He & Hw).
    apply EdgeStream.prefix_index in Hseq as (-> & Hi & _).
    destruct (lookup_lt_is_Some_2 es (length done) Hi) as [e Hes].
    destruct (Hin e) as (Hk & Ho & Hmax); [by eapply list_elem_of_lookup_2|].
    apply list_elem_of_lookup in Hk as [kx Hkx]. apply list_elem_of_lookup in Ho as [ox Hox].
    apply Hm in Hox. pose proof (proj2 (Hm _ _) Hkx) as Hmk.
    unfold load_edge. rewrite (EdgeStream.get_repr _ _ _ _ Hr Hes). bind_val.
    assert (exists st', (if key e =? external_id st then Val st
        else l ← require (m !! key e); Val (mkLoadState (key e) l (vtx st) (edg st) (wgt st)))
        = Val st' /\ external_id st' = key e /\ logical_id st' = kx /\ vtx st' = vtx st /\
        edg st' = edg st /\ wgt st' = wgt st) as (st' & -> & Hex & Hlo & Hv' & He' & Hw').
    { destruct (Z.eqb_spec (key e) (external_id st)) as [Heq|Hneq].
      - exists st. split_and!; try done. destruct Hext as [Hext|Hext]; congruence.
      - rewrite Hmk. simpl. eexists. split; [done|]. done. }
    bind_val. rewrite Hv', He', Hw', Hlo, Hv.
    assert (length (take (length done) es) = length done) as Ht by (rewrite length_take; lia).
    rewrite (arr_get_val _ kx (length (filter (fun e' => key e' = key e) (take (length done) es))))
      by (by rewrite list_lookup_fmap, Hkx). bind_val.
    rewrite (arr_set_val (_ <$> vs)) by (rewrite length_fmap; by eapply lookup_lt_Some).
    bind_val.
    rewrite Hox. cbn [require]. bind_val.
    rewrite He, (arr_set_val (_ ++ replicate _ 0%nat)) by (rewrite length_app, length_fmap, Ht, length_replicate; lia).
    bind_val.
    rewrite Hw, arr_set_val by (rewrite length_app, length_fmap, Ht, length_replicate; lia).
    bind_val. eexists. split; [done|]. cbn [external_id logical_id vtx edg wgt].
    assert (length (done ++ [length done]) = S (length done)) as ->
      by (rewrite length_app; simpl; lia).
    rewrite (take_S_r _ _ _ Hes), !fmap_app. split_and!.
    + right. by rewrite Hex, Hmk.
    + symmetry. by apply count_insert.
    + rewrite insert_app_r_alt, length_fmap, Ht, Nat.sub_diag by (rewrite length_fmap; lia).
      replace (length es - length done)%nat with (S (length es - S (length done))) by lia.
      simpl. rewrite <- app_assoc. unfold tgt, target at 3. by rewrite Hox.
    + rewrite insert_app_r_alt, length_fmap, Ht, Nat.sub_diag by (rewrite length_fmap; lia).
      replace (length es - length done)%nat with (S (length es - S (length done))) by lia.
      simpl. by rewrite <- app_assoc.
  - rewrite length_seq, firstn_all, Nat.sub_diag in *. rewrite app_nil_r in He, Hw.
    bind_val. set (adj := adj_of m key other es <$> vs).
    assert (vtx st = length <$> adj) as ->.
    { rewrite Hv. unfold adj. rewrite <- list_fmap_compose. apply list_fmap_ext.
      intros i v _. unfold adj_of. simpl. by rewrite length_fmap. }
    assert (length vs = length adj) as -> by (unfold adj; by rewrite length_fmap).
    destruct (prefix_sum_flat adj) as (va & -> & Hf). bind_val.
    eexists _, _, _. split; [done|].
    assert (concat adj = (fun e => (tgt e, m_weight e)) <$> es) as Hc.
    { transitivity ((fun e => (tgt e, m_weight e)) <$>
        concat ((fun v => filter (fun e => key e = v) es) <$> vs)).
      - unfold adj. clear. induction vs as [|v vs IH]; [done|].
        rewrite !fmap_cons. cbn [concat]. by rewrite fmap_app, IH.
      - by rewrite (sorted_groups key vs es Hvs Hsort (fun e He => proj1 (Hin e He))). }
    rewrite Hc, <- !list_fmap_compose in Hf. rewrite Hc, length_fmap, He, Hw. by split.
Qed.

(** ** The representation invariant

    [csr_repr g vs out inn]: [g] is loaded with the vertices [vs], in
    increasing order, and the adjacency lists [out] and [inn]. *)
Record csr_repr (g : CSR) (vs : list Z) (out inn : list (list (nat * double))) : Prop := {
  cr_loaded : m_loaded g = true;
  cr_num_vertices : m_num_vertices g = length vs;
  cr_sorted : StronglySorted Z.lt vs;
  cr_mapping : mapping (m_ext2log g) vs;
  cr_log2ext : m_log2ext g = vs;
  cr_out : flat (m_out_v g) (m_out_e g) (m_out_w g) out;
  cr_in : flat (m_in_v g) (m_in_e g) (m_in_w g) inn;
  cr_out_length : length out = length vs;
  cr_in_length : length inn = length vs;
  cr_out_range : forall l p, l ∈ out -> p ∈ l -> (p.1 < length vs)%nat;
  cr_in_range : forall l p, l ∈ inn -> p ∈ l -> (p.1 < length vs)%nat;
}.

(** [adj] are the neighbours of [vs] over the edges [es], each list in
    increasing order. *)
Definition adjacency (m : gmap Z nat) (key other : WeightedEdge -> Z) (vs : list Z)
    (es : list WeightedEdge) (adj : list (list (nat * double))) : Prop :=
  length adj = length vs /\
  forall i v l, vs !! i = Some v -> adj !! i = Some l ->
    l ≡ₚ adj_of m key other es v /\ Sorted le l.*1.

Lemma adj_of_perm m key other es1 es2 v :
  es1 ≡ₚ es2 -> adj_of m key other es1 v ≡ₚ adj_of m key other es2 v.
Proof. intros H. unfold adj_of. by rewrite H. Qed.

Lemma elem_of_adj_of m key other es v p :
  p ∈ adj_of m key other es v <->
  exists e, e ∈ es /\ key e = v /\ p = (target m (other e), m_weight e).
Proof.
  unfold adj_of. rewrite list_elem_of_fmap. setoid_rewrite list_elem_of_filter. naive_solver.
Qed.

Lemma mapping_mono m vs v w i j :
  mapping m vs -> StronglySorted Z.lt vs -> m !! v = Some i -> m !! w = Some j ->
  v <= w -> (i <= j)%nat.
Proof.
  intros [_ Hm] Hs Hi Hj Hle. apply Hm in Hi, Hj.
  destruct (decide (i <= j)%nat) as [|Hgt]; [done|]. exfalso.
  assert (w < v); [|lia]. clear Hle Hm m.
  revert i j Hi Hj Hgt. induction Hs as [|x vs Hs IH Hall]; intros i j Hi Hj Hgt; [done|].
  destruct i as [|i]; [lia|]. destruct j as [|j]; simpl in *.
  - simplify_eq. eapply Forall_forall in Hall; [done|]. by eapply list_elem_of_lookup_2.
  - eapply IH; [done..|lia].
Qed.

Lemma Sorted_fmap_rel {A B} (R : A -> A -> Prop) (R' : B -> B -> Prop) (f : A -> B) l :
  (forall x y, x ∈ l -> y ∈ l -> R x y -> R' (f x) (f y)) -> Sorted R l -> Sorted R' (f <$> l).
Proof.
  intros HR Hs. induction Hs as [|x l Hs IH Hhd]; simpl; [constructor|].
  constructor; [apply IH; intros; apply HR; try (by right); done|].
  destruct Hhd as [|y l Hxy]; simpl; constructor. apply HR; [left|right; left|done].
Qed.

Lemma StronglySorted_filter {A} (R : A -> A -> Prop) (P : A -> Prop) `{!forall x, Decision (P x)} l :
  StronglySorted R l -> StronglySorted R (filter P l).
Proof.
  induction 1 as [|x l Hs IH Hall]; [constructor|]. rewrite filter_cons. case_decide; [|done].
  constructor; [done|]. apply Forall_forall. intros y [_ Hy]%list_elem_of_filter.
  eapply Forall_forall in Hall; [|exact Hy]. done.
Qed.

(** Edges sorted by key and then by the other end give sorted neighbours. *)
Lemma adj_of_sorted m vs key other es v (R : WeightedEdge -> WeightedEdge -> Prop) :
  mapping m vs -> StronglySorted Z.lt vs -> Transitive R -> Sorted R es ->
  (forall x y, R x y -> key x = key y -> other x <= other y) ->
  (forall e, e ∈ es -> other e ∈ vs) ->
  Sorted le (adj_of m key other es v).*1.
Proof.
  intros Hm Hvs HR Hs Hko Hin. unfold adj_of. rewrite <- list_fmap_compose.
  apply (Sorted_fmap_rel R); [|].
  - intros x y [Hx Hxe]%list_elem_of_filter [Hy Hye]%list_elem_of_filter Hxy. simpl.
    destruct (proj1 (list_elem_of_lookup _ _) (Hin x Hxe)) as [i Hi].
    destruct (proj1 (list_elem_of_lookup _ _) (Hin y Hye)) as [j Hj].
    apply (proj2 Hm) in Hi, Hj. unfold target. rewrite Hi, Hj. simpl.
    eapply mapping_mono; [done..|]. apply Hko; congruence.
  - apply StronglySorted_Sorted, StronglySorted_filter, Sorted_StronglySorted; done.
Qed.

#[export] Instance le_src_dst_trans : Transitive EdgeStream.le_src_dst.
Proof. intros x y z. unfold EdgeStream.le_src_dst. lia. Qed.
#[export] Instance le_dst_src_trans : Transitive EdgeStream.le_dst_src.
Proof. intros x y z. unfold EdgeStream.le_dst_src. lia. Qed.

Lemma StronglySorted_weaken {A} (R R' : A -> A -> Prop) l :
  (forall x y, R x y -> R' x y) -> StronglySorted R l -> StronglySorted R' l.
Proof.
  intros HR. induction 1 as [|x l Hs IH Hall]; constructor; [done|].
  eapply Forall_impl; [exact Hall|]. auto.
Qed.

Lemma Sorted_lt_of_le vs : NoDup vs -> Sorted Z.le vs -> StronglySorted Z.lt vs.
Proof.
  intros Hnd Hs. apply Sorted_StronglySorted in Hs; [|intros ???; lia].
  induction Hs as [|x vs Hs IH Hall]; [constructor|]. apply NoDup_cons in Hnd as [Hx Hnd].
  constructor; [by apply IH|]. apply Forall_forall. intros y Hy.
  eapply Forall_forall in Hall; [|exact Hy]. assert (x <> y); [|lia]. congruence.
Qed.

Section load_proofs.
Context `{EdgeStream.CommonLib, EdgeStream.Machine, HashOrder}.

(** Loading the two directions from a sorted stream. *)
Lemma load_side m vs key other stream es0 es (R : WeightedEdge -> WeightedEdge -> Prop) :
  mapping m vs -> StronglySorted Z.lt vs -> EdgeStream.repr stream es -> es ≡ₚ es0 ->
  (forall e, e ∈ es0 -> key e ∈ vs /\ other e ∈ vs /\ key e <> uint64_max) ->
  Transitive R -> Sorted R es ->
  (forall x y, R x y -> key x <= key y) ->
  (forall x y, R x y -> key x = key y -> other x <= other y) ->
  exists v e w adj, load_edges m key other stream (length vs) (length es0) = Val (v, e, w) /\
    flat v e w adj /\ adjacency m key other vs es0 adj /\ length (concat adj) = length es0.
Proof.
  intros Hm Hvs Hr Hp Hin HR Hs Hkey Hother.
  assert (forall e, e ∈ es -> key e ∈ vs /\ other e ∈ vs /\ key e <> uint64_max) as Hin'
    by (intros e; rewrite Hp; apply Hin).
  destruct (load_edges_spec m vs key other stream es) as (v & e & w & Hl & Hf & Hlen); try done.
  { apply (StronglySorted_weaken R); [done|]. by apply Sorted_StronglySorted. }
  rewrite (Permutation_length Hp) in Hl, Hlen.
  exists v, e, w, (adj_of m key other es <$> vs). split_and!; try done.
  { split; [by rewrite length_fmap|]. intros i x l Hx Hlx.
  rewrite list_lookup_fmap, Hx in Hlx. simplify_eq/=. split; [by apply adj_of_perm|].
  eapply (adj_of_sorted m vs key other es x R); try done. intros e0 He0. by apply Hin'. }
Qed.

Lemma load_directed_arrays (g : CSR) (stream : EdgeStream.WeightedEdgeStream)
    (es : list WeightedEdge) :
  EdgeStream.repr stream es -> EdgeStream.fits (EdgeStream.m_max_vertex_id stream) ->
  exists g' vs out inn, load_directed g stream = Val g' /\ csr_repr g' vs out inn /\
    m_num_edges g' = length es /\ m_is_directed g' = m_is_directed g /\
    (forall v, v ∈ vs <-> exists e, e ∈ es /\ (v = wsource e \/ v = wdestination e)) /\
    adjacency (m_ext2log g') wsource wdestination vs es out /\
    adjacency (m_ext2log g') wdestination wsource vs es inn /\
    length (concat out) = length es /\ length (concat inn) = length es.
Proof.
  intros Hr Hf. unfold load_directed.
  destruct (EdgeStream.vertex_list_ends stream es Hr Hf) as (l & ks & -> & Hks & Hkl & Hnd & Hin).
  bind_val. unfold EdgeStream.vl_sort.
  destruct (sort_all_holds _ _ Hks (eq_sym Hkl)) as (a & vs & -> & Hvs & Hca & Hp & Hs).
  do 2 bind_val. unfold EdgeStream.vl_num_vertices, capacity. cbn [EdgeStream.m_vertices].
  assert (m_capacity a = length vs) as Hcap by (rewrite Hca, (Permutation_length Hp); done).
  rewrite Hcap. assert (NoDup vs) as Hndv by (by rewrite Hp).
  destruct (map_vertices_spec (EdgeStream.mkVertexList a) vs) as (m & -> & Hm); try done.
  bind_val.
  assert (StronglySorted Z.lt vs) as Hvs' by (by apply Sorted_lt_of_le).
  assert (forall v, v ∈ vs <-> exists e, e ∈ es /\ (v = wsource e \/ v = wdestination e)) as Hin'
    by (intros v; rewrite Hp; apply Hin).
  assert (forall e, e ∈ es -> wsource e ∈ vs /\ wdestination e ∈ vs /\
    wsource e < uint64_max /\ wdestination e < uint64_max) as Hends.
  { intros e He. split_and!; [apply Hin'; eauto..| |];
      pose proof (proj1 (Forall_forall _ _) (EdgeStream.repr_max _ _ Hr) e He) as Hmx;
      cbv beta in Hmx; destruct Hf as [Hf _]; unfold uint64_max; lia. }
  destruct (EdgeStream.src_dst_sorted stream es Hr Hf)
    as (s1 & es1 & -> & Hr1 & Hp1 & Hs1 & Hm1).
  bind_val. unfold EdgeStream.num_edges. rewrite (EdgeStream.repr_num_edges _ _ Hr).
  destruct (load_side m vs wsource wdestination s1 es es1 EdgeStream.le_src_dst)
    as (ov & oe & ow & out & -> & Hfo & Hao & Hlo); try done.
  { intros e He. destruct (Hends e He) as (? & ? & ? & ?). split_and!; try done. lia. }
  { apply _. }
  { unfold EdgeStream.le_src_dst. lia. }
  { unfold EdgeStream.le_src_dst. lia. }
  bind_val.
  assert (EdgeStream.fits (EdgeStream.m_max_vertex_id s1)) as Hf1 by (by rewrite Hm1).
  destruct (EdgeStream.sort_by_dst_src_sorted s1 es1 Hr1 Hf1)
    as (s2 & es2 & -> & Hr2 & Hp2 & Hs2 & Hm2).
  bind_val.
  destruct (load_side m vs wdestination wsource s2 es es2 EdgeStream.le_dst_src)
    as (iv & ie & iw & inn & -> & Hfi & Hai & Hli); try done.
  { by rewrite Hp2. }
  { intros e He. destruct (Hends e He) as (? & ? & ? & ?). split_and!; try done. lia. }
  { apply _. }
  { unfold EdgeStream.le_dst_src. lia. }
  { unfold EdgeStream.le_dst_src. lia. }
  bind_val. eexists _, vs, out, inn. split; [done|].
  split; [|by split_and!].
  assert (forall key other adj, adjacency m key other vs es adj ->
    (forall e, e ∈ es -> other e ∈ vs) ->
    forall l0 p, l0 ∈ adj -> p ∈ l0 -> (p.1 < length vs)%nat) as Hrange.
  { intros key other adj [Hla Ha] Ho l0 p [i Hi]%list_elem_of_lookup Hpl.
    destruct (lookup_lt_is_Some_2 vs i) as [v Hv]; [apply lookup_lt_Some in Hi; lia|].
    destruct (Ha i v l0 Hv Hi) as [Hpe _]. rewrite Hpe in Hpl.
    apply elem_of_adj_of in Hpl as (e & He & _ & ->). simpl.
    destruct (proj1 (list_elem_of_lookup _ _) (Ho e He)) as [j Hj].
    apply (proj2 Hm) in Hj as Hmj. unfold target. rewrite Hmj. simpl.
    by eapply lookup_lt_Some. }
  split; simpl; try done; try apply Hao; try apply Hai.
  - eapply Hrange; [exact Hao|]. intros e He. by apply Hends.
  - eapply Hrange; [exact Hai|]. intros e He. by apply Hends.
Qed.

(** C21: loading a directed graph succeeds and builds, from a stream whose
    largest vertex fits in the width computed for it, the arrays of a CSR
    whose vertices are the end points in increasing order, and in which the
    outgoing and incoming neighbours of each vertex are those of its edges,
    sorted. *)
Theorem load_directed_repr (g : CSR) (stream : EdgeStream.WeightedEdgeStream)
    (es : list WeightedEdge) :
  EdgeStream.repr stream es -> EdgeStream.fits (EdgeStream.m_max_vertex_id stream) ->
  exists g' vs out inn, load_directed g stream = Val g' /\ csr_repr g' vs out inn /\
    m_num_edges g' = length es /\ m_is_directed g' = m_is_directed g /\
    (forall v, v ∈ vs <-> exists e, e ∈ es /\ (v = wsource e \/ v = wdestination e)) /\
    adjacency (m_ext2log g') wsource wdestination vs es out /\
    adjacency (m_ext2log g') wdestination wsource vs es inn /\
    length (concat out) = length es /\ length (concat inn) = length es.
Proof. apply load_directed_arrays. Qed.
End load_proofs.

(** ** The weight of an edge *)

(** The first entry for the neighbour [j]. *)
Definition weight_in (l : list (nat * double)) (j : nat) : double :=
  match filter (fun p => p.1 = j) l with p :: _ => p.2 | [] => d_nan end.

Lemma scan_weight_spec g wa s l j :
  wa = m_out_w g -> at_offset (m_out_e g) wa s l -> Sorted le l.*1 ->
  scan_weight g j s (length l) = Val (weight_in l j).
Proof.
  intros ->. revert s. induction l as [|p l IH]; intros s Ho Hs; [done|]. cbn [length scan_weight].
  destruct (Ho 0%nat p eq_refl) as [He Hw]. rewrite Nat.add_0_r in He, Hw.
  rewrite (arr_get_val _ _ _ He). bind_val.
  unfold weight_in. rewrite filter_cons.
  destruct (Nat.leb_spec p.1 j) as [Hle|Hgt].
  - destruct (Nat.eqb_spec p.1 j) as [Heq|Hne].
    + rewrite decide_True by done. by apply arr_get_val.
    + rewrite decide_False by done. apply IH; [by eapply at_offset_cons|].
      rewrite fmap_cons in Hs. by inversion Hs.
  - rewrite decide_False by lia.
    assert (filter (fun p => p.1 = j) l = []) as ->; [|done].
    destruct (filter _ l) as [|q k] eqn:E; [done|]. exfalso.
    assert (q ∈ filter (fun p => p.1 = j) l) as [Hq Hql]%list_elem_of_filter by (rewrite E; left).
    rewrite fmap_cons in Hs. apply Sorted_StronglySorted in Hs; [|intros ???; lia].
    inversion Hs as [|? ? _ Hall]; subst.
    eapply Forall_forall in Hall; [|by apply list_elem_of_fmap_2]. lia.
Qed.

(** On a loaded graph, [get_weight] returns the weight of the edge, and NaN
    when one of the vertices or the edge does not exist. *)
Theorem get_weight_spec (g : CSR) (vs : list Z) (out inn : list (list (nat * double)))
    (source destination : Z) :
  csr_repr g vs out inn -> (forall l, l ∈ out -> Sorted le l.*1) ->
  get_weight g source destination = Val
    (match m_ext2log g !! source, m_ext2log g !! destination with
     | Some i, Some j => weight_in (default [] (out !! i)) j
     | _, _ => d_nan
     end).
Proof.
  intros Hr Hs. unfold get_weight.
  destruct (m_ext2log g !! source) as [i|] eqn:Hi; [|done].
  destruct (m_ext2log g !! destination) as [j|] eqn:Hj; [|done].
  apply (cr_mapping _ _ _ _ Hr) in Hi.
  destruct (lookup_lt_is_Some_2 out i) as [l Hl].
  { rewrite (cr_out_length _ _ _ _ Hr). by eapply lookup_lt_Some. }
  unfold get_out_interval.
  rewrite (get_interval_flat _ _ _ _ _ _ _ (cr_out _ _ _ _ Hr)
    ltac:(by rewrite (cr_out_length _ _ _ _ Hr), (cr_num_vertices _ _ _ _ Hr)) Hl).
  bind_val. rewrite Hl. replace (off out i + length l - off out i)%nat with (length l) by lia.
  eapply scan_weight_spec; [done| |].
  - eapply at_offset_flat; [apply Hr|done].
  - apply Hs. by eapply list_elem_of_lookup_2.
Qed.

(** ** Undirected graphs: merging the two directions *)

Definition key_le (p q : nat * double) : Prop := (p.1 <= q.1)%nat.

#[export] Instance key_le_dec p q : Decision (key_le p q).
Proof. unfold key_le. apply _. Defined.

#[export] Instance key_le_total : Total key_le.
Proof. intros p q. unfold key_le. lia. Qed.

Definition merged (lo li : list (nat * double)) : list (nat * double) := list_merge key_le lo li.

Lemma merged_perm lo li : merged lo li ≡ₚ lo ++ li.
Proof. apply merge_Permutation. Qed.

Lemma merged_nil_l li : merged [] li = li.
Proof. by destruct li. Qed.

Lemma merged_nil_r lo : merged lo [] = lo.
Proof. by destruct lo. Qed.

(** One step of the copy, at position [length E]. *)
Lemma fill_step {A} (E : list A) rest k x n :
  k = length E -> (S n <= length rest)%nat ->
  arr_set (E ++ rest) k x = Val ((E ++ [x]) ++ drop 1 rest) /\ (n <= length (drop 1 rest))%nat.
Proof.
  intros -> Hn. destruct rest as [|y rest]; [simpl in Hn; lia|].
  rewrite arr_set_val by (rewrite length_app; simpl; lia).
  rewrite insert_app_r_alt, Nat.sub_diag by lia. simpl. rewrite drop_0, <- app_assoc.
  split; [done|]. simpl in Hn. lia.
Qed.

Lemma merge_edges_spec g lo li out inn k E EW re rw fuel :
  at_offset (m_out_e g) (m_out_w g) out lo -> at_offset (m_in_e g) (m_in_w g) inn li ->
  (forall p q, p ∈ lo -> q ∈ li -> p.1 <> q.1) ->
  (length lo + length li < fuel)%nat ->
  k = length E -> k = length EW ->
  (length lo + length li <= length re)%nat -> (length lo + length li <= length rw)%nat ->
  merge_edges g out (out + length lo) inn (inn + length li) k (E ++ re) (EW ++ rw) fuel =
    Val ((k + length lo + length li)%nat,
         (E ++ (merged lo li).*1) ++ drop (length lo + length li) re,
         (EW ++ (merged lo li).*2) ++ drop (length lo + length li) rw).
Proof.
  revert lo li out inn k E EW re rw.
  induction fuel as [|fuel IH]; intros lo li out inn k E EW re rw Ho Hi Hd Hf HE HW Hre Hrw; [lia|].
  (* taking the head of a list *)
  assert (forall p lo', lo = p :: lo' -> merged lo li = p :: merged lo' li ->
    (e ← arr_get (m_out_e g) out; w ← arr_get (m_out_w g) out;
     e_und ← arr_set (E ++ re) k e; w_und ← arr_set (EW ++ rw) k w;
     merge_edges g (out + 1) (out + length lo) inn (inn + length li) (k + 1) e_und w_und fuel)
    = Val ((k + length lo + length li)%nat,
         (E ++ (merged lo li).*1) ++ drop (length lo + length li) re,
         (EW ++ (merged lo li).*2) ++ drop (length lo + length li) rw)) as Htake_out.
  { intros p lo' -> Hm. simpl in Hf, Hre, Hrw.
    destruct (Ho 0%nat p eq_refl) as [He Hw]. rewrite Nat.add_0_r in He, Hw.
    rewrite (arr_get_val _ _ _ He). bind_val. rewrite (arr_get_val _ _ _ Hw). bind_val.
    destruct (fill_step E re k p.1 (length lo' + length li) HE Hre) as [-> Hre']. bind_val.
    destruct (fill_step EW rw k p.2 (length lo' + length li) HW Hrw) as [-> Hrw']. bind_val.
    replace (out + length (p :: lo'))%nat with ((out + 1) + length lo')%nat by (simpl; lia).
    rewrite IH; try done; try lia.
    - rewrite Hm, !fmap_cons, !drop_drop. cbn [length]. rewrite <- !app_assoc.
      by replace (k + 1 + length lo' + length li)%nat
        with (k + S (length lo') + length li)%nat by lia.
    - replace (out + 1)%nat with (S out) by lia. by eapply at_offset_cons.
    - intros q q' Hq. apply Hd. by right.
    - rewrite length_app. simpl. lia.
    - rewrite length_app. simpl. lia. }
  assert (forall q li', li = q :: li' -> merged lo li = q :: merged lo li' ->
    (e ← arr_get (m_in_e g) inn; w ← arr_get (m_in_w g) inn;
     e_und ← arr_set (E ++ re) k e; w_und ← arr_set (EW ++ rw) k w;
     merge_edges g out (out + length lo) (inn + 1) (inn + length li) (k + 1) e_und w_und fuel)
    = Val ((k + length lo + length li)%nat,
         (E ++ (merged lo li).*1) ++ drop (length lo + length li) re,
         (EW ++ (merged lo li).*2) ++ drop (length lo + length li) rw)) as Htake_in.
  { intros q li' -> Hm. cbn [length] in Hf, Hre, Hrw.
    destruct (Hi 0%nat q eq_refl) as [He Hw]. rewrite Nat.add_0_r in He, Hw.
    rewrite (arr_get_val _ _ _ He). bind_val. rewrite (arr_get_val _ _ _ Hw). bind_val.
    rewrite <- plus_n_Sm in Hre, Hrw.
    destruct (fill_step E re k q.1 (length lo + length li') HE Hre) as [-> Hre']. bind_val.
    destruct (fill_step EW rw k q.2 (length lo + length li') HW Hrw) as [-> Hrw']. bind_val.
    replace (inn + length (q :: li'))%nat with ((inn + 1) + length li')%nat by (simpl; lia).
    rewrite IH; try done; try lia.
    - rewrite Hm, !fmap_cons, !drop_drop. cbn [length]. rewrite <- !app_assoc, <- (plus_n_Sm (length lo)).
      by replace (k + 1 + length lo + length li')%nat
        with (k + length lo + S (length li'))%nat by lia.
    - replace (inn + 1)%nat with (S inn) by lia. by eapply at_offset_cons.
    - intros p p' Hp Hp'. apply Hd; [done|by right].
    - rewrite length_app. simpl. lia.
    - rewrite length_app. simpl. lia. }
  cbn [merge_edges].
  destruct lo as [|p lo]; destruct li as [|q li]; cbn [length] in *;
    rewrite ?(Nat.add_0_r out), ?(Nat.add_0_r inn) in *.
  - rewrite !Nat.ltb_irrefl. cbn [andb]. simpl. by rewrite !app_nil_r, !drop_0, !Nat.add_0_r.
  - rewrite Nat.ltb_irrefl, andb_false_l. rewrite (proj2 (Nat.ltb_lt inn _)) by lia.
    apply (Htake_in q li); [done|]. by rewrite !merged_nil_l.
  - rewrite Nat.ltb_irrefl, andb_false_r. rewrite (proj2 (Nat.ltb_lt out _)) by lia.
    apply (Htake_out p lo); [done|]. by rewrite !merged_nil_r.
  - rewrite !(proj2 (Nat.ltb_lt _ _)) by lia. cbn [andb].
    destruct (Ho 0%nat p eq_refl) as [He _]. destruct (Hi 0%nat q eq_refl) as [He' _].
    rewrite Nat.add_0_r in He, He'.
    rewrite (arr_get_val _ _ _ He) in *. bind_val.
    rewrite (arr_get_val _ _ _ He') in *. bind_val.
    assert (p.1 <> q.1) as Hpq by (apply Hd; left).
    rewrite (proj2 (Nat.eqb_neq _ _)) by done.
    cbv iota zeta. destruct (Nat.ltb_spec p.1 q.1) as [Hlt|Hge].
    + apply (Htake_out p lo); [done|]. unfold merged. simpl.
      rewrite decide_True by (unfold key_le; lia). done.
    + apply (Htake_in q li); [done|]. unfold merged. simpl.
      rewrite decide_False by (unfold key_le; lia). done.
Qed.

Lemma off_zip_merged out inn k :
  length out = length inn ->
  off (zip_with merged out inn) k = (off out k + off inn k)%nat.
Proof.
  unfold off. revert inn k. induction out as [|lo out IH]; intros [|li inn] k H; try done.
  - by destruct k.
  - destruct k as [|k]; [done|]. simpl in *. rewrite IH by lia.
    rewrite (Permutation_length (merged_perm lo li)), length_app. lia.
Qed.

Lemma merge_loop g vs out inn :
  csr_repr g vs out inn ->
  (forall i lo li p q, out !! i = Some lo -> inn !! i = Some li -> p ∈ lo -> q ∈ li -> p.1 <> q.1) ->
  let und := zip_with merged out inn in
  let n := length (concat und) in
  exists k, res_fold (merge_vertex g)
    (0%nat, replicate (length vs) 0%nat, replicate n 0%nat, replicate n d_zero)
    (seq 0 (length vs)) =
  Val (k, length <$> und, (concat und).*1, (concat und).*2).
Proof.
  intros Hr Hd und n. pose proof (cr_out_length _ _ _ _ Hr) as Hlo.
  pose proof (cr_in_length _ _ _ _ Hr) as Hli.
  assert (length und = length vs) as Hlu by (unfold und; rewrite length_zip_with; lia).
  destruct (res_fold_inv (fun done '(k, v_und, e_und, w_und) =>
      let d := length done in
      k = off und d /\
      v_und = (length <$> take d und) ++ replicate (length vs - d) 0%nat /\
      e_und = (concat (take d und)).*1 ++ replicate (n - k) 0%nat /\
      w_und = (concat (take d und)).*2 ++ replicate (n - k) d_zero)
    (merge_vertex g) (seq 0 (length vs))
    (0%nat, replicate (length vs) 0%nat, replicate n 0%nat, replicate n d_zero))
    as ([[[k v_und] e_und] w_und] & HF & Hk & Hv & He & Hw).
  - cbv zeta. rewrite !Nat.sub_0_r. by split_and!.
  - intros done v todo [[[k v_und] e_und] w_und] Hseq (-> & -> & -> & ->).
    apply EdgeStream.prefix_index in Hseq as (-> & Hv & _). set (d := length done) in *.
    destruct (lookup_lt_is_Some_2 out d) as [lo Hlod]; [lia|].
    destruct (lookup_lt_is_Some_2 inn d) as [li Hlid]; [lia|].
    assert (und !! d = Some (merged lo li)) as Hud
      by (unfold und; by rewrite lookup_zip_with, Hlod, Hlid).
    unfold merge_vertex, get_out_interval, get_in_interval.
    rewrite (get_interval_flat _ _ _ _ _ _ _ (cr_out _ _ _ _ Hr)
      ltac:(by rewrite Hlo, (cr_num_vertices _ _ _ _ Hr)) Hlod). bind_val.
    rewrite (get_interval_flat _ _ _ _ _ _ _ (cr_in _ _ _ _ Hr)
      ltac:(by rewrite Hli, (cr_num_vertices _ _ _ _ Hr)) Hlid). bind_val.
    assert (length (take d und) = d) as Ht by (rewrite length_take; lia).
    cbv beta iota zeta. rewrite arr_set_val by (rewrite length_app, length_fmap, Ht, length_replicate; lia). bind_val.
    replace (off out d + length lo - off out d)%nat with (length lo) by lia.
    replace (off inn d + length li - off inn d)%nat with (length li) by lia.
    assert (length (merged lo li) = length lo + length li)%nat as Hlm
      by (by rewrite (Permutation_length (merged_perm lo li)), length_app).
    assert (off und d + (length lo + length li) <= n)%nat as Hroom.
    { rewrite <- Hlm, <- (off_S _ _ _ Hud). unfold n. rewrite <- off_all. apply off_le. lia. }
    rewrite (merge_edges_spec g lo li).
    + bind_val. eexists. split; [reflexivity|].
      assert (length (done ++ [d]) = S d) as -> by (rewrite length_app; simpl; lia).
      rewrite (take_S_r _ _ _ Hud), concat_app, !fmap_app. cbn [concat]. rewrite app_nil_r.
      rewrite (off_S _ _ _ Hud), Hlm, !drop_replicate. split_and!.
      * lia.
      * rewrite insert_app_r_alt, length_fmap, Ht, Nat.sub_diag by (rewrite length_fmap; lia).
        replace (length vs - d)%nat with (S (length vs - S d)) by lia.
        simpl. by rewrite Hlm, <- app_assoc.
      * do 2 f_equal. lia.
      * do 2 f_equal. lia.
    + by eapply at_offset_flat; [apply Hr|].
    + by eapply at_offset_flat; [apply Hr|].
    + intros p q. by apply (Hd d).
    + lia.
    + by rewrite length_fmap, off_concat.
    + by rewrite length_fmap, off_concat.
    + rewrite length_replicate. lia.
    + rewrite length_replicate. lia.
  - exists k. rewrite HF. rewrite length_seq, <- Hlu in *.
    rewrite !firstn_all, Nat.sub_diag, app_nil_r in *.
    rewrite Hk, off_all in He, Hw. unfold n in He, Hw.
    rewrite Nat.sub_diag, app_nil_r in He, Hw. by subst.
Qed.

Lemma adj_of_incl m key other vs es adj i v l p :
  adjacency m key other vs es adj -> vs !! i = Some v -> adj !! i = Some l -> p ∈ l ->
  exists e, e ∈ es /\ key e = v /\ p.1 = target m (other e).
Proof.
  intros [_ Ha] Hv Hl Hp. destruct (Ha i v l Hv Hl) as [Hperm _]. rewrite Hperm in Hp.
  apply elem_of_adj_of in Hp as (e & He & Hk & ->). eauto.
Qed.

Lemma target_inj m vs v w :
  mapping m vs -> v ∈ vs -> w ∈ vs -> target m v = target m w -> v = w.
Proof.
  intros [_ Hm] [i Hi]%list_elem_of_lookup [j Hj]%list_elem_of_lookup.
  unfold target. rewrite (proj2 (Hm v i) Hi), (proj2 (Hm w j) Hj). simpl. congruence.
Qed.

Lemma merged_sorted lo li : Sorted le lo.*1 -> Sorted le li.*1 -> Sorted le (merged lo li).*1.
Proof.
  intros Ho Hi. apply (Sorted_fmap_rel key_le); [done|]. apply Sorted_list_merge; [apply _| |].
  - clear Hi. induction lo as [|p lo IH]; [constructor|]. rewrite fmap_cons in Ho.
    inversion Ho as [|? ? Hs Hh]; subst. constructor; [by apply IH|].
    destruct lo; constructor. rewrite fmap_cons in Hh. by inversion Hh.
  - clear Ho. induction li as [|p li IH]; [constructor|]. rewrite fmap_cons in Hi.
    inversion Hi as [|? ? Hs Hh]; subst. constructor; [by apply IH|].
    destruct li; constructor. rewrite fmap_cons in Hh. by inversion Hh.
Qed.

Section load_undirected_proofs.
Context `{EdgeStream.CommonLib, EdgeStream.Machine, HashOrder}.

(** Loading an undirected graph whose edges are each listed in one
    direction only succeeds, and the outgoing and the incoming side of the
    result are one array: for each vertex its neighbours over the edges in
    both directions, in increasing order; every edge is stored twice. *)
Theorem load_undirected_repr (g : CSR) (stream : EdgeStream.WeightedEdgeStream)
    (es : list WeightedEdge) :
  EdgeStream.repr stream es -> EdgeStream.fits (EdgeStream.m_max_vertex_id stream) ->
  (forall e e', e ∈ es -> e' ∈ es -> ~ (wsource e = wdestination e' /\ wdestination e = wsource e')) ->
  exists g' vs und, load_undirected g stream = Val g' /\ csr_repr g' vs und und /\
    m_num_edges g' = length es /\
    (forall v, v ∈ vs <-> exists e, e ∈ es /\ (v = wsource e \/ v = wdestination e)) /\
    (forall i v l, vs !! i = Some v -> und !! i = Some l ->
       l ≡ₚ adj_of (m_ext2log g') wsource wdestination es v ++
            adj_of (m_ext2log g') wdestination wsource es v /\ Sorted le l.*1) /\
    length (concat und) = (length es * 2)%nat.
Proof.
  intros Hr Hf Hdir. unfold load_undirected.
  destruct (load_directed_arrays g stream es Hr Hf)
    as (g1 & vs & out & inn & -> & Hcsr & Hm & _ & Hvs & Hao & Hai & Hlo & Hli).
  bind_val. pose proof (cr_out_length _ _ _ _ Hcsr) as Hlout.
  pose proof (cr_in_length _ _ _ _ Hcsr) as Hlinn.
  set (und := zip_with merged out inn).
  assert (length und = length vs) as Hlu by (unfold und; rewrite length_zip_with; lia).
  assert (length (concat und) = (length es * 2)%nat) as Htotal.
  { rewrite <- off_all. unfold und. rewrite off_zip_merged by lia. fold und.
    rewrite Hlu, <- Hlout at 1. rewrite Hlu, <- Hlinn, !off_all. lia. }
  assert (forall e, e ∈ es -> wsource e ∈ vs /\ wdestination e ∈ vs) as Hends.
  { intros e He. split; apply Hvs; eauto. }
  assert (forall i lo li p q, out !! i = Some lo -> inn !! i = Some li -> p ∈ lo -> q ∈ li ->
    p.1 <> q.1) as Hd.
  { intros i lo li p q Ho Hi Hp Hq Heq.
    destruct (lookup_lt_is_Some_2 vs i) as [v Hv]; [apply lookup_lt_Some in Ho; lia|].
    destruct (adj_of_incl _ _ _ _ _ _ _ _ _ _ Hao Hv Ho Hp) as (e & He & Hes & Hpe).
    destruct (adj_of_incl _ _ _ _ _ _ _ _ _ _ Hai Hv Hi Hq) as (e' & He' & Hes' & Hqe).
    apply (Hdir e e' He He'). split; [congruence|].
    eapply target_inj; [apply Hcsr|by apply Hends|by apply Hends|congruence]. }
  destruct (merge_loop g1 vs out inn Hcsr Hd) as [k HF]. fold und in HF.
  rewrite Hm, (cr_num_vertices _ _ _ _ Hcsr), <- Htotal, HF. bind_val.
  rewrite <- Hlu. destruct (prefix_sum_flat und) as (va & -> & Hflat). bind_val.
  eexists _, vs, und. split; [done|]. cbn [m_num_edges m_ext2log].
  assert (forall l p, l ∈ und -> p ∈ l -> (p.1 < length vs)%nat) as Hrange.
  { intros l p [i Hi]%list_elem_of_lookup Hp. unfold und in Hi.
    apply lookup_zip_with_Some in Hi as (lo & li & -> & Ho & Hi).
    rewrite merged_perm in Hp. apply elem_of_app in Hp as [Hp|Hp].
    - eapply (cr_out_range _ _ _ _ Hcsr); [by eapply list_elem_of_lookup_2|done].
    - eapply (cr_in_range _ _ _ _ Hcsr); [by eapply list_elem_of_lookup_2|done]. }
  split; [split; simpl; try done; apply Hcsr|]. split_and!; try done.
  intros i v l Hv Hl. unfold und in Hl.
  apply lookup_zip_with_Some in Hl as (lo & li & -> & Ho & Hi).
  destruct (proj2 Hao i v lo Hv Ho) as [Hpo Hso].
  destruct (proj2 Hai i v li Hv Hi) as [Hpi Hsi].
  split; [by rewrite merged_perm, Hpo, Hpi|by apply merged_sorted].
Qed.
End load_undirected_proofs.

(** ** Neighbours *)

Definition nbr (adj : list (list (nat * double))) (u : nat) : list nat := (default [] (adj !! u)).*1.

(** The two sides of the arrays describe the same edges. *)
Definition coherent (out inn : list (list (nat * double))) : Prop :=
  forall u v, v ∈ nbr out u <-> u ∈ nbr inn v.

Lemma nbr_lookup adj u l : adj !! u = Some l -> nbr adj u = l.*1.
Proof. intros H. unfold nbr. by rewrite H. Qed.

Section csr_graph.
Context (g : CSR) (vs : list Z) (out inn : list (list (nat * double))).
Context (Hr : csr_repr g vs out inn).

Lemma lookup_out u : (u < m_num_vertices g)%nat -> exists l, out !! u = Some l.
Proof.
  intros Hu. apply lookup_lt_is_Some_2.
  by rewrite (cr_out_length _ _ _ _ Hr), <- (cr_num_vertices _ _ _ _ Hr).
Qed.

Lemma lookup_in u : (u < m_num_vertices g)%nat -> exists l, inn !! u = Some l.
Proof.
  intros Hu. apply lookup_lt_is_Some_2.
  by rewrite (cr_in_length _ _ _ _ Hr), <- (cr_num_vertices _ _ _ _ Hr).
Qed.

Lemma nbr_out_lt u v : v ∈ nbr out u -> (u < m_num_vertices g)%nat /\ (v < m_num_vertices g)%nat.
Proof.
  intros Hv. unfold nbr in Hv. destruct (out !! u) as [l|] eqn:E; [|by apply elem_of_nil in Hv].
  simpl in Hv. apply list_elem_of_fmap in Hv as (p & -> & Hp).
  rewrite (cr_num_vertices _ _ _ _ Hr). split.
  - rewrite <- (cr_out_length _ _ _ _ Hr). by eapply lookup_lt_Some.
  - eapply (cr_out_range _ _ _ _ Hr); [by eapply list_elem_of_lookup_2|done].
Qed.

Lemma nbr_in_lt u v : v ∈ nbr inn u -> (u < m_num_vertices g)%nat /\ (v < m_num_vertices g)%nat.
Proof.
  intros Hv. unfold nbr in Hv. destruct (inn !! u) as [l|] eqn:E; [|by apply elem_of_nil in Hv].
  simpl in Hv. apply list_elem_of_fmap in Hv as (p & -> & Hp).
  rewrite (cr_num_vertices _ _ _ _ Hr). split.
  - rewrite <- (cr_in_length _ _ _ _ Hr). by eapply lookup_lt_Some.
  - eapply (cr_in_range _ _ _ _ Hr); [by eapply list_elem_of_lookup_2|done].
Qed.

(** The intervals and the edges in them. *)
Lemma out_interval u :
  (u < m_num_vertices g)%nat -> exists s,
    get_out_interval g u = Val (s, (s + length (nbr out u))%nat) /\
    forall {B} (f : B -> nat -> res B) b,
      res_fold (fun b i => x ← arr_get (m_out_e g) i; f b x) b (seq s (length (nbr out u)))
      = res_fold f b (nbr out u).
Proof.
  intros Hu. destruct (lookup_out u Hu) as [l Hl]. exists (off out u).
  rewrite (nbr_lookup _ _ _ Hl), length_fmap. split.
  - apply (get_interval_flat _ _ _ _ _ _ _ (cr_out _ _ _ _ Hr)); [|done].
    by rewrite (cr_out_length _ _ _ _ Hr), (cr_num_vertices _ _ _ _ Hr).
  - intros B f b. eapply edge_loop, at_offset_flat; [apply Hr|done].
Qed.

Lemma in_interval u :
  (u < m_num_vertices g)%nat -> exists s,
    get_in_interval g u = Val (s, (s + length (nbr inn u))%nat) /\
    (forall {B} (f : B -> nat -> res B) b,
      res_fold (fun b i => x ← arr_get (m_in_e g) i; f b x) b (seq s (length (nbr inn u)))
      = res_fold f b (nbr inn u)) /\
    forall i x, nbr inn u !! i = Some x -> m_in_e g !! (s + i)%nat = Some x.
Proof.
  intros Hu. destruct (lookup_in u Hu) as [l Hl]. exists (off inn u).
  rewrite (nbr_lookup _ _ _ Hl), length_fmap. split_and!.
  - apply (get_interval_flat _ _ _ _ _ _ _ (cr_in _ _ _ _ Hr)); [|done].
    by rewrite (cr_in_length _ _ _ _ Hr), (cr_num_vertices _ _ _ _ Hr).
  - intros B f b. eapply edge_loop, at_offset_flat; [apply Hr|done].
  - intros i x Hi. rewrite list_lookup_fmap in Hi. destruct (l !! i) as [p|] eqn:Hp; [|done].
    injection Hi as <-. by destruct (at_offset_flat _ _ _ _ _ _ (cr_in _ _ _ _ Hr) Hl i p Hp).
Qed.

Lemma out_degree u :
  (u < m_num_vertices g)%nat -> get_out_degree g u = Val (length (nbr out u)).
Proof.
  intros Hu. destruct (out_interval u Hu) as (s & Hs & _). unfold get_out_degree.
  rewrite Hs. simpl. f_equal. lia.
Qed.
Lemma translate_spec {T} (values : list T) :
  length values = m_num_vertices g ->
  translate g values (m_num_vertices g) = Val (zip vs values).
Proof.
  intros Hl. unfold translate. set (F := fun _ _ => _).
  pose proof (cr_num_vertices _ _ _ _ Hr) as Hvs.
  destruct (res_fold_inv (fun done r => r = zip (take (length done) vs) (take (length done) values))
    F (seq 0 (m_num_vertices g)) []) as (r & -> & ->).
  - done.
  - intros done i todo r Hseq ->. apply EdgeStream.prefix_index in Hseq as (-> & Hi & _).
    unfold F. rewrite (cr_log2ext _ _ _ _ Hr).
    destruct (lookup_lt_is_Some_2 vs (length done)) as [e He]; [lia|].
    destruct (lookup_lt_is_Some_2 values (length done)) as [x Hx]; [lia|].
    rewrite (arr_get_val _ _ _ He). bind_step. rewrite (arr_get_val _ _ _ Hx). bind_step.
    eexists. split; [done|]. rewrite length_app. simpl. rewrite Nat.add_1_r.
    rewrite (take_S_r _ _ _ He), (take_S_r _ _ _ Hx), zip_with_app by (rewrite !length_take; lia).
    done.
  - by rewrite length_seq, !take_ge by lia.
Qed.

End csr_graph.

(** The two sides that are loaded describe the same edges. *)
Lemma elem_of_nbr m key other vs es adj i v j :
  adjacency m key other vs es adj -> vs !! i = Some v ->
  j ∈ nbr adj i <-> exists e, e ∈ es /\ key e = v /\ j = target m (other e).
Proof.
  intros [Hl Ha] Hv. destruct (lookup_lt_is_Some_2 adj i) as [l Hlk].
  { rewrite Hl. by eapply lookup_lt_Some. }
  rewrite (nbr_lookup _ _ _ Hlk). destruct (Ha i v l Hv Hlk) as [Hp _]. rewrite Hp.
  rewrite list_elem_of_fmap. setoid_rewrite elem_of_adj_of. naive_solver.
Qed.

Lemma adjacency_coherent m vs es out inn :
  mapping m vs -> (forall e, e ∈ es -> wsource e ∈ vs /\ wdestination e ∈ vs) ->
  adjacency m wsource wdestination vs es out -> adjacency m wdestination wsource vs es inn ->
  coherent out inn.
Proof.
  intros [Hnd Hm] Hin Ho Hi u v.
  assert (forall adj w j, length adj = length vs -> j ∈ nbr adj w -> exists x, vs !! w = Some x) as Hsome.
  { intros adj w j Hl Hj. apply lookup_lt_is_Some_2. rewrite <- Hl. unfold nbr in Hj.
    destruct (adj !! w) eqn:E; [by eapply lookup_lt_Some|by apply elem_of_nil in Hj]. }
  assert (forall x w, x ∈ vs -> w = target m x -> vs !! w = Some x) as Ht.
  { intros x w [k Hk]%list_elem_of_lookup ->. apply Hm in Hk as Hk'. unfold target. by rewrite Hk'. }
  split; intros Hj.
  - destruct (Hsome out u v (proj1 Ho) Hj) as [x Hx].
    destruct (proj1 (elem_of_nbr _ _ _ _ _ _ _ _ _ Ho Hx) Hj) as (e & He & Hk & Hv).
    apply (elem_of_nbr _ _ _ _ _ _ _ (wdestination e) _ Hi); [by apply Ht; [apply Hin|]|].
    exists e. split_and!; try done. unfold target. apply Hm in Hx. by rewrite Hk, Hx.
  - destruct (Hsome inn v u (proj1 Hi) Hj) as [x Hx].
    destruct (proj1 (elem_of_nbr _ _ _ _ _ _ _ _ _ Hi Hx) Hj) as (e & He & Hk & Hu).
    apply (elem_of_nbr _ _ _ _ _ _ _ (wsource e) _ Ho); [by apply Ht; [apply Hin|]|].
    exists e. split_and!; try done. unfold target. apply Hm in Hx. by rewrite Hk, Hx.
Qed.

(** ** Examples *)

Definition ex_load (is_directed : bool) : res CSR :=
  @load EdgeStream.simple_common EdgeStream.quad_core map_order (CSR_new is_directed)
    EdgeStream.ex_stream.

Example ex_load_directed :
  (fun g => (m_log2ext g, m_out_v g, m_out_e g, m_in_v g, m_in_e g)) <$> ex_load true =
  Val ([1; 2; 3; 7; 9], [0; 0; 2; 3; 3]%nat, [1; 4; 0]%nat, [1; 2; 2; 2; 3]%nat, [3; 2; 2]%nat).
Proof. vm_compute. reflexivity. Qed.

Example ex_load_undirected :
  (fun g => (m_out_v g, m_out_e g)) <$> ex_load false =
  Val ([1; 2; 4; 5; 6]%nat, [3; 2; 1; 4; 0; 2]%nat).
Proof. vm_compute. reflexivity. Qed.

Lemma load_directed_repr_witness :
  exists g' vs out inn,
    @load_directed EdgeStream.simple_common EdgeStream.quad_core map_order (CSR_new true)
      EdgeStream.ex_stream = Val g' /\ csr_repr g' vs out inn /\ m_num_edges g' = 3%nat.
Proof.
  destruct (@load_directed_repr EdgeStream.simple_common EdgeStream.quad_core map_order
    (CSR_new true) EdgeStream.ex_stream EdgeStream.ex_edges EdgeStream.ex_stream_repr
    EdgeStream.ex_stream_fits) as (g' & vs & out & inn & Hl & Hr & Hm & _).
  exists g', vs, out, inn. by split_and!.
Defined.

Lemma load_undirected_repr_witness :
  exists g' vs und,
    @load_undirected EdgeStream.simple_common EdgeStream.quad_core map_order (CSR_new false)
      EdgeStream.ex_stream = Val g' /\ csr_repr g' vs und und /\ length (concat und) = 6%nat.
Proof.
  destruct (@load_undirected_repr EdgeStream.simple_common EdgeStream.quad_core map_order
    (CSR_new false) EdgeStream.ex_stream EdgeStream.ex_edges EdgeStream.ex_stream_repr
    EdgeStream.ex_stream_fits) as (g' & vs & und & Hl & Hr & Hm & _ & _ & Ht).
  { intros e e' He He'. unfold EdgeStream.ex_edges in He, He'.
    rewrite !elem_of_cons, elem_of_nil in He, He'. naive_solver. }
  exists g', vs, und. by split_and!.
Defined.

(** A small loaded graph: 10 -> 20 -> 30 -> 10 and 20 -> 10. *)
Definition ex_csr : CSR :=
  mkCSR true 3 4 (<[10 := 0%nat]> (<[20 := 1%nat]> (<[30 := 2%nat]> ∅))) [10; 20; 30] true
    [1; 3; 4]%nat [1; 0; 2; 0]%nat (double_of_Z <$> [5; 6; 7; 8])
    [2; 3; 4]%nat [1; 2; 0; 1]%nat (double_of_Z <$> [6; 8; 5; 7]) 0.
Definition ex_out : list (list (nat * double)) :=
  [[(1%nat, double_of_Z 5)]; [(0%nat, double_of_Z 6); (2%nat, double_of_Z 7)];
   [(0%nat, double_of_Z 8)]].
Definition ex_in : list (list (nat * double)) :=
  [[(1%nat, double_of_Z 6); (2%nat, double_of_Z 8)]; [(0%nat, double_of_Z 5)];
   [(1%nat, double_of_Z 7)]].

Lemma all_in_range (adj : list (list (nat * double))) n :
  forallb (forallb (fun p => p.1 <? n)%nat) adj = true ->
  forall l p, l ∈ adj -> p ∈ l -> (p.1 < n)%nat.
Proof.
  intros H l p Hl Hp. rewrite forallb_forall in H.
  specialize (H l ltac:(by apply list_elem_of_In)). rewrite forallb_forall in H.
  apply Nat.ltb_lt, H. by apply list_elem_of_In.
Qed.

Lemma ex_csr_repr : csr_repr ex_csr [10; 20; 30] ex_out ex_in.
Proof.
  split; try done.
  - repeat (constructor; [|by repeat (constructor; [lia|])]). constructor.
  - split; [by apply (bool_decide_unpack _); vm_compute|]. intros v i. simpl.
    rewrite !lookup_insert_Some, lookup_empty.
    destruct i as [|[|[|i]]]; simpl; naive_solver.
  - split; try done. intros v Hv. destruct v as [|[|[|v]]]; simpl in *; try done. lia.
  - split; try done. intros v Hv. destruct v as [|[|[|v]]]; simpl in *; try done. lia.
  - by apply all_in_range.
  - by apply all_in_range.
Qed.

Lemma get_weight_spec_witness :
  get_weight ex_csr 20 30 = Val (double_of_Z 7) /\ get_weight ex_csr 10 30 = Val d_nan.
Proof.
  assert (forall l, l ∈ ex_out -> Sorted le l.*1) as Hs.
  { intros l Hl. unfold ex_out in Hl. rewrite !elem_of_cons, elem_of_nil in Hl.
    destruct_or! Hl; subst; simpl; repeat constructor; done. }
  split; rewrite (get_weight_spec ex_csr [10; 20; 30] ex_out ex_in) by (apply ex_csr_repr || done);
    reflexivity.
Defined.
