(* ===== verification/CsrBfs.v ===== *)
(** The breadth first search of [library/baseline/csr.cpp]: the four steps over
    the arrays of the CSR and the search from an external vertex. *)

From S2P Require Import Prelude Graphs Gapbs Bfs Csr.

(** ** The steps *)

(** The loop over the incoming edges of a vertex, that stops at the first one
    from the frontier. *)
Fixpoint bu_scan (in_e : list nat) (front : list bool) (i n : nat) : res bool :=
  match n with
  | O => Val false
  | S n =>
    dst ← arr_get in_e i;
    b ← get_bit front dst;
    if b : bool then Val true else bu_scan in_e front (S i) n
  end.

Definition bu_visit (g : CSR) (distance : Z) (front : list bool)
    (st : list Z * list bool * Z) (u : nat) : res (list Z * list bool * Z) :=
  let '(distances, next, awake_count) := st in
  x ← arr_get distances u;
  if x <? 0 then
    '(first, second) ← get_in_interval g u;
    let degree := (second - first)%nat in
    if (degree =? 0)%nat then Val st
    else
      found ← bu_scan (m_in_e g) front first degree;
      if found : bool then
        distances ← arr_set distances u distance;
        next ← set_bit next u;
        Val (distances, next, i64 (awake_count + 1))
      else Val st
  else Val st.

Definition do_bfs_BUStep `{Omp} (g : CSR) (distances : list Z) (distance : Z)
    (front next : list bool) : res (list Z * list bool * Z) :=
  res_fold (bu_visit g distance front) (distances, bm_reset next, 0)
    (omp_order distance (seq 0 (m_num_vertices g))).

(** One outgoing edge: claim the vertex if it is unvisited. *)
Definition td_edge (distance : Z) (st : list Z * list nat * Z) (dst : nat) :
    res (list Z * list nat * Z) :=
  let '(distances, lqueue, scout_count) := st in
  curr_val ← arr_get distances dst;
  if curr_val <? 0 then
    distances ← arr_set distances dst distance;
    Val (distances, lqueue ++ [dst], i64 (scout_count + i64 (- curr_val)))
  else Val st.

Definition td_visit (g : CSR) (distance : Z) (st : list Z * list nat * Z) (u : nat) :
    res (list Z * list nat * Z) :=
  '(first, second) ← get_out_interval g u;
  let degree := (second - first)%nat in
  if (degree =? 0)%nat then Val st
  else
    res_fold (fun st i => dst ← arr_get (m_out_e g) i; td_edge distance st dst)
      st (seq first degree).

Definition do_bfs_TDStep `{Omp} (g : CSR) (distances : list Z) (distance : Z)
    (queue : SlidingQueue) : res (list Z * SlidingQueue * Z) :=
  '(distances, lqueue, scout_count) ←
    res_fold (td_visit g distance) (distances, [], 0) (omp_order distance (window queue));
  queue ← q_flush queue lqueue;
  Val (distances, queue, scout_count).

Definition do_bfs_QueueToBitmap `{Omp} (queue : SlidingQueue) (bm : list bool) : res (list bool) :=
  res_fold set_bit bm (omp_order 0 (window queue)).

Definition do_bfs_BitmapToQueue `{Omp} (g : CSR) (bm : list bool) (queue : SlidingQueue) :
    res SlidingQueue :=
  lqueue ← res_fold
    (fun lqueue n => b ← get_bit bm n; Val (if b : bool then lqueue ++ [n] else lqueue))
    [] (omp_order 0 (seq 0 (m_num_vertices g)));
  queue ← q_flush queue lqueue;
  Val (slide_window queue).

Definition do_bfs_init_distances `{Omp} (g : CSR) : res (list Z) :=
  res_fold
    (fun distances n =>
       x ← (out_degree ← get_out_degree g n;
            let out_degree := i64 (Z.of_nat out_degree) in
            Val (if negb (out_degree =? 0) then i64 (- out_degree) else -1));
       arr_set distances n x)
    (replicate (m_num_vertices g) 0) (omp_order 0 (seq 0 (m_num_vertices g))).

(** ** The search *)

Definition csr_steps `{Omp} (g : CSR) : BfsSteps := {|
  BUStep := do_bfs_BUStep g;
  TDStep := do_bfs_TDStep g;
  QueueToBitmap := do_bfs_QueueToBitmap;
  BitmapToQueue := do_bfs_BitmapToQueue g;
|}.

(** [do_bfs], with the number of polls of the timer. *)
Definition do_bfs `{Omp, Timer} (g : CSR) (root : nat) (alpha beta : Z) : res (list Z * nat) :=
  distances ← do_bfs_init_distances g;
  distances ← arr_set distances root 0;
  queue ← q_push_back (SlidingQueue_new (m_num_vertices g)) root;
  let queue := slide_window queue in
  let curr := bm_reset (Bitmap_new (m_num_vertices g)) in
  let front := bm_reset (Bitmap_new (m_num_vertices g)) in
  scout_count ← get_out_degree g root;
  bfs_loop (csr_steps g) (Z.of_nat (m_num_vertices g)) alpha beta (m_num_vertices g + 1)
    (mkBfsState distances queue curr front (i64 (Z.of_nat (m_num_edges g)))
       (i64 (Z.of_nat scout_count)) 1)
    0 (m_num_vertices g + 1).

(** The lines written to the file, one per vertex. *)
Definition bfs `{Omp, Timer} (g : CSR) (external_source_id : Z) : res (list (Z * Z)) :=
  root ← at_ (m_ext2log g !! external_source_id);
  '(result, k) ← do_bfs g root 15 18;
  if is_timeout k then Exn TimeoutError
  else
    translation ← translate g result (m_num_vertices g);
    if is_timeout (k + 1) then Exn TimeoutError
    else Val (save_results (fun x => x <? 0) int64_max false translation).

(** ** The laws of the steps *)

Lemma bu_scan_spec in_e front s l :
  (forall i x, l !! i = Some x -> in_e !! (s + i)%nat = Some x) ->
  (forall x, x ∈ l -> (x < length front)%nat) ->
  bu_scan in_e front s (length l) = Val (existsb (bit front) l).
Proof.
  revert s. induction l as [|x l IH]; intros s Hl Hf; [done|]. cbn [length bu_scan existsb].
  pose proof (Hl 0%nat x eq_refl) as Hx. rewrite Nat.add_0_r in Hx.
  rewrite (arr_get_val _ _ _ Hx). bind_step.
  rewrite bit_get by (apply Hf; left). bind_step. destruct (bit front x); [done|].
  apply IH; [|intros y Hy; apply Hf; by right].
  intros i y Hi. replace (S s + i)%nat with (s + S i)%nat by lia. by apply Hl.
Qed.

Section bfs_csr.
Context `{Omp, Timer} (g : CSR) (vs : list Z) (out inn : list (list (nat * double))).
Context (Hr : csr_repr g vs out inn) (Hco : coherent out inn).
Context (HN : Z.of_nat (m_num_vertices g) < 2 ^ 62).

Notation N := (m_num_vertices g).
Notation E := (fun u v => v ∈ nbr out u).

Lemma bu_visit_spec d front dist next c u x :
  length dist = N -> length next = N -> length front = N -> dist !! u = Some x ->
  bu_visit g d front (dist, next, c) u =
  Val (if (x <? 0) && existsb (bit front) (nbr inn u)
       then (<[u := d]> dist, <[u := true]> next, i64 (c + 1)) else (dist, next, c)).
Proof.
  intros Hd Hn Hf Hx. unfold bu_visit. rewrite (arr_get_val _ _ _ Hx). bind_step.
  destruct (x <? 0); [|done]. cbn [andb].
  assert (u < N)%nat as Hu by (apply lookup_lt_Some in Hx; lia).
  destruct (in_interval g vs out inn Hr u Hu) as (s & -> & _ & Hin). bind_step.
  replace (s + length (nbr inn u) - s)%nat with (length (nbr inn u)) by lia.
  destruct (Nat.eqb_spec (length (nbr inn u)) 0) as [Hz|Hz].
  { destruct (nbr inn u); [done|simpl in Hz; lia]. }
  rewrite (bu_scan_spec _ _ _ _ Hin).
  2: { intros y Hy. rewrite Hf. by eapply nbr_in_lt. }
  bind_step. destruct (existsb _ _); [|done].
  rewrite arr_set_val by lia. bind_step. unfold set_bit. rewrite arr_set_val by lia. done.
Qed.

Lemma td_edges_spec d l st :
  (forall v, v ∈ l -> (v < N)%nat) -> length st.1.1 = N ->
  res_fold (td_edge d) st l = Val (foldl (td_claim id d) st l).
Proof.
  revert st. induction l as [|v l IH]; intros [[dist lq] sc] Hl Hst; [done|].
  cbn [res_fold foldl]. destruct (lookup_lt_is_Some_2 dist v) as [x Hx].
  { simpl in Hst. rewrite Hst. apply Hl. left. }
  unfold td_edge at 2, td_claim at 2. cbv beta iota zeta.
  rewrite (arr_get_val _ _ _ Hx), Hx. bind_step.
  destruct (x <? 0).
  - rewrite arr_set_val by (by eapply lookup_lt_Some). bind_step.
    apply IH; [intros w Hw; apply Hl; by right|]. cbn. by rewrite length_insert.
  - apply IH; [intros w Hw; apply Hl; by right|done].
Qed.

Lemma td_visit_spec d st u :
  (u < N)%nat -> length st.1.1 = N ->
  td_visit g d st u = Val (foldl (td_claim id d) st (nbr out u)).
Proof.
  intros Hu Hst. unfold td_visit.
  destruct (out_interval g vs out inn Hr u Hu) as (s & -> & Hfold). bind_step.
  replace (s + length (nbr out u) - s)%nat with (length (nbr out u)) by lia.
  destruct (Nat.eqb_spec (length (nbr out u)) 0) as [Hz|Hz].
  { destruct (nbr out u); [done|simpl in Hz; lia]. }
  rewrite (Hfold _ (td_edge d)). apply td_edges_spec; [|done].
  intros v Hv. by eapply nbr_out_lt.
Qed.

Lemma fmap_id_nat (l : list nat) : id <$> l = l.
Proof. apply list_fmap_id. Qed.

Lemma csr_laws : BfsLaws N E id (csr_steps g).
Proof.
  split.
  - intros dist d front next Hd Hf Hn. simpl. unfold do_bfs_BUStep, bm_reset. rewrite Hn.
    destruct (bu_fold_law N id HN d (fun u => existsb (bit front) (nbr inn u)) dist d
      (bu_visit g d front) Hd) as (dist' & next' & c & Heq & [Hl Hv] & Hln & Hc & Hb & Hpos).
    { intros. by apply bu_visit_spec. }
    rewrite fmap_id_nat in Heq. exists dist', next', c.
    assert (forall v, existsb (bit front) (nbr inn v) = true <->
      exists p, bit front p = true /\ v ∈ nbr out p) as HP.
    { intros v. rewrite existsb_exists. setoid_rewrite <- list_elem_of_In.
      split; intros (p & H1 & H2); exists p.
      - split; [done|]. by apply Hco.
      - split; [|done]. by apply Hco. }
    split_and!; try done; try lia.
    + split; [done|]. intros v x Hx. destruct (Hv v x Hx) as (y & Hy & Hcase). exists y. by rewrite <- HP.
    + intros v. rewrite Hb. unfold fresh. by rewrite HP.
  - intros dist d q W Hd Hw Hd0 HW. simpl. unfold do_bfs_TDStep. rewrite Hw.
    destruct (td_fold_law N id HN d (nbr out) dist d (td_visit g d) W Hd Hd0)
      as (dist' & l & scout & -> & Hv & Hl & Hin).
    { intros u v _ Hv. by eapply nbr_out_lt. }
    { intros st u Hst Hu. apply td_visit_spec; [by apply HW|done]. }
    exists dist', l, scout. by split_and!.
  - intros q b W Hb Hw HW. simpl. unfold do_bfs_QueueToBitmap. rewrite Hw.
    apply (q2b_fold_law N id); try done.
    intros b' v Hb' Hv. unfold set_bit. by rewrite arr_set_val by (simpl; lia).
  - intros q b Hb. simpl. unfold do_bfs_BitmapToQueue.
    destruct (b2q_fold_law N id 0
      (fun lqueue n => b0 ← get_bit b n; Val (if b0 : bool then lqueue ++ [n] else lqueue)) b Hb)
      as (l & Heq & Hl & Hin).
    { intros acc v Hv. simpl. by rewrite bit_get by lia. }
    rewrite fmap_id_nat in Heq. rewrite Heq. exists l. by split_and!.
Qed.

Context (Hdeg : Z.of_nat (length (concat out)) < 2 ^ 62).

Lemma degree_bound u : Z.of_nat (length (nbr out u)) < 2 ^ 62.
Proof.
  unfold nbr. destruct (out !! u) as [l|] eqn:E; [|simpl; lia]. simpl. rewrite length_fmap.
  rewrite (concat_split _ _ _ E), !length_app in Hdeg. lia.
Qed.

Lemma init_distances_spec :
  do_bfs_init_distances g =
  Val ((fun u => if (length (nbr out u) =? 0)%nat then -1 else - Z.of_nat (length (nbr out u)))
       <$> seq 0 N).
Proof.
  apply omp_fill; [by rewrite length_replicate|]. intros u Hu.
  rewrite (out_degree g vs out inn Hr u Hu). bind_step.
  pose proof (degree_bound u). rewrite (i64_id (Z.of_nat _)) by lia.
  destruct (Nat.eqb_spec (length (nbr out u)) 0) as [->|Hne]; [done|].
  rewrite (proj2 (Z.eqb_neq _ _)) by lia. simpl. by rewrite i64_id by lia.
Qed.

Lemma do_bfs_spec root alpha beta :
  (root < N)%nat -> 0 < beta ->
  exists dist k, do_bfs g root alpha beta = Val (dist, k) /\
    (is_timeout (k - 1) = true \/
     length dist = N /\ forall v, (v < N)%nat -> exists x, dist !! v = Some x /\
       ((exists n, hop_dist E root v n /\ x = Z.of_nat n) \/ (~ reachable E root v /\ x < 0))).
Proof.
  intros Hroot Hbeta. unfold do_bfs. rewrite init_distances_spec. bind_step.
  set (dist0 := _ <$> seq 0 N).
  assert (length dist0 = N) as Hl0 by (unfold dist0; by rewrite length_fmap, length_seq).
  assert (forall v, ~ ghost dist0 v) as Hng.
  { intros v (x & Hx & Hpos). unfold dist0 in Hx. rewrite list_lookup_fmap in Hx.
    destruct (seq 0 N !! v) as [u|]; [|done]. simpl in Hx. injection Hx as <-.
    revert Hpos. destruct (Nat.eqb_spec (length (nbr out u)) 0); lia. }
  rewrite arr_set_val by lia. bind_step. unfold q_push_back. simpl.
  rewrite (proj2 (Nat.ltb_lt 0 N)) by lia. bind_step.
  rewrite (out_degree g vs out inn Hr root Hroot). bind_step.
  destruct (bfs_loop_spec N E id (csr_steps g) root dist0 alpha beta) with
    (num_vertices := Z.of_nat N)
    (fuel := (N + 1)%nat) (k := 0%nat) (d := 0%nat) (S := [root]) (W := [root])
    (st := mkBfsState (<[root := 0]> dist0)
       (slide_window (mkQueue [root] N 0 0)) (bm_reset (Bitmap_new N)) (bm_reset (Bitmap_new N))
       (i64 (Z.of_nat (m_num_edges g))) (i64 (Z.of_nat (length (nbr out root)))) 1)
    as (dist & k & Heq & Hk & Hres); try done; try lia.
  - intros p v Hv. by eapply nbr_out_lt.
  - apply csr_laws.
  - apply bfs_inv_init with (enc := id) (steps := csr_steps g); try done; try apply csr_laws; try done. intros p v Hv. by eapply nbr_out_lt.
  - unfold queue_inv. simpl. split_and!; try done; try lia.
    + apply NoDup_singleton.
    + intros v ->%list_elem_of_singleton. exists 0%nat. split; [lia|apply hop_dist_refl].
    + intros v. rewrite list_elem_of_singleton. split; [intros ->; apply hop_dist_refl|].
      intros Hz. by apply hop_dist_zero in Hz.
  - simpl. unfold bm_reset, Bitmap_new. by rewrite !length_replicate.
  - simpl. unfold bm_reset, Bitmap_new. by rewrite !length_replicate.
  - simpl. unfold bm_reset, Bitmap_new. intros v. rewrite length_replicate, bit_replicate. done.
  - exists dist, k. split; [exact Heq|]. destruct Hres as [Ht|[Hl Hv]]; [by left|right].
    split; [done|]. intros v Hvn. destruct (Hv v Hvn) as [[Hg _]|[_ Hx]]; [by apply Hng in Hg|done].
Qed.

(** C1: from an existing vertex the search ends, and unless the timer expires it
    writes for every vertex, in the order of the external identifiers, its
    distance in hops, or the largest integer when the vertex is not reachable;
    whatever the schedule of the parallel loops and the switches between the
    top-down and the bottom-up steps. *)
Theorem bfs_correct (source : Z) (root : nat) :
  m_ext2log g !! source = Some root ->
  (bfs g source = Exn TimeoutError /\ exists k, is_timeout k = true) \/
  exists lines, bfs g source = Val lines /\ length lines = N /\
    forall v ext, vs !! v = Some ext ->
      exists x, lines !! v = Some (ext, x) /\
        ((exists n, hop_dist E root v n /\ x = Z.of_nat n) \/
         (~ reachable E root v /\ x = int64_max)).
Proof.
  intros Hroot. unfold bfs. rewrite Hroot. cbn [at_]. bind_step.
  assert (root < N)%nat as Hlt.
  { apply (cr_mapping _ _ _ _ Hr) in Hroot. rewrite (cr_num_vertices _ _ _ _ Hr).
    by eapply lookup_lt_Some. }
  destruct (do_bfs_spec root 15 18 Hlt ltac:(lia)) as (dist & k & -> & Hres). bind_step.
  destruct (is_timeout k) eqn:Hk; [left; eauto|].
  destruct Hres as [Ht|[Hl Hv]].
  { rewrite (is_timeout_mono (k - 1) k) in Hk by (done || lia). done. }
  rewrite (translate_spec g vs out inn Hr) by done. bind_step.
  destruct (is_timeout (k + 1)) eqn:Hk1; [left; eauto|right].
  pose proof (cr_num_vertices _ _ _ _ Hr) as Hvs.
  eexists. split; [done|]. unfold save_results. rewrite length_fmap, length_zip_with.
  split; [lia|]. intros v ext He.
  destruct (Hv v) as (x & Hx & Hcase); [apply lookup_lt_Some in He; lia|].
  rewrite list_lookup_fmap, lookup_zip_with, He, Hx. simpl.
  destruct Hcase as [(n & Hn & ->)|[Hn Hneg]].
  - rewrite (proj2 (Z.ltb_ge _ _)) by lia. exists (Z.of_nat n). split; [done|]. left. eauto.
  - rewrite (proj2 (Z.ltb_lt _ _)) by lia. exists int64_max. split; [done|]. by right.
Qed.

End bfs_csr.

(** ** Examples *)

Example ex_bfs :
  @bfs omp_sequential no_timeout ex_csr 30 = Val [(10, 1); (20, 2); (30, 0)] /\
  @bfs omp_backwards no_timeout ex_csr 30 = Val [(10, 1); (20, 2); (30, 0)] /\
  @bfs omp_sequential (expires_at 1) ex_csr 30 = Exn TimeoutError /\
  @bfs omp_sequential no_timeout ex_csr 40 = Exn OutOfRange.
Proof. vm_compute. split_and!; reflexivity. Qed.

Lemma ex_coherent : coherent ex_out ex_in.
Proof.
  intros u v. unfold nbr, ex_out, ex_in.
  destruct u as [|[|[|u]]], v as [|[|[|v]]]; simpl;
    rewrite ?elem_of_cons, ?elem_of_nil; try naive_solver lia;
    destruct u, v; simpl; rewrite ?elem_of_nil; naive_solver lia.
Qed.

Lemma bfs_correct_witness :
  exists lines, @bfs omp_backwards no_timeout ex_csr 30 = Val lines /\ length lines = 3%nat.
Proof.
  destruct (@bfs_correct omp_backwards no_timeout ex_csr [10; 20; 30] ex_out ex_in ex_csr_repr
    ex_coherent ltac:(reflexivity) ltac:(reflexivity) 30 2%nat eq_refl)
    as [[_ [k Hk]]|(lines & Hb & Hl & _)]; [discriminate Hk|].
  exists lines. by split.
Defined.
