(* ===== verification/Wcc.v ===== *)
(** The weakly connected components of the GAP benchmark suite, as the drivers
    instantiate them: hooking trees of components over the edges and
    compressing the trees, until no edge hooks. The loop and its two element
    steps are the same in every driver; what differs, the iteration over the
    vertices and the edges, is the interface [WccLaws]. *)

From S2P Require Import Prelude Graphs Gapbs Threads.

(** ** The shared array

    The iterations of the two parallel loops access the labels of the vertices and the
    flag without synchronisation. An iteration is a program of single accesses, and
    those of a loop interleave in any way; that a word is read or written at once, and in
    the order of the program, is all that is asked of the machine. *)

Inductive Access := Load (i : nat) | Store (i x : nat) | SetChange.

Definition answer (a : Access) : Type := match a with Load _ => nat | _ => unit end.

Definition access (fuel : nat) (a : Access) (st : list nat * bool) : res (answer a * (list nat * bool)) :=
  match a with
  | Load i => x ← arr_get st.1 i; Val (x, st)
  | Store i x => comp ← arr_set st.1 i x; Val (tt, (comp, st.2))
  | SetChange => Val (tt, (st.1, true))
  end.

Definition load (i : nat) : prog answer nat := perform (Load i).

Definition store (i x : nat) : prog answer unit := perform (Store i x).

Definition set_change : prog answer unit := perform SetChange.

(** What an iteration reads from the structures that do not change. *)
Definition lift {A} (r : res A) : prog answer A :=
  match r with Val a => Ret a | NoFuel => OutOfFuel | _ => Ub end.

(** The iterations of a parallel loop. *)
Definition parallel `{Omp} (tag : Z) (iterations : list (prog answer unit)) (st : list nat * bool) (fuel : nat) :
    res (list nat * bool) :=
  race access (fun (e : Empty_set) st => st) (omp_turn tag) 0 (st, iterations) fuel.

(** ** The algorithm *)

(** The body of the loop over the edges. *)
Definition hook_edge (u v : nat) : prog answer unit :=
  comp_u ← load u;
  comp_v ← load v;
  if (comp_u =? comp_v)%nat then Ret tt
  else
    let high_comp := Nat.max comp_u comp_v in
    let low_comp := Nat.min comp_u comp_v in
    h ← load high_comp;
    if (high_comp =? h)%nat then
      _ ← set_change;
      store high_comp low_comp
    else Ret tt.

(** The loop over the edges of a vertex. *)
Fixpoint hook_edges (u : nat) (vs : list nat) : prog answer unit :=
  match vs with
  | [] => Ret tt
  | v :: vs => _ ← hook_edge u v; hook_edges u vs
  end.

(** [while(comp[n] != comp[comp[n]]) comp[n] = comp[comp[n]]] *)
Fixpoint compress_vertex (n fuel : nat) : prog answer unit :=
  match fuel with
  | O => OutOfFuel
  | S fuel =>
    c ← load n;
    c' ← load n;
    cc ← load c';
    if (c =? cc)%nat then Ret tt
    else
      c ← load n;
      cc ← load c;
      _ ← store n cc;
      compress_vertex n fuel
  end.

(** The two loops over the vertices: at most 5 accesses for an edge, and 6 for a round of
    the compression. *)
Definition hook_pass_of `{Omp} (hook_vertex : nat -> prog answer unit) (N num_edges k : nat) (comp : list nat) : res (list nat * bool) :=
  parallel (2 * Z.of_nat k) (hook_vertex <$> seq 0 N) (comp, false) (N * (5 * num_edges + 1)).

Definition compress_pass_of `{Omp} (N k : nat) (comp : list nat) : res (list nat) :=
  st ← parallel (2 * Z.of_nat k + 1) ((fun n => compress_vertex n (N + 1)) <$> seq 0 N) (comp, false) (N * (6 * (N + 1) + 1));
  Val st.1.

(** The outer loop: the two passes get the number of the iteration, as the tag
    of their schedule. *)
Fixpoint wcc_loop `{Timer} (hook_pass : nat -> list nat -> res (list nat * bool))
    (compress_pass : nat -> list nat -> res (list nat)) (change : bool) (comp : list nat)
    (k fuel : nat) : res (list nat * nat) :=
  match fuel with
  | O => NoFuel
  | S fuel =>
    if negb change then Val (comp, k)
    else if is_timeout k then Val (comp, S k)
    else
      '(comp, change) ← hook_pass k comp;
      comp ← compress_pass k comp;
      wcc_loop hook_pass compress_pass change comp (S k) fuel
  end.

(** ** Invariants *)

Section wcc.
Context (N : nat) (E : nat -> nat -> Prop).

(** Every label is at most its vertex and in its component. *)
Definition wcc_inv (comp : list nat) : Prop :=
  length comp = N /\ forall n c, comp !! n = Some c -> (c <= n)%nat /\ connected E n c.

Definition is_root (comp : list nat) (n : nat) : Prop := comp !! n = Some n.

#[local] Instance is_root_dec comp n : Decision (is_root comp n).
Proof. unfold is_root. apply _. Defined.

Definition roots (comp : list nat) : nat := length (filter (is_root comp) (seq 0 N)).

(** Every tree is a star. *)
Definition compressed (comp : list nat) : Prop := forall n c, comp !! n = Some c -> is_root comp c.

Lemma filter_length_le {A} (P Q : A -> Prop) `{!forall x, Decision (P x), !forall x, Decision (Q x)} l :
  (forall x, P x -> Q x) -> (length (filter P l) <= length (filter Q l))%nat.
Proof.
  intros HPQ. induction l as [|x l IH]; [done|]. rewrite !filter_cons.
  destruct (decide (P x)) as [Hp|]; [rewrite decide_True by auto; simpl; lia|].
  case_decide; simpl; lia.
Qed.

Lemma filter_length_lt {A} (P Q : A -> Prop) `{!forall x, Decision (P x), !forall x, Decision (Q x)} l x :
  (forall x, P x -> Q x) -> x ∈ l -> Q x -> ~ P x ->
  (length (filter P l) < length (filter Q l))%nat.
Proof.
  intros HPQ Hx HQ HP. induction Hx as [l|y x l Hx IH]; rewrite !filter_cons.
  - rewrite decide_False, decide_True by done. pose proof (filter_length_le P Q l0 HPQ). simpl. lia.
  - specialize (IH HQ HP). destruct (decide (P _)) as [Hp|]; [rewrite decide_True by auto; simpl; lia|].
    case_decide; simpl; lia.
Qed.

Lemma roots_le comp : (roots comp <= N)%nat.
Proof.
  unfold roots. rewrite <- (length_seq N 0) at 2. apply length_filter.
Qed.

(** ** The laws of the passes *)

Record WccLaws (hook_pass : nat -> list nat -> res (list nat * bool))
    (compress_pass : nat -> list nat -> res (list nat)) : Prop := {
  hook_law : forall k comp, wcc_inv comp ->
    exists comp' ch, hook_pass k comp = Val (comp', ch) /\ wcc_inv comp' /\
      (ch = true -> (roots comp' < roots comp)%nat) /\
      (ch = false -> comp' = comp /\
         forall u v, E u v -> comp !! u = comp !! v \/
           exists c, (comp !! u = Some c \/ comp !! v = Some c) /\ ~ is_root comp c);
  compress_law : forall k comp, wcc_inv comp ->
    exists comp', compress_pass k comp = Val comp' /\ wcc_inv comp' /\ compressed comp' /\
      roots comp' = roots comp /\ (compressed comp -> comp' = comp);
}.

(** The label of every vertex is the least vertex of its component. *)
Definition wcc_result (comp : list nat) : Prop :=
  length comp = N /\
  forall n, (n < N)%nat -> exists c, comp !! n = Some c /\ connected E n c /\
    forall m, (m < N)%nat -> connected E n m -> (c <= m)%nat.

Lemma wcc_final comp :
  wcc_inv comp -> (forall u v, E u v -> comp !! u = comp !! v) -> wcc_result comp.
Proof.
  intros [Hl Hc] HE. split; [done|]. intros n Hn.
  destruct (lookup_lt_is_Some_2 comp n) as [c Hcn]; [lia|]. exists c.
  split; [done|]. split; [by apply (Hc n c)|]. intros m Hm Hnm.
  assert (comp !! m = Some c) as Hcm.
  { rewrite <- Hcn. symmetry. by apply (connected_label E (fun n => comp !! n)). }
  by apply (Hc m c).
Qed.

Lemma wcc_loop_spec `{Timer} hook_pass compress_pass fuel comp ch k :
  WccLaws hook_pass compress_pass -> wcc_inv comp -> compressed comp ->
  (ch = false -> forall u v, E u v -> comp !! u = comp !! v) ->
  (roots comp + (if ch then 1 else 0) < fuel)%nat ->
  exists comp' k', wcc_loop hook_pass compress_pass ch comp k fuel = Val (comp', k') /\
    length comp' = N /\ (is_timeout k' = true \/ wcc_result comp').
Proof.
  intros [Hhook Hcomp]. revert comp ch k.
  induction fuel as [|fuel IH]; intros comp ch k Hinv Hcmp Hch Hfuel; [lia|].
  cbn [wcc_loop]. destruct ch; cbn [negb].
  2: { eexists _, _. split; [done|]. split; [apply Hinv|]. right. apply wcc_final; auto. }
  destruct (is_timeout k) eqn:Ht.
  { eexists _, _. split; [done|]. split; [apply Hinv|]. left.
    apply (is_timeout_mono k); [lia|done]. }
  destruct (Hhook k comp Hinv) as (comp1 & ch1 & -> & Hinv1 & Htrue & Hfalse). bind_step.
  destruct (Hcomp k comp1 Hinv1) as (comp2 & -> & Hinv2 & Hcmp2 & Hr2 & Hsame). bind_step.
  apply IH; try done.
  - intros ->. destruct (Hfalse eq_refl) as [-> Hedges]. rewrite Hsame by done.
    intros u v Huv. destruct (Hedges u v Huv) as [Heq|(c & [Hx|Hx] & Hn)]; [done| |];
      destruct Hn; by eapply Hcmp.
  - destruct ch1; [specialize (Htrue eq_refl); lia|].
    destruct (Hfalse eq_refl) as [-> _]. rewrite Hr2. lia.
Qed.

Lemma wcc_init : wcc_inv (seq 0 N) /\ compressed (seq 0 N).
Proof.
  split.
  - split; [apply length_seq|]. intros n c [-> _]%lookup_seq. split; [simpl; lia|constructor].
  - intros n c [-> Hn]%lookup_seq. unfold is_root. by rewrite lookup_seq_lt.
Qed.

(** ** Discharging the laws *)

(** *** Hooking

    What is left of an iteration, between two of its accesses. *)

Definition hook_unequal (cu cv : nat) : prog answer unit :=
  if (cu =? cv)%nat then Ret tt
  else h ← load (Nat.max cu cv); if (Nat.max cu cv =? h)%nat then _ ← set_change; store (Nat.max cu cv) (Nat.min cu cv) else Ret tt.

Section hooking.
Context (out : nat -> list nat) (comp0 : list nat) (Hinv0 : wcc_inv comp0).
Context (Hout : forall u v, v ∈ out u -> E u v /\ (u < N)%nat /\ (v < N)%nat).

(** The edge does not hook, as far as the labels at the start of the pass tell. *)
Definition settled (u v : nat) : Prop :=
  comp0 !! u = comp0 !! v \/ exists c, (comp0 !! u = Some c \/ comp0 !! v = Some c) /\ ~ is_root comp0 c.

(** [ms] tells which iterations have set the flag and are about to hook. *)
Definition hook_inv (st : list nat * bool) (ms : list bool) : Prop :=
  wcc_inv st.1 /\ (forall x, is_root st.1 x -> is_root comp0 x) /\ (st.2 = false -> st.1 = comp0 /\ true ∉ ms) /\
  (st.2 = true -> true ∈ ms \/ exists x, is_root comp0 x /\ ~ is_root st.1 x).

(** A label that has been read. *)
Definition seen (st : list nat * bool) (u c : nat) : Prop :=
  (c < N)%nat /\ connected E u c /\ (st.2 = false -> comp0 !! u = Some c).

Inductive hooking (st : list nat * bool) (u : nat) : bool -> nat -> prog answer unit -> Prop :=
  | hooking_edges vs todo n : out u = vs ++ todo -> (st.2 = false -> forall v, v ∈ vs -> settled u v) ->
      (5 * length todo <= n)%nat -> hooking st u false n (hook_edges u todo)
  | hooking_v vs v todo cu n : out u = vs ++ v :: todo -> (st.2 = false -> forall v, v ∈ vs -> settled u v) ->
      seen st u cu -> (5 * length todo + 4 <= n)%nat ->
      hooking st u false n ((cv ← load v; hook_unequal cu cv) ≫= fun _ => hook_edges u todo)
  | hooking_high vs v todo cu cv n : out u = vs ++ v :: todo -> (st.2 = false -> forall v, v ∈ vs -> settled u v) ->
      seen st u cu -> seen st v cv -> (5 * length todo + 3 <= n)%nat ->
      hooking st u false n (hook_unequal cu cv ≫= fun _ => hook_edges u todo)
  | hooking_flag vs v todo cu cv n : out u = vs ++ v :: todo -> seen st u cu -> seen st v cv -> cu <> cv ->
      is_root comp0 (Nat.max cu cv) -> (5 * length todo + 2 <= n)%nat ->
      hooking st u false n ((_ ← set_change; store (Nat.max cu cv) (Nat.min cu cv)) ≫= fun _ => hook_edges u todo)
  | hooking_store vs v todo cu cv n : out u = vs ++ v :: todo -> seen st u cu -> seen st v cv -> cu <> cv ->
      is_root comp0 (Nat.max cu cv) -> st.2 = true -> (5 * length todo + 1 <= n)%nat ->
      hooking st u true n (store (Nat.max cu cv) (Nat.min cu cv) ≫= fun _ => hook_edges u todo).

Lemma seen_stable st st' u c : (st'.2 = false -> st.2 = false) -> seen st u c -> seen st' u c.
Proof. intros Hst (? & ? & Hc). split; [done|]. split; [done|]. auto. Qed.

Lemma hooking_stable st st' u m n p : (st'.2 = false -> st.2 = false) -> hooking st u m n p -> hooking st' u m n p.
Proof.
  intros Hst Hp. destruct Hp; econstructor; eauto using seen_stable.
  destruct (st'.2) eqn:E'; [done|]. specialize (Hst eq_refl). congruence.
Qed.

Lemma hook_load st ms u x : hook_inv st ms -> st.1 !! u = Some x -> seen st u x.
Proof.
  intros ([Hl Hc] & _ & Hfalse & _) Hx. destruct (Hc u x Hx) as [Hle Hcon]. split.
  - apply lookup_lt_Some in Hx. lia.
  - split; [done|]. intros Hst. by destruct (Hfalse Hst) as [<- _].
Qed.

Lemma hook_settled st u cu v cv h : (st.2 = false -> st.1 = comp0) -> seen st u cu -> seen st v cv ->
  cu = cv \/ (st.1 !! Nat.max cu cv = Some h /\ Nat.max cu cv <> h) -> st.2 = false -> settled u v.
Proof.
  intros Hst (_ & _ & Hu) (_ & _ & Hv) Hcase Hf. rewrite (Hst Hf) in Hcase. specialize (Hu Hf). specialize (Hv Hf).
  destruct Hcase as [->|[Hh Hne]]; [left; congruence|right]. exists (Nat.max cu cv).
  split; [destruct (Nat.max_spec cu cv) as [[_ ->]|[_ ->]]; auto|]. unfold is_root. congruence.
Qed.

(** The store: a root gets a label of its component that is less. *)
Lemma hook_store st ms u vs v todo cu cv : hook_inv st ms -> out u = vs ++ v :: todo -> seen st u cu -> seen st v cv -> cu <> cv ->
  is_root comp0 (Nat.max cu cv) -> st.2 = true ->
  exists comp', arr_set st.1 (Nat.max cu cv) (Nat.min cu cv) = Val comp' /\ forall ms', hook_inv (comp', true) ms'.
Proof.
  intros ([Hl Hc] & Hroots & _) Ho (Hu & Hucon & _) (Hv & Hvcon & _) Hne Hroot Hst.
  assert (connected E u v) as Huv. { apply connected_edge, Hout. rewrite Ho. apply elem_of_app. right. apply list_elem_of_here. }
  assert (connected E cu cv) as Hcc by (transitivity u; [by symmetry|by transitivity v]).
  assert (connected E (Nat.max cu cv) (Nat.min cu cv)) as Hhl.
  { destruct (Nat.le_gt_cases cu cv); [rewrite Nat.max_r, Nat.min_l by lia; by symmetry|by rewrite Nat.max_l, Nat.min_r by lia]. }
  rewrite arr_set_val by lia. eexists. split; [done|]. intros ms'.
  assert (~ is_root (<[Nat.max cu cv := Nat.min cu cv]> st.1) (Nat.max cu cv)) as Hno.
  { unfold is_root. rewrite list_lookup_insert_eq by lia. intros [= ?]. lia. }
  split; [|split; [|split; [done|intros _; right; by exists (Nat.max cu cv)]]]; cbn [fst].
  - split; [by rewrite length_insert|]. intros n c Hn. destruct (decide (Nat.max cu cv = n)) as [<-|Hnn].
    + rewrite list_lookup_insert_eq in Hn by lia. simplify_eq. split; [lia|done].
    + rewrite list_lookup_insert_ne in Hn by done. by apply Hc.
  - intros x Hx. destruct (decide (Nat.max cu cv = x)) as [<-|Hnn]; [done|]. apply Hroots.
    unfold is_root in *. by rewrite list_lookup_insert_ne in Hx by done.
Qed.

Definition hook_step_ok (st : list nat * bool) (ms : list bool) (u n : nat) (op : Access) (k : answer op -> prog answer unit) : Prop :=
  exists x st' m' n', n = S n' /\ settles (fun fuel => access fuel op st) (Val (x, st')) /\
    hook_inv st' (<[u := m']> ms) /\ hooking st' u m' n' (k x) /\
    forall j mj nj q, j <> u -> ms !! j = Some mj -> hooking st j mj nj q -> hooking st' j mj nj q.

Lemma hook_load_ok st ms u v n k : hook_inv st ms -> ms !! u = Some false -> (v < N)%nat ->
  (forall x, st.1 !! v = Some x -> seen st v x -> exists n', n = S n' /\ hooking st u false n' (k x)) ->
  hook_step_ok st ms u n (Load v) k.
Proof.
  intros HI Hm Hv Hk. destruct (lookup_lt_is_Some_2 st.1 v) as [x Hx]; [destruct HI as [[Hl _] _]; lia|].
  destruct (Hk x Hx (hook_load st ms v x HI Hx)) as (n' & -> & Hp). exists x, st, false, n'. split; [done|]. split.
  - exists 0%nat. intros fuel _. cbn [access]. by rewrite (arr_get_val _ _ _ Hx).
  - split; [by rewrite list_insert_id|]. by split.
Qed.

Lemma hooking_step st ms u m n p : hook_inv st ms -> ms !! u = Some m -> hooking st u m n p ->
  match p with
  | Ret _ => True
  | Do op k => hook_step_ok st ms u n op k
  | Ub | OutOfFuel => False
  end.
Proof.
  intros HI Hm Hp. pose proof HI as ([Hl Hc] & Hroots & Hfalse & Htrue).
  assert (st.2 = false -> st.1 = comp0) as Hst by (intros Hf; by apply Hfalse).
  assert (forall vs v todo, out u = vs ++ v :: todo -> (u < N)%nat /\ (v < N)%nat) as Hedge.
  { intros vs v todo Ho. apply (Hout u v). rewrite Ho. apply elem_of_app. right. apply list_elem_of_here. }
  assert (forall vs v todo, out u = vs ++ v :: todo -> (st.2 = false -> forall v, v ∈ vs -> settled u v) ->
    (st.2 = false -> settled u v) -> forall n', (5 * length todo <= n')%nat -> hooking st u false n' (hook_edges u todo)) as Hnext.
  { intros vs v todo Ho Hs Hsv n' Hn'. apply (hooking_edges _ _ (vs ++ [v])); [by rewrite <- app_assoc| |done].
    intros Hf w [Hw| ->%list_elem_of_singleton]%elem_of_app; auto. }
  assert (forall vs todo n, ms !! u = Some false -> hooking st u false n (hook_edges u todo) -> out u = vs ++ todo ->
    (st.2 = false -> forall v, v ∈ vs -> settled u v) -> (5 * length todo <= n)%nat ->
    match hook_edges u todo with Ret _ => True | Do op k => hook_step_ok st ms u n op k | _ => False end) as Hfirst.
  { intros vs [|v todo] n0 Hm0 _ Ho Hs Hn; [done|]. apply hook_load_ok; [done|done|by apply (Hedge vs v todo)|].
    intros x Hx Hsx. exists (pred n0). cbn [length] in Hn. split; [lia|]. apply (hooking_v _ _ vs v todo x); [done..|lia]. }
  destruct Hp as [vs todo n Ho Hs Hn|vs v todo cu n Ho Hs Hu Hn|vs v todo cu cv n Ho Hs Hu Hv Hn|vs v todo cu cv n Ho Hu Hv Hne Hr Hn|
    vs v todo cu cv n Ho Hu Hv Hne Hr Hf Hn].
  - by apply (Hfirst vs); [|constructor 1 with vs|..].
  - apply hook_load_ok; [done|done|by apply (Hedge vs v todo)|].
    intros x Hx Hsx. exists (pred n). split; [lia|]. apply (hooking_high _ _ vs v todo cu x); [done..|lia].
  - unfold hook_unequal. destruct (Nat.eqb_spec cu cv) as [->|Hne].
    + cbn. apply (Hfirst (vs ++ [v])); [done| | | |lia].
      * apply (Hnext vs v todo); [done|done| |lia]. intros Hf. by apply (hook_settled st u cv v cv 0%nat); auto.
      * by rewrite <- app_assoc.
      * intros Hf w [Hw| ->%list_elem_of_singleton]%elem_of_app; [by auto|]. by apply (hook_settled st u cv v cv 0%nat); auto.
    + apply hook_load_ok; [done|done|destruct Hu, Hv; lia|]. intros h Hh Hsh. exists (pred n). split; [lia|].
      cbn beta. destruct (Nat.eqb_spec (Nat.max cu cv) h) as [<-|Hnh].
      * apply (hooking_flag _ _ vs v todo cu cv); [done..|by apply Hroots|lia].
      * apply (Hnext vs v todo); [done|done| |lia]. by apply (hook_settled st u cu v cv h); auto.
  - eexists tt, (st.1, true), true, (pred n). split; [lia|]. split; [exists 0%nat; intros fuel _; done|].
    split; [|split; [|intros j mj nj q _ _; by apply hooking_stable]].
    + split; [done|]. split; [done|]. split; [done|]. intros _. left. apply list_elem_of_lookup. exists u.
      apply list_lookup_insert_eq. by eapply lookup_lt_Some.
    + apply (hooking_store _ _ vs v todo cu cv); [done|by apply (seen_stable st)..|done|done|done|lia].
  - destruct (hook_store st ms u vs v todo cu cv) as (comp' & Harr & HI'); [done..|].
    eexists tt, (comp', true), false, (pred n). split; [lia|]. split; [exists 0%nat; intros fuel _; cbn [access]; rewrite Harr; by rewrite Hf|].
    split; [apply HI'|]. split; [|intros j mj nj q _ _; by apply hooking_stable].
    apply (hooking_edges _ _ (vs ++ [v])); [by rewrite <- app_assoc|done|lia].
Qed.

Lemma hooking_finished st u m n : (st.2 = false -> st.1 = comp0) -> hooking st u m n (Ret tt) ->
  m = false /\ (st.2 = false -> forall v, v ∈ out u -> settled u v).
Proof.
  intros Hst Hp. remember (Ret tt) as p eqn:Ep.
  destruct Hp as [vs todo n Ho Hs Hn|vs v todo cu n Ho Hs Hu Hn|vs v todo cu cv n Ho Hs Hu Hv Hn|vs v todo cu cv n Ho Hu Hv Hne Hr Hn|
    vs v todo cu cv n Ho Hu Hv Hne Hr Hf Hn]; [|done| |done..].
  - destruct todo; [|done]. rewrite app_nil_r in Ho. split; [done|]. by rewrite Ho.
  - unfold hook_unequal in Ep. destruct (Nat.eqb_spec cu cv) as [->|]; [|done]. destruct todo; [|done]. split; [done|].
    intros Hf w. rewrite Ho. intros [Hw| ->%list_elem_of_singleton]%elem_of_app; [by auto|].
    by apply (hook_settled st u cv v cv 0%nat); auto.
Qed.

Lemma hook_pass_law `{Omp} hook_vertex num_edges k :
  (forall u, (u < N)%nat -> hook_vertex u = hook_edges u (out u)) -> (forall u, (u < N)%nat -> (length (out u) <= num_edges)%nat) ->
  exists comp' ch, hook_pass_of hook_vertex N num_edges k comp0 = Val (comp', ch) /\ wcc_inv comp' /\
    (ch = true -> (roots comp' < roots comp0)%nat) /\
    (ch = false -> comp' = comp0 /\ forall u v, (u < N)%nat -> v ∈ out u -> settled u v).
Proof.
  intros Hprog Hnum. unfold hook_pass_of, parallel.
  set (threads := hook_vertex <$> seq 0 N).
  assert (length threads = N) as Hlen by (unfold threads; by rewrite length_fmap, length_seq).
  destruct (race_finishes access (fun (e : Empty_set) st => st) hook_inv (fun st u m n p => hooking st u m n p))
    with (oracle := omp_turn (2 * Z.of_nat k)) (fuel := (N * (5 * num_edges + 1))%nat) (turn := 0%nat)
      (s := (comp0, false)) (threads := threads) (ms := replicate N false) (ns := replicate N (5 * num_edges)%nat)
    as ([comp' ch] & threads' & ms' & ns' & -> & (HI & Hms & Hns & HW) & Hlen' & Hfin).
  - intros s ms i m n p HI Hm Hp. exact (hooking_step s ms i m n p HI Hm Hp).
  - done.
  - done.
  - done.
  - split; [|split; [by rewrite length_replicate|split; [by rewrite length_replicate|]]].
    + split; [done|]. split; [done|]. split; [|done]. intros _. split; [done|]. intros [i [Hi _]%lookup_replicate]%list_elem_of_lookup. done.
    + intros i m n p [-> Hi]%lookup_replicate [-> _]%lookup_replicate Hp. unfold threads in Hp.
      rewrite list_lookup_fmap, lookup_seq_lt in Hp by done. injection Hp as <-. cbn. rewrite Hprog by done.
      apply (hooking_edges _ _ []); [done| |specialize (Hnum i Hi); lia]. intros _ v Hv. by apply elem_of_nil in Hv.
  - rewrite <- Hlen at 1. etrans; [apply cost_replicate|]. rewrite Hlen. lia.
  - destruct HI as (Hinv & Hroots & Hfalse & Htrue). exists comp', ch. split; [done|]. split; [done|].
    assert (forall i, (i < N)%nat -> exists m n, ms' !! i = Some m /\ hooking (comp', ch) i m n (Ret tt)) as Hret.
    { intros i Hi. destruct (lookup_lt_is_Some_2 threads' i) as [p Hp]; [lia|]. destruct (Hfin i p Hp) as [[] ->].
      destruct (lookup_lt_is_Some_2 ms' i) as [m Hm]; [lia|]. destruct (lookup_lt_is_Some_2 ns' i) as [n Hn]; [lia|].
      exists m, n. split; [done|]. by apply HW. }
    split.
    + intros ->. destruct (Htrue eq_refl) as [[i Hi]%list_elem_of_lookup|(x & Hx & Hno)].
      * destruct (Hret i) as (m & n & Hm & Hp); [apply lookup_lt_Some in Hi; lia|]. rewrite Hi in Hm. injection Hm as <-.
        by apply hooking_finished in Hp as [].
      * apply (filter_length_lt _ _ _ x); [done|apply elem_of_seq|done..]. apply lookup_lt_Some in Hx. destruct Hinv0. lia.
    + intros ->. destruct (Hfalse eq_refl) as [E0 _]. cbn in E0. subst comp'. split; [done|]. intros u v Hu Hv.
      destruct (Hret u Hu) as (m & n & _ & Hp). apply hooking_finished in Hp as [_ Hs]; [by apply Hs|done].
Qed.
End hooking.

(** *** Compression *)

Definition compress_rest (n c cc fuel : nat) : prog answer unit :=
  if (c =? cc)%nat then Ret tt else c ← load n; cc ← load c; _ ← store n cc; compress_vertex n fuel.

Section compressing.
Context (comp0 : list nat) (Hinv0 : wcc_inv comp0).

Definition compress_inv (st : list nat * bool) (ms : list unit) : Prop :=
  wcc_inv st.1 /\ (forall m, is_root st.1 m <-> is_root comp0 m) /\ (compressed comp0 -> st.1 = comp0).

Inductive compressing (st : list nat * bool) (n : nat) : nat -> prog answer unit -> Prop :=
  | compressing_loop c fuel k : st.1 !! n = Some c -> (c < fuel)%nat -> (6 * fuel <= k)%nat ->
      compressing st n k (compress_vertex n fuel)
  | compressing_c c fuel k : st.1 !! n = Some c -> (c <= fuel)%nat -> (6 * fuel + 5 <= k)%nat ->
      compressing st n k (c' ← load n; cc ← load c'; compress_rest n c cc fuel)
  | compressing_cc c fuel k : st.1 !! n = Some c -> (c <= fuel)%nat -> (6 * fuel + 4 <= k)%nat ->
      compressing st n k (cc ← load c; compress_rest n c cc fuel)
  | compressing_rest c cc fuel k : st.1 !! n = Some c -> (c <= fuel)%nat -> (c = cc <-> is_root comp0 c) -> (6 * fuel + 3 <= k)%nat ->
      compressing st n k (compress_rest n c cc fuel)
  | compressing_parent c fuel k : st.1 !! n = Some c -> (c <= fuel)%nat -> ~ is_root comp0 c -> (6 * fuel + 2 <= k)%nat ->
      compressing st n k (cc ← load c; _ ← store n cc; compress_vertex n fuel)
  | compressing_store c cc fuel k : st.1 !! n = Some c -> (c <= fuel)%nat -> ~ is_root comp0 c -> (cc < c)%nat -> connected E c cc ->
      (6 * fuel + 1 <= k)%nat -> compressing st n k (_ ← store n cc; compress_vertex n fuel).

Lemma compressing_stable st st' n k p : st'.1 !! n = st.1 !! n -> compressing st n k p -> compressing st' n k p.
Proof. intros Hst Hp. destruct Hp; econstructor; rewrite ?Hst; eauto. Qed.

Definition compress_step_ok (st : list nat * bool) (ms : list unit) (u n : nat) (op : Access) (k : answer op -> prog answer unit) : Prop :=
  exists x st' m' n', n = S n' /\ settles (fun fuel => access fuel op st) (Val (x, st')) /\
    compress_inv st' (<[u := m']> ms) /\ compressing st' u n' (k x) /\
    forall j (mj : unit) nj q, j <> u -> ms !! j = Some mj -> compressing st j nj q -> compressing st' j nj q.

Lemma compress_load_ok st ms u v (x : nat) n k : compress_inv st ms -> st.1 !! v = Some x ->
  (exists n', n = S n' /\ compressing st u n' (k x)) -> compress_step_ok st ms u n (Load v) k.
Proof.
  intros HI Hx (n' & -> & Hp). exists x, st, tt, n'. split; [done|]. split.
  - exists 0%nat. intros fuel _. cbn [access]. by rewrite (arr_get_val _ _ _ Hx).
  - by split.
Qed.

Lemma compressing_step st ms u (m : unit) n p : compress_inv st ms -> ms !! u = Some m -> compressing st u n p ->
  match p with
  | Ret _ => True
  | Do op k => compress_step_ok st ms u n op k
  | Ub | OutOfFuel => False
  end.
Proof.
  intros HI Hm Hp. pose proof HI as ([Hl Hc] & Hroots & Hsame).
  destruct Hp as [c fuel k Hu Hf Hk|c fuel k Hu Hf Hk|c fuel k Hu Hf Hk|c cc fuel k Hu Hf Hr Hk|c fuel k Hu Hf Hr Hk|c cc fuel k Hu Hf Hr Hlt Hcon Hk].
  all: pose proof (lookup_lt_Some _ _ _ Hu) as HuN; destruct (Hc u c Hu) as [Hle Huc];
    destruct (lookup_lt_is_Some_2 st.1 c) as [x Hx]; [lia|]; destruct (Hc c x Hx) as [Hxc Hcx].
  - destruct fuel as [|fuel]; [lia|]. apply (compress_load_ok st ms u u c); [done..|]. exists (pred k). split; [lia|].
    apply (compressing_c st u c fuel); [done|lia..].
  - apply (compress_load_ok st ms u u c); [done..|]. exists (pred k). split; [lia|].
    apply (compressing_cc st u c fuel); [done|lia..].
  - apply (compress_load_ok st ms u c x); [done..|]. exists (pred k). split; [lia|].
    apply (compressing_rest st u c x fuel); [done|lia| |lia]. rewrite <- Hroots. unfold is_root. rewrite Hx. split; congruence.
  - unfold compress_rest. destruct (Nat.eqb_spec c cc) as [->|Hne]; [done|].
    apply (compress_load_ok st ms u u c); [done..|]. exists (pred k). split; [lia|].
    apply (compressing_parent st u c fuel); [done|lia| |lia]. intros Hroot. by apply Hne, Hr.
  - apply (compress_load_ok st ms u c x); [done..|]. exists (pred k). split; [lia|].
    apply (compressing_store st u c x fuel); [done|lia|done| |done|lia].
    rewrite <- Hroots in Hr. unfold is_root in Hr. destruct (decide (x = c)) as [->|]; [done|lia].
  - eexists tt, (<[u := cc]> st.1, st.2), tt, (pred k). split; [lia|]. split.
    { exists 0%nat. intros fuel' _. cbn [access]. by rewrite arr_set_val by done. }
    assert (c <> u) as Hcu. { intros ->. apply Hr, Hroots. done. }
    split; [|split].
    + split; [|split].
      * split; [cbn; by rewrite length_insert|]. intros m' d Hd. cbn [fst] in Hd. destruct (decide (u = m')) as [<-|Hne].
        -- rewrite list_lookup_insert_eq in Hd by done. simplify_eq. split; [lia|]. by transitivity c.
        -- rewrite list_lookup_insert_ne in Hd by done. by apply Hc.
      * intros m'. rewrite <- Hroots. unfold is_root. cbn [fst]. destruct (decide (u = m')) as [<-|Hne].
        -- rewrite list_lookup_insert_eq by done. rewrite Hu. split; intros [= ?]; lia.
        -- by rewrite list_lookup_insert_ne.
      * intros Hcomp. exfalso. specialize (Hsame Hcomp). rewrite Hsame in Hu. by apply Hr, (Hcomp u c).
    + apply (compressing_loop _ u cc fuel); [by apply list_lookup_insert_eq|lia..].
    + intros j mj nj q Hj _. apply compressing_stable. cbn. by rewrite list_lookup_insert_ne.
Qed.

Lemma compressing_finished st n k : compress_inv st [] -> compressing st n k (Ret tt) -> exists c, st.1 !! n = Some c /\ is_root st.1 c.
Proof.
  intros (_ & Hroots & _) Hp. remember (Ret tt) as p eqn:Ep.
  destruct Hp as [c fuel k Hu Hf Hk|c fuel k Hu Hf Hk|c fuel k Hu Hf Hk|c cc fuel k Hu Hf Hr Hk|c fuel k Hu Hf Hr Hk|c cc fuel k Hu Hf Hr Hlt Hcon Hk];
    [destruct fuel; [lia|done]|done|done| |done|done].
  unfold compress_rest in Ep. destruct (Nat.eqb_spec c cc) as [Heq|]; [|done]. exists c. split; [done|]. by apply Hroots, Hr.
Qed.

Lemma compress_pass_law `{Omp} k :
  exists comp', compress_pass_of N k comp0 = Val comp' /\ wcc_inv comp' /\ compressed comp' /\ roots comp' = roots comp0 /\
    (compressed comp0 -> comp' = comp0).
Proof.
  unfold compress_pass_of, parallel. set (threads := (fun n => compress_vertex n (N + 1)) <$> seq 0 N).
  assert (length threads = N) as Hlen by (unfold threads; by rewrite length_fmap, length_seq).
  destruct (race_finishes access (fun (e : Empty_set) st => st) compress_inv (fun st u (m : unit) n p => compressing st u n p))
    with (oracle := omp_turn (2 * Z.of_nat k + 1)) (fuel := (N * (6 * (N + 1) + 1))%nat) (turn := 0%nat)
      (s := (comp0, false)) (threads := threads) (ms := replicate N tt) (ns := replicate N (6 * (N + 1))%nat)
    as ([comp' ch] & threads' & ms' & ns' & -> & (HI & Hms & Hns & HW) & Hlen' & Hfin).
  - intros s ms i m n p HI Hm Hp. exact (compressing_step s ms i m n p HI Hm Hp).
  - done.
  - done.
  - done.
  - split; [|split; [by rewrite length_replicate|split; [by rewrite length_replicate|]]].
    + split; [done|]. by split.
    + intros i m n p [-> Hi]%lookup_replicate [-> _]%lookup_replicate Hp. unfold threads in Hp.
      rewrite list_lookup_fmap, lookup_seq_lt in Hp by done. injection Hp as <-. cbn.
      destruct (lookup_lt_is_Some_2 comp0 i) as [c Hc]; [destruct Hinv0; lia|].
      apply (compressing_loop _ i c); [done| |lia]. destruct Hinv0 as [_ Hle]. destruct (Hle i c Hc). lia.
  - rewrite <- Hlen at 1. etrans; [apply cost_replicate|]. rewrite Hlen. lia.
  - rewrite res_bind_Val_l. exists comp'. split; [done|]. pose proof HI as (Hinv & Hroots & Hsame). split; [done|]. split; [|split; [|done]].
    + intros n c Hn. assert (n < N)%nat as HnN by (apply lookup_lt_Some in Hn; destruct Hinv; cbn in *; lia).
      destruct (lookup_lt_is_Some_2 threads' n) as [p Hp]; [lia|]. destruct (Hfin n p Hp) as [[] ->].
      destruct (lookup_lt_is_Some_2 ms' n) as [m Hm]; [lia|]. destruct (lookup_lt_is_Some_2 ns' n) as [j Hj]; [lia|].
      pose proof (HW n m j _ Hm Hj Hp) as Hw. apply compressing_finished in Hw as (d & Hd & Hr); [|done]. cbn in Hd, Hr. by simplify_eq.
    + unfold roots. assert (filter (is_root comp') (seq 0 N) = filter (is_root comp0) (seq 0 N)) as ->; [|done].
      apply list_filter_iff. intros n. apply Hroots.
Qed.
End compressing.
End wcc.
