(* ===== verification/CsrWcc.v ===== *)
(** The weakly connected components of [library/baseline/csr.cpp]. *)

From S2P Require Import Prelude Graphs Gapbs Threads Wcc Csr.

(** The destinations of the outgoing edges, which no thread changes. *)
Definition destinations (g : CSR) (u : nat) : res (list nat) :=
  '(first, second) ← get_out_interval g u;
  res_fold (fun vs i => v ← arr_get (m_out_e g) i; Val (vs ++ [v])) [] (seq first (second - first)).

(** Hook a vertex over its outgoing edges. *)
Definition hook_vertex (g : CSR) (u : nat) : prog answer unit := vs ← lift (destinations g u); hook_edges u vs.

Definition hook_pass `{Omp} (g : CSR) : nat -> list nat -> res (list nat * bool) :=
  hook_pass_of (hook_vertex g) (m_num_vertices g) (length (m_out_e g)).

Definition compress_pass `{Omp} (g : CSR) : nat -> list nat -> res (list nat) := compress_pass_of (m_num_vertices g).

Definition do_wcc `{Omp, Timer} (g : CSR) : res (list nat * nat) :=
  comp ← res_fold (fun comp n => x ← Val n; arr_set comp n x)
    (replicate (m_num_vertices g) 0%nat) (omp_order 0 (seq 0 (m_num_vertices g)));
  wcc_loop (hook_pass g) (compress_pass g) true comp 0 (m_num_vertices g + 2).

Definition wcc `{Omp, Timer} (g : CSR) : res (list (Z * nat)) :=
  '(components, k) ← do_wcc g;
  translation ← translate g components (m_num_vertices g);
  if is_timeout k then Exn TimeoutError
  else Val (save_results (fun _ => false) 0%nat true translation).

Section wcc_csr.
Context `{Omp, Timer} (g : CSR) (vs : list Z) (out inn : list (list (nat * double))).
Context (Hr : csr_repr g vs out inn).

Notation N := (m_num_vertices g).
Notation E := (fun u v => v ∈ nbr out u).

Lemma destinations_nbr u : (u < N)%nat -> destinations g u = Val (nbr out u).
Proof.
  intros Hu. unfold destinations. destruct (out_interval g vs out inn Hr u Hu) as (s & -> & Hfold). rewrite res_bind_Val_l.
  cbv beta iota. replace (s + length (nbr out u) - s)%nat with (length (nbr out u)) by lia.
  rewrite (Hfold _ (fun vs v => Val (vs ++ [v]))). by rewrite (res_fold_collect id), list_fmap_id.
Qed.

Lemma nbr_length u : (length (nbr out u) <= length (m_out_e g))%nat.
Proof.
  unfold nbr. destruct (out !! u) as [l|] eqn:Hl; [|cbn; lia]. cbn. rewrite length_fmap, (flat_ea _ _ _ _ (cr_out _ _ _ _ Hr)), length_fmap.
  rewrite <- off_all. pose proof (off_S out u l Hl). pose proof (off_le out (S u) (length out)). apply lookup_lt_Some in Hl. lia.
Qed.

Lemma csr_wcc_laws : WccLaws N E (hook_pass g) (compress_pass g).
Proof.
  split.
  - intros k comp Hinv.
    destruct (hook_pass_law N E (nbr out) comp Hinv) with (hook_vertex := hook_vertex g) (num_edges := length (m_out_e g)) (k := k) (H := H)
      as (comp' & ch & Hpass & Hinv' & Htrue & Hfalse).
    + intros u v Hv. split; [done|]. by apply (nbr_out_lt g vs out inn Hr).
    + intros u Hu. unfold hook_vertex. by rewrite destinations_nbr.
    + intros u _. apply nbr_length.
    + exists comp', ch. split; [exact Hpass|]. split; [done|]. split; [done|]. intros Hch. destruct (Hfalse Hch) as [-> Hset].
      split; [done|]. intros u v Hv. apply Hset; [|done]. by apply (nbr_out_lt g vs out inn Hr u v).
  - intros k comp Hinv. by apply compress_pass_law.
Qed.

(** C17: the computation ends, however the single accesses of the threads to the labels
    and the flag interleave (in each of the two parallel loops any thread may take the next
    step at any time), and unless the timer expires every vertex is labelled, in the order of
    the external identifiers, with the least logical vertex of its weakly connected
    component. *)
Theorem wcc_correct :
  (wcc g = Exn TimeoutError /\ exists k, is_timeout k = true) \/
  exists lines, wcc g = Val lines /\ length lines = N /\
    forall v ext, vs !! v = Some ext ->
      exists c, lines !! v = Some (ext, c) /\ connected E v c /\
        forall w, (w < N)%nat -> connected E v w -> (c <= w)%nat.
Proof.
  unfold wcc, do_wcc.
  rewrite (omp_fill _ _ id) by (done || by rewrite length_replicate). bind_step.
  rewrite list_fmap_id.
  destruct (wcc_init N E) as [Hinv Hcmp].
  destruct (wcc_loop_spec N E (hook_pass g) (compress_pass g) (N + 2) (seq 0 N) true 0)
    as (comp & k & -> & Hl & Hres); try done; [apply csr_wcc_laws| |].
  { pose proof (roots_le N (seq 0 N)). lia. }
  bind_step. rewrite (translate_spec g vs out inn Hr) by done. bind_step.
  destruct (is_timeout k) eqn:Hk; [left; eauto|right]. destruct Hres as [?|[_ Hres]]; [done|].
  pose proof (cr_num_vertices _ _ _ _ Hr) as Hvs.
  eexists. split; [done|]. unfold save_results. rewrite length_fmap, length_zip_with.
  split; [lia|]. intros v ext He.
  destruct (Hres v) as (c & Hc & Hcon & Hmin); [apply lookup_lt_Some in He; lia|].
  exists c. rewrite list_lookup_fmap, lookup_zip_with, He, Hc. done.
Qed.
End wcc_csr.

Example ex_wcc :
  @wcc omp_sequential no_timeout ex_csr = Val [(10, 0%nat); (20, 0%nat); (30, 0%nat)] /\
  @wcc omp_backwards no_timeout (mkCSR true 4 2 ∅ [1; 2; 3; 4] true
    [0; 0; 1; 2]%nat [3; 0]%nat [d_one; d_one] [1; 1; 1; 2]%nat [3; 2]%nat [d_one; d_one] 0) =
    Val [(1, 0%nat); (2, 1%nat); (3, 0%nat); (4, 0%nat)].
Proof. vm_compute. split; reflexivity. Qed.

Lemma wcc_correct_witness :
  exists lines, @wcc omp_backwards no_timeout ex_csr = Val lines /\ length lines = 3%nat.
Proof.
  destruct (@wcc_correct omp_backwards no_timeout ex_csr [10; 20; 30] ex_out ex_in ex_csr_repr)
    as [[_ [k Hk]]|(lines & Hw & Hl & _)]; [discriminate Hk|].
  exists lines. by split.
Defined.
