(* ===== verification/CsrRank.v ===== *)
(** PageRank and community detection by label propagation (CDLP) of
    [library/baseline/csr.cpp]: two synchronous iterations over the vertices. *)

From S2P Require Import Prelude Graphs Gapbs Csr.

(** ** Reductions of doubles

    [reduction(+:x)] adds the terms in an order and with an association that
    the program does not control. *)

Inductive dsum_of : list double -> double -> Prop :=
  | dsum_nil : dsum_of [] d_zero
  | dsum_one x : dsum_of [x] x
  | dsum_app l1 l2 x y : dsum_of l1 x -> dsum_of l2 y -> dsum_of (l1 ++ l2) (dadd x y)
  | dsum_perm l1 l2 x : l1 ≡ₚ l2 -> dsum_of l1 x -> dsum_of l2 x.

Class OmpReduce := {
  omp_dsum : Z -> list double -> double;
  omp_dsum_law : forall tag l, dsum_of l (omp_dsum tag l);
}.

(** From left to right. *)
Program Definition reduce_left : OmpReduce := {|
  omp_dsum := fun tag l => foldl dadd d_zero l;
|}.
Next Obligation.
  intros tag l. simpl. induction l as [|x l IH] using rev_ind; [constructor|].
  rewrite foldl_app. simpl. apply dsum_app; [done|constructor].
Qed.

(** ** PageRank *)

(** The first loop of an iteration for the vertex [v]: the scores of the sinks
    and the contributions of the other vertices. *)
Definition pr_contribution (g : CSR) (scores : list double)
    (st : list double * list double) (v : nat) : res (list double * list double) :=
  let '(dangling, outgoing_contrib) := st in
  out_degree ← get_out_degree g v;
  score ← arr_get scores v;
  if (out_degree =? 0)%nat then Val (dangling ++ [score], outgoing_contrib)
  else
    outgoing_contrib ←
      arr_set outgoing_contrib v (ddiv score (double_of_Z (Z.of_nat out_degree)));
    Val (dangling, outgoing_contrib).

(** The second loop: the new score of the vertex [v]. *)
Definition pr_score (g : CSR) (outgoing_contrib : list double)
    (base_score damping_factor dangling_sum : double) (v : nat) : res double :=
  '(first, second) ← get_in_interval g v;
  incoming_total ← res_fold
    (fun incoming_total i =>
       u ← arr_get (m_in_e g) i;
       (c ← arr_get outgoing_contrib u; Val (dadd incoming_total c)))
    d_zero (seq first (second - first));
  Val (dadd base_score (dmul damping_factor (dadd incoming_total dangling_sum))).

Fixpoint pr_loop `{Omp, OmpReduce, Timer} (g : CSR) (base_score damping_factor : double)
    (scores outgoing_contrib : list double) (k num_iterations : nat) : res (list double * nat) :=
  match num_iterations with
  | O => Val (scores, k)
  | S num_iterations =>
    if is_timeout k then Val (scores, S k)
    else
      let n := m_num_vertices g in
      '(dangling, outgoing_contrib) ← res_fold (pr_contribution g scores) ([], outgoing_contrib)
        (omp_order (Z.of_nat k) (seq 0 n));
      let dangling_sum := ddiv (omp_dsum (Z.of_nat k) dangling) (double_of_Z (Z.of_nat n)) in
      scores ← res_fold
        (fun scores v =>
           x ← pr_score g outgoing_contrib base_score damping_factor dangling_sum v;
           arr_set scores v x)
        scores (omp_order (Z.of_nat k) (seq 0 n));
      pr_loop g base_score damping_factor scores outgoing_contrib (S k) num_iterations
  end.

Definition do_pagerank `{Omp, OmpReduce, Timer} (g : CSR) (num_iterations : nat)
    (damping_factor : double) : res (list double * nat) :=
  let n := m_num_vertices g in
  let init_score := ddiv d_one (double_of_Z (Z.of_nat n)) in
  let base_score := ddiv (dsub d_one damping_factor) (double_of_Z (Z.of_nat n)) in
  scores ← res_fold (fun scores v => x ← Val init_score; arr_set scores v x)
    (replicate n d_zero) (omp_order 0 (seq 0 n));
  let outgoing_contrib := replicate n d_zero in
  pr_loop g base_score damping_factor scores outgoing_contrib 0 num_iterations.

Definition pagerank `{Omp, OmpReduce, Timer} (g : CSR) (num_iterations : nat)
    (damping_factor : double) : res (list (Z * double)) :=
  '(result, k) ← do_pagerank g num_iterations damping_factor;
  if is_timeout k then Exn TimeoutError
  else
    translation ← translate g result (m_num_vertices g);
    if is_timeout (k + 1) then Exn TimeoutError
    else Val (save_results (fun x => dlt x d_zero) d_max true translation).

(** *** The reference iteration *)

Section pagerank_spec.
Context (n : nat) (out inn : nat -> list nat).

Definition contribution (scores : list double) (u : nat) : double :=
  ddiv (default d_zero (scores !! u)) (double_of_Z (Z.of_nat (length (out u)))).

Definition sinks (scores : list double) : list double :=
  (fun v => default d_zero (scores !! v)) <$> filter (fun v => out v = []) (seq 0 n).

(** The score of a vertex from the scores of its in-neighbours and of the
    sinks, as the definition of PageRank gives it. *)
Definition pr_step (damping_factor : double) (scores scores' : list double) : Prop :=
  exists dangling, dsum_of (sinks scores) dangling /\
    scores' = (fun v =>
      dadd (ddiv (dsub d_one damping_factor) (double_of_Z (Z.of_nat n)))
        (dmul damping_factor
           (dadd (foldl dadd d_zero (contribution scores <$> inn v))
              (ddiv dangling (double_of_Z (Z.of_nat n)))))) <$> seq 0 n.
End pagerank_spec.

Section pagerank_proofs.
Context `{Omp, OmpReduce, Timer} (g : CSR) (vs : list Z) (out inn : list (list (nat * double))).
Context (Hr : csr_repr g vs out inn) (Hco : coherent out inn).

Notation N := (m_num_vertices g).

Lemma pr_contributions tag scores contrib :
  length scores = N -> length contrib = N ->
  exists dangling contrib',
    res_fold (pr_contribution g scores) ([], contrib) (omp_order tag (seq 0 N)) =
      Val (dangling, contrib') /\
    dangling ≡ₚ sinks N (nbr out) scores /\ length contrib' = N /\
    forall u, (u < N)%nat -> nbr out u <> [] ->
      contrib' !! u = Some (contribution (nbr out) scores u).
Proof.
  intros Hs Hc. set (val := fun v => default d_zero (scores !! v)).
  destruct (omp_fold_inv tag (fun done '((dangling, contrib') : list double * list double) =>
      dangling ≡ₚ val <$> filter (fun v => nbr out v = []) done /\
      length contrib' = N /\
      forall u, u ∈ done -> nbr out u <> [] -> contrib' !! u = Some (contribution (nbr out) scores u)
    ) (pr_contribution g scores) (seq 0 N) ([], contrib)) as ([d c] & Heq & Hd & Hl & Hin).
  - split_and!; try done. intros u Hu. by apply elem_of_nil in Hu.
  - intros done v [d c] Hv%elem_of_seq _ (Hd & Hl & Hin). unfold pr_contribution.
    rewrite (out_degree g vs out inn Hr) by lia. bind_val.
    destruct (lookup_lt_is_Some_2 scores v) as [s Hsv]; [lia|].
    assert (val v = s) as Hval by (unfold val; by rewrite Hsv).
    rewrite (arr_get_val _ _ _ Hsv). bind_val.
    rewrite filter_app, fmap_app, filter_cons.
    destruct (Nat.eqb_spec (length (nbr out v)) 0) as [Hz|Hz].
    + apply nil_length_inv in Hz. eexists. split; [reflexivity|]. rewrite decide_True by done.
      split_and!; [by rewrite Hd, <- Hval|done|].
      intros u [Hu|Hu%list_elem_of_singleton]%elem_of_app Hne; [by apply Hin|by subst].
    + assert (nbr out v <> []) as Hne by (intros He; by rewrite He in Hz).
      rewrite arr_set_val by lia. bind_val. eexists. split; [reflexivity|].
      rewrite decide_False, length_insert by done. simpl. rewrite app_nil_r.
      split_and!; [done|done|]. intros u Hu Hnu.
      destruct (decide (v = u)) as [<-|Hvu].
      * rewrite list_lookup_insert_eq by lia. unfold contribution. by rewrite Hsv.
      * rewrite list_lookup_insert_ne by done. apply Hin; [|done]. set_solver.
  - intros l [d c] Hp (Hd & Hl & Hin). rewrite <- Hp. split_and!; try done.
    intros u. rewrite <- Hp. apply Hin.
  - exists d, c. split_and!; try done. intros u Hu. apply Hin, elem_of_seq. lia.
Qed.

Lemma pr_score_spec scores contrib base damping dangling v :
  (v < N)%nat ->
  (forall u, (u < N)%nat -> nbr out u <> [] ->
     contrib !! u = Some (contribution (nbr out) scores u)) ->
  pr_score g contrib base damping dangling v =
  Val (dadd base (dmul damping
    (dadd (foldl dadd d_zero (contribution (nbr out) scores <$> nbr inn v)) dangling))).
Proof.
  intros Hv Hc. unfold pr_score.
  destruct (in_interval g vs out inn Hr v Hv) as (s & -> & Hfold & _). bind_step.
  replace (s + length (nbr inn v) - s)%nat with (length (nbr inn v)) by lia.
  rewrite (Hfold _ (fun t u => c ← arr_get contrib u; Val (dadd t c))).
  assert (forall l t, (forall u, u ∈ l -> u ∈ nbr inn v) ->
    res_fold (fun t u => c ← arr_get contrib u; Val (dadd t c)) t l =
    Val (foldl dadd t (contribution (nbr out) scores <$> l))) as Hl.
  { intros l. induction l as [|u l IH]; intros t Hl; [done|]. cbn [res_fold fmap list_fmap foldl].
    assert (u ∈ nbr inn v) as Hu by (apply Hl; left).
    rewrite (arr_get_val _ u (contribution (nbr out) scores u)).
    - bind_step. apply IH. intros w Hw. apply Hl. by right.
    - apply Hc; [by eapply nbr_in_lt|]. apply Hco in Hu. intros He. rewrite He in Hu.
      by apply elem_of_nil in Hu. }
  rewrite Hl by done. bind_step. done.
Qed.

Lemma pr_loop_spec scores contrib damping k iterations :
  length scores = N -> length contrib = N ->
  exists scores' k' done,
    pr_loop g (ddiv (dsub d_one damping) (double_of_Z (Z.of_nat N))) damping scores contrib k
      iterations = Val (scores', k') /\
    length scores' = N /\
    nsteps (pr_step N (nbr out) (nbr inn) damping) done scores scores' /\
    (is_timeout k' = true \/ done = iterations).
Proof.
  revert scores contrib k. induction iterations as [|n IH]; intros scores contrib k Hs Hc; cbn [pr_loop].
  { exists scores, k, 0%nat. split_and!; [done..|constructor|by right]. }
  destruct (is_timeout k) eqn:Ht.
  { exists scores, (S k), 0%nat. split_and!; [done..|constructor|left].
    apply (is_timeout_mono k); [lia|done]. }
  destruct (pr_contributions (Z.of_nat k) scores contrib Hs Hc) as (d & c & -> & Hd & Hlc & Hcv).
  bind_step. set (dangling := omp_dsum (Z.of_nat k) d).
  rewrite (omp_fill _ _ (fun v =>
      dadd (ddiv (dsub d_one damping) (double_of_Z (Z.of_nat N)))
        (dmul damping
           (dadd (foldl dadd d_zero (contribution (nbr out) scores <$> nbr inn v))
              (ddiv dangling (double_of_Z (Z.of_nat N))))))); [|done|].
  2: { intros v Hv. by apply pr_score_spec. }
  bind_step.
  match goal with |- context [pr_loop _ _ _ ?s _ _ _] => set (scores1 := s) end.
  destruct (IH scores1 c (S k)) as (scores' & k' & dn & -> & Hl' & Hsteps & Hend).
  { unfold scores1. by rewrite length_fmap, length_seq. } { done. }
  exists scores', k', (S dn). split_and!; [done|done| |].
  - econstructor; [|exact Hsteps]. exists dangling. split; [|done].
    eapply dsum_perm; [exact Hd|]. apply omp_dsum_law.
  - destruct Hend as [?| ->]; auto.
Qed.

(** C20: PageRank ends, and unless the timer expires it writes for every vertex
    the score that the given number of steps of the defining iteration give,
    from the uniform scores; the scores of the sinks are added in an
    unspecified order. *)
Theorem pagerank_correct (num_iterations : nat) (damping_factor : double) :
  (pagerank g num_iterations damping_factor = Exn TimeoutError /\ exists k, is_timeout k = true) \/
  exists scores, pagerank g num_iterations damping_factor = Val (zip vs scores) /\
    nsteps (pr_step N (nbr out) (nbr inn) damping_factor) num_iterations
      (replicate N (ddiv d_one (double_of_Z (Z.of_nat N)))) scores.
Proof.
  unfold pagerank, do_pagerank. set (init := ddiv d_one _).
  rewrite (omp_fill _ _ (fun _ => init)) by (done || by rewrite length_replicate). bind_step.
  assert ((fun _ : nat => init) <$> seq 0 N = replicate N init) as ->.
  { apply list_eq_same_length with N; [by rewrite length_replicate|by rewrite length_fmap, length_seq|].
    intros i x y Hi Hx Hy. rewrite list_lookup_fmap, lookup_seq_lt in Hx by done.
    rewrite lookup_replicate_2 in Hy by done. simpl in Hx. congruence. }
  destruct (pr_loop_spec (replicate N init) (replicate N d_zero) damping_factor 0 num_iterations)
    as (scores & k & dn & -> & Hl & Hsteps & Hend); [by rewrite length_replicate..|].
  bind_step. destruct (is_timeout k) eqn:Hk; [left; eauto|].
  destruct Hend as [?| ->]; [done|]. rewrite (translate_spec g vs out inn Hr) by done. bind_step.
  destruct (is_timeout (k + 1)) eqn:Hk1; [left; eauto|right].
  exists scores. split; [|done]. unfold save_results. cbn [negb andb].
  do 1 f_equal. apply list_fmap_id.
Qed.
End pagerank_proofs.

(** ** CDLP *)

(** [histogram[labels[u]]++] for the neighbours in an interval. *)
Definition cdlp_count (edges : list nat) (labels : list Z) (first second : nat)
    (histogram : gmap Z Z) : res (gmap Z Z) :=
  res_fold
    (fun histogram i =>
       u ← arr_get edges i;
       (l ← arr_get labels u;
        Val (<[l := u64 (default 0 (histogram !! l) + 1)]> histogram)))
    histogram (seq first (second - first)).

Definition cdlp_max (st : Z * Z) (pair : Z * Z) : Z * Z :=
  let '(label_max, count_max) := st in
  if (pair.2 >? count_max) || ((pair.2 =? count_max) && (pair.1 <? label_max))
  then pair else st.

(** The new label of a vertex. *)
Definition cdlp_label `{HashOrder} (g : CSR) (labels0 : list Z) (v : nat) : res Z :=
  '(first, second) ← get_out_interval g v;
  histogram ← cdlp_count (m_out_e g) labels0 first second ∅;
  histogram ← (if m_is_directed g then
                 '(first, second) ← get_in_interval g v;
                 cdlp_count (m_in_e g) labels0 first second histogram
               else Val histogram);
  Val (foldl cdlp_max (int64_max, 0) (hash_iter histogram)).1.

Definition cdlp_vertex `{HashOrder} (g : CSR) (labels0 : list Z)
    (st : list Z * bool) (v : nat) : res (list Z * bool) :=
  let '(labels1, change) := st in
  label_max ← cdlp_label g labels0 v;
  labels1 ← arr_set labels1 v label_max;
  l ← arr_get labels0 v;
  Val (labels1, change || negb (l =? label_max)).

(** The loop over the iterations, on the two buffers. *)
Fixpoint cdlp_loop `{Omp, HashOrder, Timer} (g : CSR) (change : bool) (labels0 labels1 : list Z)
    (k max_iterations : nat) : res (list Z * nat) :=
  match max_iterations with
  | O => Val (labels0, k)
  | S max_iterations =>
    if negb change then Val (labels0, k)
    else if is_timeout k then Val (labels0, S k)
    else
      '(labels1, change) ← res_fold (cdlp_vertex g labels0) (labels1, false)
        (omp_order (Z.of_nat k) (seq 0 (m_num_vertices g)));
      (* std::swap(labels0, labels1) *)
      cdlp_loop g change labels1 labels0 (S k) max_iterations
  end.

Definition do_cdlp `{Omp, HashOrder, Timer} (g : CSR) (max_iterations : nat) : res (list Z * nat) :=
  let n := m_num_vertices g in
  labels0 ← res_fold (fun labels v => x ← arr_get (m_log2ext g) v; arr_set labels v x)
    (replicate n 0) (omp_order 0 (seq 0 n));
  cdlp_loop g true labels0 (replicate n 0) 0 max_iterations.

Definition cdlp `{Omp, HashOrder, Timer} (g : CSR) (max_iterations : nat) : res (list (Z * Z)) :=
  '(labels, k) ← do_cdlp g max_iterations;
  if is_timeout k then Exn TimeoutError
  else
    translation ← translate g labels (m_num_vertices g);
    if is_timeout (k + 1) then Exn TimeoutError
    else Val (save_results (fun _ => false) int64_max true translation).

(** *** The reference iteration *)

(** How many times [x] occurs in [ls]. *)
Definition occurs (ls : list Z) (x : Z) : Z := Z.of_nat (length (filter (fun y => y = x) ls)).

(** The most frequent label, the least one on a tie. *)
Definition is_mode (ls : list Z) (x : Z) : Prop :=
  x ∈ ls /\ forall y, y ∈ ls -> occurs ls y < occurs ls x \/ (occurs ls y = occurs ls x /\ x <= y).

Definition labels_of (labels : list Z) (ns : list nat) : list Z :=
  (fun u => default 0 (labels !! u)) <$> ns.

(** One synchronous round; a vertex without neighbours gets the largest
    integer. *)
Definition cdlp_step (n : nat) (ns : nat -> list nat) (labels labels' : list Z) : Prop :=
  length labels' = n /\
  forall v, (v < n)%nat ->
    (ns v = [] /\ labels' !! v = Some int64_max) \/
    exists x, labels' !! v = Some x /\ is_mode (labels_of labels (ns v)) x.

(** [m] counts the labels [ls]. *)
Definition counts (m : gmap Z Z) (ls : list Z) : Prop :=
  forall x, m !! x = if decide (x ∈ ls) then Some (occurs ls x) else None.

Lemma occurs_app l k x : occurs (l ++ k) x = occurs l x + occurs k x.
Proof. unfold occurs. rewrite filter_app, length_app. lia. Qed.

Lemma occurs_range ls x : x ∈ ls -> 1 <= occurs ls x <= Z.of_nat (length ls).
Proof.
  intros Hx. unfold occurs. pose proof (length_filter (fun y => y = x) ls).
  assert (x ∈ filter (fun y => y = x) ls) as Hin by (apply list_elem_of_filter; done).
  destruct (filter _ ls); [by apply elem_of_nil in Hin|simpl in *; lia].
Qed.

Lemma occurs_not_in ls x : x ∉ ls -> occurs ls x = 0.
Proof.
  intros Hx. unfold occurs. destruct (filter _ ls) as [|y k] eqn:E; [done|]. exfalso.
  assert (y ∈ filter (fun y => y = x) ls) as [-> ?]%list_elem_of_filter by (rewrite E; left). done.
Qed.

Lemma counts_push m ls x :
  counts m ls -> Z.of_nat (length ls) + 1 < 2 ^ 64 ->
  counts (<[x := u64 (default 0 (m !! x) + 1)]> m) (ls ++ [x]).
Proof.
  intros Hm Hl y. rewrite occurs_app. destruct (decide (x = y)) as [<-|Hne].
  - rewrite lookup_insert_eq, decide_True by set_solver. rewrite Hm.
    assert (occurs [x] x = 1) as ->.
    { unfold occurs. rewrite filter_cons, decide_True by done. done. }
    f_equal. case_decide as Hx; simpl.
    + pose proof (occurs_range _ _ Hx). apply u64_id. unfold is_u64. lia.
    + rewrite (occurs_not_in _ _ Hx). done.
  - rewrite lookup_insert_ne, Hm by done.
    assert (occurs [x] y = 0) as ->.
    { apply occurs_not_in. intros Hy. apply list_elem_of_singleton in Hy. congruence. }
    rewrite Z.add_0_r. destruct (decide (y ∈ ls)); [rewrite decide_True by set_solver; done|].
    rewrite decide_False; [done|]. rewrite elem_of_app, list_elem_of_singleton. intros [?|?]; congruence.
Qed.

Lemma cdlp_max_spec `{HashOrder} l0 m ls :
  counts m ls ->
  let x := (foldl cdlp_max (l0, 0) (hash_iter m)).1 in
  (ls = [] /\ x = l0) \/ is_mode ls x.
Proof.
  intros Hm x.
  destruct (foldl_inv (fun done st =>
      (done = [] /\ st = (l0, 0)) \/
      (st ∈ done /\ forall p, p ∈ done -> p.2 < st.2 \/ (p.2 = st.2 /\ st.1 <= p.1)))
    cdlp_max (hash_iter m) (l0, 0)) as [[He Hx]|[Hin Hmax]].
  - by left.
  - intros done p todo [l c] Hiter IH. right. unfold cdlp_max.
    assert (0 < p.2) as Hp.
    { assert (p ∈ hash_iter m) as Hpi by (rewrite Hiter; set_solver). destruct p as [y n].
      apply elem_of_hash_iter in Hpi. rewrite Hm in Hpi. case_decide as Hy; [|done].
      injection Hpi as <-. simpl. pose proof (occurs_range _ _ Hy). lia. }
    destruct IH as [[-> [= -> ->]]|[Hin Hmax]].
    + rewrite (proj2 (Z.gtb_lt _ _)) by lia. simpl. split; [set_solver|].
      intros q ->%list_elem_of_singleton. lia.
    + destruct ((p.2 >? c) || ((p.2 =? c) && (p.1 <? l))) eqn:Hc.
      * split; [set_solver|]. intros q [Hq|Hq%list_elem_of_singleton]%elem_of_app; [|subst; lia].
        specialize (Hmax q Hq). simpl in Hmax.
        apply orb_true_iff in Hc as [Hc%Z.gtb_lt|[?%Z.eqb_eq ?%Z.ltb_lt]%andb_true_iff]; lia.
      * split; [set_solver|]. intros q [Hq|Hq%list_elem_of_singleton]%elem_of_app; [by apply Hmax|].
        subst q. simpl. apply orb_false_iff in Hc as [Hc1 Hc2].
        rewrite Z.gtb_ltb in Hc1. apply Z.ltb_ge in Hc1.
        destruct (Z.eqb_spec p.2 c); [|lia]. cbn [andb] in Hc2. apply Z.ltb_ge in Hc2. lia.
  - left. split; [|unfold x; by rewrite Hx].
    destruct ls as [|y ls]; [done|]. exfalso.
    assert ((y, occurs (y :: ls) y) ∈ hash_iter m) as Hy.
    { apply elem_of_hash_iter. rewrite Hm, decide_True by (left). done. }
    rewrite He in Hy. by apply elem_of_nil in Hy.
  - right. unfold x. set (st := foldl cdlp_max _ _) in *. destruct st as [l c]. simpl in *.
    apply elem_of_hash_iter in Hin. rewrite Hm in Hin. case_decide as Hl; [|done].
    injection Hin as <-. split; [done|]. intros y Hy.
    apply (Hmax (y, occurs ls y)). apply elem_of_hash_iter. by rewrite Hm, decide_True.
Qed.

Section cdlp_proofs.
Context `{Omp, HashOrder, Timer} (g : CSR) (vs : list Z) (out inn : list (list (nat * double))).
Context (Hr : csr_repr g vs out inn).
Context (Hdeg_out : Z.of_nat (length (concat out)) < 2 ^ 62).
Context (Hdeg_in : Z.of_nat (length (concat inn)) < 2 ^ 62).

Notation N := (m_num_vertices g).

(** The neighbours that are counted, those of a directed graph in both
    directions. *)
Definition cdlp_neighbours (v : nat) : list nat :=
  nbr out v ++ (if m_is_directed g then nbr inn v else []).

Lemma cdlp_count_spec labels l m ls :
  counts m ls -> (forall u, u ∈ l -> (u < length labels)%nat) ->
  Z.of_nat (length ls + length l) < 2 ^ 64 ->
  exists m', res_fold (fun histogram u =>
      l ← arr_get labels u; Val (<[l := u64 (default 0 (histogram !! l) + 1)]> histogram)) m l
    = Val m' /\ counts m' (ls ++ labels_of labels l).
Proof.
  revert m ls. induction l as [|u l IH]; intros m ls Hm Hl Hlen.
  { exists m. split; [done|]. by rewrite app_nil_r. }
  cbn [res_fold]. destruct (lookup_lt_is_Some_2 labels u) as [x Hx]; [apply Hl; left|].
  rewrite (arr_get_val _ _ _ Hx). do 2 bind_val. simpl in Hlen.
  destruct (IH (<[x := u64 (default 0 (m !! x) + 1)]> m) (ls ++ [x])) as (m' & -> & Hm').
  - apply counts_push; [done|lia].
  - intros w Hw. apply Hl. by right.
  - rewrite length_app. simpl. lia.
  - exists m'. split; [done|]. unfold labels_of in *. rewrite fmap_cons, Hx. simpl.
    by rewrite <- app_assoc in Hm'.
Qed.

Lemma nbr_length_le (adj : list (list (nat * double))) v : (length (nbr adj v) <= length (concat adj))%nat.
Proof.
  unfold nbr. destruct (adj !! v) as [l|] eqn:E; [|simpl; lia]. simpl. rewrite length_fmap.
  rewrite (concat_split _ _ _ E), !length_app. lia.
Qed.

Lemma cdlp_label_spec labels v :
  (v < N)%nat -> length labels = N ->
  exists x, cdlp_label g labels v = Val x /\
    ((cdlp_neighbours v = [] /\ x = int64_max) \/ is_mode (labels_of labels (cdlp_neighbours v)) x).
Proof.
  intros Hv Hl. unfold cdlp_label.
  pose proof (nbr_length_le out v). pose proof (nbr_length_le inn v).
  destruct (out_interval g vs out inn Hr v Hv) as (s & -> & Hfold). bind_step.
  unfold cdlp_count. replace (s + length (nbr out v) - s)%nat with (length (nbr out v)) by lia.
  rewrite (Hfold _ (fun histogram u =>
      l ← arr_get labels u; Val (<[l := u64 (default 0 (histogram !! l) + 1)]> histogram))).
  destruct (cdlp_count_spec labels (nbr out v) ∅ []) as (m & -> & Hm).
  { intros x. by rewrite decide_False, lookup_empty by (intros Hx; by apply elem_of_nil in Hx). }
  { intros u Hu. rewrite Hl. by eapply nbr_out_lt. } { simpl. lia. }
  bind_step. rewrite app_nil_l in Hm.
  assert (exists m', (if m_is_directed g then
       '(first, second) ← get_in_interval g v;
       res_fold (fun histogram i => u ← arr_get (m_in_e g) i;
         (l ← arr_get labels u; Val (<[l := u64 (default 0 (histogram !! l) + 1)]> histogram)))
         m (seq first (second - first))
     else Val m) = Val m' /\ counts m' (labels_of labels (cdlp_neighbours v))) as (m' & -> & Hm').
  { unfold cdlp_neighbours. destruct (m_is_directed g); [|rewrite app_nil_r; eauto].
    destruct (in_interval g vs out inn Hr v Hv) as (s' & -> & Hfold' & _). bind_step.
    replace (s' + length (nbr inn v) - s')%nat with (length (nbr inn v)) by lia.
    rewrite (Hfold' _ (fun histogram u =>
      l ← arr_get labels u; Val (<[l := u64 (default 0 (histogram !! l) + 1)]> histogram))).
    destruct (cdlp_count_spec labels (nbr inn v) m (labels_of labels (nbr out v)) Hm) as (m' & -> & Hm').
    - intros u Hu. rewrite Hl. by eapply nbr_in_lt.
    - unfold labels_of. rewrite length_fmap. lia.
    - exists m'. split; [done|]. unfold labels_of in *. by rewrite fmap_app. }
  bind_step. eexists. split; [done|].
  destruct (cdlp_max_spec int64_max m' _ Hm') as [[He ->]|Hmode]; [left|by right].
  split; [|done]. unfold labels_of in He. by apply fmap_nil_inv in He.
Qed.

Lemma cdlp_round tag labels0 labels1 :
  length labels0 = N -> length labels1 = N ->
  exists labels' change,
    res_fold (cdlp_vertex g labels0) (labels1, false) (omp_order tag (seq 0 N)) =
      Val (labels', change) /\
    cdlp_step N cdlp_neighbours labels0 labels' /\ (change = false -> labels' = labels0).
Proof.
  intros Hl0 Hl1.
  destruct (omp_fold_inv tag (fun done '((labels', change) : list Z * bool) =>
      length labels' = N /\
      forall v, v ∈ done ->
        ((cdlp_neighbours v = [] /\ labels' !! v = Some int64_max) \/
         exists x, labels' !! v = Some x /\ is_mode (labels_of labels0 (cdlp_neighbours v)) x) /\
        (change = false -> labels' !! v = labels0 !! v))
    (cdlp_vertex g labels0) (seq 0 N) (labels1, false)) as ([l' ch] & Heq & Hl' & Hin).
  - split; [done|]. intros v Hv. by apply elem_of_nil in Hv.
  - intros done v [l ch] Hv%elem_of_seq _ [Hl Hin]. unfold cdlp_vertex.
    destruct (cdlp_label_spec labels0 v) as (x & -> & Hx); [lia|done|]. bind_step.
    rewrite arr_set_val by lia. bind_step.
    destruct (lookup_lt_is_Some_2 labels0 v) as [y Hy]; [lia|].
    rewrite (arr_get_val _ _ _ Hy). bind_step. eexists. split; [done|].
    cbv beta iota. rewrite length_insert. split; [done|]. intros u Hu.
    destruct (decide (v = u)) as [<-|Hne].
    + rewrite list_lookup_insert_eq by lia. split.
      * destruct Hx as [[? ->]|?]; [by left|right; eauto].
      * intros [_ Hc]%orb_false_iff. apply negb_false_iff, Z.eqb_eq in Hc. congruence.
    + rewrite list_lookup_insert_ne by done. destruct (Hin u) as [Hu1 Hu2]; [set_solver|].
      split; [done|]. intros [? _]%orb_false_iff. auto.
  - intros l [l' ch] Hp [Hl Hin]. split; [done|]. intros v. rewrite <- Hp. apply Hin.
  - exists l', ch. split; [done|]. split.
    + split; [done|]. intros v Hv. apply Hin, elem_of_seq. lia.
    + intros Hch. apply list_eq_same_length with N; [done|done|]. intros i x y Hi Hx Hy.
      destruct (Hin i) as [_ Hsame]; [apply elem_of_seq; lia|]. rewrite Hsame in Hx by done. congruence.
Qed.

Lemma cdlp_loop_spec labels0 labels1 change k max_iterations :
  length labels0 = N -> length labels1 = N ->
  (change = false -> cdlp_step N cdlp_neighbours labels0 labels0) ->
  exists labels k' done,
    cdlp_loop g change labels0 labels1 k max_iterations = Val (labels, k') /\
    length labels = N /\ (done <= max_iterations)%nat /\
    nsteps (cdlp_step N cdlp_neighbours) done labels0 labels /\
    (is_timeout k' = true \/ done = max_iterations \/ cdlp_step N cdlp_neighbours labels labels).
Proof.
  revert labels0 labels1 change k.
  induction max_iterations as [|n IH]; intros labels0 labels1 change k Hl0 Hl1 Hch; cbn [cdlp_loop].
  { exists labels0, k, 0%nat. split_and!; [done..|constructor|auto]. }
  destruct change; cbn [negb].
  2: { exists labels0, k, 0%nat. split_and!; [done|done|lia|constructor|auto]. }
  destruct (is_timeout k) eqn:Ht.
  { exists labels0, (S k), 0%nat. split_and!; [done|done|lia|constructor|left].
    apply (is_timeout_mono k); [lia|done]. }
  destruct (cdlp_round (Z.of_nat k) labels0 labels1 Hl0 Hl1) as (l' & ch & -> & Hstep & Hsame).
  bind_step. destruct (IH l' labels0 ch (S k)) as (labels & k' & dn & -> & Hl & Hdn & Hsteps & Hend).
  { apply Hstep. } { done. } { intros Hc. specialize (Hsame Hc). by subst. }
  exists labels, k', (S dn). split_and!; [done|done|lia| |].
  - by econstructor.
  - destruct Hend as [?|[->|?]]; auto.
Qed.

(** C19: label propagation ends, and unless the timer expires the labels are
    those after the given number of synchronous rounds, or after fewer when
    one more round changes nothing: in each round a vertex takes the most
    frequent label of its neighbours (the least on a tie, the edges of a
    directed graph counting in both directions), whatever the order in which
    the histogram is traversed and the vertices are visited. *)
Theorem cdlp_correct (max_iterations : nat) :
  (cdlp g max_iterations = Exn TimeoutError /\ exists k, is_timeout k = true) \/
  exists labels rounds, cdlp g max_iterations = Val (zip vs labels) /\
    (rounds <= max_iterations)%nat /\
    nsteps (cdlp_step N cdlp_neighbours) rounds vs labels /\
    (rounds = max_iterations \/ cdlp_step N cdlp_neighbours labels labels).
Proof.
  pose proof (cr_num_vertices _ _ _ _ Hr) as Hvs.
  unfold cdlp, do_cdlp. rewrite (omp_fill _ _ (fun v => default 0 (vs !! v))).
  2: { by rewrite length_replicate. }
  2: { intros v Hv. rewrite (cr_log2ext _ _ _ _ Hr).
       destruct (lookup_lt_is_Some_2 vs v) as [x Hx]; [lia|]. rewrite (arr_get_val _ _ _ Hx). by rewrite Hx. }
  bind_step.
  assert ((fun v => default 0 (vs !! v)) <$> seq 0 N = vs) as ->.
  { apply list_eq_same_length with N; [done|by rewrite length_fmap, length_seq|].
    intros i x y Hi Hx Hy. rewrite list_lookup_fmap, lookup_seq_lt in Hx by done.
    simpl in Hx. rewrite Hy in Hx. simpl in Hx. congruence. }
  destruct (cdlp_loop_spec vs (replicate N 0) true 0 max_iterations)
    as (labels & k & dn & -> & Hl & Hdn & Hsteps & Hend); [done|by rewrite length_replicate|done|].
  bind_step. destruct (is_timeout k) eqn:Hk; [left; eauto|].
  destruct Hend as [?|Hend]; [done|]. rewrite (translate_spec g vs out inn Hr) by done. bind_step.
  destruct (is_timeout (k + 1)) eqn:Hk1; [left; eauto|right].
  exists labels, dn. split_and!; try done. unfold save_results. cbn [negb andb].
  f_equal. apply list_fmap_id.
Qed.
End cdlp_proofs.

(** ** Examples *)

Example ex_cdlp : @cdlp omp_sequential map_order no_timeout ex_csr 1 =
  Val [(10, 20); (20, 10); (30, 10)].
Proof. vm_compute. reflexivity. Qed.

Lemma cdlp_correct_witness :
  exists labels rounds, @cdlp omp_backwards map_order no_timeout ex_csr 3 = Val (zip [10; 20; 30] labels) /\
    (rounds <= 3)%nat.
Proof.
  destruct (@cdlp_correct omp_backwards map_order no_timeout ex_csr [10; 20; 30] ex_out ex_in ex_csr_repr
    ltac:(reflexivity) ltac:(reflexivity) 3)
    as [[_ [k Hk]]|(labels & rounds & Hc & Hle & _)]; [discriminate Hk|].
  exists labels, rounds. by split.
Defined.

Lemma ex_coherent_rank : coherent ex_out ex_in.
Proof.
  intros u v. unfold nbr, ex_out, ex_in.
  destruct u as [|[|[|u]]], v as [|[|[|v]]]; simpl;
    rewrite ?elem_of_cons, ?elem_of_nil; try naive_solver lia;
    destruct u, v; simpl; rewrite ?elem_of_nil; naive_solver lia.
Qed.

Lemma pagerank_correct_witness :
  exists scores,
    @pagerank omp_backwards reduce_left no_timeout ex_csr 2 (ddiv d_one (double_of_Z 2)) =
      Val (zip [10; 20; 30] scores) /\
    nsteps (pr_step 3 (nbr ex_out) (nbr ex_in) (ddiv d_one (double_of_Z 2))) 2
      (replicate 3 (ddiv d_one (double_of_Z 3))) scores.
Proof.
  destruct (@pagerank_correct omp_backwards reduce_left no_timeout ex_csr [10; 20; 30] ex_out ex_in
    ex_csr_repr ex_coherent_rank 2 (ddiv d_one (double_of_Z 2)))
    as [[_ [k Hk]]|(scores & Hp & Hs)]; [discriminate Hk|].
  exists scores. by split.
Defined.
