(* ===== verification/CsrLcc.v ===== *)
(** The local clustering coefficient of [library/baseline/csr.cpp]: the
    implementations of [CSR] with a set of neighbours, for directed and for
    undirected graphs, and the sort-merge implementation of [CSR_LCC], whose
    workers fetch windows of vertices from a master. The last section shows
    that the two implementations for undirected graphs agree.

    The counters of triangles grow by at most two per iteration of the inner
    loop, so their width is not modelled. *)

From S2P Require Import Prelude Graphs Gapbs Csr.

(** [static_cast<double>(num_triangles) / max_num_edges] *)
Definition lcc_score (degree num_triangles : nat) : double :=
  let d := Z.of_nat degree in
  let max_num_edges := u64 (d * u64 (d - 1)) in
  ddiv (double_of_Z (Z.of_nat num_triangles)) (double_of_Z max_num_edges).

(** ** The implementations with a set of neighbours *)

(** Visit the vertices [w] that follow [u] and count those in [neighbours]. *)
Definition count_closing (g : CSR) (neighbours : gset nat) (num_triangles u : nat) : res nat :=
  '(first, second) ← get_out_interval g u;
  res_fold
    (fun num_triangles j =>
       w ← arr_get (m_out_e g) j;
       Val (if decide (w ∈ neighbours) then (num_triangles + 1)%nat else num_triangles))
    num_triangles (seq first (second - first)).

(** [edges.push_back(u); neighbours.insert(u)] *)
Definition push_neighbour (st : list nat * gset nat) (u : nat) : list nat * gset nat :=
  (st.1 ++ [u], {[u]} ∪ st.2).

(** The score of the vertex [v] of a directed graph. *)
Definition lcc_directed_vertex (g : CSR) (v : nat) : res double :=
  v_degree_out ← get_out_degree g v;
  v_degree_in ← get_in_degree g v;
  let v_degree_ub := (v_degree_in + v_degree_out)%nat in
  if (v_degree_ub <? 2)%nat then Val d_zero
  else
    '(first, second) ← get_out_interval g v;
    '(edges, neighbours) ← res_fold
      (fun st i => u ← arr_get (m_out_e g) i; Val (push_neighbour st u))
      ([], ∅) (seq first (second - first));
    '(first, second) ← get_in_interval g v;
    '(edges, neighbours) ← res_fold
      (fun st i =>
         u ← arr_get (m_in_e g) i;
         Val (if decide (u ∈ st.2) then st else push_neighbour st u))
      (edges, neighbours) (seq first (second - first));
    let v_degree := length edges in
    if (v_degree <? 2)%nat then Val d_zero
    else
      num_triangles ← res_fold (count_closing g neighbours) 0%nat edges;
      Val (lcc_score v_degree num_triangles).

(** The score of the vertex [v] of an undirected graph. *)
Definition lcc_undirected_vertex (g : CSR) (v : nat) : res double :=
  v_degree_out ← get_out_degree g v;
  if (v_degree_out <? 2)%nat then Val d_zero
  else
    '(first, second) ← get_out_interval g v;
    neighbours ← res_fold
      (fun neighbours i => u ← arr_get (m_out_e g) i; Val ({[u]} ∪ neighbours))
      (∅ : gset nat) (seq first (second - first));
    num_triangles ← res_fold
      (fun num_triangles i =>
         u ← arr_get (m_out_e g) i;
         count_closing g neighbours num_triangles u)
      0%nat (seq first (second - first));
    Val (lcc_score v_degree_out num_triangles).

(** The parallel loop; a vertex that is reached after the timer expired is
    skipped. The array is not initialised by the code. *)
Definition lcc_loop `{Omp, Timer} (g : CSR) (vertex : CSR -> nat -> res double) :
    res (list double * nat) :=
  res_fold
    (fun '(lcc, k) v =>
       if is_timeout k then Val (lcc, S k)
       else
         x ← vertex g v;
         lcc ← arr_set lcc v x;
         Val (lcc, S k))
    (replicate (m_num_vertices g) d_nan, 0%nat) (omp_order 0 (seq 0 (m_num_vertices g))).

Definition do_lcc_directed `{Omp, Timer} (g : CSR) : res (list double * nat) :=
  if m_is_directed g then lcc_loop g lcc_directed_vertex else Undef.

Definition do_lcc_undirected `{Omp, Timer} (g : CSR) : res (list double * nat) :=
  if m_is_directed g then Undef else lcc_loop g lcc_undirected_vertex.

Definition do_lcc `{Omp, Timer} (g : CSR) : res (list double * nat) :=
  if m_is_directed g then do_lcc_directed g else do_lcc_undirected g.

Definition lcc `{Omp, Timer} (g : CSR) : res (list (Z * double)) :=
  '(scores, k) ← do_lcc g;
  if is_timeout k then Exn TimeoutError
  else
    translation ← translate g scores (m_num_vertices g);
    if is_timeout (k + 1) then Exn TimeoutError
    else Val (save_results (fun x => dlt x d_zero) d_max true translation).

(** ** The sort-merge implementation: [CSR_LCC] *)

(** The constructor refuses directed graphs. *)
Definition CSR_LCC_new (is_directed : bool) : res CSR :=
  if is_directed then Exn RuntimeError else Val (CSR_new is_directed).

Definition LCC_TASK_SIZE : nat := Z.to_nat 1024.

(** [do { marker++; } while(marker < size && n3 > m_neighbours[marker])] *)
Fixpoint advance_marker (m_neighbours : list nat) (n3 marker fuel : nat) : res nat :=
  match fuel with
  | O => NoFuel
  | S fuel =>
    let marker := (marker + 1)%nat in
    if (marker <? length m_neighbours)%nat then
      m ← arr_get m_neighbours marker;
      if (m <? n3)%nat then advance_marker m_neighbours n3 marker fuel else Val marker
    else Val marker
  end.

(** The contributions of the master: [num_triangles(v) += 2]. *)
Definition add_triangles (tri : list nat) (v amount : nat) : res (list nat) :=
  x ← arr_get tri v; arr_set tri v (x + amount)%nat.

(** The loop over the edges of [n2], [n] of them from [j]. *)
Fixpoint merge_loop (out_e m_neighbours : list nat) (n1 n2 j n marker num_triangles : nat)
    (tri : list nat) : res (nat * list nat) :=
  match n with
  | O => Val (num_triangles, tri)
  | S n =>
    n3 ← arr_get out_e j;
    if (n2 <? n3)%nat then Val (num_triangles, tri)
    else if negb ((n2 <? n1) && (n3 <? n2))%nat then Undef
    else
      m ← arr_get m_neighbours marker;
      marker ← (if (m <? n3)%nat then advance_marker m_neighbours n3 marker (length m_neighbours)
                else Val marker);
      if (length m_neighbours <=? marker)%nat then Val (num_triangles, tri)
      else
        m ← arr_get m_neighbours marker;
        if (n3 =? m)%nat then
          tri ← add_triangles tri n2 2;
          tri ← add_triangles tri n3 2;
          let marker := (marker + 1)%nat in
          if (length m_neighbours <=? marker)%nat then Val ((num_triangles + 2)%nat, tri)
          else merge_loop out_e m_neighbours n1 n2 (S j) n marker (num_triangles + 2) tri
        else merge_loop out_e m_neighbours n1 n2 (S j) n marker num_triangles tri
  end.

(** The loop over the edges of [n1], [n] of them from [i]. *)
Fixpoint neighbours_loop (g : CSR) (n1 i n : nat) (m_neighbours : list nat) (num_triangles : nat)
    (tri : list nat) : res (nat * list nat) :=
  match n with
  | O => Val (num_triangles, tri)
  | S n =>
    n2 ← arr_get (m_out_e g) i;
    if (n1 <? n2)%nat then Val (num_triangles, tri)
    else
      let m_neighbours := m_neighbours ++ [n2] in
      '(first, second) ← get_out_interval g n2;
      '(num_triangles, tri) ←
        merge_loop (m_out_e g) m_neighbours n1 n2 first (second - first) 0 num_triangles tri;
      neighbours_loop g n1 (S i) n m_neighbours num_triangles tri
  end.

Definition process_vertex (g : CSR) (tri : list nat) (n1 : nat) : res (list nat) :=
  '(first, second) ← get_out_interval g n1;
  '(num_triangles, tri) ← neighbours_loop g n1 first (second - first) [] 0 tri;
  if (num_triangles =? 0)%nat then Val tri else add_triangles tri n1 num_triangles.

(** [Master::next_task]: the window, if there is one, and the new value of
    [m_next] and of the number of polls. *)
Definition next_task `{Timer} (num_vertices m_next k : nat) : option (nat * nat) * nat * nat :=
  let logical_start := m_next in
  let m_next := (m_next + LCC_TASK_SIZE)%nat in
  if (num_vertices <=? logical_start)%nat then (None, m_next, k)
  else if is_timeout k then (None, m_next, S k)
  else (Some (logical_start, Nat.min (logical_start + LCC_TASK_SIZE) num_vertices), m_next, S k).

(** The windows that the workers fetch, until one of them gets none. *)
Fixpoint fetch_tasks `{Timer} (num_vertices m_next k fuel : nat) : res (list (nat * nat) * nat) :=
  match fuel with
  | O => NoFuel
  | S fuel =>
    match next_task num_vertices m_next k with
    | (None, _, k) => Val ([], k)
    | (Some window, m_next, k) =>
      '(windows, k) ← fetch_tasks num_vertices m_next k fuel;
      Val (window :: windows, k)
    end
  end.

(** [Worker::execute] for all the workers: the vertices of their windows are
    processed in any order. *)
Definition execute_workers `{Omp, Timer} (g : CSR) (tri : list nat) : res (list nat * nat) :=
  '(windows, k) ← fetch_tasks (m_num_vertices g) 0 0 (m_num_vertices g + 1);
  tri ← res_fold (process_vertex g) tri
    (omp_order 0 (concat ((fun w => seq w.1 (w.2 - w.1)) <$> windows)));
  Val (tri, k).

Definition compute_scores (g : CSR) (tri : list nat) : res (list double) :=
  res_fold
    (fun scores i =>
       num_triangles ← arr_get tri i;
       if (0 <? num_triangles)%nat then
         degree ← get_out_degree g i;
         arr_set scores i (lcc_score degree num_triangles)
       else Val scores)
    (replicate (m_num_vertices g) d_zero) (seq 0 (m_num_vertices g)).

(** [Master::execute] *)
Definition master_execute `{Omp, Timer} (g : CSR) : res (list double * nat) :=
  let tri := replicate (m_num_vertices g) 0%nat in
  '(tri, k) ← execute_workers g tri;
  if is_timeout k then Exn TimeoutError
  else
    scores ← compute_scores g tri;
    Val (scores, (k + 1)%nat).

Definition lcc_sort_merge `{Omp, Timer} (g : CSR) : res (list (Z * double)) :=
  '(scores, k) ← master_execute g;
  if is_timeout k then Exn TimeoutError
  else
    translation ← translate g scores (m_num_vertices g);
    if is_timeout (k + 1) then Exn TimeoutError
    else Val (save_results (fun x => dlt x d_zero) d_max true translation).

(** ** Reference *)

(** The ordered pairs of neighbours that are joined by an edge. *)
Definition edge_pairs (out : nat -> list nat) (ns : list nat) : nat :=
  length (filter (fun p => p.2 ∈ out p.1) (list_prod ns ns)).

Definition lcc_of (out : nat -> list nat) (ns : list nat) : double :=
  if (length ns <? 2)%nat then d_zero else lcc_score (length ns) (edge_pairs out ns).

Lemma length_filter_sum {A} (P : A -> Prop) `{!forall x, Decision (P x)} l :
  length (filter P l) = sum_list_with (fun x => if decide (P x) then 1%nat else 0%nat) l.
Proof.
  induction l as [|x l IH]; [done|]. rewrite filter_cons. cbn [sum_list_with].
  case_decide; simpl; lia.
Qed.

Lemma filter_list_prod (out : nat -> list nat) l ns :
  length (filter (fun p => p.2 ∈ out p.1) (list_prod l ns)) =
  sum_list_with (fun u => length (filter (fun w => w ∈ out u) ns)) l.
Proof.
  induction l as [|u l IH]; [done|]. cbn [list_prod sum_list_with].
  rewrite filter_app, length_app, IH. f_equal. clear IH l.
  induction ns as [|w ns IH]; [done|]. cbn [map]. rewrite !filter_cons. simpl.
  case_decide; simpl; by rewrite IH.
Qed.

Lemma edge_pairs_sum out ns :
  NoDup ns -> (forall u, NoDup (out u)) ->
  edge_pairs out ns = sum_list_with (fun u => length (filter (fun w => w ∈ ns) (out u))) ns.
Proof.
  intros Hns Ho. unfold edge_pairs. rewrite filter_list_prod.
  assert (forall l, sum_list_with (fun u => length (filter (fun w => w ∈ out u) ns)) l =
    sum_list_with (fun u => length (filter (fun w => w ∈ ns) (out u))) l) as Hl; [|apply Hl].
  induction l as [|u l IH]; [done|]. cbn [sum_list_with]. rewrite IH. f_equal. by apply filter_elem_swap.
Qed.

Lemma res_fold_pure {A B} (f : A -> B -> res A) (h : A -> B -> A) l a :
  (forall a b, b ∈ l -> f a b = Val (h a b)) -> res_fold f a l = Val (foldl h a l).
Proof.
  revert a. induction l as [|b l IH]; intros a Hf; [done|]. cbn [res_fold foldl].
  rewrite Hf by (left). bind_val. apply IH. intros a' b' Hb. apply Hf. by right.
Qed.

Lemma in_degree g vs out inn u :
  csr_repr g vs out inn -> (u < m_num_vertices g)%nat ->
  get_in_degree g u = Val (length (nbr inn u)).
Proof.
  intros Hr Hu. destruct (in_interval g vs out inn Hr u Hu) as (s & Hs & _). unfold get_in_degree.
  rewrite Hs. bind_step. f_equal. lia.
Qed.

Lemma push_all l (e : list nat) (S : gset nat) :
  (forall w, w ∈ S <-> w ∈ e) ->
  exists S' : gset nat, foldl push_neighbour (e, S) l = (e ++ l, S') /\ forall w, w ∈ S' <-> w ∈ e ++ l.
Proof.
  revert e S. induction l as [|u l IH]; intros e S HS; cbn [foldl].
  - exists S. rewrite app_nil_r. by split.
  - unfold push_neighbour at 2. cbn [fst snd].
    destruct (IH (e ++ [u]) ({[u]} ∪ S)) as (S' & -> & HS').
    { intros w. rewrite elem_of_union, elem_of_singleton, HS, elem_of_app, list_elem_of_singleton. tauto. }
    exists S'. by rewrite <- app_assoc in *.
Qed.

(** Elements that are already present are skipped. *)
Lemma push_new l (e : list nat) (S : gset nat) :
  NoDup l -> (forall w, w ∈ S <-> w ∈ e) ->
  exists S' : gset nat,
    foldl (fun st u => if decide (u ∈ st.2) then st else push_neighbour st u) (e, S) l =
      (e ++ filter (fun u => u ∉ e) l, S') /\
    forall w, w ∈ S' <-> w ∈ e ++ filter (fun u => u ∉ e) l.
Proof.
  revert e S. induction l as [|u l IH]; intros e S Hnd HS; cbn [foldl].
  { exists S. rewrite filter_nil, app_nil_r. by split. }
  apply NoDup_cons in Hnd as [Hu Hnd]. rewrite filter_cons. cbn [snd].
  destruct (decide (u ∈ S)) as [Hin|Hin]; rewrite HS in Hin.
  - rewrite decide_False by tauto. by apply IH.
  - rewrite decide_True by done. unfold push_neighbour at 2. cbn [fst snd].
    destruct (IH (e ++ [u]) ({[u]} ∪ S) Hnd) as (S' & -> & HS').
    { intros w. rewrite elem_of_union, elem_of_singleton, HS, elem_of_app, list_elem_of_singleton. tauto. }
    assert (filter (fun x => x ∉ e ++ [u]) l = filter (fun x => x ∉ e) l) as Heq.
    { clear - Hu. induction l as [|x l IH]; [done|]. apply not_elem_of_cons in Hu as [Hux Hu].
      rewrite !filter_cons. destruct (decide (x ∉ e)) as [Hx|Hx].
      - rewrite decide_True by set_solver. f_equal. by apply IH.
      - rewrite decide_False by set_solver. by apply IH. }
    exists S'. rewrite Heq in *. by rewrite <- app_assoc in *.
Qed.

Section lcc_sets.
Context `{Omp, Timer} (g : CSR) (vs : list Z) (out inn : list (list (nat * double))).
Context (Hr : csr_repr g vs out inn).
Context (Hnd_out : forall u, NoDup (nbr out u)) (Hnd_in : forall u, NoDup (nbr inn u)).

Notation N := (m_num_vertices g).

(** The neighbours of [v] over the edges in both directions. *)
Definition neighbourhood (v : nat) : list nat :=
  nbr out v ++ filter (fun u => u ∉ nbr out v) (nbr inn v).

Lemma neighbourhood_NoDup v : NoDup (neighbourhood v).
Proof.
  apply NoDup_app. split_and!; [done| |by apply NoDup_filter].
  intros u Hu [Hn _]%list_elem_of_filter. done.
Qed.

Lemma neighbourhood_lt v u : u ∈ neighbourhood v -> (u < N)%nat.
Proof.
  intros [Hu|[_ Hu]%list_elem_of_filter]%elem_of_app; [by eapply nbr_out_lt|by eapply nbr_in_lt].
Qed.

Lemma count_closing_spec (ns : list nat) (S : gset nat) n u :
  (forall w, w ∈ S <-> w ∈ ns) -> (u < N)%nat ->
  count_closing g S n u = Val (n + length (filter (fun w => w ∈ ns) (nbr out u)))%nat.
Proof.
  intros HS Hu. unfold count_closing.
  destruct (out_interval g vs out inn Hr u Hu) as (s & -> & Hfold). bind_step.
  replace (s + length (nbr out u) - s)%nat with (length (nbr out u)) by lia.
  rewrite (Hfold _ (fun n w => Val (if decide (w ∈ S) then (n + 1)%nat else n))).
  generalize (nbr out u). intros l. revert n.
  induction l as [|w l IH]; intros n; cbn [res_fold].
  { by rewrite Nat.add_0_r. }
  bind_val. rewrite IH, filter_cons. f_equal.
  destruct (decide (w ∈ S)) as [Hw|Hw]; rewrite HS in Hw; [rewrite decide_True by done|by rewrite decide_False].
  cbn [length]. lia.
Qed.

Lemma count_all_spec (ns : list nat) (S : gset nat) l n :
  (forall w, w ∈ S <-> w ∈ ns) -> (forall u, u ∈ l -> (u < N)%nat) ->
  res_fold (count_closing g S) n l =
  Val (n + sum_list_with (fun u => length (filter (fun w => w ∈ ns) (nbr out u))) l)%nat.
Proof.
  intros HS. revert n. induction l as [|u l IH]; intros n Hl; cbn [res_fold sum_list_with].
  { by rewrite Nat.add_0_r. }
  rewrite (count_closing_spec ns) by (done || (apply Hl; left)). bind_val.
  rewrite IH by (intros w Hw; apply Hl; by right). f_equal. lia.
Qed.

Lemma lcc_directed_vertex_spec v :
  (v < N)%nat -> lcc_directed_vertex g v = Val (lcc_of (nbr out) (neighbourhood v)).
Proof.
  intros Hv. unfold lcc_directed_vertex.
  rewrite (out_degree g vs out inn Hr v Hv), (in_degree g vs out inn v Hr Hv). do 2 bind_step.
  assert (length (neighbourhood v) <= length (nbr inn v) + length (nbr out v))%nat as Hub.
  { unfold neighbourhood. rewrite length_app. pose proof (length_filter (fun u => u ∉ nbr out v) (nbr inn v)). lia. }
  unfold lcc_of. destruct (Nat.ltb_spec (length (nbr inn v) + length (nbr out v)) 2) as [Hlt|Hge].
  { by rewrite (proj2 (Nat.ltb_lt _ _)) by lia. }
  destruct (out_interval g vs out inn Hr v Hv) as (s & -> & Hfold). bind_step.
  replace (s + length (nbr out v) - s)%nat with (length (nbr out v)) by lia.
  rewrite (Hfold _ (fun st u => Val (push_neighbour st u))).
  rewrite (res_fold_pure _ push_neighbour) by done. bind_val.
  destruct (push_all (nbr out v) [] ∅) as (S & -> & HS); [set_solver|]. rewrite app_nil_l in *. bind_step.
  destruct (in_interval g vs out inn Hr v Hv) as (s' & -> & Hfold' & _). bind_step.
  replace (s' + length (nbr inn v) - s')%nat with (length (nbr inn v)) by lia.
  rewrite (Hfold' _ (fun st u => Val (if decide (u ∈ st.2) then st else push_neighbour st u))).
  rewrite (res_fold_pure _ (fun st u => if decide (u ∈ st.2) then st else push_neighbour st u)) by done.
  bind_val. destruct (push_new (nbr inn v) (nbr out v) S) as (S' & -> & HS'); [done..|]. bind_step.
  fold (neighbourhood v) in *. fold (neighbourhood v).
  destruct (length (neighbourhood v) <? 2)%nat; [done|].
  rewrite (count_all_spec (neighbourhood v)) by (done || apply neighbourhood_lt). bind_step.
  by rewrite edge_pairs_sum by (done || apply neighbourhood_NoDup).
Qed.

Lemma lcc_undirected_vertex_spec v :
  (v < N)%nat -> lcc_undirected_vertex g v = Val (lcc_of (nbr out) (nbr out v)).
Proof.
  intros Hv. unfold lcc_undirected_vertex, lcc_of.
  rewrite (out_degree g vs out inn Hr v Hv). bind_step.
  destruct (length (nbr out v) <? 2)%nat; [done|].
  destruct (out_interval g vs out inn Hr v Hv) as (s & -> & Hfold). bind_step.
  replace (s + length (nbr out v) - s)%nat with (length (nbr out v)) by lia.
  rewrite (Hfold _ (fun S u => Val ({[u]} ∪ S))).
  rewrite (res_fold_pure _ (fun S u => {[u]} ∪ S)) by done. bind_val.
  rewrite (Hfold _ (count_closing g (foldl (fun S u => {[u]} ∪ S) ∅ (nbr out v)))).
  rewrite (count_all_spec (nbr out v)).
  - bind_step. by rewrite edge_pairs_sum by done.
  - assert (forall l (S : gset nat) w, w ∈ foldl (fun S u => {[u]} ∪ S) S l <-> w ∈ S \/ w ∈ l) as Hl.
    { intros l. induction l as [|u l IH]; intros S w; cbn [foldl]; [set_solver|]. rewrite IH. set_solver. }
    intros w. rewrite Hl. set_solver.
  - intros u Hu. by eapply nbr_out_lt.
Qed.

(** The loop over the vertices, for any way to compute a score. *)
Lemma lcc_loop_spec vertex score :
  (forall v, (v < N)%nat -> vertex g v = Val (score v)) ->
  exists lcc k, lcc_loop g vertex = Val (lcc, k) /\
    length lcc = N /\ (is_timeout k = true \/ lcc = score <$> seq 0 N).
Proof.
  intros Hs. unfold lcc_loop.
  destruct (omp_fold_inv 0 (fun done '((lcc, k) : list double * nat) =>
      length lcc = N /\ ((exists j, (j < k)%nat /\ is_timeout j = true) \/
        forall v, v ∈ done -> lcc !! v = Some (score v)))
    (fun '(lcc, k) v =>
       if is_timeout k then Val (lcc, S k)
       else x ← vertex g v; lcc ← arr_set lcc v x; Val (lcc, S k))
    (seq 0 N) (replicate N d_nan, 0%nat)) as ([lcc k] & -> & Hl & Hcase).
  - split; [by rewrite length_replicate|]. right. intros v Hv. by apply elem_of_nil in Hv.
  - intros done v [lcc k] Hv%elem_of_seq _ [Hl Hcase]. destruct (is_timeout k) eqn:Ht.
    { eexists. split; [done|]. split; [done|]. left. exists k. split; [lia|done]. }
    rewrite Hs by lia. bind_step. rewrite arr_set_val by lia. bind_step.
    eexists. split; [done|]. cbv beta iota. rewrite length_insert. split; [done|].
    destruct Hcase as [(j & Hj & Htj)|Hin]; [left; exists j; split; [lia|done]|right].
    intros u Hu. destruct (decide (v = u)) as [<-|Hne].
    + by rewrite list_lookup_insert_eq by lia.
    + rewrite list_lookup_insert_ne by done. apply Hin. set_solver.
  - intros l [lcc k] Hp [Hl Hcase]. split; [done|]. destruct Hcase as [?|Hin]; [by left|right].
    intros v. rewrite <- Hp. apply Hin.
  - exists lcc, k. split_and!; [done|done|]. destruct Hcase as [(j & Hj & Htj)|Hin].
    + left. apply (is_timeout_mono j); [lia|done].
    + right. apply list_eq_same_length with N; [by rewrite length_fmap, length_seq|done|].
      intros i x y Hi Hx Hy. rewrite Hin in Hx by (apply elem_of_seq; lia).
      rewrite list_lookup_fmap, lookup_seq_lt in Hy by done. simpl in Hy. congruence.
Qed.

(** C18: the clustering coefficient of every vertex is, unless the timer expires,
    the number of ordered pairs of neighbours that are joined by an edge, over
    the number of ordered pairs of neighbours (zero for less than two
    neighbours); the neighbours of a directed graph are those in either
    direction, each counted once. *)
Theorem lcc_correct :
  (lcc g = Exn TimeoutError /\ exists k, is_timeout k = true) \/
  lcc g = Val (zip vs ((fun v => lcc_of (nbr out)
    (if m_is_directed g then neighbourhood v else nbr out v)) <$> seq 0 N)).
Proof.
  unfold lcc, do_lcc, do_lcc_directed, do_lcc_undirected.
  set (score := fun v => lcc_of (nbr out) _).
  assert (exists scores k, (if m_is_directed g then
       if m_is_directed g then lcc_loop g lcc_directed_vertex else Undef
     else if m_is_directed g then Undef else lcc_loop g lcc_undirected_vertex) = Val (scores, k) /\
     length scores = N /\ (is_timeout k = true \/ scores = score <$> seq 0 N))
    as (scores & k & -> & Hl & Hcase).
  { unfold score. destruct (m_is_directed g); apply lcc_loop_spec; intros v Hv.
    - by apply lcc_directed_vertex_spec.
    - by apply lcc_undirected_vertex_spec. }
  bind_step. destruct (is_timeout k) eqn:Hk; [left; eauto|]. destruct Hcase as [?|Hsc]; [done|].
  rewrite (translate_spec g vs out inn Hr) by done. bind_step.
  destruct (is_timeout (k + 1)) eqn:Hk1; [left; eauto|right].
  subst scores. unfold save_results. cbn [negb andb]. f_equal. apply list_fmap_id.
Qed.
End lcc_sets.

(** ** The sort-merge implementation agrees *)

(** [tri'] is [tri] with [f v] more triangles for each [v]. *)
Definition adds (tri tri' : list nat) (f : nat -> nat) : Prop :=
  length tri' = length tri /\
  forall v x, tri !! v = Some x -> tri' !! v = Some (x + f v)%nat.

Definition delta (v w : nat) : nat := if decide (v = w) then 1 else 0.

Lemma adds_refl tri : adds tri tri (fun _ => 0%nat).
Proof. split; [done|]. intros v x Hx. by rewrite Nat.add_0_r. Qed.

Lemma adds_trans t1 t2 t3 f h : adds t1 t2 f -> adds t2 t3 h -> adds t1 t3 (fun v => f v + h v)%nat.
Proof.
  intros [Hl1 H1] [Hl2 H2]. split; [congruence|]. intros v x Hx.
  rewrite (H2 v (x + f v)%nat) by auto. f_equal. lia.
Qed.

Lemma adds_ext t1 t2 f h : (forall v, f v = h v) -> adds t1 t2 f -> adds t1 t2 h.
Proof. intros Hfh [Hl Hf]. split; [done|]. intros v x Hx. rewrite <- Hfh. auto. Qed.

Lemma add_triangles_spec tri v a :
  (v < length tri)%nat ->
  exists tri', add_triangles tri v a = Val tri' /\ adds tri tri' (fun w => a * delta w v)%nat.
Proof.
  intros Hv. destruct (lookup_lt_is_Some_2 tri v Hv) as [x Hx]. unfold add_triangles.
  rewrite (arr_get_val _ _ _ Hx). bind_val. rewrite arr_set_val by done.
  eexists. split; [done|]. split; [by rewrite length_insert|]. intros w y Hy. unfold delta.
  case_decide as Hwv.
  - subst. rewrite list_lookup_insert_eq by done. simplify_eq. f_equal. lia.
  - rewrite list_lookup_insert_ne by done. rewrite Hy. f_equal. lia.
Qed.

(** The edges in the interval of a vertex. *)
Lemma out_edges g vs out inn u :
  csr_repr g vs out inn -> (u < m_num_vertices g)%nat -> exists s,
    get_out_interval g u = Val (s, (s + length (nbr out u))%nat) /\
    forall i x, nbr out u !! i = Some x -> m_out_e g !! (s + i)%nat = Some x.
Proof.
  intros Hr Hu. destruct (lookup_out g vs out inn Hr u Hu) as [l Hl]. exists (off out u).
  rewrite (nbr_lookup _ _ _ Hl), length_fmap. split.
  - apply (get_interval_flat _ _ _ _ _ _ _ (cr_out _ _ _ _ Hr)); [|done].
    by rewrite (cr_out_length _ _ _ _ Hr), (cr_num_vertices _ _ _ _ Hr).
  - intros i x Hi. rewrite list_lookup_fmap in Hi. destruct (l !! i) as [p|] eqn:Hp; [|done].
    injection Hi as <-. by destruct (at_offset_flat _ _ _ _ _ _ (cr_out _ _ _ _ Hr) Hl i p Hp).
Qed.

Lemma filter_none {A} (P : A -> Prop) `{!forall x, Decision (P x)} l :
  Forall (fun x => ~ P x) l -> filter P l = [].
Proof. induction 1 as [|x l Hx Hall IH]; [done|]. by rewrite filter_cons, decide_False. Qed.

Section sort_merge.
Context (g : CSR) (vs : list Z) (out inn : list (list (nat * double))).
Context (Hr : csr_repr g vs out inn).
Context (Hsorted : forall u, StronglySorted lt (nbr out u)).
Context (Hsym : forall u w, w ∈ nbr out u -> u ∈ nbr out w).
Context (Hirr : forall u, u ∉ nbr out u).

Notation N := (m_num_vertices g).

Lemma sorted_lt_NoDup (l : list nat) : StronglySorted lt l -> NoDup l.
Proof.
  induction 1 as [|x l Hs IH Hall]; constructor; [|done]. intros Hx.
  eapply Forall_forall in Hall; [|exact Hx]. simpl in Hall. lia.
Qed.

Lemma sorted_lookup (l : list nat) i j x y :
  StronglySorted lt l -> l !! i = Some x -> l !! j = Some y -> (i < j)%nat -> (x < y)%nat.
Proof.
  intros Hs. revert i j. induction Hs as [|z l Hs IH Hall]; intros i j Hi Hj Hij; [done|].
  destruct j as [|j]; [lia|]. destruct i as [|i]; simpl in *.
  - simplify_eq. eapply Forall_forall in Hall; [|by eapply list_elem_of_lookup_2]. done.
  - eapply IH; [done..|lia].
Qed.

Lemma advance_marker_spec nb n3 marker fuel m :
  nb !! marker = Some m -> (m < n3)%nat -> (length nb <= fuel + marker)%nat ->
  (forall i x, (i < marker)%nat -> nb !! i = Some x -> (x < n3)%nat) ->
  exists marker', advance_marker nb n3 marker fuel = Val marker' /\
    (marker < marker' <= length nb)%nat /\
    (forall i x, (i < marker')%nat -> nb !! i = Some x -> (x < n3)%nat) /\
    (forall x, nb !! marker' = Some x -> (n3 <= x)%nat).
Proof.
  revert marker m. induction fuel as [|fuel IH]; intros marker m Hm Hlt Hfuel Hpre.
  { apply lookup_lt_Some in Hm. lia. }
  cbn [advance_marker]. apply lookup_lt_Some in Hm as Hml.
  assert (forall i x, (i < marker + 1)%nat -> nb !! i = Some x -> (x < n3)%nat) as Hpre'.
  { intros i x Hi Hx. destruct (decide (i = marker)) as [->|]; [congruence|]. apply (Hpre i); [lia|done]. }
  destruct (Nat.ltb_spec (marker + 1) (length nb)) as [Hl|Hl].
  - destruct (lookup_lt_is_Some_2 nb (marker + 1)%nat Hl) as [m' Hm'].
    rewrite (arr_get_val _ _ _ Hm'). bind_val. destruct (Nat.ltb_spec m' n3) as [Hlt'|Hge].
    + destruct (IH (marker + 1)%nat m') as (mk & -> & Hmk & H1 & H2); [done|done|lia|done|].
      exists mk. split_and!; (done || lia).
    + exists (marker + 1)%nat. split_and!; try done; [lia|lia|]. intros x Hx. by simplify_eq.
  - exists (marker + 1)%nat. split_and!; try done; [lia|lia|].
    intros x Hx. apply lookup_lt_Some in Hx. lia.
Qed.

(** The common neighbours found for [n2], and their contributions. *)
Definition commons (nb l : list nat) (n2 : nat) : list nat :=
  filter (fun n3 => (n3 < n2)%nat /\ n3 ∈ nb) l.

Lemma commons_nil_ge nb l n2 : Forall (fun x => (n2 < x)%nat) l -> commons nb l n2 = [].
Proof.
  induction 1 as [|x l Hx Hall IH]; [done|]. unfold commons. rewrite filter_cons, decide_False by lia. done.
Qed.

Lemma merge_loop_spec nb n1 n2 l j marker num tri :
  StronglySorted lt nb -> n2 ∈ nb -> (forall x, x ∈ nb -> (x <= n2)%nat) -> (n2 < n1)%nat ->
  StronglySorted lt l -> n2 ∉ l ->
  (forall i x, l !! i = Some x -> m_out_e g !! (j + i)%nat = Some x) ->
  (marker < length nb)%nat ->
  (forall i x y, (i < marker)%nat -> nb !! i = Some x -> y ∈ l -> (x < y)%nat) ->
  length tri = N -> (forall x, x ∈ nb -> (x < N)%nat) ->
  exists tri', merge_loop (m_out_e g) nb n1 n2 j (length l) marker num tri =
    Val (num + 2 * length (commons nb l n2), tri')%nat /\
    adds tri tri' (fun v => 2 * sum_list_with (fun n3 => delta v n2 + delta v n3) (commons nb l n2))%nat.
Proof.
  intros Hnb Hn2 Hmax Hlt. revert j marker num tri.
  induction l as [|n3 l IH]; intros j marker num tri Hl Hn2l Hoe Hmk Hpre Htri HnbN.
  { exists tri. cbn [length merge_loop]. unfold commons. rewrite filter_nil. simpl.
    rewrite Nat.add_0_r. split; [done|]. apply adds_refl. }
  cbn [length merge_loop].
  pose proof (Hoe 0%nat n3 eq_refl) as H0. rewrite Nat.add_0_r in H0.
  rewrite (arr_get_val _ _ _ H0). bind_val. inversion Hl as [|? ? Hl' Hall]; subst.
  apply not_elem_of_cons in Hn2l as [Hne Hn2l].
  destruct (Nat.ltb_spec n2 n3) as [Hgt|Hle].
  { exists tri. rewrite commons_nil_ge.
    - simpl. rewrite Nat.add_0_r. split; [done|]. apply adds_refl.
    - constructor; [done|]. eapply Forall_impl; [exact Hall|]. simpl. intros x Hx. lia. }
  rewrite (proj2 (Nat.ltb_lt n2 n1)), (proj2 (Nat.ltb_lt n3 n2)) by lia. cbn [andb negb].
  destruct (lookup_lt_is_Some_2 nb marker Hmk) as [m Hm].
  rewrite (arr_get_val _ _ _ Hm). bind_val.
  assert (exists marker', (if (m <? n3)%nat then advance_marker nb n3 marker (length nb) else Val marker)
      = Val marker' /\ (marker <= marker' <= length nb)%nat /\
    (forall i x, (i < marker')%nat -> nb !! i = Some x -> (x < n3)%nat) /\
    (forall x, nb !! marker' = Some x -> (n3 <= x)%nat)) as (mk & -> & Hmk1 & Hmk2 & Hmk3).
  { destruct (Nat.ltb_spec m n3) as [Hlt'|Hge].
    - destruct (advance_marker_spec nb n3 marker (length nb) m) as (mk & Heq & Hmk' & H1 & H2);
        [done|done|lia| |].
      + intros i x Hi Hx. eapply Hpre; [exact Hi|exact Hx|left].
      + exists mk. split_and!; try done; lia.
    - exists marker. split_and!; try done; [lia| |intros x Hx; by simplify_eq].
      intros i x Hi Hx. eapply Hpre; [exact Hi|exact Hx|left]. }
  bind_val.
  (* n2 itself is not behind the marker *)
  apply list_elem_of_lookup in Hn2 as Hn2'. destruct Hn2' as [k2 Hk2].
  assert (mk <= k2)%nat as Hk2m.
  { destruct (decide (mk <= k2)%nat); [done|]. specialize (Hmk2 k2 n2 ltac:(lia) Hk2). lia. }
  pose proof (lookup_lt_Some _ _ _ Hk2) as Hk2l.
  rewrite (proj2 (Nat.leb_gt _ _)) by lia.
  destruct (lookup_lt_is_Some_2 nb mk) as [m' Hm']; [lia|].
  rewrite (arr_get_val _ _ _ Hm'). bind_val.
  assert (forall i x, l !! i = Some x -> m_out_e g !! (S j + i)%nat = Some x) as Hoe'.
  { intros i x Hi. replace (S j + i)%nat with (j + S i)%nat by lia. by apply Hoe. }
  unfold commons. rewrite filter_cons. fold (commons nb l n2).
  destruct (Nat.eqb_spec n3 m') as [->|Hne3].
  - assert (m' ∈ nb) as Hin by (by eapply list_elem_of_lookup_2).
    rewrite decide_True by (split; [lia|done]).
    destruct (add_triangles_spec tri n2 2) as (t1 & -> & Ht1); [rewrite Htri; auto|]. bind_val.
    destruct (add_triangles_spec t1 m' 2) as (t2 & -> & Ht2).
    { destruct Ht1 as [-> _]. rewrite Htri. auto. } bind_val.
    assert (mk < k2)%nat as Hlt2.
    { assert (mk <> k2); [|lia]. intros ->. rewrite Hk2 in Hm'. injection Hm'. lia. }
    rewrite (proj2 (Nat.leb_gt _ _)) by lia.
    destruct (IH (S j) (mk + 1)%nat (num + 2)%nat t2) as (t3 & -> & Ht3); try done.
    + lia.
    + intros i x y Hi Hx Hy. eapply Forall_forall in Hall; [|exact Hy]. simpl in Hall.
      assert (x <= m')%nat; [|lia]. destruct (decide (i = mk)) as [->|]; [simplify_eq; lia|].
      specialize (Hmk2 i x ltac:(lia) Hx). lia.
    + destruct Ht2 as [-> _], Ht1 as [-> _]. done.
    + exists t3. split; [do 2 f_equal; simpl; lia|].
      eapply adds_ext; [|eapply adds_trans; [eapply adds_trans; [exact Ht1|exact Ht2]|exact Ht3]].
      intros v. cbn [sum_list_with]. lia.
  - assert (n3 ∉ nb) as Hnin.
    { intros [i Hi]%list_elem_of_lookup. destruct (decide (i < mk)%nat) as [Hi'|Hi'].
      - specialize (Hmk2 i n3 Hi' Hi). lia.
      - specialize (Hmk3 m' Hm'). destruct (decide (i = mk)) as [->|]; [simplify_eq|].
        pose proof (sorted_lookup nb mk i m' n3 Hnb Hm' Hi ltac:(lia)). lia. }
    rewrite decide_False by tauto. apply IH; try done.
    + lia.
    + intros i x y Hi Hx Hy. eapply Forall_forall in Hall; [|exact Hy]. simpl in Hall.
      specialize (Hmk2 i x Hi Hx). lia.
Qed.

(** The contributions of the vertex [c]: one triangle for each [b] and [a]
    below it. *)
Definition common_of (c b : nat) : list nat :=
  filter (fun a => (a < b)%nat /\ a ∈ nbr out c) (nbr out b).

Definition lower (c : nat) : list nat := filter (fun b => (b < c)%nat) (nbr out c).

Lemma neighbours_loop_spec c done l i num tri :
  nbr out c = done ++ l -> (forall x, x ∈ done -> (x < c)%nat) ->
  (forall k x, l !! k = Some x -> m_out_e g !! (i + k)%nat = Some x) -> length tri = N ->
  exists tri', neighbours_loop g c i (length l) done num tri =
    Val (num + sum_list_with (fun b => 2 * length (common_of c b))
           (filter (fun b => (b < c)%nat) l), tri')%nat /\
    adds tri tri' (fun v => sum_list_with
      (fun b => 2 * sum_list_with (fun a => delta v b + delta v a) (common_of c b))
      (filter (fun b => (b < c)%nat) l))%nat.
Proof.
  revert done i num tri. induction l as [|b l IH]; intros dn i num tri Hc Hdn Hoe Htri.
  { exists tri. rewrite filter_nil. simpl. rewrite Nat.add_0_r. split; [done|apply adds_refl]. }
  cbn [length neighbours_loop].
  pose proof (Hoe 0%nat b eq_refl) as H0. rewrite Nat.add_0_r in H0.
  rewrite (arr_get_val _ _ _ H0). bind_val.
  pose proof (Hsorted c) as Hs. rewrite Hc in Hs.
  assert (b ∈ nbr out c) as Hbc by (rewrite Hc; set_solver).
  destruct (nbr_out_lt g vs out inn Hr _ _ Hbc) as [HcN HbN].
  assert (b <> c) as Hne by (intros ->; by apply (Hirr c)).
  destruct (Nat.ltb_spec c b) as [Hgt|Hle].
  { exists tri. assert (filter (fun b => (b < c)%nat) (b :: l) = []) as ->.
    { apply filter_none. apply StronglySorted_app in Hs as (_ & _ & Hs).
      inversion Hs as [|? ? _ Hall]; subst. constructor; [lia|].
      eapply Forall_impl; [exact Hall|]. simpl. intros; lia. }
    simpl. rewrite Nat.add_0_r. split; [done|apply adds_refl]. }
  destruct (out_edges g vs out inn b Hr HbN) as (s & -> & Hb). bind_step.
  replace (s + length (nbr out b) - s)%nat with (length (nbr out b)) by lia.
  apply StronglySorted_app in Hs as Hs'. destruct Hs' as (Hcross & Hsdn & Hsl).
  assert (commons (dn ++ [b]) (nbr out b) b = common_of c b) as Hcom.
  { unfold commons, common_of. apply list_filter_iff. intros a. rewrite Hc.
    split; intros [Hab Ha]; (split; [done|]); [set_solver|].
    apply elem_of_app in Ha as [Ha|Ha]; [set_solver|].
    apply elem_of_cons in Ha as [->|Ha]; [lia|].
    inversion Hsl as [|? ? _ Hall]; subst. eapply Forall_forall in Hall; [|exact Ha]. simpl in Hall. lia. }
  destruct (merge_loop_spec (dn ++ [b]) c b (nbr out b) s 0 num tri) as (t1 & -> & Ht1); try done.
  - apply StronglySorted_app. split_and!; [|done|repeat constructor].
    intros x y Hx ->%list_elem_of_singleton. apply Hcross; [done|left].
  - set_solver.
  - intros x [Hx|Hx%list_elem_of_singleton]%elem_of_app; [|lia].
    assert (x < b)%nat; [|lia]. apply Hcross; [done|left].
  - lia.
  - rewrite length_app. simpl. lia.
  - intros. lia.
  - intros x Hx. apply (nbr_out_lt g vs out inn Hr c). rewrite Hc. set_solver.
  - bind_step. rewrite Hcom in *.
    destruct (IH (dn ++ [b]) (S i) (num + 2 * length (common_of c b))%nat t1) as (t2 & -> & Ht2).
    + by rewrite <- app_assoc.
    + intros x [Hx|Hx%list_elem_of_singleton]%elem_of_app; [by apply Hdn|lia].
    + intros k x Hk. replace (S i + k)%nat with (i + S k)%nat by lia. by apply Hoe.
    + destruct Ht1 as [-> _]. done.
    + exists t2. rewrite filter_cons, decide_True by lia. cbn [sum_list_with]. split.
      * do 2 f_equal. lia.
      * eapply adds_trans; [exact Ht1|exact Ht2].
Qed.

(** What [process_vertex c] adds to the counter of [v]. *)
Definition contribution_of (c v : nat) : nat :=
  (sum_list_with (fun b => 2 * sum_list_with (fun a => delta v a + delta v b + delta v c) (common_of c b))
    (lower c))%nat.

Lemma sum_list_with_add {A} (f h : A -> nat) l :
  sum_list_with (fun x => f x + h x)%nat l = (sum_list_with f l + sum_list_with h l)%nat.
Proof. induction l as [|x l IH]; [done|]. cbn [sum_list_with]. lia. Qed.

Lemma sum_list_with_mul {A} k (f : A -> nat) l :
  sum_list_with (fun x => k * f x)%nat l = (k * sum_list_with f l)%nat.
Proof. induction l as [|x l IH]; cbn [sum_list_with]; lia. Qed.

Lemma sum_list_with_const {A} k (l : list A) : sum_list_with (fun _ => k) l = (k * length l)%nat.
Proof. induction l as [|x l IH]; cbn [sum_list_with length]; lia. Qed.

Lemma process_vertex_spec tri c :
  (c < N)%nat -> length tri = N ->
  exists tri', process_vertex g tri c = Val tri' /\ adds tri tri' (contribution_of c).
Proof.
  intros Hc Htri. unfold process_vertex.
  destruct (out_edges g vs out inn c Hr Hc) as (s & -> & Hoe). bind_step.
  replace (s + length (nbr out c) - s)%nat with (length (nbr out c)) by lia.
  destruct (neighbours_loop_spec c [] (nbr out c) s 0 tri) as (t1 & -> & Ht1);
    [done|intros x Hx; by apply elem_of_nil in Hx|done|done|].
  bind_step. fold (lower c) in *. rewrite Nat.add_0_l. set (num := sum_list_with _ (lower c)).
  assert (forall v, contribution_of c v =
    (sum_list_with (fun b => 2 * sum_list_with (fun a => delta v b + delta v a) (common_of c b)) (lower c)
     + num * delta v c)%nat) as Hsum.
  { intros v. unfold contribution_of, num. clear Ht1 num.
    induction (lower c) as [|b l IH]; [done|].
    cbn [sum_list_with]. rewrite IH.
    assert (sum_list_with (fun a => delta v a + delta v b + delta v c)%nat (common_of c b) =
      sum_list_with (fun a => delta v b + delta v a)%nat (common_of c b)
      + length (common_of c b) * delta v c)%nat as ->; [|lia].
    induction (common_of c b) as [|a l' IH']; [done|]. cbn [sum_list_with length]. lia. }
  destruct (Nat.eqb_spec num 0) as [Hz|Hnz].
  - exists t1. split; [done|]. eapply adds_ext; [|exact Ht1]. intros v. rewrite Hsum, Hz. lia.
  - destruct (add_triangles_spec t1 c num) as (t2 & Heq & Ht2).
    { destruct Ht1 as [-> _]. lia. }
    exists t2. split; [done|]. eapply adds_ext; [|eapply adds_trans; [exact Ht1|exact Ht2]].
    intros v. by rewrite Hsum.
Qed.

(** *** Counting the triangles *)

Notation E := (fun u w => w ∈ nbr out u).

Definition sumN (f : nat -> nat) : nat := sum_list_with f (seq 0 N).

Lemma sumN_ext f h : (forall x, (x < N)%nat -> f x = h x) -> sumN f = sumN h.
Proof. intros Hf. apply sum_list_with_ext. intros x Hx%elem_of_seq. apply Hf. lia. Qed.

Lemma sum_filter {A} (P : A -> Prop) `{!forall x, Decision (P x)} (f : A -> nat) l :
  sum_list_with f (filter P l) = sum_list_with (fun x => if decide (P x) then f x else 0)%nat l.
Proof.
  induction l as [|x l IH]; [done|]. rewrite filter_cons. cbn [sum_list_with].
  case_decide; cbn [sum_list_with]; lia.
Qed.

Lemma sum_nbr u f :
  sum_list_with f (nbr out u) = sumN (fun x => if decide (x ∈ nbr out u) then f x else 0)%nat.
Proof.
  unfold sumN. rewrite <- (sum_filter (fun x => x ∈ nbr out u)). apply sum_list_with_perm.
  apply NoDup_Permutation.
  - apply sorted_lt_NoDup, Hsorted.
  - apply NoDup_filter, NoDup_seq.
  - intros x. rewrite list_elem_of_filter, elem_of_seq. split; [|tauto]. intros Hx. split; [done|].
    apply (nbr_out_lt g vs out inn Hr) in Hx. lia.
Qed.

Lemma sumN_delta h v : (v < N)%nat -> sumN (fun x => h x * delta v x)%nat = h v.
Proof.
  intros Hv. unfold sumN.
  assert (forall n s, sum_list_with (fun x => h x * delta v x)%nat (seq s n) =
    if decide (s <= v < s + n)%nat then h v else 0%nat) as Hs.
  { intros n. induction n as [|n IH]; intros s; cbn [seq sum_list_with].
    - by rewrite decide_False by lia.
    - rewrite IH. unfold delta. destruct (decide (v = s)) as [->|Hne].
      + rewrite decide_False by lia. rewrite decide_True by lia. lia.
      + destruct (decide (S s <= v < S s + n)%nat); [rewrite decide_True by lia|rewrite decide_False by lia]; lia. }
  rewrite Hs. by rewrite decide_True by lia.
Qed.

Lemma sumN_swap (f : nat -> nat -> nat) :
  sumN (fun x => sumN (fun y => f x y)) = sumN (fun y => sumN (fun x => f x y)).
Proof.
  unfold sumN. generalize (seq 0 N) at 2 3. intros l.
  induction l as [|x l IH]; cbn [sum_list_with].
  - by rewrite sum_list_with_const.
  - rewrite IH. by rewrite <- sum_list_with_add.
Qed.

Lemma sumN_add f h : sumN (fun x => f x + h x)%nat = (sumN f + sumN h)%nat.
Proof. apply sum_list_with_add. Qed.

Lemma sumN_mul k f : sumN (fun x => k * f x)%nat = (k * sumN f)%nat.
Proof. apply sum_list_with_mul. Qed.

(** The sorted triangles [a < b < c]. *)
Definition tri_at (c b a : nat) : nat :=
  if decide ((a < b)%nat /\ (b < c)%nat /\ E c b /\ E b a /\ E c a) then 1 else 0.

Lemma contribution_sum c v :
  contribution_of c v =
  sumN (fun b => sumN (fun a => 2 * (tri_at c b a * (delta v a + delta v b + delta v c)))%nat).
Proof.
  unfold contribution_of, lower. rewrite sum_filter, sum_nbr. apply sumN_ext. intros b Hb.
  unfold common_of. rewrite sum_filter, sum_nbr, <- sumN_mul.
  destruct (decide (b ∈ nbr out c)) as [Hbc|Hbc]; [destruct (decide (b < c)%nat) as [Hlt|Hlt]|].
  - apply sumN_ext. intros a Ha. unfold tri_at.
    repeat case_decide; try lia; exfalso; tauto.
  - symmetry. rewrite (sumN_ext _ (fun _ => 0%nat)); [unfold sumN; by rewrite sum_list_with_const|].
    intros a Ha. unfold tri_at. rewrite decide_False by tauto. lia.
  - symmetry. rewrite (sumN_ext _ (fun _ => 0%nat)); [unfold sumN; by rewrite sum_list_with_const|].
    intros a Ha. unfold tri_at. rewrite decide_False by tauto. lia.
Qed.

Lemma total_contribution v :
  (v < N)%nat ->
  sumN (fun c => contribution_of c v) =
  (2 * sumN (fun u => sumN (fun w => tri_at v u w + tri_at u v w + tri_at u w v)))%nat.
Proof.
  intros Hv.
  transitivity (sumN (fun c => sumN (fun b => sumN (fun a =>
    2 * (tri_at c b a * delta v a) + 2 * (tri_at c b a * delta v b) + 2 * (tri_at c b a * delta v c))))%nat).
  { apply sumN_ext. intros c _. rewrite contribution_sum. apply sumN_ext. intros b _.
    apply sumN_ext. intros a _. lia. }
  (* the three positions of [v] *)
  assert (sumN (fun c => sumN (fun b => sumN (fun a => tri_at c b a * delta v a)))%nat =
    sumN (fun u => sumN (fun w => tri_at u w v))) as H1.
  { apply sumN_ext. intros c _. apply sumN_ext. intros b _. by apply sumN_delta. }
  assert (sumN (fun c => sumN (fun b => sumN (fun a => tri_at c b a * delta v b)))%nat =
    sumN (fun u => sumN (fun w => tri_at u v w))) as H2.
  { apply sumN_ext. intros c _. rewrite sumN_swap. apply sumN_ext. intros a _.
    by apply (sumN_delta (fun b => tri_at c b a)). }
  assert (sumN (fun c => sumN (fun b => sumN (fun a => tri_at c b a * delta v c)))%nat =
    sumN (fun u => sumN (fun w => tri_at v u w))) as H3.
  { rewrite sumN_swap. apply sumN_ext. intros b _. rewrite sumN_swap. apply sumN_ext. intros a _.
    by apply (sumN_delta (fun c => tri_at c b a)). }
  rewrite (sumN_ext _ (fun c => sumN (fun b => 2 * sumN (fun a => tri_at c b a * delta v a)
     + 2 * sumN (fun a => tri_at c b a * delta v b) + 2 * sumN (fun a => tri_at c b a * delta v c)))%nat).
  2: { intros c _. apply sumN_ext. intros b _. by rewrite !sumN_add, !sumN_mul. }
  rewrite (sumN_ext _ (fun c => 2 * sumN (fun b => sumN (fun a => tri_at c b a * delta v a))
     + 2 * sumN (fun b => sumN (fun a => tri_at c b a * delta v b))
     + 2 * sumN (fun b => sumN (fun a => tri_at c b a * delta v c)))%nat).
  2: { intros c _. by rewrite !sumN_add, !sumN_mul. }
  rewrite !sumN_add, !sumN_mul, H1, H2, H3.
  rewrite (sumN_ext (fun u => sumN (fun w => tri_at v u w + tri_at u v w + tri_at u w v)%nat)
    (fun u => sumN (fun w => tri_at v u w) + sumN (fun w => tri_at u v w) + sumN (fun w => tri_at u w v))%nat)
    by (intros; by rewrite !sumN_add).
  rewrite !sumN_add. lia.
Qed.

(** The triangles through [v] are counted once for each order of the other two
    vertices. *)
Lemma edge_pairs_total v :
  (v < N)%nat -> edge_pairs (nbr out) (nbr out v) = sumN (fun c => contribution_of c v).
Proof.
  intros Hv. rewrite total_contribution by done.
  rewrite edge_pairs_sum by (intros; apply sorted_lt_NoDup, Hsorted).
  rewrite sum_nbr.
  set (X := fun u w => if decide (E v u /\ E u w /\ E v w) then 1%nat else 0%nat).
  transitivity (sumN (fun u => sumN (fun w => X u w))).
  { apply sumN_ext. intros u _. rewrite length_filter_sum, sum_nbr.
    destruct (decide (u ∈ nbr out v)) as [Huv|Huv].
    - apply sumN_ext. intros w _. unfold X. repeat case_decide; try lia; exfalso; tauto.
    - symmetry. rewrite (sumN_ext _ (fun _ => 0%nat)); [unfold sumN; by rewrite sum_list_with_const|].
      intros w _. unfold X. by rewrite decide_False by tauto. }
  set (L := fun u w => if decide ((w < u)%nat /\ E v u /\ E u w /\ E v w) then 1%nat else 0%nat).
  assert (forall u w, X u w = (L u w + L w u)%nat) as HX.
  { intros u w. unfold X, L.
    assert (E u w -> u <> w) as Hne by (intros Hu ->; by apply (Hirr w)).
    pose proof (Hsym u w). pose proof (Hsym w u).
    destruct (Nat.lt_trichotomy u w) as [Huw|[Huw|Huw]];
      [assert (~ (w < u)%nat) by lia|assert (~ (w < u)%nat /\ ~ (u < w)%nat) by lia|
       assert (~ (u < w)%nat) by lia];
      repeat case_decide; try lia; exfalso; tauto. }
  assert (forall u w, L u w = tri_at v u w + tri_at u v w + tri_at u w v)%nat as HL.
  { intros u w. unfold L, tri_at.
    assert (E v u -> v <> u) by (intros Hu ->; by apply (Hirr u)).
    assert (E v w -> v <> w) by (intros Hu ->; by apply (Hirr w)).
    pose proof (Hsym u w). pose proof (Hsym w u). pose proof (Hsym v w). pose proof (Hsym w v).
    pose proof (Hsym v u). pose proof (Hsym u v).
    destruct (Nat.lt_trichotomy w u) as [Huw|[->|Huw]];
      [|rewrite !decide_False by (intros Hd; destruct_and! Hd; by (apply (Hirr u) || lia)); lia
       |rewrite !decide_False by (intros Hd; destruct_and! Hd; lia); lia].
    destruct (Nat.lt_trichotomy v u) as [Hvu|[->|Hvu]];
      [|rewrite !decide_False by (intros Hd; destruct_and! Hd; by (apply (Hirr u) || lia)); lia|].
    - destruct (Nat.lt_trichotomy v w) as [Hvw|[->|Hvw]].
      + rewrite (decide_False (P := _ /\ (u < v)%nat /\ _)) by lia.
        rewrite (decide_False (P := _ /\ (v < u)%nat /\ _)) by lia.
        repeat case_decide; try lia; exfalso; tauto.
      + rewrite !decide_False by (intros Hd; destruct_and! Hd; by (apply (Hirr w) || lia)); lia.
      + rewrite (decide_False (P := _ /\ (u < v)%nat /\ _)) by lia.
        rewrite (decide_False (P := _ /\ (w < u)%nat /\ _)) by lia.
        repeat case_decide; try lia; exfalso; tauto.
    - assert (~ (v < u)%nat) by lia. assert (~ (w < v)%nat -> False) by lia.
      repeat case_decide; try lia; exfalso; tauto. }
  transitivity (sumN (fun u => sumN (fun w => L u w)) + sumN (fun u => sumN (fun w => L w u)))%nat.
  { rewrite <- sumN_add. apply sumN_ext. intros u _. rewrite <- sumN_add. apply sumN_ext. intros w _. apply HX. }
  rewrite (sumN_swap (fun u w => L w u)).
  rewrite (sumN_ext (fun u => sumN (fun w => L u w))
    (fun u => sumN (fun w => tri_at v u w + tri_at u v w + tri_at u w v)%nat)).
  - lia.
  - intros u _. apply sumN_ext. intros w _. apply HL.
Qed.

(** *** The windows and the scores *)

Definition window_vertices (windows : list (nat * nat)) : list nat :=
  concat ((fun w => seq w.1 (w.2 - w.1)) <$> windows).

Lemma fetch_tasks_spec `{Timer} fuel n m_next k :
  (0 < fuel)%nat -> (n < fuel + m_next)%nat ->
  exists windows k', fetch_tasks n m_next k fuel = Val (windows, k') /\
    Forall (fun v => (v < n)%nat) (window_vertices windows) /\
    (is_timeout k' = true \/ window_vertices windows = seq m_next (n - m_next)).
Proof.
  revert m_next k. induction fuel as [|fuel IH]; intros m_next k Hpos Hfuel; [lia|].
  cbn [fetch_tasks]; unfold next_task.
  destruct (Nat.leb_spec n m_next) as [Hle|Hgt].
  { exists [], k. split_and!; [done|constructor|]. right. by replace (n - m_next)%nat with 0%nat by lia. }
  destruct (is_timeout k) eqn:Ht.
  { exists [], (S k). split_and!; [done|constructor|]. left. apply (is_timeout_mono k); [lia|done]. }
  assert (0 < LCC_TASK_SIZE)%nat as Hsize by (apply Nat.ltb_lt; vm_compute; reflexivity).
  destruct (IH (m_next + LCC_TASK_SIZE)%nat (S k)) as (ws & k' & -> & Hall & Hcase); [lia|lia|]. bind_step.
  eexists _, k'. split; [done|]. unfold window_vertices in *. rewrite fmap_cons. cbn [concat fst snd].
  split.
  { apply Forall_app. split; [|done]. apply Forall_forall. intros v Hv%elem_of_seq. lia. }
  destruct Hcase as [?|Hw]; [by left|right]. rewrite Hw.
  destruct (Nat.le_gt_cases (m_next + LCC_TASK_SIZE) n).
  - rewrite Nat.min_l by lia.
    replace (m_next + LCC_TASK_SIZE - m_next)%nat with LCC_TASK_SIZE by lia.
    replace (n - m_next)%nat with (LCC_TASK_SIZE + (n - (m_next + LCC_TASK_SIZE)))%nat by lia.
    by rewrite seq_app.
  - rewrite Nat.min_r by lia. replace (n - (m_next + LCC_TASK_SIZE))%nat with 0%nat by lia.
    simpl. by rewrite app_nil_r.
Qed.

Lemma execute_workers_spec `{Omp, Timer} :
  exists tri k, execute_workers g (replicate N 0%nat) = Val (tri, k) /\
    (is_timeout k = true \/
     length tri = N /\ forall v, (v < N)%nat -> tri !! v = Some (edge_pairs (nbr out) (nbr out v))).
Proof.
  unfold execute_workers.
  destruct (fetch_tasks_spec (N + 1) N 0 0) as (ws & k & -> & Hall & Hcase); [lia|lia|]. bind_step.
  fold (window_vertices ws).
  destruct (omp_fold_inv 0 (fun done tri => adds (replicate N 0%nat) tri
      (fun v => sum_list_with (fun c => contribution_of c v) done))
    (process_vertex g) (window_vertices ws) (replicate N 0%nat)) as (tri & -> & Htri).
  - apply adds_refl.
  - intros done c tri Hc _ Hd. eapply Forall_forall in Hall; [|exact Hc].
    destruct (process_vertex_spec tri c) as (tri' & Heq & Ha); [done| |].
    { destruct Hd as [-> _]. by rewrite length_replicate. }
    exists tri'. split; [done|]. eapply adds_ext; [|eapply adds_trans; [exact Hd|exact Ha]].
    intros v. rewrite sum_list_with_app. simpl. lia.
  - intros l tri Hp Hd. eapply adds_ext; [|exact Hd]. intros v. by apply sum_list_with_perm.
  - bind_step. exists tri, k. split; [done|]. destruct Hcase as [?|Hw]; [by left|right].
    destruct Htri as [Hl Ht]. rewrite length_replicate in Hl. split; [done|]. intros v Hv.
    rewrite (Ht v 0%nat) by (by apply lookup_replicate_2). rewrite edge_pairs_total by done.
    rewrite Hw, Nat.sub_0_r. done.
Qed.

(** The score of a vertex with [t] ordered pairs of joined neighbours. *)
Definition sort_merge_score (v : nat) : double :=
  let t := edge_pairs (nbr out) (nbr out v) in
  if (0 <? t)%nat then lcc_score (length (nbr out v)) t else d_zero.

Lemma compute_scores_spec tri :
  length tri = N -> (forall v, (v < N)%nat -> tri !! v = Some (edge_pairs (nbr out) (nbr out v))) ->
  compute_scores g tri = Val (sort_merge_score <$> seq 0 N).
Proof.
  intros Hl Ht. unfold compute_scores. set (F := fun _ _ => _).
  destruct (res_fold_inv (fun done scores => length scores = N /\
      (forall v, (v < length done)%nat -> scores !! v = Some (sort_merge_score v)) /\
      forall v, (length done <= v < N)%nat -> scores !! v = Some d_zero)
    F (seq 0 N) (replicate N d_zero)) as (scores & -> & Hls & Hdone & _).
  - split_and!; [by rewrite length_replicate|simpl; lia|]. intros v Hv. apply lookup_replicate_2. lia.
  - intros done v todo scores Hseq (Hls & Hd & Hz).
    apply EdgeStream.prefix_index in Hseq as (-> & Hv & _). set (v := length done) in *.
    unfold F. rewrite (arr_get_val _ _ _ (Ht v Hv)). bind_step.
    assert (length (done ++ [v]) = S v) as -> by (rewrite length_app; simpl; lia).
    destruct (0 <? edge_pairs (nbr out) (nbr out v))%nat eqn:Hpos.
    + rewrite (out_degree g vs out inn Hr v Hv). bind_step. rewrite arr_set_val by lia.
      eexists. split; [done|]. rewrite length_insert. split_and!; [done| |].
      * intros u Hu. destruct (decide (u = v)) as [->|Hne].
        { rewrite list_lookup_insert_eq by lia. unfold sort_merge_score. by rewrite Hpos. }
        rewrite list_lookup_insert_ne by done. apply Hd. lia.
      * intros u Hu. rewrite list_lookup_insert_ne by lia. apply Hz. lia.
    + exists scores. split; [done|]. split_and!; [done| |intros u Hu; apply Hz; lia].
      intros u Hu. destruct (decide (u = v)) as [->|Hne]; [|apply Hd; lia].
      rewrite Hz by lia. unfold sort_merge_score. by rewrite Hpos.
  - f_equal. apply list_eq_same_length with N; [by rewrite length_fmap, length_seq|done|].
    intros i x y Hi Hx Hy. rewrite Hdone in Hx by (by rewrite length_seq).
    rewrite list_lookup_fmap, lookup_seq_lt in Hy by done. simpl in Hy. congruence.
Qed.

(** C2: on an undirected graph whose adjacency lists are strictly sorted,
    symmetric and free of self loops the sort-merge implementation computes,
    unless the timer expires, the same ratio as the definition of the
    clustering coefficient: although it only looks at the triangles with
    decreasing vertices, each one contributes to its three corners twice,
    whatever the order in which the workers process their windows. *)
Theorem lcc_sort_merge_correct `{Omp, Timer} :
  (lcc_sort_merge g = Exn TimeoutError /\ exists k, is_timeout k = true) \/
  lcc_sort_merge g = Val (zip vs (sort_merge_score <$> seq 0 N)).
Proof.
  unfold lcc_sort_merge, master_execute.
  destruct execute_workers_spec as (tri & k & -> & Hcase). bind_step.
  destruct (is_timeout k) eqn:Hk; [left; eauto|].
  destruct Hcase as [?|[Hl Ht]]; [done|]. rewrite compute_scores_spec by done. do 2 bind_step.
  destruct (is_timeout (k + 1)) eqn:Hk1; [left; eauto|].
  rewrite (translate_spec g vs out inn Hr) by (by rewrite length_fmap, length_seq). bind_step.
  destruct (is_timeout (k + 1 + 1)) eqn:Hk2; [left; eauto|right].
  unfold save_results. cbn [negb andb]. f_equal. apply list_fmap_id.
Qed.
End sort_merge.

(** ** Examples *)

(** A triangle 0, 1, 2 with a tail 2, 3. *)
Definition ex_und : list (list (nat * double)) :=
  map (map (fun u => (u, d_one))) [[1; 2]; [0; 2]; [0; 1; 3]; [2]]%nat.

Definition ex_csr_und : CSR :=
  mkCSR false 4 4 (<[1 := 0%nat]> (<[2 := 1%nat]> (<[3 := 2%nat]> (<[4 := 3%nat]> ∅)))) [1; 2; 3; 4] true
    [2; 4; 7; 8]%nat [1; 2; 0; 2; 0; 1; 3; 2]%nat (replicate 8 d_one)
    [2; 4; 7; 8]%nat [1; 2; 0; 2; 0; 1; 3; 2]%nat (replicate 8 d_one) 0.

Lemma ex_csr_und_repr : csr_repr ex_csr_und [1; 2; 3; 4] ex_und ex_und.
Proof.
  split; try done.
  - repeat (constructor; [|by repeat (constructor; [lia|])]). constructor.
  - split; [by apply (bool_decide_unpack _); vm_compute|]. intros v i. simpl.
    rewrite !lookup_insert_Some, lookup_empty.
    destruct i as [|[|[|[|i]]]]; simpl; naive_solver.
  - split; try done. intros v Hv. destruct v as [|[|[|[|v]]]]; simpl in *; try done. lia.
  - split; try done. intros v Hv. destruct v as [|[|[|[|v]]]]; simpl in *; try done. lia.
  - by apply all_in_range.
  - by apply all_in_range.
Qed.

Example ex_lcc :
  @lcc omp_sequential no_timeout ex_csr_und = @lcc_sort_merge omp_backwards no_timeout ex_csr_und /\
  @lcc omp_sequential no_timeout ex_csr_und =
  Val [(1, d_one); (2, d_one); (3, ddiv d_one (double_of_Z 3)); (4, d_zero)].
Proof. vm_compute. split; reflexivity. Qed.

Lemma ex_und_nbr u : nbr ex_und u = match u with 0 => [1; 2] | 1 => [0; 2] | 2 => [0; 1; 3] | 3 => [2] | _ => [] end%nat.
Proof. destruct u as [|[|[|[|u]]]]; reflexivity. Qed.

Lemma ex_und_sorted u : StronglySorted lt (nbr ex_und u).
Proof.
  rewrite ex_und_nbr. destruct u as [|[|[|[|u]]]]; repeat constructor; lia.
Qed.

Lemma lcc_sort_merge_correct_witness :
  @lcc_sort_merge omp_backwards no_timeout ex_csr_und =
  Val (zip [1; 2; 3; 4] (sort_merge_score ex_und <$> seq 0 4)).
Proof.
  destruct (lcc_sort_merge_correct ex_csr_und [1; 2; 3; 4] ex_und ex_und ex_csr_und_repr ex_und_sorted)
    with (H := omp_backwards) (H0 := no_timeout) as [[_ [k Hk]]|Hl]; [| |discriminate Hk|exact Hl].
  - intros u w. rewrite !ex_und_nbr.
    destruct u as [|[|[|[|u]]]], w as [|[|[|[|w]]]]; rewrite ?elem_of_cons, ?elem_of_nil; naive_solver lia.
  - intros u. rewrite ex_und_nbr.
    destruct u as [|[|[|[|u]]]]; rewrite ?elem_of_cons, ?elem_of_nil; naive_solver lia.
Defined.

Lemma lcc_correct_witness :
  @lcc omp_backwards no_timeout ex_csr_und =
  Val (zip [1; 2; 3; 4] ((fun v => lcc_of (nbr ex_und) (nbr ex_und v)) <$> seq 0 4)).
Proof.
  assert (forall u, NoDup (nbr ex_und u)) as Hnd by (intros u; apply sorted_lt_NoDup, ex_und_sorted).
  destruct (@lcc_correct omp_backwards no_timeout ex_csr_und [1; 2; 3; 4] ex_und ex_und ex_csr_und_repr Hnd Hnd)
    as [[_ [k Hk]]|Hl]; [discriminate Hk|exact Hl].
Defined.
