(* ===== verification/CsrSssp.v ===== *)
(** The single source shortest paths of [library/baseline/csr.cpp]. *)

From S2P Require Import Prelude Doubles Paths Graphs Gapbs Sssp SsspSafe Csr.

(** The outgoing edges of a vertex with their weights, in the order of the arrays. *)
Definition sssp_edges (g : CSR) (u : nat) : res (list (nat * double)) :=
  '(first, second) ← get_out_interval g u;
  res_fold (fun l i => v ← arr_get (m_out_e g) i; w ← arr_get (m_out_w g) i; Val (l ++ [(v, w)]))
    [] (seq first (second - first)).

Definition do_sssp `{Omp} (g : CSR) (source : nat) (delta : double) (fuel : nat) : res (list double) :=
  sssp_of Val (sssp_edges g) (num_edges g) (num_vertices g) source delta fuel.

Definition sssp `{Omp, Timer} (g : CSR) (source_vertex_id : Z) (fuel : nat) : res (list (Z * double)) :=
  source ← at_ (m_ext2log g !! source_vertex_id);
  distances ← do_sssp g source sssp_delta fuel;
  if is_timeout 0 then Exn TimeoutError
  else
    translation ← translate g distances (m_num_vertices g);
    if is_timeout 1 then Exn TimeoutError
    else Val (save_results (fun x => dlt x d_zero) d_max true translation).

Lemma weighted_loop ea wa s l acc : at_offset ea wa s l ->
  res_fold (fun l i => v ← arr_get ea i; w ← arr_get wa i; Val (l ++ [(v, w)])) acc (seq s (length l)) =
  Val (acc ++ l).
Proof.
  revert s acc. induction l as [|[v w] l IH]; intros s acc H; cbn [length seq res_fold]; [by rewrite app_nil_r|].
  destruct (H 0%nat (v, w) eq_refl) as [He Hw]. rewrite Nat.add_0_r in He, Hw.
  rewrite (arr_get_val _ _ _ He). do 2 bind_val. rewrite (arr_get_val _ _ _ Hw). do 2 bind_val.
  rewrite IH by (by eapply at_offset_cons). by rewrite <- app_assoc.
Qed.

Section csr_sssp.
Context (g : CSR) (vs : list Z) (out inn : list (list (nat * double))).
Context (Hr : csr_repr g vs out inn).

(** The weighted edges between the positions of the vertices. *)
Definition csr_arc (u v : nat) (w : double) : Prop := exists l, out !! u = Some l /\ (v, w) ∈ l.

Lemma csr_edges_spec u : (u < m_num_vertices g)%nat -> sssp_edges g u = Val (default [] (out !! u)).
Proof.
  intros Hu. destruct (lookup_out g vs out inn Hr u Hu) as [l Hl]. rewrite Hl. unfold sssp_edges.
  unfold get_out_interval. rewrite (get_interval_flat _ _ _ _ _ _ _ (cr_out _ _ _ _ Hr)
    ltac:(by rewrite (cr_out_length _ _ _ _ Hr), (cr_num_vertices _ _ _ _ Hr)) Hl). bind_val.
  rewrite Nat.add_comm, Nat.add_sub. cbn [default from_option id].
  by rewrite (weighted_loop _ _ _ _ _ (at_offset_flat _ _ _ _ _ _ (cr_out _ _ _ _ Hr) Hl)).
Qed.

Lemma csr_arc_adj u v w :
  adj_edge (m_num_vertices g) (fun u => default [] (out !! u)) u v w <-> csr_arc u v w.
Proof.
  unfold adj_edge, csr_arc. split.
  - intros [Hu Hin]. destruct (lookup_out g vs out inn Hr u Hu) as [l Hl]. rewrite Hl in Hin. eauto.
  - intros (l & Hl & Hin). rewrite Hl. split; [|done].
    rewrite (cr_num_vertices _ _ _ _ Hr), <- (cr_out_length _ _ _ _ Hr). by eapply lookup_lt_Some.
Qed.

Lemma adj_range (Hweights : forall u v w, csr_arc u v w -> nonneg w = true) u e :
  (u < m_num_vertices g)%nat -> e ∈ default [] (out !! u) -> (e.1 < m_num_vertices g)%nat /\ nonneg e.2 = true.
Proof.
  intros Hu He. destruct e as [v w]. destruct (lookup_out g vs out inn Hr u Hu) as [l Hl]. rewrite Hl in He.
  split; [|apply (Hweights u v w); by exists l].
  rewrite (cr_num_vertices _ _ _ _ Hr). by apply (cr_out_range _ _ _ _ Hr l (v, w)), He; eapply list_elem_of_lookup_2.
Qed.

(** What SSSP gives for a vertex: the time is over, or the lines of the result. *)
Definition sssp_result `{Timer} (s : nat) (r : res (list (Z * double))) : Prop :=
  (r = Exn TimeoutError /\ exists k, is_timeout k = true) \/
  exists lines, r = Val lines /\ lines.*1 = vs /\
    forall v ext, vs !! v = Some ext ->
      exists x, lines !! v = Some (ext, x) /\ shortest csr_arc s v x.

(** A frontier of the algorithm is longer than the array, which has one entry per edge. *)
Definition sssp_overflows `{Omp} (s : nat) : Prop :=
  frontier_outgrows Val (sssp_edges g) (num_vertices g) s sssp_delta (num_edges g).

Lemma sssp_cases `{Omp, Timer} src s (Hs : m_ext2log g !! src = Some s)
  (Hweights : forall u v w, csr_arc u v w -> nonneg w = true) :
  (s < m_num_vertices g)%nat /\ exists n, forall fuel, (n <= fuel)%nat ->
  (sssp_overflows s -> sssp g src fuel = Undef) /\
  ((do_sssp g s sssp_delta fuel = Undef /\ sssp g src fuel = Undef /\ (sssp_overflows s \/ far_walk csr_arc s)) \/
   sssp_result s (sssp g src fuel)).
Proof.
  pose proof (cr_num_vertices _ _ _ _ Hr) as Hvs.
  assert (s < m_num_vertices g)%nat as Hlt
    by (apply (cr_mapping _ _ _ _ Hr), lookup_lt_Some in Hs; lia).
  split; [done|]. pose proof (adj_range Hweights) as Hadj. set (adj := fun u => default [] (out !! u)) in Hadj.
  destruct (sssp_of_spec Val (sssp_edges g) _ adj (fun _ _ => eq_refl) csr_edges_spec Hadj s Hlt (num_edges g))
    as [n Hn].
  exists n. intros fuel Hfuel. split.
  { intros Hover. destruct (outgrows_undef Val (sssp_edges g) (num_vertices g) s sssp_delta (num_edges g) fuel Hlt eq_refl Hover)
      as [E|E]; unfold sssp, do_sssp; rewrite Hs; cbn [at_]; bind_val; rewrite E; [done|exfalso].
    unfold num_vertices in E. destruct (Hn fuel Hfuel) as [[E' _]|(dist & E' & _)]; congruence. }
  unfold sssp. rewrite Hs. cbn [at_]. bind_val. unfold do_sssp, num_vertices.
  destruct (Hn fuel Hfuel) as [[-> Hwhy]|(dist & -> & Hl & Hdist)].
  { left. split; [done|]. split; [done|]. destruct Hwhy as [?|(v & d & Hw & Hfar)]; [by left|right].
    exists v, d. split; [|done]. by apply (wwalk_iff _ _ _ _ _ csr_arc_adj). }
  bind_val. right.
  destruct (is_timeout 0) eqn:Ht0; [left; eauto|]. rewrite (translate_spec g vs out inn Hr) by done. bind_val.
  destruct (is_timeout 1) eqn:Ht1; [left; eauto|right]. eexists. split; [done|].
  unfold save_results. cbn [negb andb]. rewrite list_fmap_id. split; [apply fst_zip; lia|].
  intros v ext Hv. destruct (lookup_lt_is_Some_2 dist v) as [x Hx]; [apply lookup_lt_Some in Hv; lia|].
  exists x. rewrite lookup_zip_with, Hv, Hx. split; [done|].
  apply (shortest_iff _ _ _ _ _ csr_arc_adj).
  assert (v < m_num_vertices g)%nat as Hvlt by (apply lookup_lt_Some in Hv; lia).
  specialize (Hdist v Hvlt). unfold dist_at in Hdist. by rewrite Hx in Hdist.
Qed.

Lemma total_edges : sum_list_with (fun v => length (default [] (out !! v))) (seq 0 (m_num_vertices g)) = length (concat out).
Proof.
  rewrite (cr_num_vertices _ _ _ _ Hr), <- (cr_out_length _ _ _ _ Hr). clear. induction out as [|l o IH] using rev_ind; [done|].
  rewrite length_app, seq_app, sum_list_with_app, concat_app, length_app. cbn [length seq sum_list_with concat].
  rewrite app_nil_r, lookup_app_r, Nat.sub_diag by done. cbn [lookup list_lookup default from_option id].
  rewrite <- IH. f_equal; [|lia]. apply sum_list_with_ext. intros v Hv%elem_of_seq. by rewrite lookup_app_l by lia.
Qed.

(** C14: SSSP of a directed or undirected graph without negative weights ends,
    whatever the schedule. A source that is not a vertex raises. It leaves its
    memory, which is undefined, whenever a frontier that the algorithm goes through
    is longer than its array of one entry per edge (without edges already the
    first one is), and otherwise only if some walk from the source is so long that its
    bin is beyond the largest vector. In all other cases the time is over or every
    vertex, in the order of the external identifiers, gets the least sum, in double
    arithmetic along the walk, of the weights of a walk from the source, infinity
    when there is none. *)
Theorem csr_sssp_correct `{Omp, Timer} src
  (Hweights : forall u v w, csr_arc u v w -> nonneg w = true) :
  exists n, forall fuel, (n <= fuel)%nat ->
  match m_ext2log g !! src with
  | None => sssp g src fuel = Exn OutOfRange
  | Some s =>
    (sssp_overflows s -> sssp g src fuel = Undef) /\
    ((sssp g src fuel = Undef /\ (sssp_overflows s \/ far_walk csr_arc s)) \/ sssp_result s (sssp g src fuel))
  end.
Proof.
  destruct (m_ext2log g !! src) as [s|] eqn:Hs.
  - destruct (sssp_cases src s Hs Hweights) as [_ [n Hn]]. exists n. intros fuel Hfuel.
    destruct (Hn fuel Hfuel) as [Hover [(_ & ? & ?)|?]]; (split; [done|]); [by left|by right].
  - exists 0%nat. intros fuel _. unfold sssp. by rewrite Hs.
Qed.

(** C15: SSSP stays within its memory, and so gives the shortest distances unless
    the time is over, whatever the schedule, when the array of the frontier holds
    all the entries of the adjacency lists and is not empty, the weights are at
    least 2, the width of a bin, and the number of the vertices times the largest
    weight is at most 2^52. *)
Theorem csr_sssp_defined `{Omp, Timer} src s W (Hs : m_ext2log g !! src = Some s)
  (Hedge : (0 < m_num_edges g)%nat) (Hcap : (length (concat out) <= m_num_edges g)%nat)
  (HW : 0 <= W /\ Z.of_nat (m_num_vertices g) * W <= 2 ^ 52)
  (Hweights : forall u v w, csr_arc u v w ->
    nonneg w = true /\ dle (double_of_Z 2) w = true /\ dle w (double_of_Z W) = true) :
  exists n, forall fuel, (n <= fuel)%nat -> sssp_result s (sssp g src fuel).
Proof.
  pose proof (fun u v w E => proj1 (Hweights u v w E)) as Hnn.
  destruct (sssp_cases src s Hs Hnn) as [Hlt [n Hn]].
  exists n. intros fuel Hfuel. destruct (Hn fuel Hfuel) as [_ [[Hundef _]|?]]; [exfalso|done]. revert Hundef.
  apply (sssp_of_safe Val (sssp_edges g) _ (fun u => default [] (out !! u)) (fun _ _ => eq_refl) csr_edges_spec
    (adj_range Hnn) s Hlt W (proj1 HW) (proj2 HW)).
  - intros u [v w] Hu He. destruct (Hweights u v w) as (Hw & Hlo & Hhi); [by apply csr_arc_adj|].
    destruct (value_of_Z 2) as [Hn2 Hv2]; [done|]. destruct (value_of_Z W) as [HnW HvW]; [lia|].
    rewrite dle_value in Hlo, Hhi by done. apply Z.leb_le in Hlo, Hhi. rewrite HvW in Hhi.
    cbn [snd]. split; [etrans; [|exact Hlo]; by apply Z.leb_le; vm_compute|].
    etrans; [exact Hhi|]. rewrite round53_short; [apply Z.le_min_l|lia|nia].
  - exact Hedge.
  - by rewrite total_edges.
Qed.
End csr_sssp.

(** A directed graph from its adjacency lists, the weights in quarters. *)
Definition arcs_graph (vs : list Z) (out : list (list (nat * Z))) : CSR :=
  mkCSR true (length vs) (length (concat out))
    (list_to_map (zip vs (seq 0 (length vs)))) vs true
    ((fun k => sum_list_with length (take (S k) out)) <$> seq 0 (length vs))
    (concat out).*1 ((fun w => ddiv (double_of_Z w) (double_of_Z 4)) <$> (concat out).*2)
    [] [] [] 0.

Example ex_csr_sssp :
  @sssp omp_sequential no_timeout ex_csr 10 10 =
    Val [(10, d_zero); (20, double_of_Z 5); (30, double_of_Z 12)] /\
  @sssp omp_sequential no_timeout ex_csr 40 10 = Exn OutOfRange.
Proof. by vm_compute. Qed.

Lemma ex_csr_arc (P : double -> bool) : forallb (forallb (fun p => P p.2)) ex_out = true ->
  forall u v w, csr_arc ex_out u v w -> P w = true.
Proof.
  intros H u v w (l & Hl & Hin). rewrite forallb_forall in H.
  specialize (H l ltac:(by eapply list_elem_of_In, list_elem_of_lookup_2)). rewrite forallb_forall in H.
  apply (H (v, w)). by apply list_elem_of_In.
Qed.

Definition ex_edgeless : CSR :=
  mkCSR true 2 0 (<[10 := 0%nat]> (<[20 := 1%nat]> ∅)) [10; 20] true [0; 0]%nat [] [] [0; 0]%nat [] [] 0.

Lemma ex_edgeless_repr : csr_repr ex_edgeless [10; 20] [[]; []] [[]; []].
Proof.
  split; try done.
  - repeat (constructor; [|by repeat (constructor; [lia|])]). constructor.
  - split; [by apply (bool_decide_unpack _); vm_compute|]. intros v i. simpl.
    rewrite !lookup_insert_Some, lookup_empty. destruct i as [|[|i]]; simpl; naive_solver.
  - split; try done. intros v Hv. destruct v as [|[|v]]; simpl in *; try done. lia.
  - split; try done. intros v Hv. destruct v as [|[|v]]; simpl in *; try done. lia.
  - by apply all_in_range.
  - by apply all_in_range.
Qed.

(** On a graph without edges the array is too small for the source. *)
Lemma csr_sssp_correct_witness : exists n, forall fuel, (n <= fuel)%nat ->
  @sssp omp_sequential no_timeout ex_edgeless 10 fuel = Undef.
Proof.
  destruct (@csr_sssp_correct ex_edgeless [10; 20] [[]; []] [[]; []] ex_edgeless_repr omp_sequential no_timeout 10) as [n Hn].
  { intros u v w (l & Hl & Hin). destruct u as [|[|u]]; [| |done]; injection Hl as <-; by apply elem_of_nil in Hin. }
  exists n. intros fuel Hf. apply (Hn fuel Hf). unfold sssp_overflows, frontier_outgrows.
  eexists _, _, _, _. split; [apply reaches_first|simpl; lia].
Defined.

Lemma csr_sssp_defined_witness : exists n, forall fuel, (n <= fuel)%nat ->
  @sssp_result [10; 20; 30] ex_out no_timeout 0 (@sssp omp_backwards no_timeout ex_csr 10 fuel).
Proof.
  apply (@csr_sssp_defined ex_csr [10; 20; 30] ex_out ex_in ex_csr_repr omp_backwards no_timeout 10 0 8);
    [done|cbn; lia|cbn; lia|split; cbn; lia|].
  intros u v w E. split_and!; revert u v w E.
  - by apply ex_csr_arc.
  - by apply (ex_csr_arc (dle (double_of_Z 2))).
  - by apply (ex_csr_arc (fun w => dle w (double_of_Z 8))).
Defined.

(** SSSP writes outside its frontier, although all the weights are positive:
    the array has one entry per edge, but a vertex enters a bin again whenever
    its distance decreases (here 30 reaches 20 again, and 20 its four neighbours,
    eight entries for seven edges). Without edges already the source does not
    fit. *)
Example csr_sssp_overflow :
  let g := arcs_graph [10; 20; 30; 40; 50; 60; 70]
    [[(1%nat, 4); (2%nat, 1)]; [(3%nat, 24); (4%nat, 24); (5%nat, 24); (6%nat, 24)]; [(1%nat, 1)]; []; []; []; []] in
  @sssp omp_sequential no_timeout g 10 100 = Undef /\
  @sssp omp_sequential no_timeout (arcs_graph [10; 20] [[]; []]) 10 100 = Undef.
Proof. by vm_compute. Qed.
