(* ===== verification/AdjList.v ===== *)
(** [library/baseline/adjacency_list]: the reference implementation of the
    interface, an adjacency list per vertex in a hash map. This file has the
    state, the properties and the updates; the Graphalytics kernels are in
    [AdjKernels].

    [m_held] says whether the calling thread already owns [m_mutex], in any
    mode: acquiring a [std::shared_mutex] twice is undefined. *)

From S2P Require Import Prelude Edge.

(** ** State *)

(** What the standard leaves to the implementation of [std::unordered_map]: the
    number of buckets of a new table, the number after a rehash for so many
    elements, and whether the iterators obtained before a rehash can still be
    used after it. The standard says that they cannot; the tables of libstdc++
    move the buckets around nodes that stay where they are. *)
Class UnorderedMap := {
  initial_bucket_count : Z;
  rehashed_bucket_count : Z -> Z -> Z;
  rehash_keeps_iterators : bool;
}.

Notation EdgeList := (list (Z * double)).
Notation EdgePair := (EdgeList * EdgeList)%type.

Record AdjacencyList := mkAdjacencyList {
  m_adjacency_list : gmap Z EdgePair;
  m_num_edges : Z;
  m_is_directed : bool;
  m_is_thread_safe : bool;
  m_timeout : Z;
  m_held : bool;
  m_bucket_count : Z;
}.

Definition AdjacencyList_new `{UnorderedMap} (is_directed is_thread_safe : bool) : AdjacencyList :=
  mkAdjacencyList ∅ 0 is_directed is_thread_safe 0 false initial_bucket_count.

Definition set_list (g : AdjacencyList) (m : gmap Z EdgePair) : AdjacencyList :=
  mkAdjacencyList m (m_num_edges g) (m_is_directed g) (m_is_thread_safe g) (m_timeout g)
    (m_held g) (m_bucket_count g).

Definition set_num_edges (g : AdjacencyList) (n : Z) : AdjacencyList :=
  mkAdjacencyList (m_adjacency_list g) n (m_is_directed g) (m_is_thread_safe g) (m_timeout g)
    (m_held g) (m_bucket_count g).

Definition set_bucket_count (g : AdjacencyList) (n : Z) : AdjacencyList :=
  mkAdjacencyList (m_adjacency_list g) (m_num_edges g) (m_is_directed g) (m_is_thread_safe g)
    (m_timeout g) (m_held g) n.

Definition set_held (g : AdjacencyList) (held : bool) : AdjacencyList :=
  mkAdjacencyList (m_adjacency_list g) (m_num_edges g) (m_is_directed g) (m_is_thread_safe g)
    (m_timeout g) held (m_bucket_count g).

(** [scoped_lock<mutex_t> lock(m_mutex)] around an update. *)
Definition with_lock {A} (g : AdjacencyList) (f : AdjacencyList -> res (A * AdjacencyList)) :
    res (A * AdjacencyList) :=
  if m_held g then Undef
  else '(a, g') ← f (set_held g true); Val (a, set_held g' false).

(** [shared_lock<mutex_t> lock(m_mutex)] around a read. *)
Definition with_shared {A} (g : AdjacencyList) (f : AdjacencyList -> res A) : res A :=
  if m_held g then Undef else f (set_held g true).

(** ** Edge lists *)

Fixpoint find_edge (l : EdgeList) (v : Z) : option double :=
  match l with
  | [] => None
  | (x, w) :: l => if x =? v then Some w else find_edge l v
  end.

(** Update the weight of the first edge to [v], or append one. *)
Fixpoint put_edge (l : EdgeList) (v : Z) (w : double) : EdgeList :=
  match l with
  | [] => [(v, w)]
  | (x, w') :: l => if x =? v then (x, w) :: l else (x, w') :: put_edge l v w
  end.

(** Erase the first edge to [v]. *)
Fixpoint erase_edge (l : EdgeList) (v : Z) : EdgeList :=
  match l with
  | [] => []
  | (x, w) :: l => if x =? v then l else (x, w) :: erase_edge l v
  end.

(** ** Properties *)

Definition is_directed (g : AdjacencyList) : bool := m_is_directed g.
Definition is_thread_safe (g : AdjacencyList) : bool := m_is_thread_safe g.

Definition num_vertices (g : AdjacencyList) : res Z :=
  with_shared g (fun g => Val (Z.of_nat (size (m_adjacency_list g)))).

Definition num_edges (g : AdjacencyList) : res Z := with_shared g (fun g => Val (m_num_edges g)).

Definition has_vertex (g : AdjacencyList) (vertex_id : Z) : res bool :=
  with_shared g (fun g => Val (bool_decide (is_Some (m_adjacency_list g !! vertex_id)))).

Definition get_weight (g : AdjacencyList) (source destination : Z) : res double :=
  with_shared g (fun g =>
    match m_adjacency_list g !! source with
    | None => Val d_nan
    | Some vertex_src =>
      match find_edge vertex_src.1 destination with
      | None => Val d_nan
      | Some w => Val w
      end
    end).

(** The distinct neighbours of a vertex in both directions. *)
Definition both_neighbours (p : EdgePair) : gset Z :=
  list_to_set p.1.*1 ∪ list_to_set p.2.*1.

Definition get_degree (g : AdjacencyList) (vertex_id : Z) : res Z :=
  vertex ← require (m_adjacency_list g !! vertex_id);
  if negb (m_is_directed g) then Val (Z.of_nat (length vertex.1))
  else Val (Z.of_nat (size (both_neighbours vertex))).

Definition get_incoming_edges (g : AdjacencyList) (adjlist_value : EdgePair) : EdgeList :=
  if m_is_directed g then adjlist_value.2 else adjlist_value.1.

Definition has_timeout (g : AdjacencyList) : bool := 0 <? m_timeout g.

Definition set_timeout (g : AdjacencyList) (seconds : Z) : AdjacencyList :=
  mkAdjacencyList (m_adjacency_list g) (m_num_edges g) (m_is_directed g) (m_is_thread_safe g)
    seconds (m_held g) (m_bucket_count g).

(** The vertices on which [for_all_edges] invokes its argument. *)
Definition for_all_edges `{HashOrder} (g : AdjacencyList) (p : EdgePair) : list Z :=
  if negb (m_is_directed g) then p.1.*1 else hash_elems (both_neighbours p).

Definition check_directed_edge_exists (g : AdjacencyList) (vertex1 vertex2 : Z) : res bool :=
  p ← require (m_adjacency_list g !! vertex1);
  _ ← require (m_adjacency_list g !! vertex2);
  Val (existsb (fun e => e.1 =? vertex2) p.1).

(** ** Updates *)

(** An insertion rehashes a table of maximum load factor 1 that has no bucket
    for another element. *)
Definition rehashes (g : AdjacencyList) (v : Z) : bool :=
  match m_adjacency_list g !! v with
  | Some _ => false
  | None => m_bucket_count g <? Z.of_nat (size (m_adjacency_list g)) + 1
  end.

(** [m_adjacency_list.emplace(v, EdgePair{})] *)
Definition emplace `{UnorderedMap} (g : AdjacencyList) (v : Z) : AdjacencyList :=
  match m_adjacency_list g !! v with
  | Some _ => g
  | None =>
    let n := Z.of_nat (size (m_adjacency_list g)) + 1 in
    set_bucket_count (set_list g (<[v := ([], [])]> (m_adjacency_list g)))
      (if rehashes g v then rehashed_bucket_count (m_bucket_count g) n else m_bucket_count g)
  end.

Definition add_vertex0 `{UnorderedMap} (g : AdjacencyList) (vertex_id : Z) :
    res (bool * AdjacencyList) :=
  Val (bool_decide (m_adjacency_list g !! vertex_id = None), emplace g vertex_id).

Definition add_vertex `{UnorderedMap} (g : AdjacencyList) (vertex_id : Z) : res (bool * AdjacencyList) :=
  if m_is_thread_safe g then with_lock g (fun g => add_vertex0 g vertex_id)
  else add_vertex0 g vertex_id.

(** The lists from which the code erases are copies ([auto lst_back = ...]),
    so the loops over the neighbours only check that the edges exist. *)
Definition check_back_edge (vertex_id : Z) (pick : EdgePair -> EdgeList)
    (m : gmap Z EdgePair) (e : Z * double) : res unit :=
  vertex_dst ← require (m !! e.1);
  let lst := pick vertex_dst in
  _ ← require (find_edge lst vertex_id);
  Val tt.

Definition delete_vertex0 (g : AdjacencyList) (vertex_id : Z) : res (bool * AdjacencyList) :=
  let m := m_adjacency_list g in
  match m !! vertex_id with
  | None => Val (false, g)
  | Some vertex_src =>
    _ ← res_fold (fun _ e =>
          check_back_edge vertex_id (fun p => if m_is_directed g then p.2 else p.1) m e)
        tt vertex_src.1;
    if negb (m_is_directed g || (length vertex_src.2 =? 0)%nat) then Undef
    else
      _ ← (if m_is_directed g then
             res_fold (fun _ e => check_back_edge vertex_id fst m e) tt vertex_src.2
           else Val tt);
      Val (true, set_list g (delete vertex_id m))
  end.

Definition remove_vertex (g : AdjacencyList) (vertex_id : Z) : res (bool * AdjacencyList) :=
  if m_is_thread_safe g then with_lock g (fun g => delete_vertex0 g vertex_id)
  else delete_vertex0 g vertex_id.

(** Insert or update the edge; [source] and [destination] are in the map. *)
Definition add_edge0 (g : AdjacencyList) (e : WeightedEdge) : res (bool * AdjacencyList) :=
  let src := wsource e in
  let dst := wdestination e in
  v_src ← require (m_adjacency_list g !! src);
  let g :=
    match find_edge v_src.1 dst with
    | None => set_num_edges g (u64 (m_num_edges g + 1))
    | Some _ => g
    end in
  let g := set_list g (<[src := (put_edge v_src.1 dst (m_weight e), v_src.2)]> (m_adjacency_list g)) in
  v_dst ← require (m_adjacency_list g !! dst);
  let v_dst :=
    if m_is_directed g then (v_dst.1, put_edge v_dst.2 src (m_weight e))
    else (put_edge v_dst.1 src (m_weight e), v_dst.2) in
  Val (true, set_list g (<[dst := v_dst]> (m_adjacency_list g))).

Definition add_edge_impl (g : AdjacencyList) (e : WeightedEdge) : res (bool * AdjacencyList) :=
  match m_adjacency_list g !! wsource e with
  | None => Val (false, g)
  | Some _ =>
    match m_adjacency_list g !! wdestination e with
    | None => Val (false, g)
    | Some _ => add_edge0 g e
    end
  end.

Definition add_edge (g : AdjacencyList) (e : WeightedEdge) : res (bool * AdjacencyList) :=
  if wsource e =? wdestination e then Exn InvalidArgument
  else if m_is_thread_safe g then with_lock g (fun g => add_edge_impl g e)
  else add_edge_impl g e.

(** The iterator to the source is dereferenced after the insertion of the
    destination, which may have rehashed the table. *)
Definition add_edge_v2_impl `{UnorderedMap} (g : AdjacencyList) (e : WeightedEdge) :
    res (bool * AdjacencyList) :=
  let g := emplace g (wsource e) in
  if rehashes g (wdestination e) && negb rehash_keeps_iterators then Undef
  else
    let g := emplace g (wdestination e) in
    add_edge0 g e.

Definition add_edge_v2 `{UnorderedMap} (g : AdjacencyList) (e : WeightedEdge) : res (bool * AdjacencyList) :=
  if wsource e =? wdestination e then Exn InvalidArgument
  else if m_is_thread_safe g then with_lock g (fun g => add_edge_v2_impl g e)
  else add_edge_v2_impl g e.

Definition delete_edge0 (g : AdjacencyList) (e : Edge) : res (bool * AdjacencyList) :=
  let src := source e in
  let dst := destination e in
  match m_adjacency_list g !! src with
  | None => Val (false, g)
  | Some vertex_src =>
    match m_adjacency_list g !! dst with
    | None => Val (false, g)
    | Some _ =>
      match find_edge vertex_src.1 dst with
      | None => Val (false, g)
      | Some _ =>
        let m := <[src := (erase_edge vertex_src.1 dst, vertex_src.2)]> (m_adjacency_list g) in
        if negb (0 <? m_num_edges g) then Undef
        else
          let g := set_num_edges (set_list g m) (m_num_edges g - 1) in
          vertex_dst ← require (m !! dst);
          let list_in := if m_is_directed g then vertex_dst.2 else vertex_dst.1 in
          _ ← require (find_edge list_in src);
          let vertex_dst :=
            if m_is_directed g then (vertex_dst.1, erase_edge vertex_dst.2 src)
            else (erase_edge vertex_dst.1 src, vertex_dst.2) in
          Val (true, set_list g (<[dst := vertex_dst]> m))
      end
    end
  end.

Definition remove_edge (g : AdjacencyList) (e : Edge) : res (bool * AdjacencyList) :=
  with_lock g (fun g => delete_edge0 g e).

(** [load], for the edges that the reader delivers. *)
Definition load `{UnorderedMap} (g : AdjacencyList) (edges : list WeightedEdge) : res (unit * AdjacencyList) :=
  with_lock g (fun g =>
    g ← res_fold (fun g edge => '(_, g) ← add_edge_v2 g edge; Val g) g edges;
    Val (tt, g)).

(** ** Lemmas on edge lists *)

Lemma find_edge_elem l v w : find_edge l v = Some w -> (v, w) ∈ l.
Proof.
  induction l as [|[x w'] l IH]; simpl; [done|]. destruct (Z.eqb_spec x v) as [->|]; intros H.
  - simplify_eq. left.
  - right. auto.
Qed.

Lemma find_edge_None l v : find_edge l v = None <-> v ∉ l.*1.
Proof.
  induction l as [|[x w'] l IH]; simpl; [rewrite elem_of_nil; tauto|].
  rewrite elem_of_cons. destruct (Z.eqb_spec x v) as [->|]; [intuition congruence|].
  rewrite IH. intuition.
Qed.

Lemma find_edge_Some l v w : NoDup l.*1 -> find_edge l v = Some w <-> (v, w) ∈ l.
Proof.
  intros Hnd. split; [apply find_edge_elem|].
  induction l as [|[x w'] l IH]; simpl; [by rewrite elem_of_nil|].
  simpl in Hnd. apply NoDup_cons in Hnd as [Hx Hnd]. rewrite elem_of_cons.
  intros [[= -> ->]|Hin]; [by rewrite Z.eqb_refl|].
  destruct (Z.eqb_spec x v) as [->|]; [|auto].
  destruct Hx. apply list_elem_of_fmap. by exists (v, w).
Qed.

Lemma find_put_edge l v w x :
  find_edge (put_edge l v w) x = if decide (x = v) then Some w else find_edge l x.
Proof.
  induction l as [|[y w'] l IH]; simpl.
  - case_decide; destruct (Z.eqb_spec v x); congruence.
  - destruct (Z.eqb_spec y v) as [->|]; simpl.
    + case_decide; destruct (Z.eqb_spec v x); congruence.
    + rewrite IH. destruct (Z.eqb_spec y x); [|done]. case_decide; congruence.
Qed.

Lemma put_edge_NoDup l v w : NoDup l.*1 -> NoDup (put_edge l v w).*1.
Proof.
  induction l as [|[y w'] l IH]; simpl; intros Hnd; [by apply NoDup_singleton|].
  apply NoDup_cons in Hnd as [Hy Hnd].
  destruct (Z.eqb_spec y v) as [->|]; simpl; apply NoDup_cons; [done|]. split; [|auto].
  apply find_edge_None in Hy. apply find_edge_None. rewrite find_put_edge.
  by rewrite decide_False.
Qed.

Lemma find_erase_edge l v x :
  NoDup l.*1 ->
  find_edge (erase_edge l v) x = if decide (x = v) then None else find_edge l x.
Proof.
  induction l as [|[y w'] l IH]; simpl; intros Hnd; [by case_decide|].
  apply NoDup_cons in Hnd as [Hy Hnd].
  destruct (Z.eqb_spec y v) as [->|]; simpl.
  - case_decide; subst; [by apply find_edge_None|]. by destruct (Z.eqb_spec v x).
  - rewrite IH by done. destruct (Z.eqb_spec y x); [|done]. case_decide; congruence.
Qed.

Lemma erase_edge_sublist l v : (erase_edge l v).*1 `sublist_of` l.*1.
Proof.
  induction l as [|[y w'] l IH]; simpl; [done|].
  destruct (Z.eqb_spec y v); simpl; by constructor.
Qed.

Lemma erase_edge_NoDup l v : NoDup l.*1 -> NoDup (erase_edge l v).*1.
Proof. intros H. by eapply sublist_NoDup; [|apply erase_edge_sublist]. Qed.

#[export] Hint Resolve put_edge_NoDup erase_edge_NoDup : gfe.

(** ** The abstract graph

    A set of vertices and the weights of the arcs. An undirected graph holds
    both arcs of each of its edges. *)

Record Spec := mkSpec {
  spec_directed : bool;
  spec_vertices : gset Z;
  spec_arcs : gmap (Z * Z) double;
}.

Definition out_weight (m : gmap Z EdgePair) (u v : Z) : option double :=
  p ← m !! u; find_edge p.1 v.

Definition in_weight (m : gmap Z EdgePair) (v u : Z) : option double :=
  p ← m !! v; find_edge p.2 u.

(** How the lists of a graph hold an abstract graph. *)
Record adj_data (g : AdjacencyList) (s : Spec) : Prop := {
  ad_directed : m_is_directed g = spec_directed s;
  ad_vertices : dom (m_adjacency_list g) = spec_vertices s;
  ad_out : forall u v, out_weight (m_adjacency_list g) u v = spec_arcs s !! (u, v);
  ad_in : forall u v, in_weight (m_adjacency_list g) v u =
            if spec_directed s then spec_arcs s !! (u, v) else None;
  ad_sym : spec_directed s = false ->
             forall u v, spec_arcs s !! (u, v) = spec_arcs s !! (v, u);
  ad_unique : forall u p, m_adjacency_list g !! u = Some p -> NoDup p.1.*1 /\ NoDup p.2.*1;
  ad_loop : forall u, spec_arcs s !! (u, u) = None;
  ad_count : Z.of_nat (size (spec_arcs s)) = (if spec_directed s then 1 else 2) * m_num_edges g;
  ad_range : is_u64 (m_num_edges g);
}.

(** Between two operations no lock is held. *)
Definition adj_repr (g : AdjacencyList) (s : Spec) : Prop := adj_data g s /\ m_held g = false.

(** The arcs of the abstract graph. *)
Definition arc (s : Spec) (u v : Z) : Prop := is_Some (spec_arcs s !! (u, v)).

Definition out_degree (s : Spec) (u : Z) : Z :=
  Z.of_nat (size (filter (fun k => k.1 = u) (dom (spec_arcs s)))).

(** The members of a list are those of which [P] holds, once each. *)
Definition lists (P : Z -> Prop) (l : list Z) : Prop := NoDup l /\ forall x, x ∈ l <-> P x.

Definition spec_new (is_directed : bool) : Spec := mkSpec is_directed ∅ ∅.

Definition spec_add_vertex (s : Spec) (v : Z) : Spec :=
  mkSpec (spec_directed s) ({[v]} ∪ spec_vertices s) (spec_arcs s).

Definition spec_add_edge (s : Spec) (u v : Z) (w : double) : Spec :=
  mkSpec (spec_directed s) (spec_vertices s)
    (if spec_directed s then <[(u, v) := w]> (spec_arcs s)
     else <[(v, u) := w]> (<[(u, v) := w]> (spec_arcs s))).

Definition spec_remove_edge (s : Spec) (u v : Z) : Spec :=
  mkSpec (spec_directed s) (spec_vertices s)
    (if spec_directed s then delete (u, v) (spec_arcs s)
     else delete (v, u) (delete (u, v) (spec_arcs s))).

(** ** Properties of the representation *)

Lemma repr_new `{UnorderedMap} is_directed is_thread_safe :
  adj_repr (AdjacencyList_new is_directed is_thread_safe) (spec_new is_directed).
Proof.
  split; [|done]. constructor; simpl; try done.
  - intros u v. by destruct is_directed.
  - by destruct is_directed.
Qed.

Lemma data_held g s b : adj_data (set_held g b) s <-> adj_data g s.
Proof. split; intros []; by constructor. Qed.

(** An update under its lock. *)
Lemma with_lock_val {A} g (f : AdjacencyList -> res (A * AdjacencyList)) a g' :
  m_held g = false -> f (set_held g true) = Val (a, g') ->
  with_lock g f = Val (a, set_held g' false).
Proof. intros Hh Hf. unfold with_lock. by rewrite Hh, Hf. Qed.

Section repr.
Context {g : AdjacencyList} {s : Spec} (R : adj_data g s).

Lemma data_vertex u : is_Some (m_adjacency_list g !! u) <-> u ∈ spec_vertices s.
Proof. by rewrite <- (ad_vertices _ _ R), elem_of_dom. Qed.

Lemma data_lookup u : u ∈ spec_vertices s -> exists p, m_adjacency_list g !! u = Some p.
Proof. by intros [p Hp]%data_vertex; eauto. Qed.

Lemma data_missing u : u ∉ spec_vertices s -> m_adjacency_list g !! u = None.
Proof. intros Hu. apply eq_None_not_Some. by rewrite data_vertex. Qed.

Lemma data_find_out u v p :
  m_adjacency_list g !! u = Some p -> find_edge p.1 v = spec_arcs s !! (u, v).
Proof. intros Hp. rewrite <- (ad_out _ _ R). unfold out_weight. by rewrite Hp. Qed.

Lemma data_find_in u v p :
  m_adjacency_list g !! v = Some p ->
  find_edge p.2 u = if spec_directed s then spec_arcs s !! (u, v) else None.
Proof. intros Hp. rewrite <- (ad_in _ _ R). unfold in_weight. by rewrite Hp. Qed.

(** In an undirected graph the list of the incoming edges is unused. *)
Lemma data_in_empty v p :
  spec_directed s = false -> m_adjacency_list g !! v = Some p -> p.2 = [].
Proof.
  intros Hd Hp. destruct (p.2) as [|[u w] l] eqn:Hl; [done|].
  pose proof (data_find_in u v p Hp) as H. rewrite Hd, Hl in H. simpl in H.
  by rewrite Z.eqb_refl in H.
Qed.

(** The list searched for the edge in the other direction. *)
Lemma data_find_back u v p :
  m_adjacency_list g !! v = Some p ->
  find_edge (if m_is_directed g then p.2 else p.1) u = spec_arcs s !! (u, v).
Proof.
  intros Hp. rewrite (ad_directed _ _ R). destruct (spec_directed s) eqn:Hd.
  - by rewrite (data_find_in u v p Hp), Hd.
  - by rewrite (ad_sym _ _ R Hd), <- (data_find_out v u p Hp).
Qed.

(** Both end points of an arc are vertices. *)
Lemma data_closed u v :
  is_Some (spec_arcs s !! (u, v)) -> u ∈ spec_vertices s /\ v ∈ spec_vertices s.
Proof.
  intros [w Hw]. split; apply data_vertex.
  - pose proof (ad_out _ _ R u v) as H. rewrite Hw in H. unfold out_weight in H.
    destruct (_ !! u); [eauto|done].
  - destruct (spec_directed s) eqn:Hd.
    + pose proof (ad_in _ _ R u v) as H. rewrite Hd, Hw in H. unfold in_weight in H.
      destruct (_ !! v); [eauto|done].
    + rewrite (ad_sym _ _ R Hd) in Hw.
      pose proof (ad_out _ _ R v u) as H. rewrite Hw in H. unfold out_weight in H.
      destruct (_ !! v); [eauto|done].
Qed.
End repr.

Lemma out_weight_insert m k p u v :
  out_weight (<[k := p]> m) u v = if decide (u = k) then find_edge p.1 v else out_weight m u v.
Proof.
  unfold out_weight. case_decide as H; [subst; by rewrite lookup_insert_eq|].
  by rewrite lookup_insert_ne.
Qed.

Lemma in_weight_insert m k p u v :
  in_weight (<[k := p]> m) u v = if decide (u = k) then find_edge p.2 v else in_weight m u v.
Proof.
  unfold in_weight. case_decide as H; [subst; by rewrite lookup_insert_eq|].
  by rewrite lookup_insert_ne.
Qed.

(** The shape of an update of both end points of an edge: [f] changes the
    list of the outgoing edges of [u] and [b] the list of [v] in which the
    edge is found from the other side. *)
Definition update_both (directed : bool) (f b : EdgeList -> EdgeList) (u v : Z)
    (m : gmap Z EdgePair) : gmap Z EdgePair :=
  match m !! u, m !! v with
  | Some pu, Some pv =>
    <[v := if directed then (pv.1, b pv.2) else (b pv.1, pv.2)]> (<[u := (f pu.1, pu.2)]> m)
  | _, _ => m
  end.

(** What the arcs are once the edge has weight [r], or is gone. *)
Definition arcs_updated (s : Spec) (u v : Z) (r : option double) (arcs : gmap (Z * Z) double) : Prop :=
  forall x y, arcs !! (x, y) =
    if decide (x = u /\ y = v) then r
    else if decide (spec_directed s = false /\ x = v /\ y = u) then r
    else spec_arcs s !! (x, y).

(** What a function that sets the edge to [v] to [r] does to a list. *)
Definition list_updater (f : EdgeList -> EdgeList) (v : Z) (r : option double) : Prop :=
  forall l, NoDup l.*1 ->
    NoDup (f l).*1 /\
    forall y, find_edge (f l) y = if decide (y = v) then r else find_edge l y.

Lemma put_edge_updater v w : list_updater (fun l => put_edge l v w) v (Some w).
Proof. intros l Hl. split; [by apply put_edge_NoDup|]. intros y. apply find_put_edge. Qed.

Lemma erase_edge_updater v : list_updater (fun l => erase_edge l v) v None.
Proof. intros l Hl. split; [by apply erase_edge_NoDup|]. intros y. by apply find_erase_edge. Qed.

Lemma update_both_data g s n f b u v r arcs :
  adj_data g s -> u <> v -> u ∈ spec_vertices s -> v ∈ spec_vertices s ->
  list_updater f v r -> list_updater b u r -> arcs_updated s u v r arcs ->
  Z.of_nat (size arcs) = (if spec_directed s then 1 else 2) * n -> is_u64 n ->
  adj_data (set_list (set_num_edges g n)
              (update_both (spec_directed s) f b u v (m_adjacency_list g)))
    (mkSpec (spec_directed s) (spec_vertices s) arcs).
Proof.
  intros R Huv Hu Hv Hf Hb Harcs Hsize Hn.
  destruct (data_lookup R u Hu) as [pu Hpu]. destruct (data_lookup R v Hv) as [pv Hpv].
  unfold update_both. rewrite Hpu, Hpv.
  destruct (ad_unique _ _ R u pu Hpu) as [Hnu1 Hnu2].
  destruct (ad_unique _ _ R v pv Hpv) as [Hnv1 Hnv2].
  pose proof (fun x => data_find_out R u x pu Hpu) as Hou.
  pose proof (fun x => data_find_out R v x pv Hpv) as Hov.
  pose proof (fun x => data_find_in R x u pu Hpu) as Hiu.
  pose proof (fun x => data_find_in R x v pv Hpv) as Hiv.
  destruct (Hf pu.1 Hnu1) as [Hfnd Hfl].
  constructor; simpl; try done.
  - apply R.
  - rewrite <- (ad_vertices _ _ R) in *. set_solver.
  - intros x y. rewrite Harcs, !out_weight_insert.
    pose proof (ad_out _ _ R x y). pose proof (Hov y). pose proof (Hou y).
    destruct (Hb pv.1 Hnv1) as [_ Hbl].
    destruct (spec_directed s); simpl; repeat case_decide; subst;
      rewrite ?Hfl, ?Hbl; repeat case_decide; intuition congruence.
  - intros x y. rewrite Harcs, !in_weight_insert.
    pose proof (ad_in _ _ R x y). pose proof (Hiv x). pose proof (Hiu x).
    destruct (Hb pv.2 Hnv2) as [_ Hbl].
    destruct (spec_directed s); simpl; repeat case_decide; subst;
      rewrite ?Hfl, ?Hbl; repeat case_decide; intuition congruence.
  - intros Hd x y. rewrite !Harcs, Hd. pose proof (ad_sym _ _ R Hd x y).
    repeat case_decide; intuition congruence.
  - intros x p. destruct (Hb pv.1 Hnv1) as [? _]. destruct (Hb pv.2 Hnv2) as [? _].
    destruct (decide (x = v)) as [->|]; [|destruct (decide (x = u)) as [->|]].
    + rewrite lookup_insert_eq. intros [= <-]. by destruct (spec_directed s).
    + rewrite lookup_insert_ne, lookup_insert_eq by done. by intros [= <-].
    + rewrite !lookup_insert_ne by done. apply (ad_unique _ _ R).
  - intros x. rewrite Harcs. repeat case_decide; [intuition congruence..|]. apply R.
Qed.

Lemma spec_add_updated s u v w :
  u <> v -> arcs_updated s u v (Some w) (spec_arcs (spec_add_edge s u v w)).
Proof.
  intros Huv x y. unfold spec_add_edge. simpl.
  destruct (spec_directed s); rewrite !lookup_insert;
    repeat (case_decide; destruct_and?; simplify_eq); (done || (exfalso; tauto)).
Qed.

Lemma spec_remove_updated s u v :
  u <> v -> arcs_updated s u v None (spec_arcs (spec_remove_edge s u v)).
Proof.
  intros Huv x y. unfold spec_remove_edge. simpl.
  destruct (spec_directed s); rewrite !lookup_delete;
    repeat (case_decide; destruct_and?; simplify_eq); (done || (exfalso; tauto)).
Qed.

Lemma spec_add_size s u v w :
  u <> v -> (spec_directed s = false -> forall x y, spec_arcs s !! (x, y) = spec_arcs s !! (y, x)) ->
  size (spec_arcs (spec_add_edge s u v w)) =
  (size (spec_arcs s) +
     (if spec_arcs s !! (u, v) then 0 else if spec_directed s then 1 else 2))%nat.
Proof.
  intros Huv Hsym. unfold spec_add_edge. simpl. destruct (spec_directed s).
  - rewrite map_size_insert. destruct (spec_arcs s !! (u, v)); simpl; lia.
  - rewrite !map_size_insert, lookup_insert_ne, (Hsym eq_refl v u) by congruence.
    destruct (spec_arcs s !! (u, v)); simpl; lia.
Qed.

Lemma spec_remove_size s u v w :
  u <> v -> (spec_directed s = false -> forall x y, spec_arcs s !! (x, y) = spec_arcs s !! (y, x)) ->
  spec_arcs s !! (u, v) = Some w ->
  Z.of_nat (size (spec_arcs (spec_remove_edge s u v))) =
  Z.of_nat (size (spec_arcs s)) - (if spec_directed s then 1 else 2).
Proof.
  intros Huv Hsym Hw. unfold spec_remove_edge. simpl.
  destruct (spec_directed s) eqn:Hd.
  - rewrite map_size_delete_Some by eauto.
    assert (size (spec_arcs s) <> 0)%nat; [|lia].
    apply (map_size_ne_0_lookup_2 _ (u, v)). by exists w.
  - assert (spec_arcs s !! (v, u) = Some w) as Hw' by (rewrite (Hsym eq_refl); done).
    assert (delete (u, v) (spec_arcs s) !! (v, u) = Some w) as Hw2
      by (rewrite lookup_delete_ne by congruence; done).
    rewrite !map_size_delete_Some by eauto.
    assert (size (delete (u, v) (spec_arcs s)) <> 0)%nat as H0.
    { apply (map_size_ne_0_lookup_2 _ (v, u)). by exists w. }
    rewrite map_size_delete_Some in H0 by eauto. lia.
Qed.

(** ** The updates refine the abstract graph *)

Definition hit (s : Spec) (u v : Z) : bool :=
  bool_decide (u ∈ spec_vertices s /\ v ∈ spec_vertices s).

Lemma add_edge0_data g s e :
  adj_data g s -> wsource e <> wdestination e ->
  wsource e ∈ spec_vertices s -> wdestination e ∈ spec_vertices s ->
  m_num_edges g + 1 < 2 ^ 64 ->
  exists g', add_edge0 g e = Val (true, g') /\ m_held g' = m_held g /\
    m_is_thread_safe g' = m_is_thread_safe g /\
    m_num_edges g' = m_num_edges g +
      (if spec_arcs s !! (wsource e, wdestination e) then 0 else 1) /\
    adj_data g' (spec_add_edge s (wsource e) (wdestination e) (m_weight e)).
Proof.
  intros R Hne Hs Hd Hbound.
  destruct (data_lookup R _ Hs) as [ps Hps]. destruct (data_lookup R _ Hd) as [pd Hpd].
  pose proof (ad_range _ _ R) as Hrange. unfold is_u64 in Hrange.
  set (n := m_num_edges g + if spec_arcs s !! (wsource e, wdestination e) then 0 else 1).
  assert (is_u64 n) as Hn
    by (unfold is_u64; subst n; destruct (spec_arcs s !! _); lia).
  pose proof (update_both_data g s n _ _ _ _ _ _ R Hne Hs Hd
    (put_edge_updater (wdestination e) (m_weight e)) (put_edge_updater (wsource e) (m_weight e))
    (spec_add_updated s _ _ (m_weight e) Hne)) as Hdata.
  unfold add_edge0. rewrite Hps. cbn [require]. bind_val.
  rewrite (data_find_out R _ _ _ Hps).
  assert ((match spec_arcs s !! (wsource e, wdestination e) with
           | Some _ => g
           | None => set_num_edges g (u64 (m_num_edges g + 1))
           end) = set_num_edges g n) as ->.
  { subst n. destruct (spec_arcs s !! _); destruct g; unfold set_num_edges; simpl; f_equal.
    - lia.
    - apply u64_id. unfold is_u64. simpl in *. lia. }
  simpl. rewrite lookup_insert_ne, Hpd by done. simpl.
  unfold update_both in Hdata. rewrite Hps, Hpd in Hdata.
  eexists. split; [done|]. do 3 (split; [done|]).
  rewrite (ad_directed _ _ R). apply Hdata; [|done].
  rewrite spec_add_size by (done || apply (ad_sym _ _ R)).
  pose proof (ad_count _ _ R). subst n.
  destruct (spec_arcs s !! _), (spec_directed s); lia.
Qed.

Lemma delete_edge0_data g s e :
  adj_data g s -> source e <> destination e ->
  is_Some (spec_arcs s !! (source e, destination e)) ->
  exists g', delete_edge0 g e = Val (true, g') /\ m_held g' = m_held g /\
    m_is_thread_safe g' = m_is_thread_safe g /\ m_num_edges g' = m_num_edges g - 1 /\
    adj_data g' (spec_remove_edge s (source e) (destination e)).
Proof.
  intros R Hne [w Hw].
  destruct (data_closed R (source e) (destination e)) as [Hs Hd]; [by exists w|].
  destruct (data_lookup R _ Hs) as [ps Hps]. destruct (data_lookup R _ Hd) as [pd Hpd].
  pose proof (ad_range _ _ R) as Hrange. unfold is_u64 in Hrange.
  pose proof (ad_count _ _ R) as Hcount.
  pose proof (spec_remove_size s _ _ w Hne (ad_sym _ _ R) Hw) as Hsize.
  assert (0 < m_num_edges g) as Hpos.
  { assert (size (spec_arcs s) <> 0)%nat; [|destruct (spec_directed s); lia].
    apply (map_size_ne_0_lookup_2 _ (source e, destination e)). by exists w. }
  pose proof (update_both_data g s (m_num_edges g - 1) _ _ _ _ _ _ R Hne Hs Hd
    (erase_edge_updater (destination e)) (erase_edge_updater (source e))
    (spec_remove_updated s _ _ Hne)) as Hdata.
  unfold delete_edge0. cbv zeta. rewrite Hps, Hpd, (data_find_out R _ _ _ Hps), Hw.
  rewrite (proj2 (Z.ltb_lt _ _) Hpos). cbn [negb].
  rewrite lookup_insert_ne, Hpd by done. simpl.
  rewrite (data_find_back R _ _ _ Hpd), Hw. simpl.
  unfold update_both in Hdata. rewrite Hps, Hpd in Hdata.
  eexists. split; [done|]. do 3 (split; [done|]).
  rewrite (ad_directed _ _ R). apply Hdata; [|unfold is_u64; lia].
  rewrite Hsize. destruct (spec_directed s); lia.
Qed.

Lemma emplace_data `{UnorderedMap} g s v : adj_data g s -> adj_data (emplace g v) (spec_add_vertex s v).
Proof.
  intros R. unfold emplace. destruct (decide (v ∈ spec_vertices s)) as [Hv|Hv].
  - destruct (data_lookup R v Hv) as [p Hp]. rewrite Hp.
    unfold spec_add_vertex. replace ({[v]} ∪ spec_vertices s) with (spec_vertices s) by set_solver.
    by destruct s.
  - assert (Hm := data_missing R v Hv). rewrite Hm.
    constructor; simpl; try apply R.
    + rewrite <- (ad_vertices _ _ R). set_solver.
    + intros x y. rewrite out_weight_insert, <- (ad_out _ _ R).
      case_decide; [subst|done]. unfold out_weight. by rewrite Hm.
    + intros x y. rewrite in_weight_insert, <- (ad_in _ _ R).
      case_decide; [subst|done]. unfold in_weight. by rewrite Hm.
    + intros x p. destruct (decide (x = v)) as [->|].
      * rewrite lookup_insert_eq. intros [= <-]. split; constructor.
      * rewrite lookup_insert_ne by done. apply (ad_unique _ _ R).
Qed.

Lemma emplace_fields `{UnorderedMap} g v :
  m_held (emplace g v) = m_held g /\ m_is_thread_safe (emplace g v) = m_is_thread_safe g /\
  m_num_edges (emplace g v) = m_num_edges g.
Proof. unfold emplace. by destruct (m_adjacency_list g !! v). Qed.

Lemma add_vertex0_data `{UnorderedMap} g s v :
  adj_data g s ->
  add_vertex0 g v = Val (negb (bool_decide (v ∈ spec_vertices s)), emplace g v).
Proof.
  intros R. unfold add_vertex0. do 2 f_equal. rewrite <- bool_decide_not.
  apply bool_decide_ext. by rewrite eq_None_not_Some, (data_vertex R).
Qed.

Lemma add_edge_v2_impl_data `{UnorderedMap} g s e :
  adj_data g s -> wsource e <> wdestination e ->
  rehash_keeps_iterators = true \/ wdestination e ∈ spec_vertices s ->
  m_num_edges g + 1 < 2 ^ 64 ->
  exists g', add_edge_v2_impl g e = Val (true, g') /\ m_held g' = m_held g /\
    m_is_thread_safe g' = m_is_thread_safe g /\
    m_num_edges g' <= m_num_edges g + 1 /\
    adj_data g' (spec_add_edge (spec_add_vertex (spec_add_vertex s (wsource e)) (wdestination e))
                   (wsource e) (wdestination e) (m_weight e)).
Proof.
  intros R Hne Hkeep Hb. unfold add_edge_v2_impl. cbv zeta.
  pose proof (emplace_data _ _ (wsource e) R) as R1.
  assert (rehashes (emplace g (wsource e)) (wdestination e) && negb rehash_keeps_iterators = false) as ->.
  { destruct Hkeep as [->|Hv]; [apply andb_false_r|]. unfold rehashes.
    destruct (data_lookup R1 (wdestination e)) as [p ->]; [simpl; set_solver|done]. }
  destruct (emplace_fields g (wsource e)) as (Hh1 & Ht1 & Hn1).
  destruct (emplace_fields (emplace g (wsource e)) (wdestination e)) as (Hh2 & Ht2 & Hn2).
  destruct (add_edge0_data _ _ e (emplace_data _ _ (wdestination e) R1))
    as (g' & -> & ? & ? & Hn & R'); [done|simpl; set_solver..|lia|].
  exists g'. split; [done|]. split; [congruence|]. split; [congruence|]. split; [|done].
  rewrite Hn. destruct (spec_arcs _ !! _); lia.
Qed.

(** The checks of [delete_vertex0] succeed on every represented graph. *)
Lemma delete_vertex0_data g s v p :
  adj_data g s -> m_adjacency_list g !! v = Some p ->
  delete_vertex0 g v = Val (true, set_list g (delete v (m_adjacency_list g))).
Proof.
  intros R Hp. unfold delete_vertex0. cbv zeta. rewrite Hp.
  destruct (ad_unique _ _ R v p Hp) as [Hn1 Hn2].
  assert (forall pick l, (forall x w, (x, w) ∈ l -> exists q w',
            m_adjacency_list g !! x = Some q /\ find_edge (pick q) v = Some w') ->
          res_fold (fun _ e => check_back_edge v pick (m_adjacency_list g) e) tt l = Val tt)
    as Hfold.
  { intros pick l. induction l as [|[x w] l IH]; intros Hl; [done|].
    cbn [res_fold]. destruct (Hl x w) as (q & w' & Hq & Hw'); [by left|].
    assert (check_back_edge v pick (m_adjacency_list g) (x, w) = Val tt) as ->
      by (unfold check_back_edge; simpl; rewrite Hq; simpl; by rewrite Hw').
    bind_val. apply IH. intros y w2 Hy. apply (Hl y w2). by right. }
  rewrite (Hfold (fun p => if m_is_directed g then p.2 else p.1) p.1).
  2:{ intros x w Hx. apply (find_edge_Some _ _ _ Hn1) in Hx.
      rewrite (data_find_out R _ _ _ Hp) in Hx.
      destruct (data_closed R v x) as [_ Hxv]; [by exists w|].
      destruct (data_lookup R x Hxv) as [q Hq]. exists q, w. split; [done|].
      by rewrite (data_find_back R _ _ _ Hq). }
  bind_val. rewrite (ad_directed _ _ R). destruct (spec_directed s) eqn:Hd; cbn [orb negb].
  - rewrite (Hfold fst p.2); [done|]. intros x w Hx. apply (find_edge_Some _ _ _ Hn2) in Hx.
    rewrite (data_find_in R _ _ _ Hp), Hd in Hx.
    destruct (data_closed R x v) as [Hxv _]; [by exists w|].
    destruct (data_lookup R x Hxv) as [q Hq]. exists q, w. split; [done|].
    by rewrite (data_find_out R _ _ _ Hq).
  - by rewrite (data_in_empty R v p Hd Hp).
Qed.

(** A vertex without edges. *)
Definition isolated (s : Spec) (v : Z) : Prop :=
  forall x, spec_arcs s !! (v, x) = None /\ spec_arcs s !! (x, v) = None.

Lemma isolated_intro s v :
  bool_decide (map_Forall (fun k _ => k.1 <> v /\ k.2 <> v) (spec_arcs s)) = true -> isolated s v.
Proof.
  rewrite bool_decide_eq_true. intros H x. split; apply eq_None_not_Some; intros [w Hw];
    by destruct (H _ _ Hw).
Qed.

Definition spec_remove_vertex (s : Spec) (v : Z) : Spec :=
  mkSpec (spec_directed s) (spec_vertices s ∖ {[v]}) (spec_arcs s).

Lemma delete_vertex0_isolated g s v :
  adj_data g s -> isolated s v ->
  adj_data (set_list g (delete v (m_adjacency_list g))) (spec_remove_vertex s v).
Proof.
  intros R Hiso. constructor; simpl; try apply R.
  - rewrite <- (ad_vertices _ _ R). set_solver.
  - intros x y. unfold out_weight. destruct (decide (x = v)) as [->|].
    + rewrite lookup_delete_eq. by destruct (Hiso y) as [-> _].
    + rewrite lookup_delete_ne by done. apply (ad_out _ _ R).
  - intros x y. unfold in_weight. destruct (decide (y = v)) as [->|].
    + rewrite lookup_delete_eq. destruct (Hiso x) as [_ ->]. by destruct (spec_directed s).
    + rewrite lookup_delete_ne by done. apply (ad_in _ _ R).
  - intros x p. destruct (decide (x = v)) as [->|].
    + by rewrite lookup_delete_eq.
    + rewrite lookup_delete_ne by done. apply (ad_unique _ _ R).
Qed.

(** ** Sequences of updates *)

Inductive Update :=
  | UAddVertex (v : Z)
  | URemoveVertex (v : Z)
  | UAddEdge (e : WeightedEdge)
  | UAddEdgeV2 (e : WeightedEdge)
  | URemoveEdge (e : Edge).

Definition apply_update `{UnorderedMap} (g : AdjacencyList) (u : Update) : res (bool * AdjacencyList) :=
  match u with
  | UAddVertex v => add_vertex g v
  | URemoveVertex v => remove_vertex g v
  | UAddEdge e => add_edge g e
  | UAddEdgeV2 e => add_edge_v2 g e
  | URemoveEdge e => remove_edge g e
  end.

(** A client that goes on after an exception, with the graph as it was. *)
Fixpoint run_updates `{UnorderedMap} (g : AdjacencyList) (us : list Update) : list (res bool) * AdjacencyList :=
  match us with
  | [] => ([], g)
  | u :: us =>
    let (o, g') :=
      match apply_update g u with
      | Val (b, g') => (Val b, g')
      | Exn x => (Exn x, g)
      | Undef => (Undef, g)
      | NoFuel => (NoFuel, g)
      end in
    let (os, g'') := run_updates g' us in
    (o :: os, g'')
  end.

(** What each update promises. *)
Definition spec_update (s : Spec) (u : Update) : res bool * Spec :=
  match u with
  | UAddVertex v => (Val (negb (bool_decide (v ∈ spec_vertices s))), spec_add_vertex s v)
  | URemoveVertex v => (Val (bool_decide (v ∈ spec_vertices s)), spec_remove_vertex s v)
  | UAddEdge e =>
    if wsource e =? wdestination e then (Exn InvalidArgument, s)
    else if hit s (wsource e) (wdestination e)
    then (Val true, spec_add_edge s (wsource e) (wdestination e) (m_weight e))
    else (Val false, s)
  | UAddEdgeV2 e =>
    if wsource e =? wdestination e then (Exn InvalidArgument, s)
    else (Val true,
          spec_add_edge (spec_add_vertex (spec_add_vertex s (wsource e)) (wdestination e))
            (wsource e) (wdestination e) (m_weight e))
  | URemoveEdge e =>
    match spec_arcs s !! (source e, destination e) with
    | Some _ => (Val true, spec_remove_edge s (source e) (destination e))
    | None => (Val false, s)
    end
  end.

Fixpoint spec_run (s : Spec) (us : list Update) : list (res bool) * Spec :=
  match us with
  | [] => ([], s)
  | u :: us =>
    let (o, s') := spec_update s u in
    let (os, s'') := spec_run s' us in
    (o :: os, s'')
  end.

(** Only vertices without edges are removed, and an edge is only inserted
    together with its destination if the table keeps its iterators. *)
Definition admissible_update `{UnorderedMap} (s : Spec) (u : Update) : Prop :=
  match u with
  | URemoveVertex v => isolated s v
  | UAddEdgeV2 e => rehash_keeps_iterators = true \/ wdestination e ∈ spec_vertices s
  | _ => True
  end.

Fixpoint admissible `{UnorderedMap} (s : Spec) (us : list Update) : Prop :=
  match us with
  | [] => True
  | u :: us => admissible_update s u /\ admissible (spec_update s u).2 us
  end.

(** An update that may take the lock. *)
Lemma locked_update `{UnorderedMap} g s u (f : AdjacencyList -> res (bool * AdjacencyList)) (locks : bool) :
  adj_repr g s ->
  (forall g, adj_data g s -> m_num_edges g + 1 < 2 ^ 64 ->
     exists o g', f g = Val (o, g') /\ m_held g' = m_held g /\
       m_num_edges g' <= m_num_edges g + 1 /\
       Val o = (spec_update s u).1 /\ adj_data g' (spec_update s u).2) ->
  m_num_edges g + 1 < 2 ^ 64 ->
  exists o g', (if locks then with_lock g f else f g) = Val (o, g') /\
    m_num_edges g' <= m_num_edges g + 1 /\
    Val o = (spec_update s u).1 /\ adj_repr g' (spec_update s u).2.
Proof.
  intros [R Hh] Hf Hb. destruct locks.
  - destruct (Hf (set_held g true)) as (o & g' & Hg' & _ & Hn & Ho & R'); [by apply data_held|done|].
    exists o, (set_held g' false). split; [by apply with_lock_val|].
    split; [done|]. split; [done|]. split; [by apply data_held|done].
  - destruct (Hf g R Hb) as (o & g' & Hg' & Hh' & Hn & Ho & R').
    exists o, g'. split; [done|]. split; [done|]. split; [done|]. split; [done|congruence].
Qed.

Lemma add_edge_impl_update g s e :
  wsource e <> wdestination e -> adj_data g s -> m_num_edges g + 1 < 2 ^ 64 ->
  exists o g', add_edge_impl g e = Val (o, g') /\ m_held g' = m_held g /\
    m_num_edges g' <= m_num_edges g + 1 /\
    Val o = (spec_update s (UAddEdge e)).1 /\ adj_data g' (spec_update s (UAddEdge e)).2.
Proof.
  intros Hne R Hb. unfold add_edge_impl, spec_update, hit.
  rewrite (proj2 (Z.eqb_neq _ _) Hne). case_bool_decide as Hhit.
  - destruct Hhit as [Hs Hd]. destruct (data_lookup R _ Hs) as [ps ->].
    destruct (data_lookup R _ Hd) as [pd ->].
    destruct (add_edge0_data g s e R Hne Hs Hd Hb) as (g' & -> & Hh & _ & Hn & R').
    exists true, g'. split; [done|]. split; [done|]. split; [|done].
    rewrite Hn. destruct (spec_arcs s !! _); lia.
  - exists false, g. split; [|split; [done|]; split; [lia|done]].
    destruct (m_adjacency_list g !! wsource e) eqn:Hs; [|done].
    destruct (m_adjacency_list g !! wdestination e) eqn:Hd; [|done].
    destruct Hhit. split; eapply data_vertex; eauto.
Qed.

Lemma add_edge_v2_update `{UnorderedMap} g s e :
  wsource e <> wdestination e -> admissible_update s (UAddEdgeV2 e) -> adj_data g s ->
  m_num_edges g + 1 < 2 ^ 64 ->
  exists o g', add_edge_v2_impl g e = Val (o, g') /\ m_held g' = m_held g /\
    m_num_edges g' <= m_num_edges g + 1 /\
    Val o = (spec_update s (UAddEdgeV2 e)).1 /\ adj_data g' (spec_update s (UAddEdgeV2 e)).2.
Proof.
  intros Hne Hk R Hb. unfold spec_update. rewrite (proj2 (Z.eqb_neq _ _) Hne).
  destruct (add_edge_v2_impl_data g s e R Hne Hk Hb) as (g' & -> & Hh & _ & Hn & R').
  by exists true, g'.
Qed.

Lemma delete_edge0_update g s e :
  adj_data g s ->
  exists o g', delete_edge0 g e = Val (o, g') /\ m_held g' = m_held g /\
    m_num_edges g' <= m_num_edges g + 1 /\
    Val o = (spec_update s (URemoveEdge e)).1 /\ adj_data g' (spec_update s (URemoveEdge e)).2.
Proof.
  intros R. unfold spec_update. destruct (spec_arcs s !! _) as [w|] eqn:Hw.
  - destruct (decide (source e = destination e)) as [Heq|Hne].
    { by rewrite Heq, (ad_loop _ _ R) in Hw. }
    destruct (delete_edge0_data g s e R Hne) as (g' & -> & Hh & _ & Hn & R'); [by exists w|].
    exists true, g'. split; [done|]. split; [done|]. split; [lia|done].
  - exists false, g. split; [|split; [done|]; split; [lia|done]].
    unfold delete_edge0. cbv zeta.
    destruct (m_adjacency_list g !! source e) eqn:Hs; [|done].
    destruct (m_adjacency_list g !! destination e); [|done].
    by rewrite (data_find_out R _ _ _ Hs), Hw.
Qed.

Lemma delete_vertex0_update g s v :
  isolated s v -> adj_data g s ->
  exists o g', delete_vertex0 g v = Val (o, g') /\ m_held g' = m_held g /\
    m_num_edges g' <= m_num_edges g + 1 /\
    Val o = (spec_update s (URemoveVertex v)).1 /\ adj_data g' (spec_update s (URemoveVertex v)).2.
Proof.
  intros Hiso R. unfold spec_update. case_bool_decide as Hv.
  - destruct (data_lookup R v Hv) as [p Hp]. rewrite (delete_vertex0_data g s v p R Hp).
    eexists true, _. split; [done|]. split; [done|]. split; [simpl; lia|]. split; [done|].
    by apply delete_vertex0_isolated.
  - unfold delete_vertex0. cbv zeta. rewrite (data_missing R v Hv). exists false, g.
    split; [done|]. split; [done|]. split; [lia|]. split; [done|].
    unfold spec_remove_vertex. replace (spec_vertices s ∖ {[v]}) with (spec_vertices s) by set_solver.
    by destruct s.
Qed.

(** Every update does what it promises. *)
Lemma apply_update_spec `{UnorderedMap} g s u :
  adj_repr g s -> admissible_update s u -> m_num_edges g + 1 < 2 ^ 64 ->
  match (spec_update s u).1 with
  | Exn x => apply_update g u = Exn x /\ (spec_update s u).2 = s
  | o => exists b g', apply_update g u = Val (b, g') /\ m_num_edges g' <= m_num_edges g + 1 /\
           Val b = o /\ adj_repr g' (spec_update s u).2
  end.
Proof.
  intros R Hadm Hb.
  pose proof (locked_update g s u) as Hlock. destruct u as [v|v|e|e|e].
  - apply Hlock; [done| |done]. intros g1 R1 _.
    destruct (emplace_fields g1 v) as (Hh & _ & Hn). eexists _, (emplace g1 v).
    split; [by apply add_vertex0_data|]. split; [done|]. split; [lia|].
    split; [done|by apply emplace_data].
  - apply Hlock; [done| |done]. intros g1 R1 _. by apply delete_vertex0_update.
  - simpl. unfold add_edge. destruct (Z.eqb_spec (wsource e) (wdestination e)) as [|Hne]; [done|].
    pose proof (fun g R b => add_edge_impl_update g s e Hne R b) as Himpl.
    specialize (Hlock _ (m_is_thread_safe g) R Himpl Hb).
    simpl in Hlock. rewrite (proj2 (Z.eqb_neq _ _) Hne) in Hlock.
    by destruct (hit s _ _).
  - simpl. unfold add_edge_v2. destruct (Z.eqb_spec (wsource e) (wdestination e)) as [|Hne]; [done|].
    pose proof (fun g R b => add_edge_v2_update g s e Hne Hadm R b) as Himpl.
    specialize (Hlock _ (m_is_thread_safe g) R Himpl Hb).
    simpl in Hlock. by rewrite (proj2 (Z.eqb_neq _ _) Hne) in Hlock.
  - simpl. pose proof (fun g R (_ : m_num_edges g + 1 < 2 ^ 64) => delete_edge0_update g s e R) as Himpl.
    specialize (Hlock _ true R Himpl Hb). simpl in Hlock.
    by destruct (spec_arcs s !! _).
Qed.

Lemma run_updates_spec `{UnorderedMap} us : forall g s,
  adj_repr g s -> admissible s us -> m_num_edges g + Z.of_nat (length us) < 2 ^ 64 ->
  (run_updates g us).1 = (spec_run s us).1 /\ adj_repr (run_updates g us).2 (spec_run s us).2.
Proof.
  induction us as [|u us IH]; intros g s R Hadm Hb; [done|].
  destruct Hadm as [Hu Hus]. cbn [length] in Hb.
  pose proof (apply_update_spec g s u R Hu) as Hstep. cbn [run_updates spec_run].
  destruct (spec_update s u) as [o s'] eqn:Hs'. cbn [fst snd] in *.
  assert (exists g', adj_repr g' s' /\ m_num_edges g' <= m_num_edges g + 1 /\
            match apply_update g u with
            | Val (b, g') => (Val b, g')
            | Exn x => (Exn x, g)
            | Undef => (Undef, g)
            | NoFuel => (NoFuel, g)
            end = (o, g')) as (g' & R' & Hn & ->).
  { destruct o as [b|x| |].
    2:{ destruct Hstep as [-> <-]; [lia|]. exists g. split; [done|]. split; [lia|done]. }
    all: destruct Hstep as (b' & g' & -> & Hn & <- & R'); [lia|]; by exists g'. }
  destruct (IH g' s' R' Hus) as [Ho Hr]; [lia|].
  destruct (run_updates g' us) as [os g'']. destruct (spec_run s' us) as [os' s''].
  simpl in *. by rewrite Ho.
Qed.

(** C12: any sequence of updates on a new graph (in which only vertices without
    edges are removed and, unless the hash table keeps its iterators when it
    rehashes, [add_edge_v2] is only called for existing destinations) answers
    what the abstract graph answers and leaves a graph that represents the
    abstract one: the lists of both end points agree, no list has duplicates and
    the edges are counted once. *)
Theorem updates_refine `{UnorderedMap} is_directed is_thread_safe us
  (Hadm : admissible (spec_new is_directed) us)
  (Hbound : Z.of_nat (length us) < 2 ^ 64) :
  let s := spec_run (spec_new is_directed) us in
  let g := run_updates (AdjacencyList_new is_directed is_thread_safe) us in
  g.1 = s.1 /\ adj_repr g.2 s.2.
Proof. apply run_updates_spec; [apply repr_new|done|done]. Qed.

(** Tables that double their buckets: one that keeps its iterators, as that of
    libstdc++ does, and one that only promises what the standard asks for. *)
Definition stable_table : UnorderedMap := {|
  initial_bucket_count := 1;
  rehashed_bucket_count := fun buckets n => Z.max (2 * buckets) n;
  rehash_keeps_iterators := true;
|}.

Definition strict_table : UnorderedMap := {|
  initial_bucket_count := 1;
  rehashed_bucket_count := fun buckets n => Z.max (2 * buckets) n;
  rehash_keeps_iterators := false;
|}.

(** With the second, the insertion of an edge between two new vertices
    dereferences an iterator of the table before its rehash. *)
Example ex_rehash :
  fst <$> @add_edge_v2 stable_table (@AdjacencyList_new stable_table false false)
    (mkWeightedEdge (mkEdge 10 20) d_one) = Val true /\
  @add_edge_v2 strict_table (@AdjacencyList_new strict_table false false)
    (mkWeightedEdge (mkEdge 10 20) d_one) = Undef.
Proof. by vm_compute. Qed.

#[local] Existing Instance stable_table.

(** A sequence with a failing insertion, an exception and a removal. *)
Definition ex_updates : list Update :=
  [UAddVertex 10; UAddEdge (mkWeightedEdge (mkEdge 10 20) d_one);
   UAddEdgeV2 (mkWeightedEdge (mkEdge 10 20) d_one);
   UAddEdge (mkWeightedEdge (mkEdge 20 10) d_zero);
   UAddEdge (mkWeightedEdge (mkEdge 10 10) d_one); UAddVertex 30; UAddVertex 10;
   URemoveVertex 30; URemoveEdge (mkEdge 20 10); URemoveEdge (mkEdge 20 10)].

Lemma ex_updates_admissible : admissible (spec_new false) ex_updates.
Proof.
  split; [done|]. split; [done|]. split; [by left|]. do 4 (split; [done|]).
  split; [apply isolated_intro; by vm_compute|done].
Qed.

Lemma updates_refine_witness :
  (run_updates (AdjacencyList_new false true) ex_updates).1 =
    [Val true; Val false; Val true; Val true; Exn InvalidArgument; Val true; Val false; Val true;
     Val true; Val false] /\
  adj_repr (run_updates (AdjacencyList_new false true) ex_updates).2
    (spec_run (spec_new false) ex_updates).2.
Proof.
  destruct (updates_refine false true ex_updates ex_updates_admissible ltac:(simpl; lia)) as [-> Hr].
  split; [by vm_compute|exact Hr].
Defined.

(** The properties read off a graph are those of the abstract graph: the
    counts, the membership of a vertex, the weight of an edge (NaN when it is
    missing) and, for the degree, the distinct neighbours in both directions. *)
Theorem queries_spec g s u v (R : adj_repr g s) :
  num_vertices g = Val (Z.of_nat (size (spec_vertices s))) /\
  (exists n, num_edges g = Val n /\
     Z.of_nat (size (spec_arcs s)) = (if spec_directed s then 1 else 2) * n) /\
  has_vertex g v = Val (bool_decide (v ∈ spec_vertices s)) /\
  get_weight g u v = Val (default d_nan (spec_arcs s !! (u, v))) /\
  (v ∈ spec_vertices s ->
   exists N : gset Z, get_degree g v = Val (Z.of_nat (size N)) /\
     forall x, x ∈ N <-> is_Some (spec_arcs s !! (v, x)) \/ is_Some (spec_arcs s !! (x, v))).
Proof.
  destruct R as [R Hh]. unfold num_vertices, num_edges, has_vertex, get_weight, with_shared.
  rewrite Hh. cbn [m_adjacency_list set_held m_num_edges].
  split; [by rewrite <- (ad_vertices _ _ R), size_dom|].
  split; [by exists (m_num_edges g); split; [|apply R]|].
  split; [f_equal; apply bool_decide_ext, (data_vertex R)|].
  split.
  - destruct (m_adjacency_list g !! u) as [p|] eqn:Hu.
    + rewrite (data_find_out R _ _ _ Hu). by destruct (spec_arcs s !! (u, v)).
    + destruct (spec_arcs s !! (u, v)) as [w|] eqn:Hw; [|done].
      destruct (data_closed R u v) as [Hc _]; [by exists w|].
      by destruct (data_lookup R u Hc) as [p ?]; simplify_eq.
  - intros Hv. destruct (data_lookup R v Hv) as [p Hp]. exists (both_neighbours p).
    assert (forall x, x ∈ both_neighbours p <->
              is_Some (find_edge p.1 x) \/ is_Some (find_edge p.2 x)) as Hboth.
    { intros x. unfold both_neighbours. rewrite elem_of_union, !elem_of_list_to_set.
      rewrite <- !not_eq_None_Some, !find_edge_None.
      destruct (decide (x ∈ p.1.*1)), (decide (x ∈ p.2.*1)); tauto. }
    split.
    + destruct (ad_unique _ _ R v p Hp) as [Hn1 _].
      unfold get_degree. rewrite Hp. simpl. rewrite (ad_directed _ _ R).
      destruct (spec_directed s) eqn:Hd; simpl; [done|].
      do 2 f_equal. unfold both_neighbours. rewrite (data_in_empty R v p Hd Hp). simpl.
      rewrite union_empty_r_L. rewrite size_list_to_set by done. by rewrite length_fmap.
    + intros x. rewrite Hboth, (data_find_out R _ _ _ Hp), (data_find_in R _ _ _ Hp).
      destruct (spec_directed s) eqn:Hd; [done|].
      rewrite (ad_sym _ _ R Hd x v). split; [intros [?|[]%is_Some_None]|]; tauto.
Qed.

(** A directed graph and an undirected one on which the theorems are used. *)
Definition ex_graph (d : bool) : AdjacencyList :=
  (run_updates (AdjacencyList_new d false)
     [UAddEdgeV2 (mkWeightedEdge (mkEdge 10 20) d_one);
      UAddEdgeV2 (mkWeightedEdge (mkEdge 20 30) d_one); UAddVertex 40]).2.

Definition ex_spec (d : bool) : Spec :=
  (spec_run (spec_new d)
     [UAddEdgeV2 (mkWeightedEdge (mkEdge 10 20) d_one);
      UAddEdgeV2 (mkWeightedEdge (mkEdge 20 30) d_one); UAddVertex 40]).2.

Lemma ex_repr d : adj_repr (ex_graph d) (ex_spec d).
Proof.
  apply run_updates_spec; [apply repr_new| |simpl; lia].
  split; [by left|]. split; [by left|]. done.
Qed.

Lemma queries_spec_witness :
  get_weight (ex_graph false) 20 10 = Val d_one /\ get_weight (ex_graph true) 20 10 = Val d_nan /\
  num_vertices (ex_graph true) = Val 4.
Proof.
  destruct (queries_spec _ _ 20 10 (ex_repr false)) as (_ & _ & _ & -> & _).
  destruct (queries_spec _ _ 20 10 (ex_repr true)) as (-> & _ & _ & -> & _).
  by vm_compute.
Defined.

(** Removing a vertex succeeds, but the arcs towards it survive: the lists
    of its neighbours are only changed in a copy, so that [get_weight] still
    answers the edge [u -> v] to a vertex [v] that no longer exists, and the
    number of edges is what it was. *)
Theorem remove_vertex_dangling g s u v w
  (R : adj_repr g s) (Hw : spec_arcs s !! (u, v) = Some w) :
  exists g', remove_vertex g v = Val (true, g') /\
    has_vertex g' v = Val false /\ get_weight g' u v = Val w /\
    num_edges g' = num_edges g.
Proof.
  destruct R as [R Hh]. destruct (data_closed R u v) as [Hu Hv]; [by exists w|].
  destruct (data_lookup R u Hu) as [p Hp]. destruct (data_lookup R v Hv) as [q Hq].
  assert (u <> v) as Huv by (intros ->; by rewrite (ad_loop _ _ R) in Hw).
  assert (remove_vertex g v =
            Val (true, set_list (set_held g false) (delete v (m_adjacency_list g)))) as ->.
  { unfold remove_vertex. destruct (m_is_thread_safe g).
    - rewrite (with_lock_val g _ true (set_list (set_held g true) (delete v (m_adjacency_list g))));
        [done..|].
      apply (delete_vertex0_data (set_held g true) s v q); [by apply data_held|done].
    - rewrite (delete_vertex0_data g s v q R Hq). by destruct g; simplify_eq/=. }
  eexists. split; [done|]. unfold has_vertex, get_weight, num_edges, with_shared. rewrite Hh. simpl.
  rewrite lookup_delete_eq, lookup_delete_ne, Hp by congruence.
  by rewrite (data_find_out R _ _ _ Hp), Hw.
Qed.

Lemma remove_vertex_dangling_witness :
  exists g', remove_vertex (ex_graph false) 20 = Val (true, g') /\
    has_vertex g' 20 = Val false /\ get_weight g' 10 20 = Val d_one /\
    num_edges g' = Val 2 /\ remove_vertex g' 10 = Undef.
Proof.
  destruct (remove_vertex_dangling (ex_graph false) (ex_spec false) 10 20 d_one)
    as (g' & Hg' & Hv & Hw & Hn); [apply ex_repr|by vm_compute|].
  exists g'. rewrite Hn. vm_compute in Hg'. injection Hg' as <-. by vm_compute.
Defined.

Definition load_edge `{UnorderedMap} (g : AdjacencyList) (edge : WeightedEdge) : res AdjacencyList :=
  '(_, g) ← add_edge_v2 g edge; Val g.

(** On a graph that is not thread safe, whose table keeps its iterators, [load] inserts the edges read one
    after the other and represents the abstract graph after the same
    insertions. *)
Theorem load_spec `{UnorderedMap} g s edges
  (R : adj_repr g s) (Hts : m_is_thread_safe g = false)
  (Hkeep : rehash_keeps_iterators = true)
  (Hloops : Forall (fun e => wsource e <> wdestination e) edges)
  (Hbound : m_num_edges g + Z.of_nat (length edges) < 2 ^ 64) :
  exists g', load g edges = Val (tt, g') /\
    adj_repr g' (spec_run s (map UAddEdgeV2 edges)).2.
Proof.
  destruct R as [R Hh].
  assert (forall g s, adj_data g s -> m_is_thread_safe g = false ->
            m_num_edges g + Z.of_nat (length edges) < 2 ^ 64 ->
            exists g', res_fold load_edge g edges = Val g' /\
              adj_data g' (spec_run s (map UAddEdgeV2 edges)).2) as Hfold.
  { clear -Hloops Hkeep. induction Hloops as [|e edges Hne _ IH]; intros g s R Hts Hb; [by exists g|].
    cbn [length] in Hb. cbn [res_fold map spec_run]. unfold spec_update.
    rewrite (proj2 (Z.eqb_neq _ _) Hne).
    destruct (add_edge_v2_impl_data g s e R Hne) as (g1 & Hg1 & _ & Hts1 & Hn1 & R1); [by left|lia|].
    assert (load_edge g e = Val g1) as ->.
    { unfold load_edge, add_edge_v2. by rewrite (proj2 (Z.eqb_neq _ _) Hne), Hts, Hg1. }
    bind_val. destruct (IH g1 _ R1) as (g2 & Hg2 & R2); [congruence|lia|].
    exists g2. split; [done|]. by destruct (spec_run _ (map UAddEdgeV2 edges)). }
  destruct (Hfold (set_held g true) s) as (g' & Hg' & R'); [by apply data_held|done|done|].
  exists (set_held g' false). split; [|split; [by apply data_held|done]].
  unfold load. apply with_lock_val; [done|]. fold load_edge. by rewrite Hg'.
Qed.

Lemma load_spec_witness :
  exists g', load (AdjacencyList_new true false)
    [mkWeightedEdge (mkEdge 10 20) d_one; mkWeightedEdge (mkEdge 10 20) d_zero] = Val (tt, g') /\
    get_weight g' 10 20 = Val d_zero.
Proof.
  destruct (load_spec (AdjacencyList_new true false) (spec_new true)
    [mkWeightedEdge (mkEdge 10 20) d_one; mkWeightedEdge (mkEdge 10 20) d_zero])
    as (g' & Hg' & _); [apply repr_new|done|done|by repeat constructor|simpl; lia|].
  exists g'. vm_compute in Hg'. injection Hg' as <-. by vm_compute.
Defined.

(** On a thread safe graph [load] acquires the mutex that it already holds
    as soon as there is an edge to insert, which is undefined. *)
Theorem load_thread_safe_undefined `{UnorderedMap} g e edges
  (Hts : m_is_thread_safe g = true) (Hloop : wsource e <> wdestination e) :
  load g (e :: edges) = Undef.
Proof.
  unfold load, with_lock. destruct (m_held g); [done|]. cbn [res_fold].
  unfold add_edge_v2 at 2. rewrite (proj2 (Z.eqb_neq _ _) Hloop). simpl. by rewrite Hts.
Qed.

Lemma load_thread_safe_undefined_witness :
  load (AdjacencyList_new true true) [mkWeightedEdge (mkEdge 10 20) d_one] = Undef.
Proof. by apply load_thread_safe_undefined. Defined.
