(* ===== verification/AdjKernels.v ===== *)
(** The Graphalytics kernels of [library/baseline/adjacency_list]. They are
    sequential: each one visits the hash map in its own order. The line
    [shared_lock<mutex_t> lock(mutex)] of most of them declares a function and
    acquires nothing; only [cdlp] takes [m_mutex]. *)

From S2P Require Import Prelude Graphs Gapbs Edge AdjList CsrRank.

(** ** The queue of the visit

    [common::CircularArray] belongs to a library that is not part of the
    repository: it is only assumed to be a first in, first out queue. *)

Class CircularArray (A : Type) := {
  ca_rep : Type;
  ca_new : ca_rep;
  ca_append : ca_rep -> A -> ca_rep;
  ca_first : ca_rep -> option A;
  ca_pop : ca_rep -> ca_rep;
  ca_is_empty : ca_rep -> bool;
  ca_list : ca_rep -> list A;
  ca_new_list : ca_list ca_new = [];
  ca_append_list : forall q x, ca_list (ca_append q x) = ca_list q ++ [x];
  ca_first_list : forall q, ca_first q = head (ca_list q);
  ca_pop_list : forall q, ca_list (ca_pop q) = tail (ca_list q);
  ca_is_empty_list : forall q, ca_is_empty q = true <-> ca_list q = [];
}.

Lemma is_nil_spec {A} (q : list A) : match q with [] => true | _ => false end = true <-> q = [].
Proof. by destruct q. Qed.

Definition circular_list (A : Type) : CircularArray A := {|
  ca_rep := list A;
  ca_new := [];
  ca_append := fun q x => q ++ [x];
  ca_first := head;
  ca_pop := tail;
  ca_is_empty := fun q => match q with [] => true | _ => false end;
  ca_list := fun q => q;
  ca_new_list := eq_refl;
  ca_append_list := fun q x => eq_refl;
  ca_first_list := fun q => eq_refl;
  ca_pop_list := fun q => eq_refl;
  ca_is_empty_list := is_nil_spec;
|}.

(** [CHECK_TIMEOUT], at the [k]-th poll of the clock. *)
Definition CHECK_TIMEOUT `{Timer} (g : AdjacencyList) (k : nat) : res unit :=
  if has_timeout g && is_timeout k then Exn TimeoutError else Val tt.

(** ** BFS *)

(** [distances.emplace(edge.first, distance + 1)] *)
Definition bfs_edge `{CircularArray Z} (distance : Z) (st : gmap Z Z * ca_rep) (edge : Z * double) :
    gmap Z Z * ca_rep :=
  let '(distances, queue) := st in
  match distances !! edge.1 with
  | Some _ => (distances, queue)
  | None => (<[edge.1 := i64 (distance + 1)]> distances, ca_append queue edge.1)
  end.

Fixpoint bfs_loop `{CircularArray Z, Timer} (g : AdjacencyList) (distances : gmap Z Z)
    (queue : ca_rep) (k fuel : nat) : res (gmap Z Z) :=
  if ca_is_empty queue then Val distances
  else
    match fuel with
    | O => NoFuel
    | S fuel =>
      _ ← CHECK_TIMEOUT g k;
      vertex ← require (ca_first queue);
      let queue := ca_pop queue in
      distance ← at_ (distances !! vertex);
      outgoing_edges ← at_ (m_adjacency_list g !! vertex);
      let '(distances, queue) := foldl (bfs_edge distance) (distances, queue) outgoing_edges.1 in
      bfs_loop g distances queue (S k) fuel
    end.

(** The pairs written to the output. *)
Definition bfs `{CircularArray Z, HashOrder, Timer} (g : AdjacencyList) (source_vertex_id : Z) :
    res (list (Z * Z)) :=
  distances ← bfs_loop g {[source_vertex_id := 0]} (ca_append ca_new source_vertex_id) 0
    (S (size (m_adjacency_list g)));
  Val ((fun v => (v.1, default int64_max (distances !! v.1))) <$> hash_iter (m_adjacency_list g)).

(** ** PageRank *)

Definition pr_incoming (g : AdjacencyList) (rank : gmap Z double) (score : double)
    (e : Z * double) : res double :=
  vertex ← require (m_adjacency_list g !! e.1);
  let nout := length vertex.1 in
  if (0 <? nout)%nat
  then Val (dadd score (ddiv (default d_zero (rank !! e.1)) (double_of_Z (Z.of_nat nout))))
  else Val score.

Definition pr_vertex (g : AdjacencyList) (V damping_factor dangling_sum : double)
    (rank rank_next : gmap Z double) (p : Z * EdgePair) : res (gmap Z double) :=
  score ← res_fold (pr_incoming g rank) d_zero (get_incoming_edges g p.2);
  let score :=
    dadd (dadd (ddiv (dsub d_one damping_factor) V) (dmul damping_factor score))
      (dmul (ddiv damping_factor V) dangling_sum) in
  Val (<[p.1 := score]> rank_next).

Fixpoint pr_iterations `{HashOrder, Timer} (g : AdjacencyList) (V damping_factor : double)
    (sinks : gset Z) (rank rank_next : gmap Z double) (k num_iterations : nat) :
    res (gmap Z double) :=
  match num_iterations with
  | O => Val rank
  | S num_iterations =>
    _ ← CHECK_TIMEOUT g k;
    let dangling_sum :=
      foldl (fun dangling_sum v => dadd dangling_sum (default d_zero (rank !! v))) d_zero
        (hash_elems sinks) in
    rank_next ← res_fold (pr_vertex g V damping_factor dangling_sum rank) rank_next
      (hash_iter (m_adjacency_list g));
    (* std::swap(rank, rank_next) *)
    pr_iterations g V damping_factor sinks rank_next rank (S k) num_iterations
  end.

Definition pagerank `{HashOrder, Timer} (g : AdjacencyList) (num_iterations : nat)
    (damping_factor : double) : res (list (Z * double)) :=
  V ← num_vertices g;
  let V := double_of_Z V in
  let '(rank, sinks) :=
    foldl (fun '((rank, sinks) : gmap Z double * gset Z) (p : Z * EdgePair) =>
        (<[p.1 := ddiv d_one V]> rank,
         match p.2.1 with [] => {[p.1]} ∪ sinks | _ => sinks end))
      (∅, ∅) (hash_iter (m_adjacency_list g)) in
  rank ← pr_iterations g V damping_factor sinks rank ∅ 0 num_iterations;
  Val (hash_iter rank).

(** ** WCC *)

(** [components[x]], which inserts a zero for a missing key. *)
Definition subscript (m : gmap Z Z) (x : Z) : Z * gmap Z Z :=
  match m !! x with Some c => (c, m) | None => (0, <[x := 0]> m) end.

Definition wcc_min (st : Z * gmap Z Z) (e : Z * double) : Z * gmap Z Z :=
  let '(min_component, components) := st in
  let '(c, components) := subscript components e.1 in
  (Z.min min_component c, components).

Definition wcc_vertex (st : gmap Z Z * bool) (p : Z * EdgePair) : res (gmap Z Z * bool) :=
  let '(components, converged) := st in
  let '(min_component, components) := foldl wcc_min (int64_max, components) p.2.1 in
  let '(min_component, components) := foldl wcc_min (min_component, components) p.2.2 in
  c ← require (components !! p.1);
  if c >? min_component then Val (<[p.1 := min_component]> components, false)
  else Val (components, converged).

Fixpoint wcc_loop `{HashOrder, Timer} (g : AdjacencyList) (components : gmap Z Z) (k fuel : nat) :
    res (gmap Z Z) :=
  match fuel with
  | O => NoFuel
  | S fuel =>
    _ ← CHECK_TIMEOUT g k;
    '(components, converged) ← res_fold wcc_vertex (components, true)
      (hash_iter (m_adjacency_list g));
    if (converged : bool) then Val components else wcc_loop g components (S k) fuel
  end.

Definition wcc `{HashOrder, Timer} (g : AdjacencyList) : res (list (Z * Z)) :=
  let m := m_adjacency_list g in
  components ← wcc_loop g
    (foldl (fun components (p : Z * EdgePair) => <[p.1 := p.1]> components) ∅ (hash_iter m)) 0
    (S (size m * size m));
  Val (hash_iter components).

(** ** CDLP *)

(** [histogram[labels[e.first]] += 1], which inserts a label for a missing
    key. *)
Definition cdlp_histogram (st : gmap Z Z * gmap Z Z) (e : Z * double) : gmap Z Z * gmap Z Z :=
  let '(labels, histogram) := st in
  let '(l, labels) := subscript labels e.1 in
  (labels, <[l := u64 (default 0 (histogram !! l) + 1)]> histogram).

Definition cdlp_vertex `{HashOrder} (st : gmap Z Z * gmap Z Z * bool) (v : Z * EdgePair) :
    gmap Z Z * gmap Z Z * bool :=
  let '(labels, labels_next, change) := st in
  let '(labels, histogram) := foldl cdlp_histogram (labels, ∅) v.2.1 in
  let '(labels, histogram) := foldl cdlp_histogram (labels, histogram) v.2.2 in
  let label_id := (foldl cdlp_max (0, 0) (hash_iter histogram)).1 in
  let labels_next := <[v.1 := label_id]> labels_next in
  let '(l, labels) := subscript labels v.1 in
  (labels, labels_next, change || negb (l =? label_id)).

Fixpoint cdlp_iterations `{HashOrder, Timer} (g : AdjacencyList) (change : bool)
    (labels labels_next : gmap Z Z) (k max_iterations : nat) : res (gmap Z Z) :=
  match max_iterations with
  | O => Val labels
  | S max_iterations =>
    if negb change then Val labels
    else
      _ ← CHECK_TIMEOUT g k;
      let '(labels, labels_next, change) :=
        foldl cdlp_vertex (labels, labels_next, false) (hash_iter (m_adjacency_list g)) in
      (* swap(labels, labels_next) *)
      cdlp_iterations g change labels_next labels (S k) max_iterations
  end.

Definition cdlp `{HashOrder, Timer} (g : AdjacencyList) (max_iterations : nat) :
    res (list (Z * Z)) :=
  with_shared g (fun g =>
    let labels :=
      foldl (fun labels (v : Z * EdgePair) => <[v.1 := v.1]> labels) ∅
        (hash_iter (m_adjacency_list g)) in
    labels ← cdlp_iterations g true labels ∅ 0 max_iterations;
    Val (hash_iter labels)).

(** ** LCC *)

(** [static_cast<double>(num_triangles) / (degree * (degree - 1))] *)
Definition lcc_ratio (num_triangles degree : Z) : double :=
  ddiv (double_of_Z num_triangles) (double_of_Z (u64 (degree * u64 (degree - 1)))).

(** The probes of the neighbours of [vertex2] in the table [H]. *)
Definition lcc_probe (H : gset Z) (vertex2 : Z) (st : Z * gmap Z Z) (edge : Z * double) :
    Z * gmap Z Z :=
  let '(num_triangles, already_visited) := st in
  if decide (edge.1 ∈ H)
  then (u64 (num_triangles + 1),
        <[vertex2 := u64 (default 0 (already_visited !! vertex2) + 1)]> already_visited)
  else st.

Definition lcc_neighbour (g : AdjacencyList) (H : gset Z) (vertex1 : Z) (st : Z * gmap Z Z)
    (p : Z * double) : res (Z * gmap Z Z) :=
  let vertex2 := p.1 in
  if vertex2 <? vertex1 then Val st
  else
    vertex2_neighbours ← at_ (m_adjacency_list g !! vertex2);
    Val (foldl (lcc_probe H vertex2) st vertex2_neighbours.1).

Definition lcc_vertex `{Timer} (g : AdjacencyList) (st : gmap Z double * gmap Z Z * nat)
    (vertex1 : Z) : res (gmap Z double * gmap Z Z * nat) :=
  let '(result, already_visited, k) := st in
  _ ← CHECK_TIMEOUT g k;
  degree ← get_degree g vertex1;
  if 2 <=? degree then
    vertex1_neighbours ← require (m_adjacency_list g !! vertex1);
    let num_triangles := default 0 (already_visited !! vertex1) in
    let H : gset Z := list_to_set vertex1_neighbours.1.*1 in
    '(num_triangles, already_visited) ←
      res_fold (lcc_neighbour g H vertex1) (num_triangles, already_visited) vertex1_neighbours.1;
    Val (<[vertex1 := lcc_ratio num_triangles degree]> result, already_visited, S k)
  else Val (<[vertex1 := d_zero]> result, already_visited, S k).

Definition lcc_undirected `{HashOrder, Timer} (g : AdjacencyList) : res (gmap Z double) :=
  let nodes := merge_sort Z.le (hash_iter (m_adjacency_list g)).*1 in
  '(result, _, _) ← res_fold (lcc_vertex g) (∅, ∅, 0%nat) nodes;
  Val result.

(** The two nested calls of [for_all_edges] for one vertex. *)
Definition lcc_triangles `{HashOrder} (g : AdjacencyList) (p : EdgePair) : res Z :=
  res_fold (fun num_triangles vertex2 =>
    res_fold (fun num_triangles vertex3 =>
      if negb (vertex2 =? vertex3) then
        b ← check_directed_edge_exists g vertex2 vertex3;
        Val (u64 (num_triangles + Z.b2z b))
      else Val num_triangles)
      num_triangles (for_all_edges g p))
    0 (for_all_edges g p).

Definition lcc_directed `{HashOrder, Timer} (g : AdjacencyList) : res (gmap Z double) :=
  '(result, _) ← res_fold (fun '(result, k) (p : Z * EdgePair) =>
      _ ← CHECK_TIMEOUT g k;
      degree ← get_degree g p.1;
      if 2 <=? degree then
        num_triangles ← lcc_triangles g p.2;
        Val (<[p.1 := lcc_ratio num_triangles degree]> result, S k)
      else Val (<[p.1 := d_zero]> result, S k))
    (∅, 0%nat) (hash_iter (m_adjacency_list g));
  Val result.

Definition lcc `{HashOrder, Timer} (g : AdjacencyList) : res (list (Z * double)) :=
  lcc ← (if m_is_directed g then lcc_directed g else lcc_undirected g);
  Val (hash_iter lcc).

(** ** SSSP *)

(** [std::priority_queue]: which of several nearest elements comes out first
    is not fixed; [pq_pick] chooses its position. *)
Class PriorityOrder := {
  pq_pick : list (Z * double) -> nat;
  pq_pick_least : forall q, q <> [] -> exists e, q !! pq_pick q = Some e /\
    Forall (fun e' => dlt e'.2 e.2 = false) q;
}.

Definition pq_pop (i : nat) (q : list (Z * double)) : list (Z * double) :=
  take i q ++ drop (S i) q.

(** Relax one outgoing edge. *)
Definition sssp_relax (m_distance : double) (st : gmap Z double * list (Z * double))
    (e : Z * double) : gmap Z double * list (Z * double) :=
  let '(distances, Q) := st in
  let d := dadd m_distance e.2 in
  (* [distances[e.first]] inserts a zero for a missing key *)
  let distances :=
    match distances !! e.1 with Some _ => distances | None => <[e.1 := d_zero]> distances end in
  if dlt d (default d_zero (distances !! e.1))
  then (<[e.1 := d]> distances, Q ++ [(e.1, d)])
  else (distances, Q).

Fixpoint sssp_loop `{UnorderedMap, PriorityOrder, Timer} (g : AdjacencyList) (visited : gset Z)
    (distances : gmap Z double) (Q : list (Z * double)) (k fuel : nat) :
    res (AdjacencyList * gmap Z double) :=
  match Q with
  | [] => Val (g, distances)
  | _ =>
    match fuel with
    | O => NoFuel
    | S fuel =>
      _ ← CHECK_TIMEOUT g k;
      let i := pq_pick Q in
      elt ← require (Q !! i);
      let Q := pq_pop i Q in
      if decide (elt.1 ∈ visited) then sssp_loop g visited distances Q (S k) fuel
      else
        (* [m_adjacency_list[v]] inserts a missing vertex *)
        let g := emplace g elt.1 in
        let out_edges := default ([], []) (m_adjacency_list g !! elt.1) in
        let '(distances, Q) := foldl (sssp_relax elt.2) (distances, Q) out_edges.1 in
        sssp_loop g ({[elt.1]} ∪ visited) distances Q (S k) fuel
    end
  end.

(** Every visited vertex pushes at most its outgoing edges. *)
Definition sssp_fuel (g : AdjacencyList) : nat :=
  (2 + sum_list_with (fun p => length p.2.1) (map_to_list (m_adjacency_list g)))%nat.

(** The graph is returned as well: the visit of a source that is not in the
    graph inserts it. *)
Definition sssp `{UnorderedMap, PriorityOrder, HashOrder, Timer} (g : AdjacencyList) (source_vertex_id : Z) :
    res (list (Z * double) * AdjacencyList) :=
  let distances :=
    foldl (fun distances (v : Z * EdgePair) => <[v.1 := d_inf]> distances) ∅
      (hash_iter (m_adjacency_list g)) in
  let distances := <[source_vertex_id := d_zero]> distances in
  '(g, distances) ← sssp_loop g ∅ distances [(source_vertex_id, d_zero)] 0 (sssp_fuel g);
  Val (hash_iter distances, g).

(** ** Common facts *)

#[export] Instance arc_dec s u v : Decision (arc s u v).
Proof. unfold arc. apply _. Defined.

(** The neighbours through which [wcc] and [cdlp] propagate labels, with
    their multiplicity: out-neighbours, and in-neighbours of directed graphs. *)
Definition all_neighbours (p : EdgePair) : list Z := p.1.*1 ++ p.2.*1.

Section repr.
Context {g : AdjacencyList} {s : Spec} (R : adj_data g s).

Notation m := (m_adjacency_list g).

Lemma out_arc u p v : m !! u = Some p -> v ∈ p.1.*1 <-> arc s u v.
Proof.
  intros Hp. unfold arc. rewrite <- (data_find_out R _ _ _ Hp), <- not_eq_None_Some, find_edge_None.
  destruct (decide (v ∈ p.1.*1)); tauto.
Qed.

Lemma in_arc u p v : m !! u = Some p -> v ∈ p.2.*1 <-> spec_directed s = true /\ arc s v u.
Proof.
  intros Hp. unfold arc.
  pose proof (data_find_in R v _ _ Hp) as Hf. pose proof (find_edge_None p.2 v) as Hn.
  rewrite Hf in Hn. destruct (spec_directed s).
  - rewrite <- not_eq_None_Some, Hn. destruct (decide (v ∈ p.2.*1)); tauto.
  - split; [|by intros []]. intros Hv. by destruct (proj1 Hn eq_refl).
Qed.

Lemma arc_sym : spec_directed s = false -> forall u v, arc s u v -> arc s v u.
Proof. intros Hd u v. unfold arc. by rewrite (ad_sym _ _ R Hd). Qed.

Lemma arc_vertices u v : arc s u v -> u ∈ spec_vertices s /\ v ∈ spec_vertices s.
Proof. apply (data_closed R). Qed.

Lemma all_neighbours_arc u p v : m !! u = Some p -> v ∈ all_neighbours p <-> arc s u v \/ arc s v u.
Proof.
  intros Hp. unfold all_neighbours. rewrite elem_of_app, (out_arc _ _ _ Hp), (in_arc _ _ _ Hp).
  destruct (spec_directed s) eqn:Hd; [tauto|]. pose proof (arc_sym Hd v u).
  split; [intros [?|[]]|]; tauto.
Qed.

Lemma size_vertices : size m = size (spec_vertices s).
Proof. by rewrite <- (ad_vertices _ _ R), size_dom. Qed.
End repr.

Section bfs.
Context `{CircularArray Z, HashOrder, Timer}.
Context {g : AdjacencyList} {s : Spec} (R : adj_data g s) (src : Z).
Context (Hsize : Z.of_nat (size (m_adjacency_list g)) < 2 ^ 63).

Notation m := (m_adjacency_list g).
Notation E := (arc s).

(** [done] holds the vertices whose edges were visited; the queue holds the
    others that were found, first those at distance [d], then at [d + 1]. *)
Record bfs_inv (done : gset Z) (dist : gmap Z Z) (queue : list Z) (d : nat) : Prop := {
  bi_dist : forall v x, dist !! v = Some x -> exists n, x = Z.of_nat n /\ hop_dist E src v n;
  bi_split : exists q1 q2, queue = q1 ++ q2 /\
    (forall v, v ∈ q1 -> hop_dist E src v d) /\ (forall v, v ∈ q2 -> hop_dist E src v (S d));
  bi_found : forall v, is_Some (dist !! v) <-> v ∈ done \/ v ∈ queue;
  bi_near : forall v n, (n <= d)%nat -> walk E n src v -> is_Some (dist !! v);
  bi_next : forall u v, u ∈ done -> E u v -> is_Some (dist !! v);
  bi_disjoint : forall v, v ∈ done -> v ∉ queue;
  bi_nodup : NoDup queue;
  bi_vertices : forall v, is_Some (dist !! v) -> v ∈ spec_vertices s;
}.

(** No vertex is as many hops away as there are vertices. *)
Lemma hops_bound v n : src ∈ spec_vertices s -> hop_dist E src v n -> (n < size m)%nat.
Proof.
  intros Hsrc Hn. destruct (hop_dist_path _ _ _ _ Hn) as (l & Hnd & Hl & Hall).
  assert (list_to_set l ⊆ spec_vertices s) as Hsub.
  { intros x Hx%elem_of_list_to_set. destruct (Hall x Hx) as (k & _ & [Hw _]).
    destruct Hw as [|k u v0 w Hw He]; [done|]. by apply (arc_vertices R) in He as [_ ?]. }
  apply subseteq_size in Hsub. rewrite size_list_to_set in Hsub by done.
  rewrite (size_vertices R). lia.
Qed.

(** The edges of one vertex. *)
Lemma bfs_edges (l : EdgeList) n : forall dist queue,
  Z.of_nat n + 1 < 2 ^ 63 ->
  exists dist' queue' new,
    foldl (bfs_edge (Z.of_nat n)) (dist, queue) l = (dist', queue') /\
    ca_list queue' = ca_list queue ++ new /\ NoDup new /\
    (forall v, v ∈ new <-> v ∈ l.*1 /\ dist !! v = None) /\
    (forall v, dist' !! v = if decide (v ∈ new) then Some (Z.of_nat (S n)) else dist !! v).
Proof.
  induction l as [|[v w] l IH]; intros dist queue Hn.
  - exists dist, queue, []. split; [done|]. split; [by rewrite app_nil_r|].
    split; [constructor|]. split; [|done]. intros v. simpl. rewrite !elem_of_nil. tauto.
  - cbn [foldl]. unfold bfs_edge at 2. cbn [fst].
    destruct (dist !! v) as [x|] eqn:Hv.
    + destruct (IH dist queue Hn) as (dist' & queue' & new & -> & Hq & Hnd & Hnew & Hd).
      exists dist', queue', new. split; [done|]. split; [done|]. split; [done|]. split; [|done].
      intros y. rewrite Hnew. simpl. rewrite elem_of_cons. split; [tauto|].
      intros [[->|?] ?]; [congruence|done].
    + rewrite i64_id by lia.
      destruct (IH (<[v := Z.of_nat n + 1]> dist) (ca_append queue v) Hn)
        as (dist' & queue' & new & -> & Hq & Hnd & Hnew & Hd).
      exists dist', queue', (v :: new). split; [done|].
      split; [by rewrite Hq, ca_append_list, <- app_assoc|].
      split; [|split].
      * constructor; [|done]. rewrite Hnew, lookup_insert_eq. by intros [].
      * intros y. rewrite !elem_of_cons, Hnew. simpl. rewrite elem_of_cons.
        destruct (decide (y = v)) as [->|Hyv]; [tauto|].
        rewrite lookup_insert_ne by done. tauto.
      * intros y. rewrite Hd. destruct (decide (y = v)) as [->|Hyv].
        -- rewrite (decide_True (P := v ∈ v :: new)) by left. rewrite lookup_insert_eq.
           case_decide; f_equal; lia.
        -- rewrite lookup_insert_ne by done.
           repeat case_decide; try done; exfalso; set_solver.
Qed.

(** The head of the queue is at the current distance, maybe the next one. *)
Lemma bfs_inv_head done dist v queue d :
  bfs_inv done dist (v :: queue) d ->
  exists d', bfs_inv done dist (v :: queue) d' /\ hop_dist E src v d'.
Proof.
  intros I. destruct (bi_split _ _ _ _ I) as (q1 & q2 & Hq & Hq1 & Hq2).
  destruct q1 as [|x q1]; simplify_eq/=; [|exists d; split; [done|]; apply Hq1; left].
  exists (S d). split; [|apply Hq2; left]. constructor; try apply I.
  - exists (v :: queue), []. rewrite app_nil_r. split; [done|]. split; [done|].
    intros y Hy. by apply elem_of_nil in Hy.
  - intros x n Hn Hx. destruct (decide (n = S d)) as [->|]; [|apply (bi_near _ _ _ _ I x n); [lia|done]].
    inversion Hx as [|n' u p v' Hp He]; simplify_eq.
    apply (bi_next _ _ _ _ I p); [|done].
    destruct (proj1 (bi_found _ _ _ _ I p) (bi_near _ _ _ _ I p d ltac:(lia) Hp)) as [?|Hin]; [done|].
    apply Hq2 in Hin as [_ Hmin]. specialize (Hmin _ Hp). lia.
Qed.

Lemma adj_bfs_inv_step done dist v queue d p new dist' :
  bfs_inv done dist (v :: queue) d -> hop_dist E src v d -> m !! v = Some p ->
  NoDup new -> (forall x, x ∈ new <-> x ∈ p.1.*1 /\ dist !! x = None) ->
  (forall x, dist' !! x = if decide (x ∈ new) then Some (Z.of_nat (S d)) else dist !! x) ->
  bfs_inv ({[v]} ∪ done) dist' (queue ++ new) d.
Proof.
  intros I Hv Hp Hnd Hnew Hd.
  assert (forall x, is_Some (dist' !! x) <-> x ∈ new \/ is_Some (dist !! x)) as Hsome.
  { intros x. rewrite Hd. case_decide; [by intuition eauto|tauto]. }
  assert (forall x, x ∈ new -> E v x) as Harc.
  { intros x [Hx _]%Hnew. by apply (out_arc R v p). }
  assert (forall x, x ∈ new -> hop_dist E src x (S d)) as Hhop.
  { intros x Hx. split.
    - destruct Hv as [Hw _]. econstructor; [exact Hw|]. by apply Harc.
    - intros n Hw. destruct (decide (S d <= n)%nat) as [|Hlt]; [done|]. exfalso.
      destruct (proj1 (Hnew x) Hx) as [_ Hnone].
      destruct (bi_near _ _ _ _ I x n) as [? ?]; [lia|done|congruence]. }
  constructor.
  - intros x y. rewrite Hd. case_decide as Hx; [|apply I].
    intros [= <-]. exists (S d). split; [done|auto].
  - destruct (bi_split _ _ _ _ I) as (q1 & q2 & Hq & Hq1 & Hq2).
    destruct q1 as [|x q1]; simplify_eq/=.
    + exists [], (queue ++ new). split; [done|]. split; [by intros x Hx%elem_of_nil|].
      intros x [Hx|Hx]%elem_of_app; [apply Hq2; by right|auto].
    + exists q1, (q2 ++ new). split; [by rewrite app_assoc|].
      split; [intros y Hy; apply Hq1; by right|]. intros y [Hy|Hy]%elem_of_app; auto.
  - intros x. rewrite Hsome, (bi_found _ _ _ _ I), elem_of_cons, elem_of_app. set_solver.
  - intros x n Hn Hx. apply Hsome. right. by eapply (bi_near _ _ _ _ I).
  - intros u x Hu He. apply Hsome. apply elem_of_union in Hu as [->%elem_of_singleton|Hu].
    + destruct (dist !! x) as [y|] eqn:Hx; [right; eauto|left].
      apply Hnew. split; [by apply (out_arc R v p)|done].
    + right. by eapply (bi_next _ _ _ _ I).
  - pose proof (bi_nodup _ _ _ _ I) as [Hvq _]%NoDup_cons.
    assert (forall x, x ∈ new -> dist !! x = None) as Hnone by (intros x Hx; by apply Hnew in Hx as []).
    intros x Hx [Hxq|Hxn]%elem_of_app.
    + apply elem_of_union in Hx as [->%elem_of_singleton|Hx]; [done|].
      apply (bi_disjoint _ _ _ _ I x Hx). by right.
    + destruct (proj2 (bi_found _ _ _ _ I x)) as [? ?]; [|by specialize (Hnone x Hxn); congruence].
      set_solver.
  - pose proof (bi_nodup _ _ _ _ I) as [_ Hq]%NoDup_cons. apply NoDup_app.
    split; [done|]. split; [|done]. intros x Hx Hxn.
    destruct (proj2 (bi_found _ _ _ _ I x)) as [? ?]; [right; by right|].
    apply Hnew in Hxn as []. congruence.
  - intros x [Hx|Hx]%Hsome; [|by apply (bi_vertices _ _ _ _ I)].
    by apply Harc, (arc_vertices R) in Hx as [_ ?].
Qed.

Lemma bfs_loop_inv fuel : forall done dist queue d k,
  src ∈ spec_vertices s -> bfs_inv done dist (ca_list queue) d ->
  (size m <= fuel + size done)%nat ->
  (bfs_loop g dist queue k fuel = Exn TimeoutError /\ has_timeout g = true /\
     exists k, is_timeout k = true) \/
  exists done' dist' d', bfs_loop g dist queue k fuel = Val dist' /\ bfs_inv done' dist' [] d'.
Proof.
  induction fuel as [|fuel IH]; intros done dist queue d k Hsrc I Hfuel; cbn [bfs_loop].
  all: destruct (ca_is_empty queue) eqn:Hempty;
    [apply ca_is_empty_list in Hempty; rewrite Hempty in I; right; by exists done, dist, d|].
  all: destruct (ca_list queue) as [|v q] eqn:Hq;
    [by rewrite (proj2 (ca_is_empty_list _) Hq) in Hempty|].
  all: assert (v ∉ done /\ {[v]} ∪ done ⊆ spec_vertices s) as [Hvd Hsub].
  1, 3: split; [intros Hv; apply (bi_disjoint _ _ _ _ I v Hv); left|];
    intros x Hx; apply (bi_vertices _ _ _ _ I), (bi_found _ _ _ _ I); set_solver.
  all: pose proof (subseteq_size _ _ Hsub) as Hsz; rewrite size_union in Hsz by set_solver;
    rewrite size_singleton, <- (size_vertices R) in Hsz.
  - lia.
  - unfold CHECK_TIMEOUT. destruct (has_timeout g && is_timeout k) eqn:Ht.
    { apply andb_true_iff in Ht as [? ?]. left. eauto. }
    bind_val. rewrite ca_first_list, Hq. cbn [head require]. bind_val.
    destruct (bfs_inv_head _ _ _ _ _ I) as (d1 & I1 & Hhop).
    destruct (proj2 (bi_found _ _ _ _ I1 v)) as [x Hx]; [right; left|].
    destruct (bi_dist _ _ _ _ I1 v x Hx) as (n & -> & Hn).
    pose proof (hop_dist_unique _ _ _ _ _ Hhop Hn) as <-.
    pose proof (hops_bound v d1 Hsrc Hn) as Hbound.
    rewrite Hx. cbn [at_]. bind_val.
    destruct (data_lookup R v) as [p Hp]; [set_solver|]. rewrite Hp. cbn [at_]. bind_val.
    destruct (bfs_edges p.1 d1 dist (ca_pop queue)) as (dist' & queue' & new & -> & Hq' & Hnd & Hnew & Hd');
      [lia|].
    rewrite ca_pop_list, Hq in Hq'. cbn [tail] in Hq'.
    apply (IH ({[v]} ∪ done) dist' queue' d1 (S k) Hsrc).
    + rewrite Hq'. by apply (adj_bfs_inv_step done dist v q d1 p new dist').
    + rewrite size_union, size_singleton by set_solver. lia.
Qed.

Lemma adj_bfs_inv_init :
  src ∈ spec_vertices s -> bfs_inv ∅ {[src := 0]} (ca_list (ca_append ca_new src)) 0.
Proof.
  intros Hsrc. rewrite ca_append_list, ca_new_list. simpl. constructor.
  - intros v x [<- <-]%lookup_singleton_Some. exists 0%nat. split; [done|apply hop_dist_refl].
  - exists [src], []. split; [done|].
    split; intros v Hv; [|by apply elem_of_nil in Hv].
    apply list_elem_of_singleton in Hv as ->. apply hop_dist_refl.
  - intros v. rewrite list_elem_of_singleton. unfold is_Some.
    setoid_rewrite lookup_singleton_Some. split; [intros (x & -> & _); by right|].
    intros [Hv| ->]; [set_solver|eauto].
  - intros v n Hn Hw. assert (n = 0)%nat as -> by lia. inversion Hw; subst.
    rewrite lookup_singleton_eq. eauto.
  - set_solver.
  - set_solver.
  - apply NoDup_singleton.
  - by intros v [x [<- _]%lookup_singleton_Some].
Qed.

Lemma bfs_inv_reach done dist d v :
  bfs_inv done dist [] d -> reachable E src v -> is_Some (dist !! v).
Proof.
  intros I [n Hw]. revert v Hw. induction n as [|n IH]; intros v Hw.
  - apply (bi_near _ _ _ _ I v 0); [lia|done].
  - inversion Hw as [|n' u p v' Hp He]; simplify_eq. apply (bi_next _ _ _ _ I p); [|done].
    destruct (proj1 (bi_found _ _ _ _ I p) (IH p Hp)) as [?|Hin]; [done|].
    by apply elem_of_nil in Hin.
Qed.
End bfs.

(** BFS ends and, unless the time is over, writes every vertex of the graph
    once, with the number of hops of a shortest path from the source or with
    the largest integer when there is no path. A source that is not a vertex
    is refused. *)
Theorem adj_bfs_correct `{CircularArray Z, HashOrder, Timer} g s src
  (R : adj_repr g s) (Hsize : Z.of_nat (size (m_adjacency_list g)) < 2 ^ 63) :
  if decide (src ∈ spec_vertices s) then
    (bfs g src = Exn TimeoutError /\ has_timeout g = true /\ exists k, is_timeout k = true) \/
    exists result, bfs g src = Val result /\ result.*1 ≡ₚ elements (spec_vertices s) /\
      forall v x, (v, x) ∈ result ->
        (exists n, x = Z.of_nat n /\ hop_dist (arc s) src v n) \/
        (x = int64_max /\ ~ reachable (arc s) src v)
  else bfs g src = Exn OutOfRange \/ bfs g src = Exn TimeoutError.
Proof.
  destruct R as [R _]. unfold bfs. case_decide as Hsrc.
  - destruct (bfs_loop_inv R src Hsize (S (size (m_adjacency_list g))) _ _ _ 0 0 Hsrc
      (adj_bfs_inv_init R src Hsize Hsrc)) as [(-> & ? & ?)|(done & dist & d & -> & I)]; [lia|by left|right].
    bind_val. eexists. split; [done|]. split.
    + rewrite <- list_fmap_compose. change (fst ∘ _) with (fst : Z * EdgePair -> Z).
      rewrite hash_iter_perm, <- (ad_vertices _ _ R). apply NoDup_Permutation.
      * apply NoDup_fst_map_to_list.
      * apply NoDup_elements.
      * intros x. rewrite elem_of_elements, elem_of_dom, list_elem_of_fmap. split.
        -- intros ([y p] & -> & Hin%elem_of_map_to_list). eauto.
        -- intros [p Hp]. exists (x, p). split; [done|]. by apply elem_of_map_to_list.
    + intros v x Hin. apply list_elem_of_fmap in Hin as ([v' p] & [= -> ->] & Hp). simpl.
      destruct (dist !! v') as [y|] eqn:Hy; simpl.
      * left. eapply bi_dist; eauto.
      * right. split; [done|]. intros Hr. eapply (bfs_inv_reach (g:=g)) in Hr as [? ?]; [|done]. congruence.
  - cbn [bfs_loop]. destruct (ca_is_empty _) eqn:He.
    { apply ca_is_empty_list in He. by rewrite ca_append_list, ca_new_list in He. }
    unfold CHECK_TIMEOUT. destruct (has_timeout g && is_timeout 0); [by right|left].
    bind_val. rewrite ca_first_list, ca_append_list, ca_new_list. simpl.
    rewrite lookup_singleton_eq. simpl. by rewrite (data_missing R _ Hsrc).
Qed.

(** ** WCC: proofs *)

(** The value of a key, as the subscript operator reads it. *)
Definition value_of (c : gmap Z Z) (v : Z) : Z := default 0 (c !! v).

Lemma sum_list_with_le {A} (f h : A -> nat) l :
  (forall x, x ∈ l -> (f x <= h x)%nat) -> (sum_list_with f l <= sum_list_with h l)%nat.
Proof.
  induction l as [|x l IH]; intros Hle; [done|]. simpl.
  pose proof (Hle x ltac:(left)). assert (sum_list_with f l <= sum_list_with h l)%nat; [|lia].
  apply IH. intros y Hy. apply Hle. by right.
Qed.

Lemma sum_list_with_lt {A} (f h : A -> nat) l x :
  (forall x, x ∈ l -> (f x <= h x)%nat) -> x ∈ l -> (f x < h x)%nat ->
  (sum_list_with f l < sum_list_with h l)%nat.
Proof.
  intros Hle Hx Hlt. induction l as [|y l IH]; [by apply elem_of_nil in Hx|]. simpl.
  pose proof (Hle y ltac:(left)).
  apply elem_of_cons in Hx as [->|Hx].
  - assert (sum_list_with f l <= sum_list_with h l)%nat; [|lia].
    apply sum_list_with_le. intros z Hz. apply Hle. by right.
  - assert (sum_list_with f l < sum_list_with h l)%nat; [|lia].
    apply IH; [|done]. intros z Hz. apply Hle. by right.
Qed.

(** Every vertex with its initial value. *)
Lemma init_lookup {A} (f : Z -> A) (l : list (Z * EdgePair)) v :
  foldl (fun c p => <[p.1 := f p.1]> c) (∅ : gmap Z A) l !! v =
  if decide (v ∈ l.*1) then Some (f v) else None.
Proof.
  induction l as [|[x p] l IH] using rev_ind; [done|].
  rewrite foldl_app, fmap_app. simpl. destruct (decide (x = v)) as [->|Hxv].
  - rewrite lookup_insert_eq, decide_True; [done|set_solver].
  - rewrite lookup_insert_ne, IH by done. apply decide_ext. set_solver.
Qed.

Section wcc.
Context `{HashOrder, Timer} {g : AdjacencyList} {s : Spec} (R : adj_data g s).
Context (Hids : forall v, v ∈ spec_vertices s -> v <= int64_max).

Notation m := (m_adjacency_list g).
Notation V := (spec_vertices s).
Notation E := (arc s).

Definition rank (x : Z) : nat := size (filter (fun y => y < x) V).

Definition measure (c : gmap Z Z) : nat :=
  sum_list_with (fun v => rank (value_of c v)) (elements V).

Record wcc_inv (c : gmap Z Z) : Prop := {
  wi_dom : dom c = V;
  wi_label : forall v, v ∈ V -> connected E v (value_of c v) /\ value_of c v <= v;
}.

Lemma connected_vertices u v : u ∈ V -> connected E u v -> v ∈ V.
Proof.
  intros Hu Hc. induction Hc as [|u v w He _ IH|u v w He _ IH]; [done| |];
    apply IH; by apply (arc_vertices R) in He as [? ?].
Qed.

Lemma rank_lt x y : x ∈ V -> x < y -> (rank x < rank y)%nat.
Proof.
  intros Hx Hlt. unfold rank. apply subset_size. split.
  - intros z. rewrite !elem_of_filter. intros [? ?]. split; [lia|done].
  - intros Hsub. specialize (Hsub x). rewrite !elem_of_filter in Hsub. destruct Hsub; [done|lia].
Qed.

Lemma measure_bound c : (measure c <= size V * size V)%nat.
Proof.
  unfold measure. change (size V * size V)%nat with (length (elements V) * size V)%nat.
  induction (elements V) as [|v l IH]; simpl; [done|].
  assert (rank (value_of c v) <= size V)%nat; [|lia].
  unfold rank. apply subseteq_size. intros x. by rewrite elem_of_filter; intros [].
Qed.

Lemma subscript_value c v : v ∈ dom c -> subscript c v = (value_of c v, c).
Proof. intros [x Hx]%elem_of_dom. unfold subscript, value_of. by rewrite Hx. Qed.

Lemma wcc_min_fold (l : EdgeList) c : forall a,
  (forall x, x ∈ l.*1 -> x ∈ dom c) ->
  foldl wcc_min (a, c) l = (foldl Z.min a (value_of c <$> l.*1), c).
Proof.
  induction l as [|[x w] l IH]; intros a Hl; [done|]. cbn [foldl fmap list_fmap].
  unfold wcc_min at 2. cbn [fst].
  rewrite subscript_value by (apply Hl; left). apply IH. intros y Hy. apply Hl. by right.
Qed.

Lemma foldl_min_spec (l : list Z) : forall a,
  foldl Z.min a l <= a /\ (forall x, x ∈ l -> foldl Z.min a l <= x) /\
  (foldl Z.min a l = a \/ foldl Z.min a l ∈ l).
Proof.
  induction l as [|x l IH]; intros a; simpl.
  { split; [lia|]. split; [|by left]. intros x Hx. by apply elem_of_nil in Hx. }
  destruct (IH (Z.min a x)) as (Ha & Hl & Hor). split; [lia|]. split.
  - intros y [->|Hy]%elem_of_cons; [lia|auto].
  - destruct Hor as [Hor|Hor]; [|right; by right].
    destruct (Z.min_spec a x) as [[_ Hm]|[_ Hm]]; rewrite Hm in Hor |- *;
      [by left|right; rewrite Hor; by left].
Qed.

Lemma neighbours_dom c v p x : wcc_inv c -> m !! v = Some p -> x ∈ all_neighbours p -> x ∈ dom c.
Proof.
  intros I Hp Hx. rewrite (wi_dom _ I).
  apply (all_neighbours_arc R v p x Hp) in Hx as [Hx|Hx]; by apply (arc_vertices R) in Hx as [? ?].
Qed.

Lemma wcc_vertex_eq c b v p :
  wcc_inv c -> m !! v = Some p ->
  wcc_vertex (c, b) (v, p) =
    let mn := foldl Z.min int64_max (value_of c <$> all_neighbours p) in
    if value_of c v >? mn then Val (<[v := mn]> c, false) else Val (c, b).
Proof.
  intros I Hp. unfold wcc_vertex. cbn [fst snd].
  pose proof (fun x => neighbours_dom c v p x I Hp) as Hdom. unfold all_neighbours in *.
  rewrite wcc_min_fold by (intros x Hx; apply Hdom, elem_of_app; by left). cbv iota beta.
  rewrite wcc_min_fold by (intros x Hx; apply Hdom, elem_of_app; by right).
  rewrite fmap_app, foldl_app.
  assert (v ∈ dom c) as [x Hx]%elem_of_dom.
  { rewrite (wi_dom _ I). apply (data_vertex R). eauto. }
  assert (value_of c v = x) as -> by (unfold value_of; by rewrite Hx). by rewrite Hx.
Qed.

Lemma wcc_vertex_spec c b v p :
  wcc_inv c -> m !! v = Some p ->
  exists c' b', wcc_vertex (c, b) (v, p) = Val (c', b') /\ wcc_inv c' /\
    ((c' = c /\ b' = b /\ forall u, E v u \/ E u v -> value_of c v <= value_of c u) \/
     (b' = false /\ (measure c' < measure c)%nat)).
Proof.
  intros I Hp. rewrite wcc_vertex_eq by done. cbv zeta. set (mn := foldl Z.min _ _).
  destruct (foldl_min_spec (value_of c <$> all_neighbours p) int64_max) as (_ & Hle & Hor).
  fold mn in Hle, Hor.
  assert (v ∈ V) as Hv by (apply (data_vertex R); eauto).
  destruct (wi_label _ I v Hv) as [Hcon Hlev]. specialize (Hids v Hv).
  destruct (Z.gtb_spec (value_of c v) mn) as [Hgt|Hngt].
  - destruct Hor as [Hor|Hor]; [lia|].
    apply list_elem_of_fmap in Hor as (u & Hmn & Hu).
    apply (all_neighbours_arc R v p u Hp) in Hu.
    assert (u ∈ V) as HuV by (destruct Hu as [Hu|Hu]; by apply (arc_vertices R) in Hu as [? ?]).
    assert (connected E v mn) as Hvmn.
    { rewrite Hmn. destruct (wi_label _ I u HuV) as [Hc _].
      destruct Hu; eauto using connected. }
    assert (mn ∈ V) as HmnV by (by apply (connected_vertices v)).
    assert (forall x, value_of (<[v := mn]> c) x = if decide (x = v) then mn else value_of c x) as Hval.
    { intros x. unfold value_of. case_decide; [subst; by rewrite lookup_insert_eq|].
      by rewrite lookup_insert_ne. }
    eexists _, _. split; [done|]. split; [split|right; split; [done|]].
    + rewrite dom_insert_L, (wi_dom _ I). set_solver.
    + intros x Hx. rewrite Hval. case_decide; [subst; split; [done|lia]|by apply (wi_label _ I)].
    + apply (sum_list_with_lt _ _ _ v); [|by apply elem_of_elements|].
      * intros x _. rewrite Hval. case_decide; [subst|done].
        pose proof (rank_lt mn (value_of c v) HmnV ltac:(lia)). lia.
      * rewrite Hval, decide_True by done. apply rank_lt; [done|lia].
  - eexists _, _. split; [done|]. split; [done|left]. split; [done|]. split; [done|].
    intros u Hu%(all_neighbours_arc R v p u Hp).
    assert (mn <= value_of c u); [|lia]. apply Hle. apply list_elem_of_fmap. eauto.
Qed.

(** One pass over all vertices. *)
Lemma wcc_round c :
  wcc_inv c ->
  exists c' b, res_fold wcc_vertex (c, true) (hash_iter m) = Val (c', b) /\ wcc_inv c' /\
    (if b then c' = c /\ forall u v, E u v -> value_of c u = value_of c v
     else (measure c' < measure c)%nat).
Proof.
  intros I.
  destruct (res_fold_inv (fun done '((c', b) : gmap Z Z * bool) => wcc_inv c' /\
    (if b then c' = c /\ forall v, v ∈ done.*1 -> forall u, E v u \/ E u v -> value_of c v <= value_of c u
     else (measure c' < measure c)%nat)) wcc_vertex (hash_iter m) (c, true))
    as ([c' b] & -> & I' & Hb).
  - split; [done|]. split; [done|]. intros v Hv. by apply elem_of_nil in Hv.
  - intros done [v p] todo [c1 b1] Hl [I1 Hb1].
    assert (m !! v = Some p) as Hp by (apply elem_of_hash_iter; rewrite Hl; set_solver).
    destruct (wcc_vertex_spec c1 b1 v p I1 Hp) as (c2 & b2 & -> & I2 & Hcase).
    eexists. split; [reflexivity|]. split; [done|].
    destruct Hcase as [(-> & -> & Hle)|[-> Hlt]].
    + destruct b1; [|done]. destruct Hb1 as [-> Hdone]. split; [done|].
      intros x. rewrite fmap_app, elem_of_app. intros [Hx|Hx]; [by apply Hdone|].
      apply list_elem_of_singleton in Hx as ->. exact Hle.
    + destruct b1; [destruct Hb1 as [-> _]|]; lia.
  - exists c', b. split; [done|]. split; [done|]. destruct b; [|done].
    destruct Hb as [-> Hle]. split; [done|]. intros u v He.
    destruct (arc_vertices R u v He) as [Hu Hv].
    assert (forall x, x ∈ V -> x ∈ (hash_iter m).*1) as Hin.
    { intros x Hx. by apply elem_of_hash_keys, (data_vertex R). }
    pose proof (Hle u (Hin u Hu) v ltac:(by left)). pose proof (Hle v (Hin v Hv) u ltac:(by right)).
    lia.
Qed.

Lemma wcc_loop_inv fuel : forall c k,
  wcc_inv c -> (measure c < fuel)%nat ->
  (wcc_loop g c k fuel = Exn TimeoutError /\ has_timeout g = true /\
     exists k, is_timeout k = true) \/
  exists c', wcc_loop g c k fuel = Val c' /\ wcc_inv c' /\
    forall u v, E u v -> value_of c' u = value_of c' v.
Proof.
  induction fuel as [|fuel IH]; intros c k I Hf; [lia|]. cbn [wcc_loop].
  unfold CHECK_TIMEOUT. destruct (has_timeout g && is_timeout k) eqn:Ht.
  { apply andb_true_iff in Ht as [? ?]. left. eauto. }
  bind_val. destruct (wcc_round c I) as (c' & b & -> & I' & Hb). bind_step.
  destruct b; [right|].
  - destruct Hb as [-> Hb]. eauto.
  - apply IH; [done|lia].
Qed.

Lemma wcc_inv_init :
  wcc_inv (foldl (fun components (p : Z * EdgePair) => <[p.1 := p.1]> components) ∅ (hash_iter m)).
Proof.
  split.
  - apply set_eq. intros v. rewrite elem_of_dom, (init_lookup (fun v => v)), <- (data_vertex R),
      <- elem_of_hash_keys.
    case_decide; [by split; eauto|]. split; [by intros []|done].
  - intros v Hv. unfold value_of. rewrite (init_lookup (fun v => v)), decide_True.
    + split; [constructor|simpl; lia].
    + by apply elem_of_hash_keys, (data_vertex R).
Qed.
End wcc.

(** WCC ends and, unless the time is over, writes every vertex once, with
    the least vertex of its weakly connected component (for vertices below
    2^63). *)
Theorem adj_wcc_correct `{HashOrder, Timer} g s (R : adj_repr g s)
  (Hids : forall v, v ∈ spec_vertices s -> v <= int64_max) :
  (wcc g = Exn TimeoutError /\ has_timeout g = true /\ exists k, is_timeout k = true) \/
  exists result, wcc g = Val result /\ NoDup result.*1 /\
    (forall v, v ∈ result.*1 <-> v ∈ spec_vertices s) /\
    forall v x, (v, x) ∈ result ->
      connected (arc s) v x /\ forall u, u ∈ spec_vertices s -> connected (arc s) v u -> x <= u.
Proof.
  destruct R as [R _]. unfold wcc.
  destruct (wcc_loop_inv R Hids (S (size (m_adjacency_list g) * size (m_adjacency_list g))) _ 0
    (wcc_inv_init R)) as [(-> & ? & ?)|(c & -> & I & Heq)];
    [rewrite (size_vertices R); pose proof (measure_bound (s:=s)) as Hb; apply le_n_S, Hb
    |by left|right].
  bind_val. eexists. split; [done|]. split; [apply NoDup_hash_iter|]. split.
  - intros v. by rewrite elem_of_hash_keys, <- elem_of_dom, (wi_dom _ I).
  - intros v x Hin%elem_of_hash_iter.
    assert (v ∈ spec_vertices s) as Hv by (rewrite <- (wi_dom _ I), elem_of_dom; eauto).
    destruct (wi_label _ I v Hv) as [Hcon _].
    assert (value_of c v = x) as Hx by (unfold value_of; by rewrite Hin).
    rewrite Hx in Hcon. split; [done|].
    intros u Hu Hvu. rewrite <- Hx, (connected_label (arc s) (value_of c) v u Heq Hvu).
    by apply (wi_label _ I).
Qed.

(** ** CDLP: proofs *)

(** The lists of neighbours of a vertex that are counted: those an arc leads
    to and, in a directed graph, those an arc comes from. *)
Definition counted_neighbours (s : Spec) (v : Z) (l : list Z) : Prop :=
  exists outs ins, l = outs ++ ins /\ NoDup outs /\ NoDup ins /\
    (forall x, x ∈ outs <-> arc s v x) /\
    (forall x, x ∈ ins <-> spec_directed s = true /\ arc s x v).

(** One synchronous round; a vertex without neighbours gets label 0. *)
Definition label_round (s : Spec) (labels labels' : gmap Z Z) : Prop :=
  dom labels' = spec_vertices s /\
  forall v, v ∈ spec_vertices s -> exists l, counted_neighbours s v l /\
    exists x, labels' !! v = Some x /\
      ((l = [] /\ x = 0) \/ is_mode (value_of labels <$> l) x).

Section cdlp.
Context `{HashOrder, Timer} {g : AdjacencyList} {s : Spec} (R : adj_data g s).
Context (Hsize : Z.of_nat (size (m_adjacency_list g)) < 2 ^ 62).

Notation m := (m_adjacency_list g).
Notation V := (spec_vertices s).

Lemma all_neighbours_counted v p : m !! v = Some p -> counted_neighbours s v (all_neighbours p).
Proof.
  intros Hp. exists p.1.*1, p.2.*1. destruct (ad_unique _ _ R v p Hp).
  split; [done|]. split; [done|]. split; [done|].
  split; intros x; [by apply (out_arc R)|by apply (in_arc R)].
Qed.

Lemma neighbours_length v p : m !! v = Some p -> Z.of_nat (length (all_neighbours p)) < 2 ^ 63.
Proof.
  intros Hp. destruct (ad_unique _ _ R v p Hp) as [H1 H2].
  assert (forall l, NoDup l -> (forall x, x ∈ l -> x ∈ V) -> (length l <= size m)%nat) as Hle.
  { intros l Hnd Hl. rewrite (size_vertices R), <- (size_list_to_set (C:=gset Z)) by done.
    apply subseteq_size. intros x Hx%elem_of_list_to_set. auto. }
  unfold all_neighbours. rewrite length_app.
  pose proof (Hle _ H1 ltac:(intros x Hx%(out_arc R v p x Hp); by apply (arc_vertices R) in Hx as [? ?])).
  pose proof (Hle _ H2 ltac:(intros x [_ Hx]%(in_arc R v p x Hp); by apply (arc_vertices R) in Hx as [? ?])).
  lia.
Qed.

Lemma cdlp_histogram_fold (l : EdgeList) labels : forall h ls,
  counts h ls -> (forall x, x ∈ l.*1 -> x ∈ dom labels) ->
  Z.of_nat (length ls + length l) < 2 ^ 64 ->
  exists h', foldl cdlp_histogram (labels, h) l = (labels, h') /\
    counts h' (ls ++ (value_of labels <$> l.*1)).
Proof.
  induction l as [|[x w] l IH]; intros h ls Hh Hdom Hlen.
  { exists h. split; [done|]. by rewrite app_nil_r. }
  cbn [foldl length] in *. unfold cdlp_histogram at 2. cbn [fst].
  rewrite subscript_value by (apply Hdom; left).
  destruct (IH (<[value_of labels x := u64 (default 0 (h !! value_of labels x) + 1)]> h)
    (ls ++ [value_of labels x])) as (h' & -> & Hh').
  - apply counts_push; [done|lia].
  - intros y Hy. apply Hdom. by right.
  - rewrite length_app. simpl. lia.
  - exists h'. split; [done|]. by rewrite <- app_assoc in Hh'.
Qed.

Lemma cdlp_vertex_spec labels next ch v p :
  dom labels = V -> m !! v = Some p ->
  exists x, cdlp_vertex (labels, next, ch) (v, p) =
      (labels, <[v := x]> next, ch || negb (value_of labels v =? x)) /\
    ((all_neighbours p = [] /\ x = 0) \/ is_mode (value_of labels <$> all_neighbours p) x).
Proof.
  intros Hd Hp. unfold cdlp_vertex. cbn [fst snd].
  assert (forall x, x ∈ all_neighbours p -> x ∈ dom labels) as Hdom.
  { intros x Hx. rewrite Hd. apply (all_neighbours_arc R v p x Hp) in Hx as [Hx|Hx];
      by apply (arc_vertices R) in Hx as [? ?]. }
  pose proof (neighbours_length v p Hp) as Hlen. unfold all_neighbours in Hdom, Hlen |- *.
  rewrite length_app, !length_fmap in Hlen.
  destruct (cdlp_histogram_fold p.1 labels ∅ []) as (h & -> & Hh).
  { intros x. by rewrite decide_False, lookup_empty by (intros Hx; by apply elem_of_nil in Hx). }
  { intros x Hx. apply Hdom, elem_of_app. by left. }
  { simpl. lia. }
  destruct (cdlp_histogram_fold p.2 labels h _ Hh) as (h' & -> & Hh').
  { intros x Hx. apply Hdom, elem_of_app. by right. }
  { simpl. rewrite !length_fmap. lia. }
  cbv zeta. rewrite subscript_value by (rewrite Hd; apply (data_vertex R); eauto).
  eexists. split; [reflexivity|]. simpl in Hh'. rewrite <- fmap_app in Hh'.
  destruct (cdlp_max_spec 0 h' _ Hh') as [[He ->]|?]; [left|by right].
  split; [by apply fmap_nil_inv in He|done].
Qed.

Lemma cdlp_pass labels next :
  dom labels = V -> dom next ⊆ V ->
  exists next' ch, foldl cdlp_vertex (labels, next, false) (hash_iter m) = (labels, next', ch) /\
    label_round s labels next' /\ (ch = false -> next' = labels).
Proof.
  intros Hd Hn.
  pose proof (foldl_inv (fun (done : list (Z * EdgePair)) '((l, n, ch) : gmap Z Z * gmap Z Z * bool) =>
    l = labels /\ dom n ⊆ V /\ forall v, v ∈ done.*1 -> exists p x, m !! v = Some p /\ n !! v = Some x /\
      ((all_neighbours p = [] /\ x = 0) \/ is_mode (value_of labels <$> all_neighbours p) x) /\
      (ch = false -> value_of labels v = x))
    cdlp_vertex (hash_iter m) (labels, next, false)) as Hinv.
  destruct (foldl cdlp_vertex _ _) as [[l n] ch]. destruct Hinv as (-> & Hdn & Hall).
  - split; [done|]. split; [done|]. intros v Hv. by apply elem_of_nil in Hv.
  - intros done [v p] todo [[l1 n1] ch1] Hl (-> & Hdn & Hall).
    assert (m !! v = Some p) as Hp by (apply elem_of_hash_iter; rewrite Hl; set_solver).
    destruct (cdlp_vertex_spec labels n1 ch1 v p Hd Hp) as (x & -> & Hx).
    split; [done|]. split.
    + rewrite dom_insert_L. assert (v ∈ V) by (apply (data_vertex R); eauto). set_solver.
    + intros u. rewrite fmap_app, elem_of_app. simpl.
      destruct (decide (u = v)) as [->|Huv].
      * intros _. exists p, x. split; [done|]. split; [by rewrite lookup_insert_eq|].
        split; [done|]. intros [_ Hc]%orb_false_iff. apply negb_false_iff, Z.eqb_eq in Hc. done.
      * intros [Hu|Hu%list_elem_of_singleton]; [|done].
        destruct (Hall u Hu) as (q & y & ? & ? & ? & Hch). exists q, y.
        rewrite lookup_insert_ne by done. split; [done|]. split; [done|]. split; [done|].
        intros [? _]%orb_false_iff. auto.
  - assert (forall v, v ∈ V -> v ∈ (hash_iter m).*1) as Hin.
    { intros x Hx. by apply elem_of_hash_keys, (data_vertex R). }
    assert (dom n = V) as HnV.
    { apply set_eq. intros v. split; [by apply Hdn|]. intros Hv. apply elem_of_dom.
      destruct (Hall v (Hin v Hv)) as (p & x & _ & ? & _). eauto. }
    exists n, ch. split; [done|]. split.
    + split; [done|]. intros v Hv. destruct (Hall v (Hin v Hv)) as (p & x & Hp & Hx & Hmode & _).
      exists (all_neighbours p). split; [by apply all_neighbours_counted|]. eauto.
    + intros Hch. apply map_eq. intros v. destruct (decide (v ∈ V)) as [Hv|Hv].
      * destruct (Hall v (Hin v Hv)) as (p & x & _ & Hx & _ & Heq).
        assert (is_Some (labels !! v)) as [y Hy] by (apply elem_of_dom; by rewrite Hd).
        rewrite Hx, Hy, <- (Heq Hch). unfold value_of. by rewrite Hy.
      * rewrite (proj1 (not_elem_of_dom n v)) by (by rewrite HnV).
        by rewrite (proj1 (not_elem_of_dom labels v)) by (by rewrite Hd).
Qed.

Lemma cdlp_iterations_spec n : forall ch labels next k,
  dom labels = V -> dom next ⊆ V -> (ch = false -> label_round s labels labels) ->
  (cdlp_iterations g ch labels next k n = Exn TimeoutError /\ has_timeout g = true /\
     exists k, is_timeout k = true) \/
  exists labels' done, cdlp_iterations g ch labels next k n = Val labels' /\
    dom labels' = V /\ (done <= n)%nat /\ nsteps (label_round s) done labels labels' /\
    (done = n \/ label_round s labels' labels').
Proof.
  induction n as [|n IH]; intros ch labels next k Hd Hn Hch; cbn [cdlp_iterations].
  { right. exists labels, 0%nat. split_and!; [done|done|lia|constructor|by left]. }
  destruct ch; cbn [negb].
  2:{ right. exists labels, 0%nat. split_and!; [done|done|lia|constructor|right; by apply Hch]. }
  unfold CHECK_TIMEOUT. destruct (has_timeout g && is_timeout k) eqn:Ht.
  { apply andb_true_iff in Ht as [? ?]. left. eauto. }
  bind_val. destruct (cdlp_pass labels next Hd Hn) as (next' & ch & -> & Hround & Hsame).
  destruct (IH ch next' labels (S k)) as [?|(labels' & dn & -> & Hd' & Hle & Hsteps & Hend)].
  - apply Hround.
  - by rewrite Hd.
  - intros Hc. by rewrite (Hsame Hc) in Hround |- *.
  - by left.
  - right. exists labels', (S dn). split_and!; [done|done|lia| |].
    + by econstructor.
    + destruct Hend as [->|?]; [by left|by right].
Qed.
End cdlp.

(** CDLP ends and, unless the time is over, writes for every vertex the
    label after the given number of synchronous rounds from the vertex
    identifiers (or after fewer rounds when the labels no longer change): the
    most frequent label among the neighbours, the least on a tie, whatever the
    order in which the hash tables are visited; a vertex without neighbours is
    given label 0. *)
Theorem adj_cdlp_correct `{HashOrder, Timer} g s max_iterations (R : adj_repr g s)
  (Hsize : Z.of_nat (size (m_adjacency_list g)) < 2 ^ 62) :
  (cdlp g max_iterations = Exn TimeoutError /\ has_timeout g = true /\
     exists k, is_timeout k = true) \/
  exists labels0 labels done,
    cdlp g max_iterations = Val (hash_iter labels) /\
    (forall v, labels0 !! v = if decide (v ∈ spec_vertices s) then Some v else None) /\
    (done <= max_iterations)%nat /\ nsteps (label_round s) done labels0 labels /\
    (done = max_iterations \/ label_round s labels labels).
Proof.
  destruct R as [R Hh]. unfold cdlp, with_shared. rewrite Hh.
  assert (adj_data (set_held g true) s) as R' by (by apply data_held).
  set (labels0 := foldl _ _ _).
  assert (forall v, labels0 !! v = if decide (v ∈ spec_vertices s) then Some v else None) as Hl0.
  { intros v. unfold labels0. rewrite (init_lookup (fun v => v)). apply decide_ext.
    by rewrite elem_of_hash_keys, (data_vertex R'). }
  assert (dom labels0 = spec_vertices s) as Hd.
  { apply set_eq. intros v. rewrite elem_of_dom, Hl0. case_decide; [by split; eauto|].
    split; [by intros []|done]. }
  destruct (cdlp_iterations_spec R' Hsize max_iterations true labels0 ∅ 0)
    as [(-> & ? & ?)|(labels & dn & -> & Hdl & Hle & Hsteps & Hend)].
  - done.
  - set_solver.
  - done.
  - by left.
  - right. exists labels0, labels, dn. bind_val. by split_and!.
Qed.

(** ** PageRank: proofs *)

Definition rank_of (rank : gmap Z double) (v : Z) : double := default d_zero (rank !! v).

Definition add_contribution (s : Spec) (rank : gmap Z double) (score : double) (u : Z) : double :=
  dadd score (ddiv (rank_of rank u) (double_of_Z (out_degree s u))).

(** One step of the iteration that defines PageRank; the sums over the sinks
    and over the incoming edges are taken in some order. *)
Definition rank_round (s : Spec) (damping_factor : double) (rank rank' : gmap Z double) : Prop :=
  let V := double_of_Z (Z.of_nat (size (spec_vertices s))) in
  dom rank' = spec_vertices s /\
  exists sinks, lists (fun v => v ∈ spec_vertices s /\ forall x, ~ arc s v x) sinks /\
    forall v, v ∈ spec_vertices s -> exists ins, lists (fun u => arc s u v) ins /\
      rank' !! v = Some
        (dadd (dadd (ddiv (dsub d_one damping_factor) V)
                 (dmul damping_factor (foldl (add_contribution s rank) d_zero ins)))
           (dmul (ddiv damping_factor V)
              (foldl (fun t v => dadd t (rank_of rank v)) d_zero sinks))).

Section pagerank.
Context `{HashOrder, Timer} {g : AdjacencyList} {s : Spec} (R : adj_data g s).

Notation m := (m_adjacency_list g).
Notation V := (spec_vertices s).

Lemma out_degree_length u p : m !! u = Some p -> Z.of_nat (length p.1) = out_degree s u.
Proof.
  intros Hp. destruct (ad_unique _ _ R u p Hp) as [Hnd _]. unfold out_degree. f_equal.
  rewrite <- (length_fmap fst), <- (length_fmap (fun x : Z => (u, x))).
  rewrite <- (size_list_to_set (C:=gset (Z * Z))) by (by apply NoDup_fmap_2; [intros ??[=]|]).
  f_equal. apply set_eq. intros [x y].
  rewrite elem_of_list_to_set, elem_of_filter, elem_of_dom, list_elem_of_fmap. simpl. split.
  - intros (z & [= -> ->] & Hz). split; [done|]. by apply (out_arc R u p).
  - intros [-> Hz]. exists y. split; [done|]. by apply (out_arc R u p).
Qed.

Lemma incoming_lists v p :
  m !! v = Some p -> lists (fun u => arc s u v) (get_incoming_edges g p).*1.
Proof.
  intros Hp. destruct (ad_unique _ _ R v p Hp). unfold get_incoming_edges.
  rewrite (ad_directed _ _ R). destruct (spec_directed s) eqn:Hd; split; try done; intros x.
  - rewrite (in_arc R v p x Hp). rewrite Hd. tauto.
  - rewrite (out_arc R v p x Hp). split; by apply (arc_sym R).
Qed.

Lemma pr_incoming_fold rank v (l : EdgeList) : forall score,
  (forall u, u ∈ l.*1 -> arc s u v) ->
  res_fold (pr_incoming g rank) score l = Val (foldl (add_contribution s rank) score l.*1).
Proof.
  induction l as [|[u w] l IH]; intros score Hl; [done|]. cbn [res_fold fmap list_fmap foldl].
  assert (arc s u v) as Hu by (apply Hl; left).
  destruct (data_lookup R u) as [p Hp]; [by apply (arc_vertices R) in Hu as [? _]|].
  apply (out_arc R u p v Hp) in Hu.
  assert (pr_incoming g rank score (u, w) = Val (add_contribution s rank score u)) as ->.
  { unfold pr_incoming, add_contribution. cbn [fst]. rewrite Hp, <- (out_degree_length u p Hp).
    cbn [require]. bind_val. by destruct p.1; [by apply elem_of_nil in Hu|]. }
  bind_val. apply IH. intros x Hx. apply Hl. by right.
Qed.

Lemma pr_iteration d sinks rank next :
  dom next ⊆ V -> lists (fun v => v ∈ V /\ forall x, ~ arc s v x) (hash_elems sinks) ->
  exists next', res_fold
      (pr_vertex g (double_of_Z (Z.of_nat (size V))) d
         (foldl (fun t v => dadd t (default d_zero (rank !! v))) d_zero (hash_elems sinks)) rank)
      next (hash_iter m) = Val next' /\ rank_round s d rank next'.
Proof.
  intros Hn Hs. set (f := pr_vertex _ _ _ _ _).
  set (score := fun ins => dadd (dadd (ddiv (dsub d_one d) (double_of_Z (Z.of_nat (size V))))
                 (dmul d (foldl (add_contribution s rank) d_zero ins)))
           (dmul (ddiv d (double_of_Z (Z.of_nat (size V))))
              (foldl (fun t v => dadd t (rank_of rank v)) d_zero (hash_elems sinks)))).
  destruct (res_fold_inv (fun (done : list (Z * EdgePair)) (n : gmap Z double) =>
      dom n ⊆ V /\ forall v, v ∈ done.*1 -> exists ins, lists (fun u => arc s u v) ins /\
        n !! v = Some (score ins)) f (hash_iter m) next) as (next' & -> & Hd & Hall).
  - split; [done|]. intros v Hv. by apply elem_of_nil in Hv.
  - intros done [v p] todo n Hl [Hd Hall].
    assert (m !! v = Some p) as Hp by (apply elem_of_hash_iter; rewrite Hl; set_solver).
    pose proof (incoming_lists v p Hp) as Hins.
    assert (f n (v, p) = Val (<[v := score (get_incoming_edges g p).*1]> n)) as ->.
    { unfold f, pr_vertex. cbn [fst snd]. rewrite (pr_incoming_fold rank v); [done|].
      intros u Hu. by apply Hins. }
    eexists. split; [done|]. split.
    + rewrite dom_insert_L. assert (v ∈ V) by (apply (data_vertex R); eauto). set_solver.
    + intros u. rewrite fmap_app, elem_of_app. simpl. destruct (decide (u = v)) as [->|Huv].
      * intros _. eexists. split; [exact Hins|]. by rewrite lookup_insert_eq.
      * rewrite lookup_insert_ne by done. intros [Hu|Hu%list_elem_of_singleton]; [auto|done].
  - exists next'. split; [done|].
    assert (forall v, v ∈ V -> v ∈ (hash_iter m).*1) as Hin.
    { intros x Hx. by apply elem_of_hash_keys, (data_vertex R). }
    split.
    + apply set_eq. intros v. split; [by apply Hd|]. intros Hv. apply elem_of_dom.
      destruct (Hall v (Hin v Hv)) as (ins & _ & ?). eauto.
    + exists (hash_elems sinks). split; [done|]. intros v Hv. apply (Hall v (Hin v Hv)).
Qed.

Lemma pr_iterations_spec d sinks n : forall rank next k,
  dom rank = V -> dom next ⊆ V ->
  lists (fun v => v ∈ V /\ forall x, ~ arc s v x) (hash_elems sinks) ->
  (pr_iterations g (double_of_Z (Z.of_nat (size V))) d sinks rank next k n = Exn TimeoutError /\
     has_timeout g = true /\ exists k, is_timeout k = true) \/
  exists rank', pr_iterations g (double_of_Z (Z.of_nat (size V))) d sinks rank next k n = Val rank' /\
    nsteps (rank_round s d) n rank rank'.
Proof.
  induction n as [|n IH]; intros rank next k Hd Hn Hs; cbn [pr_iterations].
  { right. exists rank. split; [done|constructor]. }
  unfold CHECK_TIMEOUT. destruct (has_timeout g && is_timeout k) eqn:Ht.
  { apply andb_true_iff in Ht as [? ?]. left. eauto. }
  bind_val. destruct (pr_iteration d sinks rank next Hn Hs) as (next' & -> & Hround). bind_val.
  destruct (IH next' rank (S k)) as [?|(rank' & -> & Hsteps)];
    [apply Hround|by rewrite Hd|done|by left|right].
  exists rank'. split; [done|]. by econstructor.
Qed.

End pagerank.

(** The sinks and the uniform ranks. *)
Lemma pr_init x (l : list (Z * EdgePair)) :
  foldl (fun '((rank, sinks) : gmap Z double * gset Z) (p : Z * EdgePair) =>
        (<[p.1 := x]> rank, match p.2.1 with [] => {[p.1]} ∪ sinks | _ => sinks end)) (∅, ∅) l =
  (foldl (fun c (p : Z * EdgePair) => <[p.1 := x]> c) ∅ l,
   list_to_set (filter (fun p : Z * EdgePair => p.2.1 = []) l).*1).
Proof.
  induction l as [|[v p] l IH] using rev_ind; [done|].
  rewrite !foldl_app, IH. simpl. f_equal. apply set_eq. intros y.
  rewrite filter_app, fmap_app, filter_cons, filter_nil. simpl.
  case_decide as Hp; destruct p.1; simplify_eq/=; set_solver.
Qed.

(** PageRank ends and, unless the time is over, writes the ranks after the
    given number of steps of the defining iteration on doubles, from the
    uniform ranks; only the order of the sums is open. *)
Theorem adj_pagerank_correct `{HashOrder, Timer} g s num_iterations damping_factor
  (R : adj_repr g s) :
  (pagerank g num_iterations damping_factor = Exn TimeoutError /\ has_timeout g = true /\
     exists k, is_timeout k = true) \/
  exists rank0 rank,
    pagerank g num_iterations damping_factor = Val (hash_iter rank) /\
    (forall v, rank0 !! v = if decide (v ∈ spec_vertices s)
       then Some (ddiv d_one (double_of_Z (Z.of_nat (size (spec_vertices s))))) else None) /\
    nsteps (rank_round s damping_factor) num_iterations rank0 rank.
Proof.
  destruct R as [R Hh]. unfold pagerank, num_vertices, with_shared. rewrite Hh. bind_val.
  cbn [m_adjacency_list set_held]. rewrite (size_vertices R), pr_init. cbv zeta.
  set (rank0 := foldl _ _ _). set (sinks := list_to_set _).
  assert (forall v, rank0 !! v = if decide (v ∈ spec_vertices s)
    then Some (ddiv d_one (double_of_Z (Z.of_nat (size (spec_vertices s))))) else None) as Hr0.
  { intros v. unfold rank0. rewrite (init_lookup (fun _ => _)). apply decide_ext.
    by rewrite elem_of_hash_keys, (data_vertex R). }
  destruct (pr_iterations_spec R damping_factor sinks num_iterations rank0 ∅ 0)
    as [(-> & ? & ?)|(rank & -> & Hsteps)].
  - apply set_eq. intros v. rewrite elem_of_dom, Hr0. case_decide; [by split; eauto|].
    split; [by intros []|done].
  - set_solver.
  - split; [apply NoDup_hash_elems|]. intros v. rewrite elem_of_hash_elems. unfold sinks.
    rewrite elem_of_list_to_set, list_elem_of_fmap. split.
    + intros ([x p] & -> & [Hnil Hp%elem_of_hash_iter]%list_elem_of_filter). simpl in *.
      split; [apply (data_vertex R); eauto|]. intros y Hy%(out_arc R x p y Hp).
      rewrite Hnil in Hy. by apply elem_of_nil in Hy.
    + intros [[p Hp]%(data_lookup R) Hno]. exists (v, p). split; [done|].
      apply list_elem_of_filter. split; [|by apply elem_of_hash_iter]. simpl.
      destruct p.1 as [|[x w] l] eqn:Hl; [done|]. destruct (Hno x).
      apply (out_arc R v p x Hp). rewrite Hl. left.
  - by left.
  - right. exists rank0, rank. bind_val. by split_and!.
Qed.

(** ** LCC: proofs *)

(** The vertices joined to [v] by an arc in some direction. *)
Definition joined (s : Spec) (v : Z) : gset Z :=
  filter (fun x => arc s v x \/ arc s x v) (spec_vertices s).

(** The ordered pairs of vertices joined to [v] that are an arc themselves. *)
Definition closed_pairs (s : Spec) (v : Z) : Z :=
  Z.of_nat (size (filter (fun k => k.1 ∈ joined s v /\ k.2 ∈ joined s v) (dom (spec_arcs s)))).

Definition lcc_value (s : Spec) (v : Z) : double :=
  let d := Z.of_nat (size (joined s v)) in
  if 2 <=? d then lcc_ratio (closed_pairs s v) d else d_zero.

(** The arcs among the members of a list, by their first end. *)
Lemma closed_pairs_sum s v l :
  lists (fun x => x ∈ joined s v) l ->
  closed_pairs s v = Z.of_nat (sum_list_with (fun x => length (filter (fun y => arc s x y) l)) l).
Proof.
  intros [Hnd Hl]. unfold closed_pairs. f_equal.
  assert (forall k, NoDup k -> NoDup (k ≫= fun x => (fun y => (x, y)) <$> filter (fun y => arc s x y) l) /\
    length (k ≫= fun x => (fun y => (x, y)) <$> filter (fun y => arc s x y) l) =
      sum_list_with (fun x => length (filter (fun y => arc s x y) l)) k) as Hbind.
  { intros k Hk. induction Hk as [|x k Hx Hk [IH1 IH2]]; [split; [constructor|done]|].
    rewrite bind_cons. cbn [sum_list_with]. split.
    - apply NoDup_app. split; [|split; [|done]].
      + apply NoDup_fmap_2; [by intros ??[=]|]. by apply NoDup_filter.
      + intros [a b] Ha Hb. apply list_elem_of_fmap in Ha as (y & [= -> ->] & _).
        apply list_elem_of_bind in Hb as (z & Hb & Hz).
        apply list_elem_of_fmap in Hb as (y' & [= -> ->] & _). done.
    - by rewrite length_app, length_fmap, IH2. }
  destruct (Hbind l Hnd) as [Hndp <-].
  rewrite <- (size_list_to_set (C:=gset (Z * Z))) by done. f_equal.
  apply set_eq. intros [x y]. rewrite elem_of_filter, elem_of_dom, elem_of_list_to_set, list_elem_of_bind.
  simpl. fold (arc s x y). split.
  - intros [[Hx Hy] Harc]. exists x. split; [|by apply Hl].
    apply list_elem_of_fmap. exists y. split; [done|]. apply list_elem_of_filter.
    split; [done|by apply Hl].
  - intros (z & Hin & Hz). apply list_elem_of_fmap in Hin as (y' & [= -> ->] & Hy).
    apply list_elem_of_filter in Hy as [? Hy]. split; [|done]. split; by apply Hl.
Qed.

(** The loops that count, as long as the counter does not wrap. *)
Lemma count_fold {A} (P : A -> Prop) `{!forall x, Decision (P x)} (f : Z -> A -> res Z) l : forall n,
  (forall n x, x ∈ l -> is_u64 n -> f n x = Val (if decide (P x) then u64 (n + 1) else n)) ->
  0 <= n -> n + Z.of_nat (length l) < 2 ^ 64 ->
  res_fold f n l = Val (n + Z.of_nat (length (filter P l))).
Proof.
  induction l as [|x l IH]; intros n Hf H0 Hn; [by rewrite Z.add_0_r|].
  cbn [res_fold length] in *. rewrite Hf by (left || unfold is_u64; lia). bind_val.
  rewrite filter_cons.
  case_decide.
  - rewrite u64_id by (unfold is_u64; lia). rewrite IH; [|intros; apply Hf; [by right|done]|lia|lia].
    f_equal. simpl. lia.
  - apply IH; [intros; apply Hf; [by right|done]|lia|lia].
Qed.

Lemma sum_fold {A} (f : Z -> A -> res Z) (c : A -> nat) (b : nat) l : forall n,
  (forall n x, x ∈ l -> 0 <= n -> n + Z.of_nat b < 2 ^ 64 -> f n x = Val (n + Z.of_nat (c x))) ->
  (forall x, x ∈ l -> (c x <= b)%nat) ->
  0 <= n -> n + Z.of_nat (length l * b) < 2 ^ 64 ->
  res_fold f n l = Val (n + Z.of_nat (sum_list_with c l)).
Proof.
  induction l as [|x l IH]; intros n Hf Hc H0 Hn; [by rewrite Z.add_0_r|].
  cbn [res_fold length] in *. rewrite Hf by (left || lia). bind_val.
  pose proof (Hc x ltac:(left)). rewrite IH.
  - f_equal. simpl. lia.
  - intros; apply Hf; [by right|done|done].
  - intros; apply Hc; by right.
  - lia.
  - lia.
Qed.

Section lcc.
Context `{HashOrder, Timer} {g : AdjacencyList} {s : Spec} (R : adj_data g s).
Context (Hsize : Z.of_nat (size (m_adjacency_list g)) < 2 ^ 31).

Notation m := (m_adjacency_list g).
Notation V := (spec_vertices s).

Lemma elem_of_joined v x : x ∈ joined s v <-> arc s v x \/ arc s x v.
Proof.
  unfold joined. rewrite elem_of_filter. split; [by intros []|]. intros Hx. split; [done|].
  destruct Hx as [Hx|Hx]; by apply (arc_vertices R) in Hx as [? ?].
Qed.

Lemma both_neighbours_joined v p : m !! v = Some p -> both_neighbours p = joined s v.
Proof.
  intros Hp. apply set_eq. intros x. rewrite elem_of_joined, <- (all_neighbours_arc R v p x Hp).
  unfold both_neighbours, all_neighbours. rewrite elem_of_union, !elem_of_list_to_set.
  by rewrite elem_of_app.
Qed.

Lemma out_lists v p :
  spec_directed s = false -> m !! v = Some p -> lists (fun x => x ∈ joined s v) p.1.*1.
Proof.
  intros Hd Hp. destruct (ad_unique _ _ R v p Hp) as [Hnd _]. split; [done|]. intros x.
  rewrite elem_of_joined, (out_arc R v p x Hp). pose proof (arc_sym R Hd x v). tauto.
Qed.

Lemma get_degree_joined v p : m !! v = Some p -> get_degree g v = Val (Z.of_nat (size (joined s v))).
Proof.
  intros Hp. unfold get_degree. rewrite Hp. cbn [require]. bind_val. rewrite (ad_directed _ _ R).
  destruct (spec_directed s) eqn:Hd; cbn [negb].
  - by rewrite (both_neighbours_joined v p Hp).
  - destruct (out_lists v p Hd Hp) as [Hnd Hl]. do 2 f_equal.
    rewrite <- (length_fmap fst), <- (size_list_to_set (C:=gset Z)) by done. f_equal.
    apply set_eq. intros x. by rewrite elem_of_list_to_set, Hl.
Qed.

Lemma joined_length v l : lists (fun x => x ∈ joined s v) l -> (length l <= size m)%nat.
Proof.
  intros [Hnd Hl]. rewrite (size_vertices R), <- (size_list_to_set (C:=gset Z)) by done.
  apply subseteq_size. intros x Hx%elem_of_list_to_set%Hl. unfold joined in Hx.
  by apply elem_of_filter in Hx as [_ ?].
Qed.

Lemma for_all_edges_lists v p :
  m !! v = Some p -> lists (fun x => x ∈ joined s v) (for_all_edges g p).
Proof.
  intros Hp. unfold for_all_edges. rewrite (ad_directed _ _ R).
  destruct (spec_directed s) eqn:Hd; cbn [negb]; [|by apply out_lists].
  rewrite (both_neighbours_joined v p Hp). split; [apply NoDup_hash_elems|].
  intros x. apply elem_of_hash_elems.
Qed.

Lemma check_directed_edge_exists_spec x y :
  x ∈ V -> y ∈ V -> check_directed_edge_exists g x y = Val (bool_decide (arc s x y)).
Proof.
  intros [p Hp]%(data_lookup R) [q Hq]%(data_lookup R). unfold check_directed_edge_exists.
  rewrite Hp, Hq. simpl. f_equal. apply eq_true_iff_eq.
  rewrite existsb_exists, bool_decide_eq_true, <- (out_arc R x p y Hp), list_elem_of_fmap.
  split; intros (e & H1 & H2); exists e.
  - apply Z.eqb_eq in H2. split; [done|by apply list_elem_of_In].
  - split; [by apply list_elem_of_In|by apply Z.eqb_eq].
Qed.

Lemma lcc_triangles_spec v p :
  m !! v = Some p -> lcc_triangles g p = Val (closed_pairs s v).
Proof.
  intros Hp. pose proof (for_all_edges_lists v p Hp) as Hl.
  pose proof (joined_length v _ Hl) as Hlen.
  rewrite (closed_pairs_sum s v _ Hl). unfold lcc_triangles.
  set (l := for_all_edges g p) in *.
  rewrite (sum_fold _ (fun x => length (filter (fun y => arc s x y) l)) (size m)); [done| |..].
  - intros n x Hx Hn Hb. apply count_fold; [|done|lia].
    intros k y Hy Hk. destruct Hl as [_ Hl]. apply Hl in Hx, Hy.
    unfold joined in Hx, Hy. apply elem_of_filter in Hx as [_ Hx], Hy as [_ Hy].
    destruct (Z.eqb_spec x y) as [->|Hxy]; simpl.
    + rewrite decide_False; [done|]. intros [w Hw]. by rewrite (ad_loop _ _ R) in Hw.
    + rewrite check_directed_edge_exists_spec by done. bind_val.
      case_bool_decide; [by rewrite decide_True|rewrite decide_False by done].
      simpl. by rewrite Z.add_0_r, u64_id.
  - intros x _. etrans; [apply length_filter|done].
  - lia.
  - nia.
Qed.

Lemma check_timeout_cases k :
  (CHECK_TIMEOUT g k = Exn TimeoutError /\ has_timeout g = true /\
     exists k, is_timeout k = true) \/ CHECK_TIMEOUT g k = Val tt.
Proof.
  unfold CHECK_TIMEOUT. destruct (has_timeout g && is_timeout k) eqn:Ht; [left|by right].
  apply andb_true_iff in Ht as [? ?]. eauto.
Qed.

(** The vertices of a list have their value. *)
Definition scored (done : list Z) (result : gmap Z double) : Prop :=
  forall v, result !! v = if decide (v ∈ done) then Some (lcc_value s v) else None.

Lemma scored_snoc done v result :
  scored done result -> scored (done ++ [v]) (<[v := lcc_value s v]> result).
Proof.
  intros Hd x. destruct (decide (x = v)) as [->|Hxv].
  - rewrite lookup_insert_eq, decide_True; [done|set_solver].
  - rewrite lookup_insert_ne, Hd by done. apply decide_ext. set_solver.
Qed.

Lemma lcc_directed_spec :
  (lcc_directed g = Exn TimeoutError /\ has_timeout g = true /\ exists k, is_timeout k = true) \/
  exists result, lcc_directed g = Val result /\ scored (hash_iter m).*1 result.
Proof.
  unfold lcc_directed. match goal with |- context [res_fold ?f0 _ _] => set (f := f0) end.
  destruct (res_fold_inv_or (has_timeout g = true /\ exists k, is_timeout k = true) TimeoutError
    (fun (done : list (Z * EdgePair)) '((result, k) : gmap Z double * nat) => scored done.*1 result)
    f (hash_iter m) (∅, 0%nat)) as [[-> ?]|([result k] & -> & Hr)]; [..|by left|right].
  - intros v. by rewrite lookup_empty, decide_False by (apply not_elem_of_nil).
  - intros done [v p] todo [result k] Hl Hd.
    assert (m !! v = Some p) as Hp by (apply elem_of_hash_iter; rewrite Hl; set_solver).
    unfold f. cbn [fst snd]. destruct (check_timeout_cases k) as [[-> ?]| ->]; [by left|right].
    bind_val. rewrite (get_degree_joined v p Hp). bind_val.
    pose proof (scored_snoc _ v _ Hd) as Hd'. unfold lcc_value in Hd'.
    destruct (2 <=? _).
    + rewrite (lcc_triangles_spec v p Hp). bind_val.
      eexists. split; [done|]. cbv beta iota. by rewrite fmap_app.
    + eexists. split; [done|]. cbv beta iota. by rewrite fmap_app.
  - bind_step. eauto.
Qed.

(** *** Undirected graphs *)

(** How many vertices are joined to both. *)
Definition common (u v : Z) : nat := size (filter (fun y => y ∈ joined s u) (joined s v)).

Lemma common_sym u v : common u v = common v u.
Proof.
  unfold common. f_equal. apply set_eq. intros x. rewrite !elem_of_filter. tauto.
Qed.

Lemma common_bound u v : (common u v <= size m)%nat.
Proof.
  rewrite (size_vertices R). unfold common. apply subseteq_size. intros x.
  unfold joined. rewrite !elem_of_filter. tauto.
Qed.

Lemma common_length u v l :
  lists (fun x => x ∈ joined s v) l ->
  length (filter (fun y => y ∈ joined s u) l) = common u v.
Proof.
  intros [Hnd Hl]. unfold common.
  rewrite <- (size_list_to_set (C:=gset Z)) by (by apply NoDup_filter). f_equal.
  apply set_eq. intros x. rewrite elem_of_list_to_set, elem_of_filter, list_elem_of_filter. by rewrite Hl.
Qed.

Lemma lcc_probe_fold (H1 : gset Z) x (l : EdgeList) : forall n av,
  0 <= n -> n + Z.of_nat (length l) < 2 ^ 64 ->
  0 <= value_of av x -> value_of av x + Z.of_nat (length l) < 2 ^ 64 ->
  exists av', foldl (lcc_probe H1 x) (n, av) l =
      (n + Z.of_nat (length (filter (fun y => y ∈ H1) l.*1)), av') /\
    forall y, value_of av' y = value_of av y +
      (if decide (y = x) then Z.of_nat (length (filter (fun y => y ∈ H1) l.*1)) else 0).
Proof.
  induction l as [|[z w] l IH]; intros n av Hn0 Hn Ha0 Ha.
  { exists av. split; [by rewrite Z.add_0_r|]. intros y. case_decide; simpl; lia. }
  cbn [foldl length fmap list_fmap fst] in *. unfold lcc_probe at 2. cbn [fst].
  rewrite filter_cons. case_decide as Hz.
  - rewrite !u64_id by (unfold is_u64; unfold value_of in *; lia).
    fold (value_of av x). set (av1 := <[x := _]> av).
    assert (forall y, value_of av1 y = value_of av y + if decide (y = x) then 1 else 0) as Hv1.
    { intros y. unfold av1, value_of. case_decide; [subst; by rewrite lookup_insert_eq|].
      rewrite lookup_insert_ne by done. lia. }
    assert (value_of av1 x = value_of av x + 1) as Hx1 by (by rewrite Hv1, decide_True).
    destruct (IH (n + 1) av1) as (av' & -> & Hav'); [lia..|].
    exists av'. split; [f_equal; simpl; lia|]. intros y. rewrite Hav', Hv1. simpl. case_decide; lia.
  - destruct (IH n av) as (av' & -> & Hav'); [lia..|]. eauto.
Qed.

Lemma lcc_neighbour_fold v p (l : EdgeList) : forall n av,
  spec_directed s = false -> m !! v = Some p ->
  (forall x, x ∈ l.*1 -> x ∈ joined s v) -> NoDup l.*1 ->
  0 <= n -> n + Z.of_nat ((1 + length l) * size m) < 2 ^ 64 ->
  (forall y, y ∈ l.*1 -> v <= y -> 0 <= value_of av y /\ value_of av y + Z.of_nat (size m) < 2 ^ 64) ->
  exists av', res_fold (lcc_neighbour g (joined s v) v) (n, av) l =
      Val (n + Z.of_nat (sum_list_with (common v) (filter (fun x => v <= x) l.*1)), av') /\
    forall y, value_of av' y = value_of av y +
      (if decide (y ∈ l.*1 /\ v <= y) then Z.of_nat (common v y) else 0).
Proof.
  induction l as [|[x w] l IH]; intros n av Hd Hp Hl Hnd Hn0 Hn Hav.
  { exists av. split; [by rewrite Z.add_0_r|]. intros y.
    rewrite decide_False; [lia|]. intros [Hy _]. by apply elem_of_nil in Hy. }
  cbn [res_fold length fmap list_fmap fst] in *. apply NoDup_cons in Hnd as [Hx Hnd].
  rewrite filter_cons. unfold lcc_neighbour at 2. cbn [fst].
  pose proof (common_bound v x) as Hcb.
  destruct (Z.ltb_spec x v) as [Hlt|Hge].
  - bind_val. rewrite decide_False by lia.
    destruct (IH n av Hd Hp) as (av' & -> & Hav');
      [set_solver|done|done|lia|intros y Hy ?; apply Hav; [by right|done]|].
    exists av'. split; [done|]. intros y. rewrite Hav'. f_equal.
    apply decide_ext. rewrite elem_of_cons. split; [tauto|]. intros [[->|?] ?]; [lia|done].
  - rewrite decide_True by lia.
    assert (x ∈ V) as HxV.
    { pose proof (Hl x ltac:(left)) as Hj. unfold joined in Hj. by apply elem_of_filter in Hj as [_ ?]. }
    destruct (data_lookup R x HxV) as [q Hq]. rewrite Hq. cbn [at_]. bind_val.
    pose proof (out_lists x q Hd Hq) as Hlq. pose proof (joined_length x _ Hlq) as Hlen.
    rewrite length_fmap in Hlen. destruct (Hav x ltac:(left) Hge) as [Ha0 Ha].
    destruct (lcc_probe_fold (joined s v) x q.1 n av) as (av1 & Hfold & Hav1); [lia..|].
    rewrite Hfold. bind_val. rewrite (common_length v x _ Hlq) in *.
    destruct (IH (n + Z.of_nat (common v x)) av1 Hd Hp) as (av' & -> & Hav').
    + set_solver.
    + done.
    + lia.
    + lia.
    + intros y Hy Hvy. rewrite Hav1, decide_False by (intros ->; done). rewrite Z.add_0_r.
      apply Hav; [by right|done].
    + exists av'. split; [do 2 f_equal; simpl; lia|]. intros y. rewrite Hav', Hav1.
      destruct (decide (y = x)) as [->|Hyx].
      * rewrite (decide_False (P := x ∈ l.*1 /\ _)) by tauto.
        rewrite decide_True; [lia|]. split; [left|done].
      * rewrite Z.add_0_r. f_equal. apply decide_ext. rewrite elem_of_cons. tauto.
Qed.

(** What the visited vertices have already counted for [v]. *)
Definition visited_for (done : list Z) (v : Z) : nat :=
  sum_list_with (common v) (filter (fun u => u ∈ joined s v) done).

Lemma joined_sym u v : u ∈ joined s v <-> v ∈ joined s u.
Proof. rewrite !elem_of_joined. tauto. Qed.

Lemma joined_irrefl v : v ∉ joined s v.
Proof. rewrite elem_of_joined. intros [[w Hw]|[w Hw]]; by rewrite (ad_loop _ _ R) in Hw. Qed.

Lemma common_small v x : (size (joined s v) < 2)%nat -> x ∈ joined s v -> common x v = 0%nat.
Proof.
  intros Hlt Hx. unfold common. apply size_empty_iff. intros y.
  rewrite elem_of_filter, elem_of_empty. split; [|done]. intros [Hxy Hvy].
  assert (y <> x) as Hne by (intros ->; by apply (joined_irrefl x)).
  assert (({[x; y]} : gset Z) ⊆ joined s v) as Hsub by set_solver.
  apply subseteq_size in Hsub. rewrite size_union, !size_singleton in Hsub by set_solver. lia.
Qed.

Lemma sum_common_bound v l :
  NoDup l -> (forall x, x ∈ l -> x ∈ V) ->
  (sum_list_with (common v) l <= size m * size m)%nat.
Proof.
  intros Hnd Hl.
  assert (length l <= size m)%nat as Hlen.
  { rewrite (size_vertices R), <- (size_list_to_set (C:=gset Z)) by done.
    apply subseteq_size. intros x Hx%elem_of_list_to_set. auto. }
  assert (sum_list_with (common v) l <= length l * size m)%nat; [|nia].
  clear Hnd Hl Hlen. induction l as [|x l IH]; simpl; [done|].
  pose proof (common_bound v x). lia.
Qed.

Lemma closed_pairs_common v p :
  spec_directed s = false -> m !! v = Some p ->
  closed_pairs s v = Z.of_nat (sum_list_with (common v) p.1.*1).
Proof.
  intros Hd Hp. pose proof (out_lists v p Hd Hp) as Hl. rewrite (closed_pairs_sum s v _ Hl). f_equal.
  assert (forall k, sum_list_with (fun x => length (filter (fun y => arc s x y) p.1.*1)) k =
                    sum_list_with (common v) k) as Hk; [|apply Hk].
  induction k as [|x k IH]; [done|]. cbn [sum_list_with].
  rewrite IH, common_sym, <- (common_length x v _ Hl). do 2 f_equal. apply list_filter_iff.
  intros y. rewrite elem_of_joined. pose proof (arc_sym R Hd y x). tauto.
Qed.

(** The vertices before [v] and those after it make up the neighbours. *)
Lemma visited_split v p done :
  spec_directed s = false -> m !! v = Some p -> NoDup done ->
  (forall x, x ∈ V -> x ∈ done <-> x < v) ->
  (visited_for done v + sum_list_with (common v) (filter (fun x => v <= x)%Z p.1.*1))%nat =
  sum_list_with (common v) p.1.*1.
Proof.
  intros Hd Hp Hnd Hdone. pose proof (out_lists v p Hd Hp) as [Hndp Hl].
  unfold visited_for. rewrite <- sum_list_with_app. apply sum_list_with_perm, NoDup_Permutation.
  - apply NoDup_app. split; [by apply NoDup_filter|]. split; [|by apply NoDup_filter].
    intros x [Hx Hxd]%list_elem_of_filter [Hvx _]%list_elem_of_filter.
    unfold joined in Hx. apply elem_of_filter in Hx as [_ HxV]. apply Hdone in Hxd; [lia|done].
  - done.
  - intros x. rewrite elem_of_app, !list_elem_of_filter, Hl. split; [tauto|]. intros Hx.
    assert (x ∈ V) as HxV by (unfold joined in Hx; by apply elem_of_filter in Hx as [_ ?]).
    destruct (decide (x < v)); [left|right]; rewrite ?Hdone by done; split; (done || lia).
Qed.

Lemma lcc_vertex_spec done v p result av k :
  spec_directed s = false -> m !! v = Some p -> NoDup done ->
  (forall x, x ∈ done -> x ∈ V) -> (forall x, x ∈ V -> x ∈ done <-> x < v) ->
  scored done result ->
  (forall x, x ∈ V -> x ∉ done -> value_of av x = Z.of_nat (visited_for done x)) ->
  (lcc_vertex g (result, av, k) v = Exn TimeoutError /\ has_timeout g = true /\
     exists k, is_timeout k = true) \/
  exists av', lcc_vertex g (result, av, k) v = Val (<[v := lcc_value s v]> result, av', S k) /\
    forall x, x ∈ V -> x ∉ done ++ [v] -> value_of av' x = Z.of_nat (visited_for (done ++ [v]) x).
Proof.
  intros Hd Hp Hnd HdV Hdone Hscored Hav. unfold lcc_vertex.
  destruct (check_timeout_cases k) as [[-> ?]| ->]; [by left|right].
  bind_val. rewrite (get_degree_joined v p Hp). bind_val.
  assert (v ∈ V) as HvV by (apply (data_vertex R); eauto).
  assert (v ∉ done) as Hvd by (rewrite Hdone by done; lia).
  pose proof (out_lists v p Hd Hp) as Hl.
  assert (forall x, visited_for (done ++ [v]) x =
    visited_for done x + if decide (x ∈ joined s v) then common v x else 0)%nat as Hsnoc.
  { intros x. unfold visited_for. rewrite filter_app, sum_list_with_app, filter_cons, filter_nil.
    rewrite (common_sym v x). destruct (decide (x ∈ joined s v)) as [Hx|Hx].
    - rewrite decide_True by (by apply joined_sym). simpl. lia.
    - by rewrite decide_False by (by rewrite joined_sym). }
  unfold lcc_value. destruct (Z.leb_spec 2 (Z.of_nat (size (joined s v)))) as [Hge|Hlt].
  - rewrite Hp. cbn [require]. bind_val. fold (value_of av v).
    assert (list_to_set p.1.*1 = joined s v) as ->.
    { apply set_eq. intros x. by rewrite elem_of_list_to_set, (proj2 Hl). }
    assert (forall x, (visited_for done x <= size m * size m)%nat) as Hvis.
    { intros x. apply sum_common_bound; [by apply NoDup_filter|].
      intros y [_ Hy]%list_elem_of_filter. auto. }
    pose proof (Hvis v) as Hvv. pose proof (joined_length v _ Hl) as Hlen.
    rewrite length_fmap in Hlen.
    assert (Z.of_nat ((1 + size m) * size m) < 2 ^ 62) as Hmm by nia.
    destruct (lcc_neighbour_fold v p p.1 (value_of av v) av Hd Hp) as (av' & -> & Hav').
    + intros x. apply Hl.
    + apply Hl.
    + rewrite Hav by done. lia.
    + rewrite Hav by done. nia.
    + intros y Hy Hvy. assert (y ∈ V) as HyV.
      { apply Hl in Hy. unfold joined in Hy. by apply elem_of_filter in Hy as [_ ?]. }
      rewrite Hav; [|done|rewrite Hdone by done; lia]. pose proof (Hvis y). nia.
    + bind_step. exists av'. split.
      * do 4 f_equal. rewrite Hav by done. rewrite (closed_pairs_common v p Hd Hp).
        rewrite <- (visited_split v p done Hd Hp Hnd Hdone). f_equal. lia.
      * intros x Hx Hxd. rewrite Hav', Hsnoc.
        assert (x ∉ done /\ x <> v) as [Hxd' Hxv] by set_solver.
        rewrite Hav by done. assert (v <= x) by (rewrite Hdone in Hxd' by done; lia).
        rewrite (decide_ext (x ∈ p.1.*1 /\ v <= x) (x ∈ joined s v)).
        -- case_decide; lia.
        -- rewrite (proj2 Hl x). tauto.
  - exists av. split; [done|]. intros x Hx Hxd.
    assert (x ∉ done) as Hxd' by set_solver. rewrite Hav, Hsnoc by done.
    case_decide as Hj; [|f_equal; lia].
    rewrite common_sym, (common_small v x) by (lia || done). f_equal. lia.
Qed.

Lemma lcc_undirected_spec :
  spec_directed s = false ->
  (lcc_undirected g = Exn TimeoutError /\ has_timeout g = true /\ exists k, is_timeout k = true) \/
  exists result, lcc_undirected g = Val result /\ scored (hash_iter m).*1 result.
Proof.
  intros Hd. unfold lcc_undirected. set (nodes := merge_sort Z.le _).
  assert (nodes ≡ₚ (hash_iter m).*1) as Hperm by apply merge_sort_Permutation.
  assert (NoDup nodes) as Hnd by (rewrite Hperm; apply NoDup_hash_iter).
  assert (forall x, x ∈ nodes <-> x ∈ V) as HV.
  { intros x. rewrite Hperm, elem_of_hash_keys. apply (data_vertex R). }
  assert (StronglySorted Z.le nodes) as Hsorted by (apply (StronglySorted_merge_sort Z.le); apply _).
  destruct (res_fold_inv_or (has_timeout g = true /\ exists k, is_timeout k = true) TimeoutError
    (fun done '((result, av, k) : gmap Z double * gmap Z Z * nat) => scored done result /\
       forall x, x ∈ V -> x ∉ done -> value_of av x = Z.of_nat (visited_for done x))
    (lcc_vertex g) nodes (∅, ∅, 0%nat)) as [[-> ?]|([[result av] k] & -> & Hr & _)].
  - split; [|by intros x _ _].
    intros v. by rewrite lookup_empty, decide_False by (apply not_elem_of_nil).
  - intros done v todo [[result av] k] Hl [Hs Hav].
    assert (v ∈ V) as [p Hp]%(data_lookup R) by (apply HV; rewrite Hl; set_solver).
    rewrite Hl in Hnd, Hsorted. apply NoDup_app in Hnd as (Hndd & Hdis & [Hvt _]%NoDup_cons).
    apply StronglySorted_app in Hsorted as (Hlt & _ & Htodo).
    apply StronglySorted_cons in Htodo as [Hgt _].
    destruct (lcc_vertex_spec done v p result av k Hd Hp Hndd) as [?|(av' & -> & Hav')].
    + intros x Hx. apply HV. rewrite Hl. set_solver.
    + intros x Hx%HV. rewrite Hl in Hx. split.
      * intros Hxd. pose proof (Hlt x v Hxd ltac:(left)). assert (x <> v); [|lia].
        intros ->. apply (Hdis v Hxd). left.
      * intros Hxv. apply elem_of_app in Hx as [?|[->|Hx]%elem_of_cons]; [done|lia|].
        rewrite Forall_forall in Hgt. specialize (Hgt x Hx). lia.
    + done.
    + done.
    + by left.
    + right. eexists. split; [done|]. split; [by apply scored_snoc|done].
  - by left.
  - right. bind_step. exists result. split; [done|]. intros v. rewrite Hr. apply decide_ext.
    by rewrite Hperm.
Qed.
End lcc.

(** LCC ends and, unless the time is over, writes for every vertex the
    number of ordered pairs of vertices joined to it that are themselves an
    arc, over the number of all such pairs. For undirected graphs this is what
    the enumeration that skips the visited vertices computes. *)
Theorem adj_lcc_correct `{HashOrder, Timer} g s (R : adj_repr g s)
  (Hsize : Z.of_nat (size (m_adjacency_list g)) < 2 ^ 31) :
  (lcc g = Exn TimeoutError /\ has_timeout g = true /\ exists k, is_timeout k = true) \/
  exists result, lcc g = Val (hash_iter result) /\
    forall v, result !! v =
      if decide (v ∈ spec_vertices s) then Some (lcc_value s v) else None.
Proof.
  destruct R as [R _]. unfold lcc. rewrite (ad_directed _ _ R).
  assert (forall result, scored (s:=s) (hash_iter (m_adjacency_list g)).*1 result -> forall v, result !! v =
      if decide (v ∈ spec_vertices s) then Some (lcc_value s v) else None) as Hscored.
  { intros result Hr v. rewrite Hr. apply decide_ext. by rewrite elem_of_hash_keys, (data_vertex R). }
  destruct (spec_directed s) eqn:Hd.
  - destruct (lcc_directed_spec R Hsize) as [(-> & ?)|(result & -> & Hr)]; [by left|right].
    bind_val. eauto.
  - destruct (lcc_undirected_spec R Hsize Hd) as [(-> & ?)|(result & -> & Hr)]; [by left|right].
    bind_val. eauto.
Qed.

(** ** The theorems on the example graphs *)

Example ex_kernels :
  let q := circular_list Z in
  @bfs q map_order no_timeout (ex_graph true) 20 =
    Val [(30, 1); (10, int64_max); (20, 0); (40, int64_max)] /\
  @wcc map_order no_timeout (ex_graph true) = Val [(30, 10); (10, 10); (20, 10); (40, 40)] /\
  @cdlp map_order no_timeout (ex_graph true) 2 = Val [(30, 10); (10, 10); (20, 20); (40, 0)] /\
  @lcc map_order no_timeout (ex_graph false) =
    Val [(30, d_zero); (10, d_zero); (20, d_zero); (40, d_zero)].
Proof. vm_compute. repeat split. Qed.

Lemma ex_size d : size (m_adjacency_list (ex_graph d)) = 4%nat.
Proof. destruct d; by vm_compute. Qed.

Lemma adj_bfs_correct_witness :
  exists result, @bfs (circular_list Z) map_order no_timeout (ex_graph false) 10 = Val result /\
    result.*1 ≡ₚ elements (spec_vertices (ex_spec false)).
Proof.
  pose proof (@adj_bfs_correct (circular_list Z) map_order no_timeout _ _ 10 (ex_repr false)
    ltac:(rewrite ex_size; lia)) as Hbfs.
  rewrite decide_True in Hbfs by (apply (bool_decide_unpack _); by vm_compute).
  destruct Hbfs as [(_ & _ & k & Hk)|(result & Hres & Hperm & _)]; [discriminate Hk|].
  exists result. exact (conj Hres Hperm).
Defined.

Lemma adj_wcc_correct_witness :
  exists result, @wcc map_order no_timeout (ex_graph false) = Val result /\ NoDup result.*1.
Proof.
  destruct (@adj_wcc_correct map_order no_timeout _ _ (ex_repr false))
    as [(_ & _ & k & Hk)|(result & Hres & Hnd & _)].
  - intros v Hv%elem_of_elements. vm_compute in Hv. unfold int64_max.
    repeat (apply elem_of_cons in Hv as [->|Hv]; [lia|]). by apply elem_of_nil in Hv.
  - discriminate Hk.
  - exists result. exact (conj Hres Hnd).
Defined.

Lemma adj_cdlp_correct_witness :
  exists labels, @cdlp map_order no_timeout (ex_graph true) 3 = Val (@hash_iter map_order _ labels).
Proof.
  destruct (@adj_cdlp_correct map_order no_timeout _ _ 3 (ex_repr true)
    ltac:(rewrite ex_size; lia)) as [(_ & _ & k & Hk)|(l0 & labels & n & Hres & _)];
    [discriminate Hk|exists labels; exact Hres].
Defined.

Lemma adj_pagerank_correct_witness :
  exists rank, @pagerank map_order no_timeout (ex_graph true) 2 d_one = Val (@hash_iter map_order _ rank).
Proof.
  destruct (@adj_pagerank_correct map_order no_timeout _ _ 2 d_one (ex_repr true))
    as [(_ & _ & k & Hk)|(r0 & rank & Hres & _)]; [discriminate Hk|exists rank; exact Hres].
Defined.

Lemma adj_lcc_correct_witness :
  exists result, @lcc map_order no_timeout (ex_graph true) = Val (@hash_iter map_order _ result) /\
    result !! 20 = Some (lcc_value (ex_spec true) 20).
Proof.
  destruct (@adj_lcc_correct map_order no_timeout _ _ (ex_repr true) ltac:(rewrite ex_size; lia))
    as [(_ & _ & k & Hk)|(result & Hres & Hv)]; [discriminate Hk|].
  exists result. split; [exact Hres|]. rewrite Hv.
  by rewrite decide_True by (apply (bool_decide_unpack _); by vm_compute).
Defined.
