(* ===== verification/AdjSssp.v ===== *)
(** The shortest paths of [library/baseline/adjacency_list]: Dijkstra's algorithm
    with a priority queue from which outdated entries are not removed. *)

From S2P Require Import Prelude Doubles Paths Gapbs Edge AdjList AdjKernels.

(** The arcs of the abstract graph with their weights. *)
Definition weighted (s : Spec) (u v : Z) (w : double) : Prop := spec_arcs s !! (u, v) = Some w.

Section sssp.
Context `{UnorderedMap, PriorityOrder, HashOrder, Timer}.
Context {g : AdjacencyList} {s : Spec} (R : adj_data g s) (src : Z).
Context (Hweights : forall u v w, weighted s u v w -> nonneg w = true).

Notation m := (m_adjacency_list g).
Notation E := (weighted s).
Notation W := (wwalk E src).

Definition dist_of (distances : gmap Z double) (v : Z) : double := default d_inf (distances !! v).

(** [done] are the vertices whose edges have been relaxed, [visited] those that
    were extracted. *)
Record sssp_inv (done visited : gset Z) (distances : gmap Z double) (Q : list (Z * double)) : Prop := {
  si_dom : dom distances = spec_vertices s;
  si_src : value (dist_of distances src) = 0;
  si_walk : forall v, dist_of distances v = d_inf \/ W v (dist_of distances v);
  si_queue : forall v d, (v, d) ∈ Q -> v ∈ spec_vertices s /\ W v d /\
    value (dist_of distances v) <= value d < infinity_value;
  si_found : forall v, v ∉ visited -> value (dist_of distances v) < infinity_value ->
    (v, dist_of distances v) ∈ Q;
  si_done : forall u v w, u ∈ done -> E u v w ->
    value (dist_of distances v) <= value (dadd (dist_of distances u) w);
  si_near : forall u v d, u ∈ visited -> (v, d) ∈ Q -> value (dist_of distances u) <= value d;
  si_sub : done ⊆ visited;
}.

Lemma si_nonneg done visited distances Q v :
  sssp_inv done visited distances Q -> nonneg (dist_of distances v) = true.
Proof. intros I. destruct (si_walk _ _ _ _ I v) as [->|Hv]; [done|by apply (wwalk_nonneg E src Hweights v)]. Qed.

(** One edge. *)
Lemma sssp_relax_spec done visited distances Q u d v w :
  sssp_inv done visited distances Q -> W u d -> E u v w ->
  (forall x, x ∈ visited -> value (dist_of distances x) <= value d) ->
  let '(distances', Q') := sssp_relax d (distances, Q) (v, w) in
  sssp_inv done visited distances' Q' /\ (length Q' <= S (length Q))%nat /\
  (forall x, value (dist_of distances' x) <= value (dist_of distances x)) /\
  (forall x, x ∈ visited -> dist_of distances' x = dist_of distances x) /\
  value (dist_of distances' v) <= value (dadd d w).
Proof.
  intros I Hu He Hcur. unfold sssp_relax. cbn [fst snd].
  assert (v ∈ spec_vertices s) as Hv by (apply (data_closed R u v); by exists w).
  assert (is_Some (distances !! v)) as [y Hy] by (apply elem_of_dom; by rewrite (si_dom _ _ _ _ I)).
  rewrite Hy, Hy. change (default d_zero (Some y)) with y. assert (dist_of distances v = y) as Hdv by (unfold dist_of; by rewrite Hy).
  pose proof (si_nonneg _ _ _ _ v I) as Hny. rewrite Hdv in Hny.
  pose proof (wwalk_nonneg E src Hweights u d Hu) as Hnd.
  assert (nonneg (dadd d w) = true) as Hnd' by (apply dadd_nonneg; eauto).
  pose proof (dadd_ge d w Hnd (Hweights _ _ _ He)) as Hge. rewrite dlt_value by done.
  destruct (Z.ltb_spec (value (dadd d w)) (value y)) as [Hlt|Hle].
  2:{ rewrite Hdv. split; [done|]. split; [lia|]. split; [lia|]. by split. }
  assert (forall x, dist_of (<[v := dadd d w]> distances) x = if decide (x = v) then dadd d w else dist_of distances x)
    as Hnew.
  { intros x. unfold dist_of. case_decide as Hx; [by rewrite Hx, lookup_insert_eq|].
    by rewrite lookup_insert_ne. }
  assert (forall x, value (dist_of (<[v := dadd d w]> distances) x) <= value (dist_of distances x)) as Hmono.
  { intros x. rewrite Hnew. case_decide; [subst; lia|done]. }
  assert (forall x, x ∈ visited -> x <> v) as Hvis by (intros x Hx ->; specialize (Hcur v Hx); rewrite Hdv in Hcur; lia).
  pose proof (value_range _ Hny). pose proof (value_range _ Hnd').
  split; [|split_and!; [rewrite length_app; simpl; lia|done| |by rewrite Hnew, decide_True]].
  2:{ intros x Hx. rewrite Hnew, decide_False by auto. done. }
  split.
  - rewrite dom_insert_L, (si_dom _ _ _ _ I). set_solver.
  - rewrite Hnew. case_decide as Hx; [|apply (si_src _ _ _ _ I)].
    pose proof (si_src _ _ _ _ I) as Hz. rewrite Hx, Hdv in Hz. lia.
  - intros x. rewrite Hnew. case_decide as Hx; [subst x; right; by econstructor|apply (si_walk _ _ _ _ I)].
  - intros x dx [Hx|[= -> ->]%list_elem_of_singleton]%elem_of_app.
    + destruct (si_queue _ _ _ _ I x dx Hx) as (? & ? & ?). specialize (Hmono x). split_and!; [done|done|lia..].
    + rewrite Hnew, decide_True by done. split_and!; [done|by econstructor|lia..].
  - intros x Hx Hfin. rewrite Hnew in Hfin |- *. apply elem_of_app. case_decide as Hxv; [subst x; right; by left|].
    left. by apply (si_found _ _ _ _ I).
  - intros a b wab Ha Hab. etrans; [apply Hmono|]. rewrite (Hnew a), decide_False
      by (apply Hvis, (si_sub _ _ _ _ I), Ha).
    by apply (si_done _ _ _ _ I).
  - intros x b db Hx [Hb|[= -> ->]%list_elem_of_singleton]%elem_of_app; rewrite (Hnew x), decide_False by auto.
    + by eapply (si_near _ _ _ _ I).
    + specialize (Hcur x Hx). lia.
  - apply (si_sub _ _ _ _ I).
Qed.

(** The edges of an extracted vertex. *)
Lemma adj_edges_spec done visited u d l : forall distances Q,
  (forall e, e ∈ l -> E u e.1 e.2) ->
  sssp_inv done visited distances Q -> W u d ->
  (forall x, x ∈ visited -> value (dist_of distances x) <= value d) ->
  let '(distances', Q') := foldl (sssp_relax d) (distances, Q) l in
  sssp_inv done visited distances' Q' /\ (length Q' <= length l + length Q)%nat /\
  (forall x, value (dist_of distances' x) <= value (dist_of distances x)) /\
  (forall x, x ∈ visited -> dist_of distances' x = dist_of distances x) /\
  (forall e, e ∈ l -> value (dist_of distances' e.1) <= value (dadd d e.2)).
Proof.
  induction l as [|[v w] l IH]; intros distances Q Hl I Hu Hcur; cbn [foldl].
  { split_and!; try done. by intros e He%elem_of_nil. }
  pose proof (sssp_relax_spec done visited distances Q u d v w I Hu (Hl (v, w) ltac:(by left)) Hcur) as Hstep.
  destruct (sssp_relax d (distances, Q) (v, w)) as [distances1 Q1].
  destruct Hstep as (I1 & Hlen & Hmono & Hsame & Hv).
  specialize (IH distances1 Q1 (fun e He => Hl e ltac:(by right)) I1 Hu).
  destruct (foldl (sssp_relax d) (distances1, Q1) l) as [distances2 Q2].
  destruct IH as (I2 & Hlen2 & Hmono2 & Hsame2 & Hl2).
  { intros x Hx. rewrite Hsame by done. by apply Hcur. }
  split_and!; [done|simpl; lia|intros x; etrans; [apply Hmono2|apply Hmono]|intros x Hx; by rewrite Hsame2, Hsame|].
  intros e [->|He]%elem_of_cons; [|by apply Hl2]. etrans; [apply Hmono2|done].
Qed.

(** The edges of the vertices that have not been visited. *)
Definition pending (visited : gset Z) : nat :=
  sum_list_with (fun p => if decide (p.1 ∈ visited) then 0%nat else length p.2.1) (map_to_list m).

Lemma pending_visit visited u p : m !! u = Some p -> u ∉ visited ->
  pending visited = (length p.1 + pending ({[u]} ∪ visited))%nat.
Proof.
  intros Hp Hu. unfold pending.
  pose proof (map_to_list_delete m u p Hp) as Hperm.
  rewrite <- !(sum_list_with_perm _ _ _ Hperm). cbn [sum_list_with fst snd].
  rewrite decide_False, decide_True by set_solver. rewrite Nat.add_0_l. f_equal.
  apply sum_list_with_ext. intros [v q] Hv. simpl.
  assert (v <> u) as Hvu by (apply elem_of_map_to_list, lookup_delete_Some in Hv; naive_solver).
  destruct (decide (v ∈ visited)); [by rewrite decide_True by set_solver|by rewrite decide_False by set_solver].
Qed.

Lemma pq_pop_perm i (Q : list (Z * double)) e : Q !! i = Some e -> Q ≡ₚ e :: pq_pop i Q.
Proof. intros He. unfold pq_pop. rewrite <- (take_drop_middle _ _ _ He) at 1. by rewrite Permutation_middle. Qed.

Lemma emplace_present u : u ∈ spec_vertices s -> emplace g u = g.
Proof.
  intros Hu. destruct (data_lookup R u Hu) as [p Hp]. unfold emplace. by rewrite Hp.
Qed.

(** Dropping an entry of a visited vertex, and visiting a vertex. *)
Lemma sssp_skip visited distances Q Q' u d : Q ≡ₚ (u, d) :: Q' -> u ∈ visited ->
  sssp_inv visited visited distances Q -> sssp_inv visited visited distances Q'.
Proof.
  intros HQ Hu I. split; try apply I.
  - intros v dv Hv. apply (si_queue _ _ _ _ I). rewrite HQ. by right.
  - intros v Hv Hfin. pose proof (si_found _ _ _ _ I v Hv Hfin) as Hin. rewrite HQ in Hin.
    apply elem_of_cons in Hin as [[= -> _]|?]; done.
  - intros v x dx Hv Hx. apply (si_near _ _ _ _ I v x); [done|]. rewrite HQ. by right.
Qed.

Lemma sssp_visit visited distances Q Q' u d : Q ≡ₚ (u, d) :: Q' -> u ∉ visited ->
  (forall e, e ∈ Q -> value d <= value e.2) ->
  sssp_inv visited visited distances Q ->
  sssp_inv visited ({[u]} ∪ visited) distances Q' /\ W u d /\ value (dist_of distances u) = value d /\
  (forall x, x ∈ {[u]} ∪ visited -> value (dist_of distances x) <= value d).
Proof.
  intros HQ Hu Hleast I.
  assert ((u, d) ∈ Q) as Hin by (rewrite HQ; by left).
  destruct (si_queue _ _ _ _ I u d Hin) as (_ & Hw & Hle & Hfin).
  pose proof (si_found _ _ _ _ I u Hu ltac:(lia)) as Hfound.
  pose proof (Hleast _ Hfound) as Hge. cbn [snd] in Hge.
  split; [|split_and!; [done|lia|]].
  - split; try apply I.
    + intros v dv Hv. apply (si_queue _ _ _ _ I). rewrite HQ. by right.
    + intros v Hv Hvfin. pose proof (si_found _ _ _ _ I v ltac:(set_solver) Hvfin) as Hvin.
      rewrite HQ in Hvin. apply elem_of_cons in Hvin as [[= -> _]|?]; [set_solver|done].
    + intros v x dx [->%elem_of_singleton|Hv]%elem_of_union Hx.
      * etrans; [exact Hle|]. apply (Hleast (x, dx)). rewrite HQ. by right.
      * apply (si_near _ _ _ _ I v x); [done|]. rewrite HQ. by right.
    + pose proof (si_sub _ _ _ _ I). set_solver.
  - intros x [->%elem_of_singleton|Hx]%elem_of_union; [done|]. by apply (si_near _ _ _ _ I x u).
Qed.

Lemma adj_loop_spec fuel : forall visited distances Q k,
  sssp_inv visited visited distances Q -> (length Q + pending visited < fuel)%nat ->
  (sssp_loop g visited distances Q k fuel = Exn TimeoutError /\ has_timeout g = true /\
     exists j, is_timeout j = true) \/
  exists visited' distances', sssp_loop g visited distances Q k fuel = Val (g, distances') /\
    sssp_inv visited' visited' distances' [].
Proof.
  induction fuel as [|fuel IH]; intros visited distances Q k I Hfuel; [lia|].
  destruct Q as [|q Q0] eqn:HQ0; [right; by exists visited, distances|].
  cbn [sssp_loop]. rewrite <- HQ0 in *. unfold CHECK_TIMEOUT.
  destruct (has_timeout g && is_timeout k) eqn:Ht.
  { left. apply andb_true_iff in Ht as [? ?]. eauto. }
  bind_val. destruct (pq_pick_least Q) as ([u d] & Hpick & Hleast); [by subst Q|].
  rewrite Hpick. cbn [require]. bind_val. cbn [fst snd].
  pose proof (pq_pop_perm _ _ _ Hpick) as HQ. set (Q' := pq_pop (pq_pick Q) Q) in *.
  assert (length Q = S (length Q')) as Hlen by (by rewrite HQ).
  case_decide as Hu; [apply IH; [by apply (sssp_skip _ _ _ _ _ _ HQ)|lia]|].
  assert (forall e, e ∈ Q -> value d <= value e.2) as Hd.
  { intros [v dv] He. destruct (si_queue _ _ _ _ I v dv He) as (_ & Hwv & _).
    destruct (si_queue _ _ _ _ I u d) as (_ & Hwu & _); [rewrite HQ; by left|].
    pose proof (proj1 (Forall_forall _ _) Hleast _ He) as Hlt. cbn [snd] in Hlt |- *.
    rewrite dlt_value in Hlt by (by eapply (wwalk_nonneg E src Hweights)).
    by apply Z.ltb_ge in Hlt. }
  destruct (sssp_visit _ _ _ _ _ _ HQ Hu Hd I) as (I' & Hw & Heq & Hnear).
  assert (u ∈ spec_vertices s) as Hus by (eapply (si_queue _ _ _ _ I); rewrite HQ; by left).
  rewrite emplace_present by done. destruct (data_lookup R u Hus) as [p Hp]. rewrite Hp. cbn [default from_option id].
  pose proof (adj_edges_spec visited ({[u]} ∪ visited) u d p.1 distances Q') as Hedges.
  destruct (foldl (sssp_relax d) (distances, Q') p.1) as [distances2 Q2].
  destruct Hedges as (I2 & Hlen2 & _ & Hsame & Hrel); [|done..|].
  { intros [v w] Hv. unfold weighted. cbn [fst snd]. rewrite <- (data_find_out R u v p Hp).
    by apply find_edge_Some; [apply (ad_unique _ _ R u p Hp)|]. }
  rewrite (pending_visit visited u p Hp Hu) in Hfuel.
  apply IH; [|lia]. split; try apply I2; [|done].
  intros a b w [->%elem_of_singleton|Ha]%elem_of_union Hab; [|by apply (si_done _ _ _ _ I2)].
  assert ((b, w) ∈ p.1) as Hin.
  { apply find_edge_Some; [apply (ad_unique _ _ R u p Hp)|]. by rewrite (data_find_out R u b p Hp). }
  etrans; [apply (Hrel _ Hin)|]. cbn [snd]. rewrite Hsame by set_solver.
  apply dadd_mono; [by eapply (wwalk_nonneg E src Hweights)|by eapply si_nonneg|by eapply Hweights|lia].
Qed.
End sssp.

(** The visit of the source inserts it into the graph if it is missing. *)
Lemma emplace_emplace `{UnorderedMap} g v : emplace (emplace g v) v = emplace g v.
Proof.
  unfold emplace at 2. destruct (m_adjacency_list g !! v) eqn:Hv; unfold emplace; rewrite ?Hv; [done|].
  cbn [m_adjacency_list set_list set_bucket_count]. by rewrite lookup_insert_eq.
Qed.

Lemma emplace_list `{UnorderedMap} g v :
  m_adjacency_list (emplace g v) =
  match m_adjacency_list g !! v with
  | Some _ => m_adjacency_list g
  | None => <[v := ([], [])]> (m_adjacency_list g)
  end.
Proof. unfold emplace. by destruct (m_adjacency_list g !! v). Qed.

Lemma emplace_timeout `{UnorderedMap} g v : has_timeout (emplace g v) = has_timeout g.
Proof. unfold has_timeout, emplace. by destruct (m_adjacency_list g !! v). Qed.

Lemma sssp_loop_emplace `{UnorderedMap, PriorityOrder, Timer} g v d visited distances k fuel :
  v ∉ visited ->
  sssp_loop g visited distances [(v, d)] k (S fuel) =
  sssp_loop (emplace g v) visited distances [(v, d)] k (S fuel).
Proof.
  intros Hv. cbn [sssp_loop].
  assert (CHECK_TIMEOUT (emplace g v) k = CHECK_TIMEOUT g k) as ->.
  { unfold CHECK_TIMEOUT. by rewrite emplace_timeout. }
  destruct (CHECK_TIMEOUT g k); [|done..]. bind_val.
  destruct (pq_pick_least [(v, d)] ltac:(done)) as (e & He & _). rewrite He. cbn [require]. bind_val.
  apply list_elem_of_lookup_2, list_elem_of_singleton in He as ->. cbn [fst].
  rewrite !decide_False by done. by rewrite emplace_emplace.
Qed.

Lemma initial_distances (l : list (Z * EdgePair)) : forall (distances : gmap Z double) v,
  foldl (fun distances (v : Z * EdgePair) => <[v.1 := d_inf]> distances) distances l !! v =
  if decide (v ∈ l.*1) then Some d_inf else distances !! v.
Proof.
  induction l as [|[x p] l IH]; intros distances v; cbn [foldl fmap list_fmap]; [by rewrite decide_False by (by intros ?%elem_of_nil)|].
  rewrite IH. cbn [fst]. destruct (decide (v ∈ l.*1)); [by rewrite decide_True by (by right)|].
  destruct (decide (x = v)) as [->|Hne].
  - by rewrite lookup_insert_eq, decide_True by left.
  - rewrite lookup_insert_ne, decide_False by (done || by intros [?|?]%elem_of_cons; congruence). done.
Qed.

Lemma sssp_fuel_emplace `{UnorderedMap} g v :
  sssp_fuel g = (2 + pending (g := emplace g v) ∅)%nat.
Proof.
  unfold sssp_fuel, pending. rewrite emplace_list. apply (f_equal (Nat.add 2)).
  assert (forall m : gmap Z EdgePair, sum_list_with (fun p => length p.2.1) (map_to_list m) =
    sum_list_with (fun p => if decide (p.1 ∈ (∅ : gset Z)) then 0%nat else length p.2.1) (map_to_list m)) as Hempty.
  { intros m. apply sum_list_with_ext. intros p _. by rewrite decide_False by set_solver. }
  etrans; [|apply Hempty]. destruct (m_adjacency_list g !! v) eqn:Hv; [done|].
  by rewrite (sum_list_with_perm _ _ _ (map_to_list_insert _ _ _ Hv)).
Qed.

(** C16: SSSP ends and, unless the time is over, writes for every vertex once the
    least sum, in double arithmetic along the walk, of the weights of a walk
    from the source, or infinity when there is none; which of several nearest
    entries the queue delivers and the order of the hash table do not matter. A
    source that is not a vertex becomes one. *)
Theorem adj_sssp_correct `{UnorderedMap, PriorityOrder, HashOrder, Timer} g s src
  (R : adj_repr g s) (Hweights : forall u v w, weighted s u v w -> nonneg w = true) :
  (sssp g src = Exn TimeoutError /\ has_timeout g = true /\ exists k, is_timeout k = true) \/
  exists lines g', sssp g src = Val (lines, g') /\ adj_repr g' (spec_add_vertex s src) /\
    lines.*1 ≡ₚ elements (spec_vertices (spec_add_vertex s src)) /\
    forall v x, (v, x) ∈ lines -> shortest (weighted s) src v x.
Proof.
  destruct R as [R Hheld]. set (s' := spec_add_vertex s src).
  set (g' := emplace g src).
  assert (adj_data g' s') as R' by (by apply emplace_data).
  assert (src ∈ spec_vertices s') as Hsrc by (unfold s'; simpl; set_solver).
  unfold sssp. set (distances0 := foldl _ _ _).
  set (distances := <[src := d_zero]> distances0).
  assert (forall v, distances !! v = if decide (v = src) then Some d_zero
    else if decide (v ∈ spec_vertices s') then Some d_inf else None) as Hd.
  { intros v. unfold distances, distances0. case_decide as Hv; [by rewrite Hv, lookup_insert_eq|].
    rewrite lookup_insert_ne, initial_distances, lookup_empty by done.
    assert (v ∈ (hash_iter (m_adjacency_list g)).*1 <-> v ∈ spec_vertices s') as Hiff.
    { rewrite elem_of_hash_keys, (data_vertex R). unfold s'. simpl. set_solver. }
    by repeat case_decide; naive_solver. }
  assert (sssp_inv (s := s') src ∅ ∅ distances [(src, d_zero)]) as I.
  { assert (forall v, v <> src -> dist_of distances v = d_inf) as Hother.
    { intros v Hv. unfold dist_of. rewrite Hd, decide_False by done. by case_decide. }
    assert (dist_of distances src = d_zero) as Hzero by (unfold dist_of; by rewrite Hd, decide_True).
    split; try set_solver.
    - apply set_eq. intros v. rewrite elem_of_dom, Hd. repeat case_decide; try done; [by subst|naive_solver..].
    - by rewrite Hzero.
    - intros v. destruct (decide (v = src)) as [->|Hv]; [right; rewrite Hzero; constructor|left; auto].
    - intros v x [= -> ->]%list_elem_of_singleton. rewrite Hzero. split_and!; [done|constructor|done|done].
    - intros v _ Hv. destruct (decide (v = src)) as [->|Hne]; [rewrite Hzero; by left|].
      by rewrite Hother in Hv. }
  rewrite (sssp_fuel_emplace g src). fold g'. change (2 + ?n)%nat with (S (S n)). rewrite sssp_loop_emplace by set_solver. fold g'.
  destruct (adj_loop_spec R' src Hweights (S (S (pending (g := g') ∅))) ∅ distances [(src, d_zero)] 0 I)
    as [(-> & Ht & Hk)|(visited & distances' & -> & I')]; [simpl; lia|left|right].
  { split; [done|]. split; [|done]. rewrite <- Ht. symmetry. apply emplace_timeout. }
  bind_val. eexists _, g'. split; [done|].
  split; [split; [done|unfold g'; by rewrite (proj1 (emplace_fields g src))]|]. split.
  - apply NoDup_Permutation; [apply NoDup_hash_iter|apply NoDup_elements|]. intros v.
    by rewrite elem_of_hash_keys, elem_of_elements, <- (si_dom _ _ _ _ _ I'), elem_of_dom.
  - intros v x Hvx. apply elem_of_hash_iter in Hvx.
    assert (x = dist_of distances' v) as -> by (unfold dist_of; by rewrite Hvx).
    apply relaxed_shortest; [done|apply (si_walk _ _ _ _ _ I')|apply (si_src _ _ _ _ _ I')|].
    intros a b w Hab. destruct (decide (a ∈ visited)) as [Ha|Ha]; [by apply (si_done _ _ _ _ _ I')|].
    pose proof (value_range _ (si_nonneg (s := s') src Hweights _ _ _ _ b I')).
    pose proof (dadd_ge _ w (si_nonneg (s := s') src Hweights _ _ _ _ a I') (Hweights _ _ _ Hab)).
    destruct (Z.lt_ge_cases (value (dist_of distances' a)) infinity_value) as [Hlt|Hge]; [|lia].
    pose proof (si_found _ _ _ _ _ I' a Ha Hlt) as Hin. by apply elem_of_nil in Hin.
Qed.

(** ** Examples *)

(** The first of the least entries. *)
Definition least (q : list (Z * double)) (e : Z * double) : Prop :=
  Forall (fun e' => dlt e'.2 e.2 = false) q.

Lemma least_exists q : q <> [] -> exists e, e ∈ q /\ least q e.
Proof.
  induction q as [|a q IH]; intros Hq; [done|]. destruct q as [|b q].
  { exists a. split; [by left|]. constructor; [apply dlt_irrefl|constructor]. }
  destruct (IH ltac:(done)) as (e & He & Hleast). destruct (dlt a.2 e.2) eqn:Hae.
  - exists a. split; [by left|]. constructor; [apply dlt_irrefl|]. eapply Forall_impl; [exact Hleast|].
    intros x Hx. apply not_true_iff_false. intros Hxa. cbn beta in Hx. by rewrite (dlt_trans _ _ _ Hxa Hae) in Hx.
  - exists e. split; [by right|]. by constructor.
Qed.

Program Definition first_least : PriorityOrder := {|
  pq_pick := fun q => default 0%nat (fst <$> list_find (least q) q);
|}.
Next Obligation.
  intros q Hq. destruct (least_exists q Hq) as (e & He & Hleast).
  destruct (list_find_elem_of (least q) q e He Hleast) as [[i e'] Hi]. rewrite Hi. simpl.
  apply list_find_Some in Hi as (Hi & ? & _). by exists e'.
Qed.

Example ex_sssp :
  @sssp stable_table first_least map_order no_timeout (ex_graph true) 10 =
    Val ([(30, double_of_Z 2); (10, d_zero); (20, d_one); (40, d_inf)], ex_graph true).
Proof. by vm_compute. Qed.

Lemma adj_sssp_correct_witness :
  shortest (weighted (ex_spec true)) 10 30 (double_of_Z 2).
Proof.
  destruct (@adj_sssp_correct stable_table first_least map_order no_timeout (ex_graph true) (ex_spec true) 10 (ex_repr true))
    as [(_ & _ & k & Hk)|(lines & g' & Hres & _ & _ & Hlines)].
  - intros u v w Hw. apply elem_of_map_to_list in Hw. revert u v w Hw.
    assert (Forall (fun p : Z * Z * double => nonneg p.2 = true) (map_to_list (spec_arcs (ex_spec true)))) as Hall
      by (apply (bool_decide_unpack _); by vm_compute).
    intros u v w Hw. by apply (proj1 (Forall_forall _ _) Hall (u, v, w)).
  - done.
  - rewrite ex_sssp in Hres. injection Hres as <- _. apply Hlines. by left.
Defined.
