(* ===== verification/Interface.v ===== *)
(** [library/interface]: what an implementation of [UpdateInterface] promises,
    the functions that the interface itself provides in terms of its
    operations, [load] and [batch], and [library/baseline/dummy]. *)

From S2P Require Import Prelude Gapbs Edge AdjList.

(** ** The operations

    The last argument bounds the loops of the implementation, such as the
    repetition of a transaction. *)

Class UpdateInterface := {
  Impl : Type;
  is_directed : Impl -> bool;
  add_vertex : Impl -> Z -> nat -> res (bool * Impl);
  remove_vertex : Impl -> Z -> nat -> res (bool * Impl);
  add_edge : Impl -> WeightedEdge -> nat -> res (bool * Impl);
  add_edge_v2 : Impl -> WeightedEdge -> nat -> res (bool * Impl);
  remove_edge : Impl -> Edge -> nat -> res (bool * Impl);
}.

Definition call `{UpdateInterface} (d : Impl) (u : Update) (fuel : nat) : res (bool * Impl) :=
  match u with
  | UAddVertex v => add_vertex d v fuel
  | URemoveVertex v => remove_vertex d v fuel
  | UAddEdge e => add_edge d e fuel
  | UAddEdgeV2 e => add_edge_v2 d e fuel
  | URemoveEdge e => remove_edge d e fuel
  end.

Fixpoint run `{UpdateInterface} (d : Impl) (us : list Update) (fuel : nat) :
    res (list bool * Impl) :=
  match us with
  | [] => Val ([], d)
  | u :: us =>
    '(o, d) ← call d u fuel;
    '(os, d) ← run d us fuel;
    Val (o :: os, d)
  end.

(** ** The contract

    The answer and the effect that the comments of the interface give to each
    operation. *)

Definition contract (s : Spec) (u : Update) : bool * Spec :=
  match u with
  | UAddVertex v => (negb (bool_decide (v ∈ spec_vertices s)), spec_add_vertex s v)
  | URemoveVertex v => (bool_decide (v ∈ spec_vertices s), spec_remove_vertex s v)
  | UAddEdge e =>
    if bool_decide (wsource e ∈ spec_vertices s /\ wdestination e ∈ spec_vertices s /\
                    spec_arcs s !! (wsource e, wdestination e) = None)
    then (true, spec_add_edge s (wsource e) (wdestination e) (m_weight e))
    else (false, s)
  | UAddEdgeV2 e =>
    let s' := spec_add_vertex (spec_add_vertex s (wsource e)) (wdestination e) in
    if bool_decide (spec_arcs s !! (wsource e, wdestination e) = None)
    then (true, spec_add_edge s' (wsource e) (wdestination e) (m_weight e))
    else (false, s')
  | URemoveEdge e =>
    if bool_decide (is_Some (spec_arcs s !! (source e, destination e)))
    then (true, spec_remove_edge s (source e) (destination e))
    else (false, s)
  end.

Fixpoint contract_run (s : Spec) (us : list Update) : list bool * Spec :=
  match us with
  | [] => ([], s)
  | u :: us =>
    let (o, s) := contract s u in
    let (os, s) := contract_run s us in
    (o :: os, s)
  end.

(** The counters have room for [n] more updates. *)
Definition room (s : Spec) (n : nat) : Prop :=
  Z.of_nat (size (spec_vertices s)) + 2 * Z.of_nat n < 2 ^ 64 /\
  Z.of_nat (size (spec_arcs s)) + 2 * Z.of_nat n < 2 ^ 64.

(** An implementation meets the contract on the updates that it [admits]. With
    enough fuel the outcome does not depend on it. *)
Class UpdateContract `{UpdateInterface} := {
  represents : Impl -> Spec -> Prop;
  admits : Spec -> Update -> Prop;
  represents_directed : forall d s, represents d s -> is_directed d = spec_directed s;
  meets_contract : forall d s u, represents d s -> admits s u -> room s 1 ->
    exists d' N, (forall fuel, (N <= fuel)%nat -> call d u fuel = Val ((contract s u).1, d')) /\
      represents d' (contract s u).2;
}.

(** Among the admitted updates are those that [load] makes of new edges. *)
Class LoadContract `{UpdateContract} := {
  admits_vertex : forall s v, admits s (UAddVertex v);
  admits_edge : forall s e, wsource e <> wdestination e ->
    wsource e ∈ spec_vertices s -> wdestination e ∈ spec_vertices s ->
    spec_arcs s !! (wsource e, wdestination e) = None -> admits s (UAddEdge e);
}.

Fixpoint admitted `{UpdateContract} (s : Spec) (us : list Update) : Prop :=
  match us with
  | [] => True
  | u :: us => admits s u /\ admitted (contract s u).2 us
  end.

(** ** The default implementations *)

Section defaults.
Context `{UpdateInterface}.

Definition is_undirected (d : Impl) : bool := negb (is_directed d).

(** [has_edge], from the weight that the implementation answers. *)
Definition has_edge (get_weight : Z -> Z -> double) (source destination : Z) : bool :=
  negb (disnan (get_weight source destination)).

(** [load], from the edges that the reader delivers. *)
Fixpoint load_loop (d : Impl) (edges : list WeightedEdge) (fuel : nat) : res Impl :=
  match edges with
  | [] => Val d
  | edge :: edges =>
    '(_, d) ← add_vertex d (wsource edge) fuel;
    '(_, d) ← add_vertex d (wdestination edge) fuel;
    '(_, d) ← add_edge d edge fuel;
    load_loop d edges fuel
  end.

Definition load (d : Impl) (reader_is_directed : bool) (edges : list WeightedEdge) (fuel : nat) :
    res Impl :=
  if Bool.eqb reader_is_directed (is_directed d) then load_loop d edges fuel else Undef.

(** [SingleUpdate]: a negative weight is a removal. *)
Record SingleUpdate := mkSingleUpdate {
  su_source : Z;
  su_destination : Z;
  su_weight : double;
}.

Definition su_call (d : Impl) (a : SingleUpdate) (fuel : nat) : res (bool * Impl) :=
  if dle d_zero (su_weight a) then
    edge ← WeightedEdge_new (su_source a) (su_destination a) (su_weight a);
    add_edge d edge fuel
  else remove_edge d (mkEdge (su_source a) (su_destination a)) fuel.

(** [batch_try_again]: the action is repeated until it succeeds or the clock
    says that ten minutes have passed. *)
Fixpoint batch_try_again `{Timer} (action : Impl -> res (bool * Impl)) (d : Impl) (k tries : nat) :
    res Impl :=
  match tries with
  | O => NoFuel
  | S tries =>
    '(result, d) ← action d;
    if result : bool then Val d
    else if is_timeout k then Exn TimeoutError
    else batch_try_again action d (S k) tries
  end.

Fixpoint batch_force `{Timer} (d : Impl) (A : list SingleUpdate) (fuel : nat) : res Impl :=
  match A with
  | [] => Val d
  | a :: A =>
    '(result, d) ← su_call d a fuel;
    d ← (if result : bool then Val d else batch_try_again (fun d => su_call d a fuel) d 0 fuel);
    batch_force d A fuel
  end.

Fixpoint batch_lenient (d : Impl) (A : list SingleUpdate) (result : bool) (fuel : nat) :
    res (bool * Impl) :=
  match A with
  | [] => Val (result, d)
  | a :: A =>
    '(r, d) ← su_call d a fuel;
    batch_lenient d A (result && r) fuel
  end.

Definition batch `{Timer} (d : Impl) (A : list SingleUpdate) (force : bool) (fuel : nat) :
    res (bool * Impl) :=
  if force then
    d ← batch_force d A fuel;
    Val (true, d)
  else batch_lenient d A true fuel.
End defaults.

(** ** The dummy implementation *)

Module Dummy.
Definition Dummy_new (is_directed : bool) : bool := is_directed.

#[local] Instance interface : UpdateInterface := {
  Impl := bool;
  is_directed := fun m_is_directed => m_is_directed;
  add_vertex := fun d _ _ => Val (true, d);
  remove_vertex := fun d _ _ => Val (true, d);
  add_edge := fun d _ _ => Val (true, d);
  add_edge_v2 := fun d _ _ => Val (true, d);
  remove_edge := fun d _ _ => Val (true, d);
}.

Definition num_edges (d : bool) : Z := 0.
Definition num_vertices (d : bool) : Z := 0.
Definition has_vertex (d : bool) (vertex_id : Z) : bool := true.
Definition get_weight (d : bool) (source destination : Z) : double := d_zero.
Definition set_timeout (d : bool) (seconds : Z) : bool := d.
End Dummy.

(** ** Sequences of calls *)

Lemma size_add_le (x : Z) (X : gset Z) : (size ({[x]} ∪ X) <= S (size X))%nat.
Proof.
  destruct (decide (x ∈ X)).
  - replace ({[x]} ∪ X) with X by set_solver. lia.
  - rewrite size_union by set_solver. rewrite size_singleton. lia.
Qed.

Lemma size_insert_le {V} (m : gmap (Z * Z) V) k v : (size (<[k := v]> m) <= S (size m))%nat.
Proof. rewrite map_size_insert. by destruct (m !! k); simpl; lia. Qed.

Lemma size_delete_le {V} (m : gmap (Z * Z) V) k : (size (delete k m) <= size m)%nat.
Proof. rewrite map_size_delete. destruct (m !! k); simpl; lia. Qed.

Lemma contract_size s u :
  (size (spec_vertices (contract s u).2) <= size (spec_vertices s) + 2)%nat /\
  (size (spec_arcs (contract s u).2) <= size (spec_arcs s) + 2)%nat.
Proof.
  assert (forall x w, (size (spec_arcs (spec_add_edge s x.1 x.2 w)) <= size (spec_arcs s) + 2)%nat) as Hadd.
  { intros [x y] w. unfold spec_add_edge. simpl. pose proof (size_insert_le (spec_arcs s) (x, y) w).
    pose proof (size_insert_le (<[(x, y) := w]> (spec_arcs s)) (y, x) w).
    destruct (spec_directed s); lia. }
  destruct u as [v|v|e|e|e]; simpl.
  - pose proof (size_add_le v (spec_vertices s)). lia.
  - pose proof (subseteq_size (spec_vertices s ∖ {[v]}) (spec_vertices s) ltac:(set_solver)). lia.
  - case_bool_decide; cbn [snd]; [|lia]. specialize (Hadd (wsource e, wdestination e) (m_weight e)).
    simpl in *. lia.
  - pose proof (size_add_le (wsource e) (spec_vertices s)).
    pose proof (size_add_le (wdestination e) ({[wsource e]} ∪ spec_vertices s)).
    specialize (Hadd (wsource e, wdestination e) (m_weight e)).
    case_bool_decide; simpl in *; lia.
  - case_bool_decide; cbn [snd]; [|lia]. unfold spec_remove_edge. simpl.
    pose proof (size_delete_le (spec_arcs s) (source e, destination e)).
    pose proof (size_delete_le (delete (source e, destination e) (spec_arcs s)) (destination e, source e)).
    destruct (spec_directed s); lia.
Qed.

Lemma room_step s u n : room s (S n) -> room s 1 /\ room (contract s u).2 n.
Proof. unfold room. pose proof (contract_size s u). lia. Qed.

Lemma room_new directed n : 2 * Z.of_nat n < 2 ^ 64 -> room (spec_new directed) n.
Proof.
  intros Hn. unfold room. cbn [spec_vertices spec_arcs spec_new].
  rewrite (size_empty (C := gset Z)), (map_size_empty (M := gmap (Z * Z)) (A := double)). lia.
Qed.

Section contract.
Context `{UpdateContract}.

Lemma call_settles d s u : represents d s -> admits s u -> room s 1 ->
  exists d', settles (call d u) (Val ((contract s u).1, d')) /\ represents d' (contract s u).2.
Proof.
  intros R Hu Hroom. destruct (meets_contract d s u R Hu Hroom) as (d' & N & Hcall & R').
  exists d'. split; [by exists N|done].
Qed.

Lemma run_settles us : forall d s, represents d s -> admitted s us -> room s (length us) ->
  exists d', settles (run d us) (Val ((contract_run s us).1, d')) /\
    represents d' (contract_run s us).2.
Proof.
  induction us as [|u us IH]; intros d s R Hadm Hroom; simpl.
  { exists d. split; [apply settles_val|done]. }
  destruct Hadm as [Hu Hus]. destruct (room_step s u (length us) Hroom) as [Hr1 Hr2].
  destruct (call_settles d s u R Hu Hr1) as (d1 & Hcall & R1).
  destruct (contract s u) as [o s1]. cbn [fst snd] in *.
  destruct (IH d1 s1 R1 Hus Hr2) as (d2 & Hrun & R2).
  destruct (contract_run s1 us) as [os s2]. cbn [fst snd] in *. exists d2. split; [|done].
  eapply settles_bind; [exact Hcall|]. cbv beta iota. eapply settles_bind; [exact Hrun|]. apply settles_val.
Qed.

(** A run that returned returned what longer runs settle on. *)
Lemma run_stable us : (forall d u, fuel_stable (call d u)) -> forall d, fuel_stable (run d us).
Proof.
  intros Hcall. induction us as [|u us IH]; intros d fuel fuel' a Ha Hle; [done|]. cbn [run] in *.
  apply res_bind_val in Ha as ([o d1] & Ho & Ha). rewrite (Hcall _ _ _ _ _ Ho Hle). bind_step.
  apply res_bind_val in Ha as ([os d2] & Hos & Ha). by rewrite (IH _ _ _ _ Hos Hle).
Qed.

Lemma settles_agree {A} (f : nat -> res A) r fuel a :
  fuel_stable f -> settles f r -> f fuel = Val a -> r = Val a.
Proof.
  intros Hf [N HN] Ha. rewrite <- (HN (N `max` fuel)%nat) by lia. by apply (Hf _ _ _ Ha); lia.
Qed.

(** ** Batches *)

Definition su_update (a : SingleUpdate) : Update :=
  if dle d_zero (su_weight a)
  then UAddEdge (mkWeightedEdge (mkEdge (su_source a) (su_destination a)) (su_weight a))
  else URemoveEdge (mkEdge (su_source a) (su_destination a)).

Lemma su_call_call d a fuel : su_call d a fuel = call d (su_update a) fuel.
Proof. unfold su_call, su_update, WeightedEdge_new. by destruct (dle d_zero (su_weight a)). Qed.

Lemma batch_lenient_run A : forall d r fuel,
  batch_lenient d A r fuel = '(os, d) ← run d (su_update <$> A) fuel; Val (r && forallb id os, d).
Proof.
  induction A as [|a A IH]; intros d r fuel; simpl; [by rewrite andb_true_r|].
  rewrite su_call_call. destruct (call d (su_update a) fuel) as [[o d1]| | |]; [|done..]. bind_step.
  rewrite IH. destruct (run d1 _ fuel) as [[os d2]| | |]; [|done..]. do 2 bind_step. cbn [forallb id].
  by rewrite andb_assoc.
Qed.

(** A removal or an insertion that is refused changes nothing. *)
Lemma su_refused s a : (contract s (su_update a)).1 = false -> (contract s (su_update a)).2 = s.
Proof. unfold su_update. destruct (dle _ _); simpl; by case_bool_decide. Qed.

Lemma try_again_settles `{Timer} a s d : represents d s -> admits s (su_update a) -> room s 1 ->
  (contract s (su_update a)).1 = false -> (exists k, is_timeout k = true) ->
  settles (fun fuel => batch_try_again (fun d => su_call d a fuel) d 0 fuel) (Exn TimeoutError).
Proof.
  intros R Hadm Hroom Hno [K HK]. revert d R.
  assert (forall n d k, represents d s -> is_timeout (k + n) = true ->
    exists N, forall fuel, (N <= fuel)%nat -> forall tries, (n < tries)%nat ->
      batch_try_again (fun d => su_call d a fuel) d k tries = Exn TimeoutError) as Hgen.
  { induction n as [|n IH]; intros d k R Hexp.
    all: destruct (meets_contract d s (su_update a) R Hadm Hroom) as (d' & N & Hcall & R').
    all: rewrite Hno in Hcall; rewrite (su_refused s a Hno) in R'.
    - exists N. intros fuel Hf tries Ht. destruct tries as [|tries]; [lia|]. simpl.
      rewrite su_call_call, Hcall by done. bind_step. rewrite Nat.add_0_r in Hexp. by rewrite Hexp.
    - destruct (IH d' (S k) R') as [N' HN']; [by replace (S k + n)%nat with (k + S n)%nat by lia|].
      exists (N `max` N')%nat. intros fuel Hf tries Ht. destruct tries as [|tries]; [lia|]. simpl.
      rewrite su_call_call, Hcall by lia. bind_step. destruct (is_timeout k); [done|]. apply HN'; lia. }
  intros d R. destruct (Hgen K d 0%nat R HK) as [N HN]. exists (N `max` S K)%nat. intros fuel Hf.
  apply HN; lia.
Qed.

Lemma batch_force_settles `{Timer} A : forall d s,
  represents d s -> admitted s (su_update <$> A) -> room s (length A) ->
  (exists k, is_timeout k = true) ->
  if forallb id (contract_run s (su_update <$> A)).1
  then exists d', settles (batch_force d A) (Val d') /\
         represents d' (contract_run s (su_update <$> A)).2
  else settles (batch_force d A) (Exn TimeoutError).
Proof.
  induction A as [|a A IH]; intros d s R Hadm Hroom Hclock.
  { exists d. split; [apply settles_val|done]. }
  rewrite fmap_cons in *. destruct Hadm as [Ha HA]. destruct (room_step s (su_update a) (length A) Hroom) as [Hr1 Hr2].
  destruct (call_settles d s (su_update a) R Ha Hr1) as (d1 & Hcall & R1).
  pose proof (su_refused s a) as Hrefused.
  pose proof (try_again_settles a s) as Htry.
  assert (forall r, settles (call d (su_update a)) r -> settles (su_call d a) r) as Hsu
    by (intros r; apply settles_ext; intros fuel; apply su_call_call).
  apply Hsu in Hcall. clear Hsu.
  cbn [contract_run]. destruct (contract s (su_update a)) as [o s1]. cbn [fst snd] in *.
  specialize (IH d1 s1 R1 HA Hr2 Hclock).
  destruct (contract_run s1 (su_update <$> A)) as [os s2]. cbn [fst snd] in *.
  destruct o; cbn [forallb id andb].
  - destruct (forallb id os).
    + destruct IH as (d2 & Hb & R2). exists d2. split; [|done].
      eapply settles_bind; [exact Hcall|]. exact Hb.
    + eapply settles_bind; [exact Hcall|]. exact IH.
  - rewrite Hrefused in R1 by done. eapply settles_bind; [exact Hcall|]. cbv beta iota.
    apply settles_exn. by apply Htry.
Qed.
End contract.

(** ** Loading *)

(** The graph of a list of edges. *)
Record graph_of_edges (edges : list WeightedEdge) (s : Spec) : Prop := {
  ge_vertices : forall x, x ∈ spec_vertices s <->
    exists e, e ∈ edges /\ (x = wsource e \/ x = wdestination e);
  ge_arcs : forall x y w, spec_arcs s !! (x, y) = Some w <->
    exists e, e ∈ edges /\ m_weight e = w /\
      ((x, y) = (wsource e, wdestination e) \/
       spec_directed s = false /\ (x, y) = (wdestination e, wsource e));
}.

(** No edge is a loop or repeated; in an undirected graph, an edge is the same
    as its reverse. *)
Definition simple_edges (directed : bool) (edges : list WeightedEdge) : Prop :=
  NoDup ((fun e => (wsource e, wdestination e)) <$> edges) /\
  (forall e, e ∈ edges -> wsource e <> wdestination e) /\
  (directed = false -> forall e e', e ∈ edges -> e' ∈ edges ->
     (wsource e, wdestination e) <> (wdestination e', wsource e')).

(** What [load] does for one edge. *)
Definition load_updates (e : WeightedEdge) : list Update :=
  [UAddVertex (wsource e); UAddVertex (wdestination e); UAddEdge e].

Lemma new_edge_missing edges e s :
  graph_of_edges edges s -> simple_edges (spec_directed s) (edges ++ [e]) ->
  spec_arcs s !! (wsource e, wdestination e) = None /\
  (spec_directed s = false -> spec_arcs s !! (wdestination e, wsource e) = None).
Proof.
  intros G (Hdup & Hloop & Hrev). rewrite fmap_app in Hdup. apply NoDup_app in Hdup as (_ & Hdup & _).
  split; [|intros Hd]; apply eq_None_ne_Some; intros w Hw;
    apply (ge_arcs _ _ G) in Hw as (e' & He' & _ & [Heq|[Hd' Heq]]).
  - eapply Hdup; [apply list_elem_of_fmap_2, He'|]. rewrite <- Heq. apply list_elem_of_singleton. done.
  - by apply (Hrev Hd' e e'); [set_solver..|].
  - apply (Hrev Hd e' e); [set_solver..|]. by rewrite <- Heq.
  - eapply Hdup; [apply list_elem_of_fmap_2, He'|]. apply list_elem_of_singleton. congruence.
Qed.

Lemma contract_load_edge edges e s :
  graph_of_edges edges s -> simple_edges (spec_directed s) (edges ++ [e]) ->
  let s' := spec_add_vertex (spec_add_vertex s (wsource e)) (wdestination e) in
  (contract s' (UAddEdge e)) = (true, spec_add_edge s' (wsource e) (wdestination e) (m_weight e)) /\
  graph_of_edges (edges ++ [e]) (spec_add_edge s' (wsource e) (wdestination e) (m_weight e)).
Proof.
  intros G Hs s'. destruct (new_edge_missing _ _ _ G Hs) as [Hnone Hnone'].
  destruct Hs as (_ & Hloop & _). specialize (Hloop e ltac:(set_solver)).
  set (x := wsource e) in *. set (y := wdestination e) in *. split.
  { cbn [contract]. rewrite bool_decide_true; [done|]. fold x y. simpl. set_solver. }
  assert (forall e', e' ∈ edges ++ [e] <-> e' ∈ edges \/ e' = e) as Hin by set_solver.
  split.
  - intros z. simpl. rewrite !elem_of_union, !elem_of_singleton, (ge_vertices _ _ G). split.
    + intros [->|[->|(e' & He' & Hz)]]; [exists e|exists e|exists e']; rewrite Hin; auto.
    + intros (e' & He' & Hz). rewrite Hin in He'. destruct He' as [He' | ->]; [|tauto].
      right. right. by exists e'.
  - intros z z' w.
    assert (spec_arcs (spec_add_edge s' x y (m_weight e)) !! (z, z') =
      if decide ((z, z') = (x, y) \/ spec_directed s = false /\ (z, z') = (y, x))
      then Some (m_weight e) else spec_arcs s !! (z, z')) as ->.
    { rewrite (spec_add_updated s' x y (m_weight e) Hloop). simpl. repeat case_decide; naive_solver. }
    change (spec_directed (spec_add_edge s' x y (m_weight e))) with (spec_directed s).
    destruct (decide _) as [Hnew|Hold].
    + split; [intros [= <-]; exists e; rewrite Hin; fold x y; tauto|].
      intros (e' & He' & <- & Hz). rewrite Hin in He'. destruct He' as [He' | ->]; [|done]. exfalso.
      assert (spec_arcs s !! (z, z') = Some (m_weight e')) as Hw
        by (apply (ge_arcs _ _ G); by exists e').
      destruct Hnew as [Hz1|[Hd Hz1]]; rewrite Hz1 in Hw; [congruence|]. by rewrite Hnone' in Hw.
    + rewrite (ge_arcs _ _ G). split.
      * intros (e' & He' & Hz). exists e'. rewrite Hin. tauto.
      * intros (e' & He' & Hw & Hz). rewrite Hin in He'. destruct He' as [He' | ->]; [by exists e'|].
        exfalso. apply Hold. fold x y in Hz. tauto.
Qed.

Lemma simple_edges_app directed edges1 edges2 :
  simple_edges directed (edges1 ++ edges2) -> simple_edges directed edges1.
Proof.
  intros (Hdup & Hloop & Hrev). rewrite fmap_app in Hdup. apply NoDup_app in Hdup as (? & _ & _).
  split; [done|]. split; [set_solver|]. intros Hd e e' He He'. apply (Hrev Hd); set_solver.
Qed.

Section load.
Context `{LoadContract}.

Lemma load_loop_run edges : forall d fuel,
  load_loop d edges fuel = '(_, d) ← run d (flat_map load_updates edges) fuel; Val d.
Proof.
  induction edges as [|e edges IH]; intros d fuel; simpl; [done|].
  destruct (add_vertex d _ fuel) as [[o1 d1]| | |]; [|done..]. do 2 bind_step.
  destruct (add_vertex d1 _ fuel) as [[o2 d2]| | |]; [|done..]. do 2 bind_step.
  destruct (add_edge d2 e fuel) as [[o3 d3]| | |]; [|done..]. do 2 bind_step.
  rewrite IH. by destruct (run d3 _ fuel) as [[os d4]| | |].
Qed.

Lemma load_admitted todo : forall done s,
  graph_of_edges done s -> simple_edges (spec_directed s) (done ++ todo) ->
  let us := flat_map load_updates todo in
  admitted s us /\ graph_of_edges (done ++ todo) (contract_run s us).2 /\
  spec_directed (contract_run s us).2 = spec_directed s.
Proof.
  induction todo as [|e todo IH]; intros done s G Hs; simpl; [by rewrite app_nil_r|].
  pose proof Hs as Hs1. rewrite cons_middle, app_assoc in Hs1.
  pose proof (simple_edges_app _ _ _ Hs1) as He.
  destruct (contract_load_edge done e s G He) as [Hc G']. cbn [contract] in Hc. simpl in Hc. rewrite Hc.
  destruct (new_edge_missing done e s G He) as [Hnone _].
  destruct He as (_ & Hloop & _). specialize (Hloop e ltac:(set_solver)).
  destruct (IH (done ++ [e]) _ G' Hs1) as (Hadm & Hg & Hd).
  rewrite <- app_assoc in Hg. destruct (contract_run _ (flat_map _ _)) as [os s']. cbn [fst snd] in *.
  split_and!; try done; try apply admits_vertex. apply admits_edge; simpl; try done; set_solver.
Qed.

Lemma load_settles d edges reader_is_directed :
  represents d (spec_new reader_is_directed) -> simple_edges reader_is_directed edges ->
  6 * Z.of_nat (length edges) < 2 ^ 64 ->
  exists d' s', settles (load d reader_is_directed edges) (Val d') /\ represents d' s' /\
    spec_directed s' = reader_is_directed /\ graph_of_edges edges s'.
Proof.
  intros R Hs Hroom.
  destruct (load_admitted edges [] (spec_new reader_is_directed)) as (Hadm & G & Hd); [|done|].
  { split; intros *; simpl; split; [set_solver| |rewrite lookup_empty; done|]; intros (e & He & _); set_solver. }
  destruct (run_settles _ d _ R Hadm) as (d' & Hrun & R').
  { assert (length (flat_map load_updates edges) = 3 * length edges)%nat as ->
      by (clear; induction edges; simpl in *; lia).
    apply room_new. lia. }
  eexists d', _. split; [|by split_and!]. apply settles_ext with (g := fun fuel =>
    '(_, d) ← run d (flat_map load_updates edges) fuel; Val d).
  - intros fuel. unfold load. rewrite (represents_directed d _ R). simpl. rewrite eqb_reflx. apply load_loop_run.
  - eapply settles_bind; [exact Hrun|]. apply settles_val.
Qed.
End load.

(** ** The reference implementation meets the contract

    As long as no edge is inserted twice, for which [AdjacencyList] updates the
    weight and answers true, only vertices without
    edges are removed and, unless the hash table keeps its iterators,
    [add_edge_v2] finds the destination in place. *)

#[local] Instance adjacency_list_interface `{UnorderedMap} : UpdateInterface := {
  Impl := AdjacencyList;
  is_directed := AdjList.is_directed;
  add_vertex := fun g v _ => AdjList.add_vertex g v;
  remove_vertex := fun g v _ => AdjList.remove_vertex g v;
  add_edge := fun g e _ => AdjList.add_edge g e;
  add_edge_v2 := fun g e _ => AdjList.add_edge_v2 g e;
  remove_edge := fun g e _ => AdjList.remove_edge g e;
}.

Definition adjacency_list_admits `{UnorderedMap} (s : Spec) (u : Update) : Prop :=
  match u with
  | UAddVertex _ | URemoveEdge _ => True
  | URemoveVertex v => isolated s v
  | UAddEdge e => wsource e <> wdestination e /\ spec_arcs s !! (wsource e, wdestination e) = None
  | UAddEdgeV2 e => wsource e <> wdestination e /\
      spec_arcs s !! (wsource e, wdestination e) = None /\
      (rehash_keeps_iterators = true \/ wdestination e ∈ spec_vertices s)
  end.

Lemma contract_spec_update `{UnorderedMap} s u : adjacency_list_admits s u ->
  spec_update s u = (Val (contract s u).1, (contract s u).2).
Proof.
  destruct u as [v|v|e|e|e]; simpl; try done.
  - intros [Hne%Z.eqb_neq Hnone]. rewrite Hne. unfold hit.
    rewrite (bool_decide_ext (wsource e ∈ spec_vertices s /\ wdestination e ∈ spec_vertices s /\ _)
      (wsource e ∈ spec_vertices s /\ wdestination e ∈ spec_vertices s)) by tauto.
    by case_bool_decide.
  - intros (Hne%Z.eqb_neq & Hnone & _). rewrite Hne. by rewrite bool_decide_true.
  - intros _. destruct (spec_arcs s !! _) eqn:Hw; [rewrite bool_decide_true by done|rewrite bool_decide_false by (by intros [])]; done.
Qed.

#[local] Instance adjacency_list_contract `{UnorderedMap} : UpdateContract.
Proof.
  refine {| represents := adj_repr; admits := adjacency_list_admits |}.
  - intros g s [R _]. apply (ad_directed _ _ R).
  - intros g s u R Hadm Hroom. pose proof (contract_spec_update s u Hadm) as Hu.
    assert (m_num_edges g + 1 < 2 ^ 64) as Hb.
    { destruct R as [R _]. pose proof (ad_count _ _ R). pose proof (ad_range _ _ R).
      unfold room, is_u64 in *. destruct (spec_directed s); lia. }
    assert (admissible_update s u) as Hu' by (destruct u; simpl in *; tauto).
    pose proof (apply_update_spec g s u R Hu' Hb) as Hstep. rewrite Hu in Hstep. simpl in Hstep.
    destruct Hstep as (b & g' & Hcall & _ & [= ->] & R'). exists g', 0%nat. split; [|done].
    intros fuel _. destruct u; exact Hcall.
Defined.

#[local] Instance adjacency_list_load `{UnorderedMap} : LoadContract.
Proof. split; [done|]. intros s e Hne _ _ Hnone. by split. Qed.

(** C13: the [load] of the interface, on an implementation that meets the
    contract, turns a new graph into the graph of the edges that the reader
    delivers, of which each occurs once: its vertices are the end points, its
    arcs the edges, in both directions when the graph is undirected. *)
Theorem load_correct `{LoadContract} d edges reader_is_directed
  (R : represents d (spec_new reader_is_directed))
  (Hs : simple_edges reader_is_directed edges)
  (Hroom : 6 * Z.of_nat (length edges) < 2 ^ 64) :
  exists d' s', settles (load d reader_is_directed edges) (Val d') /\ represents d' s' /\
    spec_directed s' = reader_is_directed /\ graph_of_edges edges s'.
Proof. by apply load_settles. Qed.

(** [batch] performs its updates in order. Without [force] it answers
    whether all of them succeeded; with [force] it only returns when all of
    them do: an update that is refused changes nothing and is refused again
    until the clock ends the attempts with an exception. *)
Theorem batch_correct `{UpdateContract, Timer} d s A
  (R : represents d s) (Hadm : admitted s (su_update <$> A)) (Hroom : room s (length A))
  (Hclock : exists k, is_timeout k = true) :
  let (answers, s') := contract_run s (su_update <$> A) in
  (exists d', settles (batch d A false) (Val (forallb id answers, d')) /\ represents d' s') /\
  if forallb id answers
  then exists d', settles (batch d A true) (Val (true, d')) /\ represents d' s'
  else settles (batch d A true) (Exn TimeoutError).
Proof.
  pose proof (batch_force_settles A d s R Hadm Hroom Hclock) as Hforce.
  destruct (run_settles (su_update <$> A) d s R Hadm) as (d' & Hrun & R'); [by rewrite length_fmap|].
  destruct (contract_run s (su_update <$> A)) as [answers s']. cbn [fst snd] in *. split.
  - exists d'. split; [|done]. eapply settles_ext; [intros fuel; apply batch_lenient_run|].
    eapply settles_bind; [exact Hrun|]. apply settles_val.
  - destruct (forallb id answers).
    + destruct Hforce as (d2 & Hb & R2). exists d2. split; [|done].
      eapply settles_bind; [exact Hb|]. apply settles_val.
    + by apply settles_exn.
Qed.

(** The reference implementation on a hash table that keeps its iterators. *)
Notation stable_interface := (@adjacency_list_interface stable_table).
Notation stable_contract := (@adjacency_list_contract stable_table).

#[local] Existing Instance stable_table.

(** An insertion, a removal and an insertion that is refused. *)
Definition ex_batch : list SingleUpdate :=
  [mkSingleUpdate 10 20 d_one; mkSingleUpdate 20 10 (double_of_Z (-1)); mkSingleUpdate 10 30 d_one].

Definition ex_graph : AdjacencyList :=
  (run_updates (AdjacencyList_new false true) [UAddVertex 10; UAddVertex 20]).2.

Definition ex_graph_spec : Spec := (spec_run (spec_new false) [UAddVertex 10; UAddVertex 20]).2.

Lemma ex_graph_repr : represents ex_graph ex_graph_spec.
Proof. by apply run_updates_spec; [apply repr_new| |]. Qed.

Lemma load_correct_witness :
  exists g s, settles (load (AdjacencyList_new false true) false
      [mkWeightedEdge (mkEdge 10 20) d_one; mkWeightedEdge (mkEdge 20 30) d_one]) (Val g) /\
    adj_repr g s /\ spec_directed s = false /\
    graph_of_edges [mkWeightedEdge (mkEdge 10 20) d_one; mkWeightedEdge (mkEdge 20 30) d_one] s.
Proof.
  apply (@load_correct stable_interface stable_contract adjacency_list_load (AdjacencyList_new false true)).
  - apply repr_new.
  - split; [apply (bool_decide_unpack _); by vm_compute|].
    split; [intros e He|intros _ e e' He He']; set_unfold; naive_solver.
  - simpl. lia.
Defined.

Lemma batch_correct_witness :
  (exists g, settles (@batch stable_interface (expires_at 2) ex_graph ex_batch false) (Val (false, g))) /\
  settles (@batch stable_interface (expires_at 2) ex_graph ex_batch true) (Exn TimeoutError).
Proof.
  pose proof (@batch_correct _ _ (expires_at 2) ex_graph ex_graph_spec ex_batch ex_graph_repr) as Hb.
  destruct Hb as [(g & Hg & _) Hf];
    [|split; by vm_compute|by exists 2%nat|split; [by exists g|exact Hf]].
  split; [split; [done|by vm_compute]|split; [done|split; [split; [done|by vm_compute]|done]]].
Defined.
