(* ===== verification/ReaderLoad.v ===== *)
(** [reader/binary_reader], the choice of the reader for a file ([reader/reader])
    and the loading of a graph from a file. *)

From S2P Require Import Prelude Doubles CByteArray Text Edge AdjList Readers MetisReader Zlib GraphalyticsReader Graphlog Interface.

(** ** [BinaryReader]

    The edges are in memory. A file that is too short leaves the number of edges
    uninitialised, or edges that are zero. *)

Record BinaryReader := mkBinaryReader { br_edges : list (Z * Z); br_pos : nat; br_random_generator : nat }.

(** The bytes as edges, zeros beyond their end. *)
Fixpoint edges_of_bytes (edge_count : nat) (bytes : list Z) : list (Z * Z) :=
  match edge_count with
  | O => []
  | S n => (key_of_bytes (take 8 bytes), key_of_bytes (take 8 (drop 8 bytes))) :: edges_of_bytes n (drop 16 bytes)
  end.

Definition BinaryReader_new (file : option (list Z)) : res BinaryReader :=
  let content := default [] file in
  if (length content <? 8)%nat then Undef else
  Val (mkBinaryReader (edges_of_bytes (Z.to_nat (key_of_bytes (take 8 content))) (drop 8 content)) 0 0).

Section binary.
Context `{Random} (max_weight : double).

Definition binary_read (self : BinaryReader) : res (option WeightedEdge * BinaryReader) :=
  match br_edges self !! br_pos self with
  | Some (src, dst) =>
    Val (Some (mkWeightedEdge (mkEdge src dst) (random_weight max_weight (br_random_generator self))),
         mkBinaryReader (br_edges self) (S (br_pos self)) (S (br_random_generator self)))
  | None => Val (None, self)
  end.

#[export] Instance binary_reader : Reader BinaryReader := {
  read := binary_read;
  reader_is_directed := fun _ => false;
}.

(** What is written for these edges. *)
Definition binary_file (edges : list (Z * Z)) : list Z :=
  bytes_of_key 8 (Z.of_nat (length edges)) ++ (edges ≫= fun e => bytes_of_key 8 e.1 ++ bytes_of_key 8 e.2).

Lemma key_of_word w rest : is_u64 w -> key_of_bytes (take 8 (bytes_of_key 8 w ++ rest)) = w.
Proof.
  intros Hw. rewrite take_app_length' by (by rewrite length_bytes_of_key). rewrite key_of_bytes_of_key. by apply Z.mod_small.
Qed.

Lemma drop_word w rest : drop 8 (bytes_of_key 8 w ++ rest) = rest.
Proof. apply drop_app_length'. by rewrite length_bytes_of_key. Qed.

Lemma edges_of_bytes_written edges : Forall (fun e => is_u64 e.1 /\ is_u64 e.2) edges ->
  edges_of_bytes (length edges) (edges ≫= fun e => bytes_of_key 8 e.1 ++ bytes_of_key 8 e.2) = edges.
Proof.
  induction 1 as [|[u v] edges [Hu Hv] _ IH]; [done|]. cbn [length edges_of_bytes mbind list_bind fst snd] in *.
  rewrite <- !app_assoc. rewrite key_of_word by done. change 16%nat with (8 + 8)%nat. rewrite <- drop_drop, !drop_word.
  by rewrite key_of_word, IH by done.
Qed.

Fixpoint with_random_weights (g : nat) (edges : list (Z * Z)) : list WeightedEdge :=
  match edges with
  | [] => []
  | (u, v) :: edges => mkWeightedEdge (mkEdge u v) (random_weight max_weight g) :: with_random_weights (S g) edges
  end.

Lemma binary_read_all edges k : forall i g fuel, (i + k = length edges)%nat -> (k < fuel)%nat ->
  read_all (mkBinaryReader edges i g) fuel = Val (with_random_weights g (drop i edges)).
Proof.
  induction k as [|k IH]; intros i g fuel Hi Hfuel; (destruct fuel as [|fuel]; [lia|]); cbn [read_all read binary_reader];
    unfold binary_read; cbn [br_edges br_pos br_random_generator].
  - rewrite lookup_ge_None_2 by lia. by rewrite drop_ge by lia.
  - destruct (lookup_lt_is_Some_2 edges i) as [[u v] He]; [lia|]. rewrite He. bind_step.
    rewrite IH by lia. bind_val. by rewrite (drop_S edges (u, v) i He).
Qed.

Lemma binary_roundtrip edges fuel : Forall (fun e => is_u64 e.1 /\ is_u64 e.2) edges -> Z.of_nat (length edges) < 2 ^ 64 ->
  (length edges < fuel)%nat ->
  (reader ← BinaryReader_new (Some (binary_file edges)); read_all reader fuel) = Val (with_random_weights 0 edges).
Proof.
  intros Hok Hlen Hfuel. unfold BinaryReader_new, binary_file. change (default [] (Some ?x)) with x.
  rewrite (proj2 (Nat.ltb_ge _ _)) by (rewrite length_app, length_bytes_of_key; lia). bind_val.
  rewrite key_of_word by (unfold is_u64; lia). rewrite Nat2Z.id, drop_word, edges_of_bytes_written by done.
  by apply (binary_read_all edges (length edges) 0 0).
Qed.
End binary.

(** ** [Reader::open] *)

Section open.
Context `{Zlib, Random} (absolute_path directory : text -> text) (file_system : text -> option text).

(** [configuration().max_weight()], and its conversion to an integer. *)
Context (max_weight : double) (max_weight_int : Z).

Inductive AnyReader :=
  | AnyDimacs9 (reader : Dimacs9Reader)
  | AnyGraphlog (reader : EdgeReader)
  | AnyGraphalytics (reader : GraphalyticsReader)
  | AnyMetis (reader : MetisReader)
  | AnyPlain (reader : PlainReader)
  | AnyBinary (reader : BinaryReader).

Definition Reader_open (path : text) : res AnyReader :=
  let file := file_system path in
  match get_graph_format path with
  | DIMACS9 => reader ← Dimacs9Reader_new file; Val (AnyDimacs9 reader)
  | GRAPHLOG => reader ← EdgeReader_new file; Val (AnyGraphlog reader)
  | LDBC_GRAPHALYTICS => reader ← GraphalyticsReader_new absolute_path directory file_system path; Val (AnyGraphalytics reader)
  | METIS => reader ← MetisReader_new file; Val (AnyMetis reader)
  | PLAIN => reader ← PlainReader_new file false max_weight_int; Val (AnyPlain reader)
  | PLAIN_WEIGHTED => reader ← PlainReader_new file true max_weight_int; Val (AnyPlain reader)
  | BINARY_EDGE_LOG => reader ← BinaryReader_new (file_bytes file); Val (AnyBinary reader)
  | UNKNOWN => Exn ReaderError
  end.

Definition any_read (self : AnyReader) : res (option WeightedEdge * AnyReader) :=
  match self with
  | AnyDimacs9 r => '(edge, r) ← dimacs_read r; Val (edge, AnyDimacs9 r)
  | AnyGraphlog r => '(edge, r) ← graphlog_read r; Val (edge, AnyGraphlog r)
  | AnyGraphalytics r => '(edge, r) ← read_edge max_weight r; Val (edge, AnyGraphalytics r)
  | AnyMetis r => '(edge, r) ← metis_read max_weight_int r; Val (edge, AnyMetis r)
  | AnyPlain r => '(edge, r) ← plain_read r; Val (edge, AnyPlain r)
  | AnyBinary r => '(edge, r) ← binary_read max_weight r; Val (edge, AnyBinary r)
  end.

Definition any_is_directed (self : AnyReader) : bool :=
  match self with
  | AnyDimacs9 r => reader_is_directed r
  | AnyGraphlog r => reader_is_directed r
  | AnyGraphalytics r => GraphalyticsReader.m_directed r
  | AnyMetis _ | AnyPlain _ => true
  | AnyBinary _ => false
  end.

#[export] Instance any_reader : Reader AnyReader := {
  read := any_read;
  reader_is_directed := any_is_directed;
}.

(** A reader keeps its edges when it is one of several. *)
Lemma read_all_wrap {R} `{Reader R} (wrap : R -> AnyReader) :
  (forall r, any_read (wrap r) = '(edge, r) ← read r; Val (edge, wrap r)) ->
  forall fuel r, read_all (wrap r) fuel = read_all r fuel.
Proof.
  intros Hwrap. induction fuel as [|fuel IH]; intros r; [done|]. cbn [read_all]. change (read (wrap r)) with (any_read (wrap r)).
  rewrite Hwrap. destruct (read r) as [[[edge|] r']| | |]; try done. do 3 bind_step. by rewrite IH.
Qed.

(** ** [load] from a path *)

Section load_path.
Context `{UpdateInterface}.

(** The loop reads and inserts one edge at a time; [n] bounds its rounds. *)
Fixpoint load_reader (d : Impl) (reader : AnyReader) (n fuel : nat) : res Impl :=
  match n with
  | O => NoFuel
  | S n =>
    '(edge, reader) ← any_read reader;
    match edge with
    | None => Val d
    | Some edge =>
      '(_, d) ← add_vertex d (wsource edge) fuel;
      '(_, d) ← add_vertex d (wdestination edge) fuel;
      '(_, d) ← add_edge d edge fuel;
      load_reader d reader n fuel
    end
  end.

Definition load_path (d : Impl) (path : text) (n fuel : nat) : res Impl :=
  reader ← Reader_open path;
  if Bool.eqb (any_is_directed reader) (is_directed d) then load_reader d reader n fuel else Undef.

Lemma load_reader_edges n : forall reader edges d fuel, read_all reader n = Val edges ->
  load_reader d reader n fuel = load_loop d edges fuel.
Proof.
  induction n as [|n IH]; intros reader edges d fuel E; [done|]. cbn [read_all] in E. cbn [load_reader].
  change (read reader) with (any_read reader) in E. destruct (any_read reader) as [[[edge|] reader']| | |]; try done;
    change (Val ?x ≫= ?f) with (f x) in E; cbv beta iota in E.
  - apply res_bind_val in E as (edges' & E & [= <-]). bind_step. cbn [load_loop].
    destruct (add_vertex d (wsource edge) fuel) as [[b1 d1]| | |]; try done. do 2 bind_step.
    destruct (add_vertex d1 (wdestination edge) fuel) as [[b2 d2]| | |]; try done. do 2 bind_step.
    destruct (add_edge d2 edge fuel) as [[b3 d3]| | |]; try done. do 2 bind_step. by apply IH.
  - by injection E as <-.
Qed.

Lemma load_path_edges d path reader edges n fuel : Reader_open path = Val reader -> read_all reader n = Val edges ->
  load_path d path n fuel = load d (any_is_directed reader) edges fuel.
Proof.
  intros Ho E. unfold load_path, load. rewrite Ho. bind_val. by rewrite (load_reader_edges n reader edges d fuel E).
Qed.
End load_path.

Lemma delivers_weighted max ps edges : Forall2 (delivers true max) ps edges -> edges = weighted <$> ps.
Proof.
  induction 1 as [|[[u v] w] [e x] ps es [He Hw] _ IH]; [done|]. cbn in *. subst. done.
Qed.

(** C25: loading a file of weighted edges into a new directed graph, on an
    implementation that meets the contract of the interface, gives the graph of
    the edges that are written in the file. *)
Theorem load_file_correct `{LoadContract} d path (ls : list Line) n
  (Hformat : get_graph_format path = PLAIN_WEIGHTED)
  (Hfile : file_system path = Some (file_of (render <$> ls)))
  (Hls : Forall line_ok ls) (Hmax : 1 <= max_weight_int) (Hn : (S (length ls) < n)%nat)
  (R : represents d (spec_new true)) (Hsimple : simple_edges true (weighted <$> omap line_edge ls))
  (Hroom : 6 * Z.of_nat (length ls) < 2 ^ 64) :
  exists d' s', settles (load_path d path n) (Val d') /\ represents d' s' /\ spec_directed s' = true /\
    graph_of_edges (weighted <$> omap line_edge ls) s'.
Proof.
  assert (length (weighted <$> omap line_edge ls) <= length ls)%nat as Hlen.
  { rewrite length_fmap. clear. induction ls as [|l ls IH]; [done|].
    change (omap line_edge (l :: ls)) with (match line_edge l with Some p => p :: omap line_edge ls | None => omap line_edge ls end).
    destruct (line_edge l); simpl; lia. }
  destruct (load_settles d (weighted <$> omap line_edge ls) true R Hsimple) as (d' & s' & Hload & Hrest); [lia|].
  exists d', s'. split; [|done]. set (r := mkPlainReader (istream_open (file_of (render <$> ls))) true max_weight_int 0).
  assert (Reader_open path = Val (AnyPlain r)) as Hopen by (unfold Reader_open; by rewrite Hformat, Hfile).
  assert (read_all (AnyPlain r) n = Val (weighted <$> omap line_edge ls)) as Hread.
  { rewrite (read_all_wrap AnyPlain) by done. destruct (plain_roundtrip true max_weight_int 0 ls n Hls Hmax Hn) as (edges & E & Hd).
    unfold r. rewrite E. by rewrite (delivers_weighted _ _ _ Hd). }
  eapply settles_ext; [intros fuel; apply (load_path_edges d path _ _ n fuel Hopen Hread)|]. exact Hload.
Qed.
End open.

(** ** Example *)

Definition ex_path : text := text_of "graphs/ex.wel".

Definition ex_lines : list Line :=
  [SkippedLine [] (Some (text_of " a graph")); EdgeLine [] 10 [space] 20 [space] 1 []; EdgeLine [space] 20 [space; space] 30 [space] 7 []].

Definition ex_file_system (path : text) : option text :=
  if bool_decide (path = ex_path) then Some (file_of (render <$> ex_lines)) else None.

Lemma load_file_correct_witness :
  exists g s, settles (@load_path stored_zlib const_random id id ex_file_system d_one 1 stable_interface
      (@AdjacencyList_new stable_table true true) ex_path 6) (Val g) /\
    adj_repr g s /\ spec_directed s = true /\ graph_of_edges (weighted <$> [(10, 20, 1); (20, 30, 7)]) s.
Proof.
  apply (@load_file_correct stored_zlib const_random id id ex_file_system d_one 1 stable_interface stable_contract adjacency_list_load
           (@AdjacencyList_new stable_table true true) ex_path ex_lines 6).
  - by vm_compute.
  - unfold ex_file_system. by rewrite bool_decide_eq_true_2.
  - apply (bool_decide_unpack (Forall line_ok ex_lines)). by vm_compute.
  - done.
  - simpl. lia.
  - apply repr_new.
  - split; [apply (bool_decide_unpack _); by vm_compute|].
    split; [intros e He|intros ? e e' He He']; set_unfold; naive_solver.
  - simpl. lia.
Defined.
