(* ===== verification/Message.v ===== *)
(** The messages of the network client and server ([network/message]): a header of two
    integers of 32 bits and arguments in words of 64 bits. *)

From S2P Require Import Prelude Doubles CByteArray Text Edge Zlib.

(** ** The types of messages *)

Inductive RequestType :=
  | TERMINATE_SERVER | TERMINATE_WORKER | TERMINATE_ON_LAST_CONNECTION | LIBRARY_NAME | SET_TIMEOUT
  | ON_MAIN_INIT | ON_THREAD_INIT | ON_THREAD_DESTROY | ON_MAIN_DESTROY
  | NUM_EDGES | NUM_VERTICES | IS_DIRECTED | HAS_VERTEX | HAS_EDGE | GET_WEIGHT | LOAD
  | ADD_VERTEX | REMOVE_VERTEX | ADD_EDGE | REMOVE_EDGE | BATCH_PLAIN_FORCE_NO | BATCH_PLAIN_FORCE_YES
  | BUILD | DUMP_CLIENT | DUMP_STDOUT | DUMP_FILE
  | BFS | PAGERANK | WCC | CDLP | LCC | SSSP.

Inductive ResponseType := OK | NOT_SUPPORTED | ERROR | TIMEOUT.

#[export] Instance request_type_eq_dec : EqDecision RequestType.
Proof. solve_decision. Defined.

#[export] Instance response_type_eq_dec : EqDecision ResponseType.
Proof. solve_decision. Defined.

Definition request_types : list RequestType :=
  [TERMINATE_SERVER; TERMINATE_WORKER; TERMINATE_ON_LAST_CONNECTION; LIBRARY_NAME; SET_TIMEOUT;
   ON_MAIN_INIT; ON_THREAD_INIT; ON_THREAD_DESTROY; ON_MAIN_DESTROY;
   NUM_EDGES; NUM_VERTICES; IS_DIRECTED; HAS_VERTEX; HAS_EDGE; GET_WEIGHT; LOAD;
   ADD_VERTEX; REMOVE_VERTEX; ADD_EDGE; REMOVE_EDGE; BATCH_PLAIN_FORCE_NO; BATCH_PLAIN_FORCE_YES;
   BUILD; DUMP_CLIENT; DUMP_STDOUT; DUMP_FILE;
   BFS; PAGERANK; WCC; CDLP; LCC; SSSP].

Definition response_types : list ResponseType := [OK; NOT_SUPPORTED; ERROR; TIMEOUT].

(** The number of an enumerator. *)
Fixpoint position {A} `{EqDecision A} (x : A) (l : list A) : Z :=
  match l with
  | [] => 0
  | y :: l => if decide (x = y) then 0 else 1 + position x l
  end.

Definition request_code (t : RequestType) : Z := position t request_types.
Definition response_code (t : ResponseType) : Z := position t response_types.

(** ** Doubles as 64 bits *)

Definition bits_of_double (d : double) : Z :=
  match d with
  | S754_zero s => Z.b2z s * 2 ^ 63
  | S754_infinity s => Z.b2z s * 2 ^ 63 + 2047 * 2 ^ 52
  | S754_nan => 2047 * 2 ^ 52 + 2 ^ 51
  | S754_finite s m e =>
    if Z.pos m <? 2 ^ 52 then Z.b2z s * 2 ^ 63 + Z.pos m
    else Z.b2z s * 2 ^ 63 + (e + 1075) * 2 ^ 52 + (Z.pos m - 2 ^ 52)
  end.

(** ** Arguments

    A string is a [const char*], which may be null, and ends at its first null
    character. *)

Inductive Arg :=
  | ASigned (z : Z)
  | AUnsigned (z : Z)
  | ADouble (d : double)
  | AString (s : option text).

Fixpoint c_str (s : text) : text :=
  match s with
  | [] => []
  | c :: s => if Ascii.eqb c nul then [] else c :: c_str s
  end.

(** Writing beyond a buffer is undefined. *)
Definition write_bytes (buffer : list Z) (offset : nat) (bytes : list Z) : res (list Z) :=
  if (offset + length bytes <=? length buffer)%nat
  then Val (take offset buffer ++ bytes ++ drop (offset + length bytes) buffer)
  else Undef.

Definition round_up (n : nat) : nat := 8 * ((n + 7) / 8).

(** The buffer and the number of bytes. *)
Definition store_single_arg (buffer : list Z) (offset : nat) (arg : Arg) : res (list Z * nat) :=
  match arg with
  | ASigned z | AUnsigned z => buffer ← write_bytes buffer offset (bytes_of_key 8 (u64 z)); Val (buffer, 8%nat)
  | ADouble d => buffer ← write_bytes buffer offset (bytes_of_key 8 (bits_of_double d)); Val (buffer, 8%nat)
  | AString None => buffer ← write_bytes buffer offset (bytes_of_key 8 0); Val (buffer, 8%nat)
  | AString (Some str) =>
    let str := c_str str in
    buffer ← write_bytes buffer offset (bytes_of_key 8 (Z.of_nat (length str)));
    buffer ← write_bytes buffer (offset + 8) ((code <$> str) ++ [0]);
    Val (buffer, (8 + round_up (length str))%nat)
  end.

Fixpoint store_args (buffer : list Z) (offset : nat) (args : list Arg) : res (list Z * nat) :=
  match args with
  | [] => Val (buffer, 0%nat)
  | first :: rest =>
    '(buffer, n) ← store_single_arg buffer offset first;
    '(buffer, m) ← store_args buffer (offset + n) rest;
    Val (buffer, (n + m)%nat)
  end.

(** [sizeof(Message)] *)
Definition header_sz : nat := 8.

(** The constructor, in place. *)
Definition Message_new (buffer : list Z) (type : Z) (args : list Arg) : res (list Z) :=
  buffer ← write_bytes buffer 0 (bytes_of_key 4 (Z.of_nat header_sz) ++ bytes_of_key 4 type);
  '(buffer, n) ← store_args buffer header_sz args;
  write_bytes buffer 0 (bytes_of_key 4 (u32 (Z.of_nat header_sz + Z.of_nat n))).

(** ** Accessors, on the buffer that holds a message *)

Definition message_size (m : list Z) : Z := key_of_bytes (take 4 m).

Definition message_type (m : list Z) : Z := key_of_bytes (take 4 (drop 4 m)).

Definition request_type (m : list Z) : option RequestType := request_types !! Z.to_nat (message_type m).

Definition response_type (m : list Z) : option ResponseType := response_types !! Z.to_nat (message_type m).

(** The size is converted to [int], the difference is unsigned, the result an [int]. *)
Definition num_arguments (m : list Z) : Z := i32 (u64 (i32 (message_size m) - Z.of_nat header_sz) / 8).

(** The word of an argument; the assertion is that there is such an argument. *)
Definition retrieve (m : list Z) (index : nat) : res Z :=
  if Z.of_nat index <? num_arguments m
  then Val (key_of_bytes (take 8 (drop (header_sz + 8 * index) m)))
  else Undef.

Definition get_uint (m : list Z) (index : nat) : res Z := retrieve m index.

Definition get_int64 (m : list Z) (index : nat) : res Z := z ← retrieve m index; Val (i64 z).

Definition get_int (m : list Z) (index : nat) : res Z :=
  z ← get_int64 m index; Val (i32 z).

Definition get_bool (m : list Z) (index : nat) : res bool := z ← retrieve m index; Val (negb (z =? 0)).

Definition get_double (m : list Z) (index : nat) : res double := z ← retrieve m index; Val (double_of_bits z).

Definition get_string (m : list Z) (index : nat) : res text :=
  length_ ← retrieve m index;
  if Z.of_nat (header_sz + 8 * S index) + length_ <=? Z.of_nat (length m)
  then Val ((fun b => ascii_of_N (Z.to_N b)) <$> take (Z.to_nat length_) (drop (header_sz + 8 * S index) m))
  else Undef.

(** The bytes that are sent. *)
Definition message_bytes (m : list Z) : list Z := take (Z.to_nat (message_size m)) m.

(** ** Doubles *)

Lemma double_of_fields s ex mantissa : 0 <= ex < 2048 -> 0 <= mantissa < 2 ^ 52 ->
  double_of_bits (Z.b2z s * 2 ^ 63 + ex * 2 ^ 52 + mantissa) =
  if ex =? 2047 then if mantissa =? 0 then S754_infinity s else S754_nan
  else
    let '(m, e) := if ex =? 0 then (mantissa, -1074) else (mantissa + 2 ^ 52, ex - 1075) in
    match m with Z.pos p => S754_finite s p e | _ => S754_zero s end.
Proof.
  intros Hex Hm. set (bits := Z.b2z s * 2 ^ 63 + ex * 2 ^ 52 + mantissa). unfold double_of_bits.
  assert (bits / 2 ^ 52 = Z.b2z s * 2 ^ 11 + ex) as Hdiv.
  { symmetry. apply (Z.div_unique_pos _ _ _ mantissa); unfold bits; lia. }
  assert (bits mod 2 ^ 52 = mantissa) as Hmod.
  { symmetry. apply (Z.mod_unique_pos _ _ (Z.b2z s * 2 ^ 11 + ex)); unfold bits; lia. }
  assert (Z.testbit bits 63 = s) as ->.
  { rewrite Z.testbit_eqb by done. assert (bits / 2 ^ 63 = Z.b2z s) as ->.
    { symmetry. apply (Z.div_unique_pos _ _ _ (ex * 2 ^ 52 + mantissa)); unfold bits; lia. }
    by destruct s. }
  assert (Z.land (Z.shiftr bits 52) 2047 = ex) as ->.
  { change 2047 with (Z.ones 11). rewrite Z.land_ones, Z.shiftr_div_pow2, Hdiv by done.
    symmetry. apply (Z.mod_unique_pos _ _ (Z.b2z s)); lia. }
  assert (Z.land bits (2 ^ 52 - 1) = mantissa) as ->; [|done].
  change (2 ^ 52 - 1) with (Z.ones 52). by rewrite Z.land_ones, Hmod.
Qed.

Lemma bits_of_double_range d : valid_binary 53 1024 d = true -> is_u64 (bits_of_double d).
Proof.
  unfold is_u64. destruct d as [s|s| |s m e]; cbn [bits_of_double valid_binary]; intros Hv; [destruct s; cbn [Z.b2z]; lia..| |].
  { lia. }
  apply bounded_spec in Hv as (He & Hm & Hn). destruct (Z.ltb_spec (Z.pos m) (2 ^ 52)) as [Hlt|Hge].
  - destruct s; cbn [Z.b2z]; lia.
  - destruct s; cbn [Z.b2z]; lia.
Qed.

(** Every double but the payload of a NaN survives. *)
Lemma double_roundtrip d : valid_binary 53 1024 d = true -> double_of_bits (bits_of_double d) = d.
Proof.
  destruct d as [s|s| |s m e]; cbn [bits_of_double valid_binary]; intros Hv; [by destruct s..|by vm_compute|].
  apply bounded_spec in Hv as (He & Hm & Hn). destruct (Z.ltb_spec (Z.pos m) (2 ^ 52)) as [Hlt|Hge].
  - assert (e = -1074) as -> by lia.
    replace (Z.b2z s * 2 ^ 63 + Z.pos m) with (Z.b2z s * 2 ^ 63 + 0 * 2 ^ 52 + Z.pos m) by lia.
    by rewrite double_of_fields by lia.
  - rewrite double_of_fields by lia. rewrite (proj2 (Z.eqb_neq _ _)), (proj2 (Z.eqb_neq _ _)) by lia.
    replace (Z.pos m - 2 ^ 52 + 2 ^ 52) with (Z.pos m) by lia. f_equal. lia.
Qed.

(** ** Writing *)

Lemma take_take_ge {A} (l : list A) n m : (n <= m)%nat -> take n (take m l) = take n l.
Proof. intros Hle. rewrite take_take. f_equal. lia. Qed.

Lemma take_drop_prefix {A} (l l' : list A) k off n : take k l = take k l' -> (off + n <= k)%nat ->
  take n (drop off l) = take n (drop off l').
Proof.
  intros E Hle. rewrite !take_drop_commute. f_equal.
  rewrite <- (take_take_ge l (off + n) k), <- (take_take_ge l' (off + n) k) by done. by rewrite E.
Qed.

Lemma write_bytes_spec buffer offset bytes : (offset + length bytes <= length buffer)%nat ->
  exists buffer', write_bytes buffer offset bytes = Val buffer' /\ length buffer' = length buffer /\
    take offset buffer' = take offset buffer /\ take (length bytes) (drop offset buffer') = bytes /\
    drop (offset + length bytes) buffer' = drop (offset + length bytes) buffer.
Proof.
  intros Hle. unfold write_bytes. rewrite (proj2 (Nat.leb_le _ _)) by done. eexists. split; [done|].
  assert (length (take offset buffer) = offset) as Ht by (rewrite length_take; lia). split; [|split; [|split]].
  - rewrite !length_app, Ht, length_drop. lia.
  - by apply take_app_length'.
  - rewrite drop_app_length' by done. by apply take_app_length'.
  - rewrite app_assoc. apply drop_app_length'. rewrite length_app. lia.
Qed.

Definition arg_size (a : Arg) : nat :=
  match a with AString (Some s) => 8 + round_up (length (c_str s)) | _ => 8 end.

Definition args_size (args : list Arg) : nat := sum_list_with arg_size args.

(** The argument that a buffer holds at an offset. *)
Definition holds (m : list Z) (offset : nat) (a : Arg) : Prop :=
  match a with
  | ASigned z | AUnsigned z => take 8 (drop offset m) = bytes_of_key 8 (u64 z)
  | ADouble d => take 8 (drop offset m) = bytes_of_key 8 (bits_of_double d)
  | AString s =>
    take 8 (drop offset m) = bytes_of_key 8 (Z.of_nat (length (c_str (default [] s)))) /\
    take (length (c_str (default [] s))) (drop (offset + 8) m) = code <$> c_str (default [] s)
  end.

Lemma round_up_bounds n : (n <= round_up n < n + 8)%nat.
Proof. unfold round_up. pose proof (Nat.div_mod_eq (n + 7) 8). pose proof (Nat.mod_upper_bound (n + 7) 8 ltac:(done)). lia. Qed.

Lemma arg_size_word a : (8 <= arg_size a)%nat.
Proof. unfold arg_size. destruct a as [| | |[]]; lia. Qed.

Lemma holds_prefix m m' offset a k : holds m offset a -> take k m' = take k m -> (offset + arg_size a <= k)%nat -> holds m' offset a.
Proof.
  intros Hh E Hle. pose proof (arg_size_word a). destruct a as [z|z|d|s]; cbn [holds] in *;
    [by rewrite (take_drop_prefix m' m k) by (done || lia)..|].
  destruct Hh as [H1 H2]. split; [by rewrite (take_drop_prefix m' m k) by (done || lia)|].
  rewrite (take_drop_prefix m' m k); [done|done|]. destruct s as [s|]; cbn [default] in *; [|simpl in *; lia].
  unfold arg_size in Hle. pose proof (round_up_bounds (length (c_str s))). unfold id. lia.
Qed.

Lemma holds_suffix m m' offset a k : holds m offset a -> drop k m' = drop k m -> (k <= offset)%nat -> holds m' offset a.
Proof.
  intros Hh E Hle. assert (forall i, (k <= i)%nat -> drop i m' = drop i m) as Ed.
  { intros i Hi. replace i with (k + (i - k))%nat by lia. by rewrite <- !drop_drop, E. }
  destruct a; cbn [holds] in *; [by rewrite Ed..|]. by rewrite !Ed by lia.
Qed.

Lemma store_single_arg_spec buffer offset a : (offset + arg_size a + 1 <= length buffer)%nat ->
  exists buffer', store_single_arg buffer offset a = Val (buffer', arg_size a) /\ length buffer' = length buffer /\
    take offset buffer' = take offset buffer /\ holds buffer' offset a.
Proof.
  intros Hfit. assert (forall w, length (bytes_of_key 8 w) = 8%nat) as H8 by (intros; apply length_bytes_of_key).
  pose proof (arg_size_word a).
  assert (forall w, exists buffer', write_bytes buffer offset (bytes_of_key 8 w) = Val buffer' /\ length buffer' = length buffer /\
    take offset buffer' = take offset buffer /\ take 8 (drop offset buffer') = bytes_of_key 8 w) as Hword.
  { intros w. destruct (write_bytes_spec buffer offset (bytes_of_key 8 w)) as (b' & Hw & Hl & Ht & Hb & _); [rewrite H8; lia|].
    rewrite H8 in Hb. by exists b'. }
  destruct a as [z|z|d|[str|]]; cbn [store_single_arg holds].
  1-3: match goal with |- context [bytes_of_key 8 ?w] => destruct (Hword w) as (b' & -> & Hl & Ht & Hb) end; by exists b'.
  - set (n := length (c_str str)) in *. pose proof (round_up_bounds n) as Hr. unfold arg_size in Hfit. fold n in Hfit.
    destruct (Hword (Z.of_nat n)) as (b1 & -> & Hl1 & Ht1 & Hb1). rewrite res_bind_Val_l.
    assert (length ((code <$> c_str str : list Z) ++ [0]) = (n + 1)%nat) as Hln by (rewrite length_app, length_fmap; done).
    destruct (write_bytes_spec b1 (offset + 8) ((code <$> c_str str) ++ [0])) as (b2 & -> & Hl2 & Ht2 & Hb2 & _); [rewrite Hln; lia|].
    rewrite res_bind_Val_l. exists b2. split; [done|]. split; [congruence|]. split; [|split].
    + rewrite <- Ht1, <- (take_take_ge b2 offset (offset + 8)), Ht2, take_take_ge by lia. done.
    + by rewrite (take_drop_prefix b2 b1 (offset + 8)).
    + cbn [default]. unfold id. fold n. rewrite Hln in Hb2.
      rewrite <- (take_take_ge _ n (n + 1)), Hb2 by lia. rewrite take_app_le by (rewrite length_fmap; done).
      apply take_ge. by rewrite length_fmap.
  - destruct (Hword 0) as (b' & -> & Hl & Ht & Hb). exists b'. split; [done|]. split; [done|]. split; [done|].
    split; [done|]. cbn [default c_str length]. apply take_0.
Qed.

Lemma store_args_spec args : forall buffer offset, (offset + args_size args + 1 <= length buffer)%nat ->
  exists buffer', store_args buffer offset args = Val (buffer', args_size args) /\ length buffer' = length buffer /\
    take offset buffer' = take offset buffer /\
    forall j a, args !! j = Some a -> holds buffer' (offset + args_size (take j args)) a.
Proof.
  induction args as [|a args IH]; intros buffer offset Hfit; cbn [store_args args_size sum_list_with] in *; [by exists buffer|].
  fold (args_size args) in *.
  destruct (store_single_arg_spec buffer offset a) as (b1 & -> & Hl1 & Ht1 & Hh1); [lia|]. rewrite res_bind_Val_l. cbv beta iota.
  destruct (IH b1 (offset + arg_size a)%nat) as (b2 & -> & Hl2 & Ht2 & Hh2); [lia|]. rewrite res_bind_Val_l. cbv beta iota.
  exists b2. split; [done|]. split; [congruence|]. split.
  - rewrite <- Ht1, <- (take_take_ge b2 offset (offset + arg_size a)), Ht2, take_take_ge by lia. done.
  - intros [|j] a' Hj; cbn [take sum_list_with].
    + injection Hj as <-. unfold args_size. cbn [sum_list_with]. rewrite Nat.add_0_r. eapply holds_prefix; [exact Hh1|exact Ht2|lia].
    + change (args_size (a :: take j args)) with (arg_size a + args_size (take j args))%nat. rewrite Nat.add_assoc. by apply Hh2.
Qed.

(** ** Reading *)

(** The arguments that can be sent. *)
Definition arg_ok (a : Arg) : Prop :=
  match a with
  | ASigned z => - 2 ^ 63 <= z < 2 ^ 63
  | AUnsigned z => is_u64 z
  | ADouble d => valid_binary 53 1024 d = true
  | AString s => nul ∉ default [] s
  end.

Definition arg_okb (a : Arg) : bool :=
  match a with
  | ASigned z => (- 2 ^ 63 <=? z) && (z <? 2 ^ 63)
  | AUnsigned z => (0 <=? z) && (z <? 2 ^ 64)
  | ADouble d => valid_binary 53 1024 d
  | AString s => bool_decide (nul ∉ default [] s)
  end.

(** The receiver reads an argument by its type. *)
Definition delivers (m : list Z) (index : nat) (a : Arg) : Prop :=
  match a with
  | ASigned z => get_int64 m index = Val z
  | AUnsigned z => get_uint m index = Val z
  | ADouble d => get_double m index = Val d
  | AString s => get_string m index = Val (default [] s)
  end.

(** The word at which the [j]-th argument starts. *)
Definition arg_index (args : list Arg) (j : nat) : nat := args_size (take j args) / 8.

(** The buffer holds a message. *)
Record is_message (m : list Z) (type : Z) (args : list Arg) : Prop := {
  im_size : message_size m = Z.of_nat (header_sz + args_size args);
  im_type : message_type m = type;
  im_length : (header_sz + args_size args <= length m)%nat;
  im_small : Z.of_nat (header_sz + args_size args) < 2 ^ 31;
  im_args : forall j a, args !! j = Some a -> holds m (header_sz + args_size (take j args)) a;
}.

Lemma c_str_id s : nul ∉ s -> c_str s = s.
Proof.
  induction s as [|c s IH]; [done|]. rewrite not_elem_of_cons. intros [Hc Hs]. cbn [c_str].
  destruct (Ascii.eqb_spec c nul); [congruence|]. by rewrite IH.
Qed.

Lemma args_size_words args : exists k, args_size args = (8 * k)%nat.
Proof.
  induction args as [|a args [k IH]]; [by exists 0%nat|]. unfold args_size in *. cbn [sum_list_with]. rewrite IH.
  assert (exists j, arg_size a = (8 * j)%nat) as [j ->]; [|exists (j + k)%nat; lia].
  unfold arg_size, round_up. destruct a as [| | |[s|]]; try (by exists 1%nat). eexists (1 + _)%nat. rewrite Nat.mul_add_distr_l. done.
Qed.

Lemma args_size_take args j a : args !! j = Some a -> (args_size (take j args) + arg_size a <= args_size args)%nat.
Proof.
  intros Hj. rewrite <- (take_drop_middle args j a Hj) at 2. unfold args_size. rewrite sum_list_with_app. cbn [sum_list_with]. lia.
Qed.

Lemma retrieve_word m type args j a w : is_message m type args -> args !! j = Some a ->
  take 8 (drop (header_sz + args_size (take j args)) m) = bytes_of_key 8 w -> is_u64 w -> retrieve m (arg_index args j) = Val w.
Proof.
  intros Hm Hj Hw Hr. unfold retrieve, num_arguments. rewrite (im_size _ _ _ Hm).
  pose proof (args_size_take _ _ _ Hj). pose proof (arg_size_word a). pose proof (im_small _ _ _ Hm). unfold arg_index.
  destruct (args_size_words (take j args)) as [k Hk]. destruct (args_size_words args) as [n Hn].
  rewrite Hk, (Nat.mul_comm 8), Nat.div_mul by done. rewrite Hn, Hk in *.
  rewrite (i32_id (Z.of_nat _)) by lia. replace (Z.of_nat (header_sz + 8 * n) - Z.of_nat header_sz) with (Z.of_nat n * 8) by lia.
  rewrite u64_id, Z.div_mul, i32_id by (done || unfold is_u64; lia).
  rewrite (proj2 (Z.ltb_lt _ _)) by lia. rewrite Hw, key_of_bytes_of_key. f_equal. by apply Z.mod_small.
Qed.

Lemma code_ascii c : ascii_of_N (Z.to_N (code c)) = c.
Proof. unfold code. by rewrite N2Z.id, ascii_N_embedding. Qed.

Lemma message_delivers m type args j a : is_message m type args -> args !! j = Some a -> arg_ok a ->
  delivers m (arg_index args j) a.
Proof.
  intros Hm Hj Hok. pose proof (im_args _ _ _ Hm j a Hj) as Hh. destruct a as [z|z|d|s]; cbn [holds delivers arg_ok] in *.
  - unfold get_int64. rewrite (retrieve_word m type args j _ (u64 z)) by (done || apply u64_range). rewrite res_bind_Val_l. f_equal.
    unfold i64, u64. rewrite Zplus_mod_idemp_l, Z.mod_small; lia.
  - unfold get_uint. by rewrite (retrieve_word m type args j _ z) by (done || by rewrite u64_id in Hh).
  - unfold get_double. rewrite (retrieve_word m type args j _ (bits_of_double d)) by (done || by apply bits_of_double_range).
    rewrite res_bind_Val_l. by rewrite double_roundtrip.
  - set (str := default [] s) in *. rewrite c_str_id in Hh by done. destruct Hh as [H1 H2]. pose proof (im_length _ _ _ Hm) as Hlen.
    pose proof (args_size_take _ _ _ Hj) as Hsz. assert (8 + length str <= arg_size (AString s))%nat as Hstr.
    { unfold arg_size, str. destruct s as [s|]; [|done]. rewrite c_str_id by done. change (default [] (Some s)) with s.
      pose proof (round_up_bounds (length s)). lia. }
    pose proof (im_small _ _ _ Hm) as Hsmall. unfold get_string.
    rewrite (retrieve_word m type args j (AString s) (Z.of_nat (length str)) Hm Hj H1) by (unfold is_u64; lia). rewrite res_bind_Val_l.
    unfold arg_index. destruct (args_size_words (take j args)) as [k Hk]. rewrite Hk, (Nat.mul_comm 8 k), Nat.div_mul, Nat2Z.id by done.
    rewrite Hk in *. replace (header_sz + 8 * S k)%nat with (header_sz + 8 * k + 8)%nat by lia.
    rewrite (proj2 (Z.leb_le _ _)) by lia. rewrite H2. f_equal.
    rewrite <- list_fmap_compose. rewrite (list_fmap_ext _ id); [apply list_fmap_id|]. intros i c _. apply code_ascii.
Qed.

Lemma header_bytes size type : 0 <= size < 2 ^ 32 -> 0 <= type < 2 ^ 32 -> forall rest,
  message_size (bytes_of_key 4 size ++ bytes_of_key 4 type ++ rest) = size /\
  message_type (bytes_of_key 4 size ++ bytes_of_key 4 type ++ rest) = type.
Proof.
  intros Hs Ht rest. unfold message_size, message_type. rewrite take_app_length' by (by rewrite length_bytes_of_key).
  rewrite drop_app_length' by (by rewrite length_bytes_of_key). rewrite take_app_length' by (by rewrite length_bytes_of_key).
  rewrite !key_of_bytes_of_key. change (256 ^ Z.of_nat 4) with (2 ^ 32). by rewrite !Z.mod_small.
Qed.

(** Writing a message that fits, with the null character of a last string. *)
Lemma message_new_spec buffer type args : (header_sz + args_size args < length buffer)%nat -> Z.of_nat (header_sz + args_size args) < 2 ^ 31 ->
  0 <= type < 2 ^ 32 ->
  exists m, Message_new buffer type args = Val m /\ length m = length buffer /\ is_message m type args.
Proof.
  intros Hfit Hsmall Htype. unfold Message_new.
  set (header := bytes_of_key 4 (Z.of_nat header_sz) ++ bytes_of_key 4 type).
  assert (length header = header_sz) as Hh by (unfold header; by rewrite length_app, !length_bytes_of_key).
  destruct (write_bytes_spec buffer 0 header) as (b1 & -> & Hl1 & _ & Hb1 & _); [rewrite Hh; lia|]. rewrite res_bind_Val_l.
  rewrite Hh, drop_0 in Hb1.
  destruct (store_args_spec args b1 header_sz) as (b2 & -> & Hl2 & Ht2 & Hh2); [lia|]. rewrite res_bind_Val_l. cbv beta iota.
  set (size := u32 _). assert (size = Z.of_nat (header_sz + args_size args)) as Hsize.
  { unfold size, u32. rewrite Z.mod_small; lia. }
  destruct (write_bytes_spec b2 0 (bytes_of_key 4 size)) as (b3 & -> & Hl3 & _ & Hb3 & Hd3); [rewrite length_bytes_of_key; unfold header_sz in *; lia|].
  rewrite length_bytes_of_key in Hb3, Hd3. rewrite drop_0 in Hb3. cbn [Nat.add] in Hd3.
  exists b3. split; [done|]. split; [congruence|].
  assert (b3 = bytes_of_key 4 size ++ bytes_of_key 4 type ++ drop header_sz b2) as E.
  { rewrite <- (take_drop 4 b3), Hb3, Hd3. f_equal.
    assert (drop 4 b2 = drop 4 (take header_sz b2) ++ drop header_sz b2) as ->.
    { rewrite <- (take_drop header_sz b2) at 1. rewrite drop_app_le; [done|]. rewrite length_take. unfold header_sz in *. lia. }
    rewrite Ht2, Hb1. unfold header. by rewrite drop_app_length' by (by rewrite length_bytes_of_key). }
  assert (0 <= size < 2 ^ 32) as Hrange by lia.
  split; [by rewrite E, (proj1 (header_bytes size type Hrange Htype _))|by rewrite E, (proj2 (header_bytes size type Hrange Htype _))|lia|lia|].
  intros j a Hj. eapply holds_suffix; [by apply (Hh2 j a Hj)|exact Hd3|unfold header_sz; lia].
Qed.

(** A message that has been received holds what has been sent. *)
Lemma is_message_prefix m m' type args : is_message m type args -> take (header_sz + args_size args) m' = message_bytes m ->
  is_message m' type args.
Proof.
  intros [Hs Ht Hl Hsm Ha] E. unfold message_bytes in E. rewrite Hs, Nat2Z.id in E.
  assert (header_sz + args_size args <= length m')%nat as Hl'.
  { apply (f_equal length) in E. rewrite !length_take in E. lia. }
  split; try done.
  - rewrite <- Hs. unfold message_size. f_equal.
    pose proof (take_drop_prefix m' m (header_sz + args_size args) 0 4 E) as H4. rewrite !drop_0 in H4. apply H4. unfold header_sz. lia.
  - rewrite <- Ht. unfold message_type. f_equal. apply (take_drop_prefix m' m (header_sz + args_size args)); [done|unfold header_sz; lia].
  - intros j a Hj. eapply holds_prefix; [by apply Ha|exact E|]. pose proof (args_size_take _ _ _ Hj). lia.
Qed.

(** C34: a message that fits into the buffers is read back by its receiver: its type and,
    at the word at which each argument starts, the argument, whatever else the two
    buffers hold; integers of any sign, all doubles but the payload of a NaN, and
    strings without null characters. *)
Theorem message_roundtrip buffer type args received
  (Htype : 0 <= type < 2 ^ 32) (Hfit : (header_sz + args_size args < length buffer)%nat) (Hsmall : Z.of_nat (header_sz + args_size args) < 2 ^ 31)
  (Hok : Forall arg_ok args) :
  exists m, Message_new buffer type args = Val m /\ length (message_bytes m) = (header_sz + args_size args)%nat /\
    let m' := message_bytes m ++ received in
    message_size m' = Z.of_nat (length (message_bytes m)) /\ message_type m' = type /\
    forall j a, args !! j = Some a -> delivers m' (arg_index args j) a.
Proof.
  destruct (message_new_spec buffer type args Hfit Hsmall Htype) as (m & Hnew & Hlen & Hm). exists m. split; [done|].
  pose proof (im_size _ _ _ Hm) as Hs. assert (length (message_bytes m) = (header_sz + args_size args)%nat) as Hl.
  { unfold message_bytes. rewrite length_take, Hs, Nat2Z.id. lia. }
  split; [done|]. cbv zeta. assert (is_message (message_bytes m ++ received) type args) as Hm'.
  { apply (is_message_prefix m); [done|]. rewrite <- Hl. apply take_app_length. }
  split; [by rewrite Hl, (im_size _ _ _ Hm')|]. split; [apply (im_type _ _ _ Hm')|].
  intros j a Hj. apply (message_delivers _ _ _ _ _ Hm' Hj). by apply (Forall_lookup_1 _ _ _ _ Hok Hj).
Qed.

(** ** Example *)

Definition ex_args : list Arg := [AUnsigned (2 ^ 64 - 1); ASigned (-5); AString (Some (text_of "graph.el")); ADouble (double_of_Z (-1)); AString None].

Lemma arg_okb_ok a : arg_okb a = true -> arg_ok a.
Proof.
  destruct a; cbn [arg_okb arg_ok]; [intros [H1%Z.leb_le H2%Z.ltb_lt]%andb_true_iff; lia| |done|apply bool_decide_eq_true].
  intros [H1%Z.leb_le H2%Z.ltb_lt]%andb_true_iff. by split.
Qed.

Lemma message_roundtrip_witness : exists m, Message_new (replicate 64 7) (request_code LOAD) ex_args = Val m /\
  length (message_bytes m) = 56%nat /\ get_string (message_bytes m) 2 = Val (text_of "graph.el").
Proof.
  destruct (message_roundtrip (replicate 64 7) (request_code LOAD) ex_args []) as (m & Hnew & Hlen & _ & _ & Hargs).
  - by vm_compute.
  - apply Nat.ltb_lt. by vm_compute.
  - by vm_compute.
  - apply Forall_forall. intros a Ha. apply arg_okb_ok. revert a Ha. apply (proj1 (Forall_forall _ _)).
    repeat (constructor; [by vm_compute|]). constructor.
  - exists m. split; [exact Hnew|]. split; [exact Hlen|]. specialize (Hargs 2%nat _ eq_refl). rewrite app_nil_r in Hargs. exact Hargs.
Defined.
