(* ===== verification/Network.v ===== *)
(** The network client and server ([network/client], [network/server]): a graph library
    behind a connection. *)

From S2P Require Import Prelude Doubles CByteArray Text Edge Zlib Interface Message.

(** ** The calls of the interfaces of a library

    The files of results of a kernel are optional. *)

Inductive Call :=
  | SetTimeout (seconds : Z) | OnMainInit (num_threads : Z) | OnThreadInit (thread_id : Z) | OnThreadDestroy (thread_id : Z)
  | OnMainDestroy | NumEdges | NumVertices | IsDirected | HasVertex (v : Z) | HasEdge (source destination : Z)
  | GetWeight (source destination : Z) | Load (path : text)
  | AddVertex (v : Z) | RemoveVertex (v : Z) | AddEdge (e : WeightedEdge) | RemoveEdge (e : Edge)
  | Batch (updates : list SingleUpdate) (force : bool) | Build | Dump
  | Bfs (source : Z) (path : option text) | Pagerank (num_iterations : Z) (damping_factor : double) (path : option text)
  | Wcc (path : option text) | Cdlp (max_iterations : Z) (path : option text) | Lcc (path : option text)
  | Sssp (source : Z) (path : option text).

Definition result_of (c : Call) : Type :=
  match c with
  | NumEdges | NumVertices => Z
  | IsDirected | HasVertex _ | HasEdge _ _ | AddVertex _ | RemoveVertex _ | AddEdge _ | RemoveEdge _ | Batch _ _ => bool
  | GetWeight _ _ => double
  | Dump => text
  | _ => unit
  end.

(** The classes that an implementation may derive from. *)
Inductive Capability := LoaderInterface | UpdateInterface_ | GraphalyticsInterface.

(** A library: the outcome of a call and the state after it, also after an exception.
    [error_text] is what an exception prints, when it is an error of the program
    ([common::Error]). *)
Class Library := {
  LImpl : Type;
  invoke : LImpl -> forall c : Call, nat -> res (result_of c) * LImpl;
  derives : LImpl -> Capability -> bool;
  library_name : text;
  error_text : exn -> option text;
}.

Section network.
Context `{Library}.

(** The content of new memory. *)
Context (memory : nat -> Z).

Definition malloc (n : nat) : list Z := memory <$> seq 0 n.

Definition next_pow2 (n : nat) : nat := 2 ^ Nat.log2_up n.

(** ** Receiving

    A read delivers at most what the sender has sent and at most [pieces k] bytes,
    the [k]-th time. When nothing is left to be read it delivers 0 bytes, for ever. *)

Fixpoint read_rest (pieces : nat -> nat) (buffer : list Z) (num_bytes_read message_sz : nat) (incoming : list Z) (k fuel : nat) :
    res (list Z * list Z) :=
  if (message_sz <=? num_bytes_read)%nat then Val (buffer, incoming) else
  match fuel with
  | O => NoFuel
  | S fuel =>
    let n := Nat.min (message_sz - num_bytes_read) (pieces k) in
    let bytes := take n incoming in
    buffer ← write_bytes buffer num_bytes_read bytes;
    read_rest pieces buffer (num_bytes_read + length bytes) message_sz (drop n incoming) (S k) fuel
  end.

(** The size of the message comes first; a buffer that is too small is replaced. *)
Definition receive (grow : list Z -> nat -> list Z) (pieces : nat -> nat) (buffer incoming : list Z) : res (list Z * list Z) :=
  let bytes := take (Nat.min 4 (pieces 0%nat)) incoming in
  if negb (length bytes =? 4)%nat then Undef else
  buffer ← write_bytes buffer 0 bytes;
  let message_sz := Z.to_nat (key_of_bytes (take 4 buffer)) in
  let buffer := if (length buffer <? message_sz)%nat then grow buffer message_sz else buffer in
  read_rest pieces buffer 4 message_sz (drop 4 incoming) 1 message_sz.

Definition server_grow (buffer : list Z) (message_sz : nat) : list Z :=
  buffer ++ malloc (next_pow2 message_sz - length buffer).

Definition client_grow (buffer : list Z) (message_sz : nat) : list Z :=
  take 4 buffer ++ malloc (message_sz - 4).

(** ** The server *)

Record Server := mkServer {
  m_interface : LImpl;
  m_server_stop : bool;
  m_terminate_on_last_connection : bool;
  m_num_active_connections : Z;
}.

Definition set_interface (s : Server) (d : LImpl) : Server :=
  mkServer d (m_server_stop s) (m_terminate_on_last_connection s) (m_num_active_connections s).

Record ConnectionHandler := mkConnectionHandler {
  h_buffer_read : list Z;
  h_buffer_write : list Z;
  h_terminate : bool;
}.

Definition ConnectionHandler_new : ConnectionHandler := mkConnectionHandler (malloc 4096) (malloc 4096) false.

(** What the handler sends. *)
Inductive Reply := RMessage (type : ResponseType) (args : list Arg) | RDump (content : text).

Definition ok (args : list Arg) : Reply := RMessage OK args.

(** Evaluating the arguments of a call. *)
Definition with_args {A B} (args : res A) (d : LImpl) (k : A -> res B * LImpl) : res B * LImpl :=
  match args with Val a => k a | Exn e => (Exn e, d) | Undef => (Undef, d) | NoFuel => (NoFuel, d) end.

Definition serve (d : LImpl) (c : Call) (reply : result_of c -> res Reply) (fuel : nat) : res Reply * LImpl :=
  let '(r, d) := invoke d c fuel in (r ≫= reply, d).

(** A call that not every library has. *)
Definition serve_if (d : LImpl) (capability : Capability) (k : res Reply * LImpl) : res Reply * LImpl :=
  if derives d capability then k else (Val (RMessage NOT_SUPPORTED []), d).

Definition reply_bool (b : bool) : res Reply := Val (ok [AUnsigned (Z.b2z b)]).
Definition reply_unit (x : unit) : res Reply := Val (ok []).

Definition optional_path (path : text) : option text := match path with [] => None | _ => Some path end.

Fixpoint read_batch (bytes : list Z) (n : nat) : list SingleUpdate :=
  match n with
  | O => []
  | S n =>
    mkSingleUpdate (key_of_bytes (take 8 bytes)) (key_of_bytes (take 8 (drop 8 bytes)))
      (double_of_bits (key_of_bytes (take 8 (drop 16 bytes)))) :: read_batch (drop 24 bytes) n
  end.

(** A time out of a batch is only expected when the updates are forced. *)
Definition serve_batch (d : LImpl) (m : list Z) (force : bool) (fuel : nat) : res Reply * LImpl :=
  let size := Z.to_nat (message_size m) in
  if negb ((size - header_sz) mod 24 =? 0)%nat then (Undef, d) else
  let '(r, d) := serve d (Batch (read_batch (drop header_sz m) ((size - header_sz) / 24)) force) reply_bool fuel in
  (match r with Exn TimeoutError => if force then Val (RMessage TIMEOUT []) else Undef | _ => r end, d).

(** The kernels. *)
Definition dispatch_kernel (d : LImpl) (type : RequestType) (m : list Z) (fuel : nat) : res Reply * LImpl :=
  match type with
  | BFS =>
    serve_if d GraphalyticsInterface (with_args (path ← get_string m 1; s ← get_uint m 0; Val (s, path)) d (fun p =>
      serve d (Bfs p.1 (optional_path p.2)) reply_unit fuel))
  | PAGERANK =>
    serve_if d GraphalyticsInterface (with_args (path ← get_string m 2; n ← get_uint m 0; f ← get_double m 1; Val (n, f, path)) d (fun p =>
      serve d (Pagerank p.1.1 p.1.2 (optional_path p.2)) reply_unit fuel))
  | WCC => serve_if d GraphalyticsInterface (with_args (get_string m 0) d (fun path => serve d (Wcc (optional_path path)) reply_unit fuel))
  | CDLP =>
    serve_if d GraphalyticsInterface (with_args (path ← get_string m 1; n ← get_uint m 0; Val (n, path)) d (fun p =>
      serve d (Cdlp p.1 (optional_path p.2)) reply_unit fuel))
  | LCC => serve_if d GraphalyticsInterface (with_args (get_string m 0) d (fun path => serve d (Lcc (optional_path path)) reply_unit fuel))
  | SSSP =>
    serve_if d GraphalyticsInterface (with_args (path ← get_string m 1; s ← get_uint m 0; Val (s, path)) d (fun p =>
      serve d (Sssp p.1 (optional_path p.2)) reply_unit fuel))
  | _ => (Exn NetworkError, d)
  end.

(** The calls of the switch on the library. *)
Definition dispatch (d : LImpl) (type : RequestType) (m : list Z) (fuel : nat) : res Reply * LImpl :=
  match type with
  | SET_TIMEOUT => with_args (get_uint m 0) d (fun s => serve d (SetTimeout s) reply_unit fuel)
  | ON_MAIN_INIT => with_args (get_int m 0) d (fun n => serve d (OnMainInit n) reply_unit fuel)
  | ON_THREAD_INIT => with_args (get_int m 0) d (fun n => serve d (OnThreadInit n) reply_unit fuel)
  | ON_THREAD_DESTROY => with_args (get_int m 0) d (fun n => serve d (OnThreadDestroy n) reply_unit fuel)
  | ON_MAIN_DESTROY => serve d OnMainDestroy reply_unit fuel
  | NUM_EDGES => serve d NumEdges (fun n => Val (ok [AUnsigned n])) fuel
  | NUM_VERTICES => serve d NumVertices (fun n => Val (ok [AUnsigned n])) fuel
  | IS_DIRECTED => serve d IsDirected reply_bool fuel
  | HAS_VERTEX => with_args (get_uint m 0) d (fun v => serve d (HasVertex v) reply_bool fuel)
  | HAS_EDGE =>
    with_args (s ← get_uint m 0; t ← get_uint m 1; Val (s, t)) d (fun p => serve d (HasEdge p.1 p.2) reply_bool fuel)
  | GET_WEIGHT =>
    with_args (s ← get_uint m 0; t ← get_uint m 1; Val (s, t)) d (fun p =>
      serve d (GetWeight p.1 p.2) (fun w => z ← static_cast (- 2 ^ 63) (2 ^ 63) w; Val (ok [ASigned z])) fuel)
  | LOAD => serve_if d LoaderInterface (with_args (get_string m 0) d (fun path => serve d (Load path) reply_unit fuel))
  | ADD_VERTEX => serve_if d UpdateInterface_ (with_args (get_uint m 0) d (fun v => serve d (AddVertex v) reply_bool fuel))
  | REMOVE_VERTEX => serve_if d UpdateInterface_ (with_args (get_uint m 0) d (fun v => serve d (RemoveVertex v) reply_bool fuel))
  | ADD_EDGE =>
    serve_if d UpdateInterface_
      (with_args (s ← get_uint m 0; t ← get_uint m 1; w ← get_double m 2; WeightedEdge_new s t w) d
         (fun e => serve d (AddEdge e) reply_bool fuel))
  | REMOVE_EDGE =>
    serve_if d UpdateInterface_
      (with_args (s ← get_uint m 0; t ← get_uint m 1; Val (mkEdge s t)) d (fun e => serve d (RemoveEdge e) reply_bool fuel))
  | BATCH_PLAIN_FORCE_NO => serve_if d UpdateInterface_ (serve_batch d m false fuel)
  | BATCH_PLAIN_FORCE_YES => serve_if d UpdateInterface_ (serve_batch d m true fuel)
  | BUILD => serve_if d UpdateInterface_ (serve d Build reply_unit fuel)
  | DUMP_CLIENT => serve d Dump (fun s => Val (RDump s)) fuel
  | BFS | PAGERANK | WCC | CDLP | LCC | SSSP => dispatch_kernel d type m fuel
  | _ => (Exn NetworkError, d) (* invalid request type *)
  end.

(** The whole switch: the reply, the server and whether the handler ends. *)
Definition process (s : Server) (m : list Z) (fuel : nat) : res Reply * Server * bool :=
  match request_type m with
  | Some TERMINATE_WORKER => (Val (ok []), s, true)
  | Some TERMINATE_SERVER =>
    (Val (ok []), mkServer (m_interface s) true (m_terminate_on_last_connection s) (m_num_active_connections s), true)
  | Some TERMINATE_ON_LAST_CONNECTION =>
    (Val (ok []), mkServer (m_interface s) (m_server_stop s) true (m_num_active_connections s), false)
  | Some LIBRARY_NAME => (Val (ok [AString (Some library_name)]), s, false)
  | Some type => let '(r, d) := dispatch (m_interface s) type m fuel in (r, set_interface s d, false)
  | None => (Exn NetworkError, s, false)
  end.

(** The handlers of the exceptions; what is not an error of the program ends it. *)
Definition catch (r : res Reply) : res Reply :=
  match r with
  | Exn TimeoutError => Val (RMessage TIMEOUT [])
  | Exn e => match error_text e with Some t => Val (RMessage ERROR [AString (Some t)]) | None => Undef end
  | _ => r
  end.

(** [response], and the dump, which is not written into the buffer. *)
Definition respond (h : ConnectionHandler) (r : Reply) : res (list Z * ConnectionHandler) :=
  match r with
  | RMessage type args =>
    buffer ← Message_new (h_buffer_write h) (response_code type) args;
    if message_size buffer <? Z.of_nat (length buffer)
    then Val (message_bytes buffer, mkConnectionHandler (h_buffer_read h) buffer (h_terminate h)) else Undef
  | RDump content =>
    let content := c_str content in
    let message_sz := (header_sz + 8 + length content + 1)%nat in
    let header := bytes_of_key 4 (u32 (Z.of_nat message_sz)) ++ bytes_of_key 4 (response_code OK) ++
                  bytes_of_key 8 (Z.of_nat (length content)) in
    buffer ← write_bytes (h_buffer_write h) 0 header;
    Val (header ++ (code <$> content) ++ [0], mkConnectionHandler (h_buffer_read h) buffer (h_terminate h))
  end.

Definition handle_request (s : Server) (h : ConnectionHandler) (fuel : nat) : res (list Z * Server * ConnectionHandler) :=
  let '(r, s, terminate) := process s (h_buffer_read h) fuel in
  r ← catch r;
  '(bytes, h) ← respond h r;
  Val (bytes, s, mkConnectionHandler (h_buffer_read h) (h_buffer_write h) (h_terminate h || terminate)).

(** The loop of the server, when no client has asked for a connection for a second, and
    its end from outside. *)
Definition main_loop_idle (s : Server) : Server :=
  if m_terminate_on_last_connection s && (m_num_active_connections s =? 0)
  then mkServer (m_interface s) true (m_terminate_on_last_connection s) (m_num_active_connections s) else s.

Definition stop (s : Server) : Server :=
  mkServer (m_interface s) true (m_terminate_on_last_connection s) (m_num_active_connections s).

(** ** Receiving a message *)

(** At least the header and then at least a byte arrive each time. *)
Definition fragments_ok (pieces : nat -> nat) : Prop := (4 <= pieces 0%nat)%nat /\ forall k, (1 <= pieces k)%nat.

Definition grows (grow : list Z -> nat -> list Z) : Prop :=
  forall buffer n, (4 <= length buffer)%nat -> (length buffer < n)%nat ->
    take 4 (grow buffer n) = take 4 buffer /\ (n <= length (grow buffer n))%nat.

Lemma length_malloc n : length (malloc n) = n.
Proof. unfold malloc. by rewrite length_fmap, length_seq. Qed.

Lemma server_grows : grows server_grow.
Proof.
  intros buffer n H4 Hn. unfold server_grow. split; [by rewrite take_app_le|].
  rewrite length_app, length_malloc. unfold next_pow2. pose proof (Nat.log2_up_spec n ltac:(lia)). lia.
Qed.

Lemma client_grows : grows client_grow.
Proof.
  intros buffer n H4 Hn. unfold client_grow. split; [by rewrite take_app_length' by (rewrite length_take; lia)|].
  rewrite length_app, length_take, length_malloc. lia.
Qed.

Lemma read_rest_spec pieces bytes later : (forall k, (1 <= pieces k)%nat) -> forall fuel buffer n k,
  (n <= length bytes)%nat -> (length bytes <= length buffer)%nat -> take n buffer = take n bytes -> (length bytes - n <= fuel)%nat ->
  exists buffer', read_rest pieces buffer n (length bytes) (drop n bytes ++ later) k fuel = Val (buffer', later) /\
    take (length bytes) buffer' = bytes /\ length buffer' = length buffer.
Proof.
  intros Hpieces. induction fuel as [|fuel IH]; intros buffer n k Hn Hl Ht Hfuel; cbn [read_rest].
  - rewrite (proj2 (Nat.leb_le _ _)) by lia. assert (n = length bytes) as -> by lia. rewrite drop_all. exists buffer.
    split; [done|]. split; [by rewrite Ht, firstn_all|done].
  - destruct (Nat.leb_spec (length bytes) n) as [Hle|Hlt].
    { assert (n = length bytes) as -> by lia. rewrite drop_all. exists buffer. split; [done|]. split; [by rewrite Ht, firstn_all|done]. }
    set (r := Nat.min (length bytes - n) (pieces k)). specialize (Hpieces k) as Hk.
    assert (take r (drop n bytes ++ later) = take r (drop n bytes)) as ->.
    { rewrite take_app_le; [done|]. rewrite length_drop. lia. }
    assert (length (take r (drop n bytes)) = r) as Hr by (rewrite length_take, length_drop; lia).
    destruct (write_bytes_spec buffer n (take r (drop n bytes))) as (b & -> & Hlb & Htb & Hdb & _); [rewrite Hr; lia|].
    rewrite res_bind_Val_l, Hr in *.
    assert (drop r (drop n bytes ++ later) = drop (n + r) bytes ++ later) as ->.
    { rewrite drop_app_le by (rewrite length_drop; lia). by rewrite drop_drop. }
    destruct (IH b (n + r)%nat (S k)) as (b' & -> & Htb' & Hlb'); [lia|lia| |lia|].
    + rewrite <- (take_take_drop b n r), Hdb, Htb, Ht. apply take_take_drop.
    + exists b'. split; [done|]. split; [done|]. lia.
Qed.

Lemma receive_spec grow pieces buffer bytes later : grows grow -> fragments_ok pieces -> (4 <= length buffer)%nat ->
  (4 <= length bytes)%nat -> message_size bytes = Z.of_nat (length bytes) ->
  exists buffer', receive grow pieces buffer (bytes ++ later) = Val (buffer', later) /\
    take (length bytes) buffer' = bytes /\ (length buffer <= length buffer')%nat.
Proof.
  intros Hgrow [H0 Hpieces] Hb H4 Hsize. unfold receive. rewrite Nat.min_l by done. rewrite take_app_le by done.
  assert (length (take 4 bytes) = 4%nat) as Hl4 by (rewrite length_take; lia). rewrite Hl4. cbn [Nat.eqb negb].
  destruct (write_bytes_spec buffer 0 (take 4 bytes)) as (b1 & -> & Hl1 & _ & Hd1 & _); [rewrite Hl4; lia|].
  rewrite res_bind_Val_l. rewrite Hl4, drop_0 in Hd1. rewrite Hd1. fold (message_size bytes). rewrite Hsize, Nat2Z.id.
  assert (exists b2, (if (length b1 <? length bytes)%nat then grow b1 (length bytes) else b1) = b2 /\ take 4 b2 = take 4 bytes /\
    (length bytes <= length b2)%nat /\ (length b1 <= length b2)%nat) as (b2 & -> & Ht2 & Hl2 & Hle2).
  { eexists. split; [done|]. destruct (Nat.ltb_spec (length b1) (length bytes)) as [Hlt|Hge]; [|done].
    destruct (Hgrow b1 (length bytes)) as [Ht Hl]; [lia|done|]. split; [by rewrite Ht|]. lia. }
  rewrite drop_app_le by done.
  destruct (read_rest_spec pieces bytes later Hpieces (length bytes) b2 4 1) as (b' & -> & Ht & Hl); [lia|done|done|lia|].
  exists b'. split; [done|]. split; [done|]. lia.
Qed.
End network.
