(* ===== verification/Client.v ===== *)
(** The network client ([network/client]), connected with the server of Network: whoever
    calls it sees the library that the server holds. *)

From S2P Require Import Prelude Doubles CByteArray Text Edge Zlib Interface Message Network.

Section client.
Context `{Library}.
Context (memory : nat -> Z).

Definition max_num_connections : Z := 1024.

Record ConnectionState := mkConnectionState {
  m_buffer_read : list Z;
  m_buffer_write : list Z;
}.

(** The client, as one of its threads sees it, and the server. A connection that is open
    has a handler in the server until one of them terminates it. *)
Record World := mkWorld {
  m_worker_id : Z;
  m_connections : list (option (ConnectionState * option ConnectionHandler));
  w_server : Server;
}.

(** What the network does during an operation: whether a connection is accepted and how
    the messages are cut into pieces. *)
Record Net := mkNet {
  net_accepts : bool;
  to_server : nat -> nat;
  to_client : nat -> nat;
}.

Definition set_active (s : Server) (n : Z) : Server :=
  mkServer (m_interface s) (m_server_stop s) (m_terminate_on_last_connection s) n.

(** ** Requests and responses *)

Definition valid_worker (id : Z) : bool := (0 <=? id) && (id <? max_num_connections).

Definition set_connection (w : World) (l : option (ConnectionState * option ConnectionHandler)) : World :=
  mkWorld (m_worker_id w) (<[Z.to_nat (m_worker_id w) := l]> (m_connections w)) (w_server w).

Definition set_server (w : World) (s : Server) : World := mkWorld (m_worker_id w) (m_connections w) s.

(** The client sends the request, the server handles it and the client waits for the
    response. A handler that terminates is deleted. *)
Definition exchange (net : Net) (w : World) (c : ConnectionState) (h : ConnectionHandler) (bytes : list Z) (fuel : nat) : res World :=
  '(request, _) ← receive (server_grow memory) (to_server net) (h_buffer_read h) bytes;
  '(reply, s, h) ← handle_request (w_server w) (mkConnectionHandler request (h_buffer_write h) (h_terminate h)) fuel;
  '(response, _) ← receive (client_grow memory) (to_client net) (m_buffer_read c) reply;
  let c := mkConnectionState response (m_buffer_write c) in
  Val (if h_terminate h
       then set_connection (set_server w (set_active s (m_num_active_connections s - 1))) (Some (c, None))
       else set_connection (set_server w s) (Some (c, Some h))).

(** Without a connection the buffers are null; when the server has closed it, nothing is
    received. *)
Definition connection (w : World) : res (ConnectionState * ConnectionHandler) :=
  if negb (valid_worker (m_worker_id w)) then Undef else
  match m_connections w !! Z.to_nat (m_worker_id w) with
  | Some (Some (c, Some h)) => Val (c, h)
  | _ => Undef
  end.

Definition request (net : Net) (type : RequestType) (args : list Arg) (w : World) (fuel : nat) : res World :=
  '(c, h) ← connection w;
  buffer ← Message_new (m_buffer_write c) (request_code type) args;
  exchange net w (mkConnectionState (m_buffer_read c) buffer) h (message_bytes buffer) fuel.

Definition response (w : World) : res (list Z) :=
  if negb (valid_worker (m_worker_id w)) then Undef else
  match m_connections w !! Z.to_nat (m_worker_id w) with
  | Some (Some (c, _)) => Val (m_buffer_read c)
  | _ => Undef
  end.

(** ** The calls *)

(** The request of a call; [Batch] writes its own. *)
Definition rpc (c : Call) : RequestType * list Arg :=
  match c with
  | SetTimeout seconds => (SET_TIMEOUT, [AUnsigned seconds])
  | OnMainInit num_threads => (ON_MAIN_INIT, [ASigned num_threads])
  | OnThreadInit thread_id => (ON_THREAD_INIT, [ASigned thread_id])
  | OnThreadDestroy thread_id => (ON_THREAD_DESTROY, [ASigned thread_id])
  | OnMainDestroy => (ON_MAIN_DESTROY, [])
  | NumEdges => (NUM_EDGES, [])
  | NumVertices => (NUM_VERTICES, [])
  | IsDirected => (IS_DIRECTED, [])
  | HasVertex v => (HAS_VERTEX, [AUnsigned v])
  | HasEdge source destination => (HAS_EDGE, [AUnsigned source; AUnsigned destination])
  | GetWeight source destination => (GET_WEIGHT, [AUnsigned source; AUnsigned destination])
  | Load path => (LOAD, [AString (Some path)])
  | AddVertex v => (ADD_VERTEX, [AUnsigned v])
  | RemoveVertex v => (REMOVE_VERTEX, [AUnsigned v])
  | AddEdge e => (ADD_EDGE, [AUnsigned (wsource e); AUnsigned (wdestination e); ADouble (weight e)])
  | RemoveEdge e => (REMOVE_EDGE, [AUnsigned (source e); AUnsigned (destination e)])
  | Batch _ force => (if force then BATCH_PLAIN_FORCE_YES else BATCH_PLAIN_FORCE_NO, [])
  | Build => (BUILD, [])
  | Dump => (DUMP_CLIENT, [])
  | Bfs source path => (BFS, [AUnsigned source; AString (path ≫= optional_path)])
  | Pagerank num_iterations damping_factor path => (PAGERANK, [AUnsigned num_iterations; ADouble damping_factor; AString path])
  | Wcc path => (WCC, [AString path])
  | Cdlp max_iterations path => (CDLP, [AUnsigned max_iterations; AString path])
  | Lcc path => (LCC, [AString path])
  | Sssp source path => (SSSP, [AUnsigned source; AString path])
  end.

Definition when_ok {A} (m : list Z) (result : res A) : res A :=
  match response_type m with Some OK => result | _ => Undef end.

Definition when_supported {A} (m : list Z) (result : res A) : res A :=
  match response_type m with Some OK => result | Some NOT_SUPPORTED => Exn NetworkError | _ => Undef end.

Definition rpc_error {A} (m : list Z) : res A := _ ← get_string m 0; Exn RpcError.

(** What a call makes of the response. *)
Definition decode (c : Call) (m : list Z) : res (result_of c) :=
  match c return res (result_of c) with
  | SetTimeout _ | OnMainInit _ | OnThreadInit _ | OnThreadDestroy _ | OnMainDestroy => when_ok m (Val tt)
  | NumEdges | NumVertices => when_ok m (get_uint m 0)
  | IsDirected | HasVertex _ | HasEdge _ _ => when_ok m (get_bool m 0)
  | GetWeight _ _ => when_ok m (get_double m 0)
  | Load _ =>
    match response_type m with
    | Some NOT_SUPPORTED => Exn NetworkError
    | Some ERROR => rpc_error m
    | Some OK => Val tt
    | _ => Undef
    end
  | AddVertex _ | RemoveVertex _ | AddEdge _ | RemoveEdge _ => when_supported m (get_bool m 0)
  | Build => when_supported m (Val tt)
  | Dump => when_ok m (get_string m 0)
  | Batch _ force =>
    match response_type m with
    | Some TIMEOUT => if force then Exn TimeoutError else Undef
    | Some OK => get_bool m 0
    | _ => Undef
    end
  | Bfs _ _ =>
    match response_type m with
    | Some NOT_SUPPORTED => Exn NetworkError
    | Some ERROR => rpc_error m
    | Some TIMEOUT => Exn TimeoutError
    | Some OK => Val tt
    | None => Undef
    end
  | Pagerank _ _ _ | Wcc _ =>
    match response_type m with
    | Some NOT_SUPPORTED => Exn NetworkError
    | Some TIMEOUT => Exn TimeoutError
    | Some OK => Val tt
    | _ => Undef
    end
  | Cdlp _ _ | Lcc _ | Sssp _ _ =>
    match response_type m with
    | Some NOT_SUPPORTED => Exn NetworkError
    | Some ERROR => rpc_error m
    | Some TIMEOUT => Exn TimeoutError
    | Some OK => Val tt
    | None => Exn NetworkError
    end
  end.

Definition update_bytes (u : SingleUpdate) : list Z :=
  bytes_of_key 8 (su_source u) ++ bytes_of_key 8 (su_destination u) ++ bytes_of_key 8 (bits_of_double (su_weight u)).

Definition batch_bytes (batch : list SingleUpdate) : list Z := concat (update_bytes <$> batch).

(** The request of a batch: the write buffer grows to the next power of 2. *)
Definition batch_request (net : Net) (batch : list SingleUpdate) (force : bool) (w : World) (fuel : nat) : res World :=
  '(c, h) ← connection w;
  let message_sz := u32 (Z.of_nat header_sz + u32 (24 * Z.of_nat (length batch))) in
  let new_size := next_pow2 (Z.to_nat message_sz) in
  let grows := Z.of_nat (length (m_buffer_write c)) <? message_sz in
  if grows && (2 ^ 32 <=? Z.of_nat new_size) then Undef else
  let buffer := if grows then malloc memory new_size else m_buffer_write c in
  buffer ← write_bytes buffer 0 (bytes_of_key 4 message_sz ++ bytes_of_key 4 (request_code (rpc (Batch batch force)).1));
  buffer ← write_bytes buffer header_sz (batch_bytes batch);
  exchange net w (mkConnectionState (m_buffer_read c) buffer) h (message_bytes buffer) fuel.

Definition answer {A} (w : World) (r : res World) (decode : list Z -> res A) : res A * World :=
  match r with
  | Val w => (m ← response w; decode m, w)
  | Exn e => (Exn e, w)
  | Undef => (Undef, w)
  | NoFuel => (NoFuel, w)
  end.

Definition client_call (net : Net) (c : Call) (w : World) (fuel : nat) : res (result_of c) * World :=
  match c return res (result_of c) * World with
  | Batch [] _ => (Val true, w)
  | Batch batch force => answer w (batch_request net batch force w fuel) (decode (Batch batch force))
  | c => answer w (request net (rpc c).1 (rpc c).2 w fuel) (decode c)
  end.

(** ** Connections *)

Definition connect (net : Net) (w : World) : res World :=
  match (if 0 <=? m_worker_id w then m_connections w !! Z.to_nat (m_worker_id w) else None) with
  | None => Undef (* out of the array *)
  | Some (Some _) => Val w
  | Some None =>
    if net_accepts net
    then
      let s := set_active (w_server w) (m_num_active_connections (w_server w) + 1) in
      Val (set_connection (set_server w s) (Some (mkConnectionState (malloc memory 4096) (malloc memory 4096), Some (ConnectionHandler_new memory))))
    else Exn NetworkError
  end.

(** A handler whose client closes the connection reads 0 bytes and ends. *)
Definition disconnect (worker_id : Z) (w : World) : res World :=
  if max_num_connections <=? worker_id then Exn NetworkError else
  match (if 0 <=? worker_id then m_connections w !! Z.to_nat worker_id else None) with
  | None => Undef
  | Some None => Val w
  | Some (Some (_, h)) =>
    let s := match h with
             | Some _ => set_active (w_server w) (m_num_active_connections (w_server w) - 1)
             | None => w_server w
             end in
    Val (mkWorld (m_worker_id w) (<[Z.to_nat worker_id := None]> (m_connections w)) s)
  end.

Definition set_worker (w : World) (id : Z) : World := mkWorld id (m_connections w) (w_server w).

Definition Client_new (net : Net) (s : Server) : res World :=
  connect net (mkWorld 0 (replicate (Z.to_nat max_num_connections) None) s).

Definition on_thread_init (net : Net) (thread_id : Z) (w : World) (fuel : nat) : res unit * World :=
  if (thread_id <? 0) || (max_num_connections <? thread_id) then (Exn NetworkError, w) else
  let w := set_worker w thread_id in
  match connect net w with
  | Val w => client_call net (OnThreadInit thread_id) w fuel
  | Exn e => (Exn e, w)
  | Undef => (Undef, w)
  | NoFuel => (NoFuel, w)
  end.

Definition on_thread_destroy (net : Net) (thread_id : Z) (w : World) (fuel : nat) : res unit * World :=
  let '(r, w) := client_call net (OnThreadDestroy thread_id) w fuel in
  match r with
  | Val _ =>
    if (thread_id =? m_worker_id w) && (0 <? m_worker_id w) then
      match (w ← request net TERMINATE_WORKER [] w fuel; disconnect (m_worker_id w) w) with
      | Val w => (Val tt, set_worker w 0)
      | Exn e => (Exn e, w)
      | Undef => (Undef, w)
      | NoFuel => (NoFuel, w)
      end
    else (Val tt, set_worker w 0)
  | _ => (r, w)
  end.

Definition get_library_name (net : Net) (w : World) (fuel : nat) : res text * World :=
  answer w (request net LIBRARY_NAME [] w fuel) (fun m => when_ok m (get_string m 0)).

Definition terminate_server_on_exit (net : Net) (w : World) (fuel : nat) : res unit * World :=
  answer w (request net TERMINATE_ON_LAST_CONNECTION [] w fuel) (fun m => when_ok m (Val tt)).

Definition dump_file (net : Net) (path : text) (w : World) (fuel : nat) : res unit * World :=
  answer w (request net DUMP_FILE [AString (Some path)] w fuel) (fun m => when_ok m (Val tt)).

Definition Client_destroy (net : Net) (w : World) (fuel : nat) : res World :=
  w ← request net TERMINATE_WORKER [] (set_worker w 0) fuel;
  res_fold (fun w i => disconnect i w) w (Z.of_nat <$> seq 0 (Z.to_nat max_num_connections)).

(** ** What a client sees *)

Definition capability (c : Call) : option Capability :=
  match c with
  | Load _ => Some LoaderInterface
  | AddVertex _ | RemoveVertex _ | AddEdge _ | RemoveEdge _ | Batch _ _ | Build => Some UpdateInterface_
  | Bfs _ _ | Pagerank _ _ _ | Wcc _ | Cdlp _ _ | Lcc _ | Sssp _ _ => Some GraphalyticsInterface
  | _ => None
  end.

Definition supported (d : LImpl) (c : Call) : bool := match capability c with Some x => derives d x | None => true end.

(** The library's answer and state. *)
Definition served (d : LImpl) (c : Call) (fuel : nat) : res (result_of c) * LImpl :=
  if supported d c then invoke d c fuel else (Exn NetworkError, d).

(** The calls whose client expects a time out, and those that expect an error. *)
Definition times_out (c : Call) : bool :=
  match c with
  | Batch _ force => force
  | Bfs _ _ | Pagerank _ _ _ | Wcc _ | Cdlp _ _ | Lcc _ | Sssp _ _ => true
  | _ => false
  end.

Definition is_batch (c : Call) : bool := match c with Batch _ _ => true | _ => false end.

Definition reports_errors (c : Call) : bool :=
  match c with Load _ | Bfs _ _ | Cdlp _ _ | Lcc _ | Sssp _ _ => true | _ => false end.

Definition seen_exn {A} (c : Call) (e : exn) : res A :=
  match e with
  | TimeoutError => if times_out c then Exn TimeoutError else Undef
  | _ => if reports_errors c then Exn RpcError else Undef
  end.

Definition seen_val (c : Call) : result_of c -> res (result_of c) :=
  match c return result_of c -> res (result_of c) with
  | GetWeight _ _ => fun w => z ← static_cast (- 2 ^ 63) (2 ^ 63) w; Val (double_of_bits (u64 z))
  | _ => fun v => Val v
  end.

(** What the client gives back for an answer of the library: the same, but for a weight,
    and for the exceptions that it does not expect. *)
Definition seen (d : LImpl) (c : Call) (r : res (result_of c)) : res (result_of c) :=
  if supported d c then
    match r with Val v => seen_val c v | Exn e => seen_exn c e | Undef => Undef | NoFuel => NoFuel end
  else match c with Batch _ _ => Undef | _ => Exn NetworkError end.

(** Whether the server has a reply: it has none for a weight that no integer of 64 bits
    holds, and its assertion fails when a batch that is not forced times out. *)
Definition server_replies (d : LImpl) (c : Call) (r : res (result_of c)) : bool :=
  negb (supported d c) ||
  match r with
  | Val v => match seen_val c v with Val _ => true | _ => false end
  | Exn TimeoutError => negb (is_batch c && negb (times_out c))
  | _ => true
  end.

(** ** The calls that fit into the buffers *)

Definition path_ok (path : text) : Prop := path <> [] /\ nul ∉ path /\ (length path <= 4000)%nat.

Definition weight_ok (w : double) : Prop := valid_binary 53 1024 w = true.

Definition update_ok (u : SingleUpdate) : Prop := is_u64 (su_source u) /\ is_u64 (su_destination u) /\ weight_ok (su_weight u).

Definition call_ok (c : Call) : Prop :=
  match c with
  | SetTimeout z | HasVertex z | AddVertex z | RemoveVertex z => is_u64 z
  | OnMainInit z | OnThreadInit z | OnThreadDestroy z => - 2 ^ 31 <= z < 2 ^ 31
  | HasEdge s t | GetWeight s t => is_u64 s /\ is_u64 t
  | Load path => path_ok path
  | AddEdge e => is_u64 (wsource e) /\ is_u64 (wdestination e) /\ weight_ok (weight e) /\
      WeightedEdge_new (wsource e) (wdestination e) (weight e) = Val e
  | RemoveEdge e => is_u64 (source e) /\ is_u64 (destination e)
  | Batch us _ => us <> [] /\ Forall update_ok us /\ 24 * Z.of_nat (length us) < 2 ^ 31 - 8
  | Bfs z path | Cdlp z path | Sssp z path => is_u64 z /\ from_option path_ok True path
  | Wcc path | Lcc path => from_option path_ok True path
  | Pagerank z f path => is_u64 z /\ weight_ok f /\ from_option path_ok True path
  | NumEdges | NumVertices | IsDirected | OnMainDestroy | Build | Dump => True
  end.

Definition value_ok (c : Call) : result_of c -> Prop :=
  match c return result_of c -> Prop with
  | NumEdges | NumVertices => fun v => is_u64 v
  | Dump => fun s => nul ∉ s /\ Z.of_nat (length s) < 2 ^ 31 - 24
  | _ => fun _ => True
  end.

(** An answer that can be sent; a time out sends no text. *)
Definition answer_ok (c : Call) (r : res (result_of c)) : Prop :=
  match r with
  | Val v => value_ok c v
  | Exn e => e = TimeoutError \/ exists t, error_text e = Some t /\ nul ∉ t /\ (length t <= 4000)%nat
  | Undef | NoFuel => False
  end.

Definition link_ok (c : ConnectionState) (h : ConnectionHandler) : Prop :=
  (4096 <= length (m_buffer_read c))%nat /\ (4096 <= length (m_buffer_write c))%nat /\
  (4096 <= length (h_buffer_read h))%nat /\ (4096 <= length (h_buffer_write h))%nat /\ h_terminate h = false.

Definition connected (w : World) : Prop := exists c h, connection w = Val (c, h) /\ link_ok c h.

Definition net_ok (net : Net) : Prop := fragments_ok (to_server net) /\ fragments_ok (to_client net).

(** ** The server's reply *)

Definition reply_fits (r : Reply) : Prop :=
  match r with
  | RMessage _ args => (header_sz + args_size args < 4096)%nat
  | RDump s => nul ∉ s /\ Z.of_nat (length s) < 2 ^ 31 - 24
  end.

(** The buffer holds the reply. *)
Definition reply_delivered (r : Reply) (m : list Z) : Prop :=
  match r with
  | RMessage type args => is_message m (response_code type) args
  | RDump s => response_type m = Some OK /\ get_string m 0 = Val s
  end.

Lemma response_code_range t : 0 <= response_code t < 2 ^ 32.
Proof. by destruct t; vm_compute. Qed.

Lemma request_code_range t : 0 <= request_code t < 2 ^ 32.
Proof. by destruct t; vm_compute. Qed.

Lemma response_type_of m t args : is_message m (response_code t) args -> response_type m = Some t.
Proof. intros Hm. unfold response_type. rewrite (im_type _ _ _ Hm). by destruct t. Qed.

Lemma request_type_of m t args : is_message m (request_code t) args -> request_type m = Some t.
Proof. intros Hm. unfold request_type. rewrite (im_type _ _ _ Hm). by destruct t. Qed.

Lemma message_bytes_size m type args : is_message m type args ->
  length (message_bytes m) = (header_sz + args_size args)%nat /\ message_size (message_bytes m) = Z.of_nat (length (message_bytes m)) /\
  forall m', take (length (message_bytes m)) m' = message_bytes m -> is_message m' type args.
Proof.
  intros Hm. pose proof (im_size _ _ _ Hm) as Hs. pose proof (im_length _ _ _ Hm) as Hl.
  assert (length (message_bytes m) = (header_sz + args_size args)%nat) as E by (unfold message_bytes; rewrite length_take, Hs, Nat2Z.id; lia).
  assert (forall m', take (length (message_bytes m)) m' = message_bytes m -> is_message m' type args) as Hp.
  { intros m' Hm'. apply (is_message_prefix m); [done|]. by rewrite <- E. }
  split; [done|]. split; [|done]. rewrite (im_size _ _ _ (Hp (message_bytes m) (firstn_all _))). by rewrite E.
Qed.

Lemma dump_delivered s rest : Z.of_nat (length s) < 2 ^ 31 - 24 ->
  let message_sz := Z.of_nat (header_sz + 8 + length s + 1) in
  reply_delivered (RDump s)
    (bytes_of_key 4 message_sz ++ bytes_of_key 4 (response_code OK) ++ bytes_of_key 8 (Z.of_nat (length s)) ++ (code <$> s) ++ [0] ++ rest).
Proof.
  intros Hs sz. assert (0 <= sz < 2 ^ 31) as Hsz by (unfold sz, header_sz; lia).
  set (tail := bytes_of_key 8 (Z.of_nat (length s)) ++ (code <$> s) ++ [0] ++ rest).
  destruct (header_bytes sz (response_code OK) ltac:(lia) (response_code_range OK) tail) as [Hsize Htype].
  set (m := bytes_of_key 4 sz ++ bytes_of_key 4 (response_code OK) ++ tail) in *. cbn [reply_delivered]. split.
  { unfold response_type. rewrite Htype. by vm_compute. }
  assert (drop 8 m = tail) as Hd8.
  { unfold m. rewrite (app_assoc (bytes_of_key 4 sz)). apply drop_app_length'. by rewrite length_app, !length_bytes_of_key. }
  assert (drop 16 m = (code <$> s) ++ [0] ++ rest) as Hd16.
  { change 16%nat with (8 + 8)%nat. rewrite <- drop_drop, Hd8. unfold tail. apply drop_app_length'. by rewrite length_bytes_of_key. }
  unfold get_string, retrieve, num_arguments. rewrite Hsize, (i32_id sz), u64_id, (proj2 (Z.ltb_lt _ _)).
  - rewrite res_bind_Val_l. change (header_sz + 8 * 0)%nat with 8%nat. change (header_sz + 8 * 1)%nat with 16%nat. rewrite Hd8, Hd16.
    unfold tail. rewrite take_app_length' by (by rewrite length_bytes_of_key). rewrite key_of_bytes_of_key, Z.mod_small by lia.
    rewrite (proj2 (Z.leb_le _ _)).
    + f_equal. rewrite Nat2Z.id, take_app_length' by (by rewrite length_fmap). rewrite <- list_fmap_compose.
      rewrite (list_fmap_ext _ id); [apply list_fmap_id|]. intros j c _. apply code_ascii.
    + assert (length (drop 16 m) = length m - 16)%nat as Hl by apply length_drop. rewrite Hd16, length_app, length_fmap in Hl.
      cbn [length app] in Hl. lia.
  - rewrite i32_id; unfold sz, header_sz in *; [|split; [transitivity 0; [done|apply Z.div_pos; lia]|apply Z.div_lt_upper_bound; lia]].
    apply (Z.lt_le_trans _ 1); [done|]. apply Z.div_le_lower_bound; lia.
  - unfold is_u64, sz, header_sz in *. lia.
  - lia.
Qed.

Lemma respond_spec h r : reply_fits r -> (4096 <= length (h_buffer_write h))%nat ->
  exists out buffer, respond h r = Val (out, mkConnectionHandler (h_buffer_read h) buffer (h_terminate h)) /\
    (4096 <= length buffer)%nat /\ (4 <= length out)%nat /\ message_size out = Z.of_nat (length out) /\
    forall m, take (length out) m = out -> reply_delivered r m.
Proof.
  intros Hfits Hbuf. destruct r as [type args|s]; cbn [reply_fits respond] in *.
  - destruct (message_new_spec (h_buffer_write h) (response_code type) args) as (m & -> & Hl & Hm);
      [lia|lia|apply response_code_range|]. rewrite res_bind_Val_l. rewrite (im_size _ _ _ Hm), (proj2 (Z.ltb_lt _ _)) by lia.
    destruct (message_bytes_size _ _ _ Hm) as (Hlen & Hsize & Hp). exists (message_bytes m), m. split; [done|].
    split; [lia|]. split; [unfold header_sz in *; lia|]. split; [done|]. exact Hp.
  - destruct Hfits as [Hnul Hs]. rewrite c_str_id by done. cbv zeta.
    set (sz := (header_sz + 8 + length s + 1)%nat).
    set (header := bytes_of_key 4 (u32 (Z.of_nat sz)) ++ bytes_of_key 4 (response_code OK) ++ bytes_of_key 8 (Z.of_nat (length s))).
    assert (length header = 16%nat) as Hh by (unfold header; by rewrite !length_app, !length_bytes_of_key).
    destruct (write_bytes_spec (h_buffer_write h) 0 header) as (b & -> & Hl & _); [rewrite Hh; lia|]. rewrite res_bind_Val_l.
    eexists _, b. split; [done|]. split; [lia|]. assert (u32 (Z.of_nat sz) = Z.of_nat sz) as Hu.
    { unfold u32. apply Z.mod_small. unfold sz, header_sz. lia. }
    assert (length (header ++ (code <$> s) ++ [0]) = sz) as Hlen by (rewrite !length_app, length_fmap, Hh; unfold sz, header_sz; cbn [length]; lia).
    rewrite Hlen. split; [unfold sz, header_sz; lia|]. split.
    + unfold header. rewrite <- !app_assoc, Hu. apply header_bytes; [unfold sz, header_sz; lia|apply response_code_range].
    + intros m Hm. rewrite <- (take_drop sz m), Hm. unfold header. rewrite <- !app_assoc, Hu. by apply (dump_delivered s).
Qed.

(** The round trip, once the request is in the buffer. *)
Lemma exchange_result net w c h bytes fuel r s' reply terminate :
  net_ok net -> link_ok c h -> (4 <= length bytes)%nat -> message_size bytes = Z.of_nat (length bytes) ->
  (forall m, take (length bytes) m = bytes -> process (w_server w) m fuel = (r, s', terminate)) ->
  catch r = Val reply -> reply_fits reply ->
  exists c' h', link_ok c' h' /\ reply_delivered reply (m_buffer_read c') /\ exchange net w c h bytes fuel =
    Val (if (terminate : bool)
         then set_connection (set_server w (set_active s' (m_num_active_connections s' - 1))) (Some (c', None))
         else set_connection (set_server w s') (Some (c', Some h'))).
Proof.
  intros [Hto Hfrom] (Hc1 & Hc2 & Hh1 & Hh2 & Hterm) H4 Hsize Hproc Hcatch Hfits. unfold exchange.
  destruct (receive_spec (server_grow memory) (to_server net) (h_buffer_read h) bytes []) as (req & Hreq & Htake & Hlreq);
    [apply server_grows|done|lia|done|done|]. rewrite app_nil_r in Hreq. rewrite Hreq, res_bind_Val_l. cbv beta iota.
  unfold handle_request. cbn [h_buffer_read]. rewrite (Hproc req Htake). cbv beta iota. rewrite Hcatch, res_bind_Val_l.
  destruct (respond_spec (mkConnectionHandler req (h_buffer_write h) (h_terminate h)) reply Hfits Hh2) as (out & buffer & -> & Hlb & Hlo & Hso & Hout).
  rewrite res_bind_Val_l. cbv beta iota. rewrite res_bind_Val_l. cbv beta iota.
  destruct (receive_spec (client_grow memory) (to_client net) (m_buffer_read c) out []) as (resp & Hresp & Htr & Hlresp);
    [apply client_grows|done|lia|done|done|]. rewrite app_nil_r in Hresp. rewrite Hresp, res_bind_Val_l. cbv beta iota.
  cbn [h_terminate h_buffer_read h_buffer_write]. rewrite Hterm. cbn [orb].
  exists (mkConnectionState resp (m_buffer_write c)), (mkConnectionHandler req buffer false). split; [|split; [by apply Hout|by destruct terminate]].
  unfold link_ok. cbn [m_buffer_read m_buffer_write h_buffer_read h_buffer_write h_terminate].
  split; [lia|]. split; [done|]. split; [lia|]. by split.
Qed.

Lemma set_connection_lookup w l : (Z.to_nat (m_worker_id w) < length (m_connections w))%nat ->
  m_connections (set_connection w l) !! Z.to_nat (m_worker_id w) = Some l.
Proof. intros Hl. by apply list_lookup_insert_eq. Qed.

Lemma exchange_spec net w c h bytes fuel r s' reply :
  net_ok net -> valid_worker (m_worker_id w) = true -> (Z.to_nat (m_worker_id w) < length (m_connections w))%nat -> link_ok c h ->
  (4 <= length bytes)%nat -> message_size bytes = Z.of_nat (length bytes) ->
  (forall m, take (length bytes) m = bytes -> process (w_server w) m fuel = (r, s', false)) ->
  catch r = Val reply -> reply_fits reply ->
  exists w' m, exchange net w c h bytes fuel = Val w' /\ response w' = Val m /\ w_server w' = s' /\ connected w' /\ reply_delivered reply m /\
    exists l, w' = set_connection (set_server w s') l.
Proof.
  intros Hnet Hid Hconn Hlink H4 Hsize Hproc Hcatch Hfits.
  destruct (exchange_result net w c h bytes fuel r s' reply false Hnet Hlink H4 Hsize Hproc Hcatch Hfits) as (c' & h' & Hlink' & Hdel & ->).
  eexists _, (m_buffer_read c'). split; [done|]. unfold response, connected, connection.
  change (m_worker_id (set_connection (set_server w s') (Some (c', Some h')))) with (m_worker_id (set_server w s')).
  rewrite set_connection_lookup by done. change (m_worker_id (set_server w s')) with (m_worker_id w). rewrite Hid. cbn [negb].
  split; [done|]. split; [done|]. split; [by exists c', h'|]. split; [done|]. by eexists.
Qed.

(** ** Handling a request *)

Definition reply_of (c : Call) : result_of c -> res Reply :=
  match c return result_of c -> res Reply with
  | NumEdges | NumVertices => fun n => Val (ok [AUnsigned n])
  | IsDirected | HasVertex _ | HasEdge _ _ | AddVertex _ | RemoveVertex _ | AddEdge _ | RemoveEdge _ | Batch _ _ => reply_bool
  | GetWeight _ _ => fun w => z ← static_cast (- 2 ^ 63) (2 ^ 63) w; Val (ok [ASigned z])
  | Dump => fun s => Val (RDump s)
  | _ => reply_unit
  end.


Lemma path_delivered m type args j path : is_message m type args -> args !! j = Some (AString path) ->
  from_option path_ok True path -> get_string m (arg_index args j) = Val (default [] path) /\ optional_path (default [] path) = path.
Proof.
  intros Hm Hj Hp. split.
  - apply (message_delivers _ _ _ _ _ Hm Hj). destruct path as [path|]; [apply Hp|apply not_elem_of_nil].
  - destruct path as [path|]; [|done]. destruct Hp as (Hne & _). by destruct path.
Qed.

Lemma optional_path_bind path : from_option path_ok True path -> path ≫= optional_path = path.
Proof. destruct path as [path|]; [|done]. intros (Hne & _). by destruct path. Qed.

Lemma int_delivered m z : get_int64 m 0 = Val z -> - 2 ^ 31 <= z < 2 ^ 31 -> get_int m 0 = Val z.
Proof. intros E Hz. unfold get_int. rewrite E, res_bind_Val_l. by rewrite i32_id. Qed.

(** The argument at a word. *)
#[local] Ltac word Hdel j lem :=
  let E := fresh "E" in
  pose proof (Hdel j _ eq_refl lem) as E; cbn [delivers] in E; change (arg_index _ j) with j in E; rewrite E, ?res_bind_Val_l; clear E.

#[local] Ltac path Hpath j lem :=
  let E := fresh "E" in let E' := fresh "E" in
  destruct (Hpath j _ eq_refl lem) as [E E']; change (arg_index _ j) with j in E; rewrite E, ?res_bind_Val_l.

(** The server calls the library with the arguments of the client. *)
Lemma dispatch_spec d c m fuel : is_batch c = false -> call_ok c -> is_message m (request_code (rpc c).1) (rpc c).2 ->
  dispatch d (rpc c).1 m fuel =
  if supported d c then let '(r, d') := invoke d c fuel in (r ≫= reply_of c, d') else (Val (RMessage NOT_SUPPORTED []), d).
Proof.
  intros Hb Hok Hm.
  assert (forall j a, (rpc c).2 !! j = Some a -> arg_ok a -> delivers m (arg_index (rpc c).2 j) a) as Hdel
    by (intros j a; by apply (message_delivers _ _ _ _ _ Hm)).
  assert (forall j path, (rpc c).2 !! j = Some (AString path) -> from_option path_ok True path ->
    get_string m (arg_index (rpc c).2 j) = Val (default [] path) /\ optional_path (default [] path) = path) as Hpath
    by (intros j path; by apply (path_delivered _ _ _ _ _ Hm)).
  clear Hm.
  destruct c; try discriminate Hb; cbn [rpc fst snd dispatch dispatch_kernel call_ok] in *; rewrite ?optional_path_bind in * by tauto;
    unfold serve_if, supported; cbn [capability]; try reflexivity; try (destruct (derives _ _); [|reflexivity]).
  - word Hdel 0%nat Hok. reflexivity.
  - pose proof (Hdel 0%nat _ eq_refl ltac:(cbn [arg_ok]; lia)) as E. cbn [delivers] in E. by rewrite (int_delivered _ _ E Hok).
  - pose proof (Hdel 0%nat _ eq_refl ltac:(cbn [arg_ok]; lia)) as E. cbn [delivers] in E. by rewrite (int_delivered _ _ E Hok).
  - pose proof (Hdel 0%nat _ eq_refl ltac:(cbn [arg_ok]; lia)) as E. cbn [delivers] in E. by rewrite (int_delivered _ _ E Hok).
  - word Hdel 0%nat Hok. reflexivity.
  - destruct Hok as [Hs Ht]. word Hdel 0%nat Hs. word Hdel 1%nat Ht. reflexivity.
  - destruct Hok as [Hs Ht]. word Hdel 0%nat Hs. word Hdel 1%nat Ht. reflexivity.
  - path Hpath 0%nat Hok. reflexivity.
  - word Hdel 0%nat Hok. reflexivity.
  - word Hdel 0%nat Hok. reflexivity.
  - destruct Hok as (Hs & Ht & Hw & E). word Hdel 0%nat Hs. word Hdel 1%nat Ht. word Hdel 2%nat Hw. rewrite E. reflexivity.
  - destruct Hok as [Hs Ht]. word Hdel 0%nat Hs. word Hdel 1%nat Ht. by destruct e.
  - destruct Hok as [Hz Hp]. path Hpath 1%nat Hp. word Hdel 0%nat Hz. cbn [with_args fst snd]. by rewrite E0.
  - destruct Hok as (Hz & Hf & Hp). path Hpath 2%nat Hp. word Hdel 0%nat Hz. word Hdel 1%nat Hf. cbn [with_args fst snd]. by rewrite E0.
  - path Hpath 0%nat Hok. cbn [with_args]. by rewrite E0.
  - destruct Hok as [Hz Hp]. path Hpath 1%nat Hp. word Hdel 0%nat Hz. cbn [with_args fst snd]. by rewrite E0.
  - path Hpath 0%nat Hok. cbn [with_args]. by rewrite E0.
  - destruct Hok as [Hz Hp]. path Hpath 1%nat Hp. word Hdel 0%nat Hz. cbn [with_args fst snd]. by rewrite E0.
Qed.

(** ** Batches *)

Lemma word_prefix w rest : is_u64 w -> key_of_bytes (take 8 (bytes_of_key 8 w ++ rest)) = w.
Proof.
  intros Hw. rewrite take_app_length' by (by rewrite length_bytes_of_key). rewrite key_of_bytes_of_key. by apply Z.mod_small.
Qed.

Lemma read_batch_spec us : forall rest, Forall update_ok us -> read_batch (batch_bytes us ++ rest) (length us) = us.
Proof.
  induction us as [|u us IH]; intros rest Hok; [done|]. apply Forall_cons in Hok as [(Hs & Ht & Hw) Hok].
  unfold batch_bytes. cbn [fmap list_fmap concat length read_batch]. fold (batch_bytes us). unfold update_bytes. rewrite <- !app_assoc.
  set (tail := batch_bytes us ++ rest).
  assert (forall w l, drop 8 (bytes_of_key 8 w ++ l) = l) as Hd by (intros w l; apply drop_app_length'; by rewrite length_bytes_of_key).
  change 24%nat with (8 + (8 + 8))%nat. change 16%nat with (8 + 8)%nat. rewrite <- !drop_drop, !Hd, !word_prefix by (done || by apply bits_of_double_range).
  rewrite double_roundtrip by done. unfold tail. rewrite IH by done. by destruct u.
Qed.

Lemma length_batch_bytes us : length (batch_bytes us) = (24 * length us)%nat.
Proof.
  induction us as [|u us IH]; [done|]. unfold batch_bytes. cbn [fmap list_fmap concat length]. fold (batch_bytes us).
  rewrite length_app, IH. unfold update_bytes. rewrite !length_app, !length_bytes_of_key. lia.
Qed.

(** The bytes of a request for a batch. *)
Definition batch_message (us : list SingleUpdate) (force : bool) : list Z :=
  bytes_of_key 4 (Z.of_nat (header_sz + 24 * length us)) ++ bytes_of_key 4 (request_code (rpc (Batch us force)).1) ++ batch_bytes us.

Lemma length_batch_message us force : length (batch_message us force) = (header_sz + 24 * length us)%nat.
Proof. unfold batch_message. rewrite !length_app, !length_bytes_of_key, length_batch_bytes. unfold header_sz. lia. Qed.

Lemma process_batch s us force m fuel : call_ok (Batch us force) -> take (length (batch_message us force)) m = batch_message us force ->
  process s m fuel =
  let '(r, d) := (if derives (m_interface s) UpdateInterface_
                  then let '(r, d) := invoke (m_interface s) (Batch us force) fuel in
                       (match r ≫= reply_bool with Exn TimeoutError => if force then Val (RMessage TIMEOUT []) else Undef | r => r end, d)
                  else (Val (RMessage NOT_SUPPORTED []), m_interface s)) in
  (r, set_interface s d, false).
Proof.
  intros (_ & Hok & Hsmall) Hm. rewrite <- (take_drop (length (batch_message us force)) m), Hm. set (rest := drop _ m).
  unfold batch_message. rewrite <- !app_assoc.
  destruct (header_bytes (Z.of_nat (header_sz + 24 * length us)) (request_code (rpc (Batch us force)).1)
    ltac:(unfold header_sz; lia) (request_code_range _) (batch_bytes us ++ rest)) as [Hsize Htype].
  set (m' := bytes_of_key 4 _ ++ _) in *.
  assert (dispatch (m_interface s) (rpc (Batch us force)).1 m' fuel = serve_if (m_interface s) UpdateInterface_ (serve_batch (m_interface s) m' force fuel))
    as Hdisp by (by destruct force).
  assert (process s m' fuel = let '(r, d) := dispatch (m_interface s) (rpc (Batch us force)).1 m' fuel in (r, set_interface s d, false)) as ->.
  { unfold process, request_type. rewrite Htype. by destruct force. }
  rewrite Hdisp. unfold serve_if. destruct (derives _ _); [|done]. unfold serve_batch. rewrite Hsize, Nat2Z.id.
  replace (header_sz + 24 * length us - header_sz)%nat with (length us * 24)%nat by lia.
  rewrite Nat.Div0.mod_mul, Nat.div_mul by done. cbn [Nat.eqb negb].
  assert (drop header_sz m' = batch_bytes us ++ rest) as ->.
  { unfold m'. rewrite (app_assoc (bytes_of_key 4 _)). apply drop_app_length'. by rewrite length_app, !length_bytes_of_key. }
  rewrite read_batch_spec by done. unfold serve. destruct (invoke _ _ _) as [r d].
  destruct r as [x|e| |]; [|destruct e|..]; reflexivity.
Qed.

(** ** Transparency *)

Lemma exchange_crash net w c h bytes fuel r s' : net_ok net -> link_ok c h -> (4 <= length bytes)%nat ->
  message_size bytes = Z.of_nat (length bytes) ->
  (forall m, take (length bytes) m = bytes -> process (w_server w) m fuel = (r, s', false)) -> catch r = Undef ->
  exchange net w c h bytes fuel = Undef.
Proof.
  intros [Hto _] (_ & _ & Hh1 & _) H4 Hsize Hproc Hcatch. unfold exchange.
  destruct (receive_spec (server_grow memory) (to_server net) (h_buffer_read h) bytes []) as (req & Hreq & Htake & _);
    [apply server_grows|done|lia|done|done|]. rewrite app_nil_r in Hreq. rewrite Hreq, res_bind_Val_l. cbv beta iota.
  unfold handle_request. cbn [h_buffer_read]. rewrite (Hproc req Htake). cbv beta iota. by rewrite Hcatch.
Qed.

(** What the server makes of the library's answer. *)
Definition raw_reply (d : LImpl) (c : Call) (r : res (result_of c)) : res Reply :=
  if supported d c then
    match r ≫= reply_of c, c with
    | Exn TimeoutError, Batch _ force => if force then Val (RMessage TIMEOUT []) else Undef
    | r, _ => r
    end
  else Val (RMessage NOT_SUPPORTED []).

Lemma process_call s c m fuel r d : is_batch c = false -> call_ok c -> is_message m (request_code (rpc c).1) (rpc c).2 ->
  served (m_interface s) c fuel = (r, d) -> process s m fuel = (raw_reply (m_interface s) c r, set_interface s d, false).
Proof.
  intros Hb Hok Hm Hs. pose proof (dispatch_spec (m_interface s) c m fuel Hb Hok Hm) as Hd. apply request_type_of in Hm.
  assert (process s m fuel = let '(r, d) := dispatch (m_interface s) (rpc c).1 m fuel in (r, set_interface s d, false)) as ->.
  { unfold process. rewrite Hm. by destruct c. }
  rewrite Hd. unfold served in Hs. unfold raw_reply. destruct (supported (m_interface s) c).
  - rewrite Hs. destruct (r ≫= reply_of c) as [|[]| |]; by destruct c.
  - by injection Hs as _ <-.
Qed.

Lemma process_batch_call s us force m fuel r d : call_ok (Batch us force) ->
  take (length (batch_message us force)) m = batch_message us force ->
  served (m_interface s) (Batch us force) fuel = (r, d) ->
  process s m fuel = (raw_reply (m_interface s) (Batch us force) r, set_interface s d, false).
Proof.
  intros Hok Hm Hs. rewrite (process_batch s us force) by done. unfold served, raw_reply, supported in *. cbn [capability] in *.
  destruct (derives _ _); [by rewrite Hs|]. by injection Hs as _ <-.
Qed.

Lemma error_fits t : nul ∉ t -> (length t <= 4000)%nat -> reply_fits (RMessage ERROR [AString (Some t)]).
Proof.
  intros Ht Hl. cbn [reply_fits args_size sum_list_with arg_size]. rewrite c_str_id by done.
  pose proof (round_up_bounds (length t)). unfold header_sz. lia.
Qed.

Lemma text_delivered m t : is_message m (response_code ERROR) [AString (Some t)] -> nul ∉ t -> get_string m 0 = Val t.
Proof. intros Hm Ht. by apply (message_delivers _ _ _ 0 (AString (Some t)) Hm eq_refl). Qed.

Lemma bool_delivered m t b : is_message m (response_code t) [AUnsigned (Z.b2z b)] -> get_bool m 0 = Val b.
Proof.
  intros Hm. pose proof (message_delivers _ _ _ 0 (AUnsigned (Z.b2z b)) Hm eq_refl ltac:(by destruct b)) as E. cbn [delivers] in E.
  unfold get_uint in E. change (arg_index _ _) with 0%nat in E. unfold get_bool. rewrite E, res_bind_Val_l. by destruct b.
Qed.

Lemma word_delivered m t z : is_message m (response_code t) [AUnsigned z] -> is_u64 z -> get_uint m 0 = Val z.
Proof. intros Hm Hz. by apply (message_delivers _ _ _ 0 (AUnsigned z) Hm eq_refl). Qed.

Lemma weight_delivered m t z : is_message m (response_code t) [ASigned z] -> get_double m 0 = Val (double_of_bits (u64 z)).
Proof.
  intros Hm. unfold get_double. pose proof (im_args _ _ _ Hm 0 _ eq_refl) as Hh. cbn [holds] in Hh.
  pose proof (retrieve_word _ _ _ 0 _ _ Hm eq_refl Hh (u64_range z)) as E. change (arg_index _ _) with 0%nat in E. by rewrite E.
Qed.

Lemma fits_word a : arg_size a = 8%nat -> reply_fits (ok [a]).
Proof. intros Ha. unfold ok. cbn [reply_fits args_size sum_list_with]. rewrite Ha. apply Nat.ltb_lt. by vm_compute. Qed.

Lemma fits_none t : reply_fits (RMessage t []).
Proof. apply Nat.ltb_lt. by vm_compute. Qed.

Definition replied (d : LImpl) (c : Call) (r : res (result_of c)) : Prop :=
  (exists reply, catch (raw_reply d c r) = Val reply /\ reply_fits reply /\
     forall m, reply_delivered reply m -> decode c m = seen d c r) \/
  (catch (raw_reply d c r) = Undef /\ seen d c r = Undef /\ server_replies d c r = false).

Lemma replied_unsupported d c r : supported d c = false -> replied d c r.
Proof.
  intros Hs. left. exists (RMessage NOT_SUPPORTED []). unfold raw_reply, seen. rewrite Hs. split; [done|]. split; [apply fits_none|].
  intros m Hm%response_type_of. destruct c; cbn [decode]; unfold when_supported; rewrite ?Hm; done.
Qed.

Lemma replied_timeout d c : supported d c = true -> replied d c (Exn TimeoutError).
Proof.
  intros Hs. unfold replied, raw_reply, seen, seen_exn. rewrite Hs. cbn [res_bind mbind].
  destruct (is_batch c && negb (times_out c)) eqn:Hb.
  - right. unfold server_replies. rewrite Hs, Hb. destruct c; try discriminate Hb. by destruct force.
  - left. exists (RMessage TIMEOUT []). split; [destruct c as [| | | | | | | | | | | | | | | |us []| | | | | | | |]; (done || discriminate Hb)|].
    split; [apply fits_none|]. intros m Hm%response_type_of.
    destruct c as [| | | | | | | | | | | | | | | |us []| | | | | | | |]; cbn [decode times_out]; unfold when_ok, when_supported; rewrite ?Hm;
      (done || discriminate Hb).
Qed.

Lemma replied_error d c e t : supported d c = true -> e <> TimeoutError -> error_text e = Some t -> nul ∉ t -> (length t <= 4000)%nat ->
  replied d c (Exn e).
Proof.
  intros Hs He Htext Hnul Hl. left. exists (RMessage ERROR [AString (Some t)]). unfold raw_reply, seen, seen_exn. rewrite Hs. cbn [res_bind mbind].
  split; [|split; [by apply error_fits|]].
  - unfold catch. destruct e, c; (done || by rewrite Htext).
  - intros m Hm. cbn [reply_delivered] in Hm. pose proof (response_type_of _ _ _ Hm) as Ht. pose proof (text_delivered _ _ Hm Hnul) as Hg.
    unfold seen_exn. destruct c; cbn [decode reports_errors]; unfold when_ok, when_supported, rpc_error; rewrite Ht, ?Hg; by destruct e.
Qed.

Lemma replied_val d c v : supported d c = true -> value_ok c v -> replied d c (Val v).
Proof.
  intros Hs Hv.
  assert (forall b, (forall m, reply_delivered (ok [AUnsigned (Z.b2z b)]) m -> get_bool m 0 = Val b)) as Hbool
    by (intros b m Hm; by apply (bool_delivered _ _ _ Hm)).
  assert (forall m args, reply_delivered (ok args) m -> response_type m = Some OK) as Hok by (intros m args; apply response_type_of).
  unfold replied, raw_reply, seen. rewrite Hs. destruct c; cbn [reply_of res_bind mbind decode seen_val value_ok] in *.
  all: try (left; exists (ok []); split; [done|]; split; [apply fits_none|]; intros m Hm; unfold when_ok, when_supported;
            rewrite (Hok _ _ Hm); by destruct v).
  all: try (left; exists (ok [AUnsigned (Z.b2z v)]); split; [done|]; split; [by apply fits_word|]; intros m Hm;
            unfold when_ok, when_supported; rewrite (Hok _ _ Hm); by apply Hbool).
  all: try (left; exists (ok [AUnsigned v]); split; [done|]; split; [by apply fits_word|]; intros m Hm;
            unfold when_ok; rewrite (Hok _ _ Hm); by apply (word_delivered _ _ _ Hm)).
  - unfold server_replies. rewrite Hs. cbn [seen_val]. unfold static_cast. destruct (dtrunc v) as [z|]; [|by right].
    destruct (_ && _); [|by right]. left. exists (ok [ASigned z]).
    split; [done|]. split; [by apply fits_word|]. intros m Hm. unfold when_ok. rewrite (Hok _ _ Hm). by apply (weight_delivered _ _ _ Hm).
  - left. exists (RDump v). split; [done|]. split; [done|]. intros m [Ht Hg]. unfold when_ok. by rewrite Ht.
Qed.

Lemma answer_replied d c r : (supported d c = true -> answer_ok c r) -> replied d c r.
Proof.
  intros Hok. destruct (supported d c) eqn:Hs; [|by apply replied_unsupported]. specialize (Hok eq_refl).
  destruct r as [v|e| |]; cbn [answer_ok] in Hok; [by apply replied_val| |done..].
  destruct (decide (e = TimeoutError)) as [->|Hne]; [by apply replied_timeout|]. destruct Hok as [?|(t & Ht & Hnul & Hl)]; [done|].
  by apply (replied_error d c e t).
Qed.

Lemma path_size path : from_option path_ok True path -> (arg_size (AString path) <= 4008)%nat.
Proof.
  destruct path as [path|]; cbn [from_option arg_size]; [|lia]. intros (_ & Hnul & Hl). rewrite c_str_id by done.
  unfold round_up. assert ((length path + 7) / 8 <= 500)%nat as Hd; [|lia].
  apply Nat.lt_succ_r, Nat.Div0.div_lt_upper_bound. lia.
Qed.

Lemma rpc_fits c : call_ok c -> (header_sz + args_size (rpc c).2 <= 4040)%nat.
Proof.
  intros Hok. destruct c; cbn [rpc snd call_ok args_size sum_list_with] in *; unfold header_sz;
    rewrite ?optional_path_bind by tauto; try (cbn [arg_size]; lia);
    repeat match goal with |- context [arg_size (AString ?p)] =>
      let E := fresh in assert (arg_size (AString p) <= 4008)%nat as E by (apply path_size; tauto); revert E;
      generalize (arg_size (AString p)) end;
    intros; cbn [arg_size]; lia.
Qed.

Lemma connected_valid w c h : connection w = Val (c, h) ->
  valid_worker (m_worker_id w) = true /\ (Z.to_nat (m_worker_id w) < length (m_connections w))%nat.
Proof.
  unfold connection. destruct (valid_worker _); [|done]. cbn [negb]. intros E. split; [done|].
  destruct (m_connections w !! Z.to_nat (m_worker_id w)) eqn:Hl; [|done]. by eapply lookup_lt_Some.
Qed.

(** A request in the write buffer whose reply is decoded. *)
Lemma answer_exchange net w c k h bytes fuel call r d : net_ok net -> connection w = Val (c, h) ->
  link_ok (mkConnectionState (m_buffer_read k) (m_buffer_write k)) h -> (4 <= length bytes)%nat -> message_size bytes = Z.of_nat (length bytes) ->
  (forall m, take (length bytes) m = bytes ->
    process (w_server w) m fuel = (raw_reply (m_interface (w_server w)) call r, set_interface (w_server w) d, false)) ->
  replied (m_interface (w_server w)) call r ->
  exists w', answer w (exchange net w k h bytes fuel) (decode call) = (seen (m_interface (w_server w)) call r, w') /\
    (server_replies (m_interface (w_server w)) call r = true -> m_interface (w_server w') = d /\ connected w').
Proof.
  intros Hnet Hconn Hlink H4 Hsize Hproc [(reply & Hcatch & Hfits & Hdec)|(Hcatch & Hseen & Hno)].
  - destruct (connected_valid _ _ _ Hconn) as [Hid Hlt].
    destruct (exchange_spec net w k h bytes fuel _ _ reply Hnet Hid Hlt Hlink H4 Hsize Hproc Hcatch Hfits)
      as (w' & m & -> & Hresp & Hsrv & Hconn' & Hdel & _).
    exists w'. cbn [answer]. rewrite Hresp, res_bind_Val_l. split; [by rewrite Hdec|]. intros _. by rewrite Hsrv.
  - rewrite (exchange_crash net w k h bytes fuel _ _ Hnet Hlink H4 Hsize Hproc Hcatch). exists w. by rewrite Hseen, Hno.
Qed.

Lemma call_transparent net w c fuel r d : net_ok net -> connected w -> is_batch c = false -> call_ok c ->
  served (m_interface (w_server w)) c fuel = (r, d) -> (supported (m_interface (w_server w)) c = true -> answer_ok c r) ->
  exists w', client_call net c w fuel = (seen (m_interface (w_server w)) c r, w') /\
    (server_replies (m_interface (w_server w)) c r = true -> m_interface (w_server w') = d /\ connected w').
Proof.
  intros Hnet (cs & h & Hconn & Hlink) Hb Hok Hserved Hans.
  assert (client_call net c w fuel = answer w (request net (rpc c).1 (rpc c).2 w fuel) (decode c)) as -> by (by destruct c).
  unfold request. rewrite Hconn, res_bind_Val_l. cbv beta iota. pose proof (rpc_fits c Hok) as Hfit. destruct Hlink as (H1 & H2 & H3).
  destruct (message_new_spec (m_buffer_write cs) (request_code (rpc c).1) (rpc c).2) as (m & -> & Hl & Hm);
    [lia|lia|apply request_code_range|]. rewrite res_bind_Val_l. destruct (message_bytes_size _ _ _ Hm) as (Hlen & Hsize & Hp).
  apply (answer_exchange net w cs); [done|done|split; [done|]; cbn [m_buffer_write]; split; [lia|done]|unfold header_sz in *; lia|done| |by apply answer_replied].
  intros m' Hm'. apply process_call; [done|done|by apply Hp|done].
Qed.

Lemma next_pow2_le n k : (n <= 2 ^ k)%nat -> (next_pow2 n <= 2 ^ k)%nat.
Proof. intros Hn. unfold next_pow2. apply Nat.pow_le_mono_r; [done|]. apply Nat.log2_up_le_mono in Hn. by rewrite Nat.log2_up_pow2 in Hn by lia. Qed.

(** The write buffer of a batch. *)
Lemma batch_buffer buffer us force : call_ok (Batch us force) -> (4096 <= length buffer)%nat ->
  let message_sz := Z.of_nat (header_sz + 24 * length us) in
  u32 (Z.of_nat header_sz + u32 (24 * Z.of_nat (length us))) = message_sz /\
  (Z.of_nat (length buffer) <? message_sz) && (2 ^ 32 <=? Z.of_nat (next_pow2 (Z.to_nat message_sz))) = false /\
  exists b1 b2,
    write_bytes (if Z.of_nat (length buffer) <? message_sz then malloc memory (next_pow2 (Z.to_nat message_sz)) else buffer) 0
      (bytes_of_key 4 message_sz ++ bytes_of_key 4 (request_code (rpc (Batch us force)).1)) = Val b1 /\
    write_bytes b1 header_sz (batch_bytes us) = Val b2 /\ (4096 <= length b2)%nat /\ message_bytes b2 = batch_message us force.
Proof.
  intros (Hne & _ & Hsmall) Hb sz. assert (0 <= sz < 2 ^ 31) as Hsz by (unfold sz, header_sz; lia). split; [|split].
  - unfold u32. rewrite (Z.mod_small (24 * _)) by lia. rewrite Z.mod_small; unfold sz, header_sz in *; lia.
  - apply andb_false_iff. right. apply Z.leb_gt.
    assert (next_pow2 (Z.to_nat sz) <= 2 ^ 31)%nat as Hp.
    { apply next_pow2_le. apply Nat2Z.inj_le. rewrite Nat2Z.inj_pow. change (Z.of_nat 2 ^ Z.of_nat 31) with (2 ^ 31). lia. }
    apply Nat2Z.inj_le in Hp. rewrite Nat2Z.inj_pow in Hp. change (Z.of_nat 2 ^ Z.of_nat 31) with (2 ^ 31) in Hp. lia.
  - set (b0 := if Z.of_nat (length buffer) <? sz then malloc memory (next_pow2 (Z.to_nat sz)) else buffer).
    assert (4096 <= length b0 /\ header_sz + 24 * length us <= length b0)%nat as [Hl0 Hfit].
    { unfold b0. destruct (Z.ltb_spec (Z.of_nat (length buffer)) sz) as [Hlt|Hge]; [|unfold sz, header_sz in *; lia].
      rewrite length_malloc. assert (Z.to_nat sz <= next_pow2 (Z.to_nat sz))%nat as Hp; [|unfold sz, header_sz in *; lia].
      unfold next_pow2. apply Nat.log2_up_spec. unfold sz, header_sz in *. lia. }
    set (header := bytes_of_key 4 sz ++ _).
    assert (length header = header_sz) as Hh by (unfold header; by rewrite length_app, !length_bytes_of_key).
    destruct (write_bytes_spec b0 0 header) as (b1 & E1 & Hl1 & _ & Hd1 & _); [rewrite Hh; lia|].
    destruct (write_bytes_spec b1 header_sz (batch_bytes us)) as (b2 & E2 & Hl2 & Ht2 & Hd2 & _); [rewrite length_batch_bytes; lia|].
    exists b1, b2. split; [done|]. split; [done|]. split; [lia|]. rewrite drop_0, Hh in Hd1. rewrite length_batch_bytes in Hd2.
    assert (take (header_sz + 24 * length us) b2 = batch_message us force) as E.
    { rewrite <- take_take_drop, Hd2, Ht2, Hd1. unfold header, batch_message. by rewrite <- app_assoc. }
    assert (message_size b2 = sz) as Hsize.
    { unfold message_size. rewrite <- (take_take_ge b2 4 header_sz), Ht2, Hd1 by (unfold header_sz; lia). unfold header.
      rewrite take_app_length' by (by rewrite length_bytes_of_key). rewrite key_of_bytes_of_key. apply Z.mod_small. lia. }
    unfold message_bytes. rewrite Hsize. unfold sz. by rewrite Nat2Z.id.
Qed.

Lemma batch_transparent net w us force fuel r d : net_ok net -> connected w -> call_ok (Batch us force) ->
  served (m_interface (w_server w)) (Batch us force) fuel = (r, d) ->
  (supported (m_interface (w_server w)) (Batch us force) = true -> answer_ok (Batch us force) r) ->
  exists w', client_call net (Batch us force) w fuel = (seen (m_interface (w_server w)) (Batch us force) r, w') /\
    (server_replies (m_interface (w_server w)) (Batch us force) r = true -> m_interface (w_server w') = d /\ connected w').
Proof.
  intros Hnet (cs & h & Hconn & Hlink) Hok Hserved Hans.
  assert (client_call net (Batch us force) w fuel = answer w (batch_request net us force w fuel) (decode (Batch us force))) as ->.
  { destruct Hok as (Hne & _). by destruct us. }
  destruct Hlink as (H1 & H2 & H3). unfold batch_request. rewrite Hconn, res_bind_Val_l. cbv beta iota zeta.
  destruct (batch_buffer (m_buffer_write cs) us force Hok H2) as (-> & -> & b1 & b2 & E1 & E2 & Hl & Hbytes).
  rewrite E1, res_bind_Val_l, E2, res_bind_Val_l, Hbytes. pose proof (length_batch_message us force) as Hlm.
  apply (answer_exchange net w cs); [done|done|done|rewrite Hlm; unfold header_sz; lia| | |by apply answer_replied].
  - rewrite Hlm. unfold batch_message. apply header_bytes; [|apply request_code_range]. destruct Hok as (_ & _ & Hsmall). unfold header_sz. lia.
  - intros m Hm. by apply process_batch_call.
Qed.

(** ** The life of a connection *)

Lemma connect_opens net w : net_accepts net = true -> valid_worker (m_worker_id w) = true ->
  m_connections w !! Z.to_nat (m_worker_id w) = Some None ->
  exists w', connect net w = Val w' /\ connected w' /\ m_worker_id w' = m_worker_id w /\
    w_server w' = set_active (w_server w) (m_num_active_connections (w_server w) + 1).
Proof.
  intros Hnet Hid Hnone. unfold connect. pose proof Hid as [Hge _]%andb_true_iff. rewrite Hge, Hnone, Hnet. eexists. split; [done|].
  split; [|done]. unfold connected, connection, set_connection, set_server. cbn [m_worker_id m_connections]. rewrite Hid. cbn [negb].
  rewrite list_lookup_insert_eq by (by eapply lookup_lt_Some). eexists _, _. split; [done|].
  unfold link_ok, ConnectionHandler_new. cbn [m_buffer_read m_buffer_write h_buffer_read h_buffer_write h_terminate].
  rewrite length_malloc. by repeat split.
Qed.

Lemma Client_new_connected net s : net_accepts net = true ->
  exists w, Client_new net s = Val w /\ connected w /\ w_server w = set_active s (m_num_active_connections s + 1).
Proof.
  intros Hnet. unfold Client_new. set (w0 := mkWorld 0 _ s). destruct (connect_opens net w0 Hnet eq_refl) as (w & E & Hc & _ & Hs).
  { unfold w0. cbn [m_connections m_worker_id]. apply lookup_replicate_2. unfold max_num_connections. lia. }
  exists w. by rewrite Hs.
Qed.

(** Starting a worker opens its own connection and reaches the library. *)
Lemma on_thread_init_connects net id w fuel r d : net_ok net -> net_accepts net = true -> valid_worker id = true ->
  m_connections w !! Z.to_nat id = Some None -> invoke (m_interface (w_server w)) (OnThreadInit id) fuel = (Val r, d) ->
  exists w', on_thread_init net id w fuel = (Val r, w') /\ m_interface (w_server w') = d /\ connected w'.
Proof.
  intros Hnet Hacc Hid Hnone Hinv. unfold on_thread_init. pose proof Hid as [Hge%Z.leb_le Hlt%Z.ltb_lt]%andb_true_iff.
  rewrite (proj2 (Z.ltb_ge id 0)), (proj2 (Z.ltb_ge max_num_connections id)) by lia. cbn [orb].
  destruct (connect_opens net (set_worker w id) Hacc Hid Hnone) as (w1 & -> & Hc & _ & Hs).
  destruct (call_transparent net w1 (OnThreadInit id) fuel (Val r) d Hnet Hc eq_refl) as (w' & -> & Hw').
  - unfold max_num_connections in Hlt. cbn [call_ok]. lia.
  - unfold served. rewrite Hs. exact Hinv.
  - done.
  - exists w'. split; [done|]. apply Hw'. done.
Qed.

(** The last identifier that the check accepts is out of the array. *)
Lemma on_thread_init_1024 net w fuel : length (m_connections w) = Z.to_nat max_num_connections ->
  (on_thread_init net 1024 w fuel).1 = Undef.
Proof.
  intros Hl. unfold on_thread_init, connect. cbn [set_worker m_worker_id m_connections].
  rewrite lookup_ge_None_2 by (rewrite Hl; unfold max_num_connections; lia). done.
Qed.

(** ** The end of the server *)

(** A request without arguments whose handling the library does not see. *)
Lemma control_request net w type s' terminate fuel : net_ok net -> connected w ->
  (forall m, request_type m = Some type -> process (w_server w) m fuel = (Val (ok []), s', terminate)) ->
  exists c' h', link_ok c' h' /\ response_type (m_buffer_read c') = Some OK /\ request net type [] w fuel =
    Val (if (terminate : bool)
         then set_connection (set_server w (set_active s' (m_num_active_connections s' - 1))) (Some (c', None))
         else set_connection (set_server w s') (Some (c', Some h'))).
Proof.
  intros Hnet (cs & h & Hconn & H1 & H2 & H3) Hproc. unfold request. rewrite Hconn, res_bind_Val_l. cbv beta iota.
  destruct (message_new_spec (m_buffer_write cs) (request_code type) []) as (m & -> & Hl & Hm);
    [cbn; lia|by cbn|apply request_code_range|]. rewrite res_bind_Val_l. destruct (message_bytes_size _ _ _ Hm) as (Hlen & Hsize & Hp).
  destruct (exchange_result net w (mkConnectionState (m_buffer_read cs) m) h (message_bytes m) fuel (Val (ok [])) s' (ok []) terminate)
    as (c' & h' & Hlink & Hdel & E); [done|split; [done|]; cbn [m_buffer_write]; split; [lia|done]|unfold header_sz in *; lia|done| |done|apply fits_none|].
  - intros m' Hm'. apply Hproc. by apply (request_type_of m' type []), Hp.
  - exists c', h'. split; [done|]. split; [|done]. by apply (response_type_of _ _ [] Hdel).
Qed.

Lemma disconnect_none i w : 0 <= i < max_num_connections -> m_connections w !! Z.to_nat i = Some None -> disconnect i w = Val w.
Proof.
  intros Hi Hn. unfold disconnect. rewrite (proj2 (Z.leb_gt max_num_connections i)), (proj2 (Z.leb_le 0 i)) by lia. by rewrite Hn.
Qed.

Lemma disconnect_all l : forall w, (forall i, i ∈ l -> 0 <= i < max_num_connections /\ m_connections w !! Z.to_nat i = Some None) ->
  res_fold (fun w i => disconnect i w) w l = Val w.
Proof.
  induction l as [|i l IH]; intros w Hl; [done|]. cbn [res_fold]. destruct (Hl i ltac:(by left)) as [Hi Hn].
  rewrite (disconnect_none i w Hi Hn), res_bind_Val_l. apply IH. intros j Hj. apply Hl. by right.
Qed.

Lemma set_worker_id w : set_worker w (m_worker_id w) = w.
Proof. by destruct w. Qed.

(** When the only client has asked the server to terminate after it, and ends, the server
    ends once its loop is idle. *)
Lemma last_client_stops_server net w fuel : net_ok net -> connected w -> m_worker_id w = 0 ->
  length (m_connections w) = Z.to_nat max_num_connections ->
  (forall i, 0 < i < max_num_connections -> m_connections w !! Z.to_nat i = Some None) -> m_num_active_connections (w_server w) = 1 ->
  exists w1 w2, terminate_server_on_exit net w fuel = (Val tt, w1) /\ Client_destroy net w1 fuel = Val w2 /\
    m_server_stop (main_loop_idle (w_server w2)) = true /\ m_interface (w_server w2) = m_interface (w_server w).
Proof.
  intros Hnet Hw Hid Hlen Hnone Hactive. unfold terminate_server_on_exit.
  set (s1 := mkServer (m_interface (w_server w)) (m_server_stop (w_server w)) true (m_num_active_connections (w_server w))).
  destruct (control_request net w TERMINATE_ON_LAST_CONNECTION s1 false fuel Hnet Hw) as (c1 & h1 & Hlink1 & Hr1 & ->).
  { intros m Hm. unfold process. by rewrite Hm. }
  assert (Z.to_nat (m_worker_id w) < length (m_connections w))%nat as Hlt by (rewrite Hlen, Hid; unfold max_num_connections; lia).
  set (w1 := set_connection (set_server w s1) (Some (c1, Some h1))).
  assert (m_connections w1 !! 0%nat = Some (Some (c1, Some h1))) as Hconn1.
  { pose proof (set_connection_lookup (set_server w s1) (Some (c1, Some h1)) Hlt) as E. fold w1 in E.
    change (m_worker_id (set_server w s1)) with (m_worker_id w) in E. by rewrite Hid in E. }
  assert (m_worker_id w1 = 0) as Hid1 by done. exists w1.
  assert (connected w1) as Hw1.
  { exists c1, h1. split; [|done]. unfold connection. rewrite Hid1. cbn [valid_worker negb]. change (Z.to_nat 0) with 0%nat. by rewrite Hconn1. }
  destruct (control_request net w1 TERMINATE_WORKER s1 true fuel Hnet Hw1) as (c2 & h2 & _ & _ & E2).
  { intros m Hm. unfold process. by rewrite Hm. }
  unfold Client_destroy. rewrite <- Hid1, set_worker_id, E2, res_bind_Val_l.
  set (w2 := set_connection (set_server w1 _) _).
  assert (m_connections w2 = <[0%nat := Some (c2, None)]> (m_connections w1)) as Hc2.
  { change (m_connections w2) with (<[Z.to_nat (m_worker_id w1) := Some (c2, @None ConnectionHandler)]> (m_connections w1)). by rewrite Hid1. }
  assert (m_connections w1 = <[0%nat := Some (c1, Some h1)]> (m_connections w)) as Hc1.
  { change (m_connections w1) with (<[Z.to_nat (m_worker_id w) := Some (c1, Some h1)]> (m_connections w)). by rewrite Hid. }
  assert (Z.of_nat <$> seq 0 (Z.to_nat max_num_connections) = 0 :: (Z.of_nat <$> seq 1 1023)) as -> by done. cbn [res_fold].
  assert (disconnect 0 w2 = Val (mkWorld (m_worker_id w2) (<[0%nat := None]> (m_connections w2)) (w_server w2))) as ->.
  { unfold disconnect. cbn [Z.leb max_num_connections]. change (Z.to_nat 0) with 0%nat. rewrite Hc2, list_lookup_insert_eq; [done|].
    rewrite Hc1, length_insert. lia. }
  rewrite res_bind_Val_l, disconnect_all.
  - eexists. split.
    { cbn [answer]. unfold response. rewrite Hid1. change (valid_worker 0) with true. cbn [negb]. change (Z.to_nat 0) with 0%nat. rewrite Hconn1, res_bind_Val_l.
      unfold when_ok. by rewrite Hr1. }
    split; [done|]. change (w_server (mkWorld _ _ (w_server w2))) with (set_active s1 (m_num_active_connections s1 - 1)).
    unfold main_loop_idle, s1. cbn [set_active m_terminate_on_last_connection m_num_active_connections]. by rewrite Hactive.
  - intros i Hi. apply list_elem_of_fmap in Hi as (k & -> & Hk). apply elem_of_seq in Hk. unfold max_num_connections. split; [lia|].
    cbn [m_connections]. rewrite Nat2Z.id, Hc2, Hc1, !list_lookup_insert_ne by lia. rewrite <- (Nat2Z.id k). apply Hnone.
    unfold max_num_connections. lia.
Qed.

(** C8: what a client makes of the library that the server holds. Through a connection that
    cuts the messages into pieces, every call with arguments that fit runs once on the library
    of the server, and the client gives back what [seen] says: a value as it is, except
    for the weight of an edge, which is truncated to an integer whose bits are read as a double;
    a time out of a kernel or of a forced batch as a time out; any other exception of [load], [bfs],
    [cdlp], [lcc] and [sssp] as an error of the remote call; an operation that the library does
    not have as a network error. All other exceptions, and a batch that the library does not
    have, end in a failed assertion of the client. Whenever the server replies, the library
    is left as the call leaves it and the connection is ready for the next call. *)
Theorem client_transparent net w c fuel r d (Hnet : net_ok net) (Hw : connected w) (Hcall : call_ok c)
  (Hserved : served (m_interface (w_server w)) c fuel = (r, d))
  (Hanswer : supported (m_interface (w_server w)) c = true -> answer_ok c r) :
  exists w', client_call net c w fuel = (seen (m_interface (w_server w)) c r, w') /\
    (server_replies (m_interface (w_server w)) c r = true -> m_interface (w_server w') = d /\ connected w').
Proof.
  destruct (is_batch c) eqn:Hb; [|by apply call_transparent]. destruct c; try discriminate Hb. by apply batch_transparent.
Qed.
End client.

(** A weight of 2 arrives as the double whose bits are those of the integer 2. *)
Lemma get_weight_reinterprets `{Library} s t :
  seen_val (GetWeight s t) (double_of_Z 2) = Val (S754_finite false 2 (-1074)).
Proof. by vm_compute. Qed.

(** ** Example: a set of vertices behind a connection *)

Definition ex_invoke (d : list Z) (c : Call) (fuel : nat) : res (result_of c) * list Z :=
  match c return res (result_of c) * list Z with
  | AddVertex v => if bool_decide (v ∈ d) then (Val false, d) else (Val true, v :: d)
  | HasVertex v => (Val (bool_decide (v ∈ d)), d)
  | NumVertices => (Val (Z.of_nat (length d)), d)
  | Bfs _ _ => (Exn TimeoutError, d)
  | _ => (Exn InvalidArgument, d)
  end.

Definition ex_library : Library := {|
  LImpl := list Z;
  invoke := ex_invoke;
  derives := fun _ c => match c with LoaderInterface => false | _ => true end;
  library_name := text_of "set";
  error_text := fun _ => Some (text_of "error");
|}.

Definition ex_net : Net := mkNet true (fun k => match k with O => 5%nat | _ => 3%nat end) (fun k => (4 + k)%nat).

Lemma client_transparent_witness : exists w w' : World (H := ex_library),
  Client_new (H := ex_library) (fun _ => 0) ex_net (mkServer (H := ex_library) [7] false false 0) = Val w /\
  client_call (H := ex_library) (fun _ => 0) ex_net (AddVertex 5) w 0 = (Val true, w') /\
  m_interface (w_server w') = [5; 7].
Proof.
  destruct (Client_new_connected (H := ex_library) (fun _ => 0) ex_net (mkServer (H := ex_library) [7] false false 0) eq_refl) as (w & Hnew & Hw & Hs).
  destruct (client_transparent (H := ex_library) (fun _ => 0) ex_net w (AddVertex 5) 0 (Val true) [5; 7]) as (w' & Hcall & Hok).
  - split; (split; [by apply Nat.leb_le|]); intros [|k]; cbn; lia.
  - exact Hw.
  - by split.
  - rewrite Hs. by vm_compute.
  - by intros _.
  - exists w, w'. split; [exact Hnew|]. split; [rewrite Hcall, Hs; reflexivity|]. apply Hok. by rewrite Hs.
Defined.
