(* ===== verification/Statistics.v ===== *)
(** The statistics of the measurements: [experiment/details/latency] for the
    latencies of the updates, [experiment/statistics] for the executions of a
    kernel. *)

From S2P Require Import Prelude CByteArray.

(** ** [LatencyStatistics] *)

Record LatencyStatistics := mkLatencyStatistics {
  m_num_operations : Z;
  m_mean : Z;
  m_stddev : Z;
  m_min : Z;
  m_max : Z;
  m_median : Z;
  m_percentile90 : Z;
  m_percentile95 : Z;
  m_percentile97 : Z;
  m_percentile99 : Z;
}.

Definition instance : LatencyStatistics := mkLatencyStatistics 0 0 0 0 0 0 0 0 0 0.

Definition get_percentile (A : list Z) (index : Z) : res Z :=
  let pos := u64 (index * Z.of_nat (length A)) / 100 in
  arr_get A (Z.to_nat (if 0 <? pos then pos - 1 else 0)).

(** The body of the loop: the sum, the sum of the squares, the least and the
    greatest value. *)
Definition add_value (st : Z * Z * Z * Z) (value : Z) : Z * Z * Z * Z :=
  let '(sum, sum2, vmin, vmax) := st in
  (u64 (sum + value), u64 (sum2 + u64 (value * value)), Z.min value vmin, Z.max value vmax).

Definition median (A : list Z) : res Z :=
  let n := length A in
  if (n mod 2 =? 0)%nat then
    a ← arr_get A (n / 2);
    b ← arr_get A (n / 2 - 1);
    Val (u64 (a + b) / 2)
  else arr_get A (n / 2).

(** The array is sorted in place: the statistics and the array. *)
Definition compute_statistics (arr : list Z) : res (LatencyStatistics * list Z) :=
  if decide (arr = []) then Val (instance, arr) else
  let '(sum, sum2, vmin, vmax) := foldl add_value (0, 0, uint64_max, 0) arr in
  let n := Z.of_nat (length arr) in
  let mean := sum / n in
  let stddev := u64 (sum2 / n - u64 (mean * mean)) in
  let arr := merge_sort Z.le arr in
  p90 ← get_percentile arr 90;
  p95 ← get_percentile arr 95;
  p97 ← get_percentile arr 97;
  p99 ← get_percentile arr 99;
  m ← median arr;
  Val (mkLatencyStatistics n mean stddev vmin vmax m p90 p95 p97 p99, arr).

(** ** [ExecStatistics] *)

Record ExecStatistics := mkExecStatistics {
  es_m_num_trials : Z;
  es_m_num_timeouts : Z;
  es_m_mean : Z;
  es_m_stddev : Z;
  es_m_min : Z;
  es_m_max : Z;
  es_m_median : Z;
  es_m_percentile90 : Z;
  es_m_percentile95 : Z;
  es_m_percentile97 : Z;
  es_m_percentile99 : Z;
}.

Definition ExecStatistics_get_percentile (values_sorted : list Z) (index : Z) : res Z :=
  let pos := u64 (index * Z.of_nat (length values_sorted)) / 100 in
  arr_get values_sorted (Z.to_nat (if 0 <? pos then pos - 1 else 0)).

(** The loop over the trials, of which the negative ones are timeouts. *)
Record Trials := mkTrials {
  tr_timeouts : Z;
  tr_values : list Z;
  tr_sum : Z;
  tr_sum2 : Z;
  tr_min : Z;
  tr_max : Z;
}.

Definition add_trial (st : Trials) (t : Z) : Trials :=
  if t <? 0 then mkTrials (u64 (tr_timeouts st + 1)) (tr_values st) (tr_sum st) (tr_sum2 st) (tr_min st) (tr_max st)
  else
    let value := u64 t in
    mkTrials (tr_timeouts st) (tr_values st ++ [value]) (u64 (tr_sum st + value)) (u64 (tr_sum2 st + u64 (value * value)))
      (Z.min value (tr_min st)) (Z.max value (tr_max st)).

Definition ExecStatistics_median (values : list Z) : res Z :=
  let num_values := length values in
  if (num_values mod 2 =? 0)%nat then
    a ← arr_get values (num_values / 2);
    b ← arr_get values (num_values / 2 - 1);
    Val (u64 (a + b) / 2)
  else arr_get values (num_values / 2).

Definition ExecStatistics_new (trials : list Z) : res ExecStatistics :=
  let st := foldl add_trial (mkTrials 0 [] 0 0 uint64_max 0) trials in
  let num_trials := Z.of_nat (length trials) in
  let num_values := Z.of_nat (length (tr_values st)) in
  if 0 <? num_values then
    let mean := tr_sum st / num_values in
    let stddev := u64 (tr_sum2 st / num_values - u64 (mean * mean)) in
    let values := merge_sort Z.le (tr_values st) in
    p90 ← ExecStatistics_get_percentile values 90;
    p95 ← ExecStatistics_get_percentile values 95;
    p97 ← ExecStatistics_get_percentile values 97;
    p99 ← ExecStatistics_get_percentile values 99;
    m ← ExecStatistics_median values;
    Val (mkExecStatistics num_trials (tr_timeouts st) mean stddev (tr_min st) (tr_max st) m p90 p95 p97 p99)
  else Val (mkExecStatistics num_trials (tr_timeouts st) 0 0 0 0 0 0 0 0 0).

(** ** Sums *)

Definition total (l : list Z) : Z := foldr Z.add 0 l.

Definition squares (l : list Z) : Z := total ((fun x => x * x) <$> l).

Lemma squares_cons x l : squares (x :: l) = x * x + squares l.
Proof. done. Qed.

Lemma squares_nonneg l : 0 <= squares l.
Proof. induction l as [|x l IH]; [done|]. rewrite squares_cons. nia. Qed.

Lemma total_squares l : Forall (fun x => 0 <= x) l -> 0 <= total l <= squares l.
Proof.
  induction 1 as [|x l Hx _ IH]; [done|]. rewrite squares_cons. cbn [total foldr]. fold (total l). nia.
Qed.

(** The sum of the squares of the distances from [x]. *)
Lemma distances_nonneg x l : 0 <= squares l - 2 * x * total l + Z.of_nat (length l) * (x * x).
Proof.
  induction l as [|y l IH]; [cbn; lia|]. rewrite squares_cons. cbn [length total foldr]. fold (total l). rewrite Nat2Z.inj_succ.
  pose proof (Z.square_nonneg (y - x)). lia.
Qed.

Lemma cauchy_schwarz l : total l * total l <= Z.of_nat (length l) * squares l.
Proof.
  induction l as [|x l IH]; [done|]. pose proof (distances_nonneg x l). rewrite squares_cons. cbn [length total foldr].
  fold (total l). rewrite Nat2Z.inj_succ. nia.
Qed.

(** The variance is not negative. *)
Lemma variance_nonneg l : l <> [] -> Forall (fun x => 0 <= x) l ->
  let n := Z.of_nat (length l) in 0 <= (total l / n) * (total l / n) <= squares l / n.
Proof.
  intros Hne Hl n. assert (0 < n) by (destruct l; [done|unfold n; simpl; lia]).
  pose proof (cauchy_schwarz l) as Hcs. fold n in Hcs. destruct (total_squares l Hl) as [H0 _].
  set (mean := total l / n). assert (mean * n <= total l) as Hmean by (unfold mean; pose proof (Z.mul_div_le (total l) n); lia).
  assert (0 <= mean) by (apply Z.div_pos; lia). split; [nia|]. apply Z.div_le_lower_bound; [done|].
  assert (n * (mean * mean) * n <= squares l * n); [|nia].
  transitivity (total l * total l); [|lia]. transitivity ((mean * n) * (mean * n)); [lia|]. apply Z.mul_le_mono_nonneg; lia.
Qed.

(** The loop without overflow. *)
Lemma loop_values l : forall sum sum2 vmin vmax, Forall (fun x => 0 <= x) l -> 0 <= sum -> 0 <= sum2 ->
  sum + total l < 2 ^ 64 -> sum2 + squares l < 2 ^ 64 ->
  foldl add_value (sum, sum2, vmin, vmax) l =
    (sum + total l, sum2 + squares l, foldr Z.min vmin l, foldr Z.max vmax l).
Proof.
  induction l as [|x l IH] using rev_ind; intros sum sum2 vmin vmax Hl Hs Hs2 Hb Hb2.
  { cbn. by rewrite !Z.add_0_r. }
  apply Forall_app in Hl as [Hl [Hx _]%Forall_cons].
  assert (total (l ++ [x]) = total l + x) as Et by (clear; induction l as [|y l IH]; cbn in *; unfold total in *; [lia|rewrite IH; lia]).
  assert (squares (l ++ [x]) = squares l + x * x) as Es
    by (clear; induction l as [|y l IH]; [cbn; lia|cbn [app]; rewrite !squares_cons, IH; lia]).
  rewrite Et, Es. rewrite Et in Hb. rewrite Es in Hb2. destruct (total_squares l Hl) as [Ht Hsq].
  pose proof (Z.square_nonneg x) as Hxx. assert (x <= x * x) by nia.
  rewrite foldl_snoc, IH by (done || lia). cbn [add_value].
  rewrite !u64_id by (unfold is_u64; rewrite ?u64_id by (unfold is_u64; lia); lia). rewrite !foldr_snoc. f_equal; [f_equal; [f_equal; lia|]|].
  - clear. revert vmin. induction l as [|y l IH]; intros vmin; [done|]. cbn [foldr]. rewrite <- IH. lia.
  - clear. revert vmax. induction l as [|y l IH]; intros vmax; [done|]. cbn [foldr]. rewrite <- IH. lia.
Qed.

Lemma foldr_min v l : Forall (fun x => x <= v) l -> l <> [] ->
  foldr Z.min v l ∈ l /\ forall x, x ∈ l -> foldr Z.min v l <= x.
Proof.
  intros Hl. induction Hl as [|y l Hy Hl IH]; [done|]. intros _. cbn [foldr]. destruct l as [|z l].
  { cbn [foldr]. rewrite Z.min_l by done. split; [by apply list_elem_of_singleton|]. intros x ->%list_elem_of_singleton. lia. }
  destruct (IH ltac:(done)) as [Hin Hle]. split.
  - destruct (Z.min_spec y (foldr Z.min v (z :: l))) as [[_ ->]|[_ ->]]; [left|by right].
  - intros x [->|Hx]%elem_of_cons; [lia|]. specialize (Hle x Hx). lia.
Qed.

Lemma foldr_max v l : Forall (fun x => v <= x) l -> l <> [] ->
  foldr Z.max v l ∈ l /\ forall x, x ∈ l -> x <= foldr Z.max v l.
Proof.
  intros Hl. induction Hl as [|y l Hy Hl IH]; [done|]. intros _. cbn [foldr]. destruct l as [|z l].
  { cbn [foldr]. rewrite Z.max_l by done. split; [by apply list_elem_of_singleton|]. intros x ->%list_elem_of_singleton. lia. }
  destruct (IH ltac:(done)) as [Hin Hle]. split.
  - destruct (Z.max_spec y (foldr Z.max v (z :: l))) as [[_ ->]|[_ ->]]; [by right|left].
  - intros x [->|Hx]%elem_of_cons; [lia|]. specialize (Hle x Hx). lia.
Qed.

Lemma mean_bounds l lo hi : l <> [] -> (forall x, x ∈ l -> lo <= x <= hi) -> lo <= total l / Z.of_nat (length l) <= hi.
Proof.
  intros Hne Hl. assert (Z.of_nat (length l) * lo <= total l <= Z.of_nat (length l) * hi).
  { clear Hne. induction l as [|x l IH]; [cbn; lia|]. cbn [length total foldr]. fold (total l). rewrite Nat2Z.inj_succ.
    pose proof (Hl x ltac:(left)). specialize (IH ltac:(intros y Hy; apply Hl; by right)). lia. }
  destruct l as [|x l]; [done|]. cbn [length] in *. split; [apply Z.div_le_lower_bound; lia|].
  apply Z.div_le_upper_bound; lia.
Qed.

(** ** Order statistics *)

(** [x] is the [k]-th smallest element of [l], which need not be sorted. *)
Definition kth_smallest (l : list Z) (k : nat) (x : Z) : Prop :=
  x ∈ l /\ (length (filter (fun y => (y < x)%Z) l) < k <= length (filter (fun y => (y <= x)%Z) l))%nat.

Lemma ordered_lookup (l : list Z) i j x y : StronglySorted Z.le l -> (i <= j)%nat -> l !! i = Some x -> l !! j = Some y -> x <= y.
Proof.
  intros Hs. revert i j. induction Hs as [|z l Hs IH Hz]; intros i j Hij Hx Hy; [done|].
  destruct i as [|i], j as [|j]; simplify_eq/=; [lia| |lia|by eapply IH; [..|exact Hx|exact Hy]; lia].
  by eapply Forall_lookup_1 in Hz.
Qed.

Lemma sorted_counts (A : list Z) i x : StronglySorted Z.le A -> A !! i = Some x ->
  (length (filter (fun y => (y < x)%Z) A) < S i <= length (filter (fun y => (y <= x)%Z) A))%nat.
Proof.
  intros Hs. revert i. induction Hs as [|z A Hs IH Hz]; intros i Hi; [done|]. rewrite !filter_cons.
  destruct i as [|i]; simplify_eq/=.
  - rewrite decide_False by lia. rewrite decide_True by lia. split; [|simpl; lia].
    assert (filter (fun y => (y < x)%Z) A = []) as ->; [|simpl; lia].
    clear -Hz. induction Hz as [|y A Hy _ IH]; [done|]. rewrite filter_cons, decide_False by lia. exact IH.
  - specialize (IH i Hi). eapply Forall_lookup_1 in Hz; [|exact Hi]. rewrite (decide_True (P := z <= x)) by done.
    destruct (decide (z < x)); simpl; lia.
Qed.

Lemma sorted_kth (l A : list Z) i x : A ≡ₚ l -> StronglySorted Z.le A -> A !! i = Some x -> kth_smallest l (S i) x.
Proof.
  intros Hp Hs Hi. split; [rewrite <- Hp; by eapply list_elem_of_lookup_2|]. rewrite <- Hp. by apply sorted_counts.
Qed.

(** The median: the middle element, or the mean of the two middle elements, rounded
    down. *)
Definition is_median (l : list Z) (m : Z) : Prop :=
  if (length l mod 2 =? 0)%nat
  then exists a b, kth_smallest l (length l / 2) a /\ kth_smallest l (length l / 2 + 1) b /\ m = (a + b) / 2
  else kth_smallest l (length l / 2 + 1) m.

(** The rank of a percentile. *)
Definition percentile_rank (n : nat) (index : nat) : nat := Nat.max 1 (index * n / 100).

Section sorted.
Context (l A : list Z) (Hp : A ≡ₚ l) (Hs : StronglySorted Z.le A) (Hne : l <> []) (Hlen : Z.of_nat (length l) < 2 ^ 57).

Lemma get_percentile_spec (index : nat) : (index <= 100)%nat ->
  exists x, get_percentile A (Z.of_nat index) = Val x /\ kth_smallest l (percentile_rank (length l) index) x /\
    A !! (percentile_rank (length l) index - 1)%nat = Some x.
Proof.
  intros Hi. pose proof (Permutation_length Hp) as Hlen'. set (r := percentile_rank (length l) index).
  assert (0 < length l)%nat by (destruct l; [done|simpl; lia]).
  assert (1 <= r <= length l)%nat as Hr.
  { unfold r, percentile_rank. pose proof (Nat.Div0.div_le_upper_bound (index * length l) 100 (length l) ltac:(nia)). lia. }
  destruct (lookup_lt_is_Some_2 A (r - 1)) as [x Hx]; [lia|]. exists x. split; [|split; [|done]].
  - unfold get_percentile. rewrite u64_id by (unfold is_u64; nia). rewrite Hlen'.
    replace (Z.to_nat _) with (r - 1)%nat; [by apply arr_get_val|].
    rewrite <- Nat2Z.inj_mul. change 100 with (Z.of_nat 100). rewrite <- Nat2Z.inj_div. unfold r, percentile_rank.
    destruct (Z.ltb_spec 0 (Z.of_nat (index * length l / 100))); lia.
  - replace r with (S (r - 1)) by lia. by apply (sorted_kth l A).
Qed.

Lemma percentile_mono n i j : (i <= j)%nat -> (percentile_rank n i - 1 <= percentile_rank n j - 1)%nat.
Proof. intros Hij. unfold percentile_rank. pose proof (Nat.Div0.div_le_mono (i * n) (j * n) 100 ltac:(nia)). lia. Qed.

Lemma median_spec lo hi : (forall x, x ∈ l -> 0 <= lo <= x /\ x <= hi < 2 ^ 63) ->
  exists m, median A = Val m /\ lo <= m <= hi /\ is_median l m.
Proof.
  intros Hb. pose proof (Permutation_length Hp) as Hlen'. unfold median, is_median. rewrite Hlen'.
  assert (0 < length l)%nat by (destruct l; [done|simpl; lia]).
  assert (length l / 2 < length l)%nat by (apply Nat.div_lt; lia).
  destruct (lookup_lt_is_Some_2 A (length l / 2)) as [a Ha]; [lia|].
  assert (0 <= lo <= a /\ a <= hi < 2 ^ 63) as Hba by (apply Hb; rewrite <- Hp; by eapply list_elem_of_lookup_2).
  rewrite (arr_get_val _ _ _ Ha). destruct (Nat.eqb_spec (length l mod 2) 0) as [He|Ho].
  - destruct (lookup_lt_is_Some_2 A (length l / 2 - 1)) as [b Hbb]; [lia|].
    assert (0 <= lo <= b /\ b <= hi < 2 ^ 63) as Hbb' by (apply Hb; rewrite <- Hp; by eapply list_elem_of_lookup_2).
    rewrite (arr_get_val _ _ _ Hbb). bind_val. eexists. split; [done|]. rewrite u64_id by (unfold is_u64; lia).
    split; [pose proof (Z.div_mod (a + b) 2); pose proof (Z.mod_pos_bound (a + b) 2); lia|].
    assert (0 < length l / 2)%nat by (apply Nat.div_str_pos; pose proof (Nat.div_mod_eq (length l) 2); lia).
    exists b, a. split; [|split; [rewrite Nat.add_1_r; by apply (sorted_kth l A)|by rewrite Z.add_comm]].
    replace (length l / 2)%nat with (S (length l / 2 - 1)) at 1 by lia. by apply (sorted_kth l A).
  - exists a. split; [done|]. split; [lia|]. rewrite Nat.add_1_r. by apply (sorted_kth l A).
Qed.
End sorted.

(** Whatever the measurements, the statistics are computed within the array. *)
Lemma compute_statistics_total l : Z.of_nat (length l) < 2 ^ 57 ->
  exists st A, compute_statistics l = Val (st, A) /\ length A = length l /\ m_num_operations st = Z.of_nat (length l).
Proof.
  intros Hlen. unfold compute_statistics. destruct (decide (l = [])) as [->|Hne]; [by exists instance, []|].
  destruct (foldl add_value _ l) as [[[sum sum2] vmin] vmax]. cbv zeta. set (A := merge_sort Z.le l).
  assert (A ≡ₚ l) as Hp by apply merge_sort_Permutation. assert (StronglySorted Z.le A) as Hs by (apply StronglySorted_merge_sort; apply _).
  destruct (get_percentile_spec l A Hp Hs Hne Hlen 90 ltac:(lia)) as (p90 & E90 & _).
  destruct (get_percentile_spec l A Hp Hs Hne Hlen 95 ltac:(lia)) as (p95 & E95 & _).
  destruct (get_percentile_spec l A Hp Hs Hne Hlen 97 ltac:(lia)) as (p97 & E97 & _).
  destruct (get_percentile_spec l A Hp Hs Hne Hlen 99 ltac:(lia)) as (p99 & E99 & _).
  change (Z.of_nat 90) with 90 in E90. change (Z.of_nat 95) with 95 in E95. change (Z.of_nat 97) with 97 in E97. change (Z.of_nat 99) with 99 in E99.
  rewrite E90, res_bind_Val_l, E95, res_bind_Val_l, E97, res_bind_Val_l, E99, res_bind_Val_l.
  assert (exists m, median A = Val m) as [m ->].
  { pose proof (Permutation_length Hp). assert (0 < length A)%nat by (destruct l; [done|simpl in *; lia]).
    assert (length A / 2 < length A)%nat by (apply Nat.div_lt; lia). unfold median.
    destruct (lookup_lt_is_Some_2 A (length A / 2)) as [a Ha]; [lia|]. destruct (lookup_lt_is_Some_2 A (length A / 2 - 1)) as [b Hb]; [lia|].
    rewrite (arr_get_val _ _ _ Ha), (arr_get_val _ _ _ Hb). destruct (_ =? _)%nat; by eexists. }
  rewrite res_bind_Val_l. eexists _, A. split; [done|]. split; [by apply Permutation_length|done].
Qed.

(** C32: the statistics of a non-empty sequence of measurements whose squares do not
    overflow: the mean, the variance (which the code calls the standard
    deviation), the extremes, the median, which of an even number of measurements is the
    mean of the two in the middle, rounded down, and the percentiles, each of which is the
    element of its rank. They are ordered as they should be, and no array is read
    out of its bounds. *)
Theorem latency_statistics_correct l
  (Hne : l <> []) (Hl : Forall (fun x => 0 <= x) l) (Hsq : squares l < 2 ^ 64) (Hlen : Z.of_nat (length l) < 2 ^ 57) :
  let n := Z.of_nat (length l) in
  exists st, compute_statistics l = Val (st, merge_sort Z.le l) /\
    m_num_operations st = n /\ m_mean st = total l / n /\
    m_stddev st = squares l / n - (total l / n) * (total l / n) /\ 0 <= m_stddev st /\
    m_min st ∈ l /\ m_max st ∈ l /\
    (forall x, x ∈ l -> m_min st <= x <= m_max st) /\
    m_min st <= m_mean st <= m_max st /\
    m_min st <= m_median st <= m_max st /\
    is_median l (m_median st) /\
    kth_smallest l (percentile_rank (length l) 90) (m_percentile90 st) /\
    kth_smallest l (percentile_rank (length l) 95) (m_percentile95 st) /\
    kth_smallest l (percentile_rank (length l) 97) (m_percentile97 st) /\
    kth_smallest l (percentile_rank (length l) 99) (m_percentile99 st) /\
    m_percentile90 st <= m_percentile95 st <= m_percentile97 st /\
    m_percentile97 st <= m_percentile99 st <= m_max st.
Proof.
  intros n. destruct (total_squares l Hl) as [H0 Hts].
  pose proof (merge_sort_Permutation Z.le l) as Hp.
  assert (StronglySorted Z.le (merge_sort Z.le l)) as Hs by (apply (StronglySorted_merge_sort Z.le); apply _).
  assert (forall x, x ∈ l -> 0 <= x < 2 ^ 32) as Hsmall.
  { intros x Hx. pose proof (proj1 (Forall_forall _ _) Hl x Hx). split; [done|].
    assert (x * x <= squares l); [|nia]. clear -Hx. induction Hx as [x l|x y l _ IH]; rewrite squares_cons; [pose proof (squares_nonneg l); lia|].
    pose proof (Z.square_nonneg y). lia. }
  destruct (foldr_min uint64_max l) as [Hmin1 Hmin2]; [apply Forall_forall; intros x Hx; specialize (Hsmall x Hx); unfold uint64_max; lia|done|].
  destruct (foldr_max 0 l) as [Hmax1 Hmax2]; [done|done|].
  assert (forall x, x ∈ l -> foldr Z.min uint64_max l <= x <= foldr Z.max 0 l) as Hrange by (intros x Hx; split; auto).
  destruct (get_percentile_spec l _ Hp Hs Hne Hlen 90) as (p90 & E90 & K90 & L90); [lia|].
  destruct (get_percentile_spec l _ Hp Hs Hne Hlen 95) as (p95 & E95 & K95 & L95); [lia|].
  destruct (get_percentile_spec l _ Hp Hs Hne Hlen 97) as (p97 & E97 & K97 & L97); [lia|].
  destruct (get_percentile_spec l _ Hp Hs Hne Hlen 99) as (p99 & E99 & K99 & L99); [lia|].
  destruct (median_spec l _ Hp Hs Hne Hlen (foldr Z.min uint64_max l) (foldr Z.max 0 l)) as (m & Em & Hm & Km).
  { intros x Hx. destruct (Hsmall _ Hmin1), (Hsmall _ Hmax1). destruct (Hrange x Hx). lia. }
  destruct (variance_nonneg l Hne Hl) as [Hv1 Hv2]. fold n in Hv1, Hv2.
  assert (0 < n) as Hn by (destruct l; [done|unfold n; simpl; lia]).
  assert (squares l / n <= squares l) as Hdiv by (apply Z.div_le_upper_bound; [done|]; pose proof (squares_nonneg l); nia).
  unfold compute_statistics. rewrite decide_False by done. rewrite loop_values by (done || lia).
  rewrite !Z.add_0_l. cbv beta iota zeta. fold n. change 90 with (Z.of_nat 90). rewrite E90. bind_val.
  change 95 with (Z.of_nat 95). rewrite E95. bind_val. change 97 with (Z.of_nat 97). rewrite E97. bind_val.
  change 99 with (Z.of_nat 99). rewrite E99. bind_val. rewrite Em. bind_val. eexists. split; [done|]. cbn.
  rewrite (u64_id (total l / n * (total l / n))) by (unfold is_u64; lia). rewrite u64_id by (unfold is_u64; lia).
  pose proof (mean_bounds l _ _ Hne Hrange) as Hmean. fold n in Hmean.
  assert (forall i j x y, (i <= j)%nat -> merge_sort Z.le l !! (percentile_rank (length l) i - 1)%nat = Some x ->
    merge_sort Z.le l !! (percentile_rank (length l) j - 1)%nat = Some y -> x <= y) as Hmono.
  { intros i j x y Hij Hx Hy. eapply ordered_lookup; [exact Hs| |exact Hx|exact Hy]. by apply percentile_mono. }
  split_and?; try done; try lia.
  - apply (Hmono 90%nat 95%nat); [lia|done..].
  - apply (Hmono 95%nat 97%nat); [lia|done..].
  - apply (Hmono 97%nat 99%nat); [lia|done..].
  - apply Hmax2, K99.
Qed.

(** No array is read out of its bounds, whatever the measurements are. *)
Lemma get_percentile_total A index : A <> [] -> 0 <= index <= 100 -> exists x, get_percentile A index = Val x.
Proof.
  intros Hne Hi. assert (0 < length A)%nat by (destruct A; [done|simpl; lia]). unfold get_percentile.
  assert (0 <= u64 (index * Z.of_nat (length A)) <= 100 * Z.of_nat (length A)) as Hu.
  { unfold u64. split; [apply Z.mod_pos_bound; lia|]. transitivity (index * Z.of_nat (length A)); [apply Z.mod_le; lia|nia]. }
  assert (0 <= u64 (index * Z.of_nat (length A)) / 100 <= Z.of_nat (length A)) as Hd
    by (split; [apply Z.div_pos; lia|apply Z.div_le_upper_bound; lia]).
  destruct (lookup_lt_is_Some_2 A (Z.to_nat (if 0 <? u64 (index * Z.of_nat (length A)) / 100
    then u64 (index * Z.of_nat (length A)) / 100 - 1 else 0))) as [x Hx].
  { destruct (Z.ltb_spec 0 (u64 (index * Z.of_nat (length A)) / 100)); lia. }
  exists x. by apply arr_get_val.
Qed.

Lemma median_total A : A <> [] -> exists x, median A = Val x.
Proof.
  intros Hne. assert (0 < length A)%nat by (destruct A; [done|simpl; lia]). unfold median.
  assert (length A / 2 < length A)%nat by (apply Nat.div_lt; lia).
  destruct (lookup_lt_is_Some_2 A (length A / 2)) as [a Ha]; [lia|]. rewrite (arr_get_val _ _ _ Ha).
  destruct (_ =? 0)%nat; [|by exists a]. bind_val.
  destruct (lookup_lt_is_Some_2 A (length A / 2 - 1)) as [b Hb]; [lia|]. rewrite (arr_get_val _ _ _ Hb). bind_val. by eexists.
Qed.

Definition is_i64 (z : Z) : Prop := - 2 ^ 63 <= z < 2 ^ 63.

(** The loop over the trials is the loop over the values of those that have ended. *)
Lemma trials_loop trials : forall values sum sum2 vmin vmax, Forall is_i64 trials ->
  let '(sum', sum2', vmin', vmax') := foldl add_value (sum, sum2, vmin, vmax) (filter (fun t => 0 <= t) trials) in
  forall timeouts, foldl add_trial (mkTrials (u64 timeouts) values sum sum2 vmin vmax) trials =
    mkTrials (u64 (timeouts + Z.of_nat (length trials - length (filter (fun t => 0 <= t) trials))))
      (values ++ filter (fun t => 0 <= t) trials) sum' sum2' vmin' vmax'.
Proof.
  induction trials as [|t trials IH]; intros values sum sum2 vmin vmax Htr.
  { cbn. intros timeouts. by rewrite Z.add_0_r, app_nil_r. }
  apply Forall_cons in Htr as [Ht Htr]. rewrite filter_cons. pose proof (length_filter (fun t => 0 <= t) trials).
  destruct (decide (0 <= t)) as [Hpos|Hneg]; cbn [foldl add_value].
  - specialize (IH (values ++ [t]) (u64 (sum + t)) (u64 (sum2 + u64 (t * t))) (Z.min t vmin) (Z.max t vmax) Htr).
    destruct (foldl add_value _ _) as [[[sum' sum2'] vmin'] vmax']. intros timeouts.
    unfold add_trial at 2. rewrite (proj2 (Z.ltb_ge _ _)) by lia.
    cbn [tr_timeouts tr_values tr_sum tr_sum2 tr_min tr_max].
    rewrite (u64_id t) by (unfold is_u64, is_i64 in *; lia). cbv zeta. rewrite IH. cbn [length]. by rewrite <- app_assoc.
  - specialize (IH values sum sum2 vmin vmax Htr).
    destruct (foldl add_value _ _) as [[[sum' sum2'] vmin'] vmax']. intros timeouts.
    unfold add_trial at 2. rewrite (proj2 (Z.ltb_lt _ _)) by lia.
    cbn [tr_timeouts tr_values tr_sum tr_sum2 tr_min tr_max].
    replace (u64 (u64 timeouts + 1)) with (u64 (timeouts + 1)) by (unfold u64; by rewrite Zplus_mod_idemp_l).
    rewrite IH. cbn [length]. do 2 f_equal. lia.
Qed.

(** The statistics of the executions are those of the trials that have not hit
    the timeout; the others are counted. Both classes return for every sequence,
    the empty one included. *)
Theorem exec_statistics_latency trials (Htr : Forall is_i64 trials) (Hlen : Z.of_nat (length trials) < 2 ^ 64) :
  let values := filter (fun t => 0 <= t) trials in
  exists lat, compute_statistics values = Val (lat, merge_sort Z.le values) /\
    ExecStatistics_new trials = Val (mkExecStatistics
      (Z.of_nat (length trials)) (Z.of_nat (length trials - length values))
      (m_mean lat) (m_stddev lat) (m_min lat) (m_max lat)
      (m_median lat) (m_percentile90 lat) (m_percentile95 lat)
      (m_percentile97 lat) (m_percentile99 lat)).
Proof.
  intros values. pose proof (trials_loop trials [] 0 0 uint64_max 0 Htr) as Hloop. fold values in Hloop.
  unfold compute_statistics, ExecStatistics_new.
  destruct (foldl add_value (0, 0, uint64_max, 0) values) as [[[sum sum2] vmin] vmax] eqn:Hfold.
  specialize (Hloop 0). change (u64 0) with 0 in Hloop. rewrite Hloop, Z.add_0_l, (u64_id (Z.of_nat _)) by (unfold is_u64; lia). clear Hloop.
  cbn [tr_timeouts tr_values tr_sum tr_sum2 tr_min tr_max app].
  destruct (decide (values = [])) as [E|Hne].
  { rewrite E. exists instance. done. }
  assert (0 < length values)%nat by (destruct values; [done|simpl; lia]). rewrite (proj2 (Z.ltb_lt _ _)) by lia. cbv zeta.
  set (A := merge_sort Z.le values). assert (A <> []) as HA.
  { intros E. pose proof (Permutation_length (merge_sort_Permutation Z.le values)) as Hl. fold A in Hl. rewrite E in Hl. simpl in Hl. lia. }
  change ExecStatistics_get_percentile with get_percentile. change ExecStatistics_median with median.
  destruct (get_percentile_total A 90 HA) as [p90 ->]; [lia|]. destruct (get_percentile_total A 95 HA) as [p95 ->]; [lia|].
  destruct (get_percentile_total A 97 HA) as [p97 ->]; [lia|]. destruct (get_percentile_total A 99 HA) as [p99 ->]; [lia|].
  destruct (median_total A HA) as [m ->]. rewrite !res_bind_Val_l. eexists. split; done.
Qed.

(** *** A concrete sequence: ten measurements, and a timeout. *)

Definition ex_latencies : list Z := [30; 10; 20; 100; 50; 40; 60; 90; 70; 80].

Lemma latency_statistics_correct_witness : exists st, compute_statistics ex_latencies = Val (st, merge_sort Z.le ex_latencies) /\
  m_mean st = 55 /\ m_stddev st = 825 /\ is_median ex_latencies (m_median st) /\
  kth_smallest ex_latencies 9 (m_percentile90 st).
Proof.
  destruct (latency_statistics_correct ex_latencies) as (st & Hst & _ & Hmean & Hdev & _ & _ & _ & _ & _ & _ & Hmedian & Hp90 & _).
  - done.
  - apply (bool_decide_unpack (Forall (fun x => 0 <= x) ex_latencies)). by vm_compute.
  - by vm_compute.
  - by vm_compute.
  - exists st. split; [exact Hst|]. split; [rewrite Hmean; by vm_compute|]. split; [rewrite Hdev; by vm_compute|]. by split.
Defined.

Lemma exec_statistics_latency_witness : exists lat,
  compute_statistics [5; 7] = Val (lat, [5; 7]) /\
  ExecStatistics_new [5; -1; 7] = Val (mkExecStatistics 3 1
      (m_mean lat) (m_stddev lat) (m_min lat) (m_max lat)
      (m_median lat) (m_percentile90 lat) (m_percentile95 lat)
      (m_percentile97 lat) (m_percentile99 lat)).
Proof.
  apply (exec_statistics_latency [5; -1; 7]).
  - apply (bool_decide_unpack (Forall (fun z => - 2 ^ 63 <= z < 2 ^ 63) [5; -1; 7])). by vm_compute.
  - by vm_compute.
Defined.
