(* ===== verification/UpdateLog.v ===== *)
(** Logs of updates of edges, such as the ones of the aging experiment, and the
    graphs they lead to: only the order of the updates of one edge matters. *)

From S2P Require Import Prelude Doubles Edge AdjList Interface.

(** ** Logs

    In a log a weight that is not negative is an insertion, any other one a
    removal ([graph_execute_batch_updates0]). *)

Definition is_insertion (e : WeightedEdge) : bool := dle d_zero (m_weight e).

Definition log_update (e : WeightedEdge) : Update :=
  if is_insertion e then UAddEdgeV2 e else URemoveEdge (edge_of e).

Definition after_update (s : Spec) (e : WeightedEdge) : Spec := (contract s (log_update e)).2.

Definition after_log (s : Spec) (log : list WeightedEdge) : Spec := foldl after_update s log.

(** What an edge has to be for the update to make sense: missing for an
    insertion, present for a removal. *)
Definition applicable (s : Spec) (e : WeightedEdge) : Prop :=
  wsource e <> wdestination e /\
  if is_insertion e then spec_arcs s !! (wsource e, wdestination e) = None
  else is_Some (spec_arcs s !! (wsource e, wdestination e)).

Fixpoint valid_log (s : Spec) (log : list WeightedEdge) : Prop :=
  match log with
  | [] => True
  | e :: log => applicable s e /\ valid_log (after_update s e) log
  end.

#[export] Instance valid_log_dec s log : Decision (valid_log s log).
Proof.
  revert s. induction log as [|e log IH]; intros s; cbn [valid_log]; [apply _|]. unfold applicable.
  destruct (is_insertion e); apply _.
Defined.

Definition symmetric (s : Spec) : Prop :=
  spec_directed s = false -> forall x y, spec_arcs s !! (x, y) = spec_arcs s !! (y, x).

(** ** Keys

    In an undirected graph an edge and its reverse are the same. *)

Definition pair_key (directed : bool) (p : Z * Z) : Z * Z :=
  if directed then p else (Z.min p.1 p.2, Z.max p.1 p.2).

Definition ends (e : WeightedEdge) : Z * Z := (wsource e, wdestination e).

(** The weights of the updates of the edge [p] in their order. *)
Definition updates_at (directed : bool) (p : Z * Z) (log : list WeightedEdge) : list double :=
  m_weight <$> filter (fun e => pair_key directed (ends e) = pair_key directed p) log.

(** The same updates for every edge. *)
Definition same_updates (directed : bool) (log log' : list WeightedEdge) : Prop :=
  forall p, updates_at directed p log = updates_at directed p log'.

Definition weight_after (o : option double) (ws : list double) : option double :=
  foldl (fun _ w => if dle d_zero w then Some w else None) o ws.

Fixpoint alternates (o : option double) (ws : list double) : Prop :=
  match ws with
  | [] => True
  | w :: ws => (if dle d_zero w then o = None else is_Some o) /\ alternates (if dle d_zero w then Some w else None) ws
  end.

Lemma alternates_app o ws ws' : alternates o (ws ++ ws') -> alternates o ws.
Proof. revert o. induction ws as [|w ws IH]; intros o; simpl; [done|]. intros [H1 H2]. split; [done|]. by eapply IH. Qed.

Lemma updates_at_app directed p l l' : updates_at directed p (l ++ l') = updates_at directed p l ++ updates_at directed p l'.
Proof. unfold updates_at. by rewrite filter_app, fmap_app. Qed.

Lemma pair_key_iff directed x y p :
  pair_key directed (x, y) = pair_key directed p <-> p = (x, y) \/ directed = false /\ p = (y, x).
Proof.
  destruct p as [a b]. unfold pair_key. destruct directed; cbn [fst snd].
  - split; [intros [= <- <-]; by left|by intros [->|[? _]]].
  - split.
    + intros [= H1 H2]. assert ((a = x /\ b = y) \/ (a = y /\ b = x)) as [[-> ->]|[-> ->]] by lia; auto.
    + intros [[= -> ->]|[_ [= -> ->]]]; f_equal; lia.
Qed.

(** ** One update *)

Lemma after_update_directed s e : spec_directed (after_update s e) = spec_directed s.
Proof. unfold after_update, log_update. destruct (is_insertion e); simpl; by case_bool_decide. Qed.

Lemma after_update_arcs s e p : applicable s e ->
  spec_arcs (after_update s e) !! p =
  if decide (pair_key (spec_directed s) (ends e) = pair_key (spec_directed s) p)
  then (if is_insertion e then Some (m_weight e) else None) else spec_arcs s !! p.
Proof.
  destruct p as [x y]. intros [Hne Happ]. unfold after_update, log_update, ends. destruct (is_insertion e); cbn [contract].
  - rewrite bool_decide_true by done. cbn [snd].
    rewrite (spec_add_updated _ (wsource e) (wdestination e) (m_weight e) Hne x y). cbn [spec_directed spec_add_vertex spec_arcs].
    destruct (decide (pair_key _ _ = _)) as [Hk|Hk]; rewrite pair_key_iff in Hk; repeat case_decide; naive_solver.
  - unfold wsource, wdestination, source, destination in *. rewrite bool_decide_true by done. cbn [snd].
    rewrite (spec_remove_updated _ _ _ Hne x y).
    destruct (decide (pair_key _ _ = _)) as [Hk|Hk]; rewrite pair_key_iff in Hk; repeat case_decide; naive_solver.
Qed.

Lemma after_update_vertices s e x : applicable s e ->
  x ∈ spec_vertices (after_update s e) <-> x ∈ spec_vertices s \/ is_insertion e = true /\ (x = wsource e \/ x = wdestination e).
Proof.
  intros [_ Happ]. unfold after_update, log_update. destruct (is_insertion e); simpl.
  - rewrite bool_decide_true by done. set_solver.
  - case_bool_decide; simpl; naive_solver.
Qed.

Lemma after_update_symmetric s e : symmetric s -> applicable s e -> symmetric (after_update s e).
Proof.
  intros Hsym He Hd x y. rewrite after_update_directed in Hd. rewrite !after_update_arcs by done.
  rewrite (Hsym Hd x y). rewrite Hd. unfold ends. apply decide_ext. rewrite !pair_key_iff. naive_solver.
Qed.

(** ** A log *)

Lemma after_log_directed log : forall s, spec_directed (after_log s log) = spec_directed s.
Proof.
  induction log as [|e log IH]; intros s; [done|]. cbn [after_log foldl].
  change (spec_directed (after_log (after_update s e) log) = spec_directed s). by rewrite IH, after_update_directed.
Qed.

Lemma after_log_symmetric log : forall s, symmetric s -> valid_log s log -> symmetric (after_log s log).
Proof.
  induction log as [|e log IH]; intros s Hs Hv; [done|]. destruct Hv as [He Hv]. by apply IH; [apply after_update_symmetric|].
Qed.

Lemma updates_at_cons directed p e log : updates_at directed p (e :: log) =
  if decide (pair_key directed (ends e) = pair_key directed p) then m_weight e :: updates_at directed p log
  else updates_at directed p log.
Proof. unfold updates_at. rewrite filter_cons. by destruct (decide _). Qed.

Lemma after_log_arcs p log : forall s, valid_log s log ->
  spec_arcs (after_log s log) !! p = weight_after (spec_arcs s !! p) (updates_at (spec_directed s) p log).
Proof.
  induction log as [|e log IH]; intros s Hv; [done|]. destruct Hv as [He Hv].
  change (spec_arcs (after_log (after_update s e) log) !! p = weight_after (spec_arcs s !! p) (updates_at (spec_directed s) p (e :: log))).
  rewrite IH by done. rewrite after_update_directed, after_update_arcs, updates_at_cons by done. by destruct (decide _).
Qed.

Lemma after_log_vertices x log : forall s, valid_log s log ->
  x ∈ spec_vertices (after_log s log) <->
  x ∈ spec_vertices s \/ exists e, e ∈ log /\ is_insertion e = true /\ (x = wsource e \/ x = wdestination e).
Proof.
  induction log as [|e log IH]; intros s Hv; cbn [after_log foldl].
  { split; [by left|]. intros [?|(e & He & _)]; [done|]. by apply not_elem_of_nil in He. }
  destruct Hv as [He Hv]. fold (after_log (after_update s e) log). rewrite IH by done. rewrite after_update_vertices by done. setoid_rewrite elem_of_cons.
  split; [intros [[?|[? ?]]|(e' & ? & ? & ?)]|intros [?|(e' & [-> | ?] & ? & ?)]]; eauto 7.
Qed.

(** A log is valid when each edge is inserted and removed in turns. *)
Lemma valid_log_alternates log : forall s, symmetric s ->
  valid_log s log <->
  Forall (fun e => wsource e <> wdestination e) log /\
  forall p, alternates (spec_arcs s !! p) (updates_at (spec_directed s) p log).
Proof.
  induction log as [|e log IH]; intros s Hs; cbn [valid_log]; [split; [by split|done]|].
  assert (applicable s e -> forall p, spec_arcs s !! p = spec_arcs s !! ends e \/
    pair_key (spec_directed s) (ends e) <> pair_key (spec_directed s) p) as Hkey.
  { intros _ [x y]. destruct (decide (pair_key (spec_directed s) (ends e) = pair_key (spec_directed s) (x, y))) as [Hk|]; [left|by right].
    unfold ends in *. apply pair_key_iff in Hk as [[= <- <-]|[Hd [= -> ->]]]; [done|]. apply Hs, Hd. }
  split.
  - intros [He Hv]. apply IH in Hv as [Hne Halt]; [|by apply after_update_symmetric]. destruct (Hkey He (ends e)) as [_|]; [|done].
    split; [constructor; [apply He|done]|]. intros p. specialize (Halt p). rewrite after_update_directed, after_update_arcs in Halt by done.
    rewrite updates_at_cons. destruct (decide _) as [Hk|]; [|done]. destruct (Hkey He p) as [->|]; [|done].
    cbn [alternates]. destruct He as [_ He]. by destruct (is_insertion e) eqn:Hi; unfold is_insertion in Hi; rewrite Hi.
  - intros [[Hne Hne']%Forall_cons Halt]. assert (applicable s e) as He.
    { split; [done|]. specialize (Halt (ends e)). rewrite updates_at_cons, decide_True in Halt by done. destruct Halt as [Halt _].
      unfold is_insertion. by destruct (dle d_zero (m_weight e)). }
    split; [done|]. apply IH; [by apply after_update_symmetric|]. split; [done|]. intros p. specialize (Halt p).
    rewrite after_update_directed, after_update_arcs by done. rewrite updates_at_cons in Halt.
    destruct (decide _) as [Hk|]; [|done]. apply Halt.
Qed.

(** Any log with the same updates of every edge is as valid, and leads to the
    same graph. *)
Lemma same_updates_valid s log log' : symmetric s -> valid_log s log ->
  Forall (fun e => wsource e <> wdestination e) log' ->
  (forall p, exists ws, updates_at (spec_directed s) p log = updates_at (spec_directed s) p log' ++ ws) -> valid_log s log'.
Proof.
  intros Hs Hv Hne Hpre. apply valid_log_alternates in Hv as [_ Halt]; [|done]. apply valid_log_alternates; [done|].
  split; [done|]. intros p. destruct (Hpre p) as [ws Hp]. specialize (Halt p). rewrite Hp in Halt. by eapply alternates_app.
Qed.

Lemma inserted_at directed log x :
  (exists e, e ∈ log /\ is_insertion e = true /\ (x = wsource e \/ x = wdestination e)) <->
  exists y w, dle d_zero w = true /\ (w ∈ updates_at directed (x, y) log \/ w ∈ updates_at directed (y, x) log).
Proof.
  assert (forall p w, w ∈ updates_at directed p log <-> exists e, e ∈ log /\ w = m_weight e /\ pair_key directed (ends e) = pair_key directed p) as Hin.
  { intros p w. unfold updates_at. rewrite list_elem_of_fmap. setoid_rewrite list_elem_of_filter. naive_solver. }
  setoid_rewrite Hin. split.
  - intros (e & He & Hi & [-> | ->]).
    + exists (wdestination e), (m_weight e). split; [done|]. left. by exists e.
    + exists (wsource e), (m_weight e). split; [done|]. right. by exists e.
  - intros (y & w & Hw & [(e & He & -> & Hk)|(e & He & -> & Hk)]); exists e; (split; [done|]; split; [done|]); unfold ends in Hk;
      apply pair_key_iff in Hk as [[= -> ->]|[_ [= -> ->]]]; auto.
Qed.

Lemma same_updates_after s log log' : symmetric s -> valid_log s log -> valid_log s log' ->
  same_updates (spec_directed s) log log' -> after_log s log = after_log s log'.
Proof.
  intros Hs Hv Hv' Hsame. unfold same_updates in Hsame.
  assert (spec_vertices (after_log s log) = spec_vertices (after_log s log')) as Hvtx.
  { apply set_eq. intros x. rewrite !after_log_vertices by done. rewrite !(inserted_at (spec_directed s)). by setoid_rewrite Hsame. }
  assert (spec_arcs (after_log s log) = spec_arcs (after_log s log')) as Harcs.
  { apply map_eq. intros p. rewrite !after_log_arcs by done. by rewrite Hsame. }
  pose proof (after_log_directed log s). pose proof (after_log_directed log' s).
  destruct (after_log s log), (after_log s log'); simpl in *; congruence.
Qed.

Lemma valid_log_app s log log' : valid_log s (log ++ log') <-> valid_log s log /\ valid_log (after_log s log) log'.
Proof.
  revert s. induction log as [|e log IH]; intros s; cbn [app valid_log]; [simpl; tauto|]. rewrite IH. cbn [after_log foldl].
  fold (after_log (after_update s e) log). tauto.
Qed.

Lemma after_log_app s log log' : after_log s (log ++ log') = after_log (after_log s log) log'.
Proof. apply foldl_app. Qed.

(** Whether a log is valid depends on the signs of its weights only. *)
Definition same_kind (e e' : WeightedEdge) : Prop := ends e = ends e' /\ is_insertion e = is_insertion e'.

Lemma alternates_signs ws ws' : Forall2 (fun w w' => dle d_zero w = dle d_zero w') ws ws' ->
  forall o o', (is_Some o <-> is_Some o') -> alternates o ws -> alternates o' ws'.
Proof.
  induction 1 as [|w w' ws ws' Hw _ IH]; intros o o' Ho; [done|]. cbn [alternates]. rewrite <- Hw. intros [Hhead Htail].
  destruct (dle d_zero w); split.
  - subst o. destruct o'; [|done]. by destruct (proj2 Ho (mk_is_Some _ _ eq_refl)).
  - eapply IH; [|exact Htail]. by split; intros _; eexists.
  - by apply Ho.
  - by eapply IH; [|exact Htail].
Qed.

Lemma updates_at_kind directed p log log' : Forall2 same_kind log log' ->
  Forall2 (fun w w' => dle d_zero w = dle d_zero w') (updates_at directed p log) (updates_at directed p log').
Proof.
  induction 1 as [|e e' log log' [He Hi] _ IH]; [constructor|]. rewrite !updates_at_cons, He. destruct (decide _); [by constructor|done].
Qed.

Lemma same_kind_valid s log log' : symmetric s -> Forall2 same_kind log log' -> valid_log s log -> valid_log s log'.
Proof.
  intros Hs Hk Hv. apply valid_log_alternates in Hv as [Hne Halt]; [|done]. apply valid_log_alternates; [done|]. split.
  - clear -Hk Hne. induction Hk as [|e e' log log' [He _] _ IH]; [done|]. apply Forall_cons in Hne as [Hne Hne'].
    constructor; [|by apply IH]. unfold ends in He. injection He as E1 E2. congruence.
  - intros p. eapply alternates_signs; [by apply updates_at_kind| |by apply Halt]. done.
Qed.

(** Logs of the same kind lead to graphs with the same edges. *)
Lemma weight_after_signs ws ws' : Forall2 (fun w w' => dle d_zero w = dle d_zero w') ws ws' ->
  forall o o', (o = None <-> o' = None) -> (weight_after o ws = None <-> weight_after o' ws' = None).
Proof.
  unfold weight_after. induction 1 as [|w w' ws ws' Hw _ IH]; intros o o' Ho; [done|]. cbn [foldl]. rewrite <- Hw.
  apply IH. by destruct (dle d_zero w).
Qed.

Lemma same_kind_arcs s log log' p : symmetric s -> Forall2 same_kind log log' -> valid_log s log ->
  spec_arcs (after_log s log) !! p = None <-> spec_arcs (after_log s log') !! p = None.
Proof.
  intros Hs Hk Hv. pose proof (same_kind_valid s log log' Hs Hk Hv) as Hv'. rewrite !after_log_arcs by done.
  apply weight_after_signs; [by apply updates_at_kind|done].
Qed.

Lemma same_kind_isolated s log log' v : symmetric s -> Forall2 same_kind log log' -> valid_log s log ->
  isolated (after_log s log) v -> isolated (after_log s log') v.
Proof. intros Hs Hk Hv Hiso x. rewrite <- !(same_kind_arcs s log log') by done. apply Hiso. Qed.

(** ** Runs of the contract *)

Lemma applicable_answer s e : applicable s e -> contract s (log_update e) = (true, after_update s e).
Proof.
  intros [_ He]. unfold after_update, log_update. destruct (is_insertion e); cbn [contract].
  - by rewrite bool_decide_true.
  - unfold wsource, wdestination, source, destination in *. by rewrite bool_decide_true.
Qed.

Lemma contract_run_log log : forall s, valid_log s log ->
  contract_run s (log_update <$> log) = (replicate (length log) true, after_log s log).
Proof.
  induction log as [|e log IH]; intros s Hv; [done|]. destruct Hv as [He Hv]. cbn [fmap list_fmap contract_run].
  rewrite (applicable_answer _ _ He), IH by done. done.
Qed.

(** ** Distributed logs

    A log is split among [n] threads by the key of its updates. [t] is what has
    been performed so far, where an undirected edge may have been turned round,
    and [rs] what is left to each thread. *)

Section distribution.
Context (directed : bool) (n : nat) (own : Z * Z -> nat) (Hown : forall p, (own p < n)%nat).

Definition owner (e : WeightedEdge) : nat := own (pair_key directed (ends e)).

Definition mine (i : nat) (log : list WeightedEdge) : list WeightedEdge := filter (fun e => owner e = i) log.

Definition same_edge (e e' : WeightedEdge) : Prop :=
  pair_key directed (ends e) = pair_key directed (ends e') /\ m_weight e = m_weight e'.

Definition distributed (t log : list WeightedEdge) (rs : list (list WeightedEdge)) : Prop :=
  length rs = n /\ forall i r, rs !! i = Some r -> exists d, mine i log = d ++ r /\ Forall2 same_edge (mine i t) d.

Lemma updates_at_mine p log : updates_at directed p log = updates_at directed p (mine (own (pair_key directed p)) log).
Proof.
  unfold updates_at, mine. rewrite list_filter_filter. f_equal. apply list_filter_iff. intros e. unfold owner.
  split; [intros Hk; split; [done|by rewrite Hk]|tauto].
Qed.

Lemma updates_at_same p l l' : Forall2 same_edge l l' -> updates_at directed p l = updates_at directed p l'.
Proof.
  induction 1 as [|e e' l l' [Hk Hw] _ IH]; [done|]. rewrite !updates_at_cons, Hk, Hw, IH. done.
Qed.

Lemma distributed_updates t log rs p : distributed t log rs ->
  exists r, rs !! own (pair_key directed p) = Some r /\
    updates_at directed p log = updates_at directed p t ++ updates_at directed p r.
Proof.
  intros [Hlen Hd]. destruct (lookup_lt_is_Some_2 rs (own (pair_key directed p))) as [r Hr]; [by rewrite Hlen|].
  exists r. split; [done|]. destruct (Hd _ _ Hr) as (d & Hlog & Hdone).
  rewrite (updates_at_mine p log), (updates_at_mine p t), Hlog, updates_at_app. f_equal. symmetry. by apply updates_at_same.
Qed.

Lemma distributed_step t log rs i e r e' : distributed t log rs -> rs !! i = Some (e :: r) -> same_edge e' e ->
  distributed (t ++ [e']) log (<[i := r]> rs).
Proof.
  intros [Hlen Hd] Hi [Hk Hw]. split; [by rewrite length_insert|]. intros j rj Hj.
  assert (owner e' = i) as He'.
  { destruct (Hd _ _ Hi) as (d & Hlog & _). assert (e ∈ mine i log) as He by (rewrite Hlog; set_solver).
    apply list_elem_of_filter in He as [He _]. unfold owner in *. congruence. }
  assert (mine j (t ++ [e']) = mine j t ++ (if decide (i = j) then [e'] else [])) as Hmine.
  { unfold mine. rewrite filter_app, filter_cons, He', filter_nil. by destruct (decide (i = j)). }
  apply list_lookup_insert_Some in Hj as [(<- & <- & _)|[Hij Hj]].
  - destruct (Hd _ _ Hi) as (d & Hlog & Hdone). exists (d ++ [e]). rewrite Hmine, decide_True by done. split.
    + by rewrite Hlog, <- app_assoc.
    + apply Forall2_app; [done|]. by constructor; [|constructor].
  - destruct (Hd _ _ Hj) as (d & Hlog & Hdone). exists d. by rewrite Hmine, decide_False, app_nil_r by done.
Qed.

Lemma same_edge_loop e e' : same_edge e e' -> wsource e' <> wdestination e' -> wsource e <> wdestination e.
Proof.
  intros [Hk _] Hne. unfold ends in Hk. apply pair_key_iff in Hk as [[= <- <-]|[_ [= <- <-]]]; congruence.
Qed.

Lemma distributed_loops t log rs : distributed t log rs -> Forall (fun e => wsource e <> wdestination e) log ->
  Forall (fun e => wsource e <> wdestination e) t.
Proof.
  intros [Hlen Hd] Hlog. apply Forall_forall. intros e He.
  destruct (lookup_lt_is_Some_2 rs (owner e)) as [r Hr]; [rewrite Hlen; apply Hown|].
  destruct (Hd _ _ Hr) as (d & Hmine & Hdone).
  assert (e ∈ mine (owner e) t) as Hin by (by apply list_elem_of_filter).
  apply list_elem_of_lookup in Hin as [k Hk]. destruct (Forall2_lookup_l _ _ _ _ _ Hdone Hk) as (e' & He' & Hsame).
  apply (same_edge_loop e e' Hsame). rewrite Forall_forall in Hlog. apply Hlog.
  assert (e' ∈ mine (owner e) log) as Hin by (rewrite Hmine; apply elem_of_app; left; by eapply list_elem_of_lookup_2).
  by apply list_elem_of_filter in Hin as [_ ?].
Qed.

(** What has been performed is a valid log of its own. *)
Lemma distributed_valid s t log rs : spec_directed s = directed -> symmetric s -> valid_log s log ->
  distributed t log rs -> valid_log s t.
Proof.
  intros Hdir Hs Hv Hd. apply (same_updates_valid s log); [done..| |].
  - apply (distributed_loops t log rs); [done|]. by apply valid_log_alternates in Hv as [? _].
  - intros p. destruct (distributed_updates t log rs p Hd) as (r & _ & Hp). rewrite Hdir. by exists (updates_at directed p r).
Qed.

(** When nothing is left, the graph is the one of the log in its order. *)
Lemma distributed_end s t log rs : spec_directed s = directed -> symmetric s -> valid_log s log ->
  distributed t log rs -> Forall (fun r => r = []) rs -> after_log s t = after_log s log.
Proof.
  intros Hdir Hs Hv Hd Hrs. symmetry. apply same_updates_after; [done..|by eapply distributed_valid|].
  intros p. destruct (distributed_updates t log rs p Hd) as (r & Hr & Hp). rewrite Hdir, Hp.
  rewrite (Forall_lookup_1 _ _ _ _ Hrs Hr). by rewrite app_nil_r.
Qed.

Lemma distributed_start log rs : length rs = n -> (forall i r, rs !! i = Some r -> r = mine i log) -> distributed [] log rs.
Proof. intros Hlen Hr. split; [done|]. intros i r Hi. exists []. by rewrite (Hr _ _ Hi). Qed.
Lemma mine_total log : sum_list_with (fun i => length (mine i log)) (seq 0 n) = length log.
Proof.
  assert (forall k j, sum_list_with (fun i => if decide (j = i) then 1%nat else 0%nat) (seq 0 k) = if decide (j < k)%nat then 1%nat else 0%nat) as Hone.
  { induction k as [|k IH]; intros j; [done|]. rewrite seq_S, sum_list_with_app, IH. simpl. repeat case_decide; lia. }
  assert (forall (f g : nat -> nat) l, sum_list_with (fun i => (f i + g i)%nat) l = (sum_list_with f l + sum_list_with g l)%nat) as Hadd
    by (intros f g l; induction l; simpl; lia).
  induction log as [|e log IH].
  - induction (seq 0 n); [done|]. simpl. done.
  - rewrite (sum_list_with_ext _ (fun i => ((if decide (owner e = i) then 1 else 0) + length (mine i log))%nat)).
    + rewrite Hadd, Hone, IH, decide_True by apply Hown. done.
    + intros i _. unfold mine. rewrite filter_cons. by destruct (decide (owner e = i)).
Qed.
End distribution.

(** An implementation that admits the updates of a valid log. *)
Class LogContract `{UpdateContract} :=
  admits_applicable : forall s e, applicable s e -> admits s (log_update e).

(** The reference implementation does when its hash table keeps its iterators. *)
Lemma adjacency_list_log : @LogContract stable_interface stable_contract.
Proof.
  intros s e [Hne He]. unfold log_update. destruct (is_insertion e); [by split; [|split; [|left]]|done].
Qed.
