(* ===== verification/Aging2Worker.v ===== *)
(** [experiment/details/aging2_worker]: a worker of the aging experiment. It
    collects its share of the log and performs the updates on the library. *)

From S2P Require Import Prelude Doubles CByteArray Edge Readers Zlib Graphlog AdjList Threads Interface.

(** ** The configuration ([experiment/aging2_experiment]) *)

Record Aging2Experiment := mkAging2Experiment {
  m_path_log : option Text.text;
  m_num_threads : Z;
  m_worker_granularity : Z;
  m_max_weight : double;
  m_build_frequency : Z;
  m_memfp : bool;
  m_memfp_physical : bool;
  m_memfp_threshold : Z;
  m_release_driver_memory : bool;
  m_report_memory_footprint : bool;
  m_report_progress : bool;
  m_num_reports_per_operations : Z;
  m_measure_latency : bool;
  m_timeout : Z;
  m_cooloff : Z;
}.

(** ** [CircularArray]

    The queue comes from a library that is not part of the program: its
    operations are parameters, with the meaning that its users rely on. *)

Class CircularArray := {
  carray : Type;
  ca_empty : carray;
  ca_append : carray -> nat -> carray;
  ca_size : carray -> nat;
  ca_get : carray -> nat -> res nat;
  ca_pop : carray -> res carray;
  ca_clear : carray -> carray;
}.

Class CircularArrayLaws `{CircularArray} := {
  ca_elems : carray -> list nat;
  ca_elems_empty : ca_elems ca_empty = [];
  ca_elems_append : forall a x, ca_elems (ca_append a x) = ca_elems a ++ [x];
  ca_size_elems : forall a, ca_size a = length (ca_elems a);
  ca_get_elems : forall a i x, ca_elems a !! i = Some x -> ca_get a i = Val x;
  ca_pop_elems : forall a x l, ca_elems a = x :: l -> exists a', ca_pop a = Val a' /\ ca_elems a' = l;
  ca_clear_elems : forall a, ca_elems (ca_clear a) = [];
}.

(** A list is such a queue, on which the examples are evaluated. *)
Definition list_array : CircularArray := {|
  carray := list nat;
  ca_empty := [];
  ca_append := fun a x => a ++ [x];
  ca_size := fun a => length a;
  ca_get := arr_get;
  ca_pop := fun a => match a with [] => Undef | _ :: a => Val a end;
  ca_clear := fun _ => [];
|}.

#[export] Instance list_array_laws : @CircularArrayLaws list_array.
Proof.
  refine {| ca_elems := fun a : @carray list_array => a |}; try done.
  - intros a i x Hi. by apply arr_get_val.
  - intros a x l ->. by exists l.
Defined.

(** ** The state that the threads share

    The library, and the counters and flags of the master and of the workers that
    other threads read. [sh_clock] counts the readings of the clock. *)

Section shared.
Context `{UpdateInterface}.

Record Shared := mkShared {
  m_library : Impl;
  m_stop_experiment : bool;
  m_num_operations_performed : Z;
  m_workload_index : Z;
  m_num_operations : list Z;
  m_latencies : list Z;
  m_time_start : Z;
  m_last_time_reported : Z;
  m_reported_times : list Z;
  sh_clock : nat;
}.

Inductive Op :=
  | Call (u : Update)
  | AddEdgeV3 (e : WeightedEdge)
  | StopExperiment
  | OperationsPerformed (n : Z)
  | FetchIndex (n : Z)
  | CountOperation (worker : nat)
  | StoreLatency (i : nat) (ns : Z)
  | ReportProgress (lastset_coeff aging_coeff : Z)
  | StoreReport (i : Z) (now : Z)
  | Now.

Definition answer (op : Op) : Type :=
  match op with
  | Call _ | AddEdgeV3 _ | StopExperiment => bool
  | CountOperation _ | StoreLatency _ _ | StoreReport _ _ => unit
  | OperationsPerformed _ | FetchIndex _ | Now => Z
  | ReportProgress _ _ => bool * Z
  end.

Definition set_library (s : Shared) (d : Impl) : Shared :=
  mkShared d (m_stop_experiment s) (m_num_operations_performed s) (m_workload_index s) (m_num_operations s)
    (m_latencies s) (m_time_start s) (m_last_time_reported s) (m_reported_times s) (sh_clock s).

Definition set_stop (s : Shared) (stop : bool) : Shared :=
  mkShared (m_library s) stop (m_num_operations_performed s) (m_workload_index s) (m_num_operations s)
    (m_latencies s) (m_time_start s) (m_last_time_reported s) (m_reported_times s) (sh_clock s).

Definition set_progress (s : Shared) (performed index : Z) : Shared :=
  mkShared (m_library s) (m_stop_experiment s) performed index (m_num_operations s)
    (m_latencies s) (m_time_start s) (m_last_time_reported s) (m_reported_times s) (sh_clock s).

Definition set_num_operations (s : Shared) (num_operations : list Z) : Shared :=
  mkShared (m_library s) (m_stop_experiment s) (m_num_operations_performed s) (m_workload_index s) num_operations
    (m_latencies s) (m_time_start s) (m_last_time_reported s) (m_reported_times s) (sh_clock s).

Definition set_latency_array (s : Shared) (latencies : list Z) : Shared :=
  mkShared (m_library s) (m_stop_experiment s) (m_num_operations_performed s) (m_workload_index s) (m_num_operations s)
    latencies (m_time_start s) (m_last_time_reported s) (m_reported_times s) (sh_clock s).

Definition set_reports (s : Shared) (time_start last_time : Z) (times : list Z) : Shared :=
  mkShared (m_library s) (m_stop_experiment s) (m_num_operations_performed s) (m_workload_index s) (m_num_operations s)
    (m_latencies s) time_start last_time times (sh_clock s).

Definition tick (s : Shared) : Shared :=
  mkShared (m_library s) (m_stop_experiment s) (m_num_operations_performed s) (m_workload_index s) (m_num_operations s)
    (m_latencies s) (m_time_start s) (m_last_time_reported s) (m_reported_times s) (S (sh_clock s)).

(** The library's [add_edge_v3], the time of the [k]-th reading of the clock, in
    nanoseconds; [fuel] bounds the loops of the library. *)
Context (add_edge_v3 : Impl -> WeightedEdge -> nat -> res (bool * Impl)) (clock : nat -> Z).

Definition exec (fuel : nat) (op : Op) (s : Shared) : res (answer op * Shared) :=
  match op with
  | Call u => '(b, d) ← call (m_library s) u fuel; Val (b, set_library s d)
  | AddEdgeV3 e => '(b, d) ← add_edge_v3 (m_library s) e fuel; Val (b, set_library s d)
  | StopExperiment => Val (m_stop_experiment s, s)
  | OperationsPerformed n =>
    Val (m_num_operations_performed s, set_progress s (i64 (m_num_operations_performed s + n)) (m_workload_index s))
  | FetchIndex n =>
    Val (m_workload_index s, set_progress s (m_num_operations_performed s) (u64 (m_workload_index s + n)))
  | CountOperation worker =>
    n ← arr_get (m_num_operations s) worker;
    num_operations ← arr_set (m_num_operations s) worker (u64 (n + 1));
    Val (tt, set_num_operations s num_operations)
  | StoreLatency i ns =>
    latencies ← arr_set (m_latencies s) i ns;
    Val (tt, set_latency_array s latencies)
  | ReportProgress lastset_coeff aging_coeff => (* compare_exchange_strong *)
    if m_last_time_reported s =? lastset_coeff
    then Val ((true, lastset_coeff), set_reports s (m_time_start s) aging_coeff (m_reported_times s))
    else Val ((false, m_last_time_reported s), s)
  | StoreReport i now => (* in microseconds *)
    times ← arr_set (m_reported_times s) (Z.to_nat i) (u64 (Z.quot (now - m_time_start s) 1000));
    Val (tt, set_reports s (m_time_start s) (m_last_time_reported s) times)
  | Now => Val (clock (sh_clock s), tick s)
  end.

(** The master raises the flag that ends the experiment. *)
Inductive Event := RequestStop.

Definition interfere (event : Event) (s : Shared) : Shared := set_stop s true.
End shared.
Arguments Shared {_}.

(** ** The worker

    [m_updates] holds pointers to vectors; [m_vectors] are the vectors that have
    been allocated and not deleted. A pointer to a latency is its index in the
    array of the master; [m_random] is the state of the generator. *)

Record Aging2Worker `{CircularArray} := mkAging2Worker {
  m_worker_id : nat;
  m_updates : carray;
  m_vectors : gmap nat (list WeightedEdge);
  m_next_vector : nat;
  m_random : nat;
  m_latency_insertions : option nat;
  m_num_edge_insertions : Z;
  m_latency_deletions : option nat;
  m_num_edge_deletions : Z;
}.
Arguments mkAging2Worker {_}.

Section worker.
Context `{CircularArray, Random}.

Definition Aging2Worker_new (worker_id seed : nat) : Aging2Worker :=
  mkAging2Worker worker_id ca_empty ∅ 0 seed None 0 None 0.

Definition set_updates (w : Aging2Worker) (updates : carray) (vectors : gmap nat (list WeightedEdge)) (next : nat) : Aging2Worker :=
  mkAging2Worker (m_worker_id w) updates vectors next (m_random w) (m_latency_insertions w) (m_num_edge_insertions w)
    (m_latency_deletions w) (m_num_edge_deletions w).

Definition set_random (w : Aging2Worker) (random : nat) : Aging2Worker :=
  mkAging2Worker (m_worker_id w) (m_updates w) (m_vectors w) (m_next_vector w) random (m_latency_insertions w)
    (m_num_edge_insertions w) (m_latency_deletions w) (m_num_edge_deletions w).

Definition set_counters (w : Aging2Worker) (insertions deletions : Z) : Aging2Worker :=
  mkAging2Worker (m_worker_id w) (m_updates w) (m_vectors w) (m_next_vector w) (m_random w) (m_latency_insertions w)
    insertions (m_latency_deletions w) deletions.

Definition set_latencies (w : Aging2Worker) (insertions deletions : option nat) : Aging2Worker :=
  mkAging2Worker (m_worker_id w) (m_updates w) (m_vectors w) (m_next_vector w) (m_random w) insertions
    (m_num_edge_insertions w) deletions (m_num_edge_deletions w).

(** [m_updates.append(new vector())]: the pointer and the worker. *)
Definition append_vector (w : Aging2Worker) : nat * Aging2Worker :=
  (m_next_vector w,
   set_updates w (ca_append (m_updates w) (m_next_vector w)) (<[m_next_vector w := []]> (m_vectors w)) (S (m_next_vector w))).

Definition delete_vector (w : Aging2Worker) (p : nat) : res Aging2Worker :=
  _ ← require (m_vectors w !! p);
  Val (set_updates w (m_updates w) (delete p (m_vectors w)) (m_next_vector w)).

Definition pop_updates (w : Aging2Worker) : res Aging2Worker :=
  updates ← ca_pop (m_updates w);
  Val (set_updates w updates (m_vectors w) (m_next_vector w)).

(** The destructor: the vectors are deleted. *)
Fixpoint free_updates (w : Aging2Worker) (n : nat) : res Aging2Worker :=
  match n with
  | O => Val w
  | S n =>
    p ← ca_get (m_updates w) 0;
    w ← delete_vector w p;
    w ← pop_updates w;
    free_updates w n
  end.

Definition Aging2Worker_delete (w : Aging2Worker) : res Aging2Worker := free_updates w (ca_size (m_updates w)).

(** ** Loading *)

Definition last_max_sz : Z := Z.shiftl 1 22.

Definition d_half : double := S754_finite false (2 ^ 52) (-53).

Context (parameters : Aging2Experiment).

(** The first lines of the functions that load edges: the last vector. *)
Definition last_vector (w : Aging2Worker) : res (nat * Aging2Worker) :=
  let w := if (ca_size (m_updates w) =? 0)%nat then (append_vector w).2 else w in
  last ← ca_get (m_updates w) (ca_size (m_updates w) - 1);
  Val (last, w).

(** The body of their loops, and of [load_edge]: one update is appended. *)
Definition load_update (w : Aging2Worker) (last : nat) (e : WeightedEdge) : res (nat * Aging2Worker) :=
  v ← require (m_vectors w !! last);
  let '(last, w) := if last_max_sz <? Z.of_nat (length v) then append_vector w else (last, w) in
  let weight := m_weight e in
  let w :=
    if dle d_zero weight then set_counters w (u64 (m_num_edge_insertions w + 1)) (m_num_edge_deletions w)
    else set_counters w (m_num_edge_insertions w) (u64 (m_num_edge_deletions w + 1)) in
  let '(weight, w) :=
    if deq weight d_zero then
      let weight := random_real (m_random w) (m_max_weight parameters) in
      ((if deq weight d_zero then m_max_weight parameters else weight), set_random w (S (m_random w)))
    else (weight, w) in
  v ← require (m_vectors w !! last);
  e ← WeightedEdge_new (wsource e) (wdestination e) weight;
  Val (last, set_updates w (m_updates w) (<[last := v ++ [e]]> (m_vectors w)) (m_next_vector w)).

(** [std::hash<uint64_t>]. *)
Context (hash : Z -> Z).

Definition is_owner (worker : nat) (source destination : Z) : res bool :=
  let modulo := m_num_threads parameters in
  if modulo =? 0 then Undef
  else Val (i32 (hash (u64 (source + destination)) mod modulo) =? Z.of_nat worker).

(** The array holds [num_edges] sources, then the destinations and the weights. *)
Definition main_load_edges (w : Aging2Worker) (edges : list Z) (num_edges : nat) : res Aging2Worker :=
  '(last, w) ← last_vector w;
  '(_, w) ← res_fold (fun '(last, w) i =>
      let e := block_edge edges num_edges i in
      mine ← is_owner (m_worker_id w) (wsource e) (wdestination e);
      if mine : bool then load_update w last e else Val (last, w)) (last, w) (seq 0 num_edges);
  Val w.

Definition main_load_edges_even_split (w : Aging2Worker) (edges : list Z) (num_edges : nat) : res Aging2Worker :=
  '(last, w) ← last_vector w;
  '(_, w) ← res_fold (fun '(last, w) i =>
      if m_num_threads parameters =? 0 then Undef
      else if Z.of_nat i mod m_num_threads parameters =? u64 (Z.of_nat (m_worker_id w))
      then load_update w last (block_edge edges num_edges i) else Val (last, w)) (last, w) (seq 0 num_edges);
  Val w.

Definition load_edge (w : Aging2Worker) (source destination : Z) (weight : double) : res Aging2Worker :=
  '(last, w) ← last_vector w;
  '(_, w) ← load_update w last (mkWeightedEdge (mkEdge source destination) weight);
  Val w.

(** ** Updates

    The thread of the worker, over the operations on the shared state. *)

Context `{UpdateInterface} (is_directed : bool) (num_edges_final_graph : Z).

(** A loop that repeats a call until it returns true. *)
Fixpoint repeat_until (p : prog answer bool) (fuel : nat) : prog answer unit :=
  match fuel with
  | O => OutOfFuel
  | S fuel => b ← p; if b : bool then Ret tt else repeat_until p fuel
  end.

(** The same with a reading of the clock before each call: the last reading. *)
Fixpoint timed_until (p : prog answer bool) (fuel : nat) : prog answer Z :=
  match fuel with
  | O => OutOfFuel
  | S fuel => t0 ← (perform Now : prog answer Z); b ← p; if b : bool then Ret t0 else timed_until p fuel
  end.

Definition noise (w : Aging2Worker) (edge : Edge) : Edge * Aging2Worker :=
  if is_directed then (edge, w)
  else (if dlt (random_real (m_random w) d_one) d_half then swap_src_dst edge else edge, set_random w (S (m_random w))).

Definition library_call (u : Update) : prog answer bool := perform (Call u).

(** [p[0] = ns; p++]. *)
Definition store_latency (p : option nat) (ns : Z) : prog answer (option nat) :=
  match p with
  | Some i => _ ← (perform (StoreLatency i (u64 ns)) : prog answer unit); Ret (Some (S i))
  | None => Ub
  end.

Definition graph_insert_edge (with_latency : bool) (w : Aging2Worker) (edge : WeightedEdge) (fuel : nat) :
    prog answer Aging2Worker :=
  let '(e, w) := noise w (edge_of edge) in
  let edge := mkWeightedEdge e (m_weight edge) in
  if negb with_latency then
    _ ← repeat_until (library_call (UAddEdgeV2 edge)) fuel;
    Ret w
  else
    t0 ← timed_until (library_call (UAddEdgeV2 edge)) fuel;
    t1 ← (perform Now : prog answer Z);
    p ← store_latency (m_latency_insertions w) (t1 - t0);
    Ret (set_latencies w p (m_latency_deletions w)).

Definition graph_remove_edge (with_latency : bool) (w : Aging2Worker) (edge : Edge) (force : bool) (fuel : nat) :
    prog answer Aging2Worker :=
  let '(edge, w) := noise w edge in
  let remove : prog answer unit :=
    if force then repeat_until (library_call (URemoveEdge edge)) fuel
    else _ ← library_call (URemoveEdge edge); Ret tt in
  if negb with_latency then
    _ ← remove;
    Ret w
  else
    t0 ← (perform Now : prog answer Z);
    _ ← remove;
    t1 ← (perform Now : prog answer Z);
    p ← store_latency (m_latency_deletions w) (t1 - t0);
    Ret (set_latencies w (m_latency_insertions w) p).

Fixpoint graph_execute_batch_updates0 (with_latency : bool) (w : Aging2Worker) (updates : list WeightedEdge) (fuel : nat) :
    prog answer Aging2Worker :=
  match updates with
  | [] => Ret w
  | e :: updates =>
    stop ← (perform StopExperiment : prog answer bool);
    if stop : bool then Ret w else
    w ← (if dle d_zero (m_weight e) then graph_insert_edge with_latency w e fuel
         else graph_remove_edge with_latency w (edge_of e) true fuel);
    _ ← (perform (CountOperation (m_worker_id w)) : prog answer unit);
    graph_execute_batch_updates0 with_latency w updates fuel
  end.

Definition graph_execute_batch_updates (w : Aging2Worker) (updates : list WeightedEdge) (fuel : nat) :
    prog answer Aging2Worker :=
  match m_latency_insertions w, m_latency_deletions w with
  | None, None => if m_measure_latency parameters then Ub else graph_execute_batch_updates0 false w updates fuel
  | Some _, Some _ => if m_measure_latency parameters then graph_execute_batch_updates0 true w updates fuel else Ub
  | _, _ => Ub
  end.

Definition prog_of {A} (r : res A) : prog answer A :=
  match r with Val a => Ret a | NoFuel => OutOfFuel | _ => Ub end.

(** How many times as many updates have been done as there are edges in the
    final graph, in the unit of the reports. *)
Definition aging_coefficient (num_ops_done : Z) : res Z :=
  static_cast (- 2 ^ 31) (2 ^ 31)
    (dmul (ddiv (double_of_Z num_ops_done) (double_of_Z num_edges_final_graph))
       (double_of_Z (m_num_reports_per_operations parameters))).

(** The time at which a coefficient is reached is recorded by the worker that
    moves [m_last_time_reported] on: the new value of [lastset_coeff]. *)
Definition report_progress (lastset_coeff num_ops_done : Z) : prog answer Z :=
  aging_coeff ← prog_of (aging_coefficient num_ops_done);
  if lastset_coeff <? aging_coeff then
    '(exchanged, lastset_coeff) ← (perform (ReportProgress lastset_coeff aging_coeff) : prog answer (bool * Z));
    if exchanged : bool then
      now ← (perform Now : prog answer Z);
      _ ← (perform (StoreReport (aging_coeff - 1) now) : prog answer unit);
      Ret lastset_coeff
    else Ret lastset_coeff
  else Ret lastset_coeff.

(** The chunks of a vector. *)
Fixpoint execute_chunks (w : Aging2Worker) (operations : list WeightedEdge) (lastset_coeff start : Z) (num_loops fuel : nat) :
    prog answer (Z * Aging2Worker) :=
  match num_loops with
  | O => Ret (lastset_coeff, w)
  | S num_loops =>
    let end_ := Z.min (u64 (start + m_worker_granularity parameters)) (Z.of_nat (length operations)) in
    w ← graph_execute_batch_updates w (take (Z.to_nat (end_ - start)) (drop (Z.to_nat start) operations)) fuel;
    num_ops_done ← (perform (OperationsPerformed (end_ - start)) : prog answer Z);
    lastset_coeff ← report_progress lastset_coeff (u64 num_ops_done);
    execute_chunks w operations lastset_coeff end_ num_loops fuel
  end.

Definition num_loops (size : Z) : Z :=
  size / m_worker_granularity parameters + (if size mod m_worker_granularity parameters =? 0 then 0 else 1).

(** The vectors from the [i]-th on, [todo] of them. *)
Fixpoint execute_vectors (w : Aging2Worker) (lastset_coeff : Z) (i todo fuel : nat) : prog answer Aging2Worker :=
  match todo with
  | O => Ret w
  | S todo =>
    let release_memory := m_release_driver_memory parameters in
    p ← prog_of (ca_get (m_updates w) (if release_memory then 0 else i));
    operations ← prog_of (require (m_vectors w !! p));
    if m_worker_granularity parameters =? 0 then Ub else
    '(lastset_coeff, w) ← execute_chunks w operations lastset_coeff 0 (Z.to_nat (num_loops (Z.of_nat (length operations)))) fuel;
    w ← (if release_memory then
           first ← prog_of (ca_get (m_updates w) 0);
           w ← prog_of (delete_vector w first);
           prog_of (pop_updates w)
         else Ret w);
    execute_vectors w lastset_coeff (S i) todo fuel
  end.

Definition main_execute_updates (w : Aging2Worker) (fuel : nat) : prog answer Aging2Worker :=
  w ← execute_vectors w 0 0 (ca_size (m_updates w)) fuel;
  Ret (set_updates w (ca_clear (m_updates w)) (m_vectors w) (m_next_vector w)).

Fixpoint main_remove_vertices (w : Aging2Worker) (vertices : list Z) : prog answer Aging2Worker :=
  match vertices with
  | [] => Ret w
  | v :: vertices =>
    if m_num_threads parameters =? 0 then Ub
    else if i32 (v mod m_num_threads parameters) =? Z.of_nat (m_worker_id w) then
      _ ← library_call (URemoveVertex v);
      main_remove_vertices w vertices
    else main_remove_vertices w vertices
  end.

Definition m_update_batch_granularity : Z := 16.

(** The edges of a batch of [main_execute_true_updates]. *)
Fixpoint true_updates_batch (edges : list Z) (num_edges i n : nat) : prog answer unit :=
  match n with
  | O => Ret tt
  | S n =>
    let e := block_edge edges num_edges i in
    e ← prog_of (WeightedEdge_new (wsource e) (wdestination e) (dadd (m_weight e) d_one));
    _ ← (perform (AddEdgeV3 e) : prog answer bool);
    true_updates_batch edges num_edges (S i) n
  end.

Fixpoint main_execute_true_updates (edges : list Z) (num_edges fuel : nat) : prog answer unit :=
  match fuel with
  | O => OutOfFuel
  | S fuel =>
    start_index ← (perform (FetchIndex m_update_batch_granularity) : prog answer Z);
    if start_index <? Z.of_nat num_edges then
      let end_ := Z.min (u64 (start_index + m_update_batch_granularity)) (Z.of_nat num_edges) in
      _ ← true_updates_batch edges num_edges (Z.to_nat start_index) (Z.to_nat (end_ - start_index));
      main_execute_true_updates edges num_edges fuel
    else Ret tt
  end.
End worker.
