(* ===== verification/Aging2Run.v ===== *)
(** The execution of a log by the workers of the aging experiment: under any
    interleaving the library ends as if the log had been run in its order. *)

From S2P Require Import Prelude Doubles CByteArray Edge Readers Zlib Graphlog AdjList Threads Interface UpdateLog Aging2Worker.

(** ** What a thread does

    [executes]: the thread performs the updates of the list [l], counts [c] more
    of them than it has counted so far and reports [q] of them to the master, with
    at most [n] operations; [halted]: it has seen the flag that ends the experiment
    and performs no more updates. The array of latencies has [cap] cells, the one of
    times [reports], and the master's counter stays below [limit]. *)

Section executes.
Context `{CircularArrayLaws, Random, UpdateInterface}.
Context (directed : bool) (cap reports limit worker : nat) {A : Type}.

Fixpoint halted (Halted : A -> Prop) (q n : nat) (p : prog answer A) {struct p} : Prop :=
  match p with
  | Ret a => q = 0%nat /\ Halted a
  | Do op k =>
    match n with
    | O => False
    | S n =>
      match op return (answer op -> prog answer A) -> Prop with
      | StopExperiment => fun k => halted Halted q n (k true)
      | OperationsPerformed z => fun k => 0 <= z <= Z.of_nat q /\
          forall x, 0 <= x <= Z.of_nat limit -> halted Halted (q - Z.to_nat z) n (k x)
      | ReportProgress _ coeff => fun k => 0 <= coeff <= Z.of_nat reports /\ forall x, 0 <= x.2 -> halted Halted q n (k x)
      | StoreReport i _ => fun k => 0 <= i < Z.of_nat reports /\ halted Halted q n (k tt)
      | Now => fun k => forall t, halted Halted q n (k t)
      | _ => fun _ => False
      end k
    end
  | Ub | OutOfFuel => False
  end.

Fixpoint executes (Done Halted : A -> Prop) (l : list WeightedEdge) (c q n : nat) (p : prog answer A) {struct p} : Prop :=
  match p with
  | Ret a => l = [] /\ c = 0%nat /\ q = 0%nat /\ Done a
  | Do op k =>
    match n with
    | O => False
    | S n =>
      match op return (answer op -> prog answer A) -> Prop with
      | Call u => fun k => exists e e' l', l = e :: l' /\ same_edge directed e' e /\ u = log_update e' /\
          c = length l /\ executes Done Halted l' c q n (k true)
      | StopExperiment => fun k => c = length l /\ executes Done Halted l c q n (k false) /\ halted Halted q n (k true)
      | OperationsPerformed z => fun k => 0 <= z <= Z.of_nat q /\
          forall x, 0 <= x <= Z.of_nat limit -> executes Done Halted l c (q - Z.to_nat z) n (k x)
      | CountOperation i => fun k => i = worker /\ c = S (length l) /\ executes Done Halted l (length l) q n (k tt)
      | StoreLatency j _ => fun k => (j < cap)%nat /\ executes Done Halted l c q n (k tt)
      | ReportProgress _ coeff => fun k => 0 <= coeff <= Z.of_nat reports /\ forall x, 0 <= x.2 -> executes Done Halted l c q n (k x)
      | StoreReport i _ => fun k => 0 <= i < Z.of_nat reports /\ executes Done Halted l c q n (k tt)
      | Now => fun k => forall t, executes Done Halted l c q n (k t)
      | _ => fun _ => False
      end k
    end
  | Ub | OutOfFuel => False
  end.

Lemma halted_mono (Halted Halted' : A -> Prop) p : forall q n n', (forall a, Halted a -> Halted' a) -> (n <= n')%nat ->
  halted Halted q n p -> halted Halted' q n' p.
Proof.
  induction p as [a|op k IH| |]; intros q n n' HH Hle Hp; cbn [halted] in *; [naive_solver| |done..].
  destruct n as [|n]; [done|]. destruct n' as [|n']; [lia|]. assert (n <= n')%nat by lia.
  destruct op; try done.
  - by eapply IH.
  - destruct Hp as [? Hp]. split; [done|]. intros x Hx. by eapply IH; [..|apply Hp].
  - destruct Hp as [? Hp]. split; [done|]. intros x Hx. by eapply IH; [..|apply Hp].
  - destruct Hp as [? Hp]. split; [done|]. by eapply IH.
  - intros t. by eapply IH; [..|apply Hp].
Qed.

Lemma executes_mono (Done Done' Halted Halted' : A -> Prop) p : forall l c q n n',
  (forall a, Done a -> Done' a) -> (forall a, Halted a -> Halted' a) -> (n <= n')%nat ->
  executes Done Halted l c q n p -> executes Done' Halted' l c q n' p.
Proof.
  induction p as [a|op k IH| |]; intros l c q n n' HD HH Hle Hp; cbn [executes] in *; [naive_solver| |done..].
  destruct n as [|n]; [done|]. destruct n' as [|n']; [lia|]. assert (n <= n')%nat by lia. destruct op; try done.
  - destruct Hp as (e & e' & l' & ? & ? & ? & ? & Hp). exists e, e', l'. split_and!; try done. by eapply IH.
  - destruct Hp as (? & Hp & Hh). split_and!; [done|by eapply IH|by eapply halted_mono].
  - destruct Hp as [? Hp]. split; [done|]. intros x Hx. by eapply IH; [..|apply Hp].
  - destruct Hp as (? & ? & Hp). split_and!; [done..|]. by eapply IH.
  - destruct Hp as (? & Hp). split_and!; [done..|]. by eapply IH.
  - destruct Hp as [? Hp]. split; [done|]. intros x Hx. by eapply IH; [..|apply Hp].
  - destruct Hp as (? & Hp). split; [done..|]. by eapply IH.
  - intros t. by eapply IH; [..|apply Hp].
Qed.
End executes.

Lemma bind_do {Op A B} {answer : Op -> Type} (op : Op) (k : answer op -> prog answer A) (f : A -> prog answer B) :
  Do op k ≫= f = Do op (fun x => k x ≫= f).
Proof. done. Qed.

Lemma bind_ret {Op A B} {answer : Op -> Type} (a : A) (f : A -> prog answer B) : Ret a ≫= f = f a.
Proof. done. Qed.

Section bind.
Context `{CircularArrayLaws, Random, UpdateInterface}.
Context (directed : bool) (cap reports limit worker : nat) {A B : Type}.
Context (Done1 Halted1 : A -> Prop) (Done Halted : B -> Prop) (f : A -> prog answer B) (q2 n2 : nat) (l2 : list WeightedEdge).

Lemma halted_bind p : (forall a, Halted1 a -> halted reports limit Halted q2 n2 (f a)) ->
  forall q1 n1, halted reports limit Halted1 q1 n1 p -> halted reports limit Halted (q1 + q2) (n1 + n2) (p ≫= f).
Proof.
  intros Hf. induction p as [a|op k IH| |]; intros q1 n1 Hp; [| |done..].
  - rewrite bind_ret. destruct Hp as [-> Hp]. eapply halted_mono; [done| |by apply Hf]. lia.
  - rewrite bind_do. cbn [halted] in *. destruct n1 as [|n1]; [done|]. cbn [Nat.add]. destruct op; try done.
    + by apply IH.
    + destruct Hp as [? Hp]. split; [lia|]. intros x Hx. replace (q1 + q2 - Z.to_nat n)%nat with (q1 - Z.to_nat n + q2)%nat by lia. by apply IH, Hp.
    + destruct Hp as [? Hp]. split; [done|]. intros x Hx. by apply IH, Hp.
    + destruct Hp as [? Hp]. split; [done|]. by apply IH.
    + intros t. by apply IH.
Qed.

Lemma executes_bind p : (forall a, Done1 a -> executes directed cap reports limit worker Done Halted l2 (length l2) q2 n2 (f a)) ->
  (forall a, Halted1 a -> halted reports limit Halted q2 n2 (f a)) ->
  forall l1 c1 q1 n1, executes directed cap reports limit worker Done1 Halted1 l1 c1 q1 n1 p ->
  executes directed cap reports limit worker Done Halted (l1 ++ l2) (c1 + length l2) (q1 + q2) (n1 + n2) (p ≫= f).
Proof.
  intros Hf Hh. induction p as [a|op k IH| |]; intros l1 c1 q1 n1 Hp; [| |done..].
  - destruct Hp as (-> & -> & -> & Ha). rewrite bind_ret. cbn [app Nat.add]. eapply executes_mono; [done|done| |by apply Hf]. lia.
  - rewrite bind_do. cbn [executes] in *. destruct n1 as [|n1]; [done|]. cbn [Nat.add]. destruct op; try done.
    + destruct Hp as (e & e' & l' & -> & Hsame & Hu & -> & Hp). exists e, e', (l' ++ l2).
      split_and!; [done..|by rewrite <- length_app|]. by apply IH.
    + destruct Hp as (-> & Hp & Hs). split_and!; [by rewrite <- length_app|by apply IH|by eapply halted_bind].
    + destruct Hp as [? Hp]. split; [lia|]. intros x Hx. replace (q1 + q2 - Z.to_nat n)%nat with (q1 - Z.to_nat n + q2)%nat by lia. by apply IH, Hp.
    + destruct Hp as (-> & -> & Hp). split_and!; [done|by rewrite length_app|]. rewrite length_app. by apply IH.
    + destruct Hp as (? & Hp). split_and!; [done|]. by apply IH.
    + destruct Hp as [? Hp]. split; [done|]. intros x Hx. by apply IH, Hp.
    + destruct Hp as (? & Hp). split; [done|]. by apply IH.
    + intros t. by apply IH.
Qed.
End bind.

(** The first operations of a thread. *)
Section perform.
Context `{CircularArrayLaws, Random, UpdateInterface}.
Context (parameters : Aging2Experiment) (num_edges_final_graph : Z).
Context (directed : bool) (cap reports limit worker : nat) {A : Type} (Done Halted : A -> Prop).

Lemma executes_poll l q n (f : bool -> prog answer A) :
  executes directed cap reports limit worker Done Halted l (length l) q n (f false) -> halted reports limit Halted q n (f true) ->
  executes directed cap reports limit worker Done Halted l (length l) q (S n) ((perform StopExperiment : prog answer bool) ≫= f).
Proof. intros Hf Ht. by split_and!. Qed.

(** The reports of all counts up to [limit] fit into the array of times. *)
Definition reports_fit : Prop := forall x, 0 <= x <= Z.of_nat limit ->
  exists coeff, aging_coefficient parameters num_edges_final_graph x = Val coeff /\ coeff <= Z.of_nat reports.

(** The same, as a test. *)
Definition check_reports : bool :=
  forallb (fun x => match aging_coefficient parameters num_edges_final_graph (Z.of_nat x) with
                    | Val coeff => coeff <=? Z.of_nat reports | _ => false end) (seq 0 (S limit)).

Lemma check_reports_fit : check_reports = true -> reports_fit.
Proof.
  unfold check_reports. rewrite forallb_forall. intros Hall x Hx.
  specialize (Hall (Z.to_nat x) ltac:(apply in_seq; lia)). rewrite Z2Nat.id in Hall by lia.
  destruct (aging_coefficient _ _ x) as [coeff| | |]; try done. exists coeff. split; [done|]. by apply Z.leb_le.
Qed.

Context (Hreports : reports_fit) (Hlimit : Z.of_nat limit < 2 ^ 63).

(** The count of a chunk and its report. *)
Definition count_chunk (z lastset_coeff : Z) : prog answer Z :=
  num_ops_done ← (perform (OperationsPerformed z) : prog answer Z);
  report_progress parameters num_edges_final_graph lastset_coeff (u64 num_ops_done).

Lemma executes_count l c q n z lastset_coeff (f : Z -> prog answer A) : 0 <= z <= Z.of_nat q -> 0 <= lastset_coeff ->
  (forall coeff, 0 <= coeff -> executes directed cap reports limit worker Done Halted l c (q - Z.to_nat z) n (f coeff)) ->
  executes directed cap reports limit worker Done Halted l c q (4 + n) (count_chunk z lastset_coeff ≫= f).
Proof.
  intros Hz Hlast Hf. split; [done|]. intros x Hx. destruct (Hreports x Hx) as (coeff & Hcoeff & Hfit).
  change (executes directed cap reports limit worker Done Halted l c (q - Z.to_nat z) (3 + n)
    (report_progress parameters num_edges_final_graph lastset_coeff (u64 x) ≫= f)).
  unfold report_progress. rewrite u64_id by (unfold is_u64; lia). rewrite Hcoeff. cbn [prog_of]. rewrite bind_ret.
  destruct (lastset_coeff <? coeff) eqn:Hlt; [|rewrite bind_ret; eapply executes_mono; [done|done| |by apply Hf]; lia].
  apply Z.ltb_lt in Hlt. split; [lia|]. intros [exchanged lastset] Hlast'. destruct exchanged.
  - intros now. split; [lia|]. by apply Hf.
  - eapply executes_mono; [done|done| |by apply Hf]. lia.
Qed.

Lemma halted_count q n z lastset_coeff (f : Z -> prog answer A) : 0 <= z <= Z.of_nat q -> 0 <= lastset_coeff ->
  (forall coeff, 0 <= coeff -> halted reports limit Halted (q - Z.to_nat z) n (f coeff)) ->
  halted reports limit Halted q (4 + n) (count_chunk z lastset_coeff ≫= f).
Proof.
  intros Hz Hlast Hf. split; [done|]. intros x Hx. destruct (Hreports x Hx) as (coeff & Hcoeff & Hfit).
  change (halted reports limit Halted (q - Z.to_nat z) (3 + n)
    (report_progress parameters num_edges_final_graph lastset_coeff (u64 x) ≫= f)).
  unfold report_progress. rewrite u64_id by (unfold is_u64; lia). rewrite Hcoeff. cbn [prog_of]. rewrite bind_ret.
  destruct (lastset_coeff <? coeff) eqn:Hlt; [|rewrite bind_ret; eapply halted_mono; [done| |by apply Hf]; lia].
  apply Z.ltb_lt in Hlt. split; [lia|]. intros [exchanged lastset] Hlast'. destruct exchanged.
  - intros now. split; [lia|]. by apply Hf.
  - eapply halted_mono; [done| |by apply Hf]. lia.
Qed.
End perform.

(** ** The updates of a worker *)

Section worker.
Context `{CircularArrayLaws, Random, UpdateInterface}.
Context (parameters : Aging2Experiment) (num_edges_final_graph : Z) (directed : bool) (cap reports limit : nat).

(** The worker has the same queue and counters. *)
Definition same_store (w w' : Aging2Worker) : Prop :=
  m_worker_id w' = m_worker_id w /\ m_updates w' = m_updates w /\ m_vectors w' = m_vectors w /\
  m_next_vector w' = m_next_vector w /\ m_num_edge_insertions w' = m_num_edge_insertions w /\
  m_num_edge_deletions w' = m_num_edge_deletions w.

Definition count_insertions (l : list WeightedEdge) : nat := length (filter (fun e => is_insertion e = true) l).

Definition count_deletions (l : list WeightedEdge) : nat := length (filter (fun e => is_insertion e = false) l).

(** The arrays of latencies have room for the updates of [l]. *)
Definition can_measure (w : Aging2Worker) (l : list WeightedEdge) : Prop :=
  if m_measure_latency parameters then exists i j, m_latency_insertions w = Some i /\ m_latency_deletions w = Some j /\
    (i + count_insertions l <= cap)%nat /\ (j + count_deletions l <= cap)%nat
  else m_latency_insertions w = None /\ m_latency_deletions w = None.

Lemma count_insertions_cons e l : count_insertions (e :: l) = ((if is_insertion e then 1 else 0) + count_insertions l)%nat.
Proof. unfold count_insertions. rewrite filter_cons. by destruct (is_insertion e). Qed.

Lemma count_deletions_cons e l : count_deletions (e :: l) = ((if is_insertion e then 0 else 1) + count_deletions l)%nat.
Proof. unfold count_deletions. rewrite filter_cons. by destruct (is_insertion e). Qed.

Lemma same_store_refl w : same_store w w.
Proof. by unfold same_store. Qed.

Lemma same_store_trans w1 w2 w3 : same_store w1 w2 -> same_store w2 w3 -> same_store w1 w3.
Proof. unfold same_store. intuition congruence. Qed.

Lemma can_measure_nil w l : can_measure w l -> can_measure w [].
Proof.
  unfold can_measure. destruct (m_measure_latency parameters); [|done]. intros (i & j & ? & ? & ? & ?). exists i, j.
  unfold count_insertions, count_deletions in *. simpl. split_and!; [done..|lia|lia].
Qed.

(** The noise turns an undirected edge round at most. *)
Lemma noise_spec w edge weight : exists e w', noise directed w edge = (e, w') /\ same_store w w' /\
  m_latency_insertions w' = m_latency_insertions w /\ m_latency_deletions w' = m_latency_deletions w /\
  same_edge directed (mkWeightedEdge e weight) (mkWeightedEdge edge weight).
Proof.
  unfold noise. destruct directed; eexists _, _; (split; [done|]); split_and!; try done.
  destruct (dlt _ _); [|done]. unfold same_edge, ends, pair_key, wsource, wdestination. simpl. split; [f_equal; lia|done].
Qed.

(** One update and its count, before the rest [f] of the updates [l]. *)
Lemma executes_update (Done Halted : Aging2Worker -> Prop) w e l rest q n fuel f :
  (forall w', same_store w w' -> can_measure w' (l ++ rest) ->
     executes directed cap reports limit (m_worker_id w) Done Halted l (length l) q n (f w')) ->
  can_measure w (e :: l ++ rest) -> (0 < fuel)%nat ->
  executes directed cap reports limit (m_worker_id w) Done Halted (e :: l) (S (length l)) q (5 + n)
    (w ← (if dle d_zero (m_weight e) then graph_insert_edge directed (m_measure_latency parameters) w e fuel
          else graph_remove_edge directed (m_measure_latency parameters) w (edge_of e) true fuel);
     _ ← (perform (CountOperation (m_worker_id w)) : prog answer unit);
     f w).
Proof.
  intros Hf Hm Hfuel. destruct fuel as [|fuel]; [lia|]. fold (is_insertion e).
  destruct (noise_spec w (edge_of e) (m_weight e)) as (e' & w1 & Hnoise & Hstore & Hli & Hld & Hsame).
  replace (mkWeightedEdge (edge_of e) (m_weight e)) with e in Hsame by (by destruct e).
  unfold can_measure in Hf, Hm. rewrite count_insertions_cons, count_deletions_cons in Hm.
  assert (m_worker_id w1 = m_worker_id w) as Hid by apply Hstore.
  destruct (is_insertion e) eqn:Hins.
  - assert (UAddEdgeV2 (mkWeightedEdge e' (m_weight e)) = log_update (mkWeightedEdge e' (m_weight e))) as Hu
      by (unfold log_update, is_insertion in *; cbn [m_weight]; by rewrite Hins).
    unfold graph_insert_edge. rewrite Hnoise. destruct (m_measure_latency parameters) eqn:Hlat; cbn [negb].
    + destruct Hm as (i & j & Hi & Hj & Hbi & Hbj). rewrite <- Hli in Hi. cbn. rewrite Hi. cbn. intros t0.
      exists e, (mkWeightedEdge e' (m_weight e)), l. split_and!; try done. intros t1.
      split_and!; [lia|exact Hid|done|]. eapply executes_mono; [done|done| |apply Hf]; [lia|exact Hstore|].
      exists (S i), j. cbn. rewrite Hld. split_and!; [done|done|lia|lia].
    + cbn. exists e, (mkWeightedEdge e' (m_weight e)), l. split_and!; try done.
      eapply executes_mono; [done|done| |apply Hf]; [lia|exact Hstore|]. by rewrite Hli, Hld.
  - assert (URemoveEdge e' = log_update (mkWeightedEdge e' (m_weight e))) as Hu
      by (unfold log_update, is_insertion in *; cbn [m_weight edge_of]; by rewrite Hins).
    unfold graph_remove_edge. rewrite Hnoise. destruct (m_measure_latency parameters) eqn:Hlat; cbn [negb].
    + destruct Hm as (i & j & Hi & Hj & Hbi & Hbj). rewrite <- Hld in Hj. cbn. rewrite Hj. cbn. intros t0.
      exists e, (mkWeightedEdge e' (m_weight e)), l. split_and!; try done. intros t1.
      split_and!; [lia|exact Hid|done|]. eapply executes_mono; [done|done| |apply Hf]; [lia|exact Hstore|].
      exists i, (S j). cbn. rewrite Hli. split_and!; [done|done|lia|lia].
    + cbn. exists e, (mkWeightedEdge e' (m_weight e)), l. split_and!; try done.
      eapply executes_mono; [done|done| |apply Hf]; [lia|exact Hstore|]. by rewrite Hli, Hld.
Qed.

(** ** Batches and chunks *)

Definition batch_done (w : Aging2Worker) (rest : list WeightedEdge) (w' : Aging2Worker) : Prop :=
  same_store w w' /\ can_measure w' rest.

Lemma batch_done_trans w1 w2 rest w3 : same_store w1 w2 -> batch_done w2 rest w3 -> batch_done w1 rest w3.
Proof. intros Hs [Hs' Hm]. split; [by eapply same_store_trans|done]. Qed.

Lemma batch0_executes updates : forall w rest fuel, can_measure w (updates ++ rest) -> (0 < fuel)%nat ->
  executes directed cap reports limit (m_worker_id w) (batch_done w rest) (batch_done w []) updates (length updates) 0 (6 * length updates)
    (graph_execute_batch_updates0 directed (m_measure_latency parameters) w updates fuel).
Proof.
  induction updates as [|e updates IH]; intros w rest fuel Hm Hfuel.
  { cbn [graph_execute_batch_updates0 executes length]. split_and!; [done..|by split; [apply same_store_refl|]]. }
  replace (6 * length (e :: updates))%nat with (S (5 + 6 * length updates)) by (cbn [length]; lia).
  cbn [graph_execute_batch_updates0]. apply executes_poll.
  2: { split; [done|]. split; [apply same_store_refl|by eapply can_measure_nil]. }
  apply executes_update with (rest := rest); [|done|done].
  intros w' Hs Hm'. assert (m_worker_id w' = m_worker_id w) as <- by apply Hs.
  eapply executes_mono; [| |done|by apply (IH w' rest)]; intros w''; by apply batch_done_trans.
Qed.

Lemma batch_executes w updates rest fuel : can_measure w (updates ++ rest) -> (0 < fuel)%nat ->
  executes directed cap reports limit (m_worker_id w) (batch_done w rest) (batch_done w []) updates (length updates) 0 (6 * length updates)
    (graph_execute_batch_updates parameters directed w updates fuel).
Proof.
  intros Hm Hfuel. pose proof (batch0_executes updates w rest fuel Hm Hfuel) as Hb. unfold graph_execute_batch_updates, can_measure in *.
  destruct (m_measure_latency parameters); [destruct Hm as (i & j & -> & -> & _)|destruct Hm as [-> ->]]; exact Hb.
Qed.

Lemma batch_halted w updates fuel : can_measure w [] ->
  halted reports limit (batch_done w []) 0 1 (graph_execute_batch_updates parameters directed w updates fuel).
Proof.
  intros Hm. assert (forall with_latency, halted reports limit (batch_done w []) 0 1 (graph_execute_batch_updates0 directed with_latency w updates fuel)) as Hb
    by (intros with_latency; destruct updates; split; [done| |done|]; (split; [apply same_store_refl|done])).
  unfold graph_execute_batch_updates, can_measure in *.
  destruct (m_measure_latency parameters); [destruct Hm as (i & j & -> & -> & _)|destruct Hm as [-> ->]]; apply Hb.
Qed.

Context (Hgranularity : 0 < m_worker_granularity parameters < 2 ^ 64).

Lemma num_loops_zero : num_loops parameters 0 = 0.
Proof. unfold num_loops. rewrite Z.div_0_l, Z.mod_0_l by lia. done. Qed.

Lemma num_loops_step r : 0 < r ->
  num_loops parameters r = 1 + num_loops parameters (r - Z.min (m_worker_granularity parameters) r) /\
  0 <= num_loops parameters (r - Z.min (m_worker_granularity parameters) r).
Proof.
  intros Hr. set (g := m_worker_granularity parameters) in *.
  assert (forall q, 0 <= q -> 0 <= num_loops parameters q) as Hpos.
  { intros q Hq. unfold num_loops. fold g. pose proof (Z.div_pos q g). destruct (_ =? 0); lia. }
  split; [|apply Hpos; lia]. destruct (Z.le_gt_cases g r) as [Hle|Hgt].
  - rewrite Z.min_l by lia. unfold num_loops. fold g. replace r with ((r - g) + 1 * g) at 1 2 by lia.
    rewrite Z.div_add, Z.mod_add by lia. lia.
  - rewrite Z.min_r, Z.sub_diag, num_loops_zero by lia. unfold num_loops. fold g.
    rewrite Z.div_small, Z.mod_small by lia. destruct (Z.eqb_spec r 0); lia.
Qed.

Lemma num_loops_bound r : 0 <= r -> 0 <= num_loops parameters r <= r.
Proof.
  revert r. assert (forall n r, 0 <= r < Z.of_nat n -> 0 <= num_loops parameters r <= r) as Hgen.
  2: { intros r Hr. apply (Hgen (S (Z.to_nat r))). lia. }
  induction n as [|n IH]; intros r Hr; [lia|]. destruct (Z.eq_dec r 0) as [->|Hne]; [rewrite num_loops_zero; lia|].
  destruct (num_loops_step r) as [-> Hnn]; [lia|].
  specialize (IH (r - Z.min (m_worker_granularity parameters) r)). lia.
Qed.

(** The chunks that are left when the next one begins at [start]. *)
Definition chunks_left (operations : list WeightedEdge) (start : Z) (n : nat) : Prop :=
  0 <= start <= Z.of_nat (length operations) /\ Z.of_nat n = num_loops parameters (Z.of_nat (length operations) - start) /\ (n <> 0%nat -> start = 0 \/ m_worker_granularity parameters <= Z.of_nat (length operations)).

Lemma chunks_left_step operations start n : Z.of_nat (length operations) < 2 ^ 63 -> chunks_left operations start (S n) ->
  let end_ := Z.min (u64 (start + m_worker_granularity parameters)) (Z.of_nat (length operations)) in
  chunks_left operations end_ n /\ start < end_.
Proof.
  intros Hsize (Hstart & Hn & Hwrap). specialize (Hwrap ltac:(done)). cbv zeta.
  set (g := m_worker_granularity parameters) in *. set (size := Z.of_nat (length operations)) in *.
  rewrite u64_id by (unfold is_u64; lia). destruct (Z.eq_dec start size) as [->|Hne].
  { rewrite Z.sub_diag, num_loops_zero in Hn. lia. }
  destruct (num_loops_step (size - start)) as [Hs Hnn]; [lia|]. fold g in Hs, Hnn.
  replace (size - start - Z.min g (size - start)) with (size - Z.min (start + g) size) in Hs, Hnn by lia.
  split; [|lia]. unfold chunks_left. fold size g. split_and!; [lia|lia|lia|]. intros Hn0. right.
  destruct (Z.le_gt_cases g size); [done|]. rewrite Z.min_r, Z.sub_diag, num_loops_zero in Hs by lia. lia.
Qed.

Lemma chunk_split (operations : list WeightedEdge) start end_ : 0 <= start <= end_ -> end_ <= Z.of_nat (length operations) ->
  drop (Z.to_nat start) operations =
    take (Z.to_nat (end_ - start)) (drop (Z.to_nat start) operations) ++ drop (Z.to_nat end_) operations.
Proof.
  intros Hs1 Hs2. rewrite <- (take_drop (Z.to_nat (end_ - start)) (drop (Z.to_nat start) operations)) at 1.
  f_equal. rewrite drop_drop. f_equal. lia.
Qed.

Context (Hreports : reports_fit parameters num_edges_final_graph reports limit) (Hlimit : Z.of_nat limit < 2 ^ 63).

(** What the chunks return: the last coefficient and the worker. *)
Definition chunks_done (w : Aging2Worker) (rest : list WeightedEdge) (r : Z * Aging2Worker) : Prop :=
  0 <= r.1 /\ batch_done w rest r.2.

Lemma chunks_halted operations n : forall w w0 lastset_coeff start fuel, Z.of_nat (length operations) < 2 ^ 63 ->
  chunks_left operations start n -> 0 <= lastset_coeff -> batch_done w0 [] w ->
  halted reports limit (chunks_done w0 []) (length (drop (Z.to_nat start) operations)) (5 * n)
    (execute_chunks parameters directed num_edges_final_graph w operations lastset_coeff start n fuel).
Proof.
  induction n as [|n IH]; intros w w0 last start fuel Hsize Hleft Hlast Hw; cbn [execute_chunks].
  { destruct Hleft as (Hstart & Hn & _). split; [|done]. rewrite length_drop.
    destruct (Z.eq_dec (Z.of_nat (length operations) - start) 0); [lia|].
    destruct (num_loops_step (Z.of_nat (length operations) - start)); lia. }
  destruct (chunks_left_step operations start n Hsize Hleft) as [Hleft' Hlt]. cbv zeta.
  set (end_ := Z.min (u64 (start + m_worker_granularity parameters)) (Z.of_nat (length operations))) in *.
  replace (5 * S n)%nat with (1 + (4 + 5 * n))%nat by lia. rewrite <- (Nat.add_0_l (length _)).
  assert (0 <= start /\ end_ <= Z.of_nat (length operations)) as [Hs1 Hs2]
    by (destruct Hleft as [? _], Hleft' as [? _]; lia).
  eapply halted_bind; [|apply batch_halted, Hw].
  intros w' Hw'. apply halted_count; [done|done|rewrite length_drop; lia|done|].
  intros coeff Hcoeff. rewrite length_drop. replace (length operations - Z.to_nat start - Z.to_nat (end_ - start))%nat
    with (length (drop (Z.to_nat end_) operations)) by (rewrite length_drop; lia).
  apply IH; [done..|]. by apply (batch_done_trans _ w); [apply Hw|].
Qed.

Lemma chunks_executes operations n : forall w w0 rest lastset_coeff start fuel, Z.of_nat (length operations) < 2 ^ 63 ->
  chunks_left operations start n -> 0 <= lastset_coeff -> same_store w0 w ->
  can_measure w (drop (Z.to_nat start) operations ++ rest) -> (0 < fuel)%nat ->
  let l := drop (Z.to_nat start) operations in
  executes directed cap reports limit (m_worker_id w) (chunks_done w0 rest) (chunks_done w0 []) l (length l) (length l)
    (6 * length l + 5 * n)
    (execute_chunks parameters directed num_edges_final_graph w operations lastset_coeff start n fuel).
Proof.
  induction n as [|n IH]; intros w w0 rest last start fuel Hsize Hleft Hlast Hs Hm Hfuel; cbv zeta; cbn [execute_chunks].
  { destruct Hleft as (Hstart & Hn & _). assert (start = Z.of_nat (length operations)) as ->.
    { destruct (Z.eq_dec (Z.of_nat (length operations) - start) 0); [lia|].
      destruct (num_loops_step (Z.of_nat (length operations) - start)); lia. }
    rewrite Nat2Z.id, drop_all in *. cbn [executes length]. split_and!; [done..|by split]. }
  destruct (chunks_left_step operations start n Hsize Hleft) as [Hleft' Hlt].
  set (end_ := Z.min (u64 (start + m_worker_granularity parameters)) (Z.of_nat (length operations))) in *.
  assert (0 <= start <= end_ /\ end_ <= Z.of_nat (length operations)) as [Hs1 Hs2]
    by (destruct Hleft as [? _], Hleft' as [? _]; lia).
  pose proof (chunk_split operations start end_ Hs1 Hs2) as Hsplit.
  assert (length (take (Z.to_nat (end_ - start)) (drop (Z.to_nat start) operations)) = Z.to_nat (end_ - start)) as Hchunk
    by (rewrite length_take, length_drop; lia).
  set (chunk := take (Z.to_nat (end_ - start)) (drop (Z.to_nat start) operations)) in *. rewrite Hsplit in Hm |- *.
  rewrite <- app_assoc in Hm. set (tail := drop (Z.to_nat end_) operations) in *.
  rewrite length_app. replace (6 * (length chunk + length tail) + 5 * S n)%nat
    with (6 * length chunk + S (4 + (6 * length tail + 5 * n)))%nat by lia.
  rewrite <- (Nat.add_0_l (length chunk + length tail)) at 2.
  eapply executes_bind; [| |by apply batch_executes].
  - intros w' [Hs' Hm']. eapply executes_mono; [done|done| |apply (executes_count parameters num_edges_final_graph); [done|done| |done|]].
    + apply Nat.le_succ_diag_r.
    + lia.
    + intros coeff Hcoeff. rewrite Hchunk. replace (Z.to_nat (end_ - start) + length tail - Z.to_nat (end_ - start))%nat with (length tail) by lia.
      assert (m_worker_id w' = m_worker_id w) as <- by apply Hs'. apply IH; try done. by eapply same_store_trans.
  - intros w' Hw'. eapply halted_mono; [done| |apply (halted_count parameters num_edges_final_graph); [done|done| |done|]].
    + apply Nat.le_succ_diag_r.
    + lia.
    + intros coeff Hcoeff. rewrite Hchunk. replace (Z.to_nat (end_ - start) + length tail - Z.to_nat (end_ - start))%nat with (length tail) by lia.
      eapply halted_mono; [done| |apply chunks_halted; [done..|by apply (batch_done_trans _ w)]]. lia.
Qed.

(** ** Vectors *)

(** The pointers and the vectors that the worker has still to execute. *)
Definition holds (w : Aging2Worker) (i : nat) (ps : list nat) (vs : list (list WeightedEdge)) : Prop :=
  NoDup ps /\ Forall2 (fun p v => m_vectors w !! p = Some v /\ Z.of_nat (length v) < 2 ^ 63) ps vs /\
  (if m_release_driver_memory parameters then ca_elems (m_updates w) else drop i (ca_elems (m_updates w))) = ps.

(** What remains of the store: everything, or nothing when it is released. *)
Definition vectors_done (w : Aging2Worker) (ps : list nat) (rest : list WeightedEdge) (w' : Aging2Worker) : Prop :=
  m_worker_id w' = m_worker_id w /\ m_next_vector w' = m_next_vector w /\
  m_num_edge_insertions w' = m_num_edge_insertions w /\ m_num_edge_deletions w' = m_num_edge_deletions w /\
  can_measure w' rest /\
  if m_release_driver_memory parameters
  then ca_elems (m_updates w') = [] /\ m_vectors w' = foldl (fun m p => delete p m) (m_vectors w) ps
  else m_updates w' = m_updates w /\ m_vectors w' = m_vectors w.

Definition release_first (w : Aging2Worker) : prog answer Aging2Worker :=
  if m_release_driver_memory parameters then
    first ← prog_of (ca_get (m_updates w) 0);
    w ← prog_of (delete_vector w first);
    prog_of (pop_updates w)
  else Ret w.

Lemma holds_first w i p ps v vs : holds w i (p :: ps) (v :: vs) ->
  ca_get (m_updates w) (if m_release_driver_memory parameters then 0 else i) = Val p /\
  m_vectors w !! p = Some v /\ Z.of_nat (length v) < 2 ^ 63.
Proof.
  intros (_ & [Hv _]%Forall2_cons & Hps). split; [|done]. apply ca_get_elems.
  destruct (m_release_driver_memory parameters); [by rewrite Hps|].
  rewrite <- (Nat.add_0_r i), <- lookup_drop. by rewrite Hps.
Qed.

Lemma holds_store w w' i ps vs : same_store w w' -> holds w i ps vs -> holds w' i ps vs.
Proof. unfold same_store, holds. intros (_ & Hu & Hv & _). by rewrite Hu, Hv. Qed.

(** After a vector its memory is released or the index moves on. *)
Lemma release_first_spec w i p ps v vs rest : holds w i (p :: ps) (v :: vs) -> can_measure w rest ->
  exists w', release_first w = Ret w' /\ holds w' (S i) ps vs /\ can_measure w' rest /\ m_worker_id w' = m_worker_id w /\
    forall rest' w'', vectors_done w' ps rest' w'' -> vectors_done w (p :: ps) rest' w''.
Proof.
  intros Hh Hm. destruct (holds_first _ _ _ _ _ _ Hh) as (Hget & Hv & _). destruct Hh as ([Hp Hnd]%NoDup_cons & [_ Hvs]%Forall2_cons & Hps).
  unfold release_first. destruct (m_release_driver_memory parameters) eqn:Hrel.
  - destruct (ca_pop_elems (m_updates w) p ps Hps) as (u & Hpop & Hu).
    exists (set_updates w u (delete p (m_vectors w)) (m_next_vector w)).
    split; [|split; [|split; [exact Hm|split; [done|]]]].
    + rewrite Hget. cbn [prog_of]. rewrite bind_ret. unfold delete_vector. rewrite Hv. cbn [require]. bind_val.
      cbn [prog_of]. rewrite bind_ret. unfold pop_updates. cbn [set_updates m_updates]. by rewrite Hpop.
    + split; [done|split; [|by rewrite Hrel]]. cbn [set_updates m_vectors]. rewrite Forall2_same_length_lookup in Hvs |- *.
      destruct Hvs as [Hlen Hvs]. split; [done|]. intros k q u' Hq Hu'. destruct (Hvs k q u' Hq Hu') as [Hlook Hsz]. split; [|done].
      rewrite lookup_delete_ne; [done|]. intros ->. apply Hp. by eapply list_elem_of_lookup_2.
    + unfold vectors_done. rewrite Hrel. by intros rest' w''.
  - exists w. split; [done|split; [|split; [done|split; [done|]]]].
    + split; [done|split; [done|]]. rewrite Hrel. by rewrite <- (Nat.add_1_r i), <- drop_drop, Hps.
    + unfold vectors_done. rewrite Hrel. by intros rest' w''.
Qed.

Lemma vectors_done_store w w' ps rest w'' : same_store w w' -> vectors_done w' ps rest w'' -> vectors_done w ps rest w''.
Proof.
  unfold vectors_done, same_store. intros (Hid & Hu & Hv & Hn & Hi & Hd). by rewrite Hid, Hu, Hv, Hn, Hi, Hd.
Qed.

Lemma execute_vectors_cons w last i p ps v vs n fuel : holds w i (p :: ps) (v :: vs) ->
  execute_vectors parameters directed num_edges_final_graph w last i (S n) fuel =
  '(last, w) ← execute_chunks parameters directed num_edges_final_graph w v last 0 (Z.to_nat (num_loops parameters (Z.of_nat (length v)))) fuel;
  w ← release_first w;
  execute_vectors parameters directed num_edges_final_graph w last (S i) n fuel.
Proof.
  intros Hh. destruct (holds_first _ _ _ _ _ _ Hh) as (Hget & Hv & _). cbn [execute_vectors]. cbv zeta.
  rewrite Hget. cbn [prog_of]. rewrite bind_ret, Hv. cbn [require prog_of]. rewrite bind_ret.
  by rewrite (proj2 (Z.eqb_neq _ _)) by lia.
Qed.

Lemma first_chunk (v : list WeightedEdge) : chunks_left v 0 (Z.to_nat (num_loops parameters (Z.of_nat (length v)))).
Proof.
  destruct (num_loops_bound (Z.of_nat (length v))) as [Hn1 Hn2]; [lia|].
  split; [lia|]. split; [rewrite Z.sub_0_r; lia|by left].
Qed.

Lemma vectors_halted vs : forall w last i ps fuel, holds w i ps vs -> 0 <= last -> can_measure w [] ->
  halted reports limit (vectors_done w ps []) (length (concat vs)) (5 * length (concat vs))
    (execute_vectors parameters directed num_edges_final_graph w last i (length vs) fuel).
Proof.
  induction vs as [|v vs IH]; intros w last i ps fuel Hh Hlast Hm.
  { destruct Hh as (_ & Hvs%Forall2_nil_inv_r & Hps). subst ps. cbn [length execute_vectors halted concat]. unfold vectors_done.
    split_and!; try done. by destruct (m_release_driver_memory parameters). }
  destruct ps as [|p ps]; [by destruct Hh as (_ & Hvs%Forall2_nil_inv_l & _)|].
  destruct (holds_first _ _ _ _ _ _ Hh) as (_ & _ & Hsize).
  cbn [length concat]. rewrite (execute_vectors_cons w last i p ps v vs) by done. rewrite length_app.
  destruct (num_loops_bound (Z.of_nat (length v))) as [Hn1 Hn2]; [lia|].
  pose proof (chunks_halted v (Z.to_nat (num_loops parameters (Z.of_nat (length v)))) w w last 0 fuel Hsize (first_chunk v) Hlast) as Hchunks.
  change (Z.to_nat 0) with 0%nat in Hchunks. rewrite drop_0 in Hchunks.
  eapply halted_mono; [done| |eapply (halted_bind _ _ _ _ _ _ (5 * length (concat vs))); [|apply Hchunks]].
  - lia.
  - intros [last' w'] [Hlast' [Hs Hm']]. cbn [fst snd] in *.
    destruct (release_first_spec w' i p ps v vs []) as (w2 & -> & Hh2 & Hm2 & _ & Hdone);
      [by eapply holds_store|done|]. rewrite bind_ret. eapply halted_mono; [|done|by apply IH].
    intros w'' Hw''. by apply (vectors_done_store w w'), Hdone.
  - split; [apply same_store_refl|done].
Qed.

Lemma vectors_executes vs : forall w last i ps rest fuel, holds w i ps vs -> 0 <= last -> can_measure w (concat vs ++ rest) -> (0 < fuel)%nat ->
  executes directed cap reports limit (m_worker_id w) (vectors_done w ps rest) (vectors_done w ps []) (concat vs) (length (concat vs))
    (length (concat vs)) (11 * length (concat vs))
    (execute_vectors parameters directed num_edges_final_graph w last i (length vs) fuel).
Proof.
  induction vs as [|v vs IH]; intros w last i ps rest fuel Hh Hlast Hm Hfuel.
  { destruct Hh as (_ & Hvs%Forall2_nil_inv_r & Hps). subst ps. cbn [length execute_vectors executes concat]. unfold vectors_done.
    split_and!; try done. by destruct (m_release_driver_memory parameters). }
  destruct ps as [|p ps]; [by destruct Hh as (_ & Hvs%Forall2_nil_inv_l & _)|].
  cbn [length concat] in *. rewrite (execute_vectors_cons w last i p ps v vs) by done. rewrite length_app. rewrite <- app_assoc in Hm.
  destruct (num_loops_bound (Z.of_nat (length v))) as [Hn1 Hn2]; [lia|].
  destruct (holds_first _ _ _ _ _ _ Hh) as (_ & _ & Hsize).
  pose proof (chunks_executes v (Z.to_nat (num_loops parameters (Z.of_nat (length v)))) w w (concat vs ++ rest) last 0 fuel Hsize
    (first_chunk v) Hlast (same_store_refl w)) as Hchunks.
  change (Z.to_nat 0) with 0%nat in Hchunks. rewrite drop_0 in Hchunks.
  eapply executes_mono; [done|done| |eapply (executes_bind _ _ _ _ _ _ _ _ _ _ _ (11 * length (concat vs))); [| |by apply Hchunks]].
  - lia.
  - intros [last' w'] [Hlast' [Hs Hm']]. cbn [fst snd] in *.
    destruct (release_first_spec w' i p ps v vs (concat vs ++ rest)) as (w2 & -> & Hh2 & Hm2 & Hid & Hdone);
      [by eapply holds_store|done|]. rewrite bind_ret. assert (m_worker_id w2 = m_worker_id w) as <- by (rewrite Hid; apply Hs).
    eapply executes_mono; [| |done|by apply (IH w2 last' (S i) ps rest)]; intros w'' Hw''; by apply (vectors_done_store w w'), Hdone.
  - intros [last' w'] [Hlast' [Hs Hm']]. cbn [fst snd] in *.
    destruct (release_first_spec w' i p ps v vs []) as (w2 & -> & Hh2 & Hm2 & _ & Hdone);
      [by eapply holds_store|done|]. rewrite bind_ret. eapply halted_mono; [| |by apply vectors_halted].
    + intros w'' Hw''. by apply (vectors_done_store w w'), Hdone.
    + lia.
Qed.

(** ** [main_execute_updates] *)

Definition main_done (w : Aging2Worker) (rest : list WeightedEdge) (w' : Aging2Worker) : Prop :=
  m_worker_id w' = m_worker_id w /\ m_next_vector w' = m_next_vector w /\
  m_num_edge_insertions w' = m_num_edge_insertions w /\ m_num_edge_deletions w' = m_num_edge_deletions w /\
  can_measure w' rest /\ ca_elems (m_updates w') = [] /\
  m_vectors w' = if m_release_driver_memory parameters
                 then foldl (fun m p => delete p m) (m_vectors w) (ca_elems (m_updates w)) else m_vectors w.

Lemma main_done_vectors w rest w' : vectors_done w (ca_elems (m_updates w)) rest w' ->
  main_done w rest (set_updates w' (ca_clear (m_updates w')) (m_vectors w') (m_next_vector w')).
Proof.
  unfold vectors_done, main_done. cbn [set_updates m_worker_id m_next_vector m_num_edge_insertions m_num_edge_deletions m_updates m_vectors].
  intros (? & ? & ? & ? & Hm & Hrel). rewrite ca_clear_elems. split_and!; try done.
  by destruct (m_release_driver_memory parameters); destruct Hrel as [_ ->].
Qed.

Definition queue (w : Aging2Worker) (vs : list (list WeightedEdge)) : Prop :=
  NoDup (ca_elems (m_updates w)) /\
  Forall2 (fun p v => m_vectors w !! p = Some v /\ Z.of_nat (length v) < 2 ^ 63) (ca_elems (m_updates w)) vs.

Lemma main_executes w vs rest fuel : queue w vs -> can_measure w (concat vs ++ rest) -> (0 < fuel)%nat ->
  executes directed cap reports limit (m_worker_id w) (main_done w rest) (main_done w []) (concat vs) (length (concat vs))
    (length (concat vs)) (11 * length (concat vs)) (main_execute_updates parameters directed num_edges_final_graph w fuel).
Proof.
  intros [Hnd Hvs] Hm Hfuel.
  assert (holds w 0 (ca_elems (m_updates w)) vs) as Hh by (split_and!; [done..|by destruct (m_release_driver_memory parameters)]).
  unfold main_execute_updates. rewrite ca_size_elems, (Forall2_length _ _ _ Hvs).
  rewrite <- (app_nil_r (concat vs)) at 1 2 3. rewrite length_app.
  eapply executes_mono; [done|done| |eapply (executes_bind _ _ _ _ _ _ _ _ _ _ (length []) 0 []); [| |by apply vectors_executes]].
  - lia.
  - intros w' Hw'. cbn [executes length]. split_and!; [done..|]. by apply main_done_vectors.
  - intros w' Hw'. cbn [halted]. split; [done|]. by apply main_done_vectors.
Qed.
End worker.

(** ** The pool of workers

    [s0] and [num0] are the graph and the counts of operations at the start, and
    [log] the updates to perform. What a thread has to do is the list of its
    remaining updates and the number of them that it has not counted. *)

Lemma room_log log : forall s k, room s (length log + k) -> room (after_log s log) k.
Proof.
  induction log as [|e log IH]; intros s k Hroom; [done|]. cbn [length Nat.add] in Hroom.
  apply (room_step s (log_update e)) in Hroom as [_ Hroom]. by apply IH.
Qed.

Lemma room_mono s k k' : room s k -> (k' <= k)%nat -> room s k'.
Proof. unfold room. lia. Qed.

Section pool.
Context `{CircularArrayLaws, Random, LogContract}.
Context (add_edge_v3 : Impl -> WeightedEdge -> nat -> res (bool * Impl)) (clock : nat -> Z).
Context (directed : bool) (cap reports limit n : nat) (own : Z * Z -> nat) (Hown : forall p, (own p < n)%nat).
Context (s0 : Spec) (log : list WeightedEdge) (num0 : list Z) (performed0 : Z).
Context (Hdirected : spec_directed s0 = directed) (Hsym : symmetric s0) (Hvalid : valid_log s0 log) (Hroom : room s0 (length log)).
Context (Hperformed : 0 <= performed0) (Hlimit : performed0 + Z.of_nat (length log) <= Z.of_nat limit) (Hlimit63 : Z.of_nat limit < 2 ^ 63).
Context (Done Halted : nat -> Aging2Worker -> Prop).

(** What may happen from outside: the flag is raised, if at all. *)
Context {E : Type} (meddle : E -> Shared -> Shared) (may_stop : Prop).
Hypothesis Hmeddle : forall e sh, meddle e sh = interfere RequestStop sh /\ may_stop.

(** What a thread has still to do: its updates, the number of those that it has not
    counted, and of those that it has not reported to the master. *)
Record Work := mkWork { wk_updates : list WeightedEdge; wk_uncounted : nat; wk_unreported : nat }.

Definition remaining (ms : list Work) : nat := sum_list_with (fun m => length (wk_updates m)) ms.

Definition unreported (ms : list Work) : nat := sum_list_with wk_unreported ms.

Record pool_state (sh : Shared) (ms : list Work) : Prop := {
  ps_log : exists t, represents (m_library sh) (after_log s0 t) /\ distributed directed n own t log (wk_updates <$> ms) /\
    (length t + remaining ms = length log)%nat;
  ps_latencies : length (m_latencies sh) = cap;
  ps_stop : m_stop_experiment sh = true -> may_stop;
  ps_num : length (m_num_operations sh) = n;
  ps_counts : forall i m, ms !! i = Some m ->
    (length (wk_updates m) <= wk_uncounted m <= length (mine directed own i log))%nat /\
    m_num_operations sh !! i = Some (u64 (default 0 (num0 !! i) + Z.of_nat (length (mine directed own i log) - wk_uncounted m)));
  ps_times : length (m_reported_times sh) = reports /\ 0 <= m_last_time_reported sh <= Z.of_nat reports;
  ps_performed : 0 <= m_num_operations_performed sh /\
    m_num_operations_performed sh + Z.of_nat (unreported ms) = performed0 + Z.of_nat (length log);
}.

Definition thread_state (sh : Shared) (i : nat) (m : Work) (k : nat) (p : prog answer Aging2Worker) : Prop :=
  executes directed cap reports limit i (Done i) (Halted i) (wk_updates m) (wk_uncounted m) (wk_unreported m) k p \/
  m_stop_experiment sh = true /\ wk_uncounted m = length (wk_updates m) /\ halted reports limit (Halted i) (wk_unreported m) k p.

Lemma sum_insert {A} (f : A -> nat) l i x y : l !! i = Some x ->
  (sum_list_with f (<[i := y]> l) + f x = sum_list_with f l + f y)%nat.
Proof.
  revert i. induction l as [|z l IH]; intros i Hi; [done|]. destruct i as [|i]; simpl; [injection Hi as ->; lia|].
  specialize (IH i Hi). lia.
Qed.

Lemma sum_le {A} (f : A -> nat) l i x : l !! i = Some x -> (f x <= sum_list_with f l)%nat.
Proof.
  revert i. induction l as [|z l IH]; intros i Hi; [done|]. destruct i as [|i]; simpl; [injection Hi as ->; lia|].
  specialize (IH i Hi). lia.
Qed.

(** What another field of the state becomes does not matter to the threads. *)
Lemma thread_state_stop sh sh' i m k p : (m_stop_experiment sh = true -> m_stop_experiment sh' = true) ->
  thread_state sh i m k p -> thread_state sh' i m k p.
Proof. unfold thread_state. tauto. Qed.

(** The fields on which the state of the pool depends. *)
Lemma pool_state_same sh sh' ms : m_library sh' = m_library sh -> length (m_latencies sh') = length (m_latencies sh) ->
  m_stop_experiment sh' = m_stop_experiment sh -> m_num_operations sh' = m_num_operations sh ->
  length (m_reported_times sh') = length (m_reported_times sh) -> 0 <= m_last_time_reported sh' <= Z.of_nat reports ->
  m_num_operations_performed sh' = m_num_operations_performed sh -> pool_state sh ms -> pool_state sh' ms.
Proof. intros E1 E2 E3 E4 E5 E6 E7 [P1 P2 P3 P4 P5 [P6 _] P7]. split; rewrite ?E1, ?E2, ?E3, ?E4, ?E5, ?E7; done. Qed.

(** A call of a thread that performs updates. *)
Lemma pool_call sh ms i e e' r q : pool_state sh ms -> ms !! i = Some (mkWork (e :: r) (length (e :: r)) q) -> same_edge directed e' e ->
  exists sh', settles (fun fuel => exec add_edge_v3 clock fuel (Call (log_update e')) sh) (Val (true, sh')) /\
    pool_state sh' (<[i := mkWork r (length (e :: r)) q]> ms) /\ m_stop_experiment sh' = m_stop_experiment sh.
Proof.
  intros [(t & R & Hd & Hlen) Hlat Hstop Hnum Hcount Htimes [Hp Hperf]] Hi Hsame.
  assert ((wk_updates <$> ms) !! i = Some (e :: r)) as Hi1 by (by rewrite list_lookup_fmap, Hi).
  pose proof (distributed_step directed n own Hown t log (wk_updates <$> ms) i e r e' Hd Hi1 Hsame) as Hd'.
  pose proof (distributed_valid directed n own Hown s0 _ log _ Hdirected Hsym Hvalid Hd') as Hv.
  apply valid_log_app in Hv as [Hv [Happ _]].
  pose proof (sum_insert (fun m => length (wk_updates m)) ms i _ (mkWork r (length (e :: r)) q) Hi) as Hrem.
  pose proof (sum_insert wk_unreported ms i _ (mkWork r (length (e :: r)) q) Hi) as Hun.
  cbn [wk_updates wk_unreported length] in Hrem, Hun. fold (remaining ms) in Hrem. fold (unreported ms) in Hun.
  destruct (call_settles (m_library sh) (after_log s0 t) (log_update e') R) as (d & Hcall & R').
  { by apply admits_applicable. }
  { apply room_log, (room_mono s0 (length log)); [done|]. lia. }
  rewrite (applicable_answer _ _ Happ) in Hcall, R'. exists (Aging2Worker.set_library sh d). split; [|split; [|done]].
  { destruct Hcall as [N HN]. exists N. intros fuel Hf. cbn [exec]. by rewrite HN. }
  split; try done.
  - exists (t ++ [e']). rewrite after_log_app, length_app, list_fmap_insert. cbn [length].
    split_and!; [done..|]. unfold remaining in *. lia.
  - intros j m Hj. apply list_lookup_insert_Some in Hj as [(<- & <- & _)|[_ Hj]]; [|by apply Hcount].
    destruct (Hcount i _ Hi) as [Hc Hn]. cbn [wk_updates wk_uncounted length] in *. split; [lia|done].
  - split; [done|]. unfold unreported in *. cbn [Aging2Worker.set_library m_num_operations_performed length]. lia.
Qed.

Lemma pool_count sh ms i r q : pool_state sh ms -> ms !! i = Some (mkWork r (S (length r)) q) ->
  exists sh', settles (fun fuel => exec add_edge_v3 clock fuel (CountOperation i) sh) (Val (tt, sh')) /\
    pool_state sh' (<[i := mkWork r (length r) q]> ms) /\ m_stop_experiment sh' = m_stop_experiment sh.
Proof.
  intros [(t & R & Hd & Hlen) Hlat Hstop Hnum Hcount Htimes [Hp Hperf]] Hi. destruct (Hcount i _ Hi) as [Hc Hn].
  cbn [wk_updates wk_uncounted] in Hc, Hn.
  pose proof (sum_insert (fun m => length (wk_updates m)) ms i _ (mkWork r (length r) q) Hi) as Hrem.
  pose proof (sum_insert wk_unreported ms i _ (mkWork r (length r) q) Hi) as Hun. cbn [wk_updates wk_unreported] in Hrem, Hun.
  eexists. split; [|split; [|]].
  { exists 0%nat. intros fuel _. cbn [exec]. rewrite (arr_get_val _ _ _ Hn). bind_val.
    rewrite arr_set_val by (apply lookup_lt_Some in Hn; lia). bind_val. done. }
  2: done.
  split; cbn [set_num_operations m_library m_latencies m_stop_experiment m_num_operations m_reported_times m_last_time_reported
    m_num_operations_performed]; try done.
  - exists t. rewrite list_fmap_insert. cbn [wk_updates].
    rewrite (list_insert_id (wk_updates <$> ms)) by (by rewrite list_lookup_fmap, Hi).
    split_and!; [done..|]. unfold remaining in *. lia.
  - by rewrite length_insert.
  - intros j m Hj. apply list_lookup_insert_Some in Hj as [(<- & <- & _)|[Hij Hj]]; cbn [wk_updates wk_uncounted].
    + split; [lia|]. rewrite list_lookup_insert_eq by (apply lookup_lt_Some in Hn; lia). f_equal.
      unfold u64. rewrite Zplus_mod_idemp_l. f_equal. lia.
    + rewrite list_lookup_insert_ne by done. by apply Hcount.
  - split; [done|]. unfold unreported in *. lia.
Qed.

(** The master's counter stays in its bounds, and never exceeds the length of the log. *)
Lemma pool_performed sh ms i m z : pool_state sh ms -> ms !! i = Some m -> 0 <= z <= Z.of_nat (wk_unreported m) ->
  exists (x : Z) sh', settles (fun fuel => exec add_edge_v3 clock fuel (OperationsPerformed z) sh) (Val (x, sh')) /\ 0 <= x <= Z.of_nat limit /\
    pool_state sh' (<[i := mkWork (wk_updates m) (wk_uncounted m) (wk_unreported m - Z.to_nat z)]> ms) /\
    m_stop_experiment sh' = m_stop_experiment sh.
Proof.
  intros [(t & R & Hd & Hlen) Hlat Hstop Hnum Hcount Htimes [Hp Hperf]] Hi Hz. set (m' := mkWork _ _ _).
  pose proof (sum_insert (fun m => length (wk_updates m)) ms i m m' Hi) as Hrem.
  pose proof (sum_insert wk_unreported ms i m m' Hi) as Hun. pose proof (sum_le wk_unreported ms i m Hi) as Hle.
  unfold m' in Hrem, Hun. cbn [wk_updates wk_unreported] in Hrem, Hun.
  fold (unreported ms) in Hun, Hle.
  eexists _, _. split; [apply settles_val|]. split; [lia|]. rewrite i64_id by lia. split; [|done].
  split; cbn [set_progress m_library m_latencies m_stop_experiment m_num_operations m_reported_times m_last_time_reported
    m_num_operations_performed]; try done.
  - exists t. rewrite list_fmap_insert. cbn [m' wk_updates].
    rewrite (list_insert_id (wk_updates <$> ms)) by (by rewrite list_lookup_fmap, Hi).
    split_and!; [done..|]. unfold remaining in *. fold m' in Hrem. lia.
  - intros j mj Hj. apply list_lookup_insert_Some in Hj as [(<- & <- & _)|[Hij Hj]]; [|by apply Hcount]. apply (Hcount i m Hi).
  - split; [lia|]. unfold unreported in *. fold m' in Hun. lia.
Qed.

Lemma pool_turn sh ms i m k p : pool_state sh ms -> ms !! i = Some m -> thread_state sh i m k p ->
  match p with
  | Ret _ => True
  | Do op f => exists x sh' m' k', k = S k' /\ settles (fun fuel => exec add_edge_v3 clock fuel op sh) (Val (x, sh')) /\
      pool_state sh' (<[i := m']> ms) /\ thread_state sh' i m' k' (f x) /\
      forall j mj kj q, j <> i -> ms !! j = Some mj -> thread_state sh j mj kj q -> thread_state sh' j mj kj q
  | Ub | OutOfFuel => False
  end.
Proof.
  intros HI Hi Hp. destruct m as [r c u].
  assert (forall sh' : Shared, m_stop_experiment sh' = m_stop_experiment sh -> forall j mj kj q, j <> i -> ms !! j = Some mj ->
    thread_state sh j mj kj q -> thread_state sh' j mj kj q) as Hothers.
  { intros sh' Hs j mj kj q _ _. apply thread_state_stop. by rewrite Hs. }
  assert (forall sh' : Shared, m_library sh' = m_library sh -> length (m_latencies sh') = length (m_latencies sh) ->
    m_stop_experiment sh' = m_stop_experiment sh -> m_num_operations sh' = m_num_operations sh ->
    length (m_reported_times sh') = length (m_reported_times sh) -> 0 <= m_last_time_reported sh' <= Z.of_nat reports ->
    m_num_operations_performed sh' = m_num_operations_performed sh -> pool_state sh' (<[i := mkWork r c u]> ms)) as Hsame.
  { intros sh' E1 E2 E3 E4 E5 E6 E7. rewrite list_insert_id by done. by eapply pool_state_same. }
  destruct (ps_times _ _ HI) as [Htimes [Hlast Hlast2]].
  destruct p as [a|op f| |]; [done| |by destruct Hp as [[]|(_ & _ & [])]..].
  unfold thread_state in Hp. cbn [executes halted wk_updates wk_uncounted wk_unreported] in Hp.
  destruct k as [|k]; [by destruct Hp as [[]|(_ & _ & [])]|].
  destruct op as [up|e| |z|z|j|j ns|last coeff|j now|]; (destruct Hp as [Hp|(Hstop & Hc & Hp)]; try done).
  - destruct Hp as (e & e' & r' & -> & Hsm & -> & -> & Hp).
    destruct (pool_call sh ms i e e' r' u HI Hi Hsm) as (sh' & Hx & HI' & Hs). exists true, sh', (mkWork r' (length (e :: r')) u), k.
    split_and!; [done..|by left|by apply Hothers].
  - destruct Hp as (-> & Hp & Hh). exists (m_stop_experiment sh), sh, (mkWork r (length r) u), k.
    split_and!; [done|apply settles_val|by apply Hsame| |by apply Hothers].
    destruct (m_stop_experiment sh) eqn:Hs; [right; by rewrite Hs|by left].
  - exists (m_stop_experiment sh), sh, (mkWork r c u), k. split_and!; [done|apply settles_val|by apply Hsame| |by apply Hothers].
    right. rewrite Hstop. done.
  - destruct Hp as [Hz Hp]. destruct (pool_performed sh ms i _ z HI Hi Hz) as (x & sh' & Hx & Hrange & HI' & Hs).
    exists x, sh', (mkWork r c (u - Z.to_nat z)), k. split; [done|split; [exact Hx|split; [exact HI'|split; [|by apply Hothers]]]].
    left. by apply Hp.
  - destruct Hp as [Hz Hp]. destruct (pool_performed sh ms i _ z HI Hi Hz) as (x & sh' & Hx & Hrange & HI' & Hs).
    exists x, sh', (mkWork r c (u - Z.to_nat z)), k. split; [done|split; [exact Hx|split; [exact HI'|split; [|by apply Hothers]]]].
    right. split; [by rewrite Hs|split; [done|by apply Hp]].
  - destruct Hp as (-> & -> & Hp). destruct (pool_count sh ms i r u HI Hi) as (sh' & Hx & HI' & Hs).
    exists tt, sh', (mkWork r (length r) u), k. split_and!; [done..|by left|by apply Hothers].
  - destruct Hp as [Hj Hp]. pose proof (ps_latencies _ _ HI) as Hcap.
    eexists tt, _, (mkWork r c u), k. split; [done|split; [|split; [|split; [by left|]]]].
    + exists 0%nat. intros fuel _. cbn [exec]. rewrite arr_set_val by lia. bind_val. done.
    + apply Hsame; try done. cbn [set_latency_array m_latencies]. by rewrite length_insert.
    + by apply Hothers.
  - destruct Hp as [Hcoeff Hp]. destruct (m_last_time_reported sh =? last) eqn:Elast; [apply Z.eqb_eq in Elast; subst last|].
    + exists (true, m_last_time_reported sh), (set_reports sh (m_time_start sh) coeff (m_reported_times sh)), (mkWork r c u), k.
      split; [done|split; [|split; [|split; [left; by apply Hp|by apply Hothers]]]].
      * exists 0%nat. intros fuel _. cbn [exec]. by rewrite Z.eqb_refl.
      * by apply Hsame.
    + exists (false, m_last_time_reported sh), sh, (mkWork r c u), k.
      split; [done|split; [|split; [|split; [left; by apply Hp|by apply Hothers]]]].
      * exists 0%nat. intros fuel _. cbn [exec]. by rewrite Elast.
      * by apply Hsame.
  - destruct Hp as [Hcoeff Hp]. destruct (m_last_time_reported sh =? last) eqn:Elast; [apply Z.eqb_eq in Elast; subst last|].
    + exists (true, m_last_time_reported sh), (set_reports sh (m_time_start sh) coeff (m_reported_times sh)), (mkWork r c u), k.
      split; [done|split; [|split; [|split; [right; split; [done|split; [done|by apply Hp]]|by apply Hothers]]]].
      * exists 0%nat. intros fuel _. cbn [exec]. by rewrite Z.eqb_refl.
      * by apply Hsame.
    + exists (false, m_last_time_reported sh), sh, (mkWork r c u), k.
      split; [done|split; [|split; [|split; [right; split; [done|split; [done|by apply Hp]]|by apply Hothers]]]].
      * exists 0%nat. intros fuel _. cbn [exec]. by rewrite Elast.
      * by apply Hsame.
  - destruct Hp as [Hj Hp]. eexists tt, _, (mkWork r c u), k. split; [done|split; [|split; [|split; [by left|]]]].
    + exists 0%nat. intros fuel _. cbn [exec]. rewrite arr_set_val by lia. bind_val. done.
    + apply Hsame; try done. cbn [set_reports m_reported_times]. by rewrite length_insert.
    + by apply Hothers.
  - destruct Hp as [Hj Hp]. eexists tt, _, (mkWork r c u), k. split; [done|split; [|split; [|split]]].
    + exists 0%nat. intros fuel _. cbn [exec]. rewrite arr_set_val by lia. bind_val. done.
    + apply Hsame; try done. cbn [set_reports m_reported_times]. by rewrite length_insert.
    + by right.
    + by apply Hothers.
  - exists (clock (sh_clock sh)), (tick sh), (mkWork r c u), k.
    split; [done|split; [apply settles_val|split; [by apply Hsame|split; [left; apply Hp|by apply Hothers]]]].
  - exists (clock (sh_clock sh)), (tick sh), (mkWork r c u), k.
    split; [done|split; [apply settles_val|split; [by apply Hsame|split; [right; split; [done|split; [done|apply Hp]]|by apply Hothers]]]].
Qed.

Definition work_of (i : nat) : Work :=
  mkWork (mine directed own i log) (length (mine directed own i log)) (length (mine directed own i log)).

Definition initial_work : list Work := work_of <$> seq 0 n.

Lemma initial_lookup i m : initial_work !! i = Some m -> (i < n)%nat /\ m = work_of i.
Proof.
  unfold initial_work. intros Hi. rewrite list_lookup_fmap in Hi. destruct (seq 0 n !! i) as [j|] eqn:Hj; [|done].
  apply lookup_seq in Hj as [-> Hlt]. injection Hi as <-. done.
Qed.

Lemma initial_sum (f : Work -> nat) : (forall i, f (work_of i) = length (mine directed own i log)) ->
  sum_list_with f initial_work = length log.
Proof.
  intros Hf. unfold initial_work. rewrite <- (mine_total directed n own Hown log).
  induction (seq 0 n) as [|i l IH]; [done|]. cbn [fmap list_fmap sum_list_with]. by rewrite IH, Hf.
Qed.

Lemma pool_start sh : represents (m_library sh) s0 -> m_stop_experiment sh = false -> m_num_operations sh = num0 ->
  length num0 = n -> Forall is_u64 num0 -> length (m_latencies sh) = cap -> length (m_reported_times sh) = reports ->
  0 <= m_last_time_reported sh <= Z.of_nat reports -> m_num_operations_performed sh = performed0 -> pool_state sh initial_work.
Proof.
  intros R Hstop Hnum Hlen0 Hu64 Hlat Htimes Hlast Hperf. split; try done.
  - exists []. split; [done|]. split.
    + apply distributed_start; unfold initial_work; [by rewrite !length_fmap, length_seq|].
      intros i r Hi. rewrite <- list_fmap_compose, list_lookup_fmap in Hi.
      destruct (seq 0 n !! i) as [j|] eqn:Hj; [|done]. apply lookup_seq in Hj as [-> _]. by injection Hi as <-.
    + unfold remaining. by rewrite initial_sum.
  - by rewrite Hstop.
  - by rewrite Hnum.
  - intros i m Hi. apply initial_lookup in Hi as [Hlt ->]. split; [cbn; lia|]. cbn [work_of wk_uncounted].
    destruct (lookup_lt_is_Some_2 num0 i) as [x Hx]; [lia|]. rewrite Hnum, Hx. cbn [default from_option id].
    f_equal. rewrite Nat.sub_diag, Z.add_0_r. symmetry. apply u64_id. by eapply Forall_lookup_1 in Hu64.
  - unfold unreported. rewrite initial_sum by done. lia.
Qed.

(** The pool, whatever is done from outside: what has been performed is a valid
    log with a prefix of the updates of each thread. *)
Lemma run_workers sh threads schedule : pool_state sh initial_work -> length threads = n ->
  (forall i p, threads !! i = Some p ->
     executes directed cap reports limit i (Done i) (Halted i) (mine directed own i log) (length (mine directed own i log))
       (length (mine directed own i log)) (11 * length (mine directed own i log)) p) ->
  exists sh' threads' ms, settles (run_pool (exec add_edge_v3 clock) meddle (sh, threads) schedule) (Val (sh', threads')) /\
    pool_state sh' ms /\ length threads' = n /\ length ms = n /\
    (forall i p, threads' !! i = Some p -> exists m k, ms !! i = Some m /\ thread_state sh' i m k p) /\
    forall i p, threads' !! i = Some p -> (11 * length (mine directed own i log) < turns i schedule)%nat -> exists a, p = Ret a.
Proof.
  intros HI Hlen Hth.
  assert (pool_inv pool_state thread_state sh threads initial_work ((fun i => 11 * length (mine directed own i log))%nat <$> seq 0 n)) as Hinv.
  { split_and!; [done|unfold initial_work; by rewrite length_fmap, length_seq|by rewrite length_fmap, length_seq|].
    intros i m k p Hm Hk Hp. apply initial_lookup in Hm as [Hlt ->]. rewrite list_lookup_fmap, lookup_seq_lt in Hk by done.
    injection Hk as <-. left. by apply Hth. }
  assert (forall s ms e, pool_state s ms -> pool_state (meddle e s) ms) as Henv.
  { intros s ms e [P1 P2 P3 P4 P5 P6 P7]. destruct (Hmeddle e s) as [-> Hmay]. by split. }
  assert (forall s ms e i m k p, pool_state s ms -> ms !! i = Some m -> thread_state s i m k p -> thread_state (meddle e s) i m k p) as Hstable.
  { intros s ms e i m k p _ _. destruct (Hmeddle e s) as [-> _]. by apply thread_state_stop. }
  destruct (run_pool_inv _ meddle pool_state thread_state pool_turn Henv Hstable schedule _ _ _ _ Hinv)
    as (sh' & threads' & ms' & ns' & Hrun & _ & Hinv' & Hlen' & Hfin).
  destruct Hinv' as (HI' & Hm' & Hn' & HW'). exists sh', threads', ms'.
  split; [done|split; [done|split; [lia|split; [lia|split]]]].
  - intros i p Hp. pose proof (lookup_lt_Some _ _ _ Hp). destruct (lookup_lt_is_Some_2 ms' i) as [m Hm]; [lia|].
    destruct (lookup_lt_is_Some_2 ns' i) as [k Hk]; [lia|]. exists m, k. split; [done|]. by apply HW'.
  - intros i p Hp Hturns. eapply Hfin; [exact Hp| |exact Hturns]. rewrite list_lookup_fmap, lookup_seq_lt; [done|].
    apply lookup_lt_Some in Hp. lia.
Qed.
End pool.

(** ** The threads of the workers *)

Section workers.
Context `{CircularArrayLaws, Random, LogContract}.
Context (add_edge_v3 : Impl -> WeightedEdge -> nat -> res (bool * Impl)) (clock : nat -> Z).
Context (parameters : Aging2Experiment) (num_edges_final_graph : Z) (directed : bool) (cap n : nat) (own : Z * Z -> nat).

Definition worker_threads (ws : list Aging2Worker) (tries : nat) : list (prog answer Aging2Worker) :=
  (fun w => main_execute_updates parameters directed num_edges_final_graph w tries) <$> ws.

(** The worker [i] has loaded its share of the log. *)
Definition ready (log : list WeightedEdge) (ws : list Aging2Worker) : Prop :=
  length ws = n /\ forall i w, ws !! i = Some w -> m_worker_id w = i /\
    exists vs, queue w vs /\ concat vs = mine directed own i log /\ can_measure parameters cap w (concat vs).

(** The number of operations that the master's counter reaches. *)
Definition performed_limit (sh : Shared) (log : list WeightedEdge) : nat :=
  Z.to_nat (m_num_operations_performed sh) + length log.

(** The state in which the updates begin. *)
Record begins (s0 : Spec) (log : list WeightedEdge) (sh : Shared) (ws : list Aging2Worker) : Prop := {
  bg_owners : forall p, (own p < n)%nat;
  bg_granularity : 0 < m_worker_granularity parameters < 2 ^ 64;
  bg_directed : spec_directed s0 = directed;
  bg_symmetric : symmetric s0;
  bg_valid : valid_log s0 log;
  bg_room : room s0 (length log);
  bg_library : represents (m_library sh) s0;
  bg_running : m_stop_experiment sh = false;
  bg_counters : length (m_num_operations sh) = n /\ Forall is_u64 (m_num_operations sh);
  bg_latencies : length (m_latencies sh) = cap;
  bg_performed : 0 <= m_num_operations_performed sh /\ m_num_operations_performed sh + Z.of_nat (length log) < 2 ^ 63;
  bg_last_time : 0 <= m_last_time_reported sh <= Z.of_nat (length (m_reported_times sh));
  bg_reports : reports_fit parameters num_edges_final_graph (length (m_reported_times sh)) (performed_limit sh log);
  bg_ready : ready log ws;
}.

Definition enough_turns {E} (log : list WeightedEdge) (schedule : list (turn E)) : Prop :=
  forall i, (i < n)%nat -> (11 * length (mine directed own i log) < turns i schedule)%nat.

Lemma threads_execute s0 log sh ws tries i p : begins s0 log sh ws -> (0 < tries)%nat -> worker_threads ws tries !! i = Some p ->
  exists w, ws !! i = Some w /\
    executes directed cap (length (m_reported_times sh)) (performed_limit sh log) i (main_done parameters cap w []) (main_done parameters cap w [])
      (mine directed own i log) (length (mine directed own i log)) (length (mine directed own i log))
      (11 * length (mine directed own i log)) p.
Proof.
  intros B Htries Hp. unfold worker_threads in Hp. rewrite list_lookup_fmap in Hp. destruct (ws !! i) as [w|] eqn:Hw; [|done].
  injection Hp as <-. exists w. split; [done|]. destruct (bg_ready _ _ _ _ B) as [_ Hr].
  destruct (Hr i w Hw) as (<- & vs & Hq & <- & Hm).
  apply main_executes; [apply (bg_granularity _ _ _ _ B)|apply (bg_reports _ _ _ _ B)| |done| |done].
  1: { unfold performed_limit. destruct (bg_performed _ _ _ _ B). lia. } by rewrite app_nil_r.
Qed.

Definition worker_done (ws : list Aging2Worker) (i : nat) (w' : Aging2Worker) : Prop :=
  exists w, ws !! i = Some w /\ main_done parameters cap w [] w'.

Lemma threads_executes s0 log sh ws tries i p : begins s0 log sh ws -> (0 < tries)%nat -> worker_threads ws tries !! i = Some p ->
  executes directed cap (length (m_reported_times sh)) (performed_limit sh log) i (worker_done ws i) (worker_done ws i)
      (mine directed own i log) (length (mine directed own i log)) (length (mine directed own i log))
      (11 * length (mine directed own i log)) p.
Proof.
  intros B Htries Hp. destruct (threads_execute _ _ _ _ _ _ _ B Htries Hp) as (w & Hw & He).
  eapply executes_mono; [| |done|exact He]; intros w' Hd; by exists w.
Qed.

Lemma begins_state (may_stop : Prop) s0 log sh ws : begins s0 log sh ws ->
  pool_state directed cap (length (m_reported_times sh)) n own s0 log (m_num_operations sh) (m_num_operations_performed sh) may_stop sh
    (initial_work directed n own log).
Proof. intros B. apply pool_start; try apply B; done. Qed.

Lemma worker_threads_length s0 log sh ws tries : begins s0 log sh ws -> length (worker_threads ws tries) = n.
Proof. intros B. unfold worker_threads. rewrite length_fmap. apply B. Qed.

(** No event from outside. *)
Definition undisturbed (e : Empty_set) (sh : Shared) : Shared := match e with end.

Lemma run_pool_undisturbed (schedule : list nat) fuel : forall pool : Shared * list (prog answer Aging2Worker),
  run_pool (exec add_edge_v3 clock) interfere pool (Run <$> schedule) fuel =
  run_pool (exec add_edge_v3 clock) undisturbed pool (Run <$> schedule) fuel.
Proof.
  unfold run_pool. induction schedule as [|i schedule IH]; intros pool; [done|]. cbn [fmap list_fmap res_fold].
  assert (pool_step (exec add_edge_v3 clock) interfere fuel pool (Run i) = pool_step (exec add_edge_v3 clock) undisturbed fuel pool (Run i)) as -> by (by destruct pool).
  destruct (pool_step _ _ _ _ _); [bind_val; apply IH|done..].
Qed.

Lemma turns_run {E E'} i (schedule : list nat) : turns i (Run <$> schedule : list (turn E)) = turns i (Run <$> schedule : list (turn E')).
Proof. induction schedule as [|j schedule IH]; [done|]. cbn [fmap list_fmap turns]. by rewrite IH. Qed.

(** When all threads have ended, everything has been reported. *)
Lemma unreported_ret sh (ms : list Work) (Done Halted : nat -> Aging2Worker -> Prop) directed' cap' reports limit (threads : list (prog answer Aging2Worker)) :
  length ms = length threads ->
  (forall i p, threads !! i = Some p -> exists m k, ms !! i = Some m /\ thread_state directed' cap' reports limit Done Halted sh i m k p) ->
  (forall i p, threads !! i = Some p -> exists a, p = Ret a) -> unreported ms = 0%nat.
Proof.
  intros Hlen HW Hret. assert (Forall (fun m => wk_unreported m = 0%nat) ms) as Hall.
  { apply Forall_lookup. intros i m Hm. destruct (lookup_lt_is_Some_2 threads i) as [p Hp]; [apply lookup_lt_Some in Hm; lia|].
    destruct (Hret i p Hp) as [x ->]. destruct (HW i _ Hp) as (m' & k & Hm' & Hth). rewrite Hm in Hm'. injection Hm' as <-.
    by destruct Hth as [(_ & _ & -> & _)|(_ & _ & -> & _)]. }
  clear -Hall. unfold unreported. induction Hall as [|m ms Hm _ IH]; [done|]. simpl. by rewrite Hm, IH.
Qed.

(** All updates are performed. *)
Lemma updates_settle s0 log sh ws tries (schedule : list nat)
  (B : begins s0 log sh ws) (Htries : (0 < tries)%nat)
  (Hturns : enough_turns log (Run <$> schedule : list (turn Event))) :
  exists sh' ws',
    settles (run_pool (exec add_edge_v3 clock) interfere (sh, worker_threads ws tries) (Run <$> schedule))
      (Val (sh', Ret <$> ws')) /\
    represents (m_library sh') (after_log s0 log) /\
    length ws' = n /\ (forall i w', ws' !! i = Some w' -> worker_done ws i w') /\
    m_stop_experiment sh' = false /\ length (m_num_operations sh') = n /\
    (forall i, (i < n)%nat -> m_num_operations sh' !! i =
      Some (u64 (default 0 (m_num_operations sh !! i) + Z.of_nat (length (mine directed own i log))))) /\
    m_num_operations_performed sh' = m_num_operations_performed sh + Z.of_nat (length log) /\
    length (m_reported_times sh') = length (m_reported_times sh) /\ 0 <= m_last_time_reported sh' <= Z.of_nat (length (m_reported_times sh)) /\
    length (m_latencies sh') = cap.
Proof.
  destruct (bg_performed _ _ _ _ B) as [Hp0 Hp63].
  destruct (run_workers add_edge_v3 clock directed cap (length (m_reported_times sh)) (performed_limit sh log) n own (bg_owners _ _ _ _ B)
    s0 log (m_num_operations sh) (m_num_operations_performed sh)
    (bg_directed _ _ _ _ B) (bg_symmetric _ _ _ _ B) (bg_valid _ _ _ _ B) (bg_room _ _ _ _ B)
    ltac:(unfold performed_limit; lia) ltac:(unfold performed_limit; lia) (worker_done ws) (worker_done ws)
    undisturbed False (fun e : Empty_set => match e with end) sh (worker_threads ws tries) (Run <$> schedule))
    as (sh' & threads' & ms & Hrun & HI & Hlen & Hlms & HW & Hfin).
  - by apply begins_state with (ws := ws).
  - by apply (worker_threads_length s0 log sh).
  - intros i p Hp. by apply (threads_executes s0 log sh ws tries).
  - destruct HI as [(t & R & Hd & Hl) Hcap Hnostop Hnum Hcount [Htimes Hlast] [_ Hperf]].
    assert (forall i p, threads' !! i = Some p -> exists a, p = Ret a) as Hret.
    { intros i p Hp. apply (Hfin i p Hp). rewrite (turns_run (E' := Event)). apply Hturns. apply lookup_lt_Some in Hp. lia. }
    rewrite (unreported_ret sh' ms _ _ _ _ _ _ threads' ltac:(congruence) HW Hret), Z.add_0_r in Hperf.
    destruct (finished_all threads' Hret) as (ws' & _ & ->).
    assert (forall i w', ws' !! i = Some w' -> ms !! i = Some (mkWork [] 0 0) /\ worker_done ws i w') as Hend.
    { intros i w' Hw'. destruct (HW i (Ret w')) as ([r c u] & k & Hm & Hth); [by rewrite list_lookup_fmap, Hw'|].
      destruct Hth as [(Hr & Hc & Hu & Hdone)|(Hstop & _)]; [|by apply Hnostop in Hstop]. simpl in *. by subst. }
    rewrite length_fmap in Hlen.
    assert (forall i, (i < n)%nat -> ms !! i = Some (mkWork [] 0 0)) as Hms.
    { intros i Hi. destruct (lookup_lt_is_Some_2 ws' i) as [w' Hw']; [lia|]. by apply (Hend i w'). }
    exists sh', ws'. split; [apply (settles_ext _ _ _ (fun fuel => run_pool_undisturbed schedule fuel _)), Hrun|].
    split; [|split; [done|split; [intros i w' Hw'; by apply Hend|split; [|split; [done|split; [|done]]]]]].
    + rewrite <- (distributed_end directed n own (bg_owners _ _ _ _ B) s0 t log (wk_updates <$> ms)); try done; try apply B.
      apply Forall_lookup. intros i r Hr. rewrite list_lookup_fmap in Hr.
      assert (i < n)%nat as Hi. { rewrite <- Hlms. destruct (ms !! i) eqn:Hmi; [|done]. by apply lookup_lt_Some in Hmi. }
      rewrite Hms in Hr by done. by injection Hr as <-.
    + by destruct (m_stop_experiment sh'); [destruct (Hnostop eq_refl)|].
    + intros i Hi. destruct (Hcount i (mkWork [] 0 0) (Hms i Hi)) as [_ ->]. cbn [wk_uncounted]. by rewrite Nat.sub_0_r.
Qed.

(** C7: under any interleaving of the library calls of the workers, on any
    implementation that meets the contract, every thread ends, every call
    succeeds, and the library ends with the graph that the log gives in its
    order, although the workers run their shares concurrently and turn
    undirected edges round at random; the counters say that all updates have been
    done, and every report of a time falls into its array. *)
Theorem aging_updates_correct s0 log sh ws tries (schedule : list nat)
  (B : begins s0 log sh ws) (Htries : (0 < tries)%nat)
  (Hturns : enough_turns log (Run <$> schedule : list (turn Event))) :
  exists sh' ws',
    settles (run_pool (exec add_edge_v3 clock) interfere (sh, worker_threads ws tries) (Run <$> schedule))
      (Val (sh', Ret <$> ws')) /\
    represents (m_library sh') (after_log s0 log) /\
    length ws' = n /\ (forall i w', ws' !! i = Some w' -> worker_done ws i w') /\
    m_stop_experiment sh' = false /\ length (m_num_operations sh') = n /\
    (forall i, (i < n)%nat -> m_num_operations sh' !! i =
      Some (u64 (default 0 (m_num_operations sh !! i) + Z.of_nat (length (mine directed own i log))))) /\
    m_num_operations_performed sh' = m_num_operations_performed sh + Z.of_nat (length log) /\
    length (m_reported_times sh') = length (m_reported_times sh) /\ 0 <= m_last_time_reported sh' <= Z.of_nat (length (m_reported_times sh)) /\
    length (m_latencies sh') = cap.
Proof. by apply updates_settle. Qed.

Lemma distributed_length t log rs i r : distributed directed n own t log rs -> rs !! i = Some r ->
  length (mine directed own i log) = (length (mine directed own i t) + length r)%nat.
Proof. intros [_ Hd] Hr. destruct (Hd i r Hr) as (d & -> & Hall). by rewrite length_app, (Forall2_length _ _ _ Hall). Qed.

(** C11: the flag that ends the experiment (a timeout, or too much memory) may be
    raised at any moment: the library then holds the graph of a valid log, which
    consists of a prefix of the updates of each worker; with enough turns all
    threads end, and their counters say how many updates each has performed, while
    the counter of the master also counts the updates that have been skipped. *)
Theorem aging_stop_prefix s0 log sh ws tries (schedule : list (turn Event))
  (B : begins s0 log sh ws) (Htries : (0 < tries)%nat) :
  exists sh' threads' t rs,
    settles (run_pool (exec add_edge_v3 clock) interfere (sh, worker_threads ws tries) schedule) (Val (sh', threads')) /\
    represents (m_library sh') (after_log s0 t) /\ valid_log s0 t /\ distributed directed n own t log rs /\
    (enough_turns log schedule -> (exists ws', threads' = Ret <$> ws') /\
       (forall i, (i < n)%nat -> m_num_operations sh' !! i =
         Some (u64 (default 0 (m_num_operations sh !! i) + Z.of_nat (length (mine directed own i t))))) /\
       m_num_operations_performed sh' = m_num_operations_performed sh + Z.of_nat (length log)).
Proof.
  destruct (bg_performed _ _ _ _ B) as [Hp0 Hp63].
  destruct (run_workers add_edge_v3 clock directed cap (length (m_reported_times sh)) (performed_limit sh log) n own (bg_owners _ _ _ _ B)
    s0 log (m_num_operations sh) (m_num_operations_performed sh)
    (bg_directed _ _ _ _ B) (bg_symmetric _ _ _ _ B) (bg_valid _ _ _ _ B) (bg_room _ _ _ _ B)
    ltac:(unfold performed_limit; lia) ltac:(unfold performed_limit; lia) (worker_done ws) (worker_done ws)
    interfere True (fun e s => match e with RequestStop => conj eq_refl I end) sh (worker_threads ws tries) schedule)
    as (sh' & threads' & ms & Hrun & HI & Hlen & Hlms & HW & Hfin).
  - by apply begins_state with (ws := ws).
  - by apply (worker_threads_length s0 log sh).
  - intros i p Hp. by apply (threads_executes s0 log sh ws tries).
  - destruct HI as [(t & R & Hd & Hl) _ _ Hnum Hcount _ [_ Hperf]]. exists sh', threads', t, (wk_updates <$> ms).
    split; [done|split; [done|split; [|split; [done|]]]].
    { eapply (distributed_valid directed n own (bg_owners _ _ _ _ B) s0 t log); try done; apply B. }
    intros Hturns. assert (forall i p, threads' !! i = Some p -> exists a, p = Ret a) as Hret.
    { intros i p Hp. apply (Hfin i p Hp), Hturns. apply lookup_lt_Some in Hp. lia. }
    rewrite (unreported_ret sh' ms _ _ _ _ _ _ threads' ltac:(congruence) HW Hret), Z.add_0_r in Hperf.
    destruct (finished_all threads' Hret) as (ws' & _ & ->). split; [by exists ws'|]. split; [|done].
    intros i Hi. rewrite length_fmap in Hlen. destruct (lookup_lt_is_Some_2 ws' i) as [w' Hw']; [lia|].
    destruct (HW i (Ret w')) as ([r c u] & k & Hm & Hth); [by rewrite list_lookup_fmap, Hw'|].
    destruct (Hcount i _ Hm) as [_ ->]. cbn [wk_uncounted].
    rewrite (distributed_length t log (wk_updates <$> ms) i r) by (done || by rewrite list_lookup_fmap, Hm).
    assert (c = length r) as -> by (destruct Hth as [(Hr & Hc & _)|(_ & Hc & _)]; simpl in *; [by subst|done]).
    do 3 f_equal. lia.
Qed.
End workers.
