(* ===== verification/Aging2Load.v ===== *)
(** Loading a log into the workers of the aging experiment: each update reaches
    exactly one worker, in the order of the log. *)

From S2P Require Import Prelude Doubles CByteArray Edge Readers Zlib Graphlog AdjList Threads Interface UpdateLog Aging2Worker Aging2Run.

Section load.
Context `{CircularArrayLaws, Random} (parameters : Aging2Experiment) (hash : Z -> Z).

(** ** One update *)

(** The queue holds the vectors [vs]; new pointers are fresh. *)
Definition store (w : Aging2Worker) (vs : list (list WeightedEdge)) : Prop :=
  NoDup (ca_elems (m_updates w)) /\
  Forall2 (fun p v => m_vectors w !! p = Some v /\ Z.of_nat (length v) <= last_max_sz + 1) (ca_elems (m_updates w)) vs /\
  forall p, is_Some (m_vectors w !! p) -> (p < m_next_vector w)%nat.

(** The weights that the constructor of an edge accepts. *)
Definition weight_ok (e : WeightedEdge) : Prop := dle d_zero (m_weight e) || deq (m_weight e) (double_of_Z (-1)) = true.

(** The weight that is loaded: zero is replaced by a random one. *)
Definition load_weight (k : nat) (e : WeightedEdge) : WeightedEdge :=
  if deq (m_weight e) d_zero then
    let r := random_real k (m_max_weight parameters) in
    mkWeightedEdge (edge_of e) (if deq r d_zero then m_max_weight parameters else r)
  else e.

Definition next_random (k : nat) (e : WeightedEdge) : nat := if deq (m_weight e) d_zero then S k else k.

Lemma dlt_dle x y : dlt x y = true -> dle x y = true.
Proof. unfold dlt, dle, SFltb, SFleb. by destruct (SFcompare x y) as [[]|]. Qed.

Lemma deq_zero_dle x : deq x d_zero = true -> dle d_zero x = true.
Proof. by destruct x as [[]|[]| |[] m e]. Qed.

Lemma load_weight_sign k e : dlt d_zero (m_max_weight parameters) = true -> is_insertion (load_weight k e) = is_insertion e.
Proof.
  intros Hmax. unfold load_weight, is_insertion. destruct (deq (m_weight e) d_zero) eqn:Hz; [|done]. cbn [m_weight].
  rewrite (deq_zero_dle _ Hz). destruct (random_real_range k (m_max_weight parameters) Hmax) as [Hr _].
  by destruct (deq (random_real k (m_max_weight parameters)) d_zero); [apply dlt_dle|].
Qed.

Lemma load_weight_ends k e : ends (load_weight k e) = ends e.
Proof. unfold load_weight. by destruct (deq _ _). Qed.

Lemma load_weight_new k e : dlt d_zero (m_max_weight parameters) = true -> weight_ok e ->
  WeightedEdge_new (wsource e) (wdestination e) (m_weight (load_weight k e)) = Val (load_weight k e).
Proof.
  intros Hmax Hok. pose proof (load_weight_sign k e Hmax) as Hsign. unfold is_insertion, weight_ok in *. unfold WeightedEdge_new.
  assert (dle d_zero (m_weight (load_weight k e)) || deq (m_weight (load_weight k e)) (double_of_Z (-1)) = true) as ->.
  { destruct (dle d_zero (m_weight e)); [by rewrite Hsign|]. rewrite orb_false_l in Hok.
    unfold load_weight. destruct (deq (m_weight e) d_zero) eqn:Hz; [|by rewrite Hok, orb_true_r].
    exfalso. clear -Hok Hz. by destruct (m_weight e) as [[]|[]| |[] m ex]. }
  unfold load_weight. destruct (deq (m_weight e) d_zero); destruct e as [[x y] w]; done.
Qed.

(** What loading one update does to the counters and the generator. *)
Definition counts (w w' : Aging2Worker) (l : list WeightedEdge) : Prop :=
  m_worker_id w' = m_worker_id w /\ m_latency_insertions w' = m_latency_insertions w /\
  m_latency_deletions w' = m_latency_deletions w /\
  m_num_edge_insertions w' = u64 (m_num_edge_insertions w + Z.of_nat (count_insertions l)) /\
  m_num_edge_deletions w' = u64 (m_num_edge_deletions w + Z.of_nat (count_deletions l)).

Definition counters_ok (w : Aging2Worker) : Prop := is_u64 (m_num_edge_insertions w) /\ is_u64 (m_num_edge_deletions w).

Lemma counts_trans w1 w2 w3 l1 l2 : counts w1 w2 l1 -> counts w2 w3 l2 -> counts w1 w3 (l1 ++ l2).
Proof.
  unfold counts, count_insertions, count_deletions. intros (? & ? & ? & Hi1 & Hd1) (? & ? & ? & Hi2 & Hd2).
  rewrite !filter_app, !length_app. split_and!; try congruence.
  - rewrite Hi2, Hi1. unfold u64. rewrite Zplus_mod_idemp_l. f_equal. lia.
  - rewrite Hd2, Hd1. unfold u64. rewrite Zplus_mod_idemp_l. f_equal. lia.
Qed.

Lemma last_max_sz_val : last_max_sz = 4194304.
Proof. done. Qed.

(** A new vector at the end of the queue. *)
Lemma append_vector_store w vs : store w vs ->
  store (append_vector w).2 (vs ++ [[]]) /\ last (ca_elems (m_updates (append_vector w).2)) = Some (append_vector w).1 /\
  m_vectors (append_vector w).2 !! (append_vector w).1 = Some [].
Proof.
  intros (Hnd & Hvs & Hfresh). unfold append_vector, store. cbn [fst snd set_updates m_updates m_vectors m_next_vector].
  rewrite ca_elems_append, last_snoc, lookup_insert_eq.
  assert (forall p v, m_vectors w !! p = Some v -> p <> m_next_vector w) as Hne.
  { intros p v Hp ->. specialize (Hfresh (m_next_vector w)). rewrite Hp in Hfresh. specialize (Hfresh ltac:(done)). lia. }
  split; [|done]. split; [|split].
  - apply NoDup_app. split; [done|]. split; [|apply NoDup_singleton]. intros p Hp Hin. apply list_elem_of_singleton in Hin as ->.
    apply list_elem_of_lookup in Hp as [k Hk]. destruct (Forall2_lookup_l _ _ _ _ _ Hvs Hk) as (v & _ & Hv & _). by apply Hne in Hv.
  - apply Forall2_app.
    + eapply Forall2_impl; [exact Hvs|]. intros p v [Hv Hl]. split; [|done]. rewrite lookup_insert_ne; [done|]. intros <-. by apply Hne in Hv.
    + constructor; [|constructor]. rewrite lookup_insert_eq. split; [done|]. simpl. rewrite last_max_sz_val. lia.
  - intros p Hp. destruct (decide (p = m_next_vector w)) as [->|Hp']; [lia|]. rewrite lookup_insert_ne in Hp by done. apply Hfresh in Hp. lia.
Qed.

(** An update at the end of the last vector. *)
Lemma store_push w vs v p e : store w (vs ++ [v]) -> last (ca_elems (m_updates w)) = Some p -> Z.of_nat (length v) <= last_max_sz ->
  m_vectors w !! p = Some v /\
  store (set_updates w (m_updates w) (<[p := v ++ [e]]> (m_vectors w)) (m_next_vector w)) (vs ++ [v ++ [e]]).
Proof.
  intros (Hnd & Hvs & Hfresh) Hlast Hlen. destruct (ca_elems (m_updates w)) as [|p0 ps0 _] eqn:Hps using rev_ind; [done|].
  rewrite last_snoc in Hlast. injection Hlast as ->. apply Forall2_app_inv in Hvs as [Hvs Hv].
  2: { apply Forall2_length in Hvs. rewrite !length_app in Hvs. simpl in Hvs. lia. }
  apply Forall2_cons in Hv as [[Hv Hl] _]. split; [done|]. apply NoDup_app in Hnd as (Hnd & Hp & _).
  unfold store. cbn [set_updates m_updates m_vectors m_next_vector]. rewrite Hps. split; [|split].
  - apply NoDup_app. split_and!; [done|done|apply NoDup_singleton].
  - apply Forall2_app.
    + rewrite Forall2_same_length_lookup in Hvs |- *. destruct Hvs as [Hlen' Hvs]. split; [done|]. intros k q u Hq Hu.
      destruct (Hvs k q u Hq Hu) as [Hlook Hsz]. split; [|done]. rewrite lookup_insert_ne; [done|]. intros ->.
      apply (Hp q); [by eapply list_elem_of_lookup_2|by apply list_elem_of_singleton].
    + constructor; [|constructor]. rewrite lookup_insert_eq. split; [done|]. rewrite length_app. simpl. lia.
  - intros q Hq. destruct (decide (q = p)) as [->|Hqp]; [apply Hfresh; by rewrite Hv|]. rewrite lookup_insert_ne in Hq by done. by apply Hfresh.
Qed.

Lemma store_last w vs p : store w vs -> last (ca_elems (m_updates w)) = Some p -> exists vs0 v, vs = vs0 ++ [v] /\ m_vectors w !! p = Some v.
Proof.
  intros (_ & Hvs & _) Hlast. destruct vs as [|v vs0 _] using rev_ind; [by apply Forall2_nil_inv_r in Hvs as Hn; rewrite Hn in Hlast|].
  exists vs0, v. split; [done|]. destruct (ca_elems (m_updates w)) as [|p0 ps _] using rev_ind; [done|].
  rewrite last_snoc in Hlast. injection Hlast as ->. apply Forall2_app_inv in Hvs as [_ Hv].
  - by apply Forall2_cons in Hv as [[Hv _] _].
  - apply Forall2_length in Hvs. rewrite !length_app in Hvs. simpl in Hvs. lia.
Qed.

Context (Hmax : dlt d_zero (m_max_weight parameters) = true).

Lemma load_update_spec w vs p e : weight_ok e -> store w vs -> last (ca_elems (m_updates w)) = Some p -> counters_ok w ->
  exists p' w' vs', load_update parameters w p e = Val (p', w') /\ store w' vs' /\ last (ca_elems (m_updates w')) = Some p' /\
    concat vs' = concat vs ++ [load_weight (m_random w) e] /\ m_random w' = next_random (m_random w) e /\
    counts w w' [e] /\ counters_ok w'.
Proof.
  intros Hok Hstore Hlast [Hci Hcd]. destruct (store_last w vs p Hstore Hlast) as (vs0 & v & -> & Hv).
  unfold load_update. rewrite Hv. cbn [require]. bind_val.
  set (m := if last_max_sz <? Z.of_nat (length v) then append_vector w else (p, w)).
  assert (exists vs1 v1, store m.2 (vs1 ++ [v1]) /\ last (ca_elems (m_updates m.2)) = Some m.1 /\ Z.of_nat (length v1) <= last_max_sz /\
    concat (vs1 ++ [v1]) = concat (vs0 ++ [v]) /\ m_random m.2 = m_random w /\ m_worker_id m.2 = m_worker_id w /\
    m_num_edge_insertions m.2 = m_num_edge_insertions w /\ m_num_edge_deletions m.2 = m_num_edge_deletions w /\
    m_latency_insertions m.2 = m_latency_insertions w /\ m_latency_deletions m.2 = m_latency_deletions w)
    as (vs1 & v1 & Hst1 & Hl1 & Hlen1 & Hc1 & Hr1 & Hid & Hi1 & Hd1 & Hli & Hld).
  { unfold m. destruct (Z.ltb_spec last_max_sz (Z.of_nat (length v))).
    - destruct (append_vector_store w (vs0 ++ [v]) Hstore) as (Hs & Hl & _). exists (vs0 ++ [v]), []. split_and?; try done.
      rewrite concat_app. simpl. by rewrite app_nil_r.
    - exists vs0, v. by split_and?. }
  destruct m as [p1 w1]. cbn [fst snd] in *. cbv zeta.
  set (w2 := if dle d_zero (m_weight e) then _ else _).
  set (m3 := if deq (m_weight e) d_zero then _ else _).
  assert (m3 = (m_weight (load_weight (m_random w) e), set_random w2 (next_random (m_random w) e))) as ->.
  { assert (m_random w2 = m_random w) as Hr2 by (unfold w2; by destruct (dle d_zero (m_weight e))).
    unfold m3, load_weight, next_random. rewrite Hr2. destruct (deq (m_weight e) d_zero); [done|]. rewrite <- Hr2. by destruct w2. }
  cbv iota beta. set (w3 := set_random w2 (next_random (m_random w) e)).
  assert (store w3 (vs1 ++ [v1])) as Hst3 by (unfold w3, w2; by destruct (dle d_zero (m_weight e))).
  assert (last (ca_elems (m_updates w3)) = Some p1) as Hl3 by (unfold w3, w2; by destruct (dle d_zero (m_weight e))).
  destruct (store_push w3 vs1 v1 p1 (load_weight (m_random w) e) Hst3 Hl3 Hlen1) as [Hv3 Hst4]. rewrite Hv3. cbn [require]. bind_val.
  rewrite load_weight_new by done. bind_val.
  eexists p1, _, _. split; [done|]. split; [exact Hst4|]. split; [exact Hl3|]. split; [|split; [done|]].
  { rewrite <- Hc1, !concat_app. simpl. by rewrite !app_nil_r, app_assoc. }
  unfold counts, counters_ok, count_insertions, count_deletions. rewrite !filter_cons, !filter_nil. fold (is_insertion e) in w2.
  unfold w3, w2. cbn [set_updates set_random m_worker_id m_latency_insertions m_latency_deletions m_num_edge_insertions m_num_edge_deletions].
  destruct (is_insertion e); cbn [set_counters m_worker_id m_latency_insertions m_latency_deletions m_num_edge_insertions m_num_edge_deletions length];
    rewrite ?Hid, ?Hi1, ?Hd1, ?Hli, ?Hld, ?Z.add_0_r, ?(u64_id _ Hci), ?(u64_id _ Hcd); split_and?; try done; apply u64_range.
Qed.

(** ** Many updates *)

Fixpoint load_weights (k : nat) (l : list WeightedEdge) : list WeightedEdge :=
  match l with
  | [] => []
  | e :: l => load_weight k e :: load_weights (next_random k e) l
  end.

(** The worker [w'] is [w] with the updates [l] at the end of its queue. *)
Definition loaded (w w' : Aging2Worker) (vs vs' : list (list WeightedEdge)) (l : list WeightedEdge) : Prop :=
  store w' vs' /\ concat vs' = concat vs ++ load_weights (m_random w) l /\ m_random w' = foldl next_random (m_random w) l /\
  counts w w' l /\ counters_ok w'.

Lemma load_weights_app k l l' : load_weights k (l ++ l') = load_weights k l ++ load_weights (foldl next_random k l) l'.
Proof. revert k. induction l as [|e l IH]; intros k; [done|]. cbn [app load_weights foldl]. by rewrite IH. Qed.

Lemma counts_refl w : counters_ok w -> counts w w [].
Proof. intros [Hi Hd]. unfold counts. cbn. rewrite !Z.add_0_r, !u64_id by done. done. Qed.

Lemma loaded_refl w vs : store w vs -> counters_ok w -> loaded w w vs vs [].
Proof. intros Hs Hc. unfold loaded. split_and?; [done|by rewrite app_nil_r|done|by apply counts_refl|done]. Qed.

Lemma loaded_trans w1 w2 w3 vs1 vs2 vs3 l1 l2 : loaded w1 w2 vs1 vs2 l1 -> loaded w2 w3 vs2 vs3 l2 -> loaded w1 w3 vs1 vs3 (l1 ++ l2).
Proof.
  intros (_ & Hc2 & Hr2 & Hn2 & _) (Hs3 & Hc3 & Hr3 & Hn3 & Hok3). unfold loaded. split_and?; [done| | |by eapply counts_trans|done].
  - by rewrite Hc3, Hc2, Hr2, load_weights_app, app_assoc.
  - by rewrite Hr3, Hr2, foldl_app.
Qed.

Lemma last_vector_spec w vs : store w vs -> counters_ok w ->
  exists p w' vs', last_vector w = Val (p, w') /\ last (ca_elems (m_updates w')) = Some p /\ loaded w w' vs vs' [].
Proof.
  intros Hs Hc. unfold last_vector. rewrite ca_size_elems.
  assert (exists w' vs' p, (if (length (ca_elems (m_updates w)) =? 0)%nat then (append_vector w).2 else w) = w' /\
    last (ca_elems (m_updates w')) = Some p /\ loaded w w' vs vs' []) as (w' & vs' & p & -> & Hl & Hld).
  { destruct (Nat.eqb_spec (length (ca_elems (m_updates w))) 0) as [Hlen|Hlen].
    - destruct (append_vector_store w vs Hs) as (Hs' & Hl & _). eexists _, _, _. split; [done|]. split; [exact Hl|].
      unfold loaded. split_and?; [exact Hs'| |done|exact (counts_refl w Hc)|done]. rewrite concat_app. simpl. by rewrite !app_nil_r.
    - destruct (ca_elems (m_updates w)) as [|p ps _] eqn:Hps using rev_ind; [done|].
      exists w, vs, p. split; [done|]. split; [by rewrite Hps, last_snoc|by apply loaded_refl]. }
  exists p, w', vs'. split; [|done]. cbv zeta. rewrite ca_size_elems. rewrite (ca_get_elems _ _ p); [done|].
  rewrite last_lookup in Hl. by rewrite Nat.sub_1_r.
Qed.

(** A loop that loads the edges that it selects. *)
Lemma load_fold (edge : nat -> WeightedEdge) (body : nat * Aging2Worker -> nat -> res (nat * Aging2Worker)) (sel : nat -> bool) id l :
  forall w vs p, (forall i w last, m_worker_id w = id -> i ∈ l ->
    body (last, w) i = if sel i then load_update parameters w last (edge i) else Val (last, w)) ->
  (forall i, i ∈ l -> weight_ok (edge i)) -> m_worker_id w = id -> store w vs -> last (ca_elems (m_updates w)) = Some p ->
  counters_ok w -> exists p' w' vs', res_fold body (p, w) l = Val (p', w') /\
    loaded w w' vs vs' (edge <$> filter (fun i => sel i = true) l).
Proof.
  induction l as [|i l IH]; intros w vs p Hstep Hok Hid Hs Hl Hc.
  { exists p, w, vs. split; [done|by apply loaded_refl]. }
  cbn [res_fold]. rewrite Hstep by (done || left). rewrite filter_cons. destruct (sel i).
  - destruct (load_update_spec w vs p (edge i)) as (p1 & w1 & vs1 & -> & Hs1 & Hl1 & Hc1 & Hr1 & Hn1 & Hok1); try done.
    { apply Hok. left. }
    bind_val. assert (m_worker_id w1 = id) as Hid1 by (rewrite <- Hid; apply Hn1).
    destruct (IH w1 vs1 p1) as (p' & w' & vs' & -> & Hld); try done.
    { intros j w0 last0 Hid' Hj. apply Hstep; [done|by right]. }
    { intros j Hj. apply Hok. by right. }
    exists p', w', vs'. split; [done|]. rewrite decide_True by done. cbn [fmap list_fmap].
    apply (loaded_trans w w1 w' vs vs1 vs' [edge i]); [|done]. unfold loaded. by split_and?.
  - bind_val. rewrite decide_False by done. apply IH; try done.
    + intros j w0 last0 Hid' Hj. apply Hstep; [done|by right].
    + intros j Hj. apply Hok. by right.
Qed.

(** ** The owner of an update *)

Context (Hthreads : 0 < m_num_threads parameters < 2 ^ 31).

Definition own (p : Z * Z) : nat := Z.to_nat (hash (u64 (p.1 + p.2)) mod m_num_threads parameters).

Lemma own_bound p : (own p < Z.to_nat (m_num_threads parameters))%nat.
Proof. unfold own. pose proof (Z.mod_pos_bound (hash (u64 (p.1 + p.2))) (m_num_threads parameters)). lia. Qed.

Lemma own_key directed p : own (pair_key directed p) = own p.
Proof.
  unfold own, pair_key. destruct directed; [done|]. cbn [fst snd]. do 3 f_equal. f_equal. lia.
Qed.

Lemma is_owner_spec worker e : is_owner parameters hash worker (wsource e) (wdestination e) = Val (bool_decide (own (ends e) = worker)).
Proof.
  unfold is_owner. rewrite (proj2 (Z.eqb_neq _ _)) by lia. f_equal. unfold own, ends. cbn [fst snd].
  pose proof (Z.mod_pos_bound (hash (u64 (wsource e + wdestination e))) (m_num_threads parameters) ltac:(lia)) as Hb.
  rewrite i32_id by lia. case_bool_decide; [apply Z.eqb_eq|apply Z.eqb_neq]; lia.
Qed.

(** The edges in an array. *)
Definition block_edges (edges : list Z) (num_edges : nat) : list WeightedEdge := block_edge edges num_edges <$> seq 0 num_edges.

Lemma mine_filter directed worker l : mine directed own worker l = filter (fun e => own (ends e) = worker) l.
Proof. unfold mine. apply list_filter_iff. intros e. unfold owner. by rewrite own_key. Qed.

Lemma main_load_edges_spec directed w vs edges num_edges : store w vs -> counters_ok w ->
  Forall weight_ok (block_edges edges num_edges) ->
  exists w' vs', main_load_edges parameters hash w edges num_edges = Val w' /\
    loaded w w' vs vs' (mine directed own (m_worker_id w) (block_edges edges num_edges)).
Proof.
  intros Hs Hc Hok. destruct (last_vector_spec w vs Hs Hc) as (p & w1 & vs1 & Hlast & Hl1 & Hld1).
  unfold main_load_edges. rewrite Hlast. bind_val. cbv beta iota.
  pose proof Hld1 as (Hs1 & _ & _ & Hn1 & Hc1).
  match goal with |- context [res_fold ?body _ _] =>
    destruct (load_fold (block_edge edges num_edges) body
      (fun i => bool_decide (own (ends (block_edge edges num_edges i)) = m_worker_id w)) (m_worker_id w) (seq 0 num_edges) w1 vs1 p)
      as (p' & w' & vs' & -> & Hld); try done
  end.
  - intros i w0 last Hid _. cbv beta iota zeta. rewrite is_owner_spec. bind_val. by rewrite Hid.
  - intros i Hi. rewrite Forall_forall in Hok. apply Hok. unfold block_edges. by apply list_elem_of_fmap_2.
  - apply Hn1.
  - bind_val. exists w', vs'. split; [done|]. rewrite mine_filter. unfold block_edges. rewrite filter_fmap.
    apply (loaded_trans w w1 w' vs vs1 vs' []) in Hld; [|done]. cbn [app] in Hld.
    rewrite (list_filter_iff _ (fun i => own (ends (block_edge edges num_edges i)) = m_worker_id w)) in Hld; [done|].
    intros i. apply bool_decide_eq_true.
Qed.

(** ** The log with the weights that are loaded

    Every worker has a generator, whose states are [ks]. *)

Fixpoint weighted_log (directed : bool) (ks : nat -> nat) (log : list WeightedEdge) : list WeightedEdge :=
  match log with
  | [] => []
  | e :: log =>
    let i := owner directed own e in
    load_weight (ks i) e :: weighted_log directed (fun j => if decide (j = i) then next_random (ks i) e else ks j) log
  end.

Lemma owner_weight directed k e : owner directed own (load_weight k e) = owner directed own e.
Proof. unfold owner. by rewrite load_weight_ends. Qed.

Lemma mine_weighted directed i log : forall ks,
  mine directed own i (weighted_log directed ks log) = load_weights (ks i) (mine directed own i log).
Proof.
  induction log as [|e log IH]; intros ks; [done|]. cbn [weighted_log]. unfold mine in *. rewrite !filter_cons, owner_weight, IH.
  destruct (decide (owner directed own e = i)) as [->|Hne]; cbn [load_weights].
  - by rewrite decide_True.
  - by rewrite decide_False.
Qed.

(** A weight that is zero becomes a random one, positive and at most the
    maximum; the others stay. *)
Definition reweighted (e e' : WeightedEdge) : Prop :=
  edge_of e' = edge_of e /\
  if deq (m_weight e) d_zero then dlt d_zero (m_weight e') = true /\ dle (m_weight e') (m_max_weight parameters) = true else e' = e.

Lemma dle_max_refl : dle (m_max_weight parameters) (m_max_weight parameters) = true.
Proof.
  revert Hmax. generalize (m_max_weight parameters). intros m Hm. unfold dle, SFleb.
  assert (disnan m = false) as Hn by (by destruct m as [[]|[]| |[] ? ?]).
  pose proof (deq_refl m Hn) as Hr. unfold deq, SFeqb in Hr. by destruct (SFcompare m m) as [[]|].
Qed.

Lemma dle_neq_dlt x : dle d_zero x = true -> deq x d_zero = false -> dlt d_zero x = true.
Proof. by destruct x as [[]|[]| |[] ? ?]. Qed.

Lemma load_weight_reweighted k e : reweighted e (load_weight k e).
Proof.
  unfold reweighted, load_weight. destruct (deq (m_weight e) d_zero); [|done]. cbn [edge_of m_weight]. split; [done|].
  destruct (random_real_range k (m_max_weight parameters) Hmax) as [H0r Hr].
  destruct (deq (random_real k (m_max_weight parameters)) d_zero) eqn:Hz.
  - split; [done|apply dle_max_refl].
  - split; [by apply dle_neq_dlt|by apply dlt_dle].
Qed.

Lemma weighted_log_reweighted directed log : forall ks, Forall2 reweighted log (weighted_log directed ks log).
Proof. induction log as [|e log IH]; intros ks; constructor; [apply load_weight_reweighted|apply IH]. Qed.

Lemma reweighted_kind e e' : reweighted e e' -> same_kind e e'.
Proof.
  intros [He Hw]. split; [unfold ends, wsource, wdestination; by rewrite He|]. unfold is_insertion.
  destruct (deq (m_weight e) d_zero) eqn:Hz; [|by subst]. destruct Hw as [Hpos _].
  by rewrite (deq_zero_dle _ Hz), (dlt_dle _ _ Hpos).
Qed.
End load.
