(* ===== verification/Aging2Master.v ===== *)
(** [experiment/details/aging2_master]: the master of the aging experiment. It
    loads the log, gives it to the workers and lets them run. *)

From S2P Require Import Prelude Doubles CByteArray Text Edge Readers Zlib GraphalyticsReader Graphlog AdjList Threads Interface UpdateLog Aging2Worker Aging2Run Aging2Load.

(** ** The state *)

(** The results that are more than measurements of time and memory. *)
Record Aging2Result := mkAging2Result {
  m_num_artificial_vertices : Z;
  m_num_vertices_load : Z;
  m_num_edges_load : Z;
  m_num_operations_total : Z;
  m_random_vertex_id : Z;
  m_num_vertices_final_graph : Z;
  m_num_edges_final_graph : Z;
}.

Definition set_random_vertex (r : Aging2Result) (v : Z) : Aging2Result :=
  mkAging2Result (m_num_artificial_vertices r) (m_num_vertices_load r) (m_num_edges_load r) (m_num_operations_total r) v
    (m_num_vertices_final_graph r) (m_num_edges_final_graph r).

Definition set_final_graph (r : Aging2Result) (vertices edges : Z) : Aging2Result :=
  mkAging2Result (m_num_artificial_vertices r) (m_num_vertices_load r) (m_num_edges_load r) (m_num_operations_total r)
    (m_random_vertex_id r) vertices edges.

Section master.
Context `{CircularArray, Random, UpdateInterface, Zlib}.

(** [m_shared] are the fields that the workers access. *)
Record Aging2Master := mkAging2Master {
  m_shared : Shared;
  m_workers : list Aging2Worker;
  m_latencies_num_insertions : Z;
  m_latencies_num_deletions : Z;
  m_results : Aging2Result;
}.

Definition set_shared (m : Aging2Master) (sh : Shared) : Aging2Master :=
  mkAging2Master sh (m_workers m) (m_latencies_num_insertions m) (m_latencies_num_deletions m) (m_results m).

Definition set_workers (m : Aging2Master) (ws : list Aging2Worker) : Aging2Master :=
  mkAging2Master (m_shared m) ws (m_latencies_num_insertions m) (m_latencies_num_deletions m) (m_results m).

Definition set_results (m : Aging2Master) (r : Aging2Result) : Aging2Master :=
  mkAging2Master (m_shared m) (m_workers m) (m_latencies_num_insertions m) (m_latencies_num_deletions m) r.

Context (parameters : Aging2Experiment) (hash : Z -> Z).
Context (add_edge_v3 : Impl -> WeightedEdge -> nat -> res (bool * Impl)) (clock : nat -> Z).

(** The file of the log, the content of new memory, and the seeds of the
    generators of the workers. *)
Context (file_system : text -> option text) (uninitialised : nat -> Z) (seed : nat -> nat).

Definition property (properties : Properties) (key : text) : res Z := stoull (default [] (properties !! key)).

Definition log_file : option text := path ← m_path_log parameters; file_system path.

(** The constructor: the properties of the log and the workers. *)
Definition Aging2Master_new (library : Impl) : res Aging2Master :=
  properties ← parse_properties log_file;
  artificial ← property properties (text_of "internal.vertices.temporary.cardinality");
  vertices ← property properties (text_of "internal.vertices.final.cardinality");
  edges ← property properties (text_of "internal.edges.final");
  operations ← property properties (text_of "internal.edges.cardinality");
  times ← static_cast 0 (2 ^ 64)
    (dadd (dmul (double_of_Z (m_num_reports_per_operations parameters)) (dceil (ddiv (double_of_Z operations) (double_of_Z edges)))) d_one);
  let n := Z.to_nat (m_num_threads parameters) in
  Val (mkAging2Master (mkShared library false 0 0 (replicate n 0) [] 0 0 (replicate (Z.to_nat times) 0) 0)
         ((fun i => Aging2Worker_new i (seed i)) <$> seq 0 n) 0 0
         (mkAging2Result artificial vertices edges operations 0 0 0)).

(** ** Loading *)

Fixpoint workers_load (ws : list Aging2Worker) (edges : list Z) (num_edges : nat) : res (list Aging2Worker) :=
  match ws with
  | [] => Val []
  | w :: ws =>
    w ← main_load_edges parameters hash w edges num_edges;
    ws ← workers_load ws edges num_edges;
    Val (w :: ws)
  end.

(** The source of the first edge whose weight is positive. *)
Fixpoint first_positive (edges : list WeightedEdge) : option Z :=
  match edges with
  | [] => None
  | e :: edges => if dle (m_weight e) d_zero then first_positive edges else Some (wsource e)
  end.

Definition set_random_vertex_id (m : Aging2Master) (edges : list Z) (num_edges : nat) : Aging2Master :=
  match first_positive (block_edges edges num_edges) with
  | Some v => set_results m (set_random_vertex (m_results m) v)
  | None => m
  end.

(** The workers load a block of the log. *)
Definition load_block_edges (m : Aging2Master) (edges : list Z) (num_edges : nat) : res Aging2Master :=
  ws ← workers_load (m_workers m) edges num_edges;
  let m := set_workers m ws in
  Val (if m_random_vertex_id (m_results m) =? 0 then set_random_vertex_id m edges num_edges else m).

(** The handle of the log at the first block, and the size of a block. *)
Definition open_log : res (bstream * Z) :=
  properties ← parse_properties log_file;
  array_sz ← property properties (text_of "internal.edges.block_size");
  handle ← set_marker properties (b_open (default [] (file_bytes log_file))) EDGES;
  Val (handle, array_sz).

Definition load_next (handle : bstream) (array_sz : Z) : res (nat * list Z * bstream) :=
  load_written handle (Z.to_nat (array_sz / 3)).

Fixpoint load_edges_loop (m : Aging2Master) (handle : bstream) (array_sz : Z) (num_edges : nat) (array : list Z) (fuel : nat) :
    res Aging2Master :=
  if (num_edges =? 0)%nat then Val m else
  match fuel with
  | O => NoFuel
  | S fuel =>
    m ← load_block_edges m array num_edges;
    '(num_edges, array, handle) ← load_next handle array_sz;
    load_edges_loop m handle array_sz num_edges array fuel
  end.

Definition load_edges (m : Aging2Master) (fuel : nat) : res Aging2Master :=
  '(handle, array_sz) ← open_log;
  '(num_edges, array, handle) ← load_next handle array_sz;
  load_edges_loop m handle array_sz num_edges array fuel.

(** ** Latencies *)

Definition num_insertions (w : Aging2Worker) : Z := m_num_edge_insertions w.
Definition num_deletions (w : Aging2Worker) : Z := m_num_edge_deletions w.

(** The offsets of the workers in the array. *)
Fixpoint assign_latencies (ws : list Aging2Worker) (latency_insertions latency_deletions : Z) : list Aging2Worker :=
  match ws with
  | [] => []
  | w :: ws =>
    set_latencies w (Some (Z.to_nat latency_insertions)) (Some (Z.to_nat latency_deletions)) ::
    assign_latencies ws (latency_insertions + num_insertions w) (latency_deletions + num_deletions w)
  end.

Definition prepare_latencies (m : Aging2Master) : res Aging2Master :=
  let insertions := foldl (fun n w => u64 (n + num_insertions w)) (m_latencies_num_insertions m) (m_workers m) in
  let deletions := foldl (fun n w => u64 (n + num_deletions w)) (m_latencies_num_deletions m) (m_workers m) in
  let total := m_num_operations_total (m_results m) in
  if u64 (insertions + deletions) =? total then
    Val (mkAging2Master (set_latency_array (m_shared m) (uninitialised <$> seq 0 (Z.to_nat total)))
           (assign_latencies (m_workers m) 0 insertions) insertions deletions (m_results m))
  else Undef.

(** ** The run

    [schedule] is the interleaving of the workers, with the moments at which the
    master raises the flag; the master waits until all of them have ended. *)

Definition num_edges_final_graph (m : Aging2Master) : Z := m_num_edges_load (m_results m).

Definition start_run (sh : Shared) : Shared := set_reports (tick sh) (clock (sh_clock sh)) 0 (m_reported_times sh).

Definition do_run_experiment (m : Aging2Master) (schedule : list (turn Event)) (tries fuel : nat) : res Aging2Master :=
  '(sh, threads) ← run_pool (exec add_edge_v3 clock) interfere
    (start_run (m_shared m),
     worker_threads parameters (num_edges_final_graph m) (is_directed (m_library (m_shared m))) (m_workers m) tries) schedule fuel;
  match finished threads with
  | Some ws => Val (set_workers (set_shared m sh) ws)
  | None => NoFuel
  end.

Definition num_operations_sofar (m : Aging2Master) : Z := foldl (fun total n => u64 (total + n)) 0 (m_num_operations (m_shared m)).

(** The sizes of the graph that the library reports. *)
Definition store_results (num_vertices num_edges : Impl -> Z) (m : Aging2Master) : Aging2Master :=
  set_results m (set_final_graph (m_results m) (num_vertices (m_library (m_shared m))) (num_edges (m_library (m_shared m)))).

(** ** [execute_synchronized_small_batch]

    Each block is loaded and executed before the next one. The driver of
    LiveGraph is stopped after a fifth of a certain log. *)

Context (have_livegraph : bool).

Definition total_log : Z := 2603795200.

Fixpoint small_batch_loop (m : Aging2Master) (handle : bstream) (array_sz : Z) (num_edges : nat) (array : list Z)
    (executed_operations : Z) (schedules : nat -> list (turn Event)) (tries round rounds fuel : nat) : res Aging2Master :=
  if (num_edges =? 0)%nat then Val m else
  match rounds with
  | O => NoFuel
  | S rounds =>
    let executed_operations := u64 (executed_operations + Z.of_nat num_edges) in
    m ← load_block_edges m array num_edges;
    '(num_edges, array, handle) ← load_next handle array_sz;
    m ← (if m_measure_latency parameters then prepare_latencies m else Val m);
    m ← do_run_experiment m (schedules round) tries fuel;
    if have_livegraph && (total_log / 5 <? executed_operations) then Val m
    else small_batch_loop m handle array_sz num_edges array executed_operations schedules tries (S round) rounds fuel
  end.

Definition execute_synchronized_small_batch (m : Aging2Master) (schedules : nat -> list (turn Event)) (tries rounds fuel : nat) :
    res Aging2Master :=
  '(handle, array_sz) ← open_log;
  '(num_edges, array, handle) ← load_next handle array_sz;
  small_batch_loop m handle array_sz num_edges array 0 schedules tries 0 rounds fuel.

(** The destructors of the workers. *)
Fixpoint workers_delete (ws : list Aging2Worker) : res (list Aging2Worker) :=
  match ws with
  | [] => Val []
  | w :: ws => w ← Aging2Worker_delete w; ws ← workers_delete ws; Val (w :: ws)
  end.

(** [Aging2Experiment::execute]: a new master, the run, and its destructor. *)
Definition Aging2Experiment_execute (library : Impl) (schedules : nat -> list (turn Event)) (tries rounds fuel : nat) :
    res Aging2Master :=
  match m_path_log parameters with
  | None => Exn RuntimeError
  | Some _ =>
    m ← Aging2Master_new library;
    m ← execute_synchronized_small_batch m schedules tries rounds fuel;
    ws ← workers_delete (m_workers m);
    Val (set_workers m ws)
  end.
End master.

(** ** Rounds *)

Section rounds.
Context `{CircularArrayLaws, Random, LogContract, ZlibLaws}.
Context (parameters : Aging2Experiment) (hash : Z -> Z).
Context (add_edge_v3 : Impl -> WeightedEdge -> nat -> res (bool * Impl)) (clock : nat -> Z).
Context (file_system : text -> option text) (uninitialised : nat -> Z) (seed : nat -> nat).

(** The configuration that the setters of [Aging2Experiment] allow, on which no
    latencies are measured. *)
Record plain_parameters : Prop := {
  pp_threads : 0 < m_num_threads parameters < 2 ^ 31;
  pp_granularity : 0 < m_worker_granularity parameters < 2 ^ 64;
  pp_max_weight : dlt d_zero (m_max_weight parameters) = true;
  pp_latency : m_measure_latency parameters = false;
}.

Context (P : plain_parameters).

Local Notation n := (Z.to_nat (m_num_threads parameters)).
Local Notation own := (own parameters hash).

Definition worker_idle (i : nat) (w : Aging2Worker) : Prop :=
  m_worker_id w = i /\ store w [] /\ counters_ok w /\ m_latency_insertions w = None /\ m_latency_deletions w = None.

(** The master can report the time of [k] more operations. *)
Definition can_report (m : Aging2Master) (k : nat) : Prop :=
  let sh := m_shared m in
  0 <= m_num_operations_performed sh /\ m_num_operations_performed sh + Z.of_nat k < 2 ^ 63 /\
  reports_fit parameters (num_edges_final_graph m) (length (m_reported_times sh)) (Z.to_nat (m_num_operations_performed sh) + k).

(** [m'] has performed [k] operations more. *)
Definition performed (k : nat) (m m' : Aging2Master) : Prop :=
  num_edges_final_graph m' = num_edges_final_graph m /\
  length (m_reported_times (m_shared m')) = length (m_reported_times (m_shared m)) /\
  m_num_operations_performed (m_shared m') = m_num_operations_performed (m_shared m) + Z.of_nat k.

Lemma can_report_step m m' k k' : performed k m m' -> can_report m (k + k') -> can_report m' k'.
Proof.
  intros (E1 & E2 & E3) (H1' & H2' & H3'). unfold can_report. cbv zeta. rewrite E1, E2, E3. split; [lia|]. split; [lia|].
  replace (Z.to_nat (m_num_operations_performed (m_shared m) + Z.of_nat k) + k')%nat
    with (Z.to_nat (m_num_operations_performed (m_shared m)) + (k + k'))%nat by lia. done.
Qed.

Lemma can_report_le m k k' : can_report m k -> (k' <= k)%nat -> can_report m k'.
Proof.
  intros (H1' & H2' & H3') Hle. split; [done|]. split; [lia|]. intros x Hx. apply H3'. lia.
Qed.

(** Between two rounds the workers have nothing to do. *)
Record idle (s : Spec) (m : Aging2Master) : Prop := {
  id_library : represents (m_library (m_shared m)) s;
  id_symmetric : symmetric s;
  id_running : m_stop_experiment (m_shared m) = false;
  id_counters : length (m_num_operations (m_shared m)) = n /\ Forall is_u64 (m_num_operations (m_shared m));
  id_length : length (m_workers m) = n;
  id_workers : forall i w, m_workers m !! i = Some w -> worker_idle i w;
}.

Lemma workers_load_spec (Q : nat -> Aging2Worker -> Aging2Worker -> Prop) edges num_edges ws : forall k,
  (forall i w, ws !! i = Some w -> exists w', main_load_edges parameters hash w edges num_edges = Val w' /\ Q (k + i)%nat w w') ->
  exists ws', workers_load parameters hash ws edges num_edges = Val ws' /\ length ws' = length ws /\
    forall i w', ws' !! i = Some w' -> exists w, ws !! i = Some w /\ Q (k + i)%nat w w'.
Proof.
  induction ws as [|w ws IH]; intros k Hload; [by exists []|]. cbn [workers_load].
  destruct (Hload 0%nat w eq_refl) as (w' & -> & HQ). bind_val.
  destruct (IH (S k)) as (ws' & -> & Hlen & Hws').
  { intros i w0 Hi. destruct (Hload (S i) w0 Hi) as (w0' & Hl & HQ0). exists w0'. by rewrite Nat.add_succ_comm. }
  bind_val. exists (w' :: ws'). split; [done|]. split; [by simpl; rewrite Hlen|].
  intros [|i] w0' Hi; [injection Hi as <-; by exists w|].
  destruct (Hws' i w0' Hi) as (w0 & Hw0 & HQ0). exists w0. by rewrite <- Nat.add_succ_comm.
Qed.

(** The block as it is loaded: the worker [i] draws from the state of its own
    generator. *)
Definition round_log (m : Aging2Master) (log : list WeightedEdge) : list WeightedEdge :=
  weighted_log parameters hash (is_directed (m_library (m_shared m)))
    (fun i => from_option m_random 0%nat (m_workers m !! i)) log.

Lemma store_queue w vs : store w vs -> queue w vs.
Proof.
  intros (Hnd & Hvs & _). split; [done|]. eapply Forall2_impl; [exact Hvs|]. intros p v [Hv Hl]. split; [done|].
  pose proof last_max_sz_val. lia.
Qed.

Lemma block_edges_updates es : Forall update_ok es -> block_edges (block_bytes es) (length es) = update_edge <$> es.
Proof.
  intros Hok. apply list_eq. intros i. unfold block_edges. rewrite !list_lookup_fmap. destruct (es !! i) as [e|] eqn:He.
  - rewrite lookup_seq_lt by (by apply lookup_lt_Some in He). cbn [fmap option_fmap option_map]. f_equal.
    apply block_edge_at; [done|]. by apply (Forall_lookup_1 _ _ _ _ Hok He).
  - apply lookup_ge_None in He. by rewrite lookup_seq_ge.
Qed.

Lemma load_block_edges_spec s m es : idle s m -> Forall update_ok es -> Forall weight_ok (update_edge <$> es) ->
  exists m', load_block_edges parameters hash m (block_bytes es) (length es) = Val m' /\ m_shared m' = m_shared m /\
    m_latencies_num_insertions m' = m_latencies_num_insertions m /\ num_edges_final_graph m' = num_edges_final_graph m /\
    length (m_workers m') = n /\ forall i w', m_workers m' !! i = Some w' ->
      m_worker_id w' = i /\ counters_ok w' /\ m_latency_insertions w' = None /\ m_latency_deletions w' = None /\
      exists vs, store w' vs /\ concat vs = mine (is_directed (m_library (m_shared m))) own i (round_log m (update_edge <$> es)).
Proof.
  intros HI Hok Hw. set (directed := is_directed (m_library (m_shared m))).
  pose proof (block_edges_updates es Hok) as Hedges.
  destruct (workers_load_spec (fun i w w' => exists vs', loaded parameters w w' [] vs' (mine directed own i (update_edge <$> es)))
    (block_bytes es) (length es) (m_workers m) 0) as (ws' & Hload & Hlen & Hws').
  { intros i w Hi. destruct (id_workers _ _ HI i w Hi) as (Hid & Hst & Hc & _). rewrite <- Hedges.
    destruct (main_load_edges_spec parameters hash (pp_max_weight P) (pp_threads P) directed w [] (block_bytes es) (length es) Hst Hc) as (w' & vs' & Hl & Hld).
    - by rewrite Hedges.
    - exists w'. split; [done|]. exists vs'. rewrite Hid in Hld. done. }
  unfold load_block_edges. rewrite Hload. bind_val. cbv zeta.
  set (m' := if _ =? 0 then _ else _). exists m'. split; [done|].
  assert (m_shared m' = m_shared m /\ m_latencies_num_insertions m' = m_latencies_num_insertions m /\ m_workers m' = ws' /\
    num_edges_final_graph m' = num_edges_final_graph m) as (E1 & E2 & E3 & E4).
  { unfold m', set_random_vertex_id. destruct (_ =? 0); [|done]. by destruct (first_positive _). }
  rewrite E1, E2, E3. split; [done|]. split; [done|]. split; [done|]. split; [rewrite Hlen; apply HI|].
  intros i w' Hi. destruct (Hws' i w' Hi) as (w & Hw0 & vs' & Hst & Hc & _ & (Hid & Hli & Hld & _) & Hok').
  destruct (id_workers _ _ HI i w Hw0) as (Hidw & _ & _ & Hlw & Hdw). rewrite Hid, Hli, Hld. split_and?; try done.
  exists vs'. split; [done|]. rewrite Hc. unfold round_log. rewrite mine_weighted. fold directed. by rewrite Hw0.
Qed.

Lemma foldl_delete_subset {V} (ps : list nat) (m : gmap nat V) p : is_Some (foldl (fun m p => delete p m) m ps !! p) -> is_Some (m !! p).
Proof.
  revert m. induction ps as [|q ps IH]; intros m; [done|]. cbn [foldl]. intros Hp. apply IH in Hp as [v Hv].
  apply lookup_delete_Some in Hv as [_ Hv]. by exists v.
Qed.

Lemma main_done_idle i cap w w' vs : worker_idle i w \/ (m_worker_id w = i /\ store w vs /\ counters_ok w) ->
  main_done parameters cap w [] w' -> worker_idle i w'.
Proof.
  intros Hw (Hid & Hn & Hi & Hd & Hm & He & Hv). unfold can_measure in Hm. rewrite (pp_latency P) in Hm.
  assert (m_worker_id w = i /\ counters_ok w /\ forall p, is_Some (m_vectors w !! p) -> (p < m_next_vector w)%nat) as (Hid' & Hc & Hfresh).
  { destruct Hw as [(? & (_ & _ & ?) & ? & _)|(? & (_ & _ & ?) & ?)]; done. }
  split; [congruence|]. split; [|split; [|done]].
  - unfold store. rewrite He. split; [constructor|]. split; [constructor|]. intros p Hp. rewrite Hn. apply Hfresh. rewrite Hv in Hp.
    destruct (m_release_driver_memory parameters); [by eapply foldl_delete_subset|done].
  - unfold counters_ok in *. by rewrite Hi, Hd.
Qed.

Lemma finished_ret (ws : list Aging2Worker) : finished (Ret <$> ws : list (prog answer Aging2Worker)) = Some ws.
Proof. induction ws as [|w ws IH]; [done|]. cbn [fmap list_fmap finished]. by rewrite IH. Qed.

Lemma sofar_sum l : forall a, is_u64 a -> foldl (fun total x => u64 (total + x)) a l = u64 (a + foldr Z.add 0 l).
Proof.
  induction l as [|x l IH]; intros a Ha; cbn [foldl foldr]; [by rewrite Z.add_0_r, u64_id|].
  rewrite IH by apply u64_range. unfold u64. rewrite Zplus_mod_idemp_l. f_equal. lia.
Qed.

Lemma counters_sum (f : nat -> nat) num0 : forall num1 k, length num1 = length num0 ->
  (forall i, (i < length num0)%nat -> num1 !! i = Some (u64 (default 0 (num0 !! i) + Z.of_nat (f (k + i)%nat)))) ->
  u64 (foldr Z.add 0 num1) = u64 (foldr Z.add 0 num0 + Z.of_nat (sum_list_with f (seq k (length num0)))).
Proof.
  induction num0 as [|x num0 IH]; intros [|y num1] k Hlen Hnum; try done.
  pose proof (Hnum 0%nat ltac:(simpl; lia)) as [= Hy]. rewrite Nat.add_0_r in Hy.
  cbn [length foldr seq sum_list_with]. unfold u64 in *. rewrite <- Zplus_mod_idemp_r, (IH num1 (S k)).
  - rewrite Zplus_mod_idemp_r, Hy, Zplus_mod_idemp_l. f_equal. lia.
  - simpl in Hlen. lia.
  - intros i Hi. rewrite (Nat.add_succ_comm k i). apply (Hnum (S i)). simpl. lia.
Qed.

(** The workers are ready to execute a block. *)
Lemma round_begins s m es : idle s m -> Forall update_ok es -> Forall weight_ok (update_edge <$> es) ->
  valid_log s (update_edge <$> es) -> room s (length es) -> can_report m (length es) ->
  let log' := round_log m (update_edge <$> es) in
  exists m1, load_block_edges parameters hash m (block_bytes es) (length es) = Val m1 /\ m_shared m1 = m_shared m /\
    num_edges_final_graph m1 = num_edges_final_graph m /\ Forall2 (reweighted parameters) (update_edge <$> es) log' /\
    begins parameters (num_edges_final_graph m) (is_directed (m_library (m_shared m))) (length (m_latencies (m_shared m))) n own s log'
      (start_run clock (m_shared m)) (m_workers m1) /\
    forall i w, m_workers m1 !! i = Some w -> m_worker_id w = i /\ counters_ok w /\ exists vs, store w vs.
Proof.
  intros HI Hok Hw Hvalid Hroom (Hp1 & Hp2 & Hp3) log'.
  destruct (load_block_edges_spec s m es HI Hok Hw) as (m1 & Hload & Hsh & _ & Hedges & Hlen & Hws).
  set (directed := is_directed (m_library (m_shared m))) in *. fold log' in Hws.
  assert (Forall2 (reweighted parameters) (update_edge <$> es) log') as Hre by apply weighted_log_reweighted, P.
  assert (length log' = length es) as Hlen' by (apply Forall2_length in Hre; rewrite length_fmap in Hre; done).
  exists m1. split; [done|]. split; [done|]. split; [done|]. split; [done|]. split.
  - destruct HI as [Hlib Hsym Hrun [Hc1 Hc2] _ _]. split; try done.
    + intros p. apply own_bound, P.
    + apply P.
    + by rewrite <- (represents_directed _ _ Hlib).
    + eapply same_kind_valid; [done| |exact Hvalid]. eapply Forall2_impl; [exact Hre|]. intros e e' He. by eapply reweighted_kind.
    + by rewrite Hlen'.
    + by rewrite Hlen'.
    + cbn. lia.
    + unfold performed_limit. rewrite Hlen'. done.
    + split; [done|]. intros i w Hi. destruct (Hws i w Hi) as (Hid & _ & Hli & Hld & vs & Hst & Hc). split; [done|].
      exists vs. split; [by apply store_queue|]. split; [done|]. unfold can_measure. by rewrite (pp_latency P).
  - intros i w Hi. destruct (Hws i w Hi) as (Hid & Hc & _ & _ & vs & Hst & _). split; [done|split; [done|by exists vs]].
Qed.

(** A round: the block is loaded and executed. *)
Lemma aging_round_spec s m es (schedule : list nat) tries : idle s m -> Forall update_ok es -> Forall weight_ok (update_edge <$> es) ->
  valid_log s (update_edge <$> es) -> room s (length es) -> can_report m (length es) -> (0 < tries)%nat ->
  let log' := round_log m (update_edge <$> es) in
  enough_turns (is_directed (m_library (m_shared m))) n own log' (Run <$> schedule : list (turn Event)) ->
  exists m1 m2, load_block_edges parameters hash m (block_bytes es) (length es) = Val m1 /\
    settles (fun fuel => do_run_experiment parameters add_edge_v3 clock m1 (Run <$> schedule) tries fuel) (Val m2) /\
    idle (after_log s log') m2 /\ num_operations_sofar m2 = u64 (num_operations_sofar m + Z.of_nat (length es)) /\
    performed (length es) m m2.
Proof.
  intros HI Hok Hw Hvalid Hroom Hcan Htries log' Hturns.
  destruct (round_begins s m es HI Hok Hw Hvalid Hroom Hcan) as (m1 & Hload & Hsh & Hfinal & Hre & B & Hws). fold log' in Hre, B.
  assert (length log' = length es) as Hlen' by (apply Forall2_length in Hre; rewrite length_fmap in Hre; done).
  set (directed := is_directed (m_library (m_shared m))) in *. rewrite <- Hsh in B.
  rewrite <- Hfinal in B.
  destruct (updates_settle add_edge_v3 clock parameters (num_edges_final_graph m1) directed (length (m_latencies (m_shared m1))) n own s log'
    (start_run clock (m_shared m1)) (m_workers m1) tries schedule B Htries Hturns)
    as (sh' & ws' & Hrun & Hlib' & Hlws & Hdone & Hstop & Hlnum & Hcount & Hperf & Htimes & Hlast & _).
  rewrite Hsh in Hrun, Hcount, Hperf, Htimes.
  exists m1, (set_workers (set_shared m1 sh') ws'). split; [done|]. split; [|split; [|split]].
  - destruct Hrun as [N HN]. exists N. intros fuel Hf. unfold do_run_experiment. rewrite Hsh. fold directed. rewrite HN by done.
    bind_val. cbv beta iota. by rewrite finished_ret.
  - split; cbn [set_workers set_shared m_shared m_workers]; try done.
    + apply after_log_symmetric; [apply HI|apply B].
    + split; [done|]. apply Forall_lookup. intros i x Hi. rewrite Hcount in Hi by (apply lookup_lt_Some in Hi; lia).
      injection Hi as <-. apply u64_range.
    + intros i w' Hi. destruct (Hdone i w' Hi) as (w & Hw0 & Hmd).
      destruct (Hws i w Hw0) as (Hid & Hc & vs & Hst). eapply main_done_idle; [right; by split_and?|exact Hmd].
  - unfold num_operations_sofar. cbn [set_workers set_shared m_shared]. rewrite !sofar_sum by (unfold is_u64; lia). rewrite !Z.add_0_l.
    destruct (id_counters _ _ HI) as [Hl0 _].
    rewrite (counters_sum (fun i => length (mine directed own i log')) (m_num_operations (m_shared m)) (m_num_operations sh') 0).
    + rewrite Hl0, mine_total by (intros p; apply own_bound, P). rewrite Hlen'. unfold u64. by rewrite Zplus_mod_idemp_l.
    + congruence.
    + intros i Hi. apply Hcount. lia.
  - split; [done|]. split; [done|]. rewrite Hlen' in Hperf. done.
Qed.

(** ** All rounds *)

Lemma mine_reweighted directed i log log' : Forall2 (reweighted parameters) log log' ->
  length (mine directed own i log') = length (mine directed own i log).
Proof.
  induction 1 as [|e e' log log' [He _] _ IH]; [done|]. unfold mine in *. rewrite !filter_cons.
  assert (owner directed own e' = owner directed own e) as -> by (unfold owner, ends, wsource, wdestination; by rewrite He).
  destruct (decide _); simpl; by rewrite IH.
Qed.

(** What the loader delivers next. *)
Definition next_block (content : list Z) (pos : nat) (blocks : list (list Z * list (Z * Z * Z))) : nat * list Z * bstream :=
  match blocks with
  | [] => (0%nat, [], at_pos content (length content))
  | b :: _ => (length b.2, block_bytes b.2, at_pos content (pos + length b.1))
  end.

Lemma load_next_spec content pos blocks array_sz : Forall (compressed_block (Z.to_nat (array_sz / 3))) blocks ->
  drop pos content = blocks ≫= fst -> (pos <= length content)%nat ->
  load_next (at_pos content pos) array_sz = Val (next_block content pos blocks).
Proof.
  intros Hb Hdrop Hpos. unfold load_next. destruct blocks as [|b blocks].
  - assert (pos = length content) as ->; [|apply load_written_end].
    apply (f_equal length) in Hdrop. rewrite length_drop in Hdrop. simpl in Hdrop. lia.
  - apply Forall_cons in Hb as [Hb _]. by apply (load_written_spec content pos _ b (blocks ≫= fst)).
Qed.

Lemma block_nonempty max b : compressed_block max b -> (length b.2 =? 0)%nat = false.
Proof. intros (_ & _ & Hne & _). destruct b.2; [done|]. by apply Nat.eqb_neq. Qed.

Definition block_log (blocks : list (list Z * list (Z * Z * Z))) : list WeightedEdge := update_edge <$> (blocks ≫= snd).

(** What a sequence of rounds has done. *)
Definition executed (s : Spec) (m : Aging2Master) (log : list WeightedEdge) (m' : Aging2Master) : Prop :=
  exists log', Forall2 (reweighted parameters) log log' /\ idle (after_log s log') m' /\
    num_operations_sofar m' = u64 (num_operations_sofar m + Z.of_nat (length log)) /\
    m_num_operations_performed (m_shared m') = m_num_operations_performed (m_shared m) + Z.of_nat (length log).

Lemma executed_trans s m log1 log1' m1 log2 m2 : Forall2 (reweighted parameters) log1 log1' ->
  num_operations_sofar m1 = u64 (num_operations_sofar m + Z.of_nat (length log1)) ->
  performed (length log1) m m1 -> executed (after_log s log1') m1 log2 m2 -> executed s m (log1 ++ log2) m2.
Proof.
  intros Hre Hn (_ & _ & Hp) (log2' & Hre2 & Hidle & Hn2 & Hp2). exists (log1' ++ log2'). split; [by apply Forall2_app|].
  rewrite after_log_app. split; [done|]. split; [|rewrite Hp2, Hp, length_app; lia].
  rewrite Hn2, Hn, length_app. unfold u64. rewrite Zplus_mod_idemp_l. f_equal. lia.
Qed.

Lemma reweighted_valid s log log' rest : symmetric s -> Forall2 (reweighted parameters) log log' -> valid_log s (log ++ rest) ->
  valid_log (after_log s log') rest.
Proof.
  intros Hs Hre Hv. apply (same_kind_valid s (log ++ rest) (log' ++ rest)) in Hv; [|done|].
  - by apply valid_log_app in Hv as [_ Hv].
  - apply Forall2_app.
    + eapply Forall2_impl; [exact Hre|]. intros e e' He. by eapply reweighted_kind.
    + apply Forall_Forall2_diag, Forall_forall. by intros e _.
Qed.

(** One round of the loop. *)
Lemma small_batch_loop_round m m1 m2 handle handle' array_sz num_edges num_edges' array array' ops schedules tries round rounds fuel r :
  (num_edges =? 0)%nat = false -> load_block_edges parameters hash m array num_edges = Val m1 ->
  load_next handle array_sz = Val (num_edges', array', handle') ->
  do_run_experiment parameters add_edge_v3 clock m1 (schedules round) tries fuel = Val m2 ->
  small_batch_loop parameters hash add_edge_v3 clock uninitialised false m2 handle' array_sz num_edges' array'
    (u64 (ops + Z.of_nat num_edges)) schedules tries (S round) rounds fuel = r ->
  small_batch_loop parameters hash add_edge_v3 clock uninitialised false m handle array_sz num_edges array ops schedules tries
    round (S rounds) fuel = r.
Proof.
  intros Hne Hload Hnext Hrun Hrest. cbn [small_batch_loop]. rewrite Hne, Hload, res_bind_Val_l, Hnext, res_bind_Val_l.
  cbv beta iota. rewrite (pp_latency P), res_bind_Val_l, Hrun, res_bind_Val_l. exact Hrest.
Qed.

Lemma small_batch_loop_spec content array_sz directed tries (schedules : nat -> list nat) blocks : (0 < tries)%nat ->
  Forall (compressed_block (Z.to_nat (array_sz / 3))) blocks -> Forall (fun b => Forall weight_ok (update_edge <$> b.2)) blocks ->
  forall s m pos executed_operations round rounds, idle s m -> spec_directed s = directed ->
  drop pos content = blocks ≫= fst -> (pos <= length content)%nat -> valid_log s (block_log blocks) ->
  room s (length (block_log blocks)) -> can_report m (length (block_log blocks)) -> (length blocks <= rounds)%nat ->
  (forall k b, blocks !! k = Some b ->
     enough_turns directed n own (update_edge <$> b.2) (Run <$> schedules (round + k)%nat : list (turn Event))) ->
  exists m', settles (fun fuel => let '(num_edges, array, handle) := next_block content pos blocks in
      small_batch_loop parameters hash add_edge_v3 clock uninitialised false m handle array_sz num_edges array executed_operations
        (fun k => Run <$> schedules k) tries round rounds fuel) (Val m') /\
    executed s m (block_log blocks) m'.
Proof.
  intros Htries Hblocks Hweights. induction blocks as [|b blocks IH];
    intros s m pos ops round rounds HI Hdir Hdrop Hpos Hvalid Hroom Hcan Hrounds Hturns.
  { exists m. split; [exists 0%nat; by intros []; destruct rounds|]. exists []. split; [constructor|]. split; [done|].
    cbn [block_log length]. split; [|simpl; lia]. unfold num_operations_sofar. rewrite sofar_sum by (unfold is_u64; lia).
    unfold u64. rewrite Z.add_0_r, Z.mod_mod by done. done. }
  apply Forall_cons in Hblocks as [Hb Hblocks]. apply Forall_cons in Hweights as [Hw Hweights].
  destruct rounds as [|rounds]; [simpl in Hrounds; lia|]. unfold block_log in *. cbn [mbind list_bind] in Hdrop, Hvalid, Hroom, Hcan |- *.
  rewrite fmap_app in Hvalid, Hroom, Hcan |- *. rewrite length_app in Hroom, Hcan.
  assert (room s (length b.2)) as Hroom_b by (eapply room_mono; [exact Hroom|]; rewrite length_fmap; lia).
  assert (valid_log s (update_edge <$> b.2)) as Hvalid_b by (by apply valid_log_app in Hvalid as [? _]).
  pose proof (represents_directed _ _ (id_library _ _ HI)) as Hdm. rewrite Hdir in Hdm.
  assert (Forall2 (reweighted parameters) (update_edge <$> b.2) (round_log m (update_edge <$> b.2))) as Hre
    by apply weighted_log_reweighted, P.
  rewrite length_fmap in Hcan at 1.
  destruct (aging_round_spec s m b.2 (schedules round) tries) as (m1 & m2 & Hload & Hrun & HI2 & Hn2 & Hp2); try done.
  { apply Hb. }
  { eapply can_report_le; [exact Hcan|lia]. }
  { rewrite Hdm. intros i Hi. rewrite (mine_reweighted _ _ _ _ Hre). specialize (Hturns 0%nat b eq_refl i Hi). by rewrite Nat.add_0_r in Hturns. }
  assert (pos + length b.1 <= length content)%nat as Hpos'.
  { apply (f_equal length) in Hdrop. rewrite length_drop, length_app in Hdrop. lia. }
  assert (drop (pos + length b.1) content = blocks ≫= fst) as Hdrop' by (rewrite <- drop_drop, Hdrop; apply drop_app_length).
  set (s2 := after_log s (round_log m (update_edge <$> b.2))) in *.
  assert (room s2 (length (update_edge <$> (blocks ≫= snd)))) as Hroom2.
  { apply room_log. rewrite <- (Forall2_length _ _ _ Hre). exact Hroom. }
  assert (valid_log s2 (update_edge <$> (blocks ≫= snd))) as Hvalid2
    by (eapply reweighted_valid; [apply HI|exact Hre|exact Hvalid]).
  assert (length blocks <= rounds)%nat as Hrounds2 by (simpl in Hrounds; lia).
  destruct (IH Hblocks Hweights s2 m2 (pos + length b.1)%nat (u64 (ops + Z.of_nat (length b.2))) (S round) rounds HI2) as (m' & Hloop & Hex); try done.
  { unfold s2. by rewrite after_log_directed. }
  { by eapply can_report_step. }
  { intros k b' Hk. rewrite Nat.add_succ_comm. by apply (Hturns (S k)). }
  exists m'. split; [|eapply executed_trans; [exact Hre| | |exact Hex]; by rewrite length_fmap].
  destruct Hrun as [N1 HN1], Hloop as [N2 HN2]. exists (N1 `max` N2)%nat. intros fuel Hf. cbn [next_block small_batch_loop].
  pose proof (load_next_spec content (pos + length b.1) blocks array_sz Hblocks Hdrop' Hpos') as Hnext. specialize (HN2 fuel ltac:(lia)).
  destruct (next_block content (pos + length b.1) blocks) as [[num' array'] handle'].
  by apply (small_batch_loop_round m m1 m2 (at_pos content (pos + length b.1)) handle' array_sz (length b.2) num' (block_bytes b.2) array'); [by apply (block_nonempty _ _ Hb)|done|done|apply HN1; lia|].
Qed.

Lemma new_worker_idle i k : worker_idle i (Aging2Worker_new i k).
Proof.
  split; [done|]. split; [|by split_and?]. unfold store. cbn [Aging2Worker_new m_updates m_vectors]. rewrite ca_elems_empty.
  split; [constructor|split; [constructor|]]. intros p. rewrite lookup_empty. by intros [].
Qed.

Lemma master_new_idle library s m : represents library s -> symmetric s ->
  Aging2Master_new parameters file_system seed library = Val m -> idle s m /\ num_operations_sofar m = 0 /\
  m_num_operations_performed (m_shared m) = 0.
Proof.
  intros R Hsym. unfold Aging2Master_new. intros Hnew.
  repeat (apply res_bind_val in Hnew as (? & _ & Hnew)). injection Hnew as <-. split; [|split; [|done]].
  - split; cbn [m_shared m_library m_stop_experiment m_num_operations m_workers]; try done.
    + split; [apply length_replicate|]. apply Forall_replicate. unfold is_u64. lia.
    + by rewrite length_fmap, length_seq.
    + intros i w Hi. rewrite list_lookup_fmap in Hi. destruct (seq 0 n !! i) as [j|] eqn:Hj; [|done].
      apply lookup_seq in Hj as [-> _]. injection Hi as <-. apply new_worker_idle.
  - unfold num_operations_sofar. cbn [m_shared m_num_operations]. induction n as [|k IH]; [done|]. exact IH.
Qed.

Lemma workers_delete_idle ws : forall k, (forall i w, ws !! i = Some w -> worker_idle (k + i) w) -> workers_delete ws = Val ws.
Proof.
  induction ws as [|w ws IH]; intros k Hi; [done|]. cbn [workers_delete]. destruct (Hi 0%nat w eq_refl) as (_ & (_ & Hst & _) & _).
  unfold Aging2Worker_delete. rewrite ca_size_elems. apply Forall2_nil_inv_r in Hst. rewrite Hst. cbn [length free_updates]. bind_val.
  rewrite (IH (S k)); [done|]. intros i w' Hw'. rewrite Nat.add_succ_comm. by apply (Hi (S i)).
Qed.

(** The log is opened at the first of its blocks. *)
Lemma open_log_val file properties array_sz pos : log_file parameters file_system = Some file ->
  parse_properties (Some file) = Val properties -> property properties (text_of "internal.edges.block_size") = Val array_sz ->
  properties !! text_of "internal.edges.begin" = Some (print_nat (Z.of_nat pos)) ->
  (pos <= length file)%nat -> Z.of_nat (length file) < 2 ^ 64 ->
  open_log parameters file_system = Val (at_pos (code <$> file) pos, array_sz).
Proof.
  intros Hfile Hprops Hsize Hbegin Hpos Hlen. unfold open_log. rewrite Hfile, Hprops, res_bind_Val_l, Hsize, res_bind_Val_l.
  unfold set_marker. change (section_key EDGES) with (text_of "internal.edges.begin"). rewrite Hbegin.
  rewrite stoull_number by (unfold is_u64; lia). rewrite !res_bind_Val_l. cbn [file_bytes]. change (default [] (Some ?x)) with x.
  unfold seekg, b_clear, b_open. cbn [b_fail b_content]. by rewrite Nat2Z.id.
Qed.

End rounds.

(** ** Example

    Two workers, on the reference implementation. *)

Definition ex_aging_header : text := text_of "# GRAPHLOG
internal.vertices.temporary.cardinality = 0
internal.vertices.final.cardinality = 4
internal.edges.final = 2
internal.edges.cardinality = 4
internal.edges.block_size = 72
internal.edges.begin=232
__BINARY_SECTION_FOLLOWS
".

(** A weight of zero, and a deletion. *)
Definition ex_aging_updates : list (list (Z * Z * Z)) :=
  [[(1, 2, 4607182418800017408); (3, 5, 0); (2, 3, 4607182418800017408)]; [(1, 2, 13830554455654793216)]].

Definition ex_aging_blocks : list (list Z * list (Z * Z * Z)) := (fun es => (stored (block_bytes es), es)) <$> ex_aging_updates.

Definition ex_aging_file : text := ex_aging_header ++ ((fun b => ascii_of_N (Z.to_N b)) <$> (ex_aging_blocks ≫= fst)).

Definition ex_parameters (release : bool) : Aging2Experiment :=
  mkAging2Experiment (Some (text_of "log")) 2 4096 d_one 0 false false 0 release false false 1 false 0 0.

Definition ex_schedule (k : nat) : list nat := concat (replicate 40 [0; 1]%nat).

Definition ex_files (path : text) : option text := Some ex_aging_file.

Definition ex_aging_properties : Properties :=
  match parse_properties (Some ex_aging_file) with Val properties => properties | _ => ∅ end.

Lemma ex_aging_parsed : parse_properties (Some ex_aging_file) = Val ex_aging_properties.
Proof.
  assert (match parse_properties (Some ex_aging_file) with Val _ => true | _ => false end = true) as E by by vm_compute.
  unfold ex_aging_properties. by destruct (parse_properties (Some ex_aging_file)).
Qed.

(** The master on a new reference implementation. *)
Definition ex_master (release is_directed : bool) :=
  @Aging2Master_new list_array stable_interface (ex_parameters release) ex_files (fun i => i)
    (@AdjList.AdjacencyList_new AdjList.stable_table is_directed false).

Lemma ex_block_compressed es : es <> [] -> bool_decide (Forall update_ok es) = true -> (length es <? 24)%nat = true ->
  @compressed_block stored_zlib stored_laws 24 (stored (block_bytes es), es).
Proof. intros Hne Hok%bool_decide_eq_true Hle%Nat.ltb_lt. split_and!; try done; cbn [fst snd]; [lia|by left]. Qed.

#[export] Instance weight_ok_dec e : Decision (weight_ok e).
Proof. unfold weight_ok. apply _. Defined.

Lemma ex_plain release : plain_parameters (ex_parameters release).
Proof. split; done. Qed.


(** The workers of the example, ready for the first block. *)
Definition ex_first_block : list (Z * Z * Z) := [(1, 2, 4607182418800017408); (3, 5, 0); (2, 3, 4607182418800017408)].

Definition ex_own : Z * Z -> nat := own (ex_parameters true) (fun z => z).

Definition ex_first_log : list WeightedEdge :=
  [mkWeightedEdge (mkEdge 1 2) d_one; mkWeightedEdge (mkEdge 3 5) d_one; mkWeightedEdge (mkEdge 2 3) d_one].

Lemma ex_begins : exists sh ws,
  @begins list_array list_array_laws stable_interface stable_contract
    (ex_parameters true) 2 false 0 2 ex_own (spec_new false) ex_first_log sh ws.
Proof.
  assert (match ex_master true false with
          | Val m => bool_decide (@round_log list_array const_random stable_interface (ex_parameters true) (fun z => z) m
                                    (update_edge <$> ex_first_block) = ex_first_log) &&
                     bool_decide (m_latencies (m_shared m) = []) && negb (is_directed (m_library (m_shared m))) &&
                     (num_edges_final_graph m =? 2) && (m_num_operations_performed (m_shared m) =? 0) &&
                     check_reports (ex_parameters true) (num_edges_final_graph m) (length (m_reported_times (m_shared m))) 3
          | _ => false end = true) as E by by vm_compute.
  destruct (ex_master true false) as [m0| | |] eqn:Hm0; [|discriminate E..].
  apply andb_true_iff in E as [[[[[E1%bool_decide_eq_true E2%bool_decide_eq_true]%andb_true_iff E3%negb_true_iff]%andb_true_iff
    E4%Z.eqb_eq]%andb_true_iff E5%Z.eqb_eq]%andb_true_iff E6].
  destruct (@master_new_idle list_array list_array_laws stable_interface stable_contract (ex_parameters true)
    ex_files (fun i => i) (@AdjList.AdjacencyList_new AdjList.stable_table false false) (spec_new false) m0) as (HI & _); [apply repr_new|by intros _ x y|exact Hm0|].
  destruct (@round_begins list_array list_array_laws const_random stable_interface stable_contract
    (ex_parameters true) (fun z => z) (fun _ => 0) (ex_plain true) (spec_new false) m0 ex_first_block HI) as (m1 & _ & _ & _ & _ & B & _).
  - apply (bool_decide_unpack (Forall update_ok ex_first_block)). by vm_compute.
  - apply (bool_decide_unpack (Forall weight_ok _)). by vm_compute.
  - apply (bool_decide_unpack (valid_log (spec_new false) (update_edge <$> ex_first_block))). by vm_compute.
  - apply room_new. by vm_compute.
  - unfold can_report. rewrite E5. split; [lia|]. split; [by vm_compute|]. by apply check_reports_fit.
  - exists (start_run (fun _ => 0) (m_shared m0)), (m_workers m1). rewrite E1, E2, E3, E4 in B. exact B.
Qed.

Lemma ex_turns (schedule : list (turn Event)) : (forall i, (i < 2)%nat -> (22 < turns i schedule)%nat) ->
  enough_turns false 2 ex_own ex_first_log schedule.
Proof.
  intros Hturns i Hi. specialize (Hturns i Hi).
  assert (11 * length (mine false ex_own i ex_first_log) <= 22)%nat; [|lia].
  destruct i as [|[|i]]; [apply Nat.leb_le; by vm_compute..|lia].
Qed.

Lemma aging_updates_correct_witness : exists sh ws sh' ws',
  settles (run_pool (@exec stable_interface (fun d _ _ => Val (false, d)) (fun _ => 0)) interfere
      (sh, @worker_threads list_array const_random (ex_parameters true) 2 false ws 1)
      (Run <$> ex_schedule 0)) (Val (sh', Ret <$> ws')) /\
  @represents _ stable_contract (m_library sh') (after_log (spec_new false) ex_first_log).
Proof.
  destruct ex_begins as (sh & ws & B). exists sh, ws.
  destruct (@aging_updates_correct list_array list_array_laws const_random stable_interface stable_contract
    adjacency_list_log (fun d _ _ => Val (false, d)) (fun _ => 0) (ex_parameters true) 2 false 0 2 ex_own (spec_new false)
    ex_first_log sh ws 1 (ex_schedule 0) B) as (sh' & ws' & Hrun & R & _).
  - lia.
  - apply ex_turns. intros [|[|i]] Hi; [apply Nat.ltb_lt; by vm_compute..|lia].
  - by exists sh', ws'.
Defined.

(** The flag is raised after the first turns. *)
Definition ex_stopped_schedule : list (turn Event) := (Run <$> [0; 1; 0]%nat) ++ Env RequestStop :: (Run <$> ex_schedule 0).

Lemma aging_stop_prefix_witness : exists sh ws sh' threads' t,
  settles (run_pool (@exec stable_interface (fun d _ _ => Val (false, d)) (fun _ => 0)) interfere
      (sh, @worker_threads list_array const_random (ex_parameters true) 2 false ws 1)
      ex_stopped_schedule) (Val (sh', threads')) /\
  @represents _ stable_contract (m_library sh') (after_log (spec_new false) t) /\ valid_log (spec_new false) t /\
  exists ws', threads' = Ret <$> ws'.
Proof.
  destruct ex_begins as (sh & ws & B). exists sh, ws.
  destruct (@aging_stop_prefix list_array list_array_laws const_random stable_interface stable_contract
    adjacency_list_log (fun d _ _ => Val (false, d)) (fun _ => 0) (ex_parameters true) 2 false 0 2 ex_own (spec_new false)
    ex_first_log sh ws 1 ex_stopped_schedule B) as (sh' & threads' & t & rs & Hrun & R & Hv & _ & Hend).
  - lia.
  - exists sh', threads', t. split; [done|split; [done|split; [done|]]]. destruct Hend as ((ws' & ->) & _); [|by exists ws'].
    apply ex_turns. intros [|[|i]] Hi; [apply Nat.ltb_lt; by vm_compute..|lia].
Defined.
