(* ===== verification/Aging2Vertices.v ===== *)
(** The end of the aging experiment: the workers remove the vertices of the log that
    are not part of the final graph ([Aging2Master::remove_vertices]). *)

From S2P Require Import Prelude Doubles CByteArray Text Edge Readers Zlib GraphalyticsReader Graphlog GraphlogVertices AdjList Threads Interface UpdateLog Aging2Worker Aging2Run Aging2Load Aging2Master.

Definition set_artificial (r : Aging2Result) (n : Z) : Aging2Result :=
  mkAging2Result n (m_num_vertices_load r) (m_num_edges_load r) (m_num_operations_total r) (m_random_vertex_id r)
    (m_num_vertices_final_graph r) (m_num_edges_final_graph r).

Section master.
Context `{CircularArray, UpdateInterface, Zlib}.
Context (parameters : Aging2Experiment) (add_edge_v3 : Impl -> WeightedEdge -> nat -> res (bool * Impl)) (clock : nat -> Z).
Context (file_system : text -> option text).

(** The array of the temporary vertices, of the size that the log announces. The
    loader is called once: what it does not write keeps the content of the new
    memory, [uninitialised]; [memory] is the buffer of the loader. *)
Definition temporary_vertices (memory : list Z) (uninitialised : nat -> Z) : res (list Z) :=
  properties ← parse_properties (log_file parameters file_system);
  num_vertices ← property properties (text_of "internal.vertices.temporary.cardinality");
  handle ← set_marker properties (b_open (default [] (file_bytes (log_file parameters file_system)))) VTX_TEMP;
  '(_, bytes, _) ← VertexLoader_load (VertexLoader_new handle memory) (Z.to_nat num_vertices);
  Val ((fun i => if (i <? length bytes / 8)%nat then word bytes i else uninitialised i) <$> seq 0 (Z.to_nat num_vertices)).

Definition removal_threads (ws : list Aging2Worker) (vertices : list Z) : list (prog answer Aging2Worker) :=
  (fun w => main_remove_vertices parameters w vertices) <$> ws.

(** The threads of the workers run under [schedule]; the master waits for all. *)
Definition remove_vertices (m : Aging2Master) (memory : list Z) (uninitialised : nat -> Z) (schedule : list (turn Event))
    (fuel : nat) : res Aging2Master :=
  vertices ← temporary_vertices memory uninitialised;
  let m := set_results m (set_artificial (m_results m) (Z.of_nat (length vertices))) in
  '(sh, threads) ← run_pool (exec add_edge_v3 clock) interfere (m_shared m, removal_threads (m_workers m) vertices) schedule fuel;
  match finished threads with
  | Some ws => Val (set_workers (set_shared m sh) ws)
  | None => NoFuel
  end.
End master.

(** ** What is removed *)

(** An implementation that removes vertices without edges. *)
Class RemovalContract `{UpdateContract} :=
  admits_removal : forall s v, isolated s v -> admits s (URemoveVertex v).

Lemma adjacency_list_removal : @RemovalContract stable_interface stable_contract.
Proof. by intros s v. Qed.

(** The graph without some vertices. *)
Definition without (s : Spec) (vs : gset Z) : Spec := mkSpec (spec_directed s) (spec_vertices s ∖ vs) (spec_arcs s).

Lemma without_empty s : without s ∅ = s.
Proof. unfold without. rewrite difference_empty_L. by destruct s. Qed.

Lemma without_remove s vs v : spec_remove_vertex (without s vs) v = without s ({[v]} ∪ vs).
Proof. unfold spec_remove_vertex, without. cbn [spec_directed spec_vertices spec_arcs]. f_equal. set_solver. Qed.

Section removal.
Context `{CircularArray, RemovalContract}.
Context (parameters : Aging2Experiment) (add_edge_v3 : Impl -> WeightedEdge -> nat -> res (bool * Impl)) (clock : nat -> Z).
Context (Hthreads : 0 < m_num_threads parameters < 2 ^ 31).

Local Notation n := (Z.to_nat (m_num_threads parameters)).

(** The worker that removes a vertex. *)
Definition remover (v : Z) : nat := Z.to_nat (v mod m_num_threads parameters).

Lemma remover_bound v : (remover v < n)%nat.
Proof. unfold remover. pose proof (Z.mod_pos_bound v (m_num_threads parameters)). lia. Qed.

Definition removes (i : nat) (vertices : list Z) : list Z := filter (fun v => remover v = i) vertices.

(** The next operation of a worker removes the first of its vertices. *)
Lemma main_remove_step w vertices :
  match removes (m_worker_id w) vertices with
  | [] => main_remove_vertices parameters w vertices = Ret w
  | v :: vs => exists rest, removes (m_worker_id w) rest = vs /\ v ∈ vertices /\ rest ⊆ vertices /\
      main_remove_vertices parameters w vertices = Do (Call (URemoveVertex v)) (fun _ => main_remove_vertices parameters w rest)
  end.
Proof.
  induction vertices as [|v vertices IH]; [done|]. unfold removes in *. rewrite filter_cons. cbn [main_remove_vertices].
  rewrite (proj2 (Z.eqb_neq _ _)) by lia. pose proof (Z.mod_pos_bound v (m_num_threads parameters)).
  rewrite i32_id by lia. unfold remover at 1. destruct (decide (Z.to_nat (v mod m_num_threads parameters) = m_worker_id w)) as [Hv|Hv].
  - rewrite (proj2 (Z.eqb_eq _ _)) by lia. exists vertices. split; [done|]. split; [by left|]. split; [by right|done].
  - rewrite (proj2 (Z.eqb_neq _ _)) by lia. destruct (filter _ vertices) as [|v' vs]; [done|].
    destruct IH as (rest & Hrest & Hin & Hsub & Heq). exists rest. split; [done|]. split; [by right|].
    split; [intros x Hx; right; by apply Hsub|done].
Qed.

Context (s : Spec) (vertices : list Z) (ws : list Aging2Worker).
Context (Hisolated : Forall (isolated s) vertices) (Hroom : room s 1).

(** What the removal of vertices leaves alone. *)
Definition same_counters (sh0 sh : Shared) : Prop :=
  m_num_operations_performed sh = m_num_operations_performed sh0 /\ m_num_operations sh = m_num_operations sh0 /\
  m_latencies sh = m_latencies sh0 /\ m_last_time_reported sh = m_last_time_reported sh0 /\
  m_reported_times sh = m_reported_times sh0.

Context (sh0 : Shared).

(** Some vertices have been removed; the others are those of the workers' shares. *)
Record removal_state (sh : Shared) (ms : list (list Z)) : Prop := {
  rs_library : exists vs, represents (m_library sh) (without s vs) /\ vs ∪ list_to_set (concat ms) = list_to_set vertices;
  rs_counters : same_counters sh0 sh;
}.

(** The worker [i] has to remove [m]. *)
Definition removing (sh : Shared) (i : nat) (m : list Z) (k : nat) (p : prog answer Aging2Worker) : Prop :=
  exists w rest, ws !! i = Some w /\ p = main_remove_vertices parameters w rest /\
    m = removes (m_worker_id w) rest /\ k = length m /\ rest ⊆ vertices.

Lemma concat_insert (ms : list (list Z)) i v m : ms !! i = Some (v :: m) -> concat ms ≡ₚ v :: concat (<[i := m]> ms).
Proof.
  intros Hi. rewrite <- (take_drop_middle ms i _ Hi) at 1. rewrite insert_take_drop by (by apply lookup_lt_Some in Hi).
  rewrite !concat_app. cbn [concat]. rewrite <- app_comm_cons, <- Permutation_middle. done.
Qed.

Lemma room_without vs : room (without s vs) 1.
Proof.
  destruct Hroom as [Hv Ha]. split; [|exact Ha]. cbn [without spec_vertices].
  pose proof (subseteq_size (spec_vertices s ∖ vs) (spec_vertices s) ltac:(set_solver)). lia.
Qed.

Lemma removing_step sh ms i m k p : removal_state sh ms -> ms !! i = Some m -> removing sh i m k p ->
  match p with
  | Ret _ => True
  | Do op kont => exists x sh' m' k', k = S k' /\ settles (fun fuel => exec add_edge_v3 clock fuel op sh) (Val (x, sh')) /\
      removal_state sh' (<[i := m']> ms) /\ removing sh' i m' k' (kont x) /\
      forall j mj nj q, j <> i -> ms !! j = Some mj -> removing sh j mj nj q -> removing sh' j mj nj q
  | Ub | OutOfFuel => False
  end.
Proof.
  intros [(vs & R & Hvs) Hcounters] Hm (w & rest & Hw & -> & -> & -> & Hsub). pose proof (main_remove_step w rest) as Hstep.
  destruct (removes (m_worker_id w) rest) as [|v todo]; [by rewrite Hstep|].
  destruct Hstep as (rest' & Hrest' & Hin & Hsub' & ->).
  destruct (meets_contract (m_library sh) (without s vs) (URemoveVertex v) R) as (d' & N & Hcall & R').
  { apply admits_removal. intros x. by apply (proj1 (Forall_forall _ _) Hisolated v (Hsub v Hin) x). }
  { apply room_without. }
  eexists _, (set_library sh d'), todo, (length todo). split; [done|]. split; [|split; [|split]].
  - exists N. intros fuel Hf. cbn [exec]. rewrite Hcall by exact Hf. by rewrite res_bind_Val_l.
  - split; [|exact Hcounters]. exists ({[v]} ∪ vs). split; [rewrite <- without_remove; exact R'|].
    rewrite <- Hvs, (list_to_set_perm_L _ _ (concat_insert ms i v todo Hm)).
    cbn [list_to_set]. rewrite (union_comm_L {[v]}). symmetry. apply union_assoc_L.
  - exists w, rest'. split; [exact Hw|]. split; [done|]. split; [by rewrite Hrest'|]. split; [done|].
    intros x Hx. by apply Hsub, Hsub'.
  - done.
Qed.

Lemma removal_event sh ms e : removal_state sh ms -> removal_state (interfere e sh) ms.
Proof. intros [R Hc]. by split. Qed.

(** When the shares are those of all vertices, no vertex is left. *)
Lemma removes_all : (forall i w, ws !! i = Some w -> m_worker_id w = i) -> length ws = n ->
  list_to_set (concat ((fun w => removes (m_worker_id w) vertices) <$> ws)) =@{gset Z} list_to_set vertices.
Proof.
  intros Hid Hlen. apply set_eq. intros v. rewrite !elem_of_list_to_set, list_elem_of_In, in_concat.
  setoid_rewrite <- list_elem_of_In. split.
  - intros (l & (w & -> & _)%list_elem_of_fmap & Hv). by apply list_elem_of_filter in Hv as [_ ?].
  - intros Hv. destruct (lookup_lt_is_Some_2 ws (remover v)) as [w Hw]; [rewrite Hlen; apply remover_bound|].
    exists (removes (m_worker_id w) vertices). split.
    + apply list_elem_of_fmap. exists w. split; [done|]. by apply list_elem_of_lookup_2 in Hw.
    + apply list_elem_of_filter. split; [by rewrite (Hid _ _ Hw)|done].
Qed.

Lemma run_removal (schedule : list (turn Event)) : represents (m_library sh0) s ->
  (forall i w, ws !! i = Some w -> m_worker_id w = i) -> length ws = n ->
  (forall i, (i < n)%nat -> (length (removes i vertices) < turns i schedule)%nat) ->
  exists sh', settles (run_pool (exec add_edge_v3 clock) interfere (sh0, removal_threads parameters ws vertices) schedule)
      (Val (sh', Ret <$> ws)) /\ same_counters sh0 sh' /\ represents (m_library sh') (without s (list_to_set vertices)).
Proof.
  intros R Hid Hlen Hturns. unfold removal_threads.
  destruct (run_pool_inv (exec add_edge_v3 clock) interfere removal_state removing removing_step removal_event
    (fun _ _ _ _ _ _ _ _ _ W => W) schedule sh0 ((fun w => main_remove_vertices parameters w vertices) <$> ws)
    ((fun w => removes (m_worker_id w) vertices) <$> ws) ((fun w => length (removes (m_worker_id w) vertices)) <$> ws))
    as (sh' & threads' & ms' & ns' & Hrun & _ & (HI & Hlm & Hln & HW) & Hlt & Hfin).
  { split; [split; [|done]; exists ∅; by rewrite without_empty, removes_all, union_empty_l_L|]. split; [by rewrite !length_fmap|].
    split; [by rewrite !length_fmap|]. intros i m k p. rewrite !list_lookup_fmap. destruct (ws !! i) as [w|] eqn:Hw; [|done].
    intros [= <-] [= <-] [= <-]. by exists w, vertices. }
  rewrite length_fmap in Hlt.
  assert (forall i w, ws !! i = Some w -> threads' !! i = Some (Ret w) /\ ms' !! i = Some []) as Hret.
  { intros i w Hw. pose proof (lookup_lt_Some _ _ _ Hw) as Hi.
    destruct (lookup_lt_is_Some_2 threads' i) as [p Hp]; [lia|]. destruct (lookup_lt_is_Some_2 ms' i) as [m Hm]; [lia|].
    destruct (lookup_lt_is_Some_2 ns' i) as [k Hk]; [lia|].
    destruct (HW i m k p Hm Hk Hp) as (w' & rest & Hw' & -> & -> & _ & _). rewrite Hw in Hw'. injection Hw' as <-.
    pose proof (Hfin i _ (length (removes i vertices)) Hp) as [a Ha].
    { by rewrite list_lookup_fmap, Hw, <- (Hid i w Hw). }
    { apply Hturns. by rewrite <- Hlen. }
    pose proof (main_remove_step w rest) as Hstep. rewrite Hp, Hm. destruct (removes (m_worker_id w) rest) as [|v todo].
    - by rewrite Hstep.
    - destruct Hstep as (rest' & _ & _ & _ & Hdo). by rewrite Ha in Hdo. }
  assert (threads' = Ret <$> ws) as ->.
  { apply list_eq. intros i. rewrite list_lookup_fmap. destruct (ws !! i) as [w|] eqn:Hw; [by destruct (Hret i w Hw)|].
    apply lookup_ge_None in Hw. apply lookup_ge_None. lia. }
  exists sh'. split; [exact Hrun|]. destruct HI as [(vs & R' & Hvs) Hc]. split; [exact Hc|].
  assert (list_to_set (concat ms') =@{gset Z} ∅) as Hnone.
  { assert (Forall (eq []) ms') as Hall.
    { apply Forall_lookup. intros i m Hm. destruct (lookup_lt_is_Some_2 ws i) as [w Hw]; [apply lookup_lt_Some in Hm; lia|].
      destruct (Hret i w Hw) as [_ Hm']. congruence. }
    clear -Hall. induction Hall as [|m ms <- _ IH]; [done|exact IH]. }
  rewrite Hnone, union_empty_r_L in Hvs. by rewrite <- Hvs.
Qed.
End removal.

Section correct.
Context `{CircularArray, RemovalContract, ZlibLaws}.
Context (parameters : Aging2Experiment) (add_edge_v3 : Impl -> WeightedEdge -> nat -> res (bool * Impl)) (clock : nat -> Z).
Context (file_system : text -> option text) (Hthreads : 0 < m_num_threads parameters < 2 ^ 31).

Local Notation n := (Z.to_nat (m_num_threads parameters)).

(** The log holds the temporary vertices [vertices], less than 4 GiB of them,
    compressed to one chunk. *)
Record temporary_section (vertices : list Z) : Prop := {
  ts_section : exists file properties c, log_file parameters file_system = Some file /\ parse_properties (Some file) = Val properties /\
    property properties (text_of "internal.vertices.temporary.cardinality") = Val (Z.of_nat (length vertices)) /\
    vertex_section file properties VTX_TEMP c vertices /\ (length c <= INPUT_STREAM_SZ)%nat;
  ts_size : 8 * Z.of_nat (length vertices) < 2 ^ 32;
}.

Lemma temporary_vertices_val vertices memory uninitialised : temporary_section vertices ->
  temporary_vertices parameters file_system memory uninitialised = Val vertices.
Proof.
  intros [(file & properties & c & Hfile & Hprops & Hcard & Hsection & Hfits) Hsize].
  destruct (load_section _ _ _ _ _ memory Hsection Hfits Hsize) as (handle & Hm & Hok & l' & Hload).
  unfold temporary_vertices. rewrite Hfile, Hprops, res_bind_Val_l, Hcard, res_bind_Val_l. cbn [file_bytes].
  change (default [] (Some ?x)) with x. rewrite Hm, res_bind_Val_l, Nat2Z.id, Hload, res_bind_Val_l. cbv beta iota. f_equal.
  assert (length (vertices ≫= bytes_of_key 8) / 8 = length vertices)%nat as ->.
  { rewrite length_bytes, Nat.mul_comm. by apply Nat.div_mul. }
  apply list_eq. intros i. rewrite list_lookup_fmap. destruct (vertices !! i) as [v|] eqn:Hv.
  - pose proof (lookup_lt_Some _ _ _ Hv) as Hi. rewrite lookup_seq_lt by done. cbn [fmap option_fmap option_map Nat.add].
    rewrite (proj2 (Nat.ltb_lt _ _)) by done. f_equal. apply word_at; [exact Hv|]. by apply (Forall_lookup_1 _ _ _ _ Hok Hv).
  - apply lookup_ge_None in Hv. by rewrite lookup_seq_ge.
Qed.

(** The temporary vertices of the log are removed: for every interleaving of the
    workers, each of which removes its share, the library ends with the graph
    without these vertices, provided that no edge is left at them and that their
    compressed list fits into one chunk of the input. *)
Lemma remove_vertices_settle m s vertices memory uninitialised (schedule : list (turn Event))
  (R : represents (m_library (m_shared m)) s) (Hroom : room s 1)
  (Hworkers : length (m_workers m) = n /\ forall i w, m_workers m !! i = Some w -> m_worker_id w = i)
  (Hsection : temporary_section vertices) (Hisolated : Forall (isolated s) vertices)
  (Hturns : forall i, (i < n)%nat -> (length (removes parameters i vertices) < turns i schedule)%nat) :
  exists m', settles (remove_vertices parameters add_edge_v3 clock file_system m memory uninitialised schedule) (Val m') /\
    represents (m_library (m_shared m')) (without s (list_to_set vertices)) /\
    same_counters (m_shared m) (m_shared m') /\ m_workers m' = m_workers m /\
    m_latencies_num_insertions m' = m_latencies_num_insertions m /\ m_latencies_num_deletions m' = m_latencies_num_deletions m /\
    m_results m' = set_artificial (m_results m) (Z.of_nat (length vertices)).
Proof.
  destruct Hworkers as [Hlen Hid].
  destruct (run_removal parameters add_edge_v3 clock Hthreads s vertices (m_workers m) Hisolated Hroom (m_shared m) schedule R Hid Hlen Hturns)
    as (sh' & [N HN] & Hc & R').
  exists (set_workers (set_shared (set_results m (set_artificial (m_results m) (Z.of_nat (length vertices)))) sh') (m_workers m)).
  split; [|split; [exact R'|split; [exact Hc|done]]]. exists N. intros fuel Hf. unfold remove_vertices.
  rewrite (temporary_vertices_val vertices) by done. rewrite res_bind_Val_l. cbn [set_results m_shared m_workers].
  rewrite (HN fuel Hf), res_bind_Val_l. cbv beta iota. rewrite finished_ret. by destruct m.
Qed.
End correct.
