(* ===== verification/Aging2Latency.v ===== *)
(** The array of latencies of the aging experiment: the slots that
    [prepare_latencies] gives to the workers. *)

From S2P Require Import Prelude Doubles CByteArray Text Edge Readers Zlib GraphalyticsReader Graphlog AdjList Threads Interface UpdateLog Aging2Worker Aging2Run Aging2Load Aging2Master.

Section latencies.
Context `{CircularArrayLaws, Random, UpdateInterface, Zlib} (parameters : Aging2Experiment) (uninitialised : nat -> Z).

(** The slots of a worker: it writes the latencies of its insertions from one
    pointer on, those of its deletions from another. *)
Definition slots (w : Aging2Worker) : list nat :=
  match m_latency_insertions w, m_latency_deletions w with
  | Some i, Some j => seq i (Z.to_nat (num_insertions w)) ++ seq j (Z.to_nat (num_deletions w))
  | _, _ => []
  end.

Definition total_of (f : Aging2Worker -> Z) (ws : list Aging2Worker) : Z := foldr (fun w n => f w + n) 0 ws.

Definition small_counters (ws : list Aging2Worker) : Prop :=
  Forall counters_ok ws /\ total_of num_insertions ws + total_of num_deletions ws < 2 ^ 64.

Lemma total_of_nonneg f ws : Forall (fun w => 0 <= f w) ws -> 0 <= total_of f ws.
Proof. induction 1; simpl; lia. Qed.

Lemma counters_nonneg ws : Forall counters_ok ws -> Forall (fun w => 0 <= num_insertions w) ws /\ Forall (fun w => 0 <= num_deletions w) ws.
Proof. intros Hok. split; (eapply Forall_impl; [exact Hok|]); intros w [[? ?] [? ?]]; done. Qed.

Lemma foldl_total f ws : forall a, 0 <= a -> Forall (fun w => 0 <= f w) ws -> a + total_of f ws < 2 ^ 64 ->
  foldl (fun n w => u64 (n + f w)) a ws = a + total_of f ws.
Proof.
  induction ws as [|w ws IH]; intros a Ha Hf Hlt; cbn [foldl total_of foldr] in *; [lia|].
  apply Forall_cons in Hf as [Hw Hf]. pose proof (total_of_nonneg f ws Hf). unfold total_of in *.
  rewrite u64_id by (unfold is_u64; lia). rewrite IH; [lia|lia|done|lia].
Qed.

Lemma assign_slots ws : forall li ld, 0 <= li -> 0 <= ld -> Forall counters_ok ws ->
  concat (slots <$> assign_latencies ws li ld) ≡ₚ
    seq (Z.to_nat li) (Z.to_nat (total_of num_insertions ws)) ++ seq (Z.to_nat ld) (Z.to_nat (total_of num_deletions ws)).
Proof.
  induction ws as [|w ws IH]; intros li ld Hli Hld Hok; [done|]. pose proof Hok as Hok'. apply Forall_cons in Hok' as [[[Hi _] [Hd _]] Hws].
  destruct (counters_nonneg ws Hws) as [Hni Hnd]. apply total_of_nonneg in Hni, Hnd.
  cbn [assign_latencies fmap list_fmap concat total_of foldr]. fold (total_of num_insertions ws) (total_of num_deletions ws).
  rewrite IH by (done || (unfold num_insertions, num_deletions; lia)). unfold slots at 1.
  cbn [set_latencies m_latency_insertions m_latency_deletions m_num_edge_insertions m_num_edge_deletions].
  unfold num_insertions, num_deletions in *. cbn [set_latencies m_num_edge_insertions m_num_edge_deletions].
  rewrite !Z2Nat.inj_add by lia. rewrite !seq_app. rewrite <- !app_assoc. apply Permutation_app_head.
  rewrite !app_assoc. apply Permutation_app_tail. apply Permutation_app_comm.
Qed.

Lemma assign_latencies_length ws : forall li ld, length (assign_latencies ws li ld) = length ws.
Proof. induction ws as [|w ws IH]; intros li ld; [done|]. cbn [assign_latencies length]. by rewrite IH. Qed.

Definition before_latencies (m : Aging2Master) : Prop :=
  m_latencies_num_insertions m = 0 /\ m_latencies_num_deletions m = 0 /\ small_counters (m_workers m) /\
  total_of num_insertions (m_workers m) + total_of num_deletions (m_workers m) = m_num_operations_total (m_results m).

Lemma prepare_latencies_val m : before_latencies m ->
  exists m', prepare_latencies uninitialised m = Val m' /\
    length (m_latencies (m_shared m')) = Z.to_nat (m_num_operations_total (m_results m)) /\
    m_workers m' = assign_latencies (m_workers m) 0 (total_of num_insertions (m_workers m)) /\ m_results m' = m_results m /\
    m_latencies_num_insertions m' = total_of num_insertions (m_workers m) /\
    m_latencies_num_deletions m' = total_of num_deletions (m_workers m).
Proof.
  intros (Hi & Hd & [Hok Hlt] & Htotal). destruct (counters_nonneg _ Hok) as [Hni Hnd].
  pose proof (total_of_nonneg _ _ Hni). pose proof (total_of_nonneg _ _ Hnd).
  unfold prepare_latencies. cbv zeta. rewrite Hi, Hd, !foldl_total by (done || lia). rewrite !Z.add_0_l.
  rewrite u64_id by (unfold is_u64; lia). rewrite Htotal, Z.eqb_refl. eexists. split; [done|].
  cbn [m_shared set_latency_array m_latencies m_workers m_results m_latencies_num_insertions m_latencies_num_deletions].
  by rewrite length_fmap, length_seq.
Qed.

(** When the workers have loaded as many updates as the log announces, each
    cell of the array of latencies is the slot of exactly one update of one
    worker. *)
Theorem prepare_latencies_slots m (Hm : before_latencies m) :
  exists m', prepare_latencies uninitialised m = Val m' /\
    concat (slots <$> m_workers m') ≡ₚ seq 0 (length (m_latencies (m_shared m'))).
Proof.
  destruct (prepare_latencies_val m Hm) as (m' & Hval & Hlen & Hws & _). exists m'. split; [done|].
  destruct Hm as (_ & _ & [Hok _] & Htotal). destruct (counters_nonneg _ Hok) as [Hni Hnd].
  apply total_of_nonneg in Hni, Hnd. rewrite Hws, Hlen, <- Htotal, assign_slots by (done || lia).
  rewrite Z2Nat.inj_add, seq_app by lia. done.
Qed.

(** A second call, as the variants of the experiment that run the log in
    several batches make it, adds the counters again: its assertion fails. *)
Theorem prepare_latencies_twice m (Hm : before_latencies m) (Hpos : 0 < m_num_operations_total (m_results m) < 2 ^ 63) :
  (m ← prepare_latencies uninitialised m; prepare_latencies uninitialised m) = Undef.
Proof.
  destruct (prepare_latencies_val m Hm) as (m' & -> & _ & Hws & Hres & Hi & Hd). bind_val.
  destruct Hm as (_ & _ & [Hok Hlt] & Htotal). destruct (counters_nonneg _ Hok) as [Hni Hnd].
  pose proof (total_of_nonneg _ _ Hni). pose proof (total_of_nonneg _ _ Hnd).
  assert (forall f ws li ld, (forall w i j, f (set_latencies w i j) = f w) -> total_of f (assign_latencies ws li ld) = total_of f ws) as Hsame.
  { intros f ws li ld Hf. revert li ld. induction ws as [|w ws IH]; intros li ld; [done|]. cbn [assign_latencies total_of foldr].
    fold (total_of f ws). rewrite Hf, <- (IH (li + num_insertions w) (ld + num_deletions w)). done. }
  assert (Forall (fun w => 0 <= num_insertions w) (m_workers m') /\ Forall (fun w => 0 <= num_deletions w) (m_workers m')) as [Hni' Hnd'].
  { assert (forall ws li ld, Forall counters_ok ws -> Forall counters_ok (assign_latencies ws li ld)) as Hassign.
    { intros ws. induction ws as [|w ws IH]; intros li ld Hws'; [done|]. apply Forall_cons in Hws' as [? ?]. constructor; [done|by apply IH]. }
    rewrite Hws. by apply counters_nonneg, Hassign. }
  assert (total_of num_insertions (m_workers m') = total_of num_insertions (m_workers m)) as Ei by (rewrite Hws; by apply Hsame).
  assert (total_of num_deletions (m_workers m') = total_of num_deletions (m_workers m)) as Ed by (rewrite Hws; by apply Hsame).
  unfold prepare_latencies. cbv zeta. rewrite Hi, Hd, Hres, !foldl_total, Ei, Ed by (done || lia).
  rewrite (proj2 (Z.eqb_neq _ _)); [done|]. rewrite u64_id by (unfold is_u64; lia). lia.
Qed.

(** With its slots a worker can measure all of its updates. *)
Lemma prepare_latencies_ready m : before_latencies m -> m_measure_latency parameters = true ->
  exists m', prepare_latencies uninitialised m = Val m' /\ forall i w', m_workers m' !! i = Some w' ->
    exists w, m_workers m !! i = Some w /\ same_store w w' /\ forall l, num_insertions w = Z.of_nat (count_insertions l) ->
      num_deletions w = Z.of_nat (count_deletions l) -> can_measure parameters (length (m_latencies (m_shared m'))) w' l.
Proof.
  intros Hm Hmeasure. destruct (prepare_latencies_val m Hm) as (m' & Hval & Hlen & Hws & _). exists m'. split; [done|].
  destruct Hm as (_ & _ & [Hok _] & Htotal). rewrite Hws, Hlen, <- Htotal. clear -Hok Hmeasure.
  assert (forall li ld ws i w' T, 0 <= li -> 0 <= ld -> Forall counters_ok ws -> assign_latencies ws li ld !! i = Some w' ->
    li + total_of num_insertions ws <= T -> ld + total_of num_deletions ws <= T ->
    exists w, ws !! i = Some w /\ same_store w w' /\ forall l, num_insertions w = Z.of_nat (count_insertions l) ->
      num_deletions w = Z.of_nat (count_deletions l) -> can_measure parameters (Z.to_nat T) w' l) as Hgen.
  { intros li ld ws. revert li ld. induction ws as [|w ws IH]; intros li ld i w' T Hli Hld Hws Hi HT1 HT2; [done|].
    apply Forall_cons in Hws as [[[Hwi _] [Hwd _]] Hws]. cbn [total_of foldr] in HT1, HT2.
    fold (total_of num_insertions ws) in HT1. fold (total_of num_deletions ws) in HT2.
    destruct (counters_nonneg ws Hws) as [Hni Hnd]. apply total_of_nonneg in Hni, Hnd.
    destruct i as [|i]; cbn [assign_latencies] in Hi.
    - injection Hi as <-. exists w. split; [done|]. split; [done|]. intros l Hl1 Hl2. rewrite Hl1 in HT1. rewrite Hl2 in HT2.
      unfold can_measure. rewrite Hmeasure. eexists _, _. split; [done|]. split; [done|]. lia.
    - assert (0 <= num_insertions w) by done. assert (0 <= num_deletions w) by done.
      apply (IH (li + num_insertions w) (ld + num_deletions w)); try done; lia. }
  intros i w' Hi. destruct (counters_nonneg _ Hok) as [Hni Hnd]. apply total_of_nonneg in Hni, Hnd.
  apply (Hgen 0 (total_of num_insertions (m_workers m)) (m_workers m) i w'); try done; lia.
Qed.
End latencies.

(** ** Example *)

#[export] Instance counters_ok_dec `{CircularArray} (w : Aging2Worker) : Decision (counters_ok w).
Proof. unfold counters_ok, is_u64. apply _. Defined.

#[export] Instance before_latencies_dec `{CircularArray, UpdateInterface} (m : Aging2Master) : Decision (before_latencies m).
Proof. unfold before_latencies, small_counters. apply _. Defined.

(** The master of the example, once the log has been loaded. *)
Definition ex_loaded_master : res (@Aging2Master list_array stable_interface) :=
  m ← ex_master true false;
  @load_edges list_array const_random stable_interface stored_zlib (ex_parameters true) (fun z => z) ex_files m 3.

Lemma ex_loaded : exists m, ex_loaded_master = Val m /\ before_latencies m /\ m_num_operations_total (m_results m) = 4.
Proof.
  assert (match ex_loaded_master with
          | Val m => bool_decide (before_latencies m) && (m_num_operations_total (m_results m) =? 4)
          | _ => false end = true) as E by by vm_compute.
  destruct ex_loaded_master as [m| | |]; [|discriminate E..].
  apply andb_true_iff in E as [E1%bool_decide_eq_true E2%Z.eqb_eq]. by exists m.
Qed.

Lemma prepare_latencies_slots_witness : exists m m', ex_loaded_master = Val m /\ prepare_latencies (fun _ => 0) m = Val m' /\
  concat (slots <$> m_workers m') ≡ₚ seq 0 (length (m_latencies (m_shared m'))).
Proof.
  destruct ex_loaded as (m & Hm & Hb & _). destruct (prepare_latencies_slots (fun _ => 0) m Hb) as (m' & Hp & Hs). exists m, m'.
  split; [exact Hm|split; [exact Hp|exact Hs]].
Defined.

Lemma prepare_latencies_twice_witness : exists m, ex_loaded_master = Val m /\
  (m ← prepare_latencies (fun _ => 0) m; prepare_latencies (fun _ => 0) m) = Undef.
Proof.
  destruct ex_loaded as (m & Hm & Hb & H4). exists m. split; [exact Hm|]. apply prepare_latencies_twice; [exact Hb|]. rewrite H4. lia.
Defined.
