(* ===== verification/Aging2Protocol.v ===== *)
(** The handshake between the master of the aging experiment and the thread of a
    worker ([aging2_worker]): a task at a time, one mutex and one condition
    variable. *)

From S2P Require Import Prelude.

(** ** Tasks and threads *)

Inductive TaskOp := IDLE | START | STOP | LOAD_EDGES | EXECUTE_UPDATES | REMOVE_VERTICES | SET_ARRAY_LATENCIES | EXECUTE_TRUE_UPDATES.

#[export] Instance TaskOp_eq_dec : EqDecision TaskOp.
Proof. solve_decision. Defined.

Record Task := mkTask { m_type : TaskOp; m_payload : Z; m_payload_sz : Z }.

Definition no_task : Task := mkTask IDLE 0 0.

(** What the owner of a worker calls: the methods that set a task, and [wait],
    which also stands for [wait(tp)] repeated until it returns true. In the end
    the destructor stops the worker. *)
Inductive Command := SetTask (t : Task) | Wait.

(** Where the owner is. A thread that waits on the condition variable is asleep
    until it is notified or wakes up spuriously. *)
Inductive MasterPc :=
  | MStart
  | MStarting (asleep : bool)
  | MReady
  | MNotify
  | MWaiting (asleep : bool)
  | MStopNotify
  | MJoin
  | MEnd.

Inductive WorkerPc :=
  | BNone
  | BEntry
  | BWaiting (asleep : bool)
  | BRunning (t : Task)
  | BExit
  | BEnd.

#[export] Instance Task_eq_dec : EqDecision Task.
Proof. solve_decision. Defined.

#[export] Instance MasterPc_eq_dec : EqDecision MasterPc.
Proof. solve_decision. Defined.

#[export] Instance WorkerPc_eq_dec : EqDecision WorkerPc.
Proof. solve_decision. Defined.

(** [executed] are the tasks whose code the thread has run. *)
Record Handshake := mkHandshake {
  m_task : Task;
  master : MasterPc;
  worker : WorkerPc;
  commands : list Command;
  executed : list Task;
}.

Definition handshake_new (script : list Command) : Handshake := mkHandshake no_task MStart BNone script [].

Definition is_idle (t : Task) : bool := bool_decide (m_type t = IDLE).

Definition wake_master (p : MasterPc) : MasterPc :=
  match p with MStarting _ => MStarting false | MWaiting _ => MWaiting false | _ => p end.

Definition wake_worker (p : WorkerPc) : WorkerPc := match p with BWaiting _ => BWaiting false | _ => p end.

(** ** The steps

    A step is a critical section, which ends where the mutex is released, or
    what happens between two of them. [None]: the thread cannot move. *)

Definition master_step (s : Handshake) : option (res Handshake) :=
  let '(mkHandshake task _ w cs log) := s in
  match master s with
  | MStart => (* start() *)
    Some (if is_idle task then Val (mkHandshake (mkTask START (m_payload task) (m_payload_sz task)) (MStarting true) BEntry cs log)
          else Undef)
  | MStarting true | MWaiting true => None
  | MStarting false => Some (Val (mkHandshake task (if is_idle task then MReady else MStarting true) w cs log))
  | MWaiting false => Some (Val (mkHandshake task (if is_idle task then MReady else MWaiting true) w cs log))
  | MReady =>
    match cs with
    | SetTask t :: cs => (* set_task_async *)
      Some (if is_idle task then Val (mkHandshake t MNotify w cs log) else Undef)
    | Wait :: cs => Some (Val (mkHandshake task (if is_idle task then MReady else MWaiting true) w cs log))
    | [] => (* stop() *)
      Some (if is_idle task then Val (mkHandshake (mkTask STOP (m_payload task) (m_payload_sz task)) MStopNotify w cs log) else Undef)
    end
  | MNotify => Some (Val (mkHandshake task MReady (wake_worker w) cs log))
  | MStopNotify => Some (Val (mkHandshake task MJoin (wake_worker w) cs log))
  | MJoin => match w with BEnd => Some (Val (mkHandshake task MEnd w cs log)) | _ => None end
  | MEnd => None
  end.

Definition worker_step (s : Handshake) : option (res Handshake) :=
  let '(mkHandshake task m _ cs log) := s in
  match worker s with
  | BNone | BWaiting true | BEnd => None
  | BEntry => (* the task has been executed: wait for the next one *)
    Some (if is_idle task then Undef else Val (mkHandshake no_task (wake_master m) (BWaiting true) cs log))
  | BWaiting false =>
    Some (Val (mkHandshake task m (if is_idle task then BWaiting true else BRunning task) cs log))
  | BRunning t =>
    Some (match m_type t with
          | IDLE | START => Undef
          | STOP => Val (mkHandshake task m BExit cs log)
          | _ => Val (mkHandshake task m BEntry cs (log ++ [t]))
          end)
  | BExit => Some (if is_idle task then Undef else Val (mkHandshake no_task (wake_master m) BEnd cs log))
  end.

Inductive Turn := MasterTurn | WorkerTurn | SpuriousMaster | SpuriousWorker.

Definition handshake_step (e : Turn) (s : Handshake) : option (res Handshake) :=
  match e with
  | MasterTurn => master_step s
  | WorkerTurn => worker_step s
  | SpuriousMaster => Some (Val (mkHandshake (m_task s) (wake_master (master s)) (worker s) (commands s) (executed s)))
  | SpuriousWorker => Some (Val (mkHandshake (m_task s) (master s) (wake_worker (worker s)) (commands s) (executed s)))
  end.

(** A sequence of turns that can happen. *)
Fixpoint handshake_run (s : Handshake) (es : list Turn) : option (res Handshake) :=
  match es with
  | [] => Some (Val s)
  | e :: es =>
    match handshake_step e s with
    | Some (Val s) => handshake_run s es
    | r => r
    end
  end.

(** ** Scripts

    A task is set when the one before has been waited for, and at the end. *)

Definition is_task (t : Task) : Prop :=
  match m_type t with IDLE | START | STOP => False | _ => True end.

Fixpoint well_formed (busy : bool) (script : list Command) : Prop :=
  match script with
  | [] => busy = false
  | SetTask t :: script => busy = false /\ is_task t /\ well_formed true script
  | Wait :: script => well_formed false script
  end.

Fixpoint tasks_of (script : list Command) : list Task :=
  match script with
  | [] => []
  | SetTask t :: script => t :: tasks_of script
  | Wait :: script => tasks_of script
  end.

(** ** The invariant

    [issued] are the tasks set so far. *)

(** The thread has executed all tasks and waits. *)
Definition at_rest (s : Handshake) (issued : list Task) : Prop :=
  m_task s = no_task /\ (exists b, worker s = BWaiting b) /\ executed s = issued.

(** The thread has been given the task [t] but not completed it; [posted] when it
    may still be asleep. *)
Definition under_way (s : Handshake) (posted : bool) (before : list Task) (t : Task) : Prop :=
  m_task s = t /\
  ((worker s = BWaiting true /\ posted = true /\ executed s = before) \/
   (worker s = BWaiting false /\ executed s = before) \/
   (worker s = BRunning t /\ executed s = before) \/
   (worker s = BEntry /\ executed s = before ++ [t])).

Definition busy_state (s : Handshake) (posted : bool) (issued : list Task) : Prop :=
  at_rest s issued \/ exists before t, issued = before ++ [t] /\ is_task t /\ under_way s posted before t.

Definition stopping (s : Handshake) (posted : bool) : Prop :=
  (m_type (m_task s) = STOP /\
     ((worker s = BWaiting true /\ posted = true) \/ worker s = BWaiting false \/ worker s = BRunning (m_task s) \/ worker s = BExit)) \/
  worker s = BEnd.

Definition handshake_inv (issued : list Task) (s : Handshake) : Prop :=
  match master s with
  | MStart => well_formed false (commands s) /\ m_task s = no_task /\ worker s = BNone /\ executed s = [] /\ issued = []
  | MStarting asleep =>
    well_formed false (commands s) /\ issued = [] /\
    ((m_type (m_task s) = START /\ worker s = BEntry /\ executed s = []) \/ (asleep = false /\ at_rest s issued))
  | MReady =>
    (well_formed false (commands s) /\ at_rest s issued) \/ (well_formed true (commands s) /\ busy_state s false issued)
  | MNotify => well_formed true (commands s) /\ busy_state s true issued
  | MWaiting asleep =>
    well_formed false (commands s) /\
    ((asleep = false /\ at_rest s issued) \/ exists before t, issued = before ++ [t] /\ is_task t /\ under_way s false before t)
  | MStopNotify => commands s = [] /\ executed s = issued /\ stopping s true
  | MJoin => commands s = [] /\ executed s = issued /\ stopping s false
  | MEnd => commands s = [] /\ executed s = issued /\ worker s = BEnd
  end.

(** The tasks that a step issues. *)
Definition issues (s s' : Handshake) (issued issued' : list Task) : Prop :=
  issued' ++ tasks_of (commands s') = issued ++ tasks_of (commands s).

Lemma idle_false t : is_task t -> is_idle t = false.
Proof. unfold is_task, is_idle. intros Ht. apply bool_decide_eq_false. intros E. by rewrite E in Ht. Qed.

Lemma idle_type t o : m_type t = o -> o <> IDLE -> is_idle t = false.
Proof. intros Ht Ho. unfold is_idle. apply bool_decide_eq_false. congruence. Qed.

Lemma idle_none : is_idle no_task = true.
Proof. done. Qed.

Lemma start_idle t : m_type t = START -> is_idle t = false.
Proof. intros Ht. by apply (idle_type t START). Qed.

Lemma stop_idle t : m_type t = STOP -> is_idle t = false.
Proof. intros Ht. by apply (idle_type t STOP). Qed.

(** A state of the worker whose task is known to be idle, or not to be. *)
Ltac handshake_crush :=
  repeat first
    [ progress (simplify_eq/=)
    | match goal with
      | H : _ /\ _ |- _ => destruct H
      | H : exists _, _ |- _ => destruct H
      | H : _ \/ _ |- _ => destruct H
      | b : bool |- _ => destruct b
      | H : is_task ?t, E : m_type ?t = _ |- _ => exfalso; revert H; unfold is_task; rewrite E; done
      | H : is_task ?t |- context [is_idle ?t] => rewrite (idle_false t H)
      | H : m_type ?t = START |- context [is_idle ?t] => rewrite (start_idle t H)
      | H : m_type ?t = STOP |- context [is_idle ?t] => rewrite (stop_idle t H)
      | |- context [is_idle no_task] => rewrite idle_none
      end ].

Ltac handshake_unfold :=
  unfold handshake_inv, busy_state, at_rest, under_way, stopping, issues in *; simpl in *.

(** The owner's step keeps the invariant: no assertion of its methods fails. *)
Lemma master_step_inv issued s r :
  handshake_inv issued s -> master_step s = Some r ->
  exists s' issued', r = Val s' /\ handshake_inv issued' s' /\ issues s s' issued issued'.
Proof.
  destruct s as [t m w cs log]. intros Hinv Hstep.
  destruct m as [|[]| | |[]| | |]; unfold master_step in Hstep; simpl in Hstep; simplify_eq/=.
  - assert (is_idle t = true) as -> by (handshake_unfold; handshake_crush; done).
    eexists _, issued. split; [done|]. handshake_unfold; handshake_crush; naive_solver.
  - exists (mkHandshake t (if is_idle t then MReady else MStarting true) w cs log), issued.
    split; [done|]. handshake_unfold; handshake_crush; naive_solver.
  - destruct cs as [|[t'|] cs]; simplify_eq/=.
    + assert (is_idle t = true) as -> by (handshake_unfold; handshake_crush; done).
      eexists _, issued. split; [done|]. handshake_unfold; handshake_crush; naive_solver.
    + assert (is_idle t = true) as -> by (handshake_unfold; handshake_crush; done).
      eexists _, (issued ++ [t']). split; [done|].
      split; [|by unfold issues; rewrite <- app_assoc].
      handshake_unfold; handshake_crush; naive_solver.
    + eexists _, issued. split; [done|]. handshake_unfold; handshake_crush; naive_solver.
  - eexists _, issued. split; [done|]. handshake_unfold; handshake_crush; naive_solver.
  - eexists _, issued. split; [done|]. handshake_unfold; handshake_crush; naive_solver.
  - eexists _, issued. split; [done|]. handshake_unfold; handshake_crush; naive_solver.
  - destruct w; simplify_eq/=. eexists _, issued. split; [done|]. handshake_unfold; handshake_crush; naive_solver.
Qed.

(** The worker's step keeps it as well: it never finds a wrong task. *)
Lemma worker_step_inv issued s r :
  handshake_inv issued s -> worker_step s = Some r ->
  exists s', r = Val s' /\ handshake_inv issued s' /\ commands s' = commands s.
Proof.
  destruct s as [t m w cs log]. intros Hinv Hstep.
  destruct w as [| |[]|t'| |]; unfold worker_step in Hstep; simpl in Hstep; simplify_eq/=.
  - assert (is_idle t = false) as -> by (destruct m; handshake_unfold; handshake_crush; done).
    eexists. split; [done|]. destruct m; handshake_unfold; handshake_crush; naive_solver.
  - eexists. split; [done|]. destruct m; handshake_unfold; handshake_crush; naive_solver.
  - assert ((is_task t' /\ log ++ [t'] = issued) \/ m_type t' = STOP) as [[Ht <-]|Ht].
    { destruct m; handshake_unfold; handshake_crush; naive_solver. }
    + unfold is_task in Ht. destruct (m_type t') eqn:E; try done; eexists; (split; [done|]);
        destruct m; handshake_unfold; handshake_crush; first [congruence | naive_solver].
    + rewrite Ht. eexists. split; [done|]. destruct m; handshake_unfold; handshake_crush; naive_solver.
  - assert (is_idle t = false) as -> by (destruct m; handshake_unfold; handshake_crush; done).
    eexists. split; [done|]. destruct m; handshake_unfold; handshake_crush; naive_solver.
Qed.

(** A thread that wakes up too early checks the task and sleeps again. *)
Lemma spurious_inv issued s :
  handshake_inv issued s ->
  handshake_inv issued (mkHandshake (m_task s) (wake_master (master s)) (worker s) (commands s) (executed s)) /\
  handshake_inv issued (mkHandshake (m_task s) (master s) (wake_worker (worker s)) (commands s) (executed s)).
Proof.
  destruct s as [t m w cs log]. intros Hinv.
  destruct m as [|[]| | |[]| | |]; handshake_unfold; handshake_crush; naive_solver.
Qed.

Lemma handshake_step_inv e issued s r :
  handshake_inv issued s -> handshake_step e s = Some r ->
  exists s' issued', r = Val s' /\ handshake_inv issued' s' /\ issues s s' issued issued'.
Proof.
  intros Hinv Hstep. destruct (spurious_inv _ _ Hinv) as [Hm Hw]. destruct e; simpl in Hstep.
  - by eapply master_step_inv.
  - destruct (worker_step_inv _ _ _ Hinv Hstep) as (s' & -> & Hs & Hc).
    exists s', issued. split; [done|]. split; [done|]. unfold issues. by rewrite Hc.
  - simplify_eq. by eexists _, issued.
  - simplify_eq. by eexists _, issued.
Qed.

Lemma handshake_run_inv es : forall issued s r,
  handshake_inv issued s -> handshake_run s es = Some r ->
  exists s' issued', r = Val s' /\ handshake_inv issued' s' /\ issues s s' issued issued'.
Proof.
  induction es as [|e es IH]; intros issued s r Hinv Hrun; simpl in Hrun.
  - simplify_eq. by exists s, issued.
  - destruct (handshake_step e s) as [r1|] eqn:Hstep; [|done].
    destruct (handshake_step_inv _ _ _ _ Hinv Hstep) as (s1 & issued1 & -> & Hinv1 & H1).
    destruct (IH _ _ _ Hinv1 Hrun) as (s2 & issued2 & -> & Hinv2 & H2).
    exists s2, issued2. split; [done|]. split; [done|]. unfold issues in *. congruence.
Qed.

Lemma handshake_new_inv script : well_formed false script -> handshake_inv [] (handshake_new script).
Proof. intros Hw. by split_and!. Qed.

(** What a reachable state is like, [total] being the tasks of the script. *)
Lemma handshake_inv_executed issued s :
  handshake_inv issued s -> executed s = issued \/ exists t, issued = executed s ++ [t].
Proof.
  destruct s as [t m w cs log]. intros Hinv.
  destruct m as [|[]| | |[]| | |]; handshake_unfold; handshake_crush; eauto.
Qed.

Definition waits (cs : list Command) : bool := match cs with Wait :: _ => true | _ => false end.

Lemma handshake_inv_ready issued s :
  handshake_inv issued s -> master s = MReady -> waits (commands s) = false ->
  executed s = issued /\ (exists b, worker s = BWaiting b) /\ m_task s = no_task.
Proof.
  destruct s as [t m w cs log]. intros Hinv Hm Hcs. simpl in Hm. subst m.
  handshake_unfold. destruct cs as [|[] cs]; simplify_eq/=; handshake_crush; eauto.
Qed.

(** C10: the handshake of a worker is safe. Whatever the interleaving of the
    owner's and the worker's critical sections, spurious wake ups included: no
    assertion of [start], [set_task_async], [stop] and [main_thread] fails; the
    tasks run in the order they were set, each at most once, and when the owner
    is about to set a task or to stop, every task before it has been executed
    and the worker is waiting, not running; when [stop] has returned, the thread
    has ended and has executed every task of the script. *)
Theorem handshake_safe script es r :
  well_formed false script -> handshake_run (handshake_new script) es = Some r ->
  exists s, r = Val s /\ exists issued,
    issued ++ tasks_of (commands s) = tasks_of script /\
    (executed s = issued \/ exists t, issued = executed s ++ [t]) /\
    (master s = MReady -> waits (commands s) = false ->
       executed s = issued /\ (exists b, worker s = BWaiting b) /\ m_task s = no_task) /\
    (master s = MEnd -> worker s = BEnd /\ executed s = tasks_of script).
Proof.
  intros Hw Hrun. destruct (handshake_run_inv _ _ _ _ (handshake_new_inv _ Hw) Hrun) as (s & issued & -> & Hinv & Hi).
  exists s. split; [done|]. exists issued. split; [done|].
  split; [by apply handshake_inv_executed|]. split; [by apply handshake_inv_ready|].
  intros Hm. unfold handshake_inv in Hinv. rewrite Hm in Hinv. destruct Hinv as (Hc & -> & ->).
  split; [done|]. unfold issues in Hi. rewrite Hc in Hi. by rewrite app_nil_r in Hi.
Qed.

(** ** Liveness *)

Definition master_weight (p : MasterPc) : nat :=
  match p with
  | MStart => 40
  | MStarting asleep | MWaiting asleep => if asleep then 21 else 22
  | MReady => 20
  | MNotify => 22
  | MStopNotify => 3
  | MJoin => 1
  | MEnd => 0
  end.

Definition worker_weight (idle : bool) (p : WorkerPc) : nat :=
  match p with
  | BNone | BEnd => 0
  | BEntry | BExit => 3
  | BRunning _ => 4
  | BWaiting asleep => if idle then (if asleep then 0 else 1) else (if asleep then 6 else 5)
  end.

(** How many more proper turns there can be. *)
Definition measure (s : Handshake) : nat :=
  20 * length (commands s) + master_weight (master s) + worker_weight (is_idle (m_task s)) (worker s).

Lemma wake_master_weight p : (master_weight (wake_master p) <= master_weight p + 1)%nat.
Proof. destruct p as [|[]| | |[]| | |]; simpl; lia. Qed.

Lemma wake_worker_weight b p : (worker_weight b (wake_worker p) <= worker_weight b p + 1)%nat.
Proof. destruct p as [| |[]| | |], b; simpl; lia. Qed.

Lemma worker_weight_bound b p : (worker_weight b p <= 6)%nat.
Proof. destruct p as [| |[]| | |], b; simpl; lia. Qed.

Lemma worker_weight_change b b' p : (worker_weight b' p <= worker_weight b p + 6)%nat.
Proof. destruct p as [| |[]| | |], b, b'; simpl; lia. Qed.

Lemma master_step_measure s s' : master_step s = Some (Val s') -> (measure s' < measure s)%nat.
Proof.
  destruct s as [t m w cs log]. intros Hstep. unfold measure.
  destruct m as [|[]| | |[]| | |]; unfold master_step in Hstep; simpl in Hstep; simplify_eq/=.
  - destruct (is_idle t); simplify_eq/=. lia.
  - destruct (is_idle t); simpl; lia.
  - destruct cs as [|[t'|] cs]; simplify_eq/=.
    + destruct (is_idle t); simplify_eq/=.
      pose proof (worker_weight_change true (is_idle (mkTask STOP (m_payload t) (m_payload_sz t))) w). lia.
    + destruct (is_idle t); simplify_eq/=. pose proof (worker_weight_change true (is_idle t') w). lia.
    + destruct (is_idle t); simpl; lia.
  - pose proof (wake_worker_weight (is_idle t) w). lia.
  - destruct (is_idle t); simpl; lia.
  - pose proof (wake_worker_weight (is_idle t) w). lia.
  - destruct w; simplify_eq/=. lia.
Qed.

Lemma worker_step_measure s s' : worker_step s = Some (Val s') -> (measure s' < measure s)%nat.
Proof.
  destruct s as [t m w cs log]. intros Hstep. unfold measure. pose proof (wake_master_weight m).
  destruct w as [| |[]|t'| |]; unfold worker_step in Hstep; simpl in Hstep; simplify_eq/=.
  - destruct (is_idle t); simplify_eq/=. lia.
  - destruct (is_idle t); simpl; lia.
  - destruct (m_type t'); simplify_eq/=; lia.
  - destruct (is_idle t); simplify_eq/=. lia.
Qed.

Definition is_proper (e : Turn) : bool := match e with MasterTurn | WorkerTurn => true | _ => false end.

Definition proper_turns (es : list Turn) : nat := sum_list_with (fun e => if is_proper e then 1 else 0)%nat es.

Definition spurious_turns (es : list Turn) : nat := sum_list_with (fun e => if is_proper e then 0 else 1)%nat es.

Lemma handshake_run_measure es : forall s s',
  handshake_run s es = Some (Val s') -> (proper_turns es + measure s' <= measure s + spurious_turns es)%nat.
Proof.
  induction es as [|e es IH]; intros s s' Hrun; simpl in Hrun.
  - simplify_eq. unfold proper_turns, spurious_turns. simpl. lia.
  - destruct (handshake_step e s) as [[s1| | |]|] eqn:Hstep; try done. specialize (IH _ _ Hrun).
    unfold proper_turns, spurious_turns in *. destruct e; simpl in Hstep |- *.
    + apply master_step_measure in Hstep. lia.
    + apply worker_step_measure in Hstep. lia.
    + simplify_eq. unfold measure in *. simpl in *. pose proof (wake_master_weight (master s)). lia.
    + simplify_eq. unfold measure in *. simpl in *.
      pose proof (wake_worker_weight (is_idle (m_task s)) (worker s)). lia.
Qed.

(** No wake up is lost: one of the two threads can move until the owner has
    stopped the worker. *)
Lemma handshake_progress issued s :
  handshake_inv issued s -> master s <> MEnd ->
  exists e s', is_proper e = true /\ handshake_step e s = Some (Val s').
Proof.
  intros Hinv Hend.
  assert (exists e r, is_proper e = true /\ handshake_step e s = Some r) as (e & r & He & Hstep).
  { destruct s as [t m w cs log]. destruct m as [|[]| | |[]| | |]; [| | | | | | | | |done].
    all: try (by exists MasterTurn; eexists).
    - exists WorkerTurn. handshake_unfold; handshake_crush; eauto.
    - exists MasterTurn. destruct cs as [|[] cs]; by eexists.
    - exists WorkerTurn. handshake_unfold; handshake_crush; eauto.
    - destruct (decide (w = BEnd)) as [->|Hw]; [by exists MasterTurn; eexists|].
      exists WorkerTurn. handshake_unfold; handshake_crush; eauto. }
  destruct (handshake_step_inv _ _ _ _ Hinv Hstep) as (s' & issued' & -> & _). by exists e, s'.
Qed.

(** From any point the two threads can complete the script. *)
Lemma handshake_completes n : forall issued s,
  (measure s <= n)%nat -> handshake_inv issued s ->
  exists es s', Forall (fun e => is_proper e = true) es /\ handshake_run s es = Some (Val s') /\ master s' = MEnd.
Proof.
  induction n as [n IH] using lt_wf_ind. intros issued s Hn Hinv.
  destruct (decide (master s = MEnd)) as [Hend|Hend]; [by exists [], s|].
  destruct (handshake_progress _ _ Hinv Hend) as (e & s1 & He & Hstep).
  destruct (handshake_step_inv _ _ _ _ Hinv Hstep) as (? & issued1 & [= <-] & Hinv1 & _).
  assert (measure s1 < measure s)%nat.
  { destruct e; try done; simpl in Hstep; [by apply master_step_measure|by apply worker_step_measure]. }
  destruct (IH (measure s1) ltac:(lia) _ s1 (le_n _) Hinv1) as (es & s2 & Hes & Hrun & Hm).
  exists (e :: es), s2. split; [by constructor|]. split; [|done]. simpl. by rewrite Hstep.
Qed.

(** C9: the handshake of a worker is live. A run has at most 20 turns for each
    command, 40 for the start and the stop, and one for each spurious wake up;
    and it never stops before the end: wherever a run has come to, one of the two
    threads can move, unless [stop] has returned with all tasks executed, and
    from there the two threads reach that end. A task counts as one turn: that
    the code of the tasks returns is proved elsewhere. *)
Theorem handshake_live script es s :
  well_formed false script -> handshake_run (handshake_new script) es = Some (Val s) ->
  (proper_turns es <= 20 * length script + 40 + spurious_turns es)%nat /\
  ((master s = MEnd /\ worker s = BEnd /\ executed s = tasks_of script) \/
   (exists e s', is_proper e = true /\ handshake_step e s = Some (Val s'))) /\
  exists es' s', Forall (fun e => is_proper e = true) es' /\
    handshake_run s es' = Some (Val s') /\ master s' = MEnd /\ executed s' = tasks_of script.
Proof.
  intros Hw Hrun.
  destruct (handshake_run_inv _ _ _ _ (handshake_new_inv _ Hw) Hrun) as (? & issued & [= <-] & Hinv & Hi).
  assert (Hdone : forall issued s, handshake_inv issued s -> issues (handshake_new script) s [] issued ->
    master s = MEnd -> worker s = BEnd /\ executed s = tasks_of script).
  { clear. intros issued s Hinv Hi Hm. unfold handshake_inv in Hinv. rewrite Hm in Hinv. destruct Hinv as (Hc & -> & ->).
    split; [done|]. unfold issues in Hi. rewrite Hc in Hi. by rewrite app_nil_r in Hi. }
  split; [|split].
  - pose proof (handshake_run_measure _ _ _ Hrun) as Hr. unfold measure at 2 in Hr. simpl in Hr. lia.
  - destruct (decide (master s = MEnd)) as [Hend|Hend]; [left; by eauto|right; by eapply handshake_progress].
  - destruct (handshake_completes _ _ _ (le_n (measure s)) Hinv) as (es' & s' & Hes & Hrun' & Hm).
    exists es', s'. split; [done|]. split; [done|]. split; [done|].
    destruct (handshake_run_inv _ _ _ _ Hinv Hrun') as (? & issued' & [= <-] & Hinv' & Hi').
    apply (Hdone issued' s'); [done| |done]. unfold issues in *. congruence.
Qed.

(** *** Concrete runs: two tasks, with a spurious wake up that lets the worker
    see the first one before it is notified. *)

Definition ex_script : list Command :=
  [SetTask (mkTask LOAD_EDGES 1 2); Wait; SetTask (mkTask EXECUTE_UPDATES 0 0); Wait].

Definition ex_turns : list Turn :=
  [MasterTurn; SpuriousMaster; MasterTurn; WorkerTurn; MasterTurn; MasterTurn; SpuriousWorker; WorkerTurn; WorkerTurn;
   MasterTurn; MasterTurn; WorkerTurn; MasterTurn; MasterTurn; MasterTurn; WorkerTurn; WorkerTurn; WorkerTurn; MasterTurn].

Definition ex_end : list Turn := [MasterTurn; MasterTurn; WorkerTurn; WorkerTurn; WorkerTurn; MasterTurn].

Lemma ex_script_ok : well_formed false ex_script.
Proof. by split_and!. Qed.

Lemma handshake_safe_witness :
  exists r s, handshake_run (handshake_new ex_script) (ex_turns ++ ex_end) = Some r /\ r = Val s /\
    executed s = [mkTask LOAD_EDGES 1 2; mkTask EXECUTE_UPDATES 0 0].
Proof.
  destruct (handshake_run (handshake_new ex_script) (ex_turns ++ ex_end)) as [r|] eqn:E; [|by vm_compute in E].
  destruct (handshake_safe ex_script (ex_turns ++ ex_end) r ex_script_ok E) as (s & -> & issued & _ & _ & _ & Hend).
  exists (Val s), s. split; [done|]. split; [done|]. apply Hend. by vm_compute in E; simplify_eq.
Defined.

Lemma handshake_live_witness :
  exists s, handshake_run (handshake_new ex_script) ex_turns = Some (Val s) /\
  exists es' s', Forall (fun e => is_proper e = true) es' /\ handshake_run s es' = Some (Val s') /\ master s' = MEnd.
Proof.
  destruct (handshake_run (handshake_new ex_script) ex_turns) as [[s| | |]|] eqn:E; [|by vm_compute in E..].
  exists s. split; [done|].
  destruct (handshake_live ex_script ex_turns s ex_script_ok E) as (_ & _ & es' & s' & Hes & Hrun & Hm & _).
  by exists es', s'.
Defined.
