(* ===== verification/Aging2Config.v ===== *)
(** [experiment/aging2_experiment]: the configuration of the aging experiment and
    the methods that set it. *)

From S2P Require Import Prelude Doubles Text Aging2Worker Aging2Master.

(** The values of a new configuration. *)
Definition Aging2Experiment_new : Aging2Experiment :=
  mkAging2Experiment None 1 4096 d_one 0 false false 0 true false false 1 false 0 0.

Section setters.
Context (c : Aging2Experiment).

(** The empty path is none. *)
Definition set_log (path : text) : Aging2Experiment :=
  mkAging2Experiment (if decide (path = []) then None else Some path) (m_num_threads c) (m_worker_granularity c) (m_max_weight c) (m_build_frequency c)
    (m_memfp c) (m_memfp_physical c) (m_memfp_threshold c) (m_release_driver_memory c) (m_report_memory_footprint c)
    (m_report_progress c) (m_num_reports_per_operations c) (m_measure_latency c) (m_timeout c) (m_cooloff c).

Definition set_max_weight (value : double) : res Aging2Experiment :=
  if dle value d_zero then Exn InvalidArgument
  else Val (mkAging2Experiment (m_path_log c) (m_num_threads c) (m_worker_granularity c) value (m_build_frequency c)
    (m_memfp c) (m_memfp_physical c) (m_memfp_threshold c) (m_release_driver_memory c) (m_report_memory_footprint c)
    (m_report_progress c) (m_num_reports_per_operations c) (m_measure_latency c) (m_timeout c) (m_cooloff c)).

Definition set_parallelism_degree (num_threads : Z) : res Aging2Experiment :=
  if num_threads <? 1 then Exn InvalidArgument
  else Val (mkAging2Experiment (m_path_log c) num_threads (m_worker_granularity c) (m_max_weight c) (m_build_frequency c)
    (m_memfp c) (m_memfp_physical c) (m_memfp_threshold c) (m_release_driver_memory c) (m_report_memory_footprint c)
    (m_report_progress c) (m_num_reports_per_operations c) (m_measure_latency c) (m_timeout c) (m_cooloff c)).

Definition set_build_frequency (millisecs : Z) : Aging2Experiment :=
  mkAging2Experiment (m_path_log c) (m_num_threads c) (m_worker_granularity c) (m_max_weight c) millisecs
    (m_memfp c) (m_memfp_physical c) (m_memfp_threshold c) (m_release_driver_memory c) (m_report_memory_footprint c)
    (m_report_progress c) (m_num_reports_per_operations c) (m_measure_latency c) (m_timeout c) (m_cooloff c).

Definition set_release_memory (value : bool) : Aging2Experiment :=
  mkAging2Experiment (m_path_log c) (m_num_threads c) (m_worker_granularity c) (m_max_weight c) (m_build_frequency c)
    (m_memfp c) (m_memfp_physical c) (m_memfp_threshold c) value (m_report_memory_footprint c)
    (m_report_progress c) (m_num_reports_per_operations c) (m_measure_latency c) (m_timeout c) (m_cooloff c).

Definition set_report_progress (value : bool) : Aging2Experiment :=
  mkAging2Experiment (m_path_log c) (m_num_threads c) (m_worker_granularity c) (m_max_weight c) (m_build_frequency c)
    (m_memfp c) (m_memfp_physical c) (m_memfp_threshold c) (m_release_driver_memory c) (m_report_memory_footprint c)
    value (m_num_reports_per_operations c) (m_measure_latency c) (m_timeout c) (m_cooloff c).

Definition set_report_memory_footprint (value : bool) : Aging2Experiment :=
  mkAging2Experiment (m_path_log c) (m_num_threads c) (m_worker_granularity c) (m_max_weight c) (m_build_frequency c)
    (m_memfp c) (m_memfp_physical c) (m_memfp_threshold c) (m_release_driver_memory c) value
    (m_report_progress c) (m_num_reports_per_operations c) (m_measure_latency c) (m_timeout c) (m_cooloff c).

Definition set_num_reports_per_ops (value : Z) : res Aging2Experiment :=
  if value <=? 0 then Exn InvalidArgument
  else Val (mkAging2Experiment (m_path_log c) (m_num_threads c) (m_worker_granularity c) (m_max_weight c) (m_build_frequency c)
    (m_memfp c) (m_memfp_physical c) (m_memfp_threshold c) (m_release_driver_memory c) (m_report_memory_footprint c)
    (m_report_progress c) value (m_measure_latency c) (m_timeout c) (m_cooloff c)).

Definition set_measure_latency (value : bool) : Aging2Experiment :=
  mkAging2Experiment (m_path_log c) (m_num_threads c) (m_worker_granularity c) (m_max_weight c) (m_build_frequency c)
    (m_memfp c) (m_memfp_physical c) (m_memfp_threshold c) (m_release_driver_memory c) (m_report_memory_footprint c)
    (m_report_progress c) (m_num_reports_per_operations c) value (m_timeout c) (m_cooloff c).

Definition set_timeout (secs : Z) : Aging2Experiment :=
  mkAging2Experiment (m_path_log c) (m_num_threads c) (m_worker_granularity c) (m_max_weight c) (m_build_frequency c)
    (m_memfp c) (m_memfp_physical c) (m_memfp_threshold c) (m_release_driver_memory c) (m_report_memory_footprint c)
    (m_report_progress c) (m_num_reports_per_operations c) (m_measure_latency c) secs (m_cooloff c).

Definition set_worker_granularity (value : Z) : res Aging2Experiment :=
  if value <? 1 then Exn InvalidArgument
  else Val (mkAging2Experiment (m_path_log c) (m_num_threads c) value (m_max_weight c) (m_build_frequency c)
    (m_memfp c) (m_memfp_physical c) (m_memfp_threshold c) (m_release_driver_memory c) (m_report_memory_footprint c)
    (m_report_progress c) (m_num_reports_per_operations c) (m_measure_latency c) (m_timeout c) (m_cooloff c)).

Definition set_cooloff (secs : Z) : Aging2Experiment :=
  mkAging2Experiment (m_path_log c) (m_num_threads c) (m_worker_granularity c) (m_max_weight c) (m_build_frequency c)
    (m_memfp c) (m_memfp_physical c) (m_memfp_threshold c) (m_release_driver_memory c) (m_report_memory_footprint c)
    (m_report_progress c) (m_num_reports_per_operations c) (m_measure_latency c) (m_timeout c) secs.

Definition set_memfp (value : bool) : Aging2Experiment :=
  mkAging2Experiment (m_path_log c) (m_num_threads c) (m_worker_granularity c) (m_max_weight c) (m_build_frequency c)
    value (m_memfp_physical c) (m_memfp_threshold c) (m_release_driver_memory c) (m_report_memory_footprint c)
    (m_report_progress c) (m_num_reports_per_operations c) (m_measure_latency c) (m_timeout c) (m_cooloff c).

Definition set_memfp_physical (value : bool) : Aging2Experiment :=
  mkAging2Experiment (m_path_log c) (m_num_threads c) (m_worker_granularity c) (m_max_weight c) (m_build_frequency c)
    (m_memfp c) value (m_memfp_threshold c) (m_release_driver_memory c) (m_report_memory_footprint c)
    (m_report_progress c) (m_num_reports_per_operations c) (m_measure_latency c) (m_timeout c) (m_cooloff c).

Definition set_memfp_threshold (value : Z) : Aging2Experiment :=
  mkAging2Experiment (m_path_log c) (m_num_threads c) (m_worker_granularity c) (m_max_weight c) (m_build_frequency c)
    (m_memfp c) (m_memfp_physical c) value (m_release_driver_memory c) (m_report_memory_footprint c)
    (m_report_progress c) (m_num_reports_per_operations c) (m_measure_latency c) (m_timeout c) (m_cooloff c).
End setters.

(** ** Sequences of calls *)

Inductive Setting :=
  | SLog (path : text)
  | SMaxWeight (value : double)
  | SParallelismDegree (num_threads : Z)
  | SBuildFrequency (millisecs : Z)
  | SReleaseMemory (value : bool)
  | SReportProgress (value : bool)
  | SReportMemoryFootprint (value : bool)
  | SNumReportsPerOps (value : Z)
  | SMeasureLatency (value : bool)
  | STimeout (secs : Z)
  | SWorkerGranularity (value : Z)
  | SCooloff (secs : Z)
  | SMemfp (value : bool)
  | SMemfpPhysical (value : bool)
  | SMemfpThreshold (value : Z).

Definition apply_setting (c : Aging2Experiment) (s : Setting) : res Aging2Experiment :=
  match s with
  | SLog path => Val (set_log c path)
  | SMaxWeight value => set_max_weight c value
  | SParallelismDegree num_threads => set_parallelism_degree c num_threads
  | SBuildFrequency millisecs => Val (set_build_frequency c millisecs)
  | SReleaseMemory value => Val (set_release_memory c value)
  | SReportProgress value => Val (set_report_progress c value)
  | SReportMemoryFootprint value => Val (set_report_memory_footprint c value)
  | SNumReportsPerOps value => set_num_reports_per_ops c value
  | SMeasureLatency value => Val (set_measure_latency c value)
  | STimeout secs => Val (set_timeout c secs)
  | SWorkerGranularity value => set_worker_granularity c value
  | SCooloff secs => Val (set_cooloff c secs)
  | SMemfp value => Val (set_memfp c value)
  | SMemfpPhysical value => Val (set_memfp_physical c value)
  | SMemfpThreshold value => Val (set_memfp_threshold c value)
  end.

(** A caller that goes on after an exception: a call that throws has changed
    nothing. *)
Definition configure (c : Aging2Experiment) (calls : list Setting) : Aging2Experiment :=
  foldl (fun c s => match apply_setting c s with Val c' => c' | _ => c end) c calls.

(** The arguments are values of their C++ types. *)
Definition typed (s : Setting) : Prop :=
  match s with
  | SParallelismDegree n | SNumReportsPerOps n | SWorkerGranularity n | SMemfpThreshold n => is_u64 n
  | _ => True
  end.

(** The invariant of the class. The check of the weight lets a NaN pass. *)
Record well_configured (c : Aging2Experiment) : Prop := {
  wc_threads : 1 <= m_num_threads c < 2 ^ 64;
  wc_granularity : 1 <= m_worker_granularity c < 2 ^ 64;
  wc_reports : 1 <= m_num_reports_per_operations c < 2 ^ 64;
  wc_weight : dlt d_zero (m_max_weight c) = true \/ disnan (m_max_weight c) = true;
  wc_threshold : is_u64 (m_memfp_threshold c);
  wc_path : m_path_log c <> Some [];
}.

Lemma not_dle_zero x : dle x d_zero = false -> dlt d_zero x = true \/ disnan x = true.
Proof. destruct x as [[]|[]| |[] m e]; intros Hx; (by left) || (by right) || discriminate Hx. Qed.

Lemma apply_setting_configured c s c' : well_configured c -> typed s -> apply_setting c s = Val c' -> well_configured c'.
Proof.
  intros [H1 H2 H3 H4 H5 H6] Ht Hs. unfold is_u64 in *.
  destruct s; cbn [apply_setting typed] in Hs, Ht;
    unfold set_max_weight, set_parallelism_degree, set_num_reports_per_ops, set_worker_granularity in Hs;
    repeat case_match; simplify_eq; split; cbn; unfold is_u64 in *; try done; try lia.
  - destruct (decide (path = [])); congruence.
  - by apply not_dle_zero.
Qed.

(** C33: whatever is called, in whatever order and with whatever values of their types,
    a configuration keeps the invariant of its class: at least one thread, one update in
    a chunk and one report, a weight that is positive or not a number, no empty path.
    If moreover the weight is a number, the threads are fewer than [2^31] and latencies are
    not measured, it meets what the aging experiment in rounds assumes. *)
Theorem configuration_well_formed calls (Ht : Forall typed calls) :
  let c := configure Aging2Experiment_new calls in
  well_configured c /\
  (disnan (m_max_weight c) = false -> m_num_threads c < 2 ^ 31 -> m_measure_latency c = false -> plain_parameters c).
Proof.
  intros c. assert (well_configured c) as Hc.
  { unfold c, configure. clear c. assert (well_configured Aging2Experiment_new) as H0 by (split; [by vm_compute..|by left|by vm_compute|done]).
    revert H0 Ht. generalize Aging2Experiment_new. induction calls as [|s calls IH]; intros c H0 Ht; [done|].
    apply Forall_cons in Ht as [Hs Ht]. cbn [foldl]. apply IH; [|done].
    destruct (apply_setting c s) eqn:E; [by eapply apply_setting_configured|done..]. }
  split; [done|]. intros Hnan Hthreads Hlat. destruct Hc as [H1 H2 H3 [H4|H4] H5 H6]; [|congruence]. by split; [lia..| |].
Qed.

(** The check of the weight lets a value through that is not a number, and a
    call that throws changes nothing. *)
Theorem set_max_weight_errors c value :
  (dle value d_zero = true -> set_max_weight c value = Exn InvalidArgument) /\
  (dle value d_zero = false -> exists c', set_max_weight c value = Val c' /\ m_max_weight c' = value) /\
  exists c', set_max_weight c d_nan = Val c' /\ m_max_weight c' = d_nan.
Proof.
  unfold set_max_weight. split_and!; [by intros ->|intros ->; by eexists|by eexists].
Qed.

Lemma configuration_well_formed_witness :
  well_configured (configure Aging2Experiment_new
    [SMaxWeight (double_of_Z 100); SParallelismDegree 0; SParallelismDegree 8; SWorkerGranularity 0; SLog (text_of "a.graphlog")]) /\
  plain_parameters (configure Aging2Experiment_new
    [SMaxWeight (double_of_Z 100); SParallelismDegree 0; SParallelismDegree 8; SWorkerGranularity 0; SLog (text_of "a.graphlog")]).
Proof.
  destruct (configuration_well_formed
    [SMaxWeight (double_of_Z 100); SParallelismDegree 0; SParallelismDegree 8; SWorkerGranularity 0; SLog (text_of "a.graphlog")])
    as [Hc Hp].
  - repeat constructor; by vm_compute.
  - split; [exact Hc|apply Hp; by vm_compute].
Defined.
