(* ===== verification/Aging2Execute.v ===== *)
(** The aging experiment in one run ([Aging2Master::execute]): the whole log is
    loaded, the latencies are prepared, the workers perform the updates and remove
    the temporary vertices, and the results are stored. *)

From S2P Require Import Prelude Doubles CByteArray Text Edge Readers Zlib GraphalyticsReader Graphlog GraphlogVertices AdjList Threads Interface Statistics UpdateLog Aging2Worker Aging2Run Aging2Load Aging2Master Aging2Latency Aging2Vertices.

(** The statistics are those of the insertions, of the deletions and of both. *)
Record FinalResults := mkFinalResults {
  fr_sizes : Aging2Result;
  fr_reported_times : list Z;
  fr_latency_stats : option (LatencyStatistics * LatencyStatistics * LatencyStatistics);
}.

Section execute.
Context `{CircularArray, Random, UpdateInterface, Zlib}.
Context (parameters : Aging2Experiment) (hash : Z -> Z).
Context (add_edge_v3 : Impl -> WeightedEdge -> nat -> res (bool * Impl)) (clock : nat -> Z).
Context (file_system : text -> option text) (uninitialised : nat -> Z).
Context (num_vertices num_edges : Impl -> Z).

(** The statistics sort their part of the array. *)
Definition latency_stats (latencies : list Z) (insertions deletions : nat) :
    res (LatencyStatistics * LatencyStatistics * LatencyStatistics) :=
  '(st0, inserted) ← compute_statistics (take insertions latencies);
  '(st1, deleted) ← compute_statistics (take deletions (drop insertions latencies));
  '(st2, _) ← compute_statistics (take (insertions + deletions) (inserted ++ deleted));
  Val (st0, st1, st2).

Definition final_results (m : Aging2Master) : res FinalResults :=
  let m := store_results num_vertices num_edges m in
  times ← res_fold (fun times i => t ← arr_get (m_reported_times (m_shared m)) i; Val (times ++ [t])) []
            (seq 0 (Z.to_nat (m_last_time_reported (m_shared m))));
  if m_measure_latency parameters then
    stats ← latency_stats (m_latencies (m_shared m)) (Z.to_nat (m_latencies_num_insertions m)) (Z.to_nat (m_latencies_num_deletions m));
    Val (mkFinalResults (m_results m) times (Some stats))
  else Val (mkFinalResults (m_results m) times None).

(** [updates] and [removals] are the interleavings of the workers in the two phases
    that run concurrently; [memory] and [garbage] what new memory holds. *)
Definition Aging2Master_execute (m : Aging2Master) (updates removals : list (turn Event)) (memory : list Z) (garbage : nat -> Z)
    (tries blocks fuel : nat) : res (FinalResults * Aging2Master) :=
  m ← load_edges parameters hash file_system m blocks;
  m ← (if m_measure_latency parameters then prepare_latencies uninitialised m else Val m);
  m ← do_run_experiment parameters add_edge_v3 clock m updates tries fuel;
  m ← remove_vertices parameters add_edge_v3 clock file_system m memory garbage removals fuel;
  results ← final_results m;
  Val (results, m).
End execute.

(** ** Loading the whole log *)

Section loading.
Context `{CircularArrayLaws, Random, UpdateInterface, ZlibLaws}.
Context (parameters : Aging2Experiment) (hash : Z -> Z) (file_system : text -> option text).
Context (Hthreads : 0 < m_num_threads parameters < 2 ^ 31) (Hmax : dlt d_zero (m_max_weight parameters) = true).

Local Notation own := (own parameters hash).

(** The workers have loaded their shares of [log] since they were [ws0]. *)
Definition shares (directed : bool) (ws0 ws : list Aging2Worker) (log : list WeightedEdge) : Prop :=
  length ws = length ws0 /\ forall i w, ws !! i = Some w -> exists w0 vs,
    ws0 !! i = Some w0 /\ m_worker_id w0 = i /\ loaded parameters w0 w [] vs (mine directed own i log).

(** What loading leaves alone. *)
Definition same_master (m m' : Aging2Master) : Prop :=
  m_shared m' = m_shared m /\ m_latencies_num_insertions m' = m_latencies_num_insertions m /\
  m_latencies_num_deletions m' = m_latencies_num_deletions m /\ num_edges_final_graph m' = num_edges_final_graph m /\
  m_num_operations_total (m_results m') = m_num_operations_total (m_results m).

Lemma load_block_shares directed ws0 m log es : shares directed ws0 (m_workers m) log ->
  Forall update_ok es -> Forall weight_ok (update_edge <$> es) ->
  exists m', load_block_edges parameters hash m (block_bytes es) (length es) = Val m' /\ same_master m m' /\
    shares directed ws0 (m_workers m') (log ++ (update_edge <$> es)).
Proof.
  intros [Hlen Hws] Hok Hw. pose proof (block_edges_updates es Hok) as Hedges.
  destruct (workers_load_spec parameters hash (fun i w w' => exists w0 vs, ws0 !! i = Some w0 /\ m_worker_id w0 = i /\
      loaded parameters w0 w' [] vs (mine directed own i (log ++ (update_edge <$> es))))
    (block_bytes es) (length es) (m_workers m) 0) as (ws' & Hload & Hlen' & Hws').
  { intros i w Hi. destruct (Hws i w Hi) as (w0 & vs & Hw0 & Hid & Hld). pose proof Hld as (Hst & _ & _ & (Hidw & _) & Hc).
    destruct (main_load_edges_spec parameters hash Hmax Hthreads directed w vs (block_bytes es) (length es) Hst Hc) as (w' & vs' & Hl & Hld').
    { by rewrite Hedges. }
    exists w'. split; [exact Hl|]. exists w0, vs'. split; [exact Hw0|]. split; [exact Hid|].
    unfold mine. rewrite filter_app. fold (mine directed own i log) (mine directed own i (update_edge <$> es)).
    eapply loaded_trans; [exact Hld|]. rewrite <- Hedges. by rewrite Hidw, Hid in Hld'. }
  unfold load_block_edges. rewrite Hload, res_bind_Val_l. eexists. split; [done|]. split.
  - unfold same_master, set_random_vertex_id. destruct (_ =? 0); [destruct (first_positive _)|]; done.
  - assert (forall m' : Aging2Master, m_workers m' = ws' -> shares directed ws0 (m_workers m') (log ++ (update_edge <$> es))) as Hshares.
    { intros m' ->. split; [congruence|]. intros i w' Hi. destruct (Hws' i w' Hi) as (w & Hwi & w0 & vs & Hw0 & Hld). by exists w0, vs. }
    apply Hshares. unfold set_random_vertex_id. destruct (_ =? 0); [destruct (first_positive _)|]; done.
Qed.

Lemma same_master_trans m1 m2 m3 : same_master m1 m2 -> same_master m2 m3 -> same_master m1 m3.
Proof. unfold same_master. intuition congruence. Qed.

Lemma load_edges_loop_spec directed ws0 content array_sz blocks : Forall (compressed_block (Z.to_nat (array_sz / 3))) blocks ->
  Forall (fun b => Forall weight_ok (update_edge <$> b.2)) blocks ->
  forall m log pos fuel, shares directed ws0 (m_workers m) log -> drop pos content = blocks ≫= fst -> (pos <= length content)%nat ->
  (length blocks <= fuel)%nat ->
  exists m', (let '(num_edges, array, handle) := next_block content pos blocks in
      load_edges_loop parameters hash m handle array_sz num_edges array fuel) = Val m' /\ same_master m m' /\
    shares directed ws0 (m_workers m') (log ++ block_log blocks).
Proof.
  intros Hblocks Hweights. induction blocks as [|b blocks IH]; intros m log pos fuel Hsh Hdrop Hpos Hfuel.
  { exists m. split; [by destruct fuel|]. split; [done|]. unfold block_log. cbn [mbind list_bind fmap list_fmap]. by rewrite app_nil_r. }
  apply Forall_cons in Hblocks as [Hb Hblocks]. apply Forall_cons in Hweights as [Hw Hweights].
  destruct fuel as [|fuel]; [simpl in Hfuel; lia|]. unfold block_log in *. cbn [mbind list_bind] in Hdrop |- *. rewrite fmap_app.
  destruct (load_block_shares directed ws0 m log b.2 Hsh) as (m1 & Hload & Hsame & Hsh1); [apply Hb|exact Hw|].
  assert (pos + length b.1 <= length content)%nat as Hpos'.
  { apply (f_equal length) in Hdrop. rewrite length_drop, length_app in Hdrop. lia. }
  assert (drop (pos + length b.1) content = blocks ≫= fst) as Hdrop' by (rewrite <- drop_drop, Hdrop; apply drop_app_length).
  destruct (IH Hblocks Hweights m1 (log ++ (update_edge <$> b.2)) (pos + length b.1)%nat fuel Hsh1 Hdrop' Hpos') as (m' & Hloop & Hsame' & Hsh').
  { simpl in Hfuel. lia. }
  exists m'. split; [|split; [by eapply same_master_trans|by rewrite app_assoc]].
  cbn [next_block load_edges_loop]. rewrite (block_nonempty _ _ Hb), Hload, res_bind_Val_l.
  rewrite (load_next_spec content (pos + length b.1) blocks array_sz Hblocks Hdrop' Hpos'), res_bind_Val_l. exact Hloop.
Qed.
End loading.

(** ** Counting *)

Section counting.
Context `{CircularArrayLaws, Random, UpdateInterface, Zlib}.
Context (parameters : Aging2Experiment) (hash : Z -> Z) (directed : bool).
Context (Hthreads : 0 < m_num_threads parameters < 2 ^ 31) (Hmax : dlt d_zero (m_max_weight parameters) = true).

Local Notation n := (Z.to_nat (m_num_threads parameters)).
Local Notation own := (own parameters hash).

Lemma mine_count b log : sum_list_with (fun i => length (filter (fun e => is_insertion e = b) (mine directed own i log))) (seq 0 n) =
  length (filter (fun e => is_insertion e = b) log).
Proof.
  rewrite <- (mine_total directed n own (own_bound parameters hash Hthreads) (filter (fun e => is_insertion e = b) log)).
  apply sum_list_with_ext. intros i _. unfold mine. rewrite !list_filter_filter. f_equal. apply list_filter_iff. tauto.
Qed.

Lemma count_split log : (count_insertions log + count_deletions log)%nat = length log.
Proof.
  induction log as [|e log IH]; [done|]. rewrite count_insertions_cons, count_deletions_cons. cbn [length]. destruct (is_insertion e); lia.
Qed.

Lemma count_load_weights l : forall k, count_insertions (load_weights parameters k l) = count_insertions l /\
  count_deletions (load_weights parameters k l) = count_deletions l.
Proof.
  induction l as [|e l IH]; intros k; [done|]. cbn [load_weights].
  rewrite !count_insertions_cons, !count_deletions_cons, load_weight_sign by done. by destruct (IH (next_random k e)) as [-> ->].
Qed.

Lemma total_of_sum f (g : nat -> nat) ws : forall k, (forall i w, ws !! i = Some w -> f w = Z.of_nat (g (k + i)%nat)) ->
  total_of f ws = Z.of_nat (sum_list_with g (seq k (length ws))).
Proof.
  induction ws as [|w ws IH]; intros k Hf; [done|]. cbn [total_of foldr length seq sum_list_with]. fold (total_of f ws).
  rewrite (IH (S k)), (Hf 0%nat w eq_refl), Nat.add_0_r; [lia|]. intros i w' Hi. rewrite Nat.add_succ_comm. by apply (Hf (S i)).
Qed.
End counting.

(** A master that has just been constructed. *)
Definition fresh_workers `{CircularArrayLaws} (ws : list Aging2Worker) : Prop := forall i w, ws !! i = Some w ->
  worker_idle i w /\ m_num_edge_insertions w = 0 /\ m_num_edge_deletions w = 0.

Lemma master_new_fresh `{CircularArrayLaws, UpdateInterface} parameters file_system seed library (m : Aging2Master) :
  Aging2Master_new parameters file_system seed library = Val m ->
  fresh_workers (m_workers m) /\ m_latencies_num_insertions m = 0 /\ m_latencies_num_deletions m = 0.
Proof.
  unfold Aging2Master_new. intros Hnew. repeat (apply res_bind_val in Hnew as (? & _ & Hnew)). injection Hnew as <-.
  split; [|done]. intros i w Hi. cbn [m_workers] in Hi. rewrite list_lookup_fmap in Hi.
  destruct (seq 0 _ !! i) as [j|] eqn:Hj; [|done]. apply lookup_seq in Hj as [-> _]. injection Hi as <-.
  split; [apply new_worker_idle|done].
Qed.

(** ** The updates *)

Section prepared.
Context `{CircularArrayLaws, Random, UpdateInterface, Zlib}.
Context (parameters : Aging2Experiment) (hash : Z -> Z) (uninitialised : nat -> Z) (directed : bool).
Context (Hthreads : 0 < m_num_threads parameters < 2 ^ 31) (Hmax : dlt d_zero (m_max_weight parameters) = true).

Local Notation n := (Z.to_nat (m_num_threads parameters)).
Local Notation own := (own parameters hash).

(** The log with the weights that the workers give it. *)
Definition loaded_log (ws0 : list Aging2Worker) (log : list WeightedEdge) : list WeightedEdge :=
  weighted_log parameters hash directed (fun i => from_option m_random 0%nat (ws0 !! i)) log.

Lemma count_u64 (l log : list WeightedEdge) : (length l <= length log)%nat -> Z.of_nat (length log) < 2 ^ 57 ->
  u64 (0 + Z.of_nat (count_insertions l)) = Z.of_nat (count_insertions l) /\
  u64 (0 + Z.of_nat (count_deletions l)) = Z.of_nat (count_deletions l).
Proof. intros Hl Hlog. pose proof (count_split l). split; rewrite Z.add_0_l; apply u64_id; unfold is_u64; lia. Qed.

Lemma share_loaded ws0 ws log i w : fresh_workers ws0 -> shares parameters hash directed ws0 ws log -> ws !! i = Some w ->
  Z.of_nat (length log) < 2 ^ 57 ->
  m_worker_id w = i /\ counters_ok w /\ m_latency_insertions w = None /\ m_latency_deletions w = None /\
  num_insertions w = Z.of_nat (count_insertions (mine directed own i log)) /\
  num_deletions w = Z.of_nat (count_deletions (mine directed own i log)) /\
  exists vs, store w vs /\ concat vs = mine directed own i (loaded_log ws0 log).
Proof.
  intros Hfresh [_ Hws] Hi Hlog. destruct (Hws i w Hi) as (w0 & vs & Hw0 & Hid & Hst & Hvs & _ & (Hidw & Hli & Hld & Hins & Hdel) & Hc).
  destruct (Hfresh i w0 Hw0) as ((_ & _ & _ & Hln & Hldn) & Hi0 & Hd0).
  destruct (count_u64 (mine directed own i log) log) as [E1 E2]; [unfold mine; apply length_filter|done|].
  unfold num_insertions, num_deletions. rewrite Hi0 in Hins. rewrite Hd0 in Hdel. rewrite Hins, Hdel, E1, E2.
  split; [congruence|]. split; [done|]. split; [congruence|]. split; [congruence|]. split; [done|]. split; [done|].
  exists vs. split; [done|]. rewrite Hvs. unfold loaded_log. by rewrite mine_weighted, Hw0.
Qed.

Lemma same_store_queue w w' vs : same_store w w' -> queue w vs -> queue w' vs.
Proof. intros (_ & Hu & Hv & _) [Hnd Hq]. unfold queue. by rewrite Hu, Hv. Qed.

(** After the preparation the workers are ready. *)
Lemma prepared_ready ws0 m log : fresh_workers ws0 -> length ws0 = n -> shares parameters hash directed ws0 (m_workers m) log ->
  m_latencies_num_insertions m = 0 -> m_latencies_num_deletions m = 0 -> Z.of_nat (length log) < 2 ^ 57 ->
  m_num_operations_total (m_results m) = Z.of_nat (length log) ->
  exists m', (if m_measure_latency parameters then prepare_latencies uninitialised m else Val m) = Val m' /\
    (exists l, m_shared m' = set_latency_array (m_shared m) l) /\ m_results m' = m_results m /\
    ready parameters directed (length (m_latencies (m_shared m'))) n own (loaded_log ws0 log) (m_workers m') /\
    (m_measure_latency parameters = true -> length (m_latencies (m_shared m')) = length log /\
       m_latencies_num_insertions m' = Z.of_nat (count_insertions log) /\ m_latencies_num_deletions m' = Z.of_nat (count_deletions log)).
Proof.
  intros Hfresh Hlen0 Hsh Hin Hdn Hlog Htotal. assert (length (m_workers m) = n) as Hlen by (destruct Hsh; congruence).
  assert (forall i w, m_workers m !! i = Some w -> count_insertions (mine directed own i (loaded_log ws0 log)) = count_insertions (mine directed own i log) /\
    count_deletions (mine directed own i (loaded_log ws0 log)) = count_deletions (mine directed own i log)) as Hcount.
  { intros i w _. unfold loaded_log. rewrite mine_weighted. by apply count_load_weights. }
  destruct (m_measure_latency parameters) eqn:Hm.
  - assert (total_of num_insertions (m_workers m) = Z.of_nat (count_insertions log)) as Eins.
    { rewrite (total_of_sum _ (fun i => count_insertions (mine directed own i log)) _ 0), Hlen; [f_equal; by apply (mine_count parameters hash directed Hthreads true)|].
      intros i w Hi. by apply (share_loaded ws0 (m_workers m) log i w). }
    assert (total_of num_deletions (m_workers m) = Z.of_nat (count_deletions log)) as Edel.
    { rewrite (total_of_sum _ (fun i => count_deletions (mine directed own i log)) _ 0), Hlen; [f_equal; by apply (mine_count parameters hash directed Hthreads false)|].
      intros i w Hi. by apply (share_loaded ws0 (m_workers m) log i w). }
    pose proof (count_split log) as Hsplit.
    assert (before_latencies m) as Hbefore.
    { split; [done|]. split; [done|]. split; [split|]; [|lia|lia]. apply Forall_lookup. intros i w Hi.
      by apply (share_loaded ws0 (m_workers m) log i w). }
    destruct (prepare_latencies_val uninitialised m Hbefore) as (m' & Hval & Hcap & Hws & Hres & Hi' & Hd').
    destruct (prepare_latencies_ready parameters uninitialised m Hbefore Hm) as (m'' & Hval' & Hready).
    rewrite Hval in Hval'. injection Hval' as <-. exists m'. split; [done|]. split; [|split; [done|split]].
    + revert Hval. unfold prepare_latencies. cbv zeta. destruct (_ =? _); [|done]. intros [= <-]. by eexists.
    + split; [rewrite Hws, assign_latencies_length; done|]. intros i w' Hw'. destruct (Hready i w' Hw') as (w & Hw & Hst & Hmeas).
      destruct (share_loaded ws0 (m_workers m) log i w) as (Hid & _ & _ & _ & Ei & Ed & vs & Hstore & Hvs); try done.
      split; [destruct Hst; congruence|]. exists vs. split; [eapply same_store_queue; [exact Hst|by apply store_queue]|].
      split; [exact Hvs|]. rewrite Hvs. destruct (Hcount i w Hw) as [Ec1 Ec2]. apply Hmeas; congruence.
    + intros _. split; [rewrite Hcap, Htotal; lia|]. by rewrite Hi', Hd', Eins, Edel.
  - exists m. split; [done|]. split; [exists (m_latencies (m_shared m)); by destruct (m_shared m)|]. split; [done|]. split; [|done].
    split; [done|]. intros i w Hi. destruct (share_loaded ws0 (m_workers m) log i w) as (Hid & _ & Hl1 & Hl2 & _ & _ & vs & Hstore & Hvs); try done.
    split; [done|]. exists vs. split; [by apply store_queue|]. split; [done|]. unfold can_measure. by rewrite Hm.
Qed.
End prepared.

(** ** The whole run *)

Section results.
Context `{CircularArray, UpdateInterface} (parameters : Aging2Experiment) (num_vertices num_edges : Impl -> Z).

Lemma read_times (l : list Z) k : (k <= length l)%nat ->
  res_fold (fun times i => t ← arr_get l i; Val (times ++ [t])) [] (seq 0 k) = Val (take k l).
Proof.
  assert (forall j i acc, (i + j <= length l)%nat ->
    res_fold (fun times i => t ← arr_get l i; Val (times ++ [t])) acc (seq i j) = Val (acc ++ take j (drop i l))) as Hgen.
  { induction j as [|j IH]; intros i acc Hij; cbn [seq res_fold]; [by rewrite take_0, app_nil_r|].
    destruct (lookup_lt_is_Some_2 l i) as [x Hx]; [lia|]. rewrite (arr_get_val _ _ _ Hx), !res_bind_Val_l, IH by lia.
    rewrite (drop_S _ _ _ Hx). cbn [take]. by rewrite <- app_assoc. }
  intros Hk. by rewrite Hgen.
Qed.

Lemma latency_stats_val latencies insertions deletions : length latencies = (insertions + deletions)%nat ->
  Z.of_nat (length latencies) < 2 ^ 57 ->
  exists st0 st1 st2, latency_stats latencies insertions deletions = Val (st0, st1, st2) /\
    Statistics.m_num_operations st0 = Z.of_nat insertions /\ Statistics.m_num_operations st1 = Z.of_nat deletions /\
    Statistics.m_num_operations st2 = Z.of_nat (insertions + deletions).
Proof.
  intros Hlen Hlt. unfold latency_stats.
  assert (length (take insertions latencies) = insertions) as L0 by (rewrite length_take; lia).
  assert (length (take deletions (drop insertions latencies)) = deletions) as L1 by (rewrite length_take, length_drop; lia).
  destruct (compute_statistics_total (take insertions latencies)) as (st0 & A0 & -> & HA0 & Hn0); [lia|]. rewrite res_bind_Val_l. cbv beta iota.
  destruct (compute_statistics_total (take deletions (drop insertions latencies))) as (st1 & A1 & -> & HA1 & Hn1); [lia|].
  rewrite res_bind_Val_l. cbv beta iota.
  assert (length (take (insertions + deletions) (A0 ++ A1)) = (insertions + deletions)%nat) as L2 by (rewrite length_take, length_app; lia).
  destruct (compute_statistics_total (take (insertions + deletions) (A0 ++ A1))) as (st2 & A2 & -> & _ & Hn2); [lia|].
  rewrite res_bind_Val_l. exists st0, st1, st2. split; [done|]. rewrite Hn0, Hn1, Hn2, L0, L1, L2. done.
Qed.

(** What the results say of [insertions] and [deletions] measured updates. *)
Definition results_of (m : Aging2Master) (insertions deletions : nat) (results : FinalResults) : Prop :=
  fr_sizes results = set_final_graph (m_results m) (num_vertices (m_library (m_shared m))) (num_edges (m_library (m_shared m))) /\
  fr_reported_times results = take (Z.to_nat (m_last_time_reported (m_shared m))) (m_reported_times (m_shared m)) /\
  if m_measure_latency parameters then
    exists st0 st1 st2, fr_latency_stats results = Some (st0, st1, st2) /\
      Statistics.m_num_operations st0 = Z.of_nat insertions /\ Statistics.m_num_operations st1 = Z.of_nat deletions /\
      Statistics.m_num_operations st2 = Z.of_nat (insertions + deletions)
  else fr_latency_stats results = None.

Lemma final_results_val (m : Aging2Master) insertions deletions :
  0 <= m_last_time_reported (m_shared m) <= Z.of_nat (length (m_reported_times (m_shared m))) ->
  (m_measure_latency parameters = true -> length (m_latencies (m_shared m)) = (insertions + deletions)%nat /\
     m_latencies_num_insertions m = Z.of_nat insertions /\ m_latencies_num_deletions m = Z.of_nat deletions) ->
  Z.of_nat (insertions + deletions) < 2 ^ 57 ->
  exists results, final_results parameters num_vertices num_edges m = Val results /\ results_of m insertions deletions results.
Proof.
  intros Htimes Hlat Hlt. unfold final_results, results_of. cbv zeta. unfold store_results. cbn [set_results m_shared m_results].
  rewrite read_times by lia. rewrite res_bind_Val_l. destruct (m_measure_latency parameters).
  - destruct (Hlat eq_refl) as (Hlen & Hi & Hd). cbn [m_latencies_num_insertions m_latencies_num_deletions set_results]. rewrite Hi, Hd, !Nat2Z.id.
    destruct (latency_stats_val (m_latencies (m_shared m)) insertions deletions Hlen) as (st0 & st1 & st2 & Hst & Hn); [lia|].
    rewrite Hst, res_bind_Val_l. eexists. split; [done|]. split; [done|]. split; [done|]. by exists st0, st1, st2.
  - eexists. split; [done|]. done.
Qed.
End results.

Section execution.
Context `{CircularArrayLaws, Random, LogContract, !RemovalContract, ZlibLaws}.
Context (parameters : Aging2Experiment) (hash : Z -> Z).
Context (add_edge_v3 : Impl -> WeightedEdge -> nat -> res (bool * Impl)) (clock : nat -> Z).
Context (file_system : text -> option text) (uninitialised : nat -> Z) (seed : nat -> nat).
Context (num_vertices num_edges : Impl -> Z).

(** The configuration that the setters of [Aging2Experiment] allow. *)
Record run_parameters : Prop := {
  rp_threads : 0 < m_num_threads parameters < 2 ^ 31;
  rp_granularity : 0 < m_worker_granularity parameters < 2 ^ 64;
  rp_max_weight : dlt d_zero (m_max_weight parameters) = true;
}.

Context (P : run_parameters).

Local Notation n := (Z.to_nat (m_num_threads parameters)).
Local Notation own := (own parameters hash).

(** The log holds the compressed blocks [blocks]. *)
Definition log_blocks (blocks : list (list Z * list (Z * Z * Z))) : Prop := exists file properties array_sz pos,
  log_file parameters file_system = Some file /\ parse_properties (Some file) = Val properties /\
  property properties (text_of "internal.edges.block_size") = Val array_sz /\
  properties !! text_of "internal.edges.begin" = Some (print_nat (Z.of_nat pos)) /\
  (pos <= length file)%nat /\ Z.of_nat (length file) < 2 ^ 64 /\
  Forall (compressed_block (Z.to_nat (array_sz / 3))) blocks /\ drop pos (code <$> file) = blocks ≫= fst.

Lemma load_edges_val directed m blocks fuel : log_blocks blocks -> Forall (fun b => Forall weight_ok (update_edge <$> b.2)) blocks ->
  fresh_workers (m_workers m) -> (length blocks <= fuel)%nat ->
  exists m', load_edges parameters hash file_system m fuel = Val m' /\ same_master m m' /\
    shares parameters hash directed (m_workers m) (m_workers m') (block_log blocks).
Proof.
  intros (file & properties & array_sz & pos & Hfile & Hprops & Hsize & Hbegin & Hpos & Hlen & Hblocks & Hdata) Hweights Hfresh Hfuel.
  destruct (load_edges_loop_spec parameters hash (rp_threads P) (rp_max_weight P) directed (m_workers m) (code <$> file) array_sz blocks
    Hblocks Hweights m [] pos fuel) as (m' & Hloop & Hsame & Hsh); try done.
  { split; [done|]. intros i w Hi. exists w, []. destruct (Hfresh i w Hi) as ((Hid & Hst & Hc & _) & _). split; [done|]. split; [done|].
    by apply loaded_refl. }
  { by rewrite length_fmap. }
  exists m'. split; [|by split]. unfold load_edges. rewrite (open_log_val parameters file_system file properties array_sz pos), res_bind_Val_l by done.
  cbv beta iota. rewrite (load_next_spec (code <$> file) pos blocks array_sz), res_bind_Val_l by (done || by rewrite length_fmap). exact Hloop.
Qed.

(** The workers perform what they have loaded. *)
Lemma do_run_val s0 m log log' tries (schedule : list nat) : represents (m_library (m_shared m)) s0 -> symmetric s0 ->
  m_stop_experiment (m_shared m) = false ->
  length (m_num_operations (m_shared m)) = n /\ Forall is_u64 (m_num_operations (m_shared m)) ->
  Forall2 (reweighted parameters) log log' -> valid_log s0 log -> room s0 (length log) -> can_report parameters m (length log) ->
  ready parameters (spec_directed s0) (length (m_latencies (m_shared m))) n own log' (m_workers m) -> (0 < tries)%nat ->
  enough_turns (spec_directed s0) n own log (Run <$> schedule : list (turn Event)) ->
  exists sh' ws', settles (do_run_experiment parameters add_edge_v3 clock m (Run <$> schedule) tries)
      (Val (set_workers (set_shared m sh') ws')) /\
    represents (m_library sh') (after_log s0 log') /\ length ws' = n /\ (forall i w, ws' !! i = Some w -> m_worker_id w = i) /\
    m_num_operations_performed sh' = m_num_operations_performed (m_shared m) + Z.of_nat (length log) /\
    0 <= m_last_time_reported sh' <= Z.of_nat (length (m_reported_times sh')) /\
    length (m_latencies sh') = length (m_latencies (m_shared m)).
Proof.
  intros R Hsym Hrun Hcounters Hre Hvalid Hroom (Hp1 & Hp2 & Hp3) Hready Htries Hturns.
  pose proof (Forall2_length _ _ _ Hre) as Hlen. pose proof (represents_directed _ _ R) as Hdir.
  destruct (updates_settle add_edge_v3 clock parameters (num_edges_final_graph m) (spec_directed s0) (length (m_latencies (m_shared m))) n own
    s0 log' (start_run clock (m_shared m)) (m_workers m) tries schedule)
    as (sh' & ws' & [N HN] & Hlib & Hlws & Hdone & _ & _ & _ & Hperf & Htimes & Hlast & Hcap).
  - split; try done.
    + intros p. apply own_bound, P.
    + apply P.
    + eapply same_kind_valid; [done| |exact Hvalid]. eapply Forall2_impl; [exact Hre|]. intros e e' He. by eapply reweighted_kind.
    + by rewrite <- Hlen.
    + by rewrite <- Hlen.
    + cbn. lia.
    + unfold performed_limit. rewrite <- Hlen. done.
  - done.
  - intros i Hi. rewrite (mine_reweighted _ _ _ _ _ _ Hre). by apply Hturns.
  - exists sh', ws'. split; [|split; [done|split; [done|split; [|split; [|split; [|done]]]]]].
    + exists N. intros fuel Hf. unfold do_run_experiment. rewrite Hdir, HN by done. rewrite res_bind_Val_l. cbv beta iota. by rewrite finished_ret.
    + intros i w' Hw'. destruct (Hdone i w' Hw') as (w & Hw & Hid & _). destruct Hready as [_ Hr]. destruct (Hr i w Hw). congruence.
    + rewrite Hlen. exact Hperf.
    + by rewrite Htimes.
Qed.

End execution.

(** ** Example

    Two workers on the reference implementation, with latencies. The vertex 1 has no
    edge in the end. *)

Definition ex_run_header : text := text_of "# GRAPHLOG
internal.vertices.temporary.cardinality=1
internal.vertices.temporary.begin=260
internal.vertices.final.cardinality=3
internal.edges.final=2
internal.edges.cardinality=4
internal.edges.block_size=72
internal.edges.begin=277
__BINARY_SECTION_FOLLOWS
".

Definition ex_run_section : list Z := stored ([1] ≫= bytes_of_key 8).

Definition ex_run_file : text :=
  ex_run_header ++ ((fun b => ascii_of_N (Z.to_N b)) <$> (ex_run_section ++ (ex_aging_blocks ≫= fst))).

Definition ex_run_parameters : Aging2Experiment :=
  mkAging2Experiment (Some (text_of "log")) 2 4096 d_one 0 false false 0 true false false 1 true 0 0.

Definition ex_run_files (path : text) : option text := Some ex_run_file.

Definition ex_run_properties : Properties :=
  match parse_properties (Some ex_run_file) with Val properties => properties | _ => ∅ end.

Lemma ex_run_parsed : parse_properties (Some ex_run_file) = Val ex_run_properties.
Proof.
  assert (match parse_properties (Some ex_run_file) with Val _ => true | _ => false end = true) as E by by vm_compute.
  unfold ex_run_properties. by destruct (parse_properties (Some ex_run_file)).
Qed.

Lemma ex_run_blocks : @log_blocks stored_zlib stored_laws ex_run_parameters ex_run_files ex_aging_blocks.
Proof.
  exists ex_run_file, ex_run_properties, 72, 277%nat. split; [done|]. split; [apply ex_run_parsed|]. split; [by vm_compute|].
  split; [apply (bool_decide_unpack (ex_run_properties !! text_of "internal.edges.begin" = Some (print_nat (Z.of_nat 277)))); by vm_compute|].
  split; [apply Nat.leb_le; by vm_compute|]. split; [by vm_compute|]. split; [|by vm_compute].
  do 2 (constructor; [by apply ex_block_compressed|]). constructor.
Qed.

Lemma ex_run_vertices : @temporary_section stored_zlib stored_laws ex_run_parameters ex_run_files [1].
Proof.
  split; [|by vm_compute]. exists ex_run_file, ex_run_properties, ex_run_section. split; [done|]. split; [apply ex_run_parsed|]. split; [by vm_compute|].
  split; [|apply Nat.leb_le; by vm_compute].
  exists 260%nat, (ex_aging_blocks ≫= fst).
  split; [apply (bool_decide_unpack (ex_run_properties !! section_key VTX_TEMP = Some (print_nat (Z.of_nat 260)))); by vm_compute|].
  split; [by vm_compute|]. split; [done|]. split; [done|]. split; [|by vm_compute]. by apply Forall_singleton.
Qed.

Lemma ex_run_ok : run_parameters ex_run_parameters.
Proof. split; [split; reflexivity|split; reflexivity|by vm_compute]. Qed.

Definition ex_run_master :=
  @Aging2Master_new list_array stable_interface ex_run_parameters ex_run_files (fun i => i)
    (@AdjList.AdjacencyList_new AdjList.stable_table false false).

