(* ===== verification/Snapshot.v ===== *)
(** The kernels of the drivers of the transactional databases,
    [library/gtx/gtx_driver] and [library/livegraph/livegraph_driver]: they read
    the graph through a transaction, in which the vertices have dense internal
    identifiers with holes, and keep one array element per identifier. The text
    of the two drivers is the same up to the identifier of the first vertex, 1
    in GTX and 0 in LiveGraph, and the interface of the transaction; what they
    have in common is defined here over a [Reader]. *)

From S2P Require Import Prelude Graphs Gapbs Bfs Edge AdjList CsrRank.

(** ** Reading a graph

    What the kernels ask of a transaction: the external identifier that is the
    payload of a vertex, if the vertex exists, its outgoing edges in the order
    of the iterator, and their number. *)

Record Reader := mkReader {
  sr_first : nat;
  sr_vertex : nat -> option Z;
  sr_edges : nat -> list (nat * double);
  sr_degree : nat -> Z;
}.

(** The position of a vertex in the arrays, which must not wrap. *)
Definition idx (r : Reader) (v : nat) : res nat :=
  if (v <? sr_first r)%nat then Undef else Val (v - sr_first r)%nat.

(** The identifiers that the loops visit, [n] of them. *)
Definition sr_ids (r : Reader) (n : nat) : list nat := seq (sr_first r) n.

(** ** BFS *)

(** The loop over the edges of a vertex, that stops at the first one to the
    frontier. *)
Fixpoint bu_scan (r : Reader) (front : list bool) (edges : list (nat * double)) : res bool :=
  match edges with
  | [] => Val false
  | (dst, _) :: edges =>
    i ← idx r dst;
    b ← get_bit front i;
    if b : bool then Val true else bu_scan r front edges
  end.

Definition bu_visit (r : Reader) (distance : Z) (front : list bool)
    (st : list Z * list bool * Z) (u : nat) : res (list Z * list bool * Z) :=
  let '(distances, next, awake_count) := st in
  i ← idx r u;
  x ← arr_get distances i;
  if x =? int64_max then Val st
  else if x <? 0 then
    found ← bu_scan r front (sr_edges r u);
    if found : bool then
      distances ← arr_set distances i distance;
      next ← set_bit next i;
      Val (distances, next, i64 (awake_count + 1))
    else Val st
  else Val st.

Definition BUStep_of `{Omp} (r : Reader) (max_vertex_id : nat) (distances : list Z) (distance : Z)
    (front next : list bool) : res (list Z * list bool * Z) :=
  res_fold (bu_visit r distance front) (distances, bm_reset next, 0)
    (omp_order distance (sr_ids r max_vertex_id)).

Definition td_edge (r : Reader) (distance : Z) (st : list Z * list nat * Z) (e : nat * double) :
    res (list Z * list nat * Z) :=
  let '(distances, lqueue, scout_count) := st in
  i ← idx r e.1;
  curr_val ← arr_get distances i;
  if curr_val <? 0 then
    distances ← arr_set distances i distance;
    Val (distances, lqueue ++ [e.1], i64 (scout_count + i64 (- curr_val)))
  else Val st.

Definition TDStep_of `{Omp} (r : Reader) (distances : list Z) (distance : Z)
    (queue : SlidingQueue) : res (list Z * SlidingQueue * Z) :=
  '(distances, lqueue, scout_count) ←
    res_fold (fun st u => res_fold (td_edge r distance) st (sr_edges r u))
      (distances, [], 0) (omp_order distance (window queue));
  queue ← q_flush queue lqueue;
  Val (distances, queue, scout_count).

Definition QueueToBitmap_of `{Omp} (r : Reader) (queue : SlidingQueue) (bm : list bool) :
    res (list bool) :=
  res_fold (fun bm u => i ← idx r u; set_bit bm i) bm (omp_order 0 (window queue)).

Definition BitmapToQueue_of `{Omp} (r : Reader) (max_vertex_id : nat) (bm : list bool)
    (queue : SlidingQueue) : res SlidingQueue :=
  lqueue ← res_fold
    (fun lqueue n => i ← idx r n; b ← get_bit bm i; Val (if b : bool then lqueue ++ [n] else lqueue))
    [] (omp_order 0 (sr_ids r max_vertex_id));
  queue ← q_flush queue lqueue;
  Val (slide_window queue).

(** The initial distance of one vertex. *)
Definition init_distance (r : Reader) (n : nat) : Z :=
  match sr_vertex r n with
  | None => int64_max
  | Some _ =>
    let out_degree := sr_degree r n in
    if negb (out_degree =? 0) then i64 (- out_degree) else -1
  end.

Definition init_distances_of `{Omp} (r : Reader) (max_vertex_id : nat) : res (list Z) :=
  res_fold (fun distances i => x ← Val (init_distance r (sr_first r + i)); arr_set distances i x)
    (replicate max_vertex_id 0) (omp_order 0 (seq 0 max_vertex_id)).

(** The search, from the initial distances. *)
Definition search `{Omp, Timer} (steps : BfsSteps) (r : Reader) (num_vertices : Z)
    (max_vertex_id root : nat) (distances : list Z) (edges_to_check alpha beta : Z) :
    res (list Z * nat) :=
  i ← idx r root;
  distances ← arr_set distances i 0;
  queue ← q_push_back (SlidingQueue_new max_vertex_id) root;
  let queue := slide_window queue in
  let curr := bm_reset (Bitmap_new max_vertex_id) in
  let front := bm_reset (Bitmap_new max_vertex_id) in
  let scout_count := i64 (sr_degree r root) in
  bfs_loop steps (i64 num_vertices) alpha beta (max_vertex_id + 1)
    (mkBfsState distances queue curr front edges_to_check scout_count 1) 0 (max_vertex_id + 1).

(** ** PageRank

    The scores and the degrees of all vertices; the degree marks the vertices
    that do not exist. *)

Definition pr_init (r : Reader) (init_score : double) (st : list double * list Z) (v : nat) :
    res (list double * list Z) :=
  let '(scores, degrees) := st in
  i ← idx r v;
  scores ← arr_set scores i init_score;
  degrees ← arr_set degrees i
    (match sr_vertex r v with Some _ => sr_degree r v | None => uint64_max end);
  Val (scores, degrees).

Definition pr_contribution_of (r : Reader) (scores : list double) (degrees : list Z)
    (st : list double * list double) (v : nat) : res (list double * list double) :=
  let '(dangling, outgoing_contrib) := st in
  i ← idx r v;
  out_degree ← arr_get degrees i;
  if out_degree =? uint64_max then Val st
  else
    score ← arr_get scores i;
    if out_degree =? 0 then Val (dangling ++ [score], outgoing_contrib)
    else
      outgoing_contrib ← arr_set outgoing_contrib i (ddiv score (double_of_Z out_degree));
      Val (dangling, outgoing_contrib).

Definition pr_score_of (r : Reader) (degrees : list Z) (outgoing_contrib : list double)
    (base_score damping_factor dangling_sum : double) (scores : list double) (v : nat) :
    res (list double) :=
  i ← idx r v;
  degree ← arr_get degrees i;
  if degree =? uint64_max then Val scores
  else
    incoming_total ← res_fold
      (fun incoming_total (e : nat * double) =>
         u ← idx r e.1;
         c ← arr_get outgoing_contrib u;
         Val (dadd incoming_total c))
      d_zero (sr_edges r v);
    arr_set scores i (dadd base_score (dmul damping_factor (dadd incoming_total dangling_sum))).

Fixpoint pr_iterations_of `{Omp, OmpReduce, Timer} (r : Reader) (num_vertices : Z)
    (max_vertex_id : nat) (base_score damping_factor : double) (degrees : list Z)
    (scores outgoing_contrib : list double) (k num_iterations : nat) : res (list double * nat) :=
  match num_iterations with
  | O => Val (scores, k)
  | S num_iterations =>
    if is_timeout k then Val (scores, S k)
    else
      '(dangling, outgoing_contrib) ← res_fold (pr_contribution_of r scores degrees)
        ([], outgoing_contrib) (omp_order (Z.of_nat k) (sr_ids r max_vertex_id));
      let dangling_sum := ddiv (omp_dsum (Z.of_nat k) dangling) (double_of_Z num_vertices) in
      scores ← res_fold
        (pr_score_of r degrees outgoing_contrib base_score damping_factor dangling_sum)
        scores (omp_order (Z.of_nat k) (sr_ids r max_vertex_id));
      pr_iterations_of r num_vertices max_vertex_id base_score damping_factor degrees scores
        outgoing_contrib (S k) num_iterations
  end.

Definition pagerank_of `{Omp, OmpReduce, Timer} (r : Reader) (num_vertices : Z)
    (max_vertex_id num_iterations : nat) (damping_factor : double) : res (list double * nat) :=
  let init_score := ddiv d_one (double_of_Z num_vertices) in
  let base_score := ddiv (dsub d_one damping_factor) (double_of_Z num_vertices) in
  '(scores, degrees) ← res_fold (pr_init r init_score)
    (replicate max_vertex_id d_zero, replicate max_vertex_id 0)
    (omp_order 0 (sr_ids r max_vertex_id));
  let outgoing_contrib := replicate max_vertex_id d_zero in
  pr_iterations_of r num_vertices max_vertex_id base_score damping_factor degrees scores
    outgoing_contrib 0 num_iterations.

(** ** The output *)

(** [translate]: the external identifier and the value of every vertex, and a
    marker for those that do not exist. *)
Definition translate_of {T} `{Omp} (r : Reader) (max : T) (values : list T) (data_sz : nat) :
    res (list (Z * T)) :=
  res_fold
    (fun output i =>
       p ← match sr_vertex r (sr_first r + i) with
           | None => Val (uint64_max, max)
           | Some external_id => x ← arr_get values i; Val (external_id, x)
           end;
       arr_set output i p)
    (replicate data_sz (0, max)) (omp_order 0 (seq 0 data_sz)).

(** The lines of the output; the marker is skipped. *)
Definition save_results {T} (negative : T -> bool) (max : T) (negative_scores : bool)
    (result : list (Z * T)) : list (Z * T) :=
  (fun p => if negb negative_scores && negative p.2 then (p.1, max) else p) <$>
    filter (fun p => p.1 <> uint64_max) result.

(** ** A reader of a graph *)

(** The reader [r] shows the graph [s] at [N] positions. *)
Record reads (r : Reader) (N : nat) (s : Spec) : Prop := {
  rd_vertex : forall x, x ∈ spec_vertices s <->
    exists v, (v < N)%nat /\ sr_vertex r (sr_first r + v) = Some x;
  rd_inj : forall u v x, (u < N)%nat -> (v < N)%nat ->
    sr_vertex r (sr_first r + u) = Some x -> sr_vertex r (sr_first r + v) = Some x -> u = v;
  rd_edges : forall u d w, (u < N)%nat -> (d, w) ∈ sr_edges r (sr_first r + u) <->
    exists v x y, d = (sr_first r + v)%nat /\ (v < N)%nat /\
      sr_vertex r (sr_first r + u) = Some x /\ sr_vertex r (sr_first r + v) = Some y /\
      spec_arcs s !! (x, y) = Some w;
  rd_unique : forall u, (u < N)%nat -> NoDup (sr_edges r (sr_first r + u)).*1;
  rd_degree : forall u, (u < N)%nat ->
    sr_degree r (sr_first r + u) = Z.of_nat (length (sr_edges r (sr_first r + u)));
  rd_closed : forall x y, arc s x y -> x ∈ spec_vertices s /\ y ∈ spec_vertices s;
}.

Section snapshot.
Context (r : Reader) (N : nat) (s : Spec) (Hreads : reads r N s).

(** The external identifier at a position, and the position of a vertex. *)
Definition name (v : nat) : option Z := sr_vertex r (sr_first r + v).

Definition enc (v : nat) : nat := (sr_first r + v)%nat.

Definition pos (x : Z) : nat :=
  default 0%nat (fst <$> list_find (fun v => name v = Some x) (seq 0 N)).

(** The positions of the neighbours of a vertex. *)
Definition iout (u : nat) : list nat := (fun d => d - sr_first r)%nat <$> (sr_edges r (enc u)).*1.

Definition ilink (u v : nat) : Prop := (u < N)%nat /\ v ∈ iout u.

#[export] Instance enc_inj : Inj (=) (=) enc.
Proof. intros u v. unfold enc. lia. Qed.

Lemma idx_enc v : idx r (enc v) = Val v.
Proof. unfold idx, enc. rewrite (proj2 (Nat.ltb_ge _ _)) by lia. f_equal. lia. Qed.

Lemma sr_ids_enc n : sr_ids r n = enc <$> seq 0 n.
Proof.
  unfold sr_ids, enc. generalize (sr_first r). intros f. change (seq f n) with (seq f n).
  apply list_eq. intros i. rewrite list_lookup_fmap. destruct (decide (i < n)%nat).
  - rewrite !lookup_seq_lt by lia. done.
  - rewrite !lookup_seq_ge by lia. done.
Qed.

Lemma pos_spec x : x ∈ spec_vertices s -> (pos x < N)%nat /\ name (pos x) = Some x.
Proof.
  intros (v & Hv & Hx)%(rd_vertex _ _ _ Hreads). unfold pos.
  destruct (list_find_elem_of (fun v => name v = Some x) (seq 0 N) v) as [[i u] Hf];
    [by apply elem_of_seq; lia|done|].
  rewrite Hf. apply list_find_Some in Hf as (Hi & Hu & _). simpl.
  apply lookup_seq in Hi as [-> Hi]. by rewrite Nat.add_0_l in Hu.
Qed.

Lemma name_pos v x : (v < N)%nat -> name v = Some x <-> x ∈ spec_vertices s /\ pos x = v.
Proof.
  intros Hv. split.
  - intros Hx. assert (x ∈ spec_vertices s) as Hxs by (apply (rd_vertex _ _ _ Hreads); eauto).
    split; [done|]. destruct (pos_spec x Hxs). by apply (rd_inj _ _ _ Hreads _ _ x).
  - intros [Hx <-]. by apply pos_spec.
Qed.

Lemma pos_inj x y : x ∈ spec_vertices s -> y ∈ spec_vertices s -> pos x = pos y -> x = y.
Proof.
  intros Hx Hy Hxy. destruct (pos_spec x Hx) as [_ Hpx], (pos_spec y Hy) as [_ Hpy].
  rewrite Hxy in Hpx. congruence.
Qed.

Lemma edges_enc u : (u < N)%nat -> (sr_edges r (enc u)).*1 = enc <$> iout u.
Proof.
  intros Hu. unfold iout. rewrite <- list_fmap_compose, <- list_fmap_id at 1.
  apply list_fmap_ext. intros i d Hd. apply list_elem_of_lookup_2, list_elem_of_fmap in Hd
    as ([d' w] & -> & Hd). apply (rd_edges _ _ _ Hreads) in Hd as (v & x & y & -> & _); [|done].
  unfold enc. simpl. lia.
Qed.

Lemma iout_arc u v : (u < N)%nat ->
  v ∈ iout u <-> exists x y, (v < N)%nat /\ name u = Some x /\ name v = Some y /\ arc s x y.
Proof.
  intros Hu. unfold iout, arc. rewrite list_elem_of_fmap. setoid_rewrite list_elem_of_fmap. split.
  - intros (d & -> & [d' w] & -> & Hd). apply (rd_edges _ _ _ Hreads) in Hd
      as (v & x & y & -> & Hv & Hx & Hy & Hw); [|done].
    exists x, y. simpl. replace (sr_first r + v - sr_first r)%nat with v by lia. eauto.
  - intros (x & y & Hv & Hx & Hy & [w Hw]). exists (enc v). split; [unfold enc; lia|].
    exists (enc v, w). split; [done|]. apply (rd_edges _ _ _ Hreads); [done|].
    exists v, x, y. done.
Qed.

Lemma iout_lt u v : (u < N)%nat -> v ∈ iout u -> (v < N)%nat.
Proof. intros Hu (? & ? & ? & _)%iout_arc; done. Qed.

Lemma iout_NoDup u : (u < N)%nat -> NoDup (iout u).
Proof.
  intros Hu. pose proof (rd_unique _ _ _ Hreads u Hu) as Hnd. fold (enc u) in Hnd.
  rewrite edges_enc in Hnd by done. by apply NoDup_fmap_1 in Hnd.
Qed.

Lemma iout_length u : (u < N)%nat -> (length (iout u) <= N)%nat.
Proof.
  intros Hu. assert (iout u ⊆+ seq 0 N) as Hs.
  { apply NoDup_submseteq; [by apply iout_NoDup|]. intros v Hv. apply elem_of_seq.
    apply iout_lt in Hv; [lia|done]. }
  apply submseteq_length in Hs. by rewrite length_seq in Hs.
Qed.

Lemma degree_iout u : (u < N)%nat -> sr_degree r (enc u) = Z.of_nat (length (iout u)).
Proof. intros Hu. unfold enc. rewrite (rd_degree _ _ _ Hreads) by lia. unfold iout. by rewrite !length_fmap. Qed.

Lemma pos_link x y : x ∈ spec_vertices s -> y ∈ spec_vertices s -> ilink (pos x) (pos y) <-> arc s x y.
Proof.
  intros Hx Hy. destruct (pos_spec x Hx) as [Hpx Hnx], (pos_spec y Hy) as [Hpy Hny]. unfold ilink.
  rewrite iout_arc by done. split.
  - intros (_ & x' & y' & _ & Hx' & Hy' & Harc). congruence.
  - intros Harc. split; [done|]. by exists x, y.
Qed.

Lemma link_pos u v : ilink u v ->
  exists x y, x ∈ spec_vertices s /\ y ∈ spec_vertices s /\ pos x = u /\ pos y = v /\ arc s x y.
Proof.
  intros [Hu (x & y & Hv & Hx & Hy & Harc)%iout_arc]; [|done].
  apply name_pos in Hx as [? <-]; [|done]. apply name_pos in Hy as [? <-]; [|done]. by exists x, y.
Qed.

Lemma link_lt u v : ilink u v -> (u < N)%nat /\ (v < N)%nat.
Proof. intros [Hu Hv]. split; [done|]. by eapply iout_lt. Qed.

Lemma walk_pos n x y : x ∈ spec_vertices s -> y ∈ spec_vertices s ->
  walk ilink n (pos x) (pos y) <-> walk (arc s) n x y.
Proof.
  apply (walk_image _ _ (fun x => x ∈ spec_vertices s)).
  - apply pos_inj.
  - apply pos_link.
  - intros u v (x' & y' & ? & ? & <- & <- & _)%link_pos. by exists x', y'.
  - apply (rd_closed _ _ _ Hreads).
Qed.

Lemma hop_dist_pos n x y : x ∈ spec_vertices s -> y ∈ spec_vertices s ->
  hop_dist ilink (pos x) (pos y) n <-> hop_dist (arc s) x y n.
Proof. intros Hx Hy. unfold hop_dist. by setoid_rewrite (fun m => walk_pos m x y Hx Hy). Qed.

Lemma vertices_size : (size (spec_vertices s) <= N)%nat.
Proof.
  assert (pos <$> elements (spec_vertices s) ⊆+ seq 0 N) as Hs.
  { apply NoDup_submseteq.
    - apply NoDup_fmap_2_strong; [|apply NoDup_elements].
      intros x y Hx%elem_of_elements Hy%elem_of_elements. by apply pos_inj.
    - intros v (x & -> & Hx%elem_of_elements)%list_elem_of_fmap. apply elem_of_seq.
      pose proof (pos_spec x Hx). lia. }
  apply submseteq_length in Hs. by rewrite length_fmap, length_seq in Hs.
Qed.

(** *** The output *)

Lemma translate_of_spec `{Omp} {T} (max : T) values :
  length values = N ->
  translate_of r max values N =
    Val ((fun i => match name i with
                   | None => (uint64_max, max)
                   | Some e => (e, default max (values !! i))
                   end) <$> seq 0 N).
Proof.
  intros Hl. apply (omp_fill 0 (fun i => match sr_vertex r (sr_first r + i) with
    | None => Val (uint64_max, max) | Some e => x ← arr_get values i; Val (e, x) end));
    [apply length_replicate|].
  intros i Hi. fold (name i). destruct (name i); [|done].
  destruct (lookup_lt_is_Some_2 values i) as [x Hx]; [lia|].
  rewrite (arr_get_val _ _ _ Hx), Hx. done.
Qed.

Lemma save_spec {T} (negative : T -> bool) (max : T) negative_scores values :
  uint64_max ∉ spec_vertices s -> length values = N ->
  let lines := save_results negative max negative_scores
    ((fun i => match name i with
               | None => (uint64_max, max)
               | Some e => (e, default max (values !! i))
               end) <$> seq 0 N) in
  lines.*1 ≡ₚ elements (spec_vertices s) /\
  forall x y, (x, y) ∈ lines <-> x ∈ spec_vertices s /\ exists z, values !! pos x = Some z /\
    y = if negb negative_scores && negative z then max else z.
Proof.
  intros Hmax Hl.
  set (g := fun i => match name i with None => (uint64_max, max) | Some e => (e, default max (values !! i)) end).
  set (out := fun p : Z * T => if negb negative_scores && negative p.2 then (p.1, max) else p).
  assert (forall x z, (x, z) ∈ filter (fun p : Z * T => p.1 <> uint64_max) (g <$> seq 0 N) <->
    x ∈ spec_vertices s /\ values !! pos x = Some z) as Hin.
  { intros x z. rewrite list_elem_of_filter, list_elem_of_fmap. split.
    - intros (Hne & i & Hg & Hi). apply elem_of_seq in Hi. unfold g in Hg.
      destruct (name i) as [e|] eqn:He; [|simplify_eq; done].
      apply name_pos in He as [He <-]; [|lia].
      injection Hg as -> ->. split; [done|]. destruct (pos_spec e He) as [Hp _].
      destruct (lookup_lt_is_Some_2 values (pos e)) as [y Hy]; [lia|]. by rewrite Hy.
    - intros [Hx Hz]. destruct (pos_spec x Hx) as [Hp Hn]. split; [simpl; congruence|].
      exists (pos x). rewrite elem_of_seq. split; [|lia]. unfold g. by rewrite Hn, Hz. }
  assert (forall p, (out p).1 = p.1) as Hout.
  { intros p. unfold out. by destruct (negb negative_scores && negative p.2). }
  unfold save_results. fold out. split.
  - apply NoDup_Permutation; [|apply NoDup_elements|].
    + rewrite <- list_fmap_compose, filter_fmap, <- list_fmap_compose.
      apply NoDup_fmap_2_strong; [|apply NoDup_filter, NoDup_seq].
      intros i j (Hi & Hi')%list_elem_of_filter (Hj & Hj')%list_elem_of_filter.
      apply elem_of_seq in Hi', Hj'. simpl in *. rewrite !Hout.
      unfold g in *. destruct (name i) as [e|] eqn:He; [|done].
      destruct (name j) as [e'|] eqn:He'; [|done]. simpl. intros <-.
      apply name_pos in He as [_ <-]; [|lia]. by apply name_pos in He' as [_ <-]; [|lia].
    + intros x. rewrite elem_of_elements, <- list_fmap_compose, list_elem_of_fmap. split.
      * intros ([y z] & -> & Hy). apply Hin in Hy as [? _]. simpl. by rewrite Hout.
      * intros Hx. destruct (pos_spec x Hx) as [Hp _].
        destruct (lookup_lt_is_Some_2 values (pos x)) as [z Hz]; [lia|].
        exists (x, z). split; [simpl; by rewrite Hout|]. by apply Hin.
  - intros x y. rewrite list_elem_of_fmap. split.
    + intros ([x' z] & Hp & Hy). apply Hin in Hy as [? ?]. unfold out in Hp. simpl in Hp.
      destruct (negb negative_scores && negative z) eqn:Hc; injection Hp as -> ->;
        (split; [done|]); exists z; by rewrite Hc.
    + intros (Hx & z & Hz & ->). exists (x, z). split; [|by apply Hin]. unfold out. simpl.
      by destruct (negb negative_scores && negative z).
Qed.
End snapshot.

(** ** BFS: proofs *)

(** What a search tells about the vertices. *)
Definition searched (r : Reader) (N : nat) (s : Spec) (src : Z) (dist : list Z) : Prop :=
  length dist = N /\ forall x, x ∈ spec_vertices s -> exists z, dist !! pos r N x = Some z /\
    ((exists n, z = Z.of_nat n /\ hop_dist (arc s) src x n) \/
     (z < 0 /\ ~ reachable (arc s) src x)).

(** The lines that a BFS is meant to write. *)
Definition bfs_lines (s : Spec) (src : Z) (lines : list (Z * Z)) : Prop :=
  lines.*1 ≡ₚ elements (spec_vertices s) /\
  forall x n, (x, n) ∈ lines ->
    (exists m, n = Z.of_nat m /\ hop_dist (arc s) src x m) \/
    (n = int64_max /\ ~ reachable (arc s) src x).

Section bfs_snapshot.
Context `{Omp, Timer} (r : Reader) (N : nat) (s : Spec) (Hreads : reads r N s).
Context (Hsym : forall x y, spec_arcs s !! (x, y) = spec_arcs s !! (y, x)).
Context (HN : Z.of_nat N < 2 ^ 62).

Notation E := (ilink r N).
Notation out := (iout r).

Lemma ilink_sym u v : E u v -> E v u.
Proof.
  intros (x & y & Hx & Hy & <- & <- & Hs)%(link_pos r N s Hreads).
  apply (pos_link r N s Hreads); [done|done|]. unfold arc. by rewrite Hsym.
Qed.

Lemma snap_bu_scan front (edges : list (nat * double)) l :
  edges.*1 = enc r <$> l -> (forall v, v ∈ l -> (v < length front)%nat) ->
  bu_scan r front edges = Val (existsb (bit front) l).
Proof.
  revert l. induction edges as [|[d w] edges IH]; intros [|v l] Hl Hv; try done.
  cbn [fmap list_fmap] in Hl. injection Hl as -> Hl. cbn [bu_scan existsb].
  rewrite idx_enc. bind_val. rewrite bit_get by (apply Hv; left). bind_val.
  destruct (bit front v); [done|]. apply IH; [done|]. intros x Hx. apply Hv. by right.
Qed.

Lemma snap_bu_visit d front dist next c u x :
  length dist = N -> length next = N -> length front = N -> dist !! u = Some x ->
  bu_visit r d front (dist, next, c) (enc r u) =
  Val (if (x <? 0) && existsb (bit front) (out u)
       then (<[u := d]> dist, <[u := true]> next, i64 (c + 1)) else (dist, next, c)).
Proof.
  intros Hd Hn Hf Hx. assert (u < N)%nat as Hu by (apply lookup_lt_Some in Hx; lia).
  unfold bu_visit. rewrite idx_enc. bind_val. rewrite (arr_get_val _ _ _ Hx). bind_val.
  destruct (Z.eqb_spec x int64_max) as [->|Hmax]; [done|].
  destruct (x <? 0); [|done]. cbn [andb].
  rewrite (snap_bu_scan front _ (out u)) by
    (apply (edges_enc r N s Hreads u Hu) ||
     (intros v Hv; apply (iout_lt r N s Hreads u v Hu) in Hv; lia)).
  bind_val. destruct (existsb (bit front) (out u)); [|done].
  rewrite arr_set_val by lia. bind_val. unfold set_bit. rewrite arr_set_val by lia. done.
Qed.

Lemma snap_td_edges d (edges : list (nat * double)) l st :
  edges.*1 = enc r <$> l -> (forall v, v ∈ l -> (v < N)%nat) -> length st.1.1 = N ->
  res_fold (td_edge r d) st edges = Val (foldl (td_claim (enc r) d) st l).
Proof.
  revert l st. induction edges as [|[e w] edges IH]; intros [|v l] [[dist lq] sc] Hl Hv Hst; try done.
  cbn [fmap list_fmap] in Hl. injection Hl as -> Hl. cbn [res_fold foldl fst] in *.
  destruct (lookup_lt_is_Some_2 dist v) as [x Hx]; [rewrite Hst; apply Hv; left|].
  unfold td_edge at 2, td_claim at 2. cbn [fst]. rewrite idx_enc. bind_val.
  rewrite (arr_get_val _ _ _ Hx), Hx. bind_val. destruct (x <? 0).
  - rewrite arr_set_val by (apply lookup_lt_Some in Hx; lia). bind_val.
    apply IH; [done|intros y Hy; apply Hv; by right|]. cbn. by rewrite length_insert.
  - apply IH; [done|intros y Hy; apply Hv; by right|done].
Qed.

(** The steps of every such driver search the graph that its reader shows. *)
Lemma snapshot_laws steps :
  BUStep steps = BUStep_of r N -> TDStep steps = TDStep_of r ->
  QueueToBitmap steps = QueueToBitmap_of r -> BitmapToQueue steps = BitmapToQueue_of r N ->
  BfsLaws N E (enc r) steps.
Proof.
  intros Hbu Htd Hq2b Hb2q.
  assert (forall u v, (u < N)%nat -> v ∈ out u <-> E u v) as Hout.
  { intros u v Hu. unfold ilink. tauto. }
  assert (forall u v, E u v -> (u < N)%nat /\ (v < N)%nat) as Hlt by apply (link_lt r N s Hreads).
  split.
  - intros dist d front next Hd Hf Hn. rewrite Hbu. unfold BUStep_of, bm_reset. rewrite Hn, sr_ids_enc.
    destruct (bu_fold_law N (enc r) HN d (fun u => existsb (bit front) (out u)) dist d
      (bu_visit r d front) Hd) as (dist' & next' & c & Heq & [Hl Hv] & Hln & Hc & Hb & Hpos).
    { intros. by apply snap_bu_visit. }
    rewrite Heq. exists dist', next', c.
    assert (forall v, existsb (bit front) (out v) = true /\ (v < N)%nat <->
      exists p, bit front p = true /\ E p v) as HP.
    { intros v. rewrite existsb_exists. setoid_rewrite <- list_elem_of_In.
      split; [intros [(p & H1' & H2') Hvn]|intros (p & H1' & H2')].
      - exists p. split; [done|]. by apply ilink_sym.
      - apply Hlt in H2' as Hpv. split; [|tauto]. exists p.
        split; [|done]. apply Hout; [tauto|by apply ilink_sym]. }
    split_and!; try done.
    + split; [done|]. intros v x Hx. destruct (Hv v x Hx) as (y & Hy & Hcase). exists y.
      apply lookup_lt_Some in Hx. rewrite <- HP. naive_solver lia.
    + intros v. rewrite Hb. unfold fresh. rewrite <- HP. split; [|tauto].
      intros [(x & Hx & Hneg) HPv]. apply lookup_lt_Some in Hx as Hvl. split; [by exists x|]. split; [done|lia].
  - intros dist d q W Hd Hw Hd0 HW. rewrite Htd. unfold TDStep_of. rewrite Hw.
    destruct (td_fold_law N (enc r) HN d out dist d
      (fun st u => res_fold (td_edge r d) st (sr_edges r u)) W Hd Hd0)
      as (dist' & l & scout & -> & Hv & Hl & Hin).
    { intros u v Hu Hv. apply HW in Hu. by apply (iout_lt r N s Hreads u v Hu). }
    { intros st u Hst Hu. apply snap_td_edges; [by apply (edges_enc r N s Hreads); auto| |done].
      intros v. apply (iout_lt r N s Hreads). auto. }
    assert (forall v, (exists p, p ∈ W /\ v ∈ out p) <-> exists p, p ∈ W /\ E p v) as HP.
    { intros v. split; intros (p & Hp & Hpv); exists p; (split; [done|]); apply Hout; auto. }
    exists dist', l, scout. split_and!; try done.
    + by apply (visit_iff _ _ _ _ _ HP).
    + intros v. rewrite Hin. by apply fresh_iff.
  - intros q b W Hb Hw HW. rewrite Hq2b. unfold QueueToBitmap_of. rewrite Hw.
    apply (q2b_fold_law N (enc r)); try done.
    intros b' v Hb' Hv. rewrite idx_enc. bind_val. unfold set_bit. by rewrite arr_set_val by lia.
  - intros q b Hb. rewrite Hb2q. unfold BitmapToQueue_of. rewrite sr_ids_enc.
    destruct (b2q_fold_law N (enc r) 0
      (fun lqueue n => i ← idx r n; b0 ← get_bit b i; Val (if b0 : bool then lqueue ++ [n] else lqueue)) b Hb)
      as (l & Heq & Hl & Hin).
    { intros acc v Hv. rewrite idx_enc. bind_val. by rewrite bit_get by lia. }
    rewrite Heq. exists l. by split_and!.
Qed.

Notation dist0 := ((fun i => init_distance r (enc r i)) <$> seq 0 N).

Lemma init_distances_val : init_distances_of r N = Val dist0.
Proof.
  apply (omp_fill 0 (fun i => Val (init_distance r (enc r i)))); [apply length_replicate|done].
Qed.

(** Negative exactly at the positions of the vertices. *)
Lemma init_distance_sign x : x ∈ spec_vertices s -> init_distance r (enc r (pos r N x)) < 0.
Proof.
  intros Hx. destruct (pos_spec r N s Hreads x Hx) as [Hp Hn]. unfold init_distance.
  change (sr_vertex r (enc r (pos r N x))) with (name r (pos r N x)). rewrite Hn.
  rewrite (degree_iout r N s Hreads _ Hp).
  pose proof (iout_length r N s Hreads _ Hp) as Hl.
  destruct (Z.eqb_spec (Z.of_nat (length (out (pos r N x)))) 0); simpl; [lia|]. rewrite i64_id; lia.
Qed.

Lemma ghost_pos x : x ∈ spec_vertices s -> ~ ghost dist0 (pos r N x).
Proof.
  intros Hx (z & Hz & Hpos). destruct (pos_spec r N s Hreads x Hx) as [Hlt _].
  rewrite list_lookup_fmap, lookup_seq_lt in Hz by done. simpl in Hz. simplify_eq.
  pose proof (init_distance_sign x Hx). lia.
Qed.

Lemma search_spec steps num_vertices src edges alpha beta :
  BfsLaws N E (enc r) steps -> src ∈ spec_vertices s -> 0 <= num_vertices < 2 ^ 63 -> 0 < beta ->
  exists dist k,
    search steps r num_vertices N (enc r (pos r N src)) dist0 edges alpha beta = Val (dist, k) /\
    (0 < k)%nat /\ (is_timeout (k - 1) = true \/ searched r N s src dist).
Proof.
  intros Hlaws Hsrc Hnv Hbeta. destruct (pos_spec r N s Hreads src Hsrc) as [Hroot _].
  assert (length dist0 = N) as Hlen by (by rewrite length_fmap, length_seq).
  unfold search. rewrite idx_enc. bind_val. rewrite arr_set_val by lia. bind_val.
  unfold q_push_back. cbn [shared length SlidingQueue_new shared_size].
  rewrite (proj2 (Nat.ltb_lt 0 N)) by lia. bind_val.
  rewrite i64_id by lia.
  set (root := pos r N src) in *.
  destruct (bfs_loop_spec N E (enc r) steps root dist0 alpha beta
    (fun p v Hpv => proj2 (link_lt r N s Hreads p v Hpv)) Hlaws HN Hbeta num_vertices (proj1 Hnv) Hlen Hroot) with
    (fuel := (N + 1)%nat) (k := 0%nat) (d := 0%nat) (S := [root]) (W := [root])
    (st := mkBfsState (<[root := 0]> dist0)
      (slide_window (mkQueue ([] ++ [enc r root]) N 0 0))
      (bm_reset (Bitmap_new N)) (bm_reset (Bitmap_new N)) edges (i64 (sr_degree r (enc r root))) 1)
    as (dist & k & Heq & Hk & Hres).
  - intros p v (x & y & _ & Hy & _ & <- & _)%(link_pos r N s Hreads). by apply ghost_pos.
  - by apply ghost_pos.
  - apply (bfs_inv_init N E (enc r) steps); try done;
      [intros p v Hpv; apply (link_lt r N s Hreads p v Hpv)|by apply ghost_pos].
  - done.
  - unfold queue_inv. cbn [queue slide_window shared_out_start shared_out_end shared shared_size length app].
    split; [done|]. split; [done|]. split; [apply NoDup_singleton|]. split_and!; try done; [|lia|].
    + intros v ->%list_elem_of_singleton. exists 0%nat. split; [lia|]. apply hop_dist_refl.
    + intros v. rewrite list_elem_of_singleton. split; [intros ->; apply hop_dist_refl|].
      intros ->%hop_dist_zero. done.
  - cbn [front curr]. unfold bm_reset, Bitmap_new. by rewrite !length_replicate.
  - cbn [front curr]. unfold bm_reset, Bitmap_new. by rewrite !length_replicate.
  - intros v Hv. unfold bm_reset in Hv. cbn [front] in Hv. by rewrite bit_replicate in Hv.
  - lia.
  - lia.
  - exists dist, k. split; [exact Heq|]. split; [done|]. destruct Hres as [?|[Hl Hres]]; [by left|right].
    split; [done|]. intros x Hx. destruct (pos_spec r N s Hreads x Hx) as [Hlt _].
    destruct (Hres _ Hlt) as [[Hg _]|(_ & z & Hz & Hcase)]; [by apply ghost_pos in Hg|].
    exists z. split; [done|]. destruct Hcase as [(n & Hn & ->)|[Hno Hneg]].
    + left. exists n. split; [done|]. by apply (hop_dist_pos r N s Hreads).
    + right. split; [done|]. intros [n Hw]. apply Hno. exists n. by apply (walk_pos r N s Hreads).
Qed.
End bfs_snapshot.

Lemma searched_lines r N s src dist (Hreads : reads r N s) :
  uint64_max ∉ spec_vertices s -> searched r N s src dist ->
  bfs_lines s src (save_results (fun x => x <? 0) int64_max false
    ((fun i => match name r i with
               | None => (uint64_max, int64_max)
               | Some e => (e, default int64_max (dist !! i))
               end) <$> seq 0 N)).
Proof.
  intros Hmax [Hlen Hres].
  destruct (save_spec r N s Hreads (fun x => x <? 0) int64_max false dist Hmax Hlen) as [Hperm Hin].
  split; [done|]. intros x n (Hx & z & Hz & ->)%Hin.
  destruct (Hres x Hx) as (z' & Hz' & Hcase). simplify_eq. cbn [negb andb].
  destruct Hcase as [(m & -> & Hm)|[Hneg Hno]].
  - left. exists m. by destruct (Z.ltb_spec (Z.of_nat m) 0); [lia|].
  - right. by rewrite (proj2 (Z.ltb_lt _ _) Hneg).
Qed.

(** ** PageRank: proofs *)

(** One step of the iteration that defines PageRank on an undirected graph; the
    sums over the sinks and over the neighbours are taken in some order. *)
Definition pr_round (s : Spec) (damping_factor : double) (rank rank' : Z -> double) : Prop :=
  let V := double_of_Z (Z.of_nat (size (spec_vertices s))) in
  exists sinks dangling,
    lists (fun v => v ∈ spec_vertices s /\ forall x, ~ arc s v x) sinks /\
    dsum_of (rank <$> sinks) dangling /\
    forall v, v ∈ spec_vertices s -> exists ins, lists (fun u => arc s v u) ins /\
      rank' v = dadd (ddiv (dsub d_one damping_factor) V)
        (dmul damping_factor
          (dadd (foldl (fun t u => dadd t (ddiv (rank u) (double_of_Z (out_degree s u)))) d_zero ins)
             (ddiv dangling V))).

Section pagerank_snapshot.
Context `{Omp, OmpReduce, Timer} (r : Reader) (N : nat) (s : Spec) (Hreads : reads r N s).
Context (Hsym : forall x y, spec_arcs s !! (x, y) = spec_arcs s !! (y, x)).
Context (HN : Z.of_nat N < 2 ^ 62).

Notation out := (iout r).

Definition pr_degree (v : nat) : Z :=
  match name r v with Some _ => Z.of_nat (length (out v)) | None => uint64_max end.

Notation degrees := (pr_degree <$> seq 0 N).

Lemma pr_degree_at v : (v < N)%nat -> degrees !! v = Some (pr_degree v).
Proof. intros Hv. by rewrite list_lookup_fmap, lookup_seq_lt. Qed.

Lemma pr_degree_present v : (v < N)%nat -> pr_degree v = uint64_max <-> name r v = None.
Proof.
  intros Hv. unfold pr_degree. pose proof (iout_length r N s Hreads v Hv).
  destruct (name r v); [|done]. split; [|done]. unfold uint64_max. lia.
Qed.

Lemma pr_init_spec x0 :
  res_fold (pr_init r x0) (replicate N d_zero, replicate N 0) (omp_order 0 (sr_ids r N)) =
    Val (replicate N x0, degrees).
Proof.
  destruct (omp_fold_inv 0 (fun done '((scores, degs) : list double * list Z) =>
      length scores = N /\ length degs = N /\
      forall v, enc r v ∈ done -> scores !! v = Some x0 /\ degs !! v = Some (pr_degree v))
    (pr_init r x0) (sr_ids r N) (replicate N d_zero, replicate N 0)) as ([scores degs] & -> & Hs & Hd & Hv).
  - rewrite !length_replicate. split_and!; [done..|]. intros v Hv. by apply elem_of_nil in Hv.
  - intros done w [scores degs] Hw _ (Hs & Hd & Hv).
    rewrite sr_ids_enc in Hw. apply list_elem_of_fmap in Hw as (v & -> & Hvn). apply elem_of_seq in Hvn.
    unfold pr_init. rewrite idx_enc. bind_val. rewrite arr_set_val by lia. bind_val.
    rewrite arr_set_val by lia. bind_val. eexists. split; [done|]. cbv beta iota. rewrite !length_insert.
    split_and!; [done..|]. intros u [Hu|Hu%list_elem_of_singleton]%elem_of_app.
    + destruct (decide (v = u)) as [<-|Hne].
      * rewrite !list_lookup_insert_eq by lia. split; [done|]. unfold pr_degree, name.
        fold (enc r v). rewrite (degree_iout r N s Hreads) by lia. done.
      * rewrite !list_lookup_insert_ne by done. by apply Hv.
    + apply (inj (enc r)) in Hu as ->. rewrite !list_lookup_insert_eq by lia. split; [done|].
      unfold pr_degree, name. fold (enc r v). rewrite (degree_iout r N s Hreads) by lia. done.
  - intros l' [scores degs] Hp (Hs & Hd & Hv). split_and!; [done..|]. intros v. rewrite <- Hp. apply Hv.
  - assert (forall v, (v < N)%nat -> enc r v ∈ sr_ids r N) as Hall.
    { intros v Hvn. rewrite sr_ids_enc. apply list_elem_of_fmap_2, elem_of_seq. lia. }
    do 2 f_equal.
    + apply list_eq_same_length with N; [by rewrite length_replicate|done|].
      intros i x y Hi Hx Hy. destruct (Hv i (Hall i Hi)). rewrite lookup_replicate_2 in Hy by done. congruence.
    + apply list_eq_same_length with N; [by rewrite length_fmap, length_seq|done|].
      intros i x y Hi Hx Hy. destruct (Hv i (Hall i Hi)). rewrite pr_degree_at in Hy by done. congruence.
Qed.

(** The rank of a vertex in the array of the scores. *)
Definition rank_at (scores : list double) (x : Z) : double := default d_zero (scores !! pos r N x).

Definition share (scores : list double) (v : nat) : double :=
  ddiv (default d_zero (scores !! v)) (double_of_Z (Z.of_nat (length (out v)))).

(** The identifiers of the sinks, and their scores. *)
Definition sink_id (d : nat) : Prop := is_Some (sr_vertex r d) /\ sr_edges r d = [].

#[export] Instance sink_id_dec d : Decision (sink_id d).
Proof. unfold sink_id. apply _. Defined.

Definition score_id (scores : list double) (d : nat) : double :=
  default d_zero (scores !! (d - sr_first r)%nat).

Lemma sink_id_enc v : (v < N)%nat -> sink_id (enc r v) <-> is_Some (name r v) /\ out v = [].
Proof.
  intros Hv. unfold sink_id, name, iout. fold (enc r v).
  destruct (sr_edges r (enc r v)); split; by intros [? ?].
Qed.

Lemma pr_contributions_of tag scores contrib :
  length scores = N -> length contrib = N ->
  exists dangling contrib',
    res_fold (pr_contribution_of r scores degrees) ([], contrib) (omp_order tag (sr_ids r N)) =
      Val (dangling, contrib') /\
    dangling ≡ₚ score_id scores <$> filter sink_id (sr_ids r N) /\ length contrib' = N /\
    forall v, (v < N)%nat -> is_Some (name r v) -> out v <> [] -> contrib' !! v = Some (share scores v).
Proof.
  intros Hs Hc.
  destruct (omp_fold_inv tag (fun done '((dangling, contrib') : list double * list double) =>
      dangling ≡ₚ score_id scores <$> filter sink_id done /\ length contrib' = N /\
      forall v, enc r v ∈ done -> (v < N)%nat -> is_Some (name r v) -> out v <> [] ->
        contrib' !! v = Some (share scores v))
    (pr_contribution_of r scores degrees) (sr_ids r N) ([], contrib)) as ([dg c] & Heq & Hd & Hl & Hin).
  - split_and!; try done. intros u Hu. by apply elem_of_nil in Hu.
  - intros done w [dg c] Hw _ (Hd & Hl & Hin).
    rewrite sr_ids_enc in Hw. apply list_elem_of_fmap in Hw as (v & -> & Hvn). apply elem_of_seq in Hvn.
    unfold pr_contribution_of. rewrite idx_enc. bind_val.
    rewrite (arr_get_val _ _ _ (pr_degree_at v ltac:(lia))). bind_val.
    rewrite filter_app, fmap_app, filter_cons, filter_nil.
    destruct (Z.eqb_spec (pr_degree v) uint64_max) as [Hmiss|Hpres].
    { apply pr_degree_present in Hmiss; [|lia]. eexists. split; [done|].
      rewrite decide_False by (rewrite sink_id_enc by lia; rewrite Hmiss; by intros [[] _]).
      rewrite app_nil_r. split_and!; [done..|].
      intros u [Hu|Hu%list_elem_of_singleton]%elem_of_app; [by apply Hin|].
      apply (inj (enc r)) in Hu as ->. rewrite Hmiss. by intros _ []. }
    rewrite pr_degree_present in Hpres by lia. destruct (name r v) as [x|] eqn:Hname; [|done].
    destruct (lookup_lt_is_Some_2 scores v) as [sc Hsc]; [lia|].
    rewrite (arr_get_val _ _ _ Hsc). bind_val. unfold pr_degree. rewrite Hname.
    assert (score_id scores (enc r v) = sc) as Hval.
    { unfold score_id, enc. replace (sr_first r + v - sr_first r)%nat with v by lia. by rewrite Hsc. }
    destruct (Z.eqb_spec (Z.of_nat (length (out v))) 0) as [Hz|Hz].
    + assert (out v = []) as Hnil by (apply nil_length_inv; lia).
      eexists. split; [done|]. rewrite decide_True by (rewrite sink_id_enc by lia; rewrite Hname; eauto).
      split_and!; [by rewrite Hd; cbn [fmap list_fmap]; rewrite Hval|done|].
      intros u [Hu|Hu%list_elem_of_singleton]%elem_of_app; [by apply Hin|].
      apply (inj (enc r)) in Hu as ->. done.
    + assert (out v <> []) as Hne by (intros He; by rewrite He in Hz).
      rewrite arr_set_val by lia. bind_val. eexists. split; [done|].
      rewrite decide_False by (rewrite sink_id_enc by lia; by intros [_ ?]).
      rewrite app_nil_r, length_insert. split_and!; [done..|].
      assert (ddiv sc (double_of_Z (Z.of_nat (length (out v)))) = share scores v) as ->
        by (unfold share; by rewrite Hsc).
      intros u Hu Hun Hup Hune. destruct (decide (v = u)) as [<-|Hvu].
      * by rewrite list_lookup_insert_eq by lia.
      * rewrite list_lookup_insert_ne by done. apply Hin; [|done..].
        apply elem_of_app in Hu as [?|Hu%list_elem_of_singleton]; [done|].
        by apply (inj (enc r)) in Hu.
  - intros l [dg c] Hp (Hd & Hl & Hin). rewrite <- Hp. split_and!; try done.
    intros u. rewrite <- Hp. apply Hin.
  - exists dg, c. split_and!; try done. intros v Hv. apply Hin; [|done].
    rewrite sr_ids_enc. apply list_elem_of_fmap_2, elem_of_seq. lia.
Qed.

(** The sinks seen from outside. *)
Lemma sinks_external scores :
  exists sinks, lists (fun v => v ∈ spec_vertices s /\ forall x, ~ arc s v x) sinks /\
    score_id scores <$> filter sink_id (sr_ids r N) ≡ₚ rank_at scores <$> sinks.
Proof.
  set (sinks := filter (fun x => out (pos r N x) = []) (elements (spec_vertices s))).
  exists sinks. split.
  - split; [apply NoDup_filter, NoDup_elements|]. intros x. unfold sinks.
    rewrite list_elem_of_filter, elem_of_elements. split; intros [H1' H2'].
    + split; [done|]. intros y Hy. pose proof (rd_closed _ _ _ Hreads _ _ Hy) as [Hx Hys].
      apply (pos_link r N s Hreads) in Hy as [_ Hin]; [|done..].
      rewrite H1' in Hin. by apply elem_of_nil in Hin.
    + split; [|done]. destruct (out (pos r N x)) as [|v l] eqn:Ho; [done|]. exfalso.
      destruct (pos_spec r N s Hreads x H1') as [Hp Hn].
      assert (v ∈ out (pos r N x)) as Hv by (rewrite Ho; left).
      apply (iout_arc r N s Hreads) in Hv as (x' & y & _ & Hx' & _ & Harc); [|done].
      apply (H2' y). congruence.
  - assert (filter sink_id (sr_ids r N) ≡ₚ (fun x => enc r (pos r N x)) <$> sinks) as Hp.
    { apply NoDup_Permutation.
      - apply NoDup_filter. rewrite sr_ids_enc. apply (NoDup_fmap_2 (enc r)), NoDup_seq.
      - apply NoDup_fmap_2_strong; [|apply NoDup_filter, NoDup_elements].
        intros x y [_ Hx%elem_of_elements]%list_elem_of_filter [_ Hy%elem_of_elements]%list_elem_of_filter
          He%(inj (enc r)). by apply (pos_inj r N s Hreads).
      - intros d. rewrite list_elem_of_filter, sr_ids_enc, !list_elem_of_fmap. split.
        + intros (Hs & v & -> & Hv%elem_of_seq). apply sink_id_enc in Hs as [[x Hx] Ho]; [|lia].
          apply (name_pos r N s Hreads) in Hx as [Hxs <-]; [|lia]. exists x. split; [done|].
          apply list_elem_of_filter. by rewrite elem_of_elements.
        + intros (x & -> & [Ho Hx%elem_of_elements]%list_elem_of_filter).
          destruct (pos_spec r N s Hreads x Hx) as [Hp Hn]. split.
          * apply sink_id_enc; [done|]. split; [by exists x|done].
          * exists (pos r N x). rewrite elem_of_seq. split; [done|lia]. }
    rewrite Hp, <- list_fmap_compose. apply Permutation_refl'. apply list_fmap_ext.
    intros i x Hx. unfold compose, score_id, rank_at, enc.
    by replace (sr_first r + pos r N x - sr_first r)%nat with (pos r N x) by lia.
Qed.

Definition new_score (contrib : list double) (base damping dangling : double) (v : nat) : double :=
  dadd base (dmul damping
    (dadd (foldl (fun t u => dadd t (default d_zero (contrib !! u))) d_zero (out v)) dangling)).

Lemma pr_score_step scores contrib base damping dangling v :
  length scores = N -> length contrib = N -> (v < N)%nat ->
  pr_score_of r degrees contrib base damping dangling scores (enc r v) =
  Val (match name r v with
       | None => scores
       | Some _ => <[v := new_score contrib base damping dangling v]> scores
       end).
Proof.
  intros Hs Hc Hv. unfold pr_score_of. rewrite idx_enc. bind_val.
  rewrite (arr_get_val _ _ _ (pr_degree_at v Hv)). bind_val.
  destruct (Z.eqb_spec (pr_degree v) uint64_max) as [Hmiss|Hpres].
  { apply pr_degree_present in Hmiss; [|done]. by rewrite Hmiss. }
  rewrite pr_degree_present in Hpres by done. destruct (name r v) as [x|] eqn:Hname; [|done].
  assert (forall (edges : list (nat * double)) l t, edges.*1 = enc r <$> l ->
    (forall u, u ∈ l -> (u < N)%nat) ->
    res_fold (fun t (e : nat * double) => u ← idx r e.1; c ← arr_get contrib u; Val (dadd t c)) t edges =
    Val (foldl (fun t u => dadd t (default d_zero (contrib !! u))) t l)) as Hfold.
  { intros edges. induction edges as [|[d w] edges IH]; intros [|u l] t Hl Hlt; try done.
    cbn [fmap list_fmap] in Hl. injection Hl as -> Hl. cbn [res_fold foldl fst].
    rewrite idx_enc. bind_val. destruct (lookup_lt_is_Some_2 contrib u) as [c Hcu]; [rewrite Hc; apply Hlt; left|].
    rewrite (arr_get_val _ _ _ Hcu). do 2 bind_val. rewrite (IH l) by (done || (intros u' Hu'; apply Hlt; by right)).
    by rewrite Hcu. }
  rewrite (Hfold _ (out v)); [|by apply (edges_enc r N s Hreads)|intros u; by apply (iout_lt r N s Hreads)].
  bind_val. by rewrite arr_set_val by lia.
Qed.

Lemma pr_scores_pass tag scores contrib base damping dangling :
  length scores = N -> length contrib = N ->
  exists scores',
    res_fold (pr_score_of r degrees contrib base damping dangling) scores (omp_order tag (sr_ids r N)) =
      Val scores' /\ length scores' = N /\
    forall v, (v < N)%nat -> is_Some (name r v) ->
      scores' !! v = Some (new_score contrib base damping dangling v).
Proof.
  intros Hs Hc.
  destruct (omp_fold_inv tag (fun done scores' => length scores' = N /\
      forall v, enc r v ∈ done -> (v < N)%nat -> is_Some (name r v) ->
        scores' !! v = Some (new_score contrib base damping dangling v))
    (pr_score_of r degrees contrib base damping dangling) (sr_ids r N) scores) as (scores' & Heq & Hl & Hin).
  - split; [done|]. intros v Hv. by apply elem_of_nil in Hv.
  - intros done w sc Hw _ (Hl & Hin).
    rewrite sr_ids_enc in Hw. apply list_elem_of_fmap in Hw as (v & -> & Hvn). apply elem_of_seq in Hvn.
    rewrite pr_score_step by (done || lia). eexists. split; [done|].
    destruct (name r v) as [x|] eqn:Hname.
    + rewrite length_insert. split; [done|]. intros u Hu Hun Hup.
      destruct (decide (v = u)) as [<-|Hvu]; [by rewrite list_lookup_insert_eq by lia|].
      rewrite list_lookup_insert_ne by done. apply Hin; [|done..].
      apply elem_of_app in Hu as [?|Hu%list_elem_of_singleton]; [done|]. by apply (inj (enc r)) in Hu.
    + split; [done|]. intros u Hu Hun Hup.
      apply elem_of_app in Hu as [?|Hu%list_elem_of_singleton]; [by apply Hin|].
      apply (inj (enc r)) in Hu as ->. rewrite Hname in Hup. by destruct Hup.
  - intros l sc Hp (Hl & Hin). split; [done|]. intros v. rewrite <- Hp. apply Hin.
  - exists scores'. split_and!; [done..|]. intros v Hv. apply Hin; [|done].
    rewrite sr_ids_enc. apply list_elem_of_fmap_2, elem_of_seq. lia.
Qed.

(** The neighbours of a vertex, outside. *)
Definition ext_out (v : nat) : list Z := (fun u => default 0 (name r u)) <$> out v.

Lemma ext_out_lists x : x ∈ spec_vertices s -> lists (fun y => arc s x y) (ext_out (pos r N x)).
Proof.
  intros Hx. destruct (pos_spec r N s Hreads x Hx) as [Hp Hn]. unfold ext_out. split.
  - apply NoDup_fmap_2_strong; [|by apply (iout_NoDup r N s Hreads)].
    intros u v Hu Hv. apply (iout_arc r N s Hreads) in Hu as (? & y & Hul & _ & Hy & _); [|done].
    apply (iout_arc r N s Hreads) in Hv as (? & z & Hvl & _ & Hz & _); [|done].
    rewrite Hy, Hz. simpl. intros <-. by apply (rd_inj _ _ _ Hreads u v y).
  - intros y. rewrite list_elem_of_fmap. split.
    + intros (v & -> & Hv). apply (iout_arc r N s Hreads) in Hv as (x' & y & _ & Hx' & Hy & Harc); [|done].
      rewrite Hy. simpl. congruence.
    + intros Harc. destruct (rd_closed _ _ _ Hreads _ _ Harc) as [_ Hy].
      destruct (pos_spec r N s Hreads y Hy) as [Hpy Hny]. exists (pos r N y). rewrite Hny. split; [done|].
      by apply (pos_link r N s Hreads) in Harc as [_ ?].
Qed.

Lemma out_degree_out x : x ∈ spec_vertices s -> out_degree s x = Z.of_nat (length (out (pos r N x))).
Proof.
  intros Hx. destruct (ext_out_lists x Hx) as [Hnd Hl]. unfold out_degree. f_equal.
  assert (filter (fun k => k.1 = x) (dom (spec_arcs s)) =
    list_to_set ((fun y => (x, y)) <$> ext_out (pos r N x)) :> gset (Z * Z)) as ->.
  { apply set_eq. intros [x' y]. rewrite elem_of_filter, elem_of_dom, elem_of_list_to_set, list_elem_of_fmap.
    simpl. split.
    - intros [-> Harc]. exists y. split; [done|]. by apply Hl.
    - intros (y' & [= -> ->] & Hy%Hl). done. }
  rewrite size_list_to_set.
  - unfold ext_out. by rewrite !length_fmap.
  - apply (NoDup_fmap_2 (fun y => (x, y))), Hnd.
Qed.

Lemma foldl_out (f : double -> Z -> double) (g : double -> nat -> double) t l :
  (forall t u, u ∈ l -> g t u = f t (default 0 (name r u))) ->
  foldl g t l = foldl f t ((fun u => default 0 (name r u)) <$> l).
Proof.
  revert t. induction l as [|u l IH]; intros t Hfg; [done|]. cbn [foldl fmap list_fmap].
  rewrite (Hfg t u) by left. apply IH. intros t' u' Hu'. apply Hfg. by right.
Qed.

Notation V := (Z.of_nat (size (spec_vertices s))).

Lemma pr_iterations_of_spec damping scores contrib k iterations :
  length scores = N -> length contrib = N ->
  exists scores' k' done,
    pr_iterations_of r V N (ddiv (dsub d_one damping) (double_of_Z V)) damping degrees scores contrib k
      iterations = Val (scores', k') /\
    length scores' = N /\
    nsteps (pr_round s damping) done (rank_at scores) (rank_at scores') /\
    (is_timeout k' = true \/ done = iterations).
Proof.
  revert scores contrib k. induction iterations as [|n IH]; intros scores contrib k Hs Hc; cbn [pr_iterations_of].
  { exists scores, k, 0%nat. split_and!; [done..|constructor|by right]. }
  destruct (is_timeout k) eqn:Ht.
  { exists scores, (S k), 0%nat. split_and!; [done..|constructor|left].
    apply (is_timeout_mono k); [lia|done]. }
  destruct (pr_contributions_of (Z.of_nat k) scores contrib Hs Hc) as (d & c & -> & Hd & Hlc & Hcv).
  bind_step. set (dangling := omp_dsum (Z.of_nat k) d).
  destruct (pr_scores_pass (Z.of_nat k) scores c (ddiv (dsub d_one damping) (double_of_Z V)) damping
    (ddiv dangling (double_of_Z V)) Hs Hlc) as (scores1 & -> & Hl1 & Hnew).
  bind_val. destruct (IH scores1 c (S k) Hl1 Hlc) as (scores' & k' & dn & -> & Hl' & Hsteps & Hend).
  exists scores', k', (S dn). split_and!; [done|done| |destruct Hend as [?| ->]; auto].
  econstructor; [|exact Hsteps].
  destruct (sinks_external scores) as (sinks & Hsinks & Hperm). exists sinks, dangling.
  split; [done|]. split.
  { eapply dsum_perm; [etrans; [exact Hd|exact Hperm]|]. apply omp_dsum_law. }
  intros x Hx. exists (ext_out (pos r N x)). split; [by apply ext_out_lists|].
  destruct (pos_spec r N s Hreads x Hx) as [Hp Hn]. unfold rank_at at 1.
  rewrite (Hnew _ Hp) by eauto. simpl. unfold new_score. do 3 f_equal.
  apply foldl_out. intros t u Hu.
  apply (iout_arc r N s Hreads) in Hu as (x' & y & Hul & Hx' & Hy & Harc); [|done].
  apply (name_pos r N s Hreads) in Hy as Hpy; [|done]. destruct Hpy as [Hys Hpy]. rewrite Hy. simpl.
  unfold arc in Harc. rewrite Hsym in Harc.
  rewrite Hcv; [|done|by eauto|].
  - simpl. unfold share, rank_at. by rewrite (out_degree_out y Hys), Hpy.
  - intros Hnil. pose proof (proj2 (pos_link r N s Hreads y x' Hys (proj2 (rd_closed _ _ _ Hreads _ _ Harc))) Harc) as [_ Hin].
    rewrite Hpy, Hnil in Hin. by apply elem_of_nil in Hin.
Qed.

Lemma pagerank_of_spec iterations damping :
  exists scores k done,
    pagerank_of r V N iterations damping = Val (scores, k) /\ length scores = N /\
    nsteps (pr_round s damping) done (rank_at (replicate N (ddiv d_one (double_of_Z V)))) (rank_at scores) /\
    (is_timeout k = true \/ done = iterations).
Proof.
  unfold pagerank_of. rewrite pr_init_spec. bind_step.
  destruct (pr_iterations_of_spec damping (replicate N (ddiv d_one (double_of_Z V))) (replicate N d_zero) 0
    iterations) as (scores & k & dn & Heq & Hrest); [by rewrite length_replicate..|].
  exists scores, k, dn. split; [exact Heq|exact Hrest].
Qed.
End pagerank_snapshot.
