(* ===== verification/SnapshotScan.v ===== *)
(** The kernels of [library/gtx/gtx_driver] and
    [library/livegraph/livegraph_driver] that scan the edges, through the
    [Reader] of a transaction: the scans that are run in place of [wcc] and
    [cdlp], the local clustering coefficient, and the two-hop queries. *)

From S2P Require Import Prelude Graphs Gapbs Edge AdjList AdjKernels CsrRank Snapshot.

(** ** Scans

    Every thread adds up its edges and a critical section the sums of the
    threads; modulo [2^64] the grouping does not matter, the sum of the weights
    is a reduction. *)

Definition scan_edge (st : Z * Z * list double) (e : nat * double) : Z * Z * list double :=
  let '(degree, vid, weights) := st in
  (u64 (degree + 1), u64 (vid + Z.of_nat e.1), weights ++ [e.2]).

Definition weight_scan `{Omp, OmpReduce} (r : Reader) (max_vertex_id : nat) : Z * Z * double :=
  let '(total_edge_num, total_vid_sum, weights) :=
    foldl (fun st v => foldl scan_edge st (sr_edges r v)) (0, 0, [])
      (omp_order 0 (sr_ids r max_vertex_id)) in
  (total_edge_num, total_vid_sum, omp_dsum 0 weights).

Definition topology_scan `{Omp} (r : Reader) (max_vertex_id : nat) : Z * Z :=
  foldl (fun st v => foldl (fun '(degree, vid) (e : nat * double) =>
      (u64 (degree + 1), u64 (vid + Z.of_nat e.1))) st (sr_edges r v))
    (0, 0) (omp_order 0 (sr_ids r max_vertex_id)).

Definition edge_count `{Omp} (r : Reader) (max_vertex_id : nat) : Z :=
  foldl (fun degree v => foldl (fun degree _ => u64 (degree + 1)) degree (sr_edges r v))
    0 (omp_order 0 (sr_ids r max_vertex_id)) / 2.

(** ** LCC

    The arrays are indexed by the identifiers themselves. [Memory] is what a
    new array holds before it is written. [nexts] are the edges that an
    iterator shows when [valid] and [next] are called in turn. *)

Class Memory := {
  new_uint32 : nat -> Z;
  new_double : nat -> double;
}.

Definition new_zeroes : Memory := {| new_uint32 := fun _ => 0; new_double := fun _ => d_zero |}.

Definition uint32_max : Z := 2 ^ 32 - 1.

Definition lcc_degree (r : Reader) (st : list double * list Z) (v : nat) :
    res (list double * list Z) :=
  let '(lcc, degrees_out) := st in
  match sr_vertex r v with
  | None => lcc ← arr_set lcc v d_nan; Val (lcc, degrees_out)
  | Some _ =>
    degrees_out ← arr_set degrees_out v (u32 (Z.of_nat (length (sr_edges r v))));
    Val (lcc, degrees_out)
  end.

(** The loops over the neighbours of the neighbours. *)
Definition count_triangles (nexts : nat -> list (nat * double)) (v : nat) : Z :=
  let neighbours : gset nat := list_to_set (nexts v).*1 in
  foldl (fun num_triangles (u : nat * double) =>
      foldl (fun num_triangles (w : nat * double) =>
          if decide (w.1 ∈ neighbours) then u64 (num_triangles + 1) else num_triangles)
        num_triangles (nexts u.1))
    0 (nexts v).

Definition lcc_visit `{Timer} (nexts : nat -> list (nat * double)) (degrees_out : list Z)
    (st : list double * nat) (v : nat) : res (list double * nat) :=
  let '(lcc, k) := st in
  v_degree_out ← arr_get degrees_out v;
  if v_degree_out =? uint32_max then Val (lcc, k)
  else if is_timeout k then Val (lcc, S k)
  else
    lcc ← arr_set lcc v d_zero;
    if v_degree_out <? 2 then Val (lcc, S k)
    else
      let max_num_edges := u64 (v_degree_out * u64 (v_degree_out - 1)) in
      lcc ← arr_set lcc v (ddiv (double_of_Z (count_triangles nexts v)) (double_of_Z max_num_edges));
      Val (lcc, S k).

Definition lcc_of `{Omp, Timer, Memory} (r : Reader) (nexts : nat -> list (nat * double))
    (max_vertex_id : nat) : res (list double * nat) :=
  '(lcc, degrees_out) ← res_fold (lcc_degree r)
    (new_double <$> seq 0 max_vertex_id, new_uint32 <$> seq 0 max_vertex_id)
    (omp_order 0 (sr_ids r max_vertex_id));
  res_fold (lcc_visit nexts degrees_out) (lcc, 0%nat) (omp_order 1 (sr_ids r max_vertex_id)).

(** ** Two-hop queries *)

(** [generate_two_hops_neighbor_candidates]: [size] different identifiers, drawn
    with [rand() % max_vertex_id]; a repeated one is drawn again. *)
Fixpoint candidates_loop (rand : nat -> Z) (offset max_vertex_id : Z) (size : nat)
    (vertices : list Z) (unique_vertices : gset Z) (k fuel : nat) : res (list Z) :=
  match fuel with
  | O => NoFuel
  | S fuel =>
    if (length vertices <? size)%nat then
      let vid := rand k mod max_vertex_id + offset in
      if decide (vid ∈ unique_vertices)
      then candidates_loop rand offset max_vertex_id size vertices unique_vertices (S k) fuel
      else candidates_loop rand offset max_vertex_id size (vertices ++ [vid])
             ({[vid]} ∪ unique_vertices) (S k) fuel
    else Val vertices
  end.

Definition two_hop_neighbor_size : nat := Z.to_nat 2000.

Definition candidates (rand : nat -> Z) (offset max_vertex_id : Z) (fuel : nat) : res (list Z) :=
  if max_vertex_id =? 0 then Undef
  else candidates_loop rand offset max_vertex_id two_hop_neighbor_size [] ∅ 0 fuel.

(** The neighbours of each source, and then theirs, the source left out. *)
Definition one_hop_of (r : Reader) (vertices : list nat) : gmap nat (list nat) :=
  foldl (fun results source => <[source := default [] (results !! source) ++ (sr_edges r source).*1]> results)
    ∅ vertices.

Definition two_hops (r : Reader) (source : nat) : list nat :=
  let hop_1_neighbors := (sr_edges r source).*1 in
  hop_1_neighbors ++
    concat ((fun v => filter (fun w => w <> source) (sr_edges r v).*1) <$> hop_1_neighbors).

Definition two_hop_of (r : Reader) (vertices : list nat) : gmap nat (list nat) :=
  foldl (fun results source => <[source := default [] (results !! source) ++ two_hops r source]> results)
    ∅ vertices.

(** ** Scans: proofs *)

Lemma scan_edges_spec es d v ws :
  u64 d = d -> u64 v = v ->
  foldl scan_edge (d, v, ws) es =
    (u64 (d + Z.of_nat (length es)), u64 (v + foldr Z.add 0 ((fun e => Z.of_nat e.1) <$> es)), ws ++ es.*2).
Proof.
  revert d v ws. induction es as [|[e w] es IH]; intros d v ws Hd Hv; cbn [foldl].
  { cbn [fmap list_fmap foldr length]. by rewrite !Z.add_0_r, Hd, Hv, app_nil_r. }
  cbn [scan_edge fst snd].
  rewrite IH by (unfold u64; rewrite Z.mod_mod; lia). cbn [fmap list_fmap foldr length fst snd].
  rewrite <- app_assoc. unfold u64. rewrite !Zplus_mod_idemp_l.
  do 2 f_equal; f_equal; lia.
Qed.

Lemma foldl_nested {A B C} (f : A -> C -> A) (g : B -> list C) a l :
  foldl (fun a b => foldl f a (g b)) a l = foldl f a (l ≫= g).
Proof.
  revert a. induction l as [|b l IH]; intros a; [done|]. cbn [foldl].
  by rewrite IH, bind_cons, foldl_app.
Qed.

Lemma bind_perm {A B} (f : A -> list B) l k : l ≡ₚ k -> l ≫= f ≡ₚ k ≫= f.
Proof.
  induction 1 as [|x l k _ IH|x y l|l1 l2 l3 _ IH1 _ IH2]; [done|by rewrite !bind_cons, IH| |by etrans].
  rewrite !bind_cons, !app_assoc. by rewrite (Permutation_app_comm (f y)).
Qed.

Lemma sum_perm (l k : list Z) : l ≡ₚ k -> foldr Z.add 0 l = foldr Z.add 0 k.
Proof. induction 1; simpl; lia. Qed.

Lemma bind_fmap_ext {A B B' C} (f : A -> list B) (g : A -> list B') (p : B -> C) (q : B' -> C) l :
  (forall a, a ∈ l -> p <$> f a = q <$> g a) -> p <$> (l ≫= f) = q <$> (l ≫= g).
Proof.
  induction l as [|a l IH]; intros Hl; [done|]. rewrite !bind_cons, !fmap_app.
  rewrite Hl by left. f_equal. apply IH. intros b Hb. apply Hl. by right.
Qed.

Section scans.
Context (r : Reader) (N : nat) (s : Spec) (Hreads : reads r N s).

Notation ids := (sr_ids r N).

(** The external identifier of a vertex, and an edge between those of its ends. *)
Definition ext_name (v : nat) : Z := default 0 (sr_vertex r v).

Definition ext_edge (u : nat) (e : nat * double) : Z * Z * double := (ext_name u, ext_name e.1, e.2).

Lemma elem_of_ids u : u ∈ ids <-> exists i, (i < N)%nat /\ u = (sr_first r + i)%nat.
Proof.
  unfold sr_ids. rewrite elem_of_seq. split; [|intros (i & ? & ->); lia].
  intros Hu. exists (u - sr_first r)%nat. lia.
Qed.

Lemma edge_ends u e : u ∈ ids -> e ∈ sr_edges r u ->
  exists x y, sr_vertex r u = Some x /\ sr_vertex r e.1 = Some y /\ e.1 ∈ ids /\
    spec_arcs s !! (x, y) = Some e.2.
Proof.
  intros Hu He. apply elem_of_ids in Hu as (i & Hi & ->). destruct e as [d w].
  apply (rd_edges _ _ _ Hreads) in He as (v & x & y & -> & Hv & Hx & Hy & Hw); [|done].
  exists x, y. split_and!; try done. apply elem_of_ids. by exists v.
Qed.

(** The edges that the scans visit are the arcs. *)
Lemma visits_arcs : ids ≫= (fun u => ext_edge u <$> sr_edges r u) ≡ₚ map_to_list (spec_arcs s).
Proof.
  apply NoDup_Permutation; [|apply NoDup_map_to_list|].
  - apply NoDup_bind; [| |apply NoDup_seq].
    + intros u1 u2 p Hu1 Hu2 (e1 & -> & He1)%list_elem_of_fmap (e2 & Heq & He2)%list_elem_of_fmap.
      destruct (edge_ends _ _ Hu1 He1) as (x1 & y1 & Hx1 & _).
      destruct (edge_ends _ _ Hu2 He2) as (x2 & y2 & Hx2 & _).
      unfold ext_edge, ext_name in Heq. rewrite Hx1, Hx2 in Heq. simpl in Heq.
      apply elem_of_ids in Hu1 as (i & Hi & ->), Hu2 as (j & Hj & ->). f_equal.
      apply (rd_inj _ _ _ Hreads i j x1); [done..|congruence].
    + intros u Hu. apply NoDup_fmap_2_strong.
      * intros e1 e2 He1 He2 Heq.
        destruct (edge_ends _ _ Hu He1) as (x1 & y1 & _ & Hy1 & Hd1 & _).
        destruct (edge_ends _ _ Hu He2) as (x2 & y2 & _ & Hy2 & Hd2 & _).
        unfold ext_edge, ext_name in Heq. rewrite Hy1, Hy2 in Heq. simpl in Heq.
        apply elem_of_ids in Hd1 as (i & Hi & Hd1), Hd2 as (j & Hj & Hd2). rewrite Hd1, Hd2 in *.
        assert (i = j) as -> by (apply (rd_inj _ _ _ Hreads i j y1); [done..|congruence]).
        destruct e1, e2. simpl in *. congruence.
      * apply elem_of_ids in Hu as (i & Hi & ->). eapply NoDup_fmap_1, (rd_unique _ _ _ Hreads i Hi).
  - intros [[x y] w]. rewrite list_elem_of_bind, elem_of_map_to_list. split.
    + intros (u & (e & Heq & He)%list_elem_of_fmap & Hu).
      destruct (edge_ends _ _ Hu He) as (x' & y' & Hx & Hy & _ & Hw).
      unfold ext_edge, ext_name in Heq. rewrite Hx, Hy in Heq. simpl in Heq. by simplify_eq.
    + intros Hw. destruct (rd_closed _ _ _ Hreads x y (ex_intro _ w Hw)) as [Hx Hy].
      apply (rd_vertex _ _ _ Hreads) in Hx as (u & Hu & Hx), Hy as (v & Hv & Hy).
      exists (sr_first r + u)%nat. split; [|apply elem_of_ids; by exists u].
      apply list_elem_of_fmap. exists (sr_first r + v, w)%nat.
      split; [unfold ext_edge, ext_name; by rewrite Hx; simpl; rewrite Hy|].
      apply (rd_edges _ _ _ Hreads); [done|]. by exists v, x, y.
Qed.

(** The sum of the internal identifiers of the destinations of the arcs. *)
Definition vid_sum : Z :=
  foldr Z.add 0 ((fun p => Z.of_nat (sr_first r + pos r N p.1.2)) <$> map_to_list (spec_arcs s)).

Lemma visits_spec `{Omp} tag :
  let es := omp_order tag ids ≫= sr_edges r in
  length es = size (spec_arcs s) /\
  foldr Z.add 0 ((fun e => Z.of_nat e.1) <$> es) = vid_sum /\
  es.*2 ≡ₚ (map_to_list (spec_arcs s)).*2.
Proof.
  intros es. assert (es ≡ₚ ids ≫= sr_edges r) as Hes by apply bind_perm, omp_perm.
  pose proof visits_arcs as Harcs. split_and!.
  - rewrite (Permutation_length Hes), <- length_map_to_list, <- (Permutation_length Harcs).
    assert ((fun _ : nat * double => tt) <$> (ids ≫= sr_edges r) =
      (fun _ : Z * Z * double => tt) <$> (ids ≫= (fun u => ext_edge u <$> sr_edges r u))) as Heq.
    { apply bind_fmap_ext. intros u _. by rewrite <- list_fmap_compose. }
    apply (f_equal length) in Heq. by rewrite !length_fmap in Heq.
  - unfold vid_sum. rewrite (sum_perm _ _ (fmap_Permutation _ _ _ Hes)).
    rewrite <- (sum_perm _ _ (fmap_Permutation _ _ _ Harcs)). f_equal. apply bind_fmap_ext. intros u Hu.
    rewrite <- list_fmap_compose. apply list_fmap_ext. intros i e He. cbn.
    apply list_elem_of_lookup_2 in He.
    destruct (edge_ends u e Hu He) as (x & y & _ & Hy & (v & Hv & Hd)%elem_of_ids & _).
    unfold ext_name. rewrite Hy, Hd in *. simpl. do 2 f_equal.
    symmetry. by apply (name_pos r N s Hreads).
  - etrans; [apply fmap_Permutation, Hes|]. etrans; [|apply fmap_Permutation, Harcs].
    apply reflexive_eq, bind_fmap_ext. intros u _. by rewrite <- list_fmap_compose.
Qed.

Lemma weight_scan_spec `{Omp, OmpReduce} :
  exists w, weight_scan r N = (u64 (Z.of_nat (size (spec_arcs s))), u64 vid_sum, w) /\
    dsum_of (map_to_list (spec_arcs s)).*2 w.
Proof.
  unfold weight_scan. rewrite foldl_nested, scan_edges_spec by done.
  destruct (visits_spec 0) as (-> & -> & Hw). cbn [app]. eexists. split; [done|].
  eapply dsum_perm; [exact Hw|]. apply omp_dsum_law.
Qed.

Lemma topology_scan_spec `{Omp} :
  topology_scan r N = (u64 (Z.of_nat (size (spec_arcs s))), u64 vid_sum).
Proof.
  unfold topology_scan. rewrite foldl_nested. destruct (visits_spec 0) as (Hl & Hv & _).
  rewrite <- Hl, <- Hv. generalize (omp_order 0 ids ≫= sr_edges r). intros es.
  assert (forall st, foldl (fun '(degree, vid) (e : nat * double) =>
      (u64 (degree + 1), u64 (vid + Z.of_nat e.1))) st.1 es = (foldl scan_edge st es).1) as Hfst.
  { clear. induction es as [|e es IH]; intros [[d v] ws]; [done|]. cbn [foldl fst].
    by rewrite <- (IH (scan_edge (d, v, ws) e)). }
  etrans; [apply (Hfst (0, 0, []))|]. by rewrite scan_edges_spec.
Qed.

Lemma edge_count_spec `{Omp} :
  edge_count r N = u64 (Z.of_nat (size (spec_arcs s))) / 2.
Proof.
  unfold edge_count. rewrite foldl_nested. destruct (visits_spec 0) as (Hl & _ & _).
  rewrite <- Hl. generalize (omp_order 0 ids ≫= sr_edges r). intros es. f_equal.
  assert (forall st, foldl (fun degree (_ : nat * double) => u64 (degree + 1)) st.1.1 es =
    (foldl scan_edge st es).1.1) as Hfst.
  { clear. induction es as [|e es IH]; intros [[d v] ws]; [done|]. cbn [foldl fst].
    by rewrite <- (IH (scan_edge (d, v, ws) e)). }
  etrans; [apply (Hfst (0, 0, []))|]. by rewrite scan_edges_spec.
Qed.
End scans.

(** ** LCC: proofs *)

(** A loop that counts the members of a set in a list. *)
Lemma count_members (S : gset nat) (ns : list nat) l n :
  (forall w, w ∈ S <-> w ∈ ns) ->
  foldl (fun num_triangles (w : nat * double) =>
      if decide (w.1 ∈ S) then u64 (num_triangles + 1) else num_triangles) (u64 n) l =
    u64 (n + Z.of_nat (length (filter (fun w => w ∈ ns) l.*1))).
Proof.
  intros HS. revert n. induction l as [|[w x] l IH]; intros n; cbn [foldl fmap list_fmap].
  { by rewrite Z.add_0_r. }
  rewrite filter_cons. cbn [fst]. destruct (decide (w ∈ S)) as [Hw|Hw].
  - rewrite decide_True by (by apply HS). replace (u64 (u64 n + 1)) with (u64 (n + 1)).
    + rewrite IH. cbn [length]. f_equal. lia.
    + unfold u64. by rewrite Zplus_mod_idemp_l.
  - rewrite decide_False by (by rewrite <- HS). apply IH.
Qed.

Lemma triangles_fold (nexts : nat -> list (nat * double)) (S : gset nat) (ns : list nat) l n :
  (forall w, w ∈ S <-> w ∈ ns) ->
  foldl (fun num_triangles (u : nat * double) =>
      foldl (fun num_triangles (w : nat * double) =>
          if decide (w.1 ∈ S) then u64 (num_triangles + 1) else num_triangles)
        num_triangles (nexts u.1)) (u64 n) l =
    u64 (n + Z.of_nat (sum_list_with (fun u => length (filter (fun w => w ∈ ns) (nexts u).*1)) l.*1)).
Proof.
  intros HS. revert n. induction l as [|[u x] l IH]; intros n; cbn [foldl fmap list_fmap sum_list_with].
  { by rewrite Z.add_0_r. }
  cbn [fst]. rewrite (count_members S ns) by done. rewrite IH. f_equal. lia.
Qed.

Lemma filter_elem_iff {A} (P Q : A -> Prop) `{!forall x, Decision (P x), !forall x, Decision (Q x)} (l : list A) :
  (forall x, x ∈ l -> P x <-> Q x) -> filter P l = filter Q l.
Proof.
  induction l as [|x l IH]; intros Hl; [done|]. rewrite !filter_cons.
  rewrite IH by (intros y Hy; apply Hl; by right).
  assert (P x <-> Q x) as Hx by (apply Hl; left). repeat case_decide; tauto.
Qed.

Section lcc.
Context `{Omp, Timer, Memory} (r : Reader) (N : nat) (s : Spec) (Hreads : reads r N s).
Context (Hsym : forall x y, spec_arcs s !! (x, y) = spec_arcs s !! (y, x)).
Context (Hfirst : sr_first r = 0%nat) (HN : Z.of_nat N < 2 ^ 32 - 1).

Notation out := (iout r).
Notation V := (spec_vertices s).

Lemma enc_first v : enc r v = v.
Proof. unfold enc. by rewrite Hfirst. Qed.

Lemma edges_first v : (v < N)%nat -> (sr_edges r v).*1 = out v.
Proof.
  intros Hv. rewrite <- (enc_first v) at 1. rewrite (edges_enc r N s Hreads) by done.
  etrans; [|apply list_fmap_id]. apply list_fmap_ext. intros i x _. apply enc_first.
Qed.

Lemma joined_out x : x ∈ V -> lists (fun y => y ∈ joined s x) (ext_out r (pos r N x)).
Proof.
  intros Hx. destruct (ext_out_lists r N s Hreads x Hx) as [Hnd Hl]. split; [done|].
  intros y. rewrite Hl. unfold joined. rewrite elem_of_filter. unfold arc. rewrite (Hsym y x).
  split; [|tauto]. intros Harc. split; [by left|]. by apply (rd_closed _ _ _ Hreads) in Harc as [_ ?].
Qed.

Lemma joined_size x : x ∈ V -> size (joined s x) = length (out (pos r N x)).
Proof.
  intros Hx. destruct (joined_out x Hx) as [Hnd Hl].
  replace (joined s x) with (list_to_set (ext_out r (pos r N x)) : gset Z)
    by (apply set_eq; intros y; by rewrite elem_of_list_to_set).
  rewrite size_list_to_set by done. unfold ext_out. by rewrite length_fmap.
Qed.

(** The arcs between neighbours, with internal identifiers. *)
Lemma closed_pairs_internal x : x ∈ V ->
  closed_pairs s x = Z.of_nat (sum_list_with
    (fun u => length (filter (fun w => w ∈ out (pos r N x)) (out u))) (out (pos r N x))).
Proof.
  intros Hx. rewrite (closed_pairs_sum s x _ (joined_out x Hx)). f_equal.
  destruct (pos_spec r N s Hreads x Hx) as [Hp _]. set (p := pos r N x) in *. unfold ext_out.
  assert (forall l, l ⊆ out p ->
    sum_list_with (fun y => length (filter (fun z => arc s y z) ((fun u => default 0 (name r u)) <$> out p)))
      ((fun u => default 0 (name r u)) <$> l) =
    sum_list_with (fun u => length (filter (fun w => w ∈ out p) (out u))) l) as Hl; [|by apply Hl].
  induction l as [|u l IH]; intros Hsub; [done|]. cbn [fmap list_fmap sum_list_with].
  rewrite IH by (intros v Hv; apply Hsub; by right). f_equal.
  assert (u ∈ out p) as Hu by (apply Hsub; by left).
  pose proof (iout_lt r N s Hreads p u Hp Hu) as HuN.
  rewrite filter_fmap, length_fmap, (filter_elem_swap (out u)) by (by apply (iout_NoDup r N s Hreads)).
  f_equal. assert (forall w, w ∈ out p ->
    arc s (default 0 (name r u)) (default 0 (name r w)) <-> w ∈ out u) as Hiff.
  { intros w Hw. pose proof (iout_lt r N s Hreads p w Hp Hw) as HwN.
    apply (iout_arc r N s Hreads) in Hu as (_ & y & _ & _ & Hy & _); [|done].
    apply (iout_arc r N s Hreads) in Hw as (_ & z & _ & _ & Hz & _); [|done].
    rewrite Hy, Hz. simpl. apply (name_pos r N s Hreads) in Hy as [Hy <-]; [|done].
    apply (name_pos r N s Hreads) in Hz as [Hz <-]; [|done].
    rewrite <- (pos_link r N s Hreads y z Hy Hz). unfold ilink. tauto. }
  by apply filter_elem_iff.
Qed.

Lemma count_triangles_spec x : x ∈ V -> count_triangles (sr_edges r) (pos r N x) = closed_pairs s x.
Proof.
  intros Hx. destruct (pos_spec r N s Hreads x Hx) as [Hp _].
  unfold count_triangles. change 0 with (u64 0).
  rewrite (triangles_fold _ _ (out (pos r N x))).
  2:{ intros w. by rewrite elem_of_list_to_set, edges_first. }
  rewrite edges_first by done. rewrite (closed_pairs_internal x Hx), Z.add_0_l.
  assert (forall l, l ⊆ out (pos r N x) ->
    sum_list_with (fun u => length (filter (fun w => w ∈ out (pos r N x)) (sr_edges r u).*1)) l =
    sum_list_with (fun u => length (filter (fun w => w ∈ out (pos r N x)) (out u))) l /\
    (sum_list_with (fun u => length (filter (fun w => w ∈ out (pos r N x)) (out u))) l <= length l * N)%nat) as Hl.
  { induction l as [|u l IH]; intros Hsub; [done|]. cbn [sum_list_with length].
    destruct IH as [-> Hle]; [intros v Hv; apply Hsub; by right|].
    assert (u < N)%nat as Hu by (apply (iout_lt r N s Hreads (pos r N x)); [done|apply Hsub; by left]).
    rewrite edges_first by done. split; [done|].
    pose proof (length_filter (fun w => w ∈ out (pos r N x)) (out u)).
    pose proof (iout_length r N s Hreads u Hu). lia. }
  destruct (Hl _ (reflexivity _)) as [-> Hle]. apply u64_id.
  pose proof (iout_length r N s Hreads _ Hp). unfold is_u64. nia.
Qed.

(** The first pass: the degree of every vertex that exists. *)
Lemma lcc_degrees_spec lcc0 degrees0 :
  length lcc0 = N -> length degrees0 = N ->
  exists lcc degrees, res_fold (lcc_degree r) (lcc0, degrees0) (omp_order 0 (sr_ids r N)) = Val (lcc, degrees) /\
    length lcc = N /\ length degrees = N /\
    forall x, x ∈ V -> degrees !! pos r N x = Some (Z.of_nat (length (out (pos r N x)))).
Proof.
  intros Hl0 Hd0. unfold sr_ids. rewrite Hfirst.
  destruct (omp_fold_inv 0 (fun done (st : list double * list Z) => length st.1 = N /\ length st.2 = N /\
      forall x, x ∈ V -> pos r N x ∈ done -> st.2 !! pos r N x = Some (Z.of_nat (length (out (pos r N x)))))
    (lcc_degree r) (seq 0 N) (lcc0, degrees0)) as ([lcc degrees] & -> & Hl & Hd & Hval).
  - split_and!; [done|done|]. intros x _ Hx. by apply elem_of_nil in Hx.
  - intros done v [lcc degrees] Hv%elem_of_seq _ (Hl & Hd & Hval). unfold lcc_degree. simpl in *.
    destruct (sr_vertex r v) as [e|] eqn:Hv'.
    + rewrite arr_set_val by lia. bind_val. eexists. split; [reflexivity|]. simpl.
      rewrite length_insert. split_and!; [done|done|]. intros x Hx Hin.
      destruct (decide (v = pos r N x)) as [->|Hne].
      * rewrite list_lookup_insert_eq by lia. f_equal.
        assert (length (sr_edges r (pos r N x)) = length (out (pos r N x))) as ->
          by (rewrite <- edges_first by lia; by rewrite length_fmap).
        unfold u32. rewrite Z.mod_small; [done|].
        pose proof (iout_length r N s Hreads (pos r N x) ltac:(lia)). lia.
      * rewrite list_lookup_insert_ne by done. apply Hval; [done|set_solver].
    + rewrite arr_set_val by lia. bind_val. eexists. split; [reflexivity|]. simpl.
      rewrite length_insert. split_and!; [done|done|]. intros x Hx Hin. apply Hval; [done|].
      apply elem_of_app in Hin as [?|Heq%list_elem_of_singleton]; [done|]. exfalso.
      destruct (pos_spec r N s Hreads x Hx) as [_ Hn]. unfold name in Hn. rewrite Hfirst in Hn. simpl in Hn. congruence.
  - intros l st Hp (? & ? & Hval). split_and!; [done|done|]. intros x. rewrite <- Hp. apply Hval.
  - exists lcc, degrees. split_and!; try done. intros x Hx. apply Hval; [done|].
    apply elem_of_seq. pose proof (pos_spec r N s Hreads x Hx). lia.
Qed.

(** One vertex of the second pass. *)
Lemma lcc_visit_spec degrees lcc k v :
  length lcc = N -> length degrees = N -> (v < N)%nat ->
  (forall x, x ∈ V -> degrees !! pos r N x = Some (Z.of_nat (length (out (pos r N x))))) ->
  exists lcc' k', lcc_visit (sr_edges r) degrees (lcc, k) v = Val (lcc', k') /\ length lcc' = N /\
    (k <= k')%nat /\ (forall u, u <> v -> lcc' !! u = lcc !! u) /\
    ((k' = S k /\ is_timeout k = true) \/
     forall x, x ∈ V -> pos r N x = v -> lcc' !! v = Some (lcc_value s x)).
Proof.
  intros Hl Hd Hv Hdeg. unfold lcc_visit. destruct (lookup_lt_is_Some_2 degrees v) as [d Hdv]; [lia|].
  rewrite (arr_get_val _ _ _ Hdv). bind_val.
  assert (forall x, x ∈ V -> pos r N x = v -> d = Z.of_nat (length (out v)) /\ 0 <= d < uint32_max) as Hdx.
  { intros x Hx <-. rewrite (Hdeg x Hx) in Hdv. injection Hdv as <-. split; [done|].
    pose proof (iout_length r N s Hreads (pos r N x) Hv). unfold uint32_max. lia. }
  destruct (Z.eqb_spec d uint32_max) as [Hmax|_].
  { exists lcc, k. split_and!; try done. right. intros x Hx Hp. destruct (Hdx x Hx Hp). lia. }
  destruct (is_timeout k) eqn:Ht.
  { exists lcc, (S k). split_and!; try done; [lia|]. by left. }
  rewrite arr_set_val by lia. bind_val. destruct (Z.ltb_spec d 2) as [Hlt|Hge].
  - exists (<[v := d_zero]> lcc), (S k). rewrite length_insert. split_and!; [done|done|lia| |right].
    + intros u Hu. by rewrite list_lookup_insert_ne.
    + intros x Hx Hp. destruct (Hdx x Hx Hp) as [Hd' _]. rewrite list_lookup_insert_eq by lia.
      unfold lcc_value. rewrite (joined_size x Hx), Hp, <- Hd'.
      by rewrite (proj2 (Z.leb_gt 2 d)) by lia.
  - rewrite arr_set_val by (rewrite length_insert; lia). bind_val. rewrite list_insert_insert_eq.
    eexists _, (S k). split; [reflexivity|]. rewrite length_insert. split_and!; [done|lia| |right].
    + intros u Hu. by rewrite list_lookup_insert_ne.
    + intros x Hx Hp. destruct (Hdx x Hx Hp) as [Hd' _]. rewrite list_lookup_insert_eq by lia.
      unfold lcc_value, lcc_ratio. rewrite (joined_size x Hx), Hp, <- Hd', (proj2 (Z.leb_le 2 d)) by lia.
      by rewrite <- Hp, (count_triangles_spec x Hx).
Qed.

Lemma lcc_of_spec :
  exists lcc k, lcc_of r (sr_edges r) N = Val (lcc, k) /\ length lcc = N /\
    (is_timeout k = true \/ forall x, x ∈ V -> lcc !! pos r N x = Some (lcc_value s x)).
Proof.
  unfold lcc_of.
  destruct (lcc_degrees_spec (new_double <$> seq 0 N) (new_uint32 <$> seq 0 N))
    as (lcc0 & degrees & -> & Hl0 & Hd & Hdeg); [by rewrite length_fmap, length_seq..|].
  bind_step. unfold sr_ids. rewrite Hfirst.
  destruct (omp_fold_inv 1 (fun done '((lcc, k) : list double * nat) => length lcc = N /\
      ((exists j, (j < k)%nat /\ is_timeout j = true) \/
       forall x, x ∈ V -> pos r N x ∈ done -> lcc !! pos r N x = Some (lcc_value s x)))
    (lcc_visit (sr_edges r) degrees) (seq 0 N) (lcc0, 0%nat)) as ([lcc k] & -> & Hl & Hcase).
  - split; [done|]. right. intros x _ Hx. by apply elem_of_nil in Hx.
  - intros done v [lcc k] Hv%elem_of_seq _ [Hl Hcase].
    destruct (lcc_visit_spec degrees lcc k v Hl Hd ltac:(lia) Hdeg)
      as (lcc' & k' & -> & Hl' & Hk & Hoth & Hnew).
    eexists. split; [done|]. split; [done|].
    destruct Hcase as [(j & Hj & Htj)|Hin]; [left; exists j; split; [lia|done]|].
    destruct Hnew as [[-> Ht]|Hnew]; [left; exists k; split; [lia|done]|right].
    intros x Hx Hdone. destruct (decide (pos r N x = v)) as [Hp|Hne]; [rewrite Hp; by apply Hnew|].
    rewrite Hoth by done. apply Hin; [done|]. set_solver.
  - intros l [lcc k] Hp [Hl Hcase]. split; [done|]. destruct Hcase as [?|Hin]; [by left|right].
    intros x. rewrite <- Hp. apply Hin.
  - exists lcc, k. split_and!; [done|done|]. destruct Hcase as [(j & Hj & Htj)|Hin].
    + left. apply (is_timeout_mono j); [lia|done].
    + right. intros x Hx. apply Hin; [done|]. apply elem_of_seq.
      pose proof (pos_spec r N s Hreads x Hx). lia.
Qed.
End lcc.

(** A loop over the identifiers up to the length of the arrays accesses the
    element after the last one. *)
Lemma lcc_of_last `{Omp, Timer, Memory} (r : Reader) nexts N :
  sr_first r = 1%nat -> (0 < N)%nat -> lcc_of r nexts N = Undef.
Proof.
  intros Hfirst HN. unfold lcc_of.
  rewrite (res_fold_undef (fun st => length st.1 = N /\ length st.2 = N) (lcc_degree r) _ N); [done|..].
  - rewrite (omp_perm 0 _ (sr_ids r N)). unfold sr_ids. rewrite Hfirst. apply elem_of_seq. lia.
  - cbn [fst snd]. by rewrite !length_fmap, !length_seq.
  - intros [lcc degrees] [Hl Hd]. unfold lcc_degree. simpl in *.
    unfold arr_set. by destruct (sr_vertex r N); rewrite decide_False by lia.
  - intros [lcc degrees] v _ [Hl Hd]. unfold lcc_degree. simpl in *. unfold arr_set.
    destruct (sr_vertex r v), (decide (v < length lcc)%nat), (decide (v < length degrees)%nat);
      (by left) || (right; eexists; split; [done|]; simpl; by rewrite ?length_insert).
Qed.

(** ** The candidates of the two-hop queries: proofs *)

Definition draw (rand : nat -> Z) (offset max_vertex_id : Z) (k : nat) : Z :=
  rand k mod max_vertex_id + offset.

(** The identifiers drawn from the [k]-th on, [n] of them. *)
Definition draws (rand : nat -> Z) (offset max_vertex_id : Z) (k n : nat) : gset Z :=
  list_to_set (draw rand offset max_vertex_id <$> seq k n).

Lemma candidates_loop_eq rand offset max size vertices unique k fuel :
  candidates_loop rand offset max size vertices unique k (S fuel) =
    if (length vertices <? size)%nat then
      if decide (draw rand offset max k ∈ unique)
      then candidates_loop rand offset max size vertices unique (S k) fuel
      else candidates_loop rand offset max size (vertices ++ [draw rand offset max k])
             ({[draw rand offset max k]} ∪ unique) (S k) fuel
    else Val vertices.
Proof. done. Qed.

Lemma candidates_loop_spec rand offset max size n : forall k vertices,
  NoDup vertices -> (length vertices <= size)%nat ->
  let all := list_to_set vertices ∪ draws rand offset max k n in
  if (size <=? base.size all)%nat
  then exists l, candidates_loop rand offset max size vertices (list_to_set vertices) k (S n) = Val l /\
         NoDup l /\ length l = size /\ forall x, x ∈ l -> x ∈ all
  else candidates_loop rand offset max size vertices (list_to_set vertices) k (S n) = NoFuel.
Proof.
  induction n as [|n IH]; intros k vertices Hnd Hle all; rewrite candidates_loop_eq.
  - assert (all = list_to_set vertices) as Hall by (unfold all, draws; simpl; set_solver).
    rewrite Hall, size_list_to_set by done.
    destruct (Nat.ltb_spec (length vertices) size), (Nat.leb_spec size (length vertices)); try lia.
    + by case_decide.
    + exists vertices. split_and!; [done|done|lia|]. intros x Hx. by apply elem_of_list_to_set.
  - destruct (Nat.ltb_spec (length vertices) size) as [Hlt|Hge].
    2:{ assert (list_to_set vertices ⊆ all) as Hsub by (unfold all; set_solver).
        pose proof (subseteq_size _ _ Hsub) as Hs.
        rewrite size_list_to_set in Hs by done. rewrite (proj2 (Nat.leb_le _ _)) by lia.
        exists vertices. split_and!; [done|done|lia|]. intros x Hx. by apply Hsub, elem_of_list_to_set. }
    set (vid := draw rand offset max k) in *.
    assert (all = list_to_set vertices ∪ {[vid]} ∪ draws rand offset max (S k) n) as Hall
      by (unfold all, draws; cbn [seq fmap list_fmap list_to_set]; fold vid; set_solver).
    clearbody all. subst all. case_decide as Hin.
    + replace (list_to_set vertices ∪ {[vid]} ∪ draws rand offset max (S k) n)
        with (list_to_set vertices ∪ draws rand offset max (S k) n) by set_solver.
      by apply IH.
    + assert ({[vid]} ∪ list_to_set vertices = list_to_set (vertices ++ [vid]) :> gset Z) as ->
        by set_solver.
      replace (list_to_set vertices ∪ {[vid]} ∪ draws rand offset max (S k) n)
        with (list_to_set (vertices ++ [vid]) ∪ draws rand offset max (S k) n) by set_solver.
      apply IH.
      * apply NoDup_app. split; [done|]. split; [|apply NoDup_singleton].
        intros x Hx ->%list_elem_of_singleton. by apply Hin, elem_of_list_to_set.
      * rewrite length_app. simpl. lia.
Qed.

Lemma draws_size rand offset max k n : 0 < max ->
  (base.size (draws rand offset max k n) <= Z.to_nat max)%nat.
Proof.
  intros Hmax.
  assert (draws rand offset max k n ⊆ list_to_set ((fun i => Z.of_nat i + offset) <$> seq 0 (Z.to_nat max)))
    as Hsub.
  { intros x. unfold draws. rewrite !elem_of_list_to_set, !list_elem_of_fmap.
    intros (j & -> & _). pose proof (Z.mod_pos_bound (rand j) max Hmax).
    exists (Z.to_nat (rand j mod max)). unfold draw. rewrite elem_of_seq. lia. }
  apply subseteq_size in Hsub. rewrite size_list_to_set in Hsub.
  - by rewrite length_fmap, length_seq in Hsub.
  - apply NoDup_fmap_2; [intros i j; lia|apply NoDup_seq].
Qed.

(** [generate_two_hops_neighbor_candidates] returns once 2000 different
    identifiers have been drawn: 2000 of them, without repetition. With fewer
    than 2000 vertices it never returns, whatever the random numbers. *)
Theorem candidates_spec rand offset max_vertex_id n (Hmax : 0 < max_vertex_id) :
  let drawn := draws rand offset max_vertex_id 0 n in
  (if (two_hop_neighbor_size <=? base.size drawn)%nat
   then exists l, candidates rand offset max_vertex_id (S n) = Val l /\
          NoDup l /\ length l = two_hop_neighbor_size /\ forall x, x ∈ l -> x ∈ drawn
   else candidates rand offset max_vertex_id (S n) = NoFuel) /\
  (max_vertex_id < 2000 -> forall fuel, candidates rand offset max_vertex_id fuel = NoFuel).
Proof.
  intros drawn. unfold candidates. rewrite (proj2 (Z.eqb_neq _ _)) by lia.
  assert (forall n, let drawn := draws rand offset max_vertex_id 0 n in
    if (two_hop_neighbor_size <=? base.size drawn)%nat
    then exists l, candidates_loop rand offset max_vertex_id two_hop_neighbor_size [] ∅ 0 (S n) = Val l /\
           NoDup l /\ length l = two_hop_neighbor_size /\ forall x, x ∈ l -> x ∈ drawn
    else candidates_loop rand offset max_vertex_id two_hop_neighbor_size [] ∅ 0 (S n) = NoFuel) as Hall.
  { intros m. pose proof (candidates_loop_spec rand offset max_vertex_id two_hop_neighbor_size m 0 []
      (NoDup_nil_2) ltac:(simpl; lia)) as Hspec. cbv zeta in Hspec.
    rewrite list_to_set_nil, (left_id_L ∅ (∪)) in Hspec. exact Hspec. }
  split; [apply Hall|]. intros Hlt [|m]; [done|]. specialize (Hall m). cbv zeta in Hall.
  pose proof (draws_size rand offset max_vertex_id 0 m Hmax).
  rewrite (proj2 (Nat.leb_gt _ _)) in Hall; [done|]. unfold two_hop_neighbor_size. lia.
Qed.

Lemma candidates_spec_witness : candidates (fun k => Z.of_nat k) 1 5 100 = NoFuel.
Proof. apply (candidates_spec (fun k => Z.of_nat k) 1 5 0); lia. Defined.
