(* ===== verification/SnapshotSssp.v ===== *)
(** Shortest paths between the positions of a transaction are shortest paths
    between the vertices. Nothing here models code. *)

From S2P Require Import Prelude Doubles Paths Graphs Gapbs AdjList AdjSssp Snapshot Sssp.

Section snapshot_sssp.
Context (r : Reader) (N : nat) (s : Spec) (Hreads : reads r N s) (Hfirst : sr_first r = 0%nat).
Context (Hweights : forall u v w, weighted s u v w -> nonneg w = true).
Context (src : Z) (Hsrc : src ∈ spec_vertices s).

Notation P := (adj_edge N (sr_edges r)).

Lemma adj_edge_named u v w : P u v w <->
  (u < N)%nat /\ (v < N)%nat /\ exists x y, name r u = Some x /\ name r v = Some y /\ weighted s x y w.
Proof.
  unfold adj_edge, name, weighted. split.
  - intros [Hu He]. pose proof (rd_edges _ _ _ Hreads u v w Hu) as Hiff. rewrite Hfirst in *. simpl in *.
    apply Hiff in He as (v' & x & y & -> & Hv & Hx & Hy & Hw). split_and!; [done|done|]. by exists x, y.
  - intros (Hu & Hv & x & y & Hx & Hy & Hw). split; [done|].
    pose proof (rd_edges _ _ _ Hreads u v w Hu) as Hiff. rewrite Hfirst in *. simpl in *. apply Hiff.
    by exists v, x, y.
Qed.

Lemma reads_adjacent v e : (v < N)%nat -> e ∈ sr_edges r v -> (e.1 < N)%nat /\ nonneg e.2 = true.
Proof.
  intros Hv He. destruct e as [u w].
  destruct (proj1 (adj_edge_named v u w) (conj Hv He)) as (_ & Hu & x & y & _ & _ & Hw).
  split; [done|by eapply Hweights].
Qed.

Lemma walk_named v d : wwalk P (pos r N src) v d -> exists y, name r v = Some y /\ wwalk (weighted s) src y d.
Proof.
  induction 1 as [|u v d w _ (x & Hx & IH) (Hu & Hv & x' & y & Hx' & Hy & Hw)%adj_edge_named].
  - exists src. split; [by apply (pos_spec r N s Hreads src Hsrc)|constructor].
  - exists y. split; [done|]. simplify_eq. by econstructor.
Qed.

Lemma walk_positions y d : wwalk (weighted s) src y d ->
  y ∈ spec_vertices s /\ wwalk P (pos r N src) (pos r N y) d.
Proof.
  induction 1 as [|u v d w _ [Hu IH] Hw]; [split; [done|constructor]|].
  destruct (rd_closed _ _ _ Hreads u v (ex_intro _ w Hw)) as [_ Hv]. split; [done|].
  destruct (pos_spec r N s Hreads u Hu) as [Hpu Hnu], (pos_spec r N s Hreads v Hv) as [Hpv Hnv].
  econstructor; [exact IH|]. apply adj_edge_named. split_and!; [done|done|]. by exists u, v.
Qed.

Lemma shortest_named y d : y ∈ spec_vertices s ->
  shortest P (pos r N src) (pos r N y) d -> shortest (weighted s) src y d.
Proof.
  intros Hy [Hd Hle]. destruct (pos_spec r N s Hreads y Hy) as [_ Hn]. split.
  - destruct Hd as [Hd|Hd]; [by left|right]. destruct (walk_named _ _ Hd) as (y' & Hy' & Hw). by simplify_eq.
  - intros d' Hw. by apply Hle, walk_positions.
Qed.
End snapshot_sssp.
