(* ===== verification/Database.v ===== *)
(** The databases of the drivers of [library/gtx] and [library/livegraph]:
    neither they nor the concurrent hash map of TBB are part of the repository,
    and the classes below state what the drivers rely on. Here are also the
    transactions of the drivers, with the loop that retries them, the rules to
    reason on them and how the content of a database represents a graph. *)

From S2P Require Import Prelude Edge AdjList Interface.

(** ** The vertex dictionary

    [tbb::concurrent_hash_map<uint64_t, gt::vertex_t>], used by one thread at a
    time. [hm_insert] adds a missing key with the value zero and tells whether
    it did. *)

Class ConcurrentHashMap := {
  hash_map : Type;
  hm_new : hash_map;
  hm_find : hash_map -> Z -> option Z;
  hm_insert : hash_map -> Z -> bool * hash_map;
  hm_set : hash_map -> Z -> Z -> hash_map;
  hm_erase : hash_map -> Z -> hash_map;
  hm_map : hash_map -> gmap Z Z;
  hm_new_map : hm_map hm_new = ∅;
  hm_find_map : forall h k, hm_find h k = hm_map h !! k;
  hm_insert_map : forall h k, hm_map h !! k = None ->
    (hm_insert h k).1 = true /\ hm_map (hm_insert h k).2 = <[k := 0]> (hm_map h);
  hm_insert_present : forall h k, is_Some (hm_map h !! k) -> hm_insert h k = (false, h);
  hm_set_map : forall h k v, hm_map (hm_set h k v) = <[k := v]> (hm_map h);
  hm_erase_map : forall h k, hm_map (hm_erase h k) = delete k (hm_map h);
}.

(** ** The database

    The content that a transaction sees: the payload of the vertices, the
    weights of the edges by source, label and destination, and the identifiers
    handed out so far. *)

Record DbData := mkData {
  gd_vertices : gmap Z Z;
  gd_edges : gmap (Z * Z * Z) double;
  gd_allocated : gset Z;
}.

(** An operation of a read-write transaction returns, or it raises
    [RollbackExcept]. *)
Inductive tx_res (T A : Type) :=
  | TxOk (a : A) (t : T)
  | Rollback (t : T).

Arguments TxOk {T A} a t.
Arguments Rollback {T A} t.

Class Database := {
  Graph : Type;
  RWTransaction : Type;
  first_id : Z;
  begin_read_write_transaction : Graph -> RWTransaction;
  new_vertex : RWTransaction -> tx_res RWTransaction Z;
  put_vertex : Z -> Z -> RWTransaction -> tx_res RWTransaction unit;
  get_edge : forall src dst label : Z, RWTransaction -> tx_res RWTransaction (option double);
  put_edge : forall (src label dst : Z) (w : double), RWTransaction -> tx_res RWTransaction unit;
  checked_put_edge : forall (src label dst : Z) (w : double), RWTransaction ->
    tx_res RWTransaction bool;
  checked_delete_edge : forall src label dst : Z, RWTransaction -> tx_res RWTransaction bool;
  commit : Graph -> RWTransaction -> tx_res RWTransaction (bool * Graph);
  abort : Graph -> RWTransaction -> Graph;
  get_edge_weight : forall (g : Graph) (src dst label : Z), double;
}.

(** The same graph, where more identifiers may be used up. *)
Record extends (D D' : DbData) : Prop := {
  ex_vertices : gd_vertices D' = gd_vertices D;
  ex_edges : gd_edges D' = gd_edges D;
  ex_allocated : gd_allocated D ⊆ gd_allocated D';
}.

(** What the driver relies on: reads and writes act on the content, a commit
    installs it, and a transaction that fails leaves the graph as it was. A
    vertex that is created gets an unused identifier. *)
Class DbLaws `{Database} := {
  data : Graph -> DbData;
  tx_data : RWTransaction -> DbData;
  begin_law : forall g, tx_data (begin_read_write_transaction g) = data g;
  new_vertex_law : forall t v t', new_vertex t = TxOk v t' ->
    first_id <= v /\ v ∉ gd_allocated (tx_data t) /\
    tx_data t' = mkData (gd_vertices (tx_data t)) (gd_edges (tx_data t))
                   ({[v]} ∪ gd_allocated (tx_data t));
  put_vertex_law : forall v x t t', put_vertex v x t = TxOk tt t' ->
    tx_data t' = mkData (<[v := x]> (gd_vertices (tx_data t))) (gd_edges (tx_data t))
                   (gd_allocated (tx_data t));
  get_edge_law : forall src dst label t w t', get_edge src dst label t = TxOk w t' ->
    w = gd_edges (tx_data t) !! (src, label, dst) /\ tx_data t' = tx_data t;
  put_edge_law : forall src label dst w t t', put_edge src label dst w t = TxOk tt t' ->
    tx_data t' = mkData (gd_vertices (tx_data t)) (<[(src, label, dst) := w]> (gd_edges (tx_data t)))
                   (gd_allocated (tx_data t));
  (** Whether an edge that exists gets the new weight is left open. *)
  checked_put_edge_law : forall src label dst w t b t',
    checked_put_edge src label dst w t = TxOk b t' ->
    exists w', b = bool_decide (gd_edges (tx_data t) !! (src, label, dst) = None) /\
      (b = true -> w' = w) /\
      tx_data t' = mkData (gd_vertices (tx_data t))
                     (<[(src, label, dst) := w']> (gd_edges (tx_data t)))
                     (gd_allocated (tx_data t));
  checked_delete_edge_law : forall src label dst t b t',
    checked_delete_edge src label dst t = TxOk b t' ->
    b = bool_decide (is_Some (gd_edges (tx_data t) !! (src, label, dst))) /\
    tx_data t' = mkData (gd_vertices (tx_data t)) (delete (src, label, dst) (gd_edges (tx_data t)))
                   (gd_allocated (tx_data t));
  commit_law : forall g t b g' t', commit g t = TxOk (b, g') t' ->
    extends (if b : bool then tx_data t else data g) (data g');
  abort_law : forall g t, extends (data g) (data (abort g t));
  get_edge_weight_law : forall g src dst label,
    get_edge_weight g src dst label = default d_nan (gd_edges (data g) !! (src, label, dst));
}.

(** A commit that does not succeed raises an exception. *)
Definition commits_true `{Database} : Prop :=
  forall g t b g' t', commit g t = TxOk (b, g') t' -> b = true.

Class CommitTrue `{DbLaws} := commit_true : commits_true.

(** Conflicts with other transactions do not go on for ever: [conflicts]
    bounds how often the next transaction can still be rolled back, and a
    [calm] transaction is not rolled back. *)
Class DbProgress `{DbLaws} := {
  conflicts : Graph -> nat;
  calm : RWTransaction -> Prop;
  calm_begin : forall g, conflicts g = 0%nat -> calm (begin_read_write_transaction g);
  calm_new_vertex : forall t, calm t -> exists v t', new_vertex t = TxOk v t' /\ calm t';
  calm_put_vertex : forall v x t, calm t -> exists t', put_vertex v x t = TxOk tt t' /\ calm t';
  calm_get_edge : forall src dst label t, calm t ->
    exists w t', get_edge src dst label t = TxOk w t' /\ calm t';
  calm_put_edge : forall src label dst w t, calm t ->
    exists t', put_edge src label dst w t = TxOk tt t' /\ calm t';
  calm_checked_put_edge : forall src label dst w t, calm t ->
    exists b t', checked_put_edge src label dst w t = TxOk b t' /\ calm t';
  calm_checked_delete_edge : forall src label dst t, calm t ->
    exists b t', checked_delete_edge src label dst t = TxOk b t' /\ calm t';
  calm_commit : forall g t, calm t -> exists g' t', commit g t = TxOk (true, g') t';
  abort_progress : forall g t, (0 < conflicts g)%nat -> (conflicts (abort g t) < conflicts g)%nat;
  commit_progress : forall g t g' t', (0 < conflicts g)%nat ->
    commit g t = TxOk (false, g') t' -> (conflicts g' < conflicts g)%nat;
}.

(** ** Transactions

    The body of a [try]; the exception carries the transaction to abort. *)

Definition TxM `{Database} (A : Type) : Type := RWTransaction -> tx_res RWTransaction A.

#[export] Instance tx_ret `{Database} : MRet TxM := fun A a t => TxOk a t.
#[export] Instance tx_bind `{Database} : MBind TxM :=
  fun A B f x t =>
    match x t with
    | TxOk a t' => f a t'
    | Rollback t' => Rollback t'
    end.

(** What one round of a [do .. while(!done)] loop leads to. *)
Inductive round (G A : Type) :=
  | Done (a : A) (g : G)
  | Again (g : G).

Arguments Done {G A} a g.
Arguments Again {G A} g.

Fixpoint retry {G A} (body : G -> round G A) (g : G) (fuel : nat) : res (A * G) :=
  match fuel with
  | O => NoFuel
  | S fuel =>
    match body g with
    | Done a g' => Val (a, g')
    | Again g' => retry body g' fuel
    end
  end.

(** [tx = begin(); try { body; if(tx.commit()) done } catch { tx.abort() }] *)
Definition transaction `{Database} {A} (body : TxM A) (g : Graph) : round Graph A :=
  match body (begin_read_write_transaction g) with
  | Rollback t => Again (abort g t)
  | TxOk a t =>
    match commit g t with
    | Rollback t => Again (abort g t)
    | TxOk (true, g') _ => Done a g'
    | TxOk (false, g') _ => Again g'
    end
  end.

(** The same for a body that answers false to have the transaction aborted and
    the loop ended. *)
Definition insert_round `{Database} (body : TxM bool) (g : Graph) : round Graph bool :=
  match body (begin_read_write_transaction g) with
  | Rollback t => Again (abort g t)
  | TxOk false t => Done false (abort g t)
  | TxOk true t =>
    match commit g t with
    | Rollback t => Again (abort g t)
    | TxOk (true, g') _ => Done true g'
    | TxOk (false, g') _ => Again g'
    end
  end.

(** Create the vertex in the database unless it has an internal identifier already. *)
Definition create_vertex `{Database} (id : option Z) (external_id : Z) : TxM Z :=
  match id with
  | Some v => mret v
  | None =>
    v ← new_vertex;
    _ ← put_vertex v external_id;
    mret v
  end.

(** ** Reasoning on transactions *)

#[export] Instance extends_preorder : PreOrder extends.
Proof.
  split; [by intros D; split|]. intros D1 D2 D3 [H1 H2 H3] [H4 H5 H6].
  split; [congruence|congruence|set_solver].
Qed.

(** [m] turns a content in [P] into one in [Q], unless it is rolled back. *)
Definition tx_spec `{DbLaws} {A} (P : DbData -> Prop) (m : TxM A) (Q : A -> DbData -> Prop) : Prop :=
  forall t, P (tx_data t) ->
    match m t with TxOk a t' => Q a (tx_data t') | Rollback _ => True end.

(** [m] is not rolled back in a calm transaction. *)
Definition tx_calm `{DbProgress} {A} (m : TxM A) : Prop :=
  forall t, calm t -> exists a t', m t = TxOk a t' /\ calm t'.

Section tx_rules.
Context `{DbProgress}.

Lemma tx_spec_ret {A} (P : DbData -> Prop) (a : A) (Q : A -> DbData -> Prop) :
  (forall D, P D -> Q a D) -> tx_spec P (mret a) Q.
Proof. intros HQ t Ht. by apply HQ. Qed.

Lemma tx_spec_bind {A B} P (m : TxM A) (f : A -> TxM B) (M : A -> DbData -> Prop) Q :
  tx_spec P m M -> (forall a, tx_spec (M a) (f a) Q) -> tx_spec P (m ≫= f) Q.
Proof.
  intros Hm Hf t Ht. specialize (Hm t Ht). unfold mbind, tx_bind.
  destruct (m t) as [a t'|t']; [|done]. by apply Hf.
Qed.

Lemma tx_spec_weaken {A} (P P' : DbData -> Prop) (m : TxM A) (Q Q' : A -> DbData -> Prop) :
  (forall D, P D -> P' D) -> tx_spec P' m Q' -> (forall a D, Q' a D -> Q a D) -> tx_spec P m Q.
Proof.
  intros HP Hm HQ t Ht. specialize (Hm t (HP _ Ht)). destruct (m t); [by apply HQ|done].
Qed.

(** A specification for every initial content. *)
Lemma tx_spec_init {A} (P : DbData -> Prop) (m : TxM A) (Q : A -> DbData -> Prop) :
  (forall D, P D -> tx_spec (fun D' => D' = D) m Q) -> tx_spec P m Q.
Proof. intros Hm t Ht. by apply (Hm (tx_data t) Ht t). Qed.

Lemma tx_calm_ret {A} (a : A) : tx_calm (mret a).
Proof. intros t Ht. by exists a, t. Qed.

Lemma tx_calm_bind {A B} (m : TxM A) (f : A -> TxM B) :
  tx_calm m -> (forall a, tx_calm (f a)) -> tx_calm (m ≫= f).
Proof.
  intros Hm Hf t Ht. destruct (Hm t Ht) as (a & t' & Ha & Ht').
  unfold mbind, tx_bind. rewrite Ha. by apply Hf.
Qed.

Lemma tx_calm_unit (m : TxM unit) :
  (forall t, calm t -> exists t', m t = TxOk tt t' /\ calm t') -> tx_calm m.
Proof. intros Hm t Ht. destruct (Hm t Ht) as (t' & ? & ?). by exists tt, t'. Qed.

(** A transaction either installs what its body promises or leaves the graph
    as it was, one conflict nearer to its success. *)
Lemma transaction_spec {A} (D : DbData) (body : TxM A) (Q : A -> DbData -> Prop) g :
  extends D (data g) -> tx_spec (extends D) body Q -> tx_calm body ->
  (exists a g' D', transaction body g = Done a g' /\ Q a D' /\ extends D' (data g')) \/
  (exists g', transaction body g = Again g' /\ extends D (data g') /\
     (conflicts g' < conflicts g)%nat).
Proof.
  intros Hg Hbody Hcalm. unfold transaction.
  assert (forall t, (0 < conflicts g)%nat -> extends D (data (abort g t)) /\
            (conflicts (abort g t) < conflicts g)%nat) as Habort.
  { intros t Hc. split; [|by apply abort_progress]. etrans; [exact Hg|]. apply abort_law. }
  pose proof (Hbody (begin_read_write_transaction g)) as Hq. rewrite begin_law in Hq.
  specialize (Hq Hg).
  destruct (Nat.eq_dec (conflicts g) 0%nat) as [Hc|Hc].
  - destruct (Hcalm _ (calm_begin g Hc)) as (a & t & Ha & Ht). rewrite Ha in *.
    destruct (calm_commit g t Ht) as (g' & t' & Hcommit). rewrite Hcommit. left.
    exists a, g', (tx_data t). split; [done|]. split; [done|]. apply (commit_law _ _ _ _ _ Hcommit).
  - destruct (body _) as [a t|t].
    + destruct (commit g t) as [[[|] g'] t'|t'] eqn:Hcommit.
      * left. exists a, g', (tx_data t). split; [done|]. split; [done|].
        apply (commit_law _ _ _ _ _ Hcommit).
      * right. exists g'. split; [done|]. split.
        -- etrans; [exact Hg|]. apply (commit_law _ _ _ _ _ Hcommit).
        -- apply (commit_progress g t g' t'); [lia|done].
      * right. eexists. split; [done|]. apply Habort. lia.
    + right. eexists. split; [done|]. apply Habort. lia.
Qed.

Lemma insert_round_spec (D : DbData) (body : TxM bool) (Q : bool -> DbData -> Prop) g :
  extends D (data g) -> tx_spec (extends D) body Q -> tx_calm body ->
  (exists b g' D', insert_round body g = Done b g' /\
     (if b then Q true D' else D' = D /\ exists D2, Q false D2) /\ extends D' (data g')) \/
  (exists g', insert_round body g = Again g' /\ extends D (data g') /\
     (conflicts g' < conflicts g)%nat).
Proof.
  intros Hg Hbody Hcalm. pose proof (transaction_spec D body Q g Hg Hbody Hcalm) as Htx.
  pose proof (Hbody (begin_read_write_transaction g)) as Hq. rewrite begin_law in Hq.
  specialize (Hq Hg). unfold transaction, insert_round in *.
  destruct (body _) as [[|] t|t]; [|clear Htx|].
  - destruct Htx as [(a & g' & D' & Heq & HQ & Hext)|Htx]; [left|by right].
    destruct (commit g t) as [[[|] g2] t'|t']; simplify_eq. by exists true, g', D'.
  - left. eexists _, _, D. split; [done|]. split; [by eauto|]. etrans; [exact Hg|apply abort_law].
  - destruct Htx as [(? & ? & ? & ? & _)|Htx]; [done|by right].
Qed.

(** A loop whose rounds are like that ends. *)
Lemma retry_spec {A} (D : DbData) (body : Graph -> round Graph A) (Q : A -> DbData -> Prop) fuel :
  (forall g, extends D (data g) ->
     (exists a g' D', body g = Done a g' /\ Q a D' /\ extends D' (data g')) \/
     (exists g', body g = Again g' /\ extends D (data g') /\
        (conflicts g' < conflicts g)%nat)) ->
  forall g, extends D (data g) -> (conflicts g < fuel)%nat ->
  exists a g' D', retry body g fuel = Val (a, g') /\ Q a D' /\ extends D' (data g').
Proof.
  intros Hround. induction fuel as [|fuel IH]; intros g Hg Hf; [lia|]. cbn [retry].
  destruct (Hround g Hg) as [(a & g' & D' & -> & ?)|(g' & -> & Hg' & Hc)]; [eauto|].
  apply IH; [done|lia].
Qed.

Lemma retry_stable {A} (body : Graph -> round Graph A) g : fuel_stable (retry body g).
Proof.
  intros fuel. revert g. induction fuel as [|fuel IH]; intros g fuel' a Ha Hle; [done|].
  destruct fuel' as [|fuel']; [lia|]. cbn [retry] in *. destruct (body g); [done|].
  apply (IH _ fuel'); [done|lia].
Qed.

(** *** The operations *)

Definition with_arc (label : Z) (D : DbData) (src dst : Z) (w : double) : DbData :=
  mkData (gd_vertices D) (<[(src, label, dst) := w]> (gd_edges D)) (gd_allocated D).

Definition without_arc (label : Z) (D : DbData) (src dst : Z) : DbData :=
  mkData (gd_vertices D) (delete (src, label, dst) (gd_edges D)) (gd_allocated D).

Definition with_vertex (D : DbData) (v x : Z) : DbData :=
  mkData (<[v := x]> (gd_vertices D)) (gd_edges D) ({[v]} ∪ gd_allocated D).

Lemma create_vertex_spec id x D :
  tx_spec (fun D' => D' = D) (create_vertex id x)
    (fun v D' => match id with
                 | Some v' => v = v' /\ D' = D
                 | None => first_id <= v /\ v ∉ gd_allocated D /\ D' = with_vertex D v x
                 end).
Proof.
  destruct id as [v|]; [by apply tx_spec_ret; intros ? ->|].
  intros t <-. unfold create_vertex, mbind, tx_bind.
  destruct (new_vertex t) as [v t1|] eqn:Hv; [|done].
  destruct (new_vertex_law _ _ _ Hv) as (? & ? & Ht1).
  destruct (put_vertex v x t1) as [[] t2|] eqn:Hp; [|done].
  simpl. rewrite (put_vertex_law _ _ _ _ Hp), Ht1. done.
Qed.

Lemma put_edge_spec src label dst w D :
  tx_spec (fun D' => D' = D) (put_edge src label dst w) (fun _ D' => D' = with_arc label D src dst w).
Proof.
  intros t <-. destruct (put_edge src label dst w t) as [[] t'|] eqn:Hp; [|done].
  apply (put_edge_law _ _ _ _ _ _ Hp).
Qed.

Lemma get_edge_spec src dst label D :
  tx_spec (fun D' => D' = D) (get_edge src dst label)
    (fun w D' => w = gd_edges D !! (src, label, dst) /\ D' = D).
Proof.
  intros t <-. destruct (get_edge src dst label t) as [w t'|] eqn:Hget; [|done].
  apply (get_edge_law _ _ _ _ _ _ Hget).
Qed.

Lemma checked_delete_spec src label dst D :
  tx_spec (fun D' => D' = D) (checked_delete_edge src label dst)
    (fun b D' => b = bool_decide (is_Some (gd_edges D !! (src, label, dst))) /\
       D' = without_arc label D src dst).
Proof.
  intros t <-. destruct (checked_delete_edge src label dst t) as [b t'|] eqn:Hb; [|done].
  by destruct (checked_delete_edge_law _ _ _ _ _ _ Hb) as [-> ->].
Qed.

Lemma create_vertex_calm id x : tx_calm (create_vertex id x).
Proof.
  destruct id as [v|]; [apply tx_calm_ret|].
  apply tx_calm_bind; [exact calm_new_vertex|]. intros v.
  apply tx_calm_bind; [apply tx_calm_unit, calm_put_vertex|]. intros _. apply tx_calm_ret.
Qed.

End tx_rules.

(** ** The representation of the abstract graph

    The external identifiers are translated by the dictionary; the payload of
    an internal vertex is its external identifier. The arcs are the edges with
    the label [label]; there may be others, with a label in [labels]. The
    identifiers start at [first]. *)

Record db_data (first label : Z) (labels : Z -> Prop) (h : gmap Z Z) (D : DbData) (vs : gset Z) (arcs : gmap (Z * Z) double) : Prop := {
  gd_dom : dom h = vs;
  gd_inj : forall x y i, h !! x = Some i -> h !! y = Some i -> x = y;
  gd_payload : forall x i, h !! x = Some i -> first <= i /\ i ∈ gd_allocated D /\ gd_vertices D !! i = Some x;
  gd_arc : forall x y i j, h !! x = Some i -> h !! y = Some j ->
    gd_edges D !! (i, label, j) = arcs !! (x, y);
  gd_only : forall x i, gd_vertices D !! i = Some x -> h !! x = Some i;
  gd_ends : forall i l j, is_Some (gd_edges D !! (i, l, j)) ->
    labels l /\ exists x y, h !! x = Some i /\ h !! y = Some j;
  gd_closed : forall x y, is_Some (arcs !! (x, y)) -> x ∈ vs /\ y ∈ vs;
}.

Section db_data.
Context {first label : Z} {labels : Z -> Prop}.

Lemma db_data_extends h D D' vs arcs : extends D D' -> db_data first label labels h D vs arcs -> db_data first label labels h D' vs arcs.
Proof.
  intros [Hv He Ha] R. split; try apply R.
  - intros x i Hx. destruct (gd_payload _ _ _ _ _ _ _ R x i Hx) as (? & ? & ?). rewrite Hv. set_solver.
  - rewrite He. apply R.
  - rewrite Hv. apply R.
  - rewrite He. apply R.
Qed.

Lemma db_data_vertex h D vs arcs x v :
  db_data first label labels h D vs arcs -> x ∉ vs -> first <= v -> v ∉ gd_allocated D ->
  db_data first label labels (<[x := v]> h) (with_vertex D v x) ({[x]} ∪ vs) arcs.
Proof.
  intros R Hx Hv Hfresh.
  assert (forall y i, h !! y = Some i -> i <> v /\ y <> x) as Hold.
  { intros y i Hy. destruct (gd_payload _ _ _ _ _ _ _ R y i Hy) as (_ & ? & _). split; [congruence|].
    intros ->. apply Hx. rewrite <- (gd_dom _ _ _ _ _ _ _ R), elem_of_dom. eauto. }
  assert (forall y, arcs !! (x, y) = None /\ arcs !! (y, x) = None) as Harcs.
  { intros y. split; apply eq_None_not_Some; intros Hs; by destruct (gd_closed _ _ _ _ _ _ _ R _ _ Hs). }
  assert (forall l j, gd_edges D !! (v, l, j) = None /\ gd_edges D !! (j, l, v) = None) as Hno.
  { intros l j. split; apply eq_None_not_Some; intros Hs;
      destruct (gd_ends _ _ _ _ _ _ _ R _ _ _ Hs) as (_ & y & z & Hy & Hz);
      [by destruct (Hold y v Hy)|by destruct (Hold z v Hz)]. }
  split; simpl.
  - rewrite dom_insert_L. by rewrite (gd_dom _ _ _ _ _ _ _ R).
  - intros y z i. rewrite !lookup_insert. repeat case_decide; intros Hy Hz; simplify_eq; [done|..].
    + by destruct (Hold _ _ Hz).
    + by destruct (Hold _ _ Hy).
    + by apply (gd_inj _ _ _ _ _ _ _ R y z i).
  - intros y i. rewrite lookup_insert. case_decide; intros Hy; simplify_eq.
    + rewrite lookup_insert_eq. set_solver.
    + destruct (Hold y i Hy) as [? _]. destruct (gd_payload _ _ _ _ _ _ _ R y i Hy) as (? & ? & ?).
      rewrite lookup_insert_ne by done. set_solver.
  - intros y z i j. rewrite !lookup_insert. repeat case_decide; intros Hy Hz; simplify_eq.
    4: by apply (gd_arc _ _ _ _ _ _ _ R).
    all: rewrite ?(proj1 (Harcs _)), ?(proj2 (Harcs _)); apply Hno.
  - intros y i. rewrite !lookup_insert. case_decide as Hi.
    + intros [= <-]. rewrite decide_True by done. congruence.
    + intros Hy%(gd_only _ _ _ _ _ _ _ R). destruct (Hold y i Hy). by rewrite decide_False.
  - intros i l j Hs. destruct (gd_ends _ _ _ _ _ _ _ R i l j Hs) as (? & y & z & Hy & Hz).
    split; [done|]. destruct (Hold y i Hy), (Hold z j Hz). exists y, z.
    by rewrite !lookup_insert_ne.
  - intros y z Hs. destruct (gd_closed _ _ _ _ _ _ _ R y z Hs). set_solver.
Qed.

Lemma db_data_arc h D vs arcs x y i j w :
  labels label -> db_data first label labels h D vs arcs -> h !! x = Some i -> h !! y = Some j ->
  db_data first label labels h (with_arc label D i j w) vs (<[(x, y) := w]> arcs).
Proof.
  intros Hlabel R Hx Hy. split; simpl; try apply R.
  - intros x' y' i' j' Hx' Hy'. rewrite !lookup_insert.
    destruct (decide ((x, y) = (x', y'))) as [Heq|Hne].
    + simplify_eq. by rewrite decide_True.
    + rewrite decide_False; [by apply (gd_arc _ _ _ _ _ _ _ R)|]. intros Heq. simplify_eq.
      destruct Hne. f_equal; by eapply (gd_inj _ _ _ _ _ _ _ R).
  - intros i' l j'. rewrite lookup_insert. case_decide; [|by apply (gd_ends _ _ _ _ _ _ _ R)].
    simplify_eq. intros _. eauto.
  - intros x' y'. rewrite lookup_insert. case_decide; [|by apply (gd_closed _ _ _ _ _ _ _ R)].
    simplify_eq. rewrite <- (gd_dom _ _ _ _ _ _ _ R), !elem_of_dom. eauto.
Qed.

(** An edge with another label is not an arc. *)
Lemma db_data_other h D vs arcs l x y i j w :
  labels l -> l <> label -> db_data first label labels h D vs arcs -> h !! x = Some i ->
  h !! y = Some j -> db_data first label labels h (with_arc l D i j w) vs arcs.
Proof.
  intros Hl Hne R Hx Hy. split; simpl; try apply R.
  - intros x' y' i' j' Hx' Hy'. rewrite lookup_insert_ne by congruence. by apply (gd_arc _ _ _ _ _ _ _ R).
  - intros i' l' j'. rewrite lookup_insert. case_decide; [|by apply (gd_ends _ _ _ _ _ _ _ R)].
    simplify_eq. intros _. eauto.
Qed.

Lemma db_data_no_arc h D vs arcs x y i j :
  db_data first label labels h D vs arcs -> h !! x = Some i -> h !! y = Some j ->
  db_data first label labels h (without_arc label D i j) vs (delete (x, y) arcs).
Proof.
  intros R Hx Hy. split; simpl; try apply R.
  - intros x' y' i' j' Hx' Hy'. rewrite !lookup_delete.
    destruct (decide ((x, y) = (x', y'))) as [Heq|Hne].
    + simplify_eq. by rewrite decide_True.
    + rewrite decide_False; [by apply (gd_arc _ _ _ _ _ _ _ R)|]. intros Heq. simplify_eq.
      destruct Hne. f_equal; by eapply (gd_inj _ _ _ _ _ _ _ R).
  - intros i' l j'. rewrite lookup_delete. case_decide; [by intros []|by apply (gd_ends _ _ _ _ _ _ _ R)].
  - intros x' y'. rewrite lookup_delete. case_decide; [by intros []|by apply (gd_closed _ _ _ _ _ _ _ R)].
Qed.
End db_data.

Lemma spec_add_edge_ok s u v w :
  u <> v ->
  (spec_directed s = false -> forall x y, spec_arcs s !! (x, y) = spec_arcs s !! (y, x)) ->
  (forall x, spec_arcs s !! (x, x) = None) ->
  (spec_directed s = false -> forall x y,
     spec_arcs (spec_add_edge s u v w) !! (x, y) = spec_arcs (spec_add_edge s u v w) !! (y, x)) /\
  (forall x, spec_arcs (spec_add_edge s u v w) !! (x, x) = None).
Proof.
  intros Huv Hsym Hloop. pose proof (spec_add_updated s u v w Huv) as Hup. split.
  - intros Hd x y. rewrite !Hup, Hd. pose proof (Hsym Hd x y).
    repeat case_decide; intuition congruence.
  - intros x. rewrite Hup. repeat case_decide; [intuition congruence..|]. apply Hloop.
Qed.

Lemma spec_remove_edge_ok s u v :
  u <> v ->
  (spec_directed s = false -> forall x y, spec_arcs s !! (x, y) = spec_arcs s !! (y, x)) ->
  (forall x, spec_arcs s !! (x, x) = None) ->
  (spec_directed s = false -> forall x y,
     spec_arcs (spec_remove_edge s u v) !! (x, y) = spec_arcs (spec_remove_edge s u v) !! (y, x)) /\
  (forall x, spec_arcs (spec_remove_edge s u v) !! (x, x) = None).
Proof.
  intros Huv Hsym Hloop. pose proof (spec_remove_updated s u v Huv) as Hup. split.
  - intros Hd x y. rewrite !Hup, Hd. pose proof (Hsym Hd x y).
    repeat case_decide; intuition congruence.
  - intros x. rewrite Hup. repeat case_decide; [intuition congruence..|]. apply Hloop.
Qed.

(** ** The drivers

    The state of a driver, which is the same in the two. *)

Record Driver `{Database, ConcurrentHashMap} := mkDriver {
  m_pImpl : Graph;
  m_pHashMap : hash_map;
  db_is_directed : bool;
  m_read_only : bool;
  m_num_vertices : Z;
  db_num_edges : Z;
  db_timeout : Z;
}.

Section driver.
Context `{Database, ConcurrentHashMap}.

Definition with_graph (d : Driver) (g : Graph) : Driver :=
  mkDriver _ _ g (m_pHashMap d) (db_is_directed d) (m_read_only d) (m_num_vertices d)
    (db_num_edges d) (db_timeout d).

Definition with_dictionary (d : Driver) (h : hash_map) : Driver :=
  mkDriver _ _ (m_pImpl d) h (db_is_directed d) (m_read_only d) (m_num_vertices d)
    (db_num_edges d) (db_timeout d).

Definition add_num_vertices (d : Driver) (n : Z) : Driver :=
  mkDriver _ _ (m_pImpl d) (m_pHashMap d) (db_is_directed d) (m_read_only d)
    (u64 (m_num_vertices d + n)) (db_num_edges d) (db_timeout d).

Definition add_num_edges (d : Driver) (n : Z) : Driver :=
  mkDriver _ _ (m_pImpl d) (m_pHashMap d) (db_is_directed d) (m_read_only d)
    (m_num_vertices d) (u64 (db_num_edges d + n)) (db_timeout d).

(** Find a vertex or insert it; [locked] is the key on which this thread holds
    an exclusive accessor, which makes it wait for itself. *)
Definition find_or_insert (h : hash_map) (locked : option Z) (k : Z) :
    res (option Z * hash_map) :=
  if decide (locked = Some k) then Undef
  else
    match hm_find h k with
    | Some v => Val (Some v, h)
    | None => let '(_, h) := hm_insert h k in Val (None, h)
    end.

(** [xlock->second = id; m_num_vertices++] for a vertex that was inserted. *)
Definition register_vertex (d : Driver) (inserted : bool) (external_id internal_id : Z) :
    Driver :=
  if inserted
  then add_num_vertices (with_dictionary d (hm_set (m_pHashMap d) external_id internal_id)) 1
  else d.

Definition is_new (id : option Z) : bool := match id with None => true | Some _ => false end.

(** The common course of the functions that insert an edge with its end points;
    [tx] is one round of the loop of the driver. *)
Definition upsert (d : Driver) (edge : WeightedEdge)
    (tx : TxM (Z * Z * bool) -> Graph -> round Graph (Z * Z * bool))
    (body : option Z -> option Z -> TxM (Z * Z * bool)) (fuel : nat) : res (bool * Driver) :=
  '(src, h) ← find_or_insert (m_pHashMap d) None (wsource edge);
  let locked := if is_new src then Some (wsource edge) else None in
  '(dst, h) ← find_or_insert h locked (wdestination edge);
  '(r, g) ← retry (tx (body src dst)) (m_pImpl d) fuel;
  let '(internal_source_id, internal_destination_id, result) := r in
  let d := with_graph (with_dictionary d h) g in
  let d := if result : bool then add_num_edges d 1 else d in
  let d := register_vertex d (is_new src) (wsource edge) internal_source_id in
  let d := register_vertex d (is_new dst) (wdestination edge) internal_destination_id in
  Val (result, d).

(** The common course of the insertion of a vertex. *)
Definition enroll (d : Driver) (external_id : Z) (tx : Graph -> round Graph Z) (fuel : nat) :
    res (bool * Driver) :=
  let '(inserted, h) := hm_insert (m_pHashMap d) external_id in
  if inserted : bool then
    '(internal_id, g) ← retry tx (m_pImpl d) fuel;
    let d := with_graph (with_dictionary d (hm_set h external_id internal_id)) g in
    Val (true, add_num_vertices d 1)
  else Val (false, with_dictionary d h).

(** The common course of the insertion of an edge between two vertices that
    exist. *)
Definition connect (d : Driver) (e : WeightedEdge) (insert : Z -> Z -> Graph -> round Graph bool)
    (fuel : nat) : res (bool * Driver) :=
  match hm_find (m_pHashMap d) (wsource e), hm_find (m_pHashMap d) (wdestination e) with
  | Some internal_source_id, Some internal_destination_id =>
    '(inserted, g) ← retry (insert internal_source_id internal_destination_id) (m_pImpl d) fuel;
    if inserted : bool then Val (true, add_num_edges (with_graph d g) 1)
    else Val (false, with_graph d g)
  | _, _ => Val (false, d)
  end.

(** The common course of the removal of an edge. *)
Definition erase (d : Driver) (e : Edge) (remove : Z -> Z -> Graph -> round Graph bool)
    (fuel : nat) : res (bool * Driver) :=
  match hm_find (m_pHashMap d) (source e), hm_find (m_pHashMap d) (destination e) with
  | Some internal_source_id, Some internal_destination_id =>
    '(removed, g) ← retry (remove internal_source_id internal_destination_id) (m_pImpl d) fuel;
    let d := with_graph d g in
    if removed : bool then Val (true, add_num_edges d (-1)) else Val (false, d)
  | _, _ => Val (false, d)
  end.
End driver.

(** The driver represents a graph: the content, the counters, and the arcs of
    an undirected graph in both directions. *)
Record db_repr `{DbLaws, ConcurrentHashMap} (label : Z) (labels : Z -> Prop) (d : Driver) (s : Spec) : Prop := {
  gr_directed : db_is_directed d = spec_directed s;
  gr_data : db_data first_id label labels (hm_map (m_pHashMap d)) (data (m_pImpl d)) (spec_vertices s) (spec_arcs s);
  gr_sym : spec_directed s = false -> forall x y, spec_arcs s !! (x, y) = spec_arcs s !! (y, x);
  gr_loop : forall x, spec_arcs s !! (x, x) = None;
  gr_edges : Z.of_nat (size (spec_arcs s)) = (if spec_directed s then 1 else 2) * db_num_edges d;
  gr_vertices : Z.of_nat (size (spec_vertices s)) = m_num_vertices d;
  gr_range : is_u64 (db_num_edges d) /\ is_u64 (m_num_vertices d);
}.

(** A vertex that has an identifier keeps it. *)
Definition keeps (id : option Z) (v : Z) : Prop := forall v', id = Some v' -> v = v'.

Section dictionary.
Context `{DbProgress, ConcurrentHashMap}.

(** The two look-ups in the dictionary. *)
Lemma find_or_insert_spec hm locked k :
  locked <> Some k ->
  exists hm', find_or_insert hm locked k = Val (hm_map hm !! k, hm') /\
    hm_map hm' = match hm_map hm !! k with Some _ => hm_map hm | None => <[k := 0]> (hm_map hm) end.
Proof.
  intros Hl. unfold find_or_insert. rewrite decide_False by done. rewrite hm_find_map.
  destruct (hm_map hm !! k) as [v|] eqn:Hk; [by exists hm|].
  destruct (hm_insert_map hm k Hk) as [_ Hm]. destruct (hm_insert hm k) as [b hm'] eqn:Hi.
  exists hm'. by split.
Qed.

(** Registering the identifier of a vertex replaces the zero. *)
Lemma register_map d id x v :
  hm_map (m_pHashMap (register_vertex d (is_new id) x v)) =
  match id with None => <[x := v]> (hm_map (m_pHashMap d)) | Some _ => hm_map (m_pHashMap d) end.
Proof. destruct id; simpl; [done|]. apply hm_set_map. Qed.

Lemma register_fields d b x v :
  m_pImpl (register_vertex d b x v) = m_pImpl d /\
  db_is_directed (register_vertex d b x v) = db_is_directed d /\
  db_num_edges (register_vertex d b x v) = db_num_edges d /\
  m_num_vertices (register_vertex d b x v) =
    if b then u64 (m_num_vertices d + 1) else m_num_vertices d.
Proof. by destruct b. Qed.

(** The dictionary after an insertion. *)
Lemma registered_map (h h1 h2 : gmap Z Z) x y i j :
  x <> y -> keeps (h !! x) i -> keeps (h !! y) j ->
  h1 = match h !! x with Some _ => h | None => <[x := 0]> h end ->
  h2 = match h !! y with Some _ => h1 | None => <[y := 0]> h1 end ->
  (match h !! y with
   | None => <[y := j]> (match h !! x with None => <[x := i]> h2 | Some _ => h2 end)
   | Some _ => match h !! x with None => <[x := i]> h2 | Some _ => h2 end
   end) = <[y := j]> (<[x := i]> h).
Proof.
  intros Hne Hi Hj -> ->. apply map_eq. intros z.
  destruct (h !! x) as [i'|] eqn:Hx; destruct (h !! y) as [j'|] eqn:Hy;
    rewrite ?(Hi _ eq_refl), ?(Hj _ eq_refl), ?lookup_insert; repeat case_decide; congruence.
Qed.

(** The number of vertices after an insertion. *)
Lemma registered_size (h : gmap Z Z) (vs : gset Z) x y :
  dom h = vs -> x <> y ->
  size ({[y]} ∪ ({[x]} ∪ vs)) =
    (size vs + (if is_new (h !! x) then 1 else 0) + (if is_new (h !! y) then 1 else 0))%nat.
Proof.
  intros Hd Hne.
  assert (forall z (X : gset Z), size ({[z]} ∪ X) = (size X + if decide (z ∈ X) then 0 else 1)%nat) as Hs.
  { intros z X. case_decide.
    - replace ({[z]} ∪ X) with X by set_solver. lia.
    - rewrite size_union by set_solver. rewrite size_singleton. lia. }
  rewrite !Hs, <- Hd. f_equal; [f_equal|].
  - rewrite (decide_ext (x ∈ dom h) (is_Some (h !! x))) by apply elem_of_dom.
    by destruct (h !! x).
  - rewrite (decide_ext (y ∈ {[x]} ∪ dom h) (is_Some (h !! y))).
    + by destruct (h !! y).
    + rewrite <- elem_of_dom. set_solver.
Qed.
End dictionary.

Section insertions.
Context `{DbProgress, ConcurrentHashMap} {label : Z} {labels : Z -> Prop}.

Lemma create_vertex_data h vs arcs x D :
  db_data first_id label labels h D vs arcs ->
  tx_spec (fun D' => D' = D) (create_vertex (h !! x) x)
    (fun v D' => keeps (h !! x) v /\ db_data first_id label labels (<[x := v]> h) D' ({[x]} ∪ vs) arcs).
Proof.
  intros R. eapply tx_spec_weaken; [|apply (create_vertex_spec (h !! x) x D)|]; [done|].
  intros v D'. destruct (h !! x) as [v'|] eqn:Hx; cbv beta iota.
  - intros [-> ->]. rewrite insert_id by done. split; [by intros v [= ->]|].
    replace ({[x]} ∪ vs) with vs; [done|]. rewrite <- (gd_dom _ _ _ _ _ _ _ R).
    assert (x ∈ dom h) by (apply elem_of_dom; eauto). set_solver.
  - intros (? & ? & ->). split; [by intros v'|]. apply db_data_vertex; [done| |done|done].
    rewrite <- (gd_dom _ _ _ _ _ _ _ R). by apply not_elem_of_dom.
Qed.

(** The outcome of an insertion, once its transaction is known. *)
Lemma upsert_spec (d : Driver) (s : Spec) (e : WeightedEdge) (fuel : nat)
    (tx : TxM (Z * Z * bool) -> Graph -> round Graph (Z * Z * bool))
    (body : option Z -> option Z -> TxM (Z * Z * bool)) (Pa : bool -> gmap (Z * Z) double -> Prop) :
  (forall body g, tx body g = transaction body g) ->
  db_repr label labels d s -> wsource e <> wdestination e -> (conflicts (m_pImpl d) < fuel)%nat ->
  let h := hm_map (m_pHashMap d) in
  (forall D, db_data first_id label labels h D (spec_vertices s) (spec_arcs s) ->
     tx_spec (fun D' => D' = D) (body (h !! wsource e) (h !! wdestination e))
       (fun '(i, j, r) D' => exists arcs, Pa r arcs /\
         keeps (h !! wsource e) i /\ keeps (h !! wdestination e) j /\
         db_data first_id label labels (<[wdestination e := j]> (<[wsource e := i]> h)) D'
           ({[wdestination e]} ∪ ({[wsource e]} ∪ spec_vertices s)) arcs)) ->
  tx_calm (body (h !! wsource e) (h !! wdestination e)) ->
  m_num_vertices d + 2 < 2 ^ 64 -> db_num_edges d + 1 < 2 ^ 64 ->
  exists r d' arcs, upsert d e tx body fuel = Val (r, d') /\ Pa r arcs /\
    db_data first_id label labels (hm_map (m_pHashMap d')) (data (m_pImpl d'))
      ({[wdestination e]} ∪ ({[wsource e]} ∪ spec_vertices s)) arcs /\
    db_is_directed d' = db_is_directed d /\
    db_num_edges d' = db_num_edges d + (if r then 1 else 0) /\
    m_num_vertices d' = Z.of_nat (size ({[wdestination e]} ∪ ({[wsource e]} ∪ spec_vertices s))).
Proof.
  intros Htx R Hne Hfuel h Hbody Hcalm Hv He. set (x := wsource e) in *. set (y := wdestination e) in *.
  unfold upsert. fold x y.
  destruct (find_or_insert_spec (m_pHashMap d) None x) as (h1 & -> & Hh1); [done|]. bind_step.
  fold h in Hh1 |- *.
  destruct (find_or_insert_spec h1 (if is_new (h !! x) then Some x else None) y) as (h2 & -> & Hh2).
  { destruct (is_new _); congruence. }
  assert (hm_map h1 !! y = h !! y) as Hy1.
  { rewrite Hh1. destruct (h !! x); [done|]. by rewrite lookup_insert_ne. }
  bind_step. rewrite Hy1 in *.
  pose proof (gr_data _ _ _ _ R) as Rd. fold h in Rd.
  destruct (retry_spec (data (m_pImpl d)) (tx (body (h !! x) (h !! y))) 
    (fun '(i, j, r) D' => exists arcs, Pa r arcs /\
         keeps (h !! x) i /\ keeps (h !! y) j /\
         db_data first_id label labels (<[y := j]> (<[x := i]> h)) D' ({[y]} ∪ ({[x]} ∪ spec_vertices s)) arcs) fuel)
    with (g := m_pImpl d) as ([[i j] r] & g' & D' & -> & (arcs & Harcs & Hi & Hj & Rd') & Hext);
    [|done|done|].
  { intros g Hg. rewrite Htx. apply transaction_spec; [done| |done]. apply tx_spec_init. intros D HD.
    apply Hbody. by apply (db_data_extends _ _ _ _ _ HD). }
  bind_step. eexists r, _, arcs. split; [reflexivity|]. split; [done|].
  set (d1 := if r then _ else _).
  assert (m_pImpl d1 = g' /\ m_pHashMap d1 = h2 /\ db_is_directed d1 = db_is_directed d /\
    m_num_vertices d1 = m_num_vertices d /\ db_num_edges d1 = db_num_edges d + (if r then 1 else 0))
    as (Hg & Hm & Hdir & Hnv & Hnum).
  { pose proof (gr_range _ _ _ _ R) as [Hr _]. unfold d1. destruct r; simpl.
    - rewrite u64_id by (unfold is_u64 in *; lia). by split_and!.
    - split_and!; (done || lia). }
  destruct (register_fields (register_vertex d1 (is_new (h !! x)) x i) (is_new (h !! y)) y j)
    as (-> & -> & -> & ->).
  destruct (register_fields d1 (is_new (h !! x)) x i) as (-> & -> & -> & ->).
  split; [|split; [done|split; [done|]]].
  - rewrite !register_map, Hm, Hg, (registered_map h (hm_map h1) (hm_map h2) x y i j); try done.
    by apply (db_data_extends _ D').
  - rewrite (registered_size h) by (done || apply Rd). rewrite Hnv, <- (gr_vertices _ _ _ _ R) in *.
    destruct (is_new (h !! x)), (is_new (h !! y)); rewrite ?u64_id; unfold is_u64; try lia.
    all: rewrite ?u64_id by (unfold is_u64; lia); lia.
Qed.

(** Both end points added. *)
Definition spec_with_ends (s : Spec) (x y : Z) : Spec := spec_add_vertex (spec_add_vertex s x) y.

Lemma upsert_new_repr d d' s e w :
  db_repr label labels d s -> wsource e <> wdestination e ->
  spec_arcs s !! (wsource e, wdestination e) = None ->
  db_data first_id label labels (hm_map (m_pHashMap d')) (data (m_pImpl d'))
    ({[wdestination e]} ∪ ({[wsource e]} ∪ spec_vertices s))
    (spec_arcs (spec_add_edge s (wsource e) (wdestination e) w)) ->
  db_is_directed d' = db_is_directed d -> db_num_edges d' = db_num_edges d + 1 ->
  m_num_vertices d' = Z.of_nat (size ({[wdestination e]} ∪ ({[wsource e]} ∪ spec_vertices s))) ->
  m_num_vertices d' < 2 ^ 64 -> db_num_edges d + 1 < 2 ^ 64 ->
  db_repr label labels d' (spec_add_edge (spec_with_ends s (wsource e) (wdestination e))
                 (wsource e) (wdestination e) w).
Proof.
  intros R Hne Hnone Rd Hdir Hedges Hvertices Hbv Hbe.
  destruct (spec_add_edge_ok s (wsource e) (wdestination e) w Hne (gr_sym _ _ _ _ R) (gr_loop _ _ _ _ R))
    as [Hsym Hloop].
  pose proof (spec_add_size s _ _ w Hne (gr_sym _ _ _ _ R)) as Hsize. rewrite Hnone in Hsize.
  pose proof (gr_edges _ _ _ _ R) as Hcount. pose proof (gr_range _ _ _ _ R) as [? ?].
  constructor; try done.
  - rewrite Hdir. apply R.
  - change (Z.of_nat (size (spec_arcs (spec_add_edge s (wsource e) (wdestination e) w))) =
      (if spec_directed s then 1 else 2) * db_num_edges d').
    rewrite Hsize, Hedges. destruct (spec_directed s); lia.
  - unfold is_u64 in *. lia.
Qed.

(** An insertion of an edge that is not there yet. *)
Lemma upsert_insert (d : Driver) (s : Spec) (e : WeightedEdge) (w : double) (fuel : nat)
    (tx : TxM (Z * Z * bool) -> Graph -> round Graph (Z * Z * bool))
    (body : option Z -> option Z -> TxM (Z * Z * bool)) :
  (forall body g, tx body g = transaction body g) ->
  db_repr label labels d s -> wsource e <> wdestination e ->
  spec_arcs s !! (wsource e, wdestination e) = None ->
  (conflicts (m_pImpl d) < fuel)%nat ->
  m_num_vertices d + 2 < 2 ^ 64 -> db_num_edges d + 1 < 2 ^ 64 ->
  let h := hm_map (m_pHashMap d) in
  (forall D, db_data first_id label labels h D (spec_vertices s) (spec_arcs s) ->
     tx_spec (fun D' => D' = D) (body (h !! wsource e) (h !! wdestination e))
       (fun '(i, j, r) D' => r = true /\
         keeps (h !! wsource e) i /\ keeps (h !! wdestination e) j /\
         db_data first_id label labels (<[wdestination e := j]> (<[wsource e := i]> h)) D'
           ({[wdestination e]} ∪ ({[wsource e]} ∪ spec_vertices s))
           (spec_arcs (spec_add_edge s (wsource e) (wdestination e) w)))) ->
  tx_calm (body (h !! wsource e) (h !! wdestination e)) ->
  exists d', upsert d e tx body fuel = Val (true, d') /\
    db_repr label labels d' (spec_add_edge (spec_with_ends s (wsource e) (wdestination e))
                               (wsource e) (wdestination e) w).
Proof.
  intros Htx R Hne Hnone Hfuel Hv He h Hbody Hcalm.
  assert (Z.of_nat (size ({[wdestination e]} ∪ ({[wsource e]} ∪ spec_vertices s))) < 2 ^ 64) as Hsz.
  { rewrite (registered_size _ _ _ _ (gd_dom _ _ _ _ _ _ _ (gr_data _ _ _ _ R)) Hne).
    pose proof (gr_vertices _ _ _ _ R). destruct (is_new _), (is_new _); lia. }
  destruct (upsert_spec d s e fuel tx body (fun r arcs => r = true /\
    arcs = spec_arcs (spec_add_edge s (wsource e) (wdestination e) w)))
    as (r & d' & arcs & -> & [-> ->] & Rd & ? & ? & ?); try done.
  - intros D HD. eapply tx_spec_weaken; [|by apply Hbody|]; [done|].
    intros [[i j] r] D' (-> & ? & ? & ?). eexists. split; [split; reflexivity|]. done.
  - exists d'. split; [done|]. eapply upsert_new_repr; try done. lia.
Qed.

(** The outcome [r] of an insertion between two vertices; [arcs] are the arcs
    if it succeeds. *)
Lemma connect_spec (d : Driver) (s : Spec) (e : WeightedEdge) (fuel : nat) (i j : Z)
    (body : TxM bool) (r : bool) (arcs : gmap (Z * Z) double) insert :
  (forall g, insert i j g = insert_round body g) ->
  db_repr label labels d s ->
  hm_map (m_pHashMap d) !! wsource e = Some i -> hm_map (m_pHashMap d) !! wdestination e = Some j ->
  (conflicts (m_pImpl d) < fuel)%nat ->
  (forall D, db_data first_id label labels (hm_map (m_pHashMap d)) D (spec_vertices s) (spec_arcs s) ->
     tx_spec (fun D' => D' = D) body (fun b D' => b = r /\ (b = true ->
       db_data first_id label labels (hm_map (m_pHashMap d)) D' (spec_vertices s) arcs))) ->
  tx_calm body ->
  exists g', connect d e insert fuel =
      Val (r, if r then add_num_edges (with_graph d g') 1 else with_graph d g') /\
    db_data first_id label labels (hm_map (m_pHashMap d)) (data g') (spec_vertices s)
      (if r then arcs else spec_arcs s).
Proof.
  intros Hround R Hi Hj Hfuel Hbody Hcalm. pose proof (gr_data _ _ _ _ R) as Rd.
  unfold connect. rewrite !hm_find_map, Hi, Hj.
  destruct (retry_spec (data (m_pImpl d)) (insert i j)
    (fun b D' => b = r /\ db_data first_id label labels (hm_map (m_pHashMap d)) D' (spec_vertices s)
       (if r then arcs else spec_arcs s)) fuel)
    with (g := m_pImpl d) as (b & g' & D' & -> & [-> Rd'] & Hext); [|done|done|].
  - intros g Hg. rewrite Hround.
    destruct (insert_round_spec (data (m_pImpl d)) body (fun b D' => b = r /\ (b = true ->
        db_data first_id label labels (hm_map (m_pHashMap d)) D' (spec_vertices s) arcs)) g)
      as [(b & g' & D' & -> & HQ & Hext)|?]; [done| |done| |by right].
    { apply tx_spec_init. intros D HD. apply Hbody. by apply (db_data_extends _ _ _ _ _ HD). }
    left. exists b, g', D'. split; [done|]. split; [|done].
    destruct b; [destruct HQ as [<- HQ]; by auto|]. destruct HQ as [-> (D2 & <- & _)]. done.
  - bind_step. exists g'. split; [by destruct r|]. by apply (db_data_extends _ _ _ _ _ Hext).
Qed.

(** Unless the edge exists, the driver represents the graph with it. *)
Lemma connected_repr (d : Driver) (s : Spec) (x y : Z) (w : double) g' :
  db_repr label labels d s -> x <> y -> spec_arcs s !! (x, y) = None ->
  db_num_edges d + 1 < 2 ^ 64 ->
  db_data first_id label labels (hm_map (m_pHashMap d)) (data g') (spec_vertices s)
    (spec_arcs (spec_add_edge s x y w)) ->
  db_repr label labels (add_num_edges (with_graph d g') 1) (spec_add_edge s x y w).
Proof.
  intros R Hne Hnone Hbound Rd. pose proof (gr_range _ _ _ _ R) as [Hr1 Hr2].
  destruct (spec_add_edge_ok s x y w Hne (gr_sym _ _ _ _ R) (gr_loop _ _ _ _ R)) as [Hsym Hloop].
  pose proof (spec_add_size s x y w Hne (gr_sym _ _ _ _ R)) as Hsize. rewrite Hnone in Hsize.
  pose proof (gr_edges _ _ _ _ R) as Hcount.
  assert (u64 (db_num_edges d + 1) = db_num_edges d + 1) as Hu
    by (apply u64_id; unfold is_u64 in *; lia).
  constructor; try done; try apply R.
  - rewrite Hsize. simpl. rewrite Hu. destruct (spec_directed s); lia.
  - simpl. rewrite Hu. split; [unfold is_u64 in *; lia|done].
Qed.

Lemma unconnected_repr (d : Driver) (s : Spec) g' :
  db_repr label labels d s ->
  db_data first_id label labels (hm_map (m_pHashMap d)) (data g') (spec_vertices s) (spec_arcs s) ->
  db_repr label labels (with_graph d g') s.
Proof. intros R Rd. constructor; simpl; try apply R; done. Qed.

(** A removal, in one transaction with the body [body]. *)
Lemma erase_spec (d : Driver) (s : Spec) (e : Edge) (fuel : nat) remove (body : Z -> Z -> TxM bool) :
  let h := hm_map (m_pHashMap d) in
  let r := bool_decide (is_Some (spec_arcs s !! (source e, destination e))) in
  (forall i j g, remove i j g = transaction (body i j) g) ->
  db_repr label labels d s -> source e <> destination e -> (conflicts (m_pImpl d) < fuel)%nat ->
  (forall i j D, h !! source e = Some i -> h !! destination e = Some j ->
     db_data first_id label labels h D (spec_vertices s) (spec_arcs s) ->
     tx_spec (fun D' => D' = D) (body i j)
       (fun b D' => b = r /\ db_data first_id label labels h D' (spec_vertices s)
          (if b then spec_arcs (spec_remove_edge s (source e) (destination e)) else spec_arcs s))) ->
  (forall i j, tx_calm (body i j)) ->
  exists d', erase d e remove fuel = Val (r, d') /\
    db_repr label labels d' (if r then spec_remove_edge s (source e) (destination e) else s).
Proof.
  set (x := source e) in *. set (y := destination e) in *. intros h r Htx R Hne Hfuel Hbody Hcalm.
  pose proof (gr_data _ _ _ _ R) as Rd. unfold erase. rewrite !hm_find_map. fold x y h.
  assert (h !! x = None \/ h !! y = None -> r = false) as Hmiss.
  { intros Hm. apply bool_decide_false. intros Hs.
    destruct (gd_closed _ _ _ _ _ _ _ Rd _ _ Hs) as [H3 H4].
    rewrite <- (gd_dom _ _ _ _ _ _ _ Rd), elem_of_dom in H3, H4. fold h in H3, H4.
    destruct Hm as [Hm|Hm]; rewrite Hm in *; by destruct H3, H4. }
  destruct (h !! x) as [i|] eqn:Hx; [|rewrite Hmiss by auto; by exists d].
  destruct (h !! y) as [j|] eqn:Hy; [|rewrite Hmiss by auto; by exists d].
  destruct (retry_spec (data (m_pImpl d)) (remove i j)
    (fun b D' => b = r /\ db_data first_id label labels h D' (spec_vertices s)
       (if b then spec_arcs (spec_remove_edge s x y) else spec_arcs s)) fuel)
    with (g := m_pImpl d) as (b & g' & D' & -> & [-> Rd'] & Hext); [|done|done|].
  { intros g Hg. rewrite Htx. apply transaction_spec; [done| |done].
    apply tx_spec_init. intros D HD. apply Hbody; [done|done|]. by apply (db_data_extends _ _ _ _ _ HD). }
  bind_step. apply (db_data_extends _ _ _ _ _ Hext) in Rd'.
  pose proof (gr_edges _ _ _ _ R) as Hcount. pose proof (gr_range _ _ _ _ R) as [Hr1 Hr2].
  unfold r in *. case_bool_decide as Hs; [|eexists; split; [done|]; by apply unconnected_repr].
  eexists. split; [done|]. destruct Hs as [w Hw].
  destruct (spec_remove_edge_ok s x y Hne (gr_sym _ _ _ _ R) (gr_loop _ _ _ _ R)) as [Hsym Hloop].
  pose proof (spec_remove_size s x y w Hne (gr_sym _ _ _ _ R) Hw) as Hsize.
  assert (u64 (db_num_edges d + -1) = db_num_edges d - 1 /\ 0 < db_num_edges d) as [Hu Hpos].
  { assert (0 <= Z.of_nat (size (spec_arcs (spec_remove_edge s x y)))) by lia.
    assert (0 < db_num_edges d) by (destruct (spec_directed s); lia).
    rewrite u64_id; unfold is_u64 in *; lia. }
  constructor; simpl; try done; try apply R.
  - simpl in Hsize. rewrite Hsize, Hu. destruct (spec_directed s); lia.
  - rewrite Hu. split; [unfold is_u64 in *; lia|done].
Qed.

(** *** The drivers and the contract of the interface *)

Lemma enroll_contract (d : Driver) (s : Spec) (x : Z) (fuel : nat) tx :
  (forall g, tx g = transaction (create_vertex None x) g) ->
  db_repr label labels d s -> room s 1 -> (conflicts (m_pImpl d) < fuel)%nat ->
  exists d', enroll d x tx fuel = Val ((contract s (UAddVertex x)).1, d') /\
    db_repr label labels d' (contract s (UAddVertex x)).2.
Proof.
  intros Htx R Hroom Hfuel. pose proof (gr_data _ _ _ _ R) as Rd.
  pose proof (gr_vertices _ _ _ _ R) as Hv. pose proof (gr_range _ _ _ _ R) as [Hr1 Hr2].
  unfold enroll. cbn [contract fst snd]. destruct (hm_map (m_pHashMap d) !! x) as [i|] eqn:Hx.
  - assert (x ∈ spec_vertices s) as Hin by (rewrite <- (gd_dom _ _ _ _ _ _ _ Rd); by apply elem_of_dom).
    rewrite hm_insert_present by done. rewrite bool_decide_true by done.
    eexists. split; [done|]. replace (spec_add_vertex s x) with s; [by destruct R|].
    destruct s. unfold spec_add_vertex. simpl in *. f_equal. set_solver.
  - assert (x ∉ spec_vertices s) as Hnot
      by (rewrite <- (gd_dom _ _ _ _ _ _ _ Rd); by apply not_elem_of_dom).
    destruct (hm_insert_map _ _ Hx) as [Hins Hmap]. destruct (hm_insert _ _) as [inserted hm].
    cbn [fst snd] in *. subst inserted. rewrite bool_decide_false by done.
    destruct (retry_spec (data (m_pImpl d)) tx (fun i D' =>
        db_data first_id label labels (<[x := i]> (hm_map (m_pHashMap d))) D' ({[x]} ∪ spec_vertices s)
          (spec_arcs s)) fuel) with (g := m_pImpl d)
      as (i & g' & D' & -> & Rd' & Hext); [|done|done|].
    { intros g Hg. rewrite Htx. apply transaction_spec; [done| |apply create_vertex_calm].
      apply tx_spec_init. intros D HD. apply (db_data_extends _ _ _ _ _ HD) in Rd.
      pose proof (create_vertex_data (hm_map (m_pHashMap d)) _ _ x D Rd) as Hc. rewrite Hx in Hc.
      eapply tx_spec_weaken; [|exact Hc|]; [done|]. by intros i D' [_ HD']. }
    bind_step. eexists. split; [done|].
    assert (u64 (m_num_vertices d + 1) = m_num_vertices d + 1) as Hu
      by (apply u64_id; unfold is_u64, room in *; lia).
    constructor; simpl; try apply R.
    + rewrite hm_set_map, Hmap, insert_insert_eq. by apply (db_data_extends _ _ _ _ _ Hext).
    + rewrite Hu, size_union by set_solver. rewrite size_singleton. lia.
    + rewrite Hu. split; [done|]. unfold is_u64, room in *. lia.
Qed.

Lemma connect_contract (d : Driver) (s : Spec) (e : WeightedEdge) (fuel : nat) insert
    (body : Z -> Z -> TxM bool) :
  (forall i j g, insert i j g = insert_round (body i j) g) ->
  db_repr label labels d s -> wsource e <> wdestination e -> room s 1 ->
  (conflicts (m_pImpl d) < fuel)%nat ->
  (forall i j D, hm_map (m_pHashMap d) !! wsource e = Some i ->
     hm_map (m_pHashMap d) !! wdestination e = Some j ->
     db_data first_id label labels (hm_map (m_pHashMap d)) D (spec_vertices s) (spec_arcs s) ->
     tx_spec (fun D' => D' = D) (body i j)
       (fun b D' => b = bool_decide (spec_arcs s !! (wsource e, wdestination e) = None) /\ (b = true ->
          db_data first_id label labels (hm_map (m_pHashMap d)) D' (spec_vertices s)
            (spec_arcs (spec_add_edge s (wsource e) (wdestination e) (m_weight e)))))) ->
  (forall i j, tx_calm (body i j)) ->
  exists d', connect d e insert fuel = Val ((contract s (UAddEdge e)).1, d') /\
    db_repr label labels d' (contract s (UAddEdge e)).2.
Proof.
  intros Hround R Hne Hroom Hfuel Hbody Hcalm. pose proof (gr_data _ _ _ _ R) as Rd.
  pose proof (gr_edges _ _ _ _ R) as Hcount. pose proof (gr_range _ _ _ _ R) as [Hr1 Hr2].
  assert (forall x, x ∈ spec_vertices s <-> is_Some (hm_map (m_pHashMap d) !! x)) as Hin
    by (intros x; by rewrite <- elem_of_dom, (gd_dom _ _ _ _ _ _ _ Rd)).
  cbn [contract]. destruct (hm_map (m_pHashMap d) !! wsource e) as [i|] eqn:Hi.
  2:{ rewrite bool_decide_false by (rewrite Hin, Hi; by intros [[] _]). exists d. split; [|done].
      unfold connect. by rewrite hm_find_map, Hi. }
  destruct (hm_map (m_pHashMap d) !! wdestination e) as [j|] eqn:Hj.
  2:{ rewrite bool_decide_false by (rewrite !Hin, Hj; by intros (_ & [] & _)). exists d. split; [|done].
      unfold connect. by rewrite !hm_find_map, Hi, Hj. }
  rewrite (bool_decide_ext _ (spec_arcs s !! (wsource e, wdestination e) = None))
    by (rewrite !Hin, Hi, Hj; naive_solver).
  destruct (connect_spec d s e fuel i j (body i j)
    (bool_decide (spec_arcs s !! (wsource e, wdestination e) = None))
    (spec_arcs (spec_add_edge s (wsource e) (wdestination e) (m_weight e))) insert)
    as (g' & -> & Rd'); try done; [by intros D HD; apply Hbody|].
  case_bool_decide as Hnone; (eexists; split; [done|]).
  - apply connected_repr; try done. unfold room, is_u64 in *. destruct (spec_directed s); lia.
  - by apply unconnected_repr.
Qed.

Lemma upsert_contract (d : Driver) (s : Spec) (e : WeightedEdge) (fuel : nat)
    (tx : TxM (Z * Z * bool) -> Graph -> round Graph (Z * Z * bool))
    (body : option Z -> option Z -> TxM (Z * Z * bool)) :
  (forall body g, tx body g = transaction body g) ->
  db_repr label labels d s -> wsource e <> wdestination e ->
  spec_arcs s !! (wsource e, wdestination e) = None -> room s 1 ->
  (conflicts (m_pImpl d) < fuel)%nat ->
  let h := hm_map (m_pHashMap d) in
  (forall D, db_data first_id label labels h D (spec_vertices s) (spec_arcs s) ->
     tx_spec (fun D' => D' = D) (body (h !! wsource e) (h !! wdestination e))
       (fun '(i, j, r) D' => r = true /\
         keeps (h !! wsource e) i /\ keeps (h !! wdestination e) j /\
         db_data first_id label labels (<[wdestination e := j]> (<[wsource e := i]> h)) D'
           ({[wdestination e]} ∪ ({[wsource e]} ∪ spec_vertices s))
           (spec_arcs (spec_add_edge s (wsource e) (wdestination e) (m_weight e))))) ->
  tx_calm (body (h !! wsource e) (h !! wdestination e)) ->
  exists d', upsert d e tx body fuel = Val ((contract s (UAddEdgeV2 e)).1, d') /\
    db_repr label labels d' (contract s (UAddEdgeV2 e)).2.
Proof.
  intros Htx R Hne Hnone Hroom Hfuel h Hbody Hcalm. cbn [contract]. rewrite bool_decide_true by done.
  pose proof (gr_vertices _ _ _ _ R). pose proof (gr_edges _ _ _ _ R).
  pose proof (gr_range _ _ _ _ R) as [Hr1 Hr2].
  apply upsert_insert; try done; unfold room, is_u64 in *; destruct (spec_directed s); lia.
Qed.

Lemma erase_contract (d : Driver) (s : Spec) (e : Edge) r d' :
  r = bool_decide (is_Some (spec_arcs s !! (source e, destination e))) ->
  db_repr label labels d' (if r then spec_remove_edge s (source e) (destination e) else s) ->
  r = (contract s (URemoveEdge e)).1 /\ db_repr label labels d' (contract s (URemoveEdge e)).2.
Proof. intros -> R'. cbn [contract]. by case_bool_decide. Qed.
End insertions.

(** A new driver on an empty database. *)
Lemma db_repr_new `{DbLaws, ConcurrentHashMap} label labels g directed read_only :
  gd_vertices (data g) = ∅ -> gd_edges (data g) = ∅ ->
  db_repr label labels (mkDriver _ _ g hm_new directed read_only 0 0 0) (spec_new directed).
Proof.
  intros Hv Hg. constructor; simpl; try done.
  - constructor.
    + rewrite hm_new_map. apply dom_empty_L.
    + intros x y i. by rewrite hm_new_map, lookup_empty.
    + intros x i. by rewrite hm_new_map, lookup_empty.
    + intros x y i j. by rewrite hm_new_map, lookup_empty.
    + intros x i. by rewrite Hv, lookup_empty.
    + intros i l j. rewrite Hg, lookup_empty. by intros [].
    + intros x y. rewrite lookup_empty. by intros [].
  - by destruct directed.
Qed.

(** *** The bounds on the loops *)

Section stable.
Context `{DbLaws, ConcurrentHashMap}.

Lemma enroll_stable (d : Driver) x tx : fuel_stable (enroll d x tx).
Proof.
  unfold enroll. destruct (hm_insert _ _) as [[|] h]; [|apply fuel_stable_const].
  apply (fuel_stable_bind (retry tx (m_pImpl d))), retry_stable.
Qed.

Lemma connect_stable (d : Driver) e insert : fuel_stable (connect d e insert).
Proof.
  unfold connect. destruct (hm_find _ _) as [i|]; [|apply fuel_stable_const].
  destruct (hm_find _ _) as [j|]; [|apply fuel_stable_const].
  apply (fuel_stable_bind (retry (insert i j) (m_pImpl d))), retry_stable.
Qed.

Lemma erase_stable (d : Driver) e remove : fuel_stable (erase d e remove).
Proof.
  unfold erase. destruct (hm_find _ _) as [i|]; [|apply fuel_stable_const].
  destruct (hm_find _ _) as [j|]; [|apply fuel_stable_const].
  apply (fuel_stable_bind (retry (remove i j) (m_pImpl d))), retry_stable.
Qed.

Lemma upsert_stable (d : Driver) e tx body : fuel_stable (upsert d e tx body).
Proof.
  unfold upsert. destruct (find_or_insert _ _ _) as [[src h]| | |]; [|by intros ? ? ?..].
  cbn [mbind res_bind]. destruct (find_or_insert _ _ _) as [[dst h']| | |]; [|by intros ? ? ?..].
  apply (fuel_stable_bind (retry (tx (body src dst)) (m_pImpl d))), retry_stable.
Qed.
End stable.
