(* ===== verification/MemDatabase.v ===== *)
(** A database and a dictionary with which the theorems on the drivers of
    [library/gtx] and [library/livegraph] are instantiated: they show that the
    hypotheses on the libraries can hold. *)

From S2P Require Import Prelude Database.

(** ** A database

    The next [snd] transactions are rolled back by their first operation or by
    the commit, which raises an exception or answers false. *)

Definition mem_op {A} (t : DbData * nat) (a : A) (D : DbData) : tx_res (DbData * nat) A :=
  match t.2 with O => TxOk a (D, 0%nat) | S _ => Rollback t end.

Definition fresh_id (D : DbData) : Z := foldr Z.max 0 (elements (gd_allocated D)) + 1.

Lemma fresh_id_spec D : 1 <= fresh_id D /\ forall i, i ∈ gd_allocated D -> i < fresh_id D.
Proof.
  assert (forall l : list Z, 0 <= foldr Z.max 0 l /\ forall i, i ∈ l -> i <= foldr Z.max 0 l) as Hmax.
  { intros l. induction l as [|x l [IH1 IH2]]; simpl; [split; [lia|intros i Hi; by apply elem_of_nil in Hi]|].
    split; [lia|]. intros i [->|Hi%IH2]%elem_of_cons; lia. }
  destruct (Hmax (elements (gd_allocated D))) as [Hpos Hall]. unfold fresh_id. split; [lia|].
  intros i Hi%elem_of_elements%Hall. lia.
Qed.

Definition mem_db (first : Z) (raises : bool) : Database := {|
  Graph := DbData * nat;
  RWTransaction := DbData * nat;
  first_id := first;
  begin_read_write_transaction := fun g => g;
  new_vertex := fun t => let v := fresh_id t.1 in
    mem_op t v (mkData (gd_vertices t.1) (gd_edges t.1) ({[v]} ∪ gd_allocated t.1));
  put_vertex := fun v x t =>
    mem_op t tt (mkData (<[v := x]> (gd_vertices t.1)) (gd_edges t.1) (gd_allocated t.1));
  get_edge := fun src dst label t => mem_op t (gd_edges t.1 !! (src, label, dst)) t.1;
  put_edge := fun src label dst w t =>
    mem_op t tt (mkData (gd_vertices t.1) (<[(src, label, dst) := w]> (gd_edges t.1)) (gd_allocated t.1));
  checked_put_edge := fun src label dst w t =>
    mem_op t (bool_decide (gd_edges t.1 !! (src, label, dst) = None))
      (mkData (gd_vertices t.1) (<[(src, label, dst) := w]> (gd_edges t.1)) (gd_allocated t.1));
  checked_delete_edge := fun src label dst t =>
    mem_op t (bool_decide (is_Some (gd_edges t.1 !! (src, label, dst))))
      (mkData (gd_vertices t.1) (delete (src, label, dst) (gd_edges t.1)) (gd_allocated t.1));
  commit := fun g t => match t.2 with
                       | O => TxOk (true, (t.1, 0%nat)) t
                       | S n => if raises then Rollback t else TxOk (false, (g.1, pred g.2)) t
                       end;
  abort := fun g t => (g.1, pred g.2);
  get_edge_weight := fun g src dst label => default d_nan (gd_edges g.1 !! (src, label, dst));
|}.

Definition mem_db_laws (first : Z) (raises : bool) (Hfirst : first <= 1) : @DbLaws (mem_db first raises).
Proof.
  refine (@Build_DbLaws (mem_db first raises) fst fst _ _ _ _ _ _ _ _ _ _); simpl; unfold mem_op.
  - done.
  - intros [D n] v t'. destruct n; simpl; [|done]. intros [= <- <-]. simpl.
    destruct (fresh_id_spec D) as [Hpos Hall]. split; [lia|]. split; [|done].
    intros Hin%Hall. lia.
  - intros v x [D n] t'. destruct n; simpl; [|done]. by intros [= <-].
  - intros src dst label [D n] w t'. destruct n; simpl; [|done]. by intros [= <- <-].
  - intros src label dst w [D n] t'. destruct n; simpl; [|done]. by intros [= <-].
  - intros src label dst w [D n] b t'. destruct n; simpl; [|done]. intros [= <- <-]. by exists w.
  - intros src label dst [D n] b t'. destruct n; simpl; [|done]. by intros [= <- <-].
  - intros [D n] [D' n'] b g' t'. destruct n'; simpl; [by intros [= <- <- _]|].
    destruct raises; [done|]. by intros [= <- <- _].
  - done.
  - done.
Defined.

Definition mem_db_progress (first : Z) (raises : bool) (Hfirst : first <= 1) :
  @DbProgress (mem_db first raises) (mem_db_laws first raises Hfirst).
Proof.
  refine (@Build_DbProgress _ (mem_db_laws first raises Hfirst) snd (fun t => t.2 = 0%nat) _ _ _ _ _ _ _ _ _ _);
    simpl; unfold mem_op.
  - done.
  - intros [D n] Hn. simpl in *. subst. by eexists _, _.
  - intros v x [D n] Hn. simpl in *. subst. by eexists _.
  - intros src dst label [D n] Hn. simpl in *. subst. by eexists _, _.
  - intros src label dst w [D n] Hn. simpl in *. subst. by eexists _.
  - intros src label dst w [D n] Hn. simpl in *. subst. by eexists _, _.
  - intros src label dst [D n] Hn. simpl in *. subst. by eexists _, _.
  - intros g [D n] Hn. simpl in *. subst. by eexists _, _.
  - intros [D n] t. simpl. lia.
  - intros [D n] [D' n'] g' t' Hn. simpl in *. destruct n'; [done|]. destruct raises; [done|].
    intros [= <- _]. simpl. lia.
Defined.

Lemma mem_db_commit (first : Z) (Hfirst : first <= 1) : @CommitTrue _ (mem_db_laws first true Hfirst).
Proof. intros g t b g' t'. simpl. destruct t.2; [|done]. by intros [= <- _ _]. Qed.

(** ** A dictionary *)

Definition mem_dictionary : ConcurrentHashMap.
Proof.
  refine {|
    hash_map := gmap Z Z;
    hm_new := ∅;
    hm_find := fun h k => h !! k;
    hm_insert := fun h k =>
      match h !! k with Some _ => (false, h) | None => (true, <[k := 0]> h) end;
    hm_set := fun h k v => <[k := v]> h;
    hm_erase := fun h k => delete k h;
    hm_map := fun h => h;
  |}; try done.
  - intros h k Hk. by rewrite Hk.
  - intros h k [v Hv]. by rewrite Hv.
Defined.

(** ** Reading *)

(** The outgoing edges with a label. *)
Definition mem_edges (label : Z) (D : DbData) (u : nat) : list (nat * double) :=
  (fun p : Z * Z * Z * double => (Z.to_nat p.1.2, p.2)) <$>
    filter (fun p => p.1.1 = (Z.of_nat u, label) /\ 0 <= p.1.2) (map_to_list (gd_edges D)).

Lemma elem_of_mem_edges label D u v w :
  (v, w) ∈ mem_edges label D u <-> gd_edges D !! (Z.of_nat u, label, Z.of_nat v) = Some w.
Proof.
  unfold mem_edges. rewrite list_elem_of_fmap. split.
  - intros ([[[i l] j] x] & Hp & [[Hi Hj] Hin%elem_of_map_to_list]%list_elem_of_filter). simpl in *.
    simplify_eq. by rewrite Z2Nat.id.
  - intros Hw. exists (Z.of_nat u, label, Z.of_nat v, w). simpl. rewrite Nat2Z.id. split; [done|].
    apply list_elem_of_filter. simpl. split; [split; [done|lia]|]. by apply elem_of_map_to_list.
Qed.

Lemma mem_edges_NoDup label D u : NoDup (mem_edges label D u).*1.
Proof.
  unfold mem_edges. rewrite <- list_fmap_compose.
  apply NoDup_fmap_2_strong; [|apply NoDup_filter, NoDup_map_to_list].
  intros [[[i l] j] x] [[[i' l'] j'] x'] [[Hi Hj] Hin%elem_of_map_to_list]%list_elem_of_filter
    [[Hi' Hj'] Hin'%elem_of_map_to_list]%list_elem_of_filter. simpl in *. simplify_eq.
  intros Heq%Z2Nat.inj; [|done..]. simplify_eq. done.
Qed.
