(* ===== verification/Gtx.v ===== *)
(** [library/gtx/gtx_driver]: the driver of the GTX graph database, its state
    and its updates. *)

From S2P Require Import Prelude Edge AdjList Interface UpdateLog Database MemDatabase.

(** The edges have the label 1. *)
Notation gtx_data := (db_data first_id 1 (fun l => l = 1)).
Notation gtx_repr := (db_repr 1 (fun l => l = 1)).

(** ** The driver *)

Definition GTXDriver `{Database, ConcurrentHashMap} : Type := Driver.

Section driver.
Context `{Database, ConcurrentHashMap}.

Definition GTXDriver_new (g : Graph) (is_directed read_only : bool) : Driver :=
  mkDriver _ _ g hm_new is_directed read_only 0 0 0.

Definition is_directed (d : Driver) : bool := db_is_directed d.
Definition num_edges (d : Driver) : Z := db_num_edges d.
Definition num_vertices (d : Driver) : Z := m_num_vertices d.

Definition set_timeout (d : Driver) (seconds : Z) : Driver :=
  mkDriver _ _ (m_pImpl d) (m_pHashMap d) (db_is_directed d) (m_read_only d) (m_num_vertices d)
    (db_num_edges d) seconds.

Definition ext2int (d : Driver) (external_vertex_id : Z) : res Z :=
  match hm_find (m_pHashMap d) external_vertex_id with
  | Some v => Val v
  | None => Exn RuntimeError
  end.

Definition has_vertex (d : Driver) (vertex_id : Z) : bool :=
  bool_decide (is_Some (hm_find (m_pHashMap d) vertex_id)).

(** The loop leaves as soon as the commit returns, whatever it answers. *)
Definition add_vertex_round (external_id : Z) (g : Graph) : round Graph Z :=
  let body : TxM Z :=
    internal_id ← new_vertex;
    _ ← put_vertex internal_id external_id;
    mret internal_id in
  match body (begin_read_write_transaction g) with
  | Rollback t => Again (abort g t)
  | TxOk internal_id t =>
    match commit g t with
    | Rollback t => Again (abort g t)
    | TxOk (_, g') _ => Done internal_id g'
    end
  end.

Definition add_vertex (d : Driver) (external_id : Z) (fuel : nat) : res (bool * Driver) :=
  enroll d external_id (add_vertex_round external_id) fuel.

(** The vertex is not looked up. *)
Definition remove_vertex (d : Driver) (vertex_id : Z) : bool * Driver :=
  (true, add_num_vertices d (-1)).

(** The transaction of [add_edge]. The third argument of [get_edge] is its
    label, as [get_weight] and [update_edge_v1] call it; here the label and the
    destination are exchanged. *)
Definition add_edge_body (directed : bool) (src dst : Z) (w : double) : TxM bool :=
  bg_weight ← get_edge src 1 dst;
  match bg_weight with
  | Some _ => mret false
  | None =>
    _ ← put_edge src 1 dst w;
    if negb directed then
      _ ← put_edge dst 1 src w;
      mret true
    else mret true
  end.

Definition add_edge (d : Driver) (e : WeightedEdge) (fuel : nat) : res (bool * Driver) :=
  connect d e (fun internal_source_id internal_destination_id =>
    insert_round (add_edge_body (db_is_directed d) internal_source_id internal_destination_id (m_weight e)))
    fuel.

(** Both directions of an undirected edge; the second one only when the first
    one was new. *)
Definition put_both (directed : bool) (src dst : Z) (w : double) : TxM bool :=
  result ← checked_put_edge src 1 dst w;
  if negb directed && (result : bool) then
    result' ← checked_put_edge dst 1 src w;
    mret (result && result')
  else mret result.

Definition add_edge_v2_body (directed : bool) (src dst : option Z) (edge : WeightedEdge) :
    TxM (Z * Z * bool) :=
  internal_source_id ← create_vertex src (wsource edge);
  internal_destination_id ← create_vertex dst (wdestination edge);
  result ← put_both directed internal_source_id internal_destination_id (m_weight edge);
  mret (internal_source_id, internal_destination_id, result).

Definition add_edge_v2 (d : Driver) (edge : WeightedEdge) (fuel : nat) :
    res (bool * Driver) :=
  upsert d edge transaction (fun src dst => add_edge_v2_body (db_is_directed d) src dst edge) fuel.

Definition add_edge_v3 (d : Driver) (edge : WeightedEdge) (fuel : nat) :
    res (bool * Driver) :=
  '(_, d) ←
    upsert d edge transaction (fun src dst => add_edge_v2_body (db_is_directed d) src dst edge) fuel;
  Val (true, d).

(** The weight read is only added when neither vertex is new. *)
Definition update_edge_v1_body (directed : bool) (src dst : option Z) (edge : WeightedEdge) :
    TxM (Z * Z * bool) :=
  internal_source_id ← create_vertex src (wsource edge);
  internal_destination_id ← create_vertex dst (wdestination edge);
  update_weight ← (if is_new src || is_new dst then mret (m_weight edge)
                   else
                     read_result ← get_edge internal_source_id internal_destination_id 1;
                     mret (match read_result with
                           | Some w => dadd (m_weight edge) w
                           | None => m_weight edge
                           end));
  result ← put_both directed internal_source_id internal_destination_id update_weight;
  mret (internal_source_id, internal_destination_id, result).

Definition update_edge_v1 (d : Driver) (edge : WeightedEdge) (fuel : nat) :
    res (bool * Driver) :=
  '(_, d) ←
    upsert d edge transaction (fun src dst => update_edge_v1_body (db_is_directed d) src dst edge) fuel;
  Val (true, d).

Definition remove_edge_body (directed : bool) (src dst : Z) : TxM bool :=
  removed ← checked_delete_edge src 1 dst;
  if (removed : bool) && negb directed then
    removed' ← checked_delete_edge dst 1 src;
    mret (removed && removed')
  else mret removed.

Definition remove_edge (d : Driver) (e : Edge) (fuel : nat) : res (bool * Driver) :=
  erase d e (fun internal_source_id internal_destination_id =>
    transaction (remove_edge_body (db_is_directed d) internal_source_id internal_destination_id)) fuel.

Definition get_weight (d : Driver) (source destination : Z) : double :=
  match hm_find (m_pHashMap d) source, hm_find (m_pHashMap d) destination with
  | Some internal_source_id, Some internal_destination_id =>
    get_edge_weight (m_pImpl d) internal_source_id internal_destination_id 1
  | _, _ => d_nan
  end.
End driver.

(** ** Reasoning on transactions *)

Section put_rules.
Context `{DbProgress}.

Lemma checked_put_spec src dst w D :
  tx_spec (fun D' => D' = D) (checked_put_edge src 1 dst w)
    (fun b D' => b = bool_decide (gd_edges D !! (src, 1, dst) = None) /\
       exists w', (b = true -> w' = w) /\ D' = with_arc 1 D src dst w').
Proof.
  intros t <-. destruct (checked_put_edge src 1 dst w t) as [b t'|] eqn:Hb; [|done].
  destruct (checked_put_edge_law _ _ _ _ _ _ _ Hb) as (w' & -> & Hw & ->). eauto.
Qed.

Lemma put_both_calm directed src dst w : tx_calm (put_both directed src dst w).
Proof.
  apply tx_calm_bind; [exact (calm_checked_put_edge _ _ _ _)|]. intros b. destruct (_ && _); [|apply tx_calm_ret].
  apply tx_calm_bind; [exact (calm_checked_put_edge _ _ _ _)|]. intros b'. apply tx_calm_ret.
Qed.

(** Both directions of a new edge, or the first one of an edge that exists. *)
Lemma put_both_spec directed src dst w D :
  src <> dst ->
  (directed = false -> gd_edges D !! (src, 1, dst) = None -> gd_edges D !! (dst, 1, src) = None) ->
  tx_spec (fun D' => D' = D) (put_both directed src dst w)
    (fun b D' => b = bool_decide (gd_edges D !! (src, 1, dst) = None) /\
       if b then D' = if directed then with_arc 1 D src dst w
                      else with_arc 1 (with_arc 1 D src dst w) dst src w
       else exists w', D' = with_arc 1 D src dst w').
Proof.
  intros Hne Hsym. eapply tx_spec_bind; [apply checked_put_spec|]. intros b.
  apply tx_spec_init. intros D1 (-> & w' & Hw & ->).
  case_bool_decide as Hnone; [rewrite (Hw eq_refl)|].
  - destruct directed; simpl.
    + apply tx_spec_ret. by intros D' ->.
    + eapply tx_spec_bind; [apply checked_put_spec|]. intros b.
      apply tx_spec_ret. intros D' (-> & w2 & Hw2 & ->). simpl in *.
      rewrite lookup_insert_ne in * by congruence. rewrite Hsym in * by done.
      rewrite bool_decide_true in * by done. by rewrite (Hw2 eq_refl).
  - rewrite andb_false_r. apply tx_spec_ret. intros D' ->. eauto.
Qed.
End put_rules.

Section updates.
Context `{DbProgress, ConcurrentHashMap}.

(** What the second half of an insertion does to the arcs. *)
Definition arcs_put (s : Spec) (x y : Z) (w : double) (r : bool) (arcs : gmap (Z * Z) double) : Prop :=
  r = bool_decide (spec_arcs s !! (x, y) = None) /\
  if r then arcs = spec_arcs (spec_add_edge s x y w)
  else exists w', arcs = <[(x, y) := w']> (spec_arcs s).

Lemma put_both_data h vs s x y i j w D :
  gtx_data h D vs (spec_arcs s) -> x <> y -> h !! x = Some i -> h !! y = Some j ->
  (spec_directed s = false -> forall x y, spec_arcs s !! (x, y) = spec_arcs s !! (y, x)) ->
  tx_spec (fun D' => D' = D) (put_both (spec_directed s) i j w)
    (fun r D' => exists arcs, arcs_put s x y w r arcs /\ gtx_data h D' vs arcs).
Proof.
  intros R Hne Hx Hy Hsym.
  assert (i <> j) as Hij by (intros ->; apply Hne; by eapply (gd_inj _ _ _ _ _ _ _ R)).
  pose proof (gd_arc _ _ _ _ _ _ _ R x y i j Hx Hy) as Hxy.
  pose proof (gd_arc _ _ _ _ _ _ _ R y x j i Hy Hx) as Hyx.
  eapply tx_spec_weaken; [|apply (put_both_spec (spec_directed s) i j w D Hij)|]; [done| |].
  { intros Hd Hnone. rewrite Hyx, <- (Hsym Hd), <- Hxy. done. }
  intros r D' [-> HD']. cbv beta. rewrite Hxy in *. unfold arcs_put.
  case_bool_decide as Hnone.
  - eexists. split; [split; [done|reflexivity]|]. subst D'. unfold spec_add_edge. simpl.
    destruct (spec_directed s); repeat apply db_data_arc; done.
  - destruct HD' as [w' ->]. eexists. split; [split; [done|by exists w']|].
    by apply db_data_arc.
Qed.

(** The body of an insertion whose weight [f] computes. *)
Lemma upsert_body_data h vs s x y D (f : Z -> Z -> TxM double) (Pw : double -> Prop) :
  gtx_data h D vs (spec_arcs s) -> x <> y ->
  (spec_directed s = false -> forall x y, spec_arcs s !! (x, y) = spec_arcs s !! (y, x)) ->
  (forall i j h' D', h' = <[y := j]> (<[x := i]> h) ->
     gtx_data h' D' ({[y]} ∪ ({[x]} ∪ vs)) (spec_arcs s) ->
     tx_spec (fun D2 => D2 = D') (f i j) (fun w D2 => Pw w /\ D2 = D')) ->
  tx_spec (fun D' => D' = D)
    (i ← create_vertex (h !! x) x; j ← create_vertex (h !! y) y; w ← f i j;
     r ← put_both (spec_directed s) i j w; mret (i, j, r))
    (fun '(i, j, r) D' => exists w arcs, Pw w /\ arcs_put s x y w r arcs /\
       keeps (h !! x) i /\ keeps (h !! y) j /\
       gtx_data (<[y := j]> (<[x := i]> h)) D' ({[y]} ∪ ({[x]} ∪ vs)) arcs).
Proof.
  intros R Hne Hsym Hf. eapply tx_spec_bind; [by apply (create_vertex_data (label := 1) (labels := fun l => l = 1))|]. intros i.
  apply tx_spec_init. intros D1 [Hi R1].
  assert (h !! y = <[x := i]> h !! y) as -> by (by rewrite lookup_insert_ne).
  eapply tx_spec_bind; [by apply (create_vertex_data (label := 1) (labels := fun l => l = 1))|]. intros j.
  apply tx_spec_init. intros D2 [Hj R2].
  eapply tx_spec_bind; [by apply (Hf i j _ D2 eq_refl)|]. intros w.
  apply tx_spec_init. intros D3 [Hw ->].
  eapply tx_spec_bind.
  - apply (put_both_data (<[y := j]> (<[x := i]> h)) ({[y]} ∪ ({[x]} ∪ vs)) s x y i j w D2); [done|done| | |done].
    + by rewrite lookup_insert_ne, lookup_insert_eq.
    + by rewrite lookup_insert_eq.
  - intros r. apply tx_spec_ret. intros D' (arcs & Harcs & R'). exists w, arcs.
    by split_and!.
Qed.

Lemma add_edge_v2_body_data h s e D :
  gtx_data h D (spec_vertices s) (spec_arcs s) -> wsource e <> wdestination e ->
  (spec_directed s = false -> forall x y, spec_arcs s !! (x, y) = spec_arcs s !! (y, x)) ->
  tx_spec (fun D' => D' = D)
    (add_edge_v2_body (spec_directed s) (h !! wsource e) (h !! wdestination e) e)
    (fun '(i, j, r) D' => exists w arcs, w = m_weight e /\
       arcs_put s (wsource e) (wdestination e) w r arcs /\
       keeps (h !! wsource e) i /\ keeps (h !! wdestination e) j /\
       gtx_data (<[wdestination e := j]> (<[wsource e := i]> h)) D'
         ({[wdestination e]} ∪ ({[wsource e]} ∪ spec_vertices s)) arcs).
Proof.
  intros R Hne Hsym.
  pose proof (upsert_body_data h (spec_vertices s) s (wsource e) (wdestination e) D
    (fun _ _ => mret (m_weight e)) (fun w => w = m_weight e) R Hne Hsym) as Hbody.
  apply Hbody. intros i j h' D' _ _. apply tx_spec_ret. by intros D2 ->.
Qed.

Lemma add_edge_v2_body_calm directed src dst e : tx_calm (add_edge_v2_body directed src dst e).
Proof.
  apply tx_calm_bind; [apply create_vertex_calm|]. intros i.
  apply tx_calm_bind; [apply create_vertex_calm|]. intros j.
  apply tx_calm_bind; [apply put_both_calm|]. intros r. apply tx_calm_ret.
Qed.

(** The weight that [update_edge_v1] writes. *)
Definition updated_weight (s : Spec) (e : WeightedEdge) : double :=
  match spec_arcs s !! (wsource e, wdestination e) with
  | Some w => dadd (m_weight e) w
  | None => m_weight e
  end.

Lemma update_edge_v1_body_data h s e D :
  gtx_data h D (spec_vertices s) (spec_arcs s) -> wsource e <> wdestination e ->
  (spec_directed s = false -> forall x y, spec_arcs s !! (x, y) = spec_arcs s !! (y, x)) ->
  tx_spec (fun D' => D' = D)
    (update_edge_v1_body (spec_directed s) (h !! wsource e) (h !! wdestination e) e)
    (fun '(i, j, r) D' => exists w arcs, w = updated_weight s e /\
       arcs_put s (wsource e) (wdestination e) w r arcs /\
       keeps (h !! wsource e) i /\ keeps (h !! wdestination e) j /\
       gtx_data (<[wdestination e := j]> (<[wsource e := i]> h)) D'
         ({[wdestination e]} ∪ ({[wsource e]} ∪ spec_vertices s)) arcs).
Proof.
  intros R Hne Hsym. unfold update_edge_v1_body.
  apply (upsert_body_data h (spec_vertices s) s (wsource e) (wdestination e) D (fun i j =>
    if is_new (h !! wsource e) || is_new (h !! wdestination e) then mret (m_weight e)
    else read_result ← get_edge i j 1;
         mret (match read_result with Some w => dadd (m_weight e) w | None => m_weight e end))
    (fun w => w = updated_weight s e)); [done|done|done|].
  intros i j h' D' -> R'.
  assert (gd_edges D' !! (i, 1, j) = spec_arcs s !! (wsource e, wdestination e)) as Hij.
  { apply (gd_arc _ _ _ _ _ _ _ R').
    - by rewrite lookup_insert_ne, lookup_insert_eq by done.
    - by rewrite lookup_insert_eq. }
  unfold updated_weight. destruct (is_new _ || is_new _) eqn:Hnew.
  - assert (spec_arcs s !! (wsource e, wdestination e) = None) as ->.
    { apply eq_None_not_Some. intros Hs. destruct (gd_closed _ _ _ _ _ _ _ R _ _ Hs) as [Hx Hy].
      rewrite <- (gd_dom _ _ _ _ _ _ _ R), elem_of_dom in Hx, Hy.
      destruct Hx as [? Hx], Hy as [? Hy]. by rewrite Hx, Hy in Hnew. }
    apply tx_spec_ret. by intros D2 ->.
  - eapply tx_spec_bind with (M := fun w D2 => w = gd_edges D' !! (i, 1, j) /\ D2 = D').
    + intros t <-. destruct (get_edge i j 1 t) as [w t'|] eqn:Hget; [|done].
      by destruct (get_edge_law _ _ _ _ _ _ Hget) as [-> ->].
    + intros w. apply tx_spec_ret. intros D2 [-> ->]. by rewrite Hij.
Qed.

Lemma update_edge_v1_body_calm directed src dst e : tx_calm (update_edge_v1_body directed src dst e).
Proof.
  apply tx_calm_bind; [apply create_vertex_calm|]. intros i.
  apply tx_calm_bind; [apply create_vertex_calm|]. intros j.
  apply tx_calm_bind.
  - destruct (_ || _); [apply tx_calm_ret|].
    apply tx_calm_bind; [exact (calm_get_edge _ _ _)|]. intros w. apply tx_calm_ret.
  - intros w. apply tx_calm_bind; [apply put_both_calm|]. intros r. apply tx_calm_ret.
Qed.

End updates.

Lemma insert_edges_spec `{DbProgress, ConcurrentHashMap} d s e fuel
  (R : gtx_repr d s) (Hne : wsource e <> wdestination e)
  (Hnone : spec_arcs s !! (wsource e, wdestination e) = None)
  (Hfuel : (conflicts (m_pImpl d) < fuel)%nat)
  (Hv : m_num_vertices d + 2 < 2 ^ 64) (He : db_num_edges d + 1 < 2 ^ 64) :
  Forall (fun insert => exists d', insert d e fuel = Val (true, d') /\
    gtx_repr d' (spec_add_edge (spec_with_ends s (wsource e) (wdestination e))
                   (wsource e) (wdestination e) (m_weight e)))
    [add_edge_v2; add_edge_v3; update_edge_v1].
Proof.
  assert (forall w (body : option Z -> option Z -> TxM (Z * Z * bool)),
    let h := hm_map (m_pHashMap d) in
    (forall D, gtx_data h D (spec_vertices s) (spec_arcs s) ->
      tx_spec (fun D' => D' = D) (body (h !! wsource e) (h !! wdestination e))
        (fun '(i, j, r) D' => exists w' arcs, w' = w /\
          arcs_put s (wsource e) (wdestination e) w' r arcs /\
          keeps (h !! wsource e) i /\ keeps (h !! wdestination e) j /\
          gtx_data (<[wdestination e := j]> (<[wsource e := i]> h)) D'
            ({[wdestination e]} ∪ ({[wsource e]} ∪ spec_vertices s)) arcs)) ->
    tx_calm (body (h !! wsource e) (h !! wdestination e)) ->
    exists d', upsert d e transaction body fuel = Val (true, d') /\
      gtx_repr d' (spec_add_edge (spec_with_ends s (wsource e) (wdestination e))
                     (wsource e) (wdestination e) w)) as Hins.
  { intros w body h Hbody Hcalm. apply upsert_insert; try done.
    intros D HD. eapply tx_spec_weaken; [|by apply Hbody|]; [done|].
    intros [[i j] r] D' (w' & arcs & -> & [-> Harcs] & Hi & Hj & HD').
    rewrite bool_decide_true in * by done. by subst arcs. }
  destruct (Hins (m_weight e) (fun src dst => add_edge_v2_body (db_is_directed d) src dst e)) as (d2 & Hd2 & R2).
  { intros D HD. rewrite (gr_directed _ _ _ _ R). apply add_edge_v2_body_data; [done|done|apply R]. }
  { apply add_edge_v2_body_calm. }
  destruct (Hins (updated_weight s e) (fun src dst => update_edge_v1_body (db_is_directed d) src dst e))
    as (d1 & Hd1 & R1).
  { intros D HD. rewrite (gr_directed _ _ _ _ R). apply update_edge_v1_body_data; [done|done|apply R]. }
  { apply update_edge_v1_body_calm. }
  unfold updated_weight in R1. rewrite Hnone in R1.
  rewrite !Forall_cons. split; [by exists d2|]. split.
  - exists d2. unfold add_edge_v3. by rewrite Hd2.
  - split; [|constructor]. exists d1. unfold update_edge_v1. by rewrite Hd1.
Qed.

(** C39: an edge that is not there yet is inserted by [add_edge_v2],
    [add_edge_v3] and [update_edge_v1] alike: the missing end points are
    created, an undirected edge is stored in both directions, the counters and
    the dictionary follow, and all return true. However often the transaction
    is rolled back, the loop ends once the conflicts do. *)
Theorem gtx_insert_edge `{DbProgress, ConcurrentHashMap} d s e fuel
  (R : gtx_repr d s) (Hne : wsource e <> wdestination e)
  (Hnone : spec_arcs s !! (wsource e, wdestination e) = None)
  (Hfuel : (conflicts (m_pImpl d) < fuel)%nat)
  (Hv : m_num_vertices d + 2 < 2 ^ 64) (He : db_num_edges d + 1 < 2 ^ 64) :
  Forall (fun insert => exists d', insert d e fuel = Val (true, d') /\
    gtx_repr d' (spec_add_edge (spec_with_ends s (wsource e) (wdestination e))
                   (wsource e) (wdestination e) (m_weight e)))
    [add_edge_v2; add_edge_v3; update_edge_v1].
Proof. by apply insert_edges_spec. Qed.

(** Of an edge that exists, an undirected graph updates at most the
    direction in which it was given: [add_edge_v2] returns false, counts
    nothing, and the weight of the other direction stays the old one. *)
Theorem gtx_update_one_sided `{DbProgress, ConcurrentHashMap} d s e w0 fuel
  (R : gtx_repr d s) (Hd : spec_directed s = false) (Hne : wsource e <> wdestination e)
  (Hw0 : spec_arcs s !! (wsource e, wdestination e) = Some w0)
  (Hfuel : (conflicts (m_pImpl d) < fuel)%nat)
  (Hv : m_num_vertices d + 2 < 2 ^ 64) (He : db_num_edges d + 1 < 2 ^ 64) :
  exists d', add_edge_v2 d e fuel = Val (false, d') /\ db_num_edges d' = db_num_edges d /\
    get_weight d' (wdestination e) (wsource e) = w0.
Proof.
  destruct (upsert_spec (label := 1) (labels := fun l => l = 1) d s e fuel transaction
      (fun src dst => add_edge_v2_body (db_is_directed d) src dst e)
      (fun r arcs => arcs_put s (wsource e) (wdestination e) (m_weight e) r arcs))
    as (r & d' & arcs & Hup & Harcs & Rd & _ & Hnum & _); try done.
  - intros D HD. rewrite (gr_directed _ _ _ _ R).
    eapply tx_spec_weaken; [|apply add_edge_v2_body_data; [exact HD|done|apply R]|]; [done|].
    intros [[i j] r] D' (w & arcs & -> & ?). by exists arcs.
  - apply add_edge_v2_body_calm.
  - destruct Harcs as [-> Harcs]. rewrite Hw0, bool_decide_false in * by done.
    destruct Harcs as [w' ->]. exists d'. split; [done|]. split; [lia|].
    unfold get_weight. rewrite !hm_find_map.
    assert (forall x, x = wsource e \/ x = wdestination e -> exists i, hm_map (m_pHashMap d') !! x = Some i)
      as Hin.
    { intros x Hx. assert (x ∈ dom (hm_map (m_pHashMap d'))) as [i Hi]%elem_of_dom; [|eauto].
      rewrite (gd_dom _ _ _ _ _ _ _ Rd). set_solver. }
    destruct (Hin (wsource e)) as [i Hi]; [by left|]. destruct (Hin (wdestination e)) as [j Hj]; [by right|].
    rewrite Hi, Hj, get_edge_weight_law, (gd_arc _ _ _ _ _ _ _ Rd _ _ _ _ Hj Hi).
    rewrite lookup_insert_ne by congruence. by rewrite <- (gr_sym _ _ _ _ R Hd), Hw0.
Qed.

Section remove.
Context `{DbProgress, ConcurrentHashMap}.

Lemma remove_edge_body_calm directed src dst : tx_calm (remove_edge_body directed src dst).
Proof.
  apply tx_calm_bind; [exact (calm_checked_delete_edge _ _ _)|]. intros b.
  destruct (_ && _); [|apply tx_calm_ret].
  apply tx_calm_bind; [exact (calm_checked_delete_edge _ _ _)|]. intros b'. apply tx_calm_ret.
Qed.

Lemma remove_edge_body_data h s x y i j D :
  gtx_data h D (spec_vertices s) (spec_arcs s) -> x <> y -> h !! x = Some i -> h !! y = Some j ->
  (spec_directed s = false -> forall x y, spec_arcs s !! (x, y) = spec_arcs s !! (y, x)) ->
  tx_spec (fun D' => D' = D) (remove_edge_body (spec_directed s) i j)
    (fun r D' => r = bool_decide (is_Some (spec_arcs s !! (x, y))) /\
       gtx_data h D' (spec_vertices s)
         (if r then spec_arcs (spec_remove_edge s x y) else spec_arcs s)).
Proof.
  intros R Hne Hx Hy Hsym.
  assert (i <> j) as Hij by (intros ->; apply Hne; by eapply (gd_inj _ _ _ _ _ _ _ R)).
  pose proof (gd_arc _ _ _ _ _ _ _ R x y i j Hx Hy) as Hxy.
  pose proof (gd_arc _ _ _ _ _ _ _ R y x j i Hy Hx) as Hyx.
  pose proof (db_data_no_arc h D _ _ x y i j R Hx Hy) as R1.
  eapply tx_spec_bind; [apply checked_delete_spec|]. intros b. apply tx_spec_init.
  intros D1 [-> ->]. rewrite Hxy. case_bool_decide as Hs.
  - cbn [andb]. unfold spec_remove_edge. destruct (spec_directed s); cbn [negb].
    + apply tx_spec_ret. by intros D' ->.
    + eapply tx_spec_bind; [apply checked_delete_spec|]. intros b. apply tx_spec_ret.
      intros D' [-> ->]. simpl. rewrite lookup_delete_ne, Hyx, <- (Hsym eq_refl) by congruence.
      rewrite bool_decide_true by done. split; [done|]. by apply db_data_no_arc.
  - cbn [andb]. apply tx_spec_ret. intros D' ->. split; [done|].
    rewrite delete_id in R1 by (by apply eq_None_not_Some). exact R1.
Qed.
End remove.

Lemma remove_edge_refines `{DbProgress, ConcurrentHashMap} d s e fuel
  (R : gtx_repr d s) (Hne : source e <> destination e)
  (Hfuel : (conflicts (m_pImpl d) < fuel)%nat) :
  let r := bool_decide (is_Some (spec_arcs s !! (source e, destination e))) in
  exists d', remove_edge d e fuel = Val (r, d') /\
    gtx_repr d' (if r then spec_remove_edge s (source e) (destination e) else s).
Proof.
  apply (erase_spec (label := 1) (labels := fun l => l = 1) d s e fuel _ (remove_edge_body (db_is_directed d)));
    try done; [|apply remove_edge_body_calm].
  intros i j D Hi Hj RD. rewrite (gr_directed _ _ _ _ R).
  apply remove_edge_body_data; try done. apply R.
Qed.

(** [remove_edge] removes an existing edge, in both directions when the
    graph is undirected, and returns true; otherwise it returns false and
    changes nothing. The loop ends once the conflicts do. *)
Theorem gtx_remove_edge `{DbProgress, ConcurrentHashMap} d s e fuel
  (R : gtx_repr d s) (Hne : source e <> destination e)
  (Hfuel : (conflicts (m_pImpl d) < fuel)%nat) :
  let r := bool_decide (is_Some (spec_arcs s !! (source e, destination e))) in
  exists d', remove_edge d e fuel = Val (r, d') /\
    gtx_repr d' (if r then spec_remove_edge s (source e) (destination e) else s).
Proof. by apply remove_edge_refines. Qed.

Section add_edge.
Context `{DbProgress, ConcurrentHashMap}.

Lemma add_edge_body_calm directed src dst w : tx_calm (add_edge_body directed src dst w).
Proof.
  apply tx_calm_bind; [exact (calm_get_edge _ _ _)|]. intros [w'|]; [apply tx_calm_ret|].
  apply tx_calm_bind; [apply tx_calm_unit, calm_put_edge|]. intros _.
  destruct (negb directed); [|apply tx_calm_ret].
  apply tx_calm_bind; [apply tx_calm_unit, calm_put_edge|]. intros _. apply tx_calm_ret.
Qed.

(** Unless the look-up under the wrong label finds something, the edge is
    written. *)
Lemma add_edge_body_data h s x y i j w D :
  gtx_data h D (spec_vertices s) (spec_arcs s) -> h !! x = Some i -> h !! y = Some j ->
  gd_edges D !! (i, j, 1) = None ->
  tx_spec (fun D' => D' = D) (add_edge_body (spec_directed s) i j w)
    (fun b D' => b = true /\
       gtx_data h D' (spec_vertices s) (spec_arcs (spec_add_edge s x y w))).
Proof.
  intros R Hx Hy Hnone.
  eapply tx_spec_bind with (M := fun w' D2 => w' = None /\ D2 = D).
  { intros t Ht. destruct (get_edge i 1 j t) as [w' t'|] eqn:Hget; [|done].
    destruct (get_edge_law _ _ _ _ _ _ Hget) as [-> ->]. by rewrite Ht, Hnone. }
  intros w'. apply tx_spec_init. intros D2 [-> ->].
  eapply tx_spec_bind; [apply put_edge_spec|]. intros []. apply tx_spec_init. intros D2 ->.
  unfold spec_add_edge. destruct (spec_directed s); simpl.
  - apply tx_spec_ret. intros D' ->. split; [done|]. by apply db_data_arc.
  - eapply tx_spec_bind; [apply put_edge_spec|]. intros []. apply tx_spec_ret. intros D' ->.
    split; [done|]. repeat apply db_data_arc; done.
Qed.

End add_edge.

(** [add_edge] inserts an edge that is not there between two vertices of
    the graph. Its test for an edge that is already there exchanges the label
    and the destination: unless the destination happens to have the internal
    identifier 1, the edge is not found, it is written and counted again and
    the answer is true. *)
Theorem gtx_add_edge `{DbProgress, ConcurrentHashMap} d s e j fuel
  (R : gtx_repr d s) (Hne : wsource e <> wdestination e)
  (Hsrc : wsource e ∈ spec_vertices s) (Hdst : hm_map (m_pHashMap d) !! wdestination e = Some j)
  (Hfuel : (conflicts (m_pImpl d) < fuel)%nat) (Hbound : db_num_edges d + 1 < 2 ^ 64) :
  match spec_arcs s !! (wsource e, wdestination e) with
  | None => exists d', add_edge d e fuel = Val (true, d') /\
      gtx_repr d' (spec_add_edge s (wsource e) (wdestination e) (m_weight e))
  | Some _ => j <> 1 -> exists d', add_edge d e fuel = Val (true, d') /\
      db_num_edges d' = db_num_edges d + 1
  end.
Proof.
  pose proof (gr_data _ _ _ _ R) as Rd. rewrite <- (gd_dom _ _ _ _ _ _ _ Rd), elem_of_dom in Hsrc.
  destruct Hsrc as [i Hi].
  assert (spec_arcs s !! (wsource e, wdestination e) = None \/ j <> 1 -> exists g',
    add_edge d e fuel = Val (true, add_num_edges (with_graph d g') 1) /\
    gtx_data (hm_map (m_pHashMap d)) (data g') (spec_vertices s)
      (spec_arcs (spec_add_edge s (wsource e) (wdestination e) (m_weight e)))) as Hadd.
  { intros Hcase. apply (connect_spec d s e fuel i j
      (add_edge_body (db_is_directed d) i j (m_weight e)) true); try done; [|apply add_edge_body_calm].
    intros D RD. rewrite (gr_directed _ _ _ _ R).
    eapply tx_spec_weaken; [|eapply add_edge_body_data; [exact RD|exact Hi|exact Hdst|]|]; [done| |].
    - apply eq_None_not_Some. intros Hs. destruct (gd_ends _ _ _ _ _ _ _ RD _ _ _ Hs) as [-> _].
      destruct Hcase as [Hnone|?]; [|done].
      rewrite (gd_arc _ _ _ _ _ _ _ RD _ _ i 1 Hi Hdst), Hnone in Hs. by destruct Hs.
    - intros b D' [-> HD']. by split. }
  destruct (spec_arcs s !! _) as [w0|] eqn:Hxy.
  - intros Hj. destruct Hadd as (g' & -> & _); [by right|]. eexists. split; [done|]. simpl.
    pose proof (gr_range _ _ _ _ R) as [Hr _]. apply u64_id. unfold is_u64 in *. lia.
  - destruct Hadd as (g' & -> & Rd'); [by left|]. eexists. split; [done|]. by apply connected_repr.
Qed.

(** ** The driver meets the contract of the interface

    For the edges that are not there yet; [remove_vertex] never does. When a
    commit can answer false instead of raising an exception, neither does
    [add_vertex]. *)

#[local] Instance gtx_interface `{Database, ConcurrentHashMap} : UpdateInterface := {
  Interface.Impl := GTXDriver;
  Interface.is_directed := is_directed;
  Interface.add_vertex := add_vertex;
  Interface.remove_vertex := fun d v _ => Val (remove_vertex d v);
  Interface.add_edge := add_edge;
  Interface.add_edge_v2 := add_edge_v2;
  Interface.remove_edge := remove_edge;
}.

Definition gtx_admits `{Database} (s : Spec) (u : Update) : Prop :=
  match u with
  | UAddVertex _ => commits_true
  | URemoveVertex _ => False
  | UAddEdge e | UAddEdgeV2 e => wsource e <> wdestination e /\
      spec_arcs s !! (wsource e, wdestination e) = None
  | URemoveEdge e => source e <> destination e
  end.

Section contract.
Context `{DbProgress, !ConcurrentHashMap}.

Lemma add_vertex_round_eq x g : commits_true -> add_vertex_round x g = transaction (create_vertex None x) g.
Proof.
  intros Hc0. unfold add_vertex_round, transaction, create_vertex.
  match goal with |- match ?m with _ => _ end = _ => destruct m as [v t|t]; [|done] end.
  destruct (commit g t) as [[b g'] t'|t'] eqn:Hc; [|done]. by rewrite (Hc0 _ _ _ _ _ Hc).
Qed.

Lemma call_stable (d : GTXDriver) u : fuel_stable (call d u).
Proof.
  destruct u as [v|v|e|e|e]; simpl; [apply enroll_stable|by intros ? ? ?|apply connect_stable|
    apply upsert_stable|apply erase_stable].
Qed.

Lemma call_contract (d : GTXDriver) s u fuel :
  gtx_repr d s -> gtx_admits s u -> room s 1 -> (conflicts (m_pImpl d) < fuel)%nat ->
  exists d', call d u fuel = Val ((contract s u).1, d') /\ gtx_repr d' (contract s u).2.
Proof.
  intros R Hadm Hroom Hfuel. pose proof (gr_directed _ _ _ _ R) as Hdir.
  destruct u as [v|v|e|e|e]; simpl in Hadm.
  - apply enroll_contract; [intros g; by apply add_vertex_round_eq|done..].
  - done.
  - destruct Hadm as [Hne Hnone].
    apply (connect_contract d s e fuel _ (fun i j => add_edge_body (db_is_directed d) i j (m_weight e)));
      [done..| |intros i j; apply add_edge_body_calm].
    intros i j D Hi Hj RD. rewrite Hdir, bool_decide_true by done.
    eapply tx_spec_weaken; [|eapply add_edge_body_data; [exact RD|exact Hi|exact Hj|]|]; [done| |].
    + apply eq_None_not_Some. intros Hs. destruct (gd_ends _ _ _ _ _ _ _ RD _ _ _ Hs) as [-> _].
      rewrite (gd_arc _ _ _ _ _ _ _ RD _ _ i 1 Hi Hj), Hnone in Hs. by destruct Hs.
    + intros b D' [-> HD']. by split.
  - destruct Hadm as [Hne Hnone].
    apply (upsert_contract d s e fuel transaction
      (fun src dst => add_edge_v2_body (db_is_directed d) src dst e)); try done;
      [|apply add_edge_v2_body_calm].
    intros D HD. rewrite Hdir.
    eapply tx_spec_weaken; [|apply add_edge_v2_body_data; [exact HD|done|apply R]|]; [done|].
    intros [[i j] r] D' (w' & arcs & -> & [-> Harcs] & Hi & Hj & HD').
    rewrite bool_decide_true in * by done. by subst arcs.
  - destruct (remove_edge_refines d s e fuel R Hadm Hfuel) as (d' & Hd' & R').
    destruct (erase_contract d s e _ d' eq_refl R') as [Hr R2]. exists d'. by rewrite <- Hr.
Qed.

#[local] Instance gtx_contract : UpdateContract.
Proof.
  refine {| represents := fun d s => gtx_repr (d : GTXDriver) s; admits := gtx_admits |}.
  - intros d s R. apply (gr_directed _ _ _ _ R).
  - intros d s u R Hadm Hroom.
    destruct (call_contract d s u (S (conflicts (m_pImpl d))) R Hadm Hroom) as (d' & Hcall & R'); [lia|].
    exists d', (S (conflicts (m_pImpl d))). split; [|done]. intros fuel Hf. by eapply call_stable.
Defined.
End contract.

#[local] Existing Instance gtx_contract.

(** A graph can be loaded into a database whose commits never answer false. *)
Lemma gtx_load `{DbProgress, !CommitTrue, !ConcurrentHashMap} : @LoadContract gtx_interface gtx_contract.
Proof. split; [intros s v; exact commit_true|]. intros s e Hne _ _ Hnone. by split. Qed.

(** The aging experiment can run on the driver. *)
Lemma gtx_log `{DbProgress, !ConcurrentHashMap} : @LogContract gtx_interface gtx_contract.
Proof. intros s e [Hne He]. unfold log_update. by destruct (is_insertion e). Qed.

Lemma gtx_repr_new `{DbLaws, ConcurrentHashMap} g is_directed read_only :
  gd_vertices (data g) = ∅ -> gd_edges (data g) = ∅ ->
  gtx_repr (GTXDriver_new g is_directed read_only) (spec_new is_directed).
Proof. apply db_repr_new. Qed.

(** C3: on a new driver over an empty database, any sequence of insertions and
    removals of edges, in which no edge is a loop and none is inserted while it
    is there, answers what the contract of the interface says, ends however
    often its transactions are rolled back or their commits answer false, and
    leaves a database that represents the abstract graph. The sequence holds no
    removal of a vertex and, as [add_vertex] ignores what [commit] answers,
    insertions of vertices only if the database never answers false. *)
Theorem gtx_updates_refine `{DbProgress, !ConcurrentHashMap} g is_directed read_only us
  (Hv : gd_vertices (data g) = ∅) (He : gd_edges (data g) = ∅)
  (Hadm : admitted (spec_new is_directed) us) (Hlen : 2 * Z.of_nat (length us) < 2 ^ 64) :
  let (answers, s) := contract_run (spec_new is_directed) us in
  exists d : GTXDriver, settles (@run gtx_interface (GTXDriver_new g is_directed read_only) us)
    (Val (answers, d)) /\ gtx_repr d s.
Proof.
  destruct (@run_settles gtx_interface gtx_contract us (GTXDriver_new g is_directed read_only)
    (spec_new is_directed))
    as (d & Hrun & R); [by apply gtx_repr_new|done| |].
  - unfold room. cbn [spec_vertices spec_arcs spec_new].
    rewrite (size_empty (C := gset Z)), (map_size_empty (M := gmap (Z * Z)) (A := double)). lia.
  - destruct (contract_run _ us) as [answers s]. exists d. by split.
Qed.

(** ** Examples

    The theorems on a database that is in memory. *)

Definition mem_gtx : Database := mem_db 1 false.
Definition mem_laws : @DbLaws mem_gtx := mem_db_laws 1 false ltac:(lia).
Definition mem_progress : @DbProgress mem_gtx mem_laws := mem_db_progress 1 false ltac:(lia).

(** An empty database with two conflicts ahead, and a driver after one
    insertion. *)
Definition ex_db : DbData * nat := (mkData ∅ ∅ ∅, 2%nat).

Definition ex_new (directed : bool) : @Driver mem_gtx mem_dictionary :=
  @GTXDriver_new mem_gtx mem_dictionary ex_db directed true.

Definition ex_edge : WeightedEdge := mkWeightedEdge (mkEdge 10 20) d_one.

Definition ex_driver (directed : bool) : @Driver mem_gtx mem_dictionary :=
  match @add_edge_v2 mem_gtx mem_dictionary (ex_new directed) ex_edge 3 with
  | Val (_, d) => d
  | _ => ex_new directed
  end.

Definition ex_spec_after (directed : bool) : Spec :=
  spec_add_edge (spec_with_ends (spec_new directed) 10 20) 10 20 d_one.

Lemma ex_new_repr directed :
  @db_repr mem_gtx mem_laws mem_dictionary 1 (fun l => l = 1) (ex_new directed) (spec_new directed).
Proof. by apply (@gtx_repr_new mem_gtx mem_laws mem_dictionary). Qed.

Lemma gtx_insert_edge_witness :
  exists d', @add_edge_v2 mem_gtx mem_dictionary (ex_new false) ex_edge 3 = Val (true, d') /\
    @db_repr mem_gtx mem_laws mem_dictionary 1 (fun l => l = 1) d' (ex_spec_after false).
Proof.
  pose proof (@gtx_insert_edge mem_gtx mem_laws mem_progress mem_dictionary (ex_new false)
    (spec_new false) ex_edge 3 (ex_new_repr false) ltac:(done) ltac:(done) ltac:(simpl; lia)
    ltac:(simpl; lia) ltac:(simpl; lia)) as Hall.
  apply Forall_cons in Hall as [Hv2 _]. exact Hv2.
Defined.

Lemma ex_driver_repr directed :
  @db_repr mem_gtx mem_laws mem_dictionary 1 (fun l => l = 1) (ex_driver directed) (ex_spec_after directed).
Proof.
  pose proof (insert_edges_spec (H1 := mem_progress) (ex_new directed) (spec_new directed) ex_edge 3
    (ex_new_repr directed) ltac:(done) ltac:(done) ltac:(simpl; lia) ltac:(simpl; lia)
    ltac:(simpl; lia)) as Hall.
  apply Forall_cons in Hall as [(d' & Hd' & R') _].
  unfold ex_driver. rewrite Hd'. exact R'.
Qed.

Lemma gtx_update_one_sided_witness :
  exists d', @add_edge_v2 mem_gtx mem_dictionary (ex_driver false)
      (mkWeightedEdge (mkEdge 20 10) d_zero) 1 = Val (false, d') /\
    @get_weight mem_gtx mem_dictionary d' 10 20 = d_one.
Proof.
  destruct (@gtx_update_one_sided mem_gtx mem_laws mem_progress mem_dictionary (ex_driver false)
    (ex_spec_after false) (mkWeightedEdge (mkEdge 20 10) d_zero) d_one 1 (ex_driver_repr false))
    as (d' & Hd' & _ & Hw).
  - done.
  - done.
  - by vm_compute.
  - vm_compute. lia.
  - by vm_compute.
  - by vm_compute.
  - exists d'. split; [exact Hd'|exact Hw].
Defined.

Lemma gtx_remove_edge_witness :
  exists d', @remove_edge mem_gtx mem_dictionary (ex_driver false) (mkEdge 20 10) 1 = Val (true, d') /\
    @db_repr mem_gtx mem_laws mem_dictionary 1 (fun l => l = 1) d' (spec_remove_edge (ex_spec_after false) 20 10).
Proof.
  destruct (@gtx_remove_edge mem_gtx mem_laws mem_progress mem_dictionary (ex_driver false)
    (ex_spec_after false) (mkEdge 20 10) 1 (ex_driver_repr false)) as (d' & Hd' & R').
  - done.
  - vm_compute. lia.
  - exists d'. split; [exact Hd'|exact R'].
Defined.

(** The second insertion of the edge is not noticed. *)
Lemma gtx_add_edge_witness :
  exists d', @add_edge mem_gtx mem_dictionary (ex_driver true) ex_edge 1 = Val (true, d') /\
    db_num_edges d' = 2.
Proof.
  pose proof (@gtx_add_edge mem_gtx mem_laws mem_progress mem_dictionary (ex_driver true)
    (ex_spec_after true) ex_edge 2 1 (ex_driver_repr true)) as Hadd.
  destruct Hadd as (d' & Hd' & Hn).
  - done.
  - apply (bool_decide_unpack _). by vm_compute.
  - by vm_compute.
  - vm_compute. lia.
  - by vm_compute.
  - done.
  - exists d'. split; [exact Hd'|]. rewrite Hn. by vm_compute.
Defined.

(** On a database whose failed commits answer false, and on one where they raise
    exceptions. *)
Lemma gtx_updates_refine_witness :
  let us := [UAddEdge (mkWeightedEdge (mkEdge 10 20) d_one); UAddEdgeV2 ex_edge;
             URemoveEdge (mkEdge 20 10); URemoveEdge (mkEdge 10 20)] in
  (exists d, @settles _ (@run (@gtx_interface mem_gtx mem_dictionary)
      (@GTXDriver_new mem_gtx mem_dictionary ex_db false true) us)
    (Val ([false; true; true; false], d))) /\
  exists d, @settles _ (@run (@gtx_interface (mem_db 1 true) mem_dictionary)
      (@GTXDriver_new (mem_db 1 true) mem_dictionary ex_db false true) (UAddVertex 10 :: us))
    (Val ([true; false; true; true; false], d)).
Proof.
  intros us. split.
  - pose proof (@gtx_updates_refine mem_gtx mem_laws mem_progress
      mem_dictionary ex_db false true us eq_refl eq_refl) as Hrun.
    destruct Hrun as (d & Hrun & _); [|simpl; lia|by exists d].
    split; [split; [done|by vm_compute]|]. split; [split; [done|by vm_compute]|].
    by split; [|split].
  - pose proof (@gtx_updates_refine (mem_db 1 true) _ (mem_db_progress 1 true ltac:(lia))
      mem_dictionary ex_db false true (UAddVertex 10 :: us) eq_refl eq_refl) as Hrun.
    destruct Hrun as (d & Hrun & _); [|simpl; lia|by exists d].
    split; [exact (mem_db_commit 1 ltac:(lia))|].
    split; [split; [done|by vm_compute]|]. split; [split; [done|by vm_compute]|].
    by split; [|split].
Defined.
