(* ===== verification/GtxKernels.v ===== *)
(** The kernels of [library/gtx/gtx_driver], on a read-only transaction shared
    by the OpenMP threads. [bfs] runs the code of the driver; [wcc] is a
    weighted scan of all the edges and [lcc] writes past its arrays;
    [pagerank] and [sssp] call a handler of the library, so that [do_pagerank]
    is only there for direct use.

    The functions whose name starts with [static_] differ from the others in
    the interface of the transaction that they call, which is the parameter
    [Reader] of the kernels of [Snapshot]. *)

From S2P Require Import Prelude Graphs Gapbs Bfs Sssp Edge AdjList CsrRank Snapshot SnapshotScan Database MemDatabase Gtx.

(** ** Shared read-only transactions

    Visiting an iterator until it is not valid goes over the edges of the
    vertex with label 1: a call of [valid] advances it. [next_edges] are the
    edges that are seen when [next] is called as well. *)

Class GtxReaders `{Database} := {
  SharedROTransaction : Type;
  begin_shared_read_only_transaction : Graph -> SharedROTransaction;
  get_max_allocated_vid : Graph -> nat;
  get_vertex : SharedROTransaction -> nat -> option Z;
  simple_get_edges : SharedROTransaction -> nat -> list (nat * double);
  get_vertex_degree : SharedROTransaction -> nat -> Z;
  static_get_vertex : SharedROTransaction -> nat -> option Z;
  static_get_edges : SharedROTransaction -> nat -> list (nat * double);
  static_vertex_degree : SharedROTransaction -> nat -> Z;
  next_edges : SharedROTransaction -> nat -> list (nat * double);
}.

Definition shared_reader `{GtxReaders} (t : SharedROTransaction) : Reader :=
  mkReader 1 (get_vertex t) (simple_get_edges t) (get_vertex_degree t).

Definition static_reader `{GtxReaders} (t : SharedROTransaction) : Reader :=
  mkReader 1 (static_get_vertex t) (static_get_edges t) (static_vertex_degree t).

(** What a transaction reads of the content of the database. *)
Record gtx_reads (r : Reader) (max_vertex_id : nat) (D : DbData) : Prop := {
  gr_first : sr_first r = 1%nat;
  gr_vertex : forall v, (1 <= v <= max_vertex_id)%nat -> sr_vertex r v = gd_vertices D !! Z.of_nat v;
  gr_out : forall u v w, (1 <= u <= max_vertex_id)%nat ->
    (v, w) ∈ sr_edges r u <-> gd_edges D !! (Z.of_nat u, 1, Z.of_nat v) = Some w;
  gr_unique : forall u, (1 <= u <= max_vertex_id)%nat -> NoDup (sr_edges r u).*1;
  gr_degree : forall u, (1 <= u <= max_vertex_id)%nat ->
    sr_degree r u = Z.of_nat (length (sr_edges r u));
}.

Class GtxReadersLaws `{DbLaws, !GtxReaders} := {
  first_law : first_id = 1;
  max_vid_law : forall g i, i ∈ gd_allocated (data g) -> i <= Z.of_nat (get_max_allocated_vid g);
  shared_reads : forall g,
    gtx_reads (shared_reader (begin_shared_read_only_transaction g)) (get_max_allocated_vid g) (data g);
  static_reads : forall g,
    gtx_reads (static_reader (begin_shared_read_only_transaction g)) (get_max_allocated_vid g) (data g);
}.

Section kernels.
Context `{GtxReaders}.

(** ** Helpers *)

(** The two branches on [m_read_only] are the same. *)
Definition int2ext (read_only : bool) (t : SharedROTransaction) (internal_vertex_id : nat) : Z :=
  if read_only then
    match get_vertex t internal_vertex_id with None => uint64_max | Some x => x end
  else
    match get_vertex t internal_vertex_id with None => uint64_max | Some x => x end.

Definition int2ext_openmp (t : SharedROTransaction) (internal_vertex_id : nat) : Z :=
  match get_vertex t internal_vertex_id with None => uint64_max | Some x => x end.

Definition translate {T} `{Omp} (t : SharedROTransaction) (max : T) (values : list T)
    (data_sz : nat) : res (list (Z * T)) :=
  translate_of (shared_reader t) max values data_sz.

Definition static_translate {T} `{Omp} (t : SharedROTransaction)
    (max : T) (values : list T) (data_sz : nat) : res (list (Z * T)) :=
  translate_of (static_reader t) max values data_sz.

(** ** BFS *)

Definition do_bfs_BUStep `{Omp} (t : SharedROTransaction) (max_vertex_id : nat)
    (distances : list Z) (distance : Z) (front next : list bool) : res (list Z * list bool * Z) :=
  BUStep_of (shared_reader t) max_vertex_id distances distance front next.

Definition do_bfs_TDStep `{Omp} (t : SharedROTransaction) (distances : list Z)
    (distance : Z) (queue : SlidingQueue) : res (list Z * SlidingQueue * Z) :=
  TDStep_of (shared_reader t) distances distance queue.

Definition do_bfs_QueueToBitmap `{Omp} (t : SharedROTransaction) (queue : SlidingQueue)
    (bm : list bool) : res (list bool) :=
  QueueToBitmap_of (shared_reader t) queue bm.

Definition do_bfs_BitmapToQueue `{Omp} (t : SharedROTransaction) (max_vertex_id : nat)
    (bm : list bool) (queue : SlidingQueue) : res SlidingQueue :=
  BitmapToQueue_of (shared_reader t) max_vertex_id bm queue.

Definition do_bfs_init_distances `{Omp} (t : SharedROTransaction) (max_vertex_id : nat) :
    res (list Z) :=
  init_distances_of (shared_reader t) max_vertex_id.

(** With the number of edges, half the sum of the degrees. *)
Definition do_bfs_init_distances_init_edge_num `{Omp} (t : SharedROTransaction)
    (max_vertex_id : nat) : res (list Z * Z) :=
  distances ← init_distances_of (shared_reader t) max_vertex_id;
  let total_num :=
    foldl (fun total n => match get_vertex t n with
                          | None => total
                          | Some _ => u64 (total + get_vertex_degree t n)
                          end) 0 (omp_order 0 (seq 1 max_vertex_id)) in
  Val (distances, total_num / 2).

Definition gtx_steps `{Omp} (t : SharedROTransaction) (max_vertex_id : nat) : BfsSteps := {|
  BUStep := do_bfs_BUStep t max_vertex_id;
  TDStep := do_bfs_TDStep t;
  QueueToBitmap := do_bfs_QueueToBitmap t;
  BitmapToQueue := do_bfs_BitmapToQueue t max_vertex_id;
|}.

Definition do_bfs `{Omp, Timer} (t : SharedROTransaction) (num_vertices : Z)
    (max_vertex_id root : nat) (alpha beta : Z) : res (list Z * nat) :=
  '(distances, edges_to_check) ← do_bfs_init_distances_init_edge_num t max_vertex_id;
  search (gtx_steps t max_vertex_id) (shared_reader t) num_vertices max_vertex_id root distances
    (i64 edges_to_check) alpha beta.

(** The overload that is given the number of edges. *)
Definition do_bfs_num_edges `{Omp, Timer} (t : SharedROTransaction)
    (num_vertices num_edges : Z) (max_vertex_id root : nat) (alpha beta : Z) :
    res (list Z * nat) :=
  distances ← do_bfs_init_distances t max_vertex_id;
  search (gtx_steps t max_vertex_id) (shared_reader t) num_vertices max_vertex_id root distances
    (i64 num_edges) alpha beta.

(** The functions on the static interface; the queue and the bitmap are
    converted by the functions above. *)
Definition static_do_bfs_BUStep `{Omp} (t : SharedROTransaction) (max_vertex_id : nat)
    (distances : list Z) (distance : Z) (front next : list bool) : res (list Z * list bool * Z) :=
  BUStep_of (static_reader t) max_vertex_id distances distance front next.

Definition static_do_bfs_TDStep `{Omp} (t : SharedROTransaction) (distances : list Z)
    (distance : Z) (queue : SlidingQueue) : res (list Z * SlidingQueue * Z) :=
  TDStep_of (static_reader t) distances distance queue.

Definition static_do_bfs_init_distances `{Omp} (t : SharedROTransaction)
    (max_vertex_id : nat) : res (list Z) :=
  init_distances_of (static_reader t) max_vertex_id.

Definition static_steps `{Omp} (t : SharedROTransaction) (max_vertex_id : nat) : BfsSteps := {|
  BUStep := static_do_bfs_BUStep t max_vertex_id;
  TDStep := static_do_bfs_TDStep t;
  QueueToBitmap := do_bfs_QueueToBitmap t;
  BitmapToQueue := do_bfs_BitmapToQueue t max_vertex_id;
|}.

Definition static_do_bfs `{Omp, Timer} (t : SharedROTransaction)
    (num_vertices num_edges : Z) (max_vertex_id root : nat) (alpha beta : Z) :
    res (list Z * nat) :=
  distances ← static_do_bfs_init_distances t max_vertex_id;
  search (static_steps t max_vertex_id) (static_reader t) num_vertices max_vertex_id root distances
    (i64 num_edges) alpha beta.

Definition bfs `{!ConcurrentHashMap, Omp, Timer} (d : Driver)
    (external_source_id : Z) : res (list (Z * Z)) :=
  if db_is_directed d then Exn RuntimeError
  else
    let transaction := begin_shared_read_only_transaction (m_pImpl d) in
    let max_vertex_id := get_max_allocated_vid (m_pImpl d) in
    root ← ext2int d external_source_id;
    '(result, k) ← do_bfs transaction (m_num_vertices d) max_vertex_id (Z.to_nat root) 15 18;
    if is_timeout k then Exn TimeoutError
    else
      external_ids ← translate transaction int64_max result max_vertex_id;
      if is_timeout (k + 1) then Exn TimeoutError
      else Val (save_results (fun x => x <? 0) int64_max false external_ids).

(** ** PageRank *)

Definition do_pagerank `{Omp, OmpReduce, Timer} (t : SharedROTransaction) (num_vertices : Z)
    (max_vertex_id num_iterations : nat) (damping_factor : double) : res (list double * nat) :=
  pagerank_of (shared_reader t) num_vertices max_vertex_id num_iterations damping_factor.

Definition do_static_pagerank `{Omp, OmpReduce, Timer} (t : SharedROTransaction) (num_vertices : Z)
    (max_vertex_id num_iterations : nat) (damping_factor : double) : res (list double * nat) :=
  pagerank_of (static_reader t) num_vertices max_vertex_id num_iterations damping_factor.
(** ** Scans

    [wcc] is a scan of all the edges, which prints its result; [cdlp] does
    nothing, and nothing calls [do_topology_scan]. *)

Definition do_weighted_scan `{Omp, OmpReduce} (t : SharedROTransaction) (max_vertex_id : nat) :
    Z * Z * double :=
  weight_scan (shared_reader t) max_vertex_id.

Definition wcc `{!ConcurrentHashMap, Omp, OmpReduce} (d : Driver) : Z * Z * double :=
  let transaction := begin_shared_read_only_transaction (m_pImpl d) in
  let max_vertex_id := get_max_allocated_vid (m_pImpl d) in
  do_weighted_scan transaction max_vertex_id.

Definition do_topology_scan `{Omp} (t : SharedROTransaction) (max_vertex_id : nat) : Z * Z :=
  topology_scan (shared_reader t) max_vertex_id.

(** ** LCC

    The loops that look for triangles call [next] besides [valid]. *)

Definition do_lcc_undirected `{Omp, Timer, Memory} (t : SharedROTransaction) (max_vertex_id : nat) :
    res (list double * nat) :=
  lcc_of (shared_reader t) (next_edges t) max_vertex_id.

Definition lcc `{!ConcurrentHashMap, Omp, Timer, Memory} (d : Driver) : res (list (Z * double)) :=
  if db_is_directed d then Exn RuntimeError
  else
    let transaction := begin_shared_read_only_transaction (m_pImpl d) in
    let max_vertex_id := get_max_allocated_vid (m_pImpl d) in
    '(scores, k) ← do_lcc_undirected transaction max_vertex_id;
    if is_timeout k then Exn TimeoutError
    else
      external_ids ← translate transaction d_max scores max_vertex_id;
      if is_timeout (k + 1) then Exn TimeoutError
      else Val (save_results (fun x => dlt x d_zero) d_max true external_ids).

(** ** SSSP

    The delta-stepping that the driver has; [GTXDriver::sssp] calls a handler of
    the library instead. *)

Definition do_sssp `{Omp} (t : SharedROTransaction) (num_edges : Z) (max_vertex_id source : nat)
    (delta : double) (fuel : nat) : res (list double) :=
  sssp_of (idx (shared_reader t)) (fun u => Val (simple_get_edges t u)) (Z.to_nat num_edges) max_vertex_id
    source delta fuel.

Definition do_static_sssp `{Omp} (t : SharedROTransaction) (num_edges : Z) (max_vertex_id source : nat)
    (delta : double) (fuel : nat) : res (list double) :=
  sssp_of (idx (static_reader t)) (fun u => Val (static_get_edges t u)) (Z.to_nat num_edges) max_vertex_id
    source delta fuel.

(** ** Two-hop queries

    [one_hop_neighbors] and [two_hop_neighbors] call a handler of the library. *)

Definition generate_two_hops_neighbor_candidates `{!ConcurrentHashMap} (d : Driver)
    (rand : nat -> Z) (fuel : nat) : res (list Z) :=
  candidates rand 1 (Z.of_nat (get_max_allocated_vid (m_pImpl d))) fuel.
End kernels.

(** ** The transaction shows the graph that the driver represents *)

Lemma gtx_reads_graph r N h D s :
  gtx_reads r N D -> db_data 1 1 (fun l => l = 1) h D (spec_vertices s) (spec_arcs s) ->
  (forall i, i ∈ gd_allocated D -> i <= Z.of_nat N) -> reads r N s.
Proof.
  intros Hr R Halloc.
  assert (forall x i, h !! x = Some i -> exists v, (v < N)%nat /\ i = Z.of_nat (1 + v)) as Hat.
  { intros x i Hx. destruct (gd_payload _ _ _ _ _ _ _ R x i Hx) as (Hi & Ha & Hv). apply Halloc in Ha.
    exists (Z.to_nat (i - 1)). lia. }
  assert (forall v x, (v < N)%nat -> sr_vertex r (1 + v) = Some x <-> h !! x = Some (Z.of_nat (1 + v))) as Hname.
  { intros v x Hv. rewrite (gr_vertex _ _ _ Hr) by lia. split; [apply (gd_only _ _ _ _ _ _ _ R)|].
    intros Hx. by destruct (gd_payload _ _ _ _ _ _ _ R x _ Hx) as (_ & _ & ?). }
  split; rewrite ?(gr_first _ _ _ Hr).
  - intros x. rewrite <- (gd_dom _ _ _ _ _ _ _ R), elem_of_dom. split.
    + intros [i Hx]. destruct (Hat x i Hx) as (v & Hv & ->). exists v. split; [done|]. by apply Hname.
    + intros (v & Hv & Hx). apply Hname in Hx; [|done]. by exists (Z.of_nat (1 + v)).
  - intros u v x Hu Hv Hux Hvx. apply Hname in Hux, Hvx; [|done..]. simplify_eq. lia.
  - intros u d w Hu. rewrite (gr_out _ _ _ Hr) by lia. split.
    + intros He. destruct (gd_ends _ _ _ _ _ _ _ R _ _ _ (ex_intro _ w He)) as (_ & x & y & Hx & Hy).
      destruct (Hat y _ Hy) as (v & Hv & Hd). exists v, x, y.
      split; [lia|]. split; [done|]. rewrite !Hname by done. rewrite <- Hd. split_and!; [done|done|].
      by rewrite <- (gd_arc _ _ _ _ _ _ _ R x y _ _ Hx Hy).
    + intros (v & x & y & -> & Hv & Hx & Hy & Hw). apply Hname in Hx, Hy; [|done..].
      by rewrite (gd_arc _ _ _ _ _ _ _ R x y _ _ Hx Hy).
  - intros u Hu. apply (gr_unique _ _ _ Hr). lia.
  - intros u Hu. apply (gr_degree _ _ _ Hr). lia.
  - apply (gd_closed _ _ _ _ _ _ _ R).
Qed.

Section graph.
Context `{GtxReadersLaws, !ConcurrentHashMap} (d : Driver) (s : Spec) (R : gtx_repr d s).

Notation N := (get_max_allocated_vid (m_pImpl d)).
Notation t := (begin_shared_read_only_transaction (m_pImpl d)).

Lemma shared_graph : reads (shared_reader t) N s.
Proof.
  pose proof (gr_data _ _ _ _ R) as Rd. rewrite first_law in Rd.
  apply (gtx_reads_graph _ _ _ _ _ (shared_reads _) Rd), max_vid_law.
Qed.

Lemma static_graph : reads (static_reader t) N s.
Proof.
  pose proof (gr_data _ _ _ _ R) as Rd. rewrite first_law in Rd.
  apply (gtx_reads_graph _ _ _ _ _ (static_reads _) Rd), max_vid_law.
Qed.

(** The internal identifier of a vertex is the one after its position. *)
Lemma gtx_dictionary x : x ∈ spec_vertices s ->
  hm_map (m_pHashMap d) !! x = Some (Z.of_nat (enc (shared_reader t) (pos (shared_reader t) N x))).
Proof.
  intros Hx. destruct (pos_spec _ _ _ shared_graph x Hx) as [Hp Hn]. unfold name in Hn.
  rewrite (gr_vertex _ _ _ (shared_reads (m_pImpl d))) in Hn by (simpl; lia).
  by apply (gd_only _ _ _ _ _ _ _ (gr_data _ _ _ _ R)) in Hn.
Qed.

Lemma ext2int_pos x : x ∈ spec_vertices s ->
  ext2int d x = Val (Z.of_nat (enc (shared_reader t) (pos (shared_reader t) N x))).
Proof. intros Hx. unfold ext2int. by rewrite hm_find_map, gtx_dictionary. Qed.

Lemma ext2int_missing x : x ∉ spec_vertices s -> ext2int d x = Exn RuntimeError.
Proof.
  rewrite <- (gd_dom _ _ _ _ _ _ _ (gr_data _ _ _ _ R)), not_elem_of_dom. unfold ext2int. rewrite hm_find_map.
  by intros ->.
Qed.
End graph.

(** C22: BFS of the GTX driver ends and, unless the time is over, writes every
    vertex once, under the name it has outside, with the number of hops from
    the source, or with the largest integer when it cannot be reached, whatever
    the schedule of the threads, the identifiers that aborted transactions
    burned and the changes of direction. It refuses directed graphs and a
    source that is not a vertex. *)
Theorem gtx_bfs_correct `{GtxReadersLaws, !ConcurrentHashMap, Omp, Timer} d s src
  (R : gtx_repr d s) (Hmax : uint64_max ∉ spec_vertices s)
  (HN : Z.of_nat (get_max_allocated_vid (m_pImpl d)) < 2 ^ 62) :
  if spec_directed s then bfs d src = Exn RuntimeError
  else if decide (src ∈ spec_vertices s) then
    (bfs d src = Exn TimeoutError /\ exists k, is_timeout k = true) \/
    exists lines, bfs d src = Val lines /\ bfs_lines s src lines
  else bfs d src = Exn RuntimeError.
Proof.
  unfold bfs. rewrite (gr_directed _ _ _ _ R). destruct (spec_directed s) eqn:Hdir; [done|].
  case_decide as Hsrc; [|by rewrite (ext2int_missing d s R)].
  rewrite (ext2int_pos d s R src Hsrc). bind_val. rewrite Nat2Z.id.
  pose proof (shared_graph d s R) as Hreads. pose proof (gr_sym _ _ _ _ R Hdir) as Hsym.
  pose proof (vertices_size _ _ _ Hreads) as Hsize. pose proof (gr_vertices _ _ _ _ R) as Hnv.
  set (t := begin_shared_read_only_transaction (m_pImpl d)) in *.
  set (N := get_max_allocated_vid (m_pImpl d)) in *.
  unfold do_bfs, do_bfs_init_distances_init_edge_num. rewrite (init_distances_val _ N). do 2 bind_val.
  edestruct (search_spec _ N s Hreads HN (gtx_steps t N) (m_num_vertices d) src) as (dist & k & -> & Hk & Hres);
    [by apply (snapshot_laws _ _ _ Hreads Hsym HN)|done|lia|done|].
  bind_step. destruct (is_timeout k) eqn:Ht; [left; split; [done|by exists k]|].
  destruct Hres as [Hprev|Hres].
  { rewrite (is_timeout_mono (k - 1) k) in Ht by (done || lia). done. }
  unfold translate. rewrite (translate_of_spec _ _ (int64_max) dist) by apply Hres. bind_val.
  destruct (is_timeout (k + 1)) eqn:Ht'; [left; split; [done|by exists (k + 1)%nat]|right].
  eexists. split; [done|]. by apply (searched_lines _ _ s).
Qed.

(** LCC of the GTX driver accesses its arrays of [max_vertex_id] elements at
    the index [max_vertex_id], which is undefined, on every undirected graph for
    which the database has allocated a vertex, whatever the schedule. *)
Theorem gtx_lcc_undefined `{GtxReadersLaws, !ConcurrentHashMap, Omp, Timer, Memory} (d : Driver)
  (Hpos : (0 < get_max_allocated_vid (m_pImpl d))%nat) :
  lcc d = if db_is_directed d then Exn RuntimeError else Undef.
Proof.
  unfold lcc, do_lcc_undirected. destruct (db_is_directed d); [done|].
  set (N := get_max_allocated_vid (m_pImpl d)) in *.
  by rewrite lcc_of_last by (simpl; lia).
Qed.

(** What the GTX driver does for WCC is to scan the edges, for directed graphs
    too: it prints the number of arcs, the sum of the internal identifiers of
    their destinations, and the sum of the weights in some order. *)
Theorem gtx_scan_correct `{GtxReadersLaws, !ConcurrentHashMap, Omp, OmpReduce} d s
  (R : gtx_repr d s) (Hsize : Z.of_nat (size (spec_arcs s)) < 2 ^ 64) :
  let arcs := map_to_list (spec_arcs s) in
  let vids := foldr Z.add 0 ((fun p => default 0 (hm_map (m_pHashMap d) !! p.1.2)) <$> arcs) in
  exists w, wcc d = (Z.of_nat (length arcs), u64 vids, w) /\ dsum_of arcs.*2 w.
Proof.
  intros arcs vids. pose proof (shared_graph d s R) as Hreads.
  assert (Z.of_nat (length arcs) = u64 (Z.of_nat (size (spec_arcs s)))) as ->.
  { unfold arcs. rewrite length_map_to_list, u64_id; [done|]. unfold is_u64. lia. }
  assert (vids = vid_sum (shared_reader (begin_shared_read_only_transaction (m_pImpl d)))
    (get_max_allocated_vid (m_pImpl d)) s) as ->; [|by apply weight_scan_spec].
  unfold vids, vid_sum. f_equal. apply list_fmap_ext. intros i [[x y] w] Hp. cbn [fst snd].
  apply list_elem_of_lookup_2, elem_of_map_to_list in Hp.
  destruct (rd_closed _ _ _ Hreads x y (ex_intro _ w Hp)) as [_ Hy].
  by rewrite (gtx_dictionary d s R y Hy).
Qed.

(** ** Readers of the database of the examples *)

Definition mem_reader (D : DbData) : Reader :=
  mkReader 1 (fun v => gd_vertices D !! Z.of_nat v) (mem_edges 1 D)
    (fun u => Z.of_nat (length (mem_edges 1 D u))).

Definition mem_readers : @GtxReaders mem_gtx.
Proof.
  refine (@Build_GtxReaders mem_gtx DbData (fun g => g.1) (fun g => Z.to_nat (fresh_id g.1 - 1))
    (fun D => sr_vertex (mem_reader D)) (fun D => sr_edges (mem_reader D))
    (fun D => sr_degree (mem_reader D)) (fun D => sr_vertex (mem_reader D))
    (fun D => sr_edges (mem_reader D)) (fun D => sr_degree (mem_reader D)) (mem_edges 1)).
Defined.

Lemma mem_reads D N : gtx_reads (mem_reader D) N D.
Proof. split; simpl; try done; intros u v **; [apply elem_of_mem_edges|apply mem_edges_NoDup]. Qed.

Definition mem_readers_laws : @GtxReadersLaws mem_gtx mem_laws mem_readers.
Proof.
  split; simpl.
  - done.
  - intros [D n] i Hi. simpl in *. destruct (fresh_id_spec D) as [? Hall]. specialize (Hall i Hi). lia.
  - intros [D n]. apply mem_reads.
  - intros [D n]. apply mem_reads.
Defined.

(** A path of three vertices and a vertex apart. *)
Definition ex_bfs_driver : @Driver mem_gtx mem_dictionary :=
  let step d e := match @add_edge_v2 mem_gtx mem_dictionary d e 3 with Val (_, d) => d | _ => d end in
  foldl step (ex_new false)
    [ex_edge; mkWeightedEdge (mkEdge 20 30) d_one; mkWeightedEdge (mkEdge 40 50) d_one].

Example ex_gtx_bfs :
  @bfs mem_gtx mem_readers mem_dictionary omp_backwards no_timeout ex_bfs_driver 10 =
    Val [(10, 0); (20, 1); (30, 2); (40, int64_max); (50, int64_max)].
Proof. by vm_compute. Qed.

Lemma gtx_bfs_correct_witness :
  exists result,
    @bfs mem_gtx mem_readers mem_dictionary omp_backwards no_timeout (ex_driver false) 10 = Val result /\
    bfs_lines (ex_spec_after false) 10 result.
Proof.
  pose proof (@gtx_bfs_correct mem_gtx mem_laws mem_readers mem_readers_laws mem_dictionary omp_backwards
    no_timeout (ex_driver false) (ex_spec_after false) 10 (ex_driver_repr false)) as Hbfs.
  destruct Hbfs as [[_ [k Hk]]|(result & Hres & Hlines)].
  - apply (bool_decide_unpack _). by vm_compute.
  - by vm_compute.
  - done.
  - exists result. split; [exact Hres|exact Hlines].
Defined.

Lemma gtx_lcc_undefined_witness :
  @lcc mem_gtx mem_readers mem_dictionary omp_backwards no_timeout new_zeroes (ex_driver false) = Undef.
Proof.
  pose proof (@gtx_lcc_undefined mem_gtx mem_laws mem_readers mem_readers_laws mem_dictionary omp_backwards
    no_timeout new_zeroes (ex_driver false)) as Hlcc.
  etrans; [apply Hlcc; vm_compute; lia|by vm_compute].
Defined.

Lemma gtx_scan_correct_witness :
  (@wcc mem_gtx mem_readers mem_dictionary omp_backwards reduce_left (ex_driver false)).1.1 = 2.
Proof.
  destruct (@gtx_scan_correct mem_gtx mem_laws mem_readers mem_readers_laws mem_dictionary omp_backwards
    reduce_left (ex_driver false) (ex_spec_after false) (ex_driver_repr false)) as (w & -> & _);
    by vm_compute.
Defined.
