(* ===== verification/LiveGraph.v ===== *)
(** [library/livegraph/livegraph_driver]: the driver of LiveGraph, its state,
    its updates and the kernels that it runs itself, BFS and PageRank, with the
    scans that [wcc] and [cdlp] are. *)

From S2P Require Import Prelude Graphs Gapbs Bfs Edge AdjList Interface UpdateLog CsrRank Snapshot Database MemDatabase.

(** ** LiveGraph

    Its transactions offer the operations of [Database], of which a commit
    raises an exception when it fails and otherwise has no result; a
    transaction that leaves its scope is aborted. In addition a vertex may be
    deleted. *)

Class LiveGraph `{Database} := {
  del_vertex : Z -> TxM unit;
}.

Section driver.
Context `{LiveGraph, ConcurrentHashMap}.

(** LiveGraph has the label in the middle, also when an edge is looked up. *)
Definition get_edge (src label dst : Z) : TxM (option double) := Database.get_edge src dst label.

Definition del_edge (src label dst : Z) : TxM bool := checked_delete_edge src label dst.

(** ** The state *)

Definition LiveGraphDriver : Type := Driver.

Definition LiveGraphDriver_new (g : Graph) (is_directed read_only : bool) : LiveGraphDriver :=
  mkDriver _ _ g hm_new is_directed read_only 0 0 0.

Definition is_directed (d : LiveGraphDriver) : bool := db_is_directed d.
Definition num_edges (d : LiveGraphDriver) : Z := db_num_edges d.
Definition num_vertices (d : LiveGraphDriver) : Z := m_num_vertices d.

Definition set_timeout (d : LiveGraphDriver) (seconds : Z) : LiveGraphDriver :=
  mkDriver _ _ (m_pImpl d) (m_pHashMap d) (db_is_directed d) (m_read_only d) (m_num_vertices d)
    (db_num_edges d) seconds.

Definition ext2int (d : LiveGraphDriver) (external_vertex_id : Z) : res Z :=
  match hm_find (m_pHashMap d) external_vertex_id with
  | Some v => Val v
  | None => Exn RuntimeError
  end.

Definition has_vertex (d : LiveGraphDriver) (vertex_id : Z) : bool :=
  bool_decide (is_Some (hm_find (m_pHashMap d) vertex_id)).

(** ** Updates *)

(** [try { tx = begin(); body; tx.commit(); done } catch { }] *)
Definition lg_transaction {A} (body : TxM A) (g : Graph) : round Graph A :=
  match body (begin_read_write_transaction g) with
  | Rollback t => Again (abort g t)
  | TxOk a t =>
    match commit g t with
    | Rollback t => Again (abort g t)
    | TxOk (_, g') _ => Done a g'
    end
  end.

Definition add_vertex (d : LiveGraphDriver) (external_id : Z) (fuel : nat) :
    res (bool * LiveGraphDriver) :=
  enroll d external_id
    (lg_transaction (internal_id ← new_vertex;
                     _ ← put_vertex internal_id external_id;
                     mret internal_id)) fuel.

(** The counter is decremented in any case. *)
Definition remove_vertex (d : LiveGraphDriver) (external_id : Z) (fuel : nat) :
    res (bool * LiveGraphDriver) :=
  match hm_find (m_pHashMap d) external_id with
  | Some internal_id =>
    '(_, g) ← retry (lg_transaction (del_vertex internal_id)) (m_pImpl d) fuel;
    let d := with_dictionary (with_graph d g) (hm_erase (m_pHashMap d) external_id) in
    Val (true, add_num_vertices d (-1))
  | None => Val (false, add_num_vertices d (-1))
  end.

Definition add_edge_body (directed : bool) (src dst : Z) (w : double) : TxM bool :=
  lg_weight ← get_edge src 0 dst;
  match lg_weight with
  | Some _ => mret false
  | None =>
    _ ← put_edge src 0 dst w;
    if negb directed then
      _ ← put_edge dst 0 src w;
      mret true
    else mret true
  end.

(** An existing edge aborts the transaction and ends the loop. *)
Definition add_edge_round (directed : bool) (src dst : Z) (w : double) (g : Graph) :
    round Graph bool :=
  match add_edge_body directed src dst w (begin_read_write_transaction g) with
  | Rollback t => Again (abort g t)
  | TxOk false t => Done false (abort g t)
  | TxOk true t =>
    match commit g t with
    | Rollback t => Again (abort g t)
    | TxOk (_, g') _ => Done true g'
    end
  end.

Definition add_edge (d : LiveGraphDriver) (e : WeightedEdge) (fuel : nat) :
    res (bool * LiveGraphDriver) :=
  connect d e (fun internal_source_id internal_destination_id =>
    add_edge_round (db_is_directed d) internal_source_id internal_destination_id (m_weight e)) fuel.

(** Both directions are written, whether or not the edge exists; the incoming
    edges of a directed graph have the label 1. *)
Definition add_edge_v2_body (directed : bool) (src dst : option Z) (edge : WeightedEdge) :
    TxM (Z * Z * bool) :=
  internal_source_id ← create_vertex src (wsource edge);
  internal_destination_id ← create_vertex dst (wdestination edge);
  _ ← put_edge internal_source_id 0 internal_destination_id (m_weight edge);
  _ ← put_edge internal_destination_id (if directed then 1 else 0) internal_source_id (m_weight edge);
  mret (internal_source_id, internal_destination_id, true).

Definition add_edge_v2 (d : LiveGraphDriver) (edge : WeightedEdge) (fuel : nat) :
    res (bool * LiveGraphDriver) :=
  upsert d edge lg_transaction (fun src dst => add_edge_v2_body (db_is_directed d) src dst edge) fuel.

Definition remove_edge_body (directed : bool) (src dst : Z) : TxM bool :=
  removed ← del_edge src 0 dst;
  if (removed : bool) && negb directed then
    _ ← del_edge dst 0 src;
    mret removed
  else mret removed.

Definition remove_edge (d : LiveGraphDriver) (e : Edge) (fuel : nat) : res (bool * LiveGraphDriver) :=
  erase d e (fun internal_source_id internal_destination_id =>
    lg_transaction (remove_edge_body (db_is_directed d) internal_source_id internal_destination_id)) fuel.

(** An exception of the read is not caught. *)
Definition get_weight (d : LiveGraphDriver) (source destination : Z) : res double :=
  match hm_find (m_pHashMap d) source, hm_find (m_pHashMap d) destination with
  | Some internal_source_id, Some internal_destination_id =>
    match get_edge internal_source_id 0 internal_destination_id
            (begin_read_write_transaction (m_pImpl d)) with
    | TxOk (Some weight) _ => Val weight
    | TxOk None _ => Val d_nan
    | Rollback _ => Exn RuntimeError
    end
  | _, _ => Val d_nan
  end.
End driver.

(** ** Updates and the graph

    The edges have the label 0; the label 1 is that of the incoming edges of a
    directed graph, that nothing reads. *)

Notation lg_labels := (fun l => l = 0 \/ l = 1).
Notation lg_data := (db_data first_id 0 lg_labels).
Notation lg_repr := (db_repr 0 lg_labels).

Section updates.
Context `{DbProgress, !CommitTrue, !LiveGraph, !ConcurrentHashMap}.

Lemma lg_transaction_eq {A} (body : TxM A) g : lg_transaction body g = transaction body g.
Proof.
  unfold lg_transaction, transaction. destruct (body _) as [a t|t]; [|done].
  destruct (commit g t) as [[b g'] t'|t'] eqn:Hc; [|done]. by rewrite (commit_true _ _ _ _ _ Hc).
Qed.

Lemma add_edge_round_eq directed src dst w g :
  add_edge_round directed src dst w g = insert_round (add_edge_body directed src dst w) g.
Proof.
  unfold add_edge_round, insert_round. destruct (add_edge_body _ _ _ _ _) as [[|] t|t]; [|done..].
  destruct (commit g t) as [[b g'] t'|t'] eqn:Hc; [|done]. by rewrite (commit_true _ _ _ _ _ Hc).
Qed.

Lemma lg_add_edge_body_calm directed src dst w : tx_calm (add_edge_body directed src dst w).
Proof.
  apply tx_calm_bind; [exact (calm_get_edge _ _ _)|]. intros [w'|]; [apply tx_calm_ret|].
  apply tx_calm_bind; [apply tx_calm_unit, calm_put_edge|]. intros _.
  destruct (negb directed); [|apply tx_calm_ret].
  apply tx_calm_bind; [apply tx_calm_unit, calm_put_edge|]. intros _. apply tx_calm_ret.
Qed.

(** Both directions of an undirected edge, one of a directed one. *)
Lemma put_directions_data h vs s x y i j w D :
  lg_data h D vs (spec_arcs s) -> h !! x = Some i -> h !! y = Some j ->
  lg_data h (if spec_directed s then with_arc 0 D i j w else with_arc 0 (with_arc 0 D i j w) j i w) vs
    (spec_arcs (spec_add_edge s x y w)).
Proof.
  intros R Hx Hy. unfold spec_add_edge. simpl. destruct (spec_directed s); repeat apply db_data_arc; auto.
Qed.

Lemma lg_add_edge_body_data h s x y i j w D :
  lg_data h D (spec_vertices s) (spec_arcs s) -> h !! x = Some i -> h !! y = Some j ->
  tx_spec (fun D' => D' = D) (add_edge_body (spec_directed s) i j w)
    (fun b D' => b = bool_decide (spec_arcs s !! (x, y) = None) /\ (b = true ->
       lg_data h D' (spec_vertices s) (spec_arcs (spec_add_edge s x y w)))).
Proof.
  intros R Hx Hy. pose proof (put_directions_data _ _ s x y i j w D R Hx Hy) as Hput.
  eapply tx_spec_bind; [apply get_edge_spec|]. intros w'. apply tx_spec_init. intros D2 [-> ->].
  rewrite (gd_arc _ _ _ _ _ _ _ R x y i j Hx Hy). destruct (spec_arcs s !! (x, y)) as [w'|].
  { apply tx_spec_ret. by intros D' ->. }
  rewrite bool_decide_true by done.
  eapply tx_spec_bind; [apply put_edge_spec|]. intros []. apply tx_spec_init. intros D2 ->.
  destruct (spec_directed s); simpl; [apply tx_spec_ret; by intros D' ->|].
  eapply tx_spec_bind; [apply put_edge_spec|]. intros []. apply tx_spec_ret. by intros D' ->.
Qed.

Lemma lg_add_edge_v2_body_calm directed src dst e : tx_calm (add_edge_v2_body directed src dst e).
Proof.
  apply tx_calm_bind; [apply create_vertex_calm|]. intros i.
  apply tx_calm_bind; [apply create_vertex_calm|]. intros j.
  do 2 (apply tx_calm_bind; [apply tx_calm_unit, calm_put_edge|]; intros _). apply tx_calm_ret.
Qed.

Lemma lg_add_edge_v2_body_data h s e D :
  lg_data h D (spec_vertices s) (spec_arcs s) -> wsource e <> wdestination e ->
  tx_spec (fun D' => D' = D)
    (add_edge_v2_body (spec_directed s) (h !! wsource e) (h !! wdestination e) e)
    (fun '(i, j, r) D' => r = true /\ keeps (h !! wsource e) i /\ keeps (h !! wdestination e) j /\
       lg_data (<[wdestination e := j]> (<[wsource e := i]> h)) D'
         ({[wdestination e]} ∪ ({[wsource e]} ∪ spec_vertices s))
         (spec_arcs (spec_add_edge s (wsource e) (wdestination e) (m_weight e)))).
Proof.
  intros R Hne. set (x := wsource e) in *. set (y := wdestination e) in *.
  eapply tx_spec_bind; [by apply (create_vertex_data (label := 0) (labels := lg_labels))|]. intros i.
  apply tx_spec_init. intros D1 [Hi R1].
  assert (h !! y = <[x := i]> h !! y) as -> by (by rewrite lookup_insert_ne).
  eapply tx_spec_bind; [by apply (create_vertex_data (label := 0) (labels := lg_labels))|]. intros j.
  apply tx_spec_init. intros D2 [Hj R2].
  set (h' := <[y := j]> (<[x := i]> h)) in *. set (vs := {[y]} ∪ _) in *.
  assert (h' !! x = Some i /\ h' !! y = Some j) as [Hx Hy].
  { unfold h'. by rewrite lookup_insert_eq, lookup_insert_ne, lookup_insert_eq by done. }
  pose proof (put_directions_data h' vs s x y i j (m_weight e) D2 R2 Hx Hy) as Hput.
  do 2 (eapply tx_spec_bind; [apply put_edge_spec|]; intros []; apply tx_spec_init; intros ? ->).
  apply tx_spec_ret. intros D' ->. split_and!; try done.
  destruct (spec_directed s); [|done]. eapply db_data_other; [by right|done|done|exact Hy|exact Hx].
Qed.

Lemma lg_remove_edge_body_calm directed src dst : tx_calm (remove_edge_body directed src dst).
Proof.
  apply tx_calm_bind; [exact (calm_checked_delete_edge _ _ _)|]. intros b.
  destruct (_ && _); [|apply tx_calm_ret].
  apply tx_calm_bind; [exact (calm_checked_delete_edge _ _ _)|]. intros b'. apply tx_calm_ret.
Qed.

Lemma lg_remove_edge_body_data h s x y i j D :
  lg_data h D (spec_vertices s) (spec_arcs s) -> h !! x = Some i -> h !! y = Some j ->
  tx_spec (fun D' => D' = D) (remove_edge_body (spec_directed s) i j)
    (fun r D' => r = bool_decide (is_Some (spec_arcs s !! (x, y))) /\
       lg_data h D' (spec_vertices s) (if r then spec_arcs (spec_remove_edge s x y) else spec_arcs s)).
Proof.
  intros R Hx Hy. pose proof (db_data_no_arc h D _ _ x y i j R Hx Hy) as R1.
  eapply tx_spec_bind; [apply checked_delete_spec|]. intros b. apply tx_spec_init.
  intros D1 [-> ->]. rewrite (gd_arc _ _ _ _ _ _ _ R x y i j Hx Hy). case_bool_decide as Hs.
  - cbn [andb]. unfold spec_remove_edge. destruct (spec_directed s); cbn [negb].
    + apply tx_spec_ret. by intros D' ->.
    + eapply tx_spec_bind; [apply checked_delete_spec|]. intros b. apply tx_spec_ret.
      intros D' [_ ->]. split; [done|]. by apply db_data_no_arc.
  - cbn [andb]. apply tx_spec_ret. intros D' ->. split; [done|].
    rewrite delete_id in R1 by (by apply eq_None_not_Some). exact R1.
Qed.

(** ** The driver meets the contract of the interface

    Except for the removal of vertices, and for [add_edge_v2] when the edge
    exists. *)

#[local] Instance lg_interface : UpdateInterface := {
  Interface.Impl := LiveGraphDriver;
  Interface.is_directed := is_directed;
  Interface.add_vertex := add_vertex;
  Interface.remove_vertex := remove_vertex;
  Interface.add_edge := add_edge;
  Interface.add_edge_v2 := add_edge_v2;
  Interface.remove_edge := remove_edge;
}.

Definition lg_admits (s : Spec) (u : Update) : Prop :=
  match u with
  | UAddVertex _ => True
  | URemoveVertex _ => False
  | UAddEdge e => wsource e <> wdestination e
  | UAddEdgeV2 e => wsource e <> wdestination e /\
      spec_arcs s !! (wsource e, wdestination e) = None
  | URemoveEdge e => source e <> destination e
  end.

Lemma lg_call_stable (d : LiveGraphDriver) u : fuel_stable (call d u).
Proof.
  destruct u as [v|v|e|e|e]; simpl; [apply enroll_stable| |apply connect_stable|apply upsert_stable|
    apply erase_stable].
  change (fuel_stable (remove_vertex d v)). unfold remove_vertex. destruct (hm_find (m_pHashMap d) v) as [i|]; [|apply fuel_stable_const].
  apply (fuel_stable_bind (retry (lg_transaction (del_vertex i)) (m_pImpl d))), retry_stable.
Qed.

Lemma upsert_data d s e D :
  lg_repr d s -> wsource e <> wdestination e ->
  lg_data (hm_map (m_pHashMap d)) D (spec_vertices s) (spec_arcs s) ->
  tx_spec (fun D' => D' = D)
    (add_edge_v2_body (db_is_directed d) (hm_map (m_pHashMap d) !! wsource e)
       (hm_map (m_pHashMap d) !! wdestination e) e)
    (fun '(i, j, r) D' => r = true /\ keeps (hm_map (m_pHashMap d) !! wsource e) i /\
       keeps (hm_map (m_pHashMap d) !! wdestination e) j /\
       lg_data (<[wdestination e := j]> (<[wsource e := i]> (hm_map (m_pHashMap d)))) D'
         ({[wdestination e]} ∪ ({[wsource e]} ∪ spec_vertices s))
         (spec_arcs (spec_add_edge s (wsource e) (wdestination e) (m_weight e)))).
Proof. intros R Hne RD. rewrite (gr_directed _ _ _ _ R). by apply lg_add_edge_v2_body_data. Qed.

Lemma lg_call_contract (d : LiveGraphDriver) s u fuel :
  lg_repr d s -> lg_admits s u -> room s 1 -> (conflicts (m_pImpl d) < fuel)%nat ->
  exists d', call d u fuel = Val ((contract s u).1, d') /\ lg_repr d' (contract s u).2.
Proof.
  intros R Hadm Hroom Hfuel. pose proof (gr_directed _ _ _ _ R) as Hdir.
  destruct u as [v|v|e|e|e]; simpl in Hadm.
  - apply enroll_contract; [intros g; apply lg_transaction_eq|done..].
  - done.
  - apply (connect_contract d s e fuel _ (fun i j => add_edge_body (db_is_directed d) i j (m_weight e)));
      [intros i j g; apply add_edge_round_eq|done..| |intros i j; apply lg_add_edge_body_calm].
    intros i j D Hi Hj RD. rewrite Hdir. by apply lg_add_edge_body_data.
  - destruct Hadm as [Hne Hnone].
    apply (upsert_contract d s e fuel lg_transaction
      (fun src dst => add_edge_v2_body (db_is_directed d) src dst e)); try done;
      [intros body g; apply lg_transaction_eq| |apply lg_add_edge_v2_body_calm].
    intros D HD. by apply upsert_data.
  - destruct (erase_spec (label := 0) (labels := lg_labels) d s e fuel (fun i j => lg_transaction (remove_edge_body (db_is_directed d) i j))
      (remove_edge_body (db_is_directed d))) as (d' & Hd' & R'); try done.
    + intros i j g. apply lg_transaction_eq.
    + intros i j D Hi Hj RD. rewrite Hdir. by apply lg_remove_edge_body_data.
    + apply lg_remove_edge_body_calm.
    + destruct (erase_contract d s e _ d' eq_refl R') as [Hr R2]. exists d'. by rewrite <- Hr.
Qed.

#[local] Instance lg_contract : UpdateContract.
Proof.
  refine {| represents := fun d s => lg_repr (d : LiveGraphDriver) s; admits := lg_admits |}.
  - intros d s R. apply (gr_directed _ _ _ _ R).
  - intros d s u R Hadm Hroom.
    destruct (lg_call_contract d s u (S (conflicts (m_pImpl d))) R Hadm Hroom) as (d' & Hcall & R'); [lia|].
    exists d', (S (conflicts (m_pImpl d))). split; [|done]. intros fuel Hf.
    by eapply lg_call_stable.
Defined.

(** A new driver on an empty database. *)
Lemma lg_repr_new g is_directed read_only :
  gd_vertices (data g) = ∅ -> gd_edges (data g) = ∅ ->
  lg_repr (LiveGraphDriver_new g is_directed read_only) (spec_new is_directed).
Proof. apply db_repr_new. Qed.
End updates.

#[local] Existing Instances lg_interface lg_contract.

Lemma lg_load `{DbProgress, !CommitTrue, !LiveGraph, !ConcurrentHashMap} : @LoadContract lg_interface lg_contract.
Proof. split; [done|]. by intros s e Hne _ _ _. Qed.

Lemma lg_log `{DbProgress, !CommitTrue, !LiveGraph, !ConcurrentHashMap} : @LogContract lg_interface lg_contract.
Proof. intros s e [Hne He]. unfold log_update. by destruct (is_insertion e). Qed.

(** C4: any sequence of updates of a new driver (without the removal of
    vertices, and [add_edge_v2] only of edges that are not there) answers what
    the contract of the interface says, [add_edge] of an existing edge or
    between missing vertices included, ends however often its transactions are
    rolled back and leaves a database that represents the abstract graph. *)
Theorem lg_updates_refine `{DbProgress, !CommitTrue, !LiveGraph, !ConcurrentHashMap}
  g is_directed read_only us
  (Hv : gd_vertices (data g) = ∅) (He : gd_edges (data g) = ∅)
  (Hadm : admitted (spec_new is_directed) us) (Hlen : 2 * Z.of_nat (length us) < 2 ^ 64) :
  let (answers, s) := contract_run (spec_new is_directed) us in
  exists d : LiveGraphDriver, settles (@run lg_interface (LiveGraphDriver_new g is_directed read_only) us)
    (Val (answers, d)) /\ lg_repr d s.
Proof.
  destruct (@run_settles lg_interface lg_contract us (LiveGraphDriver_new g is_directed read_only)
    (spec_new is_directed)) as (d & Hrun & R); [by apply lg_repr_new|done|by apply room_new|].
  destruct (contract_run _ us) as [answers s]. exists d. by split.
Qed.

(** [add_edge_v2] of an edge that exists returns true and counts the edge
    again: the weight is updated, in both directions when the graph is
    undirected, but the counter no longer is the number of edges. *)
Theorem lg_add_edge_v2_again `{DbProgress, !CommitTrue, !ConcurrentHashMap} d s e w0 fuel
  (R : lg_repr d s) (Hne : wsource e <> wdestination e)
  (Hw0 : spec_arcs s !! (wsource e, wdestination e) = Some w0)
  (Hfuel : (conflicts (m_pImpl d) < fuel)%nat) (Hroom : room s 1)
  (Hedges : db_num_edges d + 1 < 2 ^ 64) :
  let s' := spec_add_edge s (wsource e) (wdestination e) (m_weight e) in
  exists d', add_edge_v2 d e fuel = Val (true, d') /\
    lg_data (hm_map (m_pHashMap d')) (data (m_pImpl d')) (spec_vertices s) (spec_arcs s') /\
    size (spec_arcs s') = size (spec_arcs s) /\ db_num_edges d' = db_num_edges d + 1.
Proof.
  intros s'. pose proof (gr_data _ _ _ _ R) as Rd.
  destruct (upsert_spec (label := 0) (labels := lg_labels) d s e fuel lg_transaction
      (fun src dst => add_edge_v2_body (db_is_directed d) src dst e)
      (fun r arcs => r = true /\ arcs = spec_arcs s'))
    as (r & d' & arcs & Hup & [-> ->] & Rd' & _ & Hnum & _); try done.
  - intros body g. apply lg_transaction_eq.
  - intros D HD. eapply tx_spec_weaken; [|apply (upsert_data d s e D R Hne HD)|]; [done|].
    intros [[i j] r] D' (-> & ? & ? & ?). by eexists.
  - apply lg_add_edge_v2_body_calm.
  - pose proof (gr_vertices _ _ _ _ R). unfold room in Hroom. lia.
  - exists d'. split; [exact Hup|]. split; [|split; [|done]].
    + destruct (gd_closed _ _ _ _ _ _ _ Rd (wsource e) (wdestination e)) as [Hx Hy]; [by exists w0|].
      by replace (spec_vertices s) with ({[wdestination e]} ∪ ({[wsource e]} ∪ spec_vertices s)) by set_solver.
    + unfold s'. pose proof (spec_add_size s _ _ (m_weight e) Hne (gr_sym _ _ _ _ R)) as Hsize.
      rewrite Hw0 in Hsize. lia.
Qed.

(** ** Examples *)

Definition mem_lg : Database := mem_db 0 true.
Definition mem_lg_laws : @DbLaws mem_lg := mem_db_laws 0 true ltac:(lia).
Definition mem_lg_progress : @DbProgress mem_lg mem_lg_laws := mem_db_progress 0 true ltac:(lia).

Definition mem_live : @LiveGraph mem_lg.
Proof.
  refine (@Build_LiveGraph mem_lg (fun v t =>
    mem_op t tt (mkData (delete v (gd_vertices t.1)) (gd_edges t.1) (gd_allocated t.1)))).
Defined.

(** An empty database with two conflicts ahead. *)
Definition ex_lg_db : DbData * nat := (mkData ∅ ∅ ∅, 2%nat).

Definition ex_lg_new (directed : bool) : @LiveGraphDriver mem_lg mem_dictionary :=
  @LiveGraphDriver_new mem_lg mem_dictionary ex_lg_db directed true.

Definition ex_lg_edge : WeightedEdge := mkWeightedEdge (mkEdge 10 20) d_one.

Definition ex_lg_updates : list Update :=
  [UAddVertex 30; UAddEdge ex_lg_edge; UAddEdgeV2 ex_lg_edge; UAddEdge ex_lg_edge;
   UAddEdge (mkWeightedEdge (mkEdge 30 20) d_one); URemoveEdge (mkEdge 20 30)].

Definition ex_lg_driver (directed : bool) : @LiveGraphDriver mem_lg mem_dictionary :=
  match @run (@lg_interface mem_lg mem_live mem_dictionary) (ex_lg_new directed) ex_lg_updates 3 with
  | Val (_, d) => d
  | _ => ex_lg_new directed
  end.

Lemma ex_lg_admitted directed :
  @admitted _ (@lg_contract mem_lg mem_lg_laws mem_lg_progress (mem_db_commit 0 ltac:(lia)) mem_live mem_dictionary)
    (spec_new directed) ex_lg_updates.
Proof. destruct directed; do 3 (split; [by vm_compute|]); by vm_compute. Qed.

Lemma ex_lg_driver_repr directed :
  @db_repr mem_lg mem_lg_laws mem_dictionary 0 lg_labels (ex_lg_driver directed)
    (contract_run (spec_new directed) ex_lg_updates).2.
Proof.
  destruct (@run_settles (@lg_interface mem_lg mem_live mem_dictionary)
    (@lg_contract mem_lg mem_lg_laws mem_lg_progress (mem_db_commit 0 ltac:(lia)) mem_live mem_dictionary)
    ex_lg_updates (ex_lg_new directed) (spec_new directed)
    (@lg_repr_new mem_lg mem_lg_laws mem_dictionary ex_lg_db directed true eq_refl eq_refl)
    (ex_lg_admitted directed)) as (d & Hrun & R); [by apply room_new|].
  assert (match @run (@lg_interface mem_lg mem_live mem_dictionary) (ex_lg_new directed) ex_lg_updates 3 with
          | Val _ => true | _ => false end = true) as Hval by (destruct directed; by vm_compute).
  unfold ex_lg_driver. destruct (run _ _ 3) as [[a d']| | |] eqn:Ha; [|done..].
  eapply settles_agree in Hrun; [|apply run_stable, lg_call_stable|exact Ha].
  injection Hrun as _ ->. exact R.
Qed.

Lemma lg_updates_refine_witness :
  exists d, @settles _ (@run (@lg_interface mem_lg mem_live mem_dictionary) (ex_lg_new false) ex_lg_updates)
    (Val ([true; false; true; false; true; true], d)).
Proof.
  pose proof (@lg_updates_refine mem_lg mem_lg_laws mem_lg_progress (mem_db_commit 0 ltac:(lia)) mem_live
    mem_dictionary ex_lg_db false true ex_lg_updates eq_refl eq_refl (ex_lg_admitted false)) as Hrun.
  destruct Hrun as (d & Hrun & _); [simpl; lia|by exists d].
Defined.

Lemma lg_add_edge_v2_again_witness :
  exists d', @add_edge_v2 mem_lg mem_dictionary (ex_lg_driver true) ex_lg_edge 1 = Val (true, d') /\
    db_num_edges d' = 3.
Proof.
  pose proof (@lg_add_edge_v2_again mem_lg mem_lg_laws mem_lg_progress (mem_db_commit 0 ltac:(lia))
    mem_dictionary (ex_lg_driver true) _ ex_lg_edge d_one 1 (ex_lg_driver_repr true)) as Hadd.
  destruct Hadd as (d' & Hd' & _ & _ & Hn).
  - done.
  - by vm_compute.
  - vm_compute. lia.
  - split; by vm_compute.
  - by vm_compute.
  - exists d'. split; [exact Hd'|]. rewrite Hn. by vm_compute.
Defined.
