(* ===== verification/LiveGraphKernels.v ===== *)
(** The kernels of [library/livegraph/livegraph_driver], on a transaction that
    the OpenMP threads share. *)

From S2P Require Import Prelude Doubles Paths Graphs Gapbs Bfs Sssp Edge AdjList AdjKernels.
From S2P Require Import AdjSssp CsrRank Snapshot SnapshotScan SnapshotSssp Interface Database MemDatabase LiveGraph.

(** ** Transactions that read

    The outgoing edges are those with the label 0. The two kinds of
    transaction have the same interface; [get_max_vertex_id] is one more than
    the last vertex. *)

Class LgReaders `{Database} := {
  Transaction : Type;
  begin_read_only_transaction : Graph -> Transaction;
  begin_transaction : Graph -> Transaction;
  get_max_vertex_id : Graph -> nat;
  get_vertex : Transaction -> nat -> option Z;
  get_edges : Transaction -> nat -> list (nat * double);
}.

Definition lg_reader `{LgReaders} (t : Transaction) : Reader :=
  mkReader 0 (get_vertex t) (get_edges t) (fun v => Z.of_nat (length (get_edges t v))).

(** What a transaction reads of the content of the database. *)
Record lg_reads `{LgReaders} (t : Transaction) (max_vertex_id : nat) (D : DbData) : Prop := {
  lr_vertex : forall v, (v < max_vertex_id)%nat -> get_vertex t v = gd_vertices D !! Z.of_nat v;
  lr_out : forall u v w, (u < max_vertex_id)%nat ->
    (v, w) ∈ get_edges t u <-> gd_edges D !! (Z.of_nat u, 0, Z.of_nat v) = Some w;
  lr_unique : forall u, (u < max_vertex_id)%nat -> NoDup (get_edges t u).*1;
}.

Class LgReadersLaws `{DbLaws, !LgReaders} := {
  lg_first : first_id = 0;
  lg_max_vertex : forall g i, i ∈ gd_allocated (data g) -> i < Z.of_nat (get_max_vertex_id g);
  read_only_reads : forall g, lg_reads (begin_read_only_transaction g) (get_max_vertex_id g) (data g);
  transaction_reads : forall g, lg_reads (begin_transaction g) (get_max_vertex_id g) (data g);
}.

Section kernels.
Context `{LgReaders}.

(** ** Helpers *)

Definition int2ext (t : Transaction) (internal_vertex_id : nat) : Z :=
  match get_vertex t internal_vertex_id with None => uint64_max | Some x => x end.

Definition translate {T} (t : Transaction) (max : T) (values : list T) (data_sz : nat) :
    res (list (Z * T)) :=
  res_fold
    (fun output logical_id =>
       let external_id := int2ext t logical_id in
       p ← (if external_id =? uint64_max then Val (uint64_max, max)
            else x ← arr_get values logical_id; Val (external_id, x));
       arr_set output logical_id p)
    (replicate data_sz (0, max)) (seq 0 data_sz).

(** [m_read_only ? begin_read_only_transaction() : begin_transaction()] *)
Definition begin `{!ConcurrentHashMap} (d : LiveGraphDriver) : Transaction :=
  if m_read_only d then begin_read_only_transaction (m_pImpl d) else begin_transaction (m_pImpl d).

(** ** BFS *)

Definition do_bfs_BUStep `{Omp} (t : Transaction) (max_vertex_id : nat)
    (distances : list Z) (distance : Z) (front next : list bool) : res (list Z * list bool * Z) :=
  BUStep_of (lg_reader t) max_vertex_id distances distance front next.

Definition do_bfs_TDStep `{Omp} (t : Transaction) (distances : list Z)
    (distance : Z) (queue : SlidingQueue) : res (list Z * SlidingQueue * Z) :=
  TDStep_of (lg_reader t) distances distance queue.

Definition do_bfs_QueueToBitmap `{Omp} (t : Transaction) (queue : SlidingQueue)
    (bm : list bool) : res (list bool) :=
  QueueToBitmap_of (lg_reader t) queue bm.

Definition do_bfs_BitmapToQueue `{Omp} (t : Transaction) (max_vertex_id : nat)
    (bm : list bool) (queue : SlidingQueue) : res SlidingQueue :=
  BitmapToQueue_of (lg_reader t) max_vertex_id bm queue.

Definition do_bfs_init_distances `{Omp} (t : Transaction) (max_vertex_id : nat) : res (list Z) :=
  init_distances_of (lg_reader t) max_vertex_id.

Definition lg_steps `{Omp} (t : Transaction) (max_vertex_id : nat) : BfsSteps := {|
  BUStep := do_bfs_BUStep t max_vertex_id;
  TDStep := do_bfs_TDStep t;
  QueueToBitmap := do_bfs_QueueToBitmap t;
  BitmapToQueue := do_bfs_BitmapToQueue t max_vertex_id;
|}.

Definition do_bfs `{Omp, Timer} (t : Transaction) (num_vertices num_edges : Z)
    (max_vertex_id root : nat) (alpha beta : Z) : res (list Z * nat) :=
  distances ← do_bfs_init_distances t max_vertex_id;
  search (lg_steps t max_vertex_id) (lg_reader t) num_vertices max_vertex_id root distances
    (i64 num_edges) alpha beta.

Definition bfs `{!ConcurrentHashMap, Omp, Timer} (d : LiveGraphDriver)
    (external_source_id : Z) : res (list (Z * Z)) :=
  if db_is_directed d then Exn RuntimeError
  else
    let transaction := begin d in
    let max_vertex_id := get_max_vertex_id (m_pImpl d) in
    root ← ext2int d external_source_id;
    '(result, k) ← do_bfs transaction (m_num_vertices d) (db_num_edges d) max_vertex_id
                     (Z.to_nat root) 15 18;
    if is_timeout k then Exn TimeoutError
    else
      external_ids ← translate transaction int64_max result max_vertex_id;
      if is_timeout (k + 1) then Exn TimeoutError
      else Val (save_results (fun x => x <? 0) int64_max false external_ids).

(** ** PageRank *)

Definition do_pagerank `{Omp, OmpReduce, Timer} (t : Transaction) (num_vertices : Z)
    (max_vertex_id num_iterations : nat) (damping_factor : double) : res (list double * nat) :=
  pagerank_of (lg_reader t) num_vertices max_vertex_id num_iterations damping_factor.

Definition pagerank `{!ConcurrentHashMap, Omp, OmpReduce, Timer} (d : LiveGraphDriver)
    (num_iterations : nat) (damping_factor : double) : res (list (Z * double)) :=
  if db_is_directed d then Exn RuntimeError
  else
    let transaction := begin d in
    let max_vertex_id := get_max_vertex_id (m_pImpl d) in
    '(result, k) ← do_pagerank transaction (m_num_vertices d) max_vertex_id num_iterations
                     damping_factor;
    if is_timeout k then Exn TimeoutError
    else
      external_ids ← translate transaction d_max result max_vertex_id;
      if is_timeout (k + 1) then Exn TimeoutError
      else Val (save_results (fun x => dlt x d_zero) d_max true external_ids).
(** ** Scans

    [wcc] and [cdlp] are scans of all the edges; what they print is their
    result. [total_edge_count] is the number of edges that [sssp] uses. *)

Definition do_weight_scan `{Omp, OmpReduce} (t : Transaction) (max_vertex_id : nat) : Z * Z * double :=
  weight_scan (lg_reader t) max_vertex_id.

Definition wcc `{!ConcurrentHashMap, Omp, OmpReduce} (d : LiveGraphDriver) : Z * Z * double :=
  let transaction := begin d in
  let max_vertex_id := get_max_vertex_id (m_pImpl d) in
  do_weight_scan transaction max_vertex_id.

Definition total_edge_count `{Omp} (t : Transaction) (max_vertex_id : nat) : Z :=
  edge_count (lg_reader t) max_vertex_id.

Definition do_topology_scan `{Omp} (t : Transaction) (max_vertex_id : nat) : Z * Z :=
  topology_scan (lg_reader t) max_vertex_id.

Definition cdlp `{!ConcurrentHashMap, Omp} (d : LiveGraphDriver) (max_iterations : nat) : Z * Z :=
  let transaction := begin d in
  let max_vertex_id := get_max_vertex_id (m_pImpl d) in
  do_topology_scan transaction max_vertex_id.

(** ** LCC *)

Definition do_lcc_undirected `{Omp, Timer, Memory} (t : Transaction) (max_vertex_id : nat) :
    res (list double * nat) :=
  lcc_of (lg_reader t) (get_edges t) max_vertex_id.

Definition lcc `{!ConcurrentHashMap, Omp, Timer, Memory} (d : LiveGraphDriver) : res (list (Z * double)) :=
  if db_is_directed d then Exn RuntimeError
  else
    let transaction := begin d in
    let max_vertex_id := get_max_vertex_id (m_pImpl d) in
    '(scores, k) ← do_lcc_undirected transaction max_vertex_id;
    if is_timeout k then Exn TimeoutError
    else
      external_ids ← translate transaction d_max scores max_vertex_id;
      if is_timeout (k + 1) then Exn TimeoutError
      else Val (save_results (fun x => dlt x d_zero) d_max true external_ids).

(** ** SSSP *)

Definition do_sssp `{Omp} (t : Transaction) (num_edges : Z) (max_vertex_id source : nat) (delta : double)
    (fuel : nat) : res (list double) :=
  sssp_of Val (fun u => Val (get_edges t u)) (Z.to_nat num_edges) max_vertex_id source delta fuel.

Definition sssp `{!ConcurrentHashMap, Omp, Timer} (d : LiveGraphDriver) (source_vertex_id : Z) (fuel : nat) :
    res (list (Z * double)) :=
  let transaction := begin d in
  let max_vertex_id := get_max_vertex_id (m_pImpl d) in
  let num_edges := total_edge_count transaction max_vertex_id in
  root ← ext2int d source_vertex_id;
  distances ← do_sssp transaction num_edges max_vertex_id (Z.to_nat root) sssp_delta fuel;
  if is_timeout 0 then Exn TimeoutError
  else
    external_ids ← translate transaction d_max distances max_vertex_id;
    if is_timeout 1 then Exn TimeoutError
    else Val (save_results (fun x => dlt x d_zero) d_max true external_ids).

(** ** Two-hop queries *)

Definition generate_two_hops_neighbor_candidates `{!ConcurrentHashMap} (d : LiveGraphDriver)
    (rand : nat -> Z) (fuel : nat) : res (list Z) :=
  candidates rand 0 (Z.of_nat (get_max_vertex_id (m_pImpl d))) fuel.

Definition one_hop_neighbors `{!ConcurrentHashMap} (d : LiveGraphDriver) (vertices : list nat) :
    gmap nat (list nat) :=
  one_hop_of (lg_reader (begin d)) vertices.

Definition two_hop_neighbors `{!ConcurrentHashMap} (d : LiveGraphDriver) (vertices : list nat) :
    gmap nat (list nat) :=
  two_hop_of (lg_reader (begin d)) vertices.
End kernels.

(** ** The transaction shows the graph that the driver represents *)

Lemma lg_reads_graph `{LgReaders} t N h D s :
  lg_reads t N D -> db_data 0 0 lg_labels h D (spec_vertices s) (spec_arcs s) ->
  (forall i, i ∈ gd_allocated D -> i < Z.of_nat N) -> reads (lg_reader t) N s.
Proof.
  intros Hr R Halloc.
  assert (forall x i, h !! x = Some i -> exists v, (v < N)%nat /\ i = Z.of_nat v) as Hat.
  { intros x i Hx. destruct (gd_payload _ _ _ _ _ _ _ R x i Hx) as (Hi & Ha & Hv). apply Halloc in Ha.
    exists (Z.to_nat i). lia. }
  assert (forall v x, (v < N)%nat -> get_vertex t v = Some x <-> h !! x = Some (Z.of_nat v)) as Hname.
  { intros v x Hv. rewrite (lr_vertex _ _ _ Hr) by lia. split; [apply (gd_only _ _ _ _ _ _ _ R)|].
    intros Hx. by destruct (gd_payload _ _ _ _ _ _ _ R x _ Hx) as (_ & _ & ?). }
  split; cbn [sr_first sr_vertex sr_edges sr_degree lg_reader Nat.add].
  - intros x. rewrite <- (gd_dom _ _ _ _ _ _ _ R), elem_of_dom. split.
    + intros [i Hx]. destruct (Hat x i Hx) as (v & Hv & ->). exists v. split; [done|]. by apply Hname.
    + intros (v & Hv & Hx). apply Hname in Hx; [|done]. by exists (Z.of_nat v).
  - intros u v x Hu Hv Hux Hvx. apply Hname in Hux, Hvx; [|done..]. simplify_eq. lia.
  - intros u d w Hu. rewrite (lr_out _ _ _ Hr) by lia. split.
    + intros He. destruct (gd_ends _ _ _ _ _ _ _ R _ _ _ (ex_intro _ w He)) as (_ & x & y & Hx & Hy).
      destruct (Hat y _ Hy) as (v & Hv & Hd). exists v, x, y.
      split; [lia|]. split; [done|]. rewrite !Hname by done. rewrite <- Hd. split_and!; [done|done|].
      by rewrite <- (gd_arc _ _ _ _ _ _ _ R x y _ _ Hx Hy).
    + intros (v & x & y & -> & Hv & Hx & Hy & Hw). apply Hname in Hx, Hy; [|done..].
      by rewrite (gd_arc _ _ _ _ _ _ _ R x y _ _ Hx Hy).
  - intros u Hu. apply (lr_unique _ _ _ Hr). lia.
  - done.
  - apply (gd_closed _ _ _ _ _ _ _ R).
Qed.

Section graph.
Context `{LgReadersLaws, !ConcurrentHashMap} (d : LiveGraphDriver) (s : Spec) (R : lg_repr d s).

Notation N := (get_max_vertex_id (m_pImpl d)).
Notation r := (lg_reader (begin d)).

Lemma lg_graph : reads r N s.
Proof.
  pose proof (gr_data _ _ _ _ R) as Rd. rewrite lg_first in Rd. unfold begin.
  destruct (m_read_only d);
    (eapply lg_reads_graph; [apply read_only_reads || apply transaction_reads|exact Rd|]);
    apply lg_max_vertex.
Qed.

(** The internal identifier of a vertex is its position. *)
Lemma lg_dictionary x : x ∈ spec_vertices s -> hm_map (m_pHashMap d) !! x = Some (Z.of_nat (pos r N x)).
Proof.
  intros Hx. pose proof (gr_data _ _ _ _ R) as Rd.
  destruct (pos_spec _ _ _ lg_graph x Hx) as [Hp Hn]. unfold name in Hn.
  assert (gd_vertices (data (m_pImpl d)) !! Z.of_nat (pos r N x) = Some x) as Hv.
  { rewrite <- Hn. cbn [sr_first sr_vertex lg_reader Nat.add] in Hn |- *. unfold begin in *.
    destruct (m_read_only d); symmetry;
      (eapply lr_vertex; [apply read_only_reads || apply transaction_reads|exact Hp]). }
  by apply (gd_only _ _ _ _ _ _ _ Rd) in Hv.
Qed.

Lemma lg_ext2int x : x ∈ spec_vertices s -> ext2int d x = Val (Z.of_nat (enc r (pos r N x))).
Proof. intros Hx. unfold ext2int. by rewrite hm_find_map, lg_dictionary. Qed.

Lemma lg_ext2int_missing x : x ∉ spec_vertices s -> ext2int d x = Exn RuntimeError.
Proof.
  rewrite <- (gd_dom _ _ _ _ _ _ _ (gr_data _ _ _ _ R)), not_elem_of_dom. unfold ext2int. rewrite hm_find_map.
  by intros ->.
Qed.

Lemma translate_val {T} (max : T) values :
  uint64_max ∉ spec_vertices s -> length values = N ->
  translate (begin d) max values N =
    Val ((fun i => match name r i with
                   | None => (uint64_max, max)
                   | Some e => (e, default max (values !! i))
                   end) <$> seq 0 N).
Proof.
  intros Hmax Hl. unfold translate. change (seq 0 N) with (@omp_order omp_sequential 0 _ (seq 0 N)).
  apply (@omp_fill omp_sequential _ 0 (fun i => if int2ext (begin d) i =? uint64_max then Val (uint64_max, max)
    else x ← arr_get values i; Val (int2ext (begin d) i, x))); [apply length_replicate|].
  intros i Hi. unfold int2ext, name. cbn [sr_first sr_vertex lg_reader Nat.add].
  destruct (get_vertex (begin d) i) as [x|] eqn:Hx; [|done].
  assert (x ∈ spec_vertices s) as Hin by (apply (rd_vertex _ _ _ lg_graph); by exists i).
  rewrite (proj2 (Z.eqb_neq _ _)) by (intros ->; done).
  destruct (lookup_lt_is_Some_2 values i) as [y Hy]; [lia|].
  by rewrite (arr_get_val _ _ _ Hy), Hy.
Qed.
End graph.

(** BFS of the LiveGraph driver ends and, unless the time is over, writes
    every vertex once, under the name it has outside, with the number of hops
    from the source, or with the largest integer when it cannot be reached,
    whatever the schedule of the threads and the kind of the transaction. It
    refuses directed graphs and a source that is not a vertex. *)
Lemma lg_bfs_correct `{LgReadersLaws, !ConcurrentHashMap, Omp, Timer} d s src
  (R : lg_repr d s) (Hmax : uint64_max ∉ spec_vertices s)
  (HN : Z.of_nat (get_max_vertex_id (m_pImpl d)) < 2 ^ 62) :
  if spec_directed s then bfs d src = Exn RuntimeError
  else if decide (src ∈ spec_vertices s) then
    (bfs d src = Exn TimeoutError /\ exists k, is_timeout k = true) \/
    exists lines, bfs d src = Val lines /\ bfs_lines s src lines
  else bfs d src = Exn RuntimeError.
Proof.
  unfold bfs. rewrite (gr_directed _ _ _ _ R). destruct (spec_directed s) eqn:Hdir; [done|].
  case_decide as Hsrc; [|by rewrite (lg_ext2int_missing d s R)].
  rewrite (lg_ext2int d s R src Hsrc). bind_val. rewrite Nat2Z.id.
  pose proof (lg_graph d s R) as Hreads. pose proof (gr_sym _ _ _ _ R Hdir) as Hsym.
  pose proof (vertices_size _ _ _ Hreads) as Hsize. pose proof (gr_vertices _ _ _ _ R) as Hnv.
  set (N := get_max_vertex_id (m_pImpl d)) in *.
  unfold do_bfs, do_bfs_init_distances. rewrite (init_distances_val _ N). bind_val.
  edestruct (search_spec _ N s Hreads HN (lg_steps (begin d) N) (m_num_vertices d) src)
    as (dist & k & -> & Hk & Hres);
    [by apply (snapshot_laws _ _ _ Hreads Hsym HN)|done|lia|done|].
  bind_step. destruct (is_timeout k) eqn:Ht; [left; split; [done|by exists k]|].
  destruct Hres as [Hprev|Hres].
  { rewrite (is_timeout_mono (k - 1) k) in Ht by (done || lia). done. }
  pose proof (translate_val d s R int64_max dist Hmax (proj1 Hres)) as Htr. fold N in Htr.
  rewrite Htr. bind_val.
  destruct (is_timeout (k + 1)) eqn:Ht'; [left; split; [done|by exists (k + 1)%nat]|right].
  eexists. split; [done|]. by apply (searched_lines _ _ s).
Qed.

(** PageRank of the LiveGraph driver ends and, unless the time is over,
    performs as many steps of the defining iteration on doubles as it is asked
    for, from equal ranks, in which the sinks are added in some order, and
    writes the rank of every vertex once. *)
Theorem lg_pagerank_correct `{LgReadersLaws, !ConcurrentHashMap, Omp, OmpReduce, Timer}
  d s num_iterations damping_factor
  (R : lg_repr d s) (Hmax : uint64_max ∉ spec_vertices s)
  (HN : Z.of_nat (get_max_vertex_id (m_pImpl d)) < 2 ^ 62) :
  if spec_directed s then pagerank d num_iterations damping_factor = Exn RuntimeError
  else
    (pagerank d num_iterations damping_factor = Exn TimeoutError /\ exists k, is_timeout k = true) \/
    exists lines rank0 rank, pagerank d num_iterations damping_factor = Val lines /\
      (forall x, x ∈ spec_vertices s ->
         rank0 x = ddiv d_one (double_of_Z (Z.of_nat (size (spec_vertices s))))) /\
      nsteps (pr_round s damping_factor) num_iterations rank0 rank /\
      lines.*1 ≡ₚ elements (spec_vertices s) /\ forall x y, (x, y) ∈ lines -> y = rank x.
Proof.
  unfold pagerank. rewrite (gr_directed _ _ _ _ R). destruct (spec_directed s) eqn:Hdir; [done|].
  pose proof (lg_graph d s R) as Hreads. pose proof (gr_sym _ _ _ _ R Hdir) as Hsym.
  set (N := get_max_vertex_id (m_pImpl d)) in *. unfold do_pagerank.
  rewrite <- (gr_vertices _ _ _ _ R).
  destruct (pagerank_of_spec _ N s Hreads Hsym HN num_iterations damping_factor)
    as (scores & k & steps & -> & Hl & Hsteps & Hend).
  bind_step. destruct (is_timeout k) eqn:Ht; [left; split; [done|by exists k]|].
  destruct Hend as [?| ->]; [done|].
  pose proof (translate_val d s R d_max scores Hmax Hl) as Htr. fold N in Htr. rewrite Htr. bind_val.
  destruct (is_timeout (k + 1)) eqn:Ht'; [left; split; [done|by exists (k + 1)%nat]|right].
  destruct (save_spec _ N s Hreads (fun x => dlt x d_zero) d_max true scores Hmax Hl) as [Hperm Hlines].
  eexists _, _, _. split; [done|]. split; [|split; [exact Hsteps|split; [exact Hperm|]]].
  - intros x Hx. destruct (pos_spec _ N s Hreads x Hx) as [Hp _]. unfold rank_at.
    by rewrite lookup_replicate_2.
  - intros x y Hxy. apply Hlines in Hxy as (_ & z & Hz & ->). unfold rank_at. by rewrite Hz.
Qed.

(** C23: LCC of the LiveGraph driver ends and, unless the time is over, writes the
    local clustering coefficient of every vertex once: zero with fewer than two
    neighbours, and otherwise the share of the ordered pairs of neighbours that
    are joined, in double arithmetic. What the uninitialised arrays contain
    does not matter. *)
Theorem lg_lcc_correct `{LgReadersLaws, !ConcurrentHashMap, Omp, Timer, Memory} d s
  (R : lg_repr d s) (Hmax : uint64_max ∉ spec_vertices s)
  (HN : Z.of_nat (get_max_vertex_id (m_pImpl d)) < 2 ^ 32 - 1) :
  if spec_directed s then lcc d = Exn RuntimeError
  else
    (lcc d = Exn TimeoutError /\ exists k, is_timeout k = true) \/
    exists lines, lcc d = Val lines /\ lines.*1 ≡ₚ elements (spec_vertices s) /\
      forall x y, (x, y) ∈ lines -> y = lcc_value s x.
Proof.
  unfold lcc. rewrite (gr_directed _ _ _ _ R). destruct (spec_directed s) eqn:Hdir; [done|].
  pose proof (lg_graph d s R) as Hreads. pose proof (gr_sym _ _ _ _ R Hdir) as Hsym.
  set (N := get_max_vertex_id (m_pImpl d)) in *. unfold do_lcc_undirected.
  destruct (lcc_of_spec _ N s Hreads Hsym eq_refl HN) as (scores & k & Hlcc & Hl & Hend).
  cbn [sr_edges lg_reader] in Hlcc. rewrite Hlcc. bind_step.
  destruct (is_timeout k) eqn:Ht; [left; split; [done|by exists k]|].
  destruct Hend as [?|Hval]; [done|].
  pose proof (translate_val d s R d_max scores Hmax Hl) as Htr. fold N in Htr. rewrite Htr. bind_val.
  destruct (is_timeout (k + 1)) eqn:Ht'; [left; split; [done|by exists (k + 1)%nat]|right].
  destruct (save_spec _ N s Hreads (fun x => dlt x d_zero) d_max true scores Hmax Hl) as [Hperm Hlines].
  eexists. split; [done|]. split; [exact Hperm|].
  intros x y Hxy. apply Hlines in Hxy as (Hx & z & Hz & ->). rewrite (Hval x Hx) in Hz. by injection Hz as <-.
Qed.

(** What the LiveGraph driver does for WCC and CDLP is to scan the edges, for
    directed graphs too and without a time limit: it prints the number of arcs,
    the sum of the internal identifiers of their destinations and, for WCC, the
    sum of the weights in some order. [total_edge_count] is the number of edges
    of an undirected graph, and half of it for a directed one. *)
Theorem lg_scan_correct `{LgReadersLaws, !ConcurrentHashMap, Omp, OmpReduce} d s max_iterations
  (R : lg_repr d s) (Hsize : Z.of_nat (size (spec_arcs s)) < 2 ^ 64) :
  let arcs := map_to_list (spec_arcs s) in
  let vids := foldr Z.add 0 ((fun p => default 0 (hm_map (m_pHashMap d) !! p.1.2)) <$> arcs) in
  (exists w, wcc d = (Z.of_nat (length arcs), u64 vids, w) /\ dsum_of arcs.*2 w) /\
  cdlp d max_iterations = (Z.of_nat (length arcs), u64 vids) /\
  total_edge_count (begin d) (get_max_vertex_id (m_pImpl d)) =
    if spec_directed s then db_num_edges d / 2 else db_num_edges d.
Proof.
  intros arcs vids. pose proof (lg_graph d s R) as Hreads.
  assert (u64 (Z.of_nat (size (spec_arcs s))) = Z.of_nat (size (spec_arcs s))) as Hu
    by (apply u64_id; unfold is_u64; lia).
  assert (Z.of_nat (length arcs) = u64 (Z.of_nat (size (spec_arcs s)))) as ->
    by (unfold arcs; by rewrite length_map_to_list, Hu).
  assert (vids = vid_sum (lg_reader (begin d)) (get_max_vertex_id (m_pImpl d)) s) as ->.
  { unfold vids, vid_sum. f_equal. apply list_fmap_ext. intros i [[x y] w] Hp. simpl.
    apply list_elem_of_lookup_2, elem_of_map_to_list in Hp.
    destruct (rd_closed _ _ _ Hreads x y (ex_intro _ w Hp)) as [_ Hy].
    by rewrite (lg_dictionary d s R y Hy). }
  split; [by apply weight_scan_spec|]. split; [by apply topology_scan_spec|].
  unfold total_edge_count. rewrite (edge_count_spec _ _ s Hreads), Hu, (gr_edges _ _ _ _ R).
  destruct (spec_directed s); [by rewrite Z.mul_1_l|]. rewrite Z.mul_comm. by apply Z.div_mul.
Qed.

(** A frontier of the algorithm is longer than the array, which has as many entries
    as the database has edges, half of the arcs of an undirected graph. *)
Definition sssp_overflows `{LgReaders, !ConcurrentHashMap, Omp} (d : LiveGraphDriver) (src : Z) : Prop :=
  exists root, ext2int d src = Val root /\
    frontier_outgrows Val (fun u => Val (get_edges (begin d) u)) (get_max_vertex_id (m_pImpl d)) (Z.to_nat root) sssp_delta
      (Z.to_nat (total_edge_count (begin d) (get_max_vertex_id (m_pImpl d)))).

(** C24: SSSP of the LiveGraph driver, on a directed or undirected graph without
    negative weights, ends whatever the schedule and the kind of the
    transaction. It refuses a source that is not a vertex. It leaves its memory, which is
    undefined, whenever a frontier that the algorithm goes through is longer than its
    array, and otherwise only if some walk from the source is so long that its bin is beyond
    the largest vector. In all other cases the time is over or every vertex is written once,
    under the name it has outside, with the least sum, in double arithmetic along the
    walk, of the weights of a walk from the source, infinity without one. *)
Theorem lg_sssp_correct `{LgReadersLaws, !ConcurrentHashMap, Omp, Timer} d s src
  (R : lg_repr d s) (Hmax : uint64_max ∉ spec_vertices s)
  (Hweights : forall u v w, weighted s u v w -> nonneg w = true) :
  exists n, forall fuel, (n <= fuel)%nat ->
  if decide (src ∈ spec_vertices s) then
    (sssp_overflows d src -> sssp d src fuel = Undef) /\
    ((sssp d src fuel = Undef /\ (sssp_overflows d src \/ far_walk (weighted s) src)) \/
     (sssp d src fuel = Exn TimeoutError /\ exists k, is_timeout k = true) \/
     exists lines, sssp d src fuel = Val lines /\ lines.*1 ≡ₚ elements (spec_vertices s) /\
       forall x y, (x, y) ∈ lines -> shortest (weighted s) src x y)
  else sssp d src fuel = Exn RuntimeError.
Proof.
  unfold sssp_overflows, sssp. case_decide as Hsrc; [|exists 0%nat; intros; by rewrite (lg_ext2int_missing d s R)].
  rewrite (lg_ext2int d s R src Hsrc).
  pose proof (lg_graph d s R) as Hreads. set (N := get_max_vertex_id (m_pImpl d)) in *.
  destruct (pos_spec _ N s Hreads src Hsrc) as [Hp _].
  destruct (sssp_of_spec Val (fun u => Val (get_edges (begin d) u)) N (get_edges (begin d))
    (fun _ _ => eq_refl) (fun _ _ => eq_refl) (reads_adjacent _ N s Hreads eq_refl Hweights) _ Hp
    (Z.to_nat (total_edge_count (begin d) N))) as [n Hn].
  exists n. intros fuel Hfuel. bind_val. unfold do_sssp. rewrite Nat2Z.id.
  change (enc _ (pos _ N src)) with (pos (lg_reader (begin d)) N src).
  split.
  { intros (root & [= <-] & Hover). rewrite Nat2Z.id in Hover.
    destruct (outgrows_undef _ _ _ _ _ _ fuel Hp eq_refl Hover) as [E|E]; rewrite E; [done|exfalso].
    destruct (Hn fuel Hfuel) as [[E' _]|(dist & E' & _)]; congruence. }
  destruct (Hn fuel Hfuel) as [[-> Hwhy]|(dist & -> & Hl & Hdist)].
  { left. split; [done|]. destruct Hwhy as [Hover|(v & x & Hw & Hfar)]; [left|right].
    - eexists. split; [done|]. by rewrite Nat2Z.id.
    - destruct (walk_named _ N s Hreads eq_refl src Hsrc v x Hw) as (y & _ & Hw'). by exists y, x. }
  bind_val. right.
  destruct (is_timeout 0) eqn:Ht; [left; split; [done|by exists 0%nat]|].
  pose proof (translate_val d s R d_max dist Hmax Hl) as Htr. fold N in Htr. rewrite Htr. bind_val.
  destruct (is_timeout 1) eqn:Ht'; [left; split; [done|by exists 1%nat]|right].
  destruct (save_spec _ N s Hreads (fun x => dlt x d_zero) d_max true dist Hmax Hl) as [Hperm Hlines].
  eexists. split; [done|]. split; [exact Hperm|].
  intros x y Hxy. apply Hlines in Hxy as (Hx & z & Hz & ->).
  destruct (pos_spec _ N s Hreads x Hx) as [Hpx _].
  apply (shortest_named _ N s Hreads eq_refl src Hsrc); [done|].
  specialize (Hdist _ Hpx). unfold dist_at in Hdist. by rewrite Hz in Hdist.
Qed.

(** ** Examples *)

Definition mem_lg_readers : @LgReaders mem_lg.
Proof.
  refine (@Build_LgReaders mem_lg DbData (fun g => g.1) (fun g => g.1) (fun g => Z.to_nat (fresh_id g.1))
    (fun D v => gd_vertices D !! Z.of_nat v) (mem_edges 0)).
Defined.

Definition mem_lg_readers_laws : @LgReadersLaws mem_lg mem_lg_laws mem_lg_readers.
Proof.
  assert (forall D N, @lg_reads mem_lg mem_lg_readers D N D) as Hreads.
  { split; simpl; [done|intros; apply elem_of_mem_edges|intros; apply mem_edges_NoDup]. }
  split; simpl; [done| |intros [D n]; apply Hreads..].
  intros [D n] i Hi. simpl in *. destruct (fresh_id_spec D) as [? Hall]. specialize (Hall i Hi). lia.
Defined.

Example ex_lg_bfs :
  @bfs mem_lg mem_lg_readers mem_dictionary omp_backwards no_timeout (ex_lg_driver false) 10 =
    Val [(30, int64_max); (10, 0); (20, 1)].
Proof. by vm_compute. Qed.

Lemma lg_bfs_correct_witness :
  exists lines,
    @bfs mem_lg mem_lg_readers mem_dictionary omp_backwards no_timeout (ex_lg_driver false) 10 = Val lines /\
    bfs_lines (contract_run (spec_new false) ex_lg_updates).2 10 lines.
Proof.
  pose proof (@lg_bfs_correct mem_lg mem_lg_laws mem_lg_readers mem_lg_readers_laws mem_dictionary omp_backwards
    no_timeout (ex_lg_driver false) _ 10 (ex_lg_driver_repr false)) as Hbfs.
  destruct Hbfs as [[_ [k Hk]]|(lines & Hres & Hlines)].
  - apply (bool_decide_unpack _). by vm_compute.
  - by vm_compute.
  - done.
  - exists lines. split; [exact Hres|exact Hlines].
Defined.

Lemma lg_pagerank_correct_witness :
  exists lines, @pagerank mem_lg mem_lg_readers mem_dictionary omp_backwards reduce_left no_timeout
      (ex_lg_driver false) 2 d_one = Val lines /\
    lines.*1 ≡ₚ [10; 20; 30].
Proof.
  pose proof (@lg_pagerank_correct mem_lg mem_lg_laws mem_lg_readers mem_lg_readers_laws mem_dictionary
    omp_backwards reduce_left no_timeout (ex_lg_driver false) _ 2 d_one (ex_lg_driver_repr false)) as Hpr.
  destruct Hpr as [[_ [k Hk]]|(lines & rank0 & rank & Hres & _ & _ & Hlines & _)].
  - apply (bool_decide_unpack _). by vm_compute.
  - by vm_compute.
  - done.
  - exists lines. split; [exact Hres|]. rewrite Hlines. apply (bool_decide_unpack _). by vm_compute.
Defined.

Lemma lg_lcc_correct_witness :
  exists lines, @lcc mem_lg mem_lg_readers mem_dictionary omp_backwards no_timeout new_zeroes
      (ex_lg_driver false) = Val lines /\
    lines.*1 ≡ₚ [10; 20; 30].
Proof.
  pose proof (@lg_lcc_correct mem_lg mem_lg_laws mem_lg_readers mem_lg_readers_laws mem_dictionary
    omp_backwards no_timeout new_zeroes (ex_lg_driver false) _ (ex_lg_driver_repr false)) as Hlcc.
  destruct Hlcc as [[_ [k Hk]]|(lines & Hres & Hlines & _)].
  - apply (bool_decide_unpack _). by vm_compute.
  - by vm_compute.
  - done.
  - exists lines. split; [exact Hres|]. rewrite Hlines. apply (bool_decide_unpack _). by vm_compute.
Defined.

Lemma lg_scan_correct_witness :
  (@cdlp mem_lg mem_lg_readers mem_dictionary omp_backwards (ex_lg_driver true) 10).1 = 2 /\
  @total_edge_count mem_lg mem_lg_readers omp_backwards
    (@begin mem_lg mem_lg_readers mem_dictionary (ex_lg_driver true)) 4 = 1.
Proof.
  destruct (@lg_scan_correct mem_lg mem_lg_laws mem_lg_readers mem_lg_readers_laws mem_dictionary
    omp_backwards reduce_left (ex_lg_driver true) _ 10 (ex_lg_driver_repr true)) as (_ & -> & He).
  - by vm_compute.
  - split; [by vm_compute|]. etrans; [|etrans; [exact He|by vm_compute]]. by vm_compute.
Defined.

Example ex_lg_sssp :
  @sssp mem_lg mem_lg_readers mem_dictionary omp_backwards no_timeout (ex_lg_driver false) 10 10 =
    Val [(30, d_inf); (10, d_zero); (20, d_one)].
Proof. by vm_compute. Qed.

Lemma lg_sssp_correct_witness : exists n, forall fuel, (n <= fuel)%nat ->
  @sssp mem_lg mem_lg_readers mem_dictionary omp_backwards no_timeout (ex_lg_driver false) 10 fuel = Undef \/
  exists lines, @sssp mem_lg mem_lg_readers mem_dictionary omp_backwards no_timeout (ex_lg_driver false) 10 fuel =
      Val lines /\ lines.*1 ≡ₚ [10; 20; 30].
Proof.
  destruct (@lg_sssp_correct mem_lg mem_lg_laws mem_lg_readers mem_lg_readers_laws mem_dictionary omp_backwards
    no_timeout (ex_lg_driver false) _ 10 (ex_lg_driver_repr false)) as [n Hn].
  - apply (bool_decide_unpack _). by vm_compute.
  - intros u v w Hw. apply elem_of_map_to_list in Hw. revert u v w Hw.
    assert (Forall (fun p : Z * Z * double => nonneg p.2 = true)
      (map_to_list (spec_arcs (contract_run (spec_new false) ex_lg_updates).2))) as Hall
      by (apply (bool_decide_unpack _); by vm_compute).
    intros u v w Hw. by apply (proj1 (Forall_forall _ _) Hall (u, v, w)).
  - exists n. intros fuel Hfuel. specialize (Hn fuel Hfuel). case_decide as Hsrc; [|exfalso; revert Hsrc; by apply (bool_decide_unpack _)].
    destruct Hn as [_ [[? _]|[[_ [k Hk]]|(lines & Hres & Hlines & _)]]]; [by left|done|right].
    exists lines. split; [exact Hres|]. rewrite Hlines. apply (bool_decide_unpack _). by vm_compute.
Defined.
