(* ===== verification/Teseo.v ===== *)
(** The driver of the Teseo library ([library/teseo/teseo_driver]): every update is a
    transaction of its own, and a conflict with another transaction is an answer. *)

From S2P Require Import Prelude Graphs Gapbs Edge AdjList Interface.

(** ** The library

    A call on a transaction succeeds, raises a [LogicalError] or a
    [TransactionConflict]. *)

Inductive outcome := Done | LogicalErr | Conflict.

Inductive TeseoCall :=
  | InsertVertex (v : Z)
  | RemoveVertex (v : Z)
  | InsertEdge (source destination : Z) (weight : double)
  | RemoveEdge (source destination : Z).

Class Teseo := {
  TDb : Type;
  TTx : Type;
  start_transaction : TDb -> TTx;
  tx_call : TTx -> TeseoCall -> outcome * TTx;
  tx_commit : TTx -> outcome * TDb;
  tx_close : TTx -> TDb; (* the destructor, which rolls back what is not committed *)
  tx_num_edges : TTx -> Z;
  tx_num_vertices : TTx -> Z;
  tx_has_vertex : TTx -> Z -> bool;
  tx_get_weight : TTx -> Z -> Z -> option double; (* [None] is a [LogicalError] *)
}.

Section driver.
Context `{Teseo}.

(** ** The driver

    The functions [add_edge_v2], [add_edge_v3] and [update_edge_v1] have a static map of
    vertices each, which all the drivers of the program share. *)

Record TeseoDriver := mkTeseoDriver {
  m_pImpl : TDb;
  m_is_directed : bool;
  m_read_only : bool;
  m_thread_affinity : bool;
  m_timeout : Z;
  vertices_v2 : gset Z;
  vertices_v3 : gset Z;
  vertices_u1 : gset Z;
}.

(** The constructor, with the maps that the program has so far. *)
Definition TeseoDriver_new (db : TDb) (is_directed read_only : bool) (v2 v3 u1 : gset Z) : res TeseoDriver :=
  if is_directed then Exn InvalidArgument
  else Val (mkTeseoDriver db is_directed read_only true 0 v2 v3 u1).

Definition set_db (d : TeseoDriver) (db : TDb) : TeseoDriver :=
  mkTeseoDriver db (m_is_directed d) (m_read_only d) (m_thread_affinity d) (m_timeout d)
    (vertices_v2 d) (vertices_v3 d) (vertices_u1 d).

Definition set_vertices (d : TeseoDriver) (v2 v3 u1 : gset Z) : TeseoDriver :=
  mkTeseoDriver (m_pImpl d) (m_is_directed d) (m_read_only d) (m_thread_affinity d) (m_timeout d) v2 v3 u1.

Definition set_timeout (d : TeseoDriver) (seconds : Z) : TeseoDriver :=
  mkTeseoDriver (m_pImpl d) (m_is_directed d) (m_read_only d) (m_thread_affinity d) seconds
    (vertices_v2 d) (vertices_v3 d) (vertices_u1 d).

Definition set_thread_affinity (d : TeseoDriver) (value : bool) : TeseoDriver :=
  mkTeseoDriver (m_pImpl d) (m_is_directed d) (m_read_only d) value (m_timeout d)
    (vertices_v2 d) (vertices_v3 d) (vertices_u1 d).

(** *** Look ups *)

Definition num_edges (d : TeseoDriver) : Z := tx_num_edges (start_transaction (m_pImpl d)).

Definition num_vertices (d : TeseoDriver) : Z := tx_num_vertices (start_transaction (m_pImpl d)).

Definition has_vertex (d : TeseoDriver) (vertex_id : Z) : bool := tx_has_vertex (start_transaction (m_pImpl d)) vertex_id.

(** A missing edge has the largest weight. *)
Definition get_weight (d : TeseoDriver) (source destination : Z) : double :=
  default d_max (tx_get_weight (start_transaction (m_pImpl d)) source destination).

(** *** Updates *)

(** A transaction with one call. *)
Definition transact (db : TDb) (c : TeseoCall) : outcome * TDb :=
  match tx_call (start_transaction db) c with
  | (Done, tx) => tx_commit tx
  | (o, tx) => (o, tx_close tx)
  end.

Definition is_done (o : outcome) : bool := match o with Done => true | _ => false end.

(** Both exceptions give [false]. *)
Definition update (d : TeseoDriver) (c : TeseoCall) : bool * TeseoDriver :=
  let '(o, db) := transact (m_pImpl d) c in (is_done o, set_db d db).

Definition add_vertex (d : TeseoDriver) (vertex_id : Z) : bool * TeseoDriver := update d (InsertVertex vertex_id).

Definition remove_vertex (d : TeseoDriver) (vertex_id : Z) : bool * TeseoDriver := update d (RemoveVertex vertex_id).

Definition add_edge (d : TeseoDriver) (e : WeightedEdge) : res (bool * TeseoDriver) :=
  if wsource e =? wdestination e then Exn InvalidArgument
  else Val (update d (InsertEdge (wsource e) (wdestination e) (m_weight e))).

Definition remove_edge (d : TeseoDriver) (e : Edge) : bool * TeseoDriver := update d (RemoveEdge (source e) (destination e)).

(** [if (vertices.insert(v, true)) { add_vertex(v); }] for a map: the vertex is only added
    when the map does not have it, and the answer is ignored. *)
Definition enrol (d : TeseoDriver) (vertices : gset Z) (v : Z) : gset Z * TeseoDriver :=
  if bool_decide (v ∈ vertices) then (vertices, d) else ({[v]} ∪ vertices, (add_vertex d v).2).

(** [while (!add_edge(e))] *)
Fixpoint add_edge_loop (d : TeseoDriver) (e : WeightedEdge) (fuel : nat) : res TeseoDriver :=
  match fuel with
  | O => NoFuel
  | S fuel =>
    '(b, d) ← add_edge d e;
    if b : bool then Val d else add_edge_loop d e fuel
  end.

Definition add_edge_v2 (d : TeseoDriver) (e : WeightedEdge) (fuel : nat) : res (bool * TeseoDriver) :=
  if wsource e =? wdestination e then Exn InvalidArgument
  else
    let '(vs, d) := enrol d (vertices_v2 d) (wsource e) in
    let '(vs, d) := enrol d vs (wdestination e) in
    d ← add_edge_loop (set_vertices d vs (vertices_v3 d) (vertices_u1 d)) e fuel;
    Val (true, d).

Definition add_edge_v3 (d : TeseoDriver) (e : WeightedEdge) (fuel : nat) : res (bool * TeseoDriver) :=
  let '(vs, d) := enrol d (vertices_v3 d) (wsource e) in
  let '(vs, d) := enrol d vs (wdestination e) in
  d ← add_edge_loop (set_vertices d (vertices_v2 d) vs (vertices_u1 d)) e fuel;
  Val (true, d).

(** The loop of [update_edge_v1]: the edge is removed, if there is one, and inserted
    again, each in a transaction. *)
Fixpoint update_edge_loop (d : TeseoDriver) (e : WeightedEdge) (fuel : nat) : res TeseoDriver :=
  match fuel with
  | O => NoFuel
  | S fuel =>
    let current_weight := get_weight d (wsource e) (wdestination e) in
    let need_remove := negb (deq current_weight d_max) in
    let weight := if need_remove then dadd (m_weight e) current_weight else m_weight e in
    let '(removed, d) :=
      if need_remove then update d (RemoveEdge (wsource e) (wdestination e)) else (true, d) in
    if removed then
      let '(finished, d) := update d (InsertEdge (wsource e) (wdestination e) weight) in
      if finished then Val d else update_edge_loop d e fuel
    else update_edge_loop d e fuel
  end.

Definition update_edge_v1 (d : TeseoDriver) (e : WeightedEdge) (fuel : nat) : res (bool * TeseoDriver) :=
  let '(vs, d) := enrol d (vertices_u1 d) (wsource e) in
  let '(vs, d) := enrol d vs (wdestination e) in
  d ← update_edge_loop (set_vertices d (vertices_v2 d) (vertices_v3 d) vs) e fuel;
  Val (true, d).
End driver.

#[export] Instance teseo_interface `{Teseo} : UpdateInterface := {
  Impl := TeseoDriver;
  is_directed := m_is_directed;
  Interface.add_vertex := fun d v _ => Val (add_vertex d v);
  Interface.remove_vertex := fun d v _ => Val (remove_vertex d v);
  Interface.add_edge := fun d e _ => add_edge d e;
  Interface.add_edge_v2 := add_edge_v2;
  Interface.remove_edge := fun d e _ => Val (remove_edge d e);
}.

(** ** What the library promises

    On the graph of a transaction: a call succeeds exactly when it applies, a
    conflict may happen instead, finitely often, and leaves the database as it was.
    Of [RemoveVertex] only the removal of a vertex without edges is asked. *)

Definition applies (s : Spec) (c : TeseoCall) : Prop :=
  match c with
  | InsertVertex v => v ∉ spec_vertices s
  | RemoveVertex v => v ∈ spec_vertices s
  | InsertEdge u v _ => u <> v /\ u ∈ spec_vertices s /\ v ∈ spec_vertices s /\ spec_arcs s !! (u, v) = None
  | RemoveEdge u v => is_Some (spec_arcs s !! (u, v))
  end.

Definition effect (s : Spec) (c : TeseoCall) : Spec :=
  match c with
  | InsertVertex v => spec_add_vertex s v
  | RemoveVertex v => spec_remove_vertex s v
  | InsertEdge u v w => spec_add_edge s u v w
  | RemoveEdge u v => spec_remove_edge s u v
  end.

Definition harmless (s : Spec) (c : TeseoCall) : Prop :=
  match c with RemoveVertex v => isolated s v | _ => True end.

Class TeseoLaws `{Teseo} := {
  t_graph : TDb -> Spec;
  t_conflicts : TDb -> nat;
  x_graph : TTx -> Spec;
  x_base : TTx -> Spec;
  x_conflicts : TTx -> nat;
  undirected_law : forall db, spec_directed (t_graph db) = false;
  start_law : forall db, x_graph (start_transaction db) = t_graph db /\ x_base (start_transaction db) = t_graph db /\
    x_conflicts (start_transaction db) = t_conflicts db;
  call_law : forall tx c, harmless (x_graph tx) c ->
    match tx_call tx c with
    | (Done, tx') => applies (x_graph tx) c /\ x_graph tx' = effect (x_graph tx) c /\ x_base tx' = x_base tx /\ x_conflicts tx' = x_conflicts tx
    | (LogicalErr, tx') => ~ applies (x_graph tx) c /\ x_base tx' = x_base tx /\ x_conflicts tx' = x_conflicts tx
    | (Conflict, tx') => x_base tx' = x_base tx /\ (x_conflicts tx' < x_conflicts tx)%nat
    end;
  commit_law : forall tx,
    match tx_commit tx with
    | (Done, db) => t_graph db = x_graph tx /\ t_conflicts db = x_conflicts tx
    | (LogicalErr, _) => False
    | (Conflict, db) => t_graph db = x_base tx /\ (t_conflicts db < x_conflicts tx)%nat
    end;
  close_law : forall tx, t_graph (tx_close tx) = x_base tx /\ t_conflicts (tx_close tx) = x_conflicts tx;
  num_vertices_law : forall tx, tx_num_vertices tx = Z.of_nat (size (spec_vertices (x_graph tx)));
  has_vertex_law : forall tx v, tx_has_vertex tx v = bool_decide (v ∈ spec_vertices (x_graph tx));
  num_edges_law : forall tx, tx_num_edges tx = Z.of_nat (size (spec_arcs (x_graph tx))) / 2;
  weight_law : forall tx u v, tx_get_weight tx u v = spec_arcs (x_graph tx) !! (u, v);
}.

(** ** One update *)

Section laws.
Context `{TeseoLaws}.

#[export] Instance applies_dec s c : Decision (applies s c).
Proof. destruct c; cbn [applies]; apply _. Defined.

Notation graph d := (t_graph (m_pImpl d)).
Notation conflicts d := (t_conflicts (m_pImpl d)).

(** The outcome of an update in the order of the alternatives of the law. *)
Inductive updated (d : TeseoDriver) (c : TeseoCall) : bool -> TDb -> Prop :=
  | updated_done db : applies (graph d) c -> t_graph db = effect (graph d) c -> (t_conflicts db <= conflicts d)%nat -> updated d c true db
  | updated_refused db : ~ applies (graph d) c -> t_graph db = graph d -> (t_conflicts db <= conflicts d)%nat -> updated d c false db
  | updated_conflict db : t_graph db = graph d -> (t_conflicts db < conflicts d)%nat -> updated d c false db.

Lemma update_spec d c : harmless (graph d) c ->
  exists b db, update d c = (b, set_db d db) /\ updated d c b db.
Proof.
  intros Hc. unfold update, transact. destruct (start_law (m_pImpl d)) as (Hg & Hb & Hn).
  pose proof (call_law (start_transaction (m_pImpl d)) c) as Hcall. rewrite Hg, Hb, Hn in Hcall. specialize (Hcall Hc).
  destruct (tx_call _ c) as [[] tx].
  - destruct Hcall as (Ha & Hg' & Hb' & Hn'). pose proof (commit_law tx) as Hcommit.
    destruct (tx_commit tx) as [[] db]; [|done|]; eexists _, db; (split; [done|]); destruct Hcommit as [E1 E2].
    + apply updated_done; [done|congruence|lia].
    + apply updated_conflict; [congruence|lia].
  - destruct Hcall as (Ha & Hb' & Hn'). destruct (close_law tx) as [E1 E2]. eexists _, _. split; [done|].
    apply updated_refused; [done|congruence|lia].
  - destruct Hcall as (Hb' & Hn'). destruct (close_law tx) as [E1 E2]. eexists _, _. split; [done|].
    apply updated_conflict; [congruence|lia].
Qed.

(** Without conflicts the answer says whether the call applies. *)
Lemma update_quiet d c : harmless (graph d) c -> conflicts d = 0%nat ->
  exists db, update d c = (bool_decide (applies (graph d) c), set_db d db) /\ t_conflicts db = 0%nat /\
    t_graph db = if bool_decide (applies (graph d) c) then effect (graph d) c else graph d.
Proof.
  intros Hc Hq. destruct (update_spec d c Hc) as (b & db & -> & Hu). exists db.
  destruct Hu as [db Ha Hg Hn|db Ha Hg Hn|db Hg Hn]; [| |lia].
  - rewrite bool_decide_eq_true_2 by done. split; [done|]. split; [lia|done].
  - rewrite bool_decide_eq_false_2 by done. split; [done|]. split; [lia|done].
Qed.

(** ** The look ups *)

Lemma lookups_spec d :
  num_vertices d = Z.of_nat (size (spec_vertices (graph d))) /\ num_edges d = Z.of_nat (size (spec_arcs (graph d))) / 2 /\
  (forall v, has_vertex d v = bool_decide (v ∈ spec_vertices (graph d))) /\
  forall u v, get_weight d u v = default d_max (spec_arcs (graph d) !! (u, v)).
Proof.
  destruct (start_law (m_pImpl d)) as (Hg & _). unfold num_vertices, num_edges, has_vertex, get_weight.
  rewrite num_vertices_law, num_edges_law, Hg. split; [done|]. split; [done|].
  split; [intros v; by rewrite has_vertex_law, Hg|intros u v; by rewrite weight_law, Hg].
Qed.

(** ** The contract of the interface *)

Definition teseo_repr (d : TeseoDriver) (s : Spec) : Prop :=
  m_is_directed d = false /\ graph d = s /\ conflicts d = 0%nat.

Definition teseo_admits (s : Spec) (u : Update) : Prop :=
  match u with
  | UAddVertex _ | URemoveEdge _ => True
  | URemoveVertex v => isolated s v
  | UAddEdge e => wsource e <> wdestination e
  | UAddEdgeV2 e => False
  end.

Lemma spec_remove_absent s v : v ∉ spec_vertices s -> spec_remove_vertex s v = s.
Proof. intros Hv. destruct s. unfold spec_remove_vertex. cbn in *. f_equal. set_solver. Qed.

Lemma spec_add_present s v : v ∈ spec_vertices s -> spec_add_vertex s v = s.
Proof. intros Hv. destruct s. unfold spec_add_vertex. cbn in *. f_equal. set_solver. Qed.

(** The call that an update makes. *)
Definition update_call (u : Update) : TeseoCall :=
  match u with
  | UAddVertex v => InsertVertex v
  | URemoveVertex v => RemoveVertex v
  | UAddEdge e | UAddEdgeV2 e => InsertEdge (wsource e) (wdestination e) (m_weight e)
  | URemoveEdge e => RemoveEdge (source e) (destination e)
  end.

Lemma call_update d u fuel : teseo_admits (graph d) u -> call d u fuel = Val (update d (update_call u)).
Proof.
  destruct u as [v|v|e|e|e]; intros Ha; try done. cbn [call Interface.add_edge teseo_interface]. unfold add_edge.
  by rewrite (proj2 (Z.eqb_neq _ _)) by done.
Qed.

Lemma contract_update s u : teseo_admits s u ->
  contract s u = (bool_decide (applies s (update_call u)), if bool_decide (applies s (update_call u)) then effect s (update_call u) else s).
Proof.
  destruct u as [v|v|e|e|e]; intros Ha; cbn [teseo_admits update_call applies effect contract] in *; try done.
  - destruct (bool_decide_reflect (v ∈ spec_vertices s)) as [Hv|Hv]; cbn [negb].
    + rewrite bool_decide_eq_false_2 by (intros Hn; by apply Hn). by rewrite spec_add_present.
    + by rewrite bool_decide_eq_true_2.
  - destruct (bool_decide_reflect (v ∈ spec_vertices s)) as [Hv|Hv].
    + by rewrite bool_decide_eq_true_2.
    + rewrite bool_decide_eq_false_2 by done. by rewrite spec_remove_absent.
  - destruct (bool_decide_reflect (wsource e ∈ spec_vertices s /\ wdestination e ∈ spec_vertices s /\ spec_arcs s !! (wsource e, wdestination e) = None)) as [Hb|Hb].
    + by rewrite bool_decide_eq_true_2 by (split; [exact Ha|exact Hb]).
    + rewrite bool_decide_eq_false_2; [done|]. intros [_ Hc]. by apply Hb.
  - destruct (bool_decide_reflect (is_Some (spec_arcs s !! (source e, destination e)))) as [Hb|Hb].
    + by rewrite bool_decide_eq_true_2.
    + by rewrite bool_decide_eq_false_2.
Qed.

(** An admitted update does what the contract says, or it conflicts. *)
Lemma call_spec d u : teseo_admits (graph d) u ->
  exists b db, (forall fuel, call d u fuel = Val (b, set_db d db)) /\
    (((b, t_graph db) = contract (graph d) u /\ (t_conflicts db <= conflicts d)%nat) \/
     (b = false /\ t_graph db = graph d /\ (t_conflicts db < conflicts d)%nat)).
Proof.
  intros Ha. destruct (update_spec d (update_call u)) as (b & db & E & Hu); [by destruct u|]. exists b, db.
  split; [intros fuel; by rewrite call_update, E|]. rewrite (contract_update _ _ Ha).
  destruct Hu as [db Hyes Hg Hn|db Hno Hg Hn|db Hg Hn]; [left|left|by right]; (split; [|exact Hn]).
  - by rewrite bool_decide_eq_true_2, Hg.
  - by rewrite bool_decide_eq_false_2, Hg.
Qed.

Lemma teseo_meets d s u : teseo_repr d s -> teseo_admits s u ->
  exists d', (forall fuel, call d u fuel = Val ((contract s u).1, d')) /\ teseo_repr d' (contract s u).2.
Proof.
  intros (Hdir & <- & Hq) Ha. destruct (call_spec d u Ha) as (b & db & Hcall & [[E Hn]|(_ & _ & Hn)]); [|lia].
  exists (set_db d db). rewrite <- E. cbn [fst snd]. split; [exact Hcall|]. split; [done|]. split; [done|].
  cbn [m_pImpl set_db]. lia.
Qed.

(** ** Conflicts

    A run of updates of which up to [n] conflict, with its answers and its last graph: an
    update that conflicts answers [false] and leaves the graph as it is. *)
Inductive conflicting : nat -> Spec -> list Update -> list bool -> Spec -> Prop :=
  | conflicting_nil n s : conflicting n s [] [] s
  | conflicting_effect n n' s b s1 u us answers s' : contract s u = (b, s1) -> (n' <= n)%nat ->
      conflicting n' s1 us answers s' -> conflicting n s (u :: us) (b :: answers) s'
  | conflicting_conflict n n' s u us answers s' : (n' < n)%nat ->
      conflicting n' s us answers s' -> conflicting n s (u :: us) (false :: answers) s'.

(** Updates that are admitted in their order, whichever of them conflict. *)
Fixpoint admitted_anyway (s : Spec) (us : list Update) : Prop :=
  match us with
  | [] => True
  | u :: us => teseo_admits s u /\ admitted_anyway (contract s u).2 us /\ admitted_anyway s us
  end.

Lemma run_conflicting us : forall d, admitted_anyway (graph d) us ->
  exists answers db, (forall fuel, run d us fuel = Val (answers, set_db d db)) /\
    conflicting (conflicts d) (graph d) us answers (t_graph db).
Proof.
  induction us as [|u us IH]; intros d Hadm; cbn [run].
  - exists [], (m_pImpl d). split; [by destruct d|constructor].
  - destruct Hadm as (Ha & Hdone & Hconflict). destruct (call_spec d u Ha) as (b & db & Hcall & Hcase).
    assert (admitted_anyway (graph (set_db d db)) us) as Hadm.
    { destruct Hcase as [[E _]|(_ & E & _)]; cbn [m_pImpl set_db]; [by rewrite <- E in Hdone|by rewrite E]. }
    destruct (IH (set_db d db) Hadm) as (answers & db' & Hrun & Hs). exists (b :: answers), db'. split.
    + intros fuel. rewrite Hcall, res_bind_Val_l. cbv beta iota. by rewrite Hrun.
    + cbn [m_pImpl set_db] in Hs. destruct Hcase as [[E Hn]|(-> & E & Hn)].
      * eapply conflicting_effect; [done|exact Hn|exact Hs].
      * eapply conflicting_conflict; [exact Hn|]. by rewrite <- E.
Qed.

(** Without conflicts it is a run of the contract. *)
Lemma conflicting_none s us answers s' : conflicting 0 s us answers s' -> contract_run s us = (answers, s').
Proof.
  intros Hr. remember 0%nat as n eqn:Hn. induction Hr as [n s|n n' s b s1 u us answers s' E Hle Hr IH|n n' s u us answers s' Hlt Hr IH]; [done| |lia].
  cbn [contract_run]. rewrite E. by rewrite IH by lia.
Qed.

(** ** Edges whose vertices are created *)

Notation new_edge e := (InsertEdge (wsource e) (wdestination e) (m_weight e)).

(** The insertion of an edge that fits is repeated until it does not conflict. *)
Lemma add_edge_loop_settles d e : applies (graph d) (new_edge e) ->
  exists db, settles (add_edge_loop d e) (Val (set_db d db)) /\ t_graph db = effect (graph d) (new_edge e) /\
    (t_conflicts db <= conflicts d)%nat.
Proof.
  remember (conflicts d) as n eqn:Hn. revert d Hn. induction (lt_wf n) as [n _ IH]. intros d -> Ha.
  assert (wsource e <> wdestination e) as Hne by apply Ha.
  destruct (update_spec d (new_edge e) I) as (b & db & E & Hu). inversion Hu as [db' _ Hg Hc|db' Hno _ _|db' Hg Hc]; subst; [|done|].
  - exists db. split; [|done]. exists 1%nat. intros [|fuel] Hf; [lia|]. cbn [add_edge_loop]. unfold add_edge.
    by rewrite (proj2 (Z.eqb_neq _ _)), E by done.
  - destruct (IH (t_conflicts db) Hc (set_db d db) eq_refl) as (db2 & [k Hk] & Hg2 & Hc2); [by cbn [m_pImpl set_db]; rewrite Hg|].
    exists db2. split; [|split; [by rewrite Hg2; cbn [m_pImpl set_db]; rewrite Hg|lia]]. exists (S k). intros [|fuel] Hf; [lia|].
    cbn [add_edge_loop]. unfold add_edge. rewrite (proj2 (Z.eqb_neq _ _)), E by done. rewrite res_bind_Val_l. cbv beta iota.
    by rewrite Hk by lia.
Qed.

(** The loop does not end when the edge exists or a vertex is missing. *)
Lemma add_edge_loop_stuck fuel : forall d e, wsource e <> wdestination e -> ~ applies (graph d) (new_edge e) -> add_edge_loop d e fuel = NoFuel.
Proof.
  induction fuel as [|fuel IH]; intros d e Hne Ha; [done|]. cbn [add_edge_loop]. unfold add_edge. rewrite (proj2 (Z.eqb_neq _ _)) by done.
  destruct (update_spec d (new_edge e) I) as (b & db & -> & Hu). rewrite res_bind_Val_l.
  destruct Hu as [db Hyes _ _|db _ Hg _|db Hg _]; [done|apply IH; [done|by cbn [m_pImpl set_db]; rewrite Hg]..].
Qed.

Lemma enrol_quiet d vs v : vs ⊆ spec_vertices (graph d) -> conflicts d = 0%nat ->
  exists db, enrol d vs v = ({[v]} ∪ vs, set_db d db) /\ t_graph db = spec_add_vertex (graph d) v /\ t_conflicts db = 0%nat.
Proof.
  intros Hvs Hq. unfold enrol. case_bool_decide as Hv.
  - exists (m_pImpl d). split; [|split; [|done]].
    + f_equal; [set_solver|by destruct d].
    + rewrite spec_add_present; [done|set_solver].
  - destruct (update_quiet d (InsertVertex v) I Hq) as (db & E & Hn & Hg). exists db. unfold add_vertex. rewrite E. split; [done|].
    split; [|done]. rewrite Hg. case_bool_decide as Ha; [done|]. cbn [applies] in Ha. apply dec_stable in Ha. by rewrite spec_add_present.
Qed.

(** Both vertices of an edge. *)
Lemma enrol_both d vs (e : WeightedEdge) : vs ⊆ spec_vertices (graph d) -> conflicts d = 0%nat ->
  exists vs' db,
    (let '(vs, d) := enrol d vs (wsource e) in enrol d vs (wdestination e)) = (vs', set_db d db) /\
    t_graph db = spec_add_vertex (spec_add_vertex (graph d) (wsource e)) (wdestination e) /\ t_conflicts db = 0%nat /\
    vs' ⊆ spec_vertices (t_graph db).
Proof.
  intros Hvs Hq. destruct (enrol_quiet d vs (wsource e) Hvs Hq) as (db1 & -> & Hg1 & Hq1).
  destruct (enrol_quiet (set_db d db1) ({[wsource e]} ∪ vs) (wdestination e)) as (db2 & -> & Hg2 & Hq2); [|done|].
  - cbn [m_pImpl set_db]. rewrite Hg1. cbn [spec_vertices spec_add_vertex]. set_solver.
  - eexists _, db2. split; [done|]. cbn [m_pImpl set_db] in Hg2. rewrite Hg2, Hg1. split; [done|]. split; [done|].
    cbn [spec_vertices spec_add_vertex]. set_solver.
Qed.

(** [add_edge_v2] of a new edge, while no transaction conflicts and the map of vertices
    is up to date. *)
Lemma add_edge_v2_new d e : vertices_v2 d ⊆ spec_vertices (graph d) -> conflicts d = 0%nat -> wsource e <> wdestination e ->
  spec_arcs (graph d) !! (wsource e, wdestination e) = None ->
  exists d', settles (add_edge_v2 d e) (Val ((contract (graph d) (UAddEdgeV2 e)).1, d')) /\
    graph d' = (contract (graph d) (UAddEdgeV2 e)).2 /\ conflicts d' = 0%nat /\ vertices_v2 d' ⊆ spec_vertices (graph d') /\
    m_is_directed d' = m_is_directed d.
Proof.
  intros Hvs Hq Hne Hnone. destruct (enrol_both d (vertices_v2 d) e Hvs Hq) as (vs & db & E & Hg & Hq1 & Hvs1).
  set (d1 := set_vertices (set_db d db) vs (vertices_v3 d) (vertices_u1 d)).
  destruct (add_edge_loop_settles d1 e) as (db2 & [k Hk] & Hg2 & Hq2).
  { cbn [applies d1 set_vertices set_db m_pImpl]. rewrite Hg. cbn [spec_vertices spec_add_vertex spec_arcs]. split; [done|].
    split; [set_solver|]. split; [set_solver|done]. }
  exists (set_db d1 db2). cbn [contract]. rewrite bool_decide_eq_true_2 by done. cbn [fst snd]. split; [|split; [|split; [|split; [|done]]]].
  - exists k. intros fuel Hf. unfold add_edge_v2. rewrite (proj2 (Z.eqb_neq _ _)) by done.
    destruct (enrol d (vertices_v2 d) (wsource e)) as [vs1 dx]. rewrite E. cbv beta iota. fold d1. by rewrite Hk.
  - cbn [m_pImpl set_db]. rewrite Hg2. cbn [m_pImpl d1 set_vertices set_db effect]. by rewrite Hg.
  - cbn [m_pImpl set_db d1 set_vertices] in *. lia.
  - cbn [m_pImpl set_db vertices_v2 d1 set_vertices] in *. rewrite Hg2, Hg. cbn [effect spec_add_edge spec_vertices].
    rewrite Hg in Hvs1. exact Hvs1.
Qed.

(** It never returns when the edge exists. *)
Lemma add_edge_v2_again d e fuel : vertices_v2 d ⊆ spec_vertices (graph d) -> conflicts d = 0%nat -> wsource e <> wdestination e ->
  is_Some (spec_arcs (graph d) !! (wsource e, wdestination e)) -> add_edge_v2 d e fuel = NoFuel.
Proof.
  intros Hvs Hq Hne [w Hw]. destruct (enrol_both d (vertices_v2 d) e Hvs Hq) as (vs & db & E & Hg & _).
  unfold add_edge_v2. rewrite (proj2 (Z.eqb_neq _ _)) by done. destruct (enrol d (vertices_v2 d) (wsource e)) as [vs1 dx]. rewrite E.
  rewrite add_edge_loop_stuck; [done|done|]. cbn [applies set_vertices set_db m_pImpl]. rewrite Hg. cbn [spec_arcs spec_add_vertex].
  rewrite Hw. intros (_ & _ & _ & Hn). discriminate Hn.
Qed.

(** Nor when the vertex is in the map but not in the graph, as after [remove_vertex]. *)
Lemma add_edge_v2_removed d e fuel : wsource e ∈ vertices_v2 d -> wdestination e ∈ vertices_v2 d -> wsource e <> wdestination e ->
  wsource e ∉ spec_vertices (graph d) -> add_edge_v2 d e fuel = NoFuel.
Proof.
  intros Hs Hd Hne Hv. unfold add_edge_v2, enrol. rewrite (proj2 (Z.eqb_neq _ _)) by done. rewrite !bool_decide_eq_true_2 by done.
  rewrite add_edge_loop_stuck; [done|done|]. cbn [applies set_vertices set_db m_pImpl]. tauto.
Qed.

(** Nor when the insertion of a new vertex conflicts, since its answer is ignored. *)
Lemma add_edge_v2_lost d e fuel : wsource e ∉ vertices_v2 d -> wdestination e ∈ vertices_v2 d -> wsource e <> wdestination e ->
  wsource e ∉ spec_vertices (graph d) -> (add_vertex d (wsource e)).1 = false -> add_edge_v2 d e fuel = NoFuel.
Proof.
  intros Hs Hd Hne Hv Hlost. unfold add_edge_v2. rewrite (proj2 (Z.eqb_neq _ _)) by done.
  unfold enrol at 1. rewrite bool_decide_eq_false_2 by done. unfold add_vertex in *.
  destruct (update_spec d (InsertVertex (wsource e)) I) as (b & db & E & Hu). rewrite E in *. cbn [fst snd] in *.
  unfold enrol. rewrite bool_decide_eq_true_2 by set_solver.
  rewrite add_edge_loop_stuck; [done|done|]. cbn [applies set_vertices set_db m_pImpl].
  destruct Hu as [db _ _ _|db _ Hg _|db Hg _]; [discriminate Hlost|rewrite Hg; tauto..].
Qed.

(** *** Updates of weights *)

Lemma update_edge_v1_spec d e : vertices_u1 d ⊆ spec_vertices (graph d) -> conflicts d = 0%nat -> wsource e <> wdestination e ->
  (forall w, spec_arcs (graph d) !! (wsource e, wdestination e) = Some w -> deq w d_max = false) ->
  let s := spec_add_vertex (spec_add_vertex (graph d) (wsource e)) (wdestination e) in
  exists d', settles (update_edge_v1 d e) (Val (true, d')) /\ conflicts d' = 0%nat /\
    graph d' = match spec_arcs (graph d) !! (wsource e, wdestination e) with
               | Some w => spec_add_edge (spec_remove_edge s (wsource e) (wdestination e)) (wsource e) (wdestination e) (dadd (m_weight e) w)
               | None => spec_add_edge s (wsource e) (wdestination e) (m_weight e)
               end.
Proof.
  intros Hvs Hq Hne Hmax s. destruct (enrol_both d (vertices_u1 d) e Hvs Hq) as (vs & db & E & Hg & Hq1 & _). fold s in Hg.
  set (d1 := set_vertices (set_db d db) (vertices_v2 d) (vertices_v3 d) vs).
  assert (spec_arcs s = spec_arcs (graph d)) as Harcs by done.
  assert (exists db', t_conflicts db' = 0%nat /\ update_edge_loop d1 e 1 = Val (set_db d1 db') /\
    t_graph db' = match spec_arcs (graph d) !! (wsource e, wdestination e) with
               | Some w => spec_add_edge (spec_remove_edge s (wsource e) (wdestination e)) (wsource e) (wdestination e) (dadd (m_weight e) w)
               | None => spec_add_edge s (wsource e) (wdestination e) (m_weight e)
               end) as (db' & Hq' & Hloop & Hg').
  { cbn [update_edge_loop]. destruct (lookups_spec d1) as (_ & _ & _ & Hw). rewrite Hw. cbn [m_pImpl d1 set_vertices set_db]. rewrite Hg, Harcs.
    destruct (spec_arcs (graph d) !! (wsource e, wdestination e)) as [w|] eqn:Hlook; cbn [default].
    - unfold id. rewrite (Hmax w eq_refl). cbn [negb].
      destruct (update_quiet d1 (RemoveEdge (wsource e) (wdestination e)) I) as (db1 & -> & Hc1 & Hg1); [done|].
      cbn [m_pImpl d1 set_vertices set_db] in Hg1 |- *. rewrite Hg in *.
      rewrite bool_decide_eq_true_2 in * by (cbn [applies]; rewrite Harcs, Hlook; by eexists).
      destruct (update_quiet (set_db d1 db1) (InsertEdge (wsource e) (wdestination e) (dadd (m_weight e) w)) I) as (db2 & E2 & Hc2 & Hg2); [done|].
      cbn [m_pImpl d1 set_vertices set_db] in *. rewrite E2. rewrite Hg1 in *. cbn [effect] in *. rewrite bool_decide_eq_true_2 in *.
      { by exists db2. }
      all: cbn [applies spec_remove_edge spec_vertices spec_arcs]; unfold s; cbn [spec_vertices spec_add_vertex spec_directed].
      all: split; [done|]; split; [set_solver|]; split; [set_solver|].
      all: rewrite undirected_law; rewrite lookup_delete_ne by congruence; by rewrite lookup_delete_eq.
    - assert (deq d_max d_max = true) as -> by by vm_compute. cbn [negb].
      destruct (update_quiet d1 (new_edge e) I) as (db2 & E2 & Hc2 & Hg2); [done|].
      cbn [m_pImpl d1 set_vertices set_db] in *. rewrite E2, Hg in *. rewrite bool_decide_eq_true_2 in *.
      { by exists db2. }
      all: cbn [applies]; rewrite Harcs; unfold s; cbn [spec_vertices spec_add_vertex]; split; [done|]; split; [set_solver|]; split; [set_solver|done]. }
  exists (set_db d1 db'). split; [|by split].
  exists 1%nat. intros fuel Hf. unfold update_edge_v1. destruct (enrol d (vertices_u1 d) (wsource e)) as [vs1 dx]. rewrite E. cbv beta iota.
  change (update_edge_loop _ e fuel) with (update_edge_loop d1 e fuel).
  assert (update_edge_loop d1 e fuel = Val (set_db d1 db')) as ->; [|done].
  destruct fuel as [|fuel]; [lia|]. revert Hloop. cbn [update_edge_loop].
  destruct (if negb _ then _ else _) as [removed d2]. destruct removed; [|done]. destruct (update d2 _) as [finished d3]. by destruct finished.
Qed.
End laws.

#[export] Program Instance teseo_contract `{TeseoLaws} : UpdateContract := {|
  represents := teseo_repr;
  admits := teseo_admits;
|}.
Next Obligation. intros H0 L d s (Hdir & <- & _). rewrite undirected_law. exact Hdir. Qed.
Next Obligation.
  intros H0 L d s u R Ha _. destruct (teseo_meets d s u R Ha) as (d' & Hcall & R'). exists d', 0%nat. by split.
Qed.

#[export] Instance teseo_load `{TeseoLaws} : LoadContract.
Proof. split; [done|]. by intros s e Hne _ _ _. Qed.


(** [add_edge_v2], in the same circumstances and with a map of vertices that are in the
    graph, does what the contract says for a new edge; it never returns for an edge that
    exists. *)
Theorem teseo_add_edge_v2 `{TeseoLaws} d s e
  (R : teseo_repr d s) (Hmap : vertices_v2 d ⊆ spec_vertices s) (Hloop : wsource e <> wdestination e) :
  if bool_decide (spec_arcs s !! (wsource e, wdestination e) = None)
  then exists d', settles (add_edge_v2 d e) (Val ((contract s (UAddEdgeV2 e)).1, d')) /\
         teseo_repr d' (contract s (UAddEdgeV2 e)).2 /\ vertices_v2 d' ⊆ spec_vertices (contract s (UAddEdgeV2 e)).2
  else forall fuel, add_edge_v2 d e fuel = NoFuel.
Proof.
  destruct R as (Hdir & <- & Hq). case_bool_decide as Hnone.
  - destruct (add_edge_v2_new d e Hmap Hq Hloop Hnone) as (d' & Hs & Hg & Hq' & Hv & Hd). exists d'. split; [done|]. rewrite <- Hg.
    split; [|done]. split; [congruence|]. by split.
  - intros fuel. apply add_edge_v2_again; [done..|]. destruct (spec_arcs _ !! _); [by eexists|done].
Qed.

(** ** Example: a database in memory

    The transactions conflict as a list says, each one when it commits. *)

Record MemDb := mkMemDb {
  md_vertices : gset Z;
  md_arcs : gmap (Z * Z) double;
  md_conflicts : list bool;
}.

Definition md_graph (m : MemDb) : Spec := mkSpec false (md_vertices m) (md_arcs m).

Definition md_with (m : MemDb) (s : Spec) : MemDb := mkMemDb (spec_vertices s) (spec_arcs s) (md_conflicts m).

(** A transaction has the database at its start and its own graph. *)
Definition mem_teseo : Teseo := {|
  TDb := MemDb;
  TTx := MemDb * MemDb;
  start_transaction := fun m => (m, m);
  tx_call := fun tx c =>
    if bool_decide (applies (md_graph tx.2) c) then (Done, (tx.1, md_with tx.2 (effect (md_graph tx.2) c))) else (LogicalErr, tx);
  tx_commit := fun tx =>
    match md_conflicts tx.1 with
    | true :: l => (Conflict, mkMemDb (md_vertices tx.1) (md_arcs tx.1) l)
    | _ :: l => (Done, mkMemDb (md_vertices tx.2) (md_arcs tx.2) l)
    | [] => (Done, mkMemDb (md_vertices tx.2) (md_arcs tx.2) [])
    end;
  tx_close := fst;
  tx_num_edges := fun tx => Z.of_nat (size (md_arcs tx.2)) / 2;
  tx_num_vertices := fun tx => Z.of_nat (size (md_vertices tx.2));
  tx_has_vertex := fun tx v => bool_decide (v ∈ md_vertices tx.2);
  tx_get_weight := fun tx u v => md_arcs tx.2 !! (u, v);
|}.

Definition count_conflicts (l : list bool) : nat := length (filter (fun b => b = true) l).

#[local] Existing Instance mem_teseo.

#[local] Program Instance mem_teseo_laws : TeseoLaws := {|
  t_graph := md_graph;
  t_conflicts := fun m => count_conflicts (md_conflicts m);
  x_graph := fun tx => md_graph tx.2;
  x_base := fun tx => md_graph tx.1;
  x_conflicts := fun tx => count_conflicts (md_conflicts tx.1);
|}.
Next Obligation. done. Qed.
Next Obligation. done. Qed.
Next Obligation.
  intros tx c _. cbn. case_bool_decide as Ha; [|done]. split; [done|]. split; [|done]. by destruct c.
Qed.
Next Obligation.
  intros [b t]. cbn [fst snd tx_commit mem_teseo]. destruct (md_conflicts b) as [|[] l]; [done| |done]. split; [done|].
  unfold count_conflicts. cbn [md_conflicts]. rewrite filter_cons_True by done. cbn [length]. lia.
Qed.
Next Obligation. done. Qed.
Next Obligation. done. Qed.
Next Obligation. done. Qed.
Next Obligation. done. Qed.
Next Obligation. done. Qed.

Definition ex_mem (conflicts : list bool) : TeseoDriver := mkTeseoDriver (mkMemDb ∅ ∅ conflicts) false true true 0 ∅ ∅ ∅.

Definition ex_edge : WeightedEdge := mkWeightedEdge (mkEdge 10 20) d_one.


Lemma teseo_add_edge_v2_witness :
  (exists d, settles (add_edge_v2 (ex_mem []) ex_edge) (Val (true, d)) /\ spec_arcs (t_graph (m_pImpl d)) !! (20, 10) = Some d_one /\
     forall fuel, add_edge_v2 d ex_edge fuel = NoFuel).
Proof.
  destruct (teseo_add_edge_v2 (H := mem_teseo) (ex_mem []) (spec_new false) ex_edge) as (d & Hs & R & Hv); [by split|done|done|].
  exists d. split; [exact Hs|]. split; [by destruct R as (_ & -> & _)|].
  apply (teseo_add_edge_v2 (H := mem_teseo) d _ ex_edge R Hv). done.
Defined.

(** The conflict of a new vertex is lost, and the insertion of its edge never ends. *)
Example teseo_lost_vertex :
  (add_vertex (ex_mem [true]) 10).1 = false /\
  match add_edge_v2 (ex_mem [true]) ex_edge 100 with NoFuel => true | _ => false end = true.
Proof. by vm_compute. Qed.

(** A conflict between the removal and the insertion of [update_edge_v1] loses the weight that
    the edge had. *)
Example teseo_lost_weight :
  let weight conflicts :=
    match update_edge_v1 (mkTeseoDriver (mkMemDb {[10; 20]} {[(10, 20) := d_one; (20, 10) := d_one]} conflicts) false true true 0 ∅ ∅ ∅)
            ex_edge 10 with
    | Val (_, d) => md_arcs (m_pImpl d) !! (10, 20)
    | _ => None
    end in
  weight [] = Some (double_of_Z 2) /\ weight [false; true] = Some d_one.
Proof. by vm_compute. Qed.
