(* ===== verification/TeseoKernels.v ===== *)
(** The kernels of the Teseo driver ([library/teseo/teseo_driver]), over a transaction in
    which the vertices have dense logical identifiers. They are the kernels of the CSR
    baseline on the graph that the transaction sees. *)

From S2P Require Import Prelude Graphs Doubles Gapbs Threads Bfs Wcc Sssp Edge AdjList Interface Teseo.
From S2P Require Csr CsrBfs CsrWcc CsrRank CsrLcc CsrSssp Snapshot.

(** ** What a transaction shows

    The external vertices in the order of their logical identifiers, and the edges of
    each in the order of the iterator. *)

Record Transaction := mkTransaction {
  tx_vertices : list Z;
  tx_edges : list (list (nat * double));
  tx_edge_count : nat;
}.

Class TeseoReads `{Teseo} := {
  tx_snapshot : TTx -> Transaction;
}.

Section transaction.
Context (t : Transaction) (logical : bool).

Definition tx_size : nat := length (tx_vertices t).

Definition vertex_id (v : nat) : res Z := arr_get (tx_vertices t) v.

Definition logical_id (ext : Z) : res nat :=
  match list_find (fun x => x = ext) (tx_vertices t) with Some (i, _) => Val i | None => Exn LogicalError end.

(** The edges of a vertex, as [iterator().edges] and [degree] see them: with logical
    identifiers on both sides, or with the external ones. A vertex that is not there raises
    inside of a parallel region or of a thread, and ends the program. *)
Definition edges_of (v : nat) : res (list (nat * double)) :=
  if logical then arr_get (tx_edges t) v
  else
    match list_find (fun x => x = Z.of_nat v) (tx_vertices t) with
    | Some (i, _) =>
      l ← arr_get (tx_edges t) i;
      res_fold (fun result e => ext ← vertex_id e.1; Val (result ++ [(Z.to_nat ext, e.2)])) [] l
    | None => Undef
    end.

Definition degree (v : nat) : res nat := l ← edges_of v; Val (length l).

(** [iterator().edges(v, logical, callback)]: a callback that returns [false] ends it. *)
Fixpoint scan {S} (f : S -> nat * double -> res (S * bool)) (st : S) (l : list (nat * double)) : res S :=
  match l with
  | [] => Val st
  | e :: l =>
    '(st, continue) ← f st e;
    if continue : bool then scan f st l else Val st
  end.

(** ** BFS *)

Definition bu_edge (distance : Z) (front : list bool) (u : nat) (st : list Z * list bool * Z) (e : nat * double) :
    res (list Z * list bool * Z * bool) :=
  let '(distances, next, awake_count) := st in
  b ← get_bit front e.1;
  if b : bool then
    distances ← arr_set distances u distance;
    next ← set_bit next u;
    Val (distances, next, i64 (awake_count + 1), false)
  else Val (st, true).

Definition bu_visit (distance : Z) (front : list bool) (st : list Z * list bool * Z) (u : nat) : res (list Z * list bool * Z) :=
  x ← arr_get st.1.1 u;
  if x <? 0 then l ← edges_of u; scan (bu_edge distance front u) st l else Val st.

Definition teseo_BUStep `{Omp} (distances : list Z) (distance : Z) (front next : list bool) : res (list Z * list bool * Z) :=
  res_fold (bu_visit distance front) (distances, bm_reset next, 0) (omp_order distance (seq 0 tx_size)).

Definition td_edge (distance : Z) (st : list Z * list nat * Z) (e : nat * double) : res (list Z * list nat * Z) :=
  let '(distances, lqueue, scout_count) := st in
  curr_val ← arr_get distances e.1;
  if curr_val <? 0 then
    distances ← arr_set distances e.1 distance;
    Val (distances, lqueue ++ [e.1], i64 (scout_count + i64 (- curr_val)))
  else Val st.

Definition teseo_TDStep `{Omp} (distances : list Z) (distance : Z) (queue : SlidingQueue) : res (list Z * SlidingQueue * Z) :=
  '(distances, lqueue, scout_count) ←
    res_fold (fun st u => l ← edges_of u; res_fold (td_edge distance) st l) (distances, [], 0) (omp_order distance (window queue));
  queue ← q_flush queue lqueue;
  Val (distances, queue, scout_count).

Definition teseo_QueueToBitmap `{Omp} (queue : SlidingQueue) (bm : list bool) : res (list bool) :=
  res_fold set_bit bm (omp_order 0 (window queue)).

Definition teseo_BitmapToQueue `{Omp} (bm : list bool) (queue : SlidingQueue) : res SlidingQueue :=
  lqueue ← res_fold (fun lqueue n => b ← get_bit bm n; Val (if b : bool then lqueue ++ [n] else lqueue)) []
    (omp_order 0 (seq 0 tx_size));
  queue ← q_flush queue lqueue;
  Val (slide_window queue).

Definition InitDistances `{Omp} : res (list Z) :=
  res_fold
    (fun distances n =>
       x ← (out_degree ← degree n;
            let out_degree := i64 (Z.of_nat out_degree) in
            Val (if negb (out_degree =? 0) then i64 (- out_degree) else -1));
       arr_set distances n x)
    (replicate tx_size 0) (omp_order 0 (seq 0 tx_size)).

Definition teseo_steps `{Omp} : BfsSteps := {|
  BUStep := teseo_BUStep;
  TDStep := teseo_TDStep;
  QueueToBitmap := teseo_QueueToBitmap;
  BitmapToQueue := teseo_BitmapToQueue;
|}.

Definition teseo_bfs `{Omp, Timer} (source : nat) (alpha beta : Z) : res (list Z * nat) :=
  distances ← InitDistances;
  distances ← arr_set distances source 0;
  queue ← q_push_back (SlidingQueue_new tx_size) source;
  let queue := slide_window queue in
  let curr := bm_reset (Bitmap_new tx_size) in
  let front := bm_reset (Bitmap_new tx_size) in
  scout_count ← degree source;
  bfs_loop teseo_steps (Z.of_nat tx_size) alpha beta (tx_size + 1)
    (mkBfsState distances queue curr front (i64 (Z.of_nat (tx_edge_count t))) (i64 (Z.of_nat scout_count)) 1)
    0 (tx_size + 1).

(** The external identifiers with the values. *)
Definition translate {T} (values : list T) (N : nat) : res (list (Z * T)) :=
  res_fold (fun result v => ext ← vertex_id v; x ← arr_get values v; Val (result ++ [(ext, x)])) [] (seq 0 N).

(** ** PageRank *)

Definition pr_contribution (scores : list double) (st : list double * list double) (v : nat) : res (list double * list double) :=
  let '(dangling, outgoing_contrib) := st in
  out_degree ← degree v;
  score ← arr_get scores v;
  if (out_degree =? 0)%nat then Val (dangling ++ [score], outgoing_contrib)
  else
    outgoing_contrib ← arr_set outgoing_contrib v (ddiv score (double_of_Z (Z.of_nat out_degree)));
    Val (dangling, outgoing_contrib).

Definition pr_score (outgoing_contrib : list double) (base_score damping_factor dangling_sum : double) (v : nat) : res double :=
  l ← edges_of v;
  incoming_total ← res_fold (fun incoming_total e => c ← arr_get outgoing_contrib e.1; Val (dadd incoming_total c)) d_zero l;
  Val (dadd base_score (dmul damping_factor (dadd incoming_total dangling_sum))).

Fixpoint pr_loop `{Omp, CsrRank.OmpReduce, Timer} (base_score damping_factor : double)
    (scores outgoing_contrib : list double) (k num_iterations : nat) : res (list double * nat) :=
  match num_iterations with
  | O => Val (scores, k)
  | S num_iterations =>
    if is_timeout k then Val (scores, S k)
    else
      '(dangling, outgoing_contrib) ← res_fold (pr_contribution scores) ([], outgoing_contrib)
        (omp_order (Z.of_nat k) (seq 0 tx_size));
      let dangling_sum := ddiv (CsrRank.omp_dsum (Z.of_nat k) dangling) (double_of_Z (Z.of_nat tx_size)) in
      scores ← res_fold
        (fun scores v => x ← pr_score outgoing_contrib base_score damping_factor dangling_sum v; arr_set scores v x)
        scores (omp_order (Z.of_nat k) (seq 0 tx_size));
      pr_loop base_score damping_factor scores outgoing_contrib (S k) num_iterations
  end.

Definition teseo_pagerank `{Omp, CsrRank.OmpReduce, Timer} (num_iterations : nat) (damping_factor : double) : res (list double * nat) :=
  let init_score := ddiv d_one (double_of_Z (Z.of_nat tx_size)) in
  let base_score := ddiv (dsub d_one damping_factor) (double_of_Z (Z.of_nat tx_size)) in
  scores ← res_fold (fun scores v => x ← Val init_score; arr_set scores v x)
    (replicate tx_size d_zero) (omp_order 0 (seq 0 tx_size));
  pr_loop base_score damping_factor scores (replicate tx_size d_zero) 0 num_iterations.

(** ** WCC *)

(** The edges, that do not change within the transaction, are read first. *)
Definition hook_vertex (u : nat) : prog answer unit := l ← lift (edges_of u); hook_edges u l.*1.

Definition teseo_wcc `{Omp, Timer} : res (list nat * nat) :=
  comp ← res_fold (fun comp n => x ← Val n; arr_set comp n x) (replicate tx_size 0%nat) (omp_order 0 (seq 0 tx_size));
  wcc_loop (hook_pass_of hook_vertex tx_size (length (concat (tx_edges t)))) (compress_pass_of tx_size) true comp 0 (tx_size + 2).

(** ** CDLP *)

Definition cdlp_label `{HashOrder} (labels0 : list Z) (v : nat) : res Z :=
  l ← edges_of v;
  histogram ← res_fold
    (fun histogram e => l ← arr_get labels0 e.1; Val (<[l := u64 (default 0 (histogram !! l) + 1)]> histogram)) (∅ : gmap Z Z) l;
  Val (foldl
    (fun (st : Z * Z) pair =>
       let '(label_max, count_max) := st in
       if (pair.2 >? count_max) || ((pair.2 =? count_max) && (pair.1 <? label_max)) then pair else st)
    (int64_max, 0) (hash_iter histogram)).1.

Fixpoint cdlp_loop `{Omp, HashOrder, Timer} (change : bool) (labels0 labels1 : list Z) (k max_iterations : nat) :
    res (list Z * nat) :=
  match max_iterations with
  | O => Val (labels0, k)
  | S max_iterations =>
    if negb change then Val (labels0, k)
    else if is_timeout k then Val (labels0, S k)
    else
      '(labels1, change) ← res_fold
        (fun '(labels1, change) v =>
           label_max ← cdlp_label labels0 v;
           labels1 ← arr_set labels1 v label_max;
           l ← arr_get labels0 v;
           Val (labels1, change || negb (l =? label_max)))
        (labels1, false) (omp_order (Z.of_nat k) (seq 0 tx_size));
      cdlp_loop change labels1 labels0 (S k) max_iterations
  end.

(** The labels are the external identifiers. *)
Definition teseo_cdlp `{Omp, HashOrder, Timer} (max_iterations : nat) : res (list Z * nat) :=
  labels0 ← res_fold (fun labels v => x ← (if logical then vertex_id v else Val (Z.of_nat v)); arr_set labels v x)
    (replicate tx_size 0) (omp_order 0 (seq 0 tx_size));
  cdlp_loop true labels0 (replicate tx_size 0) 0 max_iterations.

(** ** LCC *)

Definition lcc_vertex (v : nat) : res double :=
  degree_ ← degree v;
  if (degree_ <? 2)%nat then Val d_zero
  else
    l ← edges_of v;
    let neighbours := foldl (fun (neighbours : gset nat) (e : nat * double) => {[e.1]} ∪ neighbours) ∅ l in
    num_triangles ← res_fold
      (fun num_triangles e =>
         l ← edges_of e.1;
         res_fold
           (fun num_triangles (e : nat * double) =>
              Val (if decide (e.1 ∈ neighbours) then (num_triangles + 1)%nat else num_triangles))
           num_triangles l)
      0%nat l;
    Val (CsrLcc.lcc_score degree_ num_triangles).

Definition teseo_lcc `{Omp, Timer} : res (list double * nat) :=
  res_fold
    (fun '(lcc, k) v =>
       if is_timeout k then Val (lcc, S k)
       else x ← lcc_vertex v; lcc ← arr_set lcc v x; Val (lcc, S k))
    (replicate tx_size d_nan, 0%nat) (omp_order 0 (seq 0 tx_size)).

(** ** SSSP *)

Definition teseo_sssp `{Omp} (source : nat) (delta : double) (fuel : nat) : res (list double) :=
  sssp_of Val edges_of (tx_edge_count t) tx_size source delta fuel.

(** ** LCC, sort-merge implementation ([TeseoDriverLCC]) *)

(** The loop over the edges of [n2]. *)
Fixpoint merge_edges (m_neighbours : list nat) (n1 n2 marker num_triangles : nat) (tri : list nat) (l : list (nat * double)) :
    res (nat * list nat) :=
  match l with
  | [] => Val (num_triangles, tri)
  | (n3, _) :: l =>
    if (n2 <? n3)%nat then Val (num_triangles, tri)
    else if negb ((n2 <? n1) && (n3 <? n2))%nat then Undef
    else
      m ← arr_get m_neighbours marker;
      marker ← (if (m <? n3)%nat then CsrLcc.advance_marker m_neighbours n3 marker (length m_neighbours) else Val marker);
      if (length m_neighbours <=? marker)%nat then Val (num_triangles, tri)
      else
        m ← arr_get m_neighbours marker;
        if (n3 =? m)%nat then
          tri ← CsrLcc.add_triangles tri n2 2;
          tri ← CsrLcc.add_triangles tri n3 2;
          let marker := (marker + 1)%nat in
          if (length m_neighbours <=? marker)%nat then Val ((num_triangles + 2)%nat, tri)
          else merge_edges m_neighbours n1 n2 marker (num_triangles + 2) tri l
        else merge_edges m_neighbours n1 n2 marker num_triangles tri l
  end.

(** The loop over the edges of [n1]. *)
Fixpoint visit_neighbours (n1 : nat) (m_neighbours : list nat) (num_triangles : nat) (tri : list nat) (l : list (nat * double)) :
    res (nat * list nat) :=
  match l with
  | [] => Val (num_triangles, tri)
  | (n2, _) :: l =>
    if (n1 <? n2)%nat then Val (num_triangles, tri)
    else
      let m_neighbours := m_neighbours ++ [n2] in
      l2 ← edges_of n2;
      '(num_triangles, tri) ← merge_edges m_neighbours n1 n2 0 num_triangles tri l2;
      visit_neighbours n1 m_neighbours num_triangles tri l
  end.

Definition process_vertex (tri : list nat) (n1 : nat) : res (list nat) :=
  l ← edges_of n1;
  '(num_triangles, tri) ← visit_neighbours n1 [] 0 tri l;
  if (num_triangles =? 0)%nat then Val tri else CsrLcc.add_triangles tri n1 num_triangles.

(** The workers fetch windows of vertices as those of the CSR do. *)
Definition execute_workers `{Omp, Timer} (tri : list nat) : res (list nat * nat) :=
  '(windows, k) ← CsrLcc.fetch_tasks tx_size 0 0 (tx_size + 1);
  tri ← res_fold process_vertex tri (omp_order 0 (concat ((fun w => seq w.1 (w.2 - w.1)) <$> windows)));
  Val (tri, k).

Definition compute_scores (tri : list nat) : res (list double) :=
  res_fold
    (fun scores i =>
       num_triangles ← arr_get tri i;
       if (0 <? num_triangles)%nat then
         degree_ ← degree i;
         arr_set scores i (CsrLcc.lcc_score degree_ num_triangles)
       else Val scores)
    (replicate tx_size d_zero) (seq 0 tx_size).

Definition master_execute `{Omp, Timer} : res (list double * nat) :=
  '(tri, k) ← execute_workers (replicate tx_size 0%nat);
  if is_timeout k then Exn TimeoutError
  else scores ← compute_scores tri; Val (scores, (k + 1)%nat).

End transaction.

(** ** The methods of the driver *)

Section methods.
Context (t : Transaction).

(** The methods check the timer before and after the translation. *)
Definition finish `{Timer} {T} (negative : T -> bool) (max : T) (result : res (list T * nat)) : res (list (Z * T)) :=
  '(values, k) ← result;
  if is_timeout k then Exn TimeoutError
  else
    external_ids ← translate t values (tx_size t);
    if is_timeout (k + 1) then Exn TimeoutError
    else Val (Csr.save_results negative max true external_ids).

Definition bfs `{Omp, Timer} (source_vertex_id : Z) : res (list (Z * Z)) :=
  source ← logical_id t source_vertex_id;
  '(result, k) ← teseo_bfs t true source 15 18;
  if is_timeout k then Exn TimeoutError
  else
    external_ids ← translate t result (tx_size t);
    Val (Csr.save_results (fun x => x <? 0) int64_max false external_ids).

Definition pagerank `{Omp, CsrRank.OmpReduce, Timer} (num_iterations : nat) (damping_factor : double) : res (list (Z * double)) :=
  finish (fun x => dlt x d_zero) d_max (teseo_pagerank t true num_iterations damping_factor).

Definition wcc `{Omp, Timer} : res (list (Z * nat)) :=
  '(components, k) ← teseo_wcc t true;
  external_ids ← translate t components (tx_size t);
  if is_timeout k then Exn TimeoutError
  else Val (Csr.save_results (fun _ => false) 0%nat true external_ids).

Definition cdlp `{Omp, HashOrder, Timer} (max_iterations : nat) : res (list (Z * Z)) :=
  finish (fun _ => false) int64_max (teseo_cdlp t true max_iterations).

Definition lcc `{Omp, Timer} : res (list (Z * double)) := finish (fun x => dlt x d_zero) d_max (teseo_lcc t true).

Definition sssp `{Omp, Timer} (source_vertex_id : Z) (fuel : nat) : res (list (Z * double)) :=
  source ← logical_id t source_vertex_id;
  finish (fun x => dlt x d_zero) d_max (distances ← teseo_sssp t true source sssp_delta fuel; Val (distances, 0%nat)).

Definition lcc_sort_merge `{Omp, Timer} : res (list (Z * double)) :=
  '(scores, k) ← master_execute t true;
  if is_timeout k then Exn TimeoutError
  else
    external_ids ← translate t scores (tx_size t);
    Val (Csr.save_results (fun x => dlt x d_zero) d_max true external_ids).
End methods.

(** ** The graph of a transaction as a CSR *)

Record tx_wf (t : Transaction) : Prop := {
  wf_sorted : StronglySorted Z.lt (tx_vertices t);
  wf_length : length (tx_edges t) = length (tx_vertices t);
  wf_range : forall l p, l ∈ tx_edges t -> p ∈ l -> (p.1 < length (tx_vertices t))%nat;
}.

Definition csr_of (t : Transaction) : Csr.CSR :=
  let va := (fun v => Csr.off (tx_edges t) (S v)) <$> seq 0 (length (tx_edges t)) in
  let ea := (concat (tx_edges t)).*1 in
  let wa := (concat (tx_edges t)).*2 in
  Csr.mkCSR false (tx_size t) (tx_edge_count t) (list_to_map (zip (tx_vertices t) (seq 0 (tx_size t)))) (tx_vertices t) true
    va ea wa va ea wa 0.

(** Loops over steps that agree. *)
Lemma bu_loop_ext steps steps' : (forall a b c d, BUStep steps a b c d = BUStep steps' a b c d) -> forall fuel n beta a b c d e,
  bu_loop steps n beta a b c d e fuel = bu_loop steps' n beta a b c d e fuel.
Proof.
  intros H1. induction fuel as [|fuel IH]; intros n beta a b c d e; [done|]. cbn [bu_loop]. rewrite H1. apply res_bind_ext.
  intros [[x y] z]. by destruct (_ || _).
Qed.

Lemma bfs_loop_ext `{Timer} steps steps' :
  (forall a b c d, BUStep steps a b c d = BUStep steps' a b c d) -> (forall a b c, TDStep steps a b c = TDStep steps' a b c) ->
  (forall a b, QueueToBitmap steps a b = QueueToBitmap steps' a b) -> (forall a b, BitmapToQueue steps a b = BitmapToQueue steps' a b) ->
  forall fuel n alpha beta levels st k, bfs_loop steps n alpha beta levels st k fuel = bfs_loop steps' n alpha beta levels st k fuel.
Proof.
  intros H1 H2 H3 H4. induction fuel as [|fuel IH]; intros n alpha beta levels st k; [done|]. cbn [bfs_loop].
  destruct (is_timeout k); [done|]. destruct (q_empty _); [done|]. destruct (_ >? _).
  - rewrite H3. apply res_bind_ext. intros b. rewrite (bu_loop_ext steps steps' H1). apply res_bind_ext. intros [[[x y] z] w].
    rewrite H4. by apply res_bind_ext.
  - rewrite H2. by apply res_bind_ext; intros [[x y] z].
Qed.

Lemma wcc_loop_ext `{Timer} h h' c c' : (forall k comp, h k comp = h' k comp) -> (forall k comp, c k comp = c' k comp) ->
  forall fuel change comp k, wcc_loop h c change comp k fuel = wcc_loop h' c' change comp k fuel.
Proof.
  intros Hh Hc. induction fuel as [|fuel IH]; intros change comp k; [done|]. cbn [wcc_loop]. destruct change; [|done]. cbn [negb].
  destruct (is_timeout k); [done|]. rewrite Hh. apply res_bind_ext. intros [x y]. rewrite Hc. by apply res_bind_ext.
Qed.

Lemma sssp_of_ext `{Omp} idx e e' : (forall u, e u = e' u) -> forall n m source delta fuel,
  sssp_of idx e n m source delta fuel = sssp_of idx e' n m source delta fuel.
Proof.
  intros He n m source delta fuel. unfold sssp_of. apply res_bind_ext. intros i. apply res_bind_ext. intros dist.
  destruct (n =? 0)%nat; [done|]. generalize (mkSsspState dist ∅), 0, [source], 0%nat.
  induction fuel as [|fuel IH]; intros st b frontier iter; cbn [sssp_loop]; [done|]. destruct (b =? kMaxBin); [done|].
  rewrite (res_fold_ext _ (sssp_visit idx e' delta b)).
  - apply res_bind_ext. intros st'. by destruct (_ <=? _)%nat.
  - intros st' u. unfold sssp_visit. by rewrite He.
Qed.

Lemma sorted_NoDup l : StronglySorted Z.lt l -> NoDup l.
Proof.
  induction 1 as [|x l Hs IH Hx]; [constructor|]. apply NoDup_cons. split; [|done]. intros Hin.
  rewrite Forall_forall in Hx. specialize (Hx x Hin). lia.
Qed.

Section equivalence.
Context (t : Transaction) (Hwf : tx_wf t) (logical : bool).
Context (Hedges : forall v, edges_of t logical v = arr_get (tx_edges t) v).

Notation g := (csr_of t).

Lemma csr_of_flat : Csr.flat (Csr.m_out_v g) (Csr.m_out_e g) (Csr.m_out_w g) (tx_edges t).
Proof.
  split; [|intros v Hv|done..].
  - cbn [csr_of Csr.m_out_v]. by rewrite length_fmap, length_seq.
  - cbn [csr_of Csr.m_out_v]. by rewrite list_lookup_fmap, lookup_seq_lt.
Qed.

Lemma csr_of_repr : Csr.csr_repr g (tx_vertices t) (tx_edges t) (tx_edges t).
Proof.
  pose proof (sorted_NoDup _ (wf_sorted t Hwf)) as Hnd.
  split; try done; try apply csr_of_flat; try apply (wf_length t Hwf); try apply (wf_range t Hwf); [apply (wf_sorted t Hwf)|].
  split; [done|]. intros v i. cbn [csr_of Csr.m_ext2log]. assert (length (tx_vertices t) = length (seq 0 (tx_size t))) as Hl by (by rewrite length_seq).
  rewrite <- elem_of_list_to_map by (by rewrite fst_zip by lia). rewrite list_elem_of_lookup. setoid_rewrite lookup_zip_with_Some. split.
  - intros (k & x & y & [= <- <-] & Hx & Hy). apply lookup_seq in Hy as [-> _]. done.
  - intros Hv. exists i, v, i. split; [done|]. split; [done|]. apply lookup_seq. split; [lia|]. by apply lookup_lt_Some in Hv.
Qed.

(** A loop over the interval of a vertex is a loop over its edges. *)
Lemma out_loop {B} u (k : nat -> nat -> res B) (k' : list (nat * double) -> res B) :
  (forall s l, Csr.at_offset (Csr.m_out_e g) (Csr.m_out_w g) s l -> k s (s + length l)%nat = k' l) ->
  ('(first, second) ← Csr.get_out_interval g u; k first second) = (l ← edges_of t logical u; k' l).
Proof.
  intros Hk. rewrite Hedges. unfold Csr.get_out_interval. destruct (tx_edges t !! u) as [l|] eqn:Hl.
  - rewrite (Csr.get_interval_flat g _ _ _ _ _ _ csr_of_flat (wf_length t Hwf) Hl), (arr_get_val _ _ _ Hl). rewrite !res_bind_Val_l.
    apply Hk. by apply (Csr.at_offset_flat _ _ _ _ _ _ csr_of_flat).
  - unfold arr_get, Csr.get_interval_impl. rewrite Hl. apply lookup_ge_None in Hl. rewrite (wf_length t Hwf) in Hl.
    rewrite (proj2 (Nat.ltb_ge _ _)) by (cbn [csr_of Csr.m_num_vertices]; unfold tx_size; lia). done.
Qed.

Lemma in_loop {B} u (k : nat -> nat -> res B) (k' : list (nat * double) -> res B) :
  (forall s l, Csr.at_offset (Csr.m_in_e g) (Csr.m_in_w g) s l -> k s (s + length l)%nat = k' l) ->
  ('(first, second) ← Csr.get_in_interval g u; k first second) = (l ← edges_of t logical u; k' l).
Proof. apply (out_loop u k k'). Qed.

Lemma degree_csr u : Csr.get_out_degree g u = degree t logical u.
Proof. unfold Csr.get_out_degree, degree. apply out_loop. intros s l _. f_equal. lia. Qed.

Lemma loop_edges {B} (f : B -> nat -> res B) ea wa s l b : Csr.at_offset ea wa s l ->
  res_fold (fun b i => u ← arr_get ea i; f b u) b (seq s (length l)) = res_fold (fun b e => f b e.1) b l.
Proof. intros Hl. rewrite (Csr.edge_loop f ea wa s l b Hl). apply res_fold_fmap. Qed.

(** *** BFS *)

Lemma scan_csr d front u (st : list Z * list bool * Z) ea wa l : forall s, Csr.at_offset ea wa s l ->
  (found ← CsrBfs.bu_scan ea front s (length l);
   if found : bool then
     distances ← arr_set st.1.1 u d; next ← set_bit st.1.2 u; Val (distances, next, i64 (st.2 + 1))
   else Val st) = scan (bu_edge d front u) st l.
Proof.
  destruct st as [[dist next] c]. cbn [fst snd]. induction l as [|e l IH]; intros s Hl; [done|]. cbn [length CsrBfs.bu_scan scan bu_edge].
  destruct (Hl 0%nat e eq_refl) as [He _]. rewrite Nat.add_0_r in He. rewrite (arr_get_val _ _ _ He), res_bind_Val_l.
  destruct (get_bit front e.1) as [[]| | |]; cbn [mbind res_bind]; [| |done..].
  - destruct (arr_set dist u d) as [dist'| | |]; [|done..]. cbn [mbind res_bind]. by destruct (set_bit next u).
  - apply IH. by eapply Csr.at_offset_cons.
Qed.

Lemma bu_visit_csr d front st u : CsrBfs.bu_visit g d front st u = bu_visit t logical d front st u.
Proof.
  unfold CsrBfs.bu_visit, bu_visit. destruct st as [[dist next] c]. cbn [fst snd]. apply res_bind_ext. intros x.
  destruct (x <? 0); [|done]. apply in_loop. intros s l Hl. replace (s + length l - s)%nat with (length l) by lia.
  rewrite <- (scan_csr d front u (dist, next, c) _ _ l s Hl). destruct l; [done|]. cbn [length Nat.eqb]. done.
Qed.

Lemma td_visit_csr d st u : CsrBfs.td_visit g d st u = (l ← edges_of t logical u; res_fold (td_edge d) st l).
Proof.
  unfold CsrBfs.td_visit. apply out_loop. intros s l Hl. replace (s + length l - s)%nat with (length l) by lia.
  rewrite (loop_edges (CsrBfs.td_edge d) _ _ s l st Hl). destruct l; [done|]. cbn [length Nat.eqb]. apply res_fold_ext. done.
Qed.

Lemma do_bfs_csr `{Omp, Timer} source alpha beta : CsrBfs.do_bfs g source alpha beta = teseo_bfs t logical source alpha beta.
Proof.
  unfold CsrBfs.do_bfs, teseo_bfs. assert (CsrBfs.do_bfs_init_distances g = InitDistances t logical) as ->.
  { apply res_fold_ext. intros a n. by rewrite degree_csr. }
  apply res_bind_ext. intros distances. apply res_bind_ext. intros distances'. apply res_bind_ext. intros q. cbv zeta.
  rewrite degree_csr. apply res_bind_ext. intros scout_count. apply bfs_loop_ext; [| |done|done]; cbn [CsrBfs.csr_steps teseo_steps BUStep TDStep].
  - intros a b c d. unfold CsrBfs.do_bfs_BUStep, teseo_BUStep. apply res_fold_ext. apply bu_visit_csr.
  - intros a b c. unfold CsrBfs.do_bfs_TDStep, teseo_TDStep. by rewrite (res_fold_ext _ _ _ (td_visit_csr b)).
Qed.

(** *** PageRank *)

Lemma pr_contribution_csr scores st v : CsrRank.pr_contribution g scores st v = pr_contribution t logical scores st v.
Proof. unfold CsrRank.pr_contribution, pr_contribution. by rewrite degree_csr. Qed.

Lemma pr_score_csr contrib base damping dangling v :
  CsrRank.pr_score g contrib base damping dangling v = pr_score t logical contrib base damping dangling v.
Proof.
  unfold CsrRank.pr_score, pr_score. apply in_loop. intros s l Hl. replace (s + length l - s)%nat with (length l) by lia.
  by rewrite (loop_edges (fun a u => c ← arr_get contrib u; Val (dadd a c)) _ _ s l _ Hl).
Qed.

Lemma pr_loop_csr `{Omp, CsrRank.OmpReduce, Timer} base damping num : forall scores contrib k,
  CsrRank.pr_loop g base damping scores contrib k num = pr_loop t logical base damping scores contrib k num.
Proof.
  induction num as [|num IH]; intros scores contrib k; [done|]. cbn [CsrRank.pr_loop pr_loop]. destruct (is_timeout k); [done|].
  rewrite (res_fold_ext _ _ _ (pr_contribution_csr scores)). apply res_bind_ext. intros [dangling contrib'].
  cbv zeta. rewrite (res_fold_ext _ (fun scores v => x ← pr_score t logical contrib' base damping
    (ddiv (CsrRank.omp_dsum (Z.of_nat k) dangling) (double_of_Z (Z.of_nat (tx_size t)))) v; arr_set scores v x)).
  - by apply res_bind_ext.
  - intros a v. by rewrite pr_score_csr.
Qed.

(** *** The other kernels *)

Lemma hook_vertex_csr u : CsrWcc.hook_vertex g u = hook_vertex t logical u.
Proof.
  unfold CsrWcc.hook_vertex, hook_vertex. assert (CsrWcc.destinations g u = (l ← edges_of t logical u; Val l.*1)) as ->.
  { apply out_loop. intros s l Hl. replace (s + length l - s)%nat with (length l) by lia.
    by rewrite (loop_edges (fun vs v => Val (vs ++ [v])) _ _ s l _ Hl), (res_fold_collect fst). }
  by destruct (edges_of t logical u).
Qed.

Lemma do_wcc_csr `{Omp, Timer} : CsrWcc.do_wcc g = teseo_wcc t logical.
Proof.
  unfold CsrWcc.do_wcc, teseo_wcc. apply res_bind_ext. intros comp. apply wcc_loop_ext; [|done].
  intros k c. unfold CsrWcc.hook_pass, hook_pass_of. cbn [csr_of Csr.m_out_e Csr.m_num_vertices]. rewrite length_fmap. f_equal.
  apply list_fmap_ext. intros i u _. apply hook_vertex_csr.
Qed.

Lemma cdlp_label_csr `{HashOrder} labels v : CsrRank.cdlp_label g labels v = cdlp_label t logical labels v.
Proof.
  unfold CsrRank.cdlp_label, cdlp_label. cbn [csr_of Csr.m_is_directed]. apply out_loop. intros s l Hl. unfold CsrRank.cdlp_count.
  replace (s + length l - s)%nat with (length l) by lia.
  rewrite (loop_edges (fun (h : gmap Z Z) u => l ← arr_get labels u; Val (<[l := u64 (default 0 (h !! l) + 1)]> h)) _ _ s l _ Hl).
  by apply res_bind_ext.
Qed.

Lemma cdlp_loop_csr `{Omp, HashOrder, Timer} num : forall change labels0 labels1 k,
  CsrRank.cdlp_loop g change labels0 labels1 k num = cdlp_loop t logical change labels0 labels1 k num.
Proof.
  induction num as [|num IH]; intros change labels0 labels1 k; [done|]. cbn [CsrRank.cdlp_loop cdlp_loop]. destruct change; [|done]. cbn [negb].
  destruct (is_timeout k); [done|].
  rewrite (res_fold_ext (CsrRank.cdlp_vertex g labels0) (fun '(labels1, change) v =>
           label_max ← cdlp_label t logical labels0 v; labels1 ← arr_set labels1 v label_max; l ← arr_get labels0 v;
           Val (labels1, change || negb (l =? label_max)))).
  - apply res_bind_ext. intros [x y]. apply IH.
  - intros [x y] v. unfold CsrRank.cdlp_vertex. by rewrite cdlp_label_csr.
Qed.

Lemma lcc_vertex_csr v : CsrLcc.lcc_undirected_vertex g v = lcc_vertex t logical v.
Proof.
  unfold CsrLcc.lcc_undirected_vertex, lcc_vertex. rewrite degree_csr. apply res_bind_ext. intros d. destruct (d <? 2)%nat; [done|].
  apply out_loop. intros s l Hl. replace (s + length l - s)%nat with (length l) by lia.
  rewrite (loop_edges (fun (n : gset nat) u => Val ({[u]} ∪ n)) _ _ s l _ Hl).
  assert (forall (S : gset nat), res_fold (fun (b : gset nat) (e : nat * double) => Val ({[e.1]} ∪ b)) S l =
    Val (foldl (fun (neighbours : gset nat) (e : nat * double) => {[e.1]} ∪ neighbours) S l)) as Hset.
  { clear. induction l as [|e l IH]; intros S; [done|]. cbn [res_fold foldl]. rewrite res_bind_Val_l. apply IH. }
  rewrite Hset, res_bind_Val_l. set (S := foldl _ _ _).
  rewrite (loop_edges (fun n u => CsrLcc.count_closing g S n u) _ _ s l _ Hl).
  rewrite (res_fold_ext _ (fun num_triangles e => l ← edges_of t logical e.1;
     res_fold (fun num_triangles (e : nat * double) => Val (if decide (e.1 ∈ S) then (num_triangles + 1)%nat else num_triangles)) num_triangles l)); [done|].
  intros n e. unfold CsrLcc.count_closing. apply out_loop. intros s' l' Hl'. replace (s' + length l' - s')%nat with (length l') by lia.
  by rewrite (loop_edges (fun n w => Val (if decide (w ∈ S) then (n + 1)%nat else n)) _ _ s' l' _ Hl').
Qed.

Lemma sssp_edges_csr u : CsrSssp.sssp_edges g u = edges_of t logical u.
Proof.
  unfold CsrSssp.sssp_edges. etrans; [apply (out_loop u _ Val)|by destruct (edges_of t logical u)]. intros s l Hl.
  replace (s + length l - s)%nat with (length l) by lia. by rewrite (CsrSssp.weighted_loop _ _ s l [] Hl).
Qed.

Lemma merge_edges_csr ea wa nb n1 n2 l : forall s marker num tri, Csr.at_offset ea wa s l ->
  CsrLcc.merge_loop ea nb n1 n2 s (length l) marker num tri = merge_edges nb n1 n2 marker num tri l.
Proof.
  induction l as [|[n3 w] l IH]; intros s marker num tri Hl; [done|]. cbn [length CsrLcc.merge_loop merge_edges].
  destruct (Hl 0%nat (n3, w) eq_refl) as [He _]. rewrite Nat.add_0_r in He. rewrite (arr_get_val _ _ _ He), res_bind_Val_l. cbn [fst].
  pose proof (Csr.at_offset_cons _ _ _ _ _ Hl) as Hl'.
  destruct (n2 <? n3)%nat; [done|]. destruct (negb _); [done|]. apply res_bind_ext. intros m. apply res_bind_ext. intros marker'.
  destruct (_ <=? _)%nat; [done|]. apply res_bind_ext. intros m'. destruct (n3 =? m')%nat; [|by apply IH].
  apply res_bind_ext. intros tri'. apply res_bind_ext. intros tri''. cbv zeta. destruct (_ <=? _)%nat; [done|]. by apply IH.
Qed.

Lemma visit_neighbours_csr n1 l : forall s nb num tri, Csr.at_offset (Csr.m_out_e g) (Csr.m_out_w g) s l ->
  CsrLcc.neighbours_loop g n1 s (length l) nb num tri = visit_neighbours t logical n1 nb num tri l.
Proof.
  induction l as [|[n2 w] l IH]; intros s nb num tri Hl; [done|]. cbn [length CsrLcc.neighbours_loop visit_neighbours].
  destruct (Hl 0%nat (n2, w) eq_refl) as [He _]. rewrite Nat.add_0_r in He. rewrite (arr_get_val _ _ _ He), res_bind_Val_l. cbn [fst].
  pose proof (Csr.at_offset_cons _ _ _ _ _ Hl) as Hl'. destruct (n1 <? n2)%nat; [done|]. cbv zeta. apply out_loop. intros s2 l2 Hl2.
  replace (s2 + length l2 - s2)%nat with (length l2) by lia. rewrite (merge_edges_csr _ _ _ _ _ l2 s2 _ _ _ Hl2).
  apply res_bind_ext. intros [num' tri']. by apply IH.
Qed.

Lemma process_vertex_csr tri n1 : CsrLcc.process_vertex g tri n1 = process_vertex t logical tri n1.
Proof.
  unfold CsrLcc.process_vertex, process_vertex. apply out_loop. intros s l Hl. replace (s + length l - s)%nat with (length l) by lia.
  by rewrite (visit_neighbours_csr n1 l s _ _ _ Hl).
Qed.

Lemma compute_scores_csr tri : CsrLcc.compute_scores g tri = compute_scores t logical tri.
Proof.
  unfold CsrLcc.compute_scores, compute_scores. apply res_fold_ext. intros scores i. apply res_bind_ext. intros n.
  destruct (0 <? n)%nat; [|done]. by rewrite degree_csr.
Qed.

Lemma master_execute_csr `{Omp, Timer} : CsrLcc.master_execute g = master_execute t logical.
Proof.
  unfold CsrLcc.master_execute, master_execute, CsrLcc.execute_workers, execute_workers. cbv zeta.
  change (Csr.m_num_vertices g) with (tx_size t). destruct (CsrLcc.fetch_tasks _ _ _ _) as [[windows k]| | |]; [|done..].
  rewrite !res_bind_Val_l. cbv beta iota. rewrite (res_fold_ext _ _ _ process_vertex_csr).
  destruct (res_fold _ _ _) as [tri| | |]; [|done..]. rewrite !res_bind_Val_l. cbv beta iota. destruct (is_timeout k); [done|].
  by rewrite compute_scores_csr.
Qed.

Lemma do_pagerank_csr `{Omp, CsrRank.OmpReduce, Timer} num damping : CsrRank.do_pagerank g num damping = teseo_pagerank t logical num damping.
Proof. unfold CsrRank.do_pagerank, teseo_pagerank. cbv zeta. apply res_bind_ext. intros scores. apply pr_loop_csr. Qed.

(** The label of a vertex is its external identifier. *)
Lemma do_cdlp_csr `{Omp, HashOrder, Timer} num :
  (forall v, (v < tx_size t)%nat -> (if logical then vertex_id t v else Val (Z.of_nat v)) = vertex_id t v) ->
  CsrRank.do_cdlp g num = teseo_cdlp t logical num.
Proof.
  intros Hlabel. unfold CsrRank.do_cdlp, teseo_cdlp. cbv zeta.
  rewrite (res_fold_ext_in (fun labels v => x ← (if logical then vertex_id t v else Val (Z.of_nat v)); arr_set labels v x)
    (fun labels v => x ← vertex_id t v; arr_set labels v x)).
  - apply res_bind_ext. intros labels. apply cdlp_loop_csr.
  - intros a v Hv. rewrite omp_perm in Hv. apply elem_of_seq in Hv. by rewrite Hlabel by lia.
Qed.

Lemma do_lcc_csr `{Omp, Timer} : CsrLcc.do_lcc g = teseo_lcc t logical.
Proof.
  unfold CsrLcc.do_lcc, CsrLcc.do_lcc_undirected, teseo_lcc, CsrLcc.lcc_loop. cbn [csr_of Csr.m_is_directed]. apply res_fold_ext.
  intros [scores k] v. destruct (is_timeout k); [done|]. by rewrite lcc_vertex_csr.
Qed.

Lemma do_sssp_csr `{Omp} root fuel : CsrSssp.do_sssp g root sssp_delta fuel = teseo_sssp t logical root sssp_delta fuel.
Proof. apply sssp_of_ext, sssp_edges_csr. Qed.
End equivalence.

(** *** The methods *)

Section methods_csr.
Context (t : Transaction) (Hwf : tx_wf t).

Notation g := (csr_of t).

Lemma seen v : edges_of t true v = arr_get (tx_edges t) v.
Proof. done. Qed.

Lemma translate_csr {T} (values : list T) n : Csr.translate g values n = translate t values n.
Proof. done. Qed.

Lemma logical_id_csr ext : logical_id t ext = match Csr.m_ext2log g !! ext with Some i => Val i | None => Exn LogicalError end.
Proof.
  unfold logical_id. destruct (Csr.cr_mapping _ _ _ _ (csr_of_repr t Hwf)) as [Hnd Hmap].
  destruct (list_find _ _) as [[i x]|] eqn:Hfind.
  - apply list_find_Some in Hfind as (Hi & -> & _). apply Hmap in Hi. by rewrite Hi.
  - apply list_find_None in Hfind. rewrite Forall_forall in Hfind.
    destruct (Csr.m_ext2log g !! ext) as [i|] eqn:Hi; [|done]. apply Hmap in Hi. exfalso.
    by apply (Hfind ext (list_elem_of_lookup_2 _ _ _ Hi)).
Qed.

Lemma wcc_csr `{Omp, Timer} : wcc t = CsrWcc.wcc g.
Proof. unfold CsrWcc.wcc. by rewrite (do_wcc_csr t Hwf true seen). Qed.

Lemma pagerank_csr `{Omp, CsrRank.OmpReduce, Timer} num damping : pagerank t num damping = CsrRank.pagerank g num damping.
Proof. unfold CsrRank.pagerank. by rewrite (do_pagerank_csr t Hwf true seen). Qed.

Lemma cdlp_csr `{Omp, HashOrder, Timer} num : cdlp t num = CsrRank.cdlp g num.
Proof. unfold CsrRank.cdlp. by rewrite (do_cdlp_csr t Hwf true seen). Qed.

Lemma lcc_csr `{Omp, Timer} : lcc t = CsrLcc.lcc g.
Proof. unfold CsrLcc.lcc. by rewrite (do_lcc_csr t Hwf true seen). Qed.

Lemma sort_merge_csr `{Omp, Timer} lines : CsrLcc.lcc_sort_merge g = Val lines -> lcc_sort_merge t = Val lines.
Proof.
  unfold CsrLcc.lcc_sort_merge, lcc_sort_merge. rewrite (master_execute_csr t Hwf true seen). intros E. apply res_bind_val in E as ([scores k] & -> & E).
  rewrite res_bind_Val_l. cbv beta iota in *. destruct (is_timeout k); [done|]. apply res_bind_val in E as (ids & Hids & E).
  rewrite translate_csr in Hids. change (Csr.m_num_vertices g) with (tx_size t) in Hids. rewrite Hids, res_bind_Val_l.
  by destruct (is_timeout (k + 1)).
Qed.

Lemma bfs_csr `{Omp, Timer} source root lines : logical_id t source = Val root -> CsrBfs.bfs g source = Val lines -> bfs t source = Val lines.
Proof.
  intros Hid. unfold CsrBfs.bfs, bfs. rewrite Hid, res_bind_Val_l. rewrite logical_id_csr in Hid.
  destruct (Csr.m_ext2log g !! source) as [i|]; [|done]. injection Hid as ->. cbn [at_]. rewrite res_bind_Val_l, (do_bfs_csr t Hwf true seen). intros E.
  apply res_bind_val in E as ([result k] & -> & E). rewrite res_bind_Val_l. cbv beta iota in *. destruct (is_timeout k); [done|].
  apply res_bind_val in E as (ids & Hids & E). rewrite translate_csr in Hids. change (Csr.m_num_vertices g) with (tx_size t) in Hids.
  rewrite Hids, res_bind_Val_l. by destruct (is_timeout (k + 1)).
Qed.

Lemma sssp_csr `{Omp, Timer} source root fuel : logical_id t source = Val root -> sssp t source fuel = CsrSssp.sssp g source fuel.
Proof.
  intros Hid. unfold CsrSssp.sssp, sssp. rewrite Hid, res_bind_Val_l. rewrite logical_id_csr in Hid.
  destruct (Csr.m_ext2log g !! source) as [i|]; [|done]. injection Hid as ->. cbn [at_].
  rewrite res_bind_Val_l, (do_sssp_csr t Hwf true seen). unfold finish. by destruct (teseo_sssp t true root sssp_delta fuel).
Qed.

Lemma logical_id_spec source :
  if decide (source ∈ tx_vertices t) then exists root, logical_id t source = Val root /\ tx_vertices t !! root = Some source
  else logical_id t source = Exn LogicalError.
Proof.
  rewrite logical_id_csr. destruct (Csr.cr_mapping _ _ _ _ (csr_of_repr t Hwf)) as [Hnd Hmap].
  destruct (Csr.m_ext2log g !! source) as [i|] eqn:Hi.
  - apply Hmap in Hi. rewrite decide_True by (by eapply list_elem_of_lookup_2). by exists i.
  - rewrite decide_False; [done|]. intros [i Hin]%list_elem_of_lookup. apply Hmap in Hin. congruence.
Qed.
End methods_csr.

(** ** The graph of the driver

    Every arc is between vertices, and in both directions. *)

Record graph_ok (s : Spec) : Prop := {
  ok_ends : forall x y, arc s x y -> x ∈ spec_vertices s /\ y ∈ spec_vertices s;
  ok_sym : forall x y, spec_arcs s !! (x, y) = spec_arcs s !! (y, x);
}.

(** What a transaction shows of the graph that it sees. *)
Class TeseoReadsLaws `{TeseoLaws, !TeseoReads} := {
  shown_vertices : forall tx, StronglySorted Z.lt (tx_vertices (tx_snapshot tx)) /\
    forall x, x ∈ tx_vertices (tx_snapshot tx) <-> x ∈ spec_vertices (x_graph tx);
  shown_length : forall tx, length (tx_edges (tx_snapshot tx)) = length (tx_vertices (tx_snapshot tx));
  shown_edges : forall tx i x l, graph_ok (x_graph tx) -> tx_vertices (tx_snapshot tx) !! i = Some x -> tx_edges (tx_snapshot tx) !! i = Some l ->
    NoDup l.*1 /\ forall j w, (j, w) ∈ l <-> exists y, tx_vertices (tx_snapshot tx) !! j = Some y /\ spec_arcs (x_graph tx) !! (x, y) = Some w;
}.

(** The transaction of a kernel. *)
Definition openmp `{TeseoReads} (d : TeseoDriver) : Transaction := tx_snapshot (start_transaction (m_pImpl d)).

Section graph.
Context `{TeseoReadsLaws} (d : TeseoDriver) (s : Spec) (R : teseo_repr d s) (Hok : graph_ok s).

Notation t := (openmp d).

Lemma openmp_graph : x_graph (start_transaction (m_pImpl d)) = s.
Proof. destruct R as (_ & <- & _). apply start_law. Qed.

Lemma openmp_vertices x : x ∈ tx_vertices t <-> x ∈ spec_vertices s.
Proof. rewrite <- openmp_graph. apply shown_vertices. Qed.

Lemma openmp_edges i x l : tx_vertices t !! i = Some x -> tx_edges t !! i = Some l ->
  NoDup l.*1 /\ forall j w, (j, w) ∈ l <-> exists y, tx_vertices t !! j = Some y /\ spec_arcs s !! (x, y) = Some w.
Proof. pose proof openmp_graph as E. rewrite <- E. apply shown_edges. by rewrite E. Qed.

Lemma openmp_wf : tx_wf t.
Proof.
  split; [apply shown_vertices|apply shown_length|]. intros l [j w] [i Hi]%list_elem_of_lookup Hp. cbn [fst].
  destruct (lookup_lt_is_Some_2 (tx_vertices t) i) as [x Hx].
  { pose proof (shown_length (start_transaction (m_pImpl d))) as E. apply lookup_lt_Some in Hi. unfold openmp in *. by rewrite E in Hi. }
  destruct (openmp_edges i x l Hx Hi) as [_ Hin]. destruct (proj1 (Hin j w) Hp) as (y & Hy & _). by eapply lookup_lt_Some.
Qed.

(** Neighbours, with their names. *)
Lemma nbr_openmp i x : tx_vertices t !! i = Some x ->
  NoDup (Csr.nbr (tx_edges t) i) /\ forall j, j ∈ Csr.nbr (tx_edges t) i <-> exists y, tx_vertices t !! j = Some y /\ arc s x y.
Proof.
  intros Hx. destruct (lookup_lt_is_Some_2 (tx_edges t) i) as [l Hl].
  { rewrite (wf_length t openmp_wf). by eapply lookup_lt_Some. }
  destruct (openmp_edges i x l Hx Hl) as [Hnd Hin]. rewrite (Csr.nbr_lookup _ _ _ Hl). split; [done|]. intros j.
  rewrite list_elem_of_fmap. split.
  - intros ([j' w] & -> & Hp). apply Hin in Hp as (y & Hy & Hw). exists y. split; [done|]. by exists w.
  - intros (y & Hy & w & Hw). exists (j, w). split; [done|]. apply Hin. by exists y.
Qed.

Lemma nbr_inv i j : j ∈ Csr.nbr (tx_edges t) i -> exists x y, tx_vertices t !! i = Some x /\ tx_vertices t !! j = Some y /\ arc s x y.
Proof.
  intros Hj. destruct (Csr.nbr_out_lt (csr_of t) _ _ _ (csr_of_repr t openmp_wf) i j Hj) as [Hi _].
  destruct (lookup_lt_is_Some_2 (tx_vertices t) i Hi) as [x Hx]. apply (nbr_openmp i x Hx) in Hj as (y & Hy & Ha). by exists x, y.
Qed.

Lemma openmp_inj i j x : tx_vertices t !! i = Some x -> tx_vertices t !! j = Some x -> i = j.
Proof. apply NoDup_lookup. apply sorted_NoDup, openmp_wf. Qed.

Lemma openmp_coherent : Csr.coherent (tx_edges t) (tx_edges t).
Proof.
  intros i j. split; intros (x & y & Hx & Hy & [w Hw])%nbr_inv;
    [apply (nbr_openmp j y Hy); exists x|apply (nbr_openmp i y Hy); exists x]; (split; [done|]); exists w; by rewrite (ok_sym s Hok).
Qed.

(** Walks between logical vertices are walks between their names. *)
Lemma walk_names n i j x y : tx_vertices t !! i = Some x -> tx_vertices t !! j = Some y ->
  walk (fun u v => v ∈ Csr.nbr (tx_edges t) u) n i j <-> walk (arc s) n x y.
Proof.
  intros Hx Hy. split.
  - intros Hw. revert y Hy. induction Hw as [u|n u v w Hw IH Hv]; intros y Hy; [simplify_eq; constructor|].
    destruct (nbr_inv v w Hv) as (z & y' & Hz & Hy' & Ha). simplify_eq. econstructor; [by apply IH|done].
  - intros Hw. revert i j Hx Hy. induction Hw as [u|n u v w Hw IH Ha]; intros i j Hx Hy.
    + rewrite (openmp_inj i j u Hx Hy). constructor.
    + destruct (ok_ends s Hok v w Ha) as [Hv _]. apply openmp_vertices, list_elem_of_lookup in Hv as [k Hk].
      econstructor; [by apply (IH i k)|]. apply (nbr_openmp k v Hk). by exists w.
Qed.

Lemma hop_names n i j x y : tx_vertices t !! i = Some x -> tx_vertices t !! j = Some y ->
  hop_dist (fun u v => v ∈ Csr.nbr (tx_edges t) u) i j n <-> hop_dist (arc s) x y n.
Proof. intros Hx Hy. unfold hop_dist. by setoid_rewrite (fun m => walk_names m i j x y Hx Hy). Qed.

(** The lines of a search. *)
Lemma named_lines src root dist : tx_vertices t !! root = Some src -> length dist = tx_size t ->
  (forall v, (v < tx_size t)%nat -> exists x, dist !! v = Some x /\
     ((exists n, hop_dist (fun u v => v ∈ Csr.nbr (tx_edges t) u) root v n /\ x = Z.of_nat n) \/
      (~ reachable (fun u v => v ∈ Csr.nbr (tx_edges t) u) root v /\ x < 0))) ->
  Snapshot.bfs_lines s src (Csr.save_results (fun x => x <? 0) int64_max false (zip (tx_vertices t) dist)).
Proof.
  intros Hroot Hlen Hdist. unfold Csr.save_results. split.
  - rewrite <- list_fmap_compose. rewrite (list_fmap_ext _ fst) by (intros i [x z] _; cbn; by destruct (z <? 0)).
    rewrite fst_zip by (unfold tx_size in *; lia). apply NoDup_Permutation; [apply sorted_NoDup, openmp_wf|apply NoDup_elements|].
    intros x. by rewrite openmp_vertices, elem_of_elements.
  - intros x n ([x' z] & E & [v Hv]%list_elem_of_lookup)%list_elem_of_fmap. apply lookup_zip_with_Some in Hv as (x0 & z0 & [= <- <-] & Hx & Hz).
    destruct (Hdist v) as (z1 & Hz1 & Hcase); [by apply lookup_lt_Some in Hx|]. simplify_eq. cbn [fst snd negb andb] in E.
    destruct Hcase as [(m & Hm & ->)|[Hno Hneg]].
    + rewrite (proj2 (Z.ltb_ge _ _)) in E by lia. injection E as -> ->. left. exists m. split; [done|]. by apply (hop_names m root v).
    + rewrite (proj2 (Z.ltb_lt _ _)) in E by lia. injection E as -> ->. right. split; [done|]. intros [m Hm]. apply Hno. exists m.
      by apply (walk_names m root v src x').
Qed.
End graph.

(** BFS of the driver ends and, unless the time is over, writes every vertex of the graph
    once with its distance in hops from the source, or the largest integer when it cannot be
    reached, whatever the schedule of the threads and the changes of direction; a source that
    is not a vertex raises. *)
Theorem teseo_bfs_correct `{TeseoReadsLaws, Omp, Timer} d s src
  (R : teseo_repr d s) (Hok : graph_ok s) (Hsize : Z.of_nat (size (spec_vertices s)) < 2 ^ 62)
  (Hdeg : Z.of_nat (length (concat (tx_edges (openmp d)))) < 2 ^ 62) :
  if decide (src ∈ spec_vertices s) then
    (bfs (openmp d) src = Exn TimeoutError /\ exists k, is_timeout k = true) \/
    exists lines, bfs (openmp d) src = Val lines /\ Snapshot.bfs_lines s src lines
  else bfs (openmp d) src = Exn LogicalError.
Proof.
  pose proof (openmp_wf d s R Hok) as Hwf. pose proof (logical_id_spec _ Hwf src) as Hid.
  assert (src ∈ tx_vertices (openmp d) <-> src ∈ spec_vertices s) as Hin by (by apply openmp_vertices).
  case_decide as Hsrc; (case_decide as Hsrc'; [|]); try tauto; [|unfold bfs; by rewrite Hid].
  destruct Hid as (root & Hid & Hroot). unfold bfs. rewrite Hid, res_bind_Val_l, <- (do_bfs_csr _ Hwf true (seen _)).
  assert (Z.of_nat (tx_size (openmp d)) < 2 ^ 62) as HN.
  { unfold tx_size. rewrite <- (size_list_to_set (C := gset Z)) by apply sorted_NoDup, Hwf.
    assert (list_to_set (tx_vertices (openmp d)) = spec_vertices s) as ->; [|done].
    apply set_eq. intros x. rewrite elem_of_list_to_set. by apply openmp_vertices. }
  destruct (CsrBfs.do_bfs_spec (csr_of (openmp d)) _ _ _ (csr_of_repr _ Hwf) (openmp_coherent d s R Hok) HN Hdeg root 15 18)
    as (dist & k & -> & Hres); [by apply lookup_lt_Some in Hroot|lia|]. rewrite res_bind_Val_l. cbv beta iota.
  destruct (is_timeout k) eqn:Hk; [left; split; [done|by exists k]|].
  destruct Hres as [Hprev|[Hlen Hdist]]; [rewrite (is_timeout_mono (k - 1) k) in Hk by (done || lia); done|]. right.
  change (translate (openmp d) dist (tx_size (openmp d))) with (Csr.translate (csr_of (openmp d)) dist (Csr.m_num_vertices (csr_of (openmp d)))).
  rewrite (Csr.translate_spec _ _ _ _ (csr_of_repr _ Hwf)) by done. rewrite res_bind_Val_l. eexists. split; [done|].
  by apply (named_lines d s R Hok src root).
Qed.

(** On a transaction whose vertices are in increasing order and whose edges end at them,
    the kernels of the driver write the lines that those of the CSR write for the same
    graph: WCC, PageRank, CDLP, LCC and, from an existing source, SSSP; the sort-merge LCC
    and BFS, which check the timer once less, do whenever those of the CSR end in time. A
    source that does not exist raises. *)
Theorem teseo_kernels_csr `{Omp, CsrRank.OmpReduce, HashOrder, Timer} t (Hwf : tx_wf t) :
  wcc t = CsrWcc.wcc (csr_of t) /\
  (forall num damping, pagerank t num damping = CsrRank.pagerank (csr_of t) num damping) /\
  (forall num, cdlp t num = CsrRank.cdlp (csr_of t) num) /\
  lcc t = CsrLcc.lcc (csr_of t) /\
  (forall lines, CsrLcc.lcc_sort_merge (csr_of t) = Val lines -> lcc_sort_merge t = Val lines) /\
  forall source,
    if decide (source ∈ tx_vertices t) then
      (forall lines, CsrBfs.bfs (csr_of t) source = Val lines -> bfs t source = Val lines) /\
      forall fuel, sssp t source fuel = CsrSssp.sssp (csr_of t) source fuel
    else bfs t source = Exn LogicalError /\ forall fuel, sssp t source fuel = Exn LogicalError.
Proof.
  split; [by apply wcc_csr|]. split; [by apply pagerank_csr|]. split; [by apply cdlp_csr|]. split; [by apply lcc_csr|].
  split; [by apply sort_merge_csr|]. intros source. pose proof (logical_id_spec t Hwf source) as Hid. case_decide as Hin.
  - destruct Hid as (root & Hid & _). split; intros; [by eapply bfs_csr|by eapply sssp_csr].
  - unfold bfs, sssp. by rewrite Hid.
Qed.

(** ** Example: the database in memory *)

#[local] Existing Instances mem_teseo mem_teseo_laws.

Definition mem_vertices (m : MemDb) : list Z := merge_sort Z.le (elements (md_vertices m)).

Definition mem_edges (m : MemDb) (x : Z) : list (nat * double) :=
  omap (fun p => pair p.1 <$> md_arcs m !! (x, p.2)) (zip (seq 0 (length (mem_vertices m))) (mem_vertices m)).

#[local] Instance mem_reads : TeseoReads := {|
  tx_snapshot := fun tx => mkTransaction (mem_vertices tx.2) (mem_edges tx.2 <$> mem_vertices tx.2) (size (md_arcs tx.2) / 2);
|}.

Lemma mem_vertices_sorted m : StronglySorted Z.lt (mem_vertices m).
Proof.
  apply Csr.Sorted_lt_of_le.
  - unfold mem_vertices. rewrite (merge_sort_Permutation Z.le). apply NoDup_elements.
  - apply (Sorted_merge_sort Z.le).
Qed.

Lemma mem_teseo_edges (x : Z) (arcs : gmap (Z * Z) double) (vs : list Z) : forall i,
  NoDup (omap (fun p : nat * Z => pair p.1 <$> arcs !! (x, p.2)) (zip (seq i (length vs)) vs)).*1 /\
  forall j, j ∈ (omap (fun p : nat * Z => pair p.1 <$> arcs !! (x, p.2)) (zip (seq i (length vs)) vs)).*1 -> (i <= j)%nat.
Proof.
  induction vs as [|y vs IH]; intros i; [split; [constructor|intros j []%elem_of_nil]|].
  destruct (IH (S i)) as [Hnd Hle]. cbn [length seq zip zip_with omap list_omap fst snd].
  destruct (arcs !! (x, y)) as [w|]; cbn [fmap option_fmap option_map list_fmap fst].
  - split.
    + constructor; [|exact Hnd]. intros Hi%Hle. lia.
    + intros j [->|Hj%Hle]%elem_of_cons; lia.
  - split; [exact Hnd|]. intros j Hj%Hle. lia.
Qed.

#[local] Program Instance mem_reads_laws : TeseoReadsLaws.
Next Obligation.
  intros [b m]. cbn. split; [apply mem_vertices_sorted|]. intros x. unfold mem_vertices.
  rewrite (merge_sort_Permutation Z.le). apply elem_of_elements.
Qed.
Next Obligation. intros [b m]. cbn. apply length_fmap. Qed.
Next Obligation.
  intros [b m] i x l _ Hx. cbn in Hx |- *. rewrite list_lookup_fmap, Hx. intros [= <-]. split; [apply mem_teseo_edges|].
  intros j w. unfold mem_edges. rewrite list_elem_of_omap. split.
  - intros ([k y] & [n Hn]%list_elem_of_lookup & (w' & Hw & [= <- <-])%fmap_Some). cbn in Hw.
    apply lookup_zip_with_Some in Hn as (k' & y' & [= <- <-] & Hk & Hy). apply lookup_seq in Hk as [-> _]. by exists y.
  - intros (y & Hy & Hw). exists (j, y). cbn [fst snd]. split; [|by rewrite Hw].
    apply list_elem_of_lookup. exists j. apply lookup_zip_with_Some. exists j, y. split; [done|]. split; [|done].
    apply lookup_seq. split; [done|]. by eapply lookup_lt_Some.
Qed.

(** The path 10 - 20 - 30 and the vertex 40. *)
Definition ex_graph : MemDb :=
  mkMemDb {[10; 20; 30; 40]} {[(10, 20) := d_one; (20, 10) := d_one; (20, 30) := d_one; (30, 20) := d_one]} [].

Definition ex_teseo : TeseoDriver := mkTeseoDriver ex_graph false true true 0 ∅ ∅ ∅.

Lemma ex_teseo_repr : teseo_repr ex_teseo (md_graph ex_graph).
Proof. split; [done|]. by split. Qed.

Lemma ex_graph_ok : graph_ok (md_graph ex_graph).
Proof.
  assert (map_Forall (fun k w => k.1 ∈ md_vertices ex_graph /\ k.2 ∈ md_vertices ex_graph /\
    md_arcs ex_graph !! (k.2, k.1) = Some w) (md_arcs ex_graph)) as Hall.
  { apply (bool_decide_unpack _). by vm_compute. }
  split.
  - intros x y [w Hw]. apply Hall in Hw. cbn in Hw. tauto.
  - intros x y. cbn [spec_arcs md_graph]. destruct (md_arcs ex_graph !! (x, y)) as [w|] eqn:Hw.
    + apply Hall in Hw as (_ & _ & Hw). done.
    + destruct (md_arcs ex_graph !! (y, x)) as [w|] eqn:Hw'; [|done]. apply Hall in Hw' as (_ & _ & Hw').
      change (md_arcs ex_graph !! (x, y) = Some w) in Hw'. congruence.
Qed.

Lemma teseo_bfs_correct_witness :
  exists lines, @bfs (openmp ex_teseo) omp_backwards no_timeout 10 = Val lines /\ Snapshot.bfs_lines (md_graph ex_graph) 10 lines.
Proof.
  pose proof (@teseo_bfs_correct mem_teseo mem_teseo_laws mem_reads mem_reads_laws omp_backwards no_timeout ex_teseo _ 10
    ex_teseo_repr ex_graph_ok ltac:(by vm_compute) ltac:(by vm_compute)) as Hbfs.
  rewrite decide_True in Hbfs by (apply (bool_decide_unpack _); by vm_compute).
  destruct Hbfs as [[_ [k Hk]]|(lines & Hres & Hlines)]; [done|]. exists lines. by split.
Defined.

Lemma teseo_kernels_csr_witness :
  let t := openmp ex_teseo in
  @wcc t omp_backwards no_timeout = @CsrWcc.wcc omp_backwards no_timeout (csr_of t) /\
  forall fuel, @sssp t omp_backwards no_timeout 50 fuel = Exn LogicalError.
Proof.
  intros t. destruct (@teseo_kernels_csr omp_backwards CsrRank.reduce_left map_order no_timeout t
    (openmp_wf ex_teseo _ ex_teseo_repr ex_graph_ok)) as (Hwcc & _ & _ & _ & _ & Hs).
  specialize (Hs 50). rewrite decide_False in Hs by (apply (bool_decide_unpack _); by vm_compute).
  split; [exact Hwcc|]. apply Hs.
Defined.

(** The distances of the path, in the order of the vertices. *)
Example ex_teseo_bfs :
  @bfs (openmp ex_teseo) omp_backwards no_timeout 10 = Val [(10, 0); (20, 1); (30, 2); (40, int64_max)].
Proof. by vm_compute. Qed.
