(* ===== verification/TeseoReal.v ===== *)
(** The driver of the Teseo library for graphs whose vertices are [0, N)
    ([library/teseo/teseo_real_vtx]): its kernels scan the edges of the real vertices. *)

From S2P Require Import Prelude Graphs Doubles Gapbs Bfs Wcc Sssp Edge AdjList Interface Teseo TeseoKernels.
From S2P Require Csr CsrBfs CsrWcc CsrRank CsrLcc CsrSssp.

Section methods.
Context (t : Transaction).

(** The copy of the results, with the assertions that the identifier of a vertex is its
    logical one. *)
Definition materialize {T} (values : list T) : res (list (Z * T)) :=
  res_fold
    (fun external_ids v =>
       ext ← vertex_id t v;
       if negb (Z.of_nat v =? ext) then Undef
       else
         match logical_id t (Z.of_nat v) with
         | Val i => if (v =? i)%nat then x ← arr_get values v; Val (external_ids ++ [(ext, x)]) else Undef
         | _ => Undef
         end)
    [] (seq 0 (tx_size t)).

(** The methods check the timer before and after the copy. *)
Definition finish `{Timer} {T} (negative : T -> bool) (max : T) (negative_scores : bool) (result : res (list T * nat)) :
    res (list (Z * T)) :=
  '(values, k) ← result;
  if is_timeout k then Exn TimeoutError
  else
    external_ids ← materialize values;
    if is_timeout (k + 1) then Exn TimeoutError
    else Val (Csr.save_results negative max negative_scores external_ids).

Definition bfs `{Omp, Timer} (source_vertex_id : Z) : res (list (Z * Z)) :=
  finish (fun x => x <? 0) int64_max false (teseo_bfs t false (Z.to_nat source_vertex_id) 15 18).

Definition pagerank `{Omp, CsrRank.OmpReduce, Timer} (num_iterations : nat) (damping_factor : double) : res (list (Z * double)) :=
  finish (fun x => dlt x d_zero) d_max true (teseo_pagerank t false num_iterations damping_factor).

Definition wcc `{Omp, Timer} : res (list (Z * nat)) :=
  finish (fun _ => false) 0%nat true (teseo_wcc t false).

Definition cdlp `{Omp, HashOrder, Timer} (max_iterations : nat) : res (list (Z * Z)) :=
  finish (fun _ => false) int64_max true (teseo_cdlp t false max_iterations).

Definition lcc `{Omp, Timer} : res (list (Z * double)) :=
  finish (fun x => dlt x d_zero) d_max true (teseo_lcc t false).

Definition sssp `{Omp, Timer} (source_vertex_id : Z) (fuel : nat) : res (list (Z * double)) :=
  finish (fun x => dlt x d_zero) d_max true
    (distances ← teseo_sssp t false (Z.to_nat source_vertex_id) sssp_delta fuel; Val (distances, 0%nat)).

(** [TeseoRealVerticesLCC] *)
Definition lcc_sort_merge `{Omp, Timer} : res (list (Z * double)) :=
  finish (fun x => dlt x d_zero) d_max true (master_execute t false).
End methods.

(** ** Dense graphs *)

Definition dense (t : Transaction) : Prop := tx_vertices t = Z.of_nat <$> seq 0 (tx_size t).

#[export] Instance dense_dec t : Decision (dense t).
Proof. unfold dense. apply _. Defined.

Section dense.
Context (t : Transaction) (Hwf : tx_wf t) (Hdense : dense t).

Notation g := (csr_of t).

Lemma dense_lookup v : (v < tx_size t)%nat -> tx_vertices t !! v = Some (Z.of_nat v).
Proof. intros Hv. rewrite Hdense, list_lookup_fmap, lookup_seq_lt by done. done. Qed.

Lemma dense_name v : (v < tx_size t)%nat -> vertex_id t v = Val (Z.of_nat v).
Proof. intros Hv. apply arr_get_val. by apply dense_lookup. Qed.

Lemma dense_find v : list_find (fun x => x = Z.of_nat v) (tx_vertices t) = if decide (v < tx_size t)%nat then Some (v, Z.of_nat v) else None.
Proof.
  case_decide as Hv.
  - apply list_find_Some. split; [by apply dense_lookup|]. split; [done|]. intros j y Hj Hjv ->.
    rewrite dense_lookup in Hj by lia. injection Hj. lia.
  - apply list_find_None. apply Forall_forall. rewrite Hdense. intros x (i & -> & Hi%elem_of_seq)%list_elem_of_fmap. lia.
Qed.

Lemma dense_id v : (v < tx_size t)%nat -> logical_id t (Z.of_nat v) = Val v.
Proof. intros Hv. unfold logical_id. by rewrite dense_find, decide_True. Qed.

Lemma dense_edges v : edges_of t false v = arr_get (tx_edges t) v.
Proof.
  unfold edges_of. rewrite dense_find. case_decide as Hv.
  - destruct (lookup_lt_is_Some_2 (tx_edges t) v) as [l Hl]; [rewrite (wf_length t Hwf); exact Hv|].
    rewrite (arr_get_val _ _ _ Hl), res_bind_Val_l.
    assert (forall p, p ∈ l -> (p.1 < tx_size t)%nat) as Hr by (intros p; apply (wf_range t Hwf); by eapply list_elem_of_lookup_2).
    assert (forall acc, res_fold (fun result (e : nat * double) => ext ← vertex_id t e.1; Val (result ++ [(Z.to_nat ext, e.2)])) acc l = Val (acc ++ l)) as ->; [|done].
    clear Hl. induction l as [|[j w] l IH]; intros acc; [by rewrite app_nil_r|]. cbn [res_fold fst snd].
    rewrite dense_name by (apply (Hr (j, w)), list_elem_of_here). rewrite !res_bind_Val_l, Nat2Z.id, IH, <- app_assoc; [done|].
    intros p Hp. apply Hr. by apply list_elem_of_further.
  - unfold arr_get. rewrite lookup_ge_None_2; [done|]. rewrite (wf_length t Hwf). unfold tx_size in Hv. lia.
Qed.

Lemma materialize_dense {T} (values : list T) : materialize t values = Csr.translate g values (tx_size t).
Proof.
  rewrite translate_csr. apply res_fold_ext_in. intros a v [_ Hv]%elem_of_seq. cbn in Hv.
  rewrite dense_name, res_bind_Val_l, Z.eqb_refl, dense_id, Nat.eqb_refl by lia. done.
Qed.

Lemma finish_dense `{Timer} {T} negative max scores (result : res (list T * nat)) :
  finish t negative max scores result =
  ('(values, k) ← result;
   if is_timeout k then Exn TimeoutError
   else translation ← Csr.translate g values (tx_size t);
        if is_timeout (k + 1) then Exn TimeoutError else Val (Csr.save_results negative max scores translation)).
Proof. unfold finish. apply res_bind_ext. intros [values k]. by rewrite materialize_dense. Qed.
End dense.

(** A graph of which some vertex in [0, N) is missing. *)
Section holes.
Context (t : Transaction) (Hwf : tx_wf t).

Lemma not_dense : ~ dense t -> exists v, (v < tx_size t)%nat /\ Z.of_nat v ∉ tx_vertices t.
Proof.
  intros Hd. destruct (decide (Forall (fun v => Z.of_nat v ∈ tx_vertices t) (seq 0 (tx_size t)))) as [Hall|Hno].
  - exfalso. apply Hd. rewrite Forall_forall in Hall.
    assert (Z.of_nat <$> seq 0 (tx_size t) ≡ₚ tx_vertices t) as Hp.
    { apply submseteq_length_Permutation; [|rewrite length_fmap, length_seq; done]. apply NoDup_submseteq.
      - apply NoDup_fmap; [apply _|apply NoDup_seq].
      - intros x (v & -> & Hv)%list_elem_of_fmap. by apply Hall. }
    symmetry in Hp. apply (StronglySorted_unique Z.le); [..|exact Hp].
    + apply (Csr.StronglySorted_weaken Z.lt); [intros x y; lia|apply (wf_sorted t Hwf)].
    + apply Sorted_StronglySorted; [intros ???; lia|]. generalize 0%nat. clear. induction (tx_size t) as [|n IH]; intros i; [constructor|].
      cbn [seq]. rewrite fmap_cons. apply Sorted_cons; [apply IH|]. destruct n; constructor; lia.
  - apply not_Forall_Exists in Hno; [|intros v; apply _]. apply Exists_exists in Hno as (v & Hv & Hno). exists v. split; [|done].
    apply elem_of_seq in Hv. lia.
Qed.

Lemma edges_missing v : Z.of_nat v ∉ tx_vertices t -> edges_of t false v = Undef.
Proof.
  intros Hv. unfold edges_of. destruct (list_find _ _) as [[i x]|] eqn:Hf; [|done].
  apply list_find_Some in Hf as (Hi & -> & _). exfalso. by apply Hv, (list_elem_of_lookup_2 _ i).
Qed.

Lemma names_defined (l : list (nat * double)) : forall acc,
  let names := res_fold (fun result e => ext ← vertex_id t e.1; Val (result ++ [(Z.to_nat ext, e.2)])) acc l in
  names = Undef \/ exists l', names = Val l'.
Proof.
  induction l as [|e l IH]; intros acc; [right; by eexists|]. cbv zeta. cbn [res_fold]. unfold vertex_id, arr_get.
  destruct (tx_vertices t !! e.1) as [ext|]; [|by left]. cbn [require]. rewrite !res_bind_Val_l. apply IH.
Qed.

Lemma edges_defined v : edges_of t false v = Undef \/ exists l, edges_of t false v = Val l.
Proof.
  unfold edges_of. destruct (list_find _ _) as [[i x]|]; [|by left]. unfold arr_get. destruct (tx_edges t !! i) as [l|]; [|by left].
  cbn [require]. rewrite res_bind_Val_l. apply names_defined.
Qed.

Lemma init_distances_hole `{Omp} : ~ dense t -> InitDistances t false = Undef.
Proof.
  intros (v & Hv & Hno)%not_dense. apply (res_fold_undef (fun _ => True) _ _ v); [|done|..].
  - rewrite omp_perm. apply elem_of_seq. lia.
  - intros a _. unfold degree. by rewrite edges_missing.
  - intros a b _ _. unfold degree. destruct (edges_defined b) as [->|[l ->]]; [by left|]. rewrite !res_bind_Val_l. unfold arr_set.
    case_decide; [right; by eexists|by left].
Qed.
End holes.

Lemma fold_defined {A B} (f : list A -> B -> res (list A)) l n :
  (forall a b, f a b = Undef \/ exists a', f a b = Val a' /\ length a' = length a) ->
  forall a, length a = n -> res_fold f a l = Undef \/ exists a', res_fold f a l = Val a' /\ length a' = n.
Proof.
  intros Hf. induction l as [|b l IH]; intros a Ha; [right; by exists a|]. cbn [res_fold].
  destruct (Hf a b) as [->|(a' & -> & Ha')]; [by left|]. rewrite res_bind_Val_l. apply IH. congruence.
Qed.

Lemma init_distances_defined `{Omp} t :
  InitDistances t false = Undef \/ exists distances, InitDistances t false = Val distances /\ length distances = tx_size t.
Proof.
  apply fold_defined; [|apply length_replicate]. intros a v. unfold degree.
  destruct (edges_defined t v) as [->|[es ->]]; [by left|]. rewrite !res_bind_Val_l. unfold arr_set.
  case_decide as Hv; [right|by left]. eexists. split; [done|]. apply length_insert.
Qed.

Lemma source_csr t (Hwf : tx_wf t) (Hdense : dense t) source : 0 <= source ->
  Csr.m_ext2log (csr_of t) !! source = if decide (Z.to_nat source < tx_size t)%nat then Some (Z.to_nat source) else None.
Proof.
  intros Hs. destruct (Csr.cr_mapping _ _ _ _ (csr_of_repr t Hwf)) as [_ Hmap]. case_decide as Hlt.
  - apply Hmap. rewrite dense_lookup by done. f_equal. lia.
  - apply eq_None_not_Some. intros [i Hi]. apply Hmap in Hi. pose proof (lookup_lt_Some _ _ _ Hi) as Hi'.
    rewrite dense_lookup in Hi by done. injection Hi as <-. unfold tx_size in Hlt. lia.
Qed.

(** BFS over the real vertices is that of the CSR when the graph is dense and the source
    is one of its vertices; otherwise, when a vertex of [0, N) is missing or the source is not
    there, it runs into undefined behaviour and never raises. *)
Theorem real_bfs_dense `{Omp, Timer} t (Hwf : tx_wf t) source (Hsource : 0 <= source) :
  bfs t source =
    if decide (dense t /\ (Z.to_nat source < tx_size t)%nat) then CsrBfs.bfs (csr_of t) source else Undef.
Proof.
  destruct (decide (dense t)) as [Hdense|Hdense].
  - unfold bfs, CsrBfs.bfs. rewrite finish_dense, source_csr by done.
    destruct (decide (Z.to_nat source < tx_size t)%nat) as [Hs|Hs].
    + rewrite decide_True by (by split). cbn [at_]. by rewrite res_bind_Val_l, (do_bfs_csr t Hwf false (dense_edges t Hwf Hdense)).
    + rewrite decide_False by tauto. unfold teseo_bfs. destruct (init_distances_defined t) as [->|(l & -> & Hl)]; [done|].
      rewrite res_bind_Val_l. unfold arr_set. by rewrite decide_False by lia.
  - rewrite decide_False by tauto. unfold bfs, teseo_bfs. by rewrite init_distances_hole.
Qed.

(** On a dense graph the other kernels over the real vertices write the lines of the CSR
    for the same graph, sources included; WCC, which checks the timer once more, does
    whenever it ends in time. *)
Theorem real_kernels_csr `{Omp, CsrRank.OmpReduce, HashOrder, Timer} t (Hwf : tx_wf t) (Hdense : dense t) :
  (forall num damping, pagerank t num damping = CsrRank.pagerank (csr_of t) num damping) /\
  (forall num, cdlp t num = CsrRank.cdlp (csr_of t) num) /\
  lcc t = CsrLcc.lcc (csr_of t) /\
  lcc_sort_merge t = CsrLcc.lcc_sort_merge (csr_of t) /\
  (forall lines, wcc t = Val lines -> CsrWcc.wcc (csr_of t) = Val lines) /\
  forall source fuel, 0 <= source ->
    sssp t source fuel = if decide (Z.to_nat source < tx_size t)%nat then CsrSssp.sssp (csr_of t) source fuel else Undef.
Proof.
  pose proof (dense_edges t Hwf Hdense) as He. split; [|split; [|split; [|split; [|split]]]].
  - intros num damping. unfold pagerank, CsrRank.pagerank. by rewrite finish_dense, (do_pagerank_csr t Hwf false He) by done.
  - intros num. unfold cdlp, CsrRank.cdlp. rewrite finish_dense, (do_cdlp_csr t Hwf false He); [done| |done].
    intros v Hv. by rewrite dense_name.
  - unfold lcc, CsrLcc.lcc. by rewrite finish_dense, (do_lcc_csr t Hwf false He) by done.
  - unfold lcc_sort_merge, CsrLcc.lcc_sort_merge. by rewrite finish_dense, (master_execute_csr t Hwf false He) by done.
  - intros lines. unfold wcc, CsrWcc.wcc. rewrite finish_dense, (do_wcc_csr t Hwf false He) by done. intros E.
    apply res_bind_val in E as ([comp k] & -> & E). rewrite res_bind_Val_l. cbv beta iota in *. destruct (is_timeout k); [done|].
    apply res_bind_val in E as (ids & Hids & E). change (Csr.m_num_vertices (csr_of t)) with (tx_size t). rewrite Hids, res_bind_Val_l.
    by destruct (is_timeout (k + 1)).
  - intros source fuel Hs. unfold sssp, CsrSssp.sssp. rewrite finish_dense, source_csr by done. case_decide as Hlt.
    + cbn [at_]. rewrite res_bind_Val_l, (do_sssp_csr t Hwf false He). by destruct (teseo_sssp t false _ _ _).
    + unfold teseo_sssp, sssp_of. rewrite res_bind_Val_l. unfold arr_set. rewrite length_replicate, decide_False by done. done.
Qed.

(** ** Example: the path 0 - 1 - 2, and the same with a hole *)

Definition ex_dense : Transaction :=
  mkTransaction [0; 1; 2] [[(1%nat, d_one)]; [(0%nat, d_one); (2%nat, d_one)]; [(1%nat, d_one)]] 2.

Definition ex_hole : Transaction := mkTransaction [0; 1; 3] (tx_edges ex_dense) 2.

Lemma ex_dense_wf vs : vs = [0; 1; 2] \/ vs = [0; 1; 3] -> tx_wf (mkTransaction vs (tx_edges ex_dense) 2).
Proof.
  intros Hvs. split.
  - destruct Hvs as [-> | ->]; repeat constructor.
  - by destruct Hvs as [-> | ->].
  - assert (length vs = 3%nat) as Hl by (by destruct Hvs as [-> | ->]). cbn [tx_vertices tx_edges]. rewrite Hl.
    assert (Forall (fun l => Forall (fun p => (p.1 < 3)%nat) l) (tx_edges ex_dense)) as Hall by (repeat constructor).
    intros l p Hlin Hp. rewrite Forall_forall in Hall. specialize (Hall l Hlin). rewrite Forall_forall in Hall. by apply Hall.
Qed.

Lemma real_bfs_dense_witness :
  @bfs ex_dense omp_backwards no_timeout 2 = Val [(0, 2); (1, 1); (2, 0)] /\
  @bfs ex_hole omp_backwards no_timeout 1 = Undef.
Proof.
  split.
  - rewrite (@real_bfs_dense omp_backwards no_timeout ex_dense (ex_dense_wf _ (or_introl eq_refl)) 2) by done.
    rewrite decide_True by (split; [done|by apply (bool_decide_unpack _)]). by vm_compute.
  - rewrite (@real_bfs_dense omp_backwards no_timeout ex_hole (ex_dense_wf _ (or_intror eq_refl)) 1) by done.
    by rewrite decide_False by (intros [Hd _]; by apply (bool_decide_eq_true (dense ex_hole)) in Hd).
Defined.

Lemma real_kernels_csr_witness :
  @lcc ex_dense omp_backwards no_timeout = @CsrLcc.lcc omp_backwards no_timeout (csr_of ex_dense) /\
  exists lines, @wcc ex_dense omp_backwards no_timeout = Val lines /\ @CsrWcc.wcc omp_backwards no_timeout (csr_of ex_dense) = Val lines.
Proof.
  destruct (@real_kernels_csr omp_backwards CsrRank.reduce_left map_order no_timeout ex_dense (ex_dense_wf _ (or_introl eq_refl)) eq_refl)
    as (_ & _ & Hlcc & _ & Hwcc & _).
  split; [exact Hlcc|]. exists [(0, 0%nat); (1, 0%nat); (2, 0%nat)].
  assert (@wcc ex_dense omp_backwards no_timeout = Val [(0, 0%nat); (1, 0%nat); (2, 0%nat)]) as E by (by vm_compute).
  split; [exact E|]. by apply Hwcc.
Defined.
